(* ===== verification/_CoqProject ===== *)
-Q . S2P
Prelude.v
Shape.v
DType.v
FloatFormats.v
SymbolicShape.v
LiteGraph.v
LitePlanner.v
LiteFormat.v
LiteRuntime.v
Samplers.v
DataLoader.v
LoaderSafety.v
LoaderLive.v
LoaderFaults.v
MapSums.v
CudaHeap.v
CudaAllocator.v
CudaAllocatorInv.v
CudaAllocatorMerge.v
CudaAllocatorSafety.v
CudaAllocatorClient.v
AutogradSort.v
AutogradEngine.v
AutogradAdjoint.v
AutogradBackward.v
AutogradRelease.v
AutogradClient.v
JitOps.v
JitGraph.v
JitFlow.v
JitExec.v
JitMeaning.v
JitWf.v
JitEdit.v
JitSort.v
JitPreserve.v
JitPasses.v
JitDce.v
JitCse.v
JitOptimize.v
JitAlgebra.v
JitReshape.v
JitScalar.v
JitClient.v
JitMemory.v
JitMemoryGreedy.v
JitMemoryExec.v
JitMemoryPlan.v
JitMemoryClient.v
JitRemat.v
JitInsert.v
JitRematStep.v
JitRematLoop.v
JitSwapLoop.v
JitRematClient.v
JitCompile.v
Tensor.v
TensorViews.v
TensorKernels.v
TensorCopy.v
TensorContiguous.v
TensorGather.v
TensorRearrange.v
TensorLayout.v
TensorJoin.v
TensorClient.v
TensorExamples.v
SafeTensors.v
SafeTensorsJson.v
SafeTensorsLoad.v
SafeTensorsSave.v
SafeTensorsClient.v
SafeTensorsExamples.v
FloatAttrs.v
OpAttributes.v
LiteBridge.v
LiteExporter.v
LiteEmission.v
LiteSimulation.v
LiteExport.v
