(* ===== verification/Prelude.v ===== *)
(** * Tenzor: a verification development for the tensor library's core logic

    Tenzor (src/ and include/tenzor/) is a tensor library in C++: data types
    and shapes at the bottom, storage, kernels per backend with their memory
    allocators, an autograd engine, neural-network layers and optimizers, a JIT
    with its graphs, passes and symbolic shapes, a small inference runtime
    ("lite") with its own model format, and data loading.
    The development models the parts whose correctness is discrete: index and
    size arithmetic, tensor views and the kernels that move elements, number
    formats at bit level, parsers and printers, memory planning and allocation,
    graph algorithms and rewriting, graph execution and the concurrent data
    loader.  Numerical kernels, device code and bindings are outside it.

    ** Conventions

    A C++ integer is a [Z] kept at its width: [wrap w] is conversion to an
    unsigned type, [sgn w] to a signed one, and a signed operation without a
    check is [i64], whose failure is the value [UndefinedBehaviour].  Code that
    throws returns [result]; an exception carries its class and the constant
    part of its message.  Objects are records, methods are functions on them,
    loops over containers are [rmapM], [rfoldM] or recursion in the order of the
    code.  Objects that the code shares through pointers live in a heap and are
    named by their address (the allocator's blocks, the functions and variables
    of autograd, the values, nodes and graphs of the JIT).  Code supplied from
    outside (kernels, [Dataset::get], [collate_fn], the CUDA runtime, the
    [backward] of a function, the standard library's engines, distributions,
    hashes and unordered iteration) is an argument or a class with the
    documented laws.

    ** Files

    - Prelude.v: [result], machine integers, lists, tactics.  MapSums.v: sums
      over lists and maps.
    - Shape.v, Module [TShape]: include/tenzor/core/shape.hpp (the Shape class,
      row-major and channels-last strides, [broadcast_shapes]) over the checked
      arithmetic of core/checked_math.hpp and utils/safe_math.hpp.
    - DType.v: include/tenzor/core/dtype.hpp, the 22 data types, their tables and
      [promote_types].
    - FloatFormats.v: the encoders and decoders of src/core/dtype.cpp for
      Float16, BFloat16 and the four FP8 formats, on bit patterns, with a
      specification of rounding over exact scaled integers.
    - SymbolicShape.v, Module [Symbolic]: include/tenzor/jit/symbolic_shape.hpp,
      symbolic dimensions, their simplifying operators, symbolic broadcasting
      and the environment that resolves symbols.
    - LiteGraph.v, Module [Lite]: include/tenzor/lite/lite_graph.hpp and
      src/lite/lite_graph.cpp; [execute] runs nodes over a dense tensor pool.
    - LitePlanner.v, Module [Planner]: src/lite/memory_planner.cpp; liveness
      intervals and the greedy placement of intermediates in one pool.
    - LiteFormat.v, Module [Format]: src/lite/model_format.cpp; the TZLITE file:
      header, node table and the sections TVAL, WGTS, IOSP, META and MMPL, the
      bounds-checked reader and the two writers.
    - LiteRuntime.v, Module [Runtime]: src/lite/runtime.cpp and
      src/lite/tensor_bridge.cpp; loading with validation of the plan, weight
      views, input validation, [forward] and [create_input].
    - Samplers.v, Module [Samplers]: src/data/sampler.cpp; the five samplers
      behind the class [Sampler].
    - DataLoader.v, Module [Loader]: src/data/dataloader.cpp as a step function
      over the loader's fields and the program points of its threads.
      LoaderSafety.v holds the invariants of an epoch, LoaderLive.v the
      measure that decreases and the progress argument, LoaderFaults.v the runs
      on which the loader fails.
    - CudaAllocator.v: src/backend/cuda_caching_allocator.cpp for one device,
      the splitting and coalescing allocator; a block is its address.  The
      shape of its memory is CudaHeap.v (cells that tile the driver's
      allocations); CudaAllocatorInv.v and CudaAllocatorMerge.v preserve the
      invariant, the latter through freeing, coalescing and the cache limit,
      CudaAllocatorSafety.v what the operations do to the blocks in use, and
      CudaAllocatorClient.v states the contracts.
    - AutogradEngine.v: src/autograd/engine.cpp ([BackwardEngine]) with what it
      uses of function_base.cpp and variable.cpp.  AutogradSort.v is its
      topological sort, AutogradAdjoint.v the equations a backward pass solves
      and the proof that the loop solves them, AutogradBackward.v the same from
      heap to heap, AutogradRelease.v the reference counts and the release of
      the graph, AutogradClient.v the contracts.
    - JitOps.v, JitGraph.v: the operations, values, nodes and graphs of the JIT
      (include/tenzor/jit/graph.hpp, tracer.hpp) in a heap, the edits of
      src/jit/graph.cpp and the topological sort.  JitExec.v: [forward], the
      interpreter, over the class [Kernels].  JitPasses.v: dead code elimination,
      common subexpression elimination, algebraic simplification, reshape
      elimination and the loop of [Compiler::optimize] (src/jit/compiler.cpp).
    - JitFlow.v: straight-line programs of equations, their execution and their
      order-free solutions; JitMeaning.v: a run of a graph is an execution of its
      equations, [refines] and [transfers] compare heaps by their runs.
      JitWf.v, JitEdit.v: the invariant of the graph heap and its preservation by
      the edits; JitSort.v: the sort; JitPreserve.v: edits that keep runs.
      JitDce.v states what a pass promises ([Preserving]); it and JitCse.v
      discharge the promise.  JitOptimize.v states the weaker promise for runs
      on conforming tensors ([SoundPass], [TotalPass]) and proves the optimizer
      against it; JitAlgebra.v (class [AlgebraLaws]) and JitReshape.v discharge
      that one.  JitScalar.v decides the invariant and is an instance of all
      classes with an example graph, JitClient.v states the properties.
    - JitMemory.v: [MemoryPlanner] of src/jit/memory_planner.cpp and
      include/tenzor/jit/memory_planner.hpp with its pass: sizes, live ranges,
      greedy assignment, the plan.  JitMemoryGreedy.v: sizes, alignment, the
      choice of a slot and the invariant of the assignment; JitMemoryExec.v: the
      live ranges are the nodes that touch a value, and what a plan is for, an
      execution over pools of bytes (class [Layout]), and when it
      computes what [run] computes;
      JitMemoryPlan.v: the planner returns a plan with those facts;
      JitMemoryClient.v states the properties.
    - JitRemat.v: the rematerialization and swap planners of the same file.
      JitInsert.v: adding a node, redirecting a read;
      JitRematStep.v: edits that extend solutions ([edits]) and one recomputed
      value (class [RematLaws]); JitRematLoop.v: what a loop of such edits keeps
      ([progress]) and the loop; JitSwapLoop.v: the same for swapping; JitRematClient.v states the properties.  JitCompile.v: the whole of [Compiler::optimize].

    - Tensor.v: the layout of a tensor (include/tenzor/core/tensor.hpp,
      [TensorImpl]) and the methods of src/core/tensor.cpp and functions of
      src/ops/transform.cpp and indexing.cpp that make views, with [may_alias].
      A storage is a list of bytes, the memory a list of storages.
      TensorViews.v: the element a view reads, as an index map.
    - TensorKernels.v: the kernels of src/backends/cpu/kernels/transform.cpp that
      move elements, and the methods that dispatch to them, over the classes
      [Backend] (which allocations are granted) and [Omp] (the order of parallel
      loops).  TensorCopy.v: copies in any order; TensorContiguous.v: the paths
      of [contiguous_kernel]; TensorGather.v: kernels that gather from a
      contiguous copy; TensorRearrange.v: flip, roll, repeat, repeat_interleave;
      TensorLayout.v: clone, reshape, flatten, expand; TensorJoin.v: cat and the
      functions that split; TensorClient.v: chains of views and aliasing;
      TensorExamples.v: the theorems on a transposed matrix.

    - SafeTensors.v: src/nn/safetensors.cpp, the SafeTensors checkpoint format
      on a host of either byte order: the JSON header with its printer and
      parser, [save], [load], [is_valid_file] and [detect_format], over the
      tensors in memory and a class for the order of a hash map.
      SafeTensorsJson.v: the parser undoes the printer, and ends on any text;
      SafeTensorsLoad.v: byte order, streams, and what [load] does with any file; SafeTensorsSave.v: what [save] writes;
      SafeTensorsClient.v: the contracts; SafeTensorsExamples.v: a checkpoint
      and the files on which the code surprises.

    - FloatAttrs.v: [float] and [double] as the standard library's [spec_float],
      their conversions and bit patterns.  OpAttributes.v:
      include/tenzor/backend/op_attributes.hpp, the keys, the tagged values and
      the container of attributes with its list parser.
    - LiteBridge.v: src/lite/dispatch_bridge.cpp ([build_attrs], [run_op]), the
      readers of include/tenzor/backend/attr_macros.hpp and the lambdas of
      src/backends/cpu/cpu_kernel_registry.cpp for the operators of the exporter,
      a definition each, over the class [Kernels].
      LiteExporter.v: src/lite/exporter.cpp, modules as trees of layers, the
      graph builder as a state and error monad, an emitter per layer, the visitor
      and [export_to_tzlite].  LiteEmission.v: Module [ModuleSpec], what a module
      denotes in eval mode ([run_module]) and which layers the format carries;
      Module [Emission], the node of each layer and the kernel call it turns into.
      LiteSimulation.v: what the emitters add to the builder and to the values at
      run time; LiteExport.v: from the exported bytes to [forward].

    The parts meet as the code's do: the planner reads the graph and the tensor
    table and writes the plan that the format stores and the runtime checks; the
    runtime executes the graph the format loaded over views of its weights; the
    exporter builds that graph, and the bridge turns its nodes back into calls
    of the registered kernels;
    symbolic broadcasting is compared with the concrete one; the kernels on
    tensors start from [contiguous] and end in a new tensor whose size the shape
    arithmetic checked; the loader and the
    samplers share the engine's class; the passes of the JIT edit the graphs that
    its interpreter runs, and every pass is used by the optimizer through the
    class it promises; the memory planner sorts and annotates the graph that the
    optimizer and the rematerialization pass leave.

    ** What the theorems show

    - Format: what the full [save] writes, [load_full] reads back, and on any
      bytes the reader stays inside the buffer and yields a well-formed model.
      Saved weights are found at their bytes, and reach [forward] as views with
      the saved type, shape and contents; for any file, accepted weight views
      and placements lie inside their blob and pool, and kernels never see an
      input that contradicts its declaration.
    - Export: every file that the exporter writes for a module that the format
      carries loads, and [forward] gives on every accepted input what the module
      denotes, the same tensor or the same error.  The hypotheses: the options
      and the module have the types of the code ([options_wf], [module_wf]), the
      members that the file does not hold have the kernels' defaults
      ([carried_module]), the runtime knows the operators, and a kernel's result
      depends only on the elements of its operands, which the views of the
      weights share with the module's parameters.  The container of attributes is
      a finite map.
    - Planner and graph: tensors live together occupy disjoint ranges, exactly
      the sized intermediates are placed; graph execution implements evaluation
      in an environment of named tensors.
    - Shapes: strides address elements bijectively, counts are exact or throw,
      broadcasting is the least common expansion; symbolic simplification and
      broadcasting agree with the concrete operations where no extent is zero.
    - Formats of numbers: the Float16 encoder is round-to-nearest-even and codes
      round-trip; lemmas give the same for the other formats, with the
      format's saturation where it is.
    - Types: promotion is a least upper bound with the exceptions stated.
    - Data loading: batches partition the dataset; replicas take equal shares of
      one order; with workers that end with the epoch, batches arrive in order
      under every interleaving and every call returns under every schedule.
    - Device allocator: in every state that calls reach from an empty device, the
      blocks tile the driver's allocations, no two free neighbours remain and the
      byte counters are exact; [allocate] returns memory that no block in use
      overlaps, [free] gives back exactly its block, a reused block waits for the
      streams that still use it, [empty_cache] returns every free segment.
    - Autograd: the sort lists what is reachable, each function after all it
      refers to, or reports a cycle; a pass stores the gradients that the adjoint
      equations have as their only solution; the reference counts stay exact, and
      the release at the end of a pass spares every function that something
      outside the walk refers to.
    - JIT: [forward] computes what the equations of the graph define; the
      topological sort succeeds exactly on acyclic graphs; dead code elimination
      and common subexpression elimination keep every result, the algebraic
      rules and reshape elimination keep the results of runs on tensors that are
      as declared; the optimizer with any list of such passes keeps them too, and
      always ends in a sorted graph.  The hypotheses: the heap is well formed
      ([wf]), no float attribute is a negative zero ([plain]), the graph is not
      owned by another one ([root]), it was not fused ([unfused]) and a reshape
      reads one value ([unary_reshapes]); a run is one that no guard stops.
    - JIT memory: values that share a buffer are never in use together and lie
      inside it; executing the planned graph over the shared buffers, with
      kernels that may destroy their outputs before they read their inputs, gives
      the results of separate storage; the planner returns on every acyclic graph
      and plans exactly the intermediates with a known size.  Rematerialization
      and swapping return and keep every result, and so does the whole of
      [Compiler::optimize].  The hypotheses: a graph is well formed, acyclic, with
      a use list entry for every read ([editable]), the names that the planners
      derive are free ([recomputable], [swappable]), and the kernels of cheap
      operations ignore the mark on a recomputed node.
    - Tensors: every view operation reads the elements its definition names, and
      no composition of them, [as_strided] included, leaves its storage;
      [may_alias] misses no overlap.  [contiguous] packs a tensor on each of its
      paths and in every order of its loops, so that [reshape] and [flatten] keep
      the row-major order, [clone] shares nothing, [expand] broadcasts, and flip,
      roll, repeat and repeat_interleave read where their documentation says.
      [cat] places its inputs one after the other and undoes [split], [chunk] and
      [split_with_sizes].  The hypotheses: the tensor lies in its storage
      ([sound]), storages are no larger than an object ([fitting]) and the
      backend grants the new tensors ([allocatable]).
    - Checkpoints: saving a dictionary of tensors and loading the file gives the
      names, shapes, types and elements again, also when the two hosts differ in
      byte order; the file does not depend on the hash map.  On any file [load]
      throws or gives tensors whose bytes are regions that partition the data
      section; it leaves no buffer and its parser ends.  The hypothesis of the
      round trip is [fits_file]: every tensor lies in its storage and was
      written, the copies can be allocated, no tensor is called __metadata__,
      the data is below 2^62 bytes and the header within the limit of 100 MiB.
    - Where the code does something else than it says, a theorem or an example
      states what it does: FP8 saturation and double rounding, symbolic
      broadcasting of zero extents, the sentinel size in the planner, outputs
      that erase a source, inputs without a declared shape, strides of
      [create_input], the deadlocks, early end, spinning and race of the data
      loader, a live autograd graph that is torn down, the reader that
      [Node::replace_input] forgets, and the names, metadata and hosts on which
      SafeTensors files are lost, a trailing comma in an integer list, the total
      of the memory plan that wraps, and the recomputed and restored values that
      the final sort places far too early.

    ** Bounds and fuel

    [place_loop] has one unit of fuel more than placed tensors: every pass moves
    the candidate past another one ([plan_complete] shows a result).  The slice
    of a distributed sampler has the length of the vector as fuel, since its
    index grows by at least one.  Counted loops recurse on the count read from
    the file, which the reader has checked against the remaining bytes.  The
    data loader has no fuel: a run is a list of scheduling choices, and the
    measure of LoaderLive.v bounds its length.  A step of the loader is one
    atomic access, one critical section or one batch load; loads are atomic in
    the model, and the unsynchronised access to the index vector is stated as a
    race instead.  The merge loop of the device allocator has one unit more than
    there are blocks and its eviction loop one per free block, since each pass
    removes a block; the depth-first search of autograd has one per function and
    edge.  Kahn's sort has one unit per node, the marking of dead code
    elimination one per read of a node, the resolution of replacements one more
    than there are replacements; the binary search of repeat_interleave has one
    per position of the dimension; nesting of graphs is bounded by [depth] (also in the live ranges and
    the sets of nodes of the memory planners), and the
    totality theorems ask that the graph is nested below it.  The loops of the
    header parser have one unit more than there are characters left, because an
    iteration consumes one; printing a number has one per binary digit.  The reader of an integer list
    has one unit per character, since every field ends in a comma it consumes.  Each of
    these is proved to be enough.

    ** Not modelled

    Null tensor handles, the caches of derived properties, version counters and
    [view_base_] of tensors, devices other than the CPU, casts, and the
    operators that compute; failing writes, mapping of files and destructors of
    the lite runtime; the kernels; [convert_dtype]; the checks of rank and
    channels of the layers, the maximal norm of an Embedding, the approximate
    GELU, and the interceptors in front of the dispatch table; the stacking of
    samples into tensors and the iterator object of the data loader; the map
    over devices and the mutexes of the device allocator; autograd with
    [create_graph], its offloading of saved tensors, re-entrant passes and the
    numerical rules; of the JIT, gradient mode, tracing, the passes not named
    above, serialization and code generation; and the rest of the repository:
    training of layers, distributed training, serving and bindings. Next in
    order: shape inference over the symbolic shapes. *)

From stdpp Require Import base list numbers strings gmap.

#[global] Open Scope Z_scope.

(** ** C++ exceptions and fallible code

    The C++ functions report failure by throwing.  A call is a value of
    [result]: the returned value or the exception, which keeps the standard
    class and the constant part of its message.  [UndefinedBehaviour] is not
    an exception of the program: it marks the points where a signed operation
    leaves its type or an access leaves its buffer, which the language leaves
    undefined; nor is [Terminated], the end of the process by an exception that
    a noexcept function lets escape, nor [Diverged], the value of a loop that
    its fuel did not suffice for. *)

Inductive exn : Type :=
| RuntimeError (what : string)
| InvalidArgument (what : string)
| OverflowError (what : string)
| OutOfRange (what : string)
| IndexError (what : string)
| AutogradException (what : string)
| BadAlloc
| Terminated
| UndefinedBehaviour
| Diverged.

#[export] Instance exn_eq_dec : EqDecision exn.
Proof. solve_decision. Defined.

Inductive result (A : Type) : Type :=
| Ok (a : A)
| Err (e : exn).
Arguments Ok {A} a.
Arguments Err {A} e.

#[export] Instance result_eq_dec {A} `{EqDecision A} : EqDecision (result A).
Proof. solve_decision. Defined.

Definition rbind {A B} (m : result A) (f : A -> result B) : result B :=
  match m with Ok a => f a | Err e => Err e end.

Declare Scope result_scope.
Delimit Scope result_scope with result.
Notation "'let*' x ':=' m 'in' k" := (rbind m (fun x => k))
  (at level 10, x binder, m at level 100, k at level 200) : result_scope.
Notation "'let*' ' p ':=' m 'in' k" := (rbind m (fun x => match x with p => k end))
  (at level 10, p pattern, m at level 100, k at level 200) : result_scope.
#[global] Open Scope result_scope.

(** [throw_if b e] is [if (b) throw e;]. *)
Definition throw_if (b : bool) (e : exn) : result unit := if b then Err e else Ok tt.

Definition rmap {A B} (f : A -> B) (m : result A) : result B :=
  match m with Ok a => Ok (f a) | Err e => Err e end.

Definition is_ok {A} (m : result A) : bool :=
  match m with Ok _ => true | Err _ => false end.

Definition rmapM {A B} (f : A -> result B) : list A -> result (list B) :=
  fix go l := match l with
  | [] => Ok []
  | x :: l => let* y := f x in let* ys := go l in Ok (y :: ys)
  end.

Definition rfoldM {A S} (f : S -> A -> result S) : list A -> S -> result S :=
  fix go l s := match l with
  | [] => Ok s
  | x :: l => let* s := f s x in go l s
  end.

Lemma rbind_Ok {A B} (m : result A) (f : A -> result B) b :
  rbind m f = Ok b <-> exists a, m = Ok a /\ f a = Ok b.
Proof. destruct m; simpl; naive_solver. Qed.

Lemma rbind_Err {A B} (m : result A) (f : A -> result B) e :
  rbind m f = Err e <-> m = Err e \/ exists a, m = Ok a /\ f a = Err e.
Proof. destruct m; simpl; naive_solver. Qed.

Lemma Ok_inj {A} (a b : A) : Ok a = Ok b -> a = b.
Proof. by intros [= ->]. Qed.

Lemma throw_if_Ok b e u : throw_if b e = Ok u <-> b = false.
Proof. destruct b, u; simpl; naive_solver. Qed.

Lemma throw_if_false b e : b = false -> throw_if b e = Ok tt.
Proof. by intros ->. Qed.

(** Peels the monadic structure off a hypothesis that a computation succeeded. *)
Ltac inv_ok :=
  repeat match goal with
  | H : rbind _ _ = Ok _ |- _ => apply rbind_Ok in H; destruct H as (? & ? & ?)
  | H : throw_if _ _ = Ok _ |- _ => apply throw_if_Ok in H
  | H : Ok _ = Ok _ |- _ => injection H as H
  | H : Err _ = Ok _ |- _ => discriminate H
  end.

Lemma rmapM_Ok {A B} (f : A -> result B) l l' :
  rmapM f l = Ok l' <-> Forall2 (fun x y => f x = Ok y) l l'.
Proof.
  revert l'. induction l as [|x l IH]; intros l'; simpl.
  - split; [intros [= <-]; constructor | by inversion 1].
  - split.
    + intros H. inv_ok. subst. constructor; [done|]. by apply IH.
    + inversion 1 as [|? y ? ys Hy Hys]; subst. rewrite Hy. simpl.
      by rewrite (proj2 (IH _) Hys).
Qed.

Lemma rmapM_length {A B} (f : A -> result B) l l' :
  rmapM f l = Ok l' -> length l' = length l.
Proof. intros ?%rmapM_Ok. symmetry. by eapply Forall2_length. Qed.

Lemma rmapM_is_ok {A B} (f : A -> result B) l :
  (forall x, In x l -> is_ok (f x) = true) -> is_ok (rmapM f l) = true.
Proof.
  induction l as [|x l IH]; intros H; [done|]. cbn [rmapM].
  specialize (IH (fun y Hy => H y (in_cons _ _ _ Hy))).
  specialize (H x (in_eq _ _)). destruct (f x); [|done]. simpl. by destruct (rmapM f l).
Qed.

Lemma is_ok_Ok {A} (m : result A) : is_ok m = true <-> exists a, m = Ok a.
Proof. destruct m; simpl; naive_solver. Qed.

Lemma rfoldM_app {A S} (f : S -> A -> result S) l k s :
  rfoldM f (l ++ k) s = let* s := rfoldM f l s in rfoldM f k s.
Proof.
  revert s. induction l as [|x l IH]; intros s; cbn; [done|]. destruct (f s x); cbn; [apply IH|done].
Qed.

Lemma rfoldM_single {A S} (f : S -> A -> result S) x s : rfoldM f [x] s = f s x.
Proof. cbn. by destruct (f s x). Qed.

(** A loop invariant for [rfoldM]. *)
Lemma rfoldM_inv {A S} (P : S -> Prop) (f : S -> A -> result S) l s s' :
  P s -> (forall s x s', In x l -> P s -> f s x = Ok s' -> P s') ->
  rfoldM f l s = Ok s' -> P s'.
Proof.
  revert s. induction l as [|x l IH]; intros s Hs Hstep H; simpl in H; inv_ok; subst; [done|].
  eapply IH; [| |done]; eauto using in_eq, in_cons.
Qed.

(** A call that throws only what the program throws, and whose result
    satisfies [P]: no undefined behaviour, no loop that does not end. *)
Definition fault (e : exn) : bool :=
  match e with UndefinedBehaviour | Diverged | Terminated => true | _ => false end.

Definition meets {A} (P : A -> Prop) (m : result A) : Prop :=
  match m with Ok a => P a | Err e => fault e = false end.

Lemma meets_bind {A B} (P : A -> Prop) (Q : B -> Prop) (m : result A) (f : A -> result B) :
  meets P m -> (forall a, P a -> meets Q (f a)) -> meets Q (rbind m f).
Proof. destruct m; simpl; auto. Qed.

Lemma meets_weaken {A} (P Q : A -> Prop) (m : result A) : meets P m -> (forall a, P a -> Q a) -> meets Q m.
Proof. destruct m; simpl; auto. Qed.

Lemma meets_throw_if {A} (Q : A -> Prop) b e (k : result A) :
  fault e = false -> (b = false -> meets Q k) -> meets Q (let* _ := throw_if b e in k).
Proof. destruct b; simpl; auto. Qed.

(** The invariant of a loop over [l], by the elements it has seen. *)
Lemma meets_rfoldM {A S} (P : list A -> S -> Prop) (f : S -> A -> result S) l s :
  P [] s -> (forall seen x s, In x l -> P seen s -> meets (P (seen ++ [x])) (f s x)) -> meets (P l) (rfoldM f l s).
Proof.
  enough (forall seen, P seen s -> (forall seen x s, In x l -> P seen s -> meets (P (seen ++ [x])) (f s x)) ->
    meets (P (seen ++ l)) (rfoldM f l s)) by (intros H0; exact (H [] H0)).
  revert s. induction l as [|x l IH]; intros s seen Hs H; cbn; [by rewrite app_nil_r|].
  eapply meets_bind; [apply H; [by left|done]|]. intros s' Hs'.
  replace (seen ++ x :: l) with ((seen ++ [x]) ++ l) by (by rewrite <-app_assoc).
  apply IH; [done|]. intros seen' y t Hy. apply H. by right.
Qed.

Lemma rfoldM_runs {A S} (P : list A -> S -> Prop) (f : S -> A -> result S) l s :
  P [] s -> (forall seen x s, In x l -> P seen s -> exists s', f s x = Ok s' /\ P (seen ++ [x]) s') ->
  exists s', rfoldM f l s = Ok s' /\ P l s'.
Proof.
  enough (forall seen, P seen s ->
    (forall seen x s, In x l -> P seen s -> exists s', f s x = Ok s' /\ P (seen ++ [x]) s') ->
    exists s', rfoldM f l s = Ok s' /\ P (seen ++ l) s') by (intros H0; exact (H [] H0)).
  revert s. induction l as [|x l IH]; intros s seen Hs H; cbn; [exists s; by rewrite app_nil_r|].
  destruct (H seen x s) as (s' & -> & Hs'); [by left|done|]. cbn.
  replace (seen ++ x :: l) with ((seen ++ [x]) ++ l) by (by rewrite <-app_assoc).
  apply IH; [done|]. intros seen' y t Hy. apply H. by right.
Qed.

Lemma meets_rmapM {A B} (P : B -> Prop) (f : A -> result B) l :
  (forall x, In x l -> meets P (f x)) -> meets (Forall P) (rmapM f l).
Proof.
  induction l as [|x l IH]; intros H; cbn; [constructor|]. eapply meets_bind; [apply H; by left|].
  intros y Hy. eapply meets_bind; [apply IH; intros z Hz; apply H; by right|]. intros ys Hys. by constructor.
Qed.

(** ** Machine integers

    A [w]-bit value is a [Z]; the predicates below are its range, [wrap w] the
    conversion to an unsigned type (modulo 2^w) and [sgn w] the conversion to a
    signed type (two's complement, as C++20 defines it). *)

Definition INT64_MAX : Z := 9223372036854775807.
Definition INT64_MIN : Z := -9223372036854775808.
Definition UINT64_MAX : Z := 18446744073709551615.
Definition INT16_MAX : Z := 32767.
Definition UINT16_MAX : Z := 65535.
Definition UINT32_MAX : Z := 4294967295.

Definition in_i64 (z : Z) : bool := (INT64_MIN <=? z) && (z <=? INT64_MAX).
Definition in_uint (w z : Z) : bool := (0 <=? z) && (z <? 2 ^ w).
Definition in_sint (w z : Z) : bool := (- 2 ^ (w - 1) <=? z) && (z <? 2 ^ (w - 1)).

Definition wrap (w z : Z) : Z := z mod 2 ^ w.
Definition sgn (w z : Z) : Z :=
  let u := z mod 2 ^ w in if u <? 2 ^ (w - 1) then u else u - 2 ^ w.

(** Signed 64-bit arithmetic without a check: overflow is undefined. *)
Definition i64 (z : Z) : result Z := if in_i64 z then Ok z else Err UndefinedBehaviour.

Lemma in_i64_spec z : in_i64 z = true <-> INT64_MIN <= z <= INT64_MAX.
Proof. unfold in_i64. rewrite andb_true_iff, !Z.leb_le. done. Qed.

Lemma in_uint_spec w z : in_uint w z = true <-> 0 <= z < 2 ^ w.
Proof. unfold in_uint. rewrite andb_true_iff, Z.leb_le, Z.ltb_lt. done. Qed.

Lemma in_sint_spec w z : in_sint w z = true <-> - 2 ^ (w - 1) <= z < 2 ^ (w - 1).
Proof. unfold in_sint. rewrite andb_true_iff, Z.leb_le, Z.ltb_lt. done. Qed.

Lemma i64_Ok z v : i64 z = Ok v <-> v = z /\ INT64_MIN <= z <= INT64_MAX.
Proof.
  unfold i64. destruct (in_i64 z) eqn:E.
  - apply in_i64_spec in E. naive_solver.
  - split; [done|]. intros [_ H]. apply in_i64_spec in H. congruence.
Qed.

Lemma i64_in z : INT64_MIN <= z <= INT64_MAX -> i64 z = Ok z.
Proof. intros. by apply i64_Ok. Qed.

Lemma wrap_small w z : 0 <= z < 2 ^ w -> wrap w z = z.
Proof. apply Z.mod_small. Qed.

Lemma wrap_bound w z : 0 < w -> 0 <= wrap w z < 2 ^ w.
Proof. intros. apply Z.mod_pos_bound. lia. Qed.

Lemma sgn_small w z : 0 < w -> - 2 ^ (w - 1) <= z < 2 ^ (w - 1) -> sgn w z = z.
Proof.
  intros Hw Hz. unfold sgn. assert (2 ^ w = 2 * 2 ^ (w - 1)) as Hp.
  { rewrite <-Z.pow_succ_r by lia. f_equal. lia. }
  destruct (decide (0 <= z)).
  - rewrite Z.mod_small by lia. case (Z.ltb_spec z (2 ^ (w - 1))); lia.
  - assert (z mod 2 ^ w = z + 2 ^ w) as ->.
    { symmetry. apply Zmod_unique with (-1); lia. }
    case (Z.ltb_spec (z + 2 ^ w) (2 ^ (w - 1))); lia.
Qed.

Lemma sgn_wrap w z : 0 < w -> sgn w (wrap w z) = sgn w z.
Proof. intros. unfold sgn, wrap. rewrite Z.mod_mod; [done|]. lia. Qed.

(** ** Lists *)

(** [lenZ l] is [l.size()]. *)
Definition lenZ {A} (l : list A) : Z := Z.of_nat (length l).

Lemma lenZ_nonneg {A} (l : list A) : 0 <= lenZ l.
Proof. unfold lenZ. lia. Qed.

Lemma lenZ_app {A} (l k : list A) : lenZ (l ++ k) = lenZ l + lenZ k.
Proof. unfold lenZ. rewrite length_app. lia. Qed.

Lemma lenZ_cons {A} (x : A) l : lenZ (x :: l) = 1 + lenZ l.
Proof. unfold lenZ. simpl. lia. Qed.

Lemma filter_same {A} (P : A -> Prop) `{!forall x, Decision (P x)} (l : list A) :
  (forall x, x ∈ l -> P x) -> filter P l = l.
Proof.
  induction l as [|x l IH]; intros Hl; [done|]. rewrite filter_cons, decide_True by (apply Hl; left).
  f_equal. apply IH. intros y Hy. apply Hl. by right.
Qed.

Lemma filter_agree {A} (P Q : A -> Prop) `{!forall x, Decision (P x), !forall x, Decision (Q x)} (l : list A) :
  (forall x, x ∈ l -> P x <-> Q x) -> filter P l = filter Q l.
Proof.
  induction l as [|x l IH]; intros Hl; [done|]. rewrite !filter_cons.
  rewrite (decide_ext (P x) (Q x)) by (apply Hl; left). rewrite IH by (intros y Hy; apply Hl; by right). done.
Qed.

Fixpoint prodZ (l : list Z) : Z :=
  match l with [] => 1 | x :: l => x * prodZ l end.

Lemma prodZ_app l k : prodZ (l ++ k) = prodZ l * prodZ k.
Proof. induction l as [|x l IH]; cbn [prodZ app]; rewrite ?IH; lia. Qed.

Lemma prodZ_nonneg l : Forall (fun d => 0 <= d) l -> 0 <= prodZ l.
Proof. induction 1; cbn [prodZ]; lia. Qed.

Lemma prodZ_pos l : Forall (fun d => 0 < d) l -> 0 < prodZ l.
Proof. induction 1; cbn [prodZ]; lia. Qed.

(** ** Automation *)

Create HintDb tz.
#[export] Hint Resolve lenZ_nonneg prodZ_nonneg prodZ_pos wrap_bound i64_in : tz.

(** Case analysis on the boolean tests of the code. *)
Ltac bool_to_prop :=
  repeat match goal with
  | H : _ && _ = true |- _ => apply andb_true_iff in H; destruct H
  | H : _ || _ = false |- _ => apply orb_false_iff in H; destruct H
  | H : negb _ = true |- _ => apply negb_true_iff in H
  | H : negb _ = false |- _ => apply negb_false_iff in H
  | H : (_ =? _) = true |- _ => apply Z.eqb_eq in H
  | H : (_ =? _) = false |- _ => apply Z.eqb_neq in H
  | H : (_ <? _) = true |- _ => apply Z.ltb_lt in H
  | H : (_ <? _) = false |- _ => apply Z.ltb_ge in H
  | H : (_ <=? _) = true |- _ => apply Z.leb_le in H
  | H : (_ <=? _) = false |- _ => apply Z.leb_gt in H
  | H : (_ >? _) = true |- _ => rewrite Z.gtb_ltb in H
  | H : (_ >? _) = false |- _ => rewrite Z.gtb_ltb in H
  | H : (_ >=? _) = true |- _ => rewrite Z.geb_leb in H
  | H : (_ >=? _) = false |- _ => rewrite Z.geb_leb in H
  | H : in_i64 _ = true |- _ => apply in_i64_spec in H
  | H : in_uint _ _ = true |- _ => apply in_uint_spec in H
  | H : in_sint _ _ = true |- _ => apply in_sint_spec in H
  end.

Ltac case_if :=
  match goal with
  | |- context [if ?b then _ else _] => destruct b eqn:?
  | H : context [if ?b then _ else _] |- _ => destruct b eqn:?
  end.
