(* ===== verification/Shape.v ===== *)
(** * Checked arithmetic, shapes, strides and broadcasting

    [Checked] models include/tenzor/core/checked_math.hpp and
    include/tenzor/utils/safe_math.hpp, [TShape] models
    include/tenzor/core/shape.hpp.  A shape is the list of its dimensions. *)

From stdpp Require Import base list numbers strings.
From S2P Require Import Prelude.

Module Checked.

(** [checked_mul] through [__builtin_mul_overflow]. *)
Definition checked_mul (a b : Z) : result Z :=
  if in_i64 (a * b) then Ok (a * b)
  else Err (OverflowError "Integer overflow in multiplication").

(** The portable branch: the product is computed first (undefined when it
    overflows), then checked by a division. *)
Definition checked_mul_portable (a b : Z) : result Z :=
  if (a =? 0) || (b =? 0) then Ok 0
  else
    let* r := i64 (a * b) in
    let* q := i64 (Z.quot r a) in
    if negb (a =? 0) && negb (q =? b)
    then Err (OverflowError "Integer overflow in multiplication")
    else Ok r.

Definition checked_add (a b : Z) : result Z :=
  if in_i64 (a + b) then Ok (a + b)
  else Err (OverflowError "Integer overflow in addition").

Definition checked_add_portable (a b : Z) : result Z :=
  if ((b >? 0) && (a >? INT64_MAX - b)) || ((b <? 0) && (a <? INT64_MIN - b))
  then Err (OverflowError "Integer overflow in addition")
  else i64 (a + b).

(** [safe_abs] returns a [uint64_t]. *)
Definition safe_abs (v : Z) : Z :=
  if v =? INT64_MIN then wrap 64 (wrap 64 INT64_MAX + 1)
  else wrap 64 (if v <? 0 then - v else v).

(** The templates of safe_math.hpp at a type with maximum [tmax]: [None] is the
    returned [true] (overflow), [Some r] is [false] with [*result = r]. *)
Definition checked_mul_overflow (tmax a b : Z) : option Z :=
  if negb (a =? 0) && (b >? Z.quot tmax a) then None else Some (a * b).

Definition checked_add_overflow (tmax a b : Z) : option Z :=
  if a >? tmax - b then None else Some (a + b).

Lemma checked_mul_Ok a b r :
  checked_mul a b = Ok r <-> r = a * b /\ INT64_MIN <= a * b <= INT64_MAX.
Proof.
  unfold checked_mul. destruct (in_i64 (a * b)) eqn:E.
  - apply in_i64_spec in E. naive_solver.
  - split; [done|]. intros [_ H]. apply in_i64_spec in H. congruence.
Qed.

Lemma checked_add_portable_builtin a b :
  INT64_MIN <= a <= INT64_MAX -> INT64_MIN <= b <= INT64_MAX ->
  checked_add_portable a b = checked_add a b.
Proof.
  intros Ha Hb. unfold checked_add_portable, checked_add, i64, in_i64, INT64_MIN, INT64_MAX in *.
  rewrite !Z.gtb_ltb.
  repeat match goal with
  | |- context [?x <? ?y] => destruct (Z.ltb_spec x y)
  | |- context [?x <=? ?y] => destruct (Z.leb_spec x y)
  end; simpl; try done; exfalso; lia.
Qed.

Lemma checked_mul_overflow_spec tmax a b :
  0 <= a -> 0 <= b -> 0 <= tmax ->
  checked_mul_overflow tmax a b = if a * b <=? tmax then Some (a * b) else None.
Proof.
  intros Ha Hb Ht. unfold checked_mul_overflow. rewrite Z.gtb_ltb.
  destruct (Z.eqb_spec a 0) as [->|Hne]; simpl.
  { rewrite Z.mul_0_l. by destruct (Z.leb_spec 0 tmax); [|lia]. }
  rewrite Z.quot_div_nonneg by lia.
  destruct (Z.ltb_spec (tmax / a) b) as [H|H], (Z.leb_spec (a * b) tmax) as [G|G]; try done.
  - exfalso. pose proof (Z.div_le_lower_bound tmax a b). lia.
  - assert (a * b <= a * (tmax / a)) by nia.
    exfalso. pose proof (Z.mul_div_le tmax a). lia.
Qed.

Lemma checked_add_overflow_spec tmax a b :
  checked_add_overflow tmax a b = if a + b <=? tmax then Some (a + b) else None.
Proof.
  unfold checked_add_overflow. rewrite Z.gtb_ltb.
  destruct (Z.ltb_spec (tmax - b) a), (Z.leb_spec (a + b) tmax); try done; exfalso; lia.
Qed.

Lemma safe_abs_spec v :
  INT64_MIN <= v <= INT64_MAX -> safe_abs v = Z.abs v /\ 0 <= safe_abs v < 2 ^ 64.
Proof.
  intros Hv. unfold safe_abs, wrap, INT64_MIN, INT64_MAX in *.
  destruct (Z.eqb_spec v (-9223372036854775808)) as [->|]; [done|].
  rewrite Z.mod_small; case_if; bool_to_prop; lia.
Qed.

End Checked.
Export Checked.

Module TShape.

(** ** [class Shape] *)

Record Shape := mkShape { dims_ : list Z }.

#[export] Instance Shape_eq_dec : EqDecision Shape.
Proof. solve_decision. Defined.

Definition neg_dim_error : exn := InvalidArgument "Shape dimensions must be non-negative, got ".

Definition Shape_ctor (dims : list Z) : result Shape :=
  let* _ := rmapM (fun d => throw_if (d <? 0) neg_dim_error) dims in
  Ok (mkShape dims).

Definition Shape_at (s : Shape) (idx : Z) : result Z :=
  match dims_ s !! Z.to_nat idx with
  | Some d => Ok d
  | None => Err (OutOfRange "vector::_M_range_check")
  end.

Definition Shape_size (s : Shape) : Z := lenZ (dims_ s).

Definition Shape_push_back (s : Shape) (dim : Z) : result Shape :=
  let* _ := throw_if (dim <? 0) neg_dim_error in
  Ok (mkShape (dims_ s ++ [dim])).

(** New dimensions are zero-initialised; extra ones are dropped. *)
Definition Shape_resize (s : Shape) (n : nat) : Shape :=
  mkShape (take n (dims_ s) ++ replicate (n - length (dims_ s)) 0).

Definition Shape_numel (s : Shape) : result Z :=
  rfoldM (fun r dim => checked_mul r dim) (dims_ s) 1.

Definition Shape_eqb (a b : Shape) : bool := bool_decide (dims_ a = dims_ b).

(** ** Strides *)

(** The loop runs from the last dimension to the first:
    [strides[i] = strides[i+1] * shape[i+1]]. *)
Fixpoint compute_strides (shape : list Z) : result (list Z) :=
  match shape with
  | [] => Ok []
  | _ :: shape' =>
      match shape' with
      | [] => Ok [1]
      | d1 :: _ =>
          let* ss := compute_strides shape' in
          let* s := checked_mul (default 1 (head ss)) d1 in
          Ok (s :: ss)
      end
  end.

Definition compute_channels_last_strides (shape : list Z) : result (list Z) :=
  match shape with
  | [_; C; H; W] =>
      let* WC := checked_mul W C in
      let* HWC := checked_mul H WC in
      Ok [HWC; 1; WC; C]
  | _ => compute_strides shape
  end.

Definition compute_channels_last_3d_strides (shape : list Z) : result (list Z) :=
  match shape with
  | [_; C; D; H; W] =>
      let* WC := checked_mul W C in
      let* HWC := checked_mul H WC in
      let* DHWC := checked_mul D HWC in
      Ok [DHWC; 1; HWC; WC; C]
  | _ => compute_strides shape
  end.

(** ** Broadcasting *)

Definition broadcast_dim (dim1 dim2 : Z) : result Z :=
  if dim1 =? dim2 then Ok dim1
  else if dim1 =? 1 then Ok dim2
  else if dim2 =? 1 then Ok dim1
  else Err (RuntimeError "Shapes are not broadcastable").

(** [dim_from_end shape i] is [i < shape.size() ? shape[shape.size() - 1 - i] : 1]. *)
Definition dim_from_end (shape : list Z) (i : nat) : Z :=
  if decide (i < length shape)%nat then default 1 (shape !! (length shape - 1 - i)%nat) else 1.

(** The loop fills [result[ndim - 1 - i]] for [i = 0, 1, ...]. *)
Definition broadcast_shapes (shape1 shape2 : list Z) : result (list Z) :=
  let ndim := Nat.max (length shape1) (length shape2) in
  rmap (@rev Z)
    (rmapM (fun i => broadcast_dim (dim_from_end shape1 i) (dim_from_end shape2 i)) (seq 0 ndim)).

Example broadcast_ex : broadcast_shapes [3; 1; 4] [2; 1] = Ok [3; 2; 4].
Proof. reflexivity. Qed.
Example strides_ex : compute_strides [2; 3; 4] = Ok [12; 4; 1].
Proof. reflexivity. Qed.
Example channels_last_ex : compute_channels_last_strides [1; 64; 32; 32] = Ok [65536; 1; 2048; 64].
Proof. reflexivity. Qed.

(** ** Row-major layout *)

(** [offset strides idx] is the element offset of the multi-index [idx]. *)
Fixpoint offset (strides idx : list Z) : Z :=
  match strides, idx with
  | s :: ss, i :: js => s * i + offset ss js
  | _, _ => 0
  end.

Definition valid_index (shape idx : list Z) : Prop := Forall2 (fun d i => 0 <= i < d) shape idx.

(** The reference strides: products of the dimensions to the right. *)
Fixpoint suffix_prods (shape : list Z) : list Z :=
  match shape with [] => [] | _ :: ds => prodZ ds :: suffix_prods ds end.

Lemma compute_strides_cons2 d d1 ds :
  compute_strides (d :: d1 :: ds) =
  let* ss := compute_strides (d1 :: ds) in
  let* s := checked_mul (default 1 (head ss)) d1 in Ok (s :: ss).
Proof. reflexivity. Qed.

Lemma compute_strides_suffix shape ss :
  compute_strides shape = Ok ss -> ss = suffix_prods shape.
Proof.
  revert ss. induction shape as [|d [|d1 ds] IH]; intros ss H; [by injection H as <-..|].
  rewrite compute_strides_cons2 in H. apply rbind_Ok in H as (ss' & ->%IH & H).
  apply rbind_Ok in H as (s & [-> _]%checked_mul_Ok & [= <-]). cbn. f_equal. lia.
Qed.

Lemma valid_index_pos shape idx : valid_index shape idx -> Forall (fun d => 0 < d) shape.
Proof. induction 1; constructor; [lia|done]. Qed.

Lemma offset_bounds shape idx :
  valid_index shape idx -> 0 <= offset (suffix_prods shape) idx < prodZ shape.
Proof.
  induction 1 as [|d i ds js Hi Hv IH]; cbn [suffix_prods offset prodZ]; [lia|].
  pose proof (prodZ_pos _ (valid_index_pos _ _ Hv)). nia.
Qed.

Lemma offset_inj shape idx idx' :
  valid_index shape idx -> valid_index shape idx' ->
  offset (suffix_prods shape) idx = offset (suffix_prods shape) idx' -> idx = idx'.
Proof.
  intros H. revert idx'. induction H as [|d i ds js Hi Hv IH]; intros idx' H' E;
    inversion H' as [|? i' ? js' Hi' Hv']; subst; [done|].
  cbn [suffix_prods offset] in E.
  pose proof (offset_bounds _ _ Hv). pose proof (offset_bounds _ _ Hv').
  assert (i = i') as <- by nia. f_equal. apply IH; [done|]. lia.
Qed.

Lemma offset_surj shape n :
  Forall (fun d => 0 <= d) shape -> 0 <= n < prodZ shape ->
  exists idx, valid_index shape idx /\ offset (suffix_prods shape) idx = n.
Proof.
  intros Hs. revert n. induction Hs as [|d ds Hd Hds IH]; cbn [prodZ]; intros n Hn.
  - exists []. split; [constructor|]. cbn. lia.
  - pose proof (prodZ_nonneg _ Hds). assert (0 < prodZ ds) by nia.
    destruct (IH (n mod prodZ ds)) as (idx & Hv & Ho); [by apply Z.mod_pos_bound|].
    exists (n / prodZ ds :: idx). split.
    + constructor; [|done]. split; [apply Z.div_pos; lia|]. apply Z.div_lt_upper_bound; lia.
    + cbn [suffix_prods offset]. rewrite Ho. symmetry. apply Z.div_mod. lia.
Qed.

(** For every shape [compute_strides] accepts, the element offsets of the
    valid multi-indices are exactly [0 .. numel-1], each reached once: the
    row-major layout is a bijection, with no aliasing and no gap. *)
Theorem compute_strides_bijective shape ss :
  Forall (fun d => 0 <= d) shape -> compute_strides shape = Ok ss ->
  (forall idx, valid_index shape idx -> 0 <= offset ss idx < prodZ shape) /\
  (forall n, 0 <= n < prodZ shape -> exists! idx, valid_index shape idx /\ offset ss idx = n).
Proof.
  intros Hs ->%compute_strides_suffix. split; [apply offset_bounds|].
  intros n Hn. destruct (offset_surj shape n Hs Hn) as (idx & Hv & Ho).
  exists idx. split; [done|]. intros idx' [Hv' Ho']. eapply offset_inj; [done..|congruence].
Qed.

Lemma compute_strides_bijective_witness :
  compute_strides [2; 3; 4] = Ok [12; 4; 1] /\
  exists! idx, valid_index [2; 3; 4] idx /\ offset [12; 4; 1] idx = 17.
Proof.
  split; [reflexivity|].
  refine (proj2 (compute_strides_bijective [2; 3; 4] [12; 4; 1] _ eq_refl) 17 _);
    [repeat constructor; lia | cbn; lia].
Defined.

(** ** Overflow *)

Lemma prodZ_pos_le d ds : 0 < d -> Forall (fun x => 0 < x) ds -> prodZ ds <= prodZ (d :: ds).
Proof. intros Hd Hds. cbn. pose proof (prodZ_pos _ Hds). nia. Qed.

Lemma compute_strides_is_ok d ds :
  Forall (fun x => 0 < x) ds ->
  is_ok (compute_strides (d :: ds)) = (prodZ ds <=? INT64_MAX).
Proof.
  revert d. induction ds as [|d1 ds IH]; intros d Hds; [reflexivity|].
  inversion Hds as [|? ? Hd1 Hds']; subst. rewrite compute_strides_cons2.
  specialize (IH d1 Hds'). pose proof (prodZ_pos_le d1 ds Hd1 Hds').
  pose proof (prodZ_pos _ Hds').
  destruct (compute_strides (d1 :: ds)) as [ss|e] eqn:E; simpl in IH |- *.
  - apply compute_strides_suffix in E as ->. cbn [suffix_prods head default].
    replace (prodZ ds * d1) with (prodZ (d1 :: ds)) by (cbn [prodZ]; lia).
    unfold default, head, checked_mul, in_i64. simpl.
    replace (prodZ ds * d1) with (d1 * prodZ ds) by lia. cbn [prodZ] in *.
    destruct (Z.leb_spec INT64_MIN (d1 * prodZ ds)) as [?|Hc];
      [|unfold INT64_MIN in Hc; lia]. simpl.
    by destruct (d1 * prodZ ds <=? INT64_MAX).
  - symmetry in IH. apply Z.leb_gt in IH. symmetry. apply Z.leb_gt. cbn [prodZ] in *. lia.
Qed.

Lemma numel_from s r n :
  rfoldM (fun r dim => checked_mul r dim) s r = Ok n -> n = r * prodZ s.
Proof.
  revert r. induction s as [|d s IH]; intros r H; cbn [rfoldM prodZ] in *.
  - injection H as <-. lia.
  - apply rbind_Ok in H as (r' & [-> _]%checked_mul_Ok & ->%IH). lia.
Qed.

Lemma numel_from_is_ok s r :
  0 < r <= INT64_MAX -> Forall (fun x => 0 < x) s ->
  is_ok (rfoldM (fun r dim => checked_mul r dim) s r) = (r * prodZ s <=? INT64_MAX).
Proof.
  intros Hr Hs. revert r Hr. induction Hs as [|d s Hd Hs IH]; intros r Hr; cbn [rfoldM prodZ].
  - simpl. symmetry. apply Z.leb_le. lia.
  - pose proof (prodZ_pos _ Hs). destruct (checked_mul r d) as [r'|e] eqn:E; simpl.
    + apply checked_mul_Ok in E as [-> ?]. rewrite IH by nia. f_equal. lia.
    + symmetry. apply Z.leb_gt. unfold checked_mul in E.
      destruct (in_i64 (r * d)) eqn:E'; [done|].
      assert (INT64_MAX < r * d); [|nia].
      apply not_true_iff_false in E'. rewrite in_i64_spec in E'. unfold INT64_MIN in *. nia.
Qed.



(** The channels-last strides of [N,C,H,W] (and of [N,C,D,H,W]) address the
    row-major layout of the permuted shape [N,H,W,C] (resp. [N,D,H,W,C]):
    logical index (n,c,h,w) lies where (n,h,w,c) lies there. *)
Theorem channels_last_is_nhwc N C D H W n c d h w ss ss' st st' :
  compute_channels_last_strides [N; C; H; W] = Ok ss ->
  compute_strides [N; H; W; C] = Ok ss' ->
  compute_channels_last_3d_strides [N; C; D; H; W] = Ok st ->
  compute_strides [N; D; H; W; C] = Ok st' ->
  offset ss [n; c; h; w] = offset ss' [n; h; w; c] /\
  offset st [n; c; d; h; w] = offset st' [n; d; h; w; c].
Proof.
  intros H1 ->%compute_strides_suffix H2 ->%compute_strides_suffix.
  unfold compute_channels_last_strides, compute_channels_last_3d_strides in *. inv_ok. subst.
  repeat match goal with H : checked_mul _ _ = Ok _ |- _ => apply checked_mul_Ok in H as [-> _] end.
  cbn. lia.
Qed.

Lemma channels_last_is_nhwc_witness :
  offset [6144; 1; 192; 3] [1; 2; 30; 5] = offset [6144; 192; 3; 1] [1; 30; 5; 2].
Proof.
  exact (proj1 (channels_last_is_nhwc 8 3 2 32 64 1 2 0 30 5 _ _ _ _
    eq_refl eq_refl eq_refl eq_refl)).
Defined.

(** ** Broadcasting *)

(** [expands_to s r]: NumPy's rule that a tensor of shape [s] can be read as one
    of shape [r]: aligned at the last dimension, every dimension of [s] is 1 or
    the dimension of [r]. *)
Definition expands_to (s r : list Z) : Prop :=
  (length s <= length r)%nat /\
  forall i, (i < length r)%nat -> dim_from_end s i = 1 \/ dim_from_end s i = dim_from_end r i.

Lemma dim_from_end_rev l i : dim_from_end (rev l) i = default 1 (l !! i).
Proof.
  unfold dim_from_end. rewrite length_rev. destruct (decide (i < length l)%nat) as [Hi|Hi].
  - f_equal. destruct (lookup_lt_is_Some_2 l i Hi) as [x Hx]. rewrite Hx, rev_alt.
    apply reverse_lookup_Some. split; [|lia].
    by replace (length l - S (length l - 1 - i))%nat with i by lia.
  - by rewrite lookup_ge_None_2 by lia.
Qed.

Lemma dim_from_end_ge s i : (length s <= i)%nat -> dim_from_end s i = 1.
Proof. intros. unfold dim_from_end. by rewrite decide_False by lia. Qed.

Lemma dim_from_end_ext l k :
  length l = length k -> (forall i, (i < length l)%nat -> dim_from_end l i = dim_from_end k i) -> l = k.
Proof.
  intros Hlen H. apply list_eq_same_length with (length l); [done..|].
  intros i x y Hi Hx Hy. specialize (H (length l - 1 - i)%nat ltac:(lia)).
  unfold dim_from_end in H. rewrite !decide_True in H by lia. rewrite <-Hlen in H.
  replace (length l - 1 - (length l - 1 - i))%nat with i in H by lia.
  rewrite Hx, Hy in H. done.
Qed.

Lemma broadcast_dim_Ok a b r :
  broadcast_dim a b = Ok r <-> (a = 1 \/ a = r) /\ (b = 1 \/ b = r) /\ (r = a \/ r = b).
Proof.
  unfold broadcast_dim. destruct (Z.eqb_spec a b), (Z.eqb_spec a 1), (Z.eqb_spec b 1);
    split; try (intros [= <-]); intuition (subst; congruence).
Qed.

Lemma broadcast_shapes_Ok s1 s2 r :
  broadcast_shapes s1 s2 = Ok r <->
  length r = Nat.max (length s1) (length s2) /\
  forall i, (i < length r)%nat ->
    broadcast_dim (dim_from_end s1 i) (dim_from_end s2 i) = Ok (dim_from_end r i).
Proof.
  unfold broadcast_shapes. destruct (rmapM _ _) as [l|e] eqn:E; simpl.
  - apply rmapM_Ok in E. pose proof (Forall2_length _ _ _ E) as Hlen. rewrite length_seq in Hlen.
    assert (forall i, (i < length l)%nat ->
      broadcast_dim (dim_from_end s1 i) (dim_from_end s2 i) = Ok (dim_from_end (rev l) i)) as Hl.
    { intros i Hi. destruct (lookup_lt_is_Some_2 l i Hi) as [x Hx].
      rewrite dim_from_end_rev, Hx. simpl.
      apply (Forall2_lookup_lr _ _ _ i i x E); [|done]. apply lookup_seq. lia. }
    split.
    + intros [= <-]. rewrite length_rev. split; [lia|]. apply Hl.
    + intros [Hr H]. f_equal. apply dim_from_end_ext; [rewrite length_rev; lia|].
      rewrite length_rev. intros i Hi. specialize (Hl i Hi). rewrite H in Hl by lia. congruence.
  - split; [done|]. intros [Hr H]. exfalso.
    assert (exists l, rmapM (fun i => broadcast_dim (dim_from_end s1 i) (dim_from_end s2 i))
      (seq 0 (Nat.max (length s1) (length s2))) = Ok l) as [l Hl]; [|congruence].
    exists (map (dim_from_end r) (seq 0 (length r))). apply rmapM_Ok.
    rewrite <-Hr. apply Forall2_fmap_r, Forall_Forall2_diag, Forall_forall.
    intros i Hi%elem_of_seq. apply H. lia.
Qed.

Lemma broadcast_shapes_is_ok s1 s2 r :
  expands_to s1 r -> expands_to s2 r -> is_ok (broadcast_shapes s1 s2) = true.
Proof.
  intros [L1 E1] [L2 E2]. unfold broadcast_shapes.
  enough (is_ok (rmapM (fun i => broadcast_dim (dim_from_end s1 i) (dim_from_end s2 i))
    (seq 0 (Nat.max (length s1) (length s2)))) = true) by (by destruct (rmapM _ _)).
  apply rmapM_is_ok. intros i Hi%in_seq.
  specialize (E1 i ltac:(lia)). specialize (E2 i ltac:(lia)). unfold broadcast_dim.
  destruct (Z.eqb_spec (dim_from_end s1 i) (dim_from_end s2 i)),
    (Z.eqb_spec (dim_from_end s1 i) 1), (Z.eqb_spec (dim_from_end s2 i) 1); try done.
  destruct E1, E2; congruence.
Qed.

(** C36: [broadcast_shapes] succeeds exactly when the two shapes have a common
    expansion, and then returns the least one: every other common expansion is
    an expansion of the result. *)
Theorem broadcast_shapes_least s1 s2 :
  (forall r, broadcast_shapes s1 s2 = Ok r ->
     expands_to s1 r /\ expands_to s2 r /\
     forall r', expands_to s1 r' -> expands_to s2 r' -> expands_to r r') /\
  ((exists r', expands_to s1 r' /\ expands_to s2 r') <-> is_ok (broadcast_shapes s1 s2) = true).
Proof.
  assert (forall r, broadcast_shapes s1 s2 = Ok r -> expands_to s1 r /\ expands_to s2 r) as Hub.
  { intros r [Hlen H]%broadcast_shapes_Ok.
    split; (split; [lia|]; intros i Hi; specialize (H i Hi); apply broadcast_dim_Ok in H; naive_solver). }
  split.
  - intros r Hr. destruct (Hub r Hr) as [H1 H2]. split; [done|]. split; [done|].
    apply broadcast_shapes_Ok in Hr as [Hlen H]. intros r' [L1 E1] [L2 E2]. split; [lia|].
    intros i Hi. destruct (decide (i < length r)%nat) as [Hir|Hir].
    + specialize (H i Hir). apply broadcast_dim_Ok in H as (_ & _ & [-> | ->]); auto.
    + left. apply dim_from_end_ge. lia.
  - split.
    + intros (r' & H1 & H2). by eapply broadcast_shapes_is_ok.
    + destruct (broadcast_shapes s1 s2) as [r|e] eqn:E; [|done]. intros _. exists r. by apply Hub.
Qed.

End TShape.
