(* ===== verification/DType.v ===== *)
(** * Data types and type promotion (include/tenzor/core/dtype.hpp)

    [DType] is the enumeration, [promote_types] the promotion of two operand
    types.  Every function on the enumeration is a finite table or a decision
    over it, so the theorems quantify over all types and pairs of types. *)

From stdpp Require Import base list numbers strings finite.
From S2P Require Import Prelude.

Inductive DType : Set :=
| Float32 | Float64 | Float16 | BFloat16
| Int8 | Int16 | Int32 | Int64
| UInt8 | UInt16 | UInt32 | UInt64
| Bool | Complex64 | Complex128
| FP8_E4M3 | FP8_E5M2
| QInt8 | QUInt8 | QInt4x2
| FP8_E4M3FNUZ | FP8_E5M2FNUZ.

#[export] Instance DType_eq_dec : EqDecision DType.
Proof. solve_decision. Defined.

(** The enumerators in declaration order: the position is the [uint8_t] value
    written to files. *)
Definition all_dtypes : list DType :=
  [Float32; Float64; Float16; BFloat16; Int8; Int16; Int32; Int64;
   UInt8; UInt16; UInt32; UInt64; Bool; Complex64; Complex128;
   FP8_E4M3; FP8_E5M2; QInt8; QUInt8; QInt4x2; FP8_E4M3FNUZ; FP8_E5M2FNUZ].

#[export] Program Instance DType_finite : Finite DType := {| enum := all_dtypes |}.
Next Obligation. by apply (bool_decide_unpack _). Qed.
Next Obligation. intros []; by apply (bool_decide_unpack _). Qed.

Definition dtype_size (dtype : DType) : Z :=
  match dtype with
  | Float32 => 4 | Float64 => 8 | Float16 => 2 | BFloat16 => 2
  | Int8 => 1 | Int16 => 2 | Int32 => 4 | Int64 => 8
  | UInt8 => 1 | UInt16 => 2 | UInt32 => 4 | UInt64 => 8
  | Bool => 1 | Complex64 => 8 | Complex128 => 16
  | FP8_E4M3 => 1 | FP8_E5M2 => 1
  | QInt8 => 1 | QUInt8 => 1 | QInt4x2 => 1
  | FP8_E4M3FNUZ => 1 | FP8_E5M2FNUZ => 1
  end.

Definition dtype_name (dtype : DType) : string :=
  match dtype with
  | Float32 => "float32" | Float64 => "float64" | Float16 => "float16" | BFloat16 => "bfloat16"
  | Int8 => "int8" | Int16 => "int16" | Int32 => "int32" | Int64 => "int64"
  | UInt8 => "uint8" | UInt16 => "uint16" | UInt32 => "uint32" | UInt64 => "uint64"
  | Bool => "bool" | Complex64 => "complex64" | Complex128 => "complex128"
  | FP8_E4M3 => "fp8_e4m3" | FP8_E5M2 => "fp8_e5m2"
  | QInt8 => "qint8" | QUInt8 => "quint8" | QInt4x2 => "qint4x2"
  | FP8_E4M3FNUZ => "fp8_e4m3fnuz" | FP8_E5M2FNUZ => "fp8_e5m2fnuz"
  end.

(** A [DType] object can hold any [uint8_t] value ([static_cast] from a file);
    the [switch]es fall through on the values that name no enumerator. *)
Definition dtype_of_raw (raw : Z) : option DType := all_dtypes !! Z.to_nat raw.
Definition dtype_raw (d : DType) : Z := match list_find (fun x => x = d) all_dtypes with Some (i, _) => Z.of_nat i | None => 255 end.

Definition dtype_size_raw (raw : Z) : Z :=
  match dtype_of_raw raw with Some d => dtype_size d | None => 0 end.

Definition is_quantized (d : DType) : bool :=
  match d with QInt8 | QUInt8 | QInt4x2 => true | _ => false end.

Definition is_floating_type (d : DType) : bool :=
  match d with
  | Float32 | Float64 | Float16 | BFloat16
  | FP8_E4M3 | FP8_E5M2 | FP8_E4M3FNUZ | FP8_E5M2FNUZ => true
  | _ => false
  end.

Definition is_integer_type (d : DType) : bool :=
  match d with
  | Int8 | Int16 | Int32 | Int64 | UInt8 | UInt16 | UInt32 | UInt64 => true
  | _ => false
  end.

Definition is_unsigned_integer_type (d : DType) : bool :=
  match d with UInt8 | UInt16 | UInt32 | UInt64 => true | _ => false end.

Definition is_signed_integer_type (d : DType) : bool :=
  match d with Int8 | Int16 | Int32 | Int64 => true | _ => false end.

Definition is_complex_type (d : DType) : bool :=
  match d with Complex64 | Complex128 => true | _ => false end.

Definition dtype_priority (dt : DType) : Z :=
  match dt with
  | Bool => 0 | UInt8 => 1 | Int8 => 2 | UInt16 => 3 | Int16 => 4
  | UInt32 => 5 | Int32 => 6 | UInt64 => 7 | Int64 => 8
  | FP8_E4M3 => 8 | FP8_E5M2 => 8 | FP8_E4M3FNUZ => 8 | FP8_E5M2FNUZ => 8
  | Float16 => 9 | BFloat16 => 10 | Float32 => 11 | Float64 => 12
  | Complex64 => 13 | Complex128 => 14
  | QInt8 | QUInt8 | QInt4x2 => -1
  end.

(** [dtype_eqb] is [==] on the enumeration. *)
Definition dtype_eqb (a b : DType) : bool := bool_decide (a = b).

Definition is_fp8 (d : DType) : bool :=
  match d with FP8_E4M3 | FP8_E5M2 | FP8_E4M3FNUZ | FP8_E5M2FNUZ => true | _ => false end.
Definition is_fnuz (d : DType) : bool :=
  match d with FP8_E4M3FNUZ | FP8_E5M2FNUZ => true | _ => false end.

Definition wider (a b : DType) : DType :=
  if dtype_priority a >=? dtype_priority b then a else b.

(** The branches of [promote_types] that decide by category, in the order of
    the code: each is reached only when the earlier ones did not return. *)

Definition promote_quantized (a b : DType) : DType :=
  if is_floating_type a then
    (if dtype_priority a >=? dtype_priority Float32 then a else Float32)
  else if is_floating_type b then
    (if dtype_priority b >=? dtype_priority Float32 then b else Float32)
  else if is_quantized a && is_quantized b then
    (if dtype_eqb a b then a else QInt8)
  else Float32.

Definition promote_fp8 (a b : DType) : DType :=
  if is_fp8 a && is_fp8 b then
    (if is_fnuz a && is_fnuz b then FP8_E5M2FNUZ
     else if negb (is_fnuz a) && negb (is_fnuz b) then FP8_E5M2
     else Float32)
  else
    let other := if is_fp8 a then b else a in
    if dtype_eqb other Float64 then Float64
    else if dtype_priority other >=? dtype_priority Float32 then other
    else Float32.

Definition promote_integers (a b : DType) : DType :=
  let a_unsigned := is_unsigned_integer_type a in
  let b_unsigned := is_unsigned_integer_type b in
  if xorb a_unsigned b_unsigned then
    let unsigned_dt := if a_unsigned then a else b in
    let signed_dt := if a_unsigned then b else a in
    if dtype_size signed_dt <=? dtype_size unsigned_dt then
      match unsigned_dt with
      | UInt8 => Int16
      | UInt16 => Int32
      | UInt32 => Int64
      | UInt64 => Float64
      | _ => wider a b
      end
    else wider a b
  else wider a b.

Definition promote_types (a b : DType) : DType :=
  if dtype_eqb a b then a
  else if dtype_eqb a Bool && negb (is_quantized b) then b
  else if dtype_eqb b Bool && negb (is_quantized a) then a
  else if is_complex_type a && is_complex_type b then wider a b
  else if is_complex_type a then (if dtype_eqb b Float64 then Complex128 else a)
  else if is_complex_type b then (if dtype_eqb a Float64 then Complex128 else b)
  else if is_quantized a || is_quantized b then promote_quantized a b
  else if is_fp8 a || is_fp8 b then promote_fp8 a b
  else if is_floating_type a && is_integer_type b then
    (if dtype_eqb a Float16 || dtype_eqb a BFloat16 then Float32 else a)
  else if is_floating_type b && is_integer_type a then
    (if dtype_eqb b Float16 || dtype_eqb b BFloat16 then Float32 else b)
  else if is_floating_type a && is_floating_type b then
    (if (dtype_eqb a Float16 && dtype_eqb b BFloat16) ||
        (dtype_eqb a BFloat16 && dtype_eqb b Float16) then Float32
     else wider a b)
  else if is_integer_type a && is_integer_type b then promote_integers a b
  else wider a b.

(** ** Theorems

    A statement about all types (or all pairs, all triples) of the enumeration
    is decided by computation over [all_dtypes]. *)

Ltac by_enumeration := apply (bool_decide_unpack _); vm_compute; exact I.

(** [promotes_to a b]: combining [a] with [b] gives [b]. *)
Definition promotes_to (a b : DType) : Prop := promote_types a b = b.
#[export] Instance promotes_to_dec a b : Decision (promotes_to a b).
Proof. unfold promotes_to. apply _. Defined.

(** [promote_types] is commutative, [promotes_to] is a partial order on the
    data types, and the promotion of two types is an upper bound of both. *)
Theorem promote_types_upper_bound :
  (forall a b, promote_types a b = promote_types b a) /\
  (forall a, promotes_to a a) /\
  (forall a b c, promotes_to a b -> promotes_to b c -> promotes_to a c) /\
  (forall a b, promotes_to a b -> promotes_to b a -> a = b) /\
  (forall a b, promotes_to a (promote_types a b) /\ promotes_to b (promote_types a b)).
Proof. by_enumeration. Qed.

(** The promotion is the least upper bound of its operands, with one
    exception: [UInt64] with a signed integer goes to [Float64], although
    [Float32] (or [Complex64]) is also an upper bound. *)
Theorem promote_types_least :
  forall a b c, promotes_to a c -> promotes_to b c ->
  promotes_to (promote_types a b) c \/
  (promote_types a b = Float64 /\ (c = Float32 \/ c = Complex64) /\
   ((a = UInt64 /\ is_signed_integer_type b = true) \/
    (b = UInt64 /\ is_signed_integer_type a = true))).
Proof. by_enumeration. Qed.

Lemma promote_types_least_witness : promotes_to (promote_types UInt8 Int8) Int32.
Proof.
  destruct (promote_types_least UInt8 Int8 Int32) as [H | (H & _)];
    [reflexivity | reflexivity | exact H | discriminate H].
Defined.

(** Range of the integer types ([Bool] is 0..1). *)
Definition int_range (d : DType) : option (Z * Z) :=
  match d with
  | Bool => Some (0, 1)
  | Int8 => Some (- 2 ^ 7, 2 ^ 7 - 1)
  | Int16 => Some (- 2 ^ 15, 2 ^ 15 - 1)
  | Int32 => Some (- 2 ^ 31, 2 ^ 31 - 1)
  | Int64 => Some (- 2 ^ 63, 2 ^ 63 - 1)
  | UInt8 => Some (0, 2 ^ 8 - 1)
  | UInt16 => Some (0, 2 ^ 16 - 1)
  | UInt32 => Some (0, 2 ^ 32 - 1)
  | UInt64 => Some (0, 2 ^ 64 - 1)
  | _ => None
  end.

Definition represents (d : DType) (v : Z) : Prop :=
  match int_range d with Some (lo, hi) => lo <= v <= hi | None => False end.

Lemma promote_int_ranges :
  forall a b, match int_range a, int_range b with
  | Some (la, ha), Some (lb, hb) =>
      match int_range (promote_types a b) with
      | Some (lo, hi) => lo <= la /\ ha <= hi /\ lo <= lb /\ hb <= hi
      | None => promote_types a b = Float64 /\ (a = UInt64 \/ b = UInt64)
      end
  | _, _ => True
  end.
Proof. intros a b. destruct a, b; vm_compute; intuition congruence. Qed.

(** Promoting two integer (or boolean) types never loses a value: every value
    of either operand type is a value of the result type, unless the pair is
    [UInt64] with a signed type, which goes to [Float64]. *)
Theorem promote_integers_lossless a b v :
  is_Some (int_range a) -> is_Some (int_range b) -> represents a v \/ represents b v ->
  represents (promote_types a b) v \/
  (promote_types a b = Float64 /\ (a = UInt64 \/ b = UInt64)).
Proof.
  intros [[la ha] Ha] [[lb hb] Hb]. pose proof (promote_int_ranges a b) as H.
  rewrite Ha, Hb in H. unfold represents. rewrite Ha, Hb.
  destruct (int_range (promote_types a b)) as [[lo hi]|]; [|naive_solver]. intros. left. lia.
Qed.

Lemma promote_integers_lossless_witness : represents (promote_types UInt32 Int32) 4294967295.
Proof.
  destruct (promote_integers_lossless UInt32 Int32 4294967295) as [H | [H _]];
    [eexists; reflexivity | eexists; reflexivity | left; vm_compute; split; discriminate
    | exact H | discriminate H].
Defined.

(** Category rules: complex dominates, a quantized operand gives at least
    [Float32], and [Float16]/[BFloat16] with an integer gives [Float32]. *)
Theorem promote_types_categories :
  (forall a b, is_complex_type a = true -> is_complex_type (promote_types a b) = true) /\
  (forall a b, is_quantized a = true -> is_quantized b = false -> is_complex_type b = false ->
     promote_types a b = (if dtype_eqb b Float64 then Float64 else Float32)) /\
  (forall a b, is_floating_type a = true -> is_integer_type b = true ->
     dtype_priority Float32 <= dtype_priority (promote_types a b)) /\
  (forall a b, a <> b -> is_fp8 a = true -> is_fp8 b = true ->
     promote_types a b =
       if is_fnuz a && is_fnuz b then FP8_E5M2FNUZ
       else if is_fnuz a || is_fnuz b then Float32 else FP8_E5M2).
Proof. by_enumeration. Qed.

Lemma dtype_of_raw_dtype_raw d : dtype_of_raw (dtype_raw d) = Some d.
Proof. by destruct d. Qed.

Lemma dtype_size_pos d : 0 < dtype_size d <= 16.
Proof. by destruct d. Qed.

Lemma dtype_size_raw_range raw : 0 <= dtype_size_raw raw <= 16.
Proof.
  unfold dtype_size_raw. destruct (dtype_of_raw raw) as [d|]; [|lia].
  pose proof (dtype_size_pos d). lia.
Qed.
