(* ===== verification/FloatFormats.v ===== *)
(** * Narrow floating-point formats (src/core/dtype.cpp)

    A [float] is its 32-bit pattern, as the code sees it after [memcpy]; a
    narrow value is its bit pattern too.  The constructors are [f32_to_*], the
    conversion operators [*_to_f32].

    The values are exact integers: [mag32] is the magnitude of a finite float in
    units of 2^-149, [mag16], [mag_e4m3], ... the magnitudes of the narrow
    formats in units of their smallest subnormal. *)

From stdpp Require Import base list numbers strings.
From S2P Require Import Prelude.

(** The rounding test of every encoder: round the kept field up when the
    discarded part is above half, or equal to half with an odd kept field. *)
Definition round_up (kept remainder halfway : Z) : bool :=
  (remainder >? halfway) || ((remainder =? halfway) && Z.odd kept).

(** [do { e++; m <<= 1; } while ((m & top) == 0);] at most [fuel] times. *)
Fixpoint normalize (fuel : nat) (top e m : Z) : Z * Z :=
  match fuel with
  | O => (e, m)
  | S fuel =>
      let e := e + 1 in
      let m := Z.shiftl m 1 in
      if Z.land m top =? 0 then normalize fuel top e m else (e, m)
  end.

Definition pack32 (sign exp mantissa : Z) : Z :=
  Z.lor (Z.lor (Z.shiftl sign 31) (Z.shiftl exp 23)) mantissa.

Module F16.

Definition f32_to_f16 (f_bits : Z) : Z :=
  let sign := Z.land (Z.shiftr f_bits 16) 0x8000 in
  let exp := Z.land (Z.shiftr f_bits 23) 0xFF in
  let mant := Z.land f_bits 0x7FFFFF in
  if exp =? 0xFF then
    Z.lor (Z.lor sign 0x7C00) (if mant =? 0 then 0 else 0x0200)
  else
  let e := exp - 127 + 15 in
  if e >=? 0x1F then Z.lor sign 0x7BFF
  else if e <=? 0 then
    if e <? -10 then sign
    else
      let mant := Z.lor mant 0x800000 in
      let shift := 14 - e in
      let half_mant := Z.shiftr mant shift in
      let remainder := Z.land mant (Z.shiftl 1 shift - 1) in
      let halfway := Z.shiftl 1 (shift - 1) in
      let half_mant := if round_up half_mant remainder halfway then half_mant + 1 else half_mant in
      wrap 16 (Z.lor sign half_mant)
  else
    let half_mant := Z.shiftr mant 13 in
    let remainder := Z.land mant 0x1FFF in
    let h := wrap 16 (Z.lor (Z.lor sign (Z.shiftl e 10)) half_mant) in
    if round_up half_mant remainder 0x1000 then
      let h := wrap 16 (h + 1) in
      if (Z.land h 0x7C00 =? 0x7C00) && (Z.land h 0x03FF =? 0)
      then wrap 16 (Z.lor sign 0x7BFF) else h
    else h.

Definition f16_to_f32 (bits : Z) : Z :=
  let sign := Z.land (Z.shiftr bits 15) 0x1 in
  let exp := Z.land (Z.shiftr bits 10) 0x1F in
  let mantissa := Z.land bits 0x3FF in
  if exp =? 0 then
    if mantissa =? 0 then pack32 sign 0 0
    else
      let '(e, m) := normalize 10 0x400 (-1) mantissa in
      pack32 sign (127 - 15 - e) (Z.shiftl (Z.land m 0x3FF) 13)
  else if exp =? 0x1F then pack32 sign 0xFF (Z.shiftl mantissa 13)
  else pack32 sign (exp - 15 + 127) (Z.shiftl mantissa 13).

End F16.

Module BF16.

Definition f32_to_bf16 (f_bits : Z) : Z :=
  let exp := Z.land (Z.shiftr f_bits 23) 0xFF in
  let mantissa := Z.land f_bits 0x7FFFFF in
  if (exp =? 0xFF) && negb (mantissa =? 0) then
    wrap 16 (Z.lor (Z.shiftr f_bits 16) 0x0001)
  else
    let rounding_bias := 0x7FFF + Z.land (Z.shiftr f_bits 16) 1 in
    wrap 16 (Z.shiftr (wrap 32 (f_bits + rounding_bias)) 16).

Definition bf16_to_f32 (bits : Z) : Z := Z.shiftl bits 16.

End BF16.

Module FP8.

(** ** E4M3 *)

Definition f32_to_e4m3 (f_bits : Z) : Z :=
  let sign := Z.land (Z.shiftr f_bits 31) 0x1 in
  let exp := Z.land (Z.shiftr f_bits 23) 0xFF in
  let mantissa := Z.land f_bits 0x7FFFFF in
  let '(h_exp, h_mantissa) :=
    if exp =? 0xFF then (0xF, 0x7)
    else if exp =? 0 then (0, 0)
    else
      let new_exp := exp - 127 + 7 in
      if new_exp >=? 0xF then (0xF, 0x6)
      else if new_exp <=? 0 then
        if new_exp >=? -3 then
          let m := Z.shiftr (Z.lor mantissa 0x800000) (1 - new_exp) in
          let kept := Z.land (Z.shiftr m 20) 0x7 in
          let remainder := Z.land m 0xFFFFF in
          let kept := if round_up kept remainder 0x80000 then kept + 1 else kept in
          (Z.shiftr kept 3, Z.land kept 0x7)
        else (0, 0)
      else
        let kept := Z.land (Z.shiftr mantissa 20) 0x7 in
        let remainder := Z.land mantissa 0xFFFFF in
        let packed := Z.lor (Z.shiftl new_exp 3) kept in
        let packed := if round_up kept remainder 0x80000 then packed + 1 else packed in
        let r_exp := Z.shiftr packed 3 in
        let r_mant := Z.land packed 0x7 in
        if (r_exp >? 0xF) || ((r_exp =? 0xF) && (r_mant >=? 0x7)) then (0xF, 0x6)
        else (r_exp, r_mant) in
  wrap 8 (Z.lor (Z.lor (Z.shiftl sign 7) (Z.shiftl h_exp 3)) h_mantissa).

Definition e4m3_to_f32 (bits : Z) : Z :=
  let sign := Z.land (Z.shiftr bits 7) 0x1 in
  let exp := Z.land (Z.shiftr bits 3) 0xF in
  let mantissa := Z.land bits 0x7 in
  if exp =? 0 then
    if mantissa =? 0 then pack32 sign 0 0
    else
      let '(e, m) := normalize 3 0x8 (-1) mantissa in
      pack32 sign (127 - 7 - e) (Z.shiftl (Z.land m 0x7) 20)
  else if (exp =? 0xF) && (mantissa =? 0x7) then pack32 sign 0xFF 0x700000
  else pack32 sign (exp - 7 + 127) (Z.shiftl mantissa 20).

(** ** E5M2 *)

Definition f32_to_e5m2 (f_bits : Z) : Z :=
  let sign := Z.land (Z.shiftr f_bits 31) 0x1 in
  let exp := Z.land (Z.shiftr f_bits 23) 0xFF in
  let mantissa := Z.land f_bits 0x7FFFFF in
  let '(h_exp, h_mantissa) :=
    if exp =? 0xFF then (0x1F, if mantissa =? 0 then 0 else 0x3)
    else if exp =? 0 then (0, 0)
    else
      let new_exp := exp - 127 + 15 in
      if new_exp >=? 0x1F then (0x1F, 0)
      else if new_exp <=? 0 then
        if new_exp >=? -2 then
          let m := Z.shiftr (Z.lor mantissa 0x800000) (1 - new_exp) in
          let kept := Z.land (Z.shiftr m 21) 0x3 in
          let remainder := Z.land m 0x1FFFFF in
          let kept := if round_up kept remainder 0x100000 then kept + 1 else kept in
          (Z.shiftr kept 2, Z.land kept 0x3)
        else (0, 0)
      else
        let kept := Z.land (Z.shiftr mantissa 21) 0x3 in
        let remainder := Z.land mantissa 0x1FFFFF in
        let packed := Z.lor (Z.shiftl new_exp 2) kept in
        let packed := if round_up kept remainder 0x100000 then packed + 1 else packed in
        (Z.shiftr packed 2, Z.land packed 0x3) in
  wrap 8 (Z.lor (Z.lor (Z.shiftl sign 7) (Z.shiftl h_exp 2)) h_mantissa).

Definition e5m2_to_f32 (bits : Z) : Z :=
  let sign := Z.land (Z.shiftr bits 7) 0x1 in
  let exp := Z.land (Z.shiftr bits 2) 0x1F in
  let mantissa := Z.land bits 0x3 in
  if exp =? 0 then
    if mantissa =? 0 then pack32 sign 0 0
    else
      let '(e, m) := normalize 2 0x4 (-1) mantissa in
      pack32 sign (127 - 15 - e) (Z.shiftl (Z.land m 0x3) 21)
  else if exp =? 0x1F then pack32 sign 0xFF (Z.shiftl mantissa 21)
  else pack32 sign (exp - 15 + 127) (Z.shiftl mantissa 21).

(** ** E4M3FNUZ *)

Definition f32_to_e4m3fnuz (f_bits : Z) : Z :=
  let sign := Z.land (Z.shiftr f_bits 31) 0x1 in
  let exp := Z.land (Z.shiftr f_bits 23) 0xFF in
  let mantissa := Z.land f_bits 0x7FFFFF in
  if exp =? 0xFF then 0x80
  else
  let '(h_exp, h_mantissa) :=
    if exp =? 0 then (0, 0)
    else
      let new_exp := exp - 127 + 8 in
      if new_exp >=? 0x10 then (0xF, 0x7)
      else if new_exp <=? 0 then
        if new_exp >=? -3 then
          let m := Z.shiftr (Z.lor mantissa 0x800000) (1 - new_exp) in
          let kept := Z.land (Z.shiftr m 20) 0x7 in
          let remainder := Z.land m 0xFFFFF in
          let kept := if round_up kept remainder 0x80000 then kept + 1 else kept in
          (Z.shiftr kept 3, Z.land kept 0x7)
        else (0, 0)
      else
        let kept := Z.land (Z.shiftr mantissa 20) 0x7 in
        let remainder := Z.land mantissa 0xFFFFF in
        let packed := Z.lor (Z.shiftl new_exp 3) kept in
        let packed := if round_up kept remainder 0x80000 then packed + 1 else packed in
        let r_exp := Z.shiftr packed 3 in
        let r_mant := Z.land packed 0x7 in
        if r_exp >=? 0x10 then (0xF, 0x7) else (r_exp, r_mant) in
  let bits := wrap 8 (Z.lor (Z.lor (Z.shiftl sign 7) (Z.shiftl h_exp 3)) h_mantissa) in
  if bits =? 0x80 then 0x00 else bits.

Definition e4m3fnuz_to_f32 (bits : Z) : Z :=
  if bits =? 0x80 then 0x7FC00000
  else
  let sign := Z.land (Z.shiftr bits 7) 0x1 in
  let exp := Z.land (Z.shiftr bits 3) 0xF in
  let mantissa := Z.land bits 0x7 in
  if exp =? 0 then
    if mantissa =? 0 then pack32 sign 0 0
    else
      let '(e, m) := normalize 3 0x8 (-1) mantissa in
      pack32 sign (127 - 8 - e) (Z.shiftl (Z.land m 0x7) 20)
  else pack32 sign (exp - 8 + 127) (Z.shiftl mantissa 20).

(** ** E5M2FNUZ *)

Definition f32_to_e5m2fnuz (f_bits : Z) : Z :=
  let sign := Z.land (Z.shiftr f_bits 31) 0x1 in
  let exp := Z.land (Z.shiftr f_bits 23) 0xFF in
  let mantissa := Z.land f_bits 0x7FFFFF in
  if exp =? 0xFF then 0x80
  else
  let '(h_exp, h_mantissa) :=
    if exp =? 0 then (0, 0)
    else
      let new_exp := exp - 127 + 16 in
      if new_exp >=? 0x20 then (0x1F, 0x3)
      else if new_exp <=? 0 then
        if new_exp >=? -2 then
          let m := Z.shiftr (Z.lor mantissa 0x800000) (1 - new_exp) in
          let kept := Z.land (Z.shiftr m 21) 0x3 in
          let remainder := Z.land m 0x1FFFFF in
          let kept := if round_up kept remainder 0x100000 then kept + 1 else kept in
          (Z.shiftr kept 2, Z.land kept 0x3)
        else (0, 0)
      else
        let kept := Z.land (Z.shiftr mantissa 21) 0x3 in
        let remainder := Z.land mantissa 0x1FFFFF in
        let packed := Z.lor (Z.shiftl new_exp 2) kept in
        let packed := if round_up kept remainder 0x100000 then packed + 1 else packed in
        let r_exp := Z.shiftr packed 2 in
        let r_mant := Z.land packed 0x3 in
        if r_exp >=? 0x20 then (0x1F, 0x3) else (r_exp, r_mant) in
  let bits := wrap 8 (Z.lor (Z.lor (Z.shiftl sign 7) (Z.shiftl h_exp 2)) h_mantissa) in
  if bits =? 0x80 then 0x00 else bits.

Definition e5m2fnuz_to_f32 (bits : Z) : Z :=
  if bits =? 0x80 then 0x7FC00000
  else
  let sign := Z.land (Z.shiftr bits 7) 0x1 in
  let exp := Z.land (Z.shiftr bits 2) 0x1F in
  let mantissa := Z.land bits 0x3 in
  if exp =? 0 then
    if mantissa =? 0 then pack32 sign 0 0
    else
      let '(e, m) := normalize 2 0x4 (-1) mantissa in
      pack32 sign (127 - 16 - e) (Z.shiftl (Z.land m 0x3) 21)
  else pack32 sign (exp - 16 + 127) (Z.shiftl mantissa 21).

End FP8.

(** ** Exact magnitudes *)

(** [mag p c]: the magnitude of the finite code [c] (sign removed) of a format
    with [p] mantissa bits, in units of its smallest subnormal. *)
Definition mag (p c : Z) : Z :=
  if c / 2 ^ p =? 0 then c mod 2 ^ p
  else (2 ^ p + c mod 2 ^ p) * 2 ^ (c / 2 ^ p - 1).

Definition mag32 (b : Z) : Z := mag 23 b.

(** [is_rne p k N c]: [c] is the code of the [p]-bit format of unit [2^k] that
    IEEE round-to-nearest, ties-to-even assigns to the magnitude [N]. *)
Definition is_rne (p k N c : Z) : Prop :=
  exists c0, 0 <= c0 /\ mag p c0 * 2 ^ k <= N < mag p (c0 + 1) * 2 ^ k /\
  let twice_mid := (mag p c0 + mag p (c0 + 1)) * 2 ^ k in
  c = if 2 * N <? twice_mid then c0
      else if twice_mid <? 2 * N then c0 + 1
      else if Z.even c0 then c0 else c0 + 1.

(** A check of all [2^k] codes below [(acc+1) * 2^k] from [acc * 2^k]. *)
Fixpoint all_below (k : nat) (P : Z -> bool) (acc : Z) : bool :=
  match k with
  | O => P acc
  | S k => all_below k P (2 * acc) && all_below k P (2 * acc + 1)
  end.

Lemma all_below_spec k P acc :
  all_below k P acc = true ->
  forall c, acc * 2 ^ Z.of_nat k <= c < (acc + 1) * 2 ^ Z.of_nat k -> P c = true.
Proof.
  revert acc. induction k as [|k IH]; intros acc H c Hc.
  - simpl in H. replace c with acc by lia. done.
  - cbn [all_below] in H. apply andb_true_iff in H as [H1 H2].
    rewrite Nat2Z.inj_succ, Z.pow_succ_r in Hc by lia.
    destruct (decide (c < (2 * acc + 1) * 2 ^ Z.of_nat k)).
    + apply (IH _ H1). lia.
    + apply (IH _ H2). lia.
Qed.

Lemma all_codes k P c : all_below k P 0 = true -> 0 <= c < 2 ^ Z.of_nat k -> P c = true.
Proof. intros H Hc. apply (all_below_spec k P 0 H). lia. Qed.

(** [mag] with shifts and masks, for checks by computation. *)
Definition mag_bits (p c : Z) : Z :=
  let e := Z.shiftr c p in
  let m := Z.land c (Z.ones p) in
  if e =? 0 then m else Z.shiftl (Z.shiftl 1 p + m) (e - 1).

Lemma mag_bits_spec p c : 0 <= p -> 0 <= c -> mag_bits p c = mag p c.
Proof.
  intros Hp Hc. unfold mag_bits, mag. rewrite Z.land_ones, Z.shiftr_div_pow2 by lia.
  destruct (Z.eqb_spec (c / 2 ^ p) 0); [done|].
  assert (0 <= c / 2 ^ p) by (apply Z.div_pos; lia).
  rewrite !Z.shiftl_mul_pow2 by lia. by rewrite Z.mul_1_l.
Qed.

(** *** Bit operations as arithmetic *)

Lemma land_7FFFFF x : Z.land x 0x7FFFFF = x mod 2 ^ 23.
Proof. by rewrite <-Z.land_ones. Qed.
Lemma land_FF x : Z.land x 0xFF = x mod 2 ^ 8.
Proof. by rewrite <-Z.land_ones. Qed.
Lemma land_1 x : Z.land x 1 = x mod 2.
Proof. by apply (Z.land_ones x 1). Qed.

Lemma lor_add a b n : 0 <= n -> 0 <= b < 2 ^ n -> Z.lor (Z.shiftl a n) b = a * 2 ^ n + b.
Proof.
  intros Hn Hb. pose proof (Z.add_lor_land (Z.shiftl a n) b). rewrite <-Z.shiftl_mul_pow2 by lia.
  enough (Z.land (Z.shiftl a n) b = 0) by lia.
  apply Z.bits_inj'. intros i Hi. rewrite Z.land_spec, Z.bits_0.
  destruct (Z.ltb_spec i n).
  - by rewrite Z.shiftl_spec_low.
  - destruct (decide (b = 0)) as [->|]; [by rewrite Z.bits_0, andb_false_r|].
    rewrite (Z.bits_above_log2 b i), andb_false_r; [done|lia|].
    apply Z.log2_lt_pow2; [lia|]. eapply Z.lt_le_trans; [apply Hb|].
    apply Z.pow_le_mono_r; lia.
Qed.

Lemma lor_1 x : Z.lor x 1 = x + 1 - x mod 2.
Proof.
  pose proof (Z.div_mod x 2 ltac:(lia)) as E. pose proof (Z.mod_pos_bound x 2 ltac:(lia)).
  assert (Z.lor (Z.shiftl (x / 2) 1) 1 = x / 2 * 2 + 1) as F by (by rewrite lor_add).
  destruct (decide (x mod 2 = 0)) as [E0|].
  - replace x with (Z.shiftl (x / 2) 1) at 1 by (rewrite Z.shiftl_mul_pow2; lia). lia.
  - replace x with (Z.lor (Z.shiftl (x / 2) 1) 1) at 1 by lia.
    rewrite <-Z.lor_assoc. change (Z.lor 1 1) with 1. lia.
Qed.

Lemma lor_bit23 m : 0 <= m < 2 ^ 23 -> Z.lor m 0x800000 = 2 ^ 23 + m.
Proof.
  intros. rewrite Z.lor_comm. change 0x800000 with (Z.shiftl 1 23). rewrite lor_add by lia. lia.
Qed.

(** Fields of a non-negative float. *)
Lemma f32_fields b :
  0 <= b < 2 ^ 31 ->
  exists E m, b = E * 2 ^ 23 + m /\ 0 <= E < 2 ^ 8 /\ 0 <= m < 2 ^ 23 /\
    Z.land (Z.shiftr b 23) 0xFF = E /\ Z.land b 0x7FFFFF = m.
Proof.
  intros Hb. exists (b / 2 ^ 23), (b mod 2 ^ 23).
  rewrite land_7FFFFF, land_FF, Z.shiftr_div_pow2 by lia.
  assert (b / 2 ^ 23 < 2 ^ 8) by (apply Z.div_lt_upper_bound; lia).
  assert (0 <= b / 2 ^ 23) by (apply Z.div_pos; lia).
  repeat split; try lia; try (apply Z.mod_pos_bound; lia).
  - rewrite Z.mul_comm. apply Z.div_mod. lia.
  - apply Z.mod_small. lia.
Qed.

Lemma mag_fields p e m :
  0 <= p -> 0 <= m < 2 ^ p ->
  mag p (e * 2 ^ p + m) = if e =? 0 then m else (2 ^ p + m) * 2 ^ (e - 1).
Proof.
  intros Hp Hm. unfold mag. rewrite Z.div_add_l, Z.div_small, Z.add_0_r by lia.
  by rewrite Z.add_comm, Z.mod_add, Z.mod_small by lia.
Qed.

Lemma mag_small p c : 0 <= p -> 0 <= c <= 2 ^ p -> mag p c = c.
Proof.
  intros Hp Hc. destruct (decide (c = 2 ^ p)) as [->|].
  - replace (2 ^ p) with (1 * 2 ^ p + 0) at 1 by lia. rewrite mag_fields by lia. simpl. lia.
  - replace c with (0 * 2 ^ p + c) at 1 by lia. rewrite mag_fields by lia. done.
Qed.

Lemma mag_normal p e m :
  0 <= p -> 1 <= e -> 0 <= m <= 2 ^ p ->
  mag p (e * 2 ^ p + m) = (2 ^ p + m) * 2 ^ (e - 1).
Proof.
  intros Hp He Hm. destruct (decide (m = 2 ^ p)) as [->|].
  - replace (e * 2 ^ p + 2 ^ p) with ((e + 1) * 2 ^ p + 0) by lia. rewrite mag_fields by lia.
    destruct (Z.eqb_spec (e + 1) 0); [lia|].
    replace (e + 1 - 1) with (Z.succ (e - 1)) by lia. rewrite Z.pow_succ_r by lia. lia.
  - rewrite mag_fields by lia. destruct (Z.eqb_spec e 0); [lia|done].
Qed.

(** *** The rounding test is round-to-nearest-even

    [M] is rounded to a multiple of [K = 2 * H]: the test on the quotient and
    the remainder of the code selects the nearest multiple, ties to even. *)
Lemma round_up_rne M H :
  0 < H -> 0 <= M ->
  let q := M / (2 * H) in
  let q' := if round_up q (M mod (2 * H)) H then q + 1 else q in
  q' = if 2 * M <? (2 * q + 1) * (2 * H) then q
       else if (2 * q + 1) * (2 * H) <? 2 * M then q + 1
       else if Z.even q then q else q + 1.
Proof.
  intros HH HM q q'. subst q'. unfold round_up.
  pose proof (Z.div_mod M (2 * H) ltac:(lia)) as E.
  pose proof (Z.mod_pos_bound M (2 * H) ltac:(lia)). fold q in E.
  rewrite Z.gtb_ltb, <-Z.negb_even.
  destruct (Z.ltb_spec H (M mod (2 * H))), (Z.eqb_spec (M mod (2 * H)) H),
    (Z.ltb_spec (2 * M) ((2 * q + 1) * (2 * H))), (Z.ltb_spec ((2 * q + 1) * (2 * H)) (2 * M));
    simpl; try lia; by destruct (Z.even q).
Qed.

(** [is_rne] follows from rounding an integer [M] to a multiple of [K = 2 * H]
    when the magnitudes of the two neighbouring codes are that multiple and the
    next one, in a common unit [u]. *)
Lemma is_rne_intro p k N c0 M H u :
  0 < H -> 0 < u -> 0 <= M -> 0 <= c0 ->
  N = M * u ->
  mag p c0 * 2 ^ k = M / (2 * H) * (2 * H) * u ->
  mag p (c0 + 1) * 2 ^ k = (M / (2 * H) + 1) * (2 * H) * u ->
  Z.even c0 = Z.even (M / (2 * H)) ->
  is_rne p k N (if round_up (M / (2 * H)) (M mod (2 * H)) H then c0 + 1 else c0).
Proof.
  intros HH Hu HM Hc0 HN E0 E1 Ev. exists c0. split; [done|].
  pose proof (Z.div_mod M (2 * H) ltac:(lia)) as E.
  pose proof (Z.mod_pos_bound M (2 * H) ltac:(lia)) as Hb.
  set (q := M / (2 * H)) in *. split; [rewrite E0, E1, HN; nia|].
  pose proof (round_up_rne M H HH HM) as R. cbv zeta in R. fold q in R.
  replace ((mag p c0 + mag p (c0 + 1)) * 2 ^ k) with ((2 * q + 1) * (2 * H) * u)
    by (rewrite (Z.mul_add_distr_r (mag p c0)), E0, E1; lia).
  cbv zeta.
  assert (2 * N = 2 * M * u) as -> by lia.
  assert (forall a b, (a * u <? b * u) = (a <? b)) as Hlt.
  { intros a b. destruct (Z.ltb_spec (a * u) (b * u)), (Z.ltb_spec a b); nia || done. }
  rewrite !Hlt, Ev. destruct (round_up _ _ _); revert R; repeat case_if; lia.
Qed.

(** A float whose rebiased exponent is at least 1: the [s] low mantissa bits are
    rounded away, the carry running into the exponent field. *)
Lemma rne_normal p s D E m :
  1 <= p -> 1 <= s -> p + s = 23 -> 0 <= D -> D + 1 <= E -> 0 <= m < 2 ^ 23 ->
  is_rne p (s + D) (mag32 (E * 2 ^ 23 + m))
    (let c0 := (E - D) * 2 ^ p + m / 2 ^ s in
     if round_up (m / 2 ^ s) (m mod 2 ^ s) (2 ^ (s - 1)) then c0 + 1 else c0).
Proof.
  intros Hp Hs Hps HD HE Hm. cbv zeta.
  assert (2 ^ s = 2 * 2 ^ (s - 1)) as Es by (rewrite <-Z.pow_succ_r by lia; f_equal; lia).
  assert (2 ^ 23 = 2 ^ p * 2 ^ s) as E23 by (rewrite <-Z.pow_add_r by lia; f_equal; lia).
  assert (0 < 2 ^ s) by lia. assert (0 < 2 ^ (s - 1)) by lia.
  assert (0 <= m / 2 ^ s) by (apply Z.div_pos; lia).
  assert (m / 2 ^ s < 2 ^ p) by (apply Z.div_lt_upper_bound; lia).
  pose proof (Z.mul_div_le m (2 ^ s)). pose proof (Z.div_mod m (2 ^ s)).
  set (h := 2 ^ (s - 1)) in *. set (K := 2 ^ s) in *. set (q := m / K) in *.
  assert (2 ^ (E - D - 1) * 2 ^ (s + D) = K * 2 ^ (E - 1)) as Ek.
  { subst K. rewrite <-!Z.pow_add_r by lia. f_equal. lia. }
  set (M := 2 ^ 23 + m).
  assert (M / (2 * h) = 2 ^ p + q) as Eq.
  { rewrite <-Es. subst M. rewrite E23, Z.div_add_l by lia. done. }
  assert (M mod (2 * h) = m mod K) as Er.
  { rewrite <-Es. subst M. rewrite E23, Z.add_comm, Z.mod_add by lia. done. }
  assert (Z.even (2 ^ p) = true) as Evp.
  { replace p with (Z.succ (p - 1)) by lia. rewrite Z.pow_succ_r, Z.even_mul by lia. done. }
  pose proof (is_rne_intro p (s + D) (mag32 (E * 2 ^ 23 + m)) ((E - D) * 2 ^ p + q) M h (2 ^ (E - 1)))
    as R. rewrite Eq, Er in R.
  assert (round_up (2 ^ p + q) (m mod K) h = round_up q (m mod K) h) as Hr.
  { unfold round_up. rewrite Z.odd_add, <-(Z.negb_even (2 ^ p)), Evp. by destruct (Z.odd q). }
  rewrite Hr in R. apply R; clear R Hr; try lia.
  - subst M. nia.
  - unfold mag32. rewrite mag_normal by lia. subst M. lia.
  - rewrite mag_normal, <-Z.mul_assoc, Ek by lia. rewrite <-Es. lia.
  - rewrite <-Z.add_assoc, mag_normal, <-Z.mul_assoc, Ek by lia. rewrite <-Es. lia.
  - rewrite !Z.even_add, Z.even_mul, Evp, orb_true_r. done.
Qed.

(** Below the smallest normal value the whole significand is shifted, here by
    [S] bits in one step. *)
Lemma rne_subnormal p S E m :
  1 <= p <= 22 -> 1 <= E -> 24 - p <= S -> 0 <= m < 2 ^ 23 ->
  is_rne p (S + E - 1) (mag32 (E * 2 ^ 23 + m))
    (let M := 2 ^ 23 + m in
     if round_up (M / 2 ^ S) (M mod 2 ^ S) (2 ^ (S - 1)) then M / 2 ^ S + 1 else M / 2 ^ S).
Proof.
  intros Hp HE HS Hm. cbv zeta. set (M := 2 ^ 23 + m).
  assert (2 ^ S = 2 * 2 ^ (S - 1)) as Es by (rewrite <-Z.pow_succ_r by lia; f_equal; lia).
  assert (0 < 2 ^ (S - 1)) by lia.
  assert (0 <= M / 2 ^ S) by (apply Z.div_pos; lia).
  assert (M / 2 ^ S < 2 ^ p).
  { apply Z.div_lt_upper_bound; [lia|]. apply Z.lt_le_trans with (2 ^ 24); [subst M; lia|].
    rewrite <-Z.pow_add_r by lia. apply Z.pow_le_mono_r; lia. }
  assert (2 ^ (S + E - 1) = 2 ^ S * 2 ^ (E - 1)) as Ek.
  { rewrite <-Z.pow_add_r by lia. f_equal. lia. }
  rewrite Es. apply is_rne_intro with (u := 2 ^ (E - 1)); rewrite <-?Es; try lia.
  - unfold mag32. rewrite mag_normal by lia. done.
  - rewrite mag_small, Ek by lia. lia.
  - rewrite mag_small, Ek by lia. lia.
  - done.
Qed.

Lemma rne_tiny p k N : 1 <= p -> 0 <= N -> 2 * N < 2 ^ k -> is_rne p k N 0.
Proof.
  intros Hp HN H. exists 0. assert (2 <= 2 ^ p) by (apply (Z.pow_le_mono_r 2 1 p); lia).
  rewrite !mag_small by lia. cbv zeta. split; [done|]. split; [lia|].
  destruct (Z.ltb_spec (2 * N) ((0 + (0 + 1)) * 2 ^ k)); lia.
Qed.

Lemma mag32_tiny E m k :
  0 <= E -> 0 <= m < 2 ^ 23 -> E + 24 <= k -> 2 * mag32 (E * 2 ^ 23 + m) < 2 ^ k.
Proof.
  intros HE Hm Hk. unfold mag32. rewrite mag_fields by lia.
  assert (2 ^ (E + 24) <= 2 ^ k) by (apply Z.pow_le_mono_r; lia).
  rewrite Z.pow_add_r in * by lia.
  destruct (Z.eqb_spec E 0) as [->|]; [lia|].
  replace E with (Z.succ (E - 1)) in * by lia. rewrite Z.pow_succ_r in * by lia.
  replace (Z.succ (E - 1) - 1) with (E - 1) by lia. nia.
Qed.

Lemma mag32_nonneg E m : 0 <= E -> 0 <= m < 2 ^ 23 -> 0 <= mag32 (E * 2 ^ 23 + m).
Proof.
  intros HE Hm. unfold mag32. rewrite mag_fields by lia.
  destruct (Z.eqb_spec E 0); [lia|]. apply Z.mul_nonneg_nonneg; lia.
Qed.

Lemma mag32_large E m k :
  1 <= E -> 0 <= m < 2 ^ 23 -> 0 <= k <= E + 22 -> 2 ^ k <= mag32 (E * 2 ^ 23 + m).
Proof.
  intros HE Hm Hk. unfold mag32. rewrite mag_normal by lia.
  assert (2 ^ k <= 2 ^ (23 + (E - 1))) by (apply Z.pow_le_mono_r; lia).
  rewrite Z.pow_add_r in * by lia. nia.
Qed.

Lemma mag32_below E m k :
  1 <= E -> 0 <= m < 2 ^ 23 -> E + 23 <= k -> mag32 (E * 2 ^ 23 + m) < 2 ^ k.
Proof.
  intros HE Hm Hk. unfold mag32. rewrite mag_normal by lia.
  assert (2 ^ (24 + (E - 1)) <= 2 ^ k) by (apply Z.pow_le_mono_r; lia).
  rewrite Z.pow_add_r in * by lia. nia.
Qed.

Module F16Spec.
Import F16.

Lemma land_pow2 x n : 0 <= n -> Z.land x (2 ^ n) = x / 2 ^ n mod 2 * 2 ^ n.
Proof.
  intros Hn. rewrite <-(Z.land_ones _ 1), <-Z.shiftr_div_pow2, <-Z.shiftl_mul_pow2 by lia.
  apply Z.bits_inj'. intros i Hi. rewrite Z.land_spec, Z.pow2_bits_eqb, Z.shiftl_spec by lia.
  destruct (Z.eqb_spec n i) as [->|].
  - by rewrite Z.sub_diag, Z.land_spec, Z.shiftr_spec, Z.add_0_l.
  - rewrite andb_false_r. symmetry. destruct (decide (i < n)); [by apply Z.testbit_neg_r; lia|].
    rewrite Z.land_spec, (Z.ones_spec_high 1) by lia. by rewrite andb_false_r.
Qed.

Lemma land_field x n k :
  0 <= n -> 0 <= k -> Z.land x (Z.shiftl (Z.ones k) n) = x / 2 ^ n mod 2 ^ k * 2 ^ n.
Proof.
  intros Hn Hk. rewrite <-Z.land_ones, <-Z.shiftr_div_pow2, <-Z.shiftl_mul_pow2 by lia.
  apply Z.bits_inj'. intros i Hi. rewrite Z.land_spec, !Z.shiftl_spec, Z.land_spec by lia.
  destruct (decide (i < n)).
  - rewrite !(Z.testbit_neg_r _ (i - n)) by lia. by rewrite !andb_false_r.
  - rewrite Z.shiftr_spec by lia. by replace (i - n + n) with i by lia.
Qed.

Lemma is_infinity_code s h :
  0 <= h < 2 ^ 15 ->
  (Z.land (s * 2 ^ 15 + h) 0x7C00 =? 0x7C00) && (Z.land (s * 2 ^ 15 + h) 0x03FF =? 0) = (h =? 0x7C00).
Proof.
  intros Hh. change (Z.land (s * 2 ^ 15 + h) 0x7C00) with
    (Z.land (s * 2 ^ 15 + h) (Z.shiftl (Z.ones 5) 10)).
  change 0x3FF with (Z.ones 10). rewrite land_field, Z.land_ones by lia.
  assert ((s * 2 ^ 15 + h) / 2 ^ 10 mod 2 ^ 5 = h / 2 ^ 10) as ->.
  { replace (s * 2 ^ 15 + h) with (h + s * 2 ^ 5 * 2 ^ 10) by lia.
    assert (0 <= h / 2 ^ 10) by (apply Z.div_pos; lia).
    assert (h / 2 ^ 10 < 2 ^ 5) by (apply Z.div_lt_upper_bound; lia).
    by rewrite Z.div_add, Z.mod_add, Z.mod_small by lia. }
  assert ((s * 2 ^ 15 + h) mod 2 ^ 10 = h mod 2 ^ 10) as ->.
  { replace (s * 2 ^ 15 + h) with (h + s * 2 ^ 5 * 2 ^ 10) by lia. by rewrite Z.mod_add. }
  pose proof (Z.div_mod h (2 ^ 10)). pose proof (Z.mod_pos_bound h (2 ^ 10)).
  destruct (Z.eqb_spec h 0x7C00) as [->|]; [done|]. apply andb_false_iff.
  destruct (Z.eqb_spec (h mod 2 ^ 10) 0); [left|by right]. apply Z.eqb_neq. lia.
Qed.

(** The sign bit, the exponent and the mantissa of a pattern. *)
Lemma f32_signed_fields s E m :
  0 <= s <= 1 -> 0 <= E < 2 ^ 8 -> 0 <= m < 2 ^ 23 ->
  let b := s * 2 ^ 31 + E * 2 ^ 23 + m in
  Z.land (Z.shiftr b 16) 0x8000 = Z.shiftl s 15 /\
  Z.land (Z.shiftr b 23) 0xFF = E /\ Z.land b 0x7FFFFF = m.
Proof.
  intros Hs HE Hm b. subst b. change 0x8000 with (2 ^ 15).
  rewrite land_7FFFFF, land_FF, land_pow2, !Z.shiftr_div_pow2, Z.div_div, Z.shiftl_mul_pow2 by lia.
  change (2 ^ 16 * 2 ^ 15) with (2 ^ 31). split; [|split].
  - rewrite <-Z.add_assoc, Z.div_add_l, (Z.div_small (_ + m)), Z.add_0_r, Z.mod_small by lia. done.
  - replace (s * 2 ^ 31 + E * 2 ^ 23 + m) with ((s * 2 ^ 8 + E) * 2 ^ 23 + m) by lia.
    rewrite Z.div_add_l, (Z.div_small m), Z.add_0_r, Z.add_comm, Z.mod_add, Z.mod_small by lia. done.
  - replace (s * 2 ^ 31 + E * 2 ^ 23 + m) with (m + (s * 2 ^ 8 + E) * 2 ^ 23) by lia.
    by rewrite Z.mod_add, Z.mod_small by lia.
Qed.

(** The encoder on the fields of a finite float. *)
Lemma f32_to_f16_fields s E m :
  0 <= s <= 1 -> 0 <= E < 255 -> 0 <= m < 2 ^ 23 ->
  f32_to_f16 (s * 2 ^ 31 + E * 2 ^ 23 + m) = s * 2 ^ 15 +
  if 31 <=? E - 112 then 0x7BFF
  else if E - 112 <=? 0 then
    if E - 112 <? -10 then 0
    else let M := 2 ^ 23 + m in let S := 126 - E in
         if round_up (M / 2 ^ S) (M mod 2 ^ S) (2 ^ (S - 1)) then M / 2 ^ S + 1 else M / 2 ^ S
  else let c0 := (E - 112) * 2 ^ 10 + m / 2 ^ 13 in
       Z.min (if round_up (m / 2 ^ 13) (m mod 2 ^ 13) (2 ^ 12) then c0 + 1 else c0) 0x7BFF.
Proof.
  intros Hs HE Hm.
  destruct (f32_signed_fields s E m Hs ltac:(lia) Hm) as (H1 & H2 & H3).
  unfold f32_to_f16. rewrite H1, H2, H3. clear H1 H2 H3.
  destruct (Z.eqb_spec E 0xFF); [lia|]. replace (E - 127 + 15) with (E - 112) by lia.
  rewrite Z.geb_leb. destruct (Z.leb_spec 0x1F (E - 112)); [by rewrite lor_add by lia|].
  destruct (Z.leb_spec (E - 112) 0).
  - destruct (Z.ltb_spec (E - 112) (-10)); [rewrite Z.shiftl_mul_pow2 by lia; lia|].
    rewrite lor_bit23, (Z.shiftl_mul_pow2 1), (Z.shiftl_mul_pow2 1), Z.shiftr_div_pow2, !Z.mul_1_l by lia.
    replace (14 - (E - 112)) with (126 - E) by lia. cbv zeta.
    replace (2 ^ (126 - E) - 1) with (Z.ones (126 - E)) by (rewrite Z.ones_equiv; lia).
    rewrite Z.land_ones by lia.
    assert (2 ^ 14 <= 2 ^ (126 - E)) by (apply Z.pow_le_mono_r; lia).
    assert ((2 ^ 23 + m) / 2 ^ (126 - E) < 2 ^ 10) by (apply Z.div_lt_upper_bound; nia).
    assert (0 <= (2 ^ 23 + m) / 2 ^ (126 - E)) by (apply Z.div_pos; lia).
    case_if; rewrite lor_add, wrap_small by lia; lia.
  - cbv zeta. rewrite Z.shiftr_div_pow2 by lia. change 0x1FFF with (Z.ones 13).
    rewrite Z.land_ones by lia. change (2 ^ 12) with 0x1000.
    assert (m / 2 ^ 13 < 2 ^ 10) by (apply Z.div_lt_upper_bound; lia).
    assert (0 <= m / 2 ^ 13) by (apply Z.div_pos; lia).
    assert (Z.lor (Z.lor (Z.shiftl s 15) (Z.shiftl (E - 112) 10)) (m / 2 ^ 13) =
      s * 2 ^ 15 + ((E - 112) * 2 ^ 10 + m / 2 ^ 13)) as ->.
    { rewrite (lor_add s) by (rewrite ?Z.shiftl_mul_pow2 by lia; lia).
      rewrite Z.shiftl_mul_pow2 by lia.
      replace (s * 2 ^ 15 + (E - 112) * 2 ^ 10) with (Z.shiftl (s * 2 ^ 5 + (E - 112)) 10)
        by (rewrite ?Z.shiftl_mul_pow2 by lia; lia).
      rewrite lor_add by lia. lia. }
    set (x := (E - 112) * 2 ^ 10 + m / 2 ^ 13) in *. assert (0 <= x < 31 * 2 ^ 10) by lia.
    rewrite (wrap_small 16 (s * 2 ^ 15 + x)) by lia. case_if; [|lia].
    rewrite (wrap_small 16 (s * 2 ^ 15 + x + 1)) by lia.
    rewrite <-Z.add_assoc, is_infinity_code by lia.
    rewrite lor_add, (wrap_small 16 (s * 2 ^ 15 + 0x7BFF)) by lia.
    destruct (Z.eqb_spec (x + 1) 0x7C00); lia.
Qed.



(** The three statements of [f16_roundtrip], as one test on a code. *)
Definition roundtrip_test (h : Z) : bool :=
  let mant := Z.land h 0x3FF in
  let exp := Z.land (Z.shiftr h 10) 0x1F in
  let f := f16_to_f32 h in
  ((exp =? 31) || (mag_bits 23 (Z.land f 0x7FFFFFFF) =? Z.shiftl (mag_bits 10 (Z.land h 0x7FFF)) 125)) &&
  (f32_to_f16 f =? if (exp =? 31) && negb (mant =? 0) then Z.shiftl (Z.shiftr h 15) 15 + 0x7E00 else h).

(** Subnormals, zeros, infinities and NaNs, by enumeration. *)
Lemma roundtrip_test_special s e m :
  0 <= s <= 1 -> e = 0 \/ e = 31 -> 0 <= m < 2 ^ 10 ->
  roundtrip_test (s * 2 ^ 15 + e * 2 ^ 10 + m) = true.
Proof.
  intros Hs He Hm.
  assert (forallb (all_below 10 roundtrip_test) [0; 31; 32; 63] = true) as H by (by vm_compute).
  rewrite forallb_forall in H.
  apply (all_below_spec 10 roundtrip_test (s * 2 ^ 5 + e)); [|change (Z.of_nat 10) with 10; lia].
  apply H. assert (s = 0 \/ s = 1) as [-> | ->] by lia; destruct He as [-> | ->]; simpl; tauto.
Qed.

Lemma code_fields s e m :
  0 <= s <= 1 -> 0 <= e < 32 -> 0 <= m < 2 ^ 10 ->
  let h := s * 2 ^ 15 + e * 2 ^ 10 + m in
  Z.land h 0x3FF = m /\ Z.land (Z.shiftr h 10) 0x1F = e /\ Z.land (Z.shiftr h 15) 1 = s /\
  Z.land h 0x7FFF = e * 2 ^ 10 + m /\ Z.shiftr h 15 = s.
Proof.
  intros Hs He Hm h. subst h.
  change 0x3FF with (Z.ones 10). change 0x1F with (Z.ones 5). change 0x7FFF with (Z.ones 15).
  rewrite land_1, !Z.land_ones, !Z.shiftr_div_pow2 by lia.
  assert ((s * 2 ^ 15 + e * 2 ^ 10 + m) / 2 ^ 15 = s) as ->.
  { rewrite <-Z.add_assoc, Z.div_add_l, Z.div_small by lia. lia. }
  assert ((s * 2 ^ 15 + e * 2 ^ 10 + m) / 2 ^ 10 = s * 2 ^ 5 + e) as ->.
  { replace (s * 2 ^ 15 + e * 2 ^ 10 + m) with ((s * 2 ^ 5 + e) * 2 ^ 10 + m) by lia.
    rewrite Z.div_add_l, Z.div_small by lia. lia. }
  split; [|split; [|split; [|split; [|done]]]].
  - replace (s * 2 ^ 15 + e * 2 ^ 10 + m) with (m + (s * 2 ^ 5 + e) * 2 ^ 10) by lia.
    by rewrite Z.mod_add, Z.mod_small by lia.
  - by rewrite Z.add_comm, Z.mod_add, Z.mod_small by lia.
  - by rewrite Z.mod_small by lia.
  - rewrite <-Z.add_assoc, Z.add_comm, Z.mod_add, Z.mod_small by lia. done.
Qed.

Lemma f16_to_f32_normal s e m :
  0 <= s <= 1 -> 1 <= e <= 30 -> 0 <= m < 2 ^ 10 ->
  f16_to_f32 (s * 2 ^ 15 + e * 2 ^ 10 + m) = s * 2 ^ 31 + (e + 112) * 2 ^ 23 + m * 2 ^ 13.
Proof.
  intros Hs He Hm.
  destruct (code_fields s e m Hs ltac:(lia) Hm) as (H1 & H2 & H3 & _ & _).
  unfold f16_to_f32, pack32. rewrite H1, H2, H3.
  destruct (Z.eqb_spec e 0), (Z.eqb_spec e 0x1F); try lia.
  rewrite (lor_add s) by (rewrite ?Z.shiftl_mul_pow2 by lia; lia).
  rewrite !Z.shiftl_mul_pow2 by lia.
  replace (s * 2 ^ 31 + (e - 15 + 127) * 2 ^ 23) with (Z.shiftl (s * 2 ^ 8 + e + 112) 23)
    by (rewrite Z.shiftl_mul_pow2; lia).
  rewrite lor_add by lia. lia.
Qed.

(** Decoding a half is exact and encoding it again gives the same pattern,
    for both signs, zeros, subnormals and infinities; a NaN stays a NaN of the
    same sign. *)
Theorem f16_roundtrip s e m :
  0 <= s <= 1 -> 0 <= e < 32 -> 0 <= m < 2 ^ 10 ->
  let h := s * 2 ^ 15 + e * 2 ^ 10 + m in
  (e <> 31 -> mag32 (f16_to_f32 h mod 2 ^ 31) = mag 10 (e * 2 ^ 10 + m) * 2 ^ 125) /\
  (e <> 31 \/ m = 0 -> f32_to_f16 (f16_to_f32 h) = h) /\
  (e = 31 /\ m <> 0 -> f32_to_f16 (f16_to_f32 h) = s * 2 ^ 15 + 0x7E00).
Proof.
  intros Hs He Hm h. subst h. destruct (decide (e = 0 \/ e = 31)) as [Hspec|Hnorm].
  - pose proof (roundtrip_test_special s e m Hs Hspec Hm) as H. unfold roundtrip_test in H.
    destruct (code_fields s e m Hs He Hm) as (H1 & H2 & _ & H4 & H5).
    rewrite H1, H2, H4, H5 in H. change 0x7FFFFFFF with (Z.ones 31) in H.
    rewrite Z.land_ones, !Z.shiftl_mul_pow2, !mag_bits_spec in H
      by (lia || apply Z.mod_pos_bound; lia).
    apply andb_true_iff in H as [G1 G2]. apply Z.eqb_eq in G2. unfold mag32.
    apply orb_true_iff in G1. rewrite Z.eqb_eq, (Z.eqb_eq (mag _ _)) in G1.
    destruct (Z.eqb_spec e 31), (Z.eqb_spec m 0); cbn [negb andb] in G2; intuition congruence.
  - rewrite f16_to_f32_normal, f32_to_f16_fields by lia. split; [|split; [|lia]]; intros _.
    + replace (s * 2 ^ 31 + (e + 112) * 2 ^ 23 + m * 2 ^ 13)
        with ((e + 112) * 2 ^ 23 + m * 2 ^ 13 + s * 2 ^ 31) by lia.
      rewrite Z.mod_add, Z.mod_small by lia. unfold mag32.
      rewrite !mag_normal by lia. replace (e + 112 - 1) with (e - 1 + 112) by lia.
      rewrite (Z.pow_add_r 2 (e - 1)) by lia. lia.
    + replace (e + 112 - 112) with e by lia. cbv zeta.
      rewrite Z.div_mul, Z.mod_mul by lia. unfold round_up. simpl (0 >? _). simpl (0 =? _).
      destruct (Z.leb_spec 31 e), (Z.leb_spec e 0); simpl; lia.
Qed.

Lemma f16_roundtrip_witness : f32_to_f16 (f16_to_f32 0x0001) = 0x0001.
Proof.
  exact (proj1 (proj2 (f16_roundtrip 0 0 1 ltac:(lia) ltac:(lia) ltac:(lia))) ltac:(by left)).
Defined.

End F16Spec.

Module BF16Spec.
Import BF16.

(** Adding half a unit (minus one, plus the last kept bit) before the shift is
    the rounding test. *)
Lemma bias_is_round_up b :
  (b + (0x7FFF + b / 2 ^ 16 mod 2)) / 2 ^ 16 =
  if round_up (b / 2 ^ 16) (b mod 2 ^ 16) (2 ^ 15) then b / 2 ^ 16 + 1 else b / 2 ^ 16.
Proof.
  pose proof (Z.div_mod b (2 ^ 16) ltac:(lia)). pose proof (Z.mod_pos_bound b (2 ^ 16) ltac:(lia)).
  set (q := b / 2 ^ 16) in *. set (r := b mod 2 ^ 16) in *.
  pose proof (Zmod_odd q) as Hodd. unfold round_up. rewrite Z.gtb_ltb, Hodd.
  destruct (Z.ltb_spec (2 ^ 15) r), (Z.eqb_spec r (2 ^ 15)), (Z.odd q); simpl;
    symmetry; first [ apply (Zdiv_unique _ _ _ (b + 0x7FFF + 1 - (q + 1) * 2 ^ 16)); lia
                    | apply (Zdiv_unique _ _ _ (b + 0x7FFF - (q + 1) * 2 ^ 16)); lia
                    | apply (Zdiv_unique _ _ _ (b + 0x7FFF + 1 - q * 2 ^ 16)); lia
                    | apply (Zdiv_unique _ _ _ (b + 0x7FFF - q * 2 ^ 16)); lia ].
Qed.

Lemma f32_to_bf16_fields s E m :
  0 <= s <= 1 -> 0 <= E < 255 -> 0 <= m < 2 ^ 23 ->
  f32_to_bf16 (s * 2 ^ 31 + E * 2 ^ 23 + m) = s * 2 ^ 15 +
    let c0 := E * 2 ^ 7 + m / 2 ^ 16 in
    if round_up (m / 2 ^ 16) (m mod 2 ^ 16) (2 ^ 15) then c0 + 1 else c0.
Proof.
  intros Hs HE Hm. destruct (F16Spec.f32_signed_fields s E m Hs ltac:(lia) Hm) as (_ & H2 & H3).
  unfold f32_to_bf16. rewrite H2, H3. destruct (Z.eqb_spec E 0xFF); [lia|].
  cbn [andb]. cbv zeta. rewrite land_1, !Z.shiftr_div_pow2 by lia.
  set (b := s * 2 ^ 31 + E * 2 ^ 23 + m).
  assert (b / 2 ^ 16 = (s * 2 ^ 15 + E * 2 ^ 7) + m / 2 ^ 16) as Eq.
  { subst b. replace (s * 2 ^ 31 + E * 2 ^ 23 + m) with ((s * 2 ^ 15 + E * 2 ^ 7) * 2 ^ 16 + m) by lia.
    by rewrite Z.div_add_l. }
  assert (b mod 2 ^ 16 = m mod 2 ^ 16) as Er.
  { subst b. replace (s * 2 ^ 31 + E * 2 ^ 23 + m) with (m + (s * 2 ^ 15 + E * 2 ^ 7) * 2 ^ 16) by lia.
    by rewrite Z.mod_add. }
  assert (0 <= m / 2 ^ 16) by (apply Z.div_pos; lia).
  assert (m / 2 ^ 16 < 2 ^ 7) by (apply Z.div_lt_upper_bound; lia).
  assert (0 <= b / 2 ^ 16 mod 2 < 2) by (apply Z.mod_pos_bound; lia).
  rewrite (wrap_small 32), bias_is_round_up by lia.
  assert (round_up (b / 2 ^ 16) (b mod 2 ^ 16) (2 ^ 15) =
          round_up (m / 2 ^ 16) (m mod 2 ^ 16) (2 ^ 15)) as ->.
  { rewrite Er. unfold round_up. rewrite Eq. rewrite (Z.odd_add _ (m / 2 ^ 16)).
    replace (s * 2 ^ 15 + E * 2 ^ 7) with (2 * (s * 2 ^ 14 + E * 2 ^ 6)) by lia.
    rewrite Z.odd_mul. done. }
  rewrite Eq. case_if; rewrite wrap_small by lia; lia.
Qed.

(** [BFloat16(float)] rounds every finite float to nearest, ties to even,
    keeping the sign; a carry out of the largest value gives infinity (code
    0x7F80).  NaNs stay NaNs and infinities stay infinities. *)
Theorem f32_to_bf16_rounds s b :
  0 <= s <= 1 -> 0 <= b < 2 ^ 31 ->
  (b < 0x7F800000 ->
     exists c, is_rne 7 16 (mag32 b) c /\ f32_to_bf16 (s * 2 ^ 31 + b) = s * 2 ^ 15 + c) /\
  (b = 0x7F800000 -> f32_to_bf16 (s * 2 ^ 31 + b) = s * 2 ^ 15 + 0x7F80) /\
  (0x7F800000 < b -> 0x7F80 < f32_to_bf16 (s * 2 ^ 31 + b) mod 2 ^ 15).
Proof.
  intros Hs Hb. destruct (f32_fields b Hb) as (E & m & -> & HE & Hm & _ & _).
  split; [|split].
  - intros Hfin. assert (E < 255) by nia. rewrite Z.add_assoc, f32_to_bf16_fields by lia.
    eexists. split; [|reflexivity]. cbv zeta. destruct (decide (E = 0)) as [->|].
    + rewrite !Z.mul_0_l, !Z.add_0_l.
      assert (0 <= m / 2 ^ 16) by (apply Z.div_pos; lia).
      assert (m / 2 ^ 16 < 2 ^ 7) by (apply Z.div_lt_upper_bound; lia).
      apply (is_rne_intro 7 16 (mag32 m) (m / 2 ^ 16) m (2 ^ 15) 1); try lia;
        rewrite ?mag_small by lia; change (2 * 2 ^ 15) with (2 ^ 16); try lia; try done.
      unfold mag32. rewrite mag_small by lia. lia.
    + pose proof (rne_normal 7 16 0 E m ltac:(lia) ltac:(lia) ltac:(lia) ltac:(lia) ltac:(lia) Hm) as R.
      by rewrite Z.sub_0_r in R.
  - intros Hinf. assert (E = 255) as -> by nia. assert (m = 0) as -> by lia.
    by assert (s = 0 \/ s = 1) as [-> | ->] by lia.
  - intros Hnan. assert (E = 255) as -> by nia.
    destruct (F16Spec.f32_signed_fields s 255 m Hs ltac:(lia) Hm) as (_ & H2 & H3).
    rewrite Z.add_assoc. unfold f32_to_bf16. rewrite H2, H3.
    destruct (Z.eqb_spec m 0); [lia|]. cbn [negb andb Z.eqb Pos.eqb].
    rewrite Z.shiftr_div_pow2 by lia.
    replace (s * 2 ^ 31 + 255 * 2 ^ 23 + m) with ((s * 2 ^ 15 + 0x7F80) * 2 ^ 16 + m) by lia.
    rewrite Z.div_add_l by lia.
    assert (0 <= m / 2 ^ 16) by (apply Z.div_pos; lia).
    assert (m / 2 ^ 16 < 2 ^ 7) by (apply Z.div_lt_upper_bound; lia).
    rewrite lor_1. pose proof (Z.mod_pos_bound (s * 2 ^ 15 + 0x7F80 + m / 2 ^ 16) 2 ltac:(lia)).
    assert (m / 2 ^ 16 = 0 -> (s * 2 ^ 15 + 0x7F80 + m / 2 ^ 16) mod 2 = 0) as Hev.
    { intros ->. by assert (s = 0 \/ s = 1) as [-> | ->] by lia. }
    set (r := (s * 2 ^ 15 + 0x7F80 + m / 2 ^ 16) mod 2) in *.
    assert (0x7F80 + m / 2 ^ 16 + 1 - r < 2 ^ 15).
    { destruct (decide (m / 2 ^ 16 = 127)) as [E|]; [|lia]. subst r. rewrite E.
      assert (s = 0 \/ s = 1) as [-> | ->] by lia; vm_compute; done. }
    rewrite wrap_small by lia.
    replace (s * 2 ^ 15 + 0x7F80 + m / 2 ^ 16 + 1 - r)
      with (0x7F80 + m / 2 ^ 16 + 1 - r + s * 2 ^ 15) by lia.
    rewrite Z.mod_add, Z.mod_small by lia.
    destruct (decide (m / 2 ^ 16 = 0)); [rewrite Hev by done|]; lia.
Qed.

(** 1 + 2^-8 is a tie between 1 and 1 + 2^-7: 1.0 is chosen. *)
Lemma f32_to_bf16_rounds_witness :
  exists c, is_rne 7 16 (mag32 0x3F808000) c /\ f32_to_bf16 0x3F808000 = c.
Proof.
  exact (proj1 (f32_to_bf16_rounds 0 0x3F808000 ltac:(lia) ltac:(lia)) ltac:(lia)).
Defined.

End BF16Spec.

Module FP8Spec.
Import FP8.

Lemma kept_field p s m :
  0 <= p -> 0 <= s -> p + s = 23 -> 0 <= m < 2 ^ 23 ->
  Z.land (Z.shiftr m s) (Z.ones p) = m / 2 ^ s /\ 0 <= m / 2 ^ s < 2 ^ p.
Proof.
  intros Hp Hs E Hm. rewrite Z.land_ones, Z.shiftr_div_pow2 by lia.
  assert (2 ^ 23 = 2 ^ s * 2 ^ p) as E23 by (rewrite <-Z.pow_add_r by lia; f_equal; lia).
  assert (0 <= m / 2 ^ s) by (apply Z.div_pos; lia).
  assert (m / 2 ^ s < 2 ^ p) by (apply Z.div_lt_upper_bound; lia).
  by rewrite Z.mod_small.
Qed.

Lemma sign_bit s E m :
  0 <= s <= 1 -> 0 <= E < 2 ^ 8 -> 0 <= m < 2 ^ 23 ->
  Z.land (Z.shiftr (s * 2 ^ 31 + E * 2 ^ 23 + m) 31) 0x1 = s.
Proof.
  intros. rewrite land_1, Z.shiftr_div_pow2, <-Z.add_assoc, Z.div_add_l by lia.
  rewrite (Z.div_small (_ + m)), Z.add_0_r, Z.mod_small by lia. done.
Qed.

(** The rounded packed code of the normal branches. *)
Definition packed_code (p D E m : Z) : Z :=
  let c0 := (E - D) * 2 ^ p + m / 2 ^ (23 - p) in
  if round_up (m / 2 ^ (23 - p)) (m mod 2 ^ (23 - p)) (2 ^ (23 - p - 1)) then c0 + 1 else c0.

Lemma packed_code_rne p D E m :
  1 <= p <= 22 -> 0 <= D -> D + 1 <= E -> 0 <= m < 2 ^ 23 ->
  is_rne p (23 - p + D) (mag32 (E * 2 ^ 23 + m)) (packed_code p D E m).
Proof. intros. apply (rne_normal p (23 - p) D E m); lia. Qed.

Lemma packed_code_bounds p D E m :
  1 <= p <= 22 -> D + 1 <= E -> 0 <= m < 2 ^ 23 ->
  (E - D) * 2 ^ p <= packed_code p D E m <= (E - D + 1) * 2 ^ p.
Proof.
  intros Hp HE Hm. destruct (kept_field p (23 - p) m) as [_ Hk]; try lia.
  unfold packed_code. cbv zeta. case_if; lia.
Qed.

(** Normal branch, up to the final clamp, as the code computes it. *)
Lemma packed_code_eq p D E m :
  1 <= p <= 22 -> D + 1 <= E -> 0 <= m < 2 ^ 23 ->
  let kept := Z.land (Z.shiftr m (23 - p)) (Z.ones p) in
  let packed := Z.lor (Z.shiftl (E - D) p) kept in
  (if round_up kept (Z.land m (Z.ones (23 - p))) (2 ^ (23 - p - 1)) then packed + 1 else packed) =
  packed_code p D E m.
Proof.
  intros Hp HE Hm kept packed. subst kept packed.
  destruct (kept_field p (23 - p) m) as [-> Hk]; try lia.
  rewrite Z.land_ones, lor_add by lia. done.
Qed.

(** Proves an equation on the codes [c] below [2^k] by evaluating it on all of them. *)
Ltac by_codes k c :=
  apply Z.eqb_eq;
  let f := match goal with |- ?b = true => eval pattern c in b end in
  match f with ?P c => apply (all_codes k P c); [by vm_compute | done] end.

(** The last step of each encoder: the clamp and the packing of the byte. *)
Lemma finish_e4m3 s c :
  0 <= s <= 1 -> 0 <= c < 256 ->
  (let '(h_exp, h_mantissa) :=
     if (Z.shiftr c 3 >? 0xF) || ((Z.shiftr c 3 =? 0xF) && (Z.land c 0x7 >=? 0x7))
     then (0xF, 0x6) else (Z.shiftr c 3, Z.land c 0x7) in
   wrap 8 (Z.lor (Z.lor (Z.shiftl s 7) (Z.shiftl h_exp 3)) h_mantissa)) = s * 128 + Z.min c 0x7E.
Proof.
  intros Hs Hc. assert (s = 0 \/ s = 1) as [-> | ->] by lia; by_codes 8%nat c.
Qed.

Lemma finish_e5m2 s c :
  0 <= s <= 1 -> 0 <= c < 128 ->
  wrap 8 (Z.lor (Z.lor (Z.shiftl s 7) (Z.shiftl (Z.shiftr c 2) 2)) (Z.land c 0x3)) = s * 128 + c.
Proof.
  intros Hs Hc. assert (s = 0 \/ s = 1) as [-> | ->] by lia; by_codes 7%nat c.
Qed.

Lemma finish_e4m3fnuz s c :
  0 <= s <= 1 -> 0 <= c < 256 ->
  (let '(h_exp, h_mantissa) :=
     if Z.shiftr c 3 >=? 0x10 then (0xF, 0x7) else (Z.shiftr c 3, Z.land c 0x7) in
   let bits := wrap 8 (Z.lor (Z.lor (Z.shiftl s 7) (Z.shiftl h_exp 3)) h_mantissa) in
   if bits =? 0x80 then 0x00 else bits) = if c =? 0 then 0 else s * 128 + Z.min c 0x7F.
Proof.
  intros Hs Hc. assert (s = 0 \/ s = 1) as [-> | ->] by lia; by_codes 8%nat c.
Qed.

Lemma finish_e5m2fnuz s c :
  0 <= s <= 1 -> 0 <= c < 256 ->
  (let '(h_exp, h_mantissa) :=
     if Z.shiftr c 2 >=? 0x20 then (0x1F, 0x3) else (Z.shiftr c 2, Z.land c 0x3) in
   let bits := wrap 8 (Z.lor (Z.lor (Z.shiftl s 7) (Z.shiftl h_exp 2)) h_mantissa) in
   if bits =? 0x80 then 0x00 else bits) = if c =? 0 then 0 else s * 128 + Z.min c 0x7F.
Proof.
  intros Hs Hc. assert (s = 0 \/ s = 1) as [-> | ->] by lia; by_codes 8%nat c.
Qed.

(** Reduces an encoder to its normal branch on a float given by its fields, and
    rewrites the rounded code to [packed_code p D E m]. *)
Ltac normal_branch p D s E m Hm :=
  let H2 := fresh in let H3 := fresh in let P := fresh in
  destruct (F16Spec.f32_signed_fields s E m ltac:(lia) ltac:(lia) Hm) as (_ & H2 & H3);
  rewrite (sign_bit s E m ltac:(lia) ltac:(lia) Hm), H2, H3; clear H2 H3;
  rewrite !(proj2 (Z.eqb_neq E _)) by lia;
  pose proof (packed_code_eq p D E m ltac:(lia) ltac:(lia) Hm) as P;
  pose proof (packed_code_bounds p D E m ltac:(lia) ltac:(lia) Hm);
  cbv zeta in P |- *;
  rewrite !(Z.geb_leb (E - _ + _)), !(proj2 (Z.leb_gt _ (E - _ + _))), !(proj2 (Z.leb_gt (E - _ + _) _)) by lia;
  match goal with |- context [E - 127 + ?k] => replace (E - 127 + k) with (E - D) by lia end;
  let pr := eval vm_compute in (23 - p) in change (23 - p) with pr in P;
  let o1 := eval vm_compute in (Z.ones p) in change (Z.ones p) with o1 in P;
  let o2 := eval vm_compute in (Z.ones pr) in change (Z.ones pr) with o2 in P;
  let h := eval vm_compute in (2 ^ (pr - 1)) in change (2 ^ (pr - 1)) with h in P;
  rewrite P; clear P.

(** On floats whose exponent is in a format's normal range the four FP8
    encoders keep the sign and round the magnitude to nearest, ties to even;
    E5M2 carries into infinity (0x7C), the FNUZ formats saturate at 0x7F. *)
Theorem fp8_normals_round s E m :
  0 <= s <= 1 -> 0 <= m < 2 ^ 23 ->
  let f := s * 2 ^ 31 + E * 2 ^ 23 + m in
  let N := mag32 (E * 2 ^ 23 + m) in
  (121 <= E <= 134 -> exists c, is_rne 3 140 N c /\ f32_to_e4m3 f = s * 128 + c) /\
  (113 <= E <= 142 -> exists c, is_rne 2 133 N c /\ f32_to_e5m2 f = s * 128 + c) /\
  (120 <= E <= 134 -> exists c, is_rne 3 139 N c /\ f32_to_e4m3fnuz f = s * 128 + Z.min c 0x7F) /\
  (112 <= E <= 142 -> exists c, is_rne 2 132 N c /\ f32_to_e5m2fnuz f = s * 128 + Z.min c 0x7F).
Proof.
  intros Hs Hm f N. subst f N. split; [|split; [|split]]; intros HE.
  - exists (packed_code 3 120 E m). split; [apply (packed_code_rne 3 120); lia|].
    unfold f32_to_e4m3. normal_branch 3 120 s E m Hm. rewrite finish_e4m3 by lia. lia.
  - exists (packed_code 2 112 E m). split; [apply (packed_code_rne 2 112); lia|].
    unfold f32_to_e5m2. normal_branch 2 112 s E m Hm. apply finish_e5m2; lia.
  - exists (packed_code 3 119 E m). split; [apply (packed_code_rne 3 119); lia|].
    unfold f32_to_e4m3fnuz. normal_branch 3 119 s E m Hm. rewrite finish_e4m3fnuz by lia.
    by rewrite (proj2 (Z.eqb_neq _ 0)) by lia.
  - exists (packed_code 2 111 E m). split; [apply (packed_code_rne 2 111); lia|].
    unfold f32_to_e5m2fnuz. normal_branch 2 111 s E m Hm. rewrite finish_e5m2fnuz by lia.
    by rewrite (proj2 (Z.eqb_neq _ 0)) by lia.
Qed.

Lemma fp8_normals_round_witness : f32_to_e5m2 (1 * 2 ^ 31 + 127 * 2 ^ 23 + 2 ^ 21) = 0xBD.
Proof.
  destruct (fp8_normals_round 1 127 (2 ^ 21) ltac:(lia) ltac:(lia)) as (_ & H & _ & _).
  destruct (H ltac:(lia)) as (c & _ & _). vm_compute. reflexivity.
Defined.

(** Exactness and round trip of one code of a format with [p] mantissa bits and
    unit [2^k]. *)
Definition code_ok (enc dec : Z -> Z) (p k c : Z) : bool :=
  (mag_bits 23 (Z.land (dec c) 0x7FFFFFFF) =? Z.shiftl (mag_bits p (Z.land c 0x7F)) k) &&
  (enc (dec c) =? c).

Lemma codes_where k g P c :
  all_below k (fun c => negb (g c) || P c) 0 = true -> 0 <= c < 2 ^ Z.of_nat k ->
  g c = true -> P c = true.
Proof. intros H Hc Hg. apply (all_codes k _ c) in H; [|done]. cbv beta in H. by rewrite Hg in H. Qed.

Lemma format_ok enc dec p k g c :
  0 <= p -> 0 <= k -> all_below 8 (fun c => negb (g c) || code_ok enc dec p k c) 0 = true ->
  0 <= c < 256 -> g c = true ->
  mag32 (dec c mod 2 ^ 31) = mag p (c mod 128) * 2 ^ k /\ enc (dec c) = c.
Proof.
  intros Hp Hk Hall Hc Hg. pose proof (codes_where 8 _ _ c Hall Hc Hg) as H.
  unfold code_ok in H. apply andb_true_iff in H as [H1 H2]. apply Z.eqb_eq in H1, H2.
  split; [|done]. change 0x7FFFFFFF with (Z.ones 31) in H1. change 0x7F with (Z.ones 7) in H1.
  rewrite !Z.land_ones, Z.shiftl_mul_pow2, !mag_bits_spec in H1
    by (lia || apply Z.mod_pos_bound; lia). done.
Qed.

Lemma land_7F c : Z.land c 0x7F = c mod 128.
Proof. by apply (Z.land_ones c 7). Qed.

(** Every finite code of E5M2, E4M3FNUZ and E5M2FNUZ, and every code of E4M3
    below 256 in magnitude, decodes exactly and is encoded back to itself. *)
Theorem fp8_roundtrip c :
  0 <= c < 256 ->
  let ok (enc dec : Z -> Z) (p k : Z) :=
    mag32 (dec c mod 2 ^ 31) = mag p (c mod 128) * 2 ^ k /\ enc (dec c) = c in
  (c mod 128 < 0x78 -> ok f32_to_e4m3 e4m3_to_f32 3 140) /\
  (c mod 128 < 0x7C -> ok f32_to_e5m2 e5m2_to_f32 2 133) /\
  (c <> 0x80 -> ok f32_to_e4m3fnuz e4m3fnuz_to_f32 3 139) /\
  (c <> 0x80 -> ok f32_to_e5m2fnuz e5m2fnuz_to_f32 2 132).
Proof.
  intros Hc ok. subst ok. cbv beta. rewrite <-land_7F at 1 3.
  split; [|split; [|split]]; intros Hg.
  - apply format_ok with (g := fun c => Z.land c 0x7F <? 0x78); try lia. by vm_compute.
  - apply format_ok with (g := fun c => Z.land c 0x7F <? 0x7C); try lia. by vm_compute.
  - apply format_ok with (g := fun c => negb (c =? 0x80)); try lia. by vm_compute.
  - apply format_ok with (g := fun c => negb (c =? 0x80)); try lia. by vm_compute.
Qed.

Lemma fp8_roundtrip_witness : f32_to_e4m3 (e4m3_to_f32 0x77) = 0x77.
Proof. exact (proj2 (proj1 (fp8_roundtrip 0x77 ltac:(lia)) ltac:(by vm_compute))). Defined.

(** E4M3 encodes every float in [256, 512) as 448: the six finite codes
    0x78 .. 0x7D (256 to 416) decode exactly but are encoded as 0x7E, and
    [FP8_E4M3(256.0f)] is 448 although 256 is representable. *)
Theorem e4m3_top_binade_saturates :
  (forall m, 0 <= m < 2 ^ 23 -> f32_to_e4m3 (135 * 2 ^ 23 + m) = 0x7E) /\
  (forall c, 0x78 <= c <= 0x7D ->
     mag32 (e4m3_to_f32 c) = mag 3 c * 2 ^ 140 /\ f32_to_e4m3 (e4m3_to_f32 c) = 0x7E) /\
  e4m3_to_f32 0x78 = 0x43800000 /\ f32_to_e4m3 0x43800000 = 0x7E /\ e4m3_to_f32 0x7E = 0x43E00000.
Proof.
  split; [|split; [|done]].
  - intros m Hm. destruct (F16Spec.f32_signed_fields 0 135 m ltac:(lia) ltac:(lia) Hm) as (_ & H2 & H3).
    pose proof (sign_bit 0 135 m ltac:(lia) ltac:(lia) Hm) as H1.
    rewrite Z.mul_0_l, Z.add_0_l in *. unfold f32_to_e4m3. by rewrite H1, H2, H3.
  - intros c Hc. assert (In c [0x78; 0x79; 0x7A; 0x7B; 0x7C; 0x7D]) as Hin by (simpl; lia).
    clear Hc. revert c Hin. apply List.Forall_forall. repeat constructor; by vm_compute.
Qed.

(** A magnitude above the midpoint of the codes [c0] and [c0 + 1] goes to [c0 + 1]. *)
Lemma rne_above_mid p k N c0 :
  0 <= c0 ->
  (mag p c0 * 2 ^ k <=? N) && (N <? mag p (c0 + 1) * 2 ^ k) &&
  ((mag p c0 + mag p (c0 + 1)) * 2 ^ k <? 2 * N) = true ->
  is_rne p k N (c0 + 1).
Proof.
  intros Hc0 H. bool_to_prop. exists c0. cbv zeta.
  rewrite (proj2 (Z.ltb_ge _ _)), (proj2 (Z.ltb_lt _ _)) by lia. lia.
Qed.

(** Below the normal range the FP8 encoders round twice: the bits shifted
    out first are lost, so a float just above a midpoint is rounded down to the
    even code, which is not the nearest one. *)
Theorem fp8_subnormals_round_twice :
  (is_rne 3 140 (mag32 0x3C100001) 5 /\ f32_to_e4m3 0x3C100001 = 4) /\
  (is_rne 2 133 (mag32 0x38200001) 3 /\ f32_to_e5m2 0x38200001 = 2) /\
  (is_rne 3 139 (mag32 0x3B900001) 5 /\ f32_to_e4m3fnuz 0x3B900001 = 4) /\
  (is_rne 2 132 (mag32 0x37A00001) 3 /\ f32_to_e5m2fnuz 0x37A00001 = 2).
Proof.
  refine (conj (conj (rne_above_mid 3 140 _ 4 _ _) _) (conj (conj (rne_above_mid 2 133 _ 2 _ _) _)
    (conj (conj (rne_above_mid 3 139 _ 4 _ _) _) (conj (rne_above_mid 2 132 _ 2 _ _) _))));
    by vm_compute.
Qed.

End FP8Spec.
