(* ===== verification/SymbolicShape.v ===== *)
(** * Symbolic dimensions and shapes

    Models include/tenzor/jit/symbolic_shape.hpp: the dimension expressions
    the JIT builds for dynamic shapes, their simplifying operators, symbolic
    broadcasting and the environment that resolves them.  The resolved values
    are [int64_t]: an operation that leaves the type is [UndefinedBehaviour]. *)

From stdpp Require Import base list numbers strings gmap pretty.
From S2P Require Import Prelude Shape.
Import TShape.

Module Symbolic.

Inductive ExprOp := Add | Sub | Mul | Div | Max.

#[export] Instance ExprOp_eq_dec : EqDecision ExprOp.
Proof. solve_decision. Defined.

Inductive SymbolicDim :=
| Concrete (value : Z)
| Named (name : string)
| Expr (op : ExprOp) (lhs rhs : SymbolicDim).

#[export] Instance SymbolicDim_eq_dec : EqDecision SymbolicDim.
Proof. solve_decision. Defined.

Definition is_concrete (d : SymbolicDim) : bool :=
  match d with Concrete _ => true | _ => false end.

Definition is_named_symbol (d : SymbolicDim) : bool :=
  match d with Named _ => true | _ => false end.

Definition is_expr (d : SymbolicDim) : bool :=
  match d with Expr _ _ _ => true | _ => false end.

Definition dim_value (d : SymbolicDim) : result Z :=
  match d with
  | Concrete v => Ok v
  | _ => Err (RuntimeError "Cannot get concrete value from symbolic dimension: ")
  end.

Definition dim_name (d : SymbolicDim) : result string :=
  match d with
  | Named s => Ok s
  | _ => Err (RuntimeError "Cannot get name from non-named dimension: ")
  end.

Definition expr_node (d : SymbolicDim) : result (ExprOp * SymbolicDim * SymbolicDim) :=
  match d with
  | Expr op l r => Ok (op, l, r)
  | _ => Err (RuntimeError "Cannot get expression node from non-expression dimension")
  end.

Definition op_str (op : ExprOp) : string :=
  match op with
  | Add => " + " | Sub => " - " | Mul => " * " | Div => " / " | Max => " ⊔ "
  end.

Fixpoint dim_to_string (d : SymbolicDim) : string :=
  match d with
  | Concrete v => pretty v
  | Named s => s
  | Expr op l r => "(" +:+ dim_to_string l +:+ op_str op +:+ dim_to_string r +:+ ")"
  end.

(** Structural equality, [operator==]. *)
Fixpoint dim_eqb (a b : SymbolicDim) : bool :=
  match a, b with
  | Concrete v, Concrete w => v =? w
  | Named s, Named t => bool_decide (s = t)
  | Expr op l r, Expr op' l' r' => bool_decide (op = op') && dim_eqb l l' && dim_eqb r r'
  | _, _ => false
  end.

(** [is_lit d v] is [d.is_concrete() && d.value() == v]. *)
Definition is_lit (d : SymbolicDim) (v : Z) : bool :=
  match d with Concrete w => w =? v | _ => false end.

(** ** Operators with algebraic simplification *)

Definition dim_add (lhs rhs : SymbolicDim) : result SymbolicDim :=
  match lhs, rhs with
  | Concrete a, Concrete b => rmap Concrete (i64 (a + b))
  | _, _ =>
      if is_lit rhs 0 then Ok lhs
      else if is_lit lhs 0 then Ok rhs
      else Ok (Expr Add lhs rhs)
  end.

Definition dim_sub (lhs rhs : SymbolicDim) : result SymbolicDim :=
  match lhs, rhs with
  | Concrete a, Concrete b => rmap Concrete (i64 (a - b))
  | _, _ => if is_lit rhs 0 then Ok lhs else Ok (Expr Sub lhs rhs)
  end.

Definition dim_mul (lhs rhs : SymbolicDim) : result SymbolicDim :=
  match lhs, rhs with
  | Concrete a, Concrete b => rmap Concrete (i64 (a * b))
  | _, _ =>
      if is_lit rhs 0 then Ok (Concrete 0)
      else if is_lit lhs 0 then Ok (Concrete 0)
      else if is_lit rhs 1 then Ok lhs
      else if is_lit lhs 1 then Ok rhs
      else Ok (Expr Mul lhs rhs)
  end.

(** C++ division truncates towards zero. *)
Definition dim_div (lhs rhs : SymbolicDim) : result SymbolicDim :=
  match lhs, rhs with
  | Concrete a, Concrete b =>
      if b =? 0 then Err (RuntimeError "Division by zero in symbolic dimension arithmetic")
      else rmap Concrete (i64 (Z.quot a b))
  | _, _ =>
      if is_lit rhs 1 then Ok lhs
      else if is_lit lhs 0 then Ok (Concrete 0)
      else Ok (Expr Div lhs rhs)
  end.

(** [Max] has no operator: [SymbolicDim::expr] builds the node. *)
Definition dim_op (op : ExprOp) (lhs rhs : SymbolicDim) : result SymbolicDim :=
  match op with
  | Add => dim_add lhs rhs
  | Sub => dim_sub lhs rhs
  | Mul => dim_mul lhs rhs
  | Div => dim_div lhs rhs
  | Max => Ok (Expr Max lhs rhs)
  end.

(** ** [class SymbolicShape] *)

Record SymbolicShape := mkSym { dims : list SymbolicDim }.

Definition from_concrete (concrete_shape : list Z) : SymbolicShape :=
  mkSym (map Concrete concrete_shape).

Definition rank (s : SymbolicShape) : nat := length (dims s).

Definition sym_at (s : SymbolicShape) (idx : nat) : result SymbolicDim :=
  match dims s !! idx with
  | Some d => Ok d
  | None => Err (OutOfRange "vector::_M_range_check")
  end.

Definition has_symbolic_dims (s : SymbolicShape) : bool :=
  existsb (fun d => negb (is_concrete d)) (dims s).

Definition is_fully_concrete (s : SymbolicShape) : bool := negb (has_symbolic_dims s).

Definition to_concrete (s : SymbolicShape) : result (list Z) := rmapM dim_value (dims s).

Definition sym_push_back (s : SymbolicShape) (d : SymbolicDim) : SymbolicShape :=
  mkSym (dims s ++ [d]).

(** An iterator past [end()] is undefined. *)
Definition sym_insert (s : SymbolicShape) (pos : nat) (d : SymbolicDim) : result SymbolicShape :=
  if decide (pos <= length (dims s))%nat
  then Ok (mkSym (take pos (dims s) ++ d :: drop pos (dims s)))
  else Err UndefinedBehaviour.

Definition sym_erase (s : SymbolicShape) (pos : nat) : result SymbolicShape :=
  if decide (pos < length (dims s))%nat
  then Ok (mkSym (take pos (dims s) ++ drop (S pos) (dims s)))
  else Err UndefinedBehaviour.

Fixpoint join_dims (first : bool) (l : list SymbolicDim) : string :=
  match l with
  | [] => ""
  | d :: l => (if first then "" else ", ") +:+ dim_to_string d +:+ join_dims false l
  end.

Definition sym_to_string (s : SymbolicShape) : string :=
  "(" +:+ join_dims true (dims s) +:+ ")".

(** ** Broadcasting *)

(** The dimension [i] places from the end, [concrete(1)] beyond the rank. *)
Definition sym_dim_from_end (s : SymbolicShape) (i : nat) : SymbolicDim :=
  if decide (i < rank s)%nat then default (Concrete 1) (dims s !! (rank s - 1 - i)%nat)
  else Concrete 1.

Definition broadcast_sym_dim (dim1 dim2 : SymbolicDim) : result SymbolicDim :=
  match dim1, dim2 with
  | Concrete v1, Concrete v2 =>
      if (v1 =? v2) || (v1 =? 1) || (v2 =? 1) then Ok (Concrete (Z.max v1 v2))
      else Err (RuntimeError "Symbolic shapes are not broadcastable")
  | _, _ =>
      if is_lit dim1 1 then Ok dim2
      else if is_lit dim2 1 then Ok dim1
      else if is_concrete dim1 then Ok dim1
      else if is_concrete dim2 then Ok dim2
      else if dim_eqb dim1 dim2 then Ok dim1
      else Ok (Expr Max dim1 dim2)
  end.

Definition broadcast_symbolic_shapes (shape1 shape2 : SymbolicShape) : result SymbolicShape :=
  let ndim := Nat.max (rank shape1) (rank shape2) in
  rmap (fun l => mkSym (rev l))
    (rmapM (fun i => broadcast_sym_dim (sym_dim_from_end shape1 i) (sym_dim_from_end shape2 i))
       (seq 0 ndim)).

(** ** [class SymbolicShapeEnvironment] *)

Notation env := (gmap string Z).

Definition bind (name : string) (value : Z) (E : env) : env := <[name := value]> E.
Definition unbind (name : string) (E : env) : env := delete name E.
Definition env_clear (E : env) : env := ∅.
Definition is_bound (E : env) (name : string) : bool := bool_decide (is_Some (E !! name)).

Definition unbound_error : exn := RuntimeError "SymbolicShapeEnvironment: unbound symbol '".

Definition env_get (E : env) (name : string) : result Z :=
  match E !! name with Some v => Ok v | None => Err unbound_error end.

Definition eval_op (op : ExprOp) (l r : Z) : result Z :=
  match op with
  | Add => i64 (l + r)
  | Sub => i64 (l - r)
  | Mul => i64 (l * r)
  | Div =>
      if r =? 0 then Err (RuntimeError "Division by zero resolving symbolic expression")
      else i64 (Z.quot l r)
  | Max => Ok (if l >? r then l else r)
  end.

Fixpoint resolve (E : env) (d : SymbolicDim) : result Z :=
  match d with
  | Concrete v => Ok v
  | Named s => env_get E s
  | Expr op lhs rhs =>
      let* l := resolve E lhs in
      let* r := resolve E rhs in
      eval_op op l r
  end.

Definition resolve_shape (E : env) (s : SymbolicShape) : result (list Z) :=
  rmapM (resolve E) (dims s).

Fixpoint can_resolve_dim (E : env) (d : SymbolicDim) : bool :=
  match d with
  | Concrete _ => true
  | Named s => is_bound E s
  | Expr _ l r => can_resolve_dim E l && can_resolve_dim E r
  end.

Definition can_resolve (E : env) (s : SymbolicShape) : bool :=
  forallb (can_resolve_dim E) (dims s).

Example resolve_doc_example :
  dim_add (Named "batch") (Concrete 10) = Ok (Expr Add (Named "batch") (Concrete 10)) /\
  resolve (bind "batch" 32 ∅) (Expr Add (Named "batch") (Concrete 10)) = Ok 42.
Proof. split; reflexivity. Qed.
Example to_string_ex :
  sym_to_string (mkSym [Expr Div (Named "H") (Concrete 2); Concrete 64]) = "((H / 2), 64)".
Proof. reflexivity. Qed.

(** ** Lemmas *)

Lemma dim_eqb_eq a b : dim_eqb a b = true <-> a = b.
Proof.
  revert b. induction a as [v|s|op l IHl r IHr]; intros [w|t|op' l' r']; simpl; try done.
  - rewrite Z.eqb_eq. split; congruence.
  - rewrite bool_decide_eq_true. split; congruence.
  - rewrite !andb_true_iff, bool_decide_eq_true, IHl, IHr. naive_solver.
Qed.

Lemma is_lit_eq d v : is_lit d v = true <-> d = Concrete v.
Proof.
  destruct d; simpl; [rewrite Z.eqb_eq|..]; split; congruence.
Qed.

(** The values a dimension and an environment can hold in the program. *)
Definition env_typed (E : env) : Prop := forall s v, E !! s = Some v -> INT64_MIN <= v <= INT64_MAX.

Fixpoint dim_typed (d : SymbolicDim) : Prop :=
  match d with
  | Concrete v => INT64_MIN <= v <= INT64_MAX
  | Named _ => True
  | Expr _ l r => dim_typed l /\ dim_typed r
  end.

Lemma eval_op_range op l r v :
  INT64_MIN <= l <= INT64_MAX -> INT64_MIN <= r <= INT64_MAX ->
  eval_op op l r = Ok v -> INT64_MIN <= v <= INT64_MAX.
Proof.
  intros Hl Hr H. destruct op; simpl in H; repeat case_if; inv_ok;
    repeat match goal with H : i64 _ = Ok _ |- _ => apply i64_Ok in H as [-> ?] end;
    subst; try done.
Qed.

Lemma resolve_range E d v :
  env_typed E -> dim_typed d -> resolve E d = Ok v -> INT64_MIN <= v <= INT64_MAX.
Proof.
  intros HE. revert v. induction d as [w|s|op l IHl r IHr]; intros v Hd H; simpl in *.
  - by injection H as <-.
  - unfold env_get in H. destruct (E !! s) eqn:Hs; [|done]. injection H as <-. by eapply HE.
  - destruct Hd. inv_ok. eapply eval_op_range; [| |done]; auto.
Qed.

Fixpoint free_symbols (d : SymbolicDim) : gset string :=
  match d with
  | Concrete _ => ∅
  | Named s => {[ s ]}
  | Expr _ l r => free_symbols l ∪ free_symbols r
  end.

Lemma can_resolve_dim_free E d : can_resolve_dim E d = true <-> free_symbols d ⊆ dom E.
Proof.
  induction d as [v|s|op l IHl r IHr]; simpl.
  - set_solver.
  - unfold is_bound. rewrite bool_decide_eq_true, singleton_subseteq_l. symmetry. apply elem_of_dom.
  - rewrite andb_true_iff, IHl, IHr. set_solver.
Qed.

Lemma resolve_ext E E' d :
  (forall s, s ∈ free_symbols d -> E !! s = E' !! s) -> resolve E d = resolve E' d.
Proof.
  induction d as [v|s|op l IHl r IHr]; simpl; intros H; [done| |].
  - unfold env_get. by rewrite H by set_solver.
  - rewrite IHl, IHr by set_solver. done.
Qed.

Lemma eval_op_not_unbound op l r : eval_op op l r <> Err unbound_error.
Proof. destruct op; simpl; unfold i64; repeat case_if; done. Qed.

Lemma resolve_unbound E d :
  can_resolve_dim E d = true -> resolve E d <> Err unbound_error.
Proof.
  induction d as [v|s|op l IHl r IHr]; simpl; intros H; [done| |].
  - unfold is_bound in H. apply bool_decide_eq_true in H as [v Hv]. unfold env_get. by rewrite Hv.
  - apply andb_true_iff in H as [Hl Hr]. destruct (resolve E l); simpl; [|naive_solver].
    destruct (resolve E r); simpl; [apply eval_op_not_unbound|naive_solver].
Qed.

Lemma resolve_Ok_can E d v : resolve E d = Ok v -> can_resolve_dim E d = true.
Proof.
  revert v. induction d as [w|s|op l IHl r IHr]; simpl; intros v H; [done| |].
  - unfold env_get in H. destruct (E !! s) eqn:Hs; [|done].
    unfold is_bound. apply bool_decide_eq_true. by eexists.
  - inv_ok. apply andb_true_iff. eauto.
Qed.

(** What a simplified operation does to the resolved operands. *)
Lemma dim_op_resolve E op a b d x y :
  INT64_MIN <= x <= INT64_MAX -> INT64_MIN <= y <= INT64_MAX ->
  resolve E a = Ok x -> resolve E b = Ok y -> (op = Div -> y <> 0) ->
  dim_op op a b = Ok d -> resolve E d = eval_op op x y.
Proof.
  intros Hx Hy Ha Hb Hdiv H.
  destruct op; cbn [dim_op] in H; unfold dim_add, dim_sub, dim_mul, dim_div in H.
  5: { injection H as <-. simpl. by rewrite Ha, Hb. }
  all: destruct a as [va|sa|opa la ra], b as [vb|sb|opb lb rb];
    (* both concrete: the fold *)
    try (simpl in Ha, Hb; injection Ha as <-; injection Hb as <-;
         repeat case_if; try discriminate H; unfold i64 in H; case_if; [|discriminate H];
         injection H as <-; simpl; unfold i64; by repeat case_if);
    repeat case_if; injection H as <-;
    repeat match goal with H : is_lit _ _ = true |- _ => apply is_lit_eq in H; try discriminate H; injection H as -> end;
    simpl in *; rewrite ?Ha, ?Hb;
    repeat match goal with H : Ok _ = Ok _ |- _ => injection H as <- end; simpl; try done;
    repeat case_if; bool_to_prop; try (exfalso; by apply Hdiv); symmetry;
    rewrite ?Z.add_0_r, ?Z.add_0_l, ?Z.sub_0_r, ?Z.mul_0_r, ?Z.mul_0_l, ?Z.mul_1_r, ?Z.mul_1_l,
      ?Z.quot_1_r; try (apply i64_in; lia).
  all: rewrite Z.quot_0_l by done; by apply i64_in.
Qed.

(** C38: the simplifying operators are sound: on operands that resolve, the
    simplified expression resolves to what the unsimplified node computes,
    errors and overflow included (for [/], when the divisor is not 0). *)
Theorem simplification_sound E op a b d x y :
  env_typed E -> dim_typed a -> dim_typed b ->
  resolve E a = Ok x -> resolve E b = Ok y -> (op = Div -> y <> 0) ->
  dim_op op a b = Ok d -> resolve E d = resolve E (Expr op a b).
Proof.
  intros HE Ha Hb Hx Hy Hdiv Hd. rewrite (dim_op_resolve E op a b d x y); eauto using resolve_range.
  simpl. by rewrite Hx, Hy.
Qed.

Lemma simplification_sound_witness :
  resolve (bind "n" 7 ∅) (Named "n") = resolve (bind "n" 7 ∅) (Expr Mul (Concrete 1) (Named "n")).
Proof.
  refine (simplification_sound (bind "n" 7 ∅) Mul (Concrete 1) (Named "n") (Named "n") 1 7
    _ _ I eq_refl eq_refl _ eq_refl); [|split; unfold INT64_MIN, INT64_MAX; lia | discriminate].
  intros s v H. unfold bind in H.
  apply lookup_insert_Some in H as [[_ <-]|[_ H]]; [unfold INT64_MIN, INT64_MAX; lia|].
  discriminate H.
Defined.

(** An expression resolves exactly as its free symbols are bound:
    [can_resolve] holds iff every symbol of the shape is bound; then no
    "unbound symbol" error can occur, and binding or unbinding any other
    symbol does not change the result. *)
Theorem can_resolve_correct E s :
  (can_resolve E s = true <-> forall d, d ∈ dims s -> free_symbols d ⊆ dom E) /\
  (can_resolve E s = true -> resolve_shape E s <> Err unbound_error) /\
  (is_ok (resolve_shape E s) = true -> can_resolve E s = true) /\
  (forall name v, (forall d, d ∈ dims s -> name ∉ free_symbols d) ->
     resolve_shape (bind name v E) s = resolve_shape E s /\
     resolve_shape (unbind name E) s = resolve_shape E s).
Proof.
  unfold can_resolve, resolve_shape. destruct s as [l]; cbn [dims].
  induction l as [|d l (IH1 & IH2 & IH3 & IH4)].
  - cbn. repeat split; try done. intros. set_solver.
  - cbn [forallb rmapM]. rewrite andb_true_iff. split; [|split; [|split]].
    + rewrite can_resolve_dim_free, IH1. split; [set_solver|]. intros H. split; set_solver.
    + intros [Hd Hl] H. apply rbind_Err in H as [H|(v & Hv & H)]; [by eapply resolve_unbound|].
      apply rbind_Err in H as [H|(vs & Hvs & H)]; [by apply IH2|done].
    + intros H. apply is_ok_Ok in H as [vs H]. inv_ok. split; [by eapply resolve_Ok_can|].
      apply IH3. by rewrite H0.
    + intros name v Hn. destruct (IH4 name v) as [IHb IHu]; [set_solver|].
      assert (resolve (bind name v E) d = resolve E d) as ->.
      { apply resolve_ext. intros s Hs. unfold bind. apply lookup_insert_ne. set_solver. }
      assert (resolve (unbind name E) d = resolve E d) as ->.
      { apply resolve_ext. intros s Hs. unfold unbind. apply lookup_delete_ne. set_solver. }
      by rewrite IHb, IHu.
Qed.

(** ** Symbolic broadcasting against concrete broadcasting *)

Lemma broadcast_sym_dim_sound E d1 d2 d v1 v2 v :
  0 < v1 -> 0 < v2 -> resolve E d1 = Ok v1 -> resolve E d2 = Ok v2 ->
  broadcast_sym_dim d1 d2 = Ok d -> broadcast_dim v1 v2 = Ok v -> resolve E d = Ok v.
Proof.
  intros P1 P2 H1 H2 H Hv. apply broadcast_dim_Ok in Hv as (A & B & C).
  unfold broadcast_sym_dim in H.
  destruct d1 as [w1|s1|op1 l1 r1], d2 as [w2|s2|op2 l2 r2];
    repeat case_if; try discriminate H; injection H as <-;
    repeat match goal with
      | H : is_lit _ _ = true |- _ => apply is_lit_eq in H; try discriminate H; injection H as ->
      | H : dim_eqb _ _ = true |- _ => apply dim_eqb_eq in H
      | H : is_lit _ _ = false |- _ => cbn [is_lit] in H
      | H : is_concrete _ = _ |- _ => try discriminate H; clear H
      end; bool_to_prop;
    cbn [resolve] in *; try rewrite H1; try rewrite H2;
    repeat match goal with H : Ok _ = Ok _ |- _ => injection H as H end; subst;
    cbn [rbind eval_op]; f_equal; repeat case_if; bool_to_prop; try congruence; try lia.
  all: match goal with H : _ _ = _ _ |- _ =>
         injection H; intros; subst; rewrite H2 in H1; injection H1 as ->; intuition congruence end.
Qed.

Lemma broadcast_sym_dim_err d1 d2 e :
  broadcast_sym_dim d1 d2 = Err e ->
  exists v1 v2, d1 = Concrete v1 /\ d2 = Concrete v2 /\ v1 <> v2 /\ v1 <> 1 /\ v2 <> 1.
Proof.
  unfold broadcast_sym_dim. intros H.
  destruct d1, d2; repeat case_if; try discriminate H. bool_to_prop. eauto 8.
Qed.

Lemma sym_dim_from_end_resolve E s c i :
  resolve_shape E s = Ok c -> resolve E (sym_dim_from_end s i) = Ok (dim_from_end c i).
Proof.
  intros H%rmapM_Ok. pose proof (Forall2_length _ _ _ H) as Hlen.
  unfold sym_dim_from_end, rank, dim_from_end. rewrite Hlen. case_decide; [|done].
  destruct (lookup_lt_is_Some_2 c (length c - 1 - i) ltac:(lia)) as [v Hv].
  destruct (Forall2_lookup_r _ _ _ _ _ H Hv) as (d & Hd & Hdv). by rewrite Hd, Hv.
Qed.

Lemma dim_from_end_pos c i : Forall (fun d => 0 < d) c -> 0 < dim_from_end c i.
Proof.
  intros H. unfold dim_from_end. case_decide; [|lia].
  destruct (lookup_lt_is_Some_2 c (length c - 1 - i) ltac:(lia)) as [v Hv].
  rewrite Hv. by eapply (proj1 (Forall_lookup _ _) H).
Qed.

(** Symbolic broadcasting is sound for concrete broadcasting: whenever the
    operands resolve to shapes without a zero dimension that broadcast, the
    symbolic broadcast exists and resolves to exactly the broadcast shape; and
    it rejects only operands whose every resolution is rejected. *)
Theorem broadcast_symbolic_sound E s1 s2 c1 c2 :
  resolve_shape E s1 = Ok c1 -> resolve_shape E s2 = Ok c2 ->
  Forall (fun d => 0 < d) c1 -> Forall (fun d => 0 < d) c2 ->
  (forall c, broadcast_shapes c1 c2 = Ok c ->
     exists s, broadcast_symbolic_shapes s1 s2 = Ok s /\ resolve_shape E s = Ok c) /\
  (is_ok (broadcast_symbolic_shapes s1 s2) = false -> is_ok (broadcast_shapes c1 c2) = false).
Proof.
  intros H1 H2 P1 P2.
  pose proof (rmapM_length _ _ _ H1) as L1. pose proof (rmapM_length _ _ _ H2) as L2.
  assert (forall c, broadcast_shapes c1 c2 = Ok c ->
     exists s, broadcast_symbolic_shapes s1 s2 = Ok s /\ resolve_shape E s = Ok c) as Hs.
  { intros c Hc. unfold broadcast_shapes in Hc. unfold broadcast_symbolic_shapes, rank.
    rewrite <-L1, <-L2. destruct (rmapM _ _) as [vs|] eqn:Hvs in Hc; [|done]. injection Hc as <-.
    assert (is_ok (rmapM (fun i => broadcast_sym_dim (sym_dim_from_end s1 i) (sym_dim_from_end s2 i))
      (seq 0 (length c1 `max` length c2))) = true) as Hok.
    { apply rmapM_is_ok. intros i Hi.
      destruct (broadcast_sym_dim _ _) as [d|e] eqn:Hd; [done|]. exfalso.
      apply broadcast_sym_dim_err in Hd as (v1 & v2 & E1 & E2 & Hne & N1 & N2).
      pose proof (sym_dim_from_end_resolve E s1 c1 i H1) as R1. rewrite E1 in R1. injection R1 as R1.
      pose proof (sym_dim_from_end_resolve E s2 c2 i H2) as R2. rewrite E2 in R2. injection R2 as R2.
      apply rmapM_Ok in Hvs. apply list_elem_of_In, list_elem_of_lookup in Hi as [k Hk].
      destruct (Forall2_lookup_l _ _ _ _ _ Hvs Hk) as (v & _ & Hv).
      apply broadcast_dim_Ok in Hv. intuition congruence. }
    apply is_ok_Ok in Hok as [ds Hds]. rewrite Hds. simpl. eexists; split; [done|].
    unfold resolve_shape. cbn [dims]. apply rmapM_Ok.
    apply rmapM_Ok in Hds. apply rmapM_Ok in Hvs.
    rewrite !rev_alt. apply Forall2_reverse.
    apply Forall2_same_length_lookup. split.
    { by rewrite <-(Forall2_length _ _ _ Hds), <-(Forall2_length _ _ _ Hvs). }
    intros k d v Hd Hv.
    destruct (Forall2_lookup_r _ _ _ _ _ Hds Hd) as (i & Hi & Hdi).
    destruct (Forall2_lookup_l _ _ _ _ _ Hvs Hi) as (v' & Hv' & Hvi).
    assert (v' = v) as -> by congruence.
    apply (broadcast_sym_dim_sound E (sym_dim_from_end s1 i) (sym_dim_from_end s2 i) _ (dim_from_end c1 i) (dim_from_end c2 i));
      auto using sym_dim_from_end_resolve, dim_from_end_pos. }
  split; [done|]. intros Herr.
  destruct (broadcast_shapes c1 c2) as [c|]; [|done].
  destruct (Hs c eq_refl) as (s & Hs' & _). by rewrite Hs' in Herr.
Qed.

Lemma broadcast_symbolic_sound_witness :
  exists s, broadcast_symbolic_shapes (mkSym [Named "b"; Concrete 1; Concrete 4])
              (mkSym [Named "t"; Concrete 1]) = Ok s /\
    resolve_shape (bind "b" 3 (bind "t" 2 ∅)) s = Ok [3; 2; 4].
Proof.
  refine (proj1 (broadcast_symbolic_sound (bind "b" 3 (bind "t" 2 ∅))
    (mkSym [Named "b"; Concrete 1; Concrete 4]) (mkSym [Named "t"; Concrete 1])
    [3; 1; 4] [2; 1] eq_refl eq_refl _ _) [3; 2; 4] eq_refl); repeat constructor.
Defined.

(** With a zero dimension the two broadcasts disagree: a zero against a
    one gives 0 in [broadcast_shapes] and 1 in the symbolic broadcast, both for
    concrete dimensions and for symbols bound to them. *)
Theorem broadcast_symbolic_zero E v w :
  (v = 0 /\ w = 1) \/ (v = 1 /\ w = 0) ->
  broadcast_shapes [v] [w] = Ok [0] /\
  broadcast_symbolic_shapes (from_concrete [v]) (from_concrete [w]) = Ok (from_concrete [1]) /\
  forall s t, s <> t ->
    exists d, broadcast_symbolic_shapes (mkSym [Named s]) (mkSym [Named t]) = Ok (mkSym [d]) /\
      resolve (bind s v (bind t w E)) d = Ok 1.
Proof.
  intros H. split; [|split]; [by destruct H as [[-> ->]|[-> ->]]..|].
  intros s t Hst. exists (Expr Max (Named s) (Named t)). split.
  - transitivity (rmap (fun d => mkSym [d]) (broadcast_sym_dim (Named s) (Named t))).
    { unfold broadcast_symbolic_shapes. cbn -[broadcast_sym_dim sym_dim_from_end].
      change (sym_dim_from_end (mkSym [Named s]) 0) with (Named s).
      change (sym_dim_from_end (mkSym [Named t]) 0) with (Named t).
      by destruct (broadcast_sym_dim (Named s) (Named t)). }
    cbn -[dim_eqb]. destruct (dim_eqb (Named s) (Named t)) eqn:He; [|done].
    apply dim_eqb_eq in He. congruence.
  - cbn [resolve]. unfold env_get, bind. rewrite lookup_insert_eq, lookup_insert_ne, lookup_insert_eq by done.
    by destruct H as [[-> ->]|[-> ->]].
Qed.

Lemma broadcast_symbolic_zero_witness :
  broadcast_shapes [0] [1] = Ok [0] /\
  broadcast_symbolic_shapes (from_concrete [0]) (from_concrete [1]) = Ok (from_concrete [1]).
Proof.
  destruct (broadcast_symbolic_zero ∅ 0 1 (or_introl (conj eq_refl eq_refl))) as (H1 & H2 & _).
  exact (conj H1 H2).
Defined.

(** ** Shapes *)

Lemma to_concrete_from_concrete c : to_concrete (from_concrete c) = Ok c.
Proof.
  unfold to_concrete, from_concrete. cbn [dims]. apply rmapM_Ok.
  apply Forall2_fmap_l, Forall_Forall2_diag, Forall_true. done.
Qed.

Lemma to_concrete_Ok s c : to_concrete s = Ok c <-> s = from_concrete c.
Proof.
  split; [|intros ->; apply to_concrete_from_concrete].
  destruct s as [l]. unfold to_concrete, from_concrete. cbn [dims]. intros H%rmapM_Ok. f_equal.
  induction H as [|[v|s|op a b] v' l c Hd H IH]; simpl; [done| |done|done].
  injection Hd as <-. by f_equal.
Qed.

Lemma is_fully_concrete_to_concrete s : is_fully_concrete s = is_ok (to_concrete s).
Proof.
  destruct s as [l]. unfold is_fully_concrete, has_symbolic_dims, to_concrete. cbn [dims].
  induction l as [|[v|n|op a b] l IH]; [done| |done|done]. simpl.
  rewrite IH. by destruct (rmapM dim_value l).
Qed.

End Symbolic.
