(* ===== verification/LiteGraph.v ===== *)
(** * The static execution graph of the Lite runtime

    Models include/tenzor/lite/lite_graph.hpp and src/lite/lite_graph.cpp.
    Tensor ids are [int16_t]; an attribute [float] is its 32-bit pattern; an
    [OpId] is its [uint16_t] value.  The kernels and the bridge between
    [LiteTensor] and [Tensor] are arguments of [execute]. *)

From stdpp Require Import base list numbers strings gmap.
From S2P Require Import Prelude.

Module Lite.

Record LiteAttributes := mkAttrs {
  attr_f : list Z;      (* float f[4] *)
  attr_i : list Z;      (* int64_t i[4] *)
  extra_i : list Z;
  extra_f : list Z
}.

(** The default member initialisers. *)
Definition default_attrs : LiteAttributes := mkAttrs [0;0;0;0] [0;0;0;0] [] [].

Record LiteNode := mkNode {
  op : Z;
  input_ids : list Z;
  output_ids : list Z;
  attrs : LiteAttributes
}.

Record LiteGraph := mkGraph {
  nodes : list LiteNode;
  g_inputs : list Z;
  g_outputs : list Z
}.

Definition empty_graph : LiteGraph := mkGraph [] [] [].

Definition add_node (g : LiteGraph) (n : LiteNode) : LiteGraph :=
  mkGraph (nodes g ++ [n]) (g_inputs g) (g_outputs g).

Definition num_nodes (g : LiteGraph) : Z := lenZ (nodes g).

Definition set_input_ids (g : LiteGraph) (ids : list Z) : LiteGraph :=
  mkGraph (nodes g) ids (g_outputs g).

Definition set_output_ids (g : LiteGraph) (ids : list Z) : LiteGraph :=
  mkGraph (nodes g) (g_inputs g) ids.

(** [consider] keeps the larger of [hi] and the id. *)
Definition consider (hi id : Z) : Z := if id >? hi then id else hi.

Definition max_tensor_id (g : LiteGraph) : Z :=
  let hi := foldl (fun hi n => foldl consider (foldl consider hi (input_ids n)) (output_ids n))
              (-1) (nodes g) in
  foldl consider (foldl consider hi (g_inputs g)) (g_outputs g).

(** ** Execution *)

Section execute.
Context {Tensor LiteTensor : Type}.
Context (view_as_tensor : LiteTensor -> result Tensor).
Context (to_lite_tensor : Tensor -> result LiteTensor).
Context (run_op : Z -> list Tensor -> LiteAttributes -> result (list Tensor)).

(** [pool[tid]] holds a [std::optional<Tensor>]; [tid] is the id as [size_t]. *)
Definition pool_put (what : exn) (pool : list (option Tensor)) (id : Z) (t : Tensor)
  : result (list (option Tensor)) :=
  let tid := wrap 64 id in
  if tid >=? lenZ pool then Err what else Ok (<[Z.to_nat tid := Some t]> pool).

Definition pool_get (what : exn) (pool : list (option Tensor)) (id : Z) : result Tensor :=
  let tid := wrap 64 id in
  if tid >=? lenZ pool then Err what
  else match pool !! Z.to_nat tid with Some (Some t) => Ok t | _ => Err what end.

Definition err_count := InvalidArgument "LiteGraph::execute: input count (".
Definition err_input := OutOfRange "LiteGraph::execute: input_id out of range".
Definition err_constant := OutOfRange "LiteGraph::execute: constant tensor_id ".
Definition err_undefined := RuntimeError "LiteGraph::execute: node references undefined tensor_id ".
Definition err_arity := RuntimeError "LiteGraph::execute: kernel produced ".
Definition err_output := OutOfRange "LiteGraph::execute: output_id out of range".
Definition err_never := RuntimeError "LiteGraph::execute: output_id ".

Definition put_input (pool : list (option Tensor)) (p : Z * LiteTensor) :=
  let '(id, lt) := p in
  if wrap 64 id >=? lenZ pool then Err err_input
  else let* t := view_as_tensor lt in pool_put err_input pool id t.

Definition exec_node (pool : list (option Tensor)) (n : LiteNode)
  : result (list (option Tensor)) :=
  let* args := rmapM (pool_get err_undefined pool) (input_ids n) in
  let* outs := run_op (op n) args (attrs n) in
  let* _ := throw_if (negb (length outs =? length (output_ids n))%nat) err_arity in
  rfoldM (fun pool p => pool_put err_output pool p.1 p.2) (zip (output_ids n) outs) pool.

Definition execute (g : LiteGraph) (inputs : list LiteTensor) (constants : gmap Z Tensor)
  : result (list LiteTensor) :=
  let* _ := throw_if (negb (length inputs =? length (g_inputs g))%nat) err_count in
  let pool := replicate (Z.to_nat (max_tensor_id g + 1)) None in
  let* pool := rfoldM put_input (zip (g_inputs g) inputs) pool in
  let* pool := rfoldM (fun pool p => pool_put err_constant pool p.1 p.2)
                 (map_to_list constants) pool in
  let* pool := rfoldM exec_node (nodes g) pool in
  rmapM (fun id => let* t := pool_get err_never pool id in to_lite_tensor t) (g_outputs g).

(** ** The abstract semantics

    An environment maps each tensor id to its tensor: nodes extend it in
    order.  No pool, no [size_t]. *)

Definition env_get (what : exn) (E : gmap Z Tensor) (id : Z) : result Tensor :=
  match E !! id with Some t => Ok t | None => Err what end.

Definition env_puts (E : gmap Z Tensor) (l : list (Z * Tensor)) : gmap Z Tensor :=
  foldl (fun E p => <[p.1 := p.2]> E) E l.

Definition spec_node (E : gmap Z Tensor) (n : LiteNode) : result (gmap Z Tensor) :=
  let* args := rmapM (env_get err_undefined E) (input_ids n) in
  let* outs := run_op (op n) args (attrs n) in
  let* _ := throw_if (negb (length outs =? length (output_ids n))%nat) err_arity in
  Ok (env_puts E (zip (output_ids n) outs)).

Definition spec_execute (g : LiteGraph) (inputs : list LiteTensor) (constants : gmap Z Tensor)
  : result (list LiteTensor) :=
  let* _ := throw_if (negb (length inputs =? length (g_inputs g))%nat) err_count in
  let* ts := rmapM view_as_tensor inputs in
  let* _ := throw_if (negb (forallb (fun p => p.1 <=? max_tensor_id g) (map_to_list constants)))
              err_constant in
  let* E := rfoldM spec_node (nodes g) (constants ∪ env_puts ∅ (zip (g_inputs g) ts)) in
  rmapM (fun id => let* t := env_get err_never E id in to_lite_tensor t) (g_outputs g).

(** *** Tensor ids and the pool *)

Definition id_ok (id : Z) : Prop := 0 <= id <= INT16_MAX.

Definition graph_ids_ok (g : LiteGraph) : Prop :=
  Forall (fun n => Forall id_ok (input_ids n) /\ Forall id_ok (output_ids n)) (nodes g) /\
  Forall id_ok (g_inputs g) /\ Forall id_ok (g_outputs g).

Lemma consider_ge hi id : hi <= consider hi id /\ id <= consider hi id.
Proof. unfold consider. case_if; bool_to_prop; lia. Qed.

Lemma consider_max l hi : hi <= foldl consider hi l /\ Forall (fun id => id <= foldl consider hi l) l.
Proof.
  revert hi. induction l as [|x l IH]; intros hi; cbn [foldl]; [by split; [lia|]|].
  destruct (IH (consider hi x)) as [H1 H2]. destruct (consider_ge hi x).
  split; [lia|]. constructor; [lia|done].
Qed.

Lemma consider_nodes l hi :
  let h := foldl (fun hi n => foldl consider (foldl consider hi (input_ids n)) (output_ids n)) hi l in
  hi <= h /\ Forall (fun n => Forall (fun id => id <= h) (input_ids n) /\
                              Forall (fun id => id <= h) (output_ids n)) l.
Proof.
  revert hi. induction l as [|n l IH]; intros hi; cbn [foldl]; [by split; [lia|]|].
  set (h1 := foldl consider hi (input_ids n)). set (h2 := foldl consider h1 (output_ids n)).
  destruct (IH h2) as [H1 H2]. cbv zeta in *.
  destruct (consider_max (input_ids n) hi) as [Ha Hb]. destruct (consider_max (output_ids n) h1) as [Hc Hd].
  fold h1 in Ha, Hb. fold h2 in Hc, Hd. split; [lia|]. constructor; [|done].
  split; (eapply Forall_impl; [eassumption|]); intros ? Hx; cbn in Hx; lia.
Qed.

(** Every id the graph mentions is at most [max_tensor_id]. *)
Lemma max_tensor_id_ge g :
  -1 <= max_tensor_id g /\
  Forall (fun n => Forall (fun id => id <= max_tensor_id g) (input_ids n) /\
                   Forall (fun id => id <= max_tensor_id g) (output_ids n)) (nodes g) /\
  Forall (fun id => id <= max_tensor_id g) (g_inputs g) /\
  Forall (fun id => id <= max_tensor_id g) (g_outputs g).
Proof.
  unfold max_tensor_id. destruct (consider_nodes (nodes g) (-1)) as [H1 H2]. cbv zeta in *.
  set (h := foldl _ (-1) (nodes g)) in *.
  destruct (consider_max (g_inputs g) h) as [H3 H4].
  destruct (consider_max (g_outputs g) (foldl consider h (g_inputs g))) as [H5 H6].
  repeat split; [lia| | |done].
  - eapply Forall_impl; [exact H2|]. intros n [? ?].
    split; (eapply Forall_impl; [eassumption|]); intros ? Hx; cbn in Hx; lia.
  - eapply Forall_impl; [exact H4|]. intros ? Hx; cbn in Hx; lia.
Qed.

(** The pool of length [N] represents the environment. *)
Definition represents (N : Z) (pool : list (option Tensor)) (E : gmap Z Tensor) : Prop :=
  lenZ pool = N /\
  (forall id, 0 <= id < N -> pool !! Z.to_nat id = Some (E !! id)) /\
  (forall id, is_Some (E !! id) -> 0 <= id < N).

Lemma wrap_id id : id_ok id -> wrap 64 id = id.
Proof. unfold id_ok, INT16_MAX. intros. apply wrap_small. lia. Qed.

Lemma represents_put what N pool E id t :
  represents N pool E -> id_ok id -> id < N ->
  exists pool', pool_put what pool id t = Ok pool' /\ represents N pool' (<[id := t]> E).
Proof.
  intros (HN & Hget & Hdom) Hid Hlt. unfold pool_put. rewrite wrap_id by done. rewrite HN.
  case_if; bool_to_prop; [lia|]. eexists; split; [done|]. unfold id_ok in *. split; [|split].
  - unfold lenZ in *. by rewrite length_insert.
  - intros k Hk. destruct (decide (k = id)) as [->|Hne].
    + rewrite lookup_insert_eq, list_lookup_insert_eq; [done|]. unfold lenZ in *. lia.
    + rewrite lookup_insert_ne by done. rewrite list_lookup_insert_ne by lia. by apply Hget.
  - intros k [x Hk]. apply lookup_insert_Some in Hk as [[<- _]|[_ Hk]]; [lia|]. apply Hdom. by eexists.
Qed.

Lemma represents_get what N pool E id :
  represents N pool E -> id_ok id -> pool_get what pool id = env_get what E id.
Proof.
  intros (HN & Hget & Hdom) Hid. unfold pool_get, env_get. rewrite wrap_id by done. rewrite HN.
  case_if; bool_to_prop.
  - destruct (E !! id) eqn:HE; [|done]. unfold id_ok in *.
    assert (0 <= id < N) by (apply Hdom; by eexists). lia.
  - rewrite Hget by (unfold id_ok in *; lia). by destruct (E !! id).
Qed.

Lemma represents_puts what N l pool E :
  represents N pool E -> Forall (fun p => id_ok p.1 /\ p.1 < N) l ->
  exists pool', rfoldM (fun pool p => pool_put what pool p.1 p.2) l pool = Ok pool' /\
    represents N pool' (env_puts E l).
Proof.
  intros HR Hl. revert pool E HR. induction Hl as [|[id t] l [Hid Hlt] Hl IH]; intros pool E HR; cbn.
  - eauto.
  - destruct (represents_put what N pool E id t HR Hid Hlt) as (pool' & -> & HR').
    cbn. by apply IH.
Qed.

(** The environments a list of insertions and a finite map give. *)
Lemma env_puts_app E l k : env_puts E (l ++ k) = env_puts (env_puts E l) k.
Proof. apply foldl_app. Qed.

Lemma env_puts_map_to_list E (m : gmap Z Tensor) : env_puts E (map_to_list m) = m ∪ E.
Proof.
  pose proof (NoDup_fst_map_to_list m) as Hnd. rewrite <-(list_to_map_to_list m) at 2.
  revert E. induction (map_to_list m) as [|[k v] l IH]; intros E.
  - cbn. by rewrite (left_id_L ∅ union).
  - cbn in Hnd |- *. apply NoDup_cons in Hnd as [Hk Hnd]. unfold env_puts in *. rewrite IH by done.
    rewrite <-insert_union_r, insert_union_l; [done|]. by apply not_elem_of_list_to_map_1.
Qed.

Lemma exec_node_represents N pool E n :
  represents N pool E -> Forall id_ok (input_ids n) ->
  Forall (fun id => id_ok id /\ id < N) (output_ids n) ->
  match spec_node E n with
  | Ok E' => exists pool', exec_node pool n = Ok pool' /\ represents N pool' E'
  | Err e => exec_node pool n = Err e
  end.
Proof.
  intros HR Hin Hout. unfold exec_node, spec_node.
  assert (rmapM (pool_get err_undefined pool) (input_ids n) =
          rmapM (env_get err_undefined E) (input_ids n)) as ->.
  { induction Hin as [|id l Hid _ IH]; cbn; [done|].
    rewrite (represents_get err_undefined N pool E id HR Hid). by rewrite IH. }
  destruct (rmapM _ _) as [args|e]; cbn; [|done].
  destruct (run_op _ _ _) as [outs|e]; cbn; [|done].
  destruct (length outs =? length (output_ids n))%nat; cbn; [|done].
  apply represents_puts; [done|]. clear -Hout. revert outs.
  induction Hout as [|id l Hid _ IH]; intros [|t ts]; cbn; constructor; auto.
Qed.

Lemma exec_nodes_represents N l pool E :
  represents N pool E ->
  Forall (fun n => Forall id_ok (input_ids n) /\
                   Forall (fun id => id_ok id /\ id < N) (output_ids n)) l ->
  match rfoldM spec_node l E with
  | Ok E' => exists pool', rfoldM exec_node l pool = Ok pool' /\ represents N pool' E'
  | Err e => rfoldM exec_node l pool = Err e
  end.
Proof.
  intros HR Hl. revert pool E HR. induction Hl as [|n l [Hi Ho] Hl IH]; intros pool E HR; cbn.
  - eauto.
  - pose proof (exec_node_represents N pool E n HR Hi Ho) as H.
    destruct (spec_node E n) as [E'|e]; [|by rewrite H].
    destruct H as (pool' & -> & HR'). by apply IH.
Qed.

Lemma put_inputs_represents N ids lts pool E :
  represents N pool E -> Forall (fun id => id_ok id /\ id < N) ids -> length lts = length ids ->
  match rmapM view_as_tensor lts with
  | Ok ts => exists pool', rfoldM put_input (zip ids lts) pool = Ok pool' /\
               represents N pool' (env_puts E (zip ids ts))
  | Err e => rfoldM put_input (zip ids lts) pool = Err e
  end.
Proof.
  intros HR Hids. revert lts pool E HR.
  induction Hids as [|id ids [Hid Hlt] _ IH]; intros [|lt lts] pool E HR Hlen; try done; cbn; [by eauto|].
  rewrite wrap_id by done. pose proof (proj1 HR) as ->.
  assert ((id >=? N) = false) as -> by (rewrite Z.geb_leb; apply Z.leb_gt; lia).
  destruct (view_as_tensor lt) as [t|e]; cbn; [|done].
  destruct (represents_put err_input N pool E id t HR Hid Hlt) as (pool' & -> & HR'). cbn.
  injection Hlen as Hlen. specialize (IH lts pool' _ HR' Hlen).
  destruct (rmapM view_as_tensor lts); cbn; [|done]. exact IH.
Qed.

Lemma constants_out_of_range what N l pool :
  lenZ pool = N -> (exists p, In p l /\ id_ok p.1 /\ N <= p.1) ->
  rfoldM (fun pool p => pool_put what pool p.1 p.2) l pool = Err what.
Proof.
  revert pool. induction l as [|[id t] l IH]; intros pool HN (p & Hp & Hid & Hle); [done|]. cbn.
  unfold pool_put at 1. case_if; [done|]. cbn.
  destruct Hp as [<-|Hp].
  - cbn in *. rewrite wrap_id in * by done. bool_to_prop. lia.
  - apply IH; [|by exists p]. unfold lenZ in *. by rewrite length_insert.
Qed.

Lemma empty_pool_represents N :
  0 <= N -> represents N (replicate (Z.to_nat N) None) ∅.
Proof.
  intros. split; [|split].
  - unfold lenZ. rewrite length_replicate. lia.
  - intros id Hid. rewrite lookup_empty. apply lookup_replicate. split; [done|lia].
  - intros id [x Hx]. by rewrite lookup_empty in Hx.
Qed.

Lemma execute_spec g inputs constants :
  graph_ids_ok g -> (forall id, is_Some (constants !! id) -> id_ok id) ->
  execute g inputs constants = spec_execute g inputs constants.
Proof.
  intros (Hn & Hi & Ho) Hc. destruct (max_tensor_id_ge g) as (Hm & Mn & Mi & Mo).
  unfold execute, spec_execute. set (N := max_tensor_id g + 1).
  destruct (length inputs =? length (g_inputs g))%nat eqn:Hlen; cbn; [|done].
  apply Nat.eqb_eq in Hlen.
  assert (Forall (fun id => id_ok id /\ id < N) (g_inputs g)) as Hin.
  { apply Forall_forall. intros id Hid. rewrite Forall_forall in Hi, Mi.
    specialize (Hi id Hid). specialize (Mi id Hid). cbn in Mi. split; [done|lia]. }
  pose proof (put_inputs_represents N (g_inputs g) inputs _ _
    (empty_pool_represents N ltac:(lia)) Hin Hlen) as H1.
  destruct (rmapM view_as_tensor inputs) as [ts|e]; cbn; [|by rewrite H1].
  destruct H1 as (pool & -> & HR). cbn.
  destruct (forallb _ _) eqn:Hconst; cbn.
  2: { rewrite (constants_out_of_range err_constant N); [done|by apply HR|].
       apply not_true_iff_false in Hconst. rewrite forallb_forall in Hconst.
       destruct (decide (Exists (fun p => N <= p.1) (map_to_list constants))) as [Hex|Hnex].
       - apply List.Exists_exists in Hex as (p & Hp & HN). exists p. split; [done|]. split; [|done].
         apply Hc. destruct p as [k v]. apply list_elem_of_In, elem_of_map_to_list in Hp. by eexists.
       - exfalso. apply Hconst. intros p Hp. apply Z.leb_le. apply Znot_gt_le. intros Hgt.
         apply Hnex, List.Exists_exists. exists p. split; [done|]. lia. }
  destruct (represents_puts err_constant N (map_to_list constants) pool _ HR) as (pool2 & -> & HR2).
  { apply Forall_forall. intros [k v] Hkv. rewrite forallb_forall in Hconst.
    specialize (Hconst _ (proj1 (list_elem_of_In _ _) Hkv)). cbn in *. bool_to_prop.
    apply elem_of_map_to_list in Hkv. split; [apply Hc; by eexists|lia]. }
  rewrite env_puts_map_to_list in HR2. cbn.
  assert (Forall (fun n => Forall id_ok (input_ids n) /\
            Forall (fun id => id_ok id /\ id < N) (output_ids n)) (nodes g)) as Hns.
  { apply Forall_forall. intros n Hnn. rewrite Forall_forall in Hn, Mn.
    destruct (Hn n Hnn) as [? Hno], (Mn n Hnn) as [_ Hmo]. split; [done|].
    rewrite Forall_forall in Hno, Hmo |- *. intros id Hid. specialize (Hno id Hid).
    specialize (Hmo id Hid). cbn in Hmo. split; [done|lia]. }
  pose proof (exec_nodes_represents N (nodes g) pool2 _ HR2 Hns) as H3.
  destruct (rfoldM spec_node _ _) as [E'|e]; cbn; [|by rewrite H3].
  destruct H3 as (pool3 & -> & HR3). cbn. clear -HR3 Ho.
  induction Ho as [|id l Hid _ IH]; cbn; [done|].
  rewrite (represents_get err_never N pool3 E' id HR3 Hid). by rewrite IH.
Qed.

(** C35: [execute] implements the abstract semantics: on a graph whose ids are
    non-negative [int16_t] values, running over the pool of [max_tensor_id + 1]
    slots gives exactly the result, or the error, of evaluating the nodes in
    order in an environment of named tensors. *)
Theorem execute_refines g inputs constants :
  graph_ids_ok g -> (forall id, is_Some (constants !! id) -> id_ok id) ->
  execute g inputs constants = spec_execute g inputs constants.
Proof. apply execute_spec. Qed.

(** *** Topological order *)

(** Every id read has been produced, supplied or is a constant. *)
Fixpoint ordered (known : gset Z) (ns : list LiteNode) (outs : list Z) : bool :=
  match ns with
  | [] => forallb (fun id => bool_decide (id ∈ known)) outs
  | n :: ns =>
      forallb (fun id => bool_decide (id ∈ known)) (input_ids n) &&
      ordered (known ∪ list_to_set (output_ids n)) ns outs
  end.

Lemma is_ok_rmapM_env_get what (E : gmap Z Tensor) ids :
  is_ok (rmapM (env_get what E) ids) = forallb (fun id => bool_decide (id ∈ dom E)) ids.
Proof.
  induction ids as [|id ids IH]; [done|]. cbn. rewrite <-IH. unfold env_get at 1.
  destruct (E !! id) as [t|] eqn:HE; cbn.
  - rewrite bool_decide_true by (apply elem_of_dom; by eexists).
    by destruct (rmapM (env_get what E) ids).
  - rewrite bool_decide_false; [done|]. by apply not_elem_of_dom.
Qed.

Lemma dom_env_puts (E : gmap Z Tensor) ids (ts : list Tensor) :
  length ts = length ids -> dom (env_puts E (zip ids ts)) = dom E ∪ list_to_set ids.
Proof.
  revert E ts. induction ids as [|id ids IH]; intros E [|t ts] Hlen; try done; cbn.
  - by rewrite (right_id_L ∅ union).
  - injection Hlen as Hlen. unfold env_puts in IH. rewrite (IH _ _ Hlen), dom_insert_L.
    rewrite !(assoc_L union). f_equal. apply (comm_L union).
Qed.

(** The kernels accept the nodes of the graph and return what they declare. *)
Definition kernels_total (ns : list LiteNode) : Prop :=
  forall n args, In n ns -> length args = length (input_ids n) ->
    exists outs, run_op (op n) args (attrs n) = Ok outs /\ length outs = length (output_ids n).

Lemma spec_nodes_ordered ns outs (E : gmap Z Tensor) :
  kernels_total ns -> (forall t, is_ok (to_lite_tensor t) = true) ->
  is_ok (let* E' := rfoldM spec_node ns E in
         rmapM (fun id => let* t := env_get err_never E' id in to_lite_tensor t) outs)
  = ordered (dom E) ns outs.
Proof.
  intros Hk Hlt. revert E. induction ns as [|n ns IH]; intros E; cbn [rfoldM rbind ordered].
  - rewrite <-(is_ok_rmapM_env_get err_never). induction outs as [|id outs IHo]; [done|]. cbn.
    destruct (env_get err_never E id) as [t|]; cbn; [|done].
    specialize (Hlt t). destruct (to_lite_tensor t); [|done]. cbn.
    destruct (rmapM (env_get _ _) _), (rmapM _ _); done.
  - unfold spec_node. rewrite <-(is_ok_rmapM_env_get err_undefined).
    destruct (rmapM (env_get err_undefined E) (input_ids n)) as [args|e] eqn:Ha; cbn; [|done].
    destruct (Hk n args (or_introl eq_refl)) as (os & Hr & Hlen).
    { by apply rmapM_length in Ha. }
    rewrite Hr. cbn. rewrite Hlen, Nat.eqb_refl. cbn.
    rewrite IH by (intros n' args' Hn'; apply Hk; by right). by rewrite dom_env_puts.
Qed.

(** When the kernels deliver what the nodes declare, [execute] succeeds
    exactly on the graphs in topological order: every id a node reads, and
    every declared output, is an input, a constant or the output of an earlier
    node. Nothing else can make it fail, and nothing else can make it succeed. *)
Theorem execute_ok_iff_ordered g inputs constants :
  graph_ids_ok g -> (forall id, is_Some (constants !! id) -> 0 <= id <= max_tensor_id g) ->
  max_tensor_id g <= INT16_MAX ->
  length inputs = length (g_inputs g) ->
  (forall lt, is_ok (view_as_tensor lt) = true) -> (forall t, is_ok (to_lite_tensor t) = true) ->
  kernels_total (nodes g) ->
  is_ok (execute g inputs constants) =
    ordered (list_to_set (g_inputs g) ∪ dom constants) (nodes g) (g_outputs g).
Proof.
  intros Hg Hc Hm Hlen Hv Ht Hk.
  assert (execute g inputs constants = spec_execute g inputs constants) as ->.
  { apply execute_spec; [done|]. intros id Hid. apply Hc in Hid. unfold id_ok. lia. }
  unfold spec_execute. rewrite Hlen, Nat.eqb_refl. cbn.
  assert (is_ok (rmapM view_as_tensor inputs) = true) as [ts Hts]%is_ok_Ok by (by apply rmapM_is_ok).
  rewrite Hts. cbn.
  assert (forallb (fun p => p.1 <=? max_tensor_id g) (map_to_list constants) = true) as ->.
  { apply forallb_forall. intros [k v] Hkv%list_elem_of_In%elem_of_map_to_list.
    apply Z.leb_le. apply Hc. by eexists. }
  cbn. rewrite spec_nodes_ordered by done.
  rewrite dom_union_L, dom_env_puts, dom_empty_L.
  - f_equal. set_solver.
  - rewrite <-Hlen. by eapply rmapM_length.
Qed.

End execute.

(** ** A concrete graph

    x0, x1 -> t2 = x0 + w3 (constant), t4 = t2 + x1. *)

Definition sum_op (_ : Z) (args : list Z) (_ : LiteAttributes) : result (list Z) :=
  Ok [foldr Z.add 0 args].

Definition sample_graph : LiteGraph :=
  mkGraph [mkNode 0 [0; 3] [2] default_attrs; mkNode 0 [2; 1] [4] default_attrs] [0; 1] [4].

Example sample_runs : execute Ok Ok sum_op sample_graph [10; 20] {[ 3 := 5 ]} = Ok [35].
Proof. reflexivity. Qed.

Lemma sample_ids_ok : graph_ids_ok sample_graph.
Proof. unfold graph_ids_ok, id_ok, INT16_MAX. repeat constructor; cbn; lia. Qed.

Lemma execute_refines_witness :
  execute Ok Ok sum_op sample_graph [10; 20] {[ 3 := 5 ]} =
  spec_execute Ok Ok sum_op sample_graph [10; 20] {[ 3 := 5 ]}.
Proof.
  refine (execute_refines Ok Ok sum_op sample_graph [10; 20] {[ 3 := 5 ]} sample_ids_ok _).
  intros id [v Hv]. apply lookup_singleton_Some in Hv as [<- _]. unfold id_ok, INT16_MAX. lia.
Defined.

Lemma execute_ok_iff_ordered_witness :
  is_ok (execute Ok Ok sum_op sample_graph [10; 20] {[ 3 := 5 ]}) =
  ordered (list_to_set [0; 1] ∪ dom ({[ 3 := 5 ]} : gmap Z Z)) (nodes sample_graph) [4].
Proof.
  refine (execute_ok_iff_ordered Ok Ok sum_op sample_graph [10; 20] {[ 3 := 5 ]} sample_ids_ok
    _ _ eq_refl (fun _ => eq_refl) (fun _ => eq_refl) _).
  - intros id [v Hv]. apply lookup_singleton_Some in Hv as [<- _]. cbn. lia.
  - cbn. unfold INT16_MAX. lia.
  - intros n args [<-|[<-|[]]] _; eexists; split; reflexivity.
Defined.

End Lite.
Export Lite.
