(* ===== verification/LitePlanner.v ===== *)
(** * The memory planner of the Lite runtime

    Models include/tenzor/lite/memory_planner.hpp and
    src/lite/memory_planner.cpp (and the [TensorValue] table of
    include/tenzor/lite/model_format.hpp).  Sizes and offsets are [uint64_t]
    and wrap; [TensorSource] and [DType] fields hold the underlying byte, since
    a table read from a file can contain any. *)

From stdpp Require Import base list numbers strings gmap sorting.
From S2P Require Import Prelude Shape DType LiteGraph.

Module Planner.

Definition TS_Input : Z := 0.
Definition TS_Weight : Z := 1.
Definition TS_Intermediate : Z := 2.

Record TensorValue := mkTV {
  tv_id : Z;
  source : Z;
  tv_dtype : Z;
  tv_shape : list Z;
  weight_offset : Z;
  weight_nbytes : Z;
  input_index : Z
}.

#[export] Instance TensorValue_eq_dec : EqDecision TensorValue.
Proof. solve_decision. Defined.

(** The default member initialisers. *)
Definition default_tv : TensorValue := mkTV (-1) TS_Intermediate 0 [] 0 0 0.

Record MmplPlacement := mkPlacement { mp_id : Z; pool_index : Z; mp_offset : Z }.

#[export] Instance MmplPlacement_eq_dec : EqDecision MmplPlacement.
Proof. solve_decision. Defined.

Record MmplPlan := mkPlan {
  pool_sizes : list Z;
  alignment : Z;
  placements : list MmplPlacement
}.

#[export] Instance MmplPlan_eq_dec : EqDecision MmplPlan.
Proof. solve_decision. Defined.

(** ** Sizes *)

Definition add64 (a b : Z) : Z := wrap 64 (a + b).

Definition round_up (n align : Z) : Z := wrap 64 (wrap 64 (n + align - 1) / align * align).

(** [inl r] is an early [return r]. *)
Fixpoint count_elems (n : Z) (shape : list Z) : Z + Z :=
  match shape with
  | [] => inr n
  | d :: shape =>
      if d <=? 0 then inl 0
      else match checked_mul_overflow UINT64_MAX n (wrap 64 d) with
           | None => inl UINT64_MAX
           | Some prod => count_elems prod shape
           end
  end.

Definition bytes_of (tv : TensorValue) : Z :=
  match tv_shape tv with
  | [] => 0
  | shape =>
      match count_elems 1 shape with
      | inl r => r
      | inr n =>
          match checked_mul_overflow UINT64_MAX n (dtype_size_raw (tv_dtype tv)) with
          | None => UINT64_MAX
          | Some bytes => bytes
          end
      end
  end.

(** ** Liveness *)

Record LiveTensor := mkLive {
  lt_id : Z;
  lt_bytes : Z;
  first_use : Z;
  last_use : Z
}.

Definition source_of (tvs : list TensorValue) (id : Z) : Z :=
  if (id <? 0) || (wrap 64 id >=? lenZ tvs) then TS_Intermediate
  else default TS_Intermediate (source <$> tvs !! Z.to_nat id).

Definition size_of (tvs : list TensorValue) (id : Z) : Z :=
  if wrap 64 id <? lenZ tvs then default 0 (bytes_of <$> tvs !! Z.to_nat id) else 0.

Definition graph_io (g : LiteGraph) : gset Z :=
  list_to_set (g_inputs g) ∪ list_to_set (g_outputs g).

Definition touch (i : Z) (lt : LiveTensor) : LiveTensor :=
  mkLive (lt_id lt) (lt_bytes lt) (first_use lt) i.

Definition observe (io : gset Z) (tvs : list TensorValue) (i : Z)
    (out : list LiveTensor) (id : Z) : list LiveTensor :=
  if bool_decide (id ∈ io) then out
  else if source_of tvs id =? TS_Weight then out
  else match list_find (fun lt => lt_id lt = id) out with
       | None => out ++ [mkLive id (size_of tvs id) i i]
       | Some (k, lt) => <[k := touch i lt]> out
       end.

Definition observe_node (io : gset Z) (tvs : list TensorValue)
    (out : list LiveTensor) (p : nat * LiteNode) : list LiveTensor :=
  let '(i, n) := p in
  foldl (observe io tvs (Z.of_nat i))
    (foldl (observe io tvs (Z.of_nat i)) out (output_ids n)) (input_ids n).

Definition compute_liveness (g : LiteGraph) (tvs : list TensorValue) : list LiveTensor :=
  foldl (observe_node (graph_io g) tvs) [] (zip (seq 0 (length (nodes g))) (nodes g)).

(** ** Placement *)

Record Placed := mkPlaced { p_offset : Z; p_end : Z; p_first : Z; p_last : Z }.

Definition live_overlaps (lt : LiveTensor) (p : Placed) : bool :=
  negb ((last_use lt <? p_first p) || (p_last p <? first_use lt)).

Definition offset_overlaps (candidate need : Z) (p : Placed) : bool :=
  negb ((add64 candidate need <=? p_offset p) || (p_end p <=? candidate)).

(** The [while] loop: the first conflicting placed tensor moves the candidate
    to its (rounded) end and restarts the scan.  [None] is a loop that has not
    ended within the fuel. *)
Fixpoint place_loop (fuel : nat) (align : Z) (placed : list Placed) (lt : LiveTensor)
    (need candidate : Z) : option Z :=
  match fuel with
  | O => None
  | S fuel =>
      match find (fun p => live_overlaps lt p && offset_overlaps candidate need p) placed with
      | None => Some candidate
      | Some p => place_loop fuel align placed lt need (round_up (p_end p) align)
      end
  end.

Definition place_one (align : Z) (placed : list Placed) (lt : LiveTensor)
  : option (Z * list Placed) :=
  let need := round_up (lt_bytes lt) align in
  match place_loop (S (length placed)) align placed lt need 0 with
  | None => None
  | Some c => Some (c, placed ++ [mkPlaced c (add64 c need) (first_use lt) (last_use lt)])
  end.

Fixpoint place_all (align : Z) (placed : list Placed) (live : list LiveTensor)
  : option (list (LiveTensor * Z) * list Placed) :=
  match live with
  | [] => Some ([], placed)
  | lt :: live =>
      match place_one align placed lt with
      | None => None
      | Some (c, placed) =>
          match place_all align placed live with
          | None => None
          | Some (offs, placed) => Some ((lt, c) :: offs, placed)
          end
      end
  end.

(** Descending size, then ascending id: the negation of the C++ comparator
    with its arguments swapped. *)
Definition by_size (a b : LiveTensor) : Prop :=
  lt_bytes b < lt_bytes a \/ (lt_bytes a = lt_bytes b /\ lt_id a <= lt_id b).

#[export] Instance by_size_dec : RelDecision by_size.
Proof. unfold by_size. intros a b. apply _. Defined.

Definition by_id (a b : MmplPlacement) : Prop := mp_id a <= mp_id b.

#[export] Instance by_id_dec : RelDecision by_id.
Proof. unfold by_id. intros a b. apply _. Defined.

Definition compute_memory_plan (g : LiteGraph) (tvs : list TensorValue) (align : Z)
  : option MmplPlan :=
  let align := if align =? 0 then 64 else align in
  let live := List.filter (fun lt => negb (lt_bytes lt =? 0)) (compute_liveness g tvs) in
  let live := merge_sort by_size live in
  match place_all align [] live with
  | None => None
  | Some (offs, placed) =>
      let pool_size := foldl (fun m p => Z.max m (p_end p)) 0 placed in
      Some (mkPlan (if pool_size >? 0 then [pool_size] else []) align
              (merge_sort by_id (map (fun p => mkPlacement (lt_id p.1) 0 p.2) offs)))
  end.

(** A chain t0 -> t1 -> t2 -> t3 -> t4: t1 and t3 share the pool's start. *)
Definition chain_graph : LiteGraph :=
  mkGraph [mkNode 0 [0] [1] default_attrs; mkNode 0 [1] [2] default_attrs;
           mkNode 0 [2] [3] default_attrs; mkNode 0 [3] [4] default_attrs] [0] [4].
Definition chain_tvs : list TensorValue :=
  map (fun id => mkTV id TS_Intermediate 0 [25] 0 0 0) [0; 1; 2; 3; 4].

Example chain_plan :
  compute_memory_plan chain_graph chain_tvs 64 =
  Some (mkPlan [256] 64 [mkPlacement 1 0 0; mkPlacement 2 0 128; mkPlacement 3 0 0]).
Proof. vm_compute. reflexivity. Qed.

(** ** Liveness: what the table contains *)

(** The observations in program order: node index and id. *)
Definition mentions (g : LiteGraph) : list (Z * Z) :=
  concat (map (fun p => map (pair (Z.of_nat p.1)) (output_ids p.2 ++ input_ids p.2))
            (zip (seq 0 (length (nodes g))) (nodes g))).

Definition tracked (io : gset Z) (tvs : list TensorValue) (id : Z) : Prop :=
  id ∉ io /\ source_of tvs id <> TS_Weight.

Lemma foldl_observe_map io tvs i l out :
  foldl (observe io tvs i) out l = foldl (fun out p => observe io tvs p.1 out p.2) out (map (pair i) l).
Proof. revert out. induction l as [|id l IH]; intros out; cbn; [done|]. apply IH. Qed.

Lemma compute_liveness_mentions g tvs :
  compute_liveness g tvs =
  foldl (fun out p => observe (graph_io g) tvs p.1 out p.2) [] (mentions g).
Proof.
  unfold compute_liveness, mentions. generalize (@nil LiveTensor).
  induction (zip _ _) as [|[i n] l IH]; intros out; cbn; [done|].
  rewrite foldl_app, IH. f_equal. by rewrite map_app, foldl_app, <-!foldl_observe_map.
Qed.

Record live_inv (io : gset Z) (tvs : list TensorValue) (ms : list (Z * Z))
    (out : list LiveTensor) : Prop := {
  li_nodup : NoDup (map lt_id out);
  li_sound : forall lt, lt ∈ out ->
    tracked io tvs (lt_id lt) /\ lt_bytes lt = size_of tvs (lt_id lt) /\
    (first_use lt, lt_id lt) ∈ ms /\ (last_use lt, lt_id lt) ∈ ms /\
    forall j, (j, lt_id lt) ∈ ms -> first_use lt <= j <= last_use lt;
  li_complete : forall j id, (j, id) ∈ ms -> tracked io tvs id -> exists lt, lt ∈ out /\ lt_id lt = id
}.

Lemma live_inv_skip io tvs ms out i id :
  ~ tracked io tvs id -> live_inv io tvs ms out -> live_inv io tvs (ms ++ [(i, id)]) out.
Proof.
  intros Hn [H1 H2 H3]. split; [done| |].
  - intros lt Hlt. destruct (H2 lt Hlt) as (Ht & Hb & Hf & Hl & Hj).
    split; [done|]. split; [done|]. split; [set_solver|]. split; [set_solver|].
    intros j [Hj'|Heq]%elem_of_app; [by apply Hj|].
    apply list_elem_of_singleton in Heq. injection Heq as -> <-. done.
  - intros j id' [Hj|Heq]%elem_of_app Ht; [by eapply H3|].
    apply list_elem_of_singleton in Heq. by injection Heq as -> ->.
Qed.

Lemma live_inv_new io tvs ms out i id :
  tracked io tvs id -> (forall lt, lt ∈ out -> lt_id lt <> id) ->
  live_inv io tvs ms out ->
  live_inv io tvs (ms ++ [(i, id)]) (out ++ [mkLive id (size_of tvs id) i i]).
Proof.
  intros Ht Hnew [H1 H2 H3]. split.
  - rewrite map_app. apply NoDup_app. split; [done|]. split; [|apply NoDup_singleton].
    intros x Hx. cbn. intros ->%list_elem_of_singleton.
    apply list_elem_of_fmap in Hx as (lt & -> & Hlt). by apply (Hnew lt).
  - intros lt [Hlt|Heq]%elem_of_app.
    + destruct (H2 lt Hlt) as (Ht' & Hb & Hf & Hl & Hj).
      split; [done|]. split; [done|]. split; [set_solver|]. split; [set_solver|].
      intros j [Hj'|Heq]%elem_of_app; [by apply Hj|].
      apply list_elem_of_singleton in Heq. injection Heq as -> Heq. by destruct (Hnew lt).
    + apply list_elem_of_singleton in Heq as ->. cbn. split; [done|]. split; [done|].
      split; [set_solver|]. split; [set_solver|].
      intros j [Hj|Heq]%elem_of_app.
      * destruct (H3 j id Hj Ht) as (lt & Hlt & Heq). by destruct (Hnew lt).
      * apply list_elem_of_singleton in Heq. injection Heq as ->. lia.
  - intros j id' [Hj|Heq]%elem_of_app Ht'.
    + destruct (H3 j id' Hj Ht') as (lt & Hlt & Heq). exists lt. set_solver.
    + apply list_elem_of_singleton in Heq. injection Heq as -> ->. exists (mkLive id (size_of tvs id) i i). set_solver.
Qed.

Lemma live_inv_touch io tvs ms out i k lt :
  out !! k = Some lt -> (forall j id, (j, id) ∈ ms -> j <= i) ->
  live_inv io tvs ms out -> live_inv io tvs (ms ++ [(i, lt_id lt)]) (<[k := touch i lt]> out).
Proof.
  intros Hk Hle [H1 H2 H3].
  assert (lt ∈ out) as Hlt by (by eapply list_elem_of_lookup_2).
  destruct (H2 lt Hlt) as (Ht & Hb & Hf & Hl & Hj).
  assert (map lt_id (<[k := touch i lt]> out) = map lt_id out) as Hids.
  { change (lt_id <$> <[k := touch i lt]> out = lt_id <$> out). rewrite list_fmap_insert. cbn.
    apply list_insert_id. by rewrite list_lookup_fmap, Hk. }
  split.
  - by rewrite Hids.
  - intros lt' Hlt'. apply list_elem_of_lookup in Hlt' as [k' Hk'].
    apply list_lookup_insert_Some in Hk' as [(<- & <- & _)|[Hne Hk']].
    + cbn. split; [done|]. split; [done|]. split; [set_solver|]. split; [set_solver|].
      intros j [Hj'|Heq]%elem_of_app; [specialize (Hj j Hj'); specialize (Hle _ _ Hj'); lia|].
      apply list_elem_of_singleton in Heq. injection Heq as ->.
      specialize (Hle _ _ Hf). lia.
    + assert (lt' ∈ out) as Hlt' by (by eapply list_elem_of_lookup_2).
      destruct (H2 lt' Hlt') as (Ht' & Hb' & Hf' & Hl' & Hj').
      split; [done|]. split; [done|]. split; [set_solver|]. split; [set_solver|].
      intros j [Hj''|Heq]%elem_of_app; [by apply Hj'|].
      apply list_elem_of_singleton in Heq. injection Heq as -> Heq. exfalso. apply Hne.
      apply (NoDup_lookup (map lt_id out) k k' (lt_id lt) H1);
        rewrite list_lookup_fmap; [by rewrite Hk|rewrite Hk'; cbn; by rewrite Heq].
  - intros j id Hj' Ht'.
    assert (exists lt', lt' ∈ out /\ lt_id lt' = id) as (lt' & Hin & <-).
    { apply elem_of_app in Hj' as [Hj'|Heq]; [by eapply H3|].
      apply list_elem_of_singleton in Heq. injection Heq as _ ->. by exists lt. }
    assert (lt_id lt' ∈ map lt_id (<[k := touch i lt]> out)) as Hin'.
    { rewrite Hids. by apply list_elem_of_fmap_2. }
    apply list_elem_of_fmap in Hin' as (x & Hx & Hin'). by exists x.
Qed.

Lemma live_inv_observe io tvs ms out i id :
  (forall j id, (j, id) ∈ ms -> j <= i) ->
  live_inv io tvs ms out -> live_inv io tvs (ms ++ [(i, id)]) (observe io tvs i out id).
Proof.
  intros Hle Hinv. unfold observe. case_bool_decide as Hio.
  { apply live_inv_skip; [|done]. by intros [? ?]. }
  destruct (Z.eqb_spec (source_of tvs id) TS_Weight) as [Hw|Hw].
  { apply live_inv_skip; [|done]. by intros [? ?]. }
  destruct (list_find _ out) as [[k lt]|] eqn:Hf.
  - apply list_find_Some in Hf as (Hk & <- & _). by apply live_inv_touch.
  - apply live_inv_new; [done| |done]. apply list_find_None in Hf. rewrite Forall_forall in Hf. done.
Qed.

Lemma live_inv_foldl io tvs ms' ms out :
  StronglySorted (fun a b => a.1 <= b.1) (ms ++ ms') ->
  live_inv io tvs ms out ->
  live_inv io tvs (ms ++ ms') (foldl (fun out p => observe io tvs p.1 out p.2) out ms').
Proof.
  revert ms out. induction ms' as [|[i id] ms' IH]; intros ms out Hs Hinv; cbn.
  - by rewrite app_nil_r.
  - replace (ms ++ (i, id) :: ms') with ((ms ++ [(i, id)]) ++ ms') in * by (by rewrite <-app_assoc).
    apply IH; [done|]. apply live_inv_observe; [|done]. intros j id' Hj.
    apply StronglySorted_app_1_l in Hs.
    apply (StronglySorted_app_1_elem_of _ ms [(i, id)] (j, id') (i, id) Hs Hj). set_solver.
Qed.

Lemma mentions_sorted_from k ns :
  StronglySorted (fun a b : Z * Z => a.1 <= b.1)
    (concat (map (fun p => map (pair (Z.of_nat p.1)) (output_ids p.2 ++ input_ids p.2))
            (zip (seq k (length ns)) ns))) /\
  forall j id, (j, id) ∈ concat (map (fun p => map (pair (Z.of_nat p.1)) (output_ids p.2 ++ input_ids p.2))
            (zip (seq k (length ns)) ns)) -> Z.of_nat k <= j.
Proof.
  revert k. induction ns as [|n ns IH]; intros k; cbn; [split; [constructor|set_solver]|].
  destruct (IH (S k)) as [H1 H2]. split.
  - apply StronglySorted_app_2; [| |done].
    + intros [i1 j1] [i2 j2] Hx Hy. apply list_elem_of_fmap in Hx as (? & [= -> ->] & _).
      specialize (H2 _ _ Hy). cbn. lia.
    + induction (output_ids n ++ input_ids n) as [|x l IHl]; cbn; constructor; [done|].
      apply Forall_forall. intros [i1 j1] Hx. apply list_elem_of_fmap in Hx as (? & [= -> ->] & _). cbn. lia.
  - intros j id [Hj|Hj]%elem_of_app; [|specialize (H2 _ _ Hj); lia].
    apply list_elem_of_fmap in Hj as (? & [= -> ->] & _). lia.
Qed.

Lemma compute_liveness_inv g tvs :
  live_inv (graph_io g) tvs (mentions g) (compute_liveness g tvs).
Proof.
  rewrite compute_liveness_mentions. apply (live_inv_foldl _ _ (mentions g) []).
  - apply mentions_sorted_from.
  - split; [constructor| |]; intros *; set_solver.
Qed.

(** ** Placement: termination, alignment and disjointness *)

(** The mathematical rounding: the least multiple of [a] from [n] on. *)
Definition ceil_to (a n : Z) : Z := (n + a - 1) / a * a.

Fixpoint sumZ (l : list Z) : Z := match l with [] => 0 | x :: l => x + sumZ l end.

Definition total_need (a : Z) (live : list LiveTensor) : Z :=
  sumZ (map (fun lt => ceil_to a (lt_bytes lt)) live).

Lemma ceil_to_bounds a n : 0 < a -> n <= ceil_to a n <= n + a - 1.
Proof.
  intros Ha. unfold ceil_to. pose proof (Z.div_mod (n + a - 1) a ltac:(lia)).
  pose proof (Z.mod_pos_bound (n + a - 1) a Ha). nia.
Qed.

Lemma ceil_to_mod a n : 0 < a -> ceil_to a n mod a = 0.
Proof. intros. unfold ceil_to. apply Z.mod_mul. lia. Qed.

Lemma ceil_to_multiple a n : 0 < a -> n mod a = 0 -> ceil_to a n = n.
Proof.
  intros Ha Hn. unfold ceil_to. apply Z.mod_divide in Hn as [k ->]; [|lia].
  replace (k * a + a - 1) with (k * a + (a - 1)) by lia.
  rewrite Z.div_add_l by lia. rewrite (Z.div_small (a - 1) a) by lia. lia.
Qed.

Lemma round_up_exact a n : 0 < a -> 0 <= n -> n + a <= 2 ^ 64 -> round_up n a = ceil_to a n.
Proof.
  intros Ha Hn Hb. pose proof (ceil_to_bounds a n Ha). unfold round_up, ceil_to in *.
  rewrite (wrap_small 64 (n + a - 1)) by lia. apply wrap_small. lia.
Qed.

Lemma total_need_nonneg a live :
  0 < a -> Forall (fun lt => 0 <= lt_bytes lt) live -> 0 <= total_need a live.
Proof.
  intros Ha. induction 1 as [|lt live Hlt _ IH]; cbn; [done|].
  pose proof (ceil_to_bounds a (lt_bytes lt) Ha). unfold total_need in IH. lia.
Qed.

Lemma total_need_Permutation a l l' : Permutation l l' -> total_need a l = total_need a l'.
Proof. unfold total_need. induction 1; cbn; lia. Qed.

Section placement.
Context (a : Z) (Ha : 0 < a).

Definition need_of (lt : LiveTensor) : Z := ceil_to a (lt_bytes lt).

(** A placed tensor, as the algorithm records it. *)
Definition to_placed (x : LiveTensor * Z) : Placed :=
  mkPlaced x.2 (x.2 + need_of x.1) (first_use x.1) (last_use x.1).

Definition good (T : Z) (x : LiveTensor * Z) : Prop :=
  0 <= x.2 /\ x.2 mod a = 0 /\ 0 <= need_of x.1 /\ x.2 + need_of x.1 <= T.

Definition disjoint_in_time (l1 l2 : LiveTensor) : Prop :=
  last_use l1 < first_use l2 \/ last_use l2 < first_use l1.

Definition no_clash (x y : LiveTensor * Z) : Prop :=
  disjoint_in_time x.1 y.1 \/ x.2 + need_of x.1 <= y.2 \/ y.2 + need_of y.1 <= x.2.

Lemma good_mono T T' x : T <= T' -> good T x -> good T' x.
Proof. unfold good. intros ? (?&?&?&?). repeat split; try done. lia. Qed.

Lemma good_end_mod T x : good T x -> p_end (to_placed x) mod a = 0.
Proof.
  intros (H0 & Hm & _). cbn. unfold need_of.
  apply Z.mod_divide in Hm; [|lia]. apply Z.mod_divide; [lia|].
  apply Z.divide_add_r; [done|]. apply Z.mod_divide; [lia|]. by apply ceil_to_mod.
Qed.

(** Placed tensors that end above the candidate: the loop's variant. *)
Definition above (candidate : Z) (placed : list Placed) : nat :=
  length (List.filter (fun p => candidate <? p_end p) placed).

Lemma above_cons c q placed :
  above c (q :: placed) = ((if (c <? p_end q)%Z then 1 else 0) + above c placed)%nat.
Proof. unfold above. cbn. by destruct (c <? p_end q). Qed.

Lemma above_mono c c' placed : c <= c' -> (above c' placed <= above c placed)%nat.
Proof.
  intros Hc. induction placed as [|q placed IH]; [done|]. rewrite !above_cons.
  destruct (Z.ltb_spec c' (p_end q)), (Z.ltb_spec c (p_end q)); lia.
Qed.

Lemma above_lt c p placed :
  In p placed -> c < p_end p -> (above (p_end p) placed < above c placed)%nat.
Proof.
  induction placed as [|q placed IH]; [done|]. intros Hin Hc. rewrite !above_cons.
  pose proof (above_mono c (p_end p) placed ltac:(lia)).
  destruct Hin as [->|Hin]; [|specialize (IH Hin Hc)];
    repeat match goal with |- context [?x <? ?y] => destruct (Z.ltb_spec x y) end; lia.
Qed.

Lemma place_loop_ok fuel done lt need c T :
  Forall (good T) done -> 0 <= need -> T + need + a <= 2 ^ 64 ->
  0 <= c <= T -> c mod a = 0 -> (above c (map to_placed done) < fuel)%nat ->
  exists c', place_loop fuel a (map to_placed done) lt need c = Some c' /\
    0 <= c' <= T /\ c' mod a = 0 /\
    forall x, In x done ->
      live_overlaps lt (to_placed x) && offset_overlaps c' need (to_placed x) = false.
Proof.
  intros Hgood Hneed HT. revert c. induction fuel as [|fuel IH]; intros c Hc Hm Hf; [lia|].
  cbn [place_loop]. destruct (find _ _) as [p|] eqn:Hfind.
  - apply List.find_some in Hfind as [Hin Hp]. apply andb_true_iff in Hp as [_ Hp].
    unfold offset_overlaps in Hp. apply negb_true_iff, orb_false_iff in Hp as [_ Hp].
    apply Z.leb_gt in Hp.
    pose proof Hin as Hin'. apply in_map_iff in Hin' as (x & <- & Hx).
    rewrite Forall_forall in Hgood. specialize (Hgood x (proj2 (list_elem_of_In _ _) Hx)).
    pose proof (good_end_mod T x Hgood) as Hmod. destruct Hgood as (G1 & G2 & G3 & G4).
    assert (p_end (to_placed x) <= T) by (cbn; lia).
    rewrite (round_up_exact a) by lia. rewrite ceil_to_multiple by done.
    apply IH; [lia|done|]. pose proof (above_lt c _ _ Hin Hp). lia.
  - exists c. split; [done|]. split; [done|]. split; [done|]. intros x Hx.
    apply (List.find_none _ _ Hfind (to_placed x)). by apply in_map.
Qed.

Lemma place_one_ok done lt T :
  Forall (good T) done -> 0 <= T -> 0 <= lt_bytes lt -> T + need_of lt + a <= 2 ^ 64 ->
  exists c, place_one a (map to_placed done) lt = Some (c, map to_placed (done ++ [(lt, c)])) /\
    Forall (good (T + need_of lt)) (done ++ [(lt, c)]) /\
    forall x, In x done -> no_clash x (lt, c).
Proof.
  intros Hgood HT Hb Hfit. unfold place_one.
  pose proof (ceil_to_bounds a (lt_bytes lt) Ha) as Hn. fold (need_of lt) in Hn.
  rewrite (round_up_exact a) by lia. fold (need_of lt).
  destruct (place_loop_ok (S (length (map to_placed done))) done lt (need_of lt) 0 T)
    as (c & -> & Hc & Hm & Hno); [done|lia|lia|lia|by apply Z.mod_0_l; lia| |].
  { unfold above. pose proof (List.filter_length_le (fun p => 0 <? p_end p) (map to_placed done)). lia. }
  exists c. split; [|split].
  - rewrite map_app. cbn. unfold add64. rewrite wrap_small by lia. done.
  - apply Forall_app. split.
    + eapply Forall_impl; [exact Hgood|]. intros x. apply good_mono. lia.
    + constructor; [|done]. unfold good. cbn. repeat split; try done; lia.
  - intros x Hx. specialize (Hno x Hx). rewrite Forall_forall in Hgood.
    specialize (Hgood x (proj2 (list_elem_of_In _ _) Hx)). destruct Hgood as (G1 & G2 & G3 & G4).
    unfold no_clash, disjoint_in_time, live_overlaps, offset_overlaps in *. cbn in *.
    unfold add64 in Hno. rewrite wrap_small in Hno by lia.
    apply andb_false_iff in Hno as [Hno|Hno]; apply negb_false_iff, orb_true_iff in Hno;
      destruct Hno as [Hno|Hno]; bool_to_prop; lia.
Qed.

Lemma place_all_ok live done T :
  Forall (good T) done -> StronglySorted no_clash done -> 0 <= T ->
  Forall (fun lt => 0 <= lt_bytes lt) live -> T + total_need a live + a <= 2 ^ 64 ->
  exists offs, place_all a (map to_placed done) live = Some (offs, map to_placed (done ++ offs)) /\
    map fst offs = live /\
    Forall (good (T + total_need a live)) (done ++ offs) /\ StronglySorted no_clash (done ++ offs).
Proof.
  revert done T. induction live as [|lt live IH]; intros done T Hg Hs HT Hb Hfit; cbn [place_all].
  - exists []. rewrite app_nil_r. unfold total_need. cbn. rewrite Z.add_0_r. done.
  - apply Forall_cons in Hb as [Hlt Hb].
    change (total_need a (lt :: live)) with (need_of lt + total_need a live) in *.
    pose proof (total_need_nonneg a live Ha Hb). pose proof (ceil_to_bounds a (lt_bytes lt) Ha) as Hn.
    fold (need_of lt) in Hn.
    destruct (place_one_ok done lt T) as (c & -> & Hg' & Hd); [done..|lia|].
    destruct (IH (done ++ [(lt, c)]) (T + need_of lt)) as (offs & -> & Hf & Hg2 & Hs2); [done| |lia|done|lia|].
    { apply StronglySorted_app_2; [|done|repeat constructor]. intros x y Hx ->%list_elem_of_singleton.
      apply Hd. by apply list_elem_of_In. }
    rewrite <-app_assoc in *. cbn in *. exists ((lt, c) :: offs). split; [done|]. cbn. split; [by f_equal|].
    by rewrite Z.add_assoc.
Qed.

End placement.

(** ** The plan *)

Definition plan_align (align : Z) : Z := if align =? 0 then 64 else align.

(** Nothing wraps: the rounded sizes and one alignment fit in 64 bits. *)
Definition plan_fits (g : LiteGraph) (tvs : list TensorValue) (align : Z) : Prop :=
  total_need (plan_align align) (compute_liveness g tvs) + plan_align align <= 2 ^ 64.

(** Node [i] mentions [id]; [id] is live at [i] when mentioned before and after. *)
Definition uses (g : LiteGraph) (i : nat) (id : Z) : Prop :=
  exists n, nodes g !! i = Some n /\ id ∈ output_ids n ++ input_ids n.

Definition live_at (g : LiteGraph) (id : Z) (i : nat) : Prop :=
  exists j k, uses g j id /\ uses g k id /\ (j <= i <= k)%nat.

Lemma mentions_uses g j id : (j, id) ∈ mentions g <-> exists i, j = Z.of_nat i /\ uses g i id.
Proof.
  unfold mentions, uses.
  enough (forall k, (j, id) ∈ concat (map (fun p => map (pair (Z.of_nat p.1)) (output_ids p.2 ++ input_ids p.2))
            (zip (seq k (length (nodes g))) (nodes g))) <->
    exists i, j = Z.of_nat (k + i) /\ exists n, nodes g !! i = Some n /\ id ∈ output_ids n ++ input_ids n) as H.
  { rewrite (H O). done. }
  induction (nodes g) as [|n ns IH]; intros k; cbn.
  - split; [set_solver|]. by intros (i & _ & n & Hn & _).
  - rewrite elem_of_app, (IH (S k)), list_elem_of_fmap. split.
    + intros [(x & [= -> ->] & Hx)|(i & -> & n' & Hn & Hid)].
      * exists O. rewrite Nat.add_0_r. split; [done|]. by exists n.
      * exists (S i). split; [f_equal; lia|]. by exists n'.
    + intros ([|i] & -> & n' & Hn & Hid).
      * injection Hn as <-. left. exists id. by rewrite Nat.add_0_r.
      * right. exists i. split; [f_equal; lia|]. by exists n'.
Qed.

Lemma count_elems_range n shape r :
  0 <= n <= UINT64_MAX -> (count_elems n shape = inl r \/ count_elems n shape = inr r) ->
  0 <= r <= UINT64_MAX.
Proof.
  revert n. induction shape as [|d shape IH]; intros n Hn H; cbn in H.
  - destruct H as [H|H]; [done|]. injection H as <-. done.
  - case_if; [destruct H as [H|H]; [|done]; injection H as <-; unfold UINT64_MAX; lia|].
    pose proof (wrap_bound 64 d ltac:(lia)).
    rewrite checked_mul_overflow_spec in H by (unfold UINT64_MAX in *; lia).
    case_if; bool_to_prop; [apply IH in H; [done|nia]|].
    destruct H as [H|H]; [|done]. injection H as <-. unfold UINT64_MAX. lia.
Qed.

Lemma bytes_of_range tv : 0 <= bytes_of tv <= UINT64_MAX.
Proof.
  unfold bytes_of. destruct (tv_shape tv) as [|d l]; [unfold UINT64_MAX; lia|].
  destruct (count_elems 1 (d :: l)) as [r|n] eqn:Hc.
  - eapply count_elems_range; [|left; exact Hc]. unfold UINT64_MAX. lia.
  - assert (0 <= n <= UINT64_MAX).
    { eapply count_elems_range; [|right; exact Hc]. unfold UINT64_MAX. lia. }
    pose proof (dtype_size_raw_range (tv_dtype tv)).
    rewrite checked_mul_overflow_spec by (unfold UINT64_MAX in *; lia).
    case_if; bool_to_prop; [nia|unfold UINT64_MAX; lia].
Qed.

Lemma size_of_range tvs id : 0 <= size_of tvs id <= UINT64_MAX.
Proof.
  unfold size_of. case_if; [|unfold UINT64_MAX; lia].
  destruct (tvs !! Z.to_nat id); cbn; [apply bytes_of_range|unfold UINT64_MAX; lia].
Qed.

#[local] Instance by_size_total : Total by_size.
Proof. intros x y. unfold by_size. lia. Qed.
#[local] Instance by_size_trans : Transitive by_size.
Proof. intros x y z. unfold by_size. lia. Qed.
#[local] Instance by_id_total : Total by_id.
Proof. intros x y. unfold by_id. lia. Qed.
#[local] Instance by_id_trans : Transitive by_id.
Proof. intros x y z. unfold by_id. lia. Qed.

(** The tensors the planner places. *)
Definition sized_live (g : LiteGraph) (tvs : list TensorValue) : list LiveTensor :=
  merge_sort by_size (List.filter (fun lt => negb (lt_bytes lt =? 0)) (compute_liveness g tvs)).

Lemma sized_live_elem g tvs lt :
  lt ∈ sized_live g tvs <-> lt ∈ compute_liveness g tvs /\ lt_bytes lt <> 0.
Proof.
  unfold sized_live. rewrite merge_sort_Permutation, list_elem_of_In, filter_In, <-list_elem_of_In.
  rewrite negb_true_iff, Z.eqb_neq. done.
Qed.

Lemma sized_live_bytes g tvs : Forall (fun lt => 0 <= lt_bytes lt) (sized_live g tvs).
Proof.
  apply Forall_forall. intros lt [Hlt _]%sized_live_elem.
  apply (li_sound _ _ _ _ (compute_liveness_inv g tvs)) in Hlt as (_ & -> & _). apply size_of_range.
Qed.

Lemma sized_live_nodup g tvs : NoDup (map lt_id (sized_live g tvs)).
Proof.
  pose proof (li_nodup _ _ _ _ (compute_liveness_inv g tvs)) as H.
  unfold sized_live.
  assert (forall l l' : list LiveTensor, l ≡ₚ l' -> NoDup (map lt_id l') -> NoDup (map lt_id l)) as Hp.
  { intros l l' Hl. change (NoDup (lt_id <$> l') -> NoDup (lt_id <$> l)). by rewrite Hl. }
  eapply Hp; [apply merge_sort_Permutation|].
  induction (compute_liveness g tvs) as [|lt l IH]; cbn in *; [done|].
  apply NoDup_cons in H as [Hn H]. destruct (negb _); cbn; [|by apply IH].
  apply NoDup_cons. split; [|by apply IH]. intros Hin. apply Hn.
  apply list_elem_of_fmap in Hin as (x & Hx & Hin). apply list_elem_of_fmap. exists x. split; [done|].
  apply list_elem_of_In in Hin. apply filter_In in Hin as [Hin _]. by apply list_elem_of_In.
Qed.

Lemma total_need_cons a lt l : total_need a (lt :: l) = ceil_to a (lt_bytes lt) + total_need a l.
Proof. reflexivity. Qed.

Lemma total_need_sized g tvs a :
  0 < a -> total_need a (sized_live g tvs) = total_need a (compute_liveness g tvs).
Proof.
  intros Ha. unfold sized_live. rewrite (total_need_Permutation a _ _ (merge_sort_Permutation by_size _)).
  induction (compute_liveness g tvs) as [|lt l IH]; [done|]. cbn [List.filter].
  rewrite total_need_cons. destruct (Z.eqb_spec (lt_bytes lt) 0) as [Hz|Hz]; cbn [negb].
  - rewrite IH, Hz, ceil_to_multiple by (try apply Z.mod_0_l; lia). done.
  - by rewrite total_need_cons, IH.
Qed.

Lemma plan_structure g tvs align :
  0 <= align -> plan_fits g tvs align ->
  exists offs, let a := plan_align align in
    let pool := foldl (fun m p => Z.max m (p_end p)) 0 (map (to_placed a) offs) in
    compute_memory_plan g tvs align =
      Some (mkPlan (if pool >? 0 then [pool] else []) a
              (merge_sort by_id (map (fun p => mkPlacement (lt_id p.1) 0 p.2) offs))) /\
    map fst offs = sized_live g tvs /\
    Forall (good a (total_need a (sized_live g tvs))) offs /\
    StronglySorted (no_clash a) offs.
Proof.
  intros Ha Hfit. unfold compute_memory_plan. fold (plan_align align). fold (sized_live g tvs).
  set (a := plan_align align) in *.
  assert (0 < a) as Hpos by (unfold a, plan_align; case_if; bool_to_prop; lia).
  unfold plan_fits in Hfit. fold a in Hfit. rewrite <-(total_need_sized g tvs a Hpos) in Hfit.
  destruct (place_all_ok a Hpos (sized_live g tvs) [] 0) as (offs & Hp & Hf & Hg & Hs);
    [constructor|constructor|lia|apply sized_live_bytes|lia|].
  exists offs. cbv zeta. cbn [app map] in *. fold (plan_align align). fold a. rewrite Hp. done.
Qed.

Lemma placement_elem (offs : list (LiveTensor * Z)) p :
  p ∈ merge_sort by_id (map (fun p => mkPlacement (lt_id p.1) 0 p.2) offs) <->
  exists lt c, (lt, c) ∈ offs /\ p = mkPlacement (lt_id lt) 0 c.
Proof.
  rewrite merge_sort_Permutation, list_elem_of_fmap. split.
  - intros ([lt c] & -> & H). by exists lt, c.
  - intros (lt & c & H & ->). by exists (lt, c).
Qed.

Lemma max_end_ge l m : m <= foldl (fun m p => Z.max m (p_end p)) m l /\
  Forall (fun p => p_end p <= foldl (fun m p => Z.max m (p_end p)) m l) l.
Proof.
  revert m. induction l as [|p l IH]; intros m; cbn; [split; [lia|constructor]|].
  destruct (IH (Z.max m (p_end p))) as [H1 H2]. split; [lia|]. constructor; [lia|done].
Qed.

Lemma max_end_le l m b : m <= b -> Forall (fun p => p_end p <= b) l ->
  foldl (fun m p => Z.max m (p_end p)) m l <= b.
Proof. intros Hm H. revert m Hm. induction H as [|p l Hp _ IH]; intros m Hm; cbn; [done|]. apply IH. lia. Qed.

(** A live tensor of the table is live at every node between its uses. *)
Lemma live_range g tvs lt i :
  lt ∈ compute_liveness g tvs -> live_at g (lt_id lt) i ->
  first_use lt <= Z.of_nat i <= last_use lt.
Proof.
  intros Hlt (j & k & Hj & Hk & Hi).
  destruct (li_sound _ _ _ _ (compute_liveness_inv g tvs) lt Hlt) as (_ & _ & _ & _ & H).
  pose proof (H _ (proj2 (mentions_uses g (Z.of_nat j) (lt_id lt)) (ex_intro _ j (conj eq_refl Hj)))).
  pose proof (H _ (proj2 (mentions_uses g (Z.of_nat k) (lt_id lt)) (ex_intro _ k (conj eq_refl Hk)))).
  lia.
Qed.

Lemma no_clash_sym a x y : no_clash a x y -> no_clash a y x.
Proof. unfold no_clash, disjoint_in_time. tauto. Qed.

Lemma StronglySorted_pair {A} (R : A -> A -> Prop) l x y :
  (forall x y, R x y -> R y x) -> StronglySorted R l -> x ∈ l -> y ∈ l -> x <> y -> R x y.
Proof.
  intros Hsym. induction 1 as [|z l Hs IH Hz]; intros Hx Hy Hne; [set_solver|].
  rewrite Forall_forall in Hz. apply elem_of_cons in Hx as [->|Hx], Hy as [->|Hy]; auto. done.
Qed.

(** C5: memory safety of the plan: two placements that are both live at some
    node (mentioned at or before it, and at or after it) occupy disjoint byte
    ranges of the pool. *)
Theorem plan_no_overlap g tvs align plan p q i :
  0 <= align -> plan_fits g tvs align -> compute_memory_plan g tvs align = Some plan ->
  p ∈ placements plan -> q ∈ placements plan -> mp_id p <> mp_id q ->
  live_at g (mp_id p) i -> live_at g (mp_id q) i ->
  mp_offset p + size_of tvs (mp_id p) <= mp_offset q \/
  mp_offset q + size_of tvs (mp_id q) <= mp_offset p.
Proof.
  intros Ha Hfit Hplan Hp Hq Hne Lp Lq.
  assert (0 < plan_align align) as Hpos by (unfold plan_align; case_if; bool_to_prop; lia).
  destruct (plan_structure g tvs align Ha Hfit) as (offs & Hc & Hf & _ & Hs).
  rewrite Hplan in Hc. injection Hc as ->. cbn [placements] in *.
  apply placement_elem in Hp as (l1 & c1 & H1 & ->). apply placement_elem in Hq as (l2 & c2 & H2 & ->).
  cbn [mp_id mp_offset] in *.
  assert (forall l c, (l, c) ∈ offs -> l ∈ compute_liveness g tvs) as Hin.
  { intros l c Hl. assert (l ∈ sized_live g tvs) as Hl'.
    { rewrite <-Hf. apply list_elem_of_fmap. by exists (l, c). }
    by apply sized_live_elem in Hl' as [? _]. }
  pose proof (live_range g tvs l1 i (Hin _ _ H1) Lp). pose proof (live_range g tvs l2 i (Hin _ _ H2) Lq).
  destruct (li_sound _ _ _ _ (compute_liveness_inv g tvs) l1 (Hin _ _ H1)) as (_ & B1 & _).
  destruct (li_sound _ _ _ _ (compute_liveness_inv g tvs) l2 (Hin _ _ H2)) as (_ & B2 & _).
  pose proof (ceil_to_bounds (plan_align align) (lt_bytes l1) Hpos).
  pose proof (ceil_to_bounds (plan_align align) (lt_bytes l2) Hpos).
  assert (no_clash (plan_align align) (l1, c1) (l2, c2)) as Hd.
  { eapply StronglySorted_pair; [apply no_clash_sym|done|done|done|]. congruence. }
  unfold no_clash, disjoint_in_time, need_of in Hd. cbn in Hd. rewrite <-B1, <-B2. lia.
Qed.

Lemma plan_spec g tvs align :
  0 <= align -> plan_fits g tvs align ->
  exists plan, compute_memory_plan g tvs align = Some plan /\
    (forall id, id ∈ map mp_id (placements plan) <->
       (exists i, uses g i id) /\ tracked (graph_io g) tvs id /\ size_of tvs id <> 0) /\
    StronglySorted Z.le (map mp_id (placements plan)) /\ NoDup (map mp_id (placements plan)) /\
    forall p, p ∈ placements plan ->
      pool_index p = 0 /\ 0 <= mp_offset p /\ mp_offset p mod plan_align align = 0 /\
      exists s, pool_sizes plan = [s] /\ mp_offset p + size_of tvs (mp_id p) <= s <= 2 ^ 64 - plan_align align.
Proof.
  intros Ha Hfit.
  assert (0 < plan_align align) as Hpos by (unfold plan_align; case_if; bool_to_prop; lia).
  destruct (plan_structure g tvs align Ha Hfit) as (offs & Hc & Hf & Hg & Hs).
  eexists. split; [exact Hc|]. cbn [placements pool_sizes].
  set (a := plan_align align) in *.
  set (pool := foldl _ 0 (map (to_placed a) offs)).
  pose proof (compute_liveness_inv g tvs) as Hinv.
  assert (forall lt, lt ∈ sized_live g tvs <-> exists c, (lt, c) ∈ offs) as Hoffs.
  { intros lt. rewrite <-Hf. rewrite list_elem_of_fmap. split.
    - intros ([l c] & -> & H). by exists c.
    - intros [c H]. by exists (lt, c). }
  assert (forall l c, (l, c) ∈ offs -> lt_bytes l = size_of tvs (lt_id l) /\ lt_bytes l <> 0) as Hb.
  { intros l c Hl. assert (l ∈ sized_live g tvs) as [Hl1 Hl2]%sized_live_elem by (apply Hoffs; by exists c).
    split; [|done]. by apply (li_sound _ _ _ _ Hinv) in Hl1 as (_ & -> & _). }
  assert (map mp_id (merge_sort by_id (map (fun p => mkPlacement (lt_id p.1) 0 p.2) offs)) ≡ₚ
          map lt_id (sized_live g tvs)) as Hperm.
  { change (mp_id <$> merge_sort by_id (map (fun p => mkPlacement (lt_id p.1) 0 p.2) offs) ≡ₚ
      map lt_id (sized_live g tvs)).
    rewrite merge_sort_Permutation, <-Hf.
    change (mp_id <$> map ?f offs) with (map mp_id (map f offs)). by rewrite !map_map. }
  split; [|split; [|split]].
  - intros id. rewrite Hperm, list_elem_of_fmap. split.
    + intros (lt & -> & [Hlt Hz]%sized_live_elem).
      destruct (li_sound _ _ _ _ Hinv lt Hlt) as (Ht & Hsz & Hfu & _).
      apply mentions_uses in Hfu as (i & _ & Hi). rewrite <-Hsz. eauto.
    + intros ([i Hi] & Ht & Hz).
      destruct (li_complete _ _ _ _ Hinv (Z.of_nat i) id) as (lt & Hlt & <-); [|done|].
      { apply mentions_uses. by exists i. }
      exists lt. split; [done|]. apply sized_live_elem. split; [done|].
      by destruct (li_sound _ _ _ _ Hinv lt Hlt) as (_ & -> & _).
  - change (StronglySorted Z.le (mp_id <$> merge_sort by_id (map (fun p => mkPlacement (lt_id p.1) 0 p.2) offs))).
    apply (StronglySorted_fmap mp_id by_id); [done|]. apply StronglySorted_merge_sort; apply _.
  - rewrite Hperm. apply sized_live_nodup.
  - intros p (l & c & Hl & ->)%placement_elem. cbn. destruct (Hb l c Hl) as [Hsz Hz].
    rewrite Forall_forall in Hg. pose proof (Hg _ Hl) as (G1 & G2 & G3 & G4). cbn in *.
    split; [done|]. split; [done|]. split; [done|]. exists pool.
    destruct (max_end_ge (map (to_placed a) offs) 0) as [_ Hge]. fold pool in Hge.
    rewrite Forall_forall in Hge.
    specialize (Hge (to_placed a (l, c)) (list_elem_of_fmap_2 _ _ _ Hl)). cbn in Hge.
    pose proof (ceil_to_bounds a (lt_bytes l) Hpos) as Hn. fold (need_of a l) in Hn.
    pose proof (size_of_range tvs (lt_id l)).
    split.
    + destruct (Z.gtb_spec pool 0); [done|lia].
    + assert (pool <= total_need a (sized_live g tvs)).
      { apply max_end_le; [apply total_need_nonneg; [done|apply sized_live_bytes]|].
        apply Forall_forall. intros q (x & -> & Hx)%list_elem_of_fmap. apply (Hg x) in Hx as (_ & _ & _ & ?). done. }
      unfold plan_fits in Hfit. fold a in Hfit. rewrite total_need_sized in * by done. lia.
Qed.

(** C32: the planner terminates with a plan that places exactly the sized
    intermediates (mentioned by a node, neither graph input or output nor
    weight, of known non-zero size), once each and ordered by id, in one pool,
    at aligned offsets inside the pool. *)
Theorem plan_complete g tvs align :
  0 <= align -> plan_fits g tvs align ->
  exists plan, compute_memory_plan g tvs align = Some plan /\
    (forall id, id ∈ map mp_id (placements plan) <->
       (exists i, uses g i id) /\ tracked (graph_io g) tvs id /\ size_of tvs id <> 0) /\
    StronglySorted Z.le (map mp_id (placements plan)) /\ NoDup (map mp_id (placements plan)) /\
    forall p, p ∈ placements plan ->
      pool_index p = 0 /\ 0 <= mp_offset p /\ mp_offset p mod plan_align align = 0 /\
      exists s, pool_sizes plan = [s] /\ mp_offset p + size_of tvs (mp_id p) <= s <= 2 ^ 64 - plan_align align.
Proof. apply plan_spec. Qed.

(** The overflow sentinel does not protect: a tensor whose element count or
    byte size overflows [uint64_t] gets the size UINT64_MAX, which rounds up to
    0, so the planner gives it the empty slot [0, 0) on top of whatever is
    already placed, and the pool is not grown for it. *)
Theorem overflow_sentinel_gets_empty_slot tv align placed id first last :
  bytes_of tv = UINT64_MAX -> 2 <= align <= 2 ^ 64 ->
  Forall (fun p => 0 <= p_offset p) placed ->
  round_up (bytes_of tv) align = 0 /\
  place_one align placed (mkLive id (bytes_of tv) first last) =
    Some (0, placed ++ [mkPlaced 0 0 first last]).
Proof.
  intros Hb Ha Hp.
  assert (round_up (bytes_of tv) align = 0) as Hr.
  { rewrite Hb. unfold round_up, wrap, UINT64_MAX.
    replace (18446744073709551615 + align - 1) with (align - 2 + 1 * 2 ^ 64) by lia.
    rewrite Z.mod_add by lia. rewrite (Z.mod_small (align - 2)) by lia.
    rewrite Z.div_small by lia. done. }
  split; [done|]. unfold place_one. cbn [lt_bytes first_use last_use]. rewrite Hr. cbn [place_loop].
  destruct (find _ placed) as [p|] eqn:Hf; [|done]. exfalso.
  apply List.find_some in Hf as [Hin Hc]. rewrite Forall_forall in Hp.
  specialize (Hp p (proj2 (list_elem_of_In _ _) Hin)). cbn in Hp.
  apply andb_true_iff in Hc as [_ Hc]. unfold offset_overlaps in Hc.
  apply negb_true_iff, orb_false_iff in Hc as [Hc _]. apply Z.leb_gt in Hc.
  change (add64 0 0) with 0 in Hc. lia.
Qed.

(** An intermediate of shape [2^40, 2^40] is "placed" at offset 0 of no pool. *)
Definition huge_tv : TensorValue := mkTV 1 TS_Intermediate 0 [1099511627776; 1099511627776] 0 0 0.

Example huge_plan :
  compute_memory_plan (mkGraph [mkNode 0 [0] [1] default_attrs; mkNode 0 [1] [2] default_attrs] [0] [2])
    [default_tv; huge_tv; default_tv] 64 = Some (mkPlan [] 64 [mkPlacement 1 0 0]).
Proof. vm_compute. reflexivity. Qed.

Lemma overflow_sentinel_gets_empty_slot_witness :
  place_one 64 [mkPlaced 0 128 0 1] (mkLive 1 (bytes_of huge_tv) 0 1) =
    Some (0, [mkPlaced 0 128 0 1; mkPlaced 0 0 0 1]).
Proof.
  refine (proj2 (overflow_sentinel_gets_empty_slot huge_tv 64 [mkPlaced 0 128 0 1] 1 0 1 eq_refl _ _));
    [lia | repeat constructor; cbn; lia].
Defined.

Lemma chain_fits : plan_fits chain_graph chain_tvs 64.
Proof. vm_compute. discriminate. Qed.

Lemma plan_no_overlap_witness : 0 + size_of chain_tvs 1 <= 128 \/ 128 + size_of chain_tvs 2 <= 0.
Proof.
  refine (plan_no_overlap chain_graph chain_tvs 64 _ (mkPlacement 1 0 0) (mkPlacement 2 0 128) 1
    _ chain_fits chain_plan _ _ _ _ _); [lia| | | discriminate | |].
  - left.
  - right. left.
  - exists 0%nat, 1%nat. split; [|split; [|lia]]; eexists; (split; [reflexivity|]); [left|right; left].
  - exists 1%nat, 1%nat. split; [|split; [|lia]]; eexists; (split; [reflexivity|]); left.
Defined.

Lemma plan_complete_witness :
  exists plan, compute_memory_plan chain_graph chain_tvs 64 = Some plan /\
    NoDup (map mp_id (placements plan)).
Proof.
  destruct (plan_complete chain_graph chain_tvs 64 ltac:(lia) chain_fits) as (plan & H1 & _ & _ & H2 & _).
  exists plan. exact (conj H1 H2).
Defined.

End Planner.
