(* ===== verification/LiteFormat.v ===== *)
(** * The TZLITE model format: reader and writer

    Models src/lite/model_format.cpp and include/tenzor/lite/model_format.hpp.
    A buffer is the list of its bytes; a reader is given the buffer and the
    cursor [offset] and returns a value and the new cursor.  A [memcpy] past
    the end of the buffer is [UndefinedBehaviour], so that "no undefined
    behaviour" says that every read is inside.  File-stream failures are not
    modelled: a writer returns the bytes it puts in the file. *)

From stdpp Require Import base list numbers list_numbers strings gmap sorting.
From S2P Require Import Prelude Shape DType LiteGraph LitePlanner.
Import Planner.

Module Format.

(** ** Cursor primitives *)

Definition reader (A : Type) : Type := list Z -> Z -> result (A * Z).

#[export] Instance reader_ret : MRet reader := fun A a buf off => Ok (a, off).
#[export] Instance reader_bind : MBind reader :=
  fun A B f m buf off => let* ' (a, off) := m buf off in f a buf off.

Definition rd_throw {A} (e : exn) : reader A := fun _ _ => Err e.
Definition rd_throw_if (b : bool) (e : exn) : reader () := if b then rd_throw e else mret ().

(** [n] iterations of a read, collected in order. *)
Fixpoint rd_repeat {A} (n : nat) (r : reader A) : reader (list A) :=
  match n with
  | O => mret []
  | S n => x ← r; xs ← rd_repeat n r; mret (x :: xs)
  end.

Definition memcpy_from (buf : list Z) (off n : Z) : result (list Z) :=
  if (0 <=? off) && (0 <=? n) && (off + n <=? lenZ buf)
  then Ok (take (Z.to_nat n) (drop (Z.to_nat off) buf))
  else Err UndefinedBehaviour.

Definition err_eob : exn := RuntimeError "TZLiteReader: unexpected end of buffer".

Definition read_bytes (n : Z) : reader (list Z) := fun buf off =>
  let size := lenZ buf in
  if (off >? size) || (n >? size - off) then Err err_eob
  else let* bs := memcpy_from buf off n in Ok (bs, off + n).

(** [read_pod] of an unsigned and of a signed [w]-byte integer. *)
Definition read_uint (w : Z) : reader Z := bs ← read_bytes w; mret (little_endian_to_Z 8 bs).
Definition read_sint (w : Z) : reader Z := z ← read_uint w; mret (sgn (8 * w) z).

Definition check_element_count (count min_elem_bytes : Z) : reader () := fun buf off =>
  let size := lenZ buf in
  let remaining := if off <=? size then size - off else 0 in
  if count >? remaining / min_elem_bytes
  then Err (RuntimeError "TZLiteReader: count exceeds remaining payload") else Ok ((), off).

(** [append_pod] of a [w]-byte integer. *)
Definition append_pod (w v : Z) : list Z := Z_to_little_endian w 8 v.

Definition append_pods (w : Z) (l : list Z) : list Z := concat (map (append_pod w) l).

(** ** Node table *)

Definition TZLITE_MAGIC : Z := 0x544C5A54.
Definition TZLITE_VERSION : Z := 3.
Definition TZLITE_VERSION_MIN_SUPPORTED : Z := 1.
Definition TZLITE_TAG_TVAL : Z := 0x4C415654.
Definition TZLITE_TAG_WGTS : Z := 0x53544757.
Definition TZLITE_TAG_IOSP : Z := 0x50534F49.
Definition TZLITE_TAG_META : Z := 0x4154454D.
Definition TZLITE_TAG_MMPL : Z := 0x4C504D4D.

Definition err_tensor_id : exn :=
  RuntimeError "TZLiteWriter: graph has a tensor_id exceeding the int16_t wire limit (".
Definition err_arity : exn :=
  RuntimeError "TZLiteWriter: node arity exceeds the uint16_t wire limit (".

Definition serialise_extras (version : Z) (a : LiteAttributes) : list Z :=
  if version >=? 3
  then append_pod 4 (lenZ (extra_i a)) ++ append_pods 8 (extra_i a) ++
       append_pod 4 (lenZ (extra_f a)) ++ append_pods 4 (extra_f a)
  else [].

Definition serialise_node (version : Z) (n : LiteNode) : result (list Z) :=
  let* _ := throw_if ((lenZ (input_ids n) >? UINT16_MAX) || (lenZ (output_ids n) >? UINT16_MAX))
              err_arity in
  Ok (append_pod 2 (op n) ++
      append_pod 2 (lenZ (input_ids n)) ++ append_pods 2 (input_ids n) ++
      append_pod 2 (lenZ (output_ids n)) ++ append_pods 2 (output_ids n) ++
      append_pods 4 (attr_f (attrs n)) ++ append_pods 8 (attr_i (attrs n)) ++
      serialise_extras version (attrs n)).

Definition serialise_node_table (g : LiteGraph) (version : Z) : result (list Z) :=
  let* _ := throw_if (max_tensor_id g >? INT16_MAX) err_tensor_id in
  rmap (@concat Z) (rmapM (serialise_node version) (nodes g)).

(** A counted list of ids: [u16] count, bounds check, [i16] each. *)
Definition read_ids : reader (list Z) :=
  n ← read_uint 2;
  _ ← check_element_count n 2;
  rd_repeat (Z.to_nat n) (read_sint 2).

Definition read_extras (version : Z) : reader (list Z * list Z) :=
  if version >=? 3 then
    ec_i ← read_uint 4;
    _ ← check_element_count ec_i 8;
    ei ← rd_repeat (Z.to_nat ec_i) (read_sint 8);
    ec_f ← read_uint 4;
    _ ← check_element_count ec_f 4;
    ef ← rd_repeat (Z.to_nat ec_f) (read_uint 4);
    mret (ei, ef)
  else mret ([], []).

Definition deserialise_node (version : Z) : reader LiteNode :=
  op_raw ← read_uint 2;
  ins ← read_ids;
  outs ← read_ids;
  f ← rd_repeat 4 (read_uint 4);
  i ← rd_repeat 4 (read_sint 8);
  ex ← read_extras version;
  mret (mkNode op_raw ins outs (mkAttrs f i ex.1 ex.2)).

Definition deserialise_node_table (num_nodes version : Z) : reader LiteGraph :=
  ns ← rd_repeat (Z.to_nat num_nodes) (deserialise_node version);
  mret (foldl add_node empty_graph ns).

(** ** Section payloads *)

Definition build_tv (tv : TensorValue) : list Z :=
  append_pod 2 (tv_id tv) ++ append_pod 1 (source tv) ++ append_pod 1 (lenZ (tv_shape tv)) ++
  append_pod 2 (tv_dtype tv) ++ append_pod 4 (input_index tv) ++
  append_pod 8 (weight_offset tv) ++ append_pod 8 (weight_nbytes tv) ++
  append_pods 8 (tv_shape tv).

Definition build_tval_payload (tvs : list TensorValue) : list Z :=
  append_pod 4 (lenZ tvs) ++ concat (map build_tv tvs).

(** [static_cast<DType>] keeps the low byte of the [u16] on the wire. *)
Definition parse_tv : reader TensorValue :=
  id ← read_sint 2;
  _ ← rd_throw_if (id <? 0) (RuntimeError "TZLiteReader: negative tensor_id in TVAL section");
  src ← read_uint 1;
  ndim ← read_uint 1;
  dt ← read_uint 2;
  ii ← read_uint 4;
  wo ← read_uint 8;
  wn ← read_uint 8;
  _ ← check_element_count ndim 8;
  shape ← rd_repeat (Z.to_nat ndim) (read_sint 8);
  mret (mkTV id src (wrap 8 dt) shape wo wn ii).

Definition parse_tval_payload : reader (list TensorValue) :=
  count ← read_uint 4;
  _ ← check_element_count count 26;
  rd_repeat (Z.to_nat count) parse_tv.

Definition build_iosp_payload (inputs outputs : list Z) : list Z :=
  append_pod 4 (lenZ inputs) ++ append_pods 2 inputs ++
  append_pod 4 (lenZ outputs) ++ append_pods 2 outputs.

Definition read_io_ids (what : exn) : reader (list Z) :=
  n ← read_uint 4;
  _ ← check_element_count n 2;
  rd_repeat (Z.to_nat n) (id ← read_sint 2; _ ← rd_throw_if (id <? 0) what; mret id).

Definition parse_iosp_payload : reader (list Z * list Z) :=
  ins ← read_io_ids (RuntimeError "TZLiteReader: negative input tensor_id in IOSP section");
  outs ← read_io_ids (RuntimeError "TZLiteReader: negative output tensor_id in IOSP section");
  mret (ins, outs).

(** The metadata map is given in its iteration order. *)
Definition build_meta_payload (m : list (list Z * list Z)) : list Z :=
  append_pod 4 (lenZ m) ++
  concat (map (fun kv => append_pod 4 (lenZ kv.1) ++ kv.1 ++ append_pod 4 (lenZ kv.2) ++ kv.2) m).

(** A [u32] length, checked against the remaining bytes, and the string. *)
Definition check_length (len : Z) (what : exn) : reader () := fun buf off =>
  if (off >? lenZ buf) || (len >? lenZ buf - off) then Err what else Ok ((), off).

Definition read_string (what : exn) : reader (list Z) :=
  len ← read_uint 4;
  _ ← check_length len what;
  read_bytes len.

Definition parse_meta_entry : reader (list Z * list Z) :=
  k ← read_string (RuntimeError "TZLiteReader: META key length exceeds remaining payload");
  v ← read_string (RuntimeError "TZLiteReader: META value length exceeds remaining payload");
  mret (k, v).

(** [emplace] keeps the first value of a key. *)
Definition emplace (m : gmap (list Z) (list Z)) (kv : list Z * list Z) : gmap (list Z) (list Z) :=
  match m !! kv.1 with Some _ => m | None => <[kv.1 := kv.2]> m end.

Definition parse_meta_payload : reader (gmap (list Z) (list Z)) :=
  count ← read_uint 4;
  _ ← check_element_count count 8;
  l ← rd_repeat (Z.to_nat count) parse_meta_entry;
  mret (foldl emplace ∅ l).

Definition build_placement (p : MmplPlacement) : list Z :=
  append_pod 2 (mp_id p) ++ append_pod 1 (pool_index p) ++ append_pod 8 (mp_offset p).

Definition build_mmpl_payload (plan : MmplPlan) : list Z :=
  append_pod 8 (alignment plan) ++
  append_pod 4 (lenZ (pool_sizes plan)) ++ append_pods 8 (pool_sizes plan) ++
  append_pod 4 (lenZ (placements plan)) ++ concat (map build_placement (placements plan)).

Definition parse_placement : reader MmplPlacement :=
  id ← read_sint 2;
  _ ← rd_throw_if (id <? 0) (RuntimeError "TZLiteReader: negative tensor_id in MMPL placement");
  pool ← read_uint 1;
  off ← read_uint 8;
  mret (mkPlacement id pool off).

Definition parse_mmpl_payload : reader MmplPlan :=
  align ← read_uint 8;
  num_pools ← read_uint 4;
  _ ← check_element_count num_pools 8;
  pools ← rd_repeat (Z.to_nat num_pools) (read_uint 8);
  num_placements ← read_uint 4;
  _ ← check_element_count num_placements 11;
  ps ← rd_repeat (Z.to_nat num_placements) parse_placement;
  mret (mkPlan pools (if align =? 0 then 64 else align) ps).

(** ** [TZLiteReader::load_full] *)

Record TZLiteHeader := mkHeader {
  magic : Z; version : Z; h_num_nodes : Z; num_weights : Z; weight_data_offset : Z
}.

Record LoadedModel := mkModel {
  m_graph : LiteGraph;
  tensor_values : list TensorValue;
  weight_blob : list Z;
  m_inputs : list Z;
  m_outputs : list Z;
  metadata : gmap (list Z) (list Z);
  memory_plan : option MmplPlan
}.

Definition HEADER_SIZE : Z := 24.

Definition read_header : reader TZLiteHeader :=
  m ← read_uint 4; v ← read_uint 4; n ← read_uint 4; w ← read_uint 4; o ← read_uint 8;
  mret (mkHeader m v n w o).

(** A sub-parser runs on its payload alone, with a fresh cursor. *)
Definition run_payload {A} (r : reader A) (payload : list Z) : result A :=
  let* ' (a, _) := r payload 0 in Ok a.

Definition parse_section (tag : Z) (payload : list Z) (m : LoadedModel) : result LoadedModel :=
  if tag =? TZLITE_TAG_TVAL then
    let* tvs := run_payload parse_tval_payload payload in
    Ok (mkModel (m_graph m) tvs (weight_blob m) (m_inputs m) (m_outputs m) (metadata m) (memory_plan m))
  else if tag =? TZLITE_TAG_WGTS then
    Ok (mkModel (m_graph m) (tensor_values m) payload (m_inputs m) (m_outputs m) (metadata m) (memory_plan m))
  else if tag =? TZLITE_TAG_IOSP then
    let* io := run_payload parse_iosp_payload payload in
    Ok (mkModel (m_graph m) (tensor_values m) (weight_blob m) io.1 io.2 (metadata m) (memory_plan m))
  else if tag =? TZLITE_TAG_META then
    let* md := run_payload parse_meta_payload payload in
    Ok (mkModel (m_graph m) (tensor_values m) (weight_blob m) (m_inputs m) (m_outputs m) md (memory_plan m))
  else if tag =? TZLITE_TAG_MMPL then
    let* plan := run_payload parse_mmpl_payload payload in
    Ok (mkModel (m_graph m) (tensor_values m) (weight_blob m) (m_inputs m) (m_outputs m) (metadata m) (Some plan))
  else Ok m.

(** The payload of a section, as a buffer of its own. *)
Definition read_payload (section_size : Z) : reader (list Z) := fun buf off =>
  if (off >? lenZ buf) || (section_size >? lenZ buf - off)
  then Err (RuntimeError "TZLiteReader: TLV section overruns end of buffer")
  else let* payload := memcpy_from buf off section_size in Ok (payload, off + section_size).

Definition rd_lift {A} (m : result A) : reader A := fun _ off => rmap (fun a => (a, off)) m.

Definition read_section (m : LoadedModel) : reader LoadedModel :=
  tag ← read_uint 4;
  section_size ← read_uint 8;
  payload ← read_payload section_size;
  rd_lift (parse_section tag payload m).

Fixpoint read_sections (n : nat) (m : LoadedModel) : reader LoadedModel :=
  match n with
  | O => mret m
  | S n => m ← read_section m; read_sections n m
  end.

(** The I/O ids are handed to the graph when there are any. *)
Definition hand_over_io (m : LoadedModel) : LoadedModel :=
  let g := m_graph m in
  let g := match m_inputs m with [] => g | _ => set_input_ids g (m_inputs m) end in
  let g := match m_outputs m with [] => g | _ => set_output_ids g (m_outputs m) end in
  mkModel g (tensor_values m) (weight_blob m) (m_inputs m) (m_outputs m) (metadata m) (memory_plan m).

Definition read_tlv (m : LoadedModel) : reader LoadedModel :=
  section_count ← read_uint 4;
  _ ← check_element_count section_count 12;
  m ← read_sections (Z.to_nat section_count) m;
  mret (hand_over_io m).

Definition load_full (buf : list Z) : result LoadedModel :=
  let size := lenZ buf in
  let* _ := throw_if (size <? HEADER_SIZE) (RuntimeError "TZLiteReader: invalid input data") in
  let* ' (header, offset) := read_header buf 0 in
  let* _ := throw_if (negb (magic header =? TZLITE_MAGIC))
              (RuntimeError "TZLiteReader: bad magic — not a TZLITE file") in
  let* _ := throw_if ((version header <? TZLITE_VERSION_MIN_SUPPORTED) ||
                      (version header >? TZLITE_VERSION))
              (RuntimeError "TZLiteReader: unsupported TZLITE version ") in
  let* ' (g, offset) := deserialise_node_table (h_num_nodes header) (version header) buf HEADER_SIZE in
  let m := mkModel g [] [] [] [] ∅ None in
  let tlv_start := weight_data_offset header in
  if tlv_start <? size then
    let* _ := throw_if (tlv_start <? offset)
                (RuntimeError "TZLiteReader: weight_data_offset overlaps the node table") in
    let* ' (m, _) := read_tlv m buf tlv_start in
    Ok m
  else Ok m.

(** [TZLiteReader::load]. *)
Definition load (buf : list Z) : result LiteGraph := rmap m_graph (load_full buf).

(** ** [TZLiteWriter::save] *)

Definition build_header (h : TZLiteHeader) : list Z :=
  append_pod 4 (magic h) ++ append_pod 4 (version h) ++ append_pod 4 (h_num_nodes h) ++
  append_pod 4 (num_weights h) ++ append_pod 8 (weight_data_offset h).

Definition node_table_bytes (n : LiteNode) : Z :=
  2 + 2 + lenZ (input_ids n) * 2 + 2 + lenZ (output_ids n) * 2 + 4 * 4 + 4 * 8 +
  (if TZLITE_VERSION >=? 3
   then 4 + lenZ (extra_i (attrs n)) * 8 + 4 + lenZ (extra_f (attrs n)) * 4 else 0).

Definition compute_node_table_size (g : LiteGraph) : Z :=
  foldl (fun bytes n => bytes + node_table_bytes n) 0 (nodes g).

(** The graph-only [save]. *)
Definition save_graph (g : LiteGraph) : result (list Z) :=
  let* node_bytes := serialise_node_table g TZLITE_VERSION in
  Ok (build_header (mkHeader TZLITE_MAGIC TZLITE_VERSION (num_nodes g) 0
                      (HEADER_SIZE + compute_node_table_size g)) ++ node_bytes).

(** What the writer sees of a weight: its dtype, its shape and the bytes of
    its contiguous CPU copy. *)
Record TensorData := mkTensorData { td_dtype : Z; td_shape : list Z; td_bytes : list Z }.

Definition td_nbytes (t : TensorData) : Z :=
  wrap 64 (prodZ (td_shape t) * dtype_size_raw (td_dtype t)).

Record WriteOptions := mkOpts {
  weights : gmap Z TensorData;
  o_inputs : list Z;
  o_outputs : list Z;
  input_specs : gmap Z (Z * list Z);
  o_metadata : list (list Z * list Z);     (* in iteration order *)
  o_plan : option MmplPlan
}.

Definition weight_ids (opts : WriteOptions) : list Z :=
  merge_sort Z.le (elements (dom (weights opts))).

(** The WGTS payload and the location of each weight in it. *)
Definition append_weight (opts : WriteOptions) (st : list Z * list (Z * (Z * Z))) (tid : Z)
  : list Z * list (Z * (Z * Z)) :=
  match weights opts !! tid with
  | None => st
  | Some t =>
      let '(payload, locs) := st in
      (payload ++ take (Z.to_nat (td_nbytes t)) (td_bytes t),
       locs ++ [(tid, (lenZ payload, td_nbytes t))])
  end.

Definition weight_layout (opts : WriteOptions) : list Z * list (Z * (Z * Z)) :=
  foldl (append_weight opts) ([], []) (weight_ids opts).

(** [add_or_update] returns a reference the caller writes through ([upd]). *)
Fixpoint add_or_update (tvs : list TensorValue) (tid src : Z)
    (upd : TensorValue -> TensorValue) : list TensorValue :=
  match tvs with
  | [] => [upd (mkTV tid src 0 [] 0 0 0)]
  | tv :: tvs =>
      if tv_id tv =? tid
      then upd (mkTV (tv_id tv) src (tv_dtype tv) (tv_shape tv) (weight_offset tv)
                  (weight_nbytes tv) (input_index tv)) :: tvs
      else tv :: add_or_update tvs tid src upd
  end.

Definition declare_input (opts : WriteOptions) (i : Z) (tv : TensorValue) : TensorValue :=
  let tv := mkTV (tv_id tv) (source tv) (tv_dtype tv) (tv_shape tv) (weight_offset tv)
              (weight_nbytes tv) (wrap 32 i) in
  match input_specs opts !! tv_id tv with
  | Some (dt, shape) =>
      mkTV (tv_id tv) (source tv) dt shape (weight_offset tv) (weight_nbytes tv) (input_index tv)
  | None => tv
  end.

Definition declare_weight (t : TensorData) (loc : Z * Z) (tv : TensorValue) : TensorValue :=
  mkTV (tv_id tv) (source tv) (td_dtype t) (td_shape t) loc.1 loc.2 (input_index tv).

Definition add_weight (opts : WriteOptions) (tvs : list TensorValue) (l : Z * (Z * Z))
  : list TensorValue :=
  match weights opts !! l.1 with
  | Some t => add_or_update tvs l.1 TS_Weight (declare_weight t l.2)
  | None => tvs
  end.

Definition by_tv_id (a b : TensorValue) : Prop := tv_id a <= tv_id b.

#[export] Instance by_tv_id_dec : RelDecision by_tv_id.
Proof. unfold by_tv_id. intros a b. apply _. Defined.

Definition build_tvs (g : LiteGraph) (opts : WriteOptions) : list TensorValue :=
  let tvs := foldl (fun tvs p => add_or_update tvs p.2 TS_Input (declare_input opts (Z.of_nat p.1)))
               [] (zip (seq 0 (length (o_inputs opts))) (o_inputs opts)) in
  let tvs := foldl (add_weight opts) tvs (weight_layout opts).2 in
  let tvs := foldl (fun tvs id => add_or_update tvs id TS_Intermediate (fun tv => tv)) tvs (o_outputs opts) in
  let tvs := foldl (fun tvs n => foldl (fun tvs id => add_or_update tvs id TS_Intermediate (fun tv => tv))
                                   tvs (output_ids n)) tvs (nodes g) in
  merge_sort by_tv_id tvs.

Definition write_section (tag : Z) (payload : list Z) : list Z :=
  append_pod 4 tag ++ append_pod 8 (lenZ payload) ++ payload.

Definition is_nil {A} (l : list A) : bool := match l with [] => true | _ => false end.

(** The sections in their fixed order. *)
Definition tlv_sections (opts : WriteOptions) (tvs : list TensorValue) : list (Z * list Z) :=
  [(TZLITE_TAG_TVAL, build_tval_payload tvs)] ++
  (if is_nil (weight_layout opts).1 then [] else [(TZLITE_TAG_WGTS, (weight_layout opts).1)]) ++
  (if is_nil (o_inputs opts) && is_nil (o_outputs opts) then []
   else [(TZLITE_TAG_IOSP, build_iosp_payload (o_inputs opts) (o_outputs opts))]) ++
  (if is_nil (o_metadata opts) then [] else [(TZLITE_TAG_META, build_meta_payload (o_metadata opts))]) ++
  (match o_plan opts with None => [] | Some plan => [(TZLITE_TAG_MMPL, build_mmpl_payload plan)] end).

Definition section_count (opts : WriteOptions) : Z :=
  1 + (if is_nil (weight_layout opts).1 then 0 else 1) +
  (if is_nil (o_inputs opts) && is_nil (o_outputs opts) then 0 else 1) +
  (if is_nil (o_metadata opts) then 0 else 1) +
  (match o_plan opts with None => 0 | Some _ => 1 end).

(** The full [save]. *)
Definition save (g : LiteGraph) (opts : WriteOptions) : result (list Z) :=
  let tvs := build_tvs g opts in
  let* node_bytes := serialise_node_table g TZLITE_VERSION in
  let header := mkHeader TZLITE_MAGIC TZLITE_VERSION (num_nodes g) (lenZ (weight_ids opts))
                  (HEADER_SIZE + lenZ node_bytes) in
  Ok (build_header header ++ node_bytes ++ append_pod 4 (section_count opts) ++
      concat (map (fun s => write_section s.1 s.2) (tlv_sections opts tvs))).

(** ** Encodings

    [parses r enc a]: wherever [enc] stands in a buffer, [r] reads [a] and
    leaves the cursor behind it. *)

Definition parses {A} (r : reader A) (enc : list Z) (a : A) : Prop :=
  forall pre post, r (pre ++ enc ++ post) (lenZ pre) = Ok (a, lenZ pre + lenZ enc).

Lemma parses_ret {A} (a : A) : parses (mret a) [] a.
Proof. intros pre post. cbn. unfold mret, reader_ret. do 2 f_equal. unfold lenZ. cbn. lia. Qed.

Lemma parses_bind {A B} (m : reader A) (f : A -> reader B) e1 e2 a b :
  parses m e1 a -> parses (f a) e2 b -> parses (m ≫= f) (e1 ++ e2) b.
Proof.
  intros H1 H2 pre post. unfold mbind, reader_bind. rewrite <-app_assoc, H1. cbn.
  replace (pre ++ e1 ++ e2 ++ post) with ((pre ++ e1) ++ e2 ++ post) by (by rewrite <-app_assoc).
  rewrite <-lenZ_app, H2. do 2 f_equal. rewrite !lenZ_app. lia.
Qed.

(** The last read of a block. *)
Lemma parses_last {A B} (m : reader A) (f : A -> B) e a :
  parses m e a -> parses (x ← m; mret (f x)) e (f a).
Proof. intros H. rewrite <-(app_nil_r e). eapply parses_bind; [done|]. apply parses_ret. Qed.

(** A guard that lets the rest of the block through. *)
Lemma parses_throw_if {B} b w (k : reader B) e x :
  b = false -> parses k e x -> parses (_ ← rd_throw_if b w; k) e x.
Proof. intros -> H. by apply (parses_bind _ _ [] e ()); [apply parses_ret|]. Qed.

Lemma parses_check {B} count m (k : reader B) e x :
  0 < m -> count * m <= lenZ e -> parses k e x -> parses (_ ← check_element_count count m; k) e x.
Proof.
  intros Hm Hle H pre post. unfold mbind, reader_bind, check_element_count.
  pose proof (lenZ_nonneg post). pose proof (lenZ_nonneg e).
  rewrite !lenZ_app. destruct (Z.leb_spec (lenZ pre) (lenZ pre + (lenZ e + lenZ post))); [|lia].
  destruct (Z.gtb_spec count ((lenZ pre + (lenZ e + lenZ post) - lenZ pre) / m)) as [Hc|Hc]; [|apply H].
  exfalso. assert (count <= (lenZ pre + (lenZ e + lenZ post) - lenZ pre) / m); [|lia].
  apply Z.div_le_lower_bound; lia.
Qed.

Lemma parses_check_length {B} len w (k : reader B) e x :
  len <= lenZ e -> parses k e x -> parses (_ ← check_length len w; k) e x.
Proof.
  intros Hle H pre post. unfold mbind, reader_bind, check_length. rewrite !lenZ_app.
  pose proof (lenZ_nonneg post). pose proof (lenZ_nonneg e).
  destruct (Z.gtb_spec (lenZ pre) (lenZ pre + (lenZ e + lenZ post))); [lia|].
  destruct (Z.gtb_spec len (lenZ pre + (lenZ e + lenZ post) - lenZ pre)); [lia|]. apply H.
Qed.

Lemma memcpy_from_mid pre bs post : memcpy_from (pre ++ bs ++ post) (lenZ pre) (lenZ bs) = Ok bs.
Proof.
  unfold memcpy_from. rewrite !lenZ_app.
  pose proof (lenZ_nonneg pre). pose proof (lenZ_nonneg bs). pose proof (lenZ_nonneg post).
  destruct (Z.leb_spec 0 (lenZ pre)), (Z.leb_spec 0 (lenZ bs)),
    (Z.leb_spec (lenZ pre + lenZ bs) (lenZ pre + (lenZ bs + lenZ post))); try lia. cbn.
  unfold lenZ. by rewrite !Nat2Z.id, drop_app_length, take_app_length.
Qed.

Lemma read_guard (pre bs post : list Z) :
  (lenZ pre >? lenZ (pre ++ bs ++ post)) || (lenZ bs >? lenZ (pre ++ bs ++ post) - lenZ pre) = false.
Proof.
  rewrite !lenZ_app. pose proof (lenZ_nonneg bs). pose proof (lenZ_nonneg post).
  destruct (Z.gtb_spec (lenZ pre) (lenZ pre + (lenZ bs + lenZ post))); [lia|].
  destruct (Z.gtb_spec (lenZ bs) (lenZ pre + (lenZ bs + lenZ post) - lenZ pre)); [lia|done].
Qed.

Lemma parses_bytes bs n : lenZ bs = n -> parses (read_bytes n) bs bs.
Proof. intros <- pre post. unfold read_bytes. by rewrite read_guard, memcpy_from_mid. Qed.

Lemma parses_payload bs n : lenZ bs = n -> parses (read_payload n) bs bs.
Proof. intros <- pre post. unfold read_payload. by rewrite read_guard, memcpy_from_mid. Qed.

Lemma lenZ_append_pod w v : 0 <= w -> lenZ (append_pod w v) = w.
Proof. intros. unfold lenZ, append_pod. by apply length_Z_to_little_endian. Qed.

Lemma lenZ_append_pods w l : 0 <= w -> lenZ (append_pods w l) = lenZ l * w.
Proof.
  intros Hw. unfold append_pods. induction l as [|v l IH]; [done|].
  cbn [map concat]. rewrite lenZ_app, IH, lenZ_append_pod, lenZ_cons by done. lia.
Qed.

Lemma parses_uint w v : 0 <= w -> 0 <= v < 2 ^ (8 * w) -> parses (read_uint w) (append_pod w v) v.
Proof.
  intros Hw Hv. replace v with (little_endian_to_Z 8 (append_pod w v)) at 2.
  - apply parses_last, parses_bytes. by apply lenZ_append_pod.
  - unfold append_pod. rewrite little_endian_to_Z_to_little_endian by lia.
    apply Z.mod_small. by rewrite (Z.mul_comm w).
Qed.

Lemma append_pod_wrap w v : 0 <= w -> append_pod w (wrap (8 * w) v) = append_pod w v.
Proof.
  intros Hw. unfold append_pod.
  assert (forall z, Z_to_little_endian w 8 (little_endian_to_Z 8 (Z_to_little_endian w 8 z)) =
                    Z_to_little_endian w 8 z) as H.
  { intros z. apply Z_to_little_endian_to_Z; [symmetry; by apply length_Z_to_little_endian|lia|].
    apply Z_to_little_endian_bound; lia. }
  rewrite <-(H v). rewrite little_endian_to_Z_to_little_endian by lia.
  unfold wrap. by rewrite (Z.mul_comm 8).
Qed.

Lemma parses_sint w v :
  0 < w -> - 2 ^ (8 * w - 1) <= v < 2 ^ (8 * w - 1) -> parses (read_sint w) (append_pod w v) v.
Proof.
  intros Hw Hv. replace v with (sgn (8 * w) (wrap (8 * w) v)) at 2.
  - rewrite <-append_pod_wrap by lia. apply parses_last, parses_uint; [lia|]. apply wrap_bound. lia.
  - rewrite sgn_wrap by lia. apply sgn_small; lia.
Qed.

Lemma parses_repeat {A} (r : reader A) (enc : A -> list Z) l n :
  n = length l -> Forall (fun a => parses r (enc a) a) l -> parses (rd_repeat n r) (concat (map enc l)) l.
Proof.
  intros ->. induction 1 as [|a l Ha _ IH]; cbn; [apply parses_ret|].
  eapply parses_bind; [done|]. by apply (parses_last _ (cons a)).
Qed.

(** A counted sequence: the count fits the guard by the length of its body. *)
Lemma Z_to_nat_lenZ {A} (l : list A) : Z.to_nat (lenZ l) = length l.
Proof. unfold lenZ. apply Nat2Z.id. Qed.

Lemma concat_map_lenZ_ge {A} (enc : A -> list Z) (m : Z) l :
  (forall a, m <= lenZ (enc a)) -> lenZ l * m <= lenZ (concat (map enc l)).
Proof.
  intros H. induction l as [|a l IH]; [done|]. cbn [map concat].
  rewrite lenZ_cons, lenZ_app. specialize (H a). lia.
Qed.

Lemma run_payload_parses {A} (r : reader A) enc a : parses r enc a -> run_payload r enc = Ok a.
Proof.
  intros H. unfold run_payload. specialize (H [] []). rewrite app_nil_r in H.
  cbn [app] in H. change (lenZ (@nil Z)) with 0 in H. by rewrite H.
Qed.

(** ** Well-formed data: what the C++ types and the format can hold *)

Definition u16 (z : Z) : Prop := 0 <= z < 2 ^ 16.
Definition u32 (z : Z) : Prop := 0 <= z < 2 ^ 32.
Definition u64 (z : Z) : Prop := 0 <= z < 2 ^ 64.
Definition s16 (z : Z) : Prop := - 2 ^ 15 <= z < 2 ^ 15.
Definition s64 (z : Z) : Prop := - 2 ^ 63 <= z < 2 ^ 63.
Definition byte (z : Z) : Prop := 0 <= z < 2 ^ 8.

Record node_wf (n : LiteNode) : Prop := {
  nw_op : u16 (op n);
  nw_in : Forall s16 (input_ids n);
  nw_out : Forall s16 (output_ids n);
  nw_f : length (attr_f (attrs n)) = 4%nat /\ Forall u32 (attr_f (attrs n));
  nw_i : length (attr_i (attrs n)) = 4%nat /\ Forall s64 (attr_i (attrs n));
  nw_ei : lenZ (extra_i (attrs n)) < 2 ^ 32 /\ Forall s64 (extra_i (attrs n));
  nw_ef : lenZ (extra_f (attrs n)) < 2 ^ 32 /\ Forall u32 (extra_f (attrs n))
}.

Record tv_wf (tv : TensorValue) : Prop := {
  tw_id : 0 <= tv_id tv <= INT16_MAX;
  tw_source : byte (source tv);
  tw_dtype : byte (tv_dtype tv);
  tw_shape : lenZ (tv_shape tv) <= 255 /\ Forall s64 (tv_shape tv);
  tw_off : u64 (weight_offset tv);
  tw_nbytes : u64 (weight_nbytes tv);
  tw_index : u32 (input_index tv)
}.

Definition io_wf (ids : list Z) : Prop := lenZ ids < 2 ^ 32 /\ Forall id_ok ids.

Record plan_wf (p : MmplPlan) : Prop := {
  pw_pools : lenZ (pool_sizes p) < 2 ^ 32 /\ Forall u64 (pool_sizes p);
  pw_align : 0 < alignment p < 2 ^ 64;
  pw_places : lenZ (placements p) < 2 ^ 32 /\
    Forall (fun x => id_ok (mp_id x) /\ byte (pool_index x) /\ u64 (mp_offset x)) (placements p)
}.

Definition meta_wf (m : list (list Z * list Z)) : Prop :=
  lenZ m < 2 ^ 32 /\ Forall (fun kv => lenZ kv.1 < 2 ^ 32 /\ lenZ kv.2 < 2 ^ 32) m /\
  NoDup (map fst m).

(** ** Round trips of the parts *)

#[local] Hint Resolve lenZ_append_pod lenZ_append_pods : tz.

Lemma parses_uints w l :
  0 < w -> Forall (fun v => 0 <= v < 2 ^ (8 * w)) l ->
  parses (rd_repeat (length l) (read_uint w)) (append_pods w l) l.
Proof.
  intros Hw Hl. apply parses_repeat; [done|]. eapply Forall_impl; [done|].
  intros v Hv. apply parses_uint; [lia|done].
Qed.

Lemma parses_sints w l :
  0 < w -> Forall (fun v => - 2 ^ (8 * w - 1) <= v < 2 ^ (8 * w - 1)) l ->
  parses (rd_repeat (length l) (read_sint w)) (append_pods w l) l.
Proof.
  intros Hw Hl. apply parses_repeat; [done|]. eapply Forall_impl; [done|].
  intros v Hv. by apply parses_sint.
Qed.

(** [append_pod wc (lenZ l) ++ append_pods w l] with the reader's count check. *)
Lemma parses_counted {A B} (wc m : Z) (r : reader A) (enc : A -> list Z) (f : list A -> B) l :
  0 < wc -> 0 < m -> lenZ l < 2 ^ (8 * wc) -> (forall a, m <= lenZ (enc a)) ->
  Forall (fun a => parses r (enc a) a) l ->
  parses (n ← read_uint wc; _ ← check_element_count n m; x ← rd_repeat (Z.to_nat n) r; mret (f x))
    (append_pod wc (lenZ l) ++ concat (map enc l)) (f l).
Proof.
  intros Hwc Hm Hlen Henc Hl. pose proof (lenZ_nonneg l).
  eapply parses_bind; [apply parses_uint; lia|].
  apply parses_check; [done|by apply concat_map_lenZ_ge|].
  apply parses_last, parses_repeat; [apply Z_to_nat_lenZ|done].
Qed.

Lemma parses_counted_id {A} (wc m : Z) (r : reader A) (enc : A -> list Z) l :
  0 < wc -> 0 < m -> lenZ l < 2 ^ (8 * wc) -> (forall a, m <= lenZ (enc a)) ->
  Forall (fun a => parses r (enc a) a) l ->
  parses (n ← read_uint wc; _ ← check_element_count n m; rd_repeat (Z.to_nat n) r)
    (append_pod wc (lenZ l) ++ concat (map enc l)) l.
Proof.
  intros Hwc Hm Hlen Henc Hl. pose proof (lenZ_nonneg l).
  eapply parses_bind; [apply parses_uint; lia|].
  apply parses_check; [done|by apply concat_map_lenZ_ge|].
  apply parses_repeat; [apply Z_to_nat_lenZ|done].
Qed.

Lemma parses_ids l :
  lenZ l <= UINT16_MAX -> Forall s16 l ->
  parses read_ids (append_pod 2 (lenZ l) ++ append_pods 2 l) l.
Proof.
  intros Hlen Hl. apply parses_counted_id; [lia|lia|unfold UINT16_MAX in *; lia| |].
  - intros a. rewrite lenZ_append_pod; lia.
  - eapply Forall_impl; [done|]. intros v Hv. apply parses_sint; [lia|]. exact Hv.
Qed.

Lemma parses_extras a :
  lenZ (extra_i a) < 2 ^ 32 /\ Forall s64 (extra_i a) ->
  lenZ (extra_f a) < 2 ^ 32 /\ Forall u32 (extra_f a) ->
  parses (read_extras 3) (serialise_extras 3 a) (extra_i a, extra_f a).
Proof.
  intros [Li Hi] [Lf Hf]. unfold read_extras, serialise_extras. change (3 >=? 3) with true. cbv iota.
  pose proof (lenZ_nonneg (extra_i a)). pose proof (lenZ_nonneg (extra_f a)).
  eapply parses_bind; [apply parses_uint; lia|].
  apply parses_check; [lia|rewrite lenZ_app, lenZ_append_pods by lia; pose proof (lenZ_nonneg
    (append_pod 4 (lenZ (extra_f a)) ++ append_pods 4 (extra_f a))); lia|].
  rewrite Z_to_nat_lenZ. eapply parses_bind; [apply parses_sints; [lia|exact Hi]|].
  eapply parses_bind; [apply parses_uint; lia|].
  apply parses_check; [lia|rewrite lenZ_append_pods by lia; lia|].
  rewrite Z_to_nat_lenZ. apply (parses_last _ (fun x => (extra_i a, x))).
  apply parses_uints; [lia|exact Hf].
Qed.

Lemma parses_node n enc :
  node_wf n -> serialise_node 3 n = Ok enc -> parses (deserialise_node 3) enc n.
Proof.
  intros [Hop Hin Hout [Lf Hf] [Li Hi] Hei Hef] Hs. unfold serialise_node in Hs.
  apply rbind_Ok in Hs as (u & Hu & <-%Ok_inj). apply throw_if_Ok in Hu. bool_to_prop.
  pose proof (parses_ids (input_ids n) ltac:(lia) Hin) as Rin.
  pose proof (parses_ids (output_ids n) ltac:(lia) Hout) as Rout.
  rewrite (app_assoc (append_pod 2 (lenZ (input_ids n)))), (app_assoc (append_pod 2 (lenZ (output_ids n)))).
  unfold deserialise_node.
  eapply parses_bind; [apply parses_uint; [lia|exact Hop]|].
  eapply parses_bind; [exact Rin|]. eapply parses_bind; [exact Rout|].
  eapply parses_bind; [rewrite <-Lf; apply parses_uints; [lia|exact Hf]|].
  eapply parses_bind; [rewrite <-Li; apply parses_sints; [lia|exact Hi]|].
  pose proof (parses_last _ (fun ex => mkNode (op n) (input_ids n) (output_ids n)
    (mkAttrs (attr_f (attrs n)) (attr_i (attrs n)) ex.1 ex.2)) _ _ (parses_extras _ Hei Hef)) as R.
  cbn beta in R. destruct n as [? ? ? []]. exact R.
Qed.

Lemma parses_nodes ns encs :
  Forall node_wf ns -> rmapM (serialise_node 3) ns = Ok encs ->
  parses (rd_repeat (length ns) (deserialise_node 3)) (concat encs) ns.
Proof.
  intros Hns H%rmapM_Ok. induction H as [|n enc ns encs Hn _ IH]; cbn; [apply parses_ret|].
  apply Forall_cons in Hns as [Hw Hns]. eapply parses_bind; [by apply parses_node|].
  apply (parses_last _ (cons n)). by apply IH.
Qed.

Lemma foldl_add_node ns g : foldl add_node g ns = mkGraph (nodes g ++ ns) (g_inputs g) (g_outputs g).
Proof.
  revert g. induction ns as [|n ns IH]; intros g; cbn; [by destruct g; rewrite app_nil_r|].
  rewrite IH. cbn. by rewrite <-app_assoc.
Qed.

Lemma parses_node_table g enc :
  lenZ (nodes g) < 2 ^ 32 -> Forall node_wf (nodes g) -> serialise_node_table g 3 = Ok enc ->
  parses (deserialise_node_table (num_nodes g) 3) enc (mkGraph (nodes g) [] []).
Proof.
  intros Hlen Hw H. unfold serialise_node_table in H. apply rbind_Ok in H as (? & _ & H).
  destruct (rmapM _ _) as [encs|] eqn:He; [|done]. apply Ok_inj in H as <-.
  unfold deserialise_node_table, num_nodes. rewrite Z_to_nat_lenZ.
  replace (mkGraph (nodes g) [] []) with (foldl add_node empty_graph (nodes g)) by apply foldl_add_node.
  by apply parses_last, parses_nodes.
Qed.

Lemma lenZ_build_tv tv : 26 <= lenZ (build_tv tv).
Proof.
  unfold build_tv. rewrite !lenZ_app, !lenZ_append_pod, lenZ_append_pods by lia.
  pose proof (lenZ_nonneg (tv_shape tv)). lia.
Qed.

Lemma parses_tv tv : tv_wf tv -> parses parse_tv (build_tv tv) tv.
Proof.
  intros [Hid Hs Hd [Ls Hsh] Ho Hn Hi]. unfold parse_tv, build_tv, INT16_MAX, byte, u64, u32 in *.
  pose proof (lenZ_nonneg (tv_shape tv)).
  eapply parses_bind; [apply parses_sint; lia|]. apply parses_throw_if; [apply Z.ltb_ge; lia|].
  do 2 (eapply parses_bind; [apply parses_uint; lia|]).
  do 4 (eapply parses_bind; [apply parses_uint; lia|]).
  apply parses_check; [lia|rewrite lenZ_append_pods; lia|]. rewrite Z_to_nat_lenZ.
  pose proof (parses_last _ (fun sh => mkTV (tv_id tv) (source tv) (wrap 8 (tv_dtype tv)) sh
    (weight_offset tv) (weight_nbytes tv) (input_index tv)) _ _ (parses_sints 8 _ ltac:(lia) Hsh)) as R.
  cbn beta in R. rewrite wrap_small in R |- * by done. destruct tv. exact R.
Qed.

Lemma parses_tval tvs :
  lenZ tvs < 2 ^ 32 -> Forall tv_wf tvs -> parses parse_tval_payload (build_tval_payload tvs) tvs.
Proof.
  intros Hlen Hw. apply parses_counted_id; [lia|lia|done|apply lenZ_build_tv|].
  eapply Forall_impl; [done|]. apply parses_tv.
Qed.

Lemma parses_io_ids what l :
  io_wf l -> parses (read_io_ids what) (append_pod 4 (lenZ l) ++ append_pods 2 l) l.
Proof.
  intros [Hlen Hl]. apply parses_counted_id; [lia|lia|done| |].
  - intros a. rewrite lenZ_append_pod; lia.
  - eapply Forall_impl; [done|]. intros v Hv. unfold id_ok, INT16_MAX in Hv.
    rewrite <-(app_nil_r (append_pod 2 v)).
    eapply parses_bind; [apply parses_sint; lia|]. apply parses_throw_if; [apply Z.ltb_ge; lia|].
    apply parses_ret.
Qed.

Lemma parses_iosp ins outs :
  io_wf ins -> io_wf outs -> parses parse_iosp_payload (build_iosp_payload ins outs) (ins, outs).
Proof.
  intros Hi Ho. unfold build_iosp_payload. rewrite app_assoc.
  eapply parses_bind; [by apply parses_io_ids|]. by apply (parses_last _ (pair ins)), parses_io_ids.
Qed.

Lemma parses_string what k :
  lenZ k < 2 ^ 32 -> parses (read_string what) (append_pod 4 (lenZ k) ++ k) k.
Proof.
  intros Hk. pose proof (lenZ_nonneg k). eapply parses_bind; [apply parses_uint; lia|].
  apply parses_check_length; [lia|]. by apply parses_bytes.
Qed.

Lemma foldl_emplace (l : list (list Z * list Z)) (m : gmap (list Z) (list Z)) :
  NoDup (map fst l) -> (forall k, k ∈ map fst l -> m !! k = None) ->
  foldl emplace m l = list_to_map l ∪ m.
Proof.
  revert m. induction l as [|[k v] l IH]; intros m Hnd Hm; cbn.
  - by rewrite (left_id_L ∅ union).
  - apply NoDup_cons in Hnd as [Hk Hnd]. cbn in *.
    unfold emplace. cbn. rewrite (Hm k) by set_solver. rewrite IH; [|done|].
    + rewrite <-insert_union_r, insert_union_l; [done|]. by apply not_elem_of_list_to_map_1.
    + intros k' Hk'. rewrite lookup_insert_ne by set_solver. apply Hm. set_solver.
Qed.

Lemma parses_meta m :
  meta_wf m -> parses parse_meta_payload (build_meta_payload m) (list_to_map m).
Proof.
  intros (Hlen & Hw & Hnd).
  assert ((list_to_map m : gmap (list Z) (list Z)) = foldl emplace ∅ m) as ->.
  { rewrite foldl_emplace by done. by rewrite (right_id_L ∅ union). }
  apply parses_counted; [lia|lia|done| |].
  - intros [k v]. cbn. rewrite !lenZ_app, !lenZ_append_pod by lia.
    pose proof (lenZ_nonneg k). pose proof (lenZ_nonneg v). lia.
  - eapply Forall_impl; [done|]. intros [k v] [Hk Hv]. cbn in *. rewrite (app_assoc _ k).
    eapply parses_bind; [by apply parses_string|]. by apply (parses_last _ (pair k)), parses_string.
Qed.

Lemma parses_placement p :
  id_ok (mp_id p) /\ byte (pool_index p) /\ u64 (mp_offset p) ->
  parses parse_placement (build_placement p) p.
Proof.
  unfold id_ok, byte, u64, INT16_MAX. intros (Hid & Hpool & Hoff). destruct p as [id pool off].
  cbn in *. unfold parse_placement, build_placement. cbn.
  eapply parses_bind; [apply parses_sint; lia|]. apply parses_throw_if; [apply Z.ltb_ge; lia|].
  eapply parses_bind; [apply parses_uint; lia|].
  apply (parses_last _ (mkPlacement id pool)). apply parses_uint; lia.
Qed.

Lemma parses_mmpl p : plan_wf p -> parses parse_mmpl_payload (build_mmpl_payload p) p.
Proof.
  intros [[Lp Hp] Ha [Lq Hq]]. unfold parse_mmpl_payload, build_mmpl_payload.
  pose proof (lenZ_nonneg (pool_sizes p)). pose proof (lenZ_nonneg (placements p)).
  eapply parses_bind; [apply parses_uint; lia|].
  eapply parses_bind; [apply parses_uint; lia|].
  apply parses_check; [lia|rewrite lenZ_app, lenZ_append_pods by lia; pose proof (lenZ_nonneg
    (append_pod 4 (lenZ (placements p)) ++ concat (map build_placement (placements p)))); lia|].
  rewrite Z_to_nat_lenZ. eapply parses_bind; [apply parses_uints; [lia|exact Hp]|].
  assert (p = mkPlan (pool_sizes p) (if alignment p =? 0 then 64 else alignment p) (placements p)) as Ep.
  { destruct (Z.eqb_spec (alignment p) 0); [lia|]. by destruct p. }
  pose proof (parses_counted 4 11 parse_placement build_placement
    (fun ps => mkPlan (pool_sizes p) (if alignment p =? 0 then 64 else alignment p) ps) (placements p)) as R.
  cbn beta in R. rewrite <-Ep in R. apply R; [lia|lia|done| |].
  - intros x. unfold build_placement. rewrite !lenZ_app, !lenZ_append_pod; lia.
  - eapply Forall_impl; [done|]. apply parses_placement.
Qed.

(** ** Whole files *)

Lemma parses_header h :
  u32 (magic h) -> u32 (version h) -> u32 (h_num_nodes h) -> u32 (num_weights h) ->
  u64 (weight_data_offset h) -> parses read_header (build_header h) h.
Proof.
  unfold u32, u64. intros. unfold read_header, build_header. destruct h as [m v n w o]. cbn in *.
  do 4 (eapply parses_bind; [apply parses_uint; lia|]).
  apply (parses_last _ (mkHeader m v n w)). apply parses_uint; lia.
Qed.

Lemma lenZ_build_header h : lenZ (build_header h) = HEADER_SIZE.
Proof. unfold build_header. rewrite !lenZ_app, !lenZ_append_pod by lia. done. Qed.

Lemma foldl_table_size l k :
  foldl (fun bytes n => bytes + node_table_bytes n) k l =
  k + foldl (fun bytes n => bytes + node_table_bytes n) 0 l.
Proof.
  revert k. induction l as [|n l IH]; intros k; cbn [foldl]; [lia|].
  rewrite IH, (IH (0 + node_table_bytes n)). lia.
Qed.

Lemma lenZ_serialise_node n enc :
  node_wf n -> serialise_node 3 n = Ok enc -> lenZ enc = node_table_bytes n.
Proof.
  intros Hw Hs. unfold serialise_node in Hs. apply rbind_Ok in Hs as (u & _ & <-%Ok_inj).
  destruct (nw_f n Hw) as [Lf _], (nw_i n Hw) as [Li _].
  unfold node_table_bytes, serialise_extras.
  change (TZLITE_VERSION >=? 3) with true. change (3 >=? 3) with true. cbv iota.
  rewrite !lenZ_app, !lenZ_append_pod, !lenZ_append_pods by lia.
  unfold lenZ at 3 4. rewrite Lf, Li. lia.
Qed.

(** The size [save] announces is the size of the table it writes. *)
Lemma compute_node_table_size_exact g enc :
  Forall node_wf (nodes g) -> serialise_node_table g 3 = Ok enc ->
  compute_node_table_size g = lenZ enc.
Proof.
  intros Hw H. unfold serialise_node_table in H. apply rbind_Ok in H as (? & _ & H).
  destruct (rmapM _ _) as [encs|] eqn:He; [|done]. apply Ok_inj in H as <-.
  apply rmapM_Ok in He. unfold compute_node_table_size.
  induction He as [|n e ns encs Hn _ IH]; [done|]. apply Forall_cons in Hw as [Hnw Hw].
  cbn [foldl concat]. rewrite foldl_table_size, (IH Hw), lenZ_app, (lenZ_serialise_node n e Hnw Hn). lia.
Qed.

(** Loading a file of the current version: the header, the node table, then
    the TLV part if there is one. *)
Lemma load_full_file g nb w off rest :
  lenZ (nodes g) < 2 ^ 32 -> Forall node_wf (nodes g) -> serialise_node_table g 3 = Ok nb ->
  u32 w -> u64 off ->
  load_full (build_header (mkHeader TZLITE_MAGIC TZLITE_VERSION (num_nodes g) w off) ++ nb ++ rest) =
  let buf := build_header (mkHeader TZLITE_MAGIC TZLITE_VERSION (num_nodes g) w off) ++ nb ++ rest in
  let m := mkModel (mkGraph (nodes g) [] []) [] [] [] [] ∅ None in
  if off <? HEADER_SIZE + lenZ nb + lenZ rest then
    let* _ := throw_if (off <? HEADER_SIZE + lenZ nb)
                (RuntimeError "TZLiteReader: weight_data_offset overlaps the node table") in
    let* ' (m, _) := read_tlv m buf off in Ok m
  else Ok m.
Proof.
  intros Hlen Hw Hnb Hu Ho. cbv zeta. set (h := mkHeader _ _ _ w off).
  assert (parses read_header (build_header h) h) as Hh.
  { apply parses_header; [done|done| |done|done]. cbn. unfold u32, num_nodes.
    pose proof (lenZ_nonneg (nodes g)). lia. }
  unfold load_full. rewrite !lenZ_app, lenZ_build_header, Z.add_assoc.
  pose proof (lenZ_nonneg nb). pose proof (lenZ_nonneg rest).
  destruct (Z.ltb_spec (HEADER_SIZE + lenZ nb + lenZ rest) HEADER_SIZE); [lia|]. cbn [throw_if rbind].
  specialize (Hh [] (nb ++ rest)). cbn [app] in Hh. change (lenZ (@nil Z)) with 0 in Hh.
  rewrite Hh. cbn [rbind]. unfold h at 1 2 3. cbn [magic version].
  change (TZLITE_MAGIC =? TZLITE_MAGIC) with true. cbn [negb throw_if rbind].
  change ((TZLITE_VERSION <? TZLITE_VERSION_MIN_SUPPORTED) || (TZLITE_VERSION >? TZLITE_VERSION)) with false.
  cbn [throw_if rbind].
  pose proof (parses_node_table g nb Hlen Hw Hnb (build_header h) rest) as Ht.
  rewrite lenZ_build_header in Ht. change (h_num_nodes h) with (num_nodes g).
  change (version h) with 3. rewrite Ht. reflexivity.
Qed.

(** The graph-only [save] followed by [load] gives back the nodes of the
    graph, for every graph whose fields fit their wire types. *)
Theorem save_graph_roundtrip g bytes :
  lenZ (nodes g) < 2 ^ 32 -> Forall node_wf (nodes g) ->
  save_graph g = Ok bytes -> lenZ bytes < 2 ^ 64 ->
  load_full bytes = Ok (mkModel (mkGraph (nodes g) [] []) [] [] [] [] ∅ None).
Proof.
  intros Hlen Hw Hs Hb. unfold save_graph in Hs. apply rbind_Ok in Hs as (nb & Hnb & <-%Ok_inj).
  rewrite (compute_node_table_size_exact g nb Hw Hnb) in *.
  rewrite lenZ_app, lenZ_build_header in Hb. pose proof (lenZ_nonneg nb).
  assert (0 <= HEADER_SIZE + lenZ nb < 2 ^ 64) by (unfold HEADER_SIZE in *; lia).
  rewrite <-(app_nil_r nb) at 2. rewrite load_full_file by (unfold u32; try done; lia).
  cbv zeta. change (lenZ (@nil Z)) with 0. rewrite Z.add_0_r, Z.ltb_irrefl. done.
Qed.

Lemma parses_section tag p m m' :
  u32 tag -> lenZ p < 2 ^ 64 -> parse_section tag p m = Ok m' ->
  parses (read_section m) (write_section tag p) m'.
Proof.
  intros Ht Hp Hm. pose proof (lenZ_nonneg p). unfold read_section, write_section.
  eapply parses_bind; [apply parses_uint; [lia|exact Ht]|].
  eapply parses_bind; [apply parses_uint; lia|].
  rewrite <-(app_nil_r p) at 2. eapply parses_bind; [by apply parses_payload|].
  intros pre post. unfold rd_lift. rewrite Hm. cbn. change (lenZ (@nil Z)) with 0. by rewrite Z.add_0_r.
Qed.

Lemma parses_sections secs m m' :
  Forall (fun s => u32 s.1 /\ lenZ s.2 < 2 ^ 64) secs ->
  rfoldM (fun m s => parse_section s.1 s.2 m) secs m = Ok m' ->
  parses (read_sections (length secs) m) (concat (map (fun s => write_section s.1 s.2) secs)) m'.
Proof.
  intros Hs. revert m. induction Hs as [|[tag p] secs [Ht Hp] _ IH]; intros m H; cbn [rfoldM] in H.
  - apply Ok_inj in H as <-. apply parses_ret.
  - apply rbind_Ok in H as (m1 & H1 & H). cbn. eapply parses_bind; [by apply parses_section|]. by apply IH.
Qed.

Lemma parses_tlv secs m m' :
  Forall (fun s => u32 s.1 /\ lenZ s.2 < 2 ^ 64) secs -> lenZ secs < 2 ^ 32 ->
  rfoldM (fun m s => parse_section s.1 s.2 m) secs m = Ok m' ->
  parses (read_tlv m)
    (append_pod 4 (lenZ secs) ++ concat (map (fun s => write_section s.1 s.2) secs)) (hand_over_io m').
Proof.
  intros Hs Hlen Hm. pose proof (lenZ_nonneg secs). unfold read_tlv.
  eapply parses_bind; [apply parses_uint; lia|]. apply parses_check; [lia| |].
  - apply concat_map_lenZ_ge. intros [tag p]. unfold write_section. cbn.
    rewrite !lenZ_app, !lenZ_append_pod by lia. pose proof (lenZ_nonneg p). lia.
  - rewrite Z_to_nat_lenZ. by apply parses_last, parses_sections.
Qed.

Record opts_wf (opts : WriteOptions) : Prop := {
  ow_inputs : io_wf (o_inputs opts);
  ow_outputs : io_wf (o_outputs opts);
  ow_meta : meta_wf (o_metadata opts);
  ow_plan : forall p, o_plan opts = Some p -> plan_wf p;
  ow_weights : forall id t, weights opts !! id = Some t ->
    id_ok id /\ byte (td_dtype t) /\ lenZ (td_shape t) <= 255 /\ Forall s64 (td_shape t);
  ow_specs : forall id dt sh, input_specs opts !! id = Some (dt, sh) ->
    byte dt /\ lenZ sh <= 255 /\ Forall s64 sh
}.

Notation parse_sections := (rfoldM (fun m (s : Z * list Z) => parse_section s.1 s.2 m)).

Lemma written_wgts g tvs blob i o md p :
  parse_sections (if is_nil blob then [] else [(TZLITE_TAG_WGTS, blob)]) (mkModel g tvs [] i o md p) =
  Ok (mkModel g tvs blob i o md p).
Proof. by destruct blob. Qed.

Lemma written_iosp g tvs blob ins outs md p :
  io_wf ins -> io_wf outs ->
  parse_sections (if is_nil ins && is_nil outs then []
                  else [(TZLITE_TAG_IOSP, build_iosp_payload ins outs)]) (mkModel g tvs blob [] [] md p) =
  Ok (mkModel g tvs blob ins outs md p).
Proof.
  intros Hi Ho. pose proof (run_payload_parses _ _ _ (parses_iosp _ _ Hi Ho)) as E.
  destruct (is_nil ins && is_nil outs) eqn:En.
  - by destruct ins, outs.
  - cbn [rfoldM fst snd]. unfold parse_section.
    change (TZLITE_TAG_IOSP =? TZLITE_TAG_TVAL) with false. change (TZLITE_TAG_IOSP =? TZLITE_TAG_WGTS) with false.
    change (TZLITE_TAG_IOSP =? TZLITE_TAG_IOSP) with true. cbv iota. by rewrite E.
Qed.

Lemma written_meta g tvs blob i o md p :
  meta_wf md ->
  parse_sections (if is_nil md then [] else [(TZLITE_TAG_META, build_meta_payload md)])
    (mkModel g tvs blob i o ∅ p) = Ok (mkModel g tvs blob i o (list_to_map md) p).
Proof.
  intros Hm. pose proof (run_payload_parses _ _ _ (parses_meta _ Hm)) as E.
  destruct md as [|kv md]; [done|]. cbn [is_nil rfoldM fst snd]. unfold parse_section.
  change (TZLITE_TAG_META =? TZLITE_TAG_TVAL) with false. change (TZLITE_TAG_META =? TZLITE_TAG_WGTS) with false.
  change (TZLITE_TAG_META =? TZLITE_TAG_IOSP) with false. change (TZLITE_TAG_META =? TZLITE_TAG_META) with true.
  cbv iota. by rewrite E.
Qed.

Lemma written_mmpl g tvs blob i o md p :
  (forall plan, p = Some plan -> plan_wf plan) ->
  parse_sections (match p with None => [] | Some plan => [(TZLITE_TAG_MMPL, build_mmpl_payload plan)] end)
    (mkModel g tvs blob i o md None) = Ok (mkModel g tvs blob i o md p).
Proof.
  intros Hp. destruct p as [plan|]; [|done].
  pose proof (run_payload_parses _ _ _ (parses_mmpl _ (Hp plan eq_refl))) as E.
  cbn [rfoldM fst snd]. unfold parse_section.
  change (TZLITE_TAG_MMPL =? TZLITE_TAG_TVAL) with false. change (TZLITE_TAG_MMPL =? TZLITE_TAG_WGTS) with false.
  change (TZLITE_TAG_MMPL =? TZLITE_TAG_IOSP) with false. change (TZLITE_TAG_MMPL =? TZLITE_TAG_META) with false.
  change (TZLITE_TAG_MMPL =? TZLITE_TAG_MMPL) with true. cbv iota. by rewrite E.
Qed.

(** Parsing the sections the writer emits rebuilds the model, present or not. *)
Lemma parse_written_sections g opts tvs :
  opts_wf opts -> lenZ tvs < 2 ^ 32 -> Forall tv_wf tvs ->
  parse_sections (tlv_sections opts tvs) (mkModel g [] [] [] [] ∅ None) =
  Ok (mkModel g tvs (weight_layout opts).1 (o_inputs opts) (o_outputs opts)
        (list_to_map (o_metadata opts)) (o_plan opts)).
Proof.
  intros [Hi Ho Hm Hp _ _] Hlen Hw. unfold tlv_sections. rewrite rfoldM_app.
  pose proof (run_payload_parses _ _ _ (parses_tval tvs Hlen Hw)) as E.
  rewrite rfoldM_single. cbn [fst snd]. unfold parse_section at 1.
  change (TZLITE_TAG_TVAL =? TZLITE_TAG_TVAL) with true. cbv iota. rewrite E. cbn [rbind].
  cbn [m_graph tensor_values weight_blob m_inputs m_outputs metadata memory_plan].
  rewrite rfoldM_app, written_wgts. cbn [rbind]. rewrite rfoldM_app, written_iosp by done. cbn [rbind].
  rewrite rfoldM_app, written_meta by done. cbn [rbind]. by apply written_mmpl.
Qed.

Lemma section_count_lenZ opts tvs : section_count opts = lenZ (tlv_sections opts tvs).
Proof.
  unfold section_count, tlv_sections. rewrite !lenZ_app.
  destruct (is_nil (weight_layout opts).1), (is_nil (o_inputs opts) && is_nil (o_outputs opts)),
    (is_nil (o_metadata opts)), (o_plan opts); reflexivity.
Qed.

(** ** The weight payload *)

(** The tensor carries the bytes its shape and dtype announce. *)
Definition weights_sized (opts : WriteOptions) : Prop :=
  forall id t, weights opts !! id = Some t -> lenZ (td_bytes t) = td_nbytes t.

(** [loc] holds exactly the bytes of the weight [id] in [blob]. *)
Definition located (opts : WriteOptions) (blob : list Z) (l : Z * (Z * Z)) : Prop :=
  exists t, weights opts !! l.1 = Some t /\ 0 <= l.2.1 /\ l.2.2 = td_nbytes t /\
    l.2.1 + l.2.2 <= lenZ blob /\ take (Z.to_nat l.2.2) (drop (Z.to_nat l.2.1) blob) = td_bytes t.

Lemma td_nbytes_bound t : 0 <= td_nbytes t < 2 ^ 64.
Proof. apply wrap_bound. lia. Qed.

Lemma located_app opts blob more l : located opts blob l -> located opts (blob ++ more) l.
Proof.
  intros (t & Ht & Ho & Hn & Hle & Hb). exists t. split; [done|]. split; [done|]. split; [done|].
  rewrite lenZ_app. pose proof (lenZ_nonneg more). pose proof (td_nbytes_bound t). split; [lia|].
  unfold lenZ in *. rewrite drop_app_le by lia. rewrite take_app_le; [done|]. rewrite length_drop. lia.
Qed.

Lemma append_weights_located opts ids st :
  weights_sized opts -> (forall id, id ∈ ids -> is_Some (weights opts !! id)) ->
  Forall (located opts st.1) st.2 ->
  let st' := foldl (append_weight opts) st ids in
  Forall (located opts st'.1) st'.2 /\ map fst st'.2 = map fst st.2 ++ ids.
Proof.
  intros Hsz. revert st. induction ids as [|id ids IH]; intros [blob locs] Hids Hl; cbn [foldl].
  - by rewrite app_nil_r.
  - destruct (Hids id ltac:(set_solver)) as [t Ht]. cbn [fst snd] in *.
    pose proof (Hsz id t Ht) as Hlen. pose proof (lenZ_nonneg (td_bytes t)).
    assert (append_weight opts (blob, locs) id =
      (blob ++ td_bytes t, locs ++ [(id, (lenZ blob, td_nbytes t))])) as Eaw.
    { unfold append_weight. rewrite Ht, take_ge; [done|]. unfold lenZ in Hlen. lia. }
    rewrite Eaw. destruct (IH (blob ++ td_bytes t, locs ++ [(id, (lenZ blob, td_nbytes t))])) as [H1 H2].
    + intros. apply Hids. set_solver.
    + cbn. apply Forall_app. split; [eapply Forall_impl; [done|]; intros; by apply located_app|].
      constructor; [|done]. exists t. cbn. pose proof (lenZ_nonneg blob).
      split; [done|]. split; [lia|]. split; [done|]. rewrite lenZ_app. split; [lia|].
      unfold lenZ at 1. rewrite Nat2Z.id, drop_app_length. apply take_ge. unfold lenZ in Hlen. lia.
    + split; [done|]. rewrite ?Eaw, H2. cbn [snd]. rewrite map_app. cbn. by rewrite <-app_assoc.
Qed.

Lemma elem_of_weight_ids opts id : id ∈ weight_ids opts <-> is_Some (weights opts !! id).
Proof. unfold weight_ids. by rewrite merge_sort_Permutation, elem_of_elements, elem_of_dom. Qed.

Lemma weight_layout_located opts :
  weights_sized opts ->
  Forall (located opts (weight_layout opts).1) (weight_layout opts).2 /\
  map fst (weight_layout opts).2 = weight_ids opts.
Proof.
  intros Hsz. unfold weight_layout. apply (append_weights_located opts (weight_ids opts) ([], [])); [done| |constructor].
  intros id. apply elem_of_weight_ids.
Qed.

(** ** The TVAL table *)

Definition find_tv (tvs : list TensorValue) (id : Z) : option TensorValue :=
  List.find (fun tv => tv_id tv =? id) tvs.

Definition with_source (src : Z) (tv : TensorValue) : TensorValue :=
  mkTV (tv_id tv) src (tv_dtype tv) (tv_shape tv) (weight_offset tv) (weight_nbytes tv) (input_index tv).

(** The entry [add_or_update] starts from. *)
Definition entry (tvs : list TensorValue) (id : Z) : TensorValue :=
  default (mkTV id TS_Intermediate 0 [] 0 0 0) (find_tv tvs id).

Lemma find_tv_id tvs id tv : find_tv tvs id = Some tv -> tv_id tv = id /\ tv ∈ tvs.
Proof.
  intros H. apply List.find_some in H as [H1 H2]. apply Z.eqb_eq in H2.
  split; [done|]. by apply list_elem_of_In.
Qed.

Lemma find_tv_None tvs id : find_tv tvs id = None <-> id ∉ map tv_id tvs.
Proof.
  induction tvs as [|tv tvs IH]; cbn; [set_solver|].
  destruct (Z.eqb_spec (tv_id tv) id) as [Heq|Hne]; [set_solver|]. rewrite IH. set_solver.
Qed.

Lemma entry_id tvs id : tv_id (entry tvs id) = id.
Proof.
  unfold entry. destruct (find_tv tvs id) as [tv|] eqn:H; [|done]. by apply find_tv_id in H as [? _].
Qed.

Definition keeps_id (upd : TensorValue -> TensorValue) : Prop := forall tv, tv_id (upd tv) = tv_id tv.

Lemma find_add_or_update tvs tid src upd id :
  keeps_id upd ->
  find_tv (add_or_update tvs tid src upd) id =
  if tid =? id then Some (upd (with_source src (entry tvs id))) else find_tv tvs id.
Proof.
  intros Hk. induction tvs as [|tv tvs IH]; cbn [add_or_update].
  - unfold find_tv, entry. cbn [List.find]. rewrite Hk. cbn.
    destruct (Z.eqb_spec tid id) as [->|]; done.
  - destruct (Z.eqb_spec (tv_id tv) tid) as [<-|Hne].
    + unfold find_tv, entry, find_tv. cbn [List.find]. rewrite Hk. cbn.
      by destruct (Z.eqb_spec (tv_id tv) id).
    + unfold find_tv, entry, find_tv in *. cbn [List.find]. rewrite IH.
      destruct (Z.eqb_spec (tv_id tv) id) as [<-|]; [|done].
      by destruct (Z.eqb_spec tid (tv_id tv)).
Qed.

Lemma ids_add_or_update tvs tid src upd :
  keeps_id upd ->
  map tv_id (add_or_update tvs tid src upd) =
  if decide (tid ∈ map tv_id tvs) then map tv_id tvs else map tv_id tvs ++ [tid].
Proof.
  intros Hk. induction tvs as [|tv tvs IH]; cbn [add_or_update map].
  - rewrite decide_False by set_solver. cbn. by rewrite Hk.
  - destruct (Z.eqb_spec (tv_id tv) tid) as [<-|Hne]; cbn [map].
    + rewrite Hk, decide_True by set_solver. done.
    + rewrite IH. repeat case_decide; try done; set_solver.
Qed.

(** A well-formed table with one entry per id. *)
Definition table_ok (tvs : list TensorValue) : Prop := NoDup (map tv_id tvs) /\ Forall tv_wf tvs.

Lemma default_entry_wf id : id_ok id -> tv_wf (mkTV id TS_Intermediate 0 [] 0 0 0).
Proof.
  intros. split; cbn; try done; unfold byte, u64, u32, TS_Intermediate; try lia; done.
Qed.

Lemma with_source_wf src tv : byte src -> tv_wf tv -> tv_wf (with_source src tv).
Proof. intros Hs [? ? ? ? ? ? ?]. by split. Qed.

Lemma add_or_update_ok tvs tid src upd :
  keeps_id upd -> (forall tv, tv_id tv = tid -> tv_wf tv -> tv_wf (upd tv)) -> byte src -> id_ok tid ->
  table_ok tvs -> table_ok (add_or_update tvs tid src upd).
Proof.
  intros Hk Hu Hs Hid [Hnd Hw]. split.
  - rewrite ids_add_or_update by done. case_decide; [done|].
    apply NoDup_app. split; [done|]. split; [set_solver|apply NoDup_singleton].
  - clear Hnd. induction Hw as [|tv tvs Htv Hw IH]; cbn [add_or_update].
    + constructor; [|done]. apply Hu; [done|].
      apply (with_source_wf src (mkTV tid TS_Intermediate 0 [] 0 0 0)); [done|]. by apply default_entry_wf.
    + destruct (Z.eqb_spec (tv_id tv) tid) as [Heq|]; constructor; try done.
      apply Hu; [done|]. by apply (with_source_wf src tv).
Qed.

Lemma keeps_id_input opts i : keeps_id (declare_input opts i).
Proof. intros tv. unfold declare_input. cbn. by destruct (input_specs opts !! tv_id tv) as [[? ?]|]. Qed.

Lemma keeps_id_weight t loc : keeps_id (declare_weight t loc).
Proof. done. Qed.

Lemma keeps_id_id : keeps_id (fun tv => tv).
Proof. done. Qed.

Lemma declare_input_wf opts i tv : opts_wf opts -> tv_wf tv -> tv_wf (declare_input opts i tv).
Proof.
  intros Ho [? ? ? ? ? ? ?]. unfold declare_input. cbn.
  assert (u32 (wrap 32 i)) by (apply wrap_bound; lia).
  destruct (input_specs opts !! tv_id tv) as [[dt sh]|] eqn:E; [|by split].
  destruct (ow_specs opts Ho _ _ _ E) as (? & ? & ?). by split.
Qed.

Lemma foldl_inv {A S} (P : S -> Prop) (f : S -> A -> S) l s :
  P s -> (forall s x, x ∈ l -> P s -> P (f s x)) -> P (foldl f s l).
Proof.
  revert s. induction l as [|x l IH]; intros s Hs Hf; cbn; [done|].
  apply IH; [apply Hf; [set_solver|done]|]. intros. apply Hf; [set_solver|done].
Qed.

(** *** The phases of [build_tvs] *)

Definition input_table (opts : WriteOptions) : list TensorValue :=
  foldl (fun tvs p => add_or_update tvs p.2 TS_Input (declare_input opts (Z.of_nat p.1)))
    [] (zip (seq 0 (length (o_inputs opts))) (o_inputs opts)).

Definition weight_table (opts : WriteOptions) : list TensorValue :=
  foldl (add_weight opts) (input_table opts) (weight_layout opts).2.

Definition mark_intermediate (tvs : list TensorValue) (ids : list Z) : list TensorValue :=
  foldl (fun tvs id => add_or_update tvs id TS_Intermediate (fun tv => tv)) tvs ids.

(** The ids the last two phases visit. *)
Definition produced (g : LiteGraph) (opts : WriteOptions) : list Z :=
  o_outputs opts ++ concat (map output_ids (nodes g)).

Lemma build_tvs_phases g opts :
  build_tvs g opts = merge_sort by_tv_id (mark_intermediate (weight_table opts) (produced g opts)).
Proof.
  unfold build_tvs, produced, mark_intermediate. f_equal. rewrite foldl_app.
  fold (input_table opts). fold (weight_table opts).
  generalize (foldl (fun tvs id => add_or_update tvs id TS_Intermediate (fun tv => tv)) (weight_table opts)
    (o_outputs opts)).
  induction (nodes g) as [|n ns IH]; intros tvs; cbn; [done|]. by rewrite IH, foldl_app.
Qed.

Lemma mark_intermediate_ok ids tvs :
  Forall id_ok ids -> table_ok tvs -> table_ok (mark_intermediate tvs ids).
Proof.
  intros Hids Ht. unfold mark_intermediate. apply foldl_inv; [done|]. intros s id Hid Hs. rewrite Forall_forall in Hids.
  apply add_or_update_ok; [done|done| |by apply Hids|done]. unfold byte, TS_Intermediate. lia.
Qed.

Lemma input_table_ok opts : opts_wf opts -> table_ok (input_table opts).
Proof.
  intros Ho. unfold input_table. apply foldl_inv; [split; constructor|]. intros s [i id] Hp Hs. cbn.
  apply elem_of_zip_r in Hp. destruct (ow_inputs opts Ho) as [_ Hi]. rewrite Forall_forall in Hi.
  apply add_or_update_ok; [apply keeps_id_input| | |by apply Hi|done].
  - intros. by apply declare_input_wf.
  - unfold byte, TS_Input. lia.
Qed.

Lemma weight_table_ok opts :
  opts_wf opts -> weights_sized opts -> lenZ (weight_layout opts).1 < 2 ^ 64 ->
  table_ok (weight_table opts).
Proof.
  intros Ho Hsz Hb. destruct (weight_layout_located opts Hsz) as [Hl _]. rewrite Forall_forall in Hl.
  unfold weight_table. apply foldl_inv; [by apply input_table_ok|]. intros s l Hin Hs.
  destruct (Hl l Hin) as (t & Ht & Hoff & Hn & Hle & _). unfold add_weight. rewrite Ht.
  destruct (ow_weights opts Ho _ _ Ht) as (Hid & Hd & Hsh & Hss).
  pose proof (td_nbytes_bound t). pose proof (lenZ_nonneg (weight_layout opts).1).
  apply add_or_update_ok; [done| | |done|done].
  - intros tv Heq [? ? ? ? ? ? ?]. split; cbn; try done; unfold u64; lia.
  - unfold byte, TS_Weight. lia.
Qed.

Lemma table_ok_Permutation l l' : l ≡ₚ l' -> table_ok l -> table_ok l'.
Proof.
  intros Hp [Hnd Hw]. split.
  - change (NoDup (tv_id <$> l')). by rewrite <-Hp.
  - by rewrite <-Hp.
Qed.

Lemma build_tvs_ok g opts :
  opts_wf opts -> weights_sized opts -> lenZ (weight_layout opts).1 < 2 ^ 64 ->
  Forall (fun n => Forall id_ok (output_ids n)) (nodes g) -> table_ok (build_tvs g opts).
Proof.
  intros Ho Hsz Hb Hn. rewrite build_tvs_phases.
  eapply table_ok_Permutation; [symmetry; apply merge_sort_Permutation|].
  apply mark_intermediate_ok; [|by apply weight_table_ok]. apply Forall_app. split; [by apply ow_outputs|].
  apply Forall_concat, Forall_fmap. exact Hn.
Qed.

Lemma bounded_nodup_length (l : list Z) (n : Z) :
  0 <= n -> NoDup l -> Forall (fun x => 0 <= x < n) l -> lenZ l <= n.
Proof.
  intros Hn Hnd Hl. assert (length l <= length (map Z.of_nat (seq 0 (Z.to_nat n))))%nat as H.
  { apply submseteq_length, NoDup_submseteq; [done|]. intros x Hx. rewrite Forall_forall in Hl.
    specialize (Hl x Hx). apply list_elem_of_fmap. exists (Z.to_nat x). split; [lia|]. apply elem_of_seq. lia. }
  rewrite length_map, length_seq in H. unfold lenZ. lia.
Qed.

(** At most one entry per non-negative [int16_t] id. *)
Lemma table_ok_length tvs : table_ok tvs -> lenZ tvs <= INT16_MAX + 1.
Proof.
  intros [Hnd Hw].
  assert (lenZ (map tv_id tvs) <= INT16_MAX + 1) as H.
  { apply bounded_nodup_length; [done|done|]. apply Forall_fmap. eapply Forall_impl; [done|].
    intros tv Htv. pose proof (tw_id _ Htv). cbn. lia. }
  unfold lenZ in *. by rewrite length_map in H.
Qed.

Lemma find_tv_elem tvs id tv :
  NoDup (map tv_id tvs) -> find_tv tvs id = Some tv <-> tv ∈ tvs /\ tv_id tv = id.
Proof.
  intros Hnd. split; [intros H; apply find_tv_id in H; tauto|]. intros [Hin <-].
  destruct (find_tv tvs (tv_id tv)) as [tv'|] eqn:Hf.
  - apply find_tv_id in Hf as [Heq Hin']. f_equal.
    apply list_elem_of_lookup in Hin as [i Hi]. apply list_elem_of_lookup in Hin' as [j Hj].
    assert (i = j) as ->; [|congruence].
    apply (NoDup_lookup (map tv_id tvs) i j (tv_id tv) Hnd); rewrite list_lookup_fmap;
      [by rewrite Hi|by rewrite Hj; cbn; rewrite Heq].
  - apply find_tv_None in Hf. exfalso. apply Hf. by apply list_elem_of_fmap_2.
Qed.

Lemma find_mark ids tvs id :
  find_tv (mark_intermediate tvs ids) id =
  if decide (id ∈ ids) then Some (with_source TS_Intermediate (entry tvs id)) else find_tv tvs id.
Proof.
  unfold mark_intermediate. induction ids as [|x ids IH] using rev_ind; cbn [foldl]; [by rewrite decide_False by set_solver|].
  rewrite foldl_app. cbn [foldl]. rewrite find_add_or_update by done.
  destruct (Z.eqb_spec x id) as [->|Hne].
  - rewrite decide_True by set_solver. f_equal. unfold entry at 1. rewrite IH.
    case_decide; cbn; [|done]. by destruct (entry tvs id).
  - rewrite IH. repeat case_decide; try done; set_solver.
Qed.

Lemma find_weights opts locs tvs id :
  NoDup (map fst locs) ->
  (forall l, l ∈ locs -> is_Some (weights opts !! l.1)) ->
  (forall loc t, (id, loc) ∈ locs -> weights opts !! id = Some t ->
     find_tv (foldl (add_weight opts) tvs locs) id =
       Some (declare_weight t loc (with_source TS_Weight (entry tvs id)))) /\
  (id ∉ map fst locs -> find_tv (foldl (add_weight opts) tvs locs) id = find_tv tvs id).
Proof.
  revert tvs. induction locs as [|[x loc'] locs IH]; intros tvs Hnd Hs; cbn [foldl].
  - split; [set_solver|done].
  - cbn in Hnd. apply NoDup_cons in Hnd as [Hx Hnd].
    destruct (Hs (x, loc') ltac:(set_solver)) as [t' Ht'].
    destruct (IH (add_weight opts tvs (x, loc')) Hnd) as [IH1 IH2]; [intros; apply Hs; set_solver|].
    assert (forall y, find_tv (add_weight opts tvs (x, loc')) y =
      if x =? y then Some (declare_weight t' loc' (with_source TS_Weight (entry tvs y))) else find_tv tvs y) as Hadd.
    { intros y. unfold add_weight. cbn in *. rewrite Ht'. by apply find_add_or_update. }
    split.
    + intros loc t [Heq|Hin]%elem_of_cons Ht.
      * injection Heq as -> ->. rewrite IH2 by done. rewrite Hadd, Z.eqb_refl. cbn in Ht'. congruence.
      * assert (x <> id) as Hne. { intros ->. apply Hx. apply list_elem_of_fmap. by exists (id, loc). }
        rewrite (IH1 loc t Hin Ht). unfold entry. rewrite Hadd.
        by destruct (Z.eqb_spec x id).
    + intros Hni. cbn in Hni. rewrite IH2 by set_solver. rewrite Hadd.
      destruct (Z.eqb_spec x id); [set_solver|done].
Qed.

Lemma weight_ids_nodup opts : NoDup (weight_ids opts).
Proof. unfold weight_ids. rewrite merge_sort_Permutation. apply NoDup_elements. Qed.

(** ** The full file *)

Lemma section_payload_le secs s :
  s ∈ secs -> lenZ s.2 <= lenZ (concat (map (fun s => write_section s.1 s.2) secs)).
Proof.
  intros Hs. induction secs as [|x secs IH]; [set_solver|]. cbn [map concat]. rewrite lenZ_app.
  pose proof (lenZ_nonneg (write_section x.1 x.2)).
  pose proof (lenZ_nonneg (concat (map (fun s => write_section s.1 s.2) secs))).
  apply elem_of_cons in Hs as [->|Hs]; [|specialize (IH Hs); lia].
  unfold write_section in *. rewrite !lenZ_app, !lenZ_append_pod in * by lia. lia.
Qed.

Lemma section_tags_u32 opts tvs s : s ∈ tlv_sections opts tvs -> u32 s.1.
Proof.
  unfold tlv_sections, u32. rewrite !elem_of_app. intros H.
  repeat match goal with
  | H : _ \/ _ |- _ => destruct H as [H|H]
  | H : _ ∈ (if ?b then _ else _) |- _ => destruct b
  | H : _ ∈ match ?o with Some _ => _ | None => _ end |- _ => destruct o
  | H : _ ∈ [_] |- _ => apply list_elem_of_singleton in H as ->
  | H : _ ∈ [] |- _ => by apply not_elem_of_nil in H
  end; cbn; unfold TZLITE_TAG_TVAL, TZLITE_TAG_WGTS, TZLITE_TAG_IOSP, TZLITE_TAG_META, TZLITE_TAG_MMPL; lia.
Qed.

Lemma blob_le_sections opts tvs :
  lenZ (weight_layout opts).1 <=
  lenZ (concat (map (fun s => write_section s.1 s.2) (tlv_sections opts tvs))).
Proof.
  destruct (weight_layout opts).1 as [|b blob] eqn:E; [change (lenZ (@nil Z)) with 0; apply lenZ_nonneg|].
  rewrite <-E. apply (section_payload_le _ (TZLITE_TAG_WGTS, (weight_layout opts).1)).
  unfold tlv_sections. rewrite E. cbn [is_nil]. set_solver.
Qed.

(** A model the format can carry. *)
Record model_wf (g : LiteGraph) (opts : WriteOptions) : Prop := {
  mw_count : lenZ (nodes g) < 2 ^ 32;
  mw_nodes : Forall node_wf (nodes g);
  mw_outputs : Forall (fun n => Forall id_ok (output_ids n)) (nodes g);
  mw_opts : opts_wf opts;
  mw_sized : weights_sized opts
}.

Lemma save_load g opts bytes :
  model_wf g opts -> save g opts = Ok bytes -> lenZ bytes < 2 ^ 64 ->
  load_full bytes =
    Ok (mkModel (mkGraph (nodes g) (o_inputs opts) (o_outputs opts)) (build_tvs g opts)
          (weight_layout opts).1 (o_inputs opts) (o_outputs opts)
          (list_to_map (o_metadata opts)) (o_plan opts)).
Proof.
  intros [Hc Hn Ho Hw Hsz] Hs Hb. unfold save in Hs. apply rbind_Ok in Hs as (nb & Hnb & <-%Ok_inj).
  set (tvs := build_tvs g opts) in *. set (secs := tlv_sections opts tvs) in *.
  rewrite (section_count_lenZ opts tvs) in *. fold secs in Hb |- *.
  set (tlv := append_pod 4 (lenZ secs) ++ concat (map (fun s => write_section s.1 s.2) secs)) in *.
  rewrite !lenZ_app, lenZ_build_header in Hb. unfold HEADER_SIZE in Hb.
  pose proof (lenZ_nonneg nb). pose proof (blob_le_sections opts tvs) as Hblob. fold secs in Hblob.
  assert (lenZ tlv = 4 + lenZ (concat (map (fun s => write_section s.1 s.2) secs))) as Htlv.
  { unfold tlv. rewrite lenZ_app, lenZ_append_pod; lia. }
  pose proof (lenZ_nonneg (concat (map (fun s => write_section s.1 s.2) secs))).
  assert (table_ok tvs) as Htab by (apply build_tvs_ok; try done; lia).
  pose proof (table_ok_length tvs Htab) as Hlt. unfold INT16_MAX in Hlt.
  assert (lenZ (weight_ids opts) < 2 ^ 32) as Hwi.
  { assert (lenZ (weight_ids opts) <= INT16_MAX + 1); [|unfold INT16_MAX in *; lia].
    apply bounded_nodup_length; [done|apply weight_ids_nodup|].
    apply Forall_forall. intros id [t Ht]%elem_of_weight_ids.
    destruct (ow_weights opts Hw id t Ht) as [Hid _]. unfold id_ok in Hid. lia. }
  pose proof (lenZ_nonneg (weight_ids opts)).
  rewrite load_full_file; [|done|done|done|unfold u32; lia|unfold u64, HEADER_SIZE; lia].
  cbv zeta. destruct (Z.ltb_spec (HEADER_SIZE + lenZ nb) (HEADER_SIZE + lenZ nb + lenZ tlv)); [|lia].
  rewrite Z.ltb_irrefl. cbn [throw_if rbind].
  assert (Forall (fun s => u32 s.1 /\ lenZ s.2 < 2 ^ 64) secs) as Hsecs.
  { apply Forall_forall. intros s Hin. split; [by eapply section_tags_u32|].
    pose proof (section_payload_le secs s Hin). lia. }
  assert (lenZ secs < 2 ^ 32) as Hls.
  { unfold secs. rewrite <-section_count_lenZ. unfold section_count. repeat case_if; destruct (o_plan opts); lia. }
  pose proof (parses_tlv secs _ _ Hsecs Hls (parse_written_sections (mkGraph (nodes g) [] []) opts tvs Hw
    ltac:(lia) (proj2 Htab))) as Hp. fold tlv in Hp.
  set (h := mkHeader _ _ _ _ _). specialize (Hp (build_header h ++ nb) []).
  rewrite app_nil_r, lenZ_app, lenZ_build_header, <-app_assoc in Hp. rewrite Hp. cbn [rbind].
  f_equal. unfold hand_over_io. cbn. by destruct (o_inputs opts), (o_outputs opts).
Qed.

(** C1: [load_full] inverts [save]: every well-formed model whose file is
    smaller than 2^64 bytes loads back with the same nodes, tensor table,
    weight bytes, input and output ids (also handed to the graph), metadata
    and memory plan, whichever optional sections the file has. *)
Theorem save_load_roundtrip g opts bytes :
  model_wf g opts -> save g opts = Ok bytes -> lenZ bytes < 2 ^ 64 ->
  load_full bytes =
    Ok (mkModel (mkGraph (nodes g) (o_inputs opts) (o_outputs opts)) (build_tvs g opts)
          (weight_layout opts).1 (o_inputs opts) (o_outputs opts)
          (list_to_map (o_metadata opts)) (o_plan opts)).
Proof. apply save_load. Qed.

Lemma saved_weight_entry g opts id t :
  model_wf g opts -> lenZ (weight_layout opts).1 < 2 ^ 64 ->
  weights opts !! id = Some t -> id ∉ produced g opts ->
  exists tv, tv ∈ build_tvs g opts /\ tv_id tv = id /\ source tv = TS_Weight /\
    tv_dtype tv = td_dtype t /\ tv_shape tv = td_shape t /\
    weight_nbytes tv = td_nbytes t /\
    weight_offset tv + weight_nbytes tv <= lenZ (weight_layout opts).1 /\
    take (Z.to_nat (weight_nbytes tv)) (drop (Z.to_nat (weight_offset tv)) (weight_layout opts).1)
      = td_bytes t.
Proof.
  intros [Hc Hn Ho Hw Hsz] Hb Ht Hni.
  destruct (weight_layout_located opts Hsz) as [Hl Hids]. pose proof Hl as Hl'. rewrite Forall_forall in Hl.
  assert (id ∈ map fst (weight_layout opts).2) as Hin.
  { rewrite Hids. apply elem_of_weight_ids. by exists t. }
  apply list_elem_of_fmap in Hin as ([x loc] & Heq & Hin). cbn in Heq. subst x.
  destruct (Hl _ Hin) as (t' & Ht' & Hoff & Hnb & Hle & Hby). cbn in *.
  assert (t' = t) as -> by congruence.
  exists (declare_weight t loc (with_source TS_Weight (entry (input_table opts) id))).
  assert (find_tv (mark_intermediate (weight_table opts) (produced g opts)) id =
    Some (declare_weight t loc (with_source TS_Weight (entry (input_table opts) id)))) as Hf.
  { rewrite find_mark, decide_False by done.
    apply (find_weights opts (weight_layout opts).2 (input_table opts) id); [| |done|done].
    - rewrite Hids. apply weight_ids_nodup.
    - intros l Hlin. destruct (Hl l Hlin) as (? & -> & _). by eexists. }
  apply find_tv_id in Hf as [Hid Hf]. split.
  - rewrite build_tvs_phases. by rewrite merge_sort_Permutation.
  - split; [done|]. cbn. done.
Qed.

(** Every saved weight that is not also an output is described by the
    table as a weight with its dtype and shape, and its bytes are exactly the
    ones at its recorded offset and length in the weight blob. *)
Theorem saved_weights_located g opts id t :
  model_wf g opts -> lenZ (weight_layout opts).1 < 2 ^ 64 ->
  weights opts !! id = Some t -> id ∉ produced g opts ->
  exists tv, tv ∈ build_tvs g opts /\ tv_id tv = id /\ source tv = TS_Weight /\
    tv_dtype tv = td_dtype t /\ tv_shape tv = td_shape t /\
    weight_nbytes tv = td_nbytes t /\
    weight_offset tv + weight_nbytes tv <= lenZ (weight_layout opts).1 /\
    take (Z.to_nat (weight_nbytes tv)) (drop (Z.to_nat (weight_offset tv)) (weight_layout opts).1)
      = td_bytes t.
Proof. apply saved_weight_entry. Qed.

(** Being an output erases what the table knew of an id: an input or a
    weight that the model also returns is written as an intermediate. *)
Theorem output_erases_source g opts id :
  model_wf g opts -> id ∈ o_outputs opts ->
  exists tv, tv ∈ build_tvs g opts /\ tv_id tv = id /\ source tv = TS_Intermediate.
Proof.
  intros [Hc Hn Ho Hw Hsz] Hin.
  assert (find_tv (mark_intermediate (weight_table opts) (produced g opts)) id =
    Some (with_source TS_Intermediate (entry (weight_table opts) id))) as Hf.
  { rewrite find_mark, decide_True; [done|]. unfold produced. set_solver. }
  apply find_tv_id in Hf as [Hid Hf]. eexists. split; [|split; [exact Hid|done]].
  rewrite build_tvs_phases. by rewrite merge_sort_Permutation.
Qed.

(** ** Safety of the reader on arbitrary bytes

    [safe r P]: from any position in any buffer, [r] never reads outside the
    buffer, its results satisfy [P] and its cursor stays inside. *)

Definition safe {A} (r : reader A) (P : A -> Prop) : Prop :=
  forall buf off, Forall byte buf -> 0 <= off <= lenZ buf ->
  match r buf off with
  | Ok (a, off') => P a /\ off <= off' <= lenZ buf
  | Err e => e <> UndefinedBehaviour
  end.

Lemma safe_ret {A} (P : A -> Prop) a : P a -> safe (mret a) P.
Proof. intros H buf off _ Hoff. cbn. split; [done|lia]. Qed.

Lemma safe_bind {A B} (m : reader A) (f : A -> reader B) P Q :
  safe m P -> (forall a, P a -> safe (f a) Q) -> safe (m ≫= f) Q.
Proof.
  intros Hm Hf buf off Hb Hoff. unfold mbind, reader_bind. specialize (Hm buf off Hb Hoff).
  destruct (m buf off) as [[a off']|e]; cbn; [|done]. destruct Hm as [HP Ho].
  specialize (Hf a HP buf off' Hb ltac:(lia)). destruct (f a buf off') as [[b off'']|e]; [|done].
  destruct Hf. split; [done|lia].
Qed.

Lemma safe_weaken {A} (r : reader A) (P Q : A -> Prop) : safe r P -> (forall a, P a -> Q a) -> safe r Q.
Proof.
  intros Hr HPQ buf off Hb Hoff. specialize (Hr buf off Hb Hoff).
  destruct (r buf off) as [[a o]|e]; [|done]. destruct Hr. eauto.
Qed.

Lemma safe_throw_if b e : e <> UndefinedBehaviour -> safe (rd_throw_if b e) (fun _ => b = false).
Proof. intros He buf off _ Hoff. unfold rd_throw_if. destruct b; cbn; [done|]. split; [done|lia]. Qed.

Lemma safe_check count m : safe (check_element_count count m) (fun _ => True).
Proof. intros buf off _ Hoff. unfold check_element_count. case_if; [done|]. split; [done|lia]. Qed.

Lemma safe_check_length len e : e <> UndefinedBehaviour -> safe (check_length len e) (fun _ => True).
Proof. intros He buf off _ Hoff. unfold check_length. case_if; [done|]. split; [done|lia]. Qed.

Lemma memcpy_safe buf off n :
  Forall byte buf -> 0 <= off -> 0 <= n -> off + n <= lenZ buf ->
  exists bs, memcpy_from buf off n = Ok bs /\ lenZ bs = n /\ Forall byte bs.
Proof.
  intros Hb Ho Hn Hle. unfold memcpy_from.
  destruct (Z.leb_spec 0 off), (Z.leb_spec 0 n), (Z.leb_spec (off + n) (lenZ buf)); try lia. cbn.
  eexists. split; [done|]. split.
  - unfold lenZ in *. rewrite length_take, length_drop. lia.
  - by apply Forall_take, Forall_drop.
Qed.

Lemma safe_bytes n : 0 <= n -> safe (read_bytes n) (fun bs => lenZ bs = n /\ Forall byte bs).
Proof.
  intros Hn buf off Hb Hoff. unfold read_bytes. case_if; [done|]. bool_to_prop.
  destruct (memcpy_safe buf off n) as (bs & -> & Hbs); [done|lia|done|lia|]. cbn. split; [done|lia].
Qed.

Lemma safe_payload n : 0 <= n -> safe (read_payload n) (fun bs => lenZ bs = n /\ Forall byte bs).
Proof.
  intros Hn buf off Hb Hoff. unfold read_payload. case_if; [done|]. bool_to_prop.
  destruct (memcpy_safe buf off n) as (bs & -> & Hbs); [done|lia|done|lia|]. cbn. split; [done|lia].
Qed.

Lemma safe_uint w : 0 <= w -> safe (read_uint w) (fun v => 0 <= v < 2 ^ (8 * w)).
Proof.
  intros Hw. eapply safe_bind; [by apply safe_bytes|]. intros bs [Hlen Hbs]. apply safe_ret.
  pose proof (little_endian_to_Z_bound 8 bs ltac:(lia) Hbs) as H. unfold lenZ in Hlen.
  rewrite Hlen, (Z.mul_comm w) in H. done.
Qed.

Lemma sgn_bound w z : 0 < w -> - 2 ^ (w - 1) <= sgn w z < 2 ^ (w - 1).
Proof.
  intros Hw. unfold sgn. pose proof (Z.mod_pos_bound z (2 ^ w) ltac:(lia)) as Hm.
  assert (2 ^ w = 2 * 2 ^ (w - 1)) as Hp by (rewrite <-Z.pow_succ_r by lia; f_equal; lia).
  cbv zeta. destruct (Z.ltb_spec (z mod 2 ^ w) (2 ^ (w - 1))); lia.
Qed.

Lemma safe_sint w : 0 < w -> safe (read_sint w) (fun v => - 2 ^ (8 * w - 1) <= v < 2 ^ (8 * w - 1)).
Proof.
  intros Hw. eapply safe_bind; [apply safe_uint; lia|]. intros v _. apply safe_ret. apply sgn_bound. lia.
Qed.

Lemma safe_repeat {A} n (r : reader A) P :
  safe r P -> safe (rd_repeat n r) (fun l => length l = n /\ Forall P l).
Proof.
  intros Hr. induction n as [|n IH]; cbn [rd_repeat]; [by apply safe_ret|].
  eapply safe_bind; [done|]. intros x Hx. eapply safe_bind; [done|]. intros xs [Hlen Hxs].
  apply safe_ret. split; [cbn; by f_equal|by constructor].
Qed.

(** One step of a safety proof: bind, then the known reader. *)
Ltac safe_step :=
  match goal with
  | |- safe (mret _) _ => apply safe_ret
  | |- safe (mbind _ _) _ =>
      eapply safe_bind;
      [first [ apply safe_uint; lia | apply safe_sint; lia | apply safe_check
             | by apply safe_throw_if | by apply safe_check_length
             | apply safe_repeat; first [apply safe_uint; lia | apply safe_sint; lia] ]
      |cbv beta; intros ? ?]
  end.

Lemma safe_ids : safe read_ids (fun l => lenZ l <= UINT16_MAX /\ Forall s16 l).
Proof.
  unfold read_ids. repeat safe_step. eapply safe_weaken; [apply safe_repeat, safe_sint; lia|].
  intros l [Hlen Hl]. unfold UINT16_MAX, lenZ. split; [lia|done].
Qed.

Lemma safe_extras v :
  safe (read_extras v) (fun ex => (lenZ ex.1 < 2 ^ 32 /\ Forall s64 ex.1) /\ (lenZ ex.2 < 2 ^ 32 /\ Forall u32 ex.2)).
Proof.
  unfold read_extras. case_if; [|by apply safe_ret]. repeat safe_step. unfold lenZ, s64, u32. cbn.
  intuition lia.
Qed.

Lemma safe_node v : safe (deserialise_node v) node_wf.
Proof.
  unfold deserialise_node. safe_step.
  eapply safe_bind; [apply safe_ids|]. intros ins [_ Hin]. eapply safe_bind; [apply safe_ids|]. intros outs [_ Hout].
  repeat safe_step. eapply safe_bind; [apply safe_extras|]. intros [ei ef] [Hei Hef]. apply safe_ret.
  by split.
Qed.

Lemma safe_node_table n v :
  safe (deserialise_node_table n v) (fun g => Forall node_wf (nodes g) /\ g_inputs g = [] /\ g_outputs g = []).
Proof.
  eapply safe_bind; [apply safe_repeat, safe_node|]. intros ns [_ Hns]. apply safe_ret.
  rewrite foldl_add_node. done.
Qed.

Lemma safe_tv : safe parse_tv tv_wf.
Proof.
  unfold parse_tv. repeat safe_step. bool_to_prop. destruct_and!. split; cbn; try done.
  - unfold INT16_MAX. lia.
  - apply wrap_bound. lia.
  - unfold lenZ. split; [lia|done].
Qed.

Lemma safe_tval : safe parse_tval_payload (Forall tv_wf).
Proof.
  unfold parse_tval_payload. repeat safe_step. eapply safe_weaken; [apply safe_repeat, safe_tv|]. by intros l [_ ?].
Qed.

Lemma safe_io_ids e : e <> UndefinedBehaviour -> safe (read_io_ids e) io_wf.
Proof.
  intros He. unfold read_io_ids. repeat safe_step.
  eapply safe_weaken; [apply (safe_repeat _ _ id_ok)|].
  - repeat safe_step. bool_to_prop. unfold id_ok, INT16_MAX. lia.
  - intros l [Hlen Hl]. split; [unfold lenZ; lia|done].
Qed.

Lemma safe_iosp : safe parse_iosp_payload (fun io => io_wf io.1 /\ io_wf io.2).
Proof.
  unfold parse_iosp_payload. eapply safe_bind; [by apply safe_io_ids|]. intros ins Hin.
  eapply safe_bind; [by apply safe_io_ids|]. intros outs Hout. by apply safe_ret.
Qed.

Lemma safe_string e : e <> UndefinedBehaviour -> safe (read_string e) (fun _ => True).
Proof.
  intros He. unfold read_string. repeat safe_step.
  eapply safe_weaken; [apply safe_bytes; lia|done].
Qed.

Lemma safe_meta : safe parse_meta_payload (fun _ => True).
Proof.
  unfold parse_meta_payload. do 2 safe_step. eapply safe_bind; [apply safe_repeat|].
  - eapply safe_bind; [by apply safe_string|]. intros. eapply safe_bind; [by apply safe_string|].
    intros. by apply (safe_ret (fun _ => True)).
  - intros. by apply safe_ret.
Qed.

Lemma safe_mmpl : safe parse_mmpl_payload plan_wf.
Proof.
  unfold parse_mmpl_payload. repeat safe_step.
  eapply safe_bind; [apply (safe_repeat _ _ (fun x => id_ok (mp_id x) /\ byte (pool_index x) /\ u64 (mp_offset x)))|].
  - unfold parse_placement. repeat safe_step. bool_to_prop. unfold id_ok, INT16_MAX, byte, u64. cbn. lia.
  - intros ps [Hlen Hps]. apply safe_ret. destruct_and!. split; cbn; unfold lenZ; try (split; [lia|done]).
    destruct (Z.eqb_spec a 0); lia.
Qed.

(** What loading guarantees about the model it returns. *)
Record loaded_wf (m : LoadedModel) : Prop := {
  lw_nodes : Forall node_wf (nodes (m_graph m));
  lw_gin : Forall id_ok (g_inputs (m_graph m));
  lw_gout : Forall id_ok (g_outputs (m_graph m));
  lw_tvs : Forall tv_wf (tensor_values m);
  lw_blob : Forall byte (weight_blob m);
  lw_in : io_wf (m_inputs m);
  lw_out : io_wf (m_outputs m);
  lw_plan : forall p, memory_plan m = Some p -> plan_wf p
}.

Lemma run_payload_safe {A} (r : reader A) P payload :
  safe r P -> Forall byte payload ->
  match run_payload r payload with Ok a => P a | Err e => e <> UndefinedBehaviour end.
Proof.
  intros Hr Hp. unfold run_payload. specialize (Hr payload 0 Hp). pose proof (lenZ_nonneg payload).
  specialize (Hr ltac:(lia)). destruct (r payload 0) as [[a o]|e]; cbn; [by destruct Hr|done].
Qed.

Lemma parse_section_safe tag payload m :
  Forall byte payload -> loaded_wf m ->
  match parse_section tag payload m with Ok m' => loaded_wf m' | Err e => e <> UndefinedBehaviour end.
Proof.
  intros Hp [? ? ? ? ? ? ? ?]. unfold parse_section.
  pose proof (run_payload_safe _ _ _ safe_tval Hp) as Htv.
  pose proof (run_payload_safe _ _ _ safe_iosp Hp) as Hio.
  pose proof (run_payload_safe _ _ _ safe_meta Hp) as Hme.
  pose proof (run_payload_safe _ _ _ safe_mmpl Hp) as Hmm.
  repeat case_if.
  - destruct (run_payload parse_tval_payload payload); cbn; [|done]. by split.
  - by split.
  - destruct (run_payload parse_iosp_payload payload); cbn; [|done]. destruct Hio. by split.
  - destruct (run_payload parse_meta_payload payload); cbn; [|done]. by split.
  - destruct (run_payload parse_mmpl_payload payload); cbn; [|done]. split; cbn; try done. by intros p [= <-].
  - by split.
Qed.

Lemma safe_lift {A} (m : result A) P :
  match m with Ok a => P a | Err e => e <> UndefinedBehaviour end -> safe (rd_lift m) P.
Proof. intros H buf off _ Hoff. unfold rd_lift. destruct m; cbn; [|done]. split; [done|lia]. Qed.

Lemma read_section_safe m : loaded_wf m -> safe (read_section m) loaded_wf.
Proof.
  intros Hm. unfold read_section. do 2 safe_step.
  eapply safe_bind; [apply safe_payload; lia|]. intros p [_ Hp]. by apply safe_lift, parse_section_safe.
Qed.

Lemma read_sections_safe n m : loaded_wf m -> safe (read_sections n m) loaded_wf.
Proof.
  revert m. induction n as [|n IH]; intros m Hm; cbn [read_sections]; [by apply safe_ret|].
  eapply safe_bind; [by apply read_section_safe|]. exact IH.
Qed.

Lemma read_tlv_safe m : loaded_wf m -> safe (read_tlv m) loaded_wf.
Proof.
  intros Hm. unfold read_tlv. do 2 safe_step.
  eapply safe_bind; [by apply read_sections_safe|]. intros m' Hm'. apply safe_ret.
  destruct m' as [g tvs blob ins outs md plan], Hm' as [Hns Hgi Hgo Htv Hb Hi Ho Hp]. cbn in *.
  pose proof (proj2 Hi) as Hi2. pose proof (proj2 Ho) as Ho2.
  unfold hand_over_io. cbn. by destruct ins, outs; split.
Qed.

Lemma load_full_wf buf :
  Forall byte buf ->
  match load_full buf with Ok m => loaded_wf m | Err e => e <> UndefinedBehaviour end.
Proof.
  intros Hb. pose proof (lenZ_nonneg buf). unfold load_full.
  destruct (Z.ltb_spec (lenZ buf) HEADER_SIZE); cbn [throw_if rbind]; [done|].
  assert (safe read_header (fun h => 0 <= weight_data_offset h)) as Hh.
  { unfold read_header. repeat safe_step. cbn. lia. }
  specialize (Hh buf 0 Hb ltac:(lia)). destruct (read_header buf 0) as [[h o]|e]; cbn [rbind]; [|done].
  destruct Hh as [Ho _].
  destruct (negb (magic h =? TZLITE_MAGIC)); cbn [throw_if rbind]; [done|].
  destruct ((version h <? TZLITE_VERSION_MIN_SUPPORTED) || (version h >? TZLITE_VERSION));
    cbn [throw_if rbind]; [done|].
  pose proof (safe_node_table (h_num_nodes h) (version h) buf HEADER_SIZE Hb) as Ht.
  unfold HEADER_SIZE in *. specialize (Ht ltac:(lia)).
  destruct (deserialise_node_table _ _ buf 24) as [[g o']|e]; cbn [rbind]; [|done].
  destruct Ht as [(Hns & Hgi & Hgo) Ho'].
  assert (loaded_wf (mkModel g [] [] [] [] ∅ None)) as Hm.
  { split; cbn; rewrite ?Hgi, ?Hgo; try done; by constructor. }
  destruct (Z.ltb_spec (weight_data_offset h) (lenZ buf)); [|done].
  destruct (weight_data_offset h <? o'); cbn [throw_if rbind]; [done|].
  pose proof (read_tlv_safe _ Hm buf (weight_data_offset h) Hb ltac:(lia)) as Hr.
  destruct (read_tlv _ buf (weight_data_offset h)) as [[m o2]|e]; cbn [rbind]; [|done]. by destruct Hr.
Qed.


(** ** A concrete model *)

Definition sample_opts : WriteOptions :=
  mkOpts {[ 3 := mkTensorData 0 [1] [1; 2; 3; 4] ]} [0; 1] [4] {[ 0 := (0, [1]) ]}
    [([97], [98; 99])] (Some (mkPlan [64] 64 [mkPlacement 2 0 0])).

Definition bytes_or_nil (r : result (list Z)) : list Z := match r with Ok b => b | Err _ => [] end.

Lemma sample_node_wf i o : Forall s16 i -> Forall s16 o -> node_wf (mkNode 0 i o default_attrs).
Proof.
  intros Hi Ho. split; cbn; try done; unfold u16, u32, s64, lenZ; cbn; try lia;
    (split; [first [done|lia]|repeat constructor; lia]).
Qed.

Lemma sample_model_wf : model_wf sample_graph sample_opts.
Proof.
  split; [done| | | |].
  - cbn. apply Forall_cons; split; [|apply Forall_cons; split; [|constructor]];
      apply sample_node_wf; unfold s16; repeat constructor; lia.
  - unfold id_ok, INT16_MAX. repeat constructor; cbn; lia.
  - split; cbn.
    + unfold io_wf, id_ok, INT16_MAX, lenZ. cbn. split; [lia|]. repeat constructor; lia.
    + unfold io_wf, id_ok, INT16_MAX, lenZ. cbn. split; [lia|]. repeat constructor; lia.
    + unfold meta_wf, lenZ. cbn. split; [lia|]. split; [repeat constructor; cbn; lia|]. apply NoDup_singleton.
    + intros p [= <-]. split; cbn; unfold lenZ, u64, byte, id_ok, INT16_MAX; cbn; [|lia|];
        (split; [lia|]); repeat constructor; cbn; lia.
    + intros id t Ht. apply lookup_singleton_Some in Ht as [<- <-]. unfold id_ok, INT16_MAX, byte, lenZ, s64.
      cbn. repeat split; try lia. repeat constructor; lia.
    + intros id dt sh Ht. apply lookup_singleton_Some in Ht as [<- Ht]. injection Ht as <- <-.
      unfold byte, lenZ, s64. cbn. repeat split; try lia. repeat constructor; lia.
  - intros id t Ht. cbn in Ht. apply lookup_singleton_Some in Ht as [_ <-]. reflexivity.
Qed.

Lemma save_load_roundtrip_witness :
  load_full (bytes_or_nil (save sample_graph sample_opts)) =
    Ok (mkModel (mkGraph (nodes sample_graph) [0; 1] [4]) (build_tvs sample_graph sample_opts)
          [1; 2; 3; 4] [0; 1] [4] (list_to_map [([97], [98; 99])])
          (Some (mkPlan [64] 64 [mkPlacement 2 0 0]))).
Proof.
  refine (save_load_roundtrip sample_graph sample_opts _ sample_model_wf _ _).
  - vm_compute. reflexivity.
  - vm_compute. reflexivity.
Defined.

Lemma save_graph_roundtrip_witness :
  load_full (bytes_or_nil (save_graph sample_graph)) =
    Ok (mkModel (mkGraph (nodes sample_graph) [] []) [] [] [] [] ∅ None).
Proof.
  refine (save_graph_roundtrip sample_graph _ eq_refl (mw_nodes _ _ sample_model_wf) _ _).
  - vm_compute. reflexivity.
  - vm_compute. reflexivity.
Defined.

Lemma saved_weights_located_witness :
  exists tv, tv ∈ build_tvs sample_graph sample_opts /\ tv_id tv = 3 /\ source tv = TS_Weight /\
    take (Z.to_nat (weight_nbytes tv)) (drop (Z.to_nat (weight_offset tv)) [1; 2; 3; 4]) = [1; 2; 3; 4].
Proof.
  destruct (saved_weights_located sample_graph sample_opts 3 (mkTensorData 0 [1] [1; 2; 3; 4])
    sample_model_wf eq_refl eq_refl ltac:(vm_compute; set_solver)) as (tv & H1 & H2 & H3 & _ & _ & _ & _ & H4).
  exists tv. exact (conj H1 (conj H2 (conj H3 H4))).
Defined.

Lemma output_erases_source_witness :
  exists tv, tv ∈ build_tvs sample_graph sample_opts /\ tv_id tv = 4 /\ source tv = TS_Intermediate.
Proof. apply (output_erases_source sample_graph sample_opts 4 sample_model_wf). cbn. set_solver. Defined.


(** A graph that returns its own input: the saved table lists it as an
    intermediate, not as an input. *)
Example passthrough_source :
  map (fun tv => (tv_id tv, source tv))
    (build_tvs (mkGraph [] [0] [0]) (mkOpts ∅ [0] [0] {[ 0 := (0, [1]) ]} [] None)) = [(0, TS_Intermediate)].
Proof. vm_compute. reflexivity. Qed.

End Format.
