(* ===== verification/LiteRuntime.v ===== *)
(** * The Lite inference runtime

    Models src/lite/runtime.cpp, include/tenzor/lite/runtime.hpp,
    src/lite/tensor_bridge.cpp and [Tensor::from_blob] of src/core/tensor.cpp.
    A pointer to data is [None] (null) or the bytes from it to the end of the
    valid region; the system allocator and the registered kernels are
    arguments. *)

From stdpp Require Import base list numbers strings gmap sorting.
From S2P Require Import Prelude Shape DType LiteGraph LitePlanner LiteFormat.
Import TShape Planner Format.

Module Runtime.

(** ** Tensor views ([Tensor::from_blob]) *)

Record Tensor := mkTensor {
  t_shape : list Z;
  t_strides : list Z;
  t_dtype : Z;
  t_data : option (list Z);
  t_size_bytes : Z
}.

Definition err_dims := InvalidArgument "from_blob: shape dimensions must be non-negative".
Definition err_elements := OverflowError "from_blob: shape produces more than INT64_MAX elements".

Definition blob_numel_step (n dim : Z) : result Z :=
  let* _ := throw_if (dim <? 0) err_dims in
  let* _ := throw_if (negb (dim =? 0) && (safe_abs n >? INT64_MAX / safe_abs dim)) err_elements in
  i64 (n * dim).

Definition blob_numel (shape : list Z) : result Z := rfoldM blob_numel_step shape 1.

Definition from_blob (data : option (list Z)) (shape : list Z) (dtype : Z) : result Tensor :=
  let* strides := compute_strides shape in
  let* n := blob_numel shape in
  let* _ := throw_if ((n >? 0) && negb (bool_decide (is_Some data)))
              (RuntimeError "from_blob: data must not be null for non-empty tensor") in
  let elem_sz := dtype_size_raw dtype in
  let* _ := if (n >? 0) && (elem_sz =? 0) then Err UndefinedBehaviour
            else throw_if ((n >? 0) && (n >? UINT64_MAX / elem_sz))
                   (OverflowError "from_blob: byte size overflow") in
  Ok (mkTensor shape strides dtype data (wrap 64 (n * elem_sz))).

(** ** [LiteTensor] *)

Definition kMaxDims : Z := 8.

(** [shape] and [strides] are [std::array]s of [kMaxDims] elements. *)
Record LiteTensor := mkLT {
  lt_data : option (list Z);
  lt_shape : list Z;
  lt_strides : list Z;
  lt_ndim : Z;
  lt_dtype : Z;
  owns_data : bool
}.

Definition array_at (a : list Z) (i : nat) : result Z :=
  match a !! i with Some x => Ok x | None => Err UndefinedBehaviour end.

Definition numel (t : LiteTensor) : result Z :=
  rfoldM (fun n i => let* d := array_at (lt_shape t) i in i64 (n * d))
    (seq 0 (Z.to_nat (lt_ndim t))) 1.

(** [int64_t * size_t] is computed in [uint64_t] and converted back. *)
Definition nbytes (t : LiteTensor) : result Z :=
  rmap (fun n => sgn 64 (wrap 64 (wrap 64 n * dtype_size_raw (lt_dtype t)))) (numel t).

(** Row-major strides without overflow checks. *)
Fixpoint lite_strides (shape : list Z) : result (list Z) :=
  match shape with
  | [] => Ok []
  | _ :: shape' =>
      match shape' with
      | [] => Ok [1]
      | d1 :: _ =>
          let* ss := lite_strides shape' in
          let* s := i64 (default 1 (head ss) * d1) in
          Ok (s :: ss)
      end
  end.

(** A [std::array] starts zero-filled. *)
Definition pad8 (l : list Z) : list Z := l ++ replicate (8 - length l) 0.

(** ** The bridge (tensor_bridge.cpp) *)

Definition err_noncontiguous := InvalidArgument "view_as_tensor: non-contiguous LiteTensor strides are not supported".

Definition contiguity_step (expected : Z) (p : Z * Z) : result Z :=
  let* _ := throw_if ((p.1 >? 1) && negb (p.2 =? expected)) err_noncontiguous in
  i64 (expected * p.1).

Definition view_as_tensor (lt : LiteTensor) : result Tensor :=
  let* _ := throw_if ((lt_ndim lt <? 0) || (lt_ndim lt >? kMaxDims))
              (InvalidArgument "view_as_tensor: invalid ndim") in
  let n := Z.to_nat (lt_ndim lt) in
  let shape := take n (lt_shape lt) in
  let* _ := rfoldM contiguity_step (rev (zip shape (take n (lt_strides lt)))) 1 in
  from_blob (lt_data lt) shape (lt_dtype lt).

Section bridge.
(** [malloc]/[calloc] of that many bytes succeeds. *)
Context (alloc_ok : Z -> bool).

Definition err_count := OverflowError "to_lite_tensor: shape element count overflows int64".

Definition lite_numel (what : exn) (shape : list Z) : result Z :=
  rfoldM (fun n d => match checked_mul_overflow INT64_MAX n d with
                     | None => Err what | Some r => Ok r end) shape 1.

(** [src] is the content of [t.to(cpu).contiguous()]. *)
Definition to_lite_tensor (shape : list Z) (dtype : Z) (src : list Z) : result LiteTensor :=
  let* _ := throw_if (lenZ shape >? kMaxDims)
              (InvalidArgument "to_lite_tensor: tensor has more dims than LiteTensor::kMaxDims") in
  let* n := lite_numel err_count shape in
  let* strides := lite_strides shape in
  let* bytes := match checked_mul_overflow INT64_MAX n (dtype_size_raw dtype) with
                | None => Err (OverflowError "to_lite_tensor: tensor byte size overflows int64")
                | Some b => Ok b end in
  let* _ := throw_if ((n >? 0) && negb (alloc_ok bytes)) BadAlloc in
  let* data := if n >? 0 then rmap Some (memcpy_from src 0 bytes) else Ok None in
  Ok (mkLT data (pad8 shape) (pad8 strides) (lenZ shape) dtype true).

Definition create_input_step (n d : Z) : result Z :=
  let* _ := throw_if (d <? 0) (InvalidArgument "LiteRuntime::create_input: negative shape dimension") in
  match checked_mul_overflow INT64_MAX n d with
  | None => Err (OverflowError "LiteRuntime::create_input: shape element count overflows int64")
  | Some r => Ok r
  end.

Definition create_input (shape : list Z) (dtype : Z) : result LiteTensor :=
  let* _ := throw_if (lenZ shape >? kMaxDims)
              (InvalidArgument "LiteRuntime::create_input: shape has more dims than kMaxDims") in
  let* n := rfoldM create_input_step shape 1 in
  let* strides := lite_strides shape in
  let* bytes := match checked_mul_overflow INT64_MAX n (dtype_size_raw dtype) with
                | None => Err (OverflowError "LiteRuntime::create_input: tensor byte size overflows int64")
                | Some b => Ok b end in
  if alloc_ok bytes
  then Ok (mkLT (Some (replicate (Z.to_nat bytes) 0)) (pad8 shape) (pad8 strides) (lenZ shape) dtype true)
  else if bytes >? 0 then Err BadAlloc
  else Ok (mkLT None (pad8 shape) (pad8 strides) (lenZ shape) dtype true).

End bridge.

(** ** [LiteAllocator] *)

Record LiteAllocator := mkAlloc {
  pools : list (option Z);     (* null, or a block of that many bytes *)
  a_pool_sizes : list Z;
  total_bytes : Z;
  a_alignment : Z
}.

Section runtime.
Context (memalign_ok : Z -> Z -> bool).   (* alignment, size *)
Context (is_op_supported : Z -> bool).
Context (run_op : Z -> list Tensor -> LiteAttributes -> result (list Tensor)).
Context (to_lite : Tensor -> result LiteTensor).

Definition LiteAllocator_ctor (sizes : list Z) (align : Z) : result LiteAllocator :=
  rfoldM (fun a size =>
    let* p := if size >? 0
              then (if memalign_ok align size then Ok (Some size)
                    else Err (RuntimeError "LiteAllocator: failed to allocate "))
              else Ok None in
    Ok (mkAlloc (pools a ++ [p]) (a_pool_sizes a) (add64 (total_bytes a) size) (a_alignment a)))
    sizes (mkAlloc [] sizes 0 align).

Definition get_buffer (a : LiteAllocator) (buffer_id offset : Z) : result (option Z * Z) :=
  if buffer_id >=? lenZ (pools a) then Err (OutOfRange "LiteAllocator: buffer_id out of range")
  else match pools a !! Z.to_nat buffer_id with
       | Some p => Ok (p, offset)
       | None => Err UndefinedBehaviour
       end.

(** ** Loading *)

Record Impl := mkImpl {
  allocator : LiteAllocator;
  input_shapes : list (list Z);
  i_metadata : gmap (list Z) (list Z);
  i_graph : LiteGraph;
  tensor_values_by_id : list TensorValue;
  i_blob : list Z;
  i_plan : option MmplPlan
}.

Definition index_tensor_values (tvs : list TensorValue) : result (list TensorValue) :=
  let* max_id := rfoldM (fun m tv =>
      let* _ := throw_if (tv_id tv <? 0) (RuntimeError "LiteRuntime: negative tensor_id (") in
      Ok (Z.max m (tv_id tv))) tvs (-1) in
  if max_id <? 0 then Ok []
  else
    let out := map (fun i => mkTV (Z.of_nat i) TS_Intermediate 0 [] 0 0 0) (seq 0 (Z.to_nat (max_id + 1))) in
    Ok (foldl (fun out tv => <[Z.to_nat (tv_id tv) := tv]> out) out tvs).

Definition verify_op_coverage (g : LiteGraph) : result unit :=
  throw_if (negb (forallb (fun n => is_op_supported (op n)) (nodes g))) (RuntimeError "LiteRuntime::load: ").

(** The overflow-checked element count both validators use. *)
Definition u64_numel_step (e_neg e_over : exn) (n dim : Z) : result Z :=
  let* _ := throw_if (dim <? 0) e_neg in
  let udim := wrap 64 dim in
  let* _ := throw_if (negb (udim =? 0) && (n >? UINT64_MAX / udim)) e_over in
  Ok (wrap 64 (n * udim)).

Definition u64_numel (e_neg e_over : exn) (shape : list Z) : result Z :=
  rfoldM (u64_numel_step e_neg e_over) shape 1.

Definition err_place (what : string) := RuntimeError ("LiteRuntime::load: MMPL placement " +:+ what).

Definition check_placement (tvs : list TensorValue) (plan : MmplPlan) (p : MmplPlacement) : result unit :=
  let* _ := throw_if (pool_index p >=? lenZ (pool_sizes plan)) (err_place "references pool_index ") in
  let pool_bytes := default 0 (pool_sizes plan !! Z.to_nat (pool_index p)) in
  let* _ := throw_if ((mp_id p <? 0) || (wrap 64 (mp_id p) >=? lenZ tvs))
              (err_place "references unknown tensor_id ") in
  let tv := default default_tv (tvs !! Z.to_nat (mp_id p)) in
  let elem_size := dtype_size_raw (tv_dtype tv) in
  let* _ := throw_if (elem_size =? 0) (err_place "has an unknown/unsupported dtype") in
  let* n := u64_numel (err_place "has a negative shape dimension")
              (err_place "shape element count overflows") (tv_shape tv) in
  let* _ := throw_if (n >? UINT64_MAX / elem_size) (err_place "byte size overflows") in
  let tensor_bytes := wrap 64 (n * elem_size) in
  throw_if ((mp_offset p >? pool_bytes) || (tensor_bytes >? pool_bytes - mp_offset p))
    (err_place "does not fit in pool of size ").

Definition input_shape_of (tvs : list TensorValue) (tid : Z) : list Z :=
  if wrap 64 tid <? lenZ tvs then default [] (tv_shape <$> tvs !! Z.to_nat tid) else [].

Definition runtime_load (data : list Z) : result Impl :=
  let* _ := throw_if (lenZ data =? 0) (RuntimeError "LiteRuntime: empty model data") in
  let* model := load_full data in
  let* _ := verify_op_coverage (m_graph model) in
  let* tvs := index_tensor_values (tensor_values model) in
  let shapes := map (input_shape_of tvs) (m_inputs model) in
  match memory_plan model with
  | Some plan =>
      let* _ := rmapM (check_placement tvs plan) (placements plan) in
      let* a := LiteAllocator_ctor (pool_sizes plan) (alignment plan) in
      Ok (mkImpl a shapes (metadata model) (m_graph model) tvs (weight_blob model) (Some plan))
  | None =>
      let* a := LiteAllocator_ctor [] 64 in
      Ok (mkImpl a shapes (metadata model) (m_graph model) tvs (weight_blob model) None)
  end.

Definition from_graph (g : LiteGraph) : result Impl :=
  let* a := LiteAllocator_ctor [] 64 in Ok (mkImpl a [] ∅ g [] [] None).

Definition model_metadata (impl : Impl) (key : list Z) : list Z := default [] (i_metadata impl !! key).

(** ** Running *)

Definition err_fwd (what : string) := RuntimeError ("LiteRuntime::forward: " +:+ what).

Definition check_dim (lt : LiteTensor) (p : nat * Z) : result unit :=
  let '(d, want) := p in
  if want <? 0 then Ok tt
  else let* got := array_at (lt_shape lt) d in
       throw_if (negb (got =? want)) (err_fwd "shape mismatch at dim ").

Definition check_input (tvs : list TensorValue) (p : Z * LiteTensor) : result unit :=
  let '(tid, lt) := p in
  if (tid <? 0) || (wrap 64 tid >=? lenZ tvs) then Ok tt
  else
    let spec := default default_tv (tvs !! Z.to_nat tid) in
    if negb (source spec =? TS_Input) then Ok tt
    else
      let* _ := throw_if (negb (lt_dtype lt =? tv_dtype spec)) (err_fwd "dtype mismatch") in
      let* _ := throw_if (negb (wrap 64 (lt_ndim lt) =? lenZ (tv_shape spec))) (err_fwd "rank mismatch") in
      rmap (fun _ => tt)
        (rmapM (check_dim lt) (zip (seq 0 (length (tv_shape spec))) (tv_shape spec))).

Definition check_inputs (impl : Impl) (inputs : list LiteTensor) : result unit :=
  match tensor_values_by_id impl with
  | [] => Ok tt
  | tvs =>
      let ids := g_inputs (i_graph impl) in
      let* _ := throw_if (negb (length inputs =? length ids)%nat) (err_fwd "input count (") in
      rmap (fun _ => tt) (rmapM (check_input tvs) (zip ids inputs))
  end.

(** One weight of the table: validated, then viewed in place. *)
Definition weight_view (blob : list Z) (tv : TensorValue) : result Tensor :=
  let blob_size := lenZ blob in
  let* _ := throw_if ((weight_offset tv >? blob_size) || (weight_nbytes tv >? blob_size - weight_offset tv))
              (err_fwd "weight refers to bytes past end of WGTS payload") in
  let elem_size := dtype_size_raw (tv_dtype tv) in
  let* _ := throw_if (elem_size =? 0) (err_fwd "weight has an unknown/unsupported dtype") in
  let* n := u64_numel (err_fwd "weight has a negative shape dimension")
              (err_fwd "weight shape element count overflows") (tv_shape tv) in
  let* _ := throw_if (n >? UINT64_MAX / elem_size) (err_fwd "weight byte size overflows") in
  let expected_bytes := wrap 64 (n * elem_size) in
  let* _ := throw_if (negb (expected_bytes =? weight_nbytes tv)) (err_fwd "weight declared byte count (") in
  from_blob (Some (drop (Z.to_nat (weight_offset tv)) blob)) (tv_shape tv) (tv_dtype tv).

Definition add_constant (blob : list Z) (cs : gmap Z Tensor) (tv : TensorValue) : result (gmap Z Tensor) :=
  if negb (source tv =? TS_Weight) then Ok cs
  else
    let* t := weight_view blob tv in
    Ok (match cs !! tv_id tv with Some _ => cs | None => <[tv_id tv := t]> cs end).

Definition build_constants (impl : Impl) : result (gmap Z Tensor) :=
  if is_nil (tensor_values_by_id impl) || is_nil (i_blob impl) then Ok ∅
  else rfoldM (add_constant (i_blob impl)) (tensor_values_by_id impl) ∅.

Definition forward (impl : Impl) (inputs : list LiteTensor) : result (list LiteTensor) :=
  let* _ := throw_if ((num_nodes (i_graph impl) =? 0) && is_nil (g_inputs (i_graph impl)))
              (err_fwd "graph is empty. ") in
  let* _ := check_inputs impl inputs in
  let* constants := build_constants impl in
  execute view_as_tensor to_lite run_op (i_graph impl) inputs constants.

(** The single-input overload passes a non-owning copy. *)
Definition forward_single (impl : Impl) (input : LiteTensor) : result LiteTensor :=
  let view := mkLT (lt_data input) (lt_shape input) (lt_strides input) (lt_ndim input) (lt_dtype input) false in
  let* outs := forward impl [view] in
  match outs with
  | [out] => Ok out
  | _ => Err (RuntimeError "LiteRuntime::forward(single): graph produced ")
  end.

End runtime.
(** ** Lemmas *)

Lemma le_div_mul n d : 0 < d -> n <= UINT64_MAX / d <-> n * d <= UINT64_MAX.
Proof.
  intros Hd. pose proof (Z.mul_div_le UINT64_MAX d Hd). split; intros H'; [nia|].
  apply Z.div_le_lower_bound; lia.
Qed.

Lemma u64_numel_step_Ok e1 e2 n d m :
  s64 d -> 0 <= n -> u64_numel_step e1 e2 n d = Ok m ->
  0 <= d /\ m = n * d /\ n * d <= UINT64_MAX.
Proof.
  unfold s64, u64_numel_step. intros Hd Hn H. apply rbind_Ok in H as (? & H0 & H).
  apply rbind_Ok in H as (? & H1 & <-%Ok_inj). apply throw_if_Ok in H0. apply throw_if_Ok in H1.
  bool_to_prop. rewrite (wrap_small 64 d) in * by lia.
  apply andb_false_iff in H1. split; [done|].
  assert (n * d <= UINT64_MAX) as Hle.
  { destruct H1 as [H1|H1]; bool_to_prop; [subst; unfold UINT64_MAX; lia|].
    destruct (decide (d = 0)) as [->|]; [unfold UINT64_MAX; lia|]. apply le_div_mul; lia. }
  split; [|done]. apply wrap_small. unfold UINT64_MAX in *. nia.
Qed.

Lemma u64_numel_from e1 e2 shape n m :
  Forall s64 shape -> 0 <= n <= UINT64_MAX ->
  rfoldM (u64_numel_step e1 e2) shape n = Ok m ->
  Forall (fun d => 0 <= d) shape /\ m = n * prodZ shape /\ 0 <= m <= UINT64_MAX.
Proof.
  intros Hs. revert n. induction Hs as [|d shape Hd _ IH]; intros n Hn H; cbn [rfoldM prodZ] in *.
  - apply Ok_inj in H as <-. split; [constructor|]. split; lia.
  - apply rbind_Ok in H as (k & Hk & H). apply u64_numel_step_Ok in Hk as (Hd0 & -> & Hle); [|done|lia].
    destruct (IH (n * d) ltac:(nia) H) as (Hf & -> & Hm). split; [by constructor|]. split; [lia|done].
Qed.

Lemma u64_numel_Ok e1 e2 shape m :
  Forall s64 shape -> u64_numel e1 e2 shape = Ok m ->
  Forall (fun d => 0 <= d) shape /\ m = prodZ shape /\ 0 <= m <= UINT64_MAX.
Proof.
  intros Hs H. destruct (u64_numel_from e1 e2 shape 1 m Hs) as (? & -> & ?); [done|done|].
  rewrite Z.mul_1_l in *. done.
Qed.

(** Positive dimensions whose product fits are accepted. *)
Lemma u64_numel_fits e1 e2 shape n :
  Forall (fun d => 0 < d < 2 ^ 63) shape -> 0 < n -> n * prodZ shape <= UINT64_MAX ->
  rfoldM (u64_numel_step e1 e2) shape n = Ok (n * prodZ shape).
Proof.
  intros Hs. revert n. induction Hs as [|d shape Hd Hs IH]; intros n Hn Hle; cbn [rfoldM prodZ] in *.
  - f_equal. lia.
  - assert (0 < prodZ shape) by (apply prodZ_pos; eapply Forall_impl; [exact Hs|]; cbn; lia).
    assert (n * d <= UINT64_MAX) by nia.
    unfold u64_numel_step at 1. destruct (Z.ltb_spec d 0); [lia|]. cbn [throw_if rbind].
    rewrite (wrap_small 64 d) by lia. destruct (Z.eqb_spec d 0); [lia|].
    destruct (Z.gtb_spec n (UINT64_MAX / d)) as [Hg|_]; [apply le_div_mul in H0; lia|].
    cbn [negb andb throw_if rbind]. rewrite wrap_small by (unfold UINT64_MAX in *; nia).
    rewrite IH; [f_equal; lia|nia|lia].
Qed.

(** *** The dense table *)

Lemma foldl_insert_length {A B} (f : B -> nat) (g : B -> A) (l : list B) (out : list A) :
  length (foldl (fun out x => <[f x := g x]> out) out l) = length out.
Proof. revert out. induction l as [|x l IH]; intros out; cbn; [done|]. by rewrite IH, length_insert. Qed.

Lemma foldl_insert_lookup (tvs out : list TensorValue) k tv :
  foldl (fun out tv => <[Z.to_nat (tv_id tv) := tv]> out) out tvs !! k = Some tv ->
  (tv ∈ tvs /\ Z.to_nat (tv_id tv) = k) \/ out !! k = Some tv.
Proof.
  revert out. induction tvs as [|x tvs IH]; intros out H; cbn in H; [by right|].
  apply IH in H as [[Hin Hk]|H]; [left; set_solver|].
  apply list_lookup_insert_Some in H as [(<- & <- & _)|[_ H]]; [left; set_solver|by right].
Qed.

Lemma foldl_insert_in (tvs out : list TensorValue) tv :
  NoDup (map tv_id tvs) -> Forall (fun t => 0 <= tv_id t < lenZ out) tvs -> tv ∈ tvs ->
  foldl (fun out tv => <[Z.to_nat (tv_id tv) := tv]> out) out tvs !! Z.to_nat (tv_id tv) = Some tv.
Proof.
  revert out. induction tvs as [|x tvs IH]; intros out Hnd Hr Hin; [set_solver|].
  cbn in Hnd. apply NoDup_cons in Hnd as [Hx Hnd]. apply Forall_cons in Hr as [Hrx Hr]. cbn.
  assert (forall o : list TensorValue, o !! Z.to_nat (tv_id x) = Some x ->
    foldl (fun out tv => <[Z.to_nat (tv_id tv) := tv]> out) o tvs !! Z.to_nat (tv_id x) = Some x) as Hkeep.
  { clear -Hx Hr Hrx. induction tvs as [|y tvs IH]; intros o Ho; cbn; [done|].
    apply Forall_cons in Hr as [Hry Hr]. cbn in Hx. apply IH; [set_solver|done|].
    rewrite list_lookup_insert_ne; [done|]. intros Heq. apply Hx.
    assert (tv_id x = tv_id y) as -> by lia. set_solver. }
  apply elem_of_cons in Hin as [->|Hin].
  - apply Hkeep. apply list_lookup_insert_eq. unfold lenZ in Hrx. lia.
  - apply IH; [done| |done]. eapply Forall_impl; [exact Hr|]. intros t Ht. unfold lenZ in *.
    by rewrite length_insert.
Qed.

Lemma max_id_fold tvs m r :
  rfoldM (fun m tv =>
      let* _ := throw_if (tv_id tv <? 0) (RuntimeError "LiteRuntime: negative tensor_id (") in
      Ok (Z.max m (tv_id tv))) tvs m = Ok r ->
  m <= r /\ Forall (fun tv => 0 <= tv_id tv <= r) tvs.
Proof.
  revert m. induction tvs as [|tv tvs IH]; intros m H; cbn [rfoldM] in H.
  - apply Ok_inj in H as <-. split; [lia|constructor].
  - apply rbind_Ok in H as (m' & Hm' & H). apply rbind_Ok in Hm' as (? & Ht & <-%Ok_inj).
    apply throw_if_Ok in Ht. bool_to_prop. apply IH in H as [Hm Hf]. split; [lia|]. constructor; [lia|done].
Qed.

Lemma index_length tvs out :
  index_tensor_values tvs = Ok out -> Forall (fun tv => 0 <= tv_id tv < lenZ out) tvs.
Proof.
  unfold index_tensor_values. intros H. apply rbind_Ok in H as (m & Hm & H).
  apply max_id_fold in Hm as [Hm Hf]. case_if; bool_to_prop.
  - destruct tvs as [|tv tvs]; [done|]. apply Forall_cons in Hf as [? _]. lia.
  - apply Ok_inj in H as <-. eapply Forall_impl; [exact Hf|]. intros tv Ht. cbn in Ht.
    unfold lenZ. rewrite foldl_insert_length, length_map, length_seq. lia.
Qed.

Lemma index_lookup tvs out k tv :
  index_tensor_values tvs = Ok out -> out !! k = Some tv ->
  (tv ∈ tvs /\ tv_id tv = Z.of_nat k) \/ tv = mkTV (Z.of_nat k) TS_Intermediate 0 [] 0 0 0.
Proof.
  unfold index_tensor_values. intros H Hk. apply rbind_Ok in H as (m & Hm & H).
  apply max_id_fold in Hm as [Hm Hf]. case_if; apply Ok_inj in H as <-; [done|].
  apply foldl_insert_lookup in Hk as [[Hin Hk]|Hk].
  - left. split; [done|]. rewrite Forall_forall in Hf. specialize (Hf tv Hin). cbn in Hf. lia.
  - right. apply list_lookup_fmap_Some in Hk as (i & -> & Hi). apply lookup_seq in Hi as [-> _]. done.
Qed.

Lemma index_in tvs out tv :
  index_tensor_values tvs = Ok out -> NoDup (map tv_id tvs) -> tv ∈ tvs ->
  out !! Z.to_nat (tv_id tv) = Some tv.
Proof.
  intros H Hnd Hin. pose proof (index_length tvs out H) as Hl. unfold index_tensor_values in H.
  apply rbind_Ok in H as (m & Hm & H). case_if; apply Ok_inj in H as <-.
  - rewrite Forall_forall in Hl. specialize (Hl tv Hin). change (lenZ (@nil TensorValue)) with 0 in Hl. lia.
  - apply foldl_insert_in; [done| |done]. eapply Forall_impl; [exact Hl|]. intros t Ht. cbn in Ht.
    unfold lenZ in *. by rewrite foldl_insert_length in Ht.
Qed.

(** The table of well-formed entries is well-formed, up to the default slots. *)
Lemma index_s64 tvs out :
  Forall tv_wf tvs -> index_tensor_values tvs = Ok out -> Forall (fun tv => Forall s64 (tv_shape tv)) out.
Proof.
  intros Hw H. apply Forall_lookup. intros k tv Hk.
  destruct (index_lookup tvs out k tv H Hk) as [[Hin _]| ->]; [|constructor].
  rewrite Forall_forall in Hw. by destruct (Hw tv Hin) as [_ _ _ [_ ?] _ _ _].
Qed.

(** *** Placements and the arena *)

Lemma pools_from (sizes : list Z) (memalign_ok : Z -> Z -> bool) align a a' :
  rfoldM (fun (a : LiteAllocator) size =>
    let* p := if size >? 0
              then (if memalign_ok align size then Ok (Some size)
                    else Err (RuntimeError "LiteAllocator: failed to allocate "))
              else Ok None in
    Ok (mkAlloc (pools a ++ [p]) (a_pool_sizes a) (add64 (total_bytes a) size) (a_alignment a))) sizes a = Ok a' ->
  pools a' = pools a ++ map (fun size => if size >? 0 then Some size else None) sizes.
Proof.
  revert a. induction sizes as [|z sizes IH]; intros a H; cbn [rfoldM map] in *.
  - apply Ok_inj in H as <-. by rewrite app_nil_r.
  - apply rbind_Ok in H as (b & Hb & H). apply rbind_Ok in Hb as (q & Hq & <-%Ok_inj).
    rewrite (IH _ H). cbn. rewrite <-app_assoc. do 2 f_equal. cbn. f_equal.
    destruct (z >? 0); [destruct (memalign_ok align z)|]; try done; by apply Ok_inj in Hq.
Qed.

Lemma check_placement_Ok tvs plan p u :
  Forall (fun tv => Forall s64 (tv_shape tv)) tvs ->
  id_ok (mp_id p) -> byte (pool_index p) -> u64 (mp_offset p) ->
  check_placement tvs plan p = Ok u ->
  exists pool tv, pool_sizes plan !! Z.to_nat (pool_index p) = Some pool /\
    tvs !! Z.to_nat (mp_id p) = Some tv /\
    Forall (fun d => 0 <= d) (tv_shape tv) /\ 0 < dtype_size_raw (tv_dtype tv) /\
    mp_offset p + prodZ (tv_shape tv) * dtype_size_raw (tv_dtype tv) <= pool.
Proof.
  unfold id_ok, byte, u64. intros Hs Hid Hpi Hoff H. unfold check_placement in H.
  apply rbind_Ok in H as (? & H1%throw_if_Ok & H). apply rbind_Ok in H as (? & H2%throw_if_Ok & H).
  apply rbind_Ok in H as (? & H3%throw_if_Ok & H). apply rbind_Ok in H as (n & H4 & H).
  apply rbind_Ok in H as (? & H5%throw_if_Ok & H). apply throw_if_Ok in H. bool_to_prop.
  rewrite wrap_id in * by done.
  destruct (lookup_lt_is_Some_2 (pool_sizes plan) (Z.to_nat (pool_index p))) as [pool Hpool];
    [unfold lenZ in *; lia|].
  destruct (lookup_lt_is_Some_2 tvs (Z.to_nat (mp_id p))) as [tv Htv]; [unfold lenZ in *; lia|].
  exists pool, tv. rewrite Hpool, Htv in *. cbn [default] in *. unfold default, id in *.
  rewrite Forall_lookup in Hs. pose proof (dtype_size_raw_range (tv_dtype tv)).
  apply u64_numel_Ok in H4 as (Hd & -> & Hn); [|by apply (Hs _ _ Htv)].
  assert (prodZ (tv_shape tv) * dtype_size_raw (tv_dtype tv) <= UINT64_MAX) by (apply le_div_mul; lia).
  rewrite wrap_small in * by (unfold UINT64_MAX in *; nia).
  split; [done|]. split; [done|]. split; [done|]. split; lia.
Qed.

(** A runtime only ever holds a validated memory plan: after a successful
    load, each placement names an existing pool of the plan, for which the
    allocator holds a block of that size, and a known tensor whose whole byte
    extent, computed exactly, fits in the pool from its offset. *)
Theorem load_validates_plan memalign_ok is_op_supported data impl plan p :
  Forall byte data -> runtime_load memalign_ok is_op_supported data = Ok impl ->
  i_plan impl = Some plan -> p ∈ placements plan ->
  exists pool tv, pool_sizes plan !! Z.to_nat (pool_index p) = Some pool /\
    pools (allocator impl) !! Z.to_nat (pool_index p) = Some (if pool >? 0 then Some pool else None) /\
    tensor_values_by_id impl !! Z.to_nat (mp_id p) = Some tv /\
    Forall (fun d => 0 <= d) (tv_shape tv) /\
    mp_offset p + prodZ (tv_shape tv) * dtype_size_raw (tv_dtype tv) <= pool.
Proof.
  intros Hb H Hplan Hp. unfold runtime_load in H.
  apply rbind_Ok in H as (? & _ & H). apply rbind_Ok in H as (model & Hm & H).
  pose proof (load_full_wf data Hb) as Hw. rewrite Hm in Hw.
  apply rbind_Ok in H as (? & _ & H). apply rbind_Ok in H as (tvs & Htvs & H).
  pose proof (index_s64 _ _ (lw_tvs _ Hw) Htvs) as Hs.
  destruct (memory_plan model) as [plan'|] eqn:Hmp.
  - apply rbind_Ok in H as (us & Hc & H). apply rbind_Ok in H as (a & Ha & <-%Ok_inj).
    cbn in *. injection Hplan as ->.
    destruct (lw_plan _ Hw _ Hmp) as [_ _ [_ Hpl]]. rewrite Forall_forall in Hpl.
    destruct (Hpl p Hp) as (Hid & Hpi & Hoff). apply rmapM_Ok in Hc.
    apply list_elem_of_lookup in Hp as [k Hk]. destruct (Forall2_lookup_l _ _ _ _ _ Hc Hk) as (u & _ & Hu).
    destruct (check_placement_Ok tvs plan p u Hs Hid Hpi Hoff Hu) as (pool & tv & H1 & H2 & H3 & _ & H4).
    exists pool, tv. split; [done|]. split; [|done]. apply pools_from in Ha. rewrite Ha. cbn.
    change (map ?f ?l) with (f <$> l). by rewrite list_lookup_fmap, H1.
  - apply rbind_Ok in H as (a & _ & <-%Ok_inj). done.
Qed.

(** *** Weights *)

Lemma blob_numel_Ok shape n : blob_numel shape = Ok n -> n = prodZ shape /\ INT64_MIN <= n <= INT64_MAX.
Proof.
  unfold blob_numel. assert (forall m, INT64_MIN <= m <= INT64_MAX -> rfoldM blob_numel_step shape m = Ok n ->
    n = m * prodZ shape /\ INT64_MIN <= n <= INT64_MAX) as H.
  { induction shape as [|d shape IH]; intros m Hm H; cbn [rfoldM prodZ] in *.
    - apply Ok_inj in H as <-. split; [lia|done].
    - apply rbind_Ok in H as (k & Hk & H). unfold blob_numel_step in Hk.
      apply rbind_Ok in Hk as (? & _ & Hk). apply rbind_Ok in Hk as (? & _ & Hk).
      apply i64_Ok in Hk as [-> Hr]. destruct (IH _ Hr H) as [-> ?]. split; [lia|done]. }
  intros H'. apply H in H' as [-> ?]; [|done]. rewrite Z.mul_1_l in *. done.
Qed.

Lemma from_blob_Ok data shape dtype t :
  from_blob data shape dtype = Ok t ->
  t_shape t = shape /\ t_dtype t = dtype /\ t_data t = data /\
  compute_strides shape = Ok (t_strides t) /\
  t_size_bytes t = wrap 64 (prodZ shape * dtype_size_raw dtype).
Proof.
  unfold from_blob. intros H. apply rbind_Ok in H as (ss & Hss & H).
  apply rbind_Ok in H as (n & [-> _]%blob_numel_Ok & H). apply rbind_Ok in H as (? & _ & H).
  apply rbind_Ok in H as (? & _ & <-%Ok_inj). done.
Qed.

Lemma weight_view_Ok blob tv t :
  Forall s64 (tv_shape tv) -> 0 <= weight_offset tv -> weight_view blob tv = Ok t ->
  t_shape t = tv_shape tv /\ t_dtype t = tv_dtype tv /\
  t_data t = Some (drop (Z.to_nat (weight_offset tv)) blob) /\
  t_size_bytes t = weight_nbytes tv /\
  t_size_bytes t = prodZ (tv_shape tv) * dtype_size_raw (tv_dtype tv) /\
  weight_offset tv + t_size_bytes t <= lenZ blob /\ compute_strides (tv_shape tv) = Ok (t_strides t).
Proof.
  intros Hs Ho H. unfold weight_view in H.
  apply rbind_Ok in H as (? & H1%throw_if_Ok & H). apply rbind_Ok in H as (? & H2%throw_if_Ok & H).
  apply rbind_Ok in H as (n & H3 & H). apply rbind_Ok in H as (? & H4%throw_if_Ok & H).
  apply rbind_Ok in H as (? & H5%throw_if_Ok & H). bool_to_prop.
  apply u64_numel_Ok in H3 as (Hd & -> & Hn); [|done]. pose proof (dtype_size_raw_range (tv_dtype tv)).
  assert (prodZ (tv_shape tv) * dtype_size_raw (tv_dtype tv) <= UINT64_MAX) by (apply le_div_mul; lia).
  rewrite wrap_small in H5 by (unfold UINT64_MAX in *; nia).
  apply from_blob_Ok in H as (E1 & E2 & E3 & Hst & E4).
  rewrite wrap_small in E4 by (unfold UINT64_MAX in *; nia).
  repeat (split; [done || congruence|]). rewrite E4. split; [lia|done].
Qed.

Lemma add_constants_inv blob tvs cs cs' (P : Z -> Tensor -> Prop) :
  (forall id t, cs !! id = Some t -> P id t) ->
  (forall tv t, tv ∈ tvs -> source tv = TS_Weight -> weight_view blob tv = Ok t -> P (tv_id tv) t) ->
  rfoldM (add_constant blob) tvs cs = Ok cs' ->
  forall id t, cs' !! id = Some t -> P id t.
Proof.
  revert cs. induction tvs as [|tv tvs IH]; intros cs Hcs Hv H; cbn [rfoldM] in H.
  - apply Ok_inj in H as <-. done.
  - apply rbind_Ok in H as (cs1 & H1 & H). apply (IH cs1); [|intros; apply Hv; [set_solver|done|done]|done].
    unfold add_constant in H1. case_if; [by apply Ok_inj in H1 as <-|]. bool_to_prop.
    apply rbind_Ok in H1 as (t & Ht & <-%Ok_inj). intros id t' Hid.
    destruct (cs !! tv_id tv) eqn:E; [by apply Hcs|].
    apply lookup_insert_Some in Hid as [[<- <-]|[_ Hid]]; [|by apply Hcs]. apply Hv; [set_solver|done|done].
Qed.

(** Memory safety of the weights: in a loaded runtime, every weight view
    that [forward] builds lies inside the weight blob, and its size is exactly
    the number of bytes its shape and dtype ask for. *)
Theorem forward_weights_in_bounds memalign_ok is_op_supported data impl cs id t :
  Forall byte data -> runtime_load memalign_ok is_op_supported data = Ok impl ->
  build_constants impl = Ok cs -> cs !! id = Some t ->
  exists tv, tv ∈ tensor_values_by_id impl /\ tv_id tv = id /\ source tv = TS_Weight /\
    t_shape t = tv_shape tv /\ t_dtype t = tv_dtype tv /\
    t_data t = Some (drop (Z.to_nat (weight_offset tv)) (i_blob impl)) /\
    t_size_bytes t = prodZ (tv_shape tv) * dtype_size_raw (tv_dtype tv) /\
    0 <= weight_offset tv /\ weight_offset tv + t_size_bytes t <= lenZ (i_blob impl).
Proof.
  intros Hb H Hc Hid. unfold runtime_load in H.
  apply rbind_Ok in H as (? & _ & H). apply rbind_Ok in H as (model & Hm & H).
  pose proof (load_full_wf data Hb) as Hw. rewrite Hm in Hw.
  apply rbind_Ok in H as (? & _ & H). apply rbind_Ok in H as (tvs & Htvs & H).
  pose proof (index_s64 _ _ (lw_tvs _ Hw) Htvs) as Hs.
  assert (tensor_values_by_id impl = tvs) as Htab.
  { destruct (memory_plan model); [apply rbind_Ok in H as (? & _ & H)|];
      by apply rbind_Ok in H as (? & _ & <-%Ok_inj). }
  rewrite <-Htab in *. unfold build_constants in Hc. case_if.
  { apply Ok_inj in Hc as <-. by rewrite lookup_empty in Hid. }
  revert id t Hid. eapply add_constants_inv; [|clear Hc|exact Hc].
  - intros id t Hid. by rewrite lookup_empty in Hid.
  - intros tv t Hin Hsrc Hv. exists tv. rewrite Forall_forall in Hs.
    assert (0 <= weight_offset tv) as Hoff.
    { apply list_elem_of_lookup in Hin as [k Hk].
      destruct (index_lookup _ _ _ _ Htvs Hk) as [[Hin _]| ->]; [|cbn; lia].
      pose proof (lw_tvs _ Hw) as Ht. rewrite Forall_forall in Ht.
      destruct (Ht tv Hin) as [_ _ _ _ Hu _ _]. unfold u64 in Hu. lia. }
    destruct (weight_view_Ok _ tv t (Hs tv Hin) Hoff Hv) as (E1 & E2 & E3 & _ & E4 & E5 & _). done.
Qed.

(** *** The planner's plans are accepted *)

Lemma count_elems_Ok n shape m :
  Forall s64 shape -> 0 <= n <= UINT64_MAX -> count_elems n shape = inr m ->
  Forall (fun d => 0 < d) shape /\ m = n * prodZ shape /\ m <= UINT64_MAX.
Proof.
  intros Hs. revert n. induction Hs as [|d shape Hd _ IH]; intros n Hn H; cbn [count_elems prodZ] in *.
  - injection H as <-. split; [constructor|]. lia.
  - case_if; [done|]. bool_to_prop. unfold s64 in Hd. rewrite (wrap_small 64 d) in H by lia.
    rewrite checked_mul_overflow_spec in H by (unfold UINT64_MAX; lia). case_if; [|done]. bool_to_prop.
    destruct (IH (n * d) ltac:(nia) H) as (Hf & -> & ?). split; [by constructor|]. lia.
Qed.

Lemma count_elems_early n shape r : count_elems n shape = inl r -> r = 0 \/ r = UINT64_MAX.
Proof.
  revert n. induction shape as [|d shape IH]; intros n H; cbn in H; [done|].
  case_if; [injection H as <-; by left|]. destruct (checked_mul_overflow _ _ _); [by eapply IH|].
  injection H as <-. by right.
Qed.

Lemma bytes_of_exact tv :
  Forall s64 (tv_shape tv) -> 0 < bytes_of tv < UINT64_MAX ->
  Forall (fun d => 0 < d) (tv_shape tv) /\ 0 < dtype_size_raw (tv_dtype tv) /\
  bytes_of tv = prodZ (tv_shape tv) * dtype_size_raw (tv_dtype tv).
Proof.
  intros Hs Hb. unfold bytes_of in *. destruct (tv_shape tv) as [|d l] eqn:E; [lia|]. rewrite <-E in *.
  destruct (count_elems 1 (tv_shape tv)) as [r|n] eqn:Hc.
  - apply count_elems_early in Hc. lia.
  - apply count_elems_Ok in Hc as (Hf & -> & Hle); [|done|done]. rewrite Z.mul_1_l in *.
    pose proof (prodZ_pos _ Hf). pose proof (dtype_size_raw_range (tv_dtype tv)).
    rewrite checked_mul_overflow_spec in * by (unfold UINT64_MAX; lia).
    case_if; [|lia]. bool_to_prop. split; [done|]. split; [nia|done].
Qed.

(** Planner and loader agree: on a table indexed by id, every placement
    of a plan that [compute_memory_plan] returns passes the checks [load]
    makes, so that a file written with the planner's plan is not rejected. *)
Theorem planner_plan_accepted g tvs align plan p :
  Forall (fun tv => Forall s64 (tv_shape tv)) tvs -> lenZ tvs <= 32768 ->
  Forall (fun n => Forall s16 (output_ids n ++ input_ids n)) (nodes g) ->
  align = 0 \/ 2 <= align -> plan_fits g tvs align ->
  compute_memory_plan g tvs align = Some plan -> p ∈ placements plan ->
  check_placement tvs plan p = Ok tt.
Proof.
  intros Hs Hlen Hids Ha Hfit Hplan Hp.
  destruct (plan_spec g tvs align ltac:(lia) Hfit) as (plan' & Hplan' & Hin & _ & _ & Hall).
  assert (plan' = plan) as -> by congruence. clear Hplan'.
  destruct (Hall p Hp) as (Hpi & Hoff & _ & pool & Hpool & Hle & Hmax).
  destruct (proj1 (Hin (mp_id p)) (list_elem_of_fmap_2 _ _ _ Hp)) as ((i & n & Hn & Hid) & _ & Hz).
  assert (s16 (mp_id p)) as Hs16.
  { rewrite Forall_lookup in Hids. specialize (Hids _ _ Hn). rewrite Forall_forall in Hids. by apply Hids. }
  assert (2 <= plan_align align) by (unfold plan_align; case_if; bool_to_prop; lia).
  unfold size_of in *. case_if; [|lia]. bool_to_prop.
  assert (0 <= mp_id p) as Hpos.
  { destruct (decide (0 <= mp_id p)); [done|]. exfalso. unfold s16 in Hs16.
    assert (wrap 64 (mp_id p) = mp_id p + 2 ^ 64); [|lia].
    unfold wrap. symmetry. apply Zmod_unique with (-1); lia. }
  rewrite (wrap_small 64) in * by (unfold s16 in *; lia).
  destruct (tvs !! Z.to_nat (mp_id p)) as [tv|] eqn:Htv; cbn in *; [|lia]. unfold id in *.
  rewrite Forall_lookup in Hs. specialize (Hs _ _ Htv). pose proof (bytes_of_range tv).
  destruct (bytes_of_exact tv Hs) as (Hd & Hsz & Hb); [unfold UINT64_MAX in *; lia|].
  pose proof (prodZ_pos _ Hd). unfold check_placement. rewrite Hpi, Hpool. cbn [Z.geb Z.compare lenZ length Z.of_nat].
  change (0 >=? lenZ [pool]) with false. cbn [throw_if rbind].
  rewrite Z.geb_leb. destruct (Z.ltb_spec (mp_id p) 0); [lia|].
  rewrite (wrap_small 64) by (unfold s16 in *; lia).
  destruct (Z.leb_spec (lenZ tvs) (mp_id p)); [lia|]. cbn [orb throw_if rbind].
  rewrite Htv. cbn [default]. unfold default, id. destruct (Z.eqb_spec (dtype_size_raw (tv_dtype tv)) 0); [lia|].
  cbn [throw_if rbind]. unfold u64_numel. rewrite u64_numel_fits; [|  |lia|].
  2: { apply Forall_forall. intros d Hin'. rewrite Forall_forall in Hs, Hd. specialize (Hs d Hin').
       specialize (Hd d Hin'). unfold s64 in Hs. cbn in Hd. lia. }
  2: { unfold UINT64_MAX in *. nia. }
  rewrite Z.mul_1_l. cbn [rbind].
  destruct (Z.gtb_spec (prodZ (tv_shape tv)) (UINT64_MAX / dtype_size_raw (tv_dtype tv))) as [Hg|_].
  { exfalso. assert (prodZ (tv_shape tv) <= UINT64_MAX / dtype_size_raw (tv_dtype tv)); [|lia].
    apply le_div_mul; [lia|]. rewrite <-Hb. lia. }
  cbn [throw_if rbind]. rewrite <-Hb, wrap_small by (unfold UINT64_MAX in *; lia).
  change ([pool] !! Z.to_nat 0) with (Some pool). cbn.
  destruct (Z.gtb_spec (mp_offset p) pool); [lia|].
  destruct (Z.gtb_spec (bytes_of tv) (pool - mp_offset p)); [lia|done].
Qed.

(** *** Views are faithful to the caller's strides *)

Lemma contiguity_Ok shape strides e :
  length strides = length shape ->
  rfoldM contiguity_step (rev (zip shape strides)) 1 = Ok e ->
  e = prodZ shape /\ Forall2 (fun d p => d > 1 -> p.1 = p.2) shape (zip strides (suffix_prods shape)).
Proof.
  revert strides e. induction shape as [|d shape IH]; intros [|s strides] e Hlen H; try done; cbn in *.
  - apply Ok_inj in H as <-. split; [done|constructor].
  - rewrite rfoldM_app in H. apply rbind_Ok in H as (e' & He' & H). injection Hlen as Hlen.
    destruct (IH strides e' Hlen He') as [-> Hf]. rewrite rfoldM_single in H.
    unfold contiguity_step in H. apply rbind_Ok in H as (? & Hc%throw_if_Ok & H).
    apply i64_Ok in H as [-> _]. cbn in *. split; [lia|]. constructor; [|done]. cbn. intros Hd.
    apply andb_false_iff in Hc as [Hc|Hc]; bool_to_prop; lia.
Qed.

Lemma offset_agree shape strides idx :
  length strides = length shape ->
  Forall2 (fun d p => d > 1 -> p.1 = p.2) shape (zip strides (suffix_prods shape)) ->
  valid_index shape idx -> offset strides idx = offset (suffix_prods shape) idx.
Proof.
  intros Hlen Hf Hv. revert strides Hlen Hf.
  induction Hv as [|d i shape idx Hi Hv IH]; intros [|s strides] Hlen Hf; try done. cbn in *.
  inversion Hf as [|? ? ? ? Hd Hf']; subst. injection Hlen as Hlen. rewrite (IH strides Hlen Hf'). cbn in Hd.
  destruct (decide (d > 1)) as [Hg|Hg]; [by rewrite Hd|]. assert (i = 0) as -> by lia. lia.
Qed.

(** A [LiteTensor] that [view_as_tensor] accepts is viewed without
    reinterpretation: for every valid multi-index, the strides of the view
    address the element that the caller's own strides address. *)
Theorem view_as_tensor_faithful lt t idx :
  lenZ (lt_shape lt) = kMaxDims -> lenZ (lt_strides lt) = kMaxDims ->
  view_as_tensor lt = Ok t ->
  t_shape t = take (Z.to_nat (lt_ndim lt)) (lt_shape lt) /\ t_data t = lt_data lt /\
  (valid_index (t_shape t) idx ->
     offset (t_strides t) idx = offset (take (Z.to_nat (lt_ndim lt)) (lt_strides lt)) idx).
Proof.
  unfold kMaxDims, lenZ. intros L1 L2 H. unfold view_as_tensor in H.
  apply rbind_Ok in H as (? & Hn%throw_if_Ok & H). apply rbind_Ok in H as (e & He & H).
  apply from_blob_Ok in H as (E1 & _ & E3 & E4 & _). rewrite E1. split; [done|]. split; [done|].
  intros Hv. apply compute_strides_suffix in E4 as ->. symmetry.
  assert (length (take (Z.to_nat (lt_ndim lt)) (lt_strides lt)) =
          length (take (Z.to_nat (lt_ndim lt)) (lt_shape lt))) as Hlen by (rewrite !length_take; lia).
  apply contiguity_Ok in He as [_ Hf]; [|done]. by apply offset_agree.
Qed.

(** *** [create_input] *)

Lemma lite_strides_positive shape :
  Forall (fun d => 0 < d) shape -> prodZ shape <= INT64_MAX -> lite_strides shape = Ok (suffix_prods shape).
Proof.
  induction 1 as [|d shape Hd Hs IH]; intros Hle; [done|]. destruct shape as [|d1 shape]; [done|].
  change (lite_strides (d :: d1 :: shape)) with
    (let* ss := lite_strides (d1 :: shape) in let* s := i64 (default 1 (head ss) * d1) in Ok (s :: ss)).
  pose proof (prodZ_pos _ Hs) as Hp. cbn [prodZ] in Hle, Hp. rewrite IH by (cbn [prodZ]; nia).
  cbn [rbind suffix_prods head default]. unfold default, id.
  rewrite i64_in by (inversion Hs as [|? ? Hd1 Hs1]; subst; pose proof (prodZ_pos _ Hs1); unfold INT64_MIN; nia).
  cbn [rbind prodZ]. do 2 f_equal. lia.
Qed.

Lemma create_input_step_Ok n d :
  0 <= n -> 0 <= d -> n * d <= INT64_MAX -> create_input_step n d = Ok (n * d).
Proof.
  intros Hn Hd Hle. unfold create_input_step. destruct (Z.ltb_spec d 0); [lia|]. cbn [throw_if rbind].
  rewrite checked_mul_overflow_spec by (unfold INT64_MAX; lia).
  by destruct (Z.leb_spec (n * d) INT64_MAX); [|lia].
Qed.

Lemma create_numel_positive shape n :
  Forall (fun d => 0 < d) shape -> 0 < n -> n * prodZ shape <= INT64_MAX ->
  rfoldM create_input_step shape n = Ok (n * prodZ shape).
Proof.
  intros Hs. revert n. induction Hs as [|d shape Hd Hs IH]; intros n Hn Hle; cbn [rfoldM prodZ] in *.
  - f_equal. lia.
  - pose proof (prodZ_pos _ Hs). rewrite create_input_step_Ok by nia. cbn [rbind].
    rewrite IH; [f_equal; lia|nia|lia].
Qed.

(** [create_input] on a shape of at most eight positive dimensions whose
    byte size fits in [int64_t] returns an owned, zero-filled tensor of exactly
    that size with row-major strides, which [view_as_tensor] accepts; it can
    fail only by [bad_alloc]. *)
Theorem create_input_correct alloc_ok shape dtype :
  Forall (fun d => 0 < d) shape -> lenZ shape <= kMaxDims -> 0 < dtype_size_raw dtype ->
  prodZ shape * dtype_size_raw dtype <= INT64_MAX ->
  create_input alloc_ok shape dtype =
    let bytes := prodZ shape * dtype_size_raw dtype in
    if alloc_ok bytes
    then Ok (mkLT (Some (replicate (Z.to_nat bytes) 0)) (pad8 shape) (pad8 (suffix_prods shape))
               (lenZ shape) dtype true)
    else Err BadAlloc.
Proof.
  intros Hs Hlen Hd Hle. pose proof (prodZ_pos _ Hs). cbv zeta. unfold create_input.
  destruct (Z.gtb_spec (lenZ shape) kMaxDims); [lia|]. cbn [throw_if rbind].
  rewrite create_numel_positive by (try done; nia). cbn [rbind]. rewrite Z.mul_1_l.
  rewrite lite_strides_positive by (try done; nia). cbn [rbind].
  rewrite checked_mul_overflow_spec by (unfold INT64_MAX; lia).
  destruct (Z.leb_spec (prodZ shape * dtype_size_raw dtype) INT64_MAX); [|lia]. cbn [rbind].
  destruct (alloc_ok _); [done|]. destruct (Z.gtb_spec (prodZ shape * dtype_size_raw dtype) 0); [done|nia].
Qed.

Lemma create_input_correct_witness :
  create_input (fun _ => true) [2; 3] 0 =
  Ok (mkLT (Some (replicate 24 0)) [2; 3; 0; 0; 0; 0; 0; 0] [3; 1; 0; 0; 0; 0; 0; 0] 2 0 true).
Proof.
  refine (create_input_correct (fun _ => true) [2; 3] 0 _ _ _ _);
    [repeat constructor; lia | vm_compute; discriminate | vm_compute; reflexivity | vm_compute; discriminate].
Defined.

(** The stride computation of [create_input] is not covered by its
    overflow checks: a zero dimension in front makes the element count 0, and
    then the row-major strides of the other dimensions overflow [int64_t]. *)
Theorem create_input_zero_dim_overflows alloc_ok dtype a b :
  0 < a <= INT64_MAX -> 0 < b <= INT64_MAX -> INT64_MAX < b * a ->
  create_input alloc_ok [0; a; b] dtype = Err UndefinedBehaviour.
Proof.
  intros Ha Hb Hab. unfold create_input. change (lenZ [0; a; b] >? kMaxDims) with false. cbn [throw_if rbind].
  assert (rfoldM create_input_step [0; a; b] 1 = Ok 0) as ->.
  { cbn [rfoldM]. rewrite create_input_step_Ok by (unfold INT64_MAX; lia). cbn [rbind].
    rewrite Z.mul_0_r, create_input_step_Ok by (unfold INT64_MAX; lia). cbn [rbind].
    rewrite Z.mul_0_l, create_input_step_Ok by (unfold INT64_MAX; lia). done. }
  cbn [rbind]. cbn [lite_strides rbind head default]. unfold default, id.
  rewrite Z.mul_1_l, (i64_in b) by (unfold INT64_MIN; lia). cbn [rbind head]. unfold i64.
  destruct (in_i64 (b * a)) eqn:E; [apply in_i64_spec in E; lia|done].
Qed.

Lemma create_input_zero_dim_overflows_witness :
  create_input (fun _ => true) [0; 1099511627776; 1099511627776] 0 = Err UndefinedBehaviour.
Proof. apply create_input_zero_dim_overflows; unfold INT64_MAX; lia. Defined.

(** *** Input validation *)

Lemma check_input_Ok tvs tid lt spec u :
  0 <= tid <= INT16_MAX -> tvs !! Z.to_nat tid = Some spec -> source spec = TS_Input ->
  - 2 ^ 31 <= lt_ndim lt < 2 ^ 31 -> lenZ (tv_shape spec) <= 255 ->
  check_input tvs (tid, lt) = Ok u ->
  lt_dtype lt = tv_dtype spec /\ lt_ndim lt = lenZ (tv_shape spec) /\
  forall d want, tv_shape spec !! d = Some want -> 0 <= want -> lt_shape lt !! d = Some want.
Proof.
  intros Htid Hspec Hsrc Hnd Hlen H. unfold check_input in H. rewrite wrap_id in H by done.
  pose proof (lookup_lt_Some _ _ _ Hspec) as Hlt.
  destruct (Z.ltb_spec tid 0); [lia|]. rewrite Z.geb_leb in H.
  destruct (Z.leb_spec (lenZ tvs) tid); [unfold lenZ in *; lia|]. cbn [orb] in H.
  rewrite Hspec in H. cbn [default] in H. unfold default, id in H. rewrite Hsrc in H. cbn [negb Z.eqb TS_Input] in H.
  apply rbind_Ok in H as (? & Hdt%throw_if_Ok & H). apply rbind_Ok in H as (? & Hrk%throw_if_Ok & H).
  bool_to_prop. split; [done|]. pose proof (lenZ_nonneg (tv_shape spec)).
  assert (lt_ndim lt = lenZ (tv_shape spec)) as Hrank.
  { destruct (decide (0 <= lt_ndim lt)); [rewrite wrap_small in Hrk; lia|]. exfalso.
    assert (wrap 64 (lt_ndim lt) = lt_ndim lt + 2 ^ 64); [|lia].
    unfold wrap. symmetry. apply Zmod_unique with (-1); lia. }
  split; [done|]. intros d want Hd Hw.
  destruct (rmapM _ _) as [us|] eqn:Hus in H; [|done]. apply rmapM_Ok in Hus.
  assert (zip (seq 0 (length (tv_shape spec))) (tv_shape spec) !! d = Some (d, want)) as Hz.
  { apply lookup_zip_with_Some. exists d, want. split; [done|]. split; [|done].
    apply lookup_seq. split; [done|]. by eapply lookup_lt_Some. }
  destruct (Forall2_lookup_l _ _ _ _ _ Hus Hz) as (u' & _ & Hu). cbn in Hu.
  destruct (Z.ltb_spec want 0); [lia|]. apply rbind_Ok in Hu as (got & Hg & Hu%throw_if_Ok).
  bool_to_prop. unfold array_at in Hg. destruct (lt_shape lt !! d); [|done]. apply Ok_inj in Hg. congruence.
Qed.

(** Every input bound to a known id has been checked. *)
Lemma checked_input impl inputs i tid lt u :
  check_inputs impl inputs = Ok u -> g_inputs (i_graph impl) !! i = Some tid -> inputs !! i = Some lt ->
  is_Some (tensor_values_by_id impl !! Z.to_nat tid) ->
  exists u', check_input (tensor_values_by_id impl) (tid, lt) = Ok u'.
Proof.
  intros Hc Hid Hlt [spec Hspec]. unfold check_inputs in Hc.
  destruct (tensor_values_by_id impl) as [|tv0 tvs]; [done|].
  apply rbind_Ok in Hc as (? & _ & Hc). destruct (rmapM _ _) as [us|] eqn:Hus in Hc; [|done].
  apply rmapM_Ok in Hus.
  assert (zip (g_inputs (i_graph impl)) inputs !! i = Some (tid, lt)) as Hz.
  { apply lookup_zip_with_Some. by exists tid, lt. }
  destruct (Forall2_lookup_l _ _ _ _ _ Hus Hz) as (u' & _ & Hu). by exists u'.
Qed.

(** No kernel runs on an input that contradicts the model: if [forward]
    returns, every caller tensor bound to an id the table declares as an input
    has the declared dtype, rank, and every declared non-negative extent. *)
Theorem forward_validates_inputs run_op to_lite impl inputs outs i tid lt spec :
  forward run_op to_lite impl inputs = Ok outs ->
  g_inputs (i_graph impl) !! i = Some tid -> inputs !! i = Some lt -> 0 <= tid <= INT16_MAX ->
  - 2 ^ 31 <= lt_ndim lt < 2 ^ 31 ->
  tensor_values_by_id impl !! Z.to_nat tid = Some spec -> source spec = TS_Input ->
  lenZ (tv_shape spec) <= 255 ->
  lt_dtype lt = tv_dtype spec /\ lt_ndim lt = lenZ (tv_shape spec) /\
  forall d want, tv_shape spec !! d = Some want -> 0 <= want -> lt_shape lt !! d = Some want.
Proof.
  intros H Hid Hlt Htid Hnd Hspec Hsrc Hlen. unfold forward in H.
  apply rbind_Ok in H as (? & _ & H). apply rbind_Ok in H as (u & Hc & _).
  destruct (checked_input impl inputs i tid lt u Hc Hid Hlt) as [u' Hu]; [by eexists|].
  by eapply check_input_Ok.
Qed.

(** *** From the writer to the kernels *)

Lemma input_table_source opts id tv : find_tv (input_table opts) id = Some tv -> source tv = TS_Input.
Proof.
  unfold input_table. revert tv.
  apply (foldl_inv (fun tvs => forall tv, find_tv tvs id = Some tv -> source tv = TS_Input)); [done|].
  intros tvs [i x] _ IH tv. rewrite find_add_or_update by apply keeps_id_input. case_if; [|apply IH].
  intros [= <-]. unfold declare_input. cbn. by destruct (input_specs opts !! _) as [[? ?]|].
Qed.

(** The weight entries of the table are the saved weights, where they were put. *)
Lemma table_weight_entry g opts tv :
  model_wf g opts -> lenZ (weight_layout opts).1 < 2 ^ 64 ->
  tv ∈ build_tvs g opts -> source tv = TS_Weight ->
  exists t, weights opts !! tv_id tv = Some t /\ tv_shape tv = td_shape t /\ tv_dtype tv = td_dtype t /\
    located opts (weight_layout opts).1 (tv_id tv, (weight_offset tv, weight_nbytes tv)).
Proof.
  intros Hwf Hb Hin Hsrc. pose proof Hwf as [Hc Hn Ho Hw Hsz].
  destruct (weight_layout_located opts Hsz) as [Hl Hids]. rewrite Forall_forall in Hl.
  rewrite build_tvs_phases, merge_sort_Permutation in Hin.
  assert (table_ok (mark_intermediate (weight_table opts) (produced g opts))) as [Hnd _].
  { apply mark_intermediate_ok; [|by apply weight_table_ok]. apply Forall_app. split; [by apply ow_outputs|].
    apply Forall_concat, Forall_fmap. exact Ho. }
  assert (find_tv (mark_intermediate (weight_table opts) (produced g opts)) (tv_id tv) = Some tv) as Hf
    by (by apply find_tv_elem).
  rewrite find_mark in Hf. case_decide as Hp.
  { injection Hf as Heq. assert (source tv = TS_Intermediate) as Hs by (by rewrite <-Heq).
    rewrite Hs in Hsrc. discriminate Hsrc. }
  unfold weight_table in Hf.
  destruct (find_weights opts (weight_layout opts).2 (input_table opts) (tv_id tv)) as [Hyes Hno].
  { rewrite Hids. apply weight_ids_nodup. }
  { intros l Hlin. destruct (Hl l Hlin) as (? & -> & _). by eexists. }
  destruct (decide (tv_id tv ∈ map fst (weight_layout opts).2)) as [Hloc|Hloc].
  - apply list_elem_of_fmap in Hloc as ([x [off nb]] & Hx & Hloc). cbn in Hx. subst x.
    pose proof (Hl _ Hloc) as Hlt. destruct Hlt as (t & Ht & Hrest). cbn in Ht.
    rewrite (Hyes _ t Hloc Ht) in Hf. injection Hf as Heq.
    assert (tv_shape tv = td_shape t /\ tv_dtype tv = td_dtype t /\ weight_offset tv = off /\
      weight_nbytes tv = nb) as (E1 & E2 & E3 & E4) by (rewrite <-Heq; done).
    exists t. split; [done|]. split; [done|]. split; [done|]. exists t. rewrite E3, E4. done.
  - rewrite (Hno Hloc) in Hf. apply input_table_source in Hf. rewrite Hf in Hsrc. discriminate Hsrc.
Qed.

Lemma saved_blob_small g opts bytes :
  save g opts = Ok bytes -> lenZ bytes < 2 ^ 64 -> lenZ (weight_layout opts).1 < 2 ^ 64.
Proof.
  intros Hsave Hb. unfold save in Hsave. apply rbind_Ok in Hsave as (nb & _ & <-%Ok_inj).
  rewrite !lenZ_app in Hb. pose proof (blob_le_sections opts (build_tvs g opts)).
  pose proof (lenZ_nonneg nb). pose proof (lenZ_nonneg (append_pod 4 (section_count opts))).
  rewrite lenZ_build_header in Hb. unfold HEADER_SIZE in Hb. lia.
Qed.

(** What the constructor of [Tensor] has checked of a weight. *)
Definition tensor_valid (t : TensorData) : Prop :=
  Forall (fun d => 0 <= d) (td_shape t) /\ is_ok (compute_strides (td_shape t)) = true /\
  is_ok (blob_numel (td_shape t)) = true /\ 0 < dtype_size_raw (td_dtype t) /\
  prodZ (td_shape t) * dtype_size_raw (td_dtype t) <= UINT64_MAX.

Lemma blob_u64_agree e1 e2 shape m n :
  Forall (fun d => 0 <= d < 2 ^ 63) shape -> 0 <= m <= INT64_MAX ->
  rfoldM blob_numel_step shape m = Ok n -> rfoldM (u64_numel_step e1 e2) shape m = Ok n.
Proof.
  intros Hs. revert m. induction Hs as [|d shape Hd _ IH]; intros m Hm H; cbn [rfoldM] in *; [done|].
  apply rbind_Ok in H as (k & Hk & H). unfold blob_numel_step in Hk.
  apply rbind_Ok in Hk as (? & _ & Hk). apply rbind_Ok in Hk as (? & _ & Hk). apply i64_Ok in Hk as [-> Hr].
  unfold u64_numel_step at 1. destruct (Z.ltb_spec d 0); [lia|]. cbn [throw_if rbind].
  rewrite (wrap_small 64 d) by lia.
  assert (negb (d =? 0) && (m >? UINT64_MAX / d) = false) as ->.
  { destruct (Z.eqb_spec d 0); [done|]. cbn. destruct (Z.gtb_spec m (UINT64_MAX / d)) as [Hg|]; [|done].
    exfalso. assert (m <= UINT64_MAX / d); [|lia]. apply le_div_mul; [lia|]. unfold INT64_MAX, UINT64_MAX in *. lia. }
  cbn [throw_if rbind]. rewrite wrap_small by (unfold INT64_MAX in *; nia). apply IH; [nia|done].
Qed.

Lemma from_blob_total t data : tensor_valid t -> exists v, from_blob (Some data) (td_shape t) (td_dtype t) = Ok v.
Proof.
  intros (Hd & Hst & Hn & Hsz & Hle). apply is_ok_Ok in Hn as [n Hn]. pose proof (blob_numel_Ok _ _ Hn) as [-> Hr].
  apply is_ok_Ok in Hst as [ss Hst]. unfold from_blob. rewrite Hst, Hn. cbn [rbind]. rewrite bool_decide_true by (by eexists).
  assert (prodZ (td_shape t) <= UINT64_MAX / dtype_size_raw (td_dtype t)) as Hdiv by (by apply le_div_mul).
  cbn [negb]. rewrite andb_false_r. cbn [throw_if rbind].
  destruct (Z.eqb_spec (dtype_size_raw (td_dtype t)) 0); [lia|]. rewrite andb_false_r.
  destruct (Z.gtb_spec (prodZ (td_shape t)) (UINT64_MAX / dtype_size_raw (td_dtype t))); [lia|].
  rewrite andb_false_r. cbn [throw_if rbind]. by eexists.
Qed.

Lemma weight_view_total opts blob tv t :
  tensor_valid t -> Forall s64 (td_shape t) -> tv_shape tv = td_shape t -> tv_dtype tv = td_dtype t ->
  weights opts !! tv_id tv = Some t -> located opts blob (tv_id tv, (weight_offset tv, weight_nbytes tv)) ->
  exists v, weight_view blob tv = Ok v.
Proof.
  intros Hval Hs Esh Edt Ht (t' & Ht' & Hoff & Hnb & Hin & _). cbn in *.
  assert (t' = t) as -> by congruence. pose proof Hval as (Hd & _ & Hn & Hsz & Hle).
  pose proof (prodZ_nonneg _ Hd). pose proof (td_nbytes_bound t).
  apply is_ok_Ok in Hn as [n Hn]. pose proof (blob_numel_Ok _ _ Hn) as [-> Hr].
  assert (u64_numel (err_fwd "weight has a negative shape dimension")
    (err_fwd "weight shape element count overflows") (td_shape t) = Ok (prodZ (td_shape t))) as Hu.
  { apply blob_u64_agree; [|unfold INT64_MAX; lia|exact Hn]. apply Forall_forall. intros d Hdin.
    rewrite Forall_forall in Hd, Hs. specialize (Hd d Hdin). specialize (Hs d Hdin). unfold s64 in Hs. cbn in Hd. lia. }
  assert (td_nbytes t = prodZ (td_shape t) * dtype_size_raw (td_dtype t)) as Hnbt.
  { apply wrap_small. unfold UINT64_MAX in *. nia. }
  assert (prodZ (td_shape t) <= UINT64_MAX / dtype_size_raw (td_dtype t)) as Hdiv by (by apply le_div_mul).
  unfold weight_view. rewrite Esh, Edt, Hu.
  destruct (Z.gtb_spec (weight_offset tv) (lenZ blob)); [lia|].
  destruct (Z.gtb_spec (weight_nbytes tv) (lenZ blob - weight_offset tv)); [lia|]. cbn [orb throw_if rbind].
  destruct (Z.eqb_spec (dtype_size_raw (td_dtype t)) 0); [lia|]. cbn [throw_if rbind].
  destruct (Z.gtb_spec (prodZ (td_shape t)) (UINT64_MAX / dtype_size_raw (td_dtype t))); [lia|].
  cbn [throw_if rbind]. rewrite <-Hnbt, wrap_small, Hnb, Z.eqb_refl by done. cbn [negb throw_if rbind].
  by apply from_blob_total.
Qed.

Lemma constants_total blob tvs cs :
  (forall tv, tv ∈ tvs -> source tv = TS_Weight -> exists v, weight_view blob tv = Ok v) ->
  exists cs', rfoldM (add_constant blob) tvs cs = Ok cs' /\
    (forall id v, cs !! id = Some v -> cs' !! id = Some v) /\
    (forall tv, tv ∈ tvs -> source tv = TS_Weight -> is_Some (cs' !! tv_id tv)).
Proof.
  revert cs. induction tvs as [|tv tvs IH]; intros cs Hv; cbn [rfoldM].
  - exists cs. split; [done|]. split; [done|]. set_solver.
  - assert (exists cs1, add_constant blob cs tv = Ok cs1 /\ (forall id v, cs !! id = Some v -> cs1 !! id = Some v) /\
      (source tv = TS_Weight -> is_Some (cs1 !! tv_id tv))) as (cs1 & -> & Hk1 & Hs1).
    { unfold add_constant. destruct (Z.eqb_spec (source tv) TS_Weight) as [Hs|Hs]; cbn [negb].
      - destruct (Hv tv ltac:(set_solver) Hs) as [v ->]. cbn [rbind]. destruct (cs !! tv_id tv) eqn:E.
        + exists cs. split; [done|]. split; [done|]. intros _. by rewrite E.
        + eexists. split; [done|]. split; [|intros _; rewrite lookup_insert_eq; by eexists].
          intros id v' Hid. rewrite lookup_insert_ne; [done|]. congruence.
      - by exists cs. }
    cbn [rbind]. destruct (IH cs1) as (cs' & Hcs' & Hk' & Hs'); [intros; apply Hv; [set_solver|done]|].
    exists cs'. split; [done|]. split; [by auto|]. intros tv' [->|Hin]%elem_of_cons Hs.
    + destruct (Hs1 Hs) as [v Hvv]. rewrite (Hk' _ _ Hvv). by eexists.
    + by apply Hs'.
Qed.

(** [v] is the view of a saved weight. *)
Definition views (v : Tensor) (t : TensorData) : Prop :=
  t_shape v = td_shape t /\ t_dtype v = td_dtype t /\ compute_strides (td_shape t) = Ok (t_strides v) /\
  t_size_bytes v = td_nbytes t /\
  exists region, t_data v = Some region /\ take (Z.to_nat (t_size_bytes v)) region = td_bytes t.

(** The constants are views of the saved weights, of all but those that are outputs. *)
Lemma saved_constants memalign_ok is_op_supported g opts bytes impl :
  model_wf g opts -> (forall id t, weights opts !! id = Some t -> tensor_valid t) ->
  save g opts = Ok bytes -> lenZ bytes < 2 ^ 64 ->
  runtime_load memalign_ok is_op_supported bytes = Ok impl -> (weight_layout opts).1 <> [] ->
  exists cs, build_constants impl = Ok cs /\
    (forall id v, cs !! id = Some v -> exists t, weights opts !! id = Some t /\ views v t) /\
    (forall id t, weights opts !! id = Some t -> id ∉ produced g opts -> is_Some (cs !! id)).
Proof.
  intros Hwf Hval Hsave Hb Hload Hne. pose proof (save_load g opts bytes Hwf Hsave Hb) as Hm.
  pose proof Hwf as [_ _ Ho Hw Hsz].
  assert (lenZ (weight_layout opts).1 < 2 ^ 64) as Hblob by (by eapply saved_blob_small).
  pose proof (build_tvs_ok g opts Hw Hsz Hblob Ho) as [Hnd Htw].
  unfold runtime_load in Hload. apply rbind_Ok in Hload as (? & _ & Hload). rewrite Hm in Hload. cbn [rbind] in Hload.
  apply rbind_Ok in Hload as (? & _ & Hload). apply rbind_Ok in Hload as (tvs & Htvs & Hload).
  cbn [m_inputs m_graph tensor_values weight_blob metadata memory_plan] in *.
  assert (tensor_values_by_id impl = tvs /\ i_blob impl = (weight_layout opts).1) as [Et Eb].
  { destruct (o_plan opts); [apply rbind_Ok in Hload as (? & _ & Hload)|];
      by apply rbind_Ok in Hload as (? & _ & <-%Ok_inj). }
  assert (forall tv, tv ∈ tvs -> source tv = TS_Weight -> tv ∈ build_tvs g opts) as Hin.
  { intros tv Htv Hs. apply list_elem_of_lookup in Htv as [k Hk].
    destruct (index_lookup _ _ _ _ Htvs Hk) as [[? _]| ->]; done. }
  assert (forall tv, tv ∈ tvs -> source tv = TS_Weight -> exists v t,
    weight_view (weight_layout opts).1 tv = Ok v /\ weights opts !! tv_id tv = Some t /\
    views v t) as Hview.
  { intros tv Htv Hs. destruct (table_weight_entry g opts tv Hwf Hblob (Hin tv Htv Hs) Hs) as (t & Ht & E1 & E2 & El).
    destruct (ow_weights opts Hw _ _ Ht) as (_ & _ & _ & Hs64).
    destruct (weight_view_total opts _ tv t (Hval _ _ Ht) Hs64 E1 E2 Ht El) as [v Hv].
    destruct El as (t' & Ht' & Hoff & Hnb & _ & Hbytes). cbn in *. assert (t' = t) as -> by congruence.
    destruct (weight_view_Ok _ tv v ltac:(by rewrite E1) Hoff Hv) as (V1 & V2 & V3 & V4 & _ & _ & V5).
    exists v, t. split; [done|]. split; [done|]. split; [congruence|]. split; [congruence|]. rewrite <-E1.
    split; [done|]. split; [congruence|]. eexists. split; [exact V3|]. by rewrite V4. }
  destruct (constants_total (weight_layout opts).1 tvs ∅) as (cs & Hcs & _ & Hall).
  { intros tv Htv Hs. destruct (Hview tv Htv Hs) as (v & t & Hv & _). by exists v. }
  exists cs. split.
  { unfold build_constants. rewrite Et, Eb. destruct (weight_layout opts).1 eqn:E; [done|].
    destruct tvs; [by apply Ok_inj in Hcs as <-|]. exact Hcs. }
  split.
  - eapply add_constants_inv; [|clear Hcs|exact Hcs].
    + intros ? ? H. by rewrite lookup_empty in H.
    + intros tv' v' Hin' Hs' Hv'. destruct (Hview tv' Hin' Hs') as (v2 & t2 & Hv2 & Ht2 & Hrest).
      assert (v2 = v') as -> by congruence. by exists t2.
  - intros id t Ht Hni. destruct (saved_weight_entry g opts id t Hwf Hblob Ht Hni) as (tv & Htv & Hid & Hs & _).
    pose proof (index_in _ _ tv Htvs Hnd Htv) as Hk. pose proof (list_elem_of_lookup_2 _ _ _ Hk) as Htv'.
    rewrite <-Hid. by apply Hall.
Qed.


(** *** Inputs without a spec *)

(** The entry of an input id after the first phase. *)
Lemma input_table_entry opts id :
  id ∈ o_inputs opts -> input_specs opts !! id = None ->
  exists tv, find_tv (input_table opts) id = Some tv /\ tv_shape tv = [].
Proof.
  intros Hin Hspec. unfold input_table. generalize 0%nat. revert Hin.
  assert (forall l k tvs, (forall tv, find_tv tvs id = Some tv -> tv_shape tv = []) ->
    id ∈ l \/ is_Some (find_tv tvs id) ->
    exists tv, find_tv (foldl (fun tvs p => add_or_update tvs p.2 TS_Input (declare_input opts (Z.of_nat p.1)))
      tvs (zip (seq k (length l)) l)) id = Some tv /\ tv_shape tv = []) as H.
  { induction l as [|x l IH]; intros k tvs Hsh Hor; cbn [length seq zip zip_with foldl].
    - destruct Hor as [Hor|[tv Htv]]; [set_solver|]. eauto.
    - apply IH; cbn [fst snd]; rewrite find_add_or_update by apply keeps_id_input.
      + intros tv. case_if; [|apply Hsh]. bool_to_prop. subst x. intros [= <-]. unfold declare_input.
        cbn [tv_id with_source]. rewrite entry_id, Hspec. cbn. unfold entry.
        destruct (find_tv tvs id) eqn:E; cbn; [by apply Hsh|done].
      + destruct (Z.eqb_spec x id) as [->|Hne]; [right; by eexists|].
        destruct Hor as [Hor|Hor]; [left|by right]. set_solver. }
  intros Hin k. apply H; [done|by left].
Qed.

(** An input for which the writer was given no spec can only be a scalar:
    its table entry says rank 0, and [forward] rejects every caller tensor of
    rank 1 or more bound to it, although the spec is documented as optional. *)
Theorem unspecified_input_must_be_scalar memalign_ok is_op_supported run_op to_lite g opts bytes impl
    inputs i id lt :
  model_wf g opts -> save g opts = Ok bytes -> lenZ bytes < 2 ^ 64 ->
  runtime_load memalign_ok is_op_supported bytes = Ok impl ->
  o_inputs opts !! i = Some id -> input_specs opts !! id = None -> weights opts !! id = None ->
  id ∉ produced g opts -> inputs !! i = Some lt -> 1 <= lt_ndim lt < 2 ^ 31 ->
  is_ok (forward run_op to_lite impl inputs) = false.
Proof.
  intros Hwf Hsave Hb Hload Hi Hspec Hnw Hni Hlt Hnd.
  destruct (is_ok (forward run_op to_lite impl inputs)) eqn:Hf; [exfalso|done].
  apply is_ok_Ok in Hf as [outs Hf]. pose proof (save_load g opts bytes Hwf Hsave Hb) as Hm.
  pose proof Hwf as [_ _ Ho Hw Hsz].
  assert (lenZ (weight_layout opts).1 < 2 ^ 64) as Hblob by (by eapply saved_blob_small).
  pose proof (build_tvs_ok g opts Hw Hsz Hblob Ho) as [Hndp Htw].
  destruct (input_table_entry opts id) as (tv & Htv & Hsh); [by eapply list_elem_of_lookup_2|done|].
  pose proof (input_table_source _ _ _ Htv) as Hsrc. pose proof (find_tv_id _ _ _ Htv) as [Hid _].
  assert (tv ∈ build_tvs g opts) as Hin.
  { rewrite build_tvs_phases, merge_sort_Permutation.
    apply (find_tv_id _ id). rewrite find_mark, decide_False by done. unfold weight_table.
    destruct (weight_layout_located opts Hsz) as [Hl Hids]. rewrite Forall_forall in Hl.
    rewrite (proj2 (find_weights opts _ _ id ltac:(rewrite Hids; apply weight_ids_nodup)
      ltac:(intros l Hlin; destruct (Hl l Hlin) as (? & -> & _); by eexists))); [done|].
    rewrite Hids, elem_of_weight_ids, Hnw. by intros [? ?]. }
  unfold runtime_load in Hload. apply rbind_Ok in Hload as (? & _ & Hload). rewrite Hm in Hload. cbn [rbind] in Hload.
  apply rbind_Ok in Hload as (? & _ & Hload). apply rbind_Ok in Hload as (tvs & Htvs & Hload).
  cbn [m_inputs m_graph tensor_values weight_blob metadata memory_plan] in *.
  assert (tensor_values_by_id impl = tvs /\ g_inputs (i_graph impl) = o_inputs opts) as [Et Eg].
  { destruct (o_plan opts); [apply rbind_Ok in Hload as (? & _ & Hload)|];
      by apply rbind_Ok in Hload as (? & _ & <-%Ok_inj). }
  pose proof (index_in _ _ tv Htvs Hndp Hin) as Hk. rewrite Hid in Hk.
  rewrite Forall_forall in Htw. pose proof (tw_id _ (Htw tv Hin)) as Hr. rewrite Hid in Hr.
  unfold forward in Hf. apply rbind_Ok in Hf as (? & _ & Hf). apply rbind_Ok in Hf as (u & Hc & _).
  destruct (checked_input impl inputs i id lt u Hc) as [u' Hu]; [by rewrite Eg|done| |].
  { rewrite Et. by eexists. }
  rewrite Et in Hu. destruct (check_input_Ok tvs id lt tv u' Hr Hk Hsrc) as (_ & Hrank & _);
    [lia|rewrite Hsh; unfold lenZ; cbn; lia|done|].
  rewrite Hsh in Hrank. change (lenZ (@nil Z)) with 0 in Hrank. lia.
Qed.

(** ** The sample model, saved, loaded and run *)

#[export] Instance byte_dec z : Decision (byte z).
Proof. unfold byte. apply _. Defined.

Definition sample_bytes : list Z := bytes_or_nil (save sample_graph sample_opts).
Definition sample_load : result Impl := runtime_load (fun _ _ => true) (fun _ => true) sample_bytes.

Lemma sample_bytes_ok : Forall byte sample_bytes.
Proof. apply (bool_decide_unpack _). vm_compute. exact I. Qed.

Definition sample_impl : Impl :=
  match sample_load with Ok impl => impl | Err _ => mkImpl (mkAlloc [] [] 0 0) [] ∅ empty_graph [] [] None end.

Lemma sample_load_Ok : sample_load = Ok sample_impl.
Proof. vm_compute. reflexivity. Qed.

Lemma load_validates_plan_witness :
  exists pool tv, [64] !! Z.to_nat 0 = Some pool /\
    pools (allocator sample_impl) !! Z.to_nat 0 = Some (if pool >? 0 then Some pool else None) /\
    tensor_values_by_id sample_impl !! Z.to_nat 2 = Some tv /\
    Forall (fun d => 0 <= d) (tv_shape tv) /\ 0 + prodZ (tv_shape tv) * dtype_size_raw (tv_dtype tv) <= pool.
Proof.
  refine (load_validates_plan (fun _ _ => true) (fun _ => true) sample_bytes sample_impl
    (mkPlan [64] 64 [mkPlacement 2 0 0]) (mkPlacement 2 0 0) sample_bytes_ok sample_load_Ok _ _).
  - vm_compute. reflexivity.
  - left.
Defined.

Definition sample_view : Tensor := mkTensor [1] [1] 0 (Some [1; 2; 3; 4]) 4.

Lemma sample_constants : build_constants sample_impl = Ok {[ 3 := sample_view ]}.
Proof. vm_compute. reflexivity. Qed.

Lemma forward_weights_in_bounds_witness :
  exists tv, tv ∈ tensor_values_by_id sample_impl /\ tv_id tv = 3 /\
    0 <= weight_offset tv /\ weight_offset tv + 4 <= lenZ (i_blob sample_impl).
Proof.
  destruct (forward_weights_in_bounds (fun _ _ => true) (fun _ => true) sample_bytes sample_impl
    {[ 3 := sample_view ]} 3 sample_view sample_bytes_ok sample_load_Ok sample_constants eq_refl) as (tv & H1 & H2 & _ & _ & _ & _ & _ & H3 & H4).
  exists tv. exact (conj H1 (conj H2 (conj H3 H4))).
Defined.

Lemma planner_plan_accepted_witness :
  check_placement chain_tvs (mkPlan [256] 64 [mkPlacement 1 0 0; mkPlacement 2 0 128; mkPlacement 3 0 0])
    (mkPlacement 2 0 128) = Ok tt.
Proof.
  refine (planner_plan_accepted chain_graph chain_tvs 64 _ (mkPlacement 2 0 128) _ _ _ _ chain_fits chain_plan _).
  - unfold s64. repeat constructor; cbn; lia.
  - vm_compute. discriminate.
  - unfold s16. repeat constructor; lia.
  - right. lia.
  - right. left.
Defined.

(** A 2x3 tensor with row-major strides. *)
Definition sample_lt : LiteTensor :=
  mkLT (Some (replicate 24 0)) [2; 3; 0; 0; 0; 0; 0; 0] [3; 1; 0; 0; 0; 0; 0; 0] 2 0 false.

Lemma view_as_tensor_faithful_witness :
  offset [3; 1] [1; 2] = offset (take 2 (lt_strides sample_lt)) [1; 2].
Proof.
  refine (proj2 (proj2 (view_as_tensor_faithful sample_lt
    (mkTensor [2; 3] [3; 1] 0 (Some (replicate 24 0)) 24) [1; 2] eq_refl eq_refl _)) _).
  - vm_compute. reflexivity.
  - repeat constructor; lia.
Defined.

(** Kernels on scalars: add the bytes of the operands. *)
Definition sample_op (_ : Z) (args : list Tensor) (_ : LiteAttributes) : result (list Tensor) :=
  Ok [mkTensor [1] [1] 0 (head args ≫= t_data) 4].
Definition sample_to_lite (t : Tensor) : result LiteTensor :=
  to_lite_tensor (fun _ => true) (t_shape t) (t_dtype t) (default [] (t_data t)).

Definition scalar_lt (bs : list Z) : LiteTensor := mkLT (Some bs) (pad8 [1]) (pad8 [1]) 1 0 true.

(** Input 1 has no declared spec: only a rank-0 tensor is accepted for it. *)
Definition rank0_lt (bs : list Z) : LiteTensor := mkLT (Some bs) (pad8 []) (pad8 []) 0 0 true.

Lemma sample_forward :
  forward sample_op sample_to_lite sample_impl [scalar_lt [7; 0; 0; 0]; rank0_lt [9; 0; 0; 0]] =
  Ok [scalar_lt [7; 0; 0; 0]].
Proof. vm_compute. reflexivity. Qed.

Lemma forward_validates_inputs_witness :
  0 = 0 /\ lt_ndim (scalar_lt [7; 0; 0; 0]) = 1.
Proof.
  destruct (forward_validates_inputs sample_op sample_to_lite sample_impl
    [scalar_lt [7; 0; 0; 0]; rank0_lt [9; 0; 0; 0]] [scalar_lt [7; 0; 0; 0]] 0 0 (scalar_lt [7; 0; 0; 0])
    (mkTV 0 TS_Input 0 [1] 0 0 0) sample_forward) as (H1 & H2 & _).
  - vm_compute. reflexivity.
  - reflexivity.
  - unfold INT16_MAX. lia.
  - cbn. lia.
  - vm_compute. reflexivity.
  - reflexivity.
  - cbn. unfold lenZ. cbn. lia.
  - exact (conj H1 H2).
Defined.

Lemma sample_unproduced : 3 ∉ produced sample_graph sample_opts /\ 1 ∉ produced sample_graph sample_opts.
Proof. split; apply (bool_decide_unpack _); vm_compute; exact I. Qed.


Lemma unspecified_input_must_be_scalar_witness :
  is_ok (forward sample_op sample_to_lite sample_impl [scalar_lt [7; 0; 0; 0]; scalar_lt [9; 0; 0; 0]]) = false.
Proof.
  refine (unspecified_input_must_be_scalar (fun _ _ => true) (fun _ => true) sample_op sample_to_lite
    sample_graph sample_opts sample_bytes sample_impl [scalar_lt [7; 0; 0; 0]; scalar_lt [9; 0; 0; 0]]
    1 1 (scalar_lt [9; 0; 0; 0]) sample_model_wf
    _ _ sample_load_Ok eq_refl eq_refl eq_refl (proj2 sample_unproduced) eq_refl _).
  - vm_compute. reflexivity.
  - vm_compute. reflexivity.
  - cbn. lia.
Defined.

End Runtime.
