(* ===== verification/Samplers.v ===== *)
(** * Dataset samplers

    The samplers of src/data/sampler.cpp (headers data/sampler.hpp and
    data/distributed_sampler.hpp): the order in which dataset indices are
    visited, and how it is divided among the replicas of a distributed job.
    Positions in a dataset are [nat]; [num_replicas], [rank], seeds and epochs
    are machine integers in [Z]; weights are IEEE doubles ([spec_float]).  The
    engines, [std::shuffle] and [std::discrete_distribution] are the classes
    [RandomEngine] and [Discrete], with their documented laws in
    [ShuffleLaw] and [DiscreteLaw]. *)

From stdpp Require Import base list numbers strings.
From Stdlib Require Import Floats.SpecFloat.
From S2P Require Import Prelude.

(** The standard library's randomness: an engine seeded with an integer, and
    [std::shuffle], which permutes a range and advances the engine. *)
Class RandomEngine (Rng : Type) := {
  seed_engine : Z -> Rng;
  shuffle : Rng -> list nat -> list nat * Rng
}.

Class ShuffleLaw (Rng : Type) `{RandomEngine Rng} :=
  shuffle_Permutation g l : (shuffle g l).1 ≡ₚ l.

(** [discrete_distribution<size_t>(weights)(rng)]: one draw. *)
Class Discrete (Rng : Type) := draw : list spec_float -> Rng -> nat * Rng.

Definition positive (w : spec_float) : bool := SFltb (S754_zero false) w.

Definition finite_nonneg (w : spec_float) : bool :=
  match w with
  | S754_zero _ | S754_finite false _ _ => true
  | _ => false
  end.

(** The distribution is defined for finite non-negative weights with a positive
    sum, and then gives no probability to a zero weight. *)
Class DiscreteLaw (Rng : Type) `{Discrete Rng} :=
  draw_positive ws g :
    forallb finite_nonneg ws = true -> existsb positive ws = true ->
    exists w, ws !! (draw ws g).1 = Some w /\ positive w = true.

Module Samplers.

(** The virtual interface: [indices()], [size()] and [reset(epoch)]. *)
Class Sampler (S : Type) := {
  indices : S -> list nat;
  size : S -> nat;
  reset : Z -> S -> result S
}.

(** What a data loader relies on: the order of an epoch depends on the epoch
    alone, whatever epochs the sampler went through before. *)
Class SamplerLaw (S : Type) `{Sampler S} := {
  size_indices s : size s = length (indices s);
  reset_reproducible e1 e2 s s1 : reset e1 s = Ok s1 -> reset e2 s1 = reset e2 s
}.

(** [std::iota(indices_.begin(), indices_.end(), 0)] on [n] elements. *)
Definition iota (n : nat) : list nat := seq 0 n.

(** [static_cast<uint64_t>(seed_ + epoch)]: the sum is a signed one. *)
Definition epoch_seed (seed epoch : Z) : result Z :=
  let* z := i64 (seed + epoch) in Ok (wrap 64 z).

(** ** SequentialSampler *)

Record SequentialSampler := { sq_dataset_size : nat; sq_indices : list nat }.

Definition sq_reset (epoch : Z) (s : SequentialSampler) : result SequentialSampler :=
  Ok {| sq_dataset_size := sq_dataset_size s; sq_indices := iota (sq_dataset_size s) |}.

Definition SequentialSampler_ctor (n : nat) : result SequentialSampler :=
  sq_reset 0 {| sq_dataset_size := n; sq_indices := [] |}.

#[export] Instance sequential_sampler : Sampler SequentialSampler :=
  {| indices := sq_indices; size s := length (sq_indices s); reset := sq_reset |}.

Section Random.
Context {Rng : Type} `{RandomEngine Rng}.

(** ** RandomSampler *)

Record RandomSampler := { rs_dataset_size : nat; rs_seed : Z; rs_indices : list nat }.

Definition rs_reset (epoch : Z) (s : RandomSampler) : result RandomSampler :=
  let* z := epoch_seed (rs_seed s) epoch in
  Ok {| rs_dataset_size := rs_dataset_size s; rs_seed := rs_seed s;
        rs_indices := (shuffle (seed_engine z) (iota (rs_dataset_size s))).1 |}.

Definition RandomSampler_ctor (n : nat) (seed : Z) : result RandomSampler :=
  rs_reset 0 {| rs_dataset_size := n; rs_seed := seed; rs_indices := [] |}.

#[export] Instance random_sampler : Sampler RandomSampler :=
  {| indices := rs_indices; size s := length (rs_indices s); reset := rs_reset |}.

(** ** SubsetRandomSampler *)

Record SubsetRandomSampler :=
  { sub_subset : list nat; sub_seed : Z; sub_indices : list nat }.

Definition sub_reset (epoch : Z) (s : SubsetRandomSampler) : result SubsetRandomSampler :=
  let* z := epoch_seed (sub_seed s) epoch in
  Ok {| sub_subset := sub_subset s; sub_seed := sub_seed s;
        sub_indices := (shuffle (seed_engine z) (sub_subset s)).1 |}.

Definition SubsetRandomSampler_ctor (l : list nat) (seed : Z) : result SubsetRandomSampler :=
  sub_reset 0 {| sub_subset := l; sub_seed := seed; sub_indices := [] |}.

#[export] Instance subset_random_sampler : Sampler SubsetRandomSampler :=
  {| indices := sub_indices; size s := length (sub_indices s); reset := sub_reset |}.

(** ** WeightedRandomSampler *)

Record WeightedRandomSampler := {
  wt_weights : list spec_float; wt_num_samples : Z; wt_replacement : bool;
  wt_seed : Z; wt_indices : list nat
}.

Context `{Discrete Rng}.

(** The two sampling loops of [reset], each run [num_samples] times. *)
Fixpoint draw_replace (n : nat) (ws : list spec_float) (g : Rng) : list nat :=
  match n with
  | O => []
  | S n => let '(i, g) := draw ws g in i :: draw_replace n ws g
  end.

Fixpoint draw_remove (n : nat) (ws : list spec_float) (g : Rng) : result (list nat) :=
  match n with
  | O => Ok []
  | S n =>
      let '(i, g) := draw ws g in
      match ws !! i with
      | None => Err UndefinedBehaviour
      | Some _ => rmap (cons i) (draw_remove n (<[i := S754_zero false]> ws) g)
      end
  end.

Definition wt_reset (epoch : Z) (s : WeightedRandomSampler) : result WeightedRandomSampler :=
  let* z := epoch_seed (wt_seed s) epoch in
  let n := Z.to_nat (wt_num_samples s) in
  let* l := if wt_replacement s then Ok (draw_replace n (wt_weights s) (seed_engine z))
            else draw_remove n (wt_weights s) (seed_engine z) in
  Ok {| wt_weights := wt_weights s; wt_num_samples := wt_num_samples s;
        wt_replacement := wt_replacement s; wt_seed := wt_seed s; wt_indices := l |}.

Definition positive_count (ws : list spec_float) : nat :=
  sum_list_with (fun w => if positive w then 1%nat else 0%nat) ws.

Definition WeightedRandomSampler_ctor (ws : list spec_float) (num_samples : Z)
    (replacement : bool) (seed : Z) : result WeightedRandomSampler :=
  let* _ := throw_if (num_samples <? 0) (InvalidArgument "num_samples must be non-negative") in
  let* _ := throw_if (bool_decide (ws = [])) (InvalidArgument "weights must not be empty") in
  let* _ := throw_if (existsb (fun w => SFltb w (S754_zero false)) ws)
              (InvalidArgument "weights must be non-negative") in
  let* _ := throw_if (negb replacement && (num_samples >? Z.of_nat (positive_count ws)))
              (InvalidArgument "num_samples must be <= number of strictly-positive weights when sampling without replacement") in
  wt_reset 0 {| wt_weights := ws; wt_num_samples := num_samples;
                wt_replacement := replacement; wt_seed := seed; wt_indices := [] |}.

#[export] Instance weighted_random_sampler : Sampler WeightedRandomSampler :=
  {| indices := wt_indices; size s := length (wt_indices s); reset := wt_reset |}.

(** ** DistributedSampler *)

Record DistributedSampler := {
  ds_dataset_size : nat; ds_num_replicas : Z; ds_rank : Z; ds_shuffle : bool;
  ds_seed : Z; ds_drop_last : bool; ds_indices : list nat
}.

(** [v.push_back(v[i % dataset_size_])]. *)
Definition pad_step (n : nat) (l : list nat) (i : nat) : result (list nat) :=
  match n with
  | O => Err UndefinedBehaviour
  | S _ => match l !! (i mod n)%nat with
           | None => Err UndefinedBehaviour
           | Some x => Ok (l ++ [x])
           end
  end.

Definition pad (n R : nat) (l : list nat) : result (list nat) :=
  let remainder := (length l mod R)%nat in
  if (remainder =? 0)%nat then Ok l else rfoldM (pad_step n) (seq 0 (R - remainder)) l.

(** [resize(per_rank * num_replicas_)], which never grows the vector. *)
Definition truncate (R : nat) (l : list nat) : list nat :=
  take (length l / R * R) l.

(** [for (i = rank_; i < l.size(); i += num_replicas_)]; every pass adds at
    least one to [i], so the length of the vector bounds the passes. *)
Fixpoint slice_loop (fuel i R : nat) (l : list nat) : list nat :=
  match fuel with
  | O => []
  | S fuel => match l !! i with
              | None => []
              | Some x => x :: slice_loop fuel (i + R) R l
              end
  end.

Definition slice (rank R : nat) (l : list nat) : list nat := slice_loop (length l) rank R l.

(** The order all the replicas agree on, padded or truncated. *)
Definition global_order (s : DistributedSampler) (epoch : Z) : result (list nat) :=
  let n := ds_dataset_size s in
  let R := Z.to_nat (ds_num_replicas s) in
  let* all := if ds_shuffle s
              then let* z := epoch_seed (ds_seed s) epoch in
                   Ok (shuffle (seed_engine z) (iota n)).1
              else Ok (iota n) in
  if ds_drop_last s then Ok (truncate R all) else pad n R all.

Definition ds_reset (epoch : Z) (s : DistributedSampler) : result DistributedSampler :=
  let* all := global_order s epoch in
  Ok {| ds_dataset_size := ds_dataset_size s; ds_num_replicas := ds_num_replicas s;
        ds_rank := ds_rank s; ds_shuffle := ds_shuffle s; ds_seed := ds_seed s;
        ds_drop_last := ds_drop_last s;
        ds_indices := slice (Z.to_nat (ds_rank s)) (Z.to_nat (ds_num_replicas s)) all |}.

Definition DistributedSampler_ctor (n : nat) (num_replicas rank : Z) (shuf : bool)
    (seed : Z) (drop_last : bool) : result DistributedSampler :=
  let* _ := throw_if (num_replicas <=? 0) (InvalidArgument "num_replicas must be positive") in
  let* _ := throw_if ((rank <? 0) || (rank >=? num_replicas))
              (InvalidArgument "rank must be in [0, num_replicas)") in
  ds_reset 0 {| ds_dataset_size := n; ds_num_replicas := num_replicas; ds_rank := rank;
                ds_shuffle := shuf; ds_seed := seed; ds_drop_last := drop_last;
                ds_indices := [] |}.

#[export] Instance distributed_sampler : Sampler DistributedSampler :=
  {| indices := ds_indices; size s := length (ds_indices s); reset := ds_reset |}.

End Random.

Section Facts.
Context {Rng : Type} `{HR : RandomEngine Rng}.

(** ** Reproducibility: every sampler meets the interface's law. *)

#[export] Instance sequential_sampler_law : SamplerLaw SequentialSampler.
Proof. split; [done|]. by intros e1 e2 s s1 [= <-]. Qed.

#[export] Instance random_sampler_law : SamplerLaw RandomSampler.
Proof. split; [done|]. intros e1 e2 s s1 H. simpl in H. unfold rs_reset in H. by inv_ok; subst. Qed.

#[export] Instance subset_random_sampler_law : SamplerLaw SubsetRandomSampler.
Proof. split; [done|]. intros e1 e2 s s1 H. simpl in H. unfold sub_reset in H. by inv_ok; subst. Qed.

#[export] Instance weighted_random_sampler_law `{Discrete Rng} : SamplerLaw WeightedRandomSampler.
Proof. split; [done|]. intros e1 e2 s s1 H0. simpl in H0. unfold wt_reset in H0. by inv_ok; subst. Qed.

#[export] Instance distributed_sampler_law : SamplerLaw DistributedSampler.
Proof. split; [done|]. intros e1 e2 s s1 H. simpl in H. unfold ds_reset in H. by inv_ok; subst. Qed.

Lemma epoch_seed_zero seed : in_i64 seed = true -> exists z, epoch_seed seed 0 = Ok z.
Proof. intros H. unfold epoch_seed, i64. rewrite Z.add_0_r, H. simpl. eauto. Qed.

#[local] Open Scope nat_scope.

(** ** The strided slice *)

Lemma slice_loop_lookup fuel i R l k :
  (0 < R) -> (length l - i <= fuel) ->
  slice_loop fuel i R l !! k = l !! (i + k * R).
Proof.
  intros HR0. revert i k. induction fuel as [|fuel IH]; intros i k Hf; cbn [slice_loop].
  - rewrite lookup_nil. symmetry. apply lookup_ge_None_2. nia.
  - destruct (l !! i) as [x|] eqn:E.
    + apply lookup_lt_Some in E as Hi. destruct k as [|k]; cbn [lookup list_lookup].
      * by rewrite Nat.mul_0_l, Nat.add_0_r.
      * change (list_lookup k (slice_loop fuel (i + R) R l))
          with (slice_loop fuel (i + R) R l !! k).
        rewrite IH by lia. f_equal. lia.
    + rewrite lookup_nil. symmetry. apply lookup_ge_None in E. apply lookup_ge_None. nia.
Qed.

Lemma slice_lookup rank R l k :
  (0 < R) -> slice rank R l !! k = l !! (rank + k * R).
Proof. intros. apply slice_loop_lookup; lia. Qed.

Lemma slice_length rank R q l :
  (rank < R) -> length l = (q * R) -> length (slice rank R l) = q.
Proof.
  intros Hr Hl. apply Nat.le_antisymm.
  - apply lookup_ge_None. rewrite slice_lookup by lia. apply lookup_ge_None. lia.
  - assert (slice rank R l !! length (slice rank R l) = None) as H by (apply lookup_ge_None; lia).
    rewrite slice_lookup in H by lia. apply lookup_ge_None in H. nia.
Qed.

(** ** Padding continues the order cyclically *)

Definition cyclic (order l : list nat) : Prop :=
  forall i, (i < length l) -> l !! i = order !! (i mod length order).

Lemma cyclic_self l : cyclic l l.
Proof. intros i Hi. by rewrite Nat.mod_small. Qed.

Lemma cyclic_take order k : cyclic order (take k order).
Proof.
  intros i Hi. rewrite length_take in Hi. rewrite lookup_take_lt by lia.
  by rewrite Nat.mod_small by lia.
Qed.

Lemma pad_loop_cyclic order m : forall j l,
  (0 < length order) -> cyclic order l -> length l = (length order + j) ->
  exists l', rfoldM (pad_step (length order)) (seq j m) l = Ok l' /\ cyclic order l' /\
    length l' = (length order + j + m).
Proof.
  induction m as [|m IH]; intros j l Hn Hc Hl; cbn [seq rfoldM].
  - exists l. split_and!; [done..|lia].
  - pose proof (Nat.mod_upper_bound j (length order)) as Hj.
    assert (exists x, l !! (j mod length order) = Some x) as [x Hx].
    { apply lookup_lt_is_Some. lia. }
    assert (pad_step (length order) l j = Ok (l ++ [x])) as ->.
    { unfold pad_step. rewrite Hx. by destruct (length order); [lia|]. }
    cbn [rbind]. destruct (IH (S j) (l ++ [x])) as (l' & -> & Hc' & Hl'); [done| | |].
    + intros i Hi. rewrite length_app in Hi; simpl in Hi.
      destruct (decide (i < length l)) as [Hlt|Hge].
      * rewrite lookup_app_l by done. by apply Hc.
      * assert (i = length l) as -> by lia. rewrite lookup_app_r, Nat.sub_diag by lia.
        cbn [lookup list_lookup]. rewrite Hl, <-Hx, Hc by lia.
        rewrite (Nat.mod_small (j mod length order)) by lia. f_equal.
        by rewrite <-(Nat.Div0.add_mod_idemp_l (length order)), Nat.Div0.mod_same.
    + rewrite length_app; simpl; lia.
    + exists l'. split_and!; [done..|lia].
Qed.

Definition total (n R : nat) (drop_last : bool) : nat :=
  (if drop_last then n / R * R else (n + R - 1) / R * R).

Lemma total_mod n R drop : total n R drop mod R = 0.
Proof. unfold total. by destruct drop; rewrite Nat.Div0.mod_mul. Qed.

Lemma total_round_up (n R : nat) :
  (0 < R) -> n mod R <> 0 -> total n R false = (n + (R - n mod R)).
Proof.
  intros HR0 Hm. unfold total.
  pose proof (Nat.div_mod n R ltac:(lia)) as E. pose proof (Nat.mod_upper_bound n R ltac:(lia)).
  assert ((n + R - 1) / R = n / R + 1) as ->; [|nia].
  symmetry. apply (Nat.div_unique _ _ _ (n mod R - 1)); nia.
Qed.

Lemma total_exact (n R : nat) drop : (0 < R) -> (n mod R = 0) -> total n R drop = n.
Proof.
  intros HR0 Hm. pose proof (Nat.div_mod n R ltac:(lia)) as E. unfold total.
  destruct drop; [nia|].
  assert ((n + R - 1) / R = n / R) as ->; [|nia].
  symmetry. apply (Nat.div_unique _ _ _ (R - 1)); nia.
Qed.

Lemma pad_cyclic order R :
  (0 < R) -> exists l, pad (length order) R order = Ok l /\ cyclic order l /\
    length l = total (length order) R false.
Proof.
  intros HR0. unfold pad. destruct (Nat.eqb_spec (length order mod R) 0) as [E|E].
  - exists order. rewrite total_exact by done. eauto using cyclic_self.
  - destruct (pad_loop_cyclic order (R - length order mod R) 0 order) as (l & -> & Hc & Hl).
    + destruct order; simpl in *; [|lia]. by rewrite Nat.Div0.mod_0_l in E.
    + apply cyclic_self.
    + lia.
    + exists l. rewrite total_round_up by done. split_and!; [done..|lia].
Qed.

(** ** The replicas of a distributed job *)

(** A replica's sampler, constructed and then reset for [epoch]. *)
Definition replica (n : nat) (R : Z) (shuf : bool) (seed : Z) (drop : bool) (epoch rank : Z)
    : result DistributedSampler :=
  let* s := DistributedSampler_ctor n R rank shuf seed drop in ds_reset epoch s.

Context {HS : ShuffleLaw Rng}.

Lemma global_order_spec s epoch :
  (0 < ds_num_replicas s)%Z -> in_i64 (ds_seed s + epoch) = true ->
  exists order all, order ≡ₚ seq 0 (ds_dataset_size s) /\ global_order s epoch = Ok all /\
    cyclic order all /\
    length all = total (ds_dataset_size s) (Z.to_nat (ds_num_replicas s)) (ds_drop_last s).
Proof.
  destruct s as [n R rank shuf seed drop l]; cbn. intros HR0 Hs.
  assert (exists order, order ≡ₚ seq 0 n /\
    (if shuf then let* z := epoch_seed seed epoch in Ok (shuffle (seed_engine z) (iota n)).1
     else Ok (iota n)) = Ok order) as (order & Hp & Eo).
  { destruct shuf; [|by exists (iota n)].
    unfold epoch_seed, i64. rewrite Hs. cbn [rbind].
    eexists. split; [apply shuffle_Permutation|done]. }
  assert (length order = n) as Hn by (by rewrite Hp, length_seq).
  unfold global_order. cbn [ds_dataset_size ds_num_replicas ds_shuffle ds_seed ds_drop_last].
  rewrite Eo. cbn [rbind]. exists order.
  destruct drop.
  - exists (truncate (Z.to_nat R) order). split_and!; [done..|apply cyclic_take|].
    unfold truncate, total. rewrite length_take, Hn.
    pose proof (Nat.Div0.mul_div_le n (Z.to_nat R)). lia.
  - destruct (pad_cyclic order (Z.to_nat R)) as (all & E & Hc & Hl); [lia|].
    rewrite Hn in *. eauto.
Qed.

Lemma replica_spec n R shuf seed drop epoch :
  (0 < R)%Z -> in_i64 seed = true -> in_i64 (seed + epoch) = true ->
  exists order all, order ≡ₚ seq 0 n /\ cyclic order all /\
    length all = total n (Z.to_nat R) drop /\
    forall rank, (0 <= rank < R)%Z -> exists s,
      replica n R shuf seed drop epoch rank = Ok s /\
      ds_indices s = slice (Z.to_nat rank) (Z.to_nat R) all.
Proof.
  intros HR0 Hs Hse.
  destruct (global_order_spec {| ds_dataset_size := n; ds_num_replicas := R; ds_rank := 0;
    ds_shuffle := shuf; ds_seed := seed; ds_drop_last := drop; ds_indices := [] |} epoch)
    as (order & all & Hp & Ea & Hc & Hl); [done..|].
  destruct (global_order_spec {| ds_dataset_size := n; ds_num_replicas := R; ds_rank := 0;
    ds_shuffle := shuf; ds_seed := seed; ds_drop_last := drop; ds_indices := [] |} 0)
    as (_ & all0 & _ & Ea0 & _); [done|cbn; by rewrite Z.add_0_r|].
  exists order, all. split_and!; [done..|]. intros rank Hr.
  unfold replica, DistributedSampler_ctor.
  rewrite (proj2 (Z.leb_gt _ _)), (proj2 (Z.ltb_ge rank 0)) by lia.
  assert ((rank >=? R)%Z = false) as -> by lia. cbn [orb throw_if rbind].
  unfold ds_reset. unfold global_order in Ea0, Ea |- *. cbn in Ea0, Ea |- *.
  rewrite Ea0. cbn. rewrite Ea. cbn. eauto.
Qed.

(** All the replicas of a distributed job agree, for every epoch, on one
    permutation of the dataset; replica [rank] of [R] visits the elements at
    positions [rank], [rank + R], [rank + 2 R], ... of that order, continued
    cyclically, and every replica visits the same number of them: the
    dataset's size divided by [R], rounded up (or down with [drop_last]). *)
Theorem distributed_partition n R shuf seed drop epoch :
  (0 < R)%Z -> in_i64 seed = true -> in_i64 (seed + epoch) = true ->
  exists order, order ≡ₚ seq 0 n /\
    forall rank, (0 <= rank < R)%Z -> exists s,
      replica n R shuf seed drop epoch rank = Ok s /\
      length (ds_indices s) =
        (if drop then n / Z.to_nat R else (n + Z.to_nat R - 1) / Z.to_nat R) /\
      forall k, k < length (ds_indices s) ->
        ds_indices s !! k = order !! ((Z.to_nat rank + k * Z.to_nat R) mod n).
Proof.
  intros HR0 Hs Hse.
  destruct (replica_spec n R shuf seed drop epoch HR0 Hs Hse)
    as (order & all & Hp & Hc & Hl & H).
  exists order. split; [done|]. intros rank Hr. destruct (H rank Hr) as (s & E & Hi).
  exists s. split; [done|]. rewrite Hi.
  pose (q := if drop then n / Z.to_nat R else (n + Z.to_nat R - 1) / Z.to_nat R).
  assert (length all = q * Z.to_nat R) as Hq by (rewrite Hl; unfold total, q; by destruct drop).
  rewrite (slice_length _ _ q) by (done || lia). split; [done|]. intros k Hk.
  rewrite slice_lookup by lia. rewrite Hc by nia.
  by rewrite (Permutation_length Hp), length_seq.
Qed.

Lemma cyclic_covers n order all x :
  order ≡ₚ seq 0 n -> cyclic order all -> n <= length all -> x < n -> exists i, all !! i = Some x.
Proof.
  intros Hp Hc Hn Hx. assert (x ∈ order) as Hin.
  { rewrite Hp. apply list_elem_of_In, in_seq. lia. }
  apply list_elem_of_lookup in Hin as [i Hi]. exists i.
  pose proof (lookup_lt_Some _ _ _ Hi).
  assert (length order = n) by (by rewrite Hp, length_seq).
  by rewrite Hc, Nat.mod_small by lia.
Qed.

Lemma cyclic_inj n order all i j x :
  order ≡ₚ seq 0 n -> cyclic order all -> length all <= n ->
  all !! i = Some x -> all !! j = Some x -> i = j.
Proof.
  intros Hp Hc Hn Hi Hj. assert (length order = n) by (by rewrite Hp, length_seq).
  pose proof (lookup_lt_Some _ _ _ Hi). pose proof (lookup_lt_Some _ _ _ Hj).
  rewrite Hc, Nat.mod_small in Hi, Hj by lia.
  eapply NoDup_lookup; [|done..]. rewrite Hp. apply NoDup_seq.
Qed.

(** Without [drop_last] every sample of the dataset is visited by some
    replica.  With [drop_last], or when the number of replicas divides the
    dataset's size, no sample is visited twice: neither by two replicas nor by
    one replica at two positions. *)
Theorem distributed_covers_once n R shuf seed drop epoch :
  (0 < R)%Z -> in_i64 seed = true -> in_i64 (seed + epoch) = true ->
  (drop = false -> forall x, x < n -> exists rank s, (0 <= rank < R)%Z /\
     replica n R shuf seed drop epoch rank = Ok s /\ x ∈ ds_indices s) /\
  (drop = true \/ n mod Z.to_nat R = 0 ->
     forall r1 r2 s1 s2 k1 k2 x, (0 <= r1 < R)%Z -> (0 <= r2 < R)%Z ->
     replica n R shuf seed drop epoch r1 = Ok s1 ->
     replica n R shuf seed drop epoch r2 = Ok s2 ->
     ds_indices s1 !! k1 = Some x -> ds_indices s2 !! k2 = Some x -> r1 = r2 /\ k1 = k2).
Proof.
  intros HR0 Hs Hse.
  destruct (replica_spec n R shuf seed drop epoch HR0 Hs Hse)
    as (order & all & Hp & Hc & Hl & H). split.
  - intros -> x Hx.
    destruct (cyclic_covers n order all x) as [i Hi]; [done..| |done|].
    { rewrite Hl. destruct (decide (n mod Z.to_nat R = 0)).
      - rewrite total_exact by (done || lia). lia.
      - rewrite total_round_up by (done || lia). lia. }
    pose proof (Nat.mod_upper_bound i (Z.to_nat R) ltac:(lia)).
    pose proof (Nat.div_mod i (Z.to_nat R) ltac:(lia)).
    destruct (H (Z.of_nat (i mod Z.to_nat R))) as (s & E & Hi'); [lia|].
    exists (Z.of_nat (i mod Z.to_nat R)), s. split_and!; [lia|lia|done|].
    apply list_elem_of_lookup. exists (i / Z.to_nat R).
    rewrite Hi', slice_lookup, Nat2Z.id by lia. rewrite <-Hi. f_equal. lia.
  - intros Hd r1 r2 s1 s2 k1 k2 x Hr1 Hr2 E1 E2 H1 H2.
    destruct (H r1 Hr1) as (s1' & E1' & I1). destruct (H r2 Hr2) as (s2' & E2' & I2).
    rewrite E1' in E1. rewrite E2' in E2. apply Ok_inj in E1 as <-. apply Ok_inj in E2 as <-.
    rewrite I1 in H1. rewrite I2 in H2. rewrite slice_lookup in H1, H2 by lia.
    assert (length all <= n) as Hle.
    { rewrite Hl. destruct Hd as [-> | Hd]; [|rewrite total_exact by (done || lia); lia].
      unfold total. pose proof (Nat.Div0.mul_div_le n (Z.to_nat R)). lia. }
    pose proof (cyclic_inj n order all _ _ x Hp Hc Hle H1 H2) as E.
    destruct (Nat.div_mod_unique (Z.to_nat R) k1 k2 (Z.to_nat r1) (Z.to_nat r2)); lia.
Qed.

(** ** Weighted sampling without replacement *)

Context {HD : Discrete Rng} {HDL : DiscreteLaw Rng}.

Lemma positive_count_insert ws i w :
  ws !! i = Some w -> positive w = true ->
  positive_count (<[i := S754_zero false]> ws) + 1 = positive_count ws.
Proof.
  intros Hi Hw. unfold positive_count. revert i Hi. induction ws as [|v ws IH]; intros [|i] Hi;
    simpl in Hi; [done|done| |].
  - injection Hi as ->. cbn [insert list_insert sum_list_with]. rewrite Hw. simpl. lia.
  - change (<[S i := S754_zero false]> (v :: ws)) with (v :: <[i := S754_zero false]> ws).
    cbn [sum_list_with]. rewrite <-(IH i Hi). destruct (positive v); lia.
Qed.

Lemma positive_count_exists ws : 0 < positive_count ws -> existsb positive ws = true.
Proof.
  unfold positive_count. induction ws as [|w ws IH]; cbn [sum_list_with existsb]; [lia|].
  destruct (positive w); [done|]. simpl. apply IH.
Qed.

Lemma finite_insert ws i :
  forallb finite_nonneg ws = true -> forallb finite_nonneg (<[i := S754_zero false]> ws) = true.
Proof.
  revert i. induction ws as [|w ws IH]; intros [|i] H; simpl in *; try done.
  - by apply andb_true_iff in H as [_ ->].
  - apply andb_true_iff in H as [-> H]. by apply IH.
Qed.

Lemma draw_remove_spec n : forall ws g,
  forallb finite_nonneg ws = true -> n <= positive_count ws ->
  exists l, draw_remove n ws g = Ok l /\ length l = n /\ NoDup l /\
    forall i, i ∈ l -> exists w, ws !! i = Some w /\ positive w = true.
Proof.
  induction n as [|n IH]; intros ws g Hf Hn; cbn [draw_remove].
  - exists []. split_and!; [done..|constructor|]. intros i []%not_elem_of_nil.
  - pose proof (draw_positive ws g Hf (positive_count_exists ws ltac:(lia))) as (w & Hi & Hw).
    destruct (draw ws g) as [i g'] eqn:Ed. simpl in Hi. rewrite Hi.
    pose proof (positive_count_insert ws i w Hi Hw).
    destruct (IH (<[i := S754_zero false]> ws) g') as (l & -> & Hl & Hnd & Hpos);
      [by apply finite_insert|lia|].
    simpl. exists (i :: l). split_and!; [done|simpl; lia| |].
    + constructor; [|done]. intros (v & Hv & Hp)%Hpos.
      rewrite list_lookup_insert_eq in Hv by (by eapply lookup_lt_Some).
      by injection Hv as <-.
    + intros j [->|Hj]%elem_of_cons; [eauto|]. destruct (Hpos j Hj) as (v & Hv & Hp).
      destruct (decide (i = j)) as [->|Hne]; [eauto|].
      rewrite list_lookup_insert_ne in Hv by done. eauto.
Qed.

(** Sampling without replacement from finite non-negative weights succeeds
    exactly when at least [num_samples] weights are positive; it then yields
    [num_samples] different indices, each of a positive weight, and a draw
    never indexes outside the weights. *)
Theorem weighted_without_replacement ws num_samples seed :
  ws <> [] -> forallb finite_nonneg ws = true -> (0 <= num_samples)%Z -> in_i64 seed = true ->
  if (num_samples <=? Z.of_nat (positive_count ws))%Z
  then exists s, WeightedRandomSampler_ctor ws num_samples false seed = Ok s /\
         Z.of_nat (length (wt_indices s)) = num_samples /\ NoDup (wt_indices s) /\
         forall i, i ∈ wt_indices s -> exists w, ws !! i = Some w /\ positive w = true
  else WeightedRandomSampler_ctor ws num_samples false seed =
       Err (InvalidArgument "num_samples must be <= number of strictly-positive weights when sampling without replacement").
Proof.
  intros Hne Hf Hn Hs. unfold WeightedRandomSampler_ctor.
  rewrite (proj2 (Z.ltb_ge num_samples 0)) by lia. rewrite bool_decide_eq_false_2 by done.
  assert (existsb (fun w => SFltb w (S754_zero false)) ws = false) as ->.
  { clear Hne Hn. induction ws as [|w ws IH]; [done|]. simpl in Hf |- *.
    apply andb_true_iff in Hf as [Hw Hf]. rewrite IH by done. by destruct w as [| | |[]]. }
  rewrite Z.gtb_ltb, Z.leb_antisym. cbn [throw_if rbind negb andb].
  destruct (Z.ltb_spec (Z.of_nat (positive_count ws)) num_samples) as [Hlt|Hge]; [done|].
  cbn [negb throw_if rbind]. destruct (epoch_seed_zero seed Hs) as [z Ez].
  destruct (draw_remove_spec (Z.to_nat num_samples) ws (seed_engine z)) as (l & El & Hl & ?);
    [done|lia|].
  unfold wt_reset. cbn [wt_seed wt_num_samples wt_replacement wt_weights].
  rewrite Ez. cbn [rbind]. rewrite El. cbn [rbind]. eexists. split; [done|]. cbn. split; [lia|done].
Qed.

(** The constructor checks that no weight is negative, not that one is
    positive: with replacement, weights that are all zero are accepted and the
    distribution is used outside its domain. *)
Lemma weighted_zero_weights_accepted num_samples seed :
  (0 <= num_samples)%Z -> in_i64 seed = true ->
  exists s, WeightedRandomSampler_ctor [S754_zero false; S754_zero false] num_samples true seed = Ok s.
Proof.
  intros Hn Hs. unfold WeightedRandomSampler_ctor.
  rewrite (proj2 (Z.ltb_ge num_samples 0)) by lia. cbn [bool_decide throw_if rbind negb andb].
  unfold wt_reset. destruct (epoch_seed_zero seed Hs) as [z Ez]. cbn. rewrite Ez. cbn. eauto.
Qed.
End Facts.

(** ** Concrete instances *)

#[local] Open Scope nat_scope.

(** An engine that counts its uses, a shuffle that reverses and a distribution
    that returns the first index of positive weight. *)
#[local] Instance counter_engine : RandomEngine Z :=
  {| seed_engine := id; shuffle g l := (reverse l, (g + 1)%Z) |}.

#[local] Instance counter_shuffle : ShuffleLaw Z.
Proof. intros g l. apply reverse_Permutation. Qed.

Definition first_positive (ws : list spec_float) : nat :=
  default 0%nat (fst <$> list_find (fun w => positive w = true) ws).

#[local] Instance first_draw : Discrete Z := fun ws g => (first_positive ws, (g + 1)%Z).

#[local] Instance first_draw_law : DiscreteLaw Z.
Proof.
  intros ws g _ H. apply existsb_exists in H as (w & Hin & Hw). simpl. unfold first_positive.
  apply list_elem_of_In in Hin.
  destruct (list_find_elem_of (fun w => positive w = true) ws w Hin Hw) as [[i v] E].
  rewrite E. apply list_find_Some in E as (Hi & Hv & _). simpl. eauto.
Defined.

Lemma distributed_partition_witness :
  (0 < 2)%Z /\ in_i64 7 = true /\ in_i64 (7 + 1) = true /\
  exists order, order ≡ₚ seq 0 5 /\
    forall rank, (0 <= rank < 2)%Z -> exists s,
      replica 5 2 true 7 false 1 rank = Ok s /\
      length (ds_indices s) = 3 /\
      forall k, k < length (ds_indices s) ->
        ds_indices s !! k = order !! ((Z.to_nat rank + k * 2) mod 5).
Proof.
  split_and!; [lia|reflexivity..|].
  exact (distributed_partition 5 2 true 7 false 1 ltac:(lia) eq_refl eq_refl).
Defined.

Lemma distributed_covers_once_witness :
  (0 < 3)%Z /\ in_i64 7 = true /\ in_i64 (7 + 1) = true /\
  (forall r1 r2 s1 s2 k1 k2 x, (0 <= r1 < 3)%Z -> (0 <= r2 < 3)%Z ->
     replica 7 3 true 7 true 1 r1 = Ok s1 -> replica 7 3 true 7 true 1 r2 = Ok s2 ->
     ds_indices s1 !! k1 = Some x -> ds_indices s2 !! k2 = Some x -> r1 = r2 /\ k1 = k2).
Proof.
  split_and!; [lia|reflexivity..|].
  exact (proj2 (distributed_covers_once 7 3 true 7 true 1 ltac:(lia) eq_refl eq_refl)
           (or_introl eq_refl)).
Defined.

Definition one : spec_float := S754_finite false 1 0.

Lemma weighted_without_replacement_witness :
  [one; S754_zero false; one] <> [] /\ forallb finite_nonneg [one; S754_zero false; one] = true /\
  (0 <= 2)%Z /\ in_i64 7 = true /\
  exists s, WeightedRandomSampler_ctor [one; S754_zero false; one] 2 false 7 = Ok s /\
    Z.of_nat (length (wt_indices s)) = 2%Z /\ NoDup (wt_indices s) /\
    forall i, i ∈ wt_indices s ->
      exists w, [one; S754_zero false; one] !! i = Some w /\ positive w = true.
Proof.
  split_and!; [done|reflexivity|lia|reflexivity|].
  exact (weighted_without_replacement [one; S754_zero false; one] 2 7
           ltac:(done) eq_refl ltac:(lia) eq_refl).
Defined.

End Samplers.
