(* ===== verification/DataLoader.v ===== *)
(** * The multi-threaded data loader

    [DataLoader] of src/data/dataloader.cpp as a concurrent state machine: the
    worker threads, the thread that iterates over the loader (the caller) and
    the state they share.  One step is one access to an atomic variable, one
    critical section of [queue_mutex_] or one load of a batch; a schedule is a
    list of labels, and the step function is executable.  Waiting on a
    condition variable is a program point that only a notification or a
    spurious wake-up leaves.  The dataset and the collation are the class
    [LoaderEnv]: [Dataset::get] and [collate_fn] are supplied by the user. *)

From stdpp Require Import base list numbers strings gmap.
From S2P Require Import Prelude Samplers.

#[local] Open Scope nat_scope.

Class LoaderEnv (Sample Batch : Type) := {
  dataset_size : nat;
  dataset_get : nat -> result Sample;
  collate : list Sample -> result Batch
}.

Record DataLoaderConfig := {
  batch_size : Z; cfg_shuffle : bool; num_workers : nat; drop_last : bool;
  prefetch_factor : Z; persistent_workers : bool
}.

Module Loader.

(** Where a worker is in [worker_thread]. *)
Inductive wpc (Batch : Type) : Type :=
| WEntry                       (** about to read [epoch_generation_] *)
| WTest                        (** [while (!stop_workers_)] *)
| WFetch                       (** [next_batch_idx_.fetch_add(1)] *)
| WCount                       (** no batch left: [active_workers_.fetch_sub(1)] *)
| WLastDone                    (** the last worker: [epoch_done_ = true] *)
| WLoad (k : nat)              (** loading and collating batch [k] *)
| WPush (k : nat) (b : Batch)  (** about to lock and push, or woken to try again *)
| WBlocked (k : nat) (b : Batch) (** waiting in [worker_cv_] for room *)
| WAfter                       (** [if (persistent_workers && !stop_workers_)] *)
| WNext                        (** about to lock and test for a new epoch *)
| WParked                      (** waiting in [epoch_start_cv_] *)
| WRepeat                      (** [while (persistent_workers && !stop_workers_)] *)
| WCatch (e : exn)             (** the [catch (...)] block *)
| WExit.
Arguments WEntry {Batch}. Arguments WTest {Batch}. Arguments WFetch {Batch}.
Arguments WCount {Batch}. Arguments WLastDone {Batch}. Arguments WLoad {Batch} k.
Arguments WPush {Batch} k b. Arguments WBlocked {Batch} k b. Arguments WAfter {Batch}.
Arguments WNext {Batch}. Arguments WParked {Batch}. Arguments WRepeat {Batch}.
Arguments WCatch {Batch} e. Arguments WExit {Batch}.

(** Where the caller is: idle between calls, in
    [get_next_batch_multi_threaded], in [reset] or in [stop_workers]. *)
Inductive cpc :=
| CIdle
| CPass                        (** about to lock and run a pass of the loop *)
| CSpin                        (** the wait's predicate held: another pass, lock kept *)
| CWait                        (** waiting in [queue_cv_] *)
| CRecheck                     (** woken: about to lock and test the predicate *)
| CReset                       (** entering [reset] *)
| CPExn | CPClear | CPDone | CPNext | CPActive | CPGen | CPNotify
                               (** the persistent branch of [reset], statement by statement *)
| CStop (restart : bool)       (** [stop_workers_ = true] *)
| CNotify (restart : bool)     (** the notifications of [stop_workers] *)
| CJoin (restart : bool)       (** joining the workers *)
| CRestart                     (** the rest of [reset], with [start_workers] *)
| CGone.                       (** destroyed *)

(** What a call of [get_next_batch_...] ended with: a batch of the epoch, the
    empty batch that signals the end, or an exception. *)
Inductive event (Batch : Type) : Type :=
| Emit (b : Batch)
| EndOfEpoch
| Threw (e : exn).
Arguments Emit {Batch} b. Arguments EndOfEpoch {Batch}. Arguments Threw {Batch} e.

Inductive op := Next | Reset | Destroy.

(** A scheduler's choice: a step of a worker or of the caller, a spurious
    wake-up, or, when the caller is idle, the next operation on the loader. *)
Inductive label :=
| Worker (i : nat)
| Caller
| Wakeup (i : nat)
| CallerWakeup
| Call (o : op).

#[export] Instance cpc_eq_dec : EqDecision cpc.
Proof. solve_decision. Defined.
#[export] Instance op_eq_dec : EqDecision op.
Proof. solve_decision. Defined.
#[export] Instance label_eq_dec : EqDecision label.
Proof. solve_decision. Defined.

Section Loader.
Context {Sample Batch Rng : Type} `{!RandomEngine Rng} `{!LoaderEnv Sample Batch}.
Variable (cfg : DataLoaderConfig).

(** [num_batches_]; the sum of the rounding-up branch is a 64-bit one. *)
Definition num_batches : nat :=
  Z.to_nat (if drop_last cfg then Z.of_nat dataset_size / batch_size cfg
            else wrap 64 (Z.of_nat dataset_size + batch_size cfg - 1) / batch_size cfg).

(** [start_idx] and [end_idx] of batch [k]. *)
Definition batch_range (k : nat) : Z * Z :=
  let start := wrap 64 (Z.of_nat k * batch_size cfg) in
  (start, Z.min (wrap 64 (start + batch_size cfg)) (Z.of_nat dataset_size)).

Definition load_samples (inds : list nat) (k : nat) : result (list Sample) :=
  let '(first, last) := batch_range k in
  rmapM (fun i => match inds !! Z.to_nat i with
                  | None => Err UndefinedBehaviour
                  | Some sample_idx => dataset_get sample_idx
                  end) (seqZ first (last - first)).

Definition load_batch (inds : list nat) (k : nat) : result Batch :=
  let* samples := load_samples inds k in collate samples.

Definition max_queue_size : Z :=
  Z.max 1 (wrap 64 (Z.of_nat (num_workers cfg) * prefetch_factor cfg)).

Record worker := { pc : wpc Batch; last_seen : nat }.
#[local] Notation event := (event Batch).

(** The loader's fields, the threads' program points, and the results of the
    calls made since the last [reset]. *)
Record state := {
  indices_ : list nat;
  rng : Rng;
  current_index : nat;
  batch_queue : list (nat * Batch);
  reorder_buffer : gmap nat Batch;
  next_output_idx : nat;
  stop_flag : bool;
  epoch_done : bool;
  next_batch_idx : nat;
  active_workers : Z;
  worker_exception : option exn;
  epoch_generation : nat;
  workers : list worker;
  caller : cpc;
  log : list event
}.

Definition set_caller (c : cpc) (s : state) : state :=
  {| indices_ := indices_ s; rng := rng s; current_index := current_index s;
     batch_queue := batch_queue s; reorder_buffer := reorder_buffer s;
     next_output_idx := next_output_idx s; stop_flag := stop_flag s;
     epoch_done := epoch_done s; next_batch_idx := next_batch_idx s;
     active_workers := active_workers s; worker_exception := worker_exception s;
     epoch_generation := epoch_generation s; workers := workers s; caller := c; log := log s |}.

Definition set_workers (ws : list worker) (s : state) : state :=
  {| indices_ := indices_ s; rng := rng s; current_index := current_index s;
     batch_queue := batch_queue s; reorder_buffer := reorder_buffer s;
     next_output_idx := next_output_idx s; stop_flag := stop_flag s;
     epoch_done := epoch_done s; next_batch_idx := next_batch_idx s;
     active_workers := active_workers s; worker_exception := worker_exception s;
     epoch_generation := epoch_generation s; workers := ws; caller := caller s; log := log s |}.

Definition set_indices (l : list nat) (g : Rng) (s : state) : state :=
  {| indices_ := l; rng := g; current_index := current_index s; batch_queue := batch_queue s;
     reorder_buffer := reorder_buffer s; next_output_idx := next_output_idx s;
     stop_flag := stop_flag s; epoch_done := epoch_done s; next_batch_idx := next_batch_idx s;
     active_workers := active_workers s; worker_exception := worker_exception s;
     epoch_generation := epoch_generation s; workers := workers s; caller := caller s;
     log := log s |}.

Definition set_current (k : nat) (s : state) : state :=
  {| indices_ := indices_ s; rng := rng s; current_index := k; batch_queue := batch_queue s;
     reorder_buffer := reorder_buffer s; next_output_idx := next_output_idx s;
     stop_flag := stop_flag s; epoch_done := epoch_done s; next_batch_idx := next_batch_idx s;
     active_workers := active_workers s; worker_exception := worker_exception s;
     epoch_generation := epoch_generation s; workers := workers s; caller := caller s;
     log := log s |}.

Definition set_queue (q : list (nat * Batch)) (s : state) : state :=
  {| indices_ := indices_ s; rng := rng s; current_index := current_index s; batch_queue := q;
     reorder_buffer := reorder_buffer s; next_output_idx := next_output_idx s;
     stop_flag := stop_flag s; epoch_done := epoch_done s; next_batch_idx := next_batch_idx s;
     active_workers := active_workers s; worker_exception := worker_exception s;
     epoch_generation := epoch_generation s; workers := workers s; caller := caller s;
     log := log s |}.

Definition set_buffer (m : gmap nat Batch) (k : nat) (s : state) : state :=
  {| indices_ := indices_ s; rng := rng s; current_index := current_index s;
     batch_queue := batch_queue s; reorder_buffer := m; next_output_idx := k;
     stop_flag := stop_flag s; epoch_done := epoch_done s; next_batch_idx := next_batch_idx s;
     active_workers := active_workers s; worker_exception := worker_exception s;
     epoch_generation := epoch_generation s; workers := workers s; caller := caller s;
     log := log s |}.

Definition set_stop (b : bool) (s : state) : state :=
  {| indices_ := indices_ s; rng := rng s; current_index := current_index s;
     batch_queue := batch_queue s; reorder_buffer := reorder_buffer s;
     next_output_idx := next_output_idx s; stop_flag := b; epoch_done := epoch_done s;
     next_batch_idx := next_batch_idx s; active_workers := active_workers s;
     worker_exception := worker_exception s; epoch_generation := epoch_generation s;
     workers := workers s; caller := caller s; log := log s |}.

Definition set_done (b : bool) (s : state) : state :=
  {| indices_ := indices_ s; rng := rng s; current_index := current_index s;
     batch_queue := batch_queue s; reorder_buffer := reorder_buffer s;
     next_output_idx := next_output_idx s; stop_flag := stop_flag s; epoch_done := b;
     next_batch_idx := next_batch_idx s; active_workers := active_workers s;
     worker_exception := worker_exception s; epoch_generation := epoch_generation s;
     workers := workers s; caller := caller s; log := log s |}.

Definition set_next_batch (k : nat) (s : state) : state :=
  {| indices_ := indices_ s; rng := rng s; current_index := current_index s;
     batch_queue := batch_queue s; reorder_buffer := reorder_buffer s;
     next_output_idx := next_output_idx s; stop_flag := stop_flag s;
     epoch_done := epoch_done s; next_batch_idx := k; active_workers := active_workers s;
     worker_exception := worker_exception s; epoch_generation := epoch_generation s;
     workers := workers s; caller := caller s; log := log s |}.

Definition set_active (z : Z) (s : state) : state :=
  {| indices_ := indices_ s; rng := rng s; current_index := current_index s;
     batch_queue := batch_queue s; reorder_buffer := reorder_buffer s;
     next_output_idx := next_output_idx s; stop_flag := stop_flag s;
     epoch_done := epoch_done s; next_batch_idx := next_batch_idx s; active_workers := z;
     worker_exception := worker_exception s; epoch_generation := epoch_generation s;
     workers := workers s; caller := caller s; log := log s |}.

Definition set_exception (e : option exn) (s : state) : state :=
  {| indices_ := indices_ s; rng := rng s; current_index := current_index s;
     batch_queue := batch_queue s; reorder_buffer := reorder_buffer s;
     next_output_idx := next_output_idx s; stop_flag := stop_flag s;
     epoch_done := epoch_done s; next_batch_idx := next_batch_idx s;
     active_workers := active_workers s; worker_exception := e;
     epoch_generation := epoch_generation s; workers := workers s; caller := caller s;
     log := log s |}.

Definition set_generation (g : nat) (s : state) : state :=
  {| indices_ := indices_ s; rng := rng s; current_index := current_index s;
     batch_queue := batch_queue s; reorder_buffer := reorder_buffer s;
     next_output_idx := next_output_idx s; stop_flag := stop_flag s;
     epoch_done := epoch_done s; next_batch_idx := next_batch_idx s;
     active_workers := active_workers s; worker_exception := worker_exception s;
     epoch_generation := g; workers := workers s; caller := caller s; log := log s |}.

Definition set_log (l : list event) (s : state) : state :=
  {| indices_ := indices_ s; rng := rng s; current_index := current_index s;
     batch_queue := batch_queue s; reorder_buffer := reorder_buffer s;
     next_output_idx := next_output_idx s; stop_flag := stop_flag s;
     epoch_done := epoch_done s; next_batch_idx := next_batch_idx s;
     active_workers := active_workers s; worker_exception := worker_exception s;
     epoch_generation := epoch_generation s; workers := workers s; caller := caller s;
     log := l |}.

(** ** The workers *)

(** Only a spinning caller keeps [queue_mutex_] between steps. *)
Definition mutex_free (s : state) : bool :=
  match caller s with CSpin => false | _ => true end.

Definition locked {A} (s : state) (a : A) : option A :=
  if mutex_free s then Some a else None.

(** [queue_cv_.notify_one()] and [notify_all()]: only the caller waits there. *)
Definition notify_queue (s : state) : state :=
  match caller s with CWait => set_caller CRecheck s | _ => s end.

(** [worker_cv_.notify_all()] *)
Definition wake_pusher (w : worker) : worker :=
  match pc w with
  | WBlocked k b => {| pc := WPush k b; last_seen := last_seen w |}
  | _ => w
  end.
Definition notify_workers (s : state) : state := set_workers (map wake_pusher (workers s)) s.

(** [epoch_start_cv_.notify_all()] *)
Definition wake_parked (w : worker) : worker :=
  match pc w with
  | WParked => {| pc := WNext; last_seen := last_seen w |}
  | _ => w
  end.

Definition goto (w : worker) (p : wpc Batch) : worker := {| pc := p; last_seen := last_seen w |}.

(** One step of a worker: the new shared state and the new worker. *)
Definition wtrans (s : state) (w : worker) : option (state * worker) :=
  match pc w with
  | WEntry => locked s (s, {| pc := WTest; last_seen := epoch_generation s |})
  | WTest => Some (s, goto w (if stop_flag s then WAfter else WFetch))
  | WFetch =>
      let k := next_batch_idx s in
      Some (set_next_batch (S k) s, goto w (if num_batches <=? k then WCount else WLoad k))
  | WCount =>
      let remaining := wrap 64 (active_workers s - 1) in
      Some (set_active remaining s,
            goto w (if (remaining =? 0)%Z then WLastDone else WAfter))
  | WLastDone => locked s (notify_queue (set_done true s), goto w WAfter)
  | WLoad k =>
      Some (s, goto w (match load_batch (indices_ s) k with
                       | Ok b => WPush k b
                       | Err e => WCatch e
                       end))
  | WPush k b => locked s
      (if stop_flag s then (s, goto w WAfter)
       else if (lenZ (batch_queue s) <? max_queue_size)%Z
       then (notify_queue (set_queue (batch_queue s ++ [(k, b)]) s), goto w WTest)
       else (s, goto w (WBlocked k b)))
  | WAfter => Some (s, goto w (if persistent_workers cfg && negb (stop_flag s)
                               then WNext else WRepeat))
  | WNext => locked s
      (if stop_flag s then (s, goto w WExit)
       else if negb (epoch_generation s =? last_seen w)
       then (s, {| pc := WRepeat; last_seen := epoch_generation s |})
       else (s, goto w WParked))
  | WRepeat => Some (s, goto w (if persistent_workers cfg && negb (stop_flag s)
                                then WTest else WExit))
  | WCatch e => locked s
      (notify_queue (set_done true
         (set_exception (Some (default e (worker_exception s))) s)), goto w WExit)
  | WBlocked _ _ | WParked | WExit => None
  end.

(** ** The caller *)

(** [reorder_buffer_.emplace(k, batch)] keeps an existing entry. *)
Definition emplace_batch (m : gmap nat Batch) (kb : nat * Batch) : gmap nat Batch :=
  match m !! kb.1 with Some _ => m | None => <[kb.1 := kb.2]> m end.

(** The drain loop, with its notification. *)
Definition drain (s : state) : state :=
  let s' := set_buffer (foldl emplace_batch (reorder_buffer s) (batch_queue s))
              (next_output_idx s) (set_queue [] s) in
  match batch_queue s with [] => s' | _ => notify_workers s' end.

Definition return_event (e : event) (s : state) : state :=
  set_caller CIdle (set_log (log s ++ [e]) s).

(** One pass of the [for (;;)] loop of [get_next_batch_multi_threaded]: it
    returns, throws, waits, or goes round again with the lock held. *)
Definition consumer_pass (s0 : state) : state :=
  let s := drain s0 in
  match worker_exception s with
  | Some e => return_event (Threw e) (set_exception None s)
  | None =>
      match reorder_buffer s !! next_output_idx s with
      | Some b =>
          return_event (Emit b) (notify_workers
            (set_buffer (delete (next_output_idx s) (reorder_buffer s)) (S (next_output_idx s)) s))
      | None =>
          if epoch_done s && bool_decide (reorder_buffer s = ∅)
          then return_event EndOfEpoch s
          else set_caller (if epoch_done s then CSpin else CWait) s
      end
  end.

Definition wait_predicate (s : state) : bool :=
  match batch_queue s with [] => epoch_done s | _ => true end.

(** [start_workers]: the threads are created one after the other; one that was
    created and has not run yet is a thread at its entry. *)
Definition start_workers (s : state) : state :=
  set_workers (replicate (num_workers cfg) {| pc := WEntry; last_seen := 0 |})
    (set_active (Z.of_nat (num_workers cfg)) (set_next_batch 0 (set_done false (set_stop false s)))).

Definition shuffle_indices (s : state) : state :=
  let '(l, g) := shuffle (rng s) (indices_ s) in set_indices l g s.

(** [stop_workers] returns at once when there is no thread. *)
Definition enter_stop (restart : bool) (s : state) : state :=
  match workers s with
  | [] => set_caller (if restart then CRestart else CGone) s
  | _ => set_caller (CStop restart) s
  end.

Definition exited (w : worker) : bool := match pc w with WExit => true | _ => false end.

Definition cstep (s : state) : option state :=
  match caller s with
  | CIdle | CWait | CGone => None
  | CPass | CSpin => Some (consumer_pass s)
  | CRecheck => Some (if wait_predicate s then consumer_pass s else set_caller CWait s)
  | CReset =>
      let s1 := set_current 0 s in
      let s2 := if cfg_shuffle cfg then shuffle_indices s1 else s1 in
      Some (if num_workers cfg =? 0 then set_caller CIdle s2
            else if persistent_workers cfg && negb (length (workers s) =? 0)
            then set_caller CPExn s2 else enter_stop true s2)
  | CPExn => Some (set_caller CPClear (set_exception None s))
  | CPClear => Some (set_caller CPDone (set_buffer ∅ 0 (set_queue [] s)))
  | CPDone => Some (set_caller CPNext (set_done false s))
  | CPNext => Some (set_caller CPActive (set_next_batch 0 s))
  | CPActive => Some (set_caller CPGen (set_active (Z.of_nat (num_workers cfg)) s))
  | CPGen => Some (set_caller CPNotify (set_generation (S (epoch_generation s)) s))
  | CPNotify => Some (set_caller CIdle (set_workers (map wake_parked (workers s)) s))
  | CStop r => Some (set_caller (CNotify r) (set_stop true s))
  | CNotify r => Some (set_caller (CJoin r) (notify_workers s))
  | CJoin r => if forallb exited (workers s)
               then Some (set_caller (if r then CRestart else CGone) (set_workers [] s))
               else None
  | CRestart => Some (set_caller CIdle
      (start_workers (set_buffer ∅ 0 (set_queue [] (set_exception None s)))))
  end.

(** [get_next_batch_single_threaded] *)
Definition single_next (s : state) : state :=
  let k := current_index s in
  if num_batches <=? k then return_event EndOfEpoch s
  else match load_samples (indices_ s) k with
       | Err e => return_event (Threw e) s
       | Ok samples =>
           let s := set_current (S k) s in
           match collate samples with
           | Ok b => return_event (Emit b) s
           | Err e => return_event (Threw e) s
           end
       end.

(** An operation starts: [fetch_next] chooses between the two loaders. *)
Definition call (o : op) (s : state) : state :=
  match o with
  | Next => if num_workers cfg =? 0 then single_next s else set_caller CPass s
  | Reset => set_caller CReset (set_log [] s)
  | Destroy => enter_stop false s
  end.

(** ** The whole system *)

Definition spurious (w : worker) : option worker :=
  match pc w with
  | WBlocked k b => Some (goto w (WPush k b))
  | WParked => Some (goto w WNext)
  | _ => None
  end.

Definition step (l : label) (s : state) : option state :=
  match l with
  | Worker i =>
      match workers s !! i with
      | None => None
      | Some w => match wtrans s w with
                  | None => None
                  | Some (s', w') => Some (set_workers (<[i := w']> (workers s')) s')
                  end
      end
  | Caller => cstep s
  | Wakeup i =>
      match workers s !! i with
      | None => None
      | Some w => match spurious w with
                  | None => None
                  | Some w' => Some (set_workers (<[i := w']> (workers s)) s)
                  end
      end
  | CallerWakeup => match caller s with CWait => Some (set_caller CRecheck s) | _ => None end
  | Call o => match caller s with CIdle => Some (call o s) | _ => None end
  end.

Fixpoint run (ls : list label) (s : state) : option state :=
  match ls with
  | [] => Some s
  | l :: ls => match step l s with None => None | Some s => run ls s end
  end.

(** The constructor, with [init_indices]. *)
Definition DataLoader_ctor (g : Rng) : result state :=
  let* _ := throw_if (batch_size cfg =? 0)%Z
              (InvalidArgument "Batch size must be greater than 0") in
  let* _ := throw_if (prefetch_factor cfg =? 0)%Z
              (InvalidArgument "prefetch_factor must be greater than 0") in
  let s := {| indices_ := seq 0 dataset_size; rng := g; current_index := 0; batch_queue := [];
              reorder_buffer := ∅; next_output_idx := 0; stop_flag := false;
              epoch_done := false; next_batch_idx := 0; active_workers := 0;
              worker_exception := None; epoch_generation := 0; workers := [];
              caller := CIdle; log := [] |} in
  let s := if cfg_shuffle cfg then shuffle_indices s else s in
  Ok (if num_workers cfg =? 0 then s else start_workers s).

Definition reachable (s : state) : Prop :=
  exists g s0 ls, DataLoader_ctor g = Ok s0 /\ run ls s0 = Some s.

(** Steps that a scheduler cannot refuse for ever: neither a spurious wake-up
    nor a new operation. *)
Definition thread_step (l : label) : bool :=
  match l with Worker _ | Caller => true | _ => false end.

End Loader.
End Loader.
