(* ===== verification/LoaderSafety.v ===== *)
(** * The data loader: batches arrive in order

    Invariants of the state machine of DataLoader.v for a loader whose workers
    end with the epoch ([persistent_workers] false).  Every batch index below
    the counter is in exactly one place (returned, in the reorder buffer, in
    the queue, in a worker's hands, or lost to an exception); the counts are
    sums over the workers, so that a step changes them by linear arithmetic. *)

From stdpp Require Import base list numbers strings gmap.
From S2P Require Import Prelude Samplers DataLoader.

#[local] Open Scope nat_scope.

Module Safety.
Import Loader.

Section Sums.
Context {Batch : Type}.
Implicit Types (w : worker (Batch := Batch)) (ws : list (worker (Batch := Batch))).

Definition sumw (f : worker -> nat) ws : nat := sum_list_with f ws.

Lemma sumw_insert f ws i w w' :
  ws !! i = Some w -> sumw f (<[i := w']> ws) + f w = sumw f ws + f w'.
Proof.
  unfold sumw. revert i. induction ws as [|v ws IH]; intros [|i] Hi; try done.
  - injection Hi as ->. simpl. lia.
  - change (<[S i := w']> (v :: ws)) with (v :: <[i := w']> ws). cbn [sum_list_with].
    specialize (IH i Hi). lia.
Qed.

Lemma sumw_map f g ws : (forall w, f (g w) = f w) -> sumw f (map g ws) = sumw f ws.
Proof. intros H. unfold sumw. induction ws as [|w ws IH]; simpl; [done|]. by rewrite H, IH. Qed.

Lemma sumw_zero f g ws : (forall w, f (g w) = 0) -> sumw f (map g ws) = 0.
Proof. intros H. unfold sumw. induction ws as [|w ws IH]; simpl; [done|]. by rewrite H, IH. Qed.

Lemma sumw_le f g ws c : (forall w, f (g w) <= f w + c) -> sumw f (map g ws) <= sumw f ws + c * length ws.
Proof. intros H. unfold sumw. induction ws as [|w ws IH]; simpl; [lia|]. specialize (H w). lia. Qed.

Lemma sumw_member f ws i w : ws !! i = Some w -> f w <= sumw f ws.
Proof.
  unfold sumw. revert i. induction ws as [|v ws IH]; intros [|i] Hi; try done; simpl.
  - injection Hi as ->. lia.
  - specialize (IH i Hi). lia.
Qed.

Lemma sumw_exists f ws : sumw f ws <> 0 -> exists i w, ws !! i = Some w /\ f w <> 0.
Proof.
  unfold sumw. induction ws as [|v ws IH]; simpl; [done|]. intros H.
  destruct (decide (f v = 0)) as [E|E]; [|by exists 0, v].
  destruct IH as (i & w & Hi & Hw); [lia|]. by exists (S i), w.
Qed.

Lemma sumw_replicate f n w : sumw f (replicate n w) = n * f w.
Proof. unfold sumw. induction n as [|n IH]; simpl; lia. Qed.

(** What a worker counts for. *)
Definition delta (a b : nat) : nat := if a =? b then 1 else 0.
Definition holds (k : nat) w : nat :=
  match pc w with WLoad j | WPush j _ | WBlocked j _ => delta j k | _ => 0 end.
Definition busy w : nat :=
  match pc w with
  | WEntry | WTest | WFetch | WCount | WLoad _ | WPush _ _ | WBlocked _ _ => 1
  | _ => 0
  end.
Definition blocked w : nat := match pc w with WBlocked _ _ => 1 | _ => 0 end.
Definition parked w : nat := match pc w with WNext | WParked => 1 | _ => 0 end.
Definition last_done w : nat := match pc w with WLastDone => 1 | _ => 0 end.
Definition catching w : nat := match pc w with WCatch _ => 1 | _ => 0 end.
Definition signalling w : nat := match pc w with WLastDone | WCatch _ => 1 | _ => 0 end.
Definition finished w : nat :=
  match pc w with WCount | WLastDone | WAfter | WRepeat | WCatch _ | WExit => 1 | _ => 0 end.

Definition count_q (k : nat) (q : list (nat * Batch)) : nat :=
  sum_list_with (fun kb => delta kb.1 k) q.
Definition in_buffer (m : gmap nat Batch) (k : nat) : nat :=
  match m !! k with Some _ => 1 | None => 0 end.
Definition below (k n : nat) : nat := if k <? n then 1 else 0.

Lemma count_q_app k q q' : count_q k (q ++ q') = count_q k q + count_q k q'.
Proof. unfold count_q. induction q as [|x q IH]; simpl; lia. Qed.

Lemma in_buffer_insert m k j b :
  m !! k = None -> in_buffer (<[k := b]> m) j = in_buffer m j + delta k j.
Proof.
  intros Hk. unfold in_buffer, delta. destruct (Nat.eqb_spec k j) as [->|Hne].
  - by rewrite lookup_insert_eq, Hk.
  - rewrite lookup_insert_ne by done. lia.
Qed.

Lemma in_buffer_delete m k j b :
  m !! k = Some b -> in_buffer (delete k m) j + delta k j = in_buffer m j.
Proof.
  intros Hk. unfold in_buffer, delta. destruct (Nat.eqb_spec k j) as [->|Hne].
  - by rewrite lookup_delete_eq, Hk.
  - rewrite lookup_delete_ne by done. lia.
Qed.

(** Draining inserts every queued batch when no index occurs twice. *)
Lemma drain_buffer (P : nat -> Batch -> Prop) q : forall m,
  (forall k, in_buffer m k + count_q k q <= 1) ->
  map_Forall P m -> Forall (fun kb => P kb.1 kb.2) q ->
  map_Forall P (foldl emplace_batch m q) /\
  forall k, in_buffer (foldl emplace_batch m q) k = in_buffer m k + count_q k q.
Proof.
  induction q as [|[k b] q IH]; intros m Hc Hm Hq; cbn [foldl].
  - split; [done|]. intros k. unfold count_q. simpl. lia.
  - inversion_clear Hq as [|? ? Hb Hq']. simpl in Hb.
    assert (m !! k = None) as Hk.
    { specialize (Hc k). unfold count_q, in_buffer, delta in Hc. simpl in Hc.
      rewrite Nat.eqb_refl in Hc. destruct (m !! k); [lia|done]. }
    assert (emplace_batch m (k, b) = <[k := b]> m) as ->.
    { unfold emplace_batch. simpl. by rewrite Hk. }
    destruct (IH (<[k := b]> m)) as [H1 H2]; [|by apply map_Forall_insert_2|done|].
    + intros j. rewrite in_buffer_insert by done. specialize (Hc j).
      unfold count_q in Hc |- *. simpl in Hc. lia.
    + split; [done|]. intros j. rewrite H2, in_buffer_insert by done.
      unfold count_q. simpl. lia.
Qed.

Lemma empty_buffer m : (forall k, in_buffer m k = 0) -> m = ∅.
Proof.
  intros H. apply map_empty. intros k. specialize (H k). unfold in_buffer in H.
  by destruct (m !! k).
Qed.

Lemma wake_pusher_pc w :
  wake_pusher w = w \/ exists k b, pc w = WBlocked k b /\ pc (wake_pusher w) = WPush k b.
Proof. unfold wake_pusher. destruct (pc w) eqn:E; eauto 6. Qed.

Lemma sumw_wake f ws :
  (forall k b seen, f {| pc := WBlocked k b; last_seen := seen |} =
                    f {| pc := WPush k b; last_seen := seen |}) ->
  sumw f (map wake_pusher ws) = sumw f ws.
Proof.
  intros H. apply sumw_map. intros [p seen]. unfold wake_pusher. cbn. by destruct p.
Qed.

Lemma blocked_wake ws : sumw blocked (map wake_pusher ws) = 0.
Proof. apply sumw_zero. intros [p seen]. unfold wake_pusher. cbn. by destruct p. Qed.

(** A worker is still at work, has finished, or waits for another epoch. *)
Lemma sumw_cover ws : length ws <= sumw busy ws + sumw finished ws + sumw parked ws.
Proof.
  unfold sumw. induction ws as [|[p seen] ws IH]; simpl; [lia|].
  destruct p; cbn; lia.
Qed.

Lemma sumw_holds_busy k ws : sumw (holds k) ws <= sumw busy ws.
Proof.
  unfold sumw. induction ws as [|[p seen] ws IH]; simpl; [lia|].
  destruct p; cbn; unfold delta; try case_match; lia.
Qed.
End Sums.

#[local] Arguments sumw : simpl never.
#[local] Arguments count_q : simpl never.
#[local] Arguments in_buffer : simpl never.
#[local] Arguments below : simpl never.
#[local] Arguments delta : simpl never.
#[local] Arguments Nat.min : simpl never.
#[local] Arguments seq : simpl never.

Section Invariant.
Context {Sample Batch Rng : Type} `{!RandomEngine Rng} `{!LoaderEnv Sample Batch}.
Variable (cfg : DataLoaderConfig).
#[local] Notation n := (num_batches cfg).
#[local] Notation worker := (worker (Batch := Batch)).
#[local] Notation state := (state (Batch := Batch) (Rng := Rng)).
Implicit Types (s : state) (w : worker).

(** The batches returned since the last reset. *)
Definition emits (l : list (event Batch)) : list Batch :=
  omap (fun e => match e with Emit b => Some b | _ => None end) l.

Definition good (inds : list nat) (k : nat) (b : Batch) : Prop := load_batch cfg inds k = Ok b.

Definition good_worker (inds : list nat) w : Prop :=
  match pc w with WPush k b | WBlocked k b => good inds k b | _ => True end.

(** An epoch in progress; [lost k] counts the loads of batch [k] that threw,
    [crashed] all of them. *)
Record epoch_inv (lost : nat -> nat) (crashed : nat) s : Prop := {
  ei_stop : stop_flag s = false;
  ei_len : length (workers s) = num_workers cfg;
  ei_tokens k : below k (next_output_idx s) + in_buffer (reorder_buffer s) k +
    count_q k (batch_queue s) + sumw (holds k) (workers s) + lost k =
    below k (Nat.min (next_batch_idx s) n);
  ei_queue : Forall (fun kb => good (indices_ s) kb.1 kb.2) (batch_queue s);
  ei_buffer : map_Forall (good (indices_ s)) (reorder_buffer s);
  ei_workers : Forall (good_worker (indices_ s)) (workers s);
  ei_output : Forall2 (good (indices_ s)) (seq 0 (next_output_idx s)) (emits (log s));
  ei_lost k : lost k <> 0 -> exists e, load_batch cfg (indices_ s) k = Err e;
  ei_crashed : (crashed = 0 -> forall k, lost k = 0) /\ (crashed <> 0 -> exists k, lost k <> 0);
  ei_active : active_workers s = Z.of_nat (sumw busy (workers s) + crashed);
  ei_bound : sumw busy (workers s) + crashed <= num_workers cfg;
  ei_finished : sumw finished (workers s) <> 0 -> crashed <> 0 \/ n <= next_batch_idx s;
  ei_done : epoch_done s = true -> sumw busy (workers s) = 0 \/ crashed <> 0;
  ei_last : sumw last_done (workers s) <> 0 -> sumw busy (workers s) + crashed = 0;
  ei_signal : sumw busy (workers s) = 0 \/ crashed <> 0 ->
    epoch_done s = true \/ sumw signalling (workers s) <> 0;
  ei_catching : sumw catching (workers s) <> 0 -> crashed <> 0;
  ei_blocked : sumw blocked (workers s) <> 0 -> (max_queue_size cfg <= lenZ (batch_queue s))%Z;
  ei_parked : sumw parked (workers s) = 0;
  ei_exception : worker_exception s <> None -> crashed <> 0;
  ei_threw e : Threw e ∈ log s -> crashed <> 0;
  ei_end : EndOfEpoch ∈ log s -> crashed <> 0 \/ n <= next_output_idx s
}.

(** What the caller's program point adds. *)
Definition caller_inv (crashed : nat) s : Prop :=
  match caller s with
  | CWait => batch_queue s = [] /\ epoch_done s = false
  | CSpin => crashed <> 0
  | _ => True
  end.

Definition in_epoch (c : cpc) : bool :=
  match c with CIdle | CPass | CSpin | CWait | CRecheck => true | _ => false end.

(** Between epochs: a reset, or the destructor. *)
Record stop_inv s : Prop := {
  si_parked : sumw parked (workers s) = 0;
  si_len : length (workers s) <= num_workers cfg;
  si_log : match caller s with
           | CReset | CStop true | CNotify true | CJoin true | CRestart => log s = []
           | CStop false | CNotify false | CJoin false | CGone => True
           | _ => False
           end;
  si_stop : match caller s with CNotify _ | CJoin _ => stop_flag s = true | _ => True end;
  si_blocked : match caller s with CJoin _ => sumw blocked (workers s) = 0 | _ => True end;
  si_none : match caller s with CRestart | CGone => workers s = [] | _ => True end
}.

Definition inv s : Prop :=
  if in_epoch (caller s)
  then exists lost crashed, epoch_inv lost crashed s /\ caller_inv crashed s
  else stop_inv s.

Lemma max_queue_size_pos : (1 <= max_queue_size cfg)%Z.
Proof. unfold max_queue_size. lia. Qed.

(** *** Changing one worker *)

(** The equations that relate the sums before and after a worker's step. *)
Ltac sums Hi :=
  match goal with |- context [<[?i := ?w']> _] =>
    pose proof (sumw_insert busy _ _ _ w' Hi); pose proof (sumw_insert finished _ _ _ w' Hi);
    pose proof (sumw_insert blocked _ _ _ w' Hi); pose proof (sumw_insert last_done _ _ _ w' Hi);
    pose proof (sumw_insert signalling _ _ _ w' Hi); pose proof (sumw_insert parked _ _ _ w' Hi);
    pose proof (sumw_insert catching _ _ _ w' Hi)
  end.

Ltac weigh Hpc :=
  unfold busy, finished, blocked, last_done, signalling, catching, parked, holds, goto in *;
  rewrite ?Hpc in *; cbn in *.

(** Closes the arithmetic obligations of [epoch_inv] after a worker's step. *)
Ltac close_sums Hi Hpc :=
  sums Hi; weigh Hpc;
  first [ lia
        | intros Hd; match goal with H : epoch_done _ = true -> _ |- _ => specialize (H Hd); lia end
        | intros Hb'; match goal with H : _ \/ _ -> epoch_done _ = true \/ _ |- _ =>
            destruct H; [lia | by left | right; lia] end ].

Hypothesis nonpersistent : persistent_workers cfg = false.
Hypothesis threads_fit : (Z.of_nat (num_workers cfg) < 2 ^ 64)%Z.

(** A step of a worker that changes neither the shared state nor the batch it
    holds. *)
Lemma move_worker lost crashed s i w p seen :
  epoch_inv lost crashed s -> workers s !! i = Some w ->
  (forall k, holds k {| pc := p; last_seen := seen |} = holds k w) ->
  busy {| pc := p; last_seen := seen |} = busy w ->
  (finished {| pc := p; last_seen := seen |} <> 0 ->
     finished w <> 0 \/ crashed <> 0 \/ n <= next_batch_idx s) ->
  last_done {| pc := p; last_seen := seen |} <= last_done w ->
  signalling w <= signalling {| pc := p; last_seen := seen |} ->
  catching {| pc := p; last_seen := seen |} <= catching w ->
  (blocked {| pc := p; last_seen := seen |} <= blocked w \/
   (max_queue_size cfg <= lenZ (batch_queue s))%Z) ->
  parked {| pc := p; last_seen := seen |} = 0 ->
  good_worker (indices_ s) {| pc := p; last_seen := seen |} ->
  epoch_inv lost crashed (set_workers (<[i := {| pc := p; last_seen := seen |}]> (workers s)) s).
Proof.
  intros [] Hi Hh Hb Hf Hl Hs Hct Hbl Hp Hg. set (w' := {| pc := p; last_seen := seen |}) in *.
  assert (forall k, sumw (holds k) (<[i := w']> (workers s)) = sumw (holds k) (workers s)) as Hk.
  { intros k. pose proof (sumw_insert (holds k) _ _ _ w' Hi). specialize (Hh k). lia. }
  split; cbn; try assumption; try (sums Hi; lia).
  - by rewrite length_insert.
  - intros k. rewrite Hk. apply ei_tokens0.
  - by apply Forall_insert.
  - sums Hi. intros Hf'. pose proof (sumw_member finished _ _ _ Hi). lia.
  - sums Hi. intros Hd. specialize (ei_done0 Hd). lia.
  - sums Hi. intros Hb'. destruct ei_signal0 as [?|?]; [lia|by left|right; lia].
Qed.

(** [notify_queue] only moves the caller. *)
Lemma notify_queue_inv lost crashed s : epoch_inv lost crashed s -> epoch_inv lost crashed (notify_queue s).
Proof. intros []. unfold notify_queue. destruct (caller s); by split. Qed.

Lemma notify_queue_caller s :
  in_epoch (caller s) = true ->
  in_epoch (caller (notify_queue s)) = true /\ caller (notify_queue s) <> CWait.
Proof. unfold notify_queue. by destruct (caller s) eqn:E; cbn; rewrite ?E. Qed.

Lemma fetch_inv lost crashed s i w :
  epoch_inv lost crashed s -> workers s !! i = Some w -> pc w = WFetch ->
  let k := next_batch_idx s in
  epoch_inv lost crashed (set_workers
    (<[i := goto w (if n <=? k then WCount else WLoad k)]> (workers s)) (set_next_batch (S k) s)).
Proof.
  intros [] Hi Hpc k. subst k. destruct (Nat.leb_spec n (next_batch_idx s)) as [Hn|Hn].
  - split; cbn; try assumption; try (close_sums Hi Hpc).
    + by rewrite length_insert.
    + intros k. pose proof (sumw_insert (holds k) _ _ _ (goto w WCount) Hi) as Hk.
      weigh Hpc. specialize (ei_tokens0 k). rewrite !Nat.min_r in * by lia. lia.
    + by apply Forall_insert.
  - split; cbn; try assumption; try (close_sums Hi Hpc).
    + by rewrite length_insert.
    + intros k.
      pose proof (sumw_insert (holds k) _ _ _ (goto w (WLoad (next_batch_idx s))) Hi) as Hk.
      weigh Hpc. specialize (ei_tokens0 k). rewrite !Nat.min_l in * by lia.
      unfold below, delta in *. destruct (Nat.ltb_spec k (next_batch_idx s));
        destruct (Nat.ltb_spec k (S (next_batch_idx s)));
        destruct (Nat.eqb_spec (next_batch_idx s) k); lia.
    + by apply Forall_insert.
Qed.

Lemma count_inv lost crashed s i w :
  epoch_inv lost crashed s -> workers s !! i = Some w -> pc w = WCount ->
  let remaining := wrap 64 (active_workers s - 1) in
  epoch_inv lost crashed (set_workers
    (<[i := goto w (if (remaining =? 0)%Z then WLastDone else WAfter)]> (workers s))
    (set_active remaining s)).
Proof.
  intros [] Hi Hpc remaining. pose proof (sumw_member busy _ _ _ Hi) as Hbw.
  pose proof (sumw_member finished _ _ _ Hi) as Hfw. unfold busy at 1 in Hbw. unfold finished at 1 in Hfw.
  rewrite Hpc in Hbw, Hfw.
  assert (remaining = (Z.of_nat (sumw busy (workers s) + crashed) - 1)%Z) as Er.
  { subst remaining. rewrite ei_active0. apply wrap_small. lia. }
  destruct (Z.eqb_spec remaining 0) as [E0|E0];
    (split; cbn; try assumption; try (close_sums Hi Hpc));
    try (by rewrite length_insert); try (by apply Forall_insert);
    intros k; specialize (ei_tokens0 k);
    match goal with |- context [<[i := ?w']> _] =>
      pose proof (sumw_insert (holds k) _ _ _ w' Hi) as Hk end; weigh Hpc; lia.
Qed.

Lemma last_done_inv lost crashed s i w :
  epoch_inv lost crashed s -> workers s !! i = Some w -> pc w = WLastDone ->
  epoch_inv lost crashed (set_workers (<[i := goto w WAfter]> (workers s)) (set_done true s)).
Proof.
  intros [] Hi Hpc. pose proof (sumw_member last_done _ _ _ Hi) as Hlw.
  pose proof (sumw_member finished _ _ _ Hi) as Hfw. unfold last_done at 1 in Hlw. unfold finished at 1 in Hfw.
  rewrite Hpc in Hlw, Hfw. split; cbn; try assumption; try (close_sums Hi Hpc).
  - by rewrite length_insert.
  - intros k. specialize (ei_tokens0 k).
    pose proof (sumw_insert (holds k) _ _ _ (goto w WAfter) Hi). weigh Hpc. lia.
  - by apply Forall_insert.
Qed.

Lemma crash_inv lost crashed s i w k e :
  epoch_inv lost crashed s -> workers s !! i = Some w -> pc w = WLoad k ->
  load_batch cfg (indices_ s) k = Err e ->
  epoch_inv (fun j => lost j + delta k j) (S crashed)
    (set_workers (<[i := goto w (WCatch e)]> (workers s)) s).
Proof.
  intros [] Hi Hpc Hl. pose proof (sumw_member busy _ _ _ Hi) as Hbw. unfold busy at 1 in Hbw.
  rewrite Hpc in Hbw. split; cbn; try assumption; try (close_sums Hi Hpc).
  - by rewrite length_insert.
  - intros j. specialize (ei_tokens0 j).
    pose proof (sumw_insert (holds j) _ _ _ (goto w (WCatch e)) Hi). weigh Hpc. lia.
  - by apply Forall_insert.
  - intros j Hj. destruct (decide (lost j = 0)); [|by apply ei_lost0].
    unfold delta in Hj. destruct (Nat.eqb_spec k j) as [->|]; [eauto|lia].
  - split; [lia|]. intros _. exists k. unfold delta. rewrite Nat.eqb_refl. lia.
  - done.
  - done.
  - by left.
Qed.

Lemma catch_inv lost crashed s i w e :
  epoch_inv lost crashed s -> workers s !! i = Some w -> pc w = WCatch e ->
  epoch_inv lost crashed (set_workers (<[i := goto w WExit]> (workers s))
    (set_done true (set_exception (Some (default e (worker_exception s))) s))).
Proof.
  intros [] Hi Hpc. pose proof (sumw_member catching _ _ _ Hi) as Hcw.
  unfold catching at 1 in Hcw. rewrite Hpc in Hcw.
  split; cbn; try assumption; try (close_sums Hi Hpc).
  - by rewrite length_insert.
  - intros k. specialize (ei_tokens0 k).
    pose proof (sumw_insert (holds k) _ _ _ (goto w WExit) Hi). weigh Hpc. lia.
  - by apply Forall_insert.
  - intros _. apply ei_catching0. lia.
Qed.

Lemma push_inv lost crashed s i w k b :
  epoch_inv lost crashed s -> workers s !! i = Some w -> pc w = WPush k b ->
  epoch_inv lost crashed (set_workers (<[i := goto w WTest]> (workers s))
    (set_queue (batch_queue s ++ [(k, b)]) s)).
Proof.
  intros [] Hi Hpc. split; cbn; try assumption; try (close_sums Hi Hpc).
  - by rewrite length_insert.
  - intros j. specialize (ei_tokens0 j). rewrite count_q_app.
    pose proof (sumw_insert (holds j) _ _ _ (goto w WTest) Hi). weigh Hpc.
    unfold count_q at 2. cbn. lia.
  - apply Forall_app. split; [done|]. constructor; [|done].
    rewrite Forall_lookup in ei_workers0. specialize (ei_workers0 _ _ Hi).
    unfold good_worker in ei_workers0. by rewrite Hpc in ei_workers0.
  - by apply Forall_insert.
  - rewrite lenZ_app. pose proof (lenZ_nonneg [(k, b)]). close_sums Hi Hpc.
Qed.

(** *** The caller's passes *)

Lemma set_caller_inv lost crashed c s : epoch_inv lost crashed s -> epoch_inv lost crashed (set_caller c s).
Proof. intros []. by split. Qed.


(** [epoch_inv] with the queue and the buffer replaced and every blocked worker
    woken. *)
Lemma wake_inv lost crashed s q m :
  epoch_inv lost crashed s ->
  (forall k, in_buffer m k + count_q k q =
             in_buffer (reorder_buffer s) k + count_q k (batch_queue s)) ->
  Forall (fun kb => good (indices_ s) kb.1 kb.2) q -> map_Forall (good (indices_ s)) m ->
  epoch_inv lost crashed
    (set_workers (map wake_pusher (workers s)) (set_buffer m (next_output_idx s) (set_queue q s))).
Proof.
  intros [] Hk Hq Hm. split; cbn; rewrite ?sumw_wake by done; try done.
  - by rewrite length_map.
  - intros k. rewrite sumw_wake by done. specialize (ei_tokens0 k). specialize (Hk k). lia.
  - apply Forall_map. eapply Forall_impl; [done|]. intros w Hw. simpl.
    unfold good_worker in *. destruct (wake_pusher_pc w) as [->|(k & b & E & ->)]; [done|].
    by rewrite E in Hw.
  - by rewrite blocked_wake.
Qed.

Lemma notify_workers_inv lost crashed s : epoch_inv lost crashed s -> epoch_inv lost crashed (notify_workers s).
Proof.
  intros H. destruct H as [] eqn:EH. clear EH. destruct s.
  by apply (wake_inv lost crashed _ batch_queue0 reorder_buffer0 H).
Qed.

Lemma tokens_once lost crashed s k :
  epoch_inv lost crashed s -> in_buffer (reorder_buffer s) k + count_q k (batch_queue s) <= 1.
Proof.
  intros []. specialize (ei_tokens0 k). unfold below in ei_tokens0.
  destruct (k <? Nat.min _ _), (k <? _); lia.
Qed.

Lemma drain_inv lost crashed s : epoch_inv lost crashed s -> epoch_inv lost crashed (drain s).
Proof.
  intros H. destruct (drain_buffer (good (indices_ s)) (batch_queue s) (reorder_buffer s)) as [H1 H2].
  { intros k. by eapply tokens_once. }
  { apply H. } { apply H. }
  unfold drain. destruct (batch_queue s) as [|kb q] eqn:Eq.
  - destruct H. rewrite Eq in *. by split.
  - pose proof (wake_inv lost crashed s [] (foldl emplace_batch (reorder_buffer s) (kb :: q)) H) as Hw.
    apply Hw; [|done..]. intros k. rewrite H2, Eq. unfold count_q at 2. simpl. lia.
Qed.

Lemma drain_queue s : batch_queue (drain s) = [].
Proof. unfold drain. by destruct (batch_queue s). Qed.

(** When the epoch is over and nothing was lost, what is neither returned nor
    queued is in the buffer. *)
Lemma done_all_buffered lost s k :
  num_workers cfg <> 0 -> epoch_inv lost 0 s -> epoch_done s = true -> batch_queue s = [] ->
  below k (next_output_idx s) + in_buffer (reorder_buffer s) k = below k n.
Proof.
  intros HN [] Hd Hq. destruct (ei_done0 Hd) as [Hb|]; [|done].
  pose proof (sumw_cover (workers s)) as Hc. rewrite ei_len0 in Hc.
  destruct ei_finished0 as [|Hn]; [lia|done|].
  specialize (ei_tokens0 k). rewrite Hq, (proj1 ei_crashed0 eq_refl), Nat.min_r in ei_tokens0 by done.
  unfold count_q in ei_tokens0; simpl in ei_tokens0.
  pose proof (sumw_holds_busy k (workers s)). lia.
Qed.

Lemma emits_app l l' : emits (l ++ l') = emits l ++ emits l'.
Proof. apply omap_app. Qed.

Lemma return_emit_inv lost crashed s b :
  epoch_inv lost crashed s -> reorder_buffer s !! next_output_idx s = Some b ->
  epoch_inv lost crashed (return_event (Emit b)
    (set_buffer (delete (next_output_idx s) (reorder_buffer s)) (S (next_output_idx s)) s)).
Proof.
  intros [] Hb. split; cbn; try assumption.
  - intros k. specialize (ei_tokens0 k).
    pose proof (in_buffer_delete _ _ k b Hb). unfold below, delta in *.
    destruct (Nat.ltb_spec k (next_output_idx s)), (Nat.ltb_spec k (S (next_output_idx s))),
      (Nat.eqb_spec (next_output_idx s) k); lia.
  - by apply map_Forall_delete.
  - rewrite seq_S, emits_app. apply Forall2_app; [done|]. constructor; [|constructor].
    by apply ei_buffer0.
  - intros e. rewrite elem_of_app, list_elem_of_singleton. intros [?|?]; [eauto|done].
  - rewrite elem_of_app, list_elem_of_singleton. intros [H|?]; [|done].
    destruct (ei_end0 H); [by left|right; lia].
Qed.

Lemma return_other_inv lost crashed s e :
  epoch_inv lost crashed s -> emits [e] = [] -> (forall x, e = Threw x -> crashed <> 0) ->
  (e = EndOfEpoch -> crashed <> 0 \/ n <= next_output_idx s) ->
  epoch_inv lost crashed (return_event e s).
Proof.
  intros [] He Ht Hend. split; cbn; try assumption.
  - by rewrite emits_app, He, app_nil_r.
  - intros x. rewrite elem_of_app, list_elem_of_singleton. intros [?|Hx]; [eauto|]. by apply (Ht x).
  - rewrite elem_of_app, list_elem_of_singleton. intros [?|Hx]; eauto.
Qed.

Lemma consumer_pass_inv lost crashed s :
  num_workers cfg <> 0 -> epoch_inv lost crashed s ->
  epoch_inv lost crashed (consumer_pass s) /\ caller_inv crashed (consumer_pass s) /\
  in_epoch (caller (consumer_pass s)) = true.
Proof.
  intros HN H0. pose proof (drain_inv _ _ _ H0) as H. pose proof (drain_queue s) as Hq.
  unfold consumer_pass. set (s1 := drain s) in *. clearbody s1.
  destruct (worker_exception s1) as [e|] eqn:Ee.
  { split; [|done]. apply return_other_inv; [|done| |done].
    - destruct H. by split.
    - intros _ _. apply (ei_exception _ _ _ H). by rewrite Ee. }
  destruct (reorder_buffer s1 !! next_output_idx s1) as [b|] eqn:Eb.
  { split; [|done]. pose proof (return_emit_inv _ _ _ _ H Eb) as Hr.
    by apply notify_workers_inv in Hr. }
  assert (epoch_done s1 = true -> crashed = 0 -> n <= next_output_idx s1 /\ reorder_buffer s1 = ∅) as Hend.
  { intros Hd ->. pose proof (fun k => done_all_buffered lost s1 k HN H Hd Hq) as Hall.
    assert (n <= next_output_idx s1) as Hn.
    { specialize (Hall (next_output_idx s1)). unfold below, in_buffer in Hall. rewrite Eb in Hall.
      destruct (Nat.ltb_spec (next_output_idx s1) (next_output_idx s1)),
        (Nat.ltb_spec (next_output_idx s1) n); lia. }
    split; [done|]. apply empty_buffer. intros k. specialize (Hall k). unfold below in Hall.
    destruct (Nat.ltb_spec k (next_output_idx s1)), (Nat.ltb_spec k n); lia. }
  destruct (epoch_done s1) eqn:Ed; cbn [andb].
  - destruct (decide (reorder_buffer s1 = ∅)) as [E|E].
    + rewrite bool_decide_eq_true_2 by done. split; [|done]. apply return_other_inv; [done..|].
      intros _. destruct (decide (crashed = 0)) as [E0|]; [|by left]. right. by apply Hend.
    + rewrite bool_decide_eq_false_2 by done. split_and!; [by apply set_caller_inv|cbn|done].
      intros E0. by apply E, Hend.
  - split_and!; [by apply set_caller_inv|cbn; by rewrite Ed|done].
Qed.

(** *** Every step preserves the invariant *)

Lemma locked_Some {A} s (a b : A) : locked s a = Some b -> a = b.
Proof. unfold locked. destruct (mutex_free s); naive_solver. Qed.

Lemma set_workers_notify ws s :
  set_workers ws (notify_queue s) = notify_queue (set_workers ws s).
Proof. unfold notify_queue. cbn. by destruct (caller s). Qed.

Lemma notify_queue_workers s : workers (notify_queue s) = workers s.
Proof. unfold notify_queue. by destruct (caller s). Qed.

(** After a notification no condition on the waiting caller is left. *)
Lemma notify_caller_inv crashed s :
  in_epoch (caller s) = true -> (caller s = CSpin -> crashed <> 0) ->
  caller_inv crashed (notify_queue s) /\ in_epoch (caller (notify_queue s)) = true.
Proof.
  intros He Hs. unfold notify_queue, caller_inv. destruct (caller s) eqn:E; cbn; rewrite ?E; auto.
Qed.

Definition epoch_state s : Prop :=
  in_epoch (caller s) = true /\ exists lost crashed, epoch_inv lost crashed s /\ caller_inv crashed s.

Lemma epoch_state_inv s : epoch_state s -> inv s.
Proof. intros [H1 H2]. unfold inv. by rewrite H1. Qed.

Lemma notify_epoch lost crashed s :
  epoch_inv lost crashed s -> in_epoch (caller s) = true -> (caller s = CSpin -> crashed <> 0) ->
  epoch_state (notify_queue s).
Proof.
  intros H He Hs. destruct (notify_caller_inv crashed s He Hs). split; [done|].
  exists lost, crashed. split; [by apply notify_queue_inv|done].
Qed.

(** The steps that leave the shared state as it is. *)
Lemma move_step lost crashed s i w p seen :
  epoch_inv lost crashed s -> caller_inv crashed s -> in_epoch (caller s) = true ->
  epoch_inv lost crashed (set_workers (<[i := {| pc := p; last_seen := seen |}]> (workers s)) s) ->
  epoch_state (set_workers (<[i := {| pc := p; last_seen := seen |}]> (workers s)) s).
Proof. intros. split; [done|]. by exists lost, crashed. Qed.

Ltac keep_sums H Hi Hpc :=
  eapply move_worker; [exact H|exact Hi|..];
  unfold good_worker, busy, finished, blocked, last_done, signalling, catching, parked, holds;
  rewrite ?Hpc; cbn; try done; try lia; auto.

Lemma wtrans_epoch s s' i w w' :
  epoch_state s -> workers s !! i = Some w -> wtrans cfg s w = Some (s', w') ->
  epoch_state (set_workers (<[i := w']> (workers s')) s').
Proof.
  intros (He & lost & crashed & H & Hc) Hi Ht.
  assert (stop_flag s = false) as Hstop by apply H.
  assert (caller s = CSpin -> crashed <> 0) as Hspin.
  { intros E. unfold caller_inv in Hc. by rewrite E in Hc. }
  pose proof (sumw_member finished _ _ _ Hi) as Hf. pose proof (ei_finished _ _ _ H) as Hfin.
  unfold wtrans in Ht. destruct (pc w) eqn:Hpc; try discriminate Ht;
    rewrite ?Hstop, ?nonpersistent in Ht; cbn [andb] in Ht;
    try (apply locked_Some in Ht); try (injection Ht as <- <-).
  - (* WEntry *) apply (move_step lost crashed); [done..|]. keep_sums H Hi Hpc.
  - (* WTest *) apply (move_step lost crashed); [done..|]. keep_sums H Hi Hpc.
  - (* WFetch *) split; [done|]. exists lost, crashed. split; [exact (fetch_inv _ _ _ _ _ H Hi Hpc)|done].
  - (* WCount *) split; [done|]. exists lost, crashed. split; [exact (count_inv _ _ _ _ _ H Hi Hpc)|done].
  - (* WLastDone *) rewrite set_workers_notify, notify_queue_workers.
    exact (notify_epoch _ _ _ (last_done_inv _ _ _ _ _ H Hi Hpc) He Hspin).
  - (* WLoad *) destruct (load_batch cfg (indices_ s) k) as [b|e] eqn:El.
    + apply (move_step lost crashed); [done..|]. keep_sums H Hi Hpc.
    + split; [done|]. exists (fun j => lost j + delta k j), (S crashed).
      split; [by apply crash_inv|]. unfold caller_inv in *. cbn. by destruct (caller s).
  - (* WPush *) destruct (Z.ltb_spec (lenZ (batch_queue s)) (max_queue_size cfg)) as [Hm|Hm];
      injection Ht as <- <-.
    + rewrite set_workers_notify, notify_queue_workers.
      exact (notify_epoch _ _ _ (push_inv _ _ _ _ _ _ _ H Hi Hpc) He Hspin).
    + apply (move_step lost crashed); [done..|].
      pose proof (ei_workers _ _ _ H) as Hg. rewrite Forall_lookup in Hg. specialize (Hg _ _ Hi).
      unfold good_worker in Hg. rewrite Hpc in Hg. keep_sums H Hi Hpc.
  - (* WAfter *) apply (move_step lost crashed); [done..|]. keep_sums H Hi Hpc.
  - (* WNext *) exfalso. pose proof (sumw_member parked _ _ _ Hi) as Hp. unfold parked at 1 in Hp.
    rewrite Hpc, (ei_parked _ _ _ H) in Hp. lia.
  - (* WRepeat *) apply (move_step lost crashed); [done..|]. keep_sums H Hi Hpc.
  - (* WCatch *) rewrite set_workers_notify, notify_queue_workers.
    exact (notify_epoch _ _ _ (catch_inv _ _ _ _ _ _ H Hi Hpc) He Hspin).
Qed.

Hypothesis threaded : num_workers cfg <> 0.

Lemma start_inv s :
  batch_queue s = [] -> reorder_buffer s = ∅ -> next_output_idx s = 0 ->
  worker_exception s = None -> log s = [] ->
  epoch_inv (fun _ => 0) 0 (start_workers cfg s).
Proof.
  intros Hq Hm Ho He Hl.
  split; cbn; rewrite ?Hq, ?Hm, ?Ho, ?He, ?Hl, ?sumw_replicate; cbn; try done; try lia.
  - apply length_replicate.
  - intros k. rewrite sumw_replicate. unfold in_buffer, count_q. rewrite lookup_empty, Nat.min_0_l. cbn. lia.
  - apply Forall_replicate. done.
  - intros e H. by apply not_elem_of_nil in H.
  - intros H. by apply not_elem_of_nil in H.
Qed.

Lemma notify_queue_fields s :
  workers (notify_queue s) = workers s /\ log (notify_queue s) = log s /\
  stop_flag (notify_queue s) = stop_flag s /\
  (caller s <> CWait -> caller (notify_queue s) = caller s).
Proof. unfold notify_queue. destruct (caller s) eqn:E; cbn; by rewrite ?E. Qed.

(** What no step of a worker changes. *)
Lemma wtrans_shared s s' w w' :
  wtrans cfg s w = Some (s', w') ->
  workers s' = workers s /\ log s' = log s /\ stop_flag s' = stop_flag s /\
  (caller s <> CWait -> caller s' = caller s).
Proof.
  intros Ht. unfold wtrans in Ht.
  destruct (pc w); try discriminate Ht; try (apply locked_Some in Ht); try (injection Ht as <- _);
    try (by split_and!).
  - apply (notify_queue_fields (set_done true s)).
  - destruct (stop_flag s) eqn:E; [injection Ht as <- _; by split_and!|].
    destruct (_ <? _)%Z; injection Ht as <- _; [|by split_and!].
    pose proof (notify_queue_fields (set_queue (batch_queue s ++ [(k, b)]) s)) as (-> & -> & -> & H).
    by split_and!.
  - destruct (stop_flag s) eqn:E; [injection Ht as <- _; by split_and!|].
    destruct (negb _); injection Ht as <- _; by split_and!.
  - apply (notify_queue_fields (set_done true (set_exception (Some (default e (worker_exception s))) s))).
Qed.

(** No worker waits for another epoch, and none blocks after the stop. *)
Lemma wtrans_pc s s' w w' :
  wtrans cfg s w = Some (s', w') -> parked w = 0 ->
  parked w' = 0 /\ (stop_flag s = true -> blocked w' <= blocked w).
Proof.
  unfold wtrans, parked, blocked. rewrite nonpersistent. cbn [andb].
  destruct (pc w) eqn:E; intros Ht Hp; try discriminate Ht; try discriminate Hp;
    try (apply locked_Some in Ht); try (injection Ht as _ <-; cbn; lia).
  - injection Ht as _ <-. cbn. destruct (stop_flag s); lia.
  - injection Ht as _ <-. cbn. destruct (n <=? _); lia.
  - injection Ht as _ <-. cbn. destruct (_ =? _)%Z; lia.
  - injection Ht as _ <-. cbn. destruct (load_batch _ _ _); lia.
  - destruct (stop_flag s); [|destruct (_ <? _)%Z]; injection Ht as _ <-; cbn; (lia || done).
Qed.

(** Between epochs a worker's step keeps what the caller relies on. *)
Lemma wtrans_stop s s' i w w' :
  in_epoch (caller s) = false -> stop_inv s -> workers s !! i = Some w ->
  wtrans cfg s w = Some (s', w') ->
  let t := set_workers (<[i := w']> (workers s')) s' in
  in_epoch (caller t) = false /\ stop_inv t.
Proof.
  intros He [] Hi Ht t.
  destruct (wtrans_shared _ _ _ _ Ht) as (E1 & E3 & E4 & E2).
  specialize (E2 ltac:(intros E; by rewrite E in He)).
  assert (workers s <> []) as Hne by (intros E; by rewrite E in Hi).
  assert (parked w = 0) as Hpw by (pose proof (sumw_member parked _ _ _ Hi); lia).
  destruct (wtrans_pc _ _ _ _ Ht Hpw) as [Hp Hb].
  subst t. cbn. rewrite E1, E2. split; [done|].
  pose proof (sumw_insert parked _ _ _ w' Hi). pose proof (sumw_insert blocked _ _ _ w' Hi).
  split; cbn; rewrite ?E2, ?E3, ?E4, ?length_insert; [lia|done..| |].
  - destruct (caller s); try done. specialize (Hb si_stop0). lia.
  - by destruct (caller s).
Qed.

Lemma worker_step_inv s s' i : inv s -> step cfg (Worker i) s = Some s' -> inv s'.
Proof.
  intros H Hs. cbn in Hs. destruct (workers s !! i) as [w|] eqn:Hi; [|done].
  destruct (wtrans cfg s w) as [[s1 w']|] eqn:Ht; [|done]. injection Hs as <-.
  unfold inv in H. destruct (in_epoch (caller s)) eqn:He.
  - apply epoch_state_inv. by eapply wtrans_epoch.
  - destruct (wtrans_stop s s1 i w w' He H Hi Ht) as [H1 H2]. unfold inv. by rewrite H1.
Qed.

Lemma wakeup_step_inv s s' i : inv s -> step cfg (Wakeup i) s = Some s' -> inv s'.
Proof.
  intros H Hs. cbn in Hs. destruct (workers s !! i) as [w|] eqn:Hi; [|done].
  destruct (spurious w) as [w'|] eqn:Ht; [|done]. injection Hs as <-.
  unfold inv in H. destruct (in_epoch (caller s)) eqn:He.
  - apply epoch_state_inv. destruct H as (lost & crashed & H & Hc). unfold spurious in Ht.
    destruct (pc w) eqn:Hpc; try discriminate Ht; injection Ht as <-.
    + apply (move_step lost crashed); [done..|]. pose proof (ei_workers _ _ _ H) as Hg.
      rewrite Forall_lookup in Hg. specialize (Hg _ _ Hi). unfold good_worker in Hg.
      rewrite Hpc in Hg. keep_sums H Hi Hpc.
    + exfalso. pose proof (sumw_member parked _ _ _ Hi) as Hp. unfold parked at 1 in Hp.
      rewrite Hpc, (ei_parked _ _ _ H) in Hp. lia.
  - destruct H. unfold inv. cbn. rewrite He.
    pose proof (sumw_insert parked _ _ _ w' Hi). pose proof (sumw_insert blocked _ _ _ w' Hi).
    assert (parked w' <= parked w /\ blocked w' = 0) as [Hp Hb].
    { unfold spurious in Ht. unfold parked, blocked. destruct (pc w); simplify_eq; cbn; lia. }
    assert (workers s <> []) as Hne by (intros E; by rewrite E in Hi).
    split; cbn; [lia|by rewrite length_insert|done|done| |]; destruct (caller s); try done. lia.
Qed.

Lemma enter_stop_inv r s :
  stop_inv (set_caller (CStop r) s) -> inv (enter_stop r s).
Proof.
  intros []. unfold enter_stop, inv. destruct (workers s) eqn:E; cbn.
  - assert (in_epoch (if r then CRestart else CGone) = false) as -> by (by destruct r).
    split; cbn in *; destruct r; rewrite ?E; cbn; (done || lia).
  - by split.
Qed.

Lemma caller_step_inv s s' : inv s -> step cfg Caller s = Some s' -> inv s'.
Proof.
  intros H Hs. cbn in Hs. unfold inv in H. unfold cstep in Hs.
  destruct (caller s) eqn:Ec; cbn [in_epoch] in H; try discriminate Hs;
    try (destruct H; cbn in *; rewrite Ec in *; done).
  - destruct H as (lost & crashed & H & Hc). injection Hs as <-.
    destruct (consumer_pass_inv lost crashed s threaded H) as (H1 & H2 & H3).
    unfold inv. rewrite H3. eauto.
  - destruct H as (lost & crashed & H & Hc). injection Hs as <-.
    destruct (consumer_pass_inv lost crashed s threaded H) as (H1 & H2 & H3).
    unfold inv. rewrite H3. eauto.
  - destruct H as (lost & crashed & H & Hc). injection Hs as <-.
    destruct (wait_predicate s) eqn:Ew.
    + destruct (consumer_pass_inv lost crashed s threaded H) as (H1 & H2 & H3).
      unfold inv. rewrite H3. eauto.
    + exists lost, crashed. split; [by apply set_caller_inv|]. unfold wait_predicate in Ew. cbn.
      by destruct (batch_queue s).
  - rewrite (proj2 (Nat.eqb_neq _ _) threaded), nonpersistent in Hs. cbn [andb] in Hs.
    injection Hs as <-. destruct H. rewrite Ec in *. apply enter_stop_inv.
    unfold shuffle_indices. destruct (cfg_shuffle cfg); [destruct (shuffle _ _)|]; by split.
  - injection Hs as <-. destruct H. rewrite Ec in *. unfold inv. cbn. by split; destruct restart.
  - injection Hs as <-. destruct H. rewrite Ec in *. unfold inv. cbn.
    split; cbn; [by rewrite sumw_wake|by rewrite length_map|done|done|apply blocked_wake|done].
  - destruct (forallb exited (workers s)); [|done]. injection Hs as <-.
    destruct H. rewrite Ec in *. unfold inv. cbn.
    destruct restart; split; cbn; (done || lia).
  - injection Hs as <-. destruct H. rewrite Ec in *. exists (fun _ => 0), 0. split; [|done].
    by apply set_caller_inv, start_inv.
Qed.

Lemma call_step_inv o s s' : inv s -> step cfg (Call o) s = Some s' -> inv s'.
Proof.
  intros H Hs. cbn in Hs. destruct (caller s) eqn:Ec; try discriminate Hs. injection Hs as <-.
  unfold inv in H. rewrite Ec in H. cbn [in_epoch] in H. destruct H as (lost & crashed & H & _).
  destruct o; cbn [call].
  - rewrite (proj2 (Nat.eqb_neq _ _) threaded). exists lost, crashed. split; [by apply set_caller_inv|done].
  - destruct H. split; cbn; (done || lia).
  - apply enter_stop_inv. destruct H. split; cbn; (done || lia).
Qed.

Lemma step_inv l s s' : inv s -> step cfg l s = Some s' -> inv s'.
Proof.
  destruct l as [i| |i| |o]; eauto using worker_step_inv, caller_step_inv, wakeup_step_inv, call_step_inv.
  intros H Hs. cbn in Hs. destruct (caller s) eqn:Ec; try discriminate Hs. injection Hs as <-.
  unfold inv in *. rewrite Ec in H. cbn in *. destruct H as (lost & crashed & H & _).
  exists lost, crashed. split; [by apply set_caller_inv|done].
Qed.

Lemma run_inv ls s s' : inv s -> run cfg ls s = Some s' -> inv s'.
Proof.
  revert s. induction ls as [|l ls IH]; intros s H Hr; cbn [run] in Hr; [congruence|].
  destruct (step cfg l s) as [s1|] eqn:Es; [|done]. eauto using step_inv.
Qed.

Lemma start_state s :
  batch_queue s = [] -> reorder_buffer s = ∅ -> next_output_idx s = 0 ->
  worker_exception s = None -> log s = [] -> caller s = CIdle -> inv (start_workers cfg s).
Proof.
  intros ????? Hc. unfold inv, caller_inv. cbn. rewrite Hc. exists (fun _ => 0), 0.
  split; [by apply start_inv|done].
Qed.

Lemma ctor_inv g s : DataLoader_ctor cfg g = Ok s -> inv s.
Proof.
  unfold DataLoader_ctor. intros H. apply rbind_Ok in H as (u & _ & H).
  apply rbind_Ok in H as (u' & _ & H). apply Ok_inj in H as <-.
  rewrite (proj2 (Nat.eqb_neq _ _) threaded). unfold shuffle_indices.
  destruct (cfg_shuffle cfg); [destruct (shuffle _ _)|]; apply start_state; reflexivity.
Qed.

Lemma reachable_inv s : reachable cfg s -> inv s.
Proof. intros (g & s0 & ls & H & Hr). eapply run_inv; [by eapply ctor_inv|done]. Qed.

(** No load of the epoch throws. *)
Definition epoch_loads s : Prop := forall k, k < n -> is_ok (load_batch cfg (indices_ s) k) = true.

Lemma output_count lost crashed s :
  epoch_inv lost crashed s -> next_output_idx s = length (emits (log s)) /\ next_output_idx s <= n.
Proof.
  intros []. split.
  - apply Forall2_length in ei_output0. by rewrite length_seq in ei_output0.
  - specialize (ei_tokens0 n). unfold below in ei_tokens0.
    destruct (Nat.ltb_spec n (next_output_idx s)), (Nat.ltb_spec n (Nat.min (next_batch_idx s) n)); lia.
Qed.

Lemma epoch_loads_no_crash lost crashed s : epoch_inv lost crashed s -> epoch_loads s -> crashed = 0.
Proof.
  intros [] Hl. destruct (decide (crashed = 0)) as [|Hc]; [done|].
  destruct (proj2 ei_crashed0 Hc) as [k Hk]. destruct (ei_lost0 k Hk) as [e He].
  specialize (ei_tokens0 k). specialize (Hl k). rewrite He in Hl.
  assert (~ k < n) as Hn by (intros Hn; by specialize (Hl Hn)).
  unfold below in ei_tokens0. destruct (Nat.ltb_spec k (Nat.min (next_batch_idx s) n)); lia.
Qed.

Lemma epoch_order s :
  inv s -> in_epoch (caller s) = true ->
  Forall2 (good (indices_ s)) (seq 0 (length (emits (log s)))) (emits (log s)) /\
  length (emits (log s)) <= n /\
  (epoch_loads s -> (forall e, Threw e ∉ log s) /\
     (EndOfEpoch ∈ log s -> length (emits (log s)) = n)).
Proof.
  intros H He. unfold inv in H. rewrite He in H. destruct H as (lost & crashed & H & _).
  destruct (output_count _ _ _ H) as [E Hn]. rewrite <-E. split; [apply H|]. split; [done|].
  intros Hl. pose proof (epoch_loads_no_crash _ _ _ H Hl) as Hc. split.
  - intros e Ht. by apply (ei_threw _ _ _ H) in Ht.
  - intros Hend. destruct (ei_end _ _ _ H Hend); lia.
Qed.
End Invariant.

Section Theorems.
Context {Sample Batch Rng : Type} `{!RandomEngine Rng} `{!LoaderEnv Sample Batch}.

End Theorems.
End Safety.
