(* ===== verification/LoaderFaults.v ===== *)
(** * The data loader: persistent workers and failed loads

    Where DataLoader.v departs from what the loader means to do: with
    [persistent_workers] a reset can leave every worker blocked, the destructor
    waits for a parked worker for ever and an epoch can end before its last
    batch; and after a batch failed to load, the next call can spin with the
    mutex held.  Each general statement is followed by a run that reaches its
    situation. *)

From stdpp Require Import base list numbers strings gmap.
From S2P Require Import Prelude Samplers DataLoader LoaderSafety LoaderLive.

#[local] Open Scope nat_scope.

(** ** Concrete loaders *)

(** A dataset of [n] numbers, whose last [bad] cannot be read; a batch is the
    list of its samples; the shuffle reverses. *)
Definition numbers (n bad : nat) : LoaderEnv nat (list nat) := {|
  dataset_size := n;
  dataset_get i := if n - bad <=? i then Err (RuntimeError "unreadable sample") else Ok i;
  collate l := Ok l
|}.

Definition reversing : RandomEngine unit :=
  {| seed_engine _ := tt; shuffle _ l := (reverse l, tt) |}.

Definition config (batch : Z) (workers : nat) (persistent : bool) : DataLoaderConfig :=
  {| batch_size := batch; cfg_shuffle := true; num_workers := workers; drop_last := false;
     prefetch_factor := 1; persistent_workers := persistent |}.

#[local] Instance reversing_engine : RandomEngine unit := reversing.

#[local] Instance reversing_law : ShuffleLaw unit.
Proof. intros g l. apply reverse_Permutation. Qed.

Module Faults.
Import Loader Safety Live.

(** [k] steps of worker [i], or of the caller. *)
Definition steps (k i : nat) : list label := repeat (Worker i) k.
Definition callers (k : nat) : list label := repeat Caller k.

(** The state a schedule leads to from the constructor. *)
Definition after (n bad : nat) (cfg : DataLoaderConfig) (ls : list label)
    : option (state (Batch := list nat) (Rng := unit)) :=
  let env := numbers n bad in
  match DataLoader_ctor cfg tt with Ok s => run cfg ls s | Err _ => None end.

Section Faults.
Context {Sample Batch Rng : Type} `{!RandomEngine Rng} `{!LoaderEnv Sample Batch}.
Variable (cfg : DataLoaderConfig).
#[local] Notation state := (state (Batch := Batch) (Rng := Rng)).
Implicit Types (s : state) (w : worker (Batch := Batch)).

(** A property that every step of a thread preserves holds after every run. *)
Lemma thread_run_inv (P : state -> Prop) ls s s' :
  (forall l t t', thread_step l = true -> P t -> step cfg l t = Some t' -> P t') ->
  P s -> forallb thread_step ls = true -> run cfg ls s = Some s' -> P s'.
Proof.
  intros HP. revert s. induction ls as [|l ls IH]; intros s Hs Hl Hr; cbn [run] in Hr;
    [congruence|].
  simpl in Hl. apply andb_true_iff in Hl as [Hl Hls].
  destruct (step cfg l s) as [s1|] eqn:Es; [|done]. apply (IH s1); [by eapply HP|done..].
Qed.

(** *** Every worker blocked when [reset] is called *)

Definition all_blocked s : Prop := Forall (fun w => blocked w = 1) (workers s).

Lemma all_blocked_step s i : all_blocked s -> step cfg (Worker i) s = None.
Proof.
  intros H. cbn. destruct (workers s !! i) as [w|] eqn:Hi; [|done].
  unfold all_blocked in H. rewrite Forall_lookup in H. specialize (H _ _ Hi).
  unfold wtrans, blocked in *. by destruct (pc w).
Qed.

Definition cleared s : Prop :=
  worker_exception s = None /\ batch_queue s = [] /\ reorder_buffer s = ∅.

(** The course of [reset] and of the call after it while all are blocked. *)
Definition starving s : Prop :=
  all_blocked s /\
  match caller s with
  | CReset | CPExn => True
  | CPClear => worker_exception s = None
  | CPDone => cleared s
  | CPNext | CPActive | CPGen | CPNotify | CIdle | CPass | CWait =>
      cleared s /\ epoch_done s = false
  | _ => False
  end.

Lemma wake_parked_blocked ws :
  Forall (fun w => blocked w = 1) ws -> map wake_parked ws = ws.
Proof.
  induction 1 as [|w ws Hw _ IH]; [done|]. simpl. rewrite IH. f_equal.
  unfold wake_parked, blocked in *. by destruct (pc w).
Qed.

Hypothesis persistent : persistent_workers cfg = true.
Hypothesis threaded : num_workers cfg <> 0.

Lemma starving_step l s s' :
  workers s <> [] -> thread_step l = true -> starving s -> step cfg l s = Some s' ->
  starving s' /\ workers s' = workers s /\
  (caller s = CPass -> caller s' = CWait) /\ caller s <> CIdle /\ caller s <> CWait.
Proof.
  intros Hne Hl [Hb H] Hs. destruct l as [i| | | |]; try done.
  { rewrite all_blocked_step in Hs by done. done. }
  cbn in Hs. unfold cstep in Hs. destruct (caller s) eqn:Ec; try done;
    try (injection Hs as <-; destruct H; by (split_and!; [|..])).
  - destruct H as [(Hx & Hq & Hm) Hd]. injection Hs as <-.
    unfold consumer_pass, drain. rewrite Hq. cbn. rewrite Hx, Hm, lookup_empty, Hd. cbn.
    by split_and!.
  - rewrite (proj2 (Nat.eqb_neq _ _) threaded), persistent in Hs.
    assert (length (workers s) =? 0 = false) as El by (by destruct (workers s)).
    cbn [andb] in Hs. destruct (cfg_shuffle cfg); unfold shuffle_indices in Hs;
      [destruct (shuffle _ _)|]; cbn in Hs; rewrite El in Hs; by injection Hs as <-.
  - injection Hs as <-. by split_and!.
  - destruct H as [H Hd]. injection Hs as <-. cbn.
    unfold starving, all_blocked. cbn. by rewrite wake_parked_blocked.
Qed.

Lemma starving_run ls s s' :
  workers s <> [] -> forallb thread_step ls = true -> starving s -> run cfg ls s = Some s' ->
  starving s' /\ workers s' = workers s /\
  (caller s = CPass \/ caller s = CWait -> caller s' = CPass \/ caller s' = CWait).
Proof.
  revert s. induction ls as [|l ls IH]; intros s Hne Hl Hs Hr; cbn [run] in Hr;
    [injection Hr as <-; auto|].
  simpl in Hl. apply andb_true_iff in Hl as [Hl Hls].
  destruct (step cfg l s) as [s1|] eqn:Es; [|done].
  destruct (starving_step l s s1 Hne Hl Hs Es) as (H1 & Hw & Hp & _ & Hnw).
  destruct (IH s1) as (H2 & Hw2 & Hc); [by rewrite Hw|done..|].
  split_and!; [done|by rewrite Hw2|]. intros [E|E]; [|done]. apply Hc. right. by apply Hp.
Qed.

(** *** A worker parked when the destructor runs *)

Definition stopping s (i : nat) w : Prop :=
  workers s !! i = Some w /\
  match caller s with CStop false | CNotify false | CJoin false => True | _ => False end.

Lemma stopping_step i w l s s' :
  pc w = WParked -> thread_step l = true -> stopping s i w -> step cfg l s = Some s' ->
  stopping s' i w.
Proof.
  intros Hw Hl [Hi Hc] Hs. destruct l as [j| | | |]; try done; cbn in Hs.
  - destruct (workers s !! j) as [v|] eqn:Hj; [|done].
    destruct (wtrans cfg s v) as [[s1 v']|] eqn:Ht; [|done]. injection Hs as <-.
    destruct (wtrans_shared _ _ _ _ _ Ht) as (E1 & _ & _ & E2).
    assert (i <> j) as Hne.
    { intros <-. assert (v = w) as -> by congruence. unfold wtrans in Ht. by rewrite Hw in Ht. }
    split; cbn; [rewrite list_lookup_insert_ne by done; by rewrite E1|].
    rewrite E2; [done|]. intros E. by rewrite E in Hc.
  - unfold cstep in Hs. destruct (caller s) as [| | | | | | | | | | | | |[]|[]|[]| |]; try done.
    + injection Hs as <-. by split.
    + injection Hs as <-. split; [|done]. cbn. rewrite list_lookup_fmap, Hi. cbn.
      unfold wake_pusher. by rewrite Hw.
    + destruct (forallb exited (workers s)) eqn:Ea; [|done]. exfalso.
      rewrite forallb_forall in Ea. specialize (Ea w).
      unfold exited in Ea. rewrite Hw in Ea. discriminate Ea.
      apply list_elem_of_In, list_elem_of_lookup. by exists i.
Qed.

(** *** A call that goes round with the lock held *)

Definition spinning s : Prop :=
  caller s = CSpin /\ worker_exception s = None /\ batch_queue s = [] /\ epoch_done s = true /\
  reorder_buffer s !! next_output_idx s = None /\ reorder_buffer s <> ∅.

Lemma spinning_step l s s' :
  thread_step l = true -> spinning s -> step cfg l s = Some s' -> spinning s'.
Proof.
  intros Hl (Hc & Hx & Hq & Hd & Hb & Hm) Hs. destruct l as [j| | | |]; try done; cbn in Hs.
  - destruct (workers s !! j) as [v|] eqn:Hj; [|done].
    destruct (wtrans cfg s v) as [[s1 v']|] eqn:Ht; [|done]. injection Hs as <-.
    unfold wtrans, locked, mutex_free in Ht. rewrite Hc in Ht.
    destruct (pc v); try discriminate Ht; injection Ht as <- _; by split_and!.
  - unfold cstep in Hs. rewrite Hc in Hs. injection Hs as <-.
    unfold consumer_pass, drain. rewrite Hq. cbn. rewrite Hx, Hb, Hd.
    rewrite bool_decide_eq_false_2 by done. by split_and!.
Qed.
End Faults.

Section Theorems.
Context {Sample Batch Rng : Type} `{!RandomEngine Rng} `{!LoaderEnv Sample Batch}.

(** With persistent workers, a [reset] while every worker waits for room in
    the queue ends in a deadlock: [reset] empties the queue without notifying
    [worker_cv_], so under every schedule of the threads the next call of
    [next] never returns. *)
Theorem persistent_reset_deadlocks cfg (s s1 s2 : state (Batch := Batch) (Rng := Rng)) ls1 ls2 :
  persistent_workers cfg = true -> num_workers cfg <> 0 ->
  workers s <> [] -> all_blocked s ->
  forallb thread_step ls1 = true -> run cfg (Call Reset :: ls1) s = Some s1 ->
  forallb thread_step ls2 = true -> run cfg (Call Next :: ls2) s1 = Some s2 ->
  caller s2 = CPass \/ (caller s2 = CWait /\ forall l, thread_step l = true -> step cfg l s2 = None).
Proof.
  intros Hp Ht Hne Hb Hl1 Hr1 Hl2 Hr2. cbn [run step] in Hr1, Hr2.
  destruct (caller s) eqn:Ec; try done. destruct (caller s1) eqn:Ec1; try done.
  destruct (starving_run cfg Hp Ht ls1 (call cfg Reset s) s1) as (H1 & Hw1 & _); [done|done|by split|done|].
  destruct H1 as [Hb1 H1]. rewrite Ec1 in H1. cbn in Hw1.
  assert (call cfg Next s1 = set_caller CPass s1) as E.
  { cbn. by rewrite (proj2 (Nat.eqb_neq _ _) Ht). }
  rewrite E in Hr2.
  destruct (starving_run cfg Hp Ht ls2 (set_caller CPass s1) s2) as (H2 & Hw2 & Hc);
    [cbn; by rewrite Hw1|done|by split|done|].
  destruct (Hc (or_introl eq_refl)) as [|Ew]; [by left|]. right. split; [done|].
  intros l Hl. destruct (step cfg l s2) as [s3|] eqn:Es; [|done]. exfalso.
  destruct (starving_step cfg Hp Ht l s2 s3) as (_ & _ & _ & _ & Hn); try done.
  cbn in Hw2. by rewrite Hw2, Hw1.
Qed.

(** With persistent workers, the destructor does not return once a worker is
    parked between epochs: [stop_workers] does not notify [epoch_start_cv_], so
    the worker is never woken and [join] waits for it under every schedule. *)
Theorem parked_worker_never_joined cfg (s s' : state (Batch := Batch) (Rng := Rng)) i w ls :
  workers s !! i = Some w -> pc w = WParked ->
  forallb thread_step ls = true -> run cfg (Call Destroy :: ls) s = Some s' ->
  caller s' <> CGone.
Proof.
  intros Hi Hw Hl Hr. cbn [run step] in Hr. destruct (caller s) eqn:Ec; try done.
  assert (stopping (call cfg Destroy s) i w) as H0.
  { unfold call, enter_stop. destruct (workers s) eqn:E; [done|]. split; [cbn; by rewrite E|done]. }
  assert (stopping s' i w) as [_ H].
  { exact (thread_run_inv cfg (fun t => stopping t i w) ls _ s'
             (fun l t t' Hl => stopping_step cfg i w l t t' Hw Hl) H0 Hl Hr). }
  intros E. by rewrite E in H.
Qed.
End Theorems.

(** ** Runs *)

(** Two epochs' worth of the constructor's workers: the only worker fills the
    queue and blocks before the first iteration begins. *)
Definition blocked_first : list label := steps 9 0.

Lemma persistent_reset_deadlocks_witness :
  exists s s1 s2 : state (Batch := list nat) (Rng := unit),
    after 5 0 (config 1 1 true) blocked_first = Some s /\
    run (LoaderEnv0 := numbers 5 0) (config 1 1 true) (Call Reset :: callers 8) s = Some s1 /\
    run (LoaderEnv0 := numbers 5 0) (config 1 1 true) (Call Next :: callers 1) s1 = Some s2 /\
    (caller s2 = CPass \/ (caller s2 = CWait /\
       forall l, thread_step l = true ->
         step (LoaderEnv0 := numbers 5 0) (config 1 1 true) l s2 = None)).
Proof.
  destruct (after 5 0 (config 1 1 true) blocked_first) as [s|] eqn:E; [|vm_compute in E; done].
  vm_compute in E. apply (inj Some) in E. subst s. set (s := Build_state _ _ _ _ _ _ _ _ _ _ _ _ _ _ _).
  destruct (run (LoaderEnv0 := numbers 5 0) (config 1 1 true) (Call Reset :: callers 8) s)
    as [s1|] eqn:E1; [|vm_compute in E1; done].
  destruct (run (LoaderEnv0 := numbers 5 0) (config 1 1 true) (Call Next :: callers 1) s1)
    as [s2|] eqn:E2; [|vm_compute in E1; apply (inj Some) in E1; subst s1; vm_compute in E2; done].
  exists s, s1, s2. split_and!; [done..|].
  apply (persistent_reset_deadlocks (LoaderEnv0 := numbers 5 0) (config 1 1 true)
    s s1 s2 (callers 8) (callers 1)); try done. repeat constructor.
Defined.

(** A loader without batches: its worker reads the generation and finishes, and
    parks as soon as it is alone. *)
Lemma parked_worker_never_joined_witness :
  exists (s s' : state (Batch := list nat) (Rng := unit)) w,
    after 0 0 (config 1 1 true) (steps 7 0) = Some s /\
    workers s !! 0 = Some w /\ pc w = WParked /\
    run (LoaderEnv0 := numbers 0 0) (config 1 1 true) (Call Destroy :: callers 2) s = Some s' /\
    caller s' <> CGone.
Proof.
  destruct (after 0 0 (config 1 1 true) (steps 7 0)) as [s|] eqn:E; [|vm_compute in E; done].
  vm_compute in E. apply (inj Some) in E. subst s. set (s := Build_state _ _ _ _ _ _ _ _ _ _ _ _ _ _ _).
  destruct (run (LoaderEnv0 := numbers 0 0) (config 1 1 true) (Call Destroy :: callers 2) s)
    as [s'|] eqn:E1; [|vm_compute in E1; done].
  exists s, s', {| pc := WParked; last_seen := 0 |}. split_and!; [done..|].
  apply (parked_worker_never_joined (LoaderEnv0 := numbers 0 0) (config 1 1 true)
    s s' 0 {| pc := WParked; last_seen := 0 |} (callers 2)); done.
Defined.

(** With persistent workers an epoch can end before its last batch.  In the
    first epoch, while worker 1 is loading batch 1 of 2, worker 0 finds no batch
    left twice: the generation that [reset] advanced lets it run a second time,
    and the second time it counts [active_workers_] down to zero in the place of
    worker 1 and declares the epoch done.  The caller gets batch 0 and then the
    end, and batch 1 is never returned. *)
Theorem persistent_epoch_ends_early :
  exists s : state (Batch := list nat) (Rng := unit),
    after 2 0 (config 1 2 true)
      (steps 1 0 ++ steps 1 1 ++ Call Reset :: callers 8 ++ steps 4 0 ++ steps 2 1 ++
       steps 11 0 ++ Call Next :: callers 1 ++ Call Next :: callers 1) = Some s /\
    log s = [Emit [0]; EndOfEpoch] /\ num_batches (LoaderEnv0 := numbers 2 0) (config 1 2 true) = 2 /\
    exists w, workers s !! 1 = Some w /\ pc w = WLoad 1.
Proof.
  eexists. split; [vm_compute; reflexivity|]. split; [reflexivity|]. split; [reflexivity|].
  eexists. split; reflexivity.
Qed.

(** After a batch failed to load and its exception was delivered, asking for
    the next batch can spin for ever with [queue_mutex_] held: the failed batch
    never arrives, a later one sits in the reorder buffer, and the epoch is
    already marked done, so the wait returns at once and the end is not
    reported either. *)
Theorem failed_batch_then_spin :
  exists s : state (Batch := list nat) (Rng := unit),
    after 2 1 (config 1 2 false)
      (steps 5 0 ++ steps 5 1 ++ Call Next :: callers 1 ++ Call Next :: callers 1) = Some s /\
    log s = [Threw (RuntimeError "unreadable sample")] /\
    forall ls s', forallb thread_step ls = true ->
      run (LoaderEnv0 := numbers 2 1) (config 1 2 false) ls s = Some s' -> caller s' = CSpin.
Proof.
  eexists. split; [vm_compute; reflexivity|]. split; [reflexivity|].
  intros ls s' Hl Hr.
  eapply (thread_run_inv (LoaderEnv0 := numbers 2 1) (config 1 2 false) spinning) in Hr;
    [by destruct Hr| |by split_and!|done].
  intros l t t' Ht. by apply (spinning_step (LoaderEnv0 := numbers 2 1)).
Qed.

(** [reset] shuffles [indices_] before it stops the workers: the constructor's
    workers can be reading the vector at that moment. *)
Definition shuffle_race (cfg : DataLoaderConfig) (s : state (Batch := list nat) (Rng := unit)) : Prop :=
  caller s = CReset /\ cfg_shuffle cfg = true /\ exists i w k, workers s !! i = Some w /\ pc w = WLoad k.

Lemma first_reset_races :
  exists s, after 2 0 (config 1 1 false) (steps 3 0 ++ [Call Reset]) = Some s /\
    shuffle_race (config 1 1 false) s.
Proof.
  eexists. split; [vm_compute; reflexivity|]. split; [reflexivity|]. split; [reflexivity|].
  exists 0. eexists _, 0. split; reflexivity.
Qed.

(** A batch size near [SIZE_MAX] wraps the sum that rounds the number of batches
    up: the loader has no batch although [drop_last] is not set. *)
Lemma huge_batch_size_is_empty :
  num_batches (LoaderEnv0 := numbers 5 0) (config (2 ^ 64 - 1) 0 false) = 0.
Proof. vm_compute. reflexivity. Qed.

(** ** Healthy runs of the same loaders *)

#[local] Instance numbers_total n : LoaderTotal (LoaderEnv0 := numbers n 0) nat (list nat).
Proof.
  split; [|done]. intros i Hi. cbn in *. assert (n - 0 <=? i = false) as -> by (apply Nat.leb_gt; lia).
  done.
Qed.

Lemma after_reachable n bad cfg ls s :
  after n bad cfg ls = Some s -> reachable (LoaderEnv0 := numbers n bad) cfg s.
Proof.
  unfold after. destruct (DataLoader_ctor _ tt) as [s0|] eqn:E; [|done]. intros H. by exists tt, s0, ls.
Qed.

(** Two workers; worker 1 delivers batch 1 before worker 0 delivers batch 0. *)
Definition out_of_order : list label :=
  steps 3 0 ++ steps 3 1 ++ steps 2 1 ++ Call Next :: callers 1 ++ steps 2 0 ++ callers 1.



Lemma batches_partition_dataset_witness :
  sizes_fit (LoaderEnv0 := numbers 5 0) (config 2 0 false) /\
  [4; 3; 2; 1; 0] ≡ₚ seq 0 (dataset_size (LoaderEnv := numbers 5 0)) /\
  mjoin (map (batch_indices (LoaderEnv0 := numbers 5 0) (config 2 0 false) [4; 3; 2; 1; 0]) (seq 0 3)) =
    take 5 [4; 3; 2; 1; 0].
Proof.
  assert (sizes_fit (LoaderEnv0 := numbers 5 0) (config 2 0 false)) as H by (split; by vm_compute).
  assert ([4; 3; 2; 1; 0] ≡ₚ seq 0 (dataset_size (LoaderEnv := numbers 5 0))) as Hp.
  { exact (reverse_Permutation [0; 1; 2; 3; 4]). }
  split_and!; [done|done|].
  exact (proj1 (batches_partition_dataset (LoaderEnv0 := numbers 5 0) (config 2 0 false)
    H [4; 3; 2; 1; 0] Hp)).
Defined.
End Faults.
