(* ===== verification/MapSums.v ===== *)
(** * Sums over lists and finite maps

    [sumZ_with f l] adds [f] over a list, [total f m] over the entries of a map: the byte counters of the
    device allocator and the reference counts of the autograd graph are such
    sums. *)

From stdpp Require Import base list numbers gmap.
From S2P Require Import Prelude.

Module Sums.

Definition sumZ_with {A} (f : A -> Z) : list A -> Z :=
  fix go l := match l with [] => 0 | x :: l => f x + go l end.

Lemma sumZ_with_nonneg {A} (f : A -> Z) l : (forall x, 0 <= f x) -> 0 <= sumZ_with f l.
Proof. intros H. induction l as [|x l IH]; cbn; [lia|]. specialize (H x). lia. Qed.

Lemma sumZ_with_app {A} (f : A -> Z) l k : sumZ_with f (l ++ k) = sumZ_with f l + sumZ_with f k.
Proof. induction l as [|x l IH]; simpl; [done|]. rewrite IH. lia. Qed.

Lemma sumZ_with_map {A B} (f : B -> Z) (g : A -> B) l : sumZ_with f (map g l) = sumZ_with (fun x => f (g x)) l.
Proof. induction l as [|x l IH]; cbn; by rewrite ?IH. Qed.

Lemma sumZ_with_ext {A} (f g : A -> Z) l : (forall x, x ∈ l -> f x = g x) -> sumZ_with f l = sumZ_with g l.
Proof.
  induction l as [|x l IH]; intros H; [done|]. cbn. rewrite (H x) by left. f_equal. apply IH.
  intros y Hy. apply H. by right.
Qed.

Lemma sumZ_with_perm {A} (f : A -> Z) l k : l ≡ₚ k -> sumZ_with f l = sumZ_with f k.
Proof. induction 1; cbn; lia. Qed.

Definition total {A} (f : A -> Z) (m : gmap Z A) : Z := map_fold (fun _ b acc => f b + acc) 0 m.

Lemma total_empty {A} (f : A -> Z) : total f ∅ = 0.
Proof. apply map_fold_empty. Qed.

Lemma total_insert {A} (f : A -> Z) m k b : m !! k = None -> total f (<[k := b]> m) = f b + total f m.
Proof. intros. unfold total.
  by rewrite (map_fold_insert_L (fun _ b acc => f b + acc)) by (lia || done). Qed.

Lemma total_delete {A} (f : A -> Z) m k b : m !! k = Some b -> total f m = f b + total f (delete k m).
Proof.
  intros H. rewrite <-(insert_delete_id m k b H) at 1. apply total_insert, lookup_delete_eq.
Qed.

Lemma total_update {A} (f : A -> Z) m k b b' :
  m !! k = Some b -> total f (<[k := b']> m) + f b = total f m + f b'.
Proof.
  intros H. rewrite (total_delete f m k b H), <-insert_delete_eq.
  rewrite total_insert by apply lookup_delete_eq. lia.
Qed.

Lemma total_nonneg {A} (f : A -> Z) m : (forall k b, m !! k = Some b -> 0 <= f b) -> 0 <= total f m.
Proof.
  induction m as [|k b m Hk IH] using map_ind; intros H; [rewrite total_empty; lia|].
  rewrite total_insert by done. pose proof (H k b (lookup_insert_eq _ _ _)).
  assert (0 <= total f m); [|lia]. apply IH. intros j c Hj. apply (H j c).
  rewrite lookup_insert_ne; [done|congruence].
Qed.

Lemma total_member {A} (f : A -> Z) m k b :
  (forall k b, m !! k = Some b -> 0 <= f b) -> m !! k = Some b -> f b <= total f m.
Proof.
  intros H Hk. rewrite (total_delete f m k b Hk).
  assert (0 <= total f (delete k m)); [|lia]. apply total_nonneg. intros j c Hj.
  apply lookup_delete_Some in Hj as [_ Hj]. by apply (H j).
Qed.

Lemma total_ext {A} (f g : A -> Z) m : (forall k b, m !! k = Some b -> f b = g b) -> total f m = total g m.
Proof.
  induction m as [|k b m Hk IH] using map_ind; intros H; [by rewrite !total_empty|].
  rewrite !total_insert by done. rewrite (H k b (lookup_insert_eq _ _ _)), IH; [done|].
  intros j c Hj. apply (H j c). rewrite lookup_insert_ne; [done|congruence].
Qed.

Lemma total_fmap {A B} (f : B -> Z) (g : A -> B) m : total f (g <$> m) = total (fun a => f (g a)) m.
Proof.
  induction m as [|k b m Hk IH] using map_ind; [by rewrite fmap_empty, !total_empty|].
  rewrite fmap_insert, !total_insert by (by rewrite ?lookup_fmap, Hk || done). by rewrite IH.
Qed.

(** The sum depends on the values of [f] only. *)
Lemma total_same {A} (f : A -> Z) m m' : (forall k, (f <$> m' !! k) = (f <$> m !! k)) -> total f m' = total f m.
Proof.
  intros H. assert (forall m, total f m = total id (f <$> m)) as E by (intros n; by rewrite total_fmap).
  rewrite !E. f_equal.
  apply map_eq. intros k. rewrite !lookup_fmap. apply H.
Qed.

Lemma total_alter {A} (f : A -> Z) m k b (u : A -> A) :
  m !! k = Some b -> total f (alter u k m) = total f m - f b + f (u b).
Proof.
  intros H. replace (alter u k m) with (<[k := u b]> m).
  - pose proof (total_update f m k b (u b) H). lia.
  - apply map_eq. intros j. rewrite lookup_insert, lookup_alter. case_decide; subst; by rewrite ?H.
Qed.

Lemma total_zero {A} (f : A -> Z) m :
  (forall k b, m !! k = Some b -> 0 <= f b) -> total f m = 0 ->
  forall k b, m !! k = Some b -> f b = 0.
Proof.
  intros Hf Hz k b Hk. pose proof (total_member f m k b Hf Hk). pose proof (Hf k b Hk). lia.
Qed.
End Sums.
