(* ===== verification/CudaHeap.v ===== *)
(** * Tiled heaps

    The shape of the device allocator's memory: cells (a size, whether it is in
    use and the allocation it was cut from) at addresses.  The cells of an
    allocation tile it; splitting a cell, joining two neighbours, adding a fresh
    allocation and dropping the only cell of one preserve that.  The byte
    counters are sums over the cells. *)

From stdpp Require Import base list numbers strings gmap.
From S2P Require Import Prelude MapSums.

Module Heap.
Export Sums.

Record Cell := mkCell { c_size : Z; c_used : bool; c_orig : Z }.

Definition used_size (c : Cell) : Z := if c_used c then c_size c else 0.
Definition free_size (c : Cell) : Z := if c_used c then 0 else c_size c.

Lemma size_unused c : c_used c = false -> used_size c = 0 /\ free_size c = c_size c.
Proof. unfold used_size, free_size. by intros ->. Qed.

Lemma size_used c : c_used c = true -> used_size c = c_size c /\ free_size c = 0.
Proof. unfold used_size, free_size. by intros ->. Qed.

Lemma total_split m : total used_size m + total free_size m = total c_size m.
Proof.
  induction m as [|k b m Hk IH] using map_ind; [by rewrite !total_empty|].
  rewrite !total_insert by done. unfold used_size, free_size in *. destruct (c_used b); lia.
Qed.

(** ** Heaps *)

Record heap (m : gmap Z Cell) (r : gmap Z Z) : Prop := {
  hp_region o n : r !! o = Some n -> 0 < o /\ 0 < n /\ o + n < 2 ^ 63;
  hp_apart o n o' n' : r !! o = Some n -> r !! o' = Some n' -> o < o' -> o + n <= o';
  hp_cell p b : m !! p = Some b -> exists n, r !! c_orig b = Some n /\
    c_orig b <= p /\ p + c_size b <= c_orig b + n /\ 0 < c_size b;
  hp_disjoint p q b c : m !! p = Some b -> m !! q = Some c -> p < q -> p + c_size b <= q;
  hp_cover p b n a : m !! p = Some b -> r !! c_orig b = Some n -> c_orig b <= a < c_orig b + n ->
    exists q c, m !! q = Some c /\ c_orig c = c_orig b /\ q <= a < q + c_size c
}.

(** Neighbours of one allocation are never both free; the cells in [h] are
    exempt while an operation works on them. *)
Definition coalesced (h : gset Z) (m : gmap Z Cell) : Prop :=
  forall p b c, m !! p = Some b -> m !! (p + c_size b) = Some c -> c_orig b = c_orig c ->
    c_used b = false -> c_used c = false -> p ∈ h \/ p + c_size b ∈ h.

Lemma heap_empty : heap ∅ ∅.
Proof. split; intros *; by rewrite lookup_empty. Qed.

Lemma coalesced_weaken h h' m : h ⊆ h' -> coalesced h m -> coalesced h' m.
Proof. intros Hh H p b c H1 H2 H3 H4 H5. destruct (H p b c H1 H2 H3 H4 H5); [left|right]; by apply Hh. Qed.

(** Two cells that contain the same address are the same. *)
Lemma heap_same m r p q b c a :
  heap m r -> m !! p = Some b -> m !! q = Some c -> p <= a < p + c_size b -> q <= a < q + c_size c ->
  p = q.
Proof.
  intros H Hp Hq Ha Hb. destruct (Z.lt_trichotomy p q) as [Hlt|[|Hlt]]; [|done|].
  - pose proof (hp_disjoint _ _ H p q b c Hp Hq Hlt). lia.
  - pose proof (hp_disjoint _ _ H q p c b Hq Hp Hlt). lia.
Qed.

Lemma heap_sep m r p q b c :
  heap m r -> m !! p = Some b -> m !! q = Some c -> p <> q -> p + c_size b <= q \/ q + c_size c <= p.
Proof.
  intros H Hp Hq Hne. destruct (Z.lt_total p q) as [Hl|[|Hl]]; [left|done|right].
  - by apply (hp_disjoint _ _ H p q b c).
  - by apply (hp_disjoint _ _ H q p c b).
Qed.

(** A cell that does not end its allocation has a successor. *)
Lemma heap_next m r p b n :
  heap m r -> m !! p = Some b -> r !! c_orig b = Some n -> p + c_size b < c_orig b + n ->
  exists c, m !! (p + c_size b) = Some c /\ c_orig c = c_orig b.
Proof.
  intros H Hp Hr Hlt. destruct (hp_cell _ _ H p b Hp) as (n' & Hr' & Ho & He & Hs).
  assert (n' = n) as -> by congruence.
  destruct (hp_cover _ _ H p b n (p + c_size b) Hp Hr) as (q & c & Hq & Hoc & Ha); [lia|].
  destruct (Z.lt_trichotomy q p) as [Hl|[->|Hl]].
  - pose proof (hp_disjoint _ _ H q p c b Hq Hp Hl). lia.
  - rewrite Hp in Hq. injection Hq as <-. lia.
  - pose proof (hp_disjoint _ _ H p q b c Hp Hq Hl). assert (q = p + c_size b) as <- by lia. eauto.
Qed.

(** Changing only whether a cell is in use. *)
Lemma heap_update m r p b b' :
  heap m r -> m !! p = Some b -> c_size b' = c_size b -> c_orig b' = c_orig b ->
  heap (<[p := b']> m) r.
Proof.
  intros H Hp Hs Ho.
  assert (forall q c, <[p := b']> m !! q = Some c ->
    exists c', m !! q = Some c' /\ c_size c = c_size c' /\ c_orig c = c_orig c') as Hl.
  { intros q c. rewrite lookup_insert. case_decide as E; [intros [= <-]; subst q; eauto|eauto]. }
  split.
  - apply H.
  - apply H.
  - intros q c (c' & Hq & -> & ->)%Hl. by apply (hp_cell _ _ H).
  - intros q q' c d (c' & Hq & -> & _)%Hl (d' & Hq' & _)%Hl. by apply (hp_disjoint _ _ H q q' c' d').
  - intros q c n a (c' & Hq & _ & Eo)%Hl Hr Ha. rewrite Eo in Hr, Ha |- *.
    destruct (hp_cover _ _ H q c' n a Hq Hr Ha) as (x & d & Hx & Hd & Hax).
    destruct (decide (p = x)) as [->|Hne].
    + exists x, b'. rewrite lookup_insert_eq. rewrite Hp in Hx. injection Hx as <-.
      rewrite Hs, Ho. done.
    + exists x, d. by rewrite lookup_insert_ne.
Qed.

(** Splitting the cell at [p] after [s] bytes. *)
Lemma heap_split m r p b s b1 b2 :
  heap m r -> m !! p = Some b -> 0 < s < c_size b ->
  c_size b1 = s -> c_size b2 = c_size b - s -> c_orig b1 = c_orig b -> c_orig b2 = c_orig b ->
  m !! (p + s) = None /\ heap (<[p := b1]> (<[p + s := b2]> m)) r.
Proof.
  intros H Hp Hs E1 E2 O1 O2.
  assert (m !! (p + s) = None) as Hn.
  { destruct (m !! (p + s)) as [c|] eqn:E; [|done].
    pose proof (hp_disjoint _ _ H p (p + s) b c Hp E). lia. }
  split; [done|]. set (m' := <[p := b1]> (<[p + s := b2]> m)).
  assert (forall q c, m' !! q = Some c -> q = p /\ c = b1 \/ q = p + s /\ c = b2 \/
            (q <> p /\ q <> p + s /\ m !! q = Some c)) as Hl.
  { intros q c. unfold m'. rewrite !lookup_insert. repeat case_decide; naive_solver. }
  assert (forall q c, q <> p -> m !! q = Some c -> m' !! q = Some c) as Hr.
  { intros q c Hne Hq. unfold m'. rewrite !lookup_insert_ne; [done| |done].
    intros <-. by rewrite Hn in Hq. }
  assert (m' !! p = Some b1) as Hp1 by apply lookup_insert_eq.
  assert (m' !! (p + s) = Some b2) as Hp2.
  { unfold m'. rewrite lookup_insert_ne by lia. apply lookup_insert_eq. }
  destruct (hp_cell _ _ H p b Hp) as (n & Hn' & Ho & He & Hpos). split.
  - apply H.
  - apply H.
  - intros q c [[-> ->]|[[-> ->]|(_ & _ & Hq)]]%Hl;
      [rewrite ?O1, ?O2; exists n; split_and!; (done || lia)..|by apply (hp_cell _ _ H)].
  - intros q q' c d Hq Hq' Hlt. apply Hl in Hq, Hq'.
    destruct Hq as [[-> ->]|[[-> ->]|(N1 & N2 & Hq)]], Hq' as [[-> ->]|[[-> ->]|(M1 & M2 & Hq')]];
      try lia;
      try (pose proof (hp_disjoint _ _ H p q' b d Hp Hq' ltac:(lia)); lia);
      try (destruct (Z.lt_total q p) as [Hx|[Hx|Hx]];
           [pose proof (hp_disjoint _ _ H q p c b Hq Hp Hx)|done|
            pose proof (hp_disjoint _ _ H p q b c Hp Hq Hx)]; lia).
    by apply (hp_disjoint _ _ H q q' c d).
  - intros q c n' a Hq Hr' Ha.
    assert (exists q0 c0, m !! q0 = Some c0 /\ c_orig c0 = c_orig c) as (q0 & c0 & Hq0 & Hoc).
    { apply Hl in Hq as [[-> ->]|[[-> ->]|(_ & _ & Hq)]]; [exists p, b; by rewrite O1|
        exists p, b; by rewrite O2|eauto]. }
    rewrite <-Hoc in Hr', Ha |- *.
    destruct (hp_cover _ _ H q0 c0 n' a Hq0 Hr' Ha) as (x & d & Hx & Hd & Hax).
    destruct (decide (x = p)) as [->|Hne].
    + rewrite Hp in Hx. injection Hx as <-. destruct (Z.lt_ge_cases a (p + s)).
      * exists p, b1. rewrite O1. split_and!; (done || lia).
      * exists (p + s), b2. rewrite O2. split_and!; (done || lia).
    + exists x, d. split_and!; [by apply Hr|done|lia..].
Qed.

(** Joining the cell at [p] with its successor. *)
Lemma heap_join m r p b c d :
  heap m r -> m !! p = Some b -> m !! (p + c_size b) = Some c -> c_orig c = c_orig b ->
  c_size d = c_size b + c_size c -> c_orig d = c_orig b ->
  heap (<[p := d]> (delete (p + c_size b) m)) r.
Proof.
  intros H Hp Hc Ho E O. destruct (hp_cell _ _ H p b Hp) as (n & Hn & Ho1 & He1 & Hs1).
  destruct (hp_cell _ _ H _ c Hc) as (n' & Hn' & Ho2 & He2 & Hs2).
  assert (n' = n) as -> by congruence.
  set (x := p + c_size b) in *. set (m' := <[p := d]> (delete x m)).
  assert (forall q e, m' !! q = Some e -> q = p /\ e = d \/ (q <> p /\ q <> x /\ m !! q = Some e)) as Hl.
  { intros q e. unfold m'. rewrite lookup_insert, lookup_delete. repeat case_decide; naive_solver. }
  assert (forall q e, q <> p -> q <> x -> m !! q = Some e -> m' !! q = Some e) as Hr.
  { intros q e H1 H2 Hq. unfold m'. rewrite lookup_insert_ne, lookup_delete_ne; done. }
  assert (m' !! p = Some d) as Hpd by apply lookup_insert_eq. split.
  - apply H.
  - apply H.
  - intros q e [[-> ->]|(_ & _ & Hq)]%Hl; [|by apply (hp_cell _ _ H)].
    rewrite O. exists n. split_and!; (done || lia).
  - intros q q' e f Hq Hq' Hlt. apply Hl in Hq, Hq'.
    destruct Hq as [[-> ->]|(N1 & N2 & Hq)], Hq' as [[-> ->]|(M1 & M2 & Hq')]; try lia.
    + pose proof (hp_disjoint _ _ H p q' b f Hp Hq' Hlt).
      assert (x < q') by lia. pose proof (hp_disjoint _ _ H x q' c f Hc Hq'). lia.
    + by apply (hp_disjoint _ _ H q p e b).
    + by apply (hp_disjoint _ _ H q q' e f).
  - intros q e n' a Hq Hr' Ha.
    assert (exists q0 e0, m !! q0 = Some e0 /\ c_orig e0 = c_orig e) as (q0 & e0 & Hq0 & Hoe).
    { apply Hl in Hq as [[-> ->]|(_ & _ & Hq)]; [exists p, b; by rewrite O|eauto]. }
    rewrite <-Hoe in Hr', Ha |- *.
    destruct (hp_cover _ _ H q0 e0 n' a Hq0 Hr' Ha) as (y & f & Hy & Hf & Hay).
    destruct (decide (y = p)) as [->|Hy1].
    + rewrite Hp in Hy. injection Hy as <-. exists p, d. rewrite O. split_and!; (done || lia).
    + destruct (decide (y = x)) as [->|Hy2].
      * rewrite Hc in Hy. injection Hy as <-. exists p, d. rewrite O. split_and!; (congruence || lia).
      * exists y, f. split_and!; [by apply Hr|done|lia..].
Qed.

(** A region apart from all others. *)
Definition fresh (r : gmap Z Z) (p n : Z) : Prop :=
  0 < p /\ 0 < n /\ p + n < 2 ^ 63 /\
  forall o k, r !! o = Some k -> o + k <= p \/ p + n <= o.

Lemma fresh_None r p n : (forall o k, r !! o = Some k -> 0 < k) -> fresh r p n -> r !! p = None.
Proof.
  intros Hk (_ & Hn & _ & H). destruct (r !! p) as [k|] eqn:E; [|done].
  pose proof (H p k E). pose proof (Hk p k E). lia.
Qed.

Lemma fresh_cell m r p n q c :
  heap m r -> fresh r p n -> m !! q = Some c -> q + c_size c <= p \/ p + n <= q.
Proof.
  intros H Hf Hq. destruct (hp_cell _ _ H q c Hq) as (k & Hk & Ho & He & Hs).
  destruct Hf as (_ & _ & _ & Hf). destruct (Hf _ _ Hk); lia.
Qed.

Lemma heap_add m r p n b :
  heap m r -> fresh r p n -> c_size b = n -> c_orig b = p ->
  m !! p = None /\ r !! p = None /\ heap (<[p := b]> m) (<[p := n]> r).
Proof.
  intros H Hf E O. pose proof Hf as (Hp & Hn & Hb & Hap).
  assert (r !! p = None) as Hr.
  { apply (fresh_None r p n); [|done]. intros o k Ho. apply (hp_region _ _ H) in Ho; lia. }
  assert (m !! p = None) as Hm.
  { destruct (m !! p) as [c|] eqn:Ec; [|done]. destruct (hp_cell _ _ H p c Ec) as (?&?&?&?&?).
    destruct (fresh_cell m r p n p c H Hf Ec); lia. }
  split_and!; [done..|].
  assert (forall q c, <[p := b]> m !! q = Some c -> q = p /\ c = b \/ (q <> p /\ m !! q = Some c)) as Hl.
  { intros q c. rewrite lookup_insert. case_decide; naive_solver. }
  assert (forall o k, <[p := n]> r !! o = Some k -> o = p /\ k = n \/ (o <> p /\ r !! o = Some k)) as Hlr.
  { intros o k. rewrite lookup_insert. case_decide; naive_solver. }
  split.
  - intros o k [[-> ->]|[_ Ho]]%Hlr; [lia|by apply (hp_region _ _ H)].
  - intros o k o' k' Ho Ho' Hlt. apply Hlr in Ho, Ho'.
    destruct Ho as [[-> ->]|[N Ho]], Ho' as [[-> ->]|[N' Ho']]; try lia.
    + destruct (Hap _ _ Ho'); [|done]. apply (hp_region _ _ H) in Ho'. lia.
    + destruct (Hap _ _ Ho); lia.
    + by apply (hp_apart _ _ H o k o' k').
  - intros q c [[-> ->]|[_ Hq]]%Hl.
    + rewrite O. exists n. rewrite lookup_insert_eq. split_and!; (done || lia).
    + destruct (hp_cell _ _ H q c Hq) as (k & Hk & ?). exists k.
      rewrite lookup_insert_ne by congruence. done.
  - intros q q' c d Hq Hq' Hlt. apply Hl in Hq, Hq'.
    destruct Hq as [[-> ->]|[N Hq]], Hq' as [[-> ->]|[N' Hq']]; try lia.
    + destruct (hp_cell _ _ H q' d Hq') as (?&?&?&?&?). destruct (fresh_cell m r p n q' d H Hf Hq'); lia.
    + destruct (fresh_cell m r p n q c H Hf Hq); lia.
    + by apply (hp_disjoint _ _ H q q' c d).
  - intros q c k a Hq Hk Ha. apply Hl in Hq as [[-> ->]|[N Hq]].
    + rewrite O in Hk, Ha |- *. rewrite lookup_insert_eq in Hk. injection Hk as <-.
      exists p, b. rewrite lookup_insert_eq. split_and!; (done || lia).
    + destruct (hp_cell _ _ H q c Hq) as (k' & Hk' & _).
      rewrite lookup_insert_ne in Hk by congruence.
      destruct (hp_cover _ _ H q c k a Hq Hk Ha) as (x & d & Hx & ?). exists x, d.
      rewrite lookup_insert_ne; [done|congruence].
Qed.

(** Dropping the only cell of an allocation, and perhaps the allocation. *)
Lemma heap_drop m r r' p b :
  heap m r -> m !! p = Some b -> c_orig b = p ->
  (forall q c, m !! q = Some c -> c_orig c = p -> q = p) -> r' = r \/ r' = delete p r ->
  heap (delete p m) r'.
Proof.
  intros H Hp O Hsole Hr'.
  assert (forall o k, r' !! o = Some k -> r !! o = Some k) as Hlr.
  { intros o k Ho. destruct Hr' as [->| ->]; [done|]. by apply lookup_delete_Some in Ho as [_ Ho]. }
  assert (forall q c, delete p m !! q = Some c -> c_orig c <> p) as Hne.
  { intros q c [N Hq]%lookup_delete_Some E. by apply N, (eq_sym (Hsole q c Hq E)). }
  assert (forall o k, o <> p -> r !! o = Some k -> r' !! o = Some k) as Hrl.
  { intros o k N Ho. destruct Hr' as [->| ->]; [done|]. by rewrite lookup_delete_ne. }
  split.
  - intros o k Ho. by apply (hp_region _ _ H), Hlr.
  - intros o k o' k' Ho Ho'. apply (hp_apart _ _ H o k o' k'); by apply Hlr.
  - intros q c Hq. pose proof (Hne q c Hq). apply lookup_delete_Some in Hq as [_ Hq].
    destruct (hp_cell _ _ H q c Hq) as (k & Hk & ?). exists k. split; [by apply Hrl|done].
  - intros q q' c d [_ Hq]%lookup_delete_Some [_ Hq']%lookup_delete_Some. by apply (hp_disjoint _ _ H q q' c d).
  - intros q c k a Hq Hk Ha. pose proof (Hne q c Hq) as Hc. apply lookup_delete_Some in Hq as [_ Hq].
    destruct (hp_cover _ _ H q c k a Hq (Hlr _ _ Hk) Ha) as (x & d & Hx & Hd & Hax).
    exists x, d. split; [|done]. rewrite lookup_delete_ne; [done|].
    intros <-. rewrite Hp in Hx. injection Hx as <-. congruence.
Qed.

(** A free cell at the base of its allocation, without free neighbour and with
    nothing used in the allocation, is all of it. *)
Lemma free_allocation_whole m r p b n :
  heap m r -> coalesced ∅ m -> m !! p = Some b -> r !! c_orig b = Some n ->
  (forall q c, m !! q = Some c -> c_used c = false) -> p = c_orig b /\ c_size b = n.
Proof.
  intros H Hc Hp Hr Hfree.
  assert (forall q c, m !! q = Some c -> c_orig c = c_orig b -> q + c_size c = c_orig b + n) as Hend.
  { intros q c Hq Hoc. destruct (hp_cell _ _ H q c Hq) as (n' & Hn' & Ho & He & Hs).
    rewrite Hoc in *. assert (n' = n) as -> by congruence.
    destruct (decide (q + c_size c = c_orig b + n)); [done|]. exfalso.
    destruct (heap_next m r q c n H Hq) as (d & Hd & Hod); [by rewrite Hoc|rewrite Hoc; lia|].
    destruct (Hc q c d Hq Hd) as [Hin|Hin]; [congruence|by apply (Hfree q)|by apply (Hfree _ _ Hd)|..];
      by apply not_elem_of_empty in Hin. }
  destruct (hp_region _ _ H _ _ Hr) as (_ & Hn & _).
  destruct (hp_cover _ _ H p b n (c_orig b) Hp Hr) as (q & c & Hq & Hoc & Ha); [lia|].
  pose proof (Hend q c Hq Hoc). pose proof (Hend p b Hp eq_refl).
  destruct (hp_cell _ _ H q c Hq) as (? & ? & Hlo & ? & ?).
  destruct (hp_cell _ _ H p b Hp) as (? & ? & Hlo' & ? & ?).
  assert (p = q) as -> by (apply (heap_same m r p q b c (c_orig b + n - 1)); (done || lia)).
  split; [rewrite Hoc in Hlo; lia|lia].
Qed.
End Heap.
