(* ===== verification/CudaAllocator.v ===== *)
(** * The splitting and coalescing device allocator

    [tenzor::backend::CachingAllocator] of src/backend/cuda_caching_allocator.cpp
    (header include/tenzor/backend/cuda_caching_allocator.hpp) for one device.
    Device addresses and sizes are [Z]; a [Block] object is identified by its
    address, which is its key in [all_blocks], so re-keying a block moves it.
    What the CUDA runtime answers during a call is the record [Cuda]; the
    allocations the driver holds and the waits put on streams are recorded in
    the state.  The byte counters are sums of sizes of disjoint blocks of one
    address space and are not wrapped. *)

From stdpp Require Import base list numbers strings gmap sorting.
From S2P Require Import Prelude.

Module Cuda.

(** [free_events]: an event and the stream it was recorded on. *)
Record Block := mkBlock {
  b_size : Z; b_allocated : bool; b_stream : Z; b_orig : Z; b_events : list (Z * Z)
}.

Record MemoryStats := mkStats {
  allocated_bytes : Z; reserved_bytes : Z; cached_bytes : Z;
  num_allocations : Z; num_frees : Z; num_cache_hits : Z; num_splits : Z; num_merges : Z
}.

Record Config := {
  alignment : Z; max_cached_memory : Z; merge_enabled : bool; min_split_size : Z
}.

(** [DeviceAllocator], with the allocations the driver holds ([regions], base
    to size) and the calls of [cudaStreamWaitEvent] (stream and event). *)
Record DeviceAllocator := mkDev {
  all_blocks : gmap Z Block;
  blocks_by_addr : gset Z;
  free_blocks : gset Z;
  event_pool : list Z;
  stats : MemoryStats;
  regions : gmap Z Z;
  waits : list (Z * Z)
}.

(** The runtime's answers during one call: [cudaMalloc] given what is allocated,
    [cudaEventQuery], the creation and recording of an event, [cudaFree]. *)
Record Cuda := {
  set_device_ok : bool;
  malloc : gmap Z Z -> Z -> option Z;
  query : Z -> bool;
  create_event : option Z;
  record_ok : bool;
  free_ok : Z -> bool
}.

Definition empty_stats : MemoryStats := mkStats 0 0 0 0 0 0 0 0.
Definition empty_device : DeviceAllocator := mkDev ∅ ∅ ∅ [] empty_stats ∅ [].

Definition default_block : Block := mkBlock 0 false 0 0 [].
Definition block_at (st : DeviceAllocator) (p : Z) : Block := default default_block (all_blocks st !! p).

(** ** Field updates *)

Definition set_blocks (m : gmap Z Block) (idx : gset Z) (st : DeviceAllocator) : DeviceAllocator :=
  mkDev m idx (free_blocks st) (event_pool st) (stats st) (regions st) (waits st).
Definition set_block (p : Z) (b : Block) (st : DeviceAllocator) : DeviceAllocator :=
  set_blocks (<[p := b]> (all_blocks st)) (blocks_by_addr st) st.
Definition set_free (s : gset Z) (st : DeviceAllocator) : DeviceAllocator :=
  mkDev (all_blocks st) (blocks_by_addr st) s (event_pool st) (stats st) (regions st) (waits st).
Definition set_pool (l : list Z) (st : DeviceAllocator) : DeviceAllocator :=
  mkDev (all_blocks st) (blocks_by_addr st) (free_blocks st) l (stats st) (regions st) (waits st).
Definition set_stats (s : MemoryStats) (st : DeviceAllocator) : DeviceAllocator :=
  mkDev (all_blocks st) (blocks_by_addr st) (free_blocks st) (event_pool st) s (regions st) (waits st).
Definition set_regions (r : gmap Z Z) (st : DeviceAllocator) : DeviceAllocator :=
  mkDev (all_blocks st) (blocks_by_addr st) (free_blocks st) (event_pool st) (stats st) r (waits st).
Definition set_waits (l : list (Z * Z)) (st : DeviceAllocator) : DeviceAllocator :=
  mkDev (all_blocks st) (blocks_by_addr st) (free_blocks st) (event_pool st) (stats st) (regions st) l.

(** [if (x >= y) x -= y;] *)
Definition sub_clamped (x y : Z) : Z := if x >=? y then x - y else x.

Definition add_allocated (d : Z) (s : MemoryStats) : MemoryStats :=
  mkStats (allocated_bytes s + d) (reserved_bytes s) (cached_bytes s) (num_allocations s)
    (num_frees s) (num_cache_hits s) (num_splits s) (num_merges s).
Definition sub_allocated (d : Z) (s : MemoryStats) : MemoryStats :=
  mkStats (sub_clamped (allocated_bytes s) d) (reserved_bytes s) (cached_bytes s)
    (num_allocations s) (num_frees s) (num_cache_hits s) (num_splits s) (num_merges s).
Definition add_reserved (d : Z) (s : MemoryStats) : MemoryStats :=
  mkStats (allocated_bytes s) (reserved_bytes s + d) (cached_bytes s) (num_allocations s)
    (num_frees s) (num_cache_hits s) (num_splits s) (num_merges s).
Definition set_cached (c : Z) (s : MemoryStats) : MemoryStats :=
  mkStats (allocated_bytes s) (reserved_bytes s) c (num_allocations s) (num_frees s)
    (num_cache_hits s) (num_splits s) (num_merges s).
Definition set_reserved (c : Z) (s : MemoryStats) : MemoryStats :=
  mkStats (allocated_bytes s) c (cached_bytes s) (num_allocations s) (num_frees s)
    (num_cache_hits s) (num_splits s) (num_merges s).
Definition count (a f h sp mg : Z) (s : MemoryStats) : MemoryStats :=
  mkStats (allocated_bytes s) (reserved_bytes s) (cached_bytes s) (num_allocations s + a)
    (num_frees s + f) (num_cache_hits s + h) (num_splits s + sp) (num_merges s + mg).

(** ** The ordered set of free blocks *)

(** [BlockComparator]: by size, then by address. *)
Definition block_le (st : DeviceAllocator) (p q : Z) : Prop :=
  b_size (block_at st p) < b_size (block_at st q) \/
  (b_size (block_at st p) = b_size (block_at st q) /\ p <= q).

#[export] Instance block_le_dec st p q : Decision (block_le st p q).
Proof. unfold block_le. apply _. Defined.

(** [free_blocks] in the order of the set's iterators. *)
Definition sorted_free (st : DeviceAllocator) : list Z :=
  merge_sort (block_le st) (elements (free_blocks st)).

(** [lower_bound] of a search block with a null pointer. *)
Definition best_fit (st : DeviceAllocator) (size : Z) : option Z :=
  find (fun p => size <=? b_size (block_at st p)) (sorted_free st).

(** ** Sizes, events *)

Definition round_size (cfg : Config) (size : Z) : result Z :=
  if size >? UINT64_MAX - (alignment cfg - 1) then Err BadAlloc
  else Ok ((size + alignment cfg - 1) / alignment cfg * alignment cfg).

(** [acquire_event]: an event from the pool (last in, first out) or a new one. *)
Definition acquire_event (env : Cuda) (pool : list Z) : option Z * list Z :=
  match pool with
  | ev :: pool => (Some ev, pool)
  | [] => (create_event env, [])
  end.

(** [record_free_event] *)
Definition record_free_event (env : Cuda) (p : Z) (st : DeviceAllocator) : DeviceAllocator :=
  let b := block_at st p in
  let '(ev, pool) := acquire_event env (event_pool st) in
  match ev with
  | None => set_pool pool st
  | Some ev =>
      if record_ok env
      then set_block p (mkBlock (b_size b) (b_allocated b) (b_stream b) (b_orig b)
             (b_events b ++ [(ev, b_stream b)])) (set_pool pool st)
      else set_pool (ev :: pool) st
  end.

(** The loop over the events of a block that is reused on [stream]: those that
    are ordered or complete are recycled, the others are waited for and kept. *)
Fixpoint resolve_events (env : Cuda) (stream : Z) (evs : list (Z * Z)) (st : DeviceAllocator)
    : DeviceAllocator * list (Z * Z) :=
  match evs with
  | [] => (st, [])
  | (ev, ev_stream) :: evs =>
      if ev_stream =? stream then resolve_events env stream evs (set_pool (ev :: event_pool st) st)
      else if query env ev then resolve_events env stream evs (set_pool (ev :: event_pool st) st)
      else let '(st, carried) :=
             resolve_events env stream evs (set_waits (waits st ++ [(stream, ev)]) st) in
           (st, (ev, ev_stream) :: carried)
  end.

(** ** Splitting *)

Definition split_block (cfg : Config) (p size : Z) (st : DeviceAllocator) : bool * DeviceAllocator :=
  let b := block_at st p in
  if b_size b <? wrap 64 (size + min_split_size cfg) then (false, st)
  else
    let remaining_size := wrap 64 (b_size b - size) in
    let new_ptr := p + size in
    let rem := mkBlock remaining_size false (b_stream b) (b_orig b) [] in
    let kept := mkBlock size (b_allocated b) (b_stream b) (b_orig b) (b_events b) in
    let st := set_blocks (<[p := kept]> (<[new_ptr := rem]> (all_blocks st)))
                ({[new_ptr]} ∪ blocks_by_addr st) st in
    let st := set_free ({[new_ptr]} ∪ free_blocks st) st in
    (true, set_stats (set_cached (cached_bytes (stats st) + remaining_size)
                        (count 0 0 0 1 0 (stats st))) st).

(** The events that are still pending go to the remainder of a split, or back
    to the pool. *)
Definition hand_over (p : Z) (did_split : bool) (carried : list (Z * Z)) (st : DeviceAllocator)
    : DeviceAllocator :=
  let recycled := set_pool (rev (map fst carried) ++ event_pool st) st in
  if did_split && negb (bool_decide (carried = [])) then
    let rem_ptr := p + b_size (block_at st p) in
    if bool_decide (rem_ptr ∈ blocks_by_addr st) then
      let r := block_at st rem_ptr in
      set_block rem_ptr (mkBlock (b_size r) (b_allocated r) (b_stream r) (b_orig r)
                           (b_events r ++ carried)) st
    else recycled
  else recycled.

Definition try_allocate_from_cache (cfg : Config) (env : Cuda) (size stream : Z)
    (st : DeviceAllocator) : option (Z * DeviceAllocator) :=
  match best_fit st size with
  | None => None
  | Some p =>
      let b := block_at st p in
      let st := set_free (free_blocks st ∖ {[p]}) st in
      let cached := cached_bytes (stats st) in
      let st := set_stats (set_cached (if cached >=? b_size b then cached - b_size b else 0)
                             (stats st)) st in
      let '(st, carried) := resolve_events env stream (b_events b) st in
      let st := set_block p (mkBlock (b_size b) (b_allocated b) stream (b_orig b) []) st in
      let '(did_split, st) :=
        if b_size b >=? wrap 64 (size + min_split_size cfg) then split_block cfg p size st
        else (false, st) in
      Some (p, hand_over p did_split carried st)
  end.

(** ** Returning memory to the driver *)

Definition release_block (env : Cuda) (p : Z) (st : DeviceAllocator) : bool * DeviceAllocator :=
  let b := block_at st p in
  if negb (p =? b_orig b) then (false, st)
  else if existsb (fun qc => negb (qc.1 =? p) && (b_orig qc.2 =? b_orig b))
            (map_to_list (all_blocks st)) then (false, st)
  else
    let st := set_free (free_blocks st ∖ {[p]}) st in
    let st := set_pool (rev (map fst (b_events b)) ++ event_pool st) st in
    let st := if free_ok env p then set_regions (delete p (regions st)) st else st in
    let s := stats st in
    let s := set_reserved (sub_clamped (reserved_bytes s) (b_size b)) s in
    let s := set_cached (sub_clamped (cached_bytes s) (b_size b)) s in
    (true, set_blocks (delete p (all_blocks st)) (blocks_by_addr st ∖ {[p]}) (set_stats s st)).

(** [release_block] on every block of a list, and [destroy_event_pool]. *)
Definition release_all (env : Cuda) (st : DeviceAllocator) : DeviceAllocator :=
  set_pool [] (foldl (fun st p => (release_block env p st).2) st (sorted_free st)).

Definition empty_cache (env : Cuda) (st : DeviceAllocator) : DeviceAllocator := release_all env st.

Definition release_cached_memory_locked (env : Cuda) (st : DeviceAllocator) : bool * DeviceAllocator :=
  let before := reserved_bytes (stats st) in
  let st := release_all env st in
  (reserved_bytes (stats st) <? before, st).

(** The retries of [cudaMalloc]: evict and try again while that helps. *)
Fixpoint malloc_retry (retries : nat) (env : Cuda) (size : Z) (st : DeviceAllocator)
    : option Z * DeviceAllocator :=
  match malloc env (regions st) size with
  | Some p => (Some p, st)
  | None =>
      match retries with
      | O => (None, st)
      | S retries =>
          let '(freed, st) := release_cached_memory_locked env st in
          if freed then malloc_retry retries env size st else (None, st)
      end
  end.

Definition max_retries : nat := 3.

Definition allocate_new_block (env : Cuda) (size stream : Z) (st : DeviceAllocator)
    : DeviceAllocator * result Z :=
  if negb (set_device_ok env) then (st, Err (RuntimeError "Failed to set CUDA device: "))
  else match malloc_retry max_retries env size st with
       | (None, st) => (st, Err (RuntimeError "CUDA memory allocation failed: "))
       | (Some p, st) =>
           let st := set_regions (<[p := size]> (regions st)) st in
           let st := set_blocks (<[p := mkBlock size false stream p []]> (all_blocks st))
                       ({[p]} ∪ blocks_by_addr st) st in
           (set_stats (add_reserved size (stats st)) st, Ok p)
       end.

(** [block->allocated = true], and the statistics. *)
Definition mark_allocated (p : Z) (st : DeviceAllocator) : DeviceAllocator :=
  let b := block_at st p in
  set_stats (add_allocated (b_size b) (stats st))
    (set_block p (mkBlock (b_size b) true (b_stream b) (b_orig b) (b_events b)) st).

Definition allocate (cfg : Config) (env : Cuda) (size stream : Z) (st : DeviceAllocator)
    : DeviceAllocator * result Z :=
  if size =? 0 then (st, Ok 0)
  else match round_size cfg size with
       | Err e => (st, Err e)
       | Ok size =>
           let st := set_stats (count 1 0 0 0 0 (stats st)) st in
           match try_allocate_from_cache cfg env size stream st with
           | Some (p, st) => (mark_allocated p (set_stats (count 0 0 1 0 0 (stats st)) st), Ok p)
           | None =>
               match allocate_new_block env size stream st with
               | (st, Err e) => (st, Err e)
               | (st, Ok p) => (mark_allocated p st, Ok p)
               end
           end
       end.

(** ** Coalescing *)

Definition count_merge (st : DeviceAllocator) : DeviceAllocator :=
  set_stats (count 0 0 0 0 1 (stats st)) st.

(** The block at [p] absorbs the free block that follows it. *)
Definition merge_forward (p : Z) (st : DeviceAllocator) : option DeviceAllocator :=
  let b := block_at st p in
  let next := p + b_size b in
  match all_blocks st !! next with
  | None => None
  | Some c =>
      if negb (b_allocated c) && (b_orig c =? b_orig b) then
        let merged := mkBlock (b_size b + b_size c) (b_allocated b) (b_stream b) (b_orig b)
                        (b_events b ++ b_events c) in
        Some (count_merge (set_blocks (<[p := merged]> (delete next (all_blocks st)))
                             (blocks_by_addr st ∖ {[next]})
                             (set_free (free_blocks st ∖ {[next]}) st)))
      else None
  end.

(** [std::prev(blocks_by_addr.find(p))]: the largest smaller address. *)
Definition pred_addr (idx : gset Z) (p : Z) : option Z :=
  foldr (fun q best => if q <? p then Some (match best with Some r => Z.max q r | None => q end)
                       else best) None (elements idx).

(** The block at [p] absorbs the free block that precedes it and takes its
    address. *)
Definition merge_backward (p : Z) (st : DeviceAllocator) : option (Z * DeviceAllocator) :=
  let b := block_at st p in
  match pred_addr (blocks_by_addr st) p with
  | None => None
  | Some q =>
      let c := block_at st q in
      if (q + b_size c =? p) && negb (b_allocated c) && (b_orig c =? b_orig b) then
        let merged := mkBlock (b_size b + b_size c) (b_allocated b) (b_stream b) (b_orig b)
                        (b_events b ++ b_events c) in
        Some (q, count_merge (set_blocks (<[q := merged]> (delete p (all_blocks st)))
                                (blocks_by_addr st ∖ {[p]})
                                (set_free (free_blocks st ∖ {[q]}) st)))
      else None
  end.

(** The passes of [try_merge_blocks]; each that goes on removes a block. *)
Fixpoint merge_loop (fuel : nat) (p : Z) (st : DeviceAllocator) : Z * DeviceAllocator :=
  match fuel with
  | O => (p, st)
  | S fuel =>
      let '(m1, st1) := match merge_forward p st with Some st1 => (true, st1) | None => (false, st) end in
      let '(m2, q, st2) := match merge_backward p st1 with
                           | Some (q, st2) => (true, q, st2)
                           | None => (false, p, st1)
                           end in
      if m1 || m2 then merge_loop fuel q st2 else (q, st2)
  end.

Definition try_merge_blocks (p : Z) (st : DeviceAllocator) : Z * DeviceAllocator :=
  merge_loop (S (size (all_blocks st))) p st.

(** [enforce_cache_limit]: the largest free block first; what cannot be released
    is set aside and put back at the end. *)
Fixpoint enforce_loop (fuel : nat) (cfg : Config) (env : Cuda) (st : DeviceAllocator)
    (skipped : list Z) : DeviceAllocator * list Z :=
  match fuel with
  | O => (st, skipped)
  | S fuel =>
      if cached_bytes (stats st) >? max_cached_memory cfg then
        match last (sorted_free st) with
        | None => (st, skipped)
        | Some p =>
            let st := set_free (free_blocks st ∖ {[p]}) st in
            let '(released, st) := release_block env p st in
            enforce_loop fuel cfg env st (if released then skipped else skipped ++ [p])
        end
      else (st, skipped)
  end.

Definition enforce_cache_limit (cfg : Config) (env : Cuda) (st : DeviceAllocator) : DeviceAllocator :=
  let '(st, skipped) := enforce_loop (size (free_blocks st)) cfg env st [] in
  set_free (list_to_set skipped ∪ free_blocks st) st.

Definition free (cfg : Config) (env : Cuda) (p : Z) (st : DeviceAllocator)
    : DeviceAllocator * result unit :=
  if p =? 0 then (st, Ok tt)
  else
    let st := set_stats (count 0 1 0 0 0 (stats st)) st in
    match all_blocks st !! p with
    | None => (st, Err (RuntimeError "Attempted to free pointer not allocated by CachingAllocator"))
    | Some b =>
        if negb (b_allocated b) then (st, Err (RuntimeError "Attempted to free already freed pointer"))
        else
          let st := set_block p (mkBlock (b_size b) false (b_stream b) (b_orig b) (b_events b)) st in
          let s := sub_allocated (b_size b) (stats st) in
          let st := set_stats (set_cached (cached_bytes s + b_size b) s) st in
          let st := record_free_event env p st in
          let '(p, st) := if merge_enabled cfg then try_merge_blocks p st else (p, st) in
          let st := set_free ({[p]} ∪ free_blocks st) st in
          (if max_cached_memory cfg >? 0 then enforce_cache_limit cfg env st else st, Ok tt)
    end.

(** ** Configuration and statistics *)

Definition reset_stats (st : DeviceAllocator) : DeviceAllocator :=
  let s := stats st in
  set_stats (mkStats (allocated_bytes s) (reserved_bytes s) (cached_bytes s) 0 0 0 0 0) st.

(** [(alignment & (alignment - 1)) != 0] rejects what is not a power of two. *)
Definition set_alignment (a : Z) (cfg : Config) : result Config :=
  if (a =? 0) || negb (Z.land a (a - 1) =? 0)
  then Err (InvalidArgument "Alignment must be a power of 2")
  else Ok {| alignment := a; max_cached_memory := max_cached_memory cfg;
             merge_enabled := merge_enabled cfg; min_split_size := min_split_size cfg |}.

(** ** Sequences of calls *)

Inductive call :=
| CAllocate (size stream : Z)
| CFree (p : Z)
| CEmptyCache
| CResetStats.

Definition do_call (cfg : Config) (env : Cuda) (c : call) (st : DeviceAllocator) : DeviceAllocator :=
  match c with
  | CAllocate size stream => (allocate cfg env size stream st).1
  | CFree p => (free cfg env p st).1
  | CEmptyCache => empty_cache env st
  | CResetStats => reset_stats st
  end.

Definition do_calls (cfg : Config) (l : list (Cuda * call)) (st : DeviceAllocator) : DeviceAllocator :=
  foldl (fun st ec => do_call cfg ec.1 ec.2 st) st l.

(** A runtime whose events are never complete and that places allocations one
    after the other, below 2^63. *)
Definition bump (live : gmap Z Z) (n : Z) : option Z :=
  let top := map_fold (fun o m top => Z.max top (o + m)) 4096 live in
  if top + n <? 2 ^ 63 then Some top else None.
Definition busy_gpu : Cuda :=
  {| set_device_ok := true; malloc := bump; query _ := false; create_event := Some 7;
     record_ok := true; free_ok _ := true |}.
Definition defaults : Config :=
  {| alignment := 512; max_cached_memory := 0; merge_enabled := true; min_split_size := 512 |}.
End Cuda.
