(* ===== verification/CudaAllocatorInv.v ===== *)
(** * The device allocator: its heap stays tiled and its counters exact

    The invariant of CudaAllocator.v over the cells of CudaHeap.v, preserved by
    every operation; while an operation works on a block, the block is out of
    the free set and its bytes may be missing from [cached_bytes], which the
    parameters of the invariant record. *)

From stdpp Require Import base list numbers strings gmap sorting.
From S2P Require Import Prelude CudaHeap CudaAllocator.

Module CudaInv.
Import Heap Cuda.

Definition core (b : Block) : Cell := mkCell (b_size b) (b_allocated b) (b_orig b).
Definition cells (st : DeviceAllocator) : gmap Z Cell := core <$> all_blocks st.

#[local] Arguments cells : simpl never.
#[local] Arguments total : simpl never.

(** [out] are free cells held outside the free set, [hole] those exempt from
    coalescing, [extra] the free bytes that [cached_bytes] leaves out. *)
Record inv (cfg : Config) (out hole : gset Z) (extra : Z) (st : DeviceAllocator) : Prop := {
  i_heap : heap (cells st) (regions st);
  i_index : blocks_by_addr st = dom (cells st);
  i_free p : p ∈ free_blocks st <->
    (exists c, cells st !! p = Some c /\ c_used c = false) /\ p ∉ out;
  i_coalesced : merge_enabled cfg = true -> coalesced hole (cells st);
  i_allocated : allocated_bytes (stats st) = total used_size (cells st);
  i_reserved : reserved_bytes (stats st) = total c_size (cells st);
  i_cached : cached_bytes (stats st) = total free_size (cells st) - extra
}.

(** The cells in use are the same. *)
Definition used_same (st st' : DeviceAllocator) : Prop :=
  forall q c, c_used c = true -> cells st !! q = Some c <-> cells st' !! q = Some c.

#[export] Instance used_same_refl : Reflexive used_same.
Proof. done. Qed.
#[export] Instance used_same_trans : Transitive used_same.
Proof. intros s t u H1 H2 q c Hc. by rewrite (H1 q c Hc), (H2 q c Hc). Qed.

(** Two states that differ in events, streams and waits only. *)
Definition same_heap (st st' : DeviceAllocator) : Prop :=
  cells st' = cells st /\ blocks_by_addr st' = blocks_by_addr st /\
  free_blocks st' = free_blocks st /\ regions st' = regions st /\ stats st' = stats st.

#[export] Instance same_heap_refl : Reflexive same_heap.
Proof. done. Qed.
#[export] Instance same_heap_trans : Transitive same_heap.
Proof. intros s t u (?&?&?&?&?) (?&?&?&?&?). unfold same_heap. split_and!; congruence. Qed.

Lemma inv_same cfg out hole extra st st' :
  same_heap st st' -> inv cfg out hole extra st -> inv cfg out hole extra st'.
Proof. intros (E1 & E2 & E3 & E4 & E5) []. split; rewrite ?E1, ?E2, ?E3, ?E4, ?E5; done. Qed.

Lemma used_same_cells st st' : cells st' = cells st -> used_same st st'.
Proof. intros E q c _. by rewrite E. Qed.

Lemma lookup_cells st p b : all_blocks st !! p = Some b -> cells st !! p = Some (core b).
Proof. intros H. unfold cells. by rewrite lookup_fmap, H. Qed.

Lemma cells_lookup st p c : cells st !! p = Some c -> exists b, all_blocks st !! p = Some b /\ core b = c.
Proof.
  unfold cells. rewrite lookup_fmap. destruct (all_blocks st !! p); [|done].
  intros [= <-]. eauto.
Qed.

Lemma block_at_Some st p b : all_blocks st !! p = Some b -> block_at st p = b.
Proof. intros H. unfold block_at. by rewrite H. Qed.

Lemma block_at_core st p c : cells st !! p = Some c -> core (block_at st p) = c.
Proof. intros (b & H & E)%cells_lookup. by rewrite (block_at_Some _ _ _ H). Qed.

Lemma cells_set_block st p b : cells (set_block p b st) = <[p := core b]> (cells st).
Proof. apply fmap_insert. Qed.

(** Rewriting a block's events or stream. *)
Lemma set_block_same st p b c :
  cells st !! p = Some c -> core b = c -> same_heap st (set_block p b st).
Proof.
  intros H E. split_and!; try done. rewrite cells_set_block, E. by apply insert_id.
Qed.

Lemma resolve_events_same env stream evs st : same_heap st (resolve_events env stream evs st).1.
Proof.
  revert st. induction evs as [|[ev s] evs IH]; intros st; [done|]. cbn [resolve_events].
  destruct (s =? stream); [by rewrite <-IH|]. destruct (query env ev); [by rewrite <-IH|].
  specialize (IH (set_waits (waits st ++ [(stream, ev)]) st)).
  destruct (resolve_events _ _ _ _) as [st' l]. by rewrite <-IH.
Qed.

Lemma record_free_event_same env p st c :
  cells st !! p = Some c -> same_heap st (record_free_event env p st).
Proof.
  intros H. unfold record_free_event. destruct (acquire_event env (event_pool st)) as [[ev|] pool]; [|done].
  destruct (record_ok env); [|done].
  apply (set_block_same (set_pool pool st) p _ c); [done|]. by rewrite <-(block_at_core st p c H).
Qed.

Lemma hand_over_same cfg out hole extra p d carried st :
  inv cfg out hole extra st -> same_heap st (hand_over p d carried st).
Proof.
  intros H. unfold hand_over. destruct (d && _); [|done]. case_bool_decide as Hin; [|done].
  rewrite (i_index _ _ _ _ _ H) in Hin. apply elem_of_dom in Hin as [c Hc].
  apply (set_block_same _ _ _ c); [done|]. by rewrite <-(block_at_core st _ c Hc).
Qed.

(** ** Facts of a state that satisfies the invariant *)

Section Facts.
Context (cfg : Config).

Lemma cell_size_pos out hole extra st p c :
  inv cfg out hole extra st -> cells st !! p = Some c -> 0 < c_size c < 2 ^ 63.
Proof.
  intros H Hp. destruct (hp_cell _ _ (i_heap _ _ _ _ _ H) p c Hp) as (n & Hn & ? & ? & ?).
  destruct (hp_region _ _ (i_heap _ _ _ _ _ H) _ _ Hn). lia.
Qed.

Lemma free_size_le out hole extra st p c :
  inv cfg out hole extra st -> cells st !! p = Some c -> c_used c = false ->
  c_size c <= total free_size (cells st).
Proof.
  intros H Hp Hu. replace (c_size c) with (free_size c) by (unfold free_size; by rewrite Hu).
  apply (total_member free_size (cells st) p c); [|done]. intros q d Hq. unfold free_size.
  destruct (c_used d); [lia|]. pose proof (cell_size_pos _ _ _ _ _ _ H Hq). lia.
Qed.

Lemma sub_clamped_le x y : y <= x -> sub_clamped x y = x - y.
Proof. intros H. unfold sub_clamped. rewrite (proj2 (Z.geb_le x y)) by lia. done. Qed.

(** ** Taking a block for an allocation *)

Lemma best_fit_Some st size p :
  best_fit st size = Some p -> p ∈ free_blocks st /\ size <= b_size (block_at st p).
Proof.
  unfold best_fit. intros H. apply find_some in H as [Hin Hs]. split; [|lia].
  unfold sorted_free in Hin. apply list_elem_of_In in Hin.
  rewrite merge_sort_Permutation in Hin. by apply elem_of_elements in Hin.
Qed.

(** Removing the block from the free set and from [cached_bytes]. *)
Lemma take_free_inv st p c cached :
  inv cfg ∅ ∅ 0 st -> cells st !! p = Some c -> c_used c = false ->
  cached = total free_size (cells st) - c_size c ->
  inv cfg {[p]} ∅ (c_size c)
    (set_stats (set_cached cached (stats st)) (set_free (free_blocks st ∖ {[p]}) st)).
Proof.
  intros [] Hp Hu ->. split; try done; cbn.
  intros q. rewrite elem_of_difference, i_free0, !elem_of_singleton. set_solver.
Qed.

Lemma split_inv p c size st did st' :
  inv cfg {[p]} ∅ (c_size c) st -> cells st !! p = Some c -> c_used c = false ->
  0 < size <= c_size c -> 0 < min_split_size cfg < 2 ^ 63 -> split_block cfg p size st = (did, st') ->
  exists c', cells st' !! p = Some c' /\ c_used c' = false /\ size <= c_size c' /\
    inv cfg {[p]} {[p]} (c_size c') st' /\ used_same st st'.
Proof.
  intros H Hp Hu Hs Hm E. pose proof (cell_size_pos _ _ _ _ _ _ H Hp) as Hpos.
  pose proof (block_at_core st p c Hp) as Hc. unfold split_block in E.
  set (b := block_at st p) in *. assert (b_size b = c_size c) as Eb by (by rewrite <-Hc).
  assert (b_orig b = c_orig c) as Eo by (by rewrite <-Hc).
  assert (b_allocated b = false) as Ea by (rewrite <-Hu, <-Hc; done).
  rewrite Eb in E. rewrite (wrap_small 64 (size + _)), (wrap_small 64 (c_size c - _)) in E by lia.
  destruct (Z.ltb_spec (c_size c) (size + min_split_size cfg)) as [Hlt|Hge]; injection E as <- <-.
  { exists c. split_and!; try (done || lia). destruct H. split; try done.
    intros Hmg. by apply (coalesced_weaken ∅), i_coalesced0. }
  set (b1 := mkCell size false (c_orig c)). set (b2 := mkCell (c_size c - size) false (c_orig c)).
  destruct (heap_split _ _ p c size b1 b2 (i_heap _ _ _ _ _ H) Hp) as [Hn Hh]; try (done || lia).
  destruct H.
  match goal with |- context [cells ?t !! p = Some _] => set (st1 := t) end.
  assert (cells st1 = <[p := b1]> (<[p + size := b2]> (cells st))) as Hcells.
  { unfold st1, cells. cbn. rewrite !fmap_insert. unfold core at 1 2; cbn. by rewrite Ea, Eo. }
  exists b1. rewrite Hcells, lookup_insert_eq. split_and!; [done|done|cbn; lia| |].
  - split; rewrite ?Hcells; cbn; try done.
    + rewrite i_index0, !dom_insert_L. apply elem_of_dom_2 in Hp. set_solver.
    + intros q. rewrite elem_of_union, elem_of_singleton, i_free0, elem_of_singleton.
      rewrite !lookup_insert. repeat case_decide; subst; try naive_solver lia.
    + intros Hmg q d e Hq He Ho Hud Hue. specialize (i_coalesced0 Hmg). rewrite !elem_of_singleton.
      destruct (decide (q = p)) as [->|N1]; [by left|]. rewrite lookup_insert_ne in Hq by done.
      destruct (decide (q + c_size d = p)) as [E1|N2]; [by right|].
      rewrite lookup_insert_ne in He by done.
      destruct (decide (q = p + size)) as [->|N3].
      * rewrite lookup_insert_eq in Hq. injection Hq as <-. cbn in He, Ho.
        rewrite lookup_insert_ne in He by lia.
        replace (p + size + (c_size c - size)) with (p + c_size c) in He by lia.
        exfalso. destruct (i_coalesced0 p c e Hp He Ho Hu Hue) as [Hx|Hx]; by apply not_elem_of_empty in Hx.
      * rewrite lookup_insert_ne in Hq by done.
        destruct (decide (q + c_size d = p + size)) as [E2|N4].
        -- exfalso. destruct (hp_cell _ _ i_heap0 q d Hq) as (? & ? & ? & ? & ?).
           destruct (heap_sep _ _ _ _ _ _ i_heap0 Hq Hp N1); lia.
        -- rewrite lookup_insert_ne in He by done.
           destruct (i_coalesced0 q d e Hq He Ho Hud Hue) as [Hx|Hx]; by apply not_elem_of_empty in Hx.
    + rewrite i_allocated0. pose proof (total_update used_size (<[p + size := b2]> (cells st)) p c b1) as T.
      rewrite lookup_insert_ne in T by lia. specialize (T Hp). rewrite (total_insert _ (cells st)) in T by done.
      destruct (size_unused c Hu), (size_unused b1 eq_refl), (size_unused b2 eq_refl). lia.
    + rewrite i_reserved0. pose proof (total_update c_size (<[p + size := b2]> (cells st)) p c b1) as T.
      rewrite lookup_insert_ne in T by lia. specialize (T Hp). rewrite (total_insert _ (cells st)) in T by done.
      cbn in T. lia.
    + rewrite i_cached0. pose proof (total_update free_size (<[p + size := b2]> (cells st)) p c b1) as T.
      rewrite lookup_insert_ne in T by lia. specialize (T Hp). rewrite (total_insert _ (cells st)) in T by done.
      destruct (size_unused c Hu), (size_unused b1 eq_refl), (size_unused b2 eq_refl).
      subst b1 b2. cbn in *. lia.
  - intros q d Hd. rewrite Hcells. destruct (decide (q = p)) as [->|N1].
    { rewrite lookup_insert_eq, Hp. split; intros [= <-]; [by rewrite Hu in Hd|done]. }
    rewrite lookup_insert_ne by done. destruct (decide (q = p + size)) as [->|N2].
    { rewrite lookup_insert_eq, Hn. split; [done|]. by intros [= <-]. }
    by rewrite lookup_insert_ne.
Qed.

(** A cell of the free set, and of the cells outside it. *)
Lemma free_cell out hole extra st p :
  inv cfg out hole extra st -> p ∈ free_blocks st ->
  exists c, cells st !! p = Some c /\ c_used c = false /\ p ∉ out.
Proof. intros H Hp. apply (i_free _ _ _ _ _ H) in Hp as [(c & Hc & Hu) Ho]. eauto. Qed.

Hypothesis split_sizes : 0 < min_split_size cfg < 2 ^ 63.

Lemma try_allocate_inv env size stream st p st' :
  inv cfg ∅ ∅ 0 st -> 0 < size -> try_allocate_from_cache cfg env size stream st = Some (p, st') ->
  exists c, cells st' !! p = Some c /\ c_used c = false /\ size <= c_size c /\
    inv cfg {[p]} {[p]} (c_size c) st' /\ used_same st st' /\
    (forall d, c_used d = true -> cells st !! p <> Some d).
Proof.
  intros H Hs E. unfold try_allocate_from_cache in E.
  destruct (best_fit st size) as [p0|] eqn:Ef; [|done].
  apply best_fit_Some in Ef as [Hf Hfit]. destruct (free_cell _ _ _ _ _ H Hf) as (c & Hc & Hu & _).
  pose proof (block_at_core st p0 c Hc) as Hb.
  assert (b_size (block_at st p0) = c_size c) as Eb by (by rewrite <-Hb).
  rewrite Eb in Hfit. set (b := block_at st p0) in *. cbn [stats set_free] in E.
  pose proof (free_size_le _ _ _ _ _ _ H Hc Hu) as Hle.
  set (cached := if cached_bytes (stats st) >=? b_size b then _ else _) in E.
  assert (cached = total free_size (cells st) - c_size c) as Ecached.
  { subst cached. rewrite (i_cached _ _ _ _ _ H), Eb, Z.sub_0_r.
    by rewrite (proj2 (Z.geb_le _ _)) by lia. }
  set (st0 := set_stats (set_cached cached (stats st)) (set_free (free_blocks st ∖ {[p0]}) st)) in E.
  assert (inv cfg {[p0]} ∅ (c_size c) st0) as H0 by (by apply take_free_inv).
  pose proof (resolve_events_same env stream (b_events b) st0) as Hsame.
  destruct (resolve_events env stream (b_events b) st0) as [st1 carried]. cbn in Hsame.
  pose proof (inv_same _ _ _ _ _ _ Hsame H0) as H1.
  assert (cells st1 !! p0 = Some c) as Hc1 by (by rewrite (proj1 Hsame)).
  set (st2 := set_block p0 _ st1) in E.
  assert (same_heap st1 st2) as Hsame2 by (apply (set_block_same _ _ _ c); [done|by rewrite <-Hb]).
  pose proof (inv_same _ _ _ _ _ _ Hsame2 H1) as H2.
  assert (cells st2 !! p0 = Some c) as Hc2 by (by rewrite (proj1 Hsame2)).
  assert (exists did st3 c', (if b_size b >=? wrap 64 (size + min_split_size cfg)
            then split_block cfg p0 size st2 else (false, st2)) = (did, st3) /\
      cells st3 !! p0 = Some c' /\ c_used c' = false /\ size <= c_size c' /\
      inv cfg {[p0]} {[p0]} (c_size c') st3 /\ used_same st2 st3) as (did & st3 & c' & E3 & Hc' & Hu' & Hs' & H3 & Hus).
  { destruct (b_size b >=? _).
    - destruct (split_block cfg p0 size st2) as [did st3] eqn:E3.
      destruct (split_inv p0 c size st2 did st3 H2 Hc2 Hu) as (c' & ? & ? & ? & ? & ?); [lia|done|done|].
      exists did, st3, c'. split_and!; done.
    - exists false, st2, c. split_and!; try done. destruct H2. split; try done.
      intros Hmg. by apply (coalesced_weaken ∅), i_coalesced0. }
  rewrite E3 in E. injection E as <- <-.
  pose proof (hand_over_same _ _ _ _ p0 did carried st3 H3) as Hsame3.
  exists c'. rewrite (proj1 Hsame3). split_and!; [done|done|done|by eapply inv_same| |].
  - transitivity st3; [|by apply used_same_cells, (proj1 Hsame3)]. transitivity st2; [|done].
    apply used_same_cells. by rewrite (proj1 Hsame2), (proj1 Hsame).
  - intros d Hd Hpd. rewrite Hc in Hpd. injection Hpd as <-. congruence.
Qed.

Lemma mark_allocated_inv st p c :
  inv cfg {[p]} {[p]} (c_size c) st -> cells st !! p = Some c -> c_used c = false ->
  inv cfg ∅ ∅ 0 (mark_allocated p st) /\
  cells (mark_allocated p st) = <[p := mkCell (c_size c) true (c_orig c)]> (cells st).
Proof.
  intros H Hp Hu. pose proof (block_at_core st p c Hp) as Hb.
  set (c' := mkCell (c_size c) true (c_orig c)).
  assert (cells (mark_allocated p st) = <[p := c']> (cells st)) as Hcells.
  { subst c'. rewrite <-Hb. apply cells_set_block. }
  split; [|done]. destruct H.
  pose proof (total_update used_size (cells st) p c c' Hp).
  pose proof (total_update free_size (cells st) p c c' Hp).
  pose proof (total_update c_size (cells st) p c c' Hp).
  destruct (size_unused c Hu), (size_used c' eq_refl).
  assert (b_size (block_at st p) = c_size c) as Eb by (by rewrite <-Hb).
  split; rewrite ?Hcells; cbn; rewrite ?Eb.
  - by apply (heap_update _ _ p c).
  - rewrite i_index0, dom_insert_L. apply elem_of_dom_2 in Hp. set_solver.
  - intros q. rewrite i_free0. destruct (decide (q = p)) as [->|N].
    + rewrite lookup_insert_eq. split; [intros [_ Hq]; set_solver|]. intros [(d & [= <-] & Hd) _]. done.
    + rewrite lookup_insert_ne by done. set_solver.
  - intros Hmg q d e Hq He Ho Hud Hue. exfalso. specialize (i_coalesced0 Hmg).
    destruct (decide (q = p)) as [->|N].
    { rewrite lookup_insert_eq in Hq. by injection Hq as <-. }
    rewrite lookup_insert_ne in Hq by done. destruct (decide (q + c_size d = p)) as [Ep|N2].
    { rewrite Ep, lookup_insert_eq in He. by injection He as <-. }
    rewrite lookup_insert_ne in He by done.
    destruct (i_coalesced0 q d e Hq He Ho Hud Hue) as [Hx|Hx]; rewrite elem_of_singleton in Hx; done.
  - cbn in *. lia.
  - cbn in *. lia.
  - cbn in *. lia.
Qed.
End Facts.
End CudaInv.
