(* ===== verification/CudaAllocatorMerge.v ===== *)
(** * The device allocator: returning, merging and evicting blocks

    The lemmas of CudaAllocatorInv.v for the operations that give memory back:
    [release_block] and the loops over it, the driver's retries, [free] with
    [try_merge_blocks] and [enforce_cache_limit]. *)

From stdpp Require Import base list numbers strings gmap sorting.
From S2P Require Import Prelude CudaHeap CudaAllocator CudaAllocatorInv.

Module CudaFree.
Import Heap Cuda CudaInv.

#[local] Arguments cells : simpl never.
#[local] Arguments total : simpl never.

(** Only blocks that are not in use go, the others stay as they are. *)
Definition shrinks (st st' : DeviceAllocator) : Prop :=
  used_same st st' /\ cells st' ⊆ cells st.

#[export] Instance shrinks_refl : Reflexive shrinks.
Proof. done. Qed.
#[export] Instance shrinks_trans : Transitive shrinks.
Proof. intros s t u [H1 H2] [H3 H4]. split; by etransitivity. Qed.

Lemma shrinks_delete st st' p c :
  cells st !! p = Some c -> c_used c = false -> cells st' = delete p (cells st) -> shrinks st st'.
Proof.
  intros Hp Hu E. split; [|rewrite E; apply delete_subseteq]. intros q d Hd. rewrite E.
  rewrite lookup_delete_Some. split; [|by intros [_ ?]]. intros Hq. split; [|done].
  intros <-. rewrite Hp in Hq. injection Hq as <-. congruence.
Qed.

(** The set of addresses outside the free set may be changed where no free
    cell is. *)
Lemma inv_out cfg out out' hole extra st :
  (forall q c, cells st !! q = Some c -> c_used c = false -> q ∈ out <-> q ∈ out') ->
  inv cfg out hole extra st -> inv cfg out' hole extra st.
Proof.
  intros H []. split; try done. intros q. rewrite i_free0.
  split; intros [(c & Hc & Hu) Hq]; (split; [by eauto|]); intros Hin; by apply Hq, (H q c Hc Hu).
Qed.

Lemma elem_of_sorted_free st p : p ∈ sorted_free st <-> p ∈ free_blocks st.
Proof. unfold sorted_free. by rewrite merge_sort_Permutation, elem_of_elements. Qed.

Lemma NoDup_sorted_free st : NoDup (sorted_free st).
Proof. unfold sorted_free. rewrite merge_sort_Permutation. apply NoDup_elements. Qed.

(** ** Releasing blocks *)

Section Release.
Context (cfg : Config) (env : Cuda).

(** A block that owns its allocation and has no sibling. *)
Definition whole (st : DeviceAllocator) (p : Z) : Prop :=
  c_orig (default (mkCell 0 false 0) (cells st !! p)) = p /\
  forall q c, cells st !! q = Some c -> c_orig c = p -> q = p.

Lemma no_sibling st p (b : Block) :
  existsb (fun qc => negb (qc.1 =? p) && (b_orig qc.2 =? b_orig b)) (map_to_list (all_blocks st)) = false
  <-> forall q c, cells st !! q = Some c -> c_orig c = b_orig b -> q = p.
Proof.
  split.
  - intros H q c (d & Hd & <-)%cells_lookup Ho. cbn in Ho. destruct (decide (q = p)); [done|]. exfalso.
    apply Bool.not_true_iff_false in H. apply H, existsb_exists. exists (q, d). cbn.
    rewrite <-list_elem_of_In, elem_of_map_to_list. split; [done|].
    rewrite (proj2 (Z.eqb_neq _ _)) by done. by rewrite (proj2 (Z.eqb_eq _ _)).
  - intros H. apply Bool.not_true_iff_false. intros ([q d] & Hin & E)%existsb_exists. cbn in E.
    rewrite <-list_elem_of_In, elem_of_map_to_list in Hin. apply andb_true_iff in E as [E1 E2].
    apply negb_true_iff, Z.eqb_neq in E1. apply Z.eqb_eq in E2. apply E1.
    by apply (H q (core d)); [apply lookup_cells|].
Qed.

Lemma release_block_inv out hole p c st :
  inv cfg out hole 0 st -> cells st !! p = Some c -> c_used c = false ->
  (whole st p /\ exists st', release_block env p st = (true, st') /\
     inv cfg out hole 0 st' /\ cells st' = delete p (cells st) /\
     free_blocks st' = free_blocks st ∖ {[p]} /\
     (regions st' = if free_ok env p then delete p (regions st) else regions st)) \/
  (~ whole st p /\ release_block env p st = (false, st)).
Proof.
  intros H Hp Hu. pose proof (block_at_core st p c Hp) as Hb. unfold release_block.
  set (b := block_at st p) in *. assert (b_size b = c_size c) as Eb by (by rewrite <-Hb).
  assert (b_orig b = c_orig c) as Eo by (by rewrite <-Hb).
  assert (whole st p <-> p = b_orig b /\
    forall q d, cells st !! q = Some d -> c_orig d = b_orig b -> q = p) as Hw.
  { unfold whole. rewrite Hp, Eo. cbn. split; intros [E1 E2].
    - rewrite E1. split; [done|]. exact E2.
    - split; [done|]. intros q d Hq Hd. apply (E2 q d Hq). congruence. }
  destruct (Z.eqb_spec p (b_orig b)) as [E1|E1]; cbn [negb]; [|right; by rewrite Hw; naive_solver].
  pose proof (no_sibling st p b) as Hsib.
  destruct (existsb _ _); [right; split; [|done]; rewrite Hw; intros [_ Hx]; by apply Hsib in Hx|].
  left. apply proj1 in Hsib. specialize (Hsib eq_refl). split; [by apply Hw|]. eexists. split; [reflexivity|].
  pose proof (free_size_le cfg _ _ _ _ _ _ H Hp Hu) as Hle.
  match goal with |- context [inv _ _ _ _ ?t] => set (st1 := t) end.
  assert (cells st1 = delete p (cells st)) as Hcells by (subst st1; destruct (free_ok env p); apply fmap_delete).
  assert (regions st1 = if free_ok env p then delete p (regions st) else regions st) as Hreg
    by (subst st1; by destruct (free_ok env p)).
  assert (free_blocks st1 = free_blocks st ∖ {[p]}) as Hfree by (subst st1; by destruct (free_ok env p)).
  assert (stats st1 = set_cached (sub_clamped (cached_bytes (stats st)) (b_size b))
            (set_reserved (sub_clamped (reserved_bytes (stats st)) (b_size b)) (stats st))) as Hst
    by (subst st1; by destruct (free_ok env p)).
  assert (blocks_by_addr st1 = blocks_by_addr st ∖ {[p]}) as Hidx by (subst st1; by destruct (free_ok env p)).
  clearbody st1. split_and!; [|done..]. pose proof (total_split (cells st)).
  assert (0 <= total used_size (cells st)).
  { apply total_nonneg. intros q d Hq. unfold used_size. destruct (c_used d); [|lia].
    pose proof (cell_size_pos cfg _ _ _ _ _ _ H Hq). lia. }
  pose proof (total_delete used_size _ _ _ Hp). pose proof (total_delete free_size _ _ _ Hp).
  pose proof (total_delete c_size _ _ _ Hp). destruct (size_unused c Hu).
  destruct H. split; rewrite ?Hcells, ?Hfree, ?Hst; cbn.
  - apply (heap_drop _ (regions st) _ p c); [done|done|congruence| |rewrite Hreg; destruct (free_ok env p); auto].
    intros q d Hq Hd. apply (Hsib q d Hq). congruence.
  - by rewrite Hidx, dom_delete_L, <-i_index0.
  - intros q. rewrite elem_of_difference, elem_of_singleton, i_free0.
    setoid_rewrite lookup_delete_Some. naive_solver.
  - intros Hm q d e [_ Hq]%lookup_delete_Some [_ He]%lookup_delete_Some. by apply (i_coalesced0 Hm).
  - lia.
  - rewrite sub_clamped_le; lia.
  - rewrite sub_clamped_le; lia.
Qed.

Lemma release_loop_inv l st :
  inv cfg ∅ ∅ 0 st -> NoDup l -> (forall p, p ∈ l -> p ∈ free_blocks st) ->
  let st' := foldl (fun st p => (release_block env p st).2) st l in
  inv cfg ∅ ∅ 0 st' /\ shrinks st st'.
Proof.
  revert st. induction l as [|p l IH]; intros st H Hnd Hl; [done|]. cbn [foldl].
  apply NoDup_cons in Hnd as [Hp Hnd].
  destruct (free_cell _ _ _ _ _ _ H (Hl p (list_elem_of_here _ _))) as (c & Hc & Hu & _).
  destruct (release_block_inv _ _ p c st H Hc Hu) as
    [(_ & st1 & -> & H1 & E1 & F1 & _)|[_ ->]]; cbn [snd].
  - destruct (IH st1 H1 Hnd) as [H2 Hs].
    { intros q Hq. rewrite F1. pose proof (Hl q (list_elem_of_further _ _ _ Hq)). set_solver. }
    split; [done|]. transitivity st1; [by eapply shrinks_delete|done].
  - apply IH; [done|done|]. intros q Hq. apply Hl. by right.
Qed.

Lemma release_all_inv st :
  inv cfg ∅ ∅ 0 st -> inv cfg ∅ ∅ 0 (release_all env st) /\ shrinks st (release_all env st).
Proof.
  intros H. destruct (release_loop_inv (sorted_free st) st H (NoDup_sorted_free st)) as [H1 H2].
  { intros p. by rewrite elem_of_sorted_free. }
  unfold release_all. split; [by destruct H1|done].
Qed.

(** [cudaMalloc] with its retries: the address it returns is the driver's
    answer in the state it leaves. *)
Lemma malloc_retry_inv n size st r st' :
  inv cfg ∅ ∅ 0 st -> malloc_retry n env size st = (r, st') ->
  inv cfg ∅ ∅ 0 st' /\ shrinks st st' /\
  (forall p, r = Some p -> malloc env (regions st') size = Some p).
Proof.
  revert st. induction n as [|n IH]; intros st H E; cbn [malloc_retry] in E.
  - destruct (malloc env (regions st) size) eqn:Em; injection E as <- <-;
      split_and!; (done || congruence).
  - destruct (malloc env (regions st) size) eqn:Em; [injection E as <- <-; split_and!; (done || congruence)|].
    unfold release_cached_memory_locked in E. destruct (release_all_inv st H) as [H1 Hs].
    destruct (_ <? _); [|by injection E as <- <-].
    destruct (IH _ H1 E) as (H2 & Hs2 & Hr). split_and!; [done|by etransitivity|done].
Qed.
End Release.
End CudaFree.

(** ** The device allocator: coalescing and the cache limit

    [try_merge_blocks] absorbs every free neighbour of the freed block and ends
    with a coalesced heap; [enforce_cache_limit] releases blocks and puts back
    the ones it could not release. *)

Module CudaMerge.
Import Heap Cuda CudaInv CudaFree.

#[local] Arguments cells : simpl never.
#[local] Arguments total : simpl never.

(** ** The preceding address *)

Lemma pred_addr_Some idx p q :
  q ∈ idx -> q < p -> (forall r, r ∈ idx -> r < p -> r <= q) -> pred_addr idx p = Some q.
Proof.
  intros Hq Hlt Hmax. unfold pred_addr.
  assert (forall l : list Z, (forall r, r ∈ l -> r < p -> r <= q) ->
    match foldr (fun q best => if q <? p then Some (match best with Some r => Z.max q r | None => q end)
                               else best) None l with
    | Some r => r <= q /\ (q ∈ l -> r = q)
    | None => q ∉ l
    end) as Hl.
  { induction l as [|r l IH]; intros Hr; cbn; [apply not_elem_of_nil|].
    specialize (IH ltac:(set_solver)). pose proof (Hr r (list_elem_of_here _ _)) as Hr0.
    destruct (Z.ltb_spec r p) as [Hrp|Hrp].
    - destruct (foldr _ None l) as [s|].
      + destruct IH as [I1 I2]. split; [lia|]. intros [->|Hin]%elem_of_cons; [lia|].
        specialize (I2 Hin). lia.
      + split; [by apply Hr0|]. intros [->|Hin]%elem_of_cons; [done|]. by destruct IH.
    - destruct (foldr _ None l) as [s|].
      + destruct IH as [I1 I2]. split; [done|]. intros [->|Hin]%elem_of_cons; [lia|]. by apply I2.
      + intros [->|Hin]%elem_of_cons; [lia|done]. }
  specialize (Hl (elements idx)). destruct (foldr _ None _) as [r|].
  - destruct Hl as [_ Hl]; [set_solver|]. f_equal. apply Hl. by apply elem_of_elements.
  - destruct Hl; [set_solver|]. by apply elem_of_elements.
Qed.

Lemma pred_addr_elem idx p q : pred_addr idx p = Some q -> q ∈ idx.
Proof.
  unfold pred_addr. intros H. apply elem_of_elements. revert q H.
  induction (elements idx) as [|r l IH]; intros q; cbn; [done|]. destruct (r <? p).
  - intros [= <-]. destruct (foldr _ None l) as [s|]; [|by left].
    destruct (Z.max_spec r s) as [[_ ->]|[_ ->]]; [right; by apply IH|left].
  - intros H. right. by apply IH.
Qed.

Lemma join_size {A} (m : gmap Z A) p x b c d :
  m !! p = Some b -> m !! x = Some c -> p <> x -> (size (<[p := d]> (delete x m)) < size m)%nat.
Proof.
  intros Hp Hx Hne. rewrite map_size_insert_Some by (rewrite lookup_delete_ne; eauto).
  rewrite map_size_delete_Some by eauto. assert (size m <> 0%nat); [|lia].
  apply map_size_non_empty_iff. intros E. by rewrite E in Hp.
Qed.

Section Merge.
Context (cfg : Config).

(** Joining two neighbours that are not in use; the block of [p] or of its
    successor was the one worked on. *)
Lemma join_inv p k b c d st st' :
  inv cfg {[k]} {[k]} 0 st -> cells st !! p = Some b -> cells st !! (p + c_size b) = Some c ->
  k = p \/ k = p + c_size b -> c_used b = false -> c_used c = false -> c_orig c = c_orig b ->
  d = mkCell (c_size b + c_size c) false (c_orig b) ->
  cells st' = <[p := d]> (delete (p + c_size b) (cells st)) ->
  blocks_by_addr st' = blocks_by_addr st ∖ {[p + c_size b]} ->
  free_blocks st' = free_blocks st ∖ {[p; p + c_size b]} -> regions st' = regions st ->
  allocated_bytes (stats st') = allocated_bytes (stats st) ->
  reserved_bytes (stats st') = reserved_bytes (stats st) ->
  cached_bytes (stats st') = cached_bytes (stats st) ->
  inv cfg {[p]} {[p]} 0 st' /\ used_same st st'.
Proof.
  intros H Hp Hc Hk Hub Huc Ho -> Hcells Hidx Hfree Hreg Ha Hr Hca.
  pose proof (cell_size_pos cfg _ _ _ _ _ _ H Hp) as Hpos.
  set (d := mkCell _ _ _) in *. set (n := p + c_size b) in *. destruct H. split.
  - assert (forall f : Cell -> Z, total f (cells st') + f b + f c = total f (cells st) + f d) as Ht.
    { intros f. rewrite Hcells. pose proof (total_delete f _ _ _ Hc).
      pose proof (total_update f (delete n (cells st)) p b d) as U.
      rewrite lookup_delete_ne in U by lia. specialize (U Hp). lia. }
    pose proof (Ht used_size). pose proof (Ht free_size). pose proof (Ht c_size). clear Ht.
    destruct (size_unused b Hub), (size_unused c Huc), (size_unused d eq_refl).
    split; rewrite ?Ha, ?Hr, ?Hca, ?Hreg.
    + rewrite Hcells. by apply (heap_join _ _ p b c).
    + rewrite Hidx, i_index0, Hcells, dom_insert_L, dom_delete_L.
      apply elem_of_dom_2 in Hp. assert (p <> n) by lia. apply set_eq. intros q.
      destruct (decide (q = p)); set_solver.
    + intros q. rewrite Hfree, elem_of_difference, i_free0, Hcells, lookup_insert, lookup_delete.
      repeat case_decide; subst; set_solver.
    + intros Hm q e f Hq Hf Hof Hue Huf. rewrite Hcells in Hq, Hf. specialize (i_coalesced0 Hm).
      destruct (decide (q = p)) as [->|N1]; [left; set_solver|]. rewrite lookup_insert_ne in Hq by done.
      destruct (decide (q + c_size e = p)) as [E|N2]; [right; set_solver|].
      rewrite lookup_insert_ne in Hf by done. apply lookup_delete_Some in Hq as [N3 Hq].
      apply lookup_delete_Some in Hf as [N4 Hf].
      destruct (i_coalesced0 q e f Hq Hf Hof Hue Huf) as [Hx|Hx]; apply elem_of_singleton in Hx;
        destruct Hk; congruence.
    + lia.
    + cbn in *. lia.
    + cbn in *. lia.
  - intros q e He. rewrite Hcells. destruct (decide (q = p)) as [->|N1].
    { rewrite lookup_insert_eq, Hp. split; intros [= <-]; [congruence|done]. }
    rewrite lookup_insert_ne by done. rewrite lookup_delete_Some. split; [|by intros [_ ?]].
    intros Hq. split; [|done]. intros <-. rewrite Hc in Hq. injection Hq as <-. congruence.
Qed.

(** What [block_at] reads of a block whose cell is known. *)
Lemma block_fields st p c :
  cells st !! p = Some c -> b_size (block_at st p) = c_size c /\
  b_allocated (block_at st p) = c_used c /\ b_orig (block_at st p) = c_orig c.
Proof. intros H. by rewrite <-(block_at_core st p c H). Qed.

Definition mergeable (st : DeviceAllocator) (p : Z) (c : Cell) : Prop :=
  inv cfg {[p]} {[p]} 0 st /\ cells st !! p = Some c /\ c_used c = false.

(** A pass goes on with one block fewer, or its neighbours are not mergeable. *)
Lemma merge_forward_inv st p c :
  mergeable st p c ->
  match merge_forward p st with
  | Some st' => exists c', mergeable st' p c' /\ used_same st st' /\
      (size (cells st') < size (cells st))%nat
  | None => forall d, cells st !! (p + c_size c) = Some d -> c_orig d = c_orig c -> c_used d = true
  end.
Proof.
  intros (H & Hp & Hu). destruct (block_fields st p c Hp) as (Es & Eu & Eo).
  pose proof (cell_size_pos cfg _ _ _ _ _ _ H Hp) as Hpos.
  unfold merge_forward. rewrite Es.
  destruct (all_blocks st !! (p + c_size c)) as [d|] eqn:Ed.
  2: { intros d Hd. apply cells_lookup in Hd as (? & Hd & _). congruence. }
  pose proof (lookup_cells _ _ _ Ed) as Hd. rewrite Eo, Eu.
  destruct (negb (b_allocated d) && (b_orig d =? c_orig c)) eqn:E.
  2: { intros d' Hd' Ho. rewrite Hd in Hd'. injection Hd' as <-. cbn in *. rewrite Ho, Z.eqb_refl in E.
       by destruct (b_allocated d). }
  apply andb_true_iff in E as [E1 E2]. apply negb_true_iff in E1. apply Z.eqb_eq in E2.
  match goal with |- context [mergeable ?t] => set (st1 := t) end.
  assert (cells st1 = <[p := mkCell (c_size c + b_size d) false (c_orig c)]>
                        (delete (p + c_size c) (cells st))) as Hcells.
  { subst st1. unfold cells. cbn. rewrite fmap_insert, fmap_delete. by rewrite Hu. }
  destruct (join_inv p p c (core d) _ st st1 H Hp Hd (or_introl eq_refl) Hu E1 E2 eq_refl) as [H1 Hus];
    try done.
  { cbn. destruct H. apply set_eq. intros q. rewrite !elem_of_difference. split; [|set_solver].
    intros [Hq Hn]. split; [done|]. apply i_free0 in Hq. set_solver. }
  eexists. split_and!; [split_and!; [done|by rewrite Hcells, lookup_insert_eq|done]|done|].
  rewrite Hcells. apply (join_size _ _ _ c (core d)); [done|done|lia].
Qed.

Lemma merge_backward_inv st p c :
  mergeable st p c ->
  match merge_backward p st with
  | Some (q, st') => exists c', mergeable st' q c' /\ used_same st st' /\
      (size (cells st') < size (cells st))%nat
  | None => forall q d, cells st !! q = Some d -> q + c_size d = p -> c_orig d = c_orig c ->
      c_used d = true
  end.
Proof.
  intros (H & Hp & Hu). destruct (block_fields st p c Hp) as (Es & Eu & Eo).
  pose proof (cell_size_pos cfg _ _ _ _ _ _ H Hp) as Hpos. unfold merge_backward.
  assert (forall q d, cells st !! q = Some d -> q + c_size d = p ->
            pred_addr (blocks_by_addr st) p = Some q) as Hpred.
  { intros q d Hq E. pose proof (cell_size_pos cfg _ _ _ _ _ _ H Hq).
    rewrite (i_index _ _ _ _ _ H). apply pred_addr_Some; [by eapply elem_of_dom_2|lia|].
    intros r [e Hr]%elem_of_dom Hrp. destruct (Z.le_gt_cases r q) as [|Hlt]; [done|].
    pose proof (hp_disjoint _ _ (i_heap _ _ _ _ _ H) q r d e Hq Hr). lia. }
  destruct (pred_addr (blocks_by_addr st) p) as [q|] eqn:Eq.
  2: { intros q d Hq E. by discriminate (Hpred q d Hq E). }
  pose proof (pred_addr_elem _ _ _ Eq) as Hq. rewrite (i_index _ _ _ _ _ H) in Hq.
  apply elem_of_dom in Hq as [d Hq]. destruct (block_fields st q d Hq) as (Fs & Fu & Fo).
  rewrite Fs, Fu, Fo, Es, Eu, Eo.
  destruct ((q + c_size d =? p) && negb (c_used d) && (c_orig d =? c_orig c)) eqn:E.
  2: { intros q' d' Hq' Hend Ho. pose proof (Hpred q' d' Hq' Hend) as [= <-].
       rewrite Hq in Hq'. injection Hq' as <-. rewrite Ho, Hend, !Z.eqb_refl in E.
       by destruct (c_used d). }
  apply andb_true_iff in E as [[E1 E2]%andb_true_iff E3]. apply negb_true_iff in E2.
  apply Z.eqb_eq in E1, E3.
  match goal with |- context [mergeable ?t] => set (st1 := t) end.
  set (e := mkCell (c_size d + c_size c) false (c_orig d)).
  assert (cells st1 = <[q := e]> (delete p (cells st))) as Hcells.
  { subst st1 e. unfold cells. cbn. rewrite fmap_insert, fmap_delete. unfold core at 1. cbn.
    by rewrite Hu, E3, Z.add_comm. }
  assert (cells st !! (q + c_size d) = Some c) as Hp' by congruence.
  destruct (join_inv q p d c e st st1 H Hq Hp') as [H1 Hus]; rewrite ?E1; auto.
  { cbn. destruct H. apply set_eq. intros r. rewrite !elem_of_difference. split; [|set_solver].
    intros [Hr Hn]. split; [done|]. apply i_free0 in Hr. set_solver. }
  exists e. split_and!; [split_and!; [done|by rewrite Hcells, lookup_insert_eq|done]|done|].
  pose proof (cell_size_pos cfg _ _ _ _ _ _ H Hq).
  rewrite Hcells. apply (join_size _ _ _ d c); [done|done|lia].
Qed.

(** [try_merge_blocks] ends, with the block and its neighbours coalesced. *)
Lemma merge_loop_inv fuel p st c :
  mergeable st p c -> (size (cells st) < fuel)%nat ->
  exists q st' c', merge_loop fuel p st = (q, st') /\ inv cfg {[q]} ∅ 0 st' /\
    cells st' !! q = Some c' /\ c_used c' = false /\ used_same st st'.
Proof.
  revert p st c. induction fuel as [|fuel IH]; intros p st c Hm Hf; [lia|]. cbn [merge_loop].
  pose proof (merge_forward_inv st p c Hm) as Hfw.
  destruct (merge_forward p st) as [st1|] eqn:E1.
  - destruct Hfw as (c1 & Hm1 & Hu1 & Hs1). pose proof (merge_backward_inv st1 p c1 Hm1) as Hbw.
    destruct (merge_backward p st1) as [[q st2]|]; cbn [orb].
    + destruct Hbw as (c2 & Hm2 & Hu2 & Hs2).
      destruct (IH q st2 c2 Hm2) as (x & st' & c' & ? & ? & ? & ? & Hu); [lia|].
      exists x, st', c'. split_and!; try done. transitivity st1; [done|]. by transitivity st2.
    + destruct (IH p st1 c1 Hm1) as (x & st' & c' & ? & ? & ? & ? & Hu); [lia|].
      exists x, st', c'. split_and!; try done. by transitivity st1.
  - pose proof (merge_backward_inv st p c Hm) as Hbw.
    destruct (merge_backward p st) as [[q st2]|]; cbn [orb].
    + destruct Hbw as (c2 & Hm2 & Hu2 & Hs2).
      destruct (IH q st2 c2 Hm2) as (x & st' & c' & ? & ? & ? & ? & Hu); [lia|].
      exists x, st', c'. split_and!; try done. by transitivity st2.
    + destruct Hm as (H & Hp & Hu). exists p, st, c. split_and!; try done.
      destruct H. split; try done. intros Hmg q d e Hq He Ho Hud Hue. exfalso.
      destruct (i_coalesced0 Hmg q d e Hq He Ho Hud Hue) as [Hx|Hx]; apply elem_of_singleton in Hx.
      * subst q. rewrite Hp in Hq. injection Hq as <-. specialize (Hfw e He). naive_solver congruence.
      * rewrite Hx, Hp in He. injection He as <-. specialize (Hbw q d Hq Hx Ho). congruence.
Qed.

Lemma try_merge_inv p st c :
  mergeable st p c ->
  exists q st' c', try_merge_blocks p st = (q, st') /\ inv cfg {[q]} ∅ 0 st' /\
    cells st' !! q = Some c' /\ c_used c' = false /\ used_same st st'.
Proof.
  intros H. apply (merge_loop_inv _ p st c H). unfold cells. rewrite map_size_fmap. lia.
Qed.

End Merge.
End CudaMerge.
