(* ===== verification/CudaAllocatorSafety.v ===== *)
(** * The device allocator: allocation, freeing and the cache limit

    [allocate], [free] and [enforce_cache_limit] preserve the invariant of
    CudaAllocatorInv.v and do to the blocks in use what they say: an allocation
    adds one, a free removes one. *)

From stdpp Require Import base list numbers strings gmap sorting.
From S2P Require Import Prelude CudaHeap CudaAllocator CudaAllocatorInv CudaAllocatorMerge.

Module CudaSafety.
Import Heap Cuda CudaInv CudaFree CudaMerge.

#[local] Arguments cells : simpl never.
#[local] Arguments total : simpl never.

(** What the driver promises: an allocation is apart from those it holds. *)
Definition lawful (env : Cuda) : Prop :=
  forall r n p, 0 < n -> malloc env r n = Some p -> fresh r p n.

Definition good_config (cfg : Config) : Prop :=
  0 < min_split_size cfg < 2 ^ 63 /\ 0 < alignment cfg.

Definition good_call (c : call) : Prop :=
  match c with CAllocate size _ => 0 <= size <= UINT64_MAX | _ => True end.

Lemma round_size_ge cfg size n : 0 < alignment cfg -> round_size cfg size = Ok n -> size <= n.
Proof.
  intros Ha. unfold round_size. destruct (size >? _); [done|]. intros [= <-].
  pose proof (Z.div_mod (size + alignment cfg - 1) (alignment cfg) ltac:(lia)).
  pose proof (Z.mod_pos_bound (size + alignment cfg - 1) (alignment cfg) Ha). lia.
Qed.

(** ** Allocation *)

Section Allocate.
Context (cfg : Config) (env : Cuda).
Hypothesis good : good_config cfg.
Hypothesis driver : lawful env.

Lemma allocate_new_inv size stream st st' r :
  inv cfg ∅ ∅ 0 st -> 0 < size -> allocate_new_block env size stream st = (st', r) ->
  match r with
  | Ok p => exists c, cells st' !! p = Some c /\ c_used c = false /\ c_size c = size /\
      inv cfg {[p]} {[p]} size st' /\ used_same st st'
  | Err _ => inv cfg ∅ ∅ 0 st' /\ used_same st st'
  end.
Proof.
  intros H Hs E. unfold allocate_new_block in E.
  destruct (set_device_ok env); cbn [negb] in E; [|by injection E as <- <-].
  destruct (malloc_retry max_retries env size st) as [r0 st1] eqn:Em.
  destruct (malloc_retry_inv cfg env _ _ _ _ _ H Em) as (H1 & [Hus _] & Hr).
  destruct r0 as [p|]; [|by injection E as <- <-].
  specialize (Hr p eq_refl). apply driver in Hr; [|done].
  set (c := mkCell size false p).
  destruct (heap_add _ _ p size c (i_heap _ _ _ _ _ H1) Hr eq_refl eq_refl) as (Hn & _ & Hh).
  match goal with H : (?t, _) = (st', r) |- _ => set (st2 := t) in H end.
  injection E as <- <-.
  assert (cells st2 = <[p := c]> (cells st1)) as Hcells by apply fmap_insert.
  exists c. rewrite Hcells, lookup_insert_eq. split_and!; [done..| |].
  - destruct H1. destruct (size_unused c eq_refl).
    split; rewrite ?Hcells; cbn [blocks_by_addr free_blocks regions stats allocated_bytes reserved_bytes cached_bytes
      st2 set_stats set_blocks set_regions add_reserved].
    + done.
    + by rewrite i_index0, dom_insert_L.
    + intros q. rewrite i_free0, lookup_insert. case_decide; subst; set_solver.
    + intros Hm q d e Hq He Ho Hud Hue. rewrite elem_of_singleton.
      destruct (decide (q = p)) as [->|N]; [by left|].
      destruct (decide (q + c_size d = p)) as [N2|N2]; [right; set_solver|].
      rewrite !lookup_insert_ne in * by done.
      destruct (i_coalesced0 Hm q d e Hq He Ho Hud Hue); set_solver.
    + rewrite total_insert by done. lia.
    + rewrite total_insert by done. cbn. lia.
    + rewrite total_insert by done. cbn in *. lia.
  - transitivity st1; [done|]. intros q d Hd. rewrite Hcells. destruct (decide (q = p)) as [->|N].
    + rewrite lookup_insert_eq, Hn. split; [done|]. by intros [= <-].
    + by rewrite lookup_insert_ne.
Qed.

Lemma allocate_inv size stream st st' r :
  inv cfg ∅ ∅ 0 st -> 0 < size -> allocate cfg env size stream st = (st', r) ->
  inv cfg ∅ ∅ 0 st' /\
  match r with
  | Ok p => exists c, cells st' !! p = Some c /\ c_used c = true /\ size <= c_size c /\
      (forall d, c_used d = true -> cells st !! p <> Some d) /\
      (forall q d, q <> p -> c_used d = true -> cells st !! q = Some d <-> cells st' !! q = Some d)
  | Err _ => used_same st st'
  end.
Proof.
  intros H Hs E. unfold allocate in E. rewrite (proj2 (Z.eqb_neq _ _)) in E by lia.
  destruct (round_size cfg size) as [n|e] eqn:Er; [|by injection E as <- <-].
  apply round_size_ge in Er; [|apply good].
  set (st0 := set_stats (count 1 0 0 0 0 (stats st)) st) in E.
  assert (inv cfg ∅ ∅ 0 st0) as H0 by (by destruct H; split).
  assert (forall p c st1 st2, cells st1 !! p = Some c -> c_used c = false -> n <= c_size c ->
    inv cfg {[p]} {[p]} (c_size c) st1 -> used_same st st1 -> st2 = mark_allocated p st1 ->
    inv cfg ∅ ∅ 0 st2 /\ exists c, cells st2 !! p = Some c /\ c_used c = true /\ size <= c_size c /\
      (forall d, c_used d = true -> cells st !! p <> Some d) /\
      (forall q d, q <> p -> c_used d = true -> cells st !! q = Some d <-> cells st2 !! q = Some d))
    as Hmark.
  { intros p c st1 st2 Hp Hu Hn H1 Hus ->.
    destruct (mark_allocated_inv cfg (proj1 good) st1 p c H1 Hp Hu) as [H2 E2]. split; [done|].
    eexists. rewrite E2, lookup_insert_eq. split_and!; [done|done|cbn; lia| |].
    - intros d Hd Hx. apply (Hus p d Hd) in Hx. congruence.
    - intros q d Hne Hd. by rewrite (Hus q d Hd), lookup_insert_ne. }
  destruct (try_allocate_from_cache cfg env n stream st0) as [[p st1]|] eqn:Et.
  - injection E as <- <-.
    destruct (try_allocate_inv cfg (proj1 good) env n stream st0 p st1 H0) as (c & Hp & Hu & Hn & H1 & Hus & _);
      [lia|done|].
    apply (Hmark p c (set_stats (count 0 0 1 0 0 (stats st1)) st1)); try done. by destruct H1; split.
  - destruct (allocate_new_block env n stream st0) as [st1 r1] eqn:En.
    pose proof (allocate_new_inv n stream st0 st1 r1 H0 ltac:(lia) En) as Hn.
    destruct r1 as [p|e]; injection E as <- <-; [|by destruct Hn].
    destruct Hn as (c & Hp & Hu & Hc & H1 & Hus). rewrite <-Hc in H1.
    apply (Hmark p c st1); (done || lia).
Qed.
End Allocate.

(** ** The cache limit *)

Section Limit.
Context (cfg : Config) (env : Cuda).

(** Releasing another block does not make a block releasable. *)
Lemma whole_delete st st' p q :
  cells st' = delete p (cells st) -> whole st p -> q <> p ->
  ~ whole st q -> ~ whole st' q.
Proof.
  intros E [Hp _] Hne Hw [H1 H2]. apply Hw. rewrite E in H1, H2.
  rewrite lookup_delete_ne in H1 by done. split; [done|]. intros x d Hx Ho.
  destruct (decide (x = p)) as [->|N]; [|apply (H2 x d); [by rewrite lookup_delete_ne|done]].
  rewrite Hx in Hp. cbn in Hp. congruence.
Qed.

(** Set aside: free, and not releasable. *)
Definition stuck (st : DeviceAllocator) (p : Z) : Prop :=
  (exists c, cells st !! p = Some c /\ c_used c = false) /\ ~ whole st p.

(** [enforce_cache_limit] stops below the limit or when no free block can be
    released; it takes one pass per free block. *)
Lemma enforce_loop_inv fuel st skipped st' skipped' :
  inv cfg (list_to_set skipped) ∅ 0 st -> (size (free_blocks st) <= fuel)%nat ->
  Forall (stuck st) skipped -> enforce_loop fuel cfg env st skipped = (st', skipped') ->
  inv cfg (list_to_set skipped') ∅ 0 st' /\ shrinks st st' /\ Forall (stuck st') skipped' /\
  (cached_bytes (stats st') <= max_cached_memory cfg \/ free_blocks st' = ∅).
Proof.
  revert st skipped. induction fuel as [|fuel IH]; intros st skipped H Hf Hsk E.
  { injection E as <- <-. split_and!; [done..|]. right. apply leibniz_equiv, size_empty_inv. lia. }
  cbn [enforce_loop] in E. destruct (Z.gtb_spec (cached_bytes (stats st)) (max_cached_memory cfg)) as [Hgt|Hle].
  2: { injection E as <- <-. split_and!; [done..|by left]. }
  destruct (last (sorted_free st)) as [p|] eqn:El.
  2: { injection E as <- <-. split_and!; [done..|]. right. apply last_None in El.
       apply set_eq. intros q. rewrite <-elem_of_sorted_free, El. set_solver. }
  assert (p ∈ free_blocks st) as Hp by (apply elem_of_sorted_free, last_Some_elem_of; done).
  destruct (free_cell _ _ _ _ _ _ H Hp) as (c & Hc & Hu & Hout).
  set (st1 := set_free (free_blocks st ∖ {[p]}) st) in E.
  assert (inv cfg (list_to_set (skipped ++ [p])) ∅ 0 st1) as H1.
  { destruct H. split; try done. intros q. cbn. rewrite elem_of_difference, i_free0. set_solver. }
  assert (size (free_blocks st1) < S fuel)%nat as Hf1.
  { cbn. rewrite size_difference by set_solver. rewrite size_singleton.
    assert (size (free_blocks st) <> 0%nat); [|lia]. intros Hz. apply size_empty_inv in Hz. set_solver. }
  destruct (release_block_inv cfg env _ _ p c st1 H1 Hc Hu) as
    [(Hw & st2 & Er & H2 & E2 & F2 & _)|[Hw Er]]; rewrite Er in E.
  - apply IH in E as (Hi & Hs & Hfa & Hr).
    + split_and!; [done| |done..]. transitivity st2; [|done]. by eapply (shrinks_delete st st2).
    + apply (inv_out _ (list_to_set (skipped ++ [p]))); [|done]. intros q d Hq Hd.
      rewrite E2 in Hq. apply lookup_delete_Some in Hq as [Hne _]. set_solver.
    + rewrite F2. enough (size (free_blocks st1 ∖ {[p]}) <= size (free_blocks st1))%nat by lia.
      apply subseteq_size. set_solver.
    + rewrite Forall_forall in Hsk |- *. intros q Hq. destruct (Hsk q Hq) as [(d & Hd & Hdu) Hnw].
      assert (q <> p) by (intros ->; set_solver). split.
      * exists d. rewrite E2. by rewrite lookup_delete_ne.
      * by apply (whole_delete st1 st2 p q).
  - apply IH in E as (Hi & Hs & Hfa & Hr); [done|done|lia|].
    apply Forall_app. split; [done|]. constructor; [|done]. split; [by eauto|done].
Qed.

Lemma enforce_limit_inv st :
  inv cfg ∅ ∅ 0 st ->
  let st' := enforce_cache_limit cfg env st in
  inv cfg ∅ ∅ 0 st' /\ shrinks st st' /\
  (cached_bytes (stats st') <= max_cached_memory cfg \/
   forall p, p ∈ free_blocks st' -> ~ whole st' p).
Proof.
  intros H. unfold enforce_cache_limit.
  destruct (enforce_loop (size (free_blocks st)) cfg env st []) as [st1 skipped] eqn:E.
  apply enforce_loop_inv in E as (H1 & Hs & Hsk & Hr); [|done|done|done].
  rewrite Forall_forall in Hsk. cbn. split_and!; [|done|].
  - destruct H1. split; try done. intros q. cbn. rewrite elem_of_union, i_free0. split.
    + intros [Hq|Hq]; [|set_solver]. split; [|set_solver]. apply Hsk. set_solver.
    + intros [Hc _]. destruct (decide (q ∈ skipped)); set_solver.
  - destruct Hr as [|Hr]; [by left|]. right. intros p Hp. apply Hsk. set_solver.
Qed.
End Limit.

(** ** Freeing *)

Section Free.
Context (cfg : Config) (env : Cuda).

Lemma used_size_le out hole extra st p c :
  inv cfg out hole extra st -> cells st !! p = Some c -> c_used c = true ->
  c_size c <= total used_size (cells st).
Proof.
  intros H Hp Hu. rewrite <-(proj1 (size_used c Hu)).
  apply (total_member used_size (cells st) p c); [|done]. intros q d Hq. unfold used_size.
  destruct (c_used d); [|lia]. pose proof (cell_size_pos cfg _ _ _ _ _ _ H Hq). lia.
Qed.

(** [block->allocated = false], and the statistics. *)
Lemma unmark_inv st p c st' :
  inv cfg ∅ ∅ 0 st -> cells st !! p = Some c -> c_used c = true ->
  st' = set_stats (set_cached (cached_bytes (sub_allocated (c_size c) (stats st)) + c_size c)
                     (sub_allocated (c_size c) (stats st)))
          (set_block p (mkBlock (c_size c) false (b_stream (block_at st p)) (c_orig c)
                          (b_events (block_at st p))) st) ->
  mergeable cfg st' p (mkCell (c_size c) false (c_orig c)) /\
  (forall q, q <> p -> cells st' !! q = cells st !! q).
Proof.
  intros H Hp Hu E. set (c' := mkCell _ _ _).
  assert (cells st' = <[p := c']> (cells st)) as Hcells by (subst st'; apply fmap_insert).
  pose proof (used_size_le _ _ _ _ _ _ H Hp Hu) as Hle.
  assert (stats st' = set_cached (cached_bytes (stats st) + c_size c)
            (sub_allocated (c_size c) (stats st))) as Hst by (by subst st').
  assert (free_blocks st' = free_blocks st /\ regions st' = regions st /\
          blocks_by_addr st' = blocks_by_addr st) as (Hf & Hr & Hi) by (by subst st').
  clear E. split; [|intros q Hne; by rewrite Hcells, lookup_insert_ne].
  split_and!; [|by rewrite Hcells, lookup_insert_eq|done].
  pose proof (total_update used_size (cells st) p c c' Hp).
  pose proof (total_update free_size (cells st) p c c' Hp).
  pose proof (total_update c_size (cells st) p c c' Hp).
  destruct (size_used c Hu), (size_unused c' eq_refl). destruct H.
  split; rewrite ?Hcells, ?Hst, ?Hf, ?Hr, ?Hi;
    cbn [cached_bytes allocated_bytes reserved_bytes set_cached sub_allocated].
  - by apply (heap_update _ _ p c).
  - rewrite i_index0, dom_insert_L. apply elem_of_dom_2 in Hp. set_solver.
  - intros q. rewrite i_free0, lookup_insert. case_decide as E; [subst q|set_solver].
    split; [intros [(d & Hd & Hdu) _]; congruence|set_solver].
  - intros Hm q d e Hq He Ho Hud Hue. rewrite !elem_of_singleton.
    destruct (decide (q = p)) as [->|N]; [by left|].
    destruct (decide (q + c_size d = p)) as [N2|N2].
    + right. rewrite lookup_insert_ne in Hq by done. done.
    + rewrite lookup_insert_ne in Hq by done. rewrite lookup_insert_ne in He by done.
      destruct (i_coalesced0 Hm q d e Hq He Ho Hud Hue) as [Hx|Hx]; by apply not_elem_of_empty in Hx.
  - rewrite sub_clamped_le by lia. lia.
  - cbn in *. lia.
  - cbn in *. lia.
Qed.

Lemma free_inv p st c :
  inv cfg ∅ ∅ 0 st -> p <> 0 -> cells st !! p = Some c -> c_used c = true ->
  exists st', free cfg env p st = (st', Ok tt) /\ inv cfg ∅ ∅ 0 st' /\
    (forall q d, c_used d = true -> cells st' !! q = Some d <-> q <> p /\ cells st !! q = Some d) /\
    (0 < max_cached_memory cfg -> cached_bytes (stats st') <= max_cached_memory cfg \/
       forall q, q ∈ free_blocks st' -> ~ whole st' q).
Proof.
  intros H Hnz Hp Hu. destruct (cells_lookup _ _ _ Hp) as (b & Hb & <-). unfold free.
  rewrite (proj2 (Z.eqb_neq _ _)) by done. cbn [all_blocks set_stats]. rewrite Hb.
  change (b_allocated b = true) in Hu. rewrite Hu. cbn [negb].
  set (st0 := set_stats (count 0 1 0 0 0 (stats st)) st).
  assert (inv cfg ∅ ∅ 0 st0) as H0 by (by destruct H; split).
  match goal with |- context [record_free_event env p ?t] => set (st1 := t) end.
  destruct (unmark_inv st0 p (core b) st1 H0 Hp Hu) as [(H1 & Hp1 & Hu1) Hus1].
  { subst st1. unfold block_at. cbn. by rewrite Hb. }
  pose proof (record_free_event_same env p st1 _ Hp1) as Hsame.
  set (st2 := record_free_event env p st1) in *.
  assert (mergeable cfg st2 p (mkCell (b_size b) false (b_orig b))) as Hm.
  { split_and!; [by eapply inv_same|by rewrite (proj1 Hsame)|done]. }
  assert (exists q st3 c', (if merge_enabled cfg then try_merge_blocks p st2 else (p, st2)) = (q, st3) /\
    inv cfg {[q]} ∅ 0 st3 /\ cells st3 !! q = Some c' /\ c_used c' = false /\ used_same st2 st3)
    as (q & st3 & c' & E3 & H3 & Hq & Hu3 & Hus3).
  { destruct (merge_enabled cfg) eqn:Em.
    - destruct (try_merge_inv cfg p st2 _ Hm) as (q & st3 & c' & ?). by exists q, st3, c'.
    - destruct Hm as (Hi & Hc & Hcu). exists p, st2, (mkCell (b_size b) false (b_orig b)).
      split_and!; try done. destruct Hi. split; try done. congruence. }
  rewrite E3. set (st4 := set_free ({[q]} ∪ free_blocks st3) st3).
  assert (inv cfg ∅ ∅ 0 st4) as H4.
  { destruct H3. split; try done. intros x. cbn. rewrite elem_of_union, i_free0, !elem_of_singleton.
    split; [intros [->|[? ?]]; split; (set_solver || eauto)|].
    intros [Hx _]. destruct (decide (x = q)); [by left|right; set_solver]. }
  assert (forall x d, c_used d = true -> cells st4 !! x = Some d <-> x <> p /\ cells st !! x = Some d) as Hus4.
  { intros x d Hd. change (cells st4) with (cells st3). rewrite <-(Hus3 x d Hd), (proj1 Hsame).
    destruct (decide (x = p)) as [->|N].
    - rewrite Hp1. split; [intros [= <-]; done|naive_solver].
    - rewrite Hus1 by done. naive_solver. }
  destruct (Z.gtb_spec (max_cached_memory cfg) 0) as [Hmax|Hmax].
  - destruct (enforce_limit_inv cfg env st4 H4) as (H5 & [Hus5 _] & Hlim). eexists. split; [reflexivity|].
    split_and!; [done| |done]. intros x d Hd. by rewrite <-(Hus5 x d Hd), Hus4.
  - exists st4. split_and!; [done..|lia].
Qed.
End Free.
End CudaSafety.
