(* ===== verification/CudaAllocatorClient.v ===== *)
(** * The device allocator: what its callers may rely on

    The states that sequences of calls reach from an empty device, and the
    contracts of [allocate], [free] and [empty_cache] in all of them; what the
    events of a reused block do to the stream it is reused on. *)

From stdpp Require Import base list numbers strings gmap sorting.
From S2P Require Import Prelude CudaHeap CudaAllocator CudaAllocatorInv CudaAllocatorMerge CudaAllocatorSafety.

Module CudaClient.
Import Heap Cuda CudaInv CudaFree CudaMerge CudaSafety.

#[local] Arguments cells : simpl never.
#[local] Arguments total : simpl never.

(** The states after any sequence of calls, whatever a lawful driver answered
    to each of them. *)
Definition reachable (cfg : Config) (st : DeviceAllocator) : Prop :=
  exists l, Forall (fun ec => lawful ec.1 /\ good_call ec.2) l /\ st = do_calls cfg l empty_device.

Lemma lookup_cells_iff st p c :
  cells st !! p = Some c <-> exists b, all_blocks st !! p = Some b /\ core b = c.
Proof. split; [apply cells_lookup|]. intros (b & Hb & <-). by apply lookup_cells. Qed.

Lemma reachable_empty cfg : reachable cfg empty_device.
Proof. by exists []. Qed.

Lemma reachable_step cfg env c st :
  lawful env -> good_call c -> reachable cfg st -> reachable cfg (do_call cfg env c st).
Proof.
  intros He Hc (l & Hl & ->). exists (l ++ [(env, c)]). split.
  - apply Forall_app. split; [done|]. by apply Forall_singleton.
  - unfold do_calls. by rewrite foldl_app.
Qed.

(** ** Reachable states *)

Section Reachable.
Context (cfg : Config).
Hypothesis good : good_config cfg.

Lemma empty_inv : inv cfg ∅ ∅ 0 empty_device.
Proof.
  assert (cells empty_device = ∅) as E by (unfold cells; apply fmap_empty).
  split; rewrite ?E, ?total_empty; try (exact heap_empty || done).
  intros p. cbn. split; [set_solver|]. intros [(c & Hc & _) _]. by rewrite lookup_empty in Hc.
Qed.

Lemma do_call_inv env c st :
  lawful env -> good_call c -> inv cfg ∅ ∅ 0 st -> inv cfg ∅ ∅ 0 (do_call cfg env c st).
Proof.
  intros He Hc H. destruct c as [size stream|p| |]; cbn [do_call].
  - destruct (decide (size = 0)) as [->|Hs]; [done|]. cbn in Hc.
    destruct (allocate cfg env size stream st) as [st' r] eqn:E.
    by destruct (allocate_inv cfg env good He size stream st st' r H ltac:(lia) E).
  - destruct (decide (p = 0)) as [->|Hp]; [done|].
    assert (inv cfg ∅ ∅ 0 (set_stats (count 0 1 0 0 0 (stats st)) st)) as H0 by (by destruct H; split).
    destruct (all_blocks st !! p) as [b|] eqn:Eb.
    2: { unfold free. rewrite (proj2 (Z.eqb_neq _ _)) by done. cbn [all_blocks set_stats]. by rewrite Eb. }
    destruct (b_allocated b) eqn:Ea.
    + destruct (free_inv cfg env p st (core b) H Hp) as (st' & -> & H' & _); [by apply lookup_cells|done|done].
    + unfold free. rewrite (proj2 (Z.eqb_neq _ _)) by done. cbn [all_blocks set_stats]. by rewrite Eb, Ea.
  - by apply release_all_inv.
  - by destruct H; split.
Qed.

Lemma allocator_inv st : reachable cfg st -> inv cfg ∅ ∅ 0 st.
Proof.
  intros (l & Hl & ->). unfold do_calls. generalize empty_inv. generalize empty_device.
  induction l as [|[env c] l IH]; intros st H; [done|].
  apply Forall_cons in Hl as [[He Hc] Hl]. cbn. apply IH; [done|]. by apply do_call_inv.
Qed.

(** Nothing in use, neighbours coalesced: every block is its allocation. *)
Lemma unused_whole st p c :
  inv cfg ∅ ∅ 0 st -> merge_enabled cfg = true ->
  (forall q d, cells st !! q = Some d -> c_used d = false) -> cells st !! p = Some c ->
  c_orig c = p /\ whole st p.
Proof.
  intros H Hm Hu Hp.
  assert (forall q d, cells st !! q = Some d -> q = c_orig d) as Ho.
  { intros q d Hq. destruct (hp_cell _ _ (i_heap _ _ _ _ _ H) q d Hq) as (n & Hn & _).
    by destruct (free_allocation_whole _ _ q d n (i_heap _ _ _ _ _ H)
      (i_coalesced _ _ _ _ _ H Hm) Hq Hn Hu). }
  pose proof (Ho p c Hp) as E. split; [done|]. split; [by rewrite Hp|].
  intros q d Hq Hd. rewrite <-Hd. by apply Ho.
Qed.

Lemma release_unused env l st :
  inv cfg ∅ ∅ 0 st -> merge_enabled cfg = true ->
  (forall q d, cells st !! q = Some d -> c_used d = false) -> NoDup l ->
  (forall p, p ∈ l -> is_Some (cells st !! p)) ->
  let st' := foldl (fun st p => (release_block env p st).2) st l in
  inv cfg ∅ ∅ 0 st' /\ regions st' ⊆ regions st /\
  forall p, (p ∈ l -> cells st' !! p = None /\ (free_ok env p = true -> regions st' !! p = None)) /\
            (p ∉ l -> cells st' !! p = cells st !! p).
Proof.
  intros H Hm. revert st H. induction l as [|p l IH]; intros st H Hu Hnd Hl.
  { cbn. split_and!; [done..|]. intros q. split; [|done]. intros Hq. by apply not_elem_of_nil in Hq. }
  apply NoDup_cons in Hnd as [Hp Hnd]. destruct (Hl p (list_elem_of_here _ _)) as [c Hc]. cbn [foldl].
  destruct (unused_whole st p c H Hm Hu Hc) as [_ Hw].
  destruct (release_block_inv cfg env _ _ p c st H Hc (Hu p c Hc)) as
    [(_ & st1 & -> & H1 & E1 & _ & R1)|[Hw' _]]; [|done]. cbn [snd].
  assert (regions st1 ⊆ regions st) as Hr by (rewrite R1; destruct (free_ok env p); [apply delete_subseteq|done]).
  destruct (IH st1 H1) as (H2 & Hr2 & Hl2); [|done| |].
  { intros q d Hq. rewrite E1 in Hq. apply lookup_delete_Some in Hq as [_ Hq]. by apply (Hu q). }
  { intros q Hq. rewrite E1, lookup_delete_ne by (intros ->; done). apply Hl. by right. }
  split_and!; [done|by etransitivity|]. intros q. destruct (Hl2 q) as [L1 L2]. split.
  - intros [->|Hq]%elem_of_cons; [|by apply L1]. rewrite L2, E1, lookup_delete_eq by done.
    split; [done|]. intros Hf. rewrite Hf in R1. apply eq_None_not_Some. intros [n Hn].
    apply (lookup_weaken _ _ _ _ Hn) in Hr2. rewrite R1, lookup_delete_eq in Hr2. done.
  - intros [Hne Hq]%not_elem_of_cons. by rewrite L2, E1, lookup_delete_ne.
Qed.
End Reachable.

(** ** The size of an allocation *)

(** An accepted alignment is a power of two. *)
Lemma land_pred_pow2 a : 0 < a -> Z.land a (a - 1) = 0 -> exists k, 0 <= k /\ a = 2 ^ k.
Proof.
  intros Ha H. exists (Z.log2 a). split; [apply Z.log2_nonneg|].
  destruct (Z.log2_spec a Ha) as [Hlo Hhi]. set (k := Z.log2 a) in *.
  destruct (Z.eq_dec a (2 ^ k)) as [|Hne]; [done|]. exfalso.
  assert (0 <= k) as Hk by apply Z.log2_nonneg.
  assert (Z.testbit a k = true) as B1 by (by apply Z.bit_log2).
  assert (Z.log2 (a - 1) = k) as Hl by (apply Z.log2_unique; lia).
  assert (0 < 2 ^ k) by (apply Z.pow_pos_nonneg; lia).
  assert (Z.testbit (a - 1) k = true) as B2 by (rewrite <-Hl; apply Z.bit_log2; lia).
  pose proof (Z.land_spec a (a - 1) k) as B. by rewrite H, B1, B2, Z.bits_0 in B.
Qed.

Lemma set_alignment_ok a cfg cfg' :
  0 <= a -> set_alignment a cfg = Ok cfg' ->
  0 < alignment cfg' /\ exists k, 0 <= k /\ alignment cfg' = 2 ^ k.
Proof.
  intros Ha. unfold set_alignment. destruct (Z.eqb_spec a 0) as [|Hne]; [done|].
  destruct (Z.eqb_spec (Z.land a (a - 1)) 0) as [Hl|]; [|done]. intros [= <-]. cbn.
  split; [lia|]. apply land_pred_pow2; [lia|done].
Qed.

(** Rounding gives the least multiple of the alignment that is large enough. *)
Lemma round_size_least cfg size n :
  0 < alignment cfg -> round_size cfg size = Ok n ->
  size <= n < size + alignment cfg /\ (alignment cfg | n).
Proof.
  intros Ha H. split; [split; [by apply (round_size_ge cfg)|]|].
  - unfold round_size in H. destruct (size >? _); [done|]. injection H as <-.
    pose proof (Z.div_mod (size + alignment cfg - 1) (alignment cfg) ltac:(lia)).
    pose proof (Z.mod_pos_bound (size + alignment cfg - 1) (alignment cfg) Ha). lia.
  - unfold round_size in H. destruct (size >? _); [done|]. injection H as <-. by eexists.
Qed.

(** ** Events *)

(** The events of a block that its reuse on [stream] has to wait for. *)
Definition pending (env : Cuda) (stream : Z) (evs : list (Z * Z)) : list (Z * Z) :=
  List.filter (fun e => negb (e.2 =? stream) && negb (query env e.1)) evs.

Lemma resolve_events_pending env stream evs st st' carried :
  resolve_events env stream evs st = (st', carried) ->
  carried = pending env stream evs /\ waits st' = waits st ++ map (fun e => (stream, e.1)) carried /\
  all_blocks st' = all_blocks st /\ blocks_by_addr st' = blocks_by_addr st.
Proof.
  revert st carried. induction evs as [|[ev s] evs IH]; intros st carried E; cbn in E.
  { injection E as <- <-. by rewrite app_nil_r. }
  unfold pending. cbn [List.filter fst snd]. destruct (s =? stream); [by apply IH in E|].
  destruct (query env ev); [by apply IH in E|]. cbn [negb andb].
  destruct (resolve_events env stream evs (set_waits _ st)) as [st1 l] eqn:E1.
  injection E as -> <-. apply IH in E1 as (-> & Hw & Ha & Hi). split_and!; [done| |done..].
  rewrite Hw. cbn. by rewrite <-app_assoc.
Qed.

(** Reuse of a cached block on [stream] waits for the pending events, in order;
    a remainder keeps them. *)
Lemma try_allocate_events cfg env size stream st p b st' :
  inv cfg ∅ ∅ 0 st -> 0 < size -> 0 < min_split_size cfg < 2 ^ 63 ->
  best_fit st size = Some p -> all_blocks st !! p = Some b ->
  try_allocate_from_cache cfg env size stream st = Some (p, st') ->
  let w := pending env stream (b_events b) in
  waits st' = waits st ++ map (fun e => (stream, e.1)) w /\
  all_blocks st' = if b_size b >=? size + min_split_size cfg
    then <[p := mkBlock size false stream (b_orig b) []]>
           (<[p + size := mkBlock (b_size b - size) false stream (b_orig b) w]> (all_blocks st))
    else <[p := mkBlock (b_size b) false stream (b_orig b) []]> (all_blocks st).
Proof.
  intros H Hs Hm Hf Hp E. destruct (best_fit_Some _ _ _ Hf) as [Hin Hfit].
  destruct (free_cell _ _ _ _ _ _ H Hin) as (c & Hc & Hu & _).
  assert (core b = c) as <- by (apply lookup_cells in Hp; congruence).
  pose proof (cell_size_pos cfg _ _ _ _ _ _ H Hc) as Hpos. cbn in Hu, Hpos.
  unfold try_allocate_from_cache in E. rewrite Hf in E. rewrite (block_at_Some _ _ _ Hp) in *.
  destruct (resolve_events env stream (b_events b) _) as [st1 carried] eqn:Er in E.
  apply resolve_events_pending in Er as (-> & Hw & Ha & Hi). cbn in Hw, Ha, Hi.
  set (w := pending env stream (b_events b)) in *.
  rewrite (wrap_small 64 (size + min_split_size cfg)) in E by lia.
  set (st2 := set_block p _ st1) in E.
  assert (block_at st2 p = mkBlock (b_size b) (b_allocated b) stream (b_orig b) []) as Hb2
    by (unfold block_at; cbn; by rewrite lookup_insert_eq).
  destruct (Z.geb_spec (b_size b) (size + min_split_size cfg)) as [Hge|Hlt].
  2: { injection E as <-. unfold hand_over. cbn. by rewrite Ha, Hw, Hu. }
  unfold split_block in E. rewrite Hb2 in E. cbn [b_size b_allocated b_stream b_orig b_events] in E.
  rewrite (wrap_small 64 (size + _)), (wrap_small 64 (_ - _)) in E by lia.
  rewrite (proj2 (Z.ltb_ge _ _)) in E by lia. injection E as <-.
  match goal with |- context [hand_over p true w ?t] => set (st3 := t) end.
  set (kept := mkBlock size false stream (b_orig b) []).
  set (rem := mkBlock (b_size b - size) false stream (b_orig b)).
  assert (all_blocks st3 = <[p := kept]> (<[p + size := rem []]> (all_blocks st))) as H3.
  { subst st3 st2. cbn. rewrite Ha, Hu. rewrite (insert_insert_ne _ (p + size) p) by lia.
    by rewrite insert_insert_eq. }
  assert (waits st3 = waits st ++ map (fun e => (stream, e.1)) w) as Hw3 by done.
  assert (p + size ∈ blocks_by_addr st3) as Hi3 by (subst st3; cbn; set_solver).
  assert (block_at st3 p = kept /\ block_at st3 (p + size) = rem []) as [Hk Hr].
  { unfold block_at. rewrite H3, lookup_insert_eq, lookup_insert_ne, lookup_insert_eq by lia. done. }
  clearbody st3. unfold hand_over. rewrite Hk. cbn [b_size kept]. rewrite (bool_decide_true _ Hi3), Hr.
  case_bool_decide as Hnil; cbn [negb andb]; [by rewrite Hnil in *|]. split; [done|]. cbn.
  by rewrite H3, insert_insert_ne, insert_insert_eq by lia.
Qed.

(** ** A driver for the concrete runs *)

Lemma bump_lawful r n p : 0 < n -> bump r n = Some p -> fresh r p n.
Proof.
  unfold bump. intros Hn. set (top := map_fold _ 4096 r).
  assert (4096 <= top /\ forall o k, r !! o = Some k -> o + k <= top) as [Htop Hall].
  { subst top. induction r as [|o k r Ho IH] using map_ind.
    - rewrite map_fold_empty. split; [lia|]. intros o k Ho. by rewrite lookup_empty in Ho.
    - rewrite (map_fold_insert_L (fun o m top => Z.max top (o + m))) by (lia || done).
      destruct IH as [IH1 IH2]. split; [lia|]. intros o' k' Hl. rewrite lookup_insert in Hl.
      case_decide as E; [injection Hl as <-; lia|]. pose proof (IH2 o' k' Hl). lia. }
  destruct (Z.ltb_spec (top + n) (2 ^ 63)) as [Hlt|]; [|done]. intros [= <-].
  split_and!; [lia..|]. intros o k Ho. left. by apply Hall.
Qed.

Lemma busy_lawful : lawful busy_gpu.
Proof. intros r n p. apply bump_lawful. Qed.

Lemma defaults_good : good_config defaults.
Proof. split; cbn; lia. Qed.

(** A state with two blocks in use and one free, for the witnesses. *)
Definition demo_calls : list (Cuda * call) :=
  map (pair busy_gpu) [CAllocate 2048 1; CFree 4096; CAllocate 1024 1].
Definition demo : DeviceAllocator := do_calls defaults demo_calls empty_device.

Lemma demo_reachable : reachable defaults demo.
Proof.
  unfold demo, do_calls, demo_calls. cbn [map foldl fst snd].
  repeat (apply reachable_step; [exact busy_lawful|cbn; unfold UINT64_MAX; (exact I || lia)|]).
  apply reachable_empty.
Qed.

(** ** The contract *)





(** C33: [free] on every input: a null pointer is ignored; an address the
    allocator does not have, or whose block is not in use, is an error that
    changes only the call counter; otherwise the call succeeds, the block is no
    longer in use, every other block in use keeps its address and size, and the
    state is consistent with every free neighbour absorbed. *)
Theorem free_contract (cfg : Config) (env : Cuda) (p : Z) st :
  good_config cfg -> reachable cfg st ->
  let '(st', r) := free cfg env p st in
  if p =? 0 then st' = st /\ r = Ok tt
  else match all_blocks st !! p with
  | None => st' = set_stats (count 0 1 0 0 0 (stats st)) st /\
      r = Err (RuntimeError "Attempted to free pointer not allocated by CachingAllocator")
  | Some b =>
      if b_allocated b then
        r = Ok tt /\ inv cfg ∅ ∅ 0 st' /\
        forall q n o, (exists c, all_blocks st' !! q = Some c /\ core c = mkCell n true o) <->
          q <> p /\ exists c, all_blocks st !! q = Some c /\ core c = mkCell n true o
      else st' = set_stats (count 0 1 0 0 0 (stats st)) st /\
        r = Err (RuntimeError "Attempted to free already freed pointer")
  end.
Proof.
  intros Hg Hr. apply allocator_inv in Hr; [|done].
  destruct (free cfg env p st) as [st' r] eqn:E. destruct (Z.eqb_spec p 0) as [->|Hp].
  { by injection E as <- <-. }
  destruct (all_blocks st !! p) as [b|] eqn:Eb.
  2: { unfold free in E. rewrite (proj2 (Z.eqb_neq _ _)) in E by done. cbn [all_blocks set_stats] in E.
       rewrite Eb in E. by injection E as <- <-. }
  destruct (b_allocated b) eqn:Ea.
  2: { unfold free in E. rewrite (proj2 (Z.eqb_neq _ _)) in E by done. cbn [all_blocks set_stats] in E.
       rewrite Eb, Ea in E. by injection E as <- <-. }
  destruct (free_inv cfg env p st (core b) Hr Hp) as (st1 & E1 & H1 & Hus & _);
    [by apply lookup_cells|done|]. rewrite E in E1. injection E1 as -> ->. split_and!; [done..|].
  intros q n o. rewrite <-!lookup_cells_iff. by apply Hus.
Qed.

Lemma free_contract_witness :
  (free defaults busy_gpu 5120 demo).2 = Err (RuntimeError "Attempted to free already freed pointer") /\
  inv defaults ∅ ∅ 0 (free defaults busy_gpu 4096 demo).1.
Proof.
  pose proof (free_contract defaults busy_gpu 5120 demo defaults_good demo_reachable) as H1.
  pose proof (free_contract defaults busy_gpu 4096 demo defaults_good demo_reachable) as H2.
  assert (all_blocks demo !! 5120 = Some (mkBlock 1024 false 1 4096 [])) as E1 by (vm_compute; reflexivity).
  assert (all_blocks demo !! 4096 = Some (mkBlock 1024 true 1 4096 [])) as E2 by (vm_compute; reflexivity).
  destruct (free defaults busy_gpu 5120 demo) as [st1 r1], (free defaults busy_gpu 4096 demo) as [st2 r2].
  rewrite E1 in H1. rewrite E2 in H2. cbn [Z.eqb b_allocated] in H1, H2. split; [apply H1|apply H2].
Defined.

(** With a cache limit set, a free that succeeds leaves at most the limit
    cached, or only free blocks that cannot be given to the driver because they
    are not at the start of their allocation or share it with another block. *)
Theorem free_enforces_cache_limit (cfg : Config) (env : Cuda) (p : Z) st st' b :
  good_config cfg -> reachable cfg st -> 0 < max_cached_memory cfg -> p <> 0 ->
  all_blocks st !! p = Some b -> b_allocated b = true -> free cfg env p st = (st', Ok tt) ->
  cached_bytes (stats st') <= max_cached_memory cfg \/
  forall q c, all_blocks st' !! q = Some c -> b_allocated c = false ->
    q <> b_orig c \/ exists q' c', q' <> q /\ all_blocks st' !! q' = Some c' /\ b_orig c' = b_orig c.
Proof.
  intros Hg Hr Hmax Hp Hb Hu E. apply allocator_inv in Hr; [|done].
  destruct (free_inv cfg env p st (core b) Hr Hp) as (st1 & E1 & H1 & _ & Hlim);
    [by apply lookup_cells|done|]. rewrite E in E1. injection E1 as <-.
  destruct (Hlim Hmax) as [|Hstuck]; [by left|]. right. intros q c Hq Hc.
  destruct (decide (q = b_orig c)) as [Ho|]; [|by left]. right.
  destruct (decide (map_Forall (fun q' c' => b_orig c' = b_orig c -> q' = q) (all_blocks st'))) as [Hall|Hex].
  - exfalso. apply (Hstuck q).
    + apply (i_free _ _ _ _ _ H1). split; [|set_solver]. exists (core c). by split; [apply lookup_cells|].
    + split; [by rewrite (lookup_cells _ _ _ Hq)|]. intros x d Hx Hd.
      apply lookup_cells_iff in Hx as (d' & Hx & <-). apply (Hall x d' Hx). cbn in Hd. congruence.
  - apply map_not_Forall in Hex as (q' & c' & Hq' & Hne); [|apply _].
    exists q', c'. destruct (decide (b_orig c' = b_orig c)); [|naive_solver].
    split_and!; [intros ->; apply Hne; done|done|done].
Qed.

Definition tight : Config :=
  {| alignment := 512; max_cached_memory := 512; merge_enabled := true; min_split_size := 512 |}.

Lemma free_enforces_cache_limit_witness :
  let st := do_calls tight [(busy_gpu, CAllocate 2048 1); (busy_gpu, CAllocate 1024 1)] empty_device in
  let st' := (free tight busy_gpu 4096 st).1 in
  cached_bytes (stats st') <= 512 \/
  forall q c, all_blocks st' !! q = Some c -> b_allocated c = false ->
    q <> b_orig c \/ exists q' c', q' <> q /\ all_blocks st' !! q' = Some c' /\ b_orig c' = b_orig c.
Proof.
  intros st st'.
  assert (good_config tight) as Hg by (split; cbn; lia).
  assert (reachable tight st) as Hr.
  { do 2 (apply (reachable_step tight busy_gpu);
      [exact busy_lawful|cbn; unfold UINT64_MAX; lia|]). apply reachable_empty. }
  assert (all_blocks st !! 4096 = Some (mkBlock 2048 true 1 4096 [])) as Hb by (vm_compute; reflexivity).
  assert ((free tight busy_gpu 4096 st).2 = Ok tt) as Hok by (vm_compute; reflexivity).
  apply (free_enforces_cache_limit tight busy_gpu 4096 st st' _ Hg Hr eq_refl ltac:(lia) Hb eq_refl).
  rewrite <-Hok. apply surjective_pairing.
Defined.

(** With merging on and nothing in use, [empty_cache] gives every block
    back: no block stays, the three byte counters are zero, and each allocation
    that had a block and whose [cudaFree] succeeds is no longer held. *)
Theorem empty_cache_returns_everything (cfg : Config) (env : Cuda) st :
  good_config cfg -> reachable cfg st -> merge_enabled cfg = true ->
  (forall p b, all_blocks st !! p = Some b -> b_allocated b = false) ->
  let st' := empty_cache env st in
  all_blocks st' = ∅ /\ free_blocks st' = ∅ /\ event_pool st' = [] /\
  allocated_bytes (stats st') = 0 /\ reserved_bytes (stats st') = 0 /\ cached_bytes (stats st') = 0 /\
  forall p b, all_blocks st !! p = Some b -> free_ok env (b_orig b) = true ->
    regions st' !! b_orig b = None.
Proof.
  intros Hg Hr Hm Hfree. apply allocator_inv in Hr; [|done].
  assert (forall q d, cells st !! q = Some d -> c_used d = false) as Hu.
  { intros q d (b & Hb & <-)%lookup_cells_iff. by apply (Hfree q b). }
  assert (forall p, p ∈ sorted_free st <-> is_Some (cells st !! p)) as Hin.
  { intros p. rewrite elem_of_sorted_free, (i_free _ _ _ _ _ Hr). split; [intros [(c & Hc & _) _]; by exists c|].
    intros [c Hc]. split; [eauto|set_solver]. }
  destruct (release_unused cfg env (sorted_free st) st Hr Hm Hu (NoDup_sorted_free st)) as (H' & _ & Hl).
  { intros p. apply Hin. }
  unfold empty_cache, release_all. cbn. set (st' := foldl _ st (sorted_free st)) in *.
  assert (cells st' = ∅) as He.
  { apply map_empty. intros p. destruct (Hl p) as [L1 L2]. destruct (decide (p ∈ sorted_free st)) as [Hp|Hp].
    - by apply L1.
    - rewrite (L2 Hp). apply eq_None_not_Some. by rewrite <-Hin. }
  destruct H'. rewrite He, total_empty in *. split_and!; try (done || lia); [| |].
  - unfold cells in He. by apply fmap_empty_inv in He.
  - apply set_eq. intros p. rewrite i_free0. split; [|set_solver].
    intros [(c & Hc & _) _]. by rewrite lookup_empty in Hc.
  - intros p b Hp Hf. pose proof (lookup_cells _ _ _ Hp) as Hc.
    destruct (unused_whole cfg st p (core b) Hr Hm Hu Hc) as [Ho _]. cbn in Ho. rewrite Ho in *.
    destruct (Hl p) as [L1 _]. apply L1; [|done]. apply Hin. eauto.
Qed.

Lemma empty_cache_returns_everything_witness :
  let st := do_call defaults busy_gpu (CFree 4096) demo in
  reserved_bytes (stats st) = 2048 /\ reserved_bytes (stats (empty_cache busy_gpu st)) = 0.
Proof.
  intros st. split; [vm_compute; reflexivity|].
  assert (reachable defaults st) as Hr.
  { exact (reachable_step defaults busy_gpu (CFree 4096) demo busy_lawful I demo_reachable). }
  assert (all_blocks st = {[4096 := mkBlock 2048 false 1 4096 [(7, 1)]]}) as Hst by (vm_compute; reflexivity).
  refine (proj1 (proj2 (proj2 (proj2 (proj2 (empty_cache_returns_everything defaults busy_gpu st
    defaults_good Hr eq_refl _)))))).
  intros p b Hp. rewrite Hst in Hp. apply lookup_singleton_Some in Hp as [_ <-]. reflexivity.
Defined.

(** Taking a block from the cache for [stream] makes [stream] wait, in
    order, for every event of the block that was recorded on another stream and
    is not complete; the block is cut exactly when what remains is at least
    [min_split_size], and the remainder carries the events waited for. *)
Theorem reused_block_is_gated (cfg : Config) (env : Cuda) size stream st p b st' :
  good_config cfg -> reachable cfg st -> 0 < size ->
  best_fit st size = Some p -> all_blocks st !! p = Some b ->
  try_allocate_from_cache cfg env size stream st = Some (p, st') ->
  let w := pending env stream (b_events b) in
  waits st' = waits st ++ map (fun e => (stream, e.1)) w /\
  all_blocks st' = if b_size b >=? size + min_split_size cfg
    then <[p := mkBlock size false stream (b_orig b) []]>
           (<[p + size := mkBlock (b_size b - size) false stream (b_orig b) w]> (all_blocks st))
    else <[p := mkBlock (b_size b) false stream (b_orig b) []]> (all_blocks st).
Proof.
  intros Hg Hr Hs Hf Hb E. apply allocator_inv in Hr; [|done].
  by apply (try_allocate_events cfg env size stream st p b st' Hr Hs (proj1 Hg)).
Qed.

Lemma reused_block_is_gated_witness :
  let st := do_calls defaults (map (pair busy_gpu) [CAllocate 2048 1; CFree 4096]) empty_device in
  let st' := (allocate defaults busy_gpu 1024 2 st).1 in waits st' = [(2, 7)].
Proof.
  intros st st'.
  assert (reachable defaults st) as Hr.
  { do 2 (apply (reachable_step defaults busy_gpu);
      [exact busy_lawful|cbn; unfold UINT64_MAX; (exact I || lia)|]). apply reachable_empty. }
  set (st0 := set_stats (count 1 0 0 0 0 (stats st)) st).
  destruct (try_allocate_from_cache defaults busy_gpu 1024 2 st) as [[p st1]|] eqn:E;
    [|vm_compute in E; discriminate E].
  assert (p = 4096) as -> by (vm_compute in E; congruence).
  assert (best_fit st 1024 = Some 4096) as Hf by (vm_compute; reflexivity).
  assert (all_blocks st !! 4096 = Some (mkBlock 2048 false 1 4096 [(7, 1)])) as Hb by (vm_compute; reflexivity).
  pose proof (proj1 (reused_block_is_gated defaults busy_gpu 1024 2 st 4096 _ st1 defaults_good Hr
    ltac:(lia) Hf Hb E)) as Hw.
  transitivity (waits st1); [|rewrite Hw; vm_compute; reflexivity].
  vm_compute in E. injection E as <-. vm_compute. reflexivity.
Defined.

(** A block freed on stream 1, taken again on stream 1 and cut: the remainder
    has lost the events of the work that stream 1 may still run on it, and goes
    to stream 2 without any wait. *)
Lemma cross_stream_reuse_unwaited :
  let st := do_calls defaults (map (pair busy_gpu)
    [CAllocate 2048 1; CFree 4096; CAllocate 1024 1; CAllocate 1024 2]) empty_device in
  all_blocks st !! 5120 = Some (mkBlock 1024 true 2 4096 []) /\ waits st = [].
Proof. split; vm_compute; reflexivity. Qed.

(** With [min_split_size] zero an exact fit is cut too: its empty remainder
    replaces the block of the allocation that follows. *)
Definition no_min_split : Config :=
  {| alignment := 512; max_cached_memory := 0; merge_enabled := true; min_split_size := 0 |}.

Lemma zero_min_split_overwrites_neighbour :
  let st := do_calls no_min_split (map (pair busy_gpu)
    [CAllocate 1024 1; CAllocate 512 1; CFree 4096; CAllocate 1024 1]) empty_device in
  all_blocks st !! 5120 = Some (mkBlock 0 false 1 4096 []) /\
  (free no_min_split busy_gpu 5120 st).2 = Err (RuntimeError "Attempted to free already freed pointer").
Proof. split; vm_compute; reflexivity. Qed.
End CudaClient.
