(* ===== verification/AutogradSort.v ===== *)
(** * The autograd engine's topological sort

    [BackwardEngine::topological_sort] of src/autograd/engine.cpp and the same
    loop over several roots in [execute_multi]: an iterative depth-first search
    with an explicit stack of frames.  It ends, and either lists every function
    reachable from the roots once, after all functions it refers to, or throws
    because a cycle is reachable. *)

From stdpp Require Import base list numbers strings gmap relations.
From S2P Require Import Prelude.

Module Sort.

(** The search's local variables: the frames (the top first), the two sets and
    the result so far. *)
Record Search := mkSearch {
  stack : list (Z * nat); visited : gset Z; recursion_stack : gset Z; sorted : list Z
}.

Definition cycle_detected : exn := AutogradException "Cycle detected in computation graph".

(** A graph: the [next_functions()] of each function, null entries included,
    and the functions there are. *)
Section Search.
Context (nexts : Z -> list (option Z)) (nodes : list Z).

(** One pass of [while (!stack.empty())]. *)
Definition search_step (s : Search) : result Search :=
  match stack s with
  | [] => Ok s
  | (node, child_idx) :: frames =>
      match nexts node !! child_idx with
      | Some None => Ok (mkSearch ((node, S child_idx) :: frames) (visited s) (recursion_stack s) (sorted s))
      | Some (Some child) =>
          let frames := (node, S child_idx) :: frames in
          if decide (child ∈ recursion_stack s) then Err cycle_detected
          else if decide (child ∈ visited s)
          then Ok (mkSearch frames (visited s) (recursion_stack s) (sorted s))
          else Ok (mkSearch ((child, O) :: frames) ({[child]} ∪ visited s)
                     ({[child]} ∪ recursion_stack s) (sorted s))
      | None =>
          Ok (mkSearch frames (visited s) (recursion_stack s ∖ {[node]}) (sorted s ++ [node]))
      end
  end.

Fixpoint search (fuel : nat) (s : Search) : result Search :=
  match stack s with
  | [] => Ok s
  | _ => match fuel with
         | O => Err Diverged
         | S fuel => let* s := search_step s in search fuel s
         end
  end.

(** Each pass passes an entry of a [next_functions()] or pops a frame. *)
Definition search_fuel : nat := sum_list_with (fun f => S (length (nexts f))) nodes.

(** The loop over the roots in [execute_multi]. *)
Definition search_root (s : Search) (root : Z) : result Search :=
  if decide (root ∈ visited s) then Ok s
  else search search_fuel (mkSearch [(root, O)] ({[root]} ∪ visited s)
                             ({[root]} ∪ recursion_stack s) (sorted s)).

Definition start : Search := mkSearch [] ∅ ∅ [].

Definition sort_roots (roots : list Z) : result (list Z) :=
  let* s := rfoldM search_root roots start in Ok (sorted s).

Definition topological_sort (root : Z) : result (list Z) :=
  let* s := search search_fuel (mkSearch [(root, O)] {[root]} {[root]} []) in Ok (sorted s).

(** ** The order it gives *)

Definition edge (f c : Z) : Prop := Some c ∈ nexts f.

(** Every function comes after the functions it refers to. *)
Definition children_first (l : list Z) : Prop :=
  forall l1 x l2 c, l = l1 ++ x :: l2 -> edge x c -> c ∈ l1.

Lemma children_first_snoc l x :
  children_first l -> (forall c, edge x c -> c ∈ l) -> children_first (l ++ [x]).
Proof.
  intros Hl Hx l1 y l2 c E He. destruct l2 as [|z l2 _] using rev_ind.
  - apply app_inj_2 in E as [<- E]; [|done]. injection E as <-. by apply Hx.
  - rewrite app_comm_cons, app_assoc in E. apply app_inj_2 in E as [E _]; [|done].
    by apply (Hl l1 y l2).
Qed.

(** Such an order has no cycle. *)
Lemma children_first_tc l l1 x l2 y :
  children_first l -> l = l1 ++ x :: l2 -> tc edge x y -> y ∈ l1.
Proof.
  intros Hl E H. revert l1 l2 E. induction H as [x y H|x y z H _ IH]; intros l1 l2 E.
  - by apply (Hl l1 x l2).
  - assert (y ∈ l1) as Hy by by apply (Hl l1 x l2).
    apply list_elem_of_split in Hy as (l3 & l4 & ->). rewrite <-app_assoc in E. cbn in E.
    apply elem_of_app. left. by apply (IH l3 (l4 ++ x :: l2)).
Qed.

Lemma children_first_acyclic l x : NoDup l -> children_first l -> x ∈ l -> ~ tc edge x x.
Proof.
  intros Hnd Hl Hx H. apply list_elem_of_split in Hx as (l1 & l2 & E).
  pose proof (children_first_tc l l1 x l2 x Hl E H) as Hin. rewrite E in Hnd.
  apply NoDup_app in Hnd as (_ & Hnd & _). by apply (Hnd x Hin); left.
Qed.

(** ** The invariant of the search *)

(** The frames are a path of the graph, the top its end. *)
Fixpoint path (l : list (Z * nat)) : Prop :=
  match l with
  | (c, _) :: l' => match l' with (p, _) :: _ => edge p c | [] => True end /\ path l'
  | [] => True
  end.

(** The children a frame has passed are done, or are the frame above. *)
Fixpoint passed (done : list Z) (above : option Z) (l : list (Z * nat)) : Prop :=
  match l with
  | [] => True
  | (f, i) :: l => (forall j c, (j < i)%nat -> nexts f !! j = Some (Some c) -> c ∈ done \/ above = Some c)
                   /\ passed done (Some f) l
  end.

Record search_inv (roots : list Z) (s : Search) : Prop := {
  s_rec x : x ∈ recursion_stack s <-> x ∈ (stack s).*1;
  s_vis x : x ∈ visited s <-> x ∈ (stack s).*1 \/ x ∈ sorted s;
  s_nodup : NoDup ((stack s).*1 ++ sorted s);
  s_path : path (stack s);
  s_passed : passed (sorted s) None (stack s);
  s_order : children_first (sorted s);
  s_reach x : x ∈ visited s -> exists r, r ∈ roots /\ rtc edge r x;
  s_nodes x : x ∈ visited s -> x ∈ nodes
}.

Lemma passed_weaken done done' above l :
  (forall x, x ∈ done -> x ∈ done') -> passed done above l -> passed done' above l.
Proof.
  intros Hd. revert above. induction l as [|[f i] l IH]; intros above; cbn; [done|].
  intros [H1 H2]. split; [|by apply IH]. intros j c Hj Hc. destruct (H1 j c Hj Hc); [left; by apply Hd|by right].
Qed.

(** The frame above has been popped. *)
Lemma passed_pop done x l : x ∈ done -> passed done (Some x) l -> passed done None l.
Proof.
  intros Hx. destruct l as [|[f i] l]; cbn; [done|]. intros [H1 H2]. split; [|done].
  intros j c Hj Hc. left. destruct (H1 j c Hj Hc) as [|[= ->]]; done.
Qed.

Lemma path_tc l c i x : path ((c, i) :: l) -> x ∈ l.*1 -> tc edge x c.
Proof.
  revert c i. induction l as [|[p j] l IH]; intros c i [He Hl]; cbn; [by intros ?%not_elem_of_nil|].
  intros [->|Hx]%elem_of_cons; [by apply tc_once|]. eapply tc_r; [|exact He]. by apply (IH p j).
Qed.

Hypothesis closed : forall f c, f ∈ nodes -> edge f c -> c ∈ nodes.
Hypothesis distinct : NoDup nodes.

(** What is left to do: the entries of unvisited functions and of the frames. *)
Definition potential (s : Search) : nat :=
  sum_list_with (fun f => S (length (nexts f))) (filter (fun f => f ∉ visited s) nodes) +
  sum_list_with (fun fi => S (length (nexts fi.1) - fi.2)) (stack s).

Lemma visit_other c (V : gset Z) (l : list Z) :
  c ∉ l -> filter (fun f => f ∉ {[c]} ∪ V) l = filter (fun f => f ∉ V) l.
Proof.
  induction l as [|x l IH]; intros Hc; [done|]. apply not_elem_of_cons in Hc as [Hne Hc].
  rewrite !filter_cons, (IH Hc). destruct (decide (x ∉ V)).
  - by rewrite decide_True by set_solver.
  - by rewrite decide_False by set_solver.
Qed.

Lemma sum_visit (g : Z -> nat) c (V : gset Z) (l : list Z) :
  NoDup l -> c ∈ l -> c ∉ V ->
  (sum_list_with g (filter (fun f => f ∉ {[c]} ∪ V) l) + g c = sum_list_with g (filter (fun f => f ∉ V) l))%nat.
Proof.
  induction l as [|x l IH]; intros Hnd Hc HV; [by apply not_elem_of_nil in Hc|].
  apply NoDup_cons in Hnd as [Hx Hnd]. rewrite !filter_cons. destruct (decide (x = c)) as [->|Hne].
  - rewrite (decide_False (P := c ∉ {[c]} ∪ V)) by set_solver. rewrite decide_True by done. cbn.
    rewrite (visit_other c V l Hx). lia.
  - apply elem_of_cons in Hc as [->|Hc]; [done|]. specialize (IH Hnd Hc HV).
    destruct (decide (x ∉ V)); [rewrite decide_True by set_solver|rewrite decide_False by set_solver]; cbn; lia.
Qed.

(** Every pass keeps the invariant and lowers the potential by one, or shows a
    cycle. *)
Lemma search_step_inv roots s :
  search_inv roots s -> stack s <> [] ->
  match search_step s with
  | Ok s' => search_inv roots s' /\ S (potential s') = potential s /\ visited s ⊆ visited s'
  | Err e => e = cycle_detected /\ exists r x, r ∈ roots /\ rtc edge r x /\ tc edge x x
  end.
Proof.
  intros [Hrec Hvis Hnd Hpath Hpass Hord Hreach Hin] Hne. unfold search_step.
  destruct s as [[|[node i] frames] V R L]; [done|]. clear Hne. cbn in *.
  destruct Hpass as [Hdone Hpass].
  assert (node ∈ V) as HnV by (apply Hvis; left; left).
  destruct (nexts node !! i) as [[child|]|] eqn:Ei.
  - assert (i < length (nexts node))%nat as Hlt by (apply lookup_lt_is_Some; eauto).
    assert (edge node child) as He by (by eapply list_elem_of_lookup_2).
    destruct (decide (child ∈ R)) as [HR|HR].
    { split; [done|]. destruct (Hreach node HnV) as (r & Hr & Hrn). exists r, node. split_and!; [done|done|].
      apply Hrec in HR. apply elem_of_cons in HR as [->|HR]; [by apply tc_once|].
      eapply tc_l; [exact He|]. by apply (path_tc frames node i child). }
    assert (passed L None ((node, S i) :: frames) \/ child ∉ V) as Hcase.
    { destruct (decide (child ∈ V)) as [HV|HV]; [left|by right]. split; [|done]. intros j c Hj Hc.
      destruct (decide (j = i)) as [->|Hji]; [|apply (Hdone j c); [lia|done]].
      rewrite Ei in Hc. injection Hc as <-. left. apply Hvis in HV as [HV|HV]; [|done].
      exfalso. by apply HR, Hrec. }
    destruct (decide (child ∈ V)) as [HV|HV].
    + destruct Hcase as [Hcase|]; [|done]. split; [by split|]. split; [unfold potential; cbn; lia|cbn; set_solver].
    + assert (child ∉ node :: frames.*1) as Hcf by (intros Hx; apply HV, Hvis; by left).
      assert (child ∉ L) as HcL by (intros Hx; apply HV, Hvis; by right).
      assert (child ∈ nodes) as Hcn by (by apply (closed node); [apply Hin|]).
      split; [split; cbn|split; [|cbn; set_solver]].
      * intros x. by rewrite elem_of_union, elem_of_singleton, Hrec, (elem_of_cons _ x child).
      * intros x. rewrite elem_of_union, elem_of_singleton, Hvis, (elem_of_cons _ x child). tauto.
      * constructor; [|done]. rewrite elem_of_cons, elem_of_app. set_solver.
      * done.
      * split; [lia|]. split; [|done]. intros j c Hj Hc.
        destruct (decide (j = i)) as [->|Hji]; [right; congruence|].
        destruct (Hdone j c ltac:(lia) Hc); [by left|done].
      * done.
      * intros x [->%elem_of_singleton|Hx]%elem_of_union; [|by apply Hreach].
        destruct (Hreach node HnV) as (r & Hr & Hrn). exists r. split; [done|]. by eapply rtc_r.
      * intros x [->%elem_of_singleton|Hx]%elem_of_union; [done|by apply Hin].
      * unfold potential. cbn.
        pose proof (sum_visit (fun f => S (length (nexts f))) child V nodes distinct Hcn HV) as Hsum.
        cbn in Hsum |- *. lia.
  - assert (i < length (nexts node))%nat as Hlt by (apply lookup_lt_is_Some; eauto).
    split; [|split; [unfold potential; cbn; lia|cbn; set_solver]]. split; cbn; try done. split; [|done]. intros j c Hj Hc.
    destruct (decide (j = i)) as [->|Hji]; [congruence|]. apply (Hdone j c); [lia|done].
  - apply lookup_ge_None in Ei.
    assert (forall c, edge node c -> c ∈ L) as Hch.
    { intros c Hc. apply list_elem_of_lookup in Hc as [j Hj].
      assert (j < length (nexts node))%nat by (apply lookup_lt_is_Some; eauto).
      destruct (Hdone j c ltac:(lia) Hj); [done|done]. }
    apply NoDup_cons in Hnd as [Hnn Hnd]. apply NoDup_app in Hnd as (Hnd1 & Hnd2 & Hnd3).
    split; [split; cbn|split; [|cbn; set_solver]].
    * intros x. rewrite elem_of_difference, elem_of_singleton, Hrec, elem_of_cons.
      split; [naive_solver|]. intros Hx. split; [by right|]. intros ->. apply Hnn, elem_of_app. by left.
    * intros x. rewrite Hvis, elem_of_cons, elem_of_app, list_elem_of_singleton. tauto.
    * apply NoDup_app. split_and!; [done| |].
      -- intros x Hx [HxL| ->%list_elem_of_singleton]%elem_of_app; [by apply (Hnd2 x)|].
         apply Hnn, elem_of_app. by left.
      -- apply NoDup_app. split_and!; [done| |apply NoDup_singleton]. intros x Hx ->%list_elem_of_singleton.
         apply Hnn, elem_of_app. by right.
    * apply Hpath.
    * apply (passed_pop _ node); [set_solver|]. eapply passed_weaken; [|exact Hpass]. set_solver.
    * by apply children_first_snoc.
    * done.
    * done.
    * unfold potential. cbn. lia.
Qed.

Lemma search_total roots fuel s :
  search_inv roots s -> (potential s <= fuel)%nat ->
  match search fuel s with
  | Ok s' => search_inv roots s' /\ stack s' = [] /\ visited s ⊆ visited s'
  | Err e => e = cycle_detected /\ exists r x, r ∈ roots /\ rtc edge r x /\ tc edge x x
  end.
Proof.
  revert s. induction fuel as [|fuel IH]; intros s H Hf; cbn [search].
  - destruct s as [[|[f i] l] V R L]; [done|]. unfold potential in Hf. cbn in Hf. lia.
  - destruct (stack s) as [|fr l] eqn:Es; [done|].
    pose proof (search_step_inv roots s H ltac:(by rewrite Es)) as Hstep.
    destruct (search_step s) as [s1|e]; [|done]. destruct Hstep as (H1 & Hp & Hv).
    specialize (IH s1 H1 ltac:(lia)). cbn [rbind]. destruct (search fuel s1); [|done].
    destruct IH as (? & ? & ?). split_and!; [done|done|set_solver].
Qed.

Lemma potential_le s f :
  stack s = [(f, O)] -> f ∈ nodes -> f ∉ visited s ∖ {[f]} -> f ∈ visited s ->
  (potential s <= search_fuel)%nat.
Proof.
  intros Es Hf _ Hv. unfold potential, search_fuel. rewrite Es. cbn.
  assert (forall l, NoDup l -> f ∈ l ->
    (sum_list_with (fun g => S (length (nexts g))) (filter (fun g => g ∉ visited s) l) + S (length (nexts f))
     <= sum_list_with (fun g => S (length (nexts g))) l)%nat) as H.
  { induction l as [|x l IH]; intros Hnd Hin; [by apply not_elem_of_nil in Hin|].
    apply NoDup_cons in Hnd as [Hx Hnd]. rewrite filter_cons. cbn.
    assert (sum_list_with (fun g => S (length (nexts g))) (filter (fun g => g ∉ visited s) l)
            <= sum_list_with (fun g => S (length (nexts g))) l)%nat as Hle.
    { clear. induction l as [|y l IH]; [done|]. rewrite filter_cons. destruct (decide _); cbn; lia. }
    destruct (decide (x = f)) as [->|Hne].
    - rewrite decide_False by (by intros Hn). lia.
    - apply elem_of_cons in Hin as [->|Hin]; [done|]. specialize (IH Hnd Hin).
      destruct (decide _); cbn; lia. }
  pose proof (H nodes distinct Hf). lia.
Qed.

(** A root pushed on an empty stack. *)
Lemma search_push_inv roots s r :
  search_inv roots s -> stack s = [] -> r ∈ nodes -> r ∈ roots -> r ∉ visited s ->
  search_inv roots (mkSearch [(r, O)] ({[r]} ∪ visited s) ({[r]} ∪ recursion_stack s) (sorted s)).
Proof.
  intros [Hrec Hvis Hnd Hpath Hpass Hord Hreach Hin] Es Hr Hrr HrV. rewrite Es in *. cbn in *.
  split; cbn.
  - intros x. rewrite elem_of_union, elem_of_singleton, Hrec, elem_of_cons. done.
  - intros x. rewrite elem_of_union, elem_of_singleton, Hvis, elem_of_cons. tauto.
  - constructor; [|done]. intros Hx. apply HrV, Hvis. by right.
  - done.
  - split; [lia|done].
  - done.
  - intros x [->%elem_of_singleton|Hx]%elem_of_union; [exists r; split; [done|apply rtc_refl]|by apply Hreach].
  - intros x [->%elem_of_singleton|Hx]%elem_of_union; [done|by apply Hin].
Qed.

Lemma search_inv_roots roots roots' s :
  (forall r, r ∈ roots -> r ∈ roots') -> search_inv roots s -> search_inv roots' s.
Proof.
  intros Hr []. split; try done. intros x Hx. destruct (s_reach0 x Hx) as (r & ? & ?). eauto.
Qed.

Lemma search_start_inv roots : search_inv roots start.
Proof.
  split; cbn; try done; try (intros x; set_solver); try apply NoDup_nil_2.
  intros l1 x l2 c E. by destruct l1.
Qed.

(** A finished search. *)
Lemma search_done roots s :
  search_inv roots s -> stack s = [] -> (forall r, r ∈ roots -> r ∈ visited s) ->
  NoDup (sorted s) /\ children_first (sorted s) /\
  forall x, x ∈ sorted s <-> exists r, r ∈ roots /\ rtc edge r x.
Proof.
  intros [Hrec Hvis Hnd Hpath Hpass Hord Hreach Hin] Es Hr. rewrite Es in *. cbn in *.
  split_and!; [done..|]. intros x. split; [intros Hx; apply Hreach, Hvis; by right|].
  intros (r & Hrr & Hx). apply Hr, Hvis in Hrr as [Hrr|Hrr]; [by apply not_elem_of_nil in Hrr|].
  induction Hx as [|x y z He Hx IH]; [done|]. apply IH.
  apply list_elem_of_split in Hrr as (l1 & l2 & E). rewrite E. apply elem_of_app. left. by apply (Hord l1 x l2).
Qed.

(** What a sort of [roots] may return: the reachable functions, each once and
    after its children, or the exception, when a cycle is reachable. *)
Definition sorts (roots : list Z) (r : result (list Z)) : Prop :=
  match r with
  | Ok l => NoDup l /\ children_first l /\ forall x, x ∈ l <-> exists r, r ∈ roots /\ rtc edge r x
  | Err e => e = cycle_detected /\ exists r x, r ∈ roots /\ rtc edge r x /\ tc edge x x
  end.

Lemma sort_roots_sorts roots :
  (forall r, r ∈ roots -> r ∈ nodes) -> sorts roots (sort_roots roots).
Proof.
  intros Hn. unfold sort_roots.
  assert (forall todo s, search_inv roots s -> stack s = [] -> (forall r, r ∈ todo -> r ∈ roots) ->
    match rfoldM search_root todo s with
    | Ok s' => search_inv roots s' /\ stack s' = [] /\ visited s ⊆ visited s' /\
        forall r, r ∈ todo -> r ∈ visited s'
    | Err e => e = cycle_detected /\ exists r x, r ∈ roots /\ rtc edge r x /\ tc edge x x
    end) as H.
  { induction todo as [|r todo IH]; intros s H Es Ht; cbn [rfoldM].
    { split_and!; [done..|]. intros r Hr. by apply not_elem_of_nil in Hr. }
    unfold search_root at 1. destruct (decide (r ∈ visited s)) as [Hv|Hv]; cbn [rbind].
    - specialize (IH s H Es ltac:(set_solver)). destruct (rfoldM _ todo s); [|done].
      destruct IH as (? & ? & ? & ?). split_and!; [done..|]. set_solver.
    - assert (r ∈ roots) as Hr by (apply Ht; by left).
      pose proof (search_push_inv roots s r H Es (Hn r Hr) Hr Hv) as H1.
      set (s1 := mkSearch _ _ _ _) in H1 |- *.
      pose proof (search_total roots search_fuel s1 H1) as Hs.
      specialize (Hs ltac:(apply (potential_le s1 r); [done|by apply Hn|subst s1; cbn; set_solver..])).
      destruct (search search_fuel s1) as [s2|e]; [|done]. destruct Hs as (H2 & Es2 & Hv2). cbn [rbind].
      specialize (IH s2 H2 Es2 ltac:(set_solver)). destruct (rfoldM _ todo s2); [|done].
      destruct IH as (? & ? & Hv3 & ?). subst s1. cbn in Hv2. split_and!; [done..|set_solver|].
      intros x [->|Hx]%elem_of_cons; set_solver. }
  specialize (H roots start (search_start_inv roots) eq_refl ltac:(done)).
  destruct (rfoldM search_root roots start) as [s|e]; [|done]. destruct H as (H & Es & _ & Hr).
  by apply search_done.
Qed.

Lemma topological_sort_roots r : topological_sort r = sort_roots [r].
Proof using Type.
  unfold topological_sort, sort_roots. cbn [rfoldM]. unfold search_root.
  rewrite decide_False by apply not_elem_of_empty. unfold start. cbn [visited recursion_stack sorted].
  rewrite !union_empty_r_L. by destruct (search _ _).
Qed.
End Search.
End Sort.
