(* ===== verification/AutogradEngine.v ===== *)
(** * The autograd engine

    src/autograd/engine.cpp ([BackwardEngine]), with the parts of [Function]
    (src/autograd/function_base.cpp) and [Variable] (src/autograd/variable.cpp)
    it works on.  Function objects and variable implementations are shared by
    handles, so both live in a heap and are named by their address.  The
    tensors, the [backward] of each function, the check of its saved tensors
    and the anomaly check are parameters; hooks are functions on tensors.  The
    passes with [create_graph] are not modelled. *)

From stdpp Require Import base list numbers strings gmap relations.
From S2P Require Import Prelude MapSums DType AutogradSort.

Module Autograd.
Export Sums Sort.

Class Tensor (T : Type) := {
  dtype : T -> DType; shape : T -> list Z; device : T -> Z; is_valid : T -> bool;
  to : T -> DType -> T; add : T -> T -> T; ones_like : T -> T
}.

(** [Function]: [f_saved] tells whether the state saved by the forward pass is
    still there; null handles are [None]. *)
Record FunctionNode := mkFunction {
  next_functions : list (option Z); input_variables : list (option Z);
  parent_count : Z; f_saved : bool
}.

Section Engine.
Context {T : Type} `{!Tensor T}.

Record VariableImpl := mkVariable {
  data_ : T; requires_grad_ : bool; retain_grad_ : bool; preserve_grad_dtype_ : bool;
  hooks_ : list (T -> T); grad_fn_ : option Z; grad_ : option T
}.

(** The heap, the engine's accumulators by function, and [touched_leaves], a
    local variable of the passes. *)
Record Engine := mkEngine {
  functions : gmap Z FunctionNode; variables : gmap Z VariableImpl;
  grad_accumulators : gmap Z (list T); touched_leaves : gset Z
}.

(** What the code outside the engine does: [Function::backward] (its saved state
    is that of the node), [validate_saved_tensors] and [check_for_anomaly]. *)
Class Backward := {
  backward : Z -> FunctionNode -> list T -> result (list T);
  validate_saved_tensors : Z -> FunctionNode -> result unit;
  check_for_anomaly : Z -> list T -> result unit
}.

Definition set_functions (m : gmap Z FunctionNode) (st : Engine) : Engine :=
  mkEngine m (variables st) (grad_accumulators st) (touched_leaves st).
Definition set_variables (m : gmap Z VariableImpl) (st : Engine) : Engine :=
  mkEngine (functions st) m (grad_accumulators st) (touched_leaves st).
Definition set_accumulators (m : gmap Z (list T)) (st : Engine) : Engine :=
  mkEngine (functions st) (variables st) m (touched_leaves st).
Definition set_touched (s : gset Z) (st : Engine) : Engine :=
  mkEngine (functions st) (variables st) (grad_accumulators st) s.

Definition set_grad (g : option T) (v : VariableImpl) : VariableImpl :=
  mkVariable (data_ v) (requires_grad_ v) (retain_grad_ v) (preserve_grad_dtype_ v) (hooks_ v)
    (grad_fn_ v) g.
Definition set_grad_fn (f : option Z) (v : VariableImpl) : VariableImpl :=
  mkVariable (data_ v) (requires_grad_ v) (retain_grad_ v) (preserve_grad_dtype_ v) (hooks_ v)
    f (grad_ v).

Definition is_leaf (v : VariableImpl) : bool := bool_decide (grad_fn_ v = None).

Definition numel (t : T) : Z := prodZ (shape t).
Definition is_floating_point (t : T) : bool := is_floating_type (dtype t).
Definition is_complex (t : T) : bool := is_complex_type (dtype t).

(** ** Function handles *)

Definition nexts_of (fns : gmap Z FunctionNode) (f : Z) : list (option Z) :=
  match fns !! f with Some n => next_functions n | None => [] end.

Definition add_parents (d : Z) (n : FunctionNode) : FunctionNode :=
  mkFunction (next_functions n) (input_variables n) (parent_count n + d) (f_saved n).

Definition adjust_parents (d : Z) (children : list (option Z)) (fns : gmap Z FunctionNode)
    : gmap Z FunctionNode :=
  foldl (fun fns oc => match oc with Some c => alter (add_parents d) c fns | None => fns end)
    fns children.

(** [Function::set_next_functions] *)
Definition set_next_functions (f : Z) (funcs : list (option Z)) (fns : gmap Z FunctionNode)
    : gmap Z FunctionNode :=
  let fns := adjust_parents (-1) (nexts_of fns f) fns in
  let fns := adjust_parents 1 funcs fns in
  alter (fun n => mkFunction funcs (input_variables n) (parent_count n) (f_saved n)) f fns.

Definition clear_inputs (n : FunctionNode) : FunctionNode :=
  mkFunction (next_functions n) [] (parent_count n) (f_saved n).

(** [release_saved_tensors], [clear_saved_variables], [release_op_specific_state] *)
Definition release (n : FunctionNode) : FunctionNode :=
  mkFunction (next_functions n) (input_variables n) (parent_count n) false.

Definition sort_functions (fns : gmap Z FunctionNode) (roots : list Z) : result (list Z) :=
  sort_roots (nexts_of fns) (elements (dom fns)) roots.

(** [compute_unshared_functions]: the functions of the walk whose parents are
    all in it. *)
Definition local_in_degree (fns : gmap Z FunctionNode) (sorted : list Z) (f : Z) : Z :=
  sumZ_with (fun g => Z.of_nat (length (filter (fun oc => oc = Some f) (nexts_of fns g)))) sorted.

Definition compute_unshared_functions (fns : gmap Z FunctionNode) (sorted : list Z) : gset Z :=
  list_to_set (filter (fun f => local_in_degree fns sorted f =
    match fns !! f with Some n => parent_count n | None => 0 end) sorted).

(** ** Gradients *)

(** [x.dtype() == d ? x : x.to(d)] *)
Definition cast (d : DType) (t : T) : T := if dtype_eqb (dtype t) d then t else to t d.

(** [Variable::accumulate_grad] and the engine's [accumulate_unlocked]. *)
Definition accumulate (existing : option T) (g : T) : T :=
  match existing with
  | None => g
  | Some e => let target := promote_types (dtype e) (dtype g) in add (cast target e) (cast target g)
  end.

(** The sum of a function's accumulated gradients, in their promoted dtype. *)
Definition sum_grads (g : T) (gs : list T) : T :=
  let target := foldl (fun d g => promote_types d (dtype g)) (dtype g) gs in
  foldl (fun acc g => add acc (cast target g)) (cast target g) gs.

Definition accumulate_grad (f : Z) (g : T) (st : Engine) : Engine :=
  set_accumulators (<[f := default [] (grad_accumulators st !! f) ++ [g]]> (grad_accumulators st)) st.

Definition shape_mismatch : exn := AutogradException "gradient for input has shape [], expected []".
Definition non_float_grad : exn := RuntimeError "Backward function returned non-floating-point gradient".

(** The dtype check of the gradients that [backward] returned. *)
Definition check_dtypes (grads : list T) : result unit :=
  throw_if (existsb (fun g => is_valid g && (numel g >? 0) && negb (is_floating_point g)
                              && negb (is_complex g)) grads) non_float_grad.

Definition apply_hooks (hooks : list (T -> T)) (g : T) : T := foldl (fun g h => h g) g hooks.

(** [synthesize_or_validate_root_grad] *)
Definition root_grad (root : VariableImpl) (user_grad : option T) : result T :=
  match user_grad with
  | None =>
      if negb (numel (data_ root) =? 1)
      then Err (AutogradException "grad can be implicitly created only for scalar outputs")
      else Ok (ones_like (data_ root))
  | Some g =>
      let* _ := throw_if (negb (bool_decide (shape g = shape (data_ root))))
                  (AutogradException "User-supplied gradient shape mismatch") in
      let* _ := throw_if (negb (dtype_eqb (dtype g) (dtype (data_ root))) ||
                          negb (device g =? device (data_ root)))
                  (AutogradException "Mismatched grad dtype/device") in
      let* _ := throw_if (negb (is_floating_point g) && negb (is_complex g))
                  (AutogradException "User-supplied gradient must be floating-point or complex") in
      Ok g
  end.

(** ** One function of the pass *)

Definition update_variable (x : Z) (u : VariableImpl -> VariableImpl) (st : Engine) : Engine :=
  set_variables (alter u x (variables st)) st.

(** One input variable: the gradient with the hooks applied, and the state with
    that of a leaf accumulated. *)
Definition accumulate_input (x : option Z) (g : T) (st : Engine) : T * Engine * result unit :=
  match x ≫= fun x => v ← variables st !! x; Some (x, v) with
  | Some (x, v) =>
      if negb (requires_grad_ v) then (g, st, Ok tt)
      else if negb (bool_decide (shape g = shape (data_ v))) then (g, st, Err shape_mismatch)
      else
        let g := apply_hooks (hooks_ v) g in
        if is_leaf v || retain_grad_ v
        then (g, set_touched ({[x]} ∪ touched_leaves st)
                   (update_variable x (set_grad (Some (accumulate (grad_ v) g))) st), Ok tt)
        else (g, st, Ok tt)
  | None => (g, st, Ok tt)
  end.

(** The loop over the input variables; it stops at a gradient of the wrong
    shape. *)
Fixpoint accumulate_inputs (inputs : list (option Z)) (grads : list T) (st : Engine)
    : Engine * result (list T) :=
  match inputs, grads with
  | x :: inputs, g :: grads =>
      match accumulate_input x g st with
      | (_, st, Err e) => (st, Err e)
      | (g, st, Ok _) => let '(st, r) := accumulate_inputs inputs grads st in (st, rmap (cons g) r)
      end
  | _, _ => (st, Ok grads)
  end.

(** The loop over [next_functions]. *)
Fixpoint propagate (nexts : list (option Z)) (grads : list T) (st : Engine) : Engine :=
  match nexts, grads with
  | oc :: nexts, g :: grads =>
      propagate nexts grads (match oc with Some c => accumulate_grad c g st | None => st end)
  | _, _ => st
  end.

Definition release_function (retain_graph : bool) (unshared : gset Z) (f : Z) (st : Engine) : Engine :=
  if negb retain_graph && bool_decide (f ∈ unshared)
  then set_functions (alter release f (functions st)) st else st.

Context `{!Backward}.

(** Whether the incoming gradient is checked for anomalies before or after the
    saved tensors: [execute_multi] and [execute] differ. *)
Definition check_before (multi : bool) (f : Z) (n : FunctionNode) (grads : list T) : result unit :=
  if multi
  then let* _ := check_for_anomaly f grads in validate_saved_tensors f n
  else let* _ := validate_saved_tensors f n in check_for_anomaly f grads.

(** What [backward] returns for the sum of the accumulated gradients. *)
Definition input_grads (multi : bool) (f : Z) (n : FunctionNode) (total : T) : result (list T) :=
  let* _ := check_before multi f n [total] in
  let* grads := backward f n [total] in
  let* _ := check_for_anomaly f grads in
  let* _ := check_dtypes grads in
  Ok grads.

(** The body of the loop over the sorted functions. *)
Definition process (multi retain_graph : bool) (unshared : gset Z) (f : Z) (st : Engine)
    : Engine * result unit :=
  match functions st !! f with
  | None => (st, Ok tt)
  | Some n =>
      match default [] (grad_accumulators st !! f) with
      | [] => (release_function retain_graph unshared f st, Ok tt)
      | g :: gs =>
          match input_grads multi f n (sum_grads g gs) with
          | Err e => (st, Err e)
          | Ok grads =>
              match accumulate_inputs (input_variables n) grads st with
              | (st, Err e) => (st, Err e)
              | (st, Ok grads) =>
                  (release_function retain_graph unshared f (propagate (next_functions n) grads st), Ok tt)
              end
          end
      end
  end.

Fixpoint process_all (multi retain_graph : bool) (unshared : gset Z) (order : list Z) (st : Engine)
    : Engine * result unit :=
  match order with
  | [] => (st, Ok tt)
  | f :: order =>
      match process multi retain_graph unshared f st with
      | (st, Ok _) => process_all multi retain_graph unshared order st
      | (st, Err e) => (st, Err e)
      end
  end.

(** ** The end of a pass *)

(** The final cast of a gradient to the dtype of its variable. *)
Definition finalize (v : VariableImpl) : VariableImpl :=
  match grad_ v with
  | Some g => if negb (dtype_eqb (dtype g) (dtype (data_ v))) && negb (preserve_grad_dtype_ v)
              then set_grad (Some (to g (dtype (data_ v)))) v else v
  | None => v
  end.

Definition finalize_leaves (st : Engine) : Engine :=
  set_variables (map_imap (fun x v => Some (if decide (x ∈ touched_leaves st) then finalize v else v))
                   (variables st)) st.

Definition finalize_root (root : Z) (st : Engine) : Engine :=
  update_variable root
    (fun v => if requires_grad_ v && (is_leaf v || retain_grad_ v) then finalize v else v) st.

(** [if (var.grad_fn() && !var.is_leaf()) var.set_grad_fn(nullptr);] *)
Definition drop_grad_fn (x : option Z) (st : Engine) : Engine :=
  match x with
  | Some x => update_variable x (fun v => if is_leaf v then v else set_grad_fn None v) st
  | None => st
  end.

Definition cleanup_function (unshared : gset Z) (st : Engine) (f : Z) : Engine :=
  if decide (f ∈ unshared) then
    let inputs := match functions st !! f with Some n => input_variables n | None => [] end in
    let st := foldl (fun st x => drop_grad_fn x st) st inputs in
    set_functions (set_next_functions f [] (alter clear_inputs f (functions st))) st
  else st.

(** [cleanup_graph] *)
Definition cleanup_graph (retain_graph : bool) (unshared : gset Z) (sorted : list Z)
    (roots : list (option Z)) (st : Engine) : Engine :=
  if retain_graph then st
  else foldl (fun st x => drop_grad_fn x st) (foldl (cleanup_function unshared) st sorted) roots.

(** The guards that give the caller's accumulators back, and the end of the
    pass's local variable. *)
Definition restore (old st : Engine) : Engine :=
  set_accumulators (grad_accumulators old) (set_touched (touched_leaves old) st).

Definition clear_gradients (st : Engine) : Engine := set_accumulators ∅ st.

(** ** The passes *)

Definition accumulate_root (root : Z) (seed : T) (st : Engine) : Engine :=
  update_variable root (fun v => set_grad (Some (accumulate (grad_ v) seed)) v) st.

Definition execute (root : Z) (gradient : option T) (retain_graph : bool) (st : Engine)
    : Engine * result unit :=
  match variables st !! root with
  | None => (st, Ok tt)
  | Some v =>
      if negb (requires_grad_ v) then (st, Ok tt)
      else match root_grad v gradient with
      | Err e => (st, Err e)
      | Ok seed =>
          let st := if is_leaf v || retain_grad_ v then accumulate_root root seed st else st in
          match grad_fn_ v with
          | None => (st, Ok tt)
          | Some f =>
              let saved := st in
              let st := set_touched ∅ (clear_gradients st) in
              match topological_sort (nexts_of (functions st)) (elements (dom (functions st))) f with
              | Err e => (restore saved st, Err e)
              | Ok sorted =>
                  let unshared := compute_unshared_functions (functions st) sorted in
                  let st := accumulate_grad f seed st in
                  let '(st, r) := process_all false retain_graph unshared (reverse sorted) st in
                  let st := match r with
                            | Ok _ => finalize_root root (finalize_leaves st)
                            | Err _ => st
                            end in
                  (restore saved
                     (cleanup_graph retain_graph unshared sorted [Some root] (clear_gradients st)), r)
              end
          end
      end
  end.

(** The seeds of the roots that require a gradient, those of a repeated root
    added up, in the order of first occurrence. *)
Fixpoint add_seed (x : Z) (g : T) (seeds : list (Z * T)) : list (Z * T) :=
  match seeds with
  | [] => [(x, g)]
  | (y, h) :: seeds => if y =? x then (y, add h g) :: seeds else (y, h) :: add_seed x g seeds
  end.

Definition root_seeds (st : Engine) (roots : list (option Z * T)) : result (list (Z * T)) :=
  rfoldM (fun seeds '(x, g) =>
    match x ≫= fun x => v ← variables st !! x; Some (x, v) with
    | Some (x, v) => if negb (requires_grad_ v) then Ok seeds
                     else let* seed := root_grad v (Some g) in Ok (add_seed x seed seeds)
    | None => Ok seeds
    end) roots [].

Definition grad_fn_of (st : Engine) (x : Z) : option Z := variables st !! x ≫= grad_fn_.

Definition execute_multi (roots : list (option Z)) (gradients : list T) (retain_graph : bool)
    (st : Engine) : Engine * result unit :=
  match roots with
  | [] => (st, Ok tt)
  | _ =>
      if negb (length roots =? length gradients)%nat
      then (st, Err (AutogradException "execute_multi: number of roots must match number of gradients"))
      else
        let saved := st in
        let st := set_touched ∅ (clear_gradients st) in
        match root_seeds st (zip roots gradients) with
        | Err e => (restore saved st, Err e)
        | Ok seeds =>
            let st := foldl (fun st '(x, g) =>
              match variables st !! x with
              | Some v => if is_leaf v || retain_grad_ v then accumulate_root x g st else st
              | None => st
              end) st seeds in
            match sort_functions (functions st)
                    (omap (fun x => x ≫= grad_fn_of st) roots) with
            | Err e => (restore saved st, Err e)
            | Ok sorted =>
                let unshared := compute_unshared_functions (functions st) sorted in
                let st := foldl (fun st '(x, g) =>
                  match grad_fn_of st x with Some f => accumulate_grad f g st | None => st end) st seeds in
                let '(st, r) := process_all true retain_graph unshared (reverse sorted) st in
                let st := match r with
                          | Ok _ => foldl (fun st x => match x with Some x => finalize_root x st | None => st end)
                                      (finalize_leaves st) roots
                          | Err _ => st
                          end in
                (restore saved (cleanup_graph retain_graph unshared sorted roots (clear_gradients st)), r)
            end
        end
  end.
End Engine.
Arguments Engine T : clear implicits.
Arguments VariableImpl T : clear implicits.
Arguments Backward T : clear implicits.

(** ** Concrete graphs *)

(** Scalars with a dtype, on one device. *)
Definition scalars : Tensor (DType * Z) :=
  {| dtype := fst; shape _ := []; device _ := 0; is_valid _ := true;
     to t d := (d, t.2); add a b := (a.1, a.2 + b.2); ones_like t := (t.1, 1) |}.

(** A function whose backward multiplies by fixed factors (its saved state). *)
Definition factors (table : gmap Z (list Z)) : Backward (DType * Z) :=
  {| backward f n grads :=
       if f_saved n
       then Ok (map (fun k => match grads with (d, g) :: _ => (d, k * g) | [] => (Float32, 0) end)
                  (default [] (table !! f)))
       else Err (RuntimeError "backward() expected saved tensors but got 0");
     validate_saved_tensors _ _ := Ok tt; check_for_anomaly _ _ := Ok tt |}.

Definition leaf (d : Z) : VariableImpl (DType * Z) :=
  mkVariable (Float32, d) true false false [] None None.
Definition node (d f : Z) : VariableImpl (DType * Z) :=
  mkVariable (Float32, d) true false false [] (Some f) None.

(** [x = 3; y = x * x; z = 5 * y; a = z; b = z]: the variables 1 to 5, the
    functions 12 to 15. *)
Definition two_losses : Engine (DType * Z) :=
  mkEngine
    (list_to_map [(12, mkFunction [None; None] [Some 1; Some 1] 1 true);
                  (13, mkFunction [Some 12] [Some 2] 2 true);
                  (14, mkFunction [Some 13] [Some 3] 0 true);
                  (15, mkFunction [Some 13] [Some 3] 0 true)])
    (list_to_map [(1, leaf 3); (2, node 9 12); (3, node 45 13); (4, node 45 14); (5, node 45 15)])
    ∅ ∅.
Definition two_losses_factors : Backward (DType * Z) :=
  factors (list_to_map [(12, [3; 3]); (13, [5]); (14, [1]); (15, [1])]).
End Autograd.
