(* ===== verification/AutogradAdjoint.v ===== *)
(** * The autograd engine computes the adjoints

    A pass is specified by a system of equations: what a function receives is
    the seed (at the root) and, for every edge into it, the gradient that the
    edge's source returned for it; what it returns is its [backward] on the sum
    of these, with the hooks of its inputs applied; what a leaf gains is the sum
    of what its uses returned for it.  On an acyclic graph the system has one
    solution, and [execute] computes it: in the order of the sort every
    gradient has arrived before the function that needs it is run. *)

From stdpp Require Import base list numbers strings gmap relations.
From S2P Require Import Prelude MapSums DType AutogradSort AutogradEngine.

Module Adjoint.
Import Autograd.

Section Adjoint.
Context {T : Type} `{!Tensor T} `{!Backward T}.
Implicit Types (st : Engine T) (v : VariableImpl T) (vars : gmap Z (VariableImpl T)).

(** ** The equations *)

(** The gradients that go to [c] along the edges (or inputs) [handles]. *)
Definition sends (handles : list (option Z)) (grads : list T) (c : Z) : list T :=
  (filter (fun p => p.1 = Some c) (zip handles grads)).*2.

#[local] Arguments sends : simpl never.

(** The gradients for the inputs after the hooks. *)
Fixpoint hooked vars (inputs : list (option Z)) (grads : list T) : list T :=
  match inputs, grads with
  | x :: inputs, g :: grads =>
      match x ≫= fun x => vars !! x with
      | Some v => if requires_grad_ v then apply_hooks (hooks_ v) g else g
      | None => g
      end :: hooked vars inputs grads
  | _, _ => grads
  end.

Definition inputs_of (fns : gmap Z FunctionNode) (f : Z) : list (option Z) :=
  match fns !! f with Some n => input_variables n | None => [] end.

(** What a function receives, given what every function returns. *)
Definition incoming (fns : gmap Z FunctionNode) (order : list Z) (outs : Z -> list T)
    (init : Z -> list T) (f : Z) : list T :=
  init f ++ (order ≫= fun g => sends (nexts_of fns g) (outs g) f).

Record adjoint (multi : bool) (fns : gmap Z FunctionNode) vars (init : Z -> list T)
    (order : list Z) (outs : Z -> list T) : Prop := {
  adj_run f n : f ∈ order -> fns !! f = Some n ->
    match incoming fns order outs init f with
    | [] => outs f = []
    | g :: gs => exists raw, input_grads multi f n (sum_grads g gs) = Ok raw /\
        outs f = hooked vars (input_variables n) raw
    end;
  adj_out f : f ∉ order -> outs f = []
}.

(** Whether a variable keeps gradients, and those it is sent. *)
Definition keeps v : bool := requires_grad_ v && (is_leaf v || retain_grad_ v).
Definition received v (x : Z) (inputs : list (option Z)) (grads : list T) : list T :=
  if keeps v then sends inputs grads x else [].
Definition gained (fns : gmap Z FunctionNode) (order : list Z) (outs : Z -> list T) v (x : Z) : list T :=
  order ≫= fun f => received v x (inputs_of fns f) (outs f).

Definition accumulate_all (o : option T) (gs : list T) : option T :=
  foldl (fun o g => Some (accumulate o g)) o gs.
Definition add_grads v (gs : list T) : VariableImpl T := set_grad (accumulate_all (grad_ v) gs) v.

(** ** One function *)

Lemma sends_cons x h grads c g :
  sends (x :: h) (g :: grads) c = (if decide (x = Some c) then [g] else []) ++ sends h grads c.
Proof. unfold sends. cbn [zip_with]. rewrite filter_cons. cbn [fst]. by destruct (decide (x = Some c)). Qed.

Lemma sends_nil h grads c : (forall x, x ∈ h -> x <> Some c) -> sends h grads c = [].
Proof.
  revert grads. induction h as [|x h IH]; intros [|g grads] H; try done. rewrite sends_cons.
  rewrite decide_False by (apply H; left). apply IH. intros y Hy. apply H. by right.
Qed.

Lemma propagate_spec nexts grads st :
  let st' := propagate nexts grads st in
  functions st' = functions st /\ variables st' = variables st /\ touched_leaves st' = touched_leaves st /\
  forall c, default [] (grad_accumulators st' !! c) =
    default [] (grad_accumulators st !! c) ++ sends nexts grads c.
Proof.
  revert grads st. induction nexts as [|oc nexts IH]; intros grads st; cbn.
  { split_and!; try done. intros c. by rewrite app_nil_r. }
  destruct grads as [|g grads].
  { split_and!; try done. intros c. by rewrite app_nil_r. }
  set (st1 := match oc with Some c => accumulate_grad c g st | None => st end).
  destruct (IH grads st1) as (E1 & E2 & E3 & Ha). cbn in *. rewrite E1, E2, E3.
  split_and!; [by destruct oc..|]. intros c. rewrite Ha, sends_cons, app_assoc. f_equal.
  destruct oc as [d|]; cbn; [|by rewrite app_nil_r]. destruct (decide (Some d = Some c)) as [[= ->]|Hne].
  - by rewrite lookup_insert_eq.
  - rewrite lookup_insert_ne by congruence. by rewrite app_nil_r.
Qed.

Lemma add_grads_nil v : add_grads v [] = v.
Proof. by destruct v. Qed.

Lemma add_grads_app v gs hs : add_grads (add_grads v gs) hs = add_grads v (gs ++ hs).
Proof. unfold add_grads, accumulate_all. cbn. by rewrite foldl_app. Qed.

Lemma received_add_grads v gs x inputs grads : received (add_grads v gs) x inputs grads = received v x inputs grads.
Proof. done. Qed.

Lemma received_nil v x grads : received v x [] grads = [].
Proof. unfold received. by destruct (keeps v). Qed.

Lemma received_cons v x y inputs g grads :
  received v x (y :: inputs) (g :: grads) =
  (if keeps v && bool_decide (y = Some x) then [g] else []) ++ received v x inputs grads.
Proof.
  unfold received. rewrite sends_cons. destruct (keeps v); [|done]. cbn.
  case_bool_decide; by case_decide.
Qed.

(** Variables that differ in their gradients only. *)
Definition same_but_grads vars vars' : Prop :=
  forall x, (set_grad None <$> vars' !! x) = (set_grad None <$> vars !! x).

Lemma hooked_same vars vars' inputs grads :
  same_but_grads vars vars' -> hooked vars' inputs grads = hooked vars inputs grads.
Proof.
  intros H. revert grads. induction inputs as [|x inputs IH]; intros [|g grads]; try done.
  cbn. rewrite IH. f_equal. destruct x as [x|]; [|done]. cbn. specialize (H x).
  destruct (vars' !! x) as [v'|], (vars !! x) as [v|]; try done.
  cbn in H. apply (inj Some) in H. injection H as _ Er _ _ Eh _. by rewrite Er, Eh.
Qed.

Lemma accumulate_input_spec y g st g' st' :
  accumulate_input y g st = (g', st', Ok tt) ->
  g' = match y ≫= fun x => variables st !! x with
       | Some v => if requires_grad_ v then apply_hooks (hooks_ v) g else g
       | None => g
       end /\
  functions st' = functions st /\ grad_accumulators st' = grad_accumulators st /\
  (forall x, variables st' !! x = (fun v => add_grads v (received v x [y] [g'])) <$> variables st !! x) /\
  (forall x, x ∈ touched_leaves st' <-> x ∈ touched_leaves st \/
     exists v, variables st !! x = Some v /\ received v x [y] [g'] <> []).
Proof.
  assert (forall v x, received v x [y] [g'] = if keeps v && bool_decide (y = Some x) then [g'] else []) as Hr.
  { intros v x. by rewrite received_cons, received_nil, app_nil_r. }
  assert ((forall x v, variables st !! x = Some v -> keeps v && bool_decide (y = Some x) = false) ->
    (forall x, variables st !! x = (fun v => add_grads v (received v x [y] [g'])) <$> variables st !! x) /\
    (forall x, x ∈ touched_leaves st <-> x ∈ touched_leaves st \/
       exists v, variables st !! x = Some v /\ received v x [y] [g'] <> [])) as Hnone.
  { intros H. split; intros x.
    - destruct (variables st !! x) as [v|] eqn:Ev; [|done]. cbn. by rewrite Hr, (H x v Ev), add_grads_nil.
    - split; [by left|]. intros [|(v & Hv & Hx)]; [done|]. by rewrite Hr, (H x v Hv) in Hx. }
  unfold accumulate_input. destruct y as [y|]; cbn [option_bind mbind].
  2: { intros [= <- <-]. destruct Hnone as [H1 H2]; [|by split_and!].
       intros x v _. case_bool_decide; [done|]. by destruct (keeps v). }
  destruct (variables st !! y) as [v|] eqn:Ev; cbn.
  2: { intros [= <- <-]. destruct Hnone as [H1 H2]; [|by split_and!].
       intros x v Hx. case_bool_decide as E; [injection E as <-; congruence|]. by destruct (keeps v). }
  destruct (requires_grad_ v) eqn:Er; cbn.
  2: { intros [= <- <-]. destruct Hnone as [H1 H2]; [|by split_and!].
       intros x w Hx. case_bool_decide as E; [|by destruct (keeps w)]. injection E as <-.
       rewrite Ev in Hx. injection Hx as <-. unfold keeps. by rewrite Er. }
  destruct (bool_decide _); cbn; [|done].
  destruct (is_leaf v || retain_grad_ v) eqn:Ek.
  2: { intros [= <- <-]. destruct Hnone as [H1 H2]; [|by split_and!].
       intros x w Hx. case_bool_decide as E; [|by destruct (keeps w)]. injection E as <-.
       rewrite Ev in Hx. injection Hx as <-. unfold keeps. by rewrite Er, Ek. }
  intros [= <- <-]. clear Hnone. split_and!; try done; cbn; intros x.
  - rewrite lookup_alter. case_decide as E; [subst x; rewrite Ev; cbn|].
    + rewrite Hr. unfold keeps. rewrite Er, Ek, bool_decide_true by done. done.
    + destruct (variables st !! x) as [w|]; [|done]. cbn.
      rewrite Hr, bool_decide_false by congruence. by rewrite andb_false_r, add_grads_nil.
  - rewrite elem_of_union, elem_of_singleton. split.
    + intros [->|Hx]; [right|by left]. exists v. rewrite Hr. unfold keeps.
      by rewrite Er, Ek, bool_decide_true by done.
    + intros [Hx|(w & Hw & Hx)]; [by right|]. rewrite Hr in Hx. case_bool_decide as E; [left; congruence|].
      by rewrite andb_false_r in Hx.
Qed.

Lemma same_but_grads_add vars vars' (gs : Z -> VariableImpl T -> list T) :
  (forall x, vars' !! x = (fun v => add_grads v (gs x v)) <$> vars !! x) -> same_but_grads vars vars'.
Proof. intros H x. rewrite H. by destruct (vars !! x). Qed.

Lemma accumulate_inputs_spec inputs grads st st' grads' :
  accumulate_inputs inputs grads st = (st', Ok grads') ->
  grads' = hooked (variables st) inputs grads /\
  functions st' = functions st /\ grad_accumulators st' = grad_accumulators st /\
  (forall x, variables st' !! x = (fun v => add_grads v (received v x inputs grads')) <$> variables st !! x) /\
  (forall x, x ∈ touched_leaves st' <-> x ∈ touched_leaves st \/
     exists v, variables st !! x = Some v /\ received v x inputs grads' <> []).
Proof.
  revert grads st st' grads'. induction inputs as [|y inputs IH]; intros grads st st' grads' E.
  { cbn in E. injection E as <- <-. split_and!; try done.
    - intros x. destruct (variables st !! x) as [v|]; [|done]. cbn. by rewrite received_nil, add_grads_nil.
    - intros x. split; [by left|]. intros [|(v & _ & Hv)]; [done|]. by rewrite received_nil in Hv. }
  destruct grads as [|g grads].
  { cbn in E. injection E as <- <-.
    assert (forall v x, received v x (y :: inputs) [] = []) as Hr by (intros v x; unfold received; by destruct (keeps v)).
    split_and!; try done.
    - intros x. destruct (variables st !! x) as [v|]; [|done]. cbn. by rewrite Hr, add_grads_nil.
    - intros x. split; [by left|]. intros [|(v & _ & Hv)]; [done|]. by rewrite Hr in Hv. }
  cbn in E. destruct (accumulate_input y g st) as [[g' st1] [[]|e]] eqn:E1; [|done].
  apply accumulate_input_spec in E1 as (Hg & Hf & Ha & Hv & Ht).
  destruct (accumulate_inputs inputs grads st1) as [st2 [grads2|e]] eqn:E2; [|done].
  cbn in E. injection E as <- <-.
  destruct (IH _ _ _ _ E2) as (Hg2 & Hf2 & Ha2 & Hv2 & Ht2). split_and!.
  - cbn. rewrite <-Hg, Hg2. f_equal. apply hooked_same.
    exact (same_but_grads_add _ _ (fun x v => received v x [y] [g']) Hv).
  - congruence.
  - congruence.
  - intros x. rewrite Hv2, Hv. destruct (variables st !! x) as [v|]; [|done]. cbn. f_equal.
    rewrite received_add_grads, add_grads_app. f_equal. rewrite !received_cons, received_nil.
    by rewrite app_nil_r.
  - intros x. rewrite Ht2, Ht, Hv. destruct (variables st !! x) as [v|] eqn:Ev; cbn.
    + destruct (keeps v && bool_decide (y = Some x)) eqn:Ek; cbn; split.
      * intros _. right. exists v. split; [done|]. by rewrite received_cons, Ek.
      * intros _. left. right. exists v. split; [done|]. by rewrite received_cons, received_nil, Ek.
      * intros [[|(w & [= <-] & Hw)]|(w & [= <-] & Hw)]; [by left|..].
        -- by rewrite received_cons, received_nil, Ek in Hw.
        -- right. exists v. split; [done|]. by rewrite received_cons, Ek.
      * intros [|(w & [= <-] & Hw)]; [by left; left|]. right. eexists. split; [done|].
        by rewrite received_cons, Ek in Hw.
    + naive_solver.
Qed.

(** ** The loop *)

Lemma sends_nil_r h c : sends h [] c = [].
Proof. unfold sends. by rewrite zip_with_nil_r. Qed.

Lemma received_nil_r v x h : received v x h [] = [].
Proof. unfold received. rewrite sends_nil_r. by destruct (keeps v). Qed.

(** Two heaps whose functions differ in their saved state at [fs] only. *)
Definition same_links (fs : list Z) (fns fns' : gmap Z FunctionNode) : Prop :=
  (forall g, g ∉ fs -> fns' !! g = fns !! g) /\
  (forall g, nexts_of fns' g = nexts_of fns g) /\ (forall g, inputs_of fns' g = inputs_of fns g).

Lemma same_links_refl fs fns : same_links fs fns fns.
Proof. done. Qed.

Lemma same_links_trans fs gs fns fns' fns'' :
  same_links fs fns fns' -> same_links gs fns' fns'' -> same_links (fs ++ gs) fns fns''.
Proof.
  intros (A1 & A2 & A3) (B1 & B2 & B3). split_and!; intros g.
  - intros [Hf Hg]%not_elem_of_app. by rewrite B1, A1.
  - by rewrite B2, A2.
  - by rewrite B3, A3.
Qed.

Lemma release_function_spec r u f st :
  let st' := release_function r u f st in
  variables st' = variables st /\ grad_accumulators st' = grad_accumulators st /\
  touched_leaves st' = touched_leaves st /\ same_links [f] (functions st) (functions st').
Proof.
  cbn. unfold release_function. destruct (negb r && _); [|done].
  unfold same_links. split_and!; try done; cbn; intros g.
  - intros Hg. rewrite lookup_alter_ne; [done|]. intros ->. apply Hg. left.
  - unfold nexts_of. rewrite lookup_alter. case_decide as E; [subst g|done].
    by destruct (functions st !! f).
  - unfold inputs_of. rewrite lookup_alter. case_decide as E; [subst g|done].
    by destruct (functions st !! f).
Qed.

(** What running [f] on [init] gives. *)
Definition runs (multi : bool) (fns : gmap Z FunctionNode) vars (init : list T) (f : Z) (out : list T) : Prop :=
  match fns !! f, init with
  | Some n, g :: gs => exists raw, input_grads multi f n (sum_grads g gs) = Ok raw /\
      out = hooked vars (input_variables n) raw
  | _, _ => out = []
  end.

Lemma process_spec multi r u f st st' :
  process multi r u f st = (st', Ok tt) ->
  exists out, runs multi (functions st) (variables st) (default [] (grad_accumulators st !! f)) f out /\
    (forall c, default [] (grad_accumulators st' !! c) =
       default [] (grad_accumulators st !! c) ++ sends (nexts_of (functions st) f) out c) /\
    (forall x, variables st' !! x =
       (fun v => add_grads v (received v x (inputs_of (functions st) f) out)) <$> variables st !! x) /\
    (forall x, x ∈ touched_leaves st' <-> x ∈ touched_leaves st \/
       exists v, variables st !! x = Some v /\ received v x (inputs_of (functions st) f) out <> []) /\
    same_links [f] (functions st) (functions st').
Proof.
  assert (forall st1, variables st1 = variables st -> grad_accumulators st1 = grad_accumulators st ->
    touched_leaves st1 = touched_leaves st ->
    (forall c, default [] (grad_accumulators st1 !! c) =
       default [] (grad_accumulators st !! c) ++ sends (nexts_of (functions st) f) [] c) /\
    (forall x, variables st1 !! x =
       (fun v => add_grads v (received v x (inputs_of (functions st) f) [])) <$> variables st !! x) /\
    (forall x, x ∈ touched_leaves st1 <-> x ∈ touched_leaves st \/
       exists v, variables st !! x = Some v /\ received v x (inputs_of (functions st) f) [] <> [])) as Hnone.
  { intros st1 -> -> ->. split_and!; intros x.
    - by rewrite sends_nil_r, app_nil_r.
    - destruct (variables st !! x) as [v|]; [|done]. cbn. by rewrite received_nil_r, add_grads_nil.
    - setoid_rewrite received_nil_r. naive_solver. }
  unfold process, runs. destruct (functions st !! f) as [n|] eqn:En.
  2: { intros [= <-]. exists []. destruct (Hnone st eq_refl eq_refl eq_refl) as (? & ? & ?). by split_and!. }
  destruct (default [] (grad_accumulators st !! f)) as [|g gs].
  { intros [= <-]. exists []. destruct (release_function_spec r u f st) as (E1 & E2 & E3 & E4).
    destruct (Hnone _ E1 E2 E3) as (? & ? & ?). by split_and!. }
  destruct (input_grads multi f n (sum_grads g gs)) as [raw|e]; [|done].
  destruct (accumulate_inputs (input_variables n) raw st) as [st1 [grads|e]] eqn:Ea; [|done].
  intros [= <-]. apply accumulate_inputs_spec in Ea as (Hg & Hf1 & Ha1 & Hv1 & Ht1).
  set (st2 := propagate (next_functions n) grads st1).
  destruct (propagate_spec (next_functions n) grads st1) as (Hf2 & Hv2 & Ht2 & Ha2). fold st2 in Hf2, Hv2, Ht2, Ha2.
  destruct (release_function_spec r u f st2) as (E1 & E2 & E3 & E4).
  assert (nexts_of (functions st) f = next_functions n /\ inputs_of (functions st) f = input_variables n)
    as [-> ->] by (unfold nexts_of, inputs_of; by rewrite En).
  exists grads. rewrite E1, E2, E3, Hv2, Ht2. split_and!; [by exists raw| |done|done|].
  - intros c. by rewrite Ha2, Ha1.
  - rewrite Hf2, Hf1 in E4. done.
Qed.

(** No function of the list refers to an earlier one or to itself. *)
Definition forward (nexts : Z -> list (option Z)) (order : list Z) : Prop :=
  forall l1 f l2, order = l1 ++ f :: l2 -> forall g, g ∈ f :: l2 -> ~ Some f ∈ nexts g.

Lemma forward_cons nexts f order :
  forward nexts (f :: order) -> (forall g, g ∈ f :: order -> ~ Some f ∈ nexts g) /\ forward nexts order.
Proof.
  intros H. split; [by apply (H [] f order)|]. intros l1 x l2 ->. by apply (H (f :: l1) x l2).
Qed.

Lemma bind_nil {A B} (F : A -> list B) (l : list A) : (forall x, x ∈ l -> F x = []) -> l ≫= F = [].
Proof.
  induction l as [|x l IH]; intros H; [done|]. cbn. rewrite (H x) by left. apply IH. intros y Hy.
  apply H. by right.
Qed.

Lemma bind_ext {A B} (F G : A -> list B) (l : list A) :
  (forall x, x ∈ l -> F x = G x) -> l ≫= F = l ≫= G.
Proof.
  induction l as [|x l IH]; intros H; [done|]. cbn. rewrite (H x) by left. f_equal. apply IH. intros y Hy.
  apply H. by right.
Qed.

Definition accumulated st (f : Z) : list T := default [] (grad_accumulators st !! f).

Lemma process_all_spec multi r u order st st' :
  NoDup order -> forward (nexts_of (functions st)) order ->
  process_all multi r u order st = (st', Ok tt) ->
  exists outs, (forall f, f ∉ order -> outs f = []) /\
    (forall f, f ∈ order -> runs multi (functions st) (variables st)
       (incoming (functions st) order outs (accumulated st) f) f (outs f)) /\
    (forall x, variables st' !! x =
       (fun v => add_grads v (gained (functions st) order outs v x)) <$> variables st !! x) /\
    (forall x, x ∈ touched_leaves st' <-> x ∈ touched_leaves st \/
       exists v, variables st !! x = Some v /\ gained (functions st) order outs v x <> []) /\
    same_links order (functions st) (functions st').
Proof.
  revert st. induction order as [|f order IH]; intros st Hnd Hfw E.
  { cbn in E. injection E as <-. exists (fun _ => []). split_and!; try done.
    - intros f Hf. by apply not_elem_of_nil in Hf.
    - intros x. destruct (variables st !! x) as [v|]; [|done]. cbn. by rewrite add_grads_nil.
    - intros x. split; [by left|]. intros [|(v & _ & Hv)]; done. }
  cbn [process_all] in E. destruct (process multi r u f st) as [st1 [[]|e]] eqn:E1; [|done].
  apply process_spec in E1 as (out & Hrun & Ha & Hv & Ht & Hl). pose proof Hl as (Hl1 & Hl2 & Hl3).
  apply NoDup_cons in Hnd as [Hf Hnd]. apply forward_cons in Hfw as [Hself Hfw].
  destruct (IH st1 Hnd) as (outs & Ho & Hr & Hv2 & Ht2 & Hlk); [|done|].
  { intros l1 x l2 El g Hg. rewrite Hl2. by apply (Hfw l1 x l2). }
  set (outs' := fun g => if decide (g = f) then out else outs g).
  assert (outs' f = out) as Hof by (subst outs'; cbn; by rewrite decide_True).
  assert (forall g, g ∈ order -> outs' g = outs g) as Hog.
  { intros g Hg. subst outs'. cbn. rewrite decide_False; [done|]. by intros ->. }
  exists outs'. split_and!.
  - intros g [Hne Hg]%not_elem_of_cons. subst outs'. cbn. rewrite decide_False by done. by apply Ho.
  - intros g [->|Hg]%elem_of_cons.
    + rewrite Hof. unfold incoming. rewrite bind_nil, app_nil_r; [done|]. intros g Hg.
      apply sends_nil. intros x Hx ->. by apply (Hself g).
    + rewrite (Hog g Hg). specialize (Hr g Hg). unfold runs in Hr |- *.
      rewrite (Hl1 g) in Hr by (rewrite list_elem_of_singleton; by intros ->).
      replace (incoming (functions st) (f :: order) outs' (accumulated st) g)
        with (incoming (functions st1) order outs (accumulated st1) g).
      2: { unfold incoming, accumulated. cbn. rewrite Ha, Hof, <-app_assoc. f_equal. f_equal.
           apply bind_ext. intros h Hh. by rewrite Hl2, (Hog h Hh). }
      destruct (functions st !! g) as [n|]; [|done]. destruct (incoming _ _ _ _ _); [done|].
      destruct Hr as (raw & Hraw & ->). exists raw. split; [done|]. apply hooked_same.
      exact (same_but_grads_add _ _ (fun x v => received v x (inputs_of (functions st) f) out) Hv).
  - intros x. rewrite Hv2, Hv. destruct (variables st !! x) as [v|]; [|done]. cbn. f_equal.
    rewrite add_grads_app. f_equal. unfold gained. cbn. rewrite Hof. f_equal.
    apply bind_ext. intros h Hh. by rewrite Hl3, (Hog h Hh).
  - intros x. rewrite Ht2, Ht, Hv. unfold gained. cbn. rewrite Hof.
    assert (forall v, (order ≫= fun h => received v x (inputs_of (functions st1) h) (outs h)) =
                      (order ≫= fun h => received v x (inputs_of (functions st) h) (outs' h))) as Hb.
    { intros v. apply bind_ext. intros h Hh. by rewrite Hl3, (Hog h Hh). }
    destruct (variables st !! x) as [v|]; cbn; [|naive_solver].
    specialize (Hb v). split.
    + intros [[|(w & [= <-] & Hw)]|(w & [= <-] & Hw)]; [by left|..]; right; exists v; (split; [done|]).
      * intros [Hx _]%app_nil. by apply Hw.
      * intros [_ Hx]%app_nil. apply Hw. rewrite <-Hb in Hx. exact Hx.
    + intros [|(w & [= <-] & Hw)]; [by left; left|]. destruct (received v x (inputs_of (functions st) f) out) eqn:Er1.
      * right. eexists. split; [done|]. intros Hx. apply Hw. cbn. rewrite <-Hb. exact Hx.
      * left. right. exists v. by rewrite Er1.
  - change (f :: order) with ([f] ++ order). by eapply same_links_trans.
Qed.
End Adjoint.
End Adjoint.
