(* ===== verification/AutogradBackward.v ===== *)
(** * The backward pass refines the adjoint equations

    [BackwardEngine::execute] from the heap it is called on to the heap it
    leaves: the gradients it stores are those of the unique solution of the
    equations of AutogradAdjoint.v. *)

From stdpp Require Import base list numbers strings gmap relations.
From S2P Require Import Prelude MapSums DType AutogradSort AutogradEngine AutogradAdjoint.

Module Backprop.
Import Autograd Adjoint.

(** Every handle of a function's [next_functions()] is in the heap. *)
Definition heap_closed (fns : gmap Z FunctionNode) : Prop :=
  forall f c, Some c ∈ nexts_of fns f -> is_Some (fns !! c).

(** ** The order of the pass *)

Section Order.
Context (nexts : Z -> list (option Z)).

Lemma children_first_forward sorted :
  NoDup sorted -> children_first nexts sorted -> forward nexts (reverse sorted).
Proof.
  intros Hnd Hc l1 f l2 E g Hg He. apply (f_equal reverse) in E.
  rewrite reverse_involutive, reverse_app, reverse_cons, <-app_assoc in E. cbn in E.
  rewrite E in Hnd. apply NoDup_app in Hnd as (_ & Hdisj & _).
  assert (f ∉ reverse l2) as Hf by (intros Hf; apply (Hdisj f Hf); left).
  apply elem_of_cons in Hg as [->|Hg].
  - by apply Hf, (Hc (reverse l2) f (reverse l1)).
  - apply elem_of_reverse, list_elem_of_split in Hg as (a & b & E2). rewrite E2 in Hf.
    apply Hf, elem_of_app. left. apply (Hc a g (b ++ f :: reverse l1)); [|done].
    by rewrite E, E2, <-app_assoc.
Qed.
End Order.

(** The sort of a closed heap. *)
Lemma sort_functions_spec fns roots :
  heap_closed fns -> (forall r, r ∈ roots -> is_Some (fns !! r)) ->
  sorts (nexts_of fns) roots (sort_functions fns roots).
Proof.
  intros Hc Hr. apply sort_roots_sorts.
  - intros f c _ He. apply elem_of_elements, elem_of_dom. by apply (Hc f).
  - apply NoDup_elements.
  - intros r Hin. apply elem_of_elements, elem_of_dom. by apply Hr.
Qed.

Section Backprop.
Context {T : Type} `{!Tensor T} `{!Backward T}.
Implicit Types (st : Engine T) (v w : VariableImpl T) (vars : gmap Z (VariableImpl T)).

(** ** The equations have one solution *)

Lemma incoming_prefix fns l1 g l2 (outs init : Z -> list T) :
  forward (nexts_of fns) (l1 ++ g :: l2) ->
  incoming fns (l1 ++ g :: l2) outs init g = incoming fns l1 outs init g.
Proof.
  intros Hf. unfold incoming. rewrite bind_app. rewrite (bind_nil _ (g :: l2)); [by rewrite app_nil_r|].
  intros x Hx. apply sends_nil. intros y Hy ->. by apply (Hf l1 g l2 eq_refl x Hx).
Qed.

Lemma adjoint_unique multi fns vars init order outs outs' :
  forward (nexts_of fns) order -> (forall f, f ∈ order -> is_Some (fns !! f)) ->
  adjoint multi fns vars init order outs -> adjoint multi fns vars init order outs' ->
  forall f, outs f = outs' f.
Proof.
  intros Hfw Hin [R1 O1] [R2 O2] f.
  assert (forall l1 l2, order = l1 ++ l2 -> forall g, g ∈ l1 -> outs g = outs' g) as H.
  { induction l1 as [|h l1 IH] using rev_ind; intros l2 E g Hg; [by apply not_elem_of_nil in Hg|].
    rewrite <-app_assoc in E. cbn in E. apply elem_of_app in Hg as [Hg|Hg]; [by apply (IH (h :: l2))|].
    apply list_elem_of_singleton in Hg as ->.
    assert (h ∈ order) as Hh by (rewrite E; set_solver). destruct (Hin h Hh) as [n Hn].
    specialize (R1 h n Hh Hn). specialize (R2 h n Hh Hn). rewrite E in R1, R2, Hfw.
    rewrite incoming_prefix in R1, R2 by done.
    assert (incoming fns l1 outs init h = incoming fns l1 outs' init h) as Ei.
    { unfold incoming. f_equal. apply bind_ext. intros x Hx. by rewrite (IH (h :: l2) E x Hx). }
    rewrite Ei in R1. destruct (incoming fns l1 outs' init h) as [|t ts]; [congruence|].
    destruct R1 as (raw & Er & ->), R2 as (raw' & Er' & ->). congruence. }
  destruct (decide (f ∈ order)) as [Hf|Hf]; [|by rewrite O1, O2].
  apply (H order []); [by rewrite app_nil_r|done].
Qed.

(** ** The end of the pass leaves the gradients alone *)

Definition same_grads st st' : Prop :=
  forall x, (grad_ <$> variables st' !! x) = (grad_ <$> variables st !! x).

#[export] Instance same_grads_refl : Reflexive same_grads.
Proof. done. Qed.
#[export] Instance same_grads_trans : Transitive same_grads.
Proof. intros s t u H1 H2 x. by rewrite H2, H1. Qed.

Lemma drop_grad_fn_grads x st : same_grads st (drop_grad_fn x st).
Proof.
  destruct x as [x|]; [|done]. intros y. cbn. rewrite lookup_alter. case_decide; [|done]. subst y.
  destruct (variables st !! x) as [v|]; [|done]. cbn. by destruct (is_leaf v).
Qed.

Lemma foldl_grads {A} (F : Engine T -> A -> Engine T) l st :
  (forall st x, same_grads st (F st x)) -> same_grads st (foldl F st l).
Proof.
  intros H. revert st. induction l as [|x l IH]; intros st; [done|]. cbn.
  transitivity (F st x); [apply H|apply IH].
Qed.

Lemma cleanup_function_grads u st f : same_grads st (cleanup_function u st f).
Proof.
  unfold cleanup_function. destruct (decide _); [|done].
  intros x. cbn. apply (foldl_grads (fun st x => drop_grad_fn x st)). intros. apply drop_grad_fn_grads.
Qed.

Lemma cleanup_graph_grads r u sorted roots st : same_grads st (cleanup_graph r u sorted roots st).
Proof.
  unfold cleanup_graph. destruct r; [done|].
  transitivity (foldl (cleanup_function u) st sorted); apply foldl_grads; intros.
  - apply cleanup_function_grads.
  - apply drop_grad_fn_grads.
Qed.

(** ** The pass *)

(** The stored gradient of a variable that was sent [gs]. *)
Definition cast_back w (g : T) : T :=
  if preserve_grad_dtype_ w then g else cast (dtype (data_ w)) g.
Definition stored w (gs : list T) : option T :=
  match gs with [] => grad_ w | _ => cast_back w <$> accumulate_all (grad_ w) gs end.

Hypothesis to_dtype : forall (t : T) d, dtype (to t d) = d.

Lemma finalize_grad w g : grad_ w = Some g -> grad_ (finalize w) = Some (cast_back w g).
Proof.
  intros E. unfold finalize, cast_back, cast. rewrite E.
  destruct (dtype_eqb _ _), (preserve_grad_dtype_ w); cbn; done.
Qed.

Lemma finalize_same w : set_grad None (finalize w) = set_grad None w.
Proof. unfold finalize. destruct (grad_ w); [|done]. by destruct (_ && _). Qed.

Lemma cast_back_twice w g : cast_back w (cast_back w g) = cast_back w g.
Proof.
  unfold cast_back, cast, dtype_eqb. destruct (preserve_grad_dtype_ w); [done|].
  repeat case_bool_decide; try done. by rewrite to_dtype in *.
Qed.

Lemma accumulate_all_Some o gs : gs <> [] -> exists g, accumulate_all o gs = Some g.
Proof.
  destruct gs as [|g gs] using rev_ind; [done|]. intros _. unfold accumulate_all. rewrite foldl_app. cbn. eauto.
Qed.

Definition seed_of (f : Z) (seed : T) (g : Z) : list T := if decide (g = f) then [seed] else [].

Lemma finalize_grads w : grad_ (finalize w) = cast_back w <$> grad_ w.
Proof.
  destruct (grad_ w) as [g|] eqn:E; [by apply finalize_grad|]. unfold finalize. by rewrite E.
Qed.

Lemma finalize_twice w : finalize (finalize w) = finalize w.
Proof.
  assert (grad_ (finalize (finalize w)) = grad_ (finalize w)) as Hg.
  { rewrite !finalize_grads. destruct (grad_ w) as [g|]; [|done]. cbn. f_equal.
    rewrite <-(cast_back_twice w g) at 2. pose proof (finalize_same w) as E.
    injection E as E1 _ _ E2 _ _. unfold cast_back. by rewrite E1, E2. }
  pose proof (finalize_same (finalize w)) as Hs.
  destruct (finalize (finalize w)), (finalize w). cbn in Hg. unfold set_grad in Hs. cbn in Hs. congruence.
Qed.

(** The casts at the end: for the touched leaves, and for a root that keeps its
    gradient. *)
Lemma finish_grads root st x w :
  variables st !! x = Some w ->
  variables (finalize_root root (finalize_leaves st)) !! x =
    Some (if decide (x ∈ touched_leaves st \/ (x = root /\ keeps w = true)) then finalize w else w).
Proof.
  intros Hw.
  assert (forall w, keeps (finalize w) = keeps w) as Hk.
  { intros u. pose proof (finalize_same u) as E. injection E as _ E1 E2 _ _ E3.
    unfold keeps, is_leaf. by rewrite E1, E2, E3. }
  unfold finalize_root, finalize_leaves, update_variable. cbn. rewrite lookup_alter.
  destruct (decide (root = x)) as [->|Hne]; rewrite map_lookup_imap, Hw; cbn.
  - fold (keeps (if decide (x ∈ touched_leaves st) then finalize w else w)). f_equal.
    destruct (decide (x ∈ touched_leaves st)) as [Ht|Ht].
    + rewrite Hk, (decide_True (P := _ \/ _)) by auto. destruct (keeps w); [apply finalize_twice|done].
    + destruct (keeps w) eqn:Ek; [by rewrite decide_True by auto|]. rewrite decide_False; [done|naive_solver].
  - f_equal. destruct (decide (x ∈ touched_leaves st)) as [Ht|Ht].
    + by rewrite decide_True by auto.
    + rewrite decide_False; [done|naive_solver].
Qed.

(** The gradients of the root's own [.grad]. *)
Definition own_seed (root : Z) (seed : T) x w : list T :=
  if decide (x = root /\ retain_grad_ w = true) then [seed] else [].

Lemma accumulate_root_grads root seed st v :
  variables st !! root = Some v -> grad_fn_ v <> None ->
  let st' := if is_leaf v || retain_grad_ v then accumulate_root root seed st else st in
  functions st' = functions st /\
  forall x, variables st' !! x = (fun w => add_grads w (own_seed root seed x w)) <$> variables st !! x.
Proof.
  intros Hv Hg. unfold is_leaf. rewrite bool_decide_false by done. cbn. unfold own_seed.
  destruct (retain_grad_ v) eqn:Er; (split; [done|]); intros x.
  - cbn. rewrite lookup_alter. case_decide as E.
    + subst x. rewrite Hv. cbn. by rewrite decide_True by done.
    + destruct (variables st !! x) as [w|]; [|done]. cbn. rewrite decide_False by naive_solver.
      by rewrite add_grads_nil.
  - destruct (variables st !! x) as [w|] eqn:Ew; [|done]. cbn.
    rewrite decide_False; [by rewrite add_grads_nil|]. intros [-> ?]. congruence.
Qed.

Lemma stored_nonempty w gs : gs <> [] -> stored w gs = cast_back w <$> grad_ (add_grads w gs).
Proof. by destruct gs. Qed.

Lemma backward_pass root v f gradient retain st st' :
  heap_closed (functions st) -> is_Some (functions st !! f) ->
  variables st !! root = Some v -> requires_grad_ v = true -> grad_fn_ v = Some f ->
  execute root gradient retain st = (st', Ok tt) ->
  exists seed order outs,
    root_grad v gradient = Ok seed /\ NoDup order /\
    (forall g, g ∈ order <-> rtc (edge (nexts_of (functions st))) f g) /\
    forward (nexts_of (functions st)) order /\
    adjoint false (functions st) (variables st) (seed_of f seed) order outs /\
    forall x w, variables st !! x = Some w -> exists w', variables st' !! x = Some w' /\
      grad_ w' = stored w (own_seed root seed x w ++ gained (functions st) order outs w x).
Proof.
  intros Hcl Hf Hv Hreq Hfn E. unfold execute in E. rewrite Hv, Hreq in E. cbn [negb] in E.
  destruct (root_grad v gradient) as [seed|e]; [|done].
  destruct (accumulate_root_grads root seed st v Hv ltac:(congruence)) as [Hf0 Hv0].
  set (st0 := if is_leaf v || retain_grad_ v then _ else st) in *. cbn zeta in E.
  rewrite Hfn in E. cbn [functions set_touched clear_gradients set_accumulators] in E. rewrite Hf0 in E.
  rewrite topological_sort_roots in E.
  pose proof (sort_functions_spec (functions st) [f] Hcl ltac:(intros r ->%list_elem_of_singleton; done)) as Hs.
  unfold sort_functions in Hs. destruct (sort_roots _ _ [f]) as [sorted|e]; [|done].
  destruct Hs as (Hnd & Hcf & Hin). set (u := compute_unshared_functions (functions st) sorted) in *.
  set (st1 := accumulate_grad f seed (set_touched ∅ (clear_gradients st0))) in *.
  destruct (process_all false retain u (reverse sorted) st1) as [st2 [[]|e]] eqn:Ep; [|done].
  injection E as <-.
  assert (functions st1 = functions st) as Hf1 by done.
  assert (variables st1 = variables st0) as Hv1 by done.
  assert (touched_leaves st1 = ∅) as Ht1 by done.
  assert (forall g, accumulated st1 g = seed_of f seed g) as Ha1.
  { intros g. unfold accumulated, seed_of, st1. cbn. rewrite lookup_empty. cbn. rewrite lookup_insert.
    repeat case_decide; (done || congruence || by rewrite lookup_empty). }
  clearbody st1.
  apply process_all_spec in Ep as (outs & Hout & Hrun & Hv2 & Ht2 & _).
  2: by rewrite reverse_Permutation. 2: by rewrite Hf1; apply children_first_forward.
  rewrite Hf1 in *. exists seed, (reverse sorted), outs. split_and!; [done|by rewrite reverse_Permutation| | | |].
  - intros g. rewrite elem_of_reverse, Hin. split; [|intros; exists f; split; [left|done]].
    by intros (r & ->%list_elem_of_singleton & ?).
  - by apply children_first_forward.
  - split; [|done]. intros g n Hg Hn. specialize (Hrun g Hg). unfold runs in Hrun. rewrite Hn in Hrun.
    replace (incoming (functions st) (reverse sorted) outs (seed_of f seed) g)
      with (incoming (functions st) (reverse sorted) outs (accumulated st1) g)
      by (unfold incoming; by rewrite Ha1).
    destruct (incoming _ _ _ _ g); [done|]. destruct Hrun as (raw & Hraw & ->). exists raw.
    split; [done|]. rewrite Hv1. apply hooked_same.
    exact (same_but_grads_add _ _ (own_seed root seed) Hv0).
  - intros x w Hw. rewrite Hv1 in Hv2, Ht2. specialize (Hv2 x). specialize (Ht2 x). rewrite Hv0, Hw in Hv2, Ht2.
    cbn in Hv2. rewrite add_grads_app in Hv2.
    set (gs := gained (functions st) (reverse sorted) outs w x) in *.
    change (gained (functions st) (reverse sorted) outs (add_grads w (own_seed root seed x w)) x) with gs in Hv2.
    set (w2 := add_grads w (own_seed root seed x w ++ gs)) in *.
    pose proof (finish_grads root st2 x w2 Hv2) as Hw3.
    set (st3 := finalize_root root (finalize_leaves st2)) in *.
    pose proof (cleanup_graph_grads retain u sorted [Some root] (clear_gradients st3) x) as Hc.
    cbn [variables clear_gradients set_accumulators restore set_touched] in Hc |- *. rewrite Hw3 in Hc.
    destruct (variables (cleanup_graph _ _ _ _ _) !! x) as [w'|]; [|done]. exists w'. split; [done|].
    cbn in Hc. apply (inj Some) in Hc. rewrite Hc.
    assert (keeps w2 = keeps w) as Hk by done.
    destruct (decide (own_seed root seed x w ++ gs = [])) as [Hnil|Hnn].
    + rewrite decide_False; [subst w2; by rewrite Hnil, add_grads_nil|].
      apply app_nil in Hnil as [Ho Hgs]. intros [Ht|[-> Hkr]].
      * apply Ht2 in Ht as [Ht|(y & [= <-] & Hy)]; [rewrite Ht1 in Ht; set_solver|]. by apply Hy.
      * rewrite Hv in Hw. injection Hw as <-. unfold own_seed in Ho. unfold keeps, is_leaf in Hkr.
        change (grad_fn_ w2) with (grad_fn_ v) in Hkr. change (retain_grad_ w2) with (retain_grad_ v) in Hkr.
        rewrite bool_decide_false in Hkr by congruence. cbn in Hkr. apply andb_true_iff in Hkr as [_ Hkr].
        by rewrite decide_True in Ho.
    + rewrite stored_nonempty by done. rewrite decide_True; [exact (finalize_grads w2)|].
      destruct (own_seed root seed x w) as [|s l] eqn:Eo.
      * left. apply Ht2. right. eexists. split; [done|]. done.
      * right. unfold own_seed in Eo. destruct (decide _) as [[-> Hr]|]; [|done].
        split; [done|]. rewrite Hv in Hw. injection Hw as <-. rewrite Hk. unfold keeps. by rewrite Hreq, Hr, orb_true_r.
Qed.
End Backprop.
End Backprop.
