(* ===== verification/AutogradRelease.v ===== *)
(** * The autograd engine releases the graph

    Reference counts ([Function::parent_count]) stay exact through every pass,
    so [compute_unshared_functions] finds the functions of the walk that no
    function outside it refers to; these lose their state at the end of the
    pass, all others keep theirs. *)

From stdpp Require Import base list numbers strings gmap relations.
From S2P Require Import Prelude MapSums DType AutogradSort AutogradEngine AutogradAdjoint AutogradBackward.

Module Release.
Import Autograd Adjoint Backprop.

#[local] Arguments total : simpl never.

(** ** Reference counts *)

Definition occurrences (l : list (option Z)) (f : Z) : Z := Z.of_nat (length (filter (fun oc => oc = Some f) l)).

Definition in_degree (fns : gmap Z FunctionNode) (f : Z) : Z :=
  total (fun n => occurrences (next_functions n) f) fns.

Definition counts_exact (fns : gmap Z FunctionNode) : Prop :=
  forall f n, fns !! f = Some n -> parent_count n = in_degree fns f.

Lemma occurrences_cons oc l f : occurrences (oc :: l) f = (if decide (oc = Some f) then 1 else 0) + occurrences l f.
Proof. unfold occurrences. rewrite filter_cons. destruct (decide (oc = Some f)); cbn; lia. Qed.

Lemma occurrences_nonneg l f : 0 <= occurrences l f.
Proof. unfold occurrences. lia. Qed.

Lemma occurrences_pos l f : 0 < occurrences l f <-> Some f ∈ l.
Proof.
  induction l as [|oc l IH].
  - unfold occurrences. cbn. split; [lia|]. by intros ?%not_elem_of_nil.
  - rewrite occurrences_cons, elem_of_cons, <-IH. pose proof (occurrences_nonneg l f).
    destruct (decide (oc = Some f)); (split; [|intros [|]]); (lia || auto || congruence || (right; lia)).
Qed.

Lemma in_degree_alter fns k n u f :
  fns !! k = Some n -> in_degree (alter u k fns) f =
  in_degree fns f - occurrences (next_functions n) f + occurrences (next_functions (u n)) f.
Proof. exact (total_alter (fun n => occurrences (next_functions n) f) fns k n u). Qed.

Lemma alter_None {A} (u : A -> A) (m : gmap Z A) k : m !! k = None -> alter u k m = m.
Proof.
  intros H. apply map_eq. intros j. rewrite lookup_alter. case_decide; [subst; by rewrite H|done].
Qed.

(** A change that keeps the links keeps the in-degrees. *)
Lemma in_degree_keep fns k u f :
  (forall n, next_functions (u n) = next_functions n) -> in_degree (alter u k fns) f = in_degree fns f.
Proof.
  intros Hu. destruct (fns !! k) as [n|] eqn:E; [|by rewrite alter_None].
  rewrite (in_degree_alter fns k n u f E), Hu. lia.
Qed.

Lemma counts_exact_keep fns k u :
  (forall n, next_functions (u n) = next_functions n) -> (forall n, parent_count (u n) = parent_count n) ->
  counts_exact fns -> counts_exact (alter u k fns).
Proof.
  intros Hn Hp H f n. rewrite in_degree_keep by done. rewrite lookup_alter. case_decide as E; [subst k|apply H].
  destruct (fns !! f) as [m|] eqn:Em; [|done]. intros [= <-]. rewrite Hp. by apply H.
Qed.

(** [adjust_parents] changes each count by the number of occurrences. *)
Lemma adjust_parents_lookup d l fns g :
  adjust_parents d l fns !! g = (add_parents (d * occurrences l g)) <$> fns !! g.
Proof.
  unfold adjust_parents. revert fns. induction l as [|oc l IH]; intros fns; cbn.
  - destruct (fns !! g) as [[]|]; [|done]. cbn. unfold add_parents, occurrences. cbn. rewrite Z.mul_0_r, Z.add_0_r. done.
  - rewrite IH, occurrences_cons. destruct oc as [c|]; cbn.
    + rewrite lookup_alter. case_decide as E.
      * subst c. rewrite decide_True by done. destruct (fns !! g) as [n|]; [|done]. cbn. f_equal.
        unfold add_parents. cbn. f_equal. ring.
      * rewrite decide_False by congruence. destruct (fns !! g) as [n|]; [|done]. cbn. f_equal.
    + done.
Qed.

(** In-degrees depend on the links only. *)
Lemma in_degree_links fns fns' f :
  (forall g, (next_functions <$> fns' !! g) = (next_functions <$> fns !! g)) ->
  in_degree fns' f = in_degree fns f.
Proof.
  intros H. apply total_same. intros g. specialize (H g).
  destruct (fns' !! g) as [n'|], (fns !! g) as [n|]; try done. cbn in *. by injection H as ->.
Qed.

Lemma adjust_parents_in_degree d l fns f : in_degree (adjust_parents d l fns) f = in_degree fns f.
Proof. apply in_degree_links. intros g. rewrite adjust_parents_lookup. by destruct (fns !! g). Qed.

Lemma nexts_of_lookup fns f n : fns !! f = Some n -> nexts_of fns f = next_functions n.
Proof. unfold nexts_of. by intros ->. Qed.

(** [set_next_functions] on a function of the heap. *)
Lemma set_next_functions_lookup f funcs fns g n0 :
  fns !! f = Some n0 ->
  set_next_functions f funcs fns !! g =
  (fun n => mkFunction (if decide (g = f) then funcs else next_functions n) (input_variables n)
              (parent_count n - occurrences (next_functions n0) g + occurrences funcs g) (f_saved n)) <$> fns !! g.
Proof.
  intros Hf. unfold set_next_functions. rewrite (nexts_of_lookup fns f n0 Hf), lookup_alter.
  destruct (decide (f = g)) as [->|Hne]; rewrite !adjust_parents_lookup.
  - rewrite Hf. cbn. rewrite decide_True by done. f_equal. f_equal. lia.
  - destruct (fns !! g) as [n|]; [|done]. cbn. rewrite decide_False by congruence. f_equal.
    unfold add_parents. cbn. f_equal. lia.
Qed.

Lemma set_next_functions_exact f funcs fns :
  is_Some (fns !! f) -> counts_exact fns -> counts_exact (set_next_functions f funcs fns).
Proof.
  intros [n0 Hf] H g n Hg.
  assert (in_degree (set_next_functions f funcs fns) g =
    in_degree fns g - occurrences (next_functions n0) g + occurrences funcs g) as Hd.
  { unfold set_next_functions. rewrite (nexts_of_lookup fns f n0 Hf).
    set (fns1 := adjust_parents 1 funcs _).
    assert (fns1 !! f = add_parents (1 * occurrences funcs f) <$>
              (add_parents (-1 * occurrences (next_functions n0) f) <$> Some n0)) as H1
      by (subst fns1; by rewrite !adjust_parents_lookup, Hf).
    cbn in H1. rewrite (in_degree_alter _ _ _ _ g H1). cbn. subst fns1.
    rewrite !adjust_parents_in_degree. lia. }
  rewrite (set_next_functions_lookup f funcs fns g n0 Hf) in Hg.
  destruct (fns !! g) as [m|] eqn:Em; [|done]. cbn in Hg. injection Hg as <-. cbn.
  rewrite Hd, (H g m Em). lia.
Qed.

(** ** Unshared functions *)

Lemma total_sum_in {A} (F : A -> Z) (m : gmap Z A) (l : list Z) (G : Z -> Z) :
  NoDup l -> (forall g, g ∈ l -> G g = match m !! g with Some n => F n | None => 0 end) ->
  (forall g n, m !! g = Some n -> 0 <= F n) ->
  sumZ_with G l <= total F m /\
  (sumZ_with G l = total F m <-> forall g n, m !! g = Some n -> 0 < F n -> g ∈ l).
Proof.
  revert m. induction l as [|x l IH]; intros m Hnd HG HF; cbn.
  - pose proof (total_nonneg F m HF). split; [done|]. split.
    + intros E g n Hg Hp. pose proof (total_member F m g n HF Hg). lia.
    + intros Hz. assert (total F m = total (fun _ => 0) m) as ->.
      { apply total_ext. intros g n Hg. pose proof (HF g n Hg).
        destruct (decide (0 < F n)) as [Hp|]; [|lia]. exfalso. pose proof (Hz g n Hg Hp) as Hx. by apply not_elem_of_nil in Hx. }
      clear. induction m as [|k b m Hk IH] using map_ind; [by rewrite total_empty|].
      rewrite total_insert by done. lia.
  - apply NoDup_cons in Hnd as [Hx Hnd].
    destruct (IH (delete x m) Hnd) as [Hle Heq].
    { intros g Hg. rewrite lookup_delete_ne by (by intros ->). apply HG. by right. }
    { intros g n [_ Hg]%lookup_delete_Some. by apply (HF g). }
    specialize (HG x (list_elem_of_here _ _)).
    assert (total F m = G x + total F (delete x m)) as Ht.
    { destruct (m !! x) as [n|] eqn:E; [rewrite HG; by apply total_delete|].
      rewrite HG. by rewrite delete_id by done. }
    split; [lia|]. transitivity (sumZ_with G l = total F (delete x m)); [lia|]. rewrite Heq. split.
    + intros H g n Hg Hp. destruct (decide (g = x)) as [->|Hne]; [left|right].
      apply (H g n); [by rewrite lookup_delete_ne|done].
    + intros H g n [Hne Hg]%lookup_delete_Some Hp. specialize (H g n Hg Hp).
      by apply elem_of_cons in H as [->|].
Qed.

(** A function of the walk is unshared when all its parents are in the walk. *)
Lemma unshared_spec fns sorted f :
  counts_exact fns -> NoDup sorted -> is_Some (fns !! f) ->
  f ∈ compute_unshared_functions fns sorted <->
  f ∈ sorted /\ forall g, Some f ∈ nexts_of fns g -> g ∈ sorted.
Proof.
  intros Hex Hnd [n Hf]. unfold compute_unshared_functions.
  rewrite elem_of_list_to_set, list_elem_of_filter, Hf.
  destruct (total_sum_in (fun n => occurrences (next_functions n) f) fns sorted
    (fun g => occurrences (nexts_of fns g) f) Hnd) as [_ H].
  { intros g _. unfold nexts_of. by destruct (fns !! g). }
  { intros g m _. apply occurrences_nonneg. }
  rewrite (Hex f n Hf). change (local_in_degree fns sorted f) with
    (sumZ_with (fun g => occurrences (nexts_of fns g) f) sorted).
  change (in_degree fns f) with (total (fun n => occurrences (next_functions n) f) fns).
  rewrite H. split; intros [H1 H2]; split; try done.
  - intros g Hg. unfold nexts_of in Hg. destruct (fns !! g) as [m|] eqn:Em; [|by apply not_elem_of_nil in Hg].
    apply (H1 g m Em). by apply occurrences_pos.
  - intros g m Hm Hp. apply H2. rewrite (nexts_of_lookup _ _ _ Hm). by apply occurrences_pos.
Qed.

(** ** What a pass does to the functions *)

Section Passes.
Context {T : Type} `{!Tensor T} `{!Backward T}.
Implicit Types (st : Engine T) (v w : VariableImpl T).

Lemma accumulate_inputs_functions inputs grads st :
  functions (accumulate_inputs inputs grads st).1 = functions st.
Proof.
  revert grads st. induction inputs as [|x inputs IH]; intros [|g grads] st; try done. cbn.
  assert (functions (accumulate_input x g st).1.2 = functions st) as H1.
  { unfold accumulate_input. destruct (x ≫= _) as [[y v]|]; [|done].
    destruct (negb (requires_grad_ v)); [done|]. destruct (negb _); [done|].
    by destruct (is_leaf v || retain_grad_ v). }
  destruct (accumulate_input x g st) as [[g' st1] [[]|e]]; cbn in H1; [|done].
  specialize (IH grads st1). destruct (accumulate_inputs inputs grads st1). cbn in *. congruence.
Qed.

(** The functions of [rel] have been released. *)
Definition released_at (rel : gset Z) (fns fns' : gmap Z FunctionNode) : Prop :=
  forall g, fns' !! g = (fun n => if decide (g ∈ rel) then release n else n) <$> fns !! g.

Lemma released_at_empty fns : released_at ∅ fns fns.
Proof.
  intros g. destruct (fns !! g) as [n|]; [|done]. cbn. by rewrite decide_False by apply not_elem_of_empty.
Qed.

Lemma released_at_singleton f fns : released_at {[f]} fns (alter release f fns).
Proof.
  intros g. rewrite lookup_alter. destruct (decide (f = g)) as [->|Hne]; (destruct (fns !! g) as [n|]; [|done]); cbn.
  - by rewrite decide_True by set_solver.
  - by rewrite decide_False by set_solver.
Qed.

Lemma process_functions multi r u f st :
  let res := process multi r u f st in
  exists rel : gset Z, released_at rel (functions st) (functions res.1) /\
    (forall g, g ∈ rel -> g = f /\ g ∈ u /\ r = false) /\
    (res.2 = Ok tt -> r = false -> f ∈ u -> is_Some (functions st !! f) -> f ∈ rel).
Proof.
  assert (forall st1 (res : result unit), functions st1 = functions st -> res <> Ok tt \/ functions st !! f = None ->
    exists rel : gset Z, released_at rel (functions st) (functions st1) /\
      (forall g, g ∈ rel -> g = f /\ g ∈ u /\ r = false) /\
      (res = Ok tt -> r = false -> f ∈ u -> is_Some (functions st !! f) -> f ∈ rel)) as Hsame.
  { intros st1 res E Hres. exists ∅. split_and!.
    - rewrite E. apply released_at_empty.
    - intros g Hg. set_solver.
    - intros -> _ _ [n Hn]. destruct Hres; congruence. }
  assert (forall st1, functions st1 = functions st ->
    exists rel : gset Z, released_at rel (functions st) (functions (release_function r u f st1)) /\
      (forall g, g ∈ rel -> g = f /\ g ∈ u /\ r = false) /\
      (Ok tt = Ok tt -> r = false -> f ∈ u -> is_Some (functions st !! f) -> f ∈ rel)) as Hrel.
  { intros st1 E. unfold release_function. destruct r; cbn.
    - exists ∅. rewrite E. split_and!; [apply released_at_empty|set_solver|done].
    - case_bool_decide as Hu; cbn.
      + exists {[f]}. rewrite E. split_and!; [apply released_at_singleton|set_solver|set_solver].
      + exists ∅. rewrite E. split_and!; [apply released_at_empty|set_solver|done]. }
  cbn. unfold process. destruct (functions st !! f) as [n|] eqn:En; [|apply Hsame; auto].
  destruct (default [] _) as [|g gs]; [by apply Hrel|].
  destruct (input_grads multi f n _) as [raw|e]; [|apply Hsame; [done|by left]].
  pose proof (accumulate_inputs_functions (input_variables n) raw st) as Ha.
  destruct (accumulate_inputs (input_variables n) raw st) as [st1 [grads|e]]; cbn in Ha |- *.
  - apply Hrel. destruct (propagate_spec (next_functions n) grads st1) as [E _]. congruence.
  - apply Hsame; [done|by left].
Qed.

Lemma released_at_trans rel rel' fns fns' fns'' :
  released_at rel fns fns' -> released_at rel' fns' fns'' -> released_at (rel ∪ rel') fns fns''.
Proof.
  intros H1 H2 g. rewrite H2, H1. destruct (fns !! g) as [n|]; [|done]. cbn. f_equal.
  repeat case_decide; try set_solver; done.
Qed.

Lemma process_all_functions multi r u order st :
  let res := process_all multi r u order st in
  exists rel : gset Z, released_at rel (functions st) (functions res.1) /\
    (forall g, g ∈ rel -> g ∈ order /\ g ∈ u /\ r = false) /\
    (res.2 = Ok tt -> r = false -> forall g, g ∈ order -> g ∈ u -> is_Some (functions st !! g) -> g ∈ rel).
Proof.
  revert st. induction order as [|f order IH]; intros st; cbn.
  - exists ∅. split_and!; [apply released_at_empty|set_solver|].
    intros _ _ g Hg. by apply not_elem_of_nil in Hg.
  - destruct (process_functions multi r u f st) as (rel & H1 & H2 & H3).
    destruct (process multi r u f st) as [st1 [[]|e]]; cbn [fst snd] in *.
    + destruct (IH st1) as (rel' & K1 & K2 & K3). exists (rel ∪ rel'). split_and!.
      * by eapply released_at_trans.
      * intros g [Hg|Hg]%elem_of_union; [apply H2 in Hg as (-> & ? & ?)|apply K2 in Hg as (? & ? & ?)];
          split_and!; set_solver.
      * intros Hok Hr g [->|Hg]%elem_of_cons Hu Hs; apply elem_of_union; [left; by apply H3|right].
        apply K3; [done..|]. rewrite H1. by apply fmap_is_Some.
    + exists rel. split_and!; [done| |done]. intros g Hg. apply H2 in Hg as (-> & ? & ?). set_solver.
Qed.

Lemma drop_grad_fns_functions l st : functions (foldl (fun st x => drop_grad_fn x st) st l) = functions st.
Proof. revert st. induction l as [|x l IH]; intros st; [done|]. cbn. rewrite IH. by destruct x. Qed.

Definition emptied (n : FunctionNode) : FunctionNode := mkFunction [] [] (parent_count n) (f_saved n).

(** The loop of [cleanup_graph] over the sorted functions. *)
Lemma cleanup_functions u l st :
  NoDup l ->
  let fns := functions st in
  let fns' := functions (foldl (cleanup_function u) st l) in
  (counts_exact fns -> counts_exact fns') /\
  forall g, fns' !! g =
    (fun n => add_parents (- sumZ_with (fun f => if decide (f ∈ u) then occurrences (nexts_of fns f) g else 0) l)
                (if decide (g ∈ l /\ g ∈ u) then emptied n else n)) <$> fns !! g.
Proof.
  revert st. induction l as [|f l IH]; intros st Hnd; cbn.
  { split; [done|]. intros g. destruct (functions st !! g) as [[]|]; [|done]. cbn.
    rewrite decide_False by (intros [Hg _]; by apply not_elem_of_nil in Hg). unfold add_parents. cbn.
    by rewrite Z.add_0_r. }
  apply NoDup_cons in Hnd as [Hf Hnd]. destruct (IH (cleanup_function u st f) Hnd) as [IHe IHl].
  clear IH. unfold cleanup_function in IHe, IHl |- *. destruct (decide (f ∈ u)) as [Hu|Hu].
  2: { split; [done|]. intros g. rewrite IHl. destruct (functions st !! g) as [n|]; [|done]. cbn. f_equal. f_equal.
       destruct (decide (g = f)) as [->|Hne]; repeat case_decide; set_solver. }
  cbn [functions set_functions] in IHe, IHl |- *. rewrite drop_grad_fns_functions in IHe, IHl |- *.
  set (fns := functions st) in *. set (fns1 := alter clear_inputs f fns) in *.
  destruct (fns !! f) as [n0|] eqn:En.
  2: { assert (fns1 = fns) as -> by by apply alter_None.
       assert (set_next_functions f [] fns = fns) as E.
       { unfold set_next_functions, nexts_of. rewrite En. cbn. by apply alter_None. }
       rewrite E in *. split; [done|]. intros g. rewrite IHl. destruct (fns !! g) as [n|] eqn:Eg; [|done].
       cbn. unfold nexts_of at 2. rewrite En. cbn. f_equal. f_equal.
       destruct (decide (g = f)) as [->|Hne]; [congruence|]. repeat case_decide; set_solver. }
  assert (fns1 !! f = Some (clear_inputs n0)) as E1 by (subst fns1; by rewrite lookup_alter_eq, En).
  assert (forall g, set_next_functions f [] fns1 !! g =
    (fun n => add_parents (- occurrences (next_functions n0) g) (if decide (g = f) then emptied n else n)) <$> fns !! g) as E2.
  { intros g. rewrite (set_next_functions_lookup f [] fns1 g _ E1). subst fns1. rewrite lookup_alter.
    destruct (decide (f = g)) as [->|Hne].
    - rewrite En. cbn. rewrite !decide_True by done. unfold add_parents, emptied, occurrences. cbn. f_equal. f_equal. lia.
    - destruct (fns !! g) as [n|]; [|done]. cbn. rewrite !decide_False by congruence.
      destruct n. unfold add_parents, occurrences. cbn. f_equal. f_equal. lia. }
  split.
  - intros He. apply IHe, set_next_functions_exact; [by eexists|]. by apply counts_exact_keep.
  - intros g. rewrite IHl, E2. destruct (fns !! g) as [n|]; [|done]. cbn. f_equal.
    assert (sumZ_with (fun h => if decide (h ∈ u) then occurrences (nexts_of (set_next_functions f [] fns1) h) g else 0) l =
            sumZ_with (fun h => if decide (h ∈ u) then occurrences (nexts_of fns h) g else 0) l) as Es.
    { assert (forall h, h ∈ l -> nexts_of (set_next_functions f [] fns1) h = nexts_of fns h) as Hn.
      { intros h Hh. unfold nexts_of. rewrite E2. destruct (fns !! h) as [m|]; [|done]. cbn.
        rewrite decide_False; [done|]. by intros ->. }
      clear -Hn. induction l as [|h l IH]; [done|]. cbn. rewrite (Hn h) by left. rewrite IH; [done|].
      intros x Hx. apply Hn. by right. }
    rewrite Es, (nexts_of_lookup fns f n0 En).
    destruct (decide (g = f)) as [->|Hne].
    + rewrite decide_False by (intros [? _]; done). rewrite decide_True by (split; [left|done]).
      unfold add_parents, emptied. cbn. f_equal. lia.
    + destruct (decide (g ∈ l /\ g ∈ u)) as [[H1 H2]|H].
      * rewrite decide_True by (split; [by right|done]). unfold add_parents, emptied. cbn. f_equal. lia.
      * rewrite decide_False by (intros [[->|?]%elem_of_cons ?]; [done|]; by apply H).
        unfold add_parents. cbn. f_equal. lia.
Qed.

(** ** The heap after a pass *)

Definition heap_ok (fns : gmap Z FunctionNode) : Prop := heap_closed fns /\ counts_exact fns.

Lemma released_at_nexts rel fns fns' g : released_at rel fns fns' -> nexts_of fns' g = nexts_of fns g.
Proof.
  intros H. unfold nexts_of. rewrite H. destruct (fns !! g) as [n|]; [|done]. cbn. by destruct (decide _).
Qed.

Lemma released_at_exact rel fns fns' : released_at rel fns fns' -> counts_exact fns -> counts_exact fns'.
Proof.
  intros H He g n Hg. rewrite (in_degree_links fns fns').
  - rewrite H in Hg. destruct (fns !! g) as [m|] eqn:Em; [|done]. cbn in Hg. injection Hg as <-.
    rewrite <-(He g m Em). by destruct (decide _).
  - intros h. rewrite H. destruct (fns !! h) as [m|]; [|done]. cbn. by destruct (decide _).
Qed.

(** The edges of the unshared functions of the walk into [g], which go. *)
Definition removed_edges (fns : gmap Z FunctionNode) (u : gset Z) (sorted : list Z) (g : Z) : Z :=
  sumZ_with (fun f => if decide (f ∈ u) then occurrences (nexts_of fns f) g else 0) sorted.

Lemma removed_edges_none fns u sorted g :
  (forall f, f ∈ sorted -> ~ Some g ∈ nexts_of fns f) -> removed_edges fns u sorted g = 0.
Proof.
  unfold removed_edges. induction sorted as [|f l IH]; intros H; [done|]. cbn.
  rewrite IH by (intros x Hx; apply H; by right).
  assert (occurrences (nexts_of fns f) g = 0) as ->; [|by destruct (decide _)].
  pose proof (occurrences_nonneg (nexts_of fns f) g). pose proof (occurrences_pos (nexts_of fns f) g).
  assert (~ Some g ∈ nexts_of fns f) by (apply H; left). assert (~ 0 < occurrences (nexts_of fns f) g) by tauto. lia.
Qed.

(** The pass from the loop to the end of [cleanup_graph]. *)
Lemma pass_functions multi r u sorted roots st st1 :
  NoDup sorted -> functions st1 = functions (process_all multi r u (reverse sorted) st).1 ->
  exists rel : gset Z,
    (forall g, g ∈ rel -> g ∈ sorted /\ g ∈ u /\ r = false) /\
    ((process_all multi r u (reverse sorted) st).2 = Ok tt -> r = false ->
       forall g, g ∈ sorted -> g ∈ u -> is_Some (functions st !! g) -> g ∈ rel) /\
    (counts_exact (functions st) -> counts_exact (functions (cleanup_graph r u sorted roots st1))) /\
    forall g, functions (cleanup_graph r u sorted roots st1) !! g =
      (fun n => let n := if decide (g ∈ rel) then release n else n in
        if r then n
        else add_parents (- removed_edges (functions st) u sorted g)
               (if decide (g ∈ sorted /\ g ∈ u) then emptied n else n)) <$> functions st !! g.
Proof.
  intros Hnd E. destruct (process_all_functions multi r u (reverse sorted) st) as (rel & H1 & H2 & H3).
  rewrite <-E in H1. exists rel. split_and!.
  - intros g Hg. apply H2 in Hg as (Hg & ? & ?). by rewrite elem_of_reverse in Hg.
  - intros Hok Hr g Hg. apply H3; [done..|]. by rewrite elem_of_reverse.
  - intros He. unfold cleanup_graph. destruct r; [by eapply released_at_exact|].
    rewrite drop_grad_fns_functions. apply (cleanup_functions u sorted st1 Hnd). by eapply released_at_exact.
  - intros g. unfold cleanup_graph. destruct r.
    + rewrite H1. done.
    + rewrite drop_grad_fns_functions. rewrite (proj2 (cleanup_functions u sorted st1 Hnd)), H1.
      destruct (functions st !! g) as [n|]; [|done]. cbn. f_equal. f_equal. unfold removed_edges.
      f_equal. clear -H1. induction sorted as [|f l IH]; [done|]. cbn.
      by rewrite IH, (released_at_nexts _ _ _ f H1).
Qed.

Lemma pass_heap_ok multi r u sorted roots st st1 :
  NoDup sorted -> functions st1 = functions (process_all multi r u (reverse sorted) st).1 ->
  heap_ok (functions st) -> heap_ok (functions (cleanup_graph r u sorted roots st1)).
Proof.
  intros Hnd E [Hc He]. destruct (pass_functions multi r u sorted roots st st1 Hnd E) as (rel & _ & _ & Hex & Hl).
  split; [|by apply Hex]. intros f c Hfc. rewrite Hl. apply fmap_is_Some, (Hc f).
  unfold nexts_of in Hfc |- *. rewrite Hl in Hfc. destruct (functions st !! f) as [n|]; [|done].
  cbn in Hfc. revert Hfc. destruct r; repeat case_decide; try done; by intros ?%not_elem_of_nil.
Qed.

Lemma finalize_functions root st : functions (finalize_root root (finalize_leaves st)) = functions st.
Proof. done. Qed.

Lemma execute_cases root gradient r st :
  let res := execute root gradient r st in
  (functions res.1 = functions st /\
   forall v f, variables st !! root = Some v -> requires_grad_ v = true -> grad_fn_ v = Some f ->
     res.2 <> Ok tt) \/
  exists v f sorted st0 st1, variables st !! root = Some v /\ grad_fn_ v = Some f /\
    sort_functions (functions st) [f] = Ok sorted /\ functions st0 = functions st /\
    let u := compute_unshared_functions (functions st) sorted in
    functions st1 = functions (process_all false r u (reverse sorted) st0).1 /\
    res.2 = (process_all false r u (reverse sorted) st0).2 /\
    functions res.1 = functions (cleanup_graph r u sorted [Some root] st1).
Proof.
  cbn. unfold execute. destruct (variables st !! root) as [v|] eqn:Ev; [|by left].
  destruct (requires_grad_ v) eqn:Er; cbn [negb]; [|left; split; [done|]; intros; congruence].
  destruct (root_grad v gradient) as [seed|e]; [|by left].
  set (st0 := if is_leaf v || retain_grad_ v then accumulate_root root seed st else st).
  assert (functions st0 = functions st) as Hf0 by (subst st0; by destruct (_ || _)). clearbody st0.
  destruct (grad_fn_ v) as [f|] eqn:Ef; [|left; split; [done|]; intros; congruence]. cbn [functions set_touched clear_gradients set_accumulators].
  rewrite topological_sort_roots, Hf0. change (sort_roots _ _ [f]) with (sort_functions (functions st) [f]).
  destruct (sort_functions (functions st) [f]) as [sorted|e] eqn:Es; [|by left].
  set (st2 := accumulate_grad f seed (set_touched ∅ (clear_gradients st0))).
  set (u := compute_unshared_functions (functions st) sorted).
  right. exists v, f, sorted, st2.
  destruct (process_all false r u (reverse sorted) st2) as [st3 res] eqn:Ep.
  exists (clear_gradients (match res with Ok _ => finalize_root root (finalize_leaves st3) | Err _ => st3 end)).
  cbn zeta. fold u. rewrite Ep. split_and!; try done. by destruct res.
Qed.

Lemma foldl_functions {A} (F : Engine T -> A -> Engine T) l st :
  (forall st x, functions (F st x) = functions st) -> functions (foldl F st l) = functions st.
Proof. intros H. revert st. induction l as [|x l IH]; intros st; [done|]. cbn. by rewrite IH, H. Qed.

Lemma execute_multi_cases roots grads r st :
  let res := execute_multi roots grads r st in
  functions res.1 = functions st \/
  exists fs sorted st0 st1,
    (forall f, f ∈ fs -> exists x v, variables st !! x = Some v /\ grad_fn_ v = Some f) /\
    sort_functions (functions st) fs = Ok sorted /\ functions st0 = functions st /\
    let u := compute_unshared_functions (functions st) sorted in
    functions st1 = functions (process_all true r u (reverse sorted) st0).1 /\
    functions res.1 = functions (cleanup_graph r u sorted roots st1).
Proof.
  cbn. unfold execute_multi. destruct roots as [|x0 roots0]; [by left|]. set (roots := x0 :: roots0).
  destruct (negb _); [by left|].
  set (st0 := set_touched ∅ (clear_gradients st)).
  destruct (root_seeds st0 (zip roots grads)) as [seeds|e]; [|by left].
  set (F := fun (st : Engine T) (p : Z * T) => let '(x, g) := p in
     match variables st !! x with
     | Some v => if is_leaf v || retain_grad_ v then accumulate_root x g st else st
     | None => st end).
  set (st1 := foldl F st0 seeds).
  assert (functions st1 = functions st) as Hf1.
  { unfold st1. rewrite foldl_functions; [done|]. intros s [x g]. unfold F.
    destruct (variables s !! x); [|done]. by destruct (_ || _). }
  assert (forall x, (grad_fn_ <$> variables st1 !! x) = (grad_fn_ <$> variables st !! x)) as Hv1.
  { unfold st1. change (variables st) with (variables st0). generalize st0. clear.
    induction seeds as [|[x g] seeds IH]; intros s y; [done|]. cbn. rewrite IH. unfold F.
    destruct (variables s !! x) as [v|] eqn:Ev; [|done]. destruct (_ || _); [|done]. cbn.
    rewrite lookup_alter. case_decide as E; [subst y; by rewrite Ev|done]. }
  set (fs := omap (fun x => x ≫= grad_fn_of st1) roots).
  assert (forall f, f ∈ fs -> exists x v, variables st !! x = Some v /\ grad_fn_ v = Some f) as Hfs.
  { intros f Hf. unfold fs in Hf. apply list_elem_of_omap in Hf as ([x|] & _ & Hx); [|done]. cbn in Hx.
    unfold grad_fn_of in Hx. specialize (Hv1 x). destruct (variables st1 !! x) as [v1|]; [|done].
    destruct (variables st !! x) as [v|] eqn:Ev; [|done]. cbn in Hv1, Hx. exists x, v. split; [done|congruence]. }
  rewrite Hf1. destruct (sort_functions (functions st) fs) as [sorted|e] eqn:Es; [|by left].
  set (u := compute_unshared_functions (functions st) sorted).
  set (st2 := foldl _ st1 seeds).
  assert (functions st2 = functions st) as Hf2.
  { unfold st2. rewrite foldl_functions; [done|]. intros s [x g]. by destruct (grad_fn_of s x). }
  right. exists fs, sorted, st2.
  destruct (process_all true r u (reverse sorted) st2) as [st3 res] eqn:Ep.
  set (st4 := match res with Ok _ => _ | Err _ => _ end).
  assert (functions st4 = functions st3) as Hf4.
  { unfold st4. destruct res; [|done]. rewrite foldl_functions; [done|]. by intros s [x|]. }
  exists (clear_gradients st4). cbn zeta. fold u. rewrite Ep. by split_and!.
Qed.

(** ** The contract *)

(** C39: every pass, from one root or several, whether it ends normally or with
    an exception, keeps the graph consistent: handles stay valid and every
    [parent_count] stays the number of entries of [next_functions()] that name
    the function. *)
Theorem passes_keep_counts_exact root gradient roots gradients retain st :
  (forall x v f, variables st !! x = Some v -> grad_fn_ v = Some f -> is_Some (functions st !! f)) ->
  heap_ok (functions st) ->
  heap_ok (functions (execute root gradient retain st).1) /\
  heap_ok (functions (execute_multi roots gradients retain st).1).
Proof.
  intros Hv Hok. pose proof Hok as [Hc _]. split.
  - destruct (execute_cases root gradient retain st) as [[-> _]|(v & f & sorted & st0 & st1 & H1 & H2 & H3 & H4 & H5 & _ & H6)];
      [done|]. rewrite H6. eapply pass_heap_ok; [|exact H5|by rewrite H4].
    pose proof (sort_functions_spec (functions st) [f] Hc) as Hs. rewrite H3 in Hs. apply Hs.
    intros g ->%list_elem_of_singleton. by apply (Hv root v).
  - destruct (execute_multi_cases roots gradients retain st) as [->|(fs & sorted & st0 & st1 & H1 & H3 & H4 & H5 & H6)];
      [done|]. rewrite H6. eapply pass_heap_ok; [|exact H5|by rewrite H4].
    pose proof (sort_functions_spec (functions st) fs Hc) as Hs. rewrite H3 in Hs. apply Hs.
    intros g Hg. destruct (H1 g Hg) as (x & v & Hx & Hgv). by apply (Hv x v).
Qed.

End Passes.
End Release.
