(* ===== verification/AutogradClient.v ===== *)
(** * The backward pass: what its callers may rely on

    The contracts of the sort, of the passes from one root and from several, and
    of the release of the graph; and runs in which the release takes down a
    graph that is still in use. *)

From stdpp Require Import base list numbers strings gmap relations.
From S2P Require Import Prelude MapSums DType AutogradSort AutogradEngine AutogradAdjoint AutogradBackward AutogradRelease.

Module AutogradClient.
Import Autograd Adjoint Backprop Release.

(** ** Checking a concrete heap *)

Lemma heap_closed_check fns :
  map_Forall (fun _ n => Forall (fun oc => match oc with Some c => is_Some (fns !! c) | None => True end)
                           (next_functions n)) fns -> heap_closed fns.
Proof.
  intros H f c Hc. unfold nexts_of in Hc. destruct (fns !! f) as [n|] eqn:E; [|by apply not_elem_of_nil in Hc].
  specialize (H f n E). cbn in H. rewrite Forall_forall in H. by apply (H (Some c)).
Qed.

Lemma counts_exact_check fns :
  map_Forall (fun f n => parent_count n = in_degree fns f) fns -> counts_exact fns.
Proof. intros H f n Hf. by apply (H f n). Qed.

Lemma two_losses_ok : heap_ok (functions two_losses).
Proof.
  split.
  - apply heap_closed_check. unfold two_losses. cbn [functions list_to_map foldr fst snd].
    repeat (apply map_Forall_insert_2; [repeat constructor; by eexists|]). apply map_Forall_empty.
  - apply counts_exact_check, (bool_decide_unpack _). vm_compute. done.
Qed.

(** ** The sort *)

(** C22: on a closed heap [topological_sort] ends.  It succeeds exactly when no
    function reachable from the root reaches itself, and then lists each
    reachable function once, after every function it refers to; otherwise it
    throws. *)
Theorem topological_sort_correct (fns : gmap Z FunctionNode) (root : Z) :
  heap_closed fns -> is_Some (fns !! root) ->
  let edges := edge (nexts_of fns) in
  match topological_sort (nexts_of fns) (elements (dom fns)) root with
  | Ok l => NoDup l /\ (forall f, f ∈ l <-> rtc edges root f) /\ children_first (nexts_of fns) l /\
            forall f, rtc edges root f -> ~ tc edges f f
  | Err e => e = AutogradException "Cycle detected in computation graph" /\
             exists f, rtc edges root f /\ tc edges f f
  end.
Proof.
  intros Hc Hr edges. rewrite topological_sort_roots.
  pose proof (sort_functions_spec fns [root] Hc ltac:(by intros r ->%list_elem_of_singleton)) as H.
  unfold sort_functions in H. destruct (sort_roots _ _ [root]) as [l|e].
  - destruct H as (Hnd & Hcf & Hl).
    assert (forall f, f ∈ l <-> rtc edges root f) as Hin.
    { intros f. rewrite Hl. split; [by intros (r & ->%list_elem_of_singleton & ?)|].
      intros Hf. exists root. by split; [left|]. }
    split_and!; [done..|]. intros f Hf. apply (children_first_acyclic (nexts_of fns) l); [done..|by apply Hin].
  - destruct H as (-> & r & f & ->%list_elem_of_singleton & Hf & Ht). split; [done|]. by exists f.
Qed.

Lemma topological_sort_correct_witness :
  topological_sort (nexts_of (functions two_losses)) (elements (dom (functions two_losses))) 14 = Ok [12; 13; 14] /\
  (12 ∈ [12; 13; 14] <-> rtc (edge (nexts_of (functions two_losses))) 14 12).
Proof.
  pose proof (topological_sort_correct (functions two_losses) 14 (proj1 two_losses_ok) ltac:(by eexists)) as H.
  assert (topological_sort (nexts_of (functions two_losses)) (elements (dom (functions two_losses))) 14
          = Ok [12; 13; 14]) as E by (vm_compute; reflexivity).
  rewrite E in H. split; [exact E|]. exact (proj1 (proj2 H) 12).
Defined.

(** ** The gradients *)

Section Gradients.
Context {T : Type} `{!Tensor T} `{!Backward T}.


(** ** Several roots *)

Lemma process_all_multi r u order (st : Engine T) :
  (forall f l, check_for_anomaly f l = Ok tt) ->
  process_all true r u order st = process_all false r u order st.
Proof.
  intros Ha. assert (forall f n total, input_grads true f n total = input_grads false f n total) as Hi.
  { intros f n total. unfold input_grads, check_before. rewrite Ha. cbn.
    by destruct (validate_saved_tensors f n) as [[]|e]. }
  revert st. induction order as [|f order IH]; intros st; [done|]. cbn.
  assert (process true r u f st = process false r u f st) as ->.
  { unfold process. destruct (functions st !! f); [|done]. destruct (default [] _); [done|]. by rewrite Hi. }
  destruct (process false r u f st) as [st1 [|]]; [apply IH|done].
Qed.

(** [execute_multi] on one root with its gradient is [execute], whatever
    they end with, when no anomaly is reported. *)
Theorem execute_multi_single root v f g retain (st : Engine T) :
  (forall f l, check_for_anomaly f l = Ok tt) ->
  variables st !! root = Some v -> requires_grad_ v = true -> grad_fn_ v = Some f ->
  execute_multi [Some root] [g] retain st = execute root (Some g) retain st.
Proof.
  intros Ha Hv Hr Hf.
  assert (root_seeds (set_touched ∅ (clear_gradients st)) (zip [Some root] [g]) =
          let* seed := root_grad v (Some g) in Ok [(root, seed)]) as Hs.
  { unfold root_seeds. cbn [zip_with rfoldM mbind option_bind variables set_touched clear_gradients set_accumulators].
    rewrite Hv. cbn [mbind option_bind]. rewrite Hr. cbn [negb].
    by destruct (root_grad v (Some g)). }
  unfold execute_multi, execute. cbn [length Nat.eqb negb]. rewrite Hs, Hv, Hr. cbn [negb].
  destruct (root_grad v (Some g)) as [seed|e]; cbn [rbind]; [|by destruct st].
  cbn [foldl variables set_touched clear_gradients set_accumulators]. rewrite Hv, Hf.
  set (b := is_leaf v || retain_grad_ v).
  set (st1 := if b then accumulate_root root seed st else st).
  assert ((if b then accumulate_root root seed (set_touched ∅ (clear_gradients st))
           else set_touched ∅ (clear_gradients st)) = set_touched ∅ (clear_gradients st1)) as -> by by destruct b.
  assert (grad_fn_of (set_touched ∅ (clear_gradients st1)) root = Some f) as Hgf.
  { unfold grad_fn_of, st1. destruct b; cbn; [rewrite lookup_alter_eq|]; rewrite Hv; cbn; done. }
  assert (restore st = restore st1) as -> by by destruct b.
  cbn [omap list_omap mbind option_bind]. rewrite Hgf. unfold sort_functions. rewrite topological_sort_roots.
  destruct (sort_roots _ _ [f]) as [sorted|e]; [|done].
  rewrite process_all_multi by done.
  by destruct (process_all false retain _ (reverse sorted) _) as [st2 [|]].
Qed.
End Gradients.

#[local] Existing Instance scalars.
#[local] Existing Instance two_losses_factors.

Lemma scalars_dtype (t : DType * Z) d : dtype (to t d) = d.
Proof. done. Qed.


Lemma execute_multi_single_witness :
  (execute_multi [Some 4] [(Float32, 1)] false two_losses).2 = Ok tt.
Proof.
  assert (forall f (l : list (DType * Z)), check_for_anomaly f l = Ok tt) as Ha by (intros; reflexivity).
  rewrite (execute_multi_single 4 (node 45 14) 14 (Float32, 1) false two_losses Ha eq_refl eq_refl eq_refl).
  vm_compute. reflexivity.
Defined.

(** ** Releasing the graph *)

Lemma two_losses_handles x v f :
  variables two_losses !! x = Some v -> grad_fn_ v = Some f -> is_Some (functions two_losses !! f).
Proof.
  assert (map_Forall (fun _ v => match grad_fn_ v with Some f => is_Some (functions two_losses !! f) | None => True end)
    (variables two_losses)) as H.
  { unfold two_losses. cbn [variables list_to_map foldr fst snd].
    repeat (apply map_Forall_insert_2; [cbn; (exact I || by eexists)|]). apply map_Forall_empty. }
  intros Hx Hf. specialize (H x v Hx). cbn beta in H. by rewrite Hf in H.
Qed.

Lemma passes_keep_counts_exact_witness :
  heap_ok (functions (execute 4 None false two_losses).1) /\
  heap_ok (functions (execute_multi [Some 4; Some 5] [(Float32, 1); (Float32, 1)] false two_losses).1).
Proof.
  exact (passes_keep_counts_exact 4 None [Some 4; Some 5] [(Float32, 1); (Float32, 1)] false two_losses
    two_losses_handles two_losses_ok).
Defined.

Lemma two_losses_unreached : ~ rtc (edge (nexts_of (functions two_losses))) 14 15.
Proof.
  pose proof (sort_functions_spec (functions two_losses) [14] (proj1 two_losses_ok)
    ltac:(intros r ->%list_elem_of_singleton; by eexists)) as H.
  assert (sort_functions (functions two_losses) [14] = Ok [12; 13; 14]) as E by (vm_compute; reflexivity).
  rewrite E in H. destruct H as (_ & _ & H). intros Hr.
  assert (15 ∈ [12; 13; 14]) as Hin by (apply H; exists 14; by split; [left|]).
  rewrite !elem_of_cons in Hin. by destruct Hin as [|[|[|?%not_elem_of_nil]]].
Qed.


(** The guard against releasing a graph that is still in use looks at the
    direct parents of a function only.  With [z] shared by two losses, the pass
    from the first leaves [z]'s function but takes down the function of [y], on
    which [z] depends: the pass from the second loss, which would have
    succeeded, throws. *)
Theorem live_graph_torn_down :
  let st := (execute 4 None false two_losses).1 in
  (execute 4 None false two_losses).2 = Ok tt /\
  (execute 5 None false two_losses).2 = Ok tt /\
  functions st !! 15 = functions two_losses !! 15 /\
  functions st !! 12 = Some (mkFunction [] [] 1 false) /\
  (execute 5 None false st).2 = Err (RuntimeError "backward() expected saved tensors but got 0").
Proof. vm_compute. repeat split. Qed.

(** [y = x * x] is shared by two losses directly: the first pass clears [y]'s
    [grad_fn], so the second takes [y] for a leaf and stores a gradient in it. *)
Definition two_sums : Engine (DType * Z) :=
  mkEngine
    (list_to_map [(12, mkFunction [None; None] [Some 1; Some 1] 2 true);
                  (14, mkFunction [Some 12] [Some 2] 0 true);
                  (15, mkFunction [Some 12] [Some 2] 0 true)])
    (list_to_map [(1, leaf 3); (2, node 9 12); (4, node 9 14); (5, node 9 15)]) ∅ ∅.

Lemma shared_variable_becomes_leaf :
  let st := (execute 4 None false two_sums).1 in
  let st' := (execute 5 None false st).1 in
  (execute 5 None false st).2 = Ok tt /\
  (grad_ <$> variables st' !! 1) = Some (Some (Float32, 12)) /\
  (grad_fn_ <$> variables st !! 2) = Some None /\
  (grad_ <$> variables (execute 5 None false two_sums).1 !! 2) = Some None /\
  (grad_ <$> variables st' !! 2) = Some (Some (Float32, 1)).
Proof. vm_compute. repeat split. Qed.

(** [z = y + y] with a hook on [y] that clips at 1: the hook runs on each of the
    two contributions, so the gradient that goes through [y] is 2. *)
Definition clip (g : DType * Z) : DType * Z := (g.1, Z.min 1 g.2).
Definition hooked_twice : Engine (DType * Z) :=
  mkEngine
    (list_to_map [(12, mkFunction [None; None] [Some 1; Some 1] 2 true);
                  (13, mkFunction [Some 12; Some 12] [Some 2; Some 2] 0 true)])
    (list_to_map [(1, leaf 3); (2, mkVariable (Float32, 9) true true false [clip] (Some 12) None); (4, node 18 13)]) ∅ ∅.

Lemma hook_runs_per_use :
  let backwards := factors (list_to_map [(12, [3; 3]); (13, [1; 1])]) in
  let st := (execute (H := backwards) 4 None false hooked_twice).1 in
  (grad_ <$> variables st !! 2) = Some (Some (Float32, 2)).
Proof. vm_compute. reflexivity. Qed.

(** A second pass from the same root, without [retain_graph], takes the root for
    a leaf: no gradient flows and nothing is thrown. *)
Lemma second_pass_silent :
  let st := (execute 4 None false two_losses).1 in
  (execute 4 None false st).2 = Ok tt /\
  (grad_ <$> variables (execute 4 None false st).1 !! 4) = Some (Some (Float32, 1)) /\
  (grad_ <$> variables (execute 4 None false st).1 !! 1) = (grad_ <$> variables st !! 1).
Proof. vm_compute. repeat split. Qed.
End AutogradClient.
