(* ===== verification/JitOps.v ===== *)
(** * The operations of the JIT's graphs

    [enum class OpType] of include/tenzor/jit/tracer.hpp in its order, the two
    tables between operations and names in src/jit/tracer.cpp, and the operations
    whose result depends on hidden state ([is_stateful_op], src/jit/graph.cpp). *)

From stdpp Require Import base list numbers strings gmap.
From S2P Require Import Prelude.

Module OpType.

Inductive t : Set :=
  | Add | Sub | Mul | Div | MatMul | Bmm | ReLU | Sigmoid | Tanh | Softmax | LogSoftmax | MaxPool2d
  | AvgPool2d | AdaptiveAvgPool2d | Conv2d | ConvTranspose | BatchNorm2d | LayerNorm | Reshape
  | Transpose | Permute | Squeeze | Unsqueeze | Flatten | Sum | Mean | Max | Min | Exp | Log | Sqrt
  | Pow | Abs | Neg | Clamp | Sin | Cos | Rsqrt | Reciprocal | Round | Fmod | Slice | Cat
  | SliceScatter | AsStrided | ViewAsReal | ViewAsComplex | Dropout | Linear | Embedding
  | EmbeddingBag | GELU | Det | Inv | Solve | Cholesky | Svd | Qr | Eigh | Eigvalsh | Norm
  | Slogdet | Constant | Input | Output | FlashAttention | FusedFFN | ResidualAdd | ShapeGuard
  | GuardNode | SwapOut | SwapIn | QuantizedLinear | QuantizedLinearStatic | QuantizedConv2d
  | Dequantize | Quantize | SparseMatMul | SparseSpMM | DenseToSparse | If | Loop | LayoutConvert
  | Cast | ToDevice | SiLU | Where | Stack | Broadcast | IndexSelect | RMSNorm | GQA | RoPE
  | Padding | Interpolate | Eq | Ne | Lt | Le | Gt | Ge | LogicalAnd | LogicalOr | LogicalNot | Var
  | Std | Prod | LeakyReLU | ELU | Mish | Softplus | GroupNorm | InstanceNorm | Gather | Scatter
  | Flip | Roll | Triu | Tril | Diag | Trace | OneHot | SparseSpMV | SparseAdd | SparseTrsv
  | SparseTrsm | ScatterAdd | RepeatInterleave | Swish | RReLU | LogSigmoid | Minimum | IndexCopy
  | CumSum | Sort | Nonzero | Bincount | SparseFromDense | SparseToDense | SparseCoalesce
  | SparseTranspose | SparseToCsr | SparseToCsc | SparseToBsr | BoxIoU | NMS | ROIAlignForward
  | AnchorGenerate | Sign | GridSample | AffineGrid | FFT | IFFT | RFFT | IRFFT | CTCLossForward
  | FusedLinearReLU | FusedConv2dReLU | FusedConv2dBnReLU | FusedSoftmaxCrossEntropy | FusedAddReLU
  | SolveTriangular | LinalgEig | LinalgLU | LinalgLUSolve | LinalgHouseholder | LinalgLDLFactor
  | LinalgLDLSolve | Ormqr | Geqrf.

(** The enumerators in order; [ordinal] is the value of an enumerator. *)
Definition all : list t := [
  Add; Sub; Mul; Div; MatMul; Bmm; ReLU; Sigmoid; Tanh; Softmax; LogSoftmax; MaxPool2d; AvgPool2d;
  AdaptiveAvgPool2d; Conv2d; ConvTranspose; BatchNorm2d; LayerNorm; Reshape; Transpose; Permute;
  Squeeze; Unsqueeze; Flatten; Sum; Mean; Max; Min; Exp; Log; Sqrt; Pow; Abs; Neg; Clamp; Sin; Cos;
  Rsqrt; Reciprocal; Round; Fmod; Slice; Cat; SliceScatter; AsStrided; ViewAsReal; ViewAsComplex;
  Dropout; Linear; Embedding; EmbeddingBag; GELU; Det; Inv; Solve; Cholesky; Svd; Qr; Eigh;
  Eigvalsh; Norm; Slogdet; Constant; Input; Output; FlashAttention; FusedFFN; ResidualAdd;
  ShapeGuard; GuardNode; SwapOut; SwapIn; QuantizedLinear; QuantizedLinearStatic; QuantizedConv2d;
  Dequantize; Quantize; SparseMatMul; SparseSpMM; DenseToSparse; If; Loop; LayoutConvert; Cast;
  ToDevice; SiLU; Where; Stack; Broadcast; IndexSelect; RMSNorm; GQA; RoPE; Padding; Interpolate;
  Eq; Ne; Lt; Le; Gt; Ge; LogicalAnd; LogicalOr; LogicalNot; Var; Std; Prod; LeakyReLU; ELU; Mish;
  Softplus; GroupNorm; InstanceNorm; Gather; Scatter; Flip; Roll; Triu; Tril; Diag; Trace; OneHot;
  SparseSpMV; SparseAdd; SparseTrsv; SparseTrsm; ScatterAdd; RepeatInterleave; Swish; RReLU;
  LogSigmoid; Minimum; IndexCopy; CumSum; Sort; Nonzero; Bincount; SparseFromDense; SparseToDense;
  SparseCoalesce; SparseTranspose; SparseToCsr; SparseToCsc; SparseToBsr; BoxIoU; NMS;
  ROIAlignForward; AnchorGenerate; Sign; GridSample; AffineGrid; FFT; IFFT; RFFT; IRFFT;
  CTCLossForward; FusedLinearReLU; FusedConv2dReLU; FusedConv2dBnReLU; FusedSoftmaxCrossEntropy;
  FusedAddReLU; SolveTriangular; LinalgEig; LinalgLU; LinalgLUSolve; LinalgHouseholder;
  LinalgLDLFactor; LinalgLDLSolve; Ormqr; Geqrf].

Definition ordinal (op : t) : Z :=
  match op with
  | Add => 0 | Sub => 1 | Mul => 2 | Div => 3 | MatMul => 4 | Bmm => 5 | ReLU => 6 | Sigmoid => 7
  | Tanh => 8 | Softmax => 9 | LogSoftmax => 10 | MaxPool2d => 11 | AvgPool2d => 12
  | AdaptiveAvgPool2d => 13 | Conv2d => 14 | ConvTranspose => 15 | BatchNorm2d => 16
  | LayerNorm => 17 | Reshape => 18 | Transpose => 19 | Permute => 20 | Squeeze => 21
  | Unsqueeze => 22 | Flatten => 23 | Sum => 24 | Mean => 25 | Max => 26 | Min => 27 | Exp => 28
  | Log => 29 | Sqrt => 30 | Pow => 31 | Abs => 32 | Neg => 33 | Clamp => 34 | Sin => 35
  | Cos => 36 | Rsqrt => 37 | Reciprocal => 38 | Round => 39 | Fmod => 40 | Slice => 41 | Cat => 42
  | SliceScatter => 43 | AsStrided => 44 | ViewAsReal => 45 | ViewAsComplex => 46 | Dropout => 47
  | Linear => 48 | Embedding => 49 | EmbeddingBag => 50 | GELU => 51 | Det => 52 | Inv => 53
  | Solve => 54 | Cholesky => 55 | Svd => 56 | Qr => 57 | Eigh => 58 | Eigvalsh => 59 | Norm => 60
  | Slogdet => 61 | Constant => 62 | Input => 63 | Output => 64 | FlashAttention => 65
  | FusedFFN => 66 | ResidualAdd => 67 | ShapeGuard => 68 | GuardNode => 69 | SwapOut => 70
  | SwapIn => 71 | QuantizedLinear => 72 | QuantizedLinearStatic => 73 | QuantizedConv2d => 74
  | Dequantize => 75 | Quantize => 76 | SparseMatMul => 77 | SparseSpMM => 78 | DenseToSparse => 79
  | If => 80 | Loop => 81 | LayoutConvert => 82 | Cast => 83 | ToDevice => 84 | SiLU => 85
  | Where => 86 | Stack => 87 | Broadcast => 88 | IndexSelect => 89 | RMSNorm => 90 | GQA => 91
  | RoPE => 92 | Padding => 93 | Interpolate => 94 | Eq => 95 | Ne => 96 | Lt => 97 | Le => 98
  | Gt => 99 | Ge => 100 | LogicalAnd => 101 | LogicalOr => 102 | LogicalNot => 103 | Var => 104
  | Std => 105 | Prod => 106 | LeakyReLU => 107 | ELU => 108 | Mish => 109 | Softplus => 110
  | GroupNorm => 111 | InstanceNorm => 112 | Gather => 113 | Scatter => 114 | Flip => 115
  | Roll => 116 | Triu => 117 | Tril => 118 | Diag => 119 | Trace => 120 | OneHot => 121
  | SparseSpMV => 122 | SparseAdd => 123 | SparseTrsv => 124 | SparseTrsm => 125
  | ScatterAdd => 126 | RepeatInterleave => 127 | Swish => 128 | RReLU => 129 | LogSigmoid => 130
  | Minimum => 131 | IndexCopy => 132 | CumSum => 133 | Sort => 134 | Nonzero => 135
  | Bincount => 136 | SparseFromDense => 137 | SparseToDense => 138 | SparseCoalesce => 139
  | SparseTranspose => 140 | SparseToCsr => 141 | SparseToCsc => 142 | SparseToBsr => 143
  | BoxIoU => 144 | NMS => 145 | ROIAlignForward => 146 | AnchorGenerate => 147 | Sign => 148
  | GridSample => 149 | AffineGrid => 150 | FFT => 151 | IFFT => 152 | RFFT => 153 | IRFFT => 154
  | CTCLossForward => 155 | FusedLinearReLU => 156 | FusedConv2dReLU => 157
  | FusedConv2dBnReLU => 158 | FusedSoftmaxCrossEntropy => 159 | FusedAddReLU => 160
  | SolveTriangular => 161 | LinalgEig => 162 | LinalgLU => 163 | LinalgLUSolve => 164
  | LinalgHouseholder => 165 | LinalgLDLFactor => 166 | LinalgLDLSolve => 167 | Ormqr => 168
  | Geqrf => 169
  end.

Lemma all_ordinal op : all !! Z.to_nat (ordinal op) = Some op.
Proof. by destruct op. Qed.

#[global] Instance t_eq_dec : EqDecision t.
Proof.
  intros a b. destruct (decide (ordinal a = ordinal b)) as [E|E]; [left | right].
  - pose proof (all_ordinal a) as Ha. rewrite E, all_ordinal in Ha. by injection Ha.
  - intros ->. done.
Defined.

Definition op_type_to_string (op : t) : string :=
  match op with
  | Add => "Add" | Sub => "Sub" | Mul => "Mul" | Div => "Div" | MatMul => "MatMul" | Bmm => "Bmm"
  | ReLU => "ReLU" | Sigmoid => "Sigmoid" | Tanh => "Tanh" | Softmax => "Softmax"
  | LogSoftmax => "LogSoftmax" | MaxPool2d => "MaxPool2d" | AvgPool2d => "AvgPool2d"
  | AdaptiveAvgPool2d => "AdaptiveAvgPool2d" | Conv2d => "Conv2d"
  | ConvTranspose => "ConvTranspose" | BatchNorm2d => "BatchNorm2d" | LayerNorm => "LayerNorm"
  | Reshape => "Reshape" | Transpose => "Transpose" | Permute => "Permute" | Squeeze => "Squeeze"
  | Unsqueeze => "Unsqueeze" | Flatten => "Flatten" | Sum => "Sum" | Mean => "Mean" | Max => "Max"
  | Min => "Min" | Exp => "Exp" | Log => "Log" | Sqrt => "Sqrt" | Pow => "Pow" | Abs => "Abs"
  | Neg => "Neg" | Clamp => "Clamp" | Sin => "Sin" | Cos => "Cos" | Rsqrt => "Rsqrt"
  | Reciprocal => "Reciprocal" | Round => "Round" | Fmod => "Fmod" | Slice => "Slice"
  | Cat => "Cat" | SliceScatter => "SliceScatter" | Dropout => "Dropout" | Linear => "Linear"
  | Embedding => "Embedding" | EmbeddingBag => "EmbeddingBag" | GELU => "GELU" | Det => "Det"
  | Inv => "Inv" | Solve => "Solve" | Cholesky => "Cholesky" | Svd => "Svd" | Qr => "Qr"
  | Eigh => "Eigh" | Eigvalsh => "Eigvalsh" | Norm => "Norm" | Slogdet => "Slogdet"
  | SolveTriangular => "SolveTriangular" | LinalgEig => "LinalgEig" | LinalgLU => "LinalgLU"
  | LinalgLUSolve => "LinalgLUSolve" | LinalgHouseholder => "LinalgHouseholder"
  | LinalgLDLFactor => "LinalgLDLFactor" | LinalgLDLSolve => "LinalgLDLSolve" | Ormqr => "Ormqr"
  | Geqrf => "Geqrf" | FlashAttention => "FlashAttention" | FusedFFN => "FusedFFN"
  | ResidualAdd => "ResidualAdd" | ShapeGuard => "ShapeGuard" | SwapOut => "SwapOut"
  | SwapIn => "SwapIn" | GuardNode => "GuardNode" | QuantizedLinear => "QuantizedLinear"
  | QuantizedLinearStatic => "QuantizedLinearStatic" | QuantizedConv2d => "QuantizedConv2d"
  | Dequantize => "Dequantize" | Quantize => "Quantize" | OneHot => "OneHot"
  | SparseSpMV => "SparseSpMV" | SparseAdd => "SparseAdd" | SparseTrsv => "SparseTrsv"
  | SparseTrsm => "SparseTrsm" | ScatterAdd => "ScatterAdd"
  | RepeatInterleave => "RepeatInterleave" | Swish => "Swish" | RReLU => "RReLU"
  | LogSigmoid => "LogSigmoid" | Minimum => "Minimum" | IndexCopy => "IndexCopy"
  | SparseMatMul => "SparseMatMul" | SparseSpMM => "SparseSpMM" | DenseToSparse => "DenseToSparse"
  | Constant => "Constant" | Input => "Input" | Output => "Output" | If => "If" | Loop => "Loop"
  | LayoutConvert => "LayoutConvert" | Cast => "Cast" | SiLU => "SiLU" | Where => "Where"
  | Stack => "Stack" | Broadcast => "Broadcast" | IndexSelect => "IndexSelect"
  | RMSNorm => "RMSNorm" | GQA => "GQA" | RoPE => "RoPE" | Padding => "Padding"
  | Interpolate => "Interpolate" | Eq => "Eq" | Ne => "Ne" | Lt => "Lt" | Le => "Le" | Gt => "Gt"
  | Ge => "Ge" | LogicalAnd => "LogicalAnd" | LogicalOr => "LogicalOr" | LogicalNot => "LogicalNot"
  | Var => "Var" | Std => "Std" | Prod => "Prod" | LeakyReLU => "LeakyReLU" | ELU => "ELU"
  | Mish => "Mish" | Softplus => "Softplus" | GroupNorm => "GroupNorm"
  | InstanceNorm => "InstanceNorm" | Gather => "Gather" | Scatter => "Scatter" | Flip => "Flip"
  | Roll => "Roll" | Triu => "Triu" | Tril => "Tril" | Diag => "Diag" | Trace => "Trace"
  | AsStrided => "AsStrided" | ViewAsReal => "ViewAsReal" | ViewAsComplex => "ViewAsComplex"
  | ToDevice => "ToDevice" | CumSum => "CumSum" | Sort => "Sort" | Nonzero => "Nonzero"
  | Bincount => "Bincount" | SparseFromDense => "SparseFromDense"
  | SparseToDense => "SparseToDense" | SparseCoalesce => "SparseCoalesce"
  | SparseTranspose => "SparseTranspose" | SparseToCsr => "SparseToCsr"
  | SparseToCsc => "SparseToCsc" | SparseToBsr => "SparseToBsr" | BoxIoU => "BoxIoU" | NMS => "NMS"
  | ROIAlignForward => "ROIAlignForward" | AnchorGenerate => "AnchorGenerate"
  | _ => "Unknown"
  end.

Definition string_to_type : list (string * t) := [
  ("Add", Add); ("Sub", Sub); ("Mul", Mul); ("Div", Div); ("MatMul", MatMul); ("Bmm", Bmm);
  ("ReLU", ReLU); ("Sigmoid", Sigmoid); ("Tanh", Tanh); ("Softmax", Softmax);
  ("LogSoftmax", LogSoftmax); ("MaxPool2d", MaxPool2d); ("AvgPool2d", AvgPool2d);
  ("AdaptiveAvgPool2d", AdaptiveAvgPool2d); ("Conv2d", Conv2d); ("ConvTranspose", ConvTranspose);
  ("BatchNorm2d", BatchNorm2d); ("LayerNorm", LayerNorm); ("Reshape", Reshape);
  ("Transpose", Transpose); ("Permute", Permute); ("Squeeze", Squeeze); ("Unsqueeze", Unsqueeze);
  ("Flatten", Flatten); ("Sum", Sum); ("Mean", Mean); ("Max", Max); ("Min", Min); ("Exp", Exp);
  ("Log", Log); ("Sqrt", Sqrt); ("Pow", Pow); ("Abs", Abs); ("Neg", Neg); ("Clamp", Clamp);
  ("Sin", Sin); ("Cos", Cos); ("Rsqrt", Rsqrt); ("Reciprocal", Reciprocal); ("Round", Round);
  ("Fmod", Fmod); ("Slice", Slice); ("Cat", Cat); ("SliceScatter", SliceScatter);
  ("Dropout", Dropout); ("Linear", Linear); ("Embedding", Embedding);
  ("EmbeddingBag", EmbeddingBag); ("GELU", GELU); ("Det", Det); ("Inv", Inv); ("Solve", Solve);
  ("Cholesky", Cholesky); ("Svd", Svd); ("Qr", Qr); ("Eigh", Eigh); ("Eigvalsh", Eigvalsh);
  ("Norm", Norm); ("Slogdet", Slogdet); ("FlashAttention", FlashAttention); ("FusedFFN", FusedFFN);
  ("ResidualAdd", ResidualAdd); ("ShapeGuard", ShapeGuard); ("SwapOut", SwapOut);
  ("SwapIn", SwapIn); ("GuardNode", GuardNode); ("QuantizedLinear", QuantizedLinear);
  ("QuantizedLinearStatic", QuantizedLinearStatic); ("QuantizedConv2d", QuantizedConv2d);
  ("Dequantize", Dequantize); ("Quantize", Quantize); ("OneHot", OneHot);
  ("SparseSpMV", SparseSpMV); ("SparseAdd", SparseAdd); ("SparseTrsv", SparseTrsv);
  ("SparseTrsm", SparseTrsm); ("ScatterAdd", ScatterAdd); ("RepeatInterleave", RepeatInterleave);
  ("Swish", Swish); ("RReLU", RReLU); ("LogSigmoid", LogSigmoid); ("Minimum", Minimum);
  ("IndexCopy", IndexCopy); ("SparseMatMul", SparseMatMul); ("SparseSpMM", SparseSpMM);
  ("DenseToSparse", DenseToSparse); ("Constant", Constant); ("Input", Input); ("Output", Output);
  ("If", If); ("Loop", Loop); ("LayoutConvert", LayoutConvert); ("Cast", Cast); ("SiLU", SiLU);
  ("Where", Where); ("Stack", Stack); ("Broadcast", Broadcast); ("IndexSelect", IndexSelect);
  ("RMSNorm", RMSNorm); ("GQA", GQA); ("RoPE", RoPE); ("Padding", Padding);
  ("Interpolate", Interpolate); ("Eq", Eq); ("Ne", Ne); ("Lt", Lt); ("Le", Le); ("Gt", Gt);
  ("Ge", Ge); ("LogicalAnd", LogicalAnd); ("LogicalOr", LogicalOr); ("LogicalNot", LogicalNot);
  ("Var", Var); ("Std", Std); ("Prod", Prod); ("LeakyReLU", LeakyReLU); ("ELU", ELU);
  ("Mish", Mish); ("Softplus", Softplus); ("GroupNorm", GroupNorm); ("InstanceNorm", InstanceNorm);
  ("Gather", Gather); ("Scatter", Scatter); ("Flip", Flip); ("Roll", Roll); ("Triu", Triu);
  ("Tril", Tril); ("Diag", Diag); ("Trace", Trace); ("AsStrided", AsStrided);
  ("ViewAsReal", ViewAsReal); ("ViewAsComplex", ViewAsComplex); ("ToDevice", ToDevice);
  ("CumSum", CumSum); ("Sort", Sort); ("Nonzero", Nonzero); ("Bincount", Bincount);
  ("SparseFromDense", SparseFromDense); ("SparseToDense", SparseToDense);
  ("SparseCoalesce", SparseCoalesce); ("SparseTranspose", SparseTranspose);
  ("SparseToCsr", SparseToCsr); ("SparseToCsc", SparseToCsc); ("SparseToBsr", SparseToBsr);
  ("BoxIoU", BoxIoU); ("NMS", NMS); ("ROIAlignForward", ROIAlignForward);
  ("AnchorGenerate", AnchorGenerate)].

Definition string_to_op_type (str : string) : result t :=
  match list_to_map (M := gmap string t) string_to_type !! str with
  | Some op => Ok op
  | None => Err (RuntimeError "Unknown operation type: ")
  end.

Definition is_stateful_op (op : t) : bool :=
  match op with Dropout | BatchNorm2d | RReLU => true | _ => false end.

End OpType.
