(* ===== verification/JitGraph.v ===== *)
(** * The JIT's graphs

    Values, nodes and graphs of include/tenzor/jit/graph.hpp and the editing
    operations of src/jit/graph.cpp.  Objects are shared through pointers, so
    they live in a [Heap]: a pointer is a [Z], a node's [inputs()] are pointers
    to values, a value knows its producer and its consumers by weak pointers,
    and a control-flow node owns the graphs of its branches.  A weak pointer
    locks exactly when its node is still in the heap. *)

From stdpp Require Import base list numbers strings gmap pretty.
From S2P Require Import Prelude DType JitOps.

Module Jit.

Inductive DeviceType : Set := CPU | CUDA | ROCm | OneAPI | Vulkan | MPS.
#[export] Instance DeviceType_eq_dec : EqDecision DeviceType.
Proof. solve_decision. Defined.

Record Device := mkDevice { device_type : DeviceType; device_index : Z }.
#[export] Instance Device_eq_dec : EqDecision Device.
Proof. solve_decision. Defined.

Definition cpu : Device := mkDevice CPU 0.
Definition SIZE_MAX : Z := UINT64_MAX.

Section Graph.
Context {T : Type}.

(** The attribute maps of a node; a double is its 64-bit pattern. *)
Record Attrs := mkAttrs {
  float_attrs : gmap string Z; int_attrs : gmap string Z; vec_attrs : gmap string (list Z);
  bool_attrs : gmap string bool; tensor_attrs : gmap string T
}.

Definition no_attrs : Attrs := mkAttrs ∅ ∅ ∅ ∅ ∅.

Record Value := mkValue {
  id : string; shape : list Z; dtype : DType; device : Device;
  producer : option Z; uses : list Z; buffer_id : Z; buffer_offset : Z
}.

Record Node := mkNode {
  op_type : OpType.t; name : string; inputs : list Z; outputs : list Z; attrs : Attrs;
  then_branch : option Z; else_branch : option Z; body : option Z
}.

Record Graph := mkGraph {
  nodes : list Z; values : gmap string Z; graph_inputs : list Z; graph_outputs : list Z;
  constants : gmap string T;
  parameters : list (option T); param_leaves : gmap string nat;
  buffers : list (option T); buffer_leaves : gmap string nat;
  next_node_id : Z
}.

Record Heap := mkHeap {
  heap_values : gmap Z Value; heap_nodes : gmap Z Node; heap_graphs : gmap Z Graph; next_ptr : Z
}.

Definition no_value : Value := mkValue "" [] Float32 cpu None [] SIZE_MAX 0.
Definition no_node : Node := mkNode OpType.Add "" [] [] no_attrs None None None.
Definition no_graph : Graph := mkGraph [] ∅ [] [] ∅ [] ∅ [] ∅ 0.

(** What a shared pointer points to. *)
Definition value (st : Heap) (v : Z) : Value := default no_value (heap_values st !! v).
Definition node (st : Heap) (n : Z) : Node := default no_node (heap_nodes st !! n).
Definition graph (st : Heap) (g : Z) : Graph := default no_graph (heap_graphs st !! g).

Definition upd_value (v : Z) (f : Value -> Value) (st : Heap) : Heap :=
  mkHeap (alter f v (heap_values st)) (heap_nodes st) (heap_graphs st) (next_ptr st).
Definition upd_node (n : Z) (f : Node -> Node) (st : Heap) : Heap :=
  mkHeap (heap_values st) (alter f n (heap_nodes st)) (heap_graphs st) (next_ptr st).
Definition upd_graph (g : Z) (f : Graph -> Graph) (st : Heap) : Heap :=
  mkHeap (heap_values st) (heap_nodes st) (alter f g (heap_graphs st)) (next_ptr st).

Definition with_uses (us : list Z) (x : Value) : Value :=
  mkValue (id x) (shape x) (dtype x) (device x) (producer x) us (buffer_id x) (buffer_offset x).
Definition with_producer (n : option Z) (x : Value) : Value :=
  mkValue (id x) (shape x) (dtype x) (device x) n (uses x) (buffer_id x) (buffer_offset x).
Definition with_buffer (b o : Z) (x : Value) : Value :=
  mkValue (id x) (shape x) (dtype x) (device x) (producer x) (uses x) b o.
Definition with_inputs (vs : list Z) (x : Node) : Node :=
  mkNode (op_type x) (name x) vs (outputs x) (attrs x) (then_branch x) (else_branch x) (body x).
Definition with_outputs (vs : list Z) (x : Node) : Node :=
  mkNode (op_type x) (name x) (inputs x) vs (attrs x) (then_branch x) (else_branch x) (body x).
Definition with_attrs (a : Attrs) (x : Node) : Node :=
  mkNode (op_type x) (name x) (inputs x) (outputs x) a (then_branch x) (else_branch x) (body x).
Definition with_nodes (ns : list Z) (x : Graph) : Graph :=
  mkGraph ns (values x) (graph_inputs x) (graph_outputs x) (constants x) (parameters x)
    (param_leaves x) (buffers x) (buffer_leaves x) (next_node_id x).
Definition with_values (m : gmap string Z) (x : Graph) : Graph :=
  mkGraph (nodes x) m (graph_inputs x) (graph_outputs x) (constants x) (parameters x)
    (param_leaves x) (buffers x) (buffer_leaves x) (next_node_id x).
Definition set_outputs (vs : list Z) (x : Graph) : Graph :=
  mkGraph (nodes x) (values x) (graph_inputs x) vs (constants x) (parameters x)
    (param_leaves x) (buffers x) (buffer_leaves x) (next_node_id x).
Definition set_inputs (vs : list Z) (x : Graph) : Graph :=
  mkGraph (nodes x) (values x) vs (graph_outputs x) (constants x) (parameters x)
    (param_leaves x) (buffers x) (buffer_leaves x) (next_node_id x).
Definition set_constant (i : string) (t : T) (x : Graph) : Graph :=
  mkGraph (nodes x) (values x) (graph_inputs x) (graph_outputs x) (<[i := t]> (constants x)) (parameters x)
    (param_leaves x) (buffers x) (buffer_leaves x) (next_node_id x).
Definition with_next_id (k : Z) (x : Graph) : Graph :=
  mkGraph (nodes x) (values x) (graph_inputs x) (graph_outputs x) (constants x) (parameters x)
    (param_leaves x) (buffers x) (buffer_leaves x) k.

(** ** Weak pointers *)

(** [weak_ptr::expired] is the negation of [alive]. *)
Definition alive (st : Heap) (n : Z) : bool := bool_decide (is_Some (heap_nodes st !! n)).

(** [Value::node()]: the producer, unless it is gone. *)
Definition node_of (st : Heap) (v : Z) : option Z :=
  match producer (value st v) with
  | Some n => if alive st n then Some n else None
  | None => None
  end.

(** The uses of a value that still lock. *)
Definition live_uses (st : Heap) (v : Z) : list Z :=
  filter (fun n => alive st n = true) (uses (value st v)).

(** The last owner of the nodes goes away. *)
Definition destroy_nodes (ns : list Z) (st : Heap) : Heap :=
  mkHeap (heap_values st) (foldr delete (heap_nodes st) ns) (heap_graphs st) (next_ptr st).

(** ** Value and Node *)

Definition set_node (n : option Z) (v : Z) (st : Heap) : Heap := upd_value v (with_producer n) st.
Definition add_use (v n : Z) (st : Heap) : Heap := upd_value v (fun x => with_uses (uses x ++ [n]) x) st.
Definition clear_uses (v : Z) (st : Heap) : Heap := upd_value v (with_uses []) st.
Definition remove_use (v n : Z) (st : Heap) : Heap :=
  upd_value v (fun x => with_uses (filter (fun m => alive st m = true /\ m <> n) (uses x)) x) st.

Definition add_input (n v : Z) (st : Heap) : Heap :=
  add_use v n (upd_node n (fun x => with_inputs (inputs x ++ [v]) x) st).

Definition add_output (n v : Z) (st : Heap) : Heap :=
  upd_node n (fun x => with_outputs (outputs x ++ [v]) x) (set_node (Some n) v st).

(** The update of [replace_input], which throws out of bounds. *)
Definition replace_input_at (n : Z) (idx : nat) (old v : Z) (st : Heap) : Heap :=
  add_use v n (upd_node n (fun x => with_inputs (<[idx := v]> (inputs x)) x) (remove_use old n st)).

Definition replace_input (n : Z) (idx : nat) (v : Z) (st : Heap) : result Heap :=
  match inputs (node st n) !! idx with
  | None => Err (RuntimeError "Input index out of bounds")
  | Some old => Ok (replace_input_at n idx old v st)
  end.

(** ** Graph *)

Definition create_node (g : Z) (op : OpType.t) (nm : string) (st : Heap) : Heap * Z :=
  let k := next_node_id (graph st g) in
  let p := next_ptr st in
  let '(st, nm) :=
    if bool_decide (nm = "")
    then (upd_graph g (with_next_id (k + 1)) st, (OpType.op_type_to_string op +:+ "_" +:+ pretty k)%string)
    else (st, nm) in
  (mkHeap (heap_values st) (<[p := mkNode op nm [] [] no_attrs None None None]> (heap_nodes st))
     (heap_graphs st) (p + 1), p).

Definition create_value (g : Z) (i : string) (sh : list Z) (dt : DType) (dev : Device) (st : Heap) : Heap * Z :=
  let p := next_ptr st in
  let st := upd_graph g (fun x => with_values (<[i := p]> (values x)) x) st in
  (mkHeap (<[p := mkValue i sh dt dev None [] SIZE_MAX 0]> (heap_values st)) (heap_nodes st)
     (heap_graphs st) (p + 1), p).

Definition get_value (st : Heap) (g : Z) (i : string) : option Z := values (graph st g) !! i.

Definition add_node (g n : Z) (st : Heap) : Heap :=
  upd_graph g (fun x => with_nodes (nodes x ++ [n]) x) st.

(** [vector::erase] of the first occurrence. *)
Fixpoint erase (n : Z) (l : list Z) : list Z :=
  match l with
  | [] => []
  | m :: l => if decide (m = n) then l else m :: erase n l
  end.

(** The loops over a node's inputs that unlink it from what it reads. *)
Definition remove_uses (n : Z) (vs : list Z) (st : Heap) : Heap :=
  foldl (fun st v => remove_use v n st) st vs.

Definition remove_node (g n : Z) (st : Heap) : Heap :=
  let st := upd_graph g (fun x => with_nodes (erase n (nodes x)) x) st in
  remove_uses n (inputs (node st n)) st.

(** One consumer of [replace_value]: every input whose id is [old_id]. *)
Definition redirect_consumer (old_id : string) (new_val : Z) (st : Heap) (consumer : Z) : Heap :=
  foldl (fun st i =>
    match inputs (node st consumer) !! i with
    | Some v => if decide (id (value st v) = old_id) then replace_input_at consumer i v new_val st else st
    | None => st
    end) st (seq 0 (length (inputs (node st consumer)))).

Definition redirect_outputs (st : Heap) (old_id : string) (new_val : Z) (outs : list Z) : list Z :=
  map (fun o => if decide (id (value st o) = old_id) then new_val else o) outs.

Definition replace_value (g : Z) (old_id new_id : string) (st : Heap) : Heap :=
  match get_value st g old_id, get_value st g new_id with
  | Some old_val, Some new_val =>
      let consumers := live_uses st old_val in
      let st := foldl (redirect_consumer old_id new_val) st consumers in
      let st := clear_uses old_val st in
      upd_graph g (fun x => set_outputs (redirect_outputs st old_id new_val (graph_outputs x)) x) st
  | _, _ => st
  end.

Definition replace_node (g old_node new_node : Z) (st : Heap) : Heap :=
  let st := foldl (fun st p => replace_value g (id (value st p.1)) (id (value st p.2)) st) st
              (zip (outputs (node st old_node)) (outputs (node st new_node))) in
  remove_node g old_node st.

Definition replace_node_with_value (g n : Z) (value_id : string) (st : Heap) : Heap :=
  let st := foldl (fun st o => replace_value g (id (value st o)) value_id st) st (outputs (node st n)) in
  remove_node g n st.

(** ** The topological sort (Kahn's algorithm) *)

Record Kahn := mkKahn { in_degree : gmap Z Z; queue : list Z; sorted : list Z }.

(** The producers of a node's inputs, one entry per input that has one. *)
Definition producers (st : Heap) (n : Z) : list Z := omap (node_of st) (inputs (node st n)).

(** [adjacency[p]]: the nodes that read an output of [p], in order, an entry
    per input. *)
Definition adjacency (st : Heap) (ns : list Z) (p : Z) : list Z :=
  concat (map (fun n => map (fun _ => n) (filter (fun q => q = p) (producers st n))) ns).

Definition kahn_start (st : Heap) (ns : list Z) : Kahn :=
  let deg := foldl (fun m n => <[n := default 0 (m !! n) + Z.of_nat (length (producers st n))]> m) ∅ ns in
  mkKahn deg (filter (fun n => deg !! n = Some 0) ns) [].

Definition kahn_successor (s : Kahn) (succ : Z) : Kahn :=
  let d := default 0 (in_degree s !! succ) - 1 in
  mkKahn (<[succ := d]> (in_degree s)) (if d =? 0 then queue s ++ [succ] else queue s) (sorted s).

Definition kahn_pop (st : Heap) (ns : list Z) (n : Z) (s : Kahn) : Kahn :=
  let s := mkKahn (in_degree s) (tail (queue s))
             (if decide (n ∈ ns) then sorted s ++ [n] else sorted s) in
  foldl kahn_successor s (adjacency st ns n).

Fixpoint kahn_loop (fuel : nat) (st : Heap) (ns : list Z) (s : Kahn) : result Kahn :=
  match queue s with
  | [] => Ok s
  | n :: _ => match fuel with
              | O => Err Diverged
              | S fuel => kahn_loop fuel st ns (kahn_pop st ns n s)
              end
  end.

(** Every node enters the queue at most once. *)
Definition topological_sort (g : Z) (st : Heap) : result Heap :=
  let ns := nodes (graph st g) in
  let* s := kahn_loop (length ns) st ns (kahn_start st ns) in
  if negb (length (sorted s) =? length ns)%nat then Err (RuntimeError "Graph contains cycles")
  else Ok (upd_graph g (with_nodes (sorted s)) st).

End Graph.

Arguments Attrs : clear implicits.
Arguments Node : clear implicits.
Arguments Graph : clear implicits.
Arguments Heap : clear implicits.
End Jit.
