(* ===== verification/JitFlow.v ===== *)
(** * Straight-line dataflow programs

    The part of the JIT's graphs that optimization passes change: a list of
    equations, each computing the values it assigns from the values it reads.
    [run] executes them in order, as [Graph::forward] of src/jit/graph.cpp does.
    A [valuation] solves the equations without an order; the two agree on a
    program whose equations come after what they read, and the edits of the
    passes (renaming reads, dropping and adding equations, reordering) are
    proved on valuations. *)

From stdpp Require Import base list numbers strings gmap.
From S2P Require Import Prelude.

Module Flow.

Section Flow.
Context {K T : Type}.

(** What a node computes ([e_op]), the ids it reads and the ids it assigns. *)
Record Eqn := mkEqn { e_op : K; e_ins : list string; e_outs : list string }.

(** [F k xs]: the outputs of a node, which may be fewer or more than its ids. *)
Variable F : K -> list T -> result (list T).

Definition reads (env : gmap string T) (ids : list string) : option (list T) :=
  mapM (fun i => env !! i) ids.

(** [value_map[outputs()[i]->id()] = outputs[i]] for the indices both have. *)
Definition assign (outs : list string) (ys : list T) (env : gmap string T) : gmap string T :=
  foldl (fun env p => <[p.1 := p.2]> env) env (zip outs ys).

Definition unavailable : exn := RuntimeError "Input value not available: ".

Fixpoint run (es : list Eqn) (env : gmap string T) : result (gmap string T) :=
  match es with
  | [] => Ok env
  | e :: es =>
      match reads env (e_ins e) with
      | None => Err unavailable
      | Some xs => let* ys := F (e_op e) xs in run es (assign (e_outs e) ys env)
      end
  end.

Definition produced (es : list Eqn) : list string := concat (map e_outs es).

(** Every id has one assignment, and none is assigned from outside as well. *)
Definition single (env0 : gmap string T) (es : list Eqn) : Prop :=
  NoDup (produced es) /\ forall i, i ∈ produced es -> env0 !! i = None.

(** The equation [e] holds of the values in [env]. *)
Definition holds (env : gmap string T) (e : Eqn) : Prop :=
  exists xs ys, reads env (e_ins e) = Some xs /\ F (e_op e) xs = Ok ys /\
    forall k o, e_outs e !! k = Some o -> env !! o = ys !! k.

Definition valuation (env0 : gmap string T) (es : list Eqn) (env : gmap string T) : Prop :=
  (forall e, e ∈ es -> holds env e) /\ (forall i, i ∉ produced es -> env !! i = env0 !! i).

(** An equation comes after the equations that assign what it reads. *)
Definition ordered (es : list Eqn) : Prop :=
  forall es1 e es2, es = es1 ++ e :: es2 ->
  forall i, i ∈ e_ins e -> i ∈ produced es -> i ∈ produced es1.

Lemma produced_cons e es : produced (e :: es) = e_outs e ++ produced es.
Proof. done. Qed.

Lemma produced_app es1 es2 : produced (es1 ++ es2) = produced es1 ++ produced es2.
Proof. unfold produced. by rewrite map_app, concat_app. Qed.

Lemma elem_of_produced i es : i ∈ produced es <-> exists e, e ∈ es /\ i ∈ e_outs e.
Proof.
  induction es as [|e es IH]; [rewrite elem_of_nil; split; [done | intros (? & H & _); by inversion H]|].
  rewrite produced_cons, elem_of_app, IH. setoid_rewrite elem_of_cons. naive_solver.
Qed.

Lemma produced_perm es es' : es ≡ₚ es' -> produced es ≡ₚ produced es'.
Proof.
  induction 1 as [|e es es' _ IH|e e' es|? ? ? _ IH1 _ IH2]; rewrite ?produced_cons; [done|by rewrite IH| |by rewrite IH1].
  rewrite !app_assoc. apply Permutation_app_tail, Permutation_app_comm.
Qed.

Lemma reads_agree env env' ids :
  (forall i, i ∈ ids -> env !! i = env' !! i) -> reads env ids = reads env' ids.
Proof.
  unfold reads. induction ids as [|i ids IH]; intros H; [done|]. simpl.
  rewrite (H i), IH; [done| |left]. intros j Hj. apply H. by right.
Qed.

Lemma reads_Some env ids xs i : reads env ids = Some xs -> i ∈ ids -> is_Some (env !! i).
Proof.
  intros H Hi. apply mapM_Some in H. apply list_elem_of_lookup in Hi as [k Hk].
  destruct (Forall2_lookup_l _ _ _ _ _ H Hk) as (x & _ & Hx). by exists x.
Qed.

Lemma reads_total env ids : (forall i, i ∈ ids -> is_Some (env !! i)) -> exists xs, reads env ids = Some xs.
Proof.
  intros H. apply mapM_is_Some. apply Forall_forall. intros i Hi. apply H. done.
Qed.

Lemma reads_map env env' (f : string -> string) ids :
  (forall i, i ∈ ids -> env' !! f i = env !! i) -> reads env' (map f ids) = reads env ids.
Proof.
  unfold reads. induction ids as [|i ids IH]; intros H; [done|]. simpl.
  rewrite (H i), IH; [done| |left]. intros j Hj. apply H. by right.
Qed.

Lemma assign_cons o outs y ys env : assign (o :: outs) (y :: ys) env = assign outs ys (<[o := y]> env).
Proof. done. Qed.

Lemma assign_nil outs env : assign outs [] env = env.
Proof. by destruct outs. Qed.

Lemma assign_other outs ys env i : i ∉ outs -> assign outs ys env !! i = env !! i.
Proof.
  revert ys env. induction outs as [|o outs IH]; intros ys env Hi; [done|].
  apply not_elem_of_cons in Hi as [Ho Hi]. destruct ys as [|y ys]; [done|].
  rewrite assign_cons, IH by done. by apply lookup_insert_ne.
Qed.

Lemma assign_at outs ys env k o :
  NoDup outs -> env !! o = None -> outs !! k = Some o -> assign outs ys env !! o = ys !! k.
Proof.
  revert ys env k. induction outs as [|o' outs IH]; intros ys env k Hnd Hn Hk; [done|].
  apply NoDup_cons in Hnd as [Ho' Hnd]. destruct ys as [|y ys]; [by rewrite assign_nil, Hn|].
  rewrite assign_cons. destruct k as [|k]; simpl in *.
  - injection Hk as ->. rewrite assign_other by done. by rewrite lookup_insert_eq.
  - apply IH; [done| |done]. rewrite lookup_insert_ne; [done|].
    intros ->. apply Ho'. by eapply list_elem_of_lookup_2.
Qed.

Lemma single_cons env0 e es : single env0 (e :: es) -> single env0 es /\ NoDup (e_outs e) /\
  (forall o, o ∈ e_outs e -> env0 !! o = None /\ o ∉ produced es).
Proof.
  intros [Hnd Hn]. rewrite produced_cons in *. apply NoDup_app in Hnd as (He & Hd & Hes).
  split_and!; [|done|].
  - split; [done|]. intros i Hi. apply Hn. apply elem_of_app. by right.
  - intros o Ho. split; [apply Hn, elem_of_app; by left | by apply Hd].
Qed.

Lemma single_assign env0 e es ys :
  single env0 (e :: es) -> single (assign (e_outs e) ys env0) es.
Proof.
  intros H. destruct (single_cons _ _ _ H) as ([Hnd Hn] & _ & Hd). split; [done|].
  intros i Hi. rewrite assign_other; [by apply Hn|]. intros Hi'. by destruct (Hd i Hi').
Qed.

(** Execution solves the equations. *)
Lemma run_valuation es env0 env : single env0 es -> run es env0 = Ok env -> valuation env0 es env.
Proof.
  revert env0. induction es as [|e es IH]; intros env0 Hs H; simpl in H.
  { injection H as ->. split; [|done]. intros e He. inversion He. }
  destruct (reads env0 (e_ins e)) as [xs|] eqn:Er; [|done]. inv_ok.
  destruct (single_cons _ _ _ Hs) as (Hes & Hnd & Hd).
  destruct (IH _ (single_assign _ _ _ x Hs) H0) as [Hholds Hrest].
  split.
  - intros e' He'. apply elem_of_cons in He' as [->|He']; [|by apply Hholds].
    exists xs, x. split_and!; [|done|].
    + rewrite <-Er. apply reads_agree. intros i Hi.
      destruct (reads_Some _ _ _ _ Er Hi) as [v Hv].
      assert (i ∉ produced (e :: es)) as Hn.
      { intros Hp. destruct Hs as [_ Hs]. rewrite (Hs i Hp) in Hv. done. }
      rewrite produced_cons in Hn. apply not_elem_of_app in Hn as [Hn1 Hn2].
      rewrite Hrest, assign_other by done. done.
    + intros k o Ho. assert (o ∈ e_outs e) as Hin by by eapply list_elem_of_lookup_2.
      destruct (Hd o Hin) as [H1 H2]. rewrite Hrest by done. by apply assign_at.
  - intros i Hi. rewrite produced_cons in Hi. apply not_elem_of_app in Hi as [H1 H2].
    rewrite Hrest, assign_other by done. done.
Qed.

(** A successful execution finds what it reads: the order is right. *)
Lemma run_ordered es env0 env : single env0 es -> run es env0 = Ok env -> ordered es.
Proof.
  revert env0. induction es as [|e es IH]; intros env0 Hs H es1 e' es2 E i Hi Hp; simpl in H.
  { by destruct es1. }
  destruct (reads env0 (e_ins e)) as [xs|] eqn:Er; [|done]. inv_ok.
  destruct es1 as [|e1 es1]; injection E as -> ->.
  - destruct (reads_Some _ _ _ _ Er Hi) as [v Hv]. destruct Hs as [_ Hs]. by rewrite (Hs i Hp) in Hv.
  - rewrite produced_cons in *. apply elem_of_app in Hp as [Hp|Hp]; [by apply elem_of_app; left|].
    apply elem_of_app. right. eapply IH; [by apply single_assign | done | done | done | done].
Qed.

(** On an ordered program a solution is what execution computes. *)
Lemma valuation_run es env0 env :
  single env0 es -> ordered es -> valuation env0 es env -> run es env0 = Ok env.
Proof.
  intros Hs Ho [Hh Hr].
  enough (forall es2 es1 env1, es = es1 ++ es2 ->
    (forall i, env1 !! i = if decide (i ∈ produced es2) then None else env !! i) ->
    run es2 env1 = Ok env) as H.
  { apply (H es []); [done|]. intros i. destruct (decide _) as [Hi|Hi].
    - destruct Hs as [_ Hs]. by apply Hs.
    - symmetry. by apply Hr. }
  induction es2 as [|e es2 IH]; intros es1 env1 E Henv; simpl.
  { f_equal. apply map_eq. intros i. rewrite Henv. by rewrite decide_False by (intros H; inversion H). }
  destruct (Hh e) as (xs & ys & Hxs & HF & Hys). { rewrite E. apply elem_of_app. right. left. }
  assert (NoDup (produced es1 ++ e_outs e ++ produced es2)) as Hnd.
  { destruct Hs as [Hs _]. by rewrite E, produced_app in Hs. }
  apply NoDup_app in Hnd as (_ & Hd1 & Hnd). apply NoDup_app in Hnd as (Hnde & Hd2 & Hnd).
  assert (reads env1 (e_ins e) = Some xs) as ->.
  { rewrite <-Hxs. apply reads_agree. intros i Hi. rewrite Henv. rewrite decide_False; [done|].
    intros Hp. rewrite produced_cons in Hp. apply (Hd1 i); [|done].
    eapply Ho; [done|done|]. rewrite E, produced_app. apply elem_of_app. by right. }
  rewrite HF. simpl. apply (IH (es1 ++ [e])). { rewrite E, <-app_assoc. done. }
  intros i. destruct (decide (i ∈ e_outs e)) as [Hi|Hi].
  - apply list_elem_of_lookup in Hi as [k Hk].
    assert (i ∈ e_outs e) as Hi by by eapply list_elem_of_lookup_2.
    rewrite decide_False by by apply Hd2. rewrite (Hys k) by done.
    apply assign_at; [done| |done]. rewrite Henv, decide_True; [done|].
    rewrite produced_cons. apply elem_of_app. by left.
  - rewrite assign_other, Henv by done. rewrite produced_cons.
    destruct (decide (i ∈ produced es2)) as [H2|H2].
    + rewrite decide_True; [done|]. apply elem_of_app. by right.
    + rewrite decide_False; [done|]. rewrite not_elem_of_app. done.
Qed.

(** ** Reordering *)

Lemma single_perm env0 es es' : es ≡ₚ es' -> single env0 es -> single env0 es'.
Proof.
  intros Hp [Hnd Hn]. apply produced_perm in Hp. split; [by rewrite <-Hp|].
  intros i Hi. apply Hn. by rewrite Hp.
Qed.

Lemma valuation_perm env0 es es' env : es ≡ₚ es' -> valuation env0 es env -> valuation env0 es' env.
Proof.
  intros Hp [Hh Hr]. split.
  - intros e He. apply Hh. by rewrite Hp.
  - intros i Hi. apply Hr. by rewrite (produced_perm _ _ Hp).
Qed.

(** Two orders of the same equations execute alike. *)
Lemma run_order env0 es es' env :
  single env0 es -> es ≡ₚ es' -> ordered es' -> run es env0 = Ok env -> run es' env0 = Ok env.
Proof.
  intros Hs Hp Ho H. apply valuation_run; [by eapply single_perm | done|].
  eapply valuation_perm; [done|]. by apply run_valuation.
Qed.

(** ** The edits of a pass *)

(** Reading other ids. *)
Definition rename (f : string -> string) (e : Eqn) : Eqn := mkEqn (e_op e) (map f (e_ins e)) (e_outs e).

Lemma produced_rename f es : produced (map (rename f) es) = produced es.
Proof. unfold produced. by rewrite map_map. Qed.

(** It changes nothing where the new ids have the values of the old ones. *)
Lemma valuation_rename f env0 es env :
  (forall e i, e ∈ es -> i ∈ e_ins e -> env !! f i = env !! i) ->
  valuation env0 es env -> valuation env0 (map (rename f) es) env.
Proof.
  intros Hf [Hh Hr]. split; [|by rewrite produced_rename].
  intros e' He'. apply list_elem_of_fmap in He' as (e & -> & He).
  destruct (Hh e He) as (xs & ys & Hx & HF & Hy). exists xs, ys. split_and!; [|done|done].
  simpl. rewrite (reads_map env); [done|]. intros i Hi. by eapply Hf.
Qed.

(** Dropping equations whose values the others do not read. *)
Lemma valuation_drop env0 es ds env :
  single env0 (es ++ ds) -> valuation env0 (es ++ ds) env ->
  (forall e i, e ∈ es -> i ∈ e_ins e -> i ∉ produced ds) ->
  exists env', valuation env0 es env' /\ env' ⊆ env /\ forall i, i ∉ produced ds -> env' !! i = env !! i.
Proof.
  intros [Hnd Hs] [Hh Hr] Hd. rewrite produced_app in *. apply NoDup_app in Hnd as (_ & Hnd & _).
  set (env' := filter (fun p : string * T => p.1 ∉ produced ds) env).
  assert (forall i, i ∉ produced ds -> env' !! i = env !! i) as Hsame.
  { intros i Hi. unfold env'. destruct (env !! i) as [t|] eqn:E.
    - by apply map_lookup_filter_Some.
    - apply map_lookup_filter_None. by left. }
  exists env'. split_and!; [split|apply map_filter_subseteq|done].
  - intros e He. destruct (Hh e) as (xs & ys & Hx & HF & Hy); [apply elem_of_app; by left|].
    exists xs, ys. split_and!; [|done|].
    + rewrite <-Hx. apply reads_agree. intros i Hi. apply Hsame. by eapply Hd.
    + intros k o Ho. rewrite Hsame; [by apply Hy|]. apply Hnd. apply elem_of_produced. exists e.
      split; [done|]. by eapply list_elem_of_lookup_2.
  - intros i Hi. destruct (decide (i ∈ produced ds)) as [Hin|Hin].
    + unfold env'. rewrite Hs by (apply elem_of_app; by right). apply map_lookup_filter_None. right. naive_solver.
    + rewrite Hsame by done. apply Hr. rewrite not_elem_of_app. done.
Qed.

(** The edits keep the order: a renamed read must still come later, and a
    sublist of an ordered program is ordered. *)
Lemma ordered_rename f es :
  (forall es1 e es2 i, es = es1 ++ e :: es2 -> i ∈ e_ins e -> f i ∈ produced es -> f i ∈ produced es1) ->
  ordered (map (rename f) es).
Proof.
  intros Hf es1 e' es2 E j Hj Hp. apply fmap_app_inv in E as (l1 & l2 & -> & E2 & ->).
  destruct l2 as [|e l2]; [done|]. injection E2 as -> ->. rewrite produced_rename in *.
  apply list_elem_of_fmap in Hj as (i & -> & Hi). by eapply Hf.
Qed.

Lemma ordered_sublist es es' :
  NoDup (produced es) -> ordered es -> es' `sublist_of` es -> ordered es'.
Proof.
  intros Hnd Ho Hs es1' e es2' -> i Hi Hp.
  apply sublist_app_l in Hs as (es1 & es2 & -> & Hs1 & Hs2).
  apply sublist_cons_l in Hs2 as (k1 & k2 & -> & Hs2).
  assert (forall a b, a `sublist_of` b -> forall j, j ∈ produced a -> j ∈ produced b) as Hsub.
  { intros a b Hab j. rewrite !elem_of_produced. intros (x & Hx & ?). exists x. split; [|done].
    eapply elem_of_submseteq; [done|]. by apply sublist_submseteq. }
  assert (i ∈ produced (es1 ++ k1)) as Hin.
  { eapply (Ho (es1 ++ k1) e k2); [by rewrite <-app_assoc|done|].
    rewrite produced_app, produced_app, !produced_cons, !elem_of_app in *.
    destruct Hp as [Hp|[Hp|Hp]]; [left; by eapply Hsub|right; right; by left|right; right; right; by eapply Hsub]. }
  rewrite app_assoc, produced_app, produced_cons in Hnd.
  apply NoDup_app in Hnd as (_ & Hd & _). apply Hd, not_elem_of_app in Hin as [Hd1 Hd2].
  rewrite produced_app, produced_cons, !elem_of_app in Hp.
  destruct Hp as [Hp|[Hp|Hp]]; [done|done|]. destruct Hd2. by eapply Hsub.
Qed.

End Flow.

Arguments Eqn : clear implicits.
Arguments mkEqn {K}.
End Flow.
