(* ===== verification/JitExec.v ===== *)
(** * Executing a JIT graph

    [Graph::forward] and [Graph::execute_node] of src/jit/graph.cpp in inference
    mode: values by id, nodes in order, the branches of If and Loop as graphs of
    their own, and guards that stop the run.  The kernels are arguments: an
    operation without a case of its own is what [eval_op] computes from its type,
    its attributes and its inputs. *)

From stdpp Require Import base list numbers strings gmap.
From S2P Require Import Prelude DType JitOps JitGraph JitFlow.

Module Exec.
Import Jit Flow.

(** The code behind tensors: kernels, casts to bool and int, scalars, devices. *)
Class Kernels (T : Type) := {
  eval_op : Device -> OpType.t -> Attrs T -> list T -> result (list T);
  execute_fused_gpu_node : OpType.t -> Attrs T -> list T -> result T;
  tensor_condition_to_bool : T -> result bool;
  item_int64 : T -> result Z;
  full_int64 : Device -> Z -> T;
  full_cond : Device -> bool -> T;
  device_of : T -> Device;
  to_device : Device -> T -> T;
  shape_of : T -> list Z;
  dtype_of : T -> DType;
  empty_tensor : T
}.

Section Exec.
Context {T : Type} `{!Kernels T}.

Definition place (target : Device) (t : T) : T :=
  if decide (device_of t = target) then t else to_device target t.

Definition has_attr (a : Attrs T) (nm : string) : bool :=
  bool_decide (is_Some (float_attrs a !! nm)) || bool_decide (is_Some (int_attrs a !! nm)) ||
  bool_decide (is_Some (vec_attrs a !! nm)) || bool_decide (is_Some (bool_attrs a !! nm)) ||
  bool_decide (is_Some (tensor_attrs a !! nm)).

Definition get_tensor_attr (a : Attrs T) (nm : string) : T := default empty_tensor (tensor_attrs a !! nm).

(** The entry of [constants_] with the smallest id. *)
Definition smallest (m : gmap string T) : option (string * T) :=
  foldr (fun p best => match best with
                       | Some q => if (String.ltb p.1 q.1) then Some p else Some q
                       | None => Some p
                       end) None (map_to_list m).

Definition target_device (G : Graph T) (runtime_inputs : list T) : Device :=
  match runtime_inputs, parameters G, smallest (constants G) with
  | t :: _, _, _ => device_of t
  | [], Some p :: _, _ => device_of p
  | [], _, Some (_, t) => device_of t
  | [], _, None => cpu
  end.

(** The loops over [param_leaves_] and [buffer_leaves_]: live values by index. *)
Definition bind_leaves (what : string) (target : Device) (live : list (option T))
    (leaves : gmap string nat) (env : gmap string T) : result (gmap string T) :=
  rfoldM (fun env (p : string * nat) =>
    match live !! p.2 with
    | Some (Some t) => Ok (<[p.1 := place target t]> env)
    | _ => Err (RuntimeError what)
    end) (map_to_list leaves) env.

Definition input_count_mismatch : exn := RuntimeError "Input count mismatch".
Definition bad_parameter : string := "JIT: parameter leaf references a parameter that was not declared".
Definition bad_buffer : string := "JIT: buffer leaf references a buffer that was not declared".

(** The values a run starts from: the inputs, the constants under ids that are
    not inputs ([emplace]), then the live parameters and buffers. *)
Definition initial (st : Heap T) (G : Graph T) (target : Device) (runtime_inputs : list T)
    : result (gmap string T) :=
  let* _ := throw_if (negb (length runtime_inputs =? length (graph_inputs G))%nat) input_count_mismatch in
  let env := foldl (fun env p => <[id (value st p.1) := p.2]> env) ∅ (zip (graph_inputs G) runtime_inputs) in
  let env := env ∪ (place target <$> constants G) in
  let* env := bind_leaves bad_parameter target (parameters G) (param_leaves G) env in
  bind_leaves bad_buffer target (buffers G) (buffer_leaves G) env.

(** The comparison of a ShapeGuard; -1 marks a dynamic dimension. *)
Definition shape_matches (actual expected : list Z) : bool :=
  (length actual =? length expected)%nat &&
  forallb (fun p => (p.2 =? -1) || (p.1 =? p.2)) (zip actual expected).

(** A node's results and the graphs whose [needs_retrace_] is set. *)
Definition Exec (A : Type) : Type := gset Z * result A.

(** The iterations of a Loop node over its body. *)
Fixpoint loop (forward_body : list T -> gset Z -> Exec (list T)) (loop_dev : Device)
    (remaining : nat) (i : Z) (cond : bool) (carried : list T) (fl : gset Z) : Exec (list T) :=
  match remaining with
  | O => (fl, Ok carried)
  | S remaining =>
      if negb cond then (fl, Ok carried)
      else
        let '(fl, r) := forward_body (full_int64 loop_dev i :: full_cond loop_dev cond :: carried) fl in
        match r with
        | Err e => (fl, Err e)
        | Ok [] => (fl, Ok carried)
        | Ok (c :: carried) =>
            match tensor_condition_to_bool c with
            | Err e => (fl, Err e)
            | Ok cond => loop forward_body loop_dev remaining (i + 1) cond carried fl
            end
        end
  end.

Definition max_iterations (a : Attrs T) (x : T) : result Z :=
  match int_attrs a !! "max_iter" with Some k => Ok k | None => item_int64 x end.

(** The operation of a node, its attributes and the graphs it owns: what its
    outputs depend on besides its inputs. *)
Definition NodeOp : Type := OpType.t * Attrs T * (option Z * option Z * option Z).

Definition node_op (n : Node T) : NodeOp :=
  (op_type n, attrs n, (then_branch n, else_branch n, body n)).

(** [execute_node] between reading the inputs and storing the outputs; [fwd] is
    [forward] on the graphs a node owns, [g] the graph being executed and [k]
    the number of outputs of the node. *)
Definition node_outputs (fwd : Z -> list T -> gset Z -> Exec (list T)) (g : Z) (target : Device)
    (k : nat) (o : NodeOp) (xs : list T) (fl : gset Z) : Exec (list T) :=
  let '(op, a, (then_g, else_g, body_g)) := o in
  if has_attr a "fusion_kind"
  then (fl, rmap (replicate k) (execute_fused_gpu_node op a xs))
  else
  match op with
  | OpType.Constant =>
      (fl, Ok (if has_attr a "value" then [place target (get_tensor_attr a "value")] else []))
  | OpType.Input | OpType.Output | OpType.SwapOut | OpType.SwapIn =>
      (fl, Ok (match xs with x :: _ => [x] | [] => [] end))
  | OpType.ShapeGuard =>
      match xs with
      | [] => (fl, Ok [])
      | x :: _ => (if shape_matches (shape_of x) (default [] (vec_attrs a !! "expected_shape"))
                   then fl else {[g]} ∪ fl, Ok [x])
      end
  | OpType.GuardNode =>
      match xs with
      | [] => (fl, Ok [])
      | x :: rest =>
          match tensor_condition_to_bool x with
          | Err e => (fl, Err e)
          | Ok b => (if bool_decide (b = default false (bool_attrs a !! "expected_value"))
                     then fl else {[g]} ∪ fl, Ok (match rest with [] => [x] | _ => rest end))
          end
      end
  | OpType.If =>
      match xs, then_g with
      | x :: rest, Some then_g =>
          match tensor_condition_to_bool x with
          | Err e => (fl, Err e)
          | Ok true => fwd then_g rest fl
          | Ok false => match else_g with Some else_g => fwd else_g rest fl | None => (fl, Ok []) end
          end
      | _, _ => (fl, Ok [])
      end
  | OpType.Loop =>
      match xs, body_g with
      | x :: c :: carried, Some body_g =>
          match max_iterations a x with
          | Err e => (fl, Err e)
          | Ok max_iter =>
              match tensor_condition_to_bool c with
              | Err e => (fl, Err e)
              | Ok cond =>
                  let loop_dev := match carried with t :: _ => device_of t | [] => device_of x end in
                  loop (fwd body_g) loop_dev (Z.to_nat max_iter) 0 cond carried fl
              end
          end
      | _, _ => (fl, Ok [])
      end
  | _ => (fl, eval_op target op a xs)
  end.

(** The equation of a node: what it computes and the ids it reads and assigns. *)
Definition node_eqn (st : Heap T) (n : Z) : Eqn (NodeOp * nat) :=
  let N := node st n in
  mkEqn (node_op N, length (outputs N)) (map (fun v => id (value st v)) (inputs N))
    (map (fun v => id (value st v)) (outputs N)).

Definition execute_node (fwd : Z -> list T -> gset Z -> Exec (list T)) (st : Heap T) (g : Z)
    (target : Device) (n : Z) (env : gmap string T) (fl : gset Z) : Exec (gmap string T) :=
  let N := node st n in
  match mapM (fun v => env !! id (value st v)) (inputs N) with
  | None => (fl, Err unavailable)
  | Some xs =>
      let '(fl, r) := node_outputs fwd g target (length (outputs N)) (node_op N) xs fl in
      (fl, rmap (fun ys => foldl (fun env p => <[id (value st p.1) := p.2]> env) env (zip (outputs N) ys)) r)
  end.

(** The loop over the nodes, which a guard stops. *)
Fixpoint execute_nodes (fwd : Z -> list T -> gset Z -> Exec (list T)) (st : Heap T) (g : Z)
    (target : Device) (ns : list Z) (env : gmap string T) (fl : gset Z) : Exec (gmap string T) :=
  match ns with
  | [] => (fl, Ok env)
  | n :: ns =>
      let '(fl, r) := execute_node fwd st g target n env fl in
      match r with
      | Err e => (fl, Err e)
      | Ok env => if decide (g ∈ fl) then (fl, Ok env) else execute_nodes fwd st g target ns env fl
      end
  end.

Definition not_computed : exn := RuntimeError "Output value not computed: ".

(** The results: a run that a guard stopped returns those there are. *)
Fixpoint gather (st : Heap T) (tripped : bool) (env : gmap string T) (outs : list Z) : result (list T) :=
  match outs with
  | [] => Ok []
  | o :: outs =>
      match env !! id (value st o) with
      | Some t => let* ts := gather st tripped env outs in Ok (t :: ts)
      | None => if tripped then Ok [] else Err not_computed
      end
  end.

(** [forward]; [depth] bounds the nesting of graphs. *)
Fixpoint forward (depth : nat) (st : Heap T) (g : Z) (runtime_inputs : list T) (fl : gset Z) : Exec (list T) :=
  match depth with
  | O => (fl, Err Diverged)
  | S depth =>
      let G := graph st g in
      let target := target_device G runtime_inputs in
      match initial st G target runtime_inputs with
      | Err e => (fl, Err e)
      | Ok env =>
          let '(fl, r) := execute_nodes (forward depth st) st g target (nodes G) env fl in
          match r with
          | Err e => (fl, Err e)
          | Ok env => (fl, gather st (bool_decide (g ∈ fl)) env (graph_outputs G))
          end
      end
  end.

End Exec.

#[global] Arguments node_outputs : simpl never.
#[global] Arguments initial : simpl never.
End Exec.
