(* ===== verification/JitMeaning.v ===== *)
(** * What a JIT graph computes

    A run of [forward] in which no guard trips is an execution of the graph's
    equations ([runs], over the programs of JitFlow.v), so a graph has an order-free
    meaning: the solutions of its equations.  [refines st st'] says that every
    run of a graph of [st] is one of [st'] with the same results; it is enough to
    show it graph by graph ([refines_by]), and for one graph to transfer its
    solutions ([transfers_runs]). *)

From stdpp Require Import base list numbers strings gmap.
From S2P Require Import Prelude DType JitOps JitGraph JitFlow JitExec.

Module Meaning.
Import Jit Flow Exec.

Section Meaning.
Context {T : Type} `{!Kernels T}.

Definition Forward : Type := Z -> list T -> gset Z -> Exec (list T).

(** The equations of a graph, the ids of its outputs, and all a run depends on. *)
Definition program (st : Heap T) (g : Z) : list (Eqn (NodeOp * nat)) :=
  map (node_eqn st) (nodes (graph st g)).
Definition value_ids (st : Heap T) (vs : list Z) : list string := map (fun v => id (value st v)) vs.
Definition out_ids (st : Heap T) (g : Z) : list string := value_ids st (graph_outputs (graph st g)).
Definition in_ids (st : Heap T) (g : Z) : list string := value_ids st (graph_inputs (graph st g)).

Definition same_leaves (G G' : Graph T) : Prop :=
  constants G' = constants G /\ parameters G' = parameters G /\ param_leaves G' = param_leaves G /\
  buffers G' = buffers G /\ buffer_leaves G' = buffer_leaves G.

(** The ids a run starts with. *)
Definition leaf_id (st : Heap T) (g : Z) (i : string) : Prop :=
  i ∈ in_ids st g \/ is_Some (constants (graph st g) !! i) \/
  is_Some (param_leaves (graph st g) !! i) \/ is_Some (buffer_leaves (graph st g) !! i).

Definition tripped : exn := RuntimeError "a guard tripped".

(** What a node computes when no guard trips. *)
Definition node_fun (fwd : Forward) (g : Z) (target : Device) (k : NodeOp * nat) (xs : list T)
    : result (list T) :=
  let '(fl, r) := node_outputs fwd g target k.2 k.1 xs ∅ in
  if decide (fl = ∅) then r else Err tripped.

Definition grows (fwd : Forward) : Prop :=
  forall g xs fl fl' r, fwd g xs fl = (fl', r) -> fl ⊆ fl'.

(** [fwd'] returns what [fwd] returns without tripping a guard. *)
Definition below (fwd fwd' : Forward) : Prop :=
  forall g xs ts, fwd g xs ∅ = (∅, Ok ts) -> fwd' g xs ∅ = (∅, Ok ts).

Lemma loop_grows body dev n i c carried fl fl' r :
  (forall xs fl fl' r, body xs fl = (fl', r) -> fl ⊆ fl') ->
  loop body dev n i c carried fl = (fl', r) -> fl ⊆ fl'.
Proof.
  intros Hb. revert i c carried fl. induction n as [|n IH]; intros i c carried fl H; simpl in H.
  { by injection H as <- _. }
  destruct c; simpl in H; [|by injection H as <- _].
  destruct (body _ fl) as [fl1 r1] eqn:E. pose proof (Hb _ _ _ _ E) as H1.
  destruct r1 as [[|t ts]|e]; [by injection H as <- _| |by injection H as <- _].
  destruct (tensor_condition_to_bool t) as [b|e]; [|by injection H as <- _].
  etrans; [done|]. by eapply IH.
Qed.

Lemma node_outputs_grows fwd g target k o xs fl fl' r :
  grows fwd -> node_outputs fwd g target k o xs fl = (fl', r) -> fl ⊆ fl'.
Proof.
  intros Hg H. destruct o as [[op a] [[th el] bd]]. unfold node_outputs in H.
  destruct (has_attr a "fusion_kind"); [by injection H as <- _|].
  destruct op; try (by injection H as <- _).
  - destruct xs; [by injection H as <- _|]. injection H as <- _. destruct (shape_matches _ _); set_solver.
  - destruct xs; [by injection H as <- _|]. destruct (tensor_condition_to_bool t) as [b|e]; [|by injection H as <- _].
    injection H as <- _. case_bool_decide; set_solver.
  - destruct xs as [|t xs]; [by injection H as <- _|]. destruct th as [th|]; [|by injection H as <- _].
    destruct (tensor_condition_to_bool t) as [[]|e]; [by eapply Hg| |by injection H as <- _].
    destruct el as [el|]; [by eapply Hg | by injection H as <- _].
  - destruct xs as [|t [|c xs]]; try by injection H as <- _.
    destruct bd as [bd|]; [|by injection H as <- _].
    destruct (max_iterations a t); [|by injection H as <- _].
    destruct (tensor_condition_to_bool c); [|by injection H as <- _].
    eapply loop_grows; [|done]. intros. by eapply Hg.
Qed.

Lemma execute_nodes_grows fwd st g target ns env fl fl' r :
  grows fwd -> execute_nodes fwd st g target ns env fl = (fl', r) -> fl ⊆ fl'.
Proof.
  intros Hg. revert env fl. induction ns as [|n ns IH]; intros env fl H; simpl in H.
  { by injection H as <- _. }
  unfold execute_node in H. destruct (mapM _ _) as [xs|]; [|by injection H as <- _].
  destruct (node_outputs _ _ _ _ _ xs fl) as [fl1 r1] eqn:E.
  apply node_outputs_grows in E; [|done]. destruct r1 as [ys|e]; simpl in H; [|by injection H as <- _].
  destruct (decide (g ∈ fl1)); [by injection H as <- _|]. etrans; [done|]. by eapply IH.
Qed.

Lemma forward_grows d st : grows (forward d st).
Proof.
  induction d as [|d IH]; intros g xs fl fl' r H; simpl in H; [by injection H as <- _|].
  destruct (initial _ _ _ _); [|by injection H as <- _].
  destruct (execute_nodes _ _ _ _ _ _ _) as [fl1 [env|e]] eqn:E; apply execute_nodes_grows in E; try done;
    by injection H as <- _.
Qed.

Lemma subset_empty (X : gset Z) : X ⊆ ∅ -> X = ∅.
Proof. set_solver. Qed.

Lemma foldl_assign st vs (ys : list T) env :
  foldl (fun env p => <[id (value st p.1) := p.2]> env) env (zip vs ys) = assign (value_ids st vs) ys env.
Proof.
  unfold value_ids. revert ys env. induction vs as [|v vs IH]; intros ys env; [done|].
  destruct ys as [|y ys]; [done|]. simpl. apply IH.
Qed.

Lemma reads_ids st env vs : mapM (fun v => env !! id (value st v)) vs = reads (T := T) env (value_ids st vs).
Proof.
  unfold reads, value_ids. induction vs as [|v vs IH]; [done|]. simpl. by rewrite IH.
Qed.

(** Without a tripped guard the loop over the nodes is [run]. *)
Lemma execute_nodes_run fwd st g target ns env env' :
  grows fwd ->
  execute_nodes fwd st g target ns env ∅ = (∅, Ok env') <->
  run (node_fun fwd g target) (map (node_eqn st) ns) env = Ok env'.
Proof.
  intros Hg. revert env. induction ns as [|n ns IH]; intros env; simpl.
  { split; [by intros [= ->] | by intros [= ->]]. }
  unfold execute_node. rewrite reads_ids.
  change (map (fun v => id (value st v)) (inputs (node st n))) with (value_ids st (inputs (node st n))).
  destruct (reads env _) as [xs|]; [|done]. unfold node_fun at 1. simpl.
  destruct (node_outputs fwd g target (length (outputs (node st n))) (node_op (node st n)) xs ∅)
    as [fl r] eqn:E. destruct (decide (fl = ∅)) as [->|Hfl].
  - destruct r as [ys|e]; simpl; [|by split; [intros [=]|]].
    rewrite decide_False by set_solver. rewrite foldl_assign. apply IH.
  - simpl. split; [|done]. intros H. exfalso. destruct r as [ys|e]; simpl in H; [|congruence].
    destruct (decide (g ∈ fl)); [congruence|].
    apply execute_nodes_grows in H; [|done]. by apply Hfl, subset_empty.
Qed.

Lemma gather_reads st env outs ts : gather st false env outs = Ok ts <-> reads env (value_ids st outs) = Some ts.
Proof.
  unfold reads, value_ids. revert ts. induction outs as [|o outs IH]; intros ts; simpl.
  { split; [by intros [= <-] | by intros [= <-]]. }
  destruct (env !! id (value st o)) as [t|]; simpl; [|done].
  rewrite rbind_Ok. setoid_rewrite IH. rewrite bind_Some. split.
  - intros (ts' & H & [= <-]). by exists ts'.
  - intros (ts' & H & [= <-]). by exists ts'.
Qed.

(** ** Runs *)

(** One assignment per id, none to a leaf. *)
Definition single_assignment (st : Heap T) (g : Z) : Prop :=
  NoDup (produced (program st g)) /\ forall i, i ∈ produced (program st g) -> ~ leaf_id st g i.

Lemma bind_leaves_dom what target live leaves env env' i :
  bind_leaves what target live leaves env = Ok env' -> is_Some (env' !! i) ->
  is_Some (env !! i) \/ is_Some (leaves !! i).
Proof.
  unfold bind_leaves. intros H Hi.
  enough (forall l env, (forall p, p ∈ l -> is_Some (leaves !! p.1)) ->
    rfoldM (fun env (p : string * nat) => match live !! p.2 with
      | Some (Some t) => Ok (<[p.1 := place target t]> env) | _ => Err (RuntimeError what) end) l env = Ok env' ->
    is_Some (env !! i) \/ is_Some (leaves !! i)) as Hl.
  { eapply Hl; [|done]. intros [j k] Hp. apply elem_of_map_to_list in Hp. by exists k. }
  clear env H. induction l as [|p l IH]; intros env Hp H; simpl in H; inv_ok; [by subst; left|].
  destruct (live !! p.2) as [[t|]|]; inv_ok. subst.
  destruct (IH _ (fun q Hq => Hp q (list_elem_of_further _ _ _ Hq)) H0) as [Hs|]; [|by right].
  destruct (decide (p.1 = i)) as [<-|Hne]; [right; apply Hp; by left|].
  left. by rewrite lookup_insert_ne in Hs.
Qed.

Lemma initial_env st g target xs env0 :
  initial st (graph st g) target xs = Ok env0 -> forall i, is_Some (env0 !! i) -> leaf_id st g i.
Proof.
  unfold initial. intros H i Hi. inv_ok. rename x0 into env1, H0 into Hp, H1 into Hb.
  rewrite foldl_assign in Hp.
  destruct (bind_leaves_dom _ _ _ _ _ _ _ Hb Hi) as [H1|H1]; [|by right; right; right].
  destruct (bind_leaves_dom _ _ _ _ _ _ _ Hp H1) as [H2|H2]; [|by right; right; left].
  destruct (decide (i ∈ in_ids st g)) as [Hin|Hin]; [by left|]. right; left.
  apply lookup_union_is_Some in H2 as [H2|H2].
  - rewrite assign_other, lookup_empty in H2 by done. by apply is_Some_None in H2.
  - by rewrite lookup_fmap, fmap_is_Some in H2.
Qed.

Lemma single_assignment_single st g target xs env0 :
  single_assignment st g -> initial st (graph st g) target xs = Ok env0 -> single env0 (program st g).
Proof.
  intros [Hnd Hl] H. split; [done|]. intros i Hi. apply eq_None_not_Some. intros Hs.
  by eapply Hl, initial_env.
Qed.

(** A run of [g] on [xs] in which no guard trips: its final values and its
    results; graphs below [g] run to depth [d]. *)
Definition runs (d : nat) (st : Heap T) (g : Z) (xs : list T) (env : gmap string T) (ts : list T) : Prop :=
  let target := target_device (graph st g) xs in
  exists env0, initial st (graph st g) target xs = Ok env0 /\
    run (node_fun (forward d st) g target) (program st g) env0 = Ok env /\
    reads env (out_ids st g) = Some ts.

Lemma forward_runs d st g xs ts : forward (S d) st g xs ∅ = (∅, Ok ts) <-> exists env, runs d st g xs env ts.
Proof.
  simpl. unfold runs, program, out_ids. split.
  - destruct (initial _ _ _ _) as [env0|e] eqn:Ei; [|done].
    destruct (execute_nodes _ _ _ _ _ _ _) as [fl [env|e]] eqn:E; [|done]. intros [= -> H].
    exists env, env0. split_and!; [done| |].
    + eapply execute_nodes_run; [apply forward_grows | done].
    + apply gather_reads. by rewrite bool_decide_eq_false_2 in H by set_solver.
  - intros (env & env0 & -> & H & Hr). apply execute_nodes_run in H; [|apply forward_grows].
    rewrite H. rewrite bool_decide_eq_false_2 by set_solver. f_equal. by apply gather_reads.
Qed.

(** A run solves the equations and shows that they are in order; in order, every
    solution is a run. *)
Lemma runs_valuation d st g xs env ts : single_assignment st g -> runs d st g xs env ts ->
  let target := target_device (graph st g) xs in
  exists env0, initial st (graph st g) target xs = Ok env0 /\ single env0 (program st g) /\
    ordered (program st g) /\ valuation (node_fun (forward d st) g target) env0 (program st g) env /\
    reads env (out_ids st g) = Some ts.
Proof.
  intros Hs (env0 & Hi & H & Hr). exists env0.
  assert (single env0 (program st g)) as Hs0 by by eapply single_assignment_single.
  split_and!; [done|done|by eapply run_ordered|by eapply run_valuation|done].
Qed.

(** ** Refinement *)

Lemma loop_below body body' dev n i c carried ts :
  (forall xs fl fl' r, body xs fl = (fl', r) -> fl ⊆ fl') ->
  (forall xs ts, body xs ∅ = (∅, Ok ts) -> body' xs ∅ = (∅, Ok ts)) ->
  loop body dev n i c carried ∅ = (∅, Ok ts) -> loop body' dev n i c carried ∅ = (∅, Ok ts).
Proof.
  intros Hg Hb. revert i c carried. induction n as [|n IH]; intros i c carried H; simpl in *; [done|].
  destruct c; simpl in *; [|done]. destruct (body _ ∅) as [fl r] eqn:E.
  assert (fl = ∅) as ->.
  { apply subset_empty. destruct r as [[|t ts']|e]; [by injection H as -> _| |by injection H as -> _].
    destruct (tensor_condition_to_bool t); [|by injection H as -> _].
    by apply loop_grows in H. }
  destruct r as [ts'|e]; [|done]. rewrite (Hb _ _ E).
  destruct ts' as [|t ts']; [done|]. destruct (tensor_condition_to_bool t); [|done]. by apply IH.
Qed.

(** The graphs a node owns. *)
Definition owned (o : NodeOp (T := T)) : list Z :=
  let '(_, _, (then_g, else_g, body_g)) := o in omap (fun x => x) [then_g; else_g; body_g].

(** [fwd'] returns what [fwd] returns on the graphs in [l]. *)
Definition below_on (l : list Z) (fwd fwd' : Forward) : Prop :=
  forall h xs ts, h ∈ l -> fwd h xs ∅ = (∅, Ok ts) -> fwd' h xs ∅ = (∅, Ok ts).

Lemma node_fun_below fwd fwd' g target k xs ys :
  grows fwd -> below_on (owned k.1) fwd fwd' ->
  node_fun fwd g target k xs = Ok ys -> node_fun fwd' g target k xs = Ok ys.
Proof.
  intros Hg Hb. destruct k as [[[op a] [[th el] bd]] k]. unfold node_fun, node_outputs. simpl in *.
  destruct (has_attr a "fusion_kind"); [done|].
  destruct op; try done.
  - destruct xs as [|t xs]; [done|]. destruct th as [th|]; [|done].
    destruct (tensor_condition_to_bool t) as [[]|e]; [| |done].
    + destruct (fwd th xs ∅) as [fl r] eqn:E. destruct (decide (fl = ∅)) as [->|]; [|done].
      intros ->. rewrite (Hb th _ _) by (done || left). done.
    + destruct el as [el|]; [|done].
      destruct (fwd el xs ∅) as [fl r] eqn:E. destruct (decide (fl = ∅)) as [->|]; [|done].
      intros ->. rewrite (Hb el _ _) by (done || right; left). done.
  - destruct xs as [|t [|c xs]]; try done. destruct bd as [bd|]; [|done].
    destruct (max_iterations a t); [|done]. destruct (tensor_condition_to_bool c); [|done].
    set (dev := match xs with [] => _ | _ => _ end).
    destruct (loop (fwd bd) _ _ _ _ _ _) as [fl r] eqn:E. destruct (decide (fl = ∅)) as [->|]; [|done].
    intros ->. rewrite (loop_below (fwd bd) (fwd' bd) _ _ _ _ _ ys (Hg bd)) by (done || by
      intros vs us; apply Hb; destruct th, el; set_solver). done.
Qed.

Lemma run_below fwd fwd' g target es env env' :
  grows fwd -> (forall e, e ∈ es -> below_on (owned (e_op e).1) fwd fwd') ->
  run (node_fun fwd g target) es env = Ok env' -> run (node_fun fwd' g target) es env = Ok env'.
Proof.
  intros Hg. revert env. induction es as [|e es IH]; intros env Hb H; simpl in *; [done|].
  destruct (reads env (e_ins e)) as [vs|]; [|done]. inv_ok.
  rewrite (node_fun_below fwd fwd' g target _ _ _ Hg (Hb e (list_elem_of_here _ _)) H). simpl.
  apply IH; [|done]. intros e' He'. apply Hb. by right.
Qed.

(** Every run of [st] is one of [st'], with the same results and no other values. *)
Definition refines (st st' : Heap T) : Prop :=
  forall d g xs env ts, runs d st g xs env ts -> exists env', runs d st' g xs env' ts /\ env' ⊆ env.

Lemma refines_refl st : refines st st.
Proof. intros d g xs env ts H. by exists env. Qed.

Lemma refines_trans st1 st2 st3 : refines st1 st2 -> refines st2 st3 -> refines st1 st3.
Proof.
  intros H1 H2 d g xs env ts H. destruct (H1 _ _ _ _ _ H) as (env1 & Hr1 & ?).
  destruct (H2 _ _ _ _ _ Hr1) as (env2 & ? & ?). exists env2. split; [done|]. by etrans.
Qed.

Lemma refines_forward st st' d g xs ts :
  refines st st' -> forward d st g xs ∅ = (∅, Ok ts) -> forward d st' g xs ∅ = (∅, Ok ts).
Proof.
  intros H. destruct d as [|d]; [done|]. rewrite !forward_runs. intros [env Hr].
  destruct (H _ _ _ _ _ Hr) as (env' & ? & _). by exists env'.
Qed.

(** The same for one graph, if the graphs below it keep their results. *)
Definition improves (st st' : Heap T) (g : Z) : Prop :=
  forall d xs env ts, below_on (concat (map (fun e => owned (e_op e).1) (program st g))) (forward d st) (forward d st') ->
  runs d st g xs env ts -> exists env', runs d st' g xs env' ts /\ env' ⊆ env.

Lemma refines_by st st' : (forall g, improves st st' g) -> refines st st'.
Proof.
  intros H d. induction d as [|d IH]; intros g xs env ts Hr.
  - eapply H; [|done]. by intros h vs us _ [=].
  - eapply H; [|done]. intros h vs us _ Hf%forward_runs. apply forward_runs.
    destruct Hf as [env1 Hr1]. destruct (IH _ _ _ _ Hr1) as (env2 & ? & _). by exists env2.
Qed.

Lemma valuation_below fwd fwd' g target env0 es env :
  grows fwd -> (forall e, e ∈ es -> below_on (owned (e_op e).1) fwd fwd') ->
  valuation (node_fun fwd g target) env0 es env -> valuation (node_fun fwd' g target) env0 es env.
Proof.
  intros Hg Hb [Hh Hr]. split; [|done]. intros e He. destruct (Hh e He) as (xs & ys & ? & HF & ?).
  exists xs, ys. split_and!; [done|by apply (node_fun_below _ _ _ _ _ _ _ Hg (Hb e He))|done].
Qed.

(** [g] looks the same to a run in both heaps. *)
Definition same_graph (st st' : Heap T) (g : Z) : Prop :=
  program st' g = program st g /\ in_ids st' g = in_ids st g /\ out_ids st' g = out_ids st g /\
  same_leaves (graph st g) (graph st' g).

Lemma same_graph_refl st g : same_graph st st g.
Proof. by repeat split. Qed.

Lemma same_graph_trans st1 st2 st3 g : same_graph st1 st2 g -> same_graph st2 st3 g -> same_graph st1 st3 g.
Proof. intros (?&?&?&?&?&?&?&?) (?&?&?&?&?&?&?&?). repeat split; congruence. Qed.

Lemma target_device_same (G G' : Graph T) xs : same_leaves G G' -> target_device G' xs = target_device G xs.
Proof. intros (Hc & Hp & _). unfold target_device. by rewrite Hc, Hp. Qed.

Lemma initial_same st st' g target xs :
  in_ids st' g = in_ids st g -> same_leaves (graph st g) (graph st' g) ->
  initial st' (graph st' g) target xs = initial st (graph st g) target xs.
Proof.
  intros Hi (Hc & Hp & Hl & Hb & Hbl). unfold initial. rewrite Hc, Hp, Hl, Hb, Hbl.
  rewrite !foldl_assign. unfold in_ids in Hi. rewrite Hi.
  assert (length (graph_inputs (graph st' g)) = length (graph_inputs (graph st g))) as ->; [|done].
  apply (f_equal length) in Hi. unfold value_ids in Hi. by rewrite !length_map in Hi.
Qed.

Lemma leaf_id_same st st' g i :
  in_ids st' g = in_ids st g -> same_leaves (graph st g) (graph st' g) -> leaf_id st' g i <-> leaf_id st g i.
Proof. intros Hi (Hc & Hp & Hl & Hb & Hbl). unfold leaf_id. by rewrite Hi, Hc, Hl, Hbl. Qed.

Lemma below_on_eqn es fwd fwd' e :
  below_on (concat (map (fun e : Eqn (NodeOp * nat) => owned (e_op e).1) es)) fwd fwd' -> e ∈ es ->
  below_on (owned (e_op e).1) fwd fwd'.
Proof.
  intros H He h xs ts Hh. apply H. apply list_elem_of_In, in_concat. exists (owned (e_op e).1).
  split; [|by apply list_elem_of_In]. apply in_map_iff. exists e. split; [done|]. by apply list_elem_of_In.
Qed.

Lemma same_graph_improves st st' g : same_graph st st' g -> improves st st' g.
Proof.
  intros (Hp & Hi & Ho & Hl) d xs env ts Hb (env0 & Hinit & H & Hr). exists env. split; [|done].
  exists env0. rewrite (target_device_same _ _ xs Hl), Hp, Ho.
  split_and!; [by rewrite (initial_same _ _ _ _ _ Hi Hl)| |done].
  eapply run_below; [apply forward_grows| |done]. intros e He. by eapply below_on_eqn.
Qed.

(** Nothing owns [g]. *)
Definition root (st : Heap T) (g : Z) : Prop :=
  forall h n, n ∈ nodes (graph st h) -> g ∉ owned (node_op (node st n)).

(** Changing a graph that no other one runs leaves the results of the others. *)
Lemma others_forward st st' g :
  root st g -> (forall h, h <> g -> same_graph st st' h) ->
  forall d h xs ts, h <> g -> forward d st h xs ∅ = (∅, Ok ts) -> forward d st' h xs ∅ = (∅, Ok ts).
Proof.
  intros Hroot Hs d. induction d as [|d IH]; intros h xs ts Hh; [done|].
  rewrite !forward_runs. intros [env Hr]. destruct (same_graph_improves _ _ _ (Hs h Hh) d xs env ts) as (env' & ? & _).
  - intros s vs us Hin. apply IH. intros ->. apply list_elem_of_In, in_concat in Hin as (l & Hl & Hin).
    unfold program in Hl. rewrite map_map in Hl. apply in_map_iff in Hl as (n & <- & Hn).
    eapply Hroot; [by apply list_elem_of_In|by apply list_elem_of_In].
  - done.
  - by exists env'.
Qed.

(** ** Transferring solutions *)

(** Every solution of [g] in [st] that satisfies [Q] gives one in [st'] with no
    other values and the same outputs. *)
Definition transfers (Q : gmap string T -> Prop) (st st' : Heap T) (g : Z) : Prop :=
  forall fwd target env0 env, single env0 (program st g) ->
    valuation (node_fun fwd g target) env0 (program st g) env -> Q env ->
    exists env', valuation (node_fun fwd g target) env0 (program st' g) env' /\
      env' ⊆ env /\ forall ts, reads env (out_ids st g) = Some ts -> reads env' (out_ids st' g) = Some ts.

Lemma transfers_runs Q st st' g :
  single_assignment st g -> single_assignment st' g ->
  in_ids st' g = in_ids st g -> same_leaves (graph st g) (graph st' g) ->
  (ordered (program st g) -> ordered (program st' g)) -> transfers Q st st' g ->
  forall d xs env ts, Q env ->
  below_on (concat (map (fun e => owned (e_op e).1) (program st g))) (forward d st) (forward d st') ->
  runs d st g xs env ts -> exists env', runs d st' g xs env' ts /\ env' ⊆ env.
Proof.
  intros Hs Hs' Hi Hl Hord Ht d xs env ts HQ Hb Hr.
  destruct (runs_valuation _ _ _ _ _ _ Hs Hr) as (env0 & Hinit & Hs0 & Ho & Hv & Hout).
  destruct (Ht (forward d st') (target_device (graph st g) xs) env0 env Hs0) as (env' & Hv' & Hsub & Hout').
  { eapply valuation_below; [apply forward_grows| |done]. intros e He. by eapply below_on_eqn. }
  { done. }
  exists env'. split; [|done]. exists env0. rewrite (target_device_same _ _ xs Hl).
  split_and!; [by rewrite (initial_same _ _ _ _ _ Hi Hl)| |by apply Hout'].
  apply valuation_run; [|by apply Hord|done]. eapply single_assignment_single; [done|].
  by rewrite (initial_same _ _ _ _ _ Hi Hl).
Qed.

End Meaning.
End Meaning.
