(* ===== verification/JitWf.v ===== *)
(** * Well-formed heaps of JIT graphs

    The invariant of the editing operations of src/jit/graph.cpp: ids name one
    value per graph, every value has at most one producer, the use lists contain
    the consumers, and graphs share nothing.  Nodes that a pass has removed but
    still holds are the [pending] ones. *)

From stdpp Require Import base list numbers strings gmap.
From S2P Require Import Prelude DType JitOps JitGraph JitFlow JitExec JitMeaning.

Module Wf.
Import Jit Flow Exec Meaning.

Section Wf.
Context {T : Type}.

(** [v] is the value that [get_value] finds under its id. *)
Definition known (st : Heap T) (g v : Z) : Prop := values (graph st g) !! id (value st v) = Some v.

Record wf (pending : list Z) (st : Heap T) : Prop := mkWf {
  w_nodup g : NoDup (nodes (graph st g));
  w_alive g n : n ∈ nodes (graph st g) -> alive st n = true;
  w_own g h n : n ∈ nodes (graph st g) -> n ∈ nodes (graph st h) -> g = h;
  w_pending g n : n ∈ nodes (graph st g) -> n ∉ pending;
  w_val g i v : values (graph st g) !! i = Some v -> is_Some (heap_values st !! v) /\ id (value st v) = i;
  w_vown g h i j v : values (graph st g) !! i = Some v -> values (graph st h) !! j = Some v -> g = h;
  w_in g n v : n ∈ nodes (graph st g) -> v ∈ inputs (node st n) -> known st g v /\ n ∈ uses (value st v);
  w_in_live g n v p : n ∈ nodes (graph st g) -> v ∈ inputs (node st n) -> node_of st v = Some p ->
    p ∈ nodes (graph st g);
  w_out g n v : n ∈ nodes (graph st g) -> v ∈ outputs (node st n) ->
    known st g v /\ producer (value st v) = Some n /\ ~ leaf_id st g (id (value st v));
  w_out_nodup g n : n ∈ nodes (graph st g) -> NoDup (outputs (node st n));
  w_gin g v : v ∈ graph_inputs (graph st g) -> known st g v;
  w_gout g v : v ∈ graph_outputs (graph st g) -> known st g v /\
    (forall p, node_of st v = Some p -> p ∈ nodes (graph st g));
  w_prod g v p : known st g v -> node_of st v = Some p ->
    v ∈ outputs (node st p) /\ (p ∈ nodes (graph st g) \/ p ∈ pending);
  w_use g v n : known st g v -> n ∈ live_uses st v -> n ∈ nodes (graph st g) /\ v ∈ inputs (node st n)
}.

(** ** Rewiring: only inputs and use lists change *)

Record rewired (st st' : Heap T) : Prop := mkRewired {
  rw_graphs : heap_graphs st' = heap_graphs st;
  rw_next : next_ptr st' = next_ptr st;
  rw_nodes n : is_Some (heap_nodes st' !! n) <-> is_Some (heap_nodes st !! n);
  rw_values v : is_Some (heap_values st' !! v) <-> is_Some (heap_values st !! v);
  rw_value v : with_uses [] (value st' v) = with_uses [] (value st v);
  rw_node n : with_inputs [] (node st' n) = with_inputs [] (node st n)
}.

Lemma rewired_refl st : rewired st st.
Proof. by split. Qed.

Lemma rewired_trans st1 st2 st3 : rewired st1 st2 -> rewired st2 st3 -> rewired st1 st3.
Proof.
  intros [] []. split; try congruence; intros x.
  - by rewrite rw_nodes1, rw_nodes0.
  - by rewrite rw_values1, rw_values0.
Qed.

Lemma rewired_foldl {A} (f : Heap T -> A -> Heap T) l st :
  (forall st x, x ∈ l -> rewired st (f st x)) -> rewired st (foldl f st l).
Proof.
  revert st. induction l as [|x l IH]; intros st H; simpl; [apply rewired_refl|].
  eapply rewired_trans; [apply H; left|]. apply IH. intros st' y Hy. apply H. by right.
Qed.

Section Rewired.
Context {st st' : Heap T} (R : rewired st st').

Lemma rw_id v : id (value st' v) = id (value st v).
Proof. exact (f_equal id (rw_value _ _ R v)). Qed.
Lemma rw_producer v : producer (value st' v) = producer (value st v).
Proof. exact (f_equal producer (rw_value _ _ R v)). Qed.
Lemma rw_outputs n : outputs (node st' n) = outputs (node st n).
Proof. exact (f_equal outputs (rw_node _ _ R n)). Qed.
Lemma rw_node_op n : node_op (node st' n) = node_op (node st n).
Proof. exact (f_equal node_op (rw_node _ _ R n)). Qed.
Lemma rw_graph g : graph st' g = graph st g.
Proof. unfold graph. by rewrite (rw_graphs _ _ R). Qed.
Lemma rw_alive n : alive st' n = alive st n.
Proof. apply bool_decide_ext. apply (rw_nodes _ _ R). Qed.
Lemma rw_node_of v : node_of st' v = node_of st v.
Proof. unfold node_of. rewrite rw_producer. destruct (producer _) as [n|]; [by rewrite rw_alive|done]. Qed.
Lemma rw_known g v : known st' g v <-> known st g v.
Proof. unfold known. by rewrite rw_graph, rw_id. Qed.
Lemma rw_value_ids vs : value_ids st' vs = value_ids st vs.
Proof. apply map_ext. intros v. apply rw_id. Qed.
Lemma rw_leaf_id g i : leaf_id st' g i <-> leaf_id st g i.
Proof. unfold leaf_id, in_ids. by rewrite rw_graph, rw_value_ids. Qed.
Lemma rw_node_eqn n f :
  inputs (node st' n) = map f (inputs (node st n)) ->
  node_eqn st' n = mkEqn (e_op (node_eqn st n)) (value_ids st (map f (inputs (node st n)))) (e_outs (node_eqn st n)).
Proof.
  intros H. unfold node_eqn. rewrite rw_node_op, rw_outputs, H. f_equal; apply rw_value_ids.
Qed.
End Rewired.

(** ** Single updates *)

Lemma value_upd_ne v w f (st : Heap T) : w <> v -> value (upd_value v f st) w = value st w.
Proof. intros H. unfold value. simpl. by rewrite lookup_alter_ne. Qed.

Lemma value_upd_eq v f (st : Heap T) :
  is_Some (heap_values st !! v) -> value (upd_value v f st) v = f (value st v).
Proof. intros [x Hx]. unfold value. simpl. by rewrite lookup_alter_eq, Hx. Qed.

Lemma value_upd_field {A} (p : Value -> A) v f (st : Heap T) w :
  (forall x, p (f x) = p x) -> p (value (upd_value v f st) w) = p (value st w).
Proof.
  intros H. destruct (decide (w = v)) as [->|Hne]; [|by rewrite value_upd_ne].
  unfold value. simpl. rewrite lookup_alter_eq. destruct (heap_values st !! v); simpl; [apply H|done].
Qed.

Lemma node_upd_ne n m f (st : Heap T) : m <> n -> node (upd_node n f st) m = node st m.
Proof. intros H. unfold node. simpl. by rewrite lookup_alter_ne. Qed.

Lemma node_upd_eq n f (st : Heap T) :
  is_Some (heap_nodes st !! n) -> node (upd_node n f st) n = f (node st n).
Proof. intros [x Hx]. unfold node. simpl. by rewrite lookup_alter_eq, Hx. Qed.

Lemma node_upd_field {A} (p : Node T -> A) n f (st : Heap T) m :
  (forall x, p (f x) = p x) -> p (node (upd_node n f st) m) = p (node st m).
Proof.
  intros H. destruct (decide (m = n)) as [->|Hne]; [|by rewrite node_upd_ne].
  unfold node. simpl. rewrite lookup_alter_eq. destruct (heap_nodes st !! n); simpl; [apply H|done].
Qed.

Lemma graph_upd_ne g h f (st : Heap T) : h <> g -> graph (upd_graph g f st) h = graph st h.
Proof. intros H. unfold graph. simpl. by rewrite lookup_alter_ne. Qed.

Lemma graph_upd_eq g f (st : Heap T) :
  is_Some (heap_graphs st !! g) -> graph (upd_graph g f st) g = f (graph st g).
Proof. intros [x Hx]. unfold graph. simpl. by rewrite lookup_alter_eq, Hx. Qed.

Lemma is_Some_alter {A} (m : gmap Z A) f k j : is_Some (alter f k m !! j) <-> is_Some (m !! j).
Proof.
  destruct (decide (j = k)) as [->|H]; [|by rewrite lookup_alter_ne].
  rewrite lookup_alter_eq. apply fmap_is_Some.
Qed.

Lemma rewired_uses v f (st : Heap T) :
  (forall x, with_uses [] (f x) = with_uses [] x) -> rewired st (upd_value v f st).
Proof.
  intros H. split; try done.
  - intros w. apply is_Some_alter.
  - intros w. by apply value_upd_field.
Qed.

Lemma rewired_inputs n f (st : Heap T) :
  (forall x, with_inputs [] (f x) = with_inputs [] x) -> rewired st (upd_node n f st).
Proof.
  intros H. split; try done.
  - intros m. apply is_Some_alter.
  - intros m. by apply node_upd_field.
Qed.

Lemma rewired_replace_input_at n i o w (st : Heap T) : rewired st (replace_input_at n i o w st).
Proof.
  eapply rewired_trans; [eapply rewired_trans|]; [apply rewired_uses| apply rewired_inputs|apply rewired_uses]; done.
Qed.

(** ** [replace_value] *)

Section Redirect.
Context (old_id : string) (o w : Z).

(** The value that is read instead. *)
Definition subst_value (st : Heap T) (v : Z) : Z := if decide (id (value st v) = old_id) then w else v.

Lemma rewired_redirect c (st : Heap T) : rewired st (redirect_consumer old_id w st c).
Proof.
  unfold redirect_consumer. apply rewired_foldl. intros st' i _.
  destruct (_ !! i); [|apply rewired_refl]. destruct (decide _); [|apply rewired_refl].
  apply rewired_replace_input_at.
Qed.

(** The effect of one redirected slot on the use lists of the values. *)
Lemma uses_replace_input_at c i u v (st : Heap T) :
  is_Some (heap_values st !! w) ->
  uses (value (replace_input_at c i u w st) v) =
  (if decide (v = u) then filter (fun m => alive st m = true /\ m <> c) (uses (value st v)) else uses (value st v))
  ++ (if decide (v = w) then [c] else []).
Proof.
  intros Hw. unfold replace_input_at, add_use.
  set (st1 := remove_use u c st). set (st2 := upd_node c _ st1).
  assert (uses (value st2 v) = if decide (v = u) then filter (fun m => alive st m = true /\ m <> c) (uses (value st v))
    else uses (value st v)) as H2.
  { change (value st2 v) with (value st1 v). unfold st1, remove_use. destruct (decide (v = u)) as [->|Hne].
    - destruct (heap_values st !! u) eqn:E; [by rewrite value_upd_eq by (by eexists)|].
      unfold value. simpl. by rewrite lookup_alter_eq, E.
    - by rewrite value_upd_ne. }
  destruct (decide (v = w)) as [->|Hne].
  - rewrite value_upd_eq.
    + simpl. by rewrite H2.
    + unfold st2, st1. simpl. by apply is_Some_alter.
  - by rewrite value_upd_ne, app_nil_r.
Qed.

Lemma inputs_replace_input_at c i u n (st : Heap T) :
  inputs (node (replace_input_at c i u w st) n) =
  if decide (n = c) then <[i := w]> (inputs (node st n)) else inputs (node st n).
Proof.
  unfold replace_input_at, add_use.
  change (node (upd_value w ?f ?s) n) with (node s n).
  set (st1 := remove_use u c st). destruct (decide (n = c)) as [->|Hne].
  - destruct (heap_nodes st !! c) eqn:E.
    + rewrite node_upd_eq by (by eexists). done.
    + unfold node. simpl. rewrite lookup_alter_eq, E. done.
  - by rewrite node_upd_ne.
Qed.

Lemma redirect_slots c (st : Heap T) k :
  is_Some (heap_values st !! w) -> id (value st w) <> old_id ->
  (forall v, v ∈ inputs (node st c) -> id (value st v) = old_id -> v = o) ->
  let st' := foldl (fun st i =>
      match inputs (node st c) !! i with
      | Some v => if decide (id (value st v) = old_id) then replace_input_at c i v w st else st
      | None => st
      end) st (seq 0 k) in
  rewired st st' /\
  (forall n, n <> c -> inputs (node st' n) = inputs (node st n)) /\
  inputs (node st' c) = map (subst_value st) (take k (inputs (node st c))) ++ drop k (inputs (node st c)) /\
  (forall v, v <> o -> v <> w -> uses (value st' v) = uses (value st v)) /\
  (forall m, w <> o -> m ∈ uses (value st' w) <->
     m ∈ uses (value st w) \/ m = c /\ exists v, v ∈ take k (inputs (node st c)) /\ id (value st v) = old_id).
Proof.
  intros Hw Hne Ho st'. subst st'. induction k as [|k IH].
  { cbn [seq foldl]. rewrite take_0, drop_0. split_and!; [apply rewired_refl|done|done|done|].
    intros m _. split; [by left|]. intros [?|[_ (v & Hv & _)]]; [done|inversion Hv]. }
  rewrite seq_S, foldl_app. simpl.
  set (l := inputs (node st c)) in *. set (st1 := foldl _ st _) in *.
  destruct IH as (R & Hn & Hc & Hu & Hm).
  assert (inputs (node st1 c) !! k = l !! k) as Hk.
  { rewrite Hc. destruct (decide (k < length l)%nat) as [Hlt|Hge].
    - rewrite lookup_app_r; rewrite length_map, length_take; [|lia].
      rewrite lookup_drop. f_equal. lia.
    - rewrite !lookup_ge_None_2; try done; [lia|]. rewrite length_app, length_map, length_take, length_drop. lia. }
  rewrite Hk. destruct (l !! k) as [v|] eqn:Ev.
  2:{ rewrite lookup_ge_None in Ev. rewrite !(take_ge l), !(drop_ge l) in * by lia. done. }
  rewrite (rw_id R). assert (take (S k) l = take k l ++ [v]) as HS by by apply take_S_r.
  assert (drop k l = v :: drop (S k) l) as HD by by apply drop_S.
  assert (v ∈ l) as Hin by by eapply list_elem_of_lookup_2.
  destruct (decide (id (value st v) = old_id)) as [Hv|Hv].
  - assert (v = o) as -> by by apply Ho.
    split_and!.
    + eapply rewired_trans; [done|apply rewired_replace_input_at].
    + intros n Hnc. rewrite inputs_replace_input_at, decide_False by done. by apply Hn.
    + rewrite inputs_replace_input_at, decide_True by done. rewrite Hc, HS, HD, map_app.
      assert (k < length l)%nat by by eapply lookup_lt_Some.
      rewrite insert_app_r_alt; rewrite length_map, length_take; [|lia].
      replace (k - k `min` length l)%nat with O by lia.
      assert (subst_value st o = w) as Hso by (unfold subst_value; by rewrite decide_True).
      rewrite <-app_assoc. cbn [map app]. by rewrite Hso.
    + intros u Huo Huw. rewrite uses_replace_input_at by by apply (rw_values _ _ R).
      rewrite !decide_False, app_nil_r by done. by apply Hu.
    + intros m Hwo. rewrite uses_replace_input_at by by apply (rw_values _ _ R).
      rewrite decide_False, decide_True, elem_of_app, Hm, list_elem_of_singleton, HS by done.
      setoid_rewrite elem_of_app. setoid_rewrite list_elem_of_singleton. split.
      * intros [[?|[-> (u & ? & ?)]]| ->]; [by left|right; eauto|right; eauto].
      * intros [?|[-> _]]; [by left; left|by right].
  - split_and!; [done|done| |done|].
    + assert (subst_value st v = v) as Hsv by (unfold subst_value; by rewrite decide_False).
      rewrite Hc, HS, HD, map_app, <-app_assoc. cbn [map app]. by rewrite Hsv.
    + intros m Hwo. rewrite Hm by done. rewrite HS. setoid_rewrite elem_of_app.
      setoid_rewrite list_elem_of_singleton. split; [intros [?|[-> (u & ? & ?)]]; [by left|right; eauto]|].
      intros [?|[-> (u & [?| ->] & ?)]]; [by left|right; eauto|done].
Qed.

Lemma redirect_consumer_spec c (st : Heap T) :
  is_Some (heap_values st !! w) -> id (value st w) <> old_id ->
  (forall v, v ∈ inputs (node st c) -> id (value st v) = old_id -> v = o) ->
  let st' := redirect_consumer old_id w st c in
  (forall n, inputs (node st' n) =
     if decide (n = c) then map (subst_value st) (inputs (node st n)) else inputs (node st n)) /\
  (forall v, v <> o -> v <> w -> uses (value st' v) = uses (value st v)) /\
  (forall m, w <> o -> m ∈ uses (value st' w) <->
     m ∈ uses (value st w) \/ m = c /\ exists v, v ∈ inputs (node st c) /\ id (value st v) = old_id).
Proof.
  intros Hw Hne Ho. destruct (redirect_slots c st (length (inputs (node st c))) Hw Hne Ho)
    as (_ & Hn & Hc & Hu & Hm). split_and!; [|exact Hu|].
  - intros n. destruct (decide (n = c)) as [->|Hnc]; [|by apply Hn].
    unfold redirect_consumer. rewrite Hc, firstn_all, drop_all, app_nil_r. done.
  - intros m Hwo. unfold redirect_consumer. rewrite Hm by done. by rewrite firstn_all.
Qed.

Lemma redirect_all cs (st : Heap T) :
  is_Some (heap_values st !! w) -> id (value st w) <> old_id -> w <> o ->
  (forall c v, c ∈ cs -> v ∈ inputs (node st c) -> id (value st v) = old_id -> v = o) ->
  let st' := foldl (redirect_consumer old_id w) st cs in
  rewired st st' /\
  (forall n, inputs (node st' n) =
     if decide (n ∈ cs) then map (subst_value st) (inputs (node st n)) else inputs (node st n)) /\
  (forall v, v <> o -> v <> w -> uses (value st' v) = uses (value st v)) /\
  (forall m, m ∈ uses (value st' w) <->
     m ∈ uses (value st w) \/ m ∈ cs /\ exists v, v ∈ inputs (node st m) /\ id (value st v) = old_id).
Proof.
  intros Hw Hne Hwo. revert st Hw Hne. induction cs as [|c cs IH]; intros st Hw Hne Ho; cbn [foldl].
  { split_and!; [apply rewired_refl|done|done|]. intros m. split; [by left|].
    intros [?|[Hm _]]; [done|inversion Hm]. }
  pose proof (rewired_redirect c st) as R1.
  destruct (redirect_consumer_spec c st Hw Hne) as (Hi1 & Hu1 & Hm1); [by intros v; apply Ho; left|].
  set (st1 := redirect_consumer old_id w st c) in *.
  assert (forall v, subst_value st1 v = subst_value st v) as Hsub.
  { intros v. unfold subst_value. by rewrite (rw_id R1). }
  assert (forall v, subst_value st (subst_value st v) = subst_value st v) as Hidem.
  { intros v. unfold subst_value at 2 3. destruct (decide (id (value st v) = old_id)).
    - unfold subst_value. by rewrite decide_False.
    - unfold subst_value. by rewrite decide_False. }
  destruct (IH st1) as (R & Hi & Hu & Hm).
  { by apply (rw_values _ _ R1). }
  { by rewrite (rw_id R1). }
  { intros c' v Hc' Hv. rewrite Hi1 in Hv. rewrite (rw_id R1).
    case_decide as Hcc; [|by eapply Ho; [right|]].
    apply list_elem_of_fmap in Hv as (u & -> & Hu'). unfold subst_value. case_decide; [done|].
    intros ?. done. }
  split_and!.
  - by eapply rewired_trans.
  - intros n. rewrite Hi, Hi1. rewrite (map_ext _ _ Hsub).
    destruct (decide (n = c)) as [->|Hnc].
    + rewrite (decide_True (P := c ∈ c :: cs)) by left. rewrite map_map, (map_ext _ _ Hidem). by case_decide.
    + destruct (decide (n ∈ cs)).
      * by rewrite decide_True by by right.
      * rewrite decide_False; [done|]. by rewrite elem_of_cons; intros [|].
  - intros v Hvo Hvw. rewrite Hu by done. by apply Hu1.
  - intros m. rewrite Hm, Hm1 by done. rewrite elem_of_cons. setoid_rewrite Hi1. setoid_rewrite (rw_id R1).
    split.
    + intros [[?|[-> ?]]|[Hmc (v & Hv & Hid)]]; [by left|right; eauto|].
      case_decide as Hmc'; [|right; eauto]. subst m.
      apply list_elem_of_fmap in Hv as (u & -> & Hu'). right. split; [by left|].
      unfold subst_value in Hid. case_decide; eauto.
    + intros [?|[[->|Hmc] (v & Hv & Hid)]]; [by left; left|left; right; eauto|].
      destruct (decide (m = c)) as [->|Hmc']; [left; right; eauto|]. right. split; [done|].
      by exists v.
Qed.

End Redirect.

End Wf.
End Wf.
