(* ===== verification/JitEdit.v ===== *)
(** * The graph edits keep the invariant

    [replace_value] renames what the nodes of its graph read, [remove_node]
    drops equations, and destroying the removed nodes changes nothing a run
    sees; each leaves every other graph alone. *)

From stdpp Require Import base list numbers strings gmap.
From S2P Require Import Prelude DType JitOps JitGraph JitFlow JitExec JitMeaning JitWf.

Module Edit.
Import Jit Flow Exec Meaning Wf.

Section Edit.
Context {T : Type}.

Lemma alive_Some (st : Heap T) n : alive st n = true <-> is_Some (heap_nodes st !! n).
Proof. unfold alive. apply bool_decide_eq_true. Qed.

Lemma elem_of_live_uses (st : Heap T) v n :
  n ∈ live_uses st v <-> alive st n = true /\ n ∈ uses (value st v).
Proof. unfold live_uses. by rewrite list_elem_of_filter. Qed.

Section Known.
Context {pending : list Z} {st : Heap T} (W : wf pending st).

Lemma known_Some g v : known st g v -> is_Some (heap_values st !! v).
Proof. intros H. by destruct (w_val _ _ W _ _ _ H). Qed.

Lemma known_inj g u v : known st g u -> known st g v -> id (value st u) = id (value st v) -> u = v.
Proof. unfold known. intros Hu Hv E. rewrite E, Hv in Hu. by injection Hu. Qed.

Lemma known_graph g v : known st g v -> is_Some (heap_graphs st !! g).
Proof.
  intros H. unfold known, graph in H. destruct (heap_graphs st !! g); [by eexists|]. cbn in H. by rewrite lookup_empty in H.
Qed.

Lemma known_own g h v : known st g v -> known st h v -> g = h.
Proof. intros Hg Hh. by eapply w_vown. Qed.
End Known.

(** ** [replace_value] *)

Section Replace.
Context (pending : list Z) (st : Heap T) (g o w : Z).
Context (W : wf pending st) (Ho : known st g o) (Hw : known st g w).
Context (Hne : id (value st o) <> id (value st w)).
Context (Hlive : forall p, node_of st w = Some p -> p ∈ nodes (graph st g)).

Let st' := replace_value g (id (value st o)) (id (value st w)) st.

Definition swap (v : Z) : Z := if decide (v = o) then w else v.
Definition swap_id (i : string) : string :=
  if decide (i = id (value st o)) then id (value st w) else i.

Lemma swap_known h v : known st h v -> subst_value (id (value st o)) w st v = swap v \/ h <> g.
Proof.
  intros Hv. destruct (decide (h = g)) as [->|]; [left|by right]. unfold subst_value, swap.
  repeat case_decide; try done; subst; [|done]. exfalso. by eapply H0, known_inj.
Qed.

Lemma swap_other h v : h <> g -> known st h v -> swap v = v.
Proof.
  intros Hh Hv. unfold swap. case_decide; [|done]. subst. exfalso. by eapply Hh, known_own.
Qed.

Lemma replace_value_effect :
  exists st1, rewired st st1 /\
    st' = upd_graph g (fun x => set_outputs (map swap (graph_outputs (graph st g))) x) st1 /\
    (forall h n, n ∈ nodes (graph st h) -> inputs (node st1 n) = map swap (inputs (node st n))) /\
    (forall v, v <> o -> v <> w -> uses (value st1 v) = uses (value st v)) /\
    uses (value st1 o) = [] /\
    (forall m, m ∈ uses (value st1 w) <-> m ∈ uses (value st w) \/ m ∈ live_uses st o /\ o ∈ inputs (node st m)).
Proof.
  unfold st', replace_value, get_value. unfold known in Ho, Hw. rewrite Ho, Hw. fold (known st g o) in Ho.
  fold (known st g w) in Hw. assert (w <> o) as Hwo by by intros ->.
  set (cs := live_uses st o).
  assert (forall c, c ∈ cs -> c ∈ nodes (graph st g)) as Hcs
    by exact (fun c Hc => proj1 (w_use _ _ W g o c Ho Hc)).
  destruct (redirect_all (id (value st o)) o w cs st) as (R & Hi & Hu & Hm).
  { by eapply known_Some. }
  { done. }
  { done. }
  { intros c v Hc Hv E. eapply known_inj; [|done|done].
    eapply w_in; [done|by apply Hcs|done]. }
  set (st1 := foldl (redirect_consumer (id (value st o)) w) st cs) in *.
  exists (clear_uses o st1). assert (rewired st1 (clear_uses o st1)) as R2 by by apply rewired_uses.
  split_and!.
  - by eapply rewired_trans.
  - unfold upd_graph. f_equal. apply alter_ext. intros x Hx. f_equal.
    assert (x = graph st g) as ->. { unfold graph. rewrite <-(rw_graphs _ _ R), <-(rw_graphs _ _ R2). by rewrite Hx. }
    unfold redirect_outputs. apply map_ext_in. intros v Hv. rewrite (rw_id R2), (rw_id R).
    apply list_elem_of_In, (w_gout _ _ W) in Hv as [Hv _].
    destruct (swap_known g v Hv) as [<-|]; [|done]. done.
  - intros h n Hn. change (node (clear_uses o st1) n) with (node st1 n). rewrite Hi.
    destruct (decide (n ∈ cs)) as [Hc|Hc].
    + apply map_ext_in. intros v Hv. apply list_elem_of_In in Hv.
      assert (h = g) as -> by (eapply w_own; [done|done|by apply Hcs]).
      destruct (swap_known g v) as [|]; [by eapply w_in|done|done].
    + rewrite <-(map_id (inputs (node st n))) at 1. apply map_ext_in. intros v Hv. apply list_elem_of_In in Hv.
      unfold swap. case_decide; [|done]. subst v. exfalso. apply Hc, elem_of_live_uses.
      destruct (w_in _ _ W _ _ _ Hn Hv) as [Hk Huse]. split; [by eapply w_alive|done].
  - intros v Hvo Hvw. unfold clear_uses. rewrite value_upd_ne by done. by apply Hu.
  - unfold clear_uses. rewrite value_upd_eq; [done|]. apply (rw_values _ _ R). by eapply known_Some.
  - intros m. unfold clear_uses. rewrite value_upd_ne, Hm by done. split.
    + intros [?|[Hmc (v & Hv & E)]]; [by left|right]. split; [done|].
      assert (v = o) as <-; [|done]. eapply known_inj; [|done|done].
      eapply w_in; [done|by apply Hcs|done].
    + intros [?|[Hmc ?]]; [by left|right; eauto].
Qed.

Lemma swap_in_graph h n v : n ∈ nodes (graph st h) -> v ∈ inputs (node st n) ->
  known st h (swap v) /\ (swap v = v \/ v = o /\ swap v = w /\ h = g).
Proof.
  intros Hn Hv. destruct (w_in _ _ W _ _ _ Hn Hv) as [Hk _]. unfold swap. case_decide as E; [|by split; [|left]].
  subst v. assert (h = g) as -> by by eapply known_own. split; [done|by right].
Qed.

Lemma replace_value_graph h : graph st' h = if decide (h = g)
  then set_outputs (map swap (graph_outputs (graph st g))) (graph st g) else graph st h.
Proof.
  destruct replace_value_effect as (st1 & R & -> & _). case_decide as E.
  - subst h. rewrite graph_upd_eq, (rw_graph R); [done|]. rewrite (rw_graphs _ _ R). by eapply known_graph.
  - by rewrite graph_upd_ne, (rw_graph R).
Qed.

Lemma replace_value_rewired : exists st1, rewired st st1 /\ heap_values st' = heap_values st1 /\
  heap_nodes st' = heap_nodes st1 /\
  (forall h n, n ∈ nodes (graph st h) -> inputs (node st1 n) = map swap (inputs (node st n))) /\
  (forall v, v <> o -> v <> w -> uses (value st1 v) = uses (value st v)) /\ uses (value st1 o) = [] /\
  (forall m, m ∈ uses (value st1 w) <-> m ∈ uses (value st w) \/ m ∈ live_uses st o /\ o ∈ inputs (node st m)).
Proof. destruct replace_value_effect as (st1 & R & E & H). exists st1. by rewrite E. Qed.

Lemma replace_value_wf : wf pending st'.
Proof.
  destruct replace_value_rewired as (st1 & R & Ev & En & Hi & Hu & Huo & Huw).
  assert (w <> o) as Hwo by by intros ->.
  assert (forall h, nodes (graph st' h) = nodes (graph st h)) as Hn.
  { intros h. rewrite replace_value_graph. by case_decide; subst. }
  assert (forall h, values (graph st' h) = values (graph st h)) as Hv.
  { intros h. rewrite replace_value_graph. by case_decide; subst. }
  assert (forall v, value st' v = value st1 v) as Hval by (intros; unfold value; by rewrite Ev).
  assert (forall n, node st' n = node st1 n) as Hnode by (intros; unfold node; by rewrite En).
  assert (forall n, alive st' n = alive st n) as Hal.
  { intros n. rewrite <-(rw_alive R). unfold alive. by rewrite En. }
  assert (forall v, id (value st' v) = id (value st v)) as Hid by (intros; by rewrite Hval, (rw_id R)).
  assert (forall v, node_of st' v = node_of st v) as Hof.
  { intros v. rewrite <-(rw_node_of R). unfold node_of. rewrite Hval. destruct (producer _); [|done].
    by rewrite Hal, (rw_alive R). }
  assert (forall h v, known st' h v <-> known st h v) as Hk.
  { intros h v. unfold known. by rewrite Hv, Hid. }
  assert (forall h, value_ids st' h = value_ids st h) as Hids by (intros; by apply map_ext).
  assert (forall h i, leaf_id st' h i <-> leaf_id st h i) as Hleaf.
  { intros h i. unfold leaf_id, in_ids. rewrite Hids, replace_value_graph. by case_decide; subst. }
  split.
  - intros h. rewrite Hn. by eapply w_nodup.
  - intros h n. rewrite Hn, Hal. by eapply w_alive.
  - intros h h' n. rewrite !Hn. by eapply w_own.
  - intros h n. rewrite Hn. by eapply w_pending.
  - intros h i v. rewrite Hv, Hid, Ev. intros H. destruct (w_val _ _ W _ _ _ H) as [H1 H2].
    split; [by apply (rw_values _ _ R)|done].
  - intros h h' i j v. rewrite !Hv. by eapply w_vown.
  - intros h n v. rewrite Hn, Hnode, Hk, Hval. intros Hin Hv'. rewrite (Hi h) in Hv' by done.
    apply list_elem_of_fmap in Hv' as (u & -> & Hu'). destruct (swap_in_graph h n u Hin Hu') as [H1 H2].
    split; [done|]. destruct (w_in _ _ W _ _ _ Hin Hu') as [_ Huse]. destruct H2 as [E|(-> & E & ->)]; rewrite E.
    + destruct (decide (u = w)) as [->|]; [apply Huw; by left|]. rewrite Hu; [done| |done].
      intros ->. unfold swap in E. by rewrite decide_True in E.
    + apply Huw. right. split; [|done]. apply elem_of_live_uses. split; [by eapply w_alive|done].
  - intros h n v p. rewrite Hn, Hnode, Hof. intros Hin Hv' Hp. rewrite (Hi h) in Hv' by done.
    apply list_elem_of_fmap in Hv' as (u & -> & Hu'). destruct (swap_in_graph h n u Hin Hu') as [_ [E|(-> & E & ->)]].
    + rewrite E in Hp. by eapply w_in_live.
    + rewrite E in Hp. by apply Hlive.
  - intros h n v. rewrite Hn, Hnode, Hk, Hid, Hleaf, Hval, (rw_outputs R), (rw_producer R). by eapply w_out.
  - intros h n. rewrite Hn, Hnode, (rw_outputs R). by eapply w_out_nodup.
  - intros h v. rewrite Hk, replace_value_graph. intros H. eapply w_gin; [done|]. by case_decide; subst.
  - intros h v. rewrite Hn, Hk, replace_value_graph, Hof. case_decide as E; [subst h|by apply (w_gout _ _ W)].
    cbn. intros H. apply list_elem_of_fmap in H as (u & -> & Hu'). unfold swap. case_decide; [done|].
    by eapply w_gout.
  - intros h v p. rewrite Hn, Hnode, Hk, Hof, (rw_outputs R). by eapply w_prod.
  - intros h v n. rewrite Hn, Hk, elem_of_live_uses, Hal, Hval, Hnode. intros Hkn [Hna Hin].
    destruct (decide (v = o)) as [->|Hvo]; [rewrite Huo in Hin; inversion Hin|].
    assert (n ∈ live_uses st v \/ v = w /\ n ∈ live_uses st o /\ o ∈ inputs (node st n)) as [H|(-> & H & Hio)].
    { rewrite elem_of_live_uses. destruct (decide (v = w)) as [->|Hvw]; [|rewrite Hu in Hin by done; by left].
      apply Huw in Hin as [?|?]; [by left|by right]. }
    + destruct (w_use _ _ W _ _ _ Hkn H) as [H1 H2]. split; [done|]. rewrite (Hi h) by done.
      apply list_elem_of_fmap. exists v. split; [|done]. unfold swap. by case_decide.
    + assert (h = g) as -> by by eapply known_own. destruct (w_use _ _ W _ _ _ Ho H) as [H1 _].
      split; [done|]. rewrite (Hi g) by done. apply list_elem_of_fmap. exists o. split; [|done].
      unfold swap. by rewrite decide_True.
Qed.

Lemma value_ids_swap vs : (forall v, v ∈ vs -> known st g v) ->
  value_ids st (map swap vs) = map swap_id (value_ids st vs).
Proof.
  intros H. unfold value_ids. rewrite !map_map. apply map_ext_in. intros v Hv.
  apply list_elem_of_In, H in Hv. unfold swap, swap_id. case_decide as E; [subst v; by rewrite decide_True|].
  rewrite decide_False; [done|]. intros E'. by eapply E, known_inj.
Qed.

(** The graph reads [w] where it read [o]; the others are as they were. *)
Lemma replace_value_program :
  program st' g = map (rename swap_id) (program st g) /\
  in_ids st' g = in_ids st g /\ out_ids st' g = map swap_id (out_ids st g) /\
  same_leaves (graph st g) (graph st' g) /\ (forall h, h <> g -> same_graph st st' h).
Proof.
  destruct replace_value_rewired as (st1 & R & Ev & En & Hi & _).
  assert (forall vs, value_ids st' vs = value_ids st vs) as Hids.
  { intros vs. rewrite <-(rw_value_ids R). unfold value_ids, value. by rewrite Ev. }
  assert (forall h, nodes (graph st' h) = nodes (graph st h)) as Hn.
  { intros h. rewrite replace_value_graph. by case_decide; subst. }
  assert (forall n f, inputs (node st1 n) = map f (inputs (node st n)) -> node_eqn st' n =
    mkEqn (e_op (node_eqn st n)) (value_ids st (map f (inputs (node st n)))) (e_outs (node_eqn st n))) as Hq.
  { intros n f Hf. rewrite <-(rw_node_eqn R n f Hf). unfold node_eqn, node, value. by rewrite En, Ev. }
  split_and!.
  - unfold program. rewrite Hn, map_map. apply map_ext_in. intros n Hin. apply list_elem_of_In in Hin.
    rewrite (Hq n swap) by by eapply Hi. unfold rename. f_equal. apply value_ids_swap.
    intros v Hv. by eapply w_in.
  - unfold in_ids. rewrite Hids, replace_value_graph. by rewrite decide_True.
  - unfold out_ids. rewrite Hids, replace_value_graph, decide_True by done. cbn. apply value_ids_swap.
    intros v Hv. by eapply w_gout.
  - rewrite replace_value_graph, decide_True by done. by repeat split.
  - intros h Hh. assert (graph st' h = graph st h) as Hg by by rewrite replace_value_graph, decide_False.
    unfold same_graph, program, in_ids, out_ids. rewrite Hg, !Hids. split_and!; [|done|done|by repeat split].
    apply map_ext_in. intros n Hin. apply list_elem_of_In in Hin.
    rewrite (Hq n swap) by by eapply Hi. destruct (node_eqn st n) as [k ins outs] eqn:E. cbn. f_equal.
    injection E as _ <- _. f_equal. rewrite <-map_id. apply map_ext_in. intros v Hv. apply list_elem_of_In in Hv.
    eapply swap_other; [done|]. by eapply w_in.
Qed.

End Replace.
(** ** Removing nodes *)

Definition remove_nodes (g : Z) (ds : list Z) (st : Heap T) : Heap T :=
  foldl (fun st n => remove_node g n st) st ds.

Lemma uses_remove_use v n (st : Heap T) u m :
  (m ∈ uses (value (remove_use v n st) u) -> m ∈ uses (value st u)) /\
  (alive st m = true -> m ∈ uses (value st u) -> ~ (m = n /\ u = v) -> m ∈ uses (value (remove_use v n st) u)) /\
  (u = v -> n ∉ uses (value (remove_use v n st) u)).
Proof.
  unfold remove_use. destruct (decide (u = v)) as [->|Hne].
  2:{ rewrite value_upd_ne by done. done. }
  destruct (heap_values st !! v) as [x|] eqn:E.
  - rewrite value_upd_eq by by eexists. cbn. rewrite !list_elem_of_filter. split_and!; [naive_solver|naive_solver|].
    intros _ [[_ H] _]. done.
  - unfold value. cbn. rewrite lookup_alter_eq, E. cbn. split_and!; [done|done|]. intros _ H. inversion H.
Qed.

Lemma remove_uses_effect n vs (st : Heap T) :
  let st' := remove_uses n vs st in
  rewired st st' /\ heap_nodes st' = heap_nodes st /\
  (forall u m, m ∈ uses (value st' u) -> m ∈ uses (value st u)) /\
  (forall u m, alive st m = true -> m ∈ uses (value st u) -> ~ (m = n /\ u ∈ vs) -> m ∈ uses (value st' u)) /\
  (forall u, u ∈ vs -> n ∉ uses (value st' u)).
Proof.
  unfold remove_uses. revert st. induction vs as [|v vs IH]; intros st; cbn [foldl].
  { split_and!; [apply rewired_refl|done|done|done|]. intros u Hu. inversion Hu. }
  destruct (IH (remove_use v n st)) as (R & En & H1 & H2 & H3).
  assert (rewired st (remove_use v n st)) as R1 by by apply rewired_uses.
  split_and!.
  - by eapply rewired_trans.
  - by rewrite En.
  - intros u m Hm. by eapply uses_remove_use, H1.
  - intros u m Ha Hm Hn. apply H2; [by rewrite (rw_alive R1)| |].
    + apply uses_remove_use; [done|done|]. intros [-> ->]. apply Hn. split; [done|left].
    + intros [-> Hu]. apply Hn. split; [done|by right].
  - intros u Hu. apply elem_of_cons in Hu as [->|Hu]; [|by apply H3]. intros Hm.
    apply H1 in Hm. revert Hm. by apply uses_remove_use.
Qed.

Lemma remove_nodes_effect g ds (st : Heap T) :
  is_Some (heap_graphs st !! g) ->
  let st' := remove_nodes g ds st in
  heap_nodes st' = heap_nodes st /\
  (forall h, graph st' h = if decide (h = g) then with_nodes (foldl (fun l n => erase n l) (nodes (graph st g)) ds) (graph st g)
                           else graph st h) /\
  (forall v, is_Some (heap_values st' !! v) <-> is_Some (heap_values st !! v)) /\
  (forall v, with_uses [] (value st' v) = with_uses [] (value st v)) /\
  (forall u m, m ∈ uses (value st' u) -> m ∈ uses (value st u)) /\
  (forall u m, alive st m = true -> m ∈ uses (value st u) -> ~ (m ∈ ds /\ u ∈ inputs (node st m)) ->
     m ∈ uses (value st' u)) /\
  (forall u m, m ∈ ds -> u ∈ inputs (node st m) -> m ∉ uses (value st' u)).
Proof.
  unfold remove_nodes. revert st. induction ds as [|d ds IH]; intros st Hg; cbn [foldl].
  { split_and!; try done.
    - intros h. case_decide; [subst|done]. by destruct (graph st g).
    - intros u m Hm. inversion Hm. }
  set (st1 := upd_graph g (fun x => with_nodes (erase d (nodes x)) x) st).
  destruct (remove_uses_effect d (inputs (node st1 d)) st1) as (R & En & H1 & H2 & H3).
  change (remove_uses d (inputs (node st1 d)) st1) with (remove_node g d st) in *.
  destruct (IH (remove_node g d st)) as (En' & Hgr & Hdv & Hv & H1' & H2' & H3').
  { rewrite (rw_graphs _ _ R). by apply is_Some_alter. }
  assert (forall n, node (remove_node g d st) n = node st n) as Hnode.
  { intros n. unfold node. by rewrite En. }
  assert (forall m, alive (remove_node g d st) m = alive st m) as Hal by (intros m; unfold alive; by rewrite En).
  split_and!.
  - by rewrite En', En.
  - intros h. rewrite Hgr, !(rw_graph R). case_decide as E.
    + unfold st1. rewrite graph_upd_eq by done. by destruct (graph st g).
    + unfold st1. by rewrite graph_upd_ne.
  - intros v. by rewrite Hdv, (rw_values _ _ R).
  - intros v. by rewrite Hv, (rw_value _ _ R).
  - intros u m Hm. by apply H1, H1'.
  - intros u m Ha Hm Hn. apply H2'; [by rewrite Hal| |].
    + apply H2; [done|done|]. intros [-> Hu]. apply Hn. split; [left|done].
    + rewrite Hnode. intros [? ?]. apply Hn. split; [by right|done].
  - intros u m Hm Hu. apply elem_of_cons in Hm as [->|Hm]; [|apply H3'; [done|by rewrite Hnode]].
    intros Hin. apply H1' in Hin. by apply H3 in Hin.
Qed.

Lemma erase_filter n l : NoDup l -> erase n l = filter (fun m => m <> n) l.
Proof.
  induction 1 as [|m l Hm Hl IH]; [done|]. cbn [erase]. rewrite filter_cons.
  destruct (decide (m = n)) as [->|Hne].
  - rewrite decide_False by tauto. symmetry. apply filter_same. intros x Hx ->. done.
  - rewrite decide_True by done. by rewrite IH.
Qed.

Lemma erase_all ds l : NoDup l -> foldl (fun l n => erase n l) l ds = filter (fun m => m ∉ ds) l.
Proof.
  revert l. induction ds as [|d ds IH]; intros l Hl; cbn [foldl].
  - symmetry. apply filter_same. intros x _ Hx. inversion Hx.
  - rewrite erase_filter, IH, list_filter_filter by (done || by apply NoDup_filter).
    apply list_filter_iff. intros x. rewrite not_elem_of_cons. tauto.
Qed.

Section Remove.
Context (pending : list Z) (st : Heap T) (g : Z) (ds : list Z).
Context (W : wf pending st) (Hds : forall d, d ∈ ds -> d ∈ nodes (graph st g)).
Context (Hread : forall n v d, n ∈ nodes (graph st g) -> n ∉ ds -> v ∈ inputs (node st n) -> d ∈ ds ->
  v ∉ outputs (node st d)).
Context (Hout : forall v d, v ∈ graph_outputs (graph st g) -> d ∈ ds -> v ∉ outputs (node st d)).

Let st' := remove_nodes g ds st.

Lemma remove_graph_alive : ds = [] \/ is_Some (heap_graphs st !! g).
Proof.
  clear Hread Hout st'. destruct ds as [|d l]; [by left|right].
  assert (d ∈ nodes (graph st g)) as Hd by (apply Hds; left).
  unfold graph in Hd. destruct (heap_graphs st !! g); [by eexists|]. inversion Hd.
Qed.

Lemma remove_nodes_graph h : graph st' h = if decide (h = g)
  then with_nodes (filter (fun n => n ∉ ds) (nodes (graph st g))) (graph st g) else graph st h.
Proof.
  destruct remove_graph_alive as [Eds|Hg].
  { unfold st', remove_nodes. rewrite Eds. cbn. case_decide; [|done]. subst h.
    rewrite filter_same; [by destruct (graph st g)|]. intros x _ Hx. inversion Hx. }
  destruct (remove_nodes_effect g ds st Hg) as (_ & H & _). unfold st'. rewrite H.
  by rewrite erase_all by by eapply w_nodup.
Qed.

Lemma remove_nodes_rewired : heap_nodes st' = heap_nodes st /\
  (forall v, is_Some (heap_values st' !! v) <-> is_Some (heap_values st !! v)) /\
  (forall v, with_uses [] (value st' v) = with_uses [] (value st v)) /\
  (forall u m, m ∈ uses (value st' u) -> m ∈ uses (value st u)) /\
  (forall u m, alive st m = true -> m ∈ uses (value st u) -> m ∉ ds -> m ∈ uses (value st' u)) /\
  (forall u m, m ∈ ds -> u ∈ inputs (node st m) -> m ∉ uses (value st' u)).
Proof.
  destruct remove_graph_alive as [Eds|Hg].
  { unfold st'. rewrite Eds. split_and!; try done. intros u m Hm. inversion Hm. }
  destruct (remove_nodes_effect g ds st Hg) as (H1 & _ & H2 & H3 & H4 & H5 & H6).
  split_and!; try done. intros u m Ha Hu Hm. by apply H5; [..|intros []].
Qed.

Lemma remove_nodes_nodes h n : n ∈ nodes (graph st' h) <-> n ∈ nodes (graph st h) /\ n ∉ ds.
Proof.
  rewrite remove_nodes_graph. case_decide as E; cbn.
  - subst h. rewrite list_elem_of_filter. tauto.
  - split; [|tauto]. intros Hn. split; [done|]. intros Hd. by eapply E, w_own, Hds.
Qed.

Lemma remove_nodes_wf : wf (ds ++ pending) st'.
Proof.
  destruct remove_nodes_rewired as (En & Hdv & Hw & H1 & H2 & H3).
  pose proof remove_nodes_nodes as Hn.
  assert (forall h, values (graph st' h) = values (graph st h) /\ graph_inputs (graph st' h) = graph_inputs (graph st h)
    /\ graph_outputs (graph st' h) = graph_outputs (graph st h) /\ same_leaves (graph st h) (graph st' h)) as Hgr.
  { intros h. rewrite remove_nodes_graph. case_decide; subst; by repeat split. }
  assert (forall n, node st' n = node st n) as Hnode by (intros; unfold node; by rewrite En).
  assert (forall n, alive st' n = alive st n) as Hal by (intros; unfold alive; by rewrite En).
  assert (forall v, id (value st' v) = id (value st v)) as Hid by (intros v; exact (f_equal id (Hw v))).
  assert (forall v, producer (value st' v) = producer (value st v)) as Hpr
    by (intros v; exact (f_equal producer (Hw v))).
  assert (forall v, node_of st' v = node_of st v) as Hof.
  { intros v. unfold node_of. rewrite Hpr. destruct (producer _); [by rewrite Hal|done]. }
  assert (forall h v, known st' h v <-> known st h v) as Hk.
  { intros h v. unfold known. rewrite Hid. by destruct (Hgr h) as [-> _]. }
  assert (forall h i, leaf_id st' h i <-> leaf_id st h i) as Hleaf.
  { intros h i. destruct (Hgr h) as (_ & Hi & _ & Hl). apply leaf_id_same; [|done].
    unfold in_ids. rewrite Hi. by apply map_ext. }
  assert (forall h v p, known st h v -> node_of st v = Some p -> p ∈ nodes (graph st h) ->
    (forall d, d ∈ ds -> h = g -> v ∉ outputs (node st d)) -> p ∉ ds) as Hkeep.
  { intros h v p Hkn Hp Hin Hd Hpd. destruct (w_prod _ _ W _ _ _ Hkn Hp) as [Ho _].
    apply (Hd p); [done| |done]. eapply w_own; [done|done|by apply Hds]. }
  split.
  - intros h. rewrite remove_nodes_graph. case_decide; [apply NoDup_filter|]; by eapply w_nodup.
  - intros h n [Hin _]%Hn. rewrite Hal. by eapply w_alive.
  - intros h h' n [Hin _]%Hn [Hin' _]%Hn. by eapply w_own.
  - intros h n [Hin Hnd]%Hn. rewrite not_elem_of_app. split; [done|by eapply w_pending].
  - intros h i v. destruct (Hgr h) as [-> _]. rewrite Hid, Hdv. by eapply w_val.
  - intros h h' i j v. destruct (Hgr h) as [-> _], (Hgr h') as [-> _]. by eapply w_vown.
  - intros h n v [Hin Hnd]%Hn. rewrite Hnode, Hk. intros Hv. destruct (w_in _ _ W _ _ _ Hin Hv).
    split; [done|]. apply H2; [by eapply w_alive|done|done].
  - intros h n v p [Hin Hnd]%Hn. rewrite Hnode, Hof. intros Hv Hp. apply Hn.
    assert (p ∈ nodes (graph st h)) as Hpn by by eapply w_in_live. split; [done|].
    eapply Hkeep; [exact (proj1 (w_in _ _ W _ _ _ Hin Hv))|done|done|]. intros d Hd ->.
    exact (Hread _ _ _ Hin Hnd Hv Hd).
  - intros h n v [Hin Hnd]%Hn. rewrite Hnode, Hk, Hpr, Hid, Hleaf. by eapply w_out.
  - intros h n [Hin Hnd]%Hn. rewrite Hnode. by eapply w_out_nodup.
  - intros h v. destruct (Hgr h) as (_ & -> & _). rewrite Hk. by eapply w_gin.
  - intros h v. destruct (Hgr h) as (_ & _ & -> & _). rewrite Hk, Hof. intros Hv.
    destruct (w_gout _ _ W _ _ Hv) as [Hkn Hp]. split; [done|]. intros p Hpv. apply Hn.
    split; [by apply Hp|]. eapply Hkeep; [done|done|by apply Hp|]. intros d Hd ->.
    by apply Hout.
  - intros h v p. rewrite Hk, Hof, Hnode, Hn, elem_of_app. intros Hkn Hp.
    destruct (w_prod _ _ W _ _ _ Hkn Hp) as [? [?|?]]; [|tauto]. destruct (decide (p ∈ ds)); tauto.
  - intros h v n. rewrite Hk, elem_of_live_uses, Hal, Hnode, Hn. intros Hkn [Ha Hu].
    destruct (w_use _ _ W h v n) as [Hin Hv]; [done|by apply elem_of_live_uses; split; [|apply H1]|].
    split_and!; [done| |done]. intros Hd. by eapply H3.
Qed.

Lemma remove_nodes_program :
  program st' g = map (node_eqn st) (filter (fun n => n ∉ ds) (nodes (graph st g))) /\
  in_ids st' g = in_ids st g /\ out_ids st' g = out_ids st g /\
  same_leaves (graph st g) (graph st' g) /\ (forall h, h <> g -> same_graph st st' h).
Proof.
  destruct remove_nodes_rewired as (En & _ & Hw & _).
  assert (forall vs, value_ids st' vs = value_ids st vs) as Hids.
  { intros vs. apply map_ext. intros v. exact (f_equal id (Hw v)). }
  assert (forall n, node_eqn st' n = node_eqn st n) as Hq.
  { intros n. unfold node_eqn. assert (node st' n = node st n) as -> by (unfold node; by rewrite En).
    f_equal; apply Hids. }
  unfold program, in_ids, out_ids. rewrite remove_nodes_graph, decide_True by done.
  cbn [with_nodes nodes graph_inputs graph_outputs]. rewrite !Hids.
  split_and!; [by apply map_ext|done|done|by repeat split|].
  intros h Hh. unfold same_graph, program, in_ids, out_ids. rewrite remove_nodes_graph, decide_False by done.
  rewrite !Hids. split_and!; [by apply map_ext|done|done|by repeat split].
Qed.

End Remove.

(** ** Destroying the removed nodes *)

Lemma destroy_lookup ds (st : Heap T) n :
  heap_nodes (destroy_nodes ds st) !! n = if decide (n ∈ ds) then None else heap_nodes st !! n.
Proof.
  unfold destroy_nodes. cbn. induction ds as [|d ds IH]; cbn [foldr]; [by rewrite decide_False by (intros H; inversion H)|].
  destruct (decide (n = d)) as [->|Hne].
  - rewrite lookup_delete_eq, decide_True by left. done.
  - rewrite lookup_delete_ne, IH by done. apply decide_ext. rewrite elem_of_cons. tauto.
Qed.

Lemma destroy_wf ds rest (st : Heap T) : wf (ds ++ rest) st -> wf rest (destroy_nodes ds st).
Proof.
  intros W. set (st' := destroy_nodes ds st).
  assert (forall n, n ∉ ds -> node st' n = node st n) as Hnode.
  { intros n Hn. unfold node, st'. by rewrite destroy_lookup, decide_False. }
  assert (forall h n, n ∈ nodes (graph st h) -> n ∉ ds /\ n ∉ rest) as Hin.
  { intros h n Hn. apply not_elem_of_app. by eapply w_pending. }
  assert (forall n, alive st' n = bool_decide (n ∉ ds) && alive st n) as Hal.
  { intros n. unfold alive, st'. rewrite destroy_lookup. case_decide.
    - rewrite (bool_decide_eq_false_2 (n ∉ ds)) by tauto. apply bool_decide_eq_false_2. by intros [? ?].
    - by rewrite (bool_decide_eq_true_2 (n ∉ ds)). }
  assert (forall v p, node_of st' v = Some p -> node_of st v = Some p /\ p ∉ ds) as Hof.
  { intros v p. unfold node_of. change (value st' v) with (value st v). destruct (producer _) as [q|]; [|done].
    rewrite Hal. case_bool_decide; cbn; [|done]. destruct (alive st q); [|done]. by intros [= <-]. }
  assert (forall v n, n ∈ live_uses st' v -> n ∈ live_uses st v) as Hlu.
  { intros v n. rewrite !elem_of_live_uses, Hal. intros [[? ?]%andb_true_iff ?]. done. }
  split; change (graph st') with (graph st); change (value st') with (value st).
  - eapply w_nodup; done.
  - intros h n Hn. rewrite Hal, bool_decide_eq_true_2 by by eapply Hin. by eapply w_alive.
  - eapply w_own; done.
  - intros h n Hn. by eapply Hin.
  - intros h i v H. by eapply w_val in H.
  - intros h h' i j v. by eapply w_vown.
  - intros h n v Hn. rewrite Hnode by by eapply Hin. intros Hv. by eapply w_in in Hv.
  - intros h n v p Hn. rewrite Hnode by by eapply Hin. intros Hv [Hp _]%Hof. by eapply w_in_live.
  - intros h n v Hn. rewrite Hnode by by eapply Hin. intros Hv. by eapply w_out in Hv.
  - intros h n Hn. rewrite Hnode by by eapply Hin. by eapply w_out_nodup.
  - intros h v Hv. by eapply w_gin in Hv.
  - intros h v Hv. destruct (w_gout _ _ W _ _ Hv) as [Hk Hp]. split; [done|]. intros p [Hpv _]%Hof. by apply Hp.
  - intros h v p Hk [Hp Hpd]%Hof. rewrite Hnode by done. destruct (w_prod _ _ W h v p Hk Hp) as [Ho Hr].
    split; [done|]. rewrite elem_of_app in Hr. tauto.
  - intros h v n Hk Hu%Hlu. destruct (w_use _ _ W h v n Hk Hu) as [H1 H2]. rewrite Hnode by by eapply Hin. done.
Qed.

Lemma destroy_same ds rest (st : Heap T) g : wf (ds ++ rest) st -> same_graph st (destroy_nodes ds st) g.
Proof.
  intros W. split_and!; [|done|done|by repeat split]. unfold program. apply map_ext_in.
  intros n Hn. apply list_elem_of_In in Hn. unfold node_eqn, node. rewrite destroy_lookup, decide_False; [done|].
  intros Hd. eapply w_pending; [done..|]. apply elem_of_app. by left.
Qed.

End Edit.
End Edit.
