(* ===== verification/JitSort.v ===== *)
(** * The topological sort of a JIT graph

    [Graph::topological_sort] of src/jit/graph.cpp, Kahn's algorithm over the
    producers of each node's inputs.  On a well-formed graph it ends, and either
    the nodes come out in an order in which every value is produced before it is
    read, or the graph has a cycle and it throws. *)

From stdpp Require Import base list numbers strings gmap.
From S2P Require Import Prelude DType JitOps JitGraph JitFlow JitExec JitMeaning JitWf JitEdit.

Module GraphSort.
Import Jit Flow Exec Meaning Wf Edit.

(** How often [x] occurs in [l]. *)
Definition occ (x : Z) (l : list Z) : Z := lenZ (filter (fun y => y = x) l).

Lemma occ_nonneg x l : 0 <= occ x l.
Proof. apply lenZ_nonneg. Qed.

Lemma occ_nil x : occ x [] = 0.
Proof. done. Qed.

Lemma occ_cons x y l : occ x (y :: l) = (if decide (y = x) then 1 else 0) + occ x l.
Proof. unfold occ. rewrite filter_cons. case_decide; [by rewrite lenZ_cons|done]. Qed.

Lemma occ_app x l k : occ x (l ++ k) = occ x l + occ x k.
Proof. unfold occ. by rewrite filter_app, lenZ_app. Qed.

Lemma occ_pos x l : x ∈ l <-> 0 < occ x l.
Proof.
  induction l as [|y l IH]; [split; [intros H; inversion H|done]|].
  rewrite elem_of_cons, occ_cons. pose proof (occ_nonneg x l). case_decide; subst; [split; [lia|by left]|].
  rewrite IH. split; [intros [->|?]; [done|lia]|intros ?; right; lia].
Qed.

Section Successors.
(** The in-degree counter, zero where it has no entry. *)
Definition degree (s : Kahn) (m : Z) : Z := default 0 (in_degree s !! m).

(** The loop over a node's successors lowers their counters and queues those
    that reach zero, each once. *)
Lemma kahn_successors l s :
  (forall m, m ∈ l -> occ m l <= degree s m) ->
  let s' := foldl kahn_successor s l in
  sorted s' = sorted s /\ (forall m, degree s' m = degree s m - occ m l) /\
  exists new, queue s' = queue s ++ new /\ NoDup new /\
    (forall m, m ∈ new <-> m ∈ l /\ degree s m = occ m l).
Proof.
  revert s. induction l as [|x l IH]; intros s Hd; cbn [foldl].
  { split_and!; [done|intros m; rewrite occ_nil; lia|]. exists []. rewrite app_nil_r.
    split_and!; [done|constructor|]. intros m. split; [intros H; inversion H|intros [H _]; inversion H]. }
  set (s1 := kahn_successor s x).
  assert (forall m, degree s1 m = degree s m - (if decide (x = m) then 1 else 0)) as Hs1.
  { intros m. unfold s1, kahn_successor, degree. cbn. case_decide as E.
    - subst. by rewrite lookup_insert_eq.
    - rewrite lookup_insert_ne by done. lia. }
  destruct (IH s1) as (Hsort & Hdeg & new & Hq & Hnd & Hnew).
  { intros m Hm. rewrite Hs1. specialize (Hd m (list_elem_of_further _ _ _ Hm)). rewrite occ_cons in Hd. lia. }
  split_and!.
  - by rewrite Hsort.
  - intros m. rewrite Hdeg, Hs1, occ_cons. lia.
  - rewrite Hq. assert (queue s1 = if degree s x - 1 =? 0 then queue s ++ [x] else queue s) as -> by done.
    specialize (Hd x (list_elem_of_here _ _)). rewrite occ_cons, decide_True in Hd by done.
    pose proof (occ_nonneg x l) as Hx.
    destruct (Z.eqb_spec (degree s x - 1) 0) as [E|E].
    + exists (x :: new). split_and!.
      * by rewrite <-app_assoc.
      * constructor; [|done]. intros [Hin _]%Hnew. apply occ_pos in Hin. lia.
      * intros m. rewrite !elem_of_cons, Hnew, Hs1, occ_cons. destruct (decide (x = m)) as [->|Hne].
        -- split; [intros [_|[]]; split; [by left|lia|by right|lia] | intros _; by left].
        -- split; [intros [->|[]]; [done|split; [by right|lia]] | intros [[->|?] ?]; [done|right; split; [done|lia]]].
    + exists new. split_and!; [done|done|].
      intros m. rewrite Hnew, Hs1, elem_of_cons, occ_cons. destruct (decide (x = m)) as [->|Hne].
      * split; [intros []; split; [by right|lia]|]. intros [_ Hm]. split; [|lia]. apply occ_pos. lia.
      * split; [intros []; split; [by right|lia]|]. intros [[->|?] ?]; [done|split; [done|lia]].
Qed.
End Successors.

Section Sort.
Context {T : Type} (st : Heap T) (ns : list Z) (Hns : NoDup ns).
Context (Hclosed : forall n p, n ∈ ns -> p ∈ producers st n -> p ∈ ns).

(** The inputs of [m] whose producer is not sorted yet. *)
Definition missing (done : list Z) (m : Z) : Z := lenZ (filter (fun q => q ∉ done) (producers st m)).

Lemma missing_snoc done n m : n ∉ done -> missing (done ++ [n]) m = missing done m - occ n (producers st m).
Proof using Type.
  intros Hn. unfold missing, occ, lenZ. induction (producers st m) as [|q l IH]; [done|].
  rewrite !filter_cons. destruct (decide (q = n)) as [->|Hq].
  - rewrite decide_False by (rewrite not_elem_of_app, list_elem_of_singleton; tauto).
    rewrite decide_True by done. cbn [length]. lia.
  - destruct (decide (q ∉ done)) as [Hd|Hd].
    + rewrite decide_True by (rewrite not_elem_of_app, list_elem_of_singleton; tauto). cbn [length]. lia.
    + rewrite decide_False by (rewrite not_elem_of_app, list_elem_of_singleton; tauto). done.
Qed.

Lemma missing_zero done m : missing done m = 0 <-> forall q, q ∈ producers st m -> q ∈ done.
Proof using Type.
  unfold missing. induction (producers st m) as [|q l IH].
  { split; [intros _ q H; inversion H|done]. }
  rewrite filter_cons. destruct (decide (q ∉ done)) as [Hd|Hd].
  - rewrite lenZ_cons. pose proof (lenZ_nonneg (filter (fun q => q ∉ done) l)).
    split; [lia|]. intros H'. destruct Hd. apply H'. left.
  - rewrite IH. setoid_rewrite elem_of_cons. split; [|naive_solver].
    intros H q' [->|?]; [|by apply H]. by destruct (decide (q ∈ done)).
Qed.

Lemma missing_nonneg done m : 0 <= missing done m.
Proof using Type. apply lenZ_nonneg. Qed.

Lemma occ_adjacency n m l : NoDup l -> occ m (concat (map (fun n' =>
    map (fun _ => n') (filter (fun q => q = n) (producers st n'))) l)) =
  if decide (m ∈ l) then occ n (producers st m) else 0.
Proof using Type.
  induction 1 as [|x l Hx Hl IH]; cbn [map concat].
  { rewrite decide_False; [done|]. intros H. inversion H. }
  rewrite occ_app, IH.
  assert (forall k, occ m (map (fun _ => x) k) = if decide (x = m) then lenZ (k : list Z) else 0) as Hc.
  { intros k. induction k as [|y k IHk]; [cbn [map]; rewrite occ_nil; by destruct (decide (x = m))|]. cbn [map]. rewrite occ_cons, IHk, lenZ_cons. destruct (decide (x = m)); lia. }
  rewrite Hc. destruct (decide (x = m)) as [->|Hne].
  - rewrite decide_False by done. rewrite decide_True by left. unfold occ. lia.
  - destruct (decide (m ∈ l)); [rewrite decide_True by (by right); lia|].
    rewrite decide_False; [lia|]. rewrite elem_of_cons. intros [->|]; done.
Qed.

(** What the loop keeps. *)
Record kahn_inv (s : Kahn) : Prop := mkInv {
  k_nodup : NoDup (sorted s ++ queue s);
  k_in m : m ∈ sorted s ++ queue s -> m ∈ ns;
  k_degree m : m ∈ ns -> degree s m = missing (sorted s) m;
  k_ready m : m ∈ ns -> (m ∈ sorted s ++ queue s <-> missing (sorted s) m = 0);
  k_order s1 n s2 p : sorted s = s1 ++ n :: s2 -> p ∈ producers st n -> p ∈ s1
}.

Lemma start_degree m : degree (kahn_start st ns) m = if decide (m ∈ ns) then lenZ (producers st m) else 0.
Proof using Hns.
  unfold degree, kahn_start. cbn [in_degree].
  enough (forall l (d : gmap Z Z), NoDup l -> (forall x, x ∈ l -> d !! x = None) ->
    foldl (fun m n => <[n := default 0 (m !! n) + Z.of_nat (length (producers st n))]> m) d l !! m =
    if decide (m ∈ l) then Some (lenZ (producers st m)) else d !! m) as H.
  { rewrite H by (done || intros; apply lookup_empty). by case_decide. }
  induction l as [|x l IH]; intros d Hnd Hd; cbn [foldl].
  { rewrite decide_False; [done|]. intros H. inversion H. }
  apply NoDup_cons in Hnd as [Hx Hnd]. rewrite IH; [|done|].
  2:{ intros y Hy. rewrite lookup_insert_ne by by intros ->. apply Hd. by right. }
  destruct (decide (m ∈ l)) as [Hm|Hm]; [by rewrite decide_True by by right|].
  destruct (decide (x = m)) as [->|Hne].
  - rewrite lookup_insert_eq, decide_True by left. rewrite (Hd m) by left. done.
  - rewrite lookup_insert_ne by done. rewrite decide_False; [done|]. rewrite elem_of_cons. intros [->|]; done.
Qed.

Lemma missing_nil m : missing [] m = lenZ (producers st m).
Proof using Type. unfold missing. rewrite filter_same; [done|]. intros q _ H. inversion H. Qed.

Lemma start_kahn_inv : kahn_inv (kahn_start st ns).
Proof using Hns.
  assert (forall m, m ∈ ns -> degree (kahn_start st ns) m = missing [] m) as Hd.
  { intros m Hm. by rewrite start_degree, decide_True, missing_nil. }
  assert (forall m, m ∈ queue (kahn_start st ns) <-> m ∈ ns /\ missing [] m = 0) as Hq.
  { intros m. cbn [kahn_start queue]. rewrite list_elem_of_filter. split.
    - intros [E Hm]. split; [done|]. rewrite <-Hd by done. unfold degree. cbn [kahn_start in_degree]. by rewrite E.
    - intros [Hm E]. split; [|done]. rewrite <-Hd in E by done. pose proof (start_degree m) as H.
      unfold degree in E, H. cbn [kahn_start in_degree] in E, H. rewrite decide_True in H by done.
      destruct (_ !! m) as [d|] eqn:Ed; cbn in E; [by rewrite E|]. exfalso.
      enough (forall l (d : gmap Z Z), m ∈ l \/ is_Some (d !! m) -> is_Some (foldl (fun m n =>
        <[n := default 0 (m !! n) + Z.of_nat (length (producers st n))]> m) d l !! m)) as Hs.
      { destruct (Hs ns ∅ (or_introl Hm)) as [? Hx]. rewrite Ed in Hx. done. }
      induction l as [|x l IH]; intros d [Hin|Hin]; cbn [foldl]; [inversion Hin|done| |].
      + apply elem_of_cons in Hin as [->|Hin]; apply IH; [right|by left]. by rewrite lookup_insert_eq.
      + apply IH. right. destruct (decide (x = m)) as [->|]; [by rewrite lookup_insert_eq|by rewrite lookup_insert_ne]. }
  split; cbn [kahn_start sorted app].
  - by apply NoDup_filter.
  - intros m Hm. by apply Hq.
  - done.
  - intros m Hm. rewrite (Hq m). tauto.
  - intros s1 n s2 p E. by destruct s1.
Qed.

Lemma pop_kahn_inv n q s : queue s = n :: q -> kahn_inv s -> kahn_inv (kahn_pop st ns n s).
Proof using Hns Hclosed.
  intros Eq I. unfold kahn_pop. set (s0 := mkKahn _ _ _).
  assert (n ∈ ns) as Hn by (apply (k_in _ I); rewrite Eq; apply elem_of_app; right; left).
  assert (s0 = mkKahn (in_degree s) q (sorted s ++ [n])) as E0 by by unfold s0; rewrite Eq, decide_True.
  pose proof (k_nodup _ I) as Hnd. rewrite Eq in Hnd.
  assert (n ∉ sorted s) as Hns' by (apply NoDup_app in Hnd as (_ & H & _); intros Hin; eapply H; [done|left]).
  assert (forall m, occ m (adjacency st ns n) = if decide (m ∈ ns) then occ n (producers st m) else 0) as Ho.
  { intros m. by apply occ_adjacency. }
  assert (forall m, degree s0 m = degree s m) as Hd0 by by rewrite E0.
  destruct (kahn_successors (adjacency st ns n) s0) as (Hsort & Hdeg & new & Hqn & Hndn & Hnew).
  { intros m Hm. apply occ_pos in Hm. rewrite Ho in *. case_decide as Hmn; [|lia].
    rewrite Hd0, (k_degree _ I) by done. pose proof (missing_snoc (sorted s) n m Hns').
    pose proof (missing_nonneg (sorted s ++ [n]) m). lia. }
  rewrite E0 in Hsort, Hqn, Hnew. cbn [sorted queue] in Hsort, Hqn.
  set (s' := foldl kahn_successor _ _) in *.
  assert (forall m, m ∈ ns -> degree s' m = missing (sorted s') m) as Hdm.
  { intros m Hm. rewrite E0 in Hdeg. fold s' in Hdeg. rewrite Hdeg, Hsort, missing_snoc, Ho, decide_True by done.
    f_equal. rewrite <-E0, Hd0. by apply (k_degree _ I). }
  rewrite E0. fold s'.
  assert (forall m, m ∈ new <-> m ∈ ns /\ missing (sorted s ++ [n]) m = 0 /\ missing (sorted s) m <> 0) as Hnew'.
  { intros m. rewrite Hnew, occ_pos, Ho. rewrite <-E0, Hd0.
    pose proof (occ_nonneg n (producers st m)). case_decide as Hm; [|split; [lia|tauto]].
    rewrite (k_degree _ I), missing_snoc by done. split; [intros []; split_and!; [done|lia|lia]|intros (_ & ? & ?); lia]. }
  split.
  - rewrite Hsort, Hqn. rewrite <-app_assoc. cbn [app]. rewrite app_comm_cons, app_assoc.
    apply NoDup_app. split_and!; [done| |done]. intros m Hm [Hin [_ Hz]]%Hnew'.
    apply Hz, (k_ready _ I); [done|]. by rewrite Eq.
  - intros m. rewrite Hsort, Hqn, <-app_assoc. cbn [app]. rewrite app_comm_cons, app_assoc, elem_of_app.
    intros [Hm|Hm]; [apply (k_in _ I); by rewrite Eq|by apply Hnew'].
  - done.
  - intros m Hm. rewrite Hsort, Hqn, <-app_assoc. cbn [app]. rewrite app_comm_cons, app_assoc, elem_of_app.
    rewrite <-Eq, (k_ready _ I) by done. rewrite Hnew'. split.
    + intros [Hz|?]; [|tauto]. rewrite missing_zero in *. intros p Hp. apply elem_of_app. left. by apply Hz.
    + intros Hz. destruct (decide (missing (sorted s) m = 0)); tauto.
  - intros s1 m s2 p. rewrite Hsort. intros E Hp.
    destruct (decide (s2 = [])) as [->|Hs2].
    + apply app_inj_tail in E as [<- <-]. eapply missing_zero; [|done]. apply (k_ready _ I); [done|].
      rewrite Eq. apply elem_of_app. right. left.
    + destruct (exists_last Hs2) as (s2' & x & ->). rewrite app_comm_cons, app_assoc in E.
      apply app_inj_tail in E as [E _]. by eapply (k_order _ I).
Qed.

(** The loop ends within its fuel; then the queue is empty. *)
Lemma kahn_loop_total fuel s : kahn_inv s -> (length ns <= fuel + length (sorted s))%nat ->
  exists s', kahn_loop fuel st ns s = Ok s' /\ kahn_inv s' /\ queue s' = [].
Proof using Hns Hclosed.
  revert s. induction fuel as [|fuel IH]; intros s I Hf; cbn [kahn_loop]; destruct (queue s) as [|n q] eqn:Eq.
  1, 3: by exists s.
  - exfalso. pose proof (k_nodup _ I) as Hnd. rewrite Eq in Hnd.
    assert (length (sorted s ++ n :: q) <= length ns)%nat as Hl.
    { apply submseteq_length, NoDup_submseteq; [done|]. intros m Hm. apply (k_in _ I). by rewrite Eq. }
    rewrite length_app in Hl. cbn in Hl. lia.
  - assert (n ∈ ns) as Hn by (apply (k_in _ I); rewrite Eq; apply elem_of_app; right; left).
    apply IH; [by eapply pop_kahn_inv|].
    enough (length (sorted (kahn_pop st ns n s)) = S (length (sorted s))) by lia.
    unfold kahn_pop. set (s0 := mkKahn _ _ _).
    assert (forall l s, sorted (foldl kahn_successor s l) = sorted s) as ->.
    { induction l as [|x l IHl]; intros s1; cbn [foldl]; [done|]. by rewrite IHl. }
    cbn. rewrite decide_True, length_app by done. cbn. lia.
Qed.

(** An acyclic graph has a grading of its nodes. *)
Definition graded (rank : Z -> nat) : Prop :=
  forall n p, n ∈ ns -> p ∈ producers st n -> (rank p < rank n)%nat.

Lemma sorted_all rank s : graded rank -> kahn_inv s -> queue s = [] -> forall n, n ∈ ns -> n ∈ sorted s.
Proof using Hclosed.
  intros Hg I Eq. enough (forall k n, (rank n < k)%nat -> n ∈ ns -> n ∈ sorted s) by eauto.
  induction k as [|k IH]; intros n Hk Hn; [lia|].
  pose proof (proj2 (k_ready _ I n Hn)) as H. rewrite Eq, app_nil_r in H. apply H, missing_zero.
  intros p Hp. apply IH; [|by eapply Hclosed]. specialize (Hg n p Hn Hp). lia.
Qed.

End Sort.

(** ** On a well-formed heap *)

Section Heap.
Context {T : Type} {pending : list Z} {st : Heap T} (W : wf pending st).

Lemma producers_in g n p : n ∈ nodes (graph st g) -> p ∈ producers st n -> p ∈ nodes (graph st g).
Proof.
  intros Hn Hp. unfold producers in Hp. apply list_elem_of_omap in Hp as (v & Hv & Hp). by eapply w_in_live.
Qed.

Lemma outputs_unique g n m v : n ∈ nodes (graph st g) -> m ∈ nodes (graph st g) ->
  v ∈ outputs (node st n) -> v ∈ outputs (node st m) -> n = m.
Proof.
  intros Hn Hm Hv Hv'. destruct (w_out _ _ W _ _ _ Hn Hv) as (_ & H1 & _).
  destruct (w_out _ _ W _ _ _ Hm Hv') as (_ & H2 & _). congruence.
Qed.

Lemma elem_of_produced_ids ns i : i ∈ produced (map (node_eqn st) ns) <->
  exists n v, n ∈ ns /\ v ∈ outputs (node st n) /\ i = id (value st v).
Proof.
  rewrite elem_of_produced. split.
  - intros (e & He & Hi). apply list_elem_of_fmap in He as (n & -> & Hn).
    apply list_elem_of_fmap in Hi as (v & -> & Hv). by exists n, v.
  - intros (n & v & Hn & Hv & ->). exists (node_eqn st n). split; [by apply list_elem_of_fmap_2|].
    by apply (list_elem_of_fmap_2 (fun v => id (value st v))).
Qed.

Lemma wf_single g : single_assignment st g.
Proof.
  unfold single_assignment, program. split.
  2:{ intros i (n & v & Hn & Hv & ->)%elem_of_produced_ids. by eapply w_out. }
  pose proof (w_nodup _ _ W g) as Hnd. assert (forall n, n ∈ nodes (graph st g) -> n ∈ nodes (graph st g)) as Hin by done.
  revert Hnd Hin. generalize (nodes (graph st g)) at 1 2 4. intros ns. induction ns as [|n ns IH]; intros Hnd Hin.
  { constructor. }
  apply NoDup_cons in Hnd as [Hn Hnd]. cbn [map]. rewrite produced_cons.
  assert (n ∈ nodes (graph st g)) as Hng by (apply Hin; left).
  apply NoDup_app. split_and!; [| |apply IH; [done|intros m Hm; apply Hin; by right]].
  - apply NoDup_fmap_2_strong; [|by eapply w_out_nodup]. intros u v Hu Hv E.
    eapply known_inj; [by eapply w_out|by eapply w_out|done].
  - intros i Hi (m & v & Hm & Hv & ->)%elem_of_produced_ids.
    apply list_elem_of_fmap in Hi as (u & E & Hu).
    assert (m ∈ nodes (graph st g)) as Hmg by (apply Hin; by right).
    assert (u = v) as ->.
    { exact (known_inj g u v (proj1 (w_out _ _ W g n u Hng Hu)) (proj1 (w_out _ _ W g m v Hmg Hv)) (eq_sym E)). }
    apply Hn. by rewrite (outputs_unique g n m v).
Qed.

(** Nodes after the producers of their inputs. *)
Definition in_order (ns : list Z) : Prop :=
  forall s1 n s2 p, ns = s1 ++ n :: s2 -> p ∈ producers st n -> p ∈ s1.

Lemma wf_ordered g ns : (forall n, n ∈ ns -> n ∈ nodes (graph st g)) -> in_order ns ->
  ordered (map (node_eqn st) ns).
Proof.
  intros Hin Ho es1 e es2 E i Hi Hp. apply fmap_app_inv in E as (s1 & s2 & -> & E2 & ->).
  destruct s2 as [|n s2]; [done|]. injection E2 as -> ->.
  apply elem_of_produced_ids in Hp as (m & v & Hm & Hv & ->).
  apply list_elem_of_fmap in Hi as (u & Eu & Hu).
  assert (n ∈ nodes (graph st g)) as Hn by (apply Hin, elem_of_app; right; left).
  assert (m ∈ nodes (graph st g)) as Hmg by by apply Hin.
  assert (v = u) as <-.
  { exact (known_inj g v u (proj1 (w_out _ _ W g m v Hmg Hv)) (proj1 (w_in _ _ W g n u Hn Hu)) Eu). }
  apply elem_of_produced_ids. exists m, v. split_and!; [|done|done]. eapply Ho; [done|].
  apply list_elem_of_omap. exists v. split; [done|]. unfold node_of.
  destruct (w_out _ _ W _ _ _ Hmg Hv) as (_ & -> & _). by rewrite (w_alive _ _ W _ _ Hmg).
Qed.

Lemma topological_sort_total g : exists s,
  kahn_loop (length (nodes (graph st g))) st (nodes (graph st g)) (kahn_start st (nodes (graph st g))) = Ok s /\
  kahn_inv st (nodes (graph st g)) s /\ queue s = [].
Proof.
  apply kahn_loop_total; [by eapply w_nodup|by intros n p; apply producers_in| |cbn; lia].
  apply start_kahn_inv. by eapply w_nodup.
Qed.

Lemma with_nodes_wf g ns : ns ≡ₚ nodes (graph st g) -> wf pending (upd_graph g (with_nodes ns) st) /\
  (forall h, nodes (graph (upd_graph g (with_nodes ns) st) h) = if decide (h = g) then ns else nodes (graph st h)) /\
  (forall h, h <> g -> same_graph st (upd_graph g (with_nodes ns) st) h) /\
  in_ids (upd_graph g (with_nodes ns) st) g = in_ids st g /\
  out_ids (upd_graph g (with_nodes ns) st) g = out_ids st g /\
  same_leaves (graph st g) (graph (upd_graph g (with_nodes ns) st) g).
Proof.
  intros Hp. set (st' := upd_graph g (with_nodes ns) st).
  assert (forall h, graph st' h = if decide (h = g) then with_nodes ns (graph st g) else graph st h) as Hg.
  { intros h. case_decide as E; [subst h|by apply graph_upd_ne]. unfold st'.
    destruct (heap_graphs st !! g) eqn:Eg; [by rewrite graph_upd_eq by by eexists|].
    unfold graph. cbn. rewrite lookup_alter_eq, Eg. cbn. unfold graph in Hp. rewrite Eg in Hp. cbn in Hp.
    apply Permutation_nil_r in Hp as ->. done. }
  assert (forall h, nodes (graph st' h) ≡ₚ nodes (graph st h)) as Hn.
  { intros h. rewrite Hg. case_decide; [by subst|done]. }
  assert (forall h, graph_inputs (graph st' h) = graph_inputs (graph st h) /\ values (graph st' h) = values (graph st h) /\
    graph_outputs (graph st' h) = graph_outputs (graph st h) /\ same_leaves (graph st h) (graph st' h)) as Hs.
  { intros h. rewrite Hg. case_decide; [subst|]; by repeat split. }
  assert (forall h v, known st' h v <-> known st h v) as Hk.
  { intros h v. unfold known. by destruct (Hs h) as (_ & -> & _). }
  assert (forall h i, leaf_id st' h i <-> leaf_id st h i) as Hl.
  { intros h i. destruct (Hs h) as (E & _ & _ & ?). apply leaf_id_same; [unfold in_ids; by rewrite E|done]. }
  split_and!.
  - split; change (value st') with (value st); change (node st') with (node st);
      change (alive st') with (alive st); change (node_of st') with (node_of st);
      change (live_uses st') with (live_uses st); change (heap_values st') with (heap_values st);
      intros h; try setoid_rewrite Hn; try setoid_rewrite Hk; try setoid_rewrite Hl.
    + by eapply w_nodup.
    + by eapply w_alive.
    + intros h' n. by eapply w_own.
    + by eapply w_pending.
    + destruct (Hs h) as (_ & -> & _). by eapply w_val.
    + intros h'. destruct (Hs h) as (_ & -> & _), (Hs h') as (_ & -> & _). by eapply w_vown.
    + by eapply w_in.
    + by eapply w_in_live.
    + by eapply w_out.
    + by eapply w_out_nodup.
    + destruct (Hs h) as (-> & _). by eapply w_gin.
    + destruct (Hs h) as (_ & _ & -> & _). by eapply w_gout.
    + by eapply w_prod.
    + by eapply w_use.
  - intros h. rewrite Hg. by case_decide.
  - intros h Hne. unfold same_graph, program, in_ids, out_ids. rewrite Hg, decide_False by done. by repeat split.
  - unfold in_ids. by destruct (Hs g) as (-> & _).
  - unfold out_ids. by destruct (Hs g) as (_ & _ & -> & _).
  - by destruct (Hs g) as (_ & _ & _ & ?).
Qed.

(** The result of the sort. *)
Lemma topological_sort_Ok g st' : topological_sort g st = Ok st' ->
  exists ns, st' = upd_graph g (with_nodes ns) st /\ ns ≡ₚ nodes (graph st g) /\ in_order ns.
Proof.
  unfold topological_sort. destruct (topological_sort_total g) as (s & -> & I & Eq). cbn.
  destruct (length (sorted s) =? _)%nat eqn:El; cbn; [|done]. intros [= <-].
  apply Nat.eqb_eq in El. exists (sorted s). split_and!; [done| |by intros s1 n s2 p; apply (k_order _ _ _ I)].
  pose proof (k_nodup _ _ _ I) as Hnd. pose proof (k_in _ _ _ I) as Hin. rewrite Eq, app_nil_r in Hnd, Hin.
  apply submseteq_length_Permutation; [by apply NoDup_submseteq|lia].
Qed.

Lemma topological_sort_graded g rank : graded st (nodes (graph st g)) rank ->
  exists st', topological_sort g st = Ok st'.
Proof.
  intros Hr. unfold topological_sort. destruct (topological_sort_total g) as (s & -> & I & Eq). cbn.
  assert (length (sorted s) = length (nodes (graph st g))) as ->.
  { apply Permutation_length, NoDup_Permutation.
    - pose proof (k_nodup _ _ _ I) as Hnd. by rewrite Eq, app_nil_r in Hnd.
    - by eapply w_nodup.
    - intros n. split; [intros Hn; apply (k_in _ _ _ I); rewrite elem_of_app; by left|].
      eapply sorted_all; [by intros m p; apply producers_in|done|done|done]. }
  rewrite Nat.eqb_refl. by eexists.
Qed.

Lemma in_order_graded ns : NoDup ns -> in_order ns -> exists rank, graded st ns rank.
Proof.
  intros Hnd Ho.
  exists (fun n => match list_find (fun m => m = n) ns with Some (i, _) => i | None => O end).
  intros n p Hn Hp. apply list_elem_of_split in Hn as (s1 & s2 & ->).
  pose proof (Ho s1 n s2 p eq_refl Hp) as Hin. apply NoDup_app in Hnd as (_ & Hd & _).
  assert (n ∉ s1) as Hns by (intros H; eapply Hd; [done|left]).
  assert (exists i, list_find (fun m => m = p) s1 = Some (i, p)) as [i Hi].
  { destruct (list_find (fun m => m = p) s1) as [[i q]|] eqn:E.
    - apply list_find_Some in E as (_ & -> & _) . by exists i.
    - apply list_find_None in E. rewrite Forall_forall in E. by destruct (E p Hin). }
  rewrite (list_find_app_l _ s1 _ _ _ Hi).
  rewrite list_find_app_r.
  - cbn. rewrite decide_True by done. cbn. apply list_find_Some in Hi as (Hi & _). apply lookup_lt_Some in Hi. lia.
  - apply list_find_None, Forall_forall. intros m Hm ->. done.
Qed.

End Heap.

End GraphSort.
