(* ===== verification/JitPreserve.v ===== *)
(** * Edits that preserve runs

    What the passes have in common: a renaming of reads by [replace_value] and a
    removal of unread nodes by [remove_node], each with the invariant, the order
    of the program and the transfer of its solutions.  [shrinks] is what every
    pass leaves alone, [simulates] what it promises about the graph it runs on. *)

From stdpp Require Import base list numbers strings gmap.
From S2P Require Import Prelude DType JitOps JitGraph JitFlow JitExec JitMeaning JitWf JitEdit JitSort.

Module Preserve.
Import Jit Flow Exec Meaning Wf Edit GraphSort.

Section Preserve.
Context {T : Type} `{!Kernels T}.

(** Values keep their declarations, graphs their inputs and leaves, and only
    nodes disappear. *)
Record shrinks (st st' : Heap T) : Prop := mkShrinks {
  s_values h : values (graph st' h) = values (graph st h);
  s_value v : with_uses [] (value st' v) = with_uses [] (value st v);
  s_nodes h n : n ∈ nodes (graph st' h) -> n ∈ nodes (graph st h);
  s_op h n : n ∈ nodes (graph st' h) -> node_op (node st' n) = node_op (node st n);
  s_arity h n : n ∈ nodes (graph st' h) -> length (inputs (node st' n)) = length (inputs (node st n));
  s_in h : in_ids st' h = in_ids st h;
  s_leaves h : same_leaves (graph st h) (graph st' h);
  s_order h : ordered (program st h) -> ordered (program st' h)
}.

Lemma shrinks_refl st : shrinks st st.
Proof. by split. Qed.

Lemma shrinks_trans st1 st2 st3 : shrinks st1 st2 -> shrinks st2 st3 -> shrinks st1 st3.
Proof.
  intros [] []. split.
  - congruence.
  - congruence.
  - intros h n Hn. apply s_nodes0. by eapply s_nodes1.
  - intros h n Hn. rewrite (s_op1 h n) by done. apply (s_op0 h). by apply s_nodes1.
  - intros h n Hn. rewrite (s_arity1 h n) by done. apply (s_arity0 h). by apply s_nodes1.
  - congruence.
  - intros h. destruct (s_leaves0 h) as (?&?&?&?&?), (s_leaves1 h) as (?&?&?&?&?). repeat split; congruence.
  - auto.
Qed.

Lemma same_graph_order (st st' : Heap T) h : same_graph st st' h -> ordered (program st h) -> ordered (program st' h).
Proof. by intros (-> & _). Qed.

(** An edit of one graph that transfers its solutions refines the whole heap. *)
Lemma transfers_refines pending pending' st st' g :
  wf pending st -> wf pending' st' -> shrinks st st' -> (forall h, h <> g -> same_graph st st' h) ->
  transfers (fun _ => True) st st' g -> refines st st'.
Proof.
  intros W W' S Hs Ht. apply refines_by. intros h. destruct (decide (h = g)) as [->|Hne].
  - intros d xs env ts Hb Hr.
    exact (transfers_runs (fun _ => True) st st' g (wf_single W g) (wf_single W' g) (s_in _ _ S g) (s_leaves _ _ S g)
      (s_order _ _ S g) Ht d xs env ts I Hb Hr).
  - by apply same_graph_improves, Hs.
Qed.

(** ** Renaming reads *)

(** The replacements of a list of pairs, one after the other. *)
Definition subst (ps : list (string * string)) (i : string) : string :=
  foldl (fun i p => if decide (i = p.1) then p.2 else i) i ps.

Definition replace_all (g : Z) (ps : list (string * string)) (st : Heap T) : Heap T :=
  foldl (fun st p => replace_value g p.1 p.2 st) st ps.

(** The pair names two values of [g], the second with its producer in [g]. *)
Definition replaceable (st : Heap T) (g : Z) (p : string * string) : Prop :=
  exists o w, known st g o /\ known st g w /\ id (value st o) = p.1 /\ id (value st w) = p.2 /\ p.1 <> p.2 /\
    forall q, node_of st w = Some q -> q ∈ nodes (graph st g).

Lemma subst_fresh (ps : list (string * string)) i : (forall p, p ∈ ps -> p.2 ∉ ps.*1) -> subst ps i ∉ ps.*1.
Proof.
  enough (forall all : list (string * string), (forall p, p ∈ ps -> p.2 ∉ all.*1) ->
    (i ∉ all.*1 \/ i ∈ ps.*1) -> subst ps i ∉ all.*1) as H.
  { intros Hp. apply H; [done|]. destruct (decide (i ∈ ps.*1)); [by right|by left]. }
  intros all. revert i. induction ps as [|p ps IH]; intros i Hp Hi; csimpl in *; cbn [subst foldl].
  { destruct Hi as [?|Hi]; [done|inversion Hi]. }
  apply IH; [intros q Hq; apply Hp; by right|]. destruct (decide (i = p.1)) as [->|Hne].
  - left. apply Hp. left.
  - destruct Hi as [?|Hi]; [by left|right]. by apply elem_of_cons in Hi as [|].
Qed.

Lemma subst_lookup (env : gmap string T) ps i : (forall p : string * string, p ∈ ps -> is_Some (env !! p.1) -> env !! p.2 = env !! p.1) ->
  is_Some (env !! i) -> env !! subst ps i = env !! i.
Proof.
  revert i. induction ps as [|p ps IH]; intros i Hp Hi; [done|]. cbn [subst foldl].
  assert (env !! (if decide (i = p.1) then p.2 else i) = env !! i) as E.
  { destruct (decide (i = p.1)) as [->|]; [|done]. apply Hp; [left|done]. }
  rewrite <-E. apply IH; [intros q Hq; apply Hp; by right|]. by rewrite E.
Qed.

Lemma subst_rel (P : string -> string -> Prop) ps i :
  (forall x, P x x) -> (forall x y z, P x y -> P y z -> P x z) ->
  (forall p, p ∈ ps -> P p.1 p.2) -> P i (subst ps i).
Proof.
  intros Hr Ht. revert i. induction ps as [|p ps IH]; intros i Hp; [by apply Hr|]. cbn [subst foldl].
  eapply Ht; [|apply IH; intros q Hq; apply Hp; by right].
  destruct (decide (i = p.1)) as [->|]; [apply Hp; left|apply Hr].
Qed.

Lemma rename_rename f f' (es : list (Eqn (NodeOp (T := T) * nat))) :
  map (rename f') (map (rename f) es) = map (rename (fun i => f' (f i))) es.
Proof. rewrite map_map. apply map_ext. intros e. unfold rename. cbn. by rewrite map_map. Qed.

Lemma rename_id (es : list (Eqn (NodeOp (T := T) * nat))) : map (rename (fun i => i)) es = es.
Proof. rewrite <-(map_id es) at 2. apply map_ext. intros []. unfold rename. cbn. by rewrite map_id. Qed.

(** Only reads and use lists change. *)
Record relinks (st st' : Heap T) : Prop := mkRelinks {
  l_values h : values (graph st' h) = values (graph st h);
  l_value v : with_uses [] (value st' v) = with_uses [] (value st v);
  l_node n : with_inputs [] (node st' n) = with_inputs [] (node st n);
  l_nodes h : nodes (graph st' h) = nodes (graph st h);
  l_arity h n : n ∈ nodes (graph st h) -> length (inputs (node st' n)) = length (inputs (node st n));
  l_alive n : alive st' n = alive st n;
  l_in h : in_ids st' h = in_ids st h;
  l_leaves h : same_leaves (graph st h) (graph st' h)
}.

Lemma relinks_refl st : relinks st st.
Proof. by split. Qed.

Lemma relinks_trans st1 st2 st3 : relinks st1 st2 -> relinks st2 st3 -> relinks st1 st3.
Proof.
  intros [] []. split; try congruence.
  { intros h n Hn. rewrite (l_arity1 h) by by rewrite l_nodes0. by apply (l_arity0 h). }
  intros h. destruct (l_leaves0 h) as (?&?&?&?&?), (l_leaves1 h) as (?&?&?&?&?). repeat split; congruence.
Qed.

Lemma relinks_shrinks st st' : relinks st st' ->
  (forall h, ordered (program st h) -> ordered (program st' h)) -> shrinks st st'.
Proof.
  intros [] Ho. split; try done.
  - intros h n. by rewrite l_nodes0.
  - intros h n _. exact (f_equal node_op (l_node0 n)).
  - intros h n. rewrite l_nodes0. apply l_arity0.
Qed.

Section Relinks.
Context {st st' : Heap T} (R : relinks st st').

Lemma l_id v : id (value st' v) = id (value st v).
Proof. exact (f_equal id (l_value _ _ R v)). Qed.
Lemma l_outputs n : outputs (node st' n) = outputs (node st n).
Proof. exact (f_equal outputs (l_node _ _ R n)). Qed.
Lemma l_known h v : known st' h v <-> known st h v.
Proof. unfold known. by rewrite (l_values _ _ R), l_id. Qed.
Lemma l_node_of v : node_of st' v = node_of st v.
Proof.
  unfold node_of. assert (producer (value st' v) = producer (value st v)) as -> by
    exact (f_equal producer (l_value _ _ R v)).
  destruct (producer _); [|done]. by rewrite (l_alive _ _ R).
Qed.
Lemma l_replaceable g p : replaceable st g p -> replaceable st' g p.
Proof.
  intros (o & w & H1 & H2 & H3 & H4 & H5 & H6). exists o, w. rewrite !l_known, !l_id, l_node_of.
  setoid_rewrite (l_nodes _ _ R). done.
Qed.
End Relinks.

Lemma replace_value_relinks pending st g p : wf pending st -> replaceable st g p ->
  let st' := replace_value g p.1 p.2 st in
  wf pending st' /\ relinks st st' /\ (forall h, h <> g -> same_graph st st' h) /\
  program st' g = map (rename (subst [p])) (program st g) /\ out_ids st' g = map (subst [p]) (out_ids st g).
Proof.
  destruct p as [a b]. intros W (o & w & Ho & Hw & E1 & E2 & Hne & Hl). cbn [fst snd] in *. subst a b.
  destruct (replace_value_program pending st g o w W Ho Hw Hne Hl) as (Hp & Hi & Hout & Hlv & Hs).
  assert (forall h, nodes (graph (replace_value g (id (value st o)) (id (value st w)) st) h) = nodes (graph st h) /\
    values (graph (replace_value g (id (value st o)) (id (value st w)) st) h) = values (graph st h)) as Hg.
  { intros h. rewrite (replace_value_graph pending st g o w W Ho Hw Hne Hl). by case_decide; subst. }
  destruct (replace_value_rewired pending st g o w W Ho Hw Hne Hl) as (st1 & R & Ev & En & Hinp & _).
  split_and!; [by apply replace_value_wf| |done|done|done]. split.
  - apply Hg.
  - intros v. rewrite <-(rw_value _ _ R). f_equal. exact (f_equal (fun m => default no_value (m !! v)) Ev).
  - intros n. rewrite <-(rw_node _ _ R). f_equal. exact (f_equal (fun m => default no_node (m !! n)) En).
  - apply Hg.
  - intros h n Hn. transitivity (length (inputs (node st1 n)));
      [exact (f_equal (fun m => length (inputs (default no_node (m !! n)))) En)|].
    rewrite (Hinp h n Hn). apply length_map.
  - intros n. rewrite <-(rw_alive R). exact (f_equal (fun m => bool_decide (is_Some (m !! n))) En).
  - intros h. destruct (decide (h = g)) as [->|Hh]; [done|]. apply (Hs h Hh).
  - intros h. destruct (decide (h = g)) as [->|Hh]; [done|]. apply (Hs h Hh).
Qed.

Lemma replace_all_relinks pending ps st g : wf pending st -> (forall p, p ∈ ps -> replaceable st g p) ->
  let st' := replace_all g ps st in
  wf pending st' /\ relinks st st' /\ (forall h, h <> g -> same_graph st st' h) /\
  program st' g = map (rename (subst ps)) (program st g) /\ out_ids st' g = map (subst ps) (out_ids st g).
Proof.
  revert st. induction ps as [|p ps IH]; intros st W Hp; cbn [replace_all foldl].
  { split_and!; [done|apply relinks_refl|intros; apply same_graph_refl|by rewrite rename_id|].
    symmetry. apply map_id. }
  destruct (replace_value_relinks pending st g p W) as (W1 & R1 & Hs1 & Hp1 & Ho1); [apply Hp; left|].
  set (st1 := replace_value g p.1 p.2 st) in *.
  destruct (IH st1 W1) as (W2 & R2 & Hs2 & Hp2 & Ho2); [intros q Hq; apply (l_replaceable R1), Hp; by right|].
  fold (replace_all g ps st1). split_and!; [done|by eapply relinks_trans| | |].
  - intros h Hh. eapply same_graph_trans; [by apply Hs1|by apply Hs2].
  - rewrite Hp2, Hp1. exact (rename_rename (subst [p]) (subst ps) _).
  - rewrite Ho2, Ho1, map_map. done.
Qed.

(** In the order of the program [w] is assigned before [o], if at all. *)
Definition behind (es : list (Eqn (NodeOp (T := T) * nat))) (o w : string) : Prop :=
  (forall es1 es2, es = es1 ++ es2 -> o ∈ produced es1 -> w ∈ produced es1 \/ w ∉ produced es) /\
  (o ∉ produced es -> w ∉ produced es).

Lemma behind_refl es o : behind es o o.
Proof. split; [by left|done]. Qed.

Lemma behind_trans es x y z : behind es x y -> behind es y z -> behind es x z.
Proof.
  intros [H1 H2] [H3 H4]. split; [|by intros ?%H2%H4]. intros es1 es2 E Hx.
  destruct (H1 _ _ E Hx) as [Hy|Hy]; [by eapply H3|right; by apply H4].
Qed.

Lemma behind_ordered es f : (forall i, behind es i (f i)) -> ordered es -> ordered (map (rename f) es).
Proof.
  intros Hf Ho. apply ordered_rename. intros es1 e es2 i E Hi Hp. destruct (Hf i) as [H1 H2].
  destruct (decide (i ∈ produced es)) as [Hin|Hin]; [|by apply H2 in Hin].
  destruct (H1 es1 (e :: es2) E) as [?|?]; [|done|done]. by eapply Ho.
Qed.

(** Redirecting reads to values that are equal and no later keeps solutions. *)
Lemma replace_all_order pending ps st g : wf pending st -> (forall p, p ∈ ps -> replaceable st g p) ->
  (forall p, p ∈ ps -> behind (program st g) p.1 p.2) -> shrinks st (replace_all g ps st).
Proof.
  intros W Hp Hb. destruct (replace_all_relinks pending ps st g W Hp) as (_ & R & Hs & Hpr & _).
  apply relinks_shrinks; [done|]. intros h. destruct (decide (h = g)) as [->|Hh].
  - rewrite Hpr. apply behind_ordered. intros i.
    apply (subst_rel (behind (program st g))); [apply behind_refl|apply behind_trans|done].
  - by apply same_graph_order, Hs.
Qed.

Lemma replace_all_solution pending ps st g fwd target env0 env :
  wf pending st -> (forall p, p ∈ ps -> replaceable st g p) ->
  valuation (node_fun fwd g target) env0 (program st g) env ->
  (forall p, p ∈ ps -> is_Some (env !! p.1) -> env !! p.2 = env !! p.1) ->
  let st' := replace_all g ps st in
  valuation (node_fun fwd g target) env0 (program st' g) env /\
  forall ts, reads env (out_ids st g) = Some ts -> reads env (out_ids st' g) = Some ts.
Proof.
  intros W Hp Hv He st'. subst st'. destruct (replace_all_relinks pending ps st g W Hp) as (_ & _ & _ & -> & ->). split.
  - apply valuation_rename; [|done]. intros e i Hin Hi. apply subst_lookup; [done|].
    destruct (proj1 Hv e Hin) as (xs & ys & Hx & _). by eapply reads_Some.
  - intros ts Hr. rewrite <-Hr. apply reads_map. intros i Hi. apply subst_lookup; [done|]. by eapply reads_Some.
Qed.

(** ** Dropping nodes *)

(** Nothing outside [ds] reads what [ds] assigns. *)
Definition unread (st : Heap T) (g : Z) (ds : list Z) : Prop :=
  (forall d, d ∈ ds -> d ∈ nodes (graph st g)) /\
  (forall n v d, n ∈ nodes (graph st g) -> n ∉ ds -> v ∈ inputs (node st n) -> d ∈ ds -> v ∉ outputs (node st d)) /\
  (forall v d, v ∈ graph_outputs (graph st g) -> d ∈ ds -> v ∉ outputs (node st d)).

Section Remove.
Context (pending : list Z) (st : Heap T) (g : Z) (ds : list Z).
Context (W : wf pending st) (U : unread st g ds).

Let st' := remove_nodes g ds st.

Lemma remove_nodes_invariant : wf (ds ++ pending) st'.
Proof. destruct U as (H1 & H2 & H3). by apply remove_nodes_wf. Qed.

Lemma remove_nodes_keeps : heap_nodes st' = heap_nodes st /\
  (forall h, values (graph st' h) = values (graph st h)) /\
  (forall v, with_uses [] (value st' v) = with_uses [] (value st v)) /\
  (forall h, h <> g -> same_graph st st' h) /\
  (forall h n, n ∈ nodes (graph st' h) <-> n ∈ nodes (graph st h) /\ n ∉ ds).
Proof.
  destruct U as (H1 & H2 & H3).
  destruct (remove_nodes_rewired st g ds H1) as (? & _ & ? & _).
  destruct (remove_nodes_program pending st g ds W H1 H2 H3) as (_ & _ & _ & _ & ?).
  split_and!; [done| |done|done|by apply (remove_nodes_nodes pending)].
  intros h. unfold st'. rewrite (remove_nodes_graph pending st g ds W H1 H2 H3). by case_decide; subst.
Qed.

(** The program of the rest: a part of the old one, and what it loses is unread. *)
Lemma remove_nodes_split :
  program st' g `sublist_of` program st g /\
  program st g ≡ₚ program st' g ++ map (node_eqn st) (filter (fun n => n ∈ ds) (nodes (graph st g))).
Proof.
  destruct U as (H1 & H2 & H3). destruct (remove_nodes_program pending st g ds W H1 H2 H3) as (E & _).
  unfold st'. rewrite E. unfold program. split.
  - apply (fmap_sublist (node_eqn st)), sublist_filter.
  - rewrite <-map_app. apply Permutation_map. rewrite (Permutation_app_comm (filter _ _)).
    by rewrite filter_app_complement.
Qed.

Lemma remove_nodes_shrinks : shrinks st st'.
Proof.
  destruct remove_nodes_keeps as (En & Hv & Hw & Hs & Hn). destruct remove_nodes_split as [Hsub _].
  destruct U as (H1 & H2 & H3). destruct (remove_nodes_program pending st g ds W H1 H2 H3) as (_ & Hi & _ & Hl & _).
  split; [done|done| | | | | |].
  - intros h n. rewrite Hn. tauto.
  - intros h n _. exact (f_equal (fun m => node_op (default no_node (m !! n))) En).
  - intros h n _. exact (f_equal (fun m => length (inputs (default no_node (m !! n)))) En).
  - intros h. destruct (decide (h = g)) as [->|Hh]; [done|]. apply (Hs h Hh).
  - intros h. destruct (decide (h = g)) as [->|Hh]; [done|]. apply (Hs h Hh).
  - intros h. destruct (decide (h = g)) as [->|Hh]; [|by apply same_graph_order, Hs].
    intros Ho. eapply ordered_sublist; [|done|done]. apply (wf_single W).
Qed.

Lemma remove_nodes_transfers : transfers (fun _ => True) st st' g.
Proof.
  intros fwd target env0 env Hs Hv _. destruct remove_nodes_split as [_ Hp].
  destruct U as (H1 & H2 & H3). destruct (remove_nodes_program pending st g ds W H1 H2 H3) as (Epr & _ & Eo & _).
  set (dropped := map (node_eqn st) (filter (fun n => n ∈ ds) (nodes (graph st g)))) in *.
  assert (forall v, known st g v -> id (value st v) ∈ produced dropped -> exists d, d ∈ ds /\ v ∈ outputs (node st d)) as Hd.
  { intros v Hk (d & u & Hd & Hu & E)%elem_of_produced_ids. apply list_elem_of_filter in Hd as [Hd Hdn].
    exists d. split; [done|]. assert (v = u) as ->; [|done].
    exact (known_inj g v u Hk (proj1 (w_out _ _ W g d u Hdn Hu)) E). }
  destruct (valuation_drop (node_fun fwd g target) env0 (program st' g) dropped env) as (env' & Hv' & Hsub & Hsame).
  - by eapply single_perm.
  - by eapply valuation_perm.
  - unfold st'. rewrite Epr. intros e i He Hi Hin. apply list_elem_of_fmap in He as (n & -> & Hn).
    apply list_elem_of_filter in Hn as [Hnd Hn]. apply list_elem_of_fmap in Hi as (v & -> & Hv1).
    destruct (Hd v (proj1 (w_in _ _ W g n v Hn Hv1)) Hin) as (d & Hdd & Ho). by eapply H2.
  - exists env'. split_and!; [done|done|]. intros ts Hr. unfold st'. rewrite Eo, <-Hr. apply reads_agree.
    intros i Hi. apply Hsame. intros Hin. apply list_elem_of_fmap in Hi as (v & -> & Hv1).
    destruct (Hd v (proj1 (w_gout _ _ W g v Hv1)) Hin) as (d & Hdd & Ho). by eapply H3.
Qed.

End Remove.

(** What is read after redirecting reads to values that stay. *)
Lemma replaced_unread pending ps st g ds : wf pending st -> (forall p, p ∈ ps -> replaceable st g p) ->
  (forall p, p ∈ ps -> p.2 ∉ ps.*1) -> (forall d, d ∈ ds -> d ∈ nodes (graph st g)) ->
  (forall d v, d ∈ ds -> v ∈ outputs (node st d) -> id (value st v) ∈ ps.*1) -> unread (replace_all g ps st) g ds.
Proof.
  intros W Hp Hf Hds Hd. destruct (replace_all_relinks pending ps st g W Hp) as (W' & R & _ & Hpr & Ho).
  set (st1 := replace_all g ps st) in *.
  assert (forall i, subst ps i ∉ ps.*1) as Hfresh by (intros i; by apply subst_fresh).
  split_and!.
  - intros d Hdd. rewrite (l_nodes _ _ R). by apply Hds.
  - intros n v d Hn _ Hv Hdd Hvd. rewrite (l_outputs R) in Hvd. apply (Hd d v Hdd) in Hvd.
    assert (node_eqn st1 n ∈ program st1 g) as Hin by by apply list_elem_of_fmap_2.
    rewrite Hpr in Hin. apply list_elem_of_fmap in Hin as (e & E & _).
    assert (id (value st1 v) ∈ e_ins (node_eqn st1 n)) as Hi by by apply (list_elem_of_fmap_2 (fun v => id (value st1 v))).
    rewrite E in Hi. apply list_elem_of_fmap in Hi as (i & Ei & _). rewrite <-(l_id R), Ei in Hvd. by eapply Hfresh.
  - intros v d Hv Hdd Hvd. rewrite (l_outputs R) in Hvd. apply (Hd d v Hdd) in Hvd.
    assert (id (value st1 v) ∈ out_ids st1 g) as Hi by by apply (list_elem_of_fmap_2 (fun v => id (value st1 v))).
    rewrite Ho in Hi. apply list_elem_of_fmap in Hi as (i & Ei & _). rewrite <-(l_id R), Ei in Hvd. by eapply Hfresh.
Qed.

(** Destroying what was removed. *)
Lemma destroy_shrinks ds rest st : wf (ds ++ rest) st -> shrinks st (destroy_nodes ds st).
Proof.
  intros W. assert (forall h n, n ∈ nodes (graph st h) -> node (destroy_nodes ds st) n = node st n) as Hd.
  { intros h n Hn. unfold node. rewrite destroy_lookup, decide_False; [done|].
    intros Hd. eapply (w_pending _ _ W); [done|]. apply elem_of_app. by left. }
  split; [done|done|done| | |done|intros h; apply (destroy_same ds rest st h W)|].
  - intros h n Hn. by rewrite (Hd h n).
  - intros h n Hn. by rewrite (Hd h n).
  - intros h. by eapply same_graph_order, destroy_same.
Qed.

Lemma destroy_refines ds rest st : wf (ds ++ rest) st -> refines st (destroy_nodes ds st).
Proof. intros W. apply refines_by. intros g. by eapply same_graph_improves, destroy_same. Qed.

End Preserve.
End Preserve.
