(* ===== verification/JitPasses.v ===== *)
(** * Optimization passes of the JIT compiler

    Dead code elimination, common subexpression elimination, algebraic
    simplification, reshape elimination and the loop of [Compiler::optimize],
    from src/jit/compiler.cpp, over the heap of JitGraph.v.  A pass returns the
    new heap and whether it changed the graph.  What a pass removed is destroyed
    when it returns, since its local vectors held the last references. *)

From stdpp Require Import base list numbers strings gmap.
From S2P Require Import Prelude DType JitOps JitGraph JitExec.

Module Passes.
Import Jit Exec.

Definition exn_depth : exn := Diverged.

(** The iteration order of [std::unordered_map] is unspecified: any enumeration. *)
Class Unordered := {
  entries {K A} `{Countable K} : gmap K A -> list (K * A);
  entries_perm {K A} `{Countable K} (m : gmap K A) : entries m ≡ₚ map_to_list m
}.

(** The [std::hash] functions, which the standard leaves open. *)
Class StdHash := {
  hash_int : Z -> Z; hash_string : string -> Z; hash_float : Z -> Z; hash_int64 : Z -> Z; hash_bool : bool -> Z
}.

(** The tests of constants, which run kernels: all elements zero, all one. *)
Class ConstantTests (T : Type) := { all_zeros : T -> bool; all_ones : T -> bool }.

Section Passes.
Context {T : Type} `{!Kernels T, !Unordered, !StdHash, !ConstantTests T}.

Definition Pass : Type := Z -> Heap T -> result (Heap T * bool).

(** The graphs of a node, in the order the passes visit them. *)
Definition subgraphs (n : Node T) : list Z :=
  omap (fun o => o) [then_branch n; else_branch n; body n].

(** The loops that end a recursive pass: it runs on the graphs of each node. *)
Definition run_subgraphs (run : Pass) (ns : list Z) (st : Heap T) (modified : bool) : result (Heap T * bool) :=
  rfoldM (fun acc h => let* '(st, m) := run h acc.1 in Ok (st, acc.2 || m))
    (concat (map (fun n => subgraphs (node st n)) ns)) (st, modified).

(** ** Dead code elimination *)

(** The worklist with its back first. *)
Fixpoint mark (fuel : nat) (st : Heap T) (worklist : list Z) (reachable : gset Z) : result (gset Z) :=
  match worklist with
  | [] => Ok reachable
  | n :: worklist =>
      match fuel with
      | O => Err Diverged
      | S fuel =>
          if decide (n ∈ reachable) then mark fuel st worklist reachable
          else
            let reachable := {[n]} ∪ reachable in
            mark fuel st
              (foldl (fun wl v => match node_of st v with
                                  | Some p => if decide (p ∈ reachable) then wl else p :: wl
                                  | None => wl
                                  end) worklist (inputs (node st n))) reachable
      end
  end.

(** Every input of a node is looked at once. *)
Definition mark_fuel (st : Heap T) (g : Z) : nat :=
  length (graph_outputs (graph st g)) + sum_list_with (fun n => S (length (inputs (node st n)))) (nodes (graph st g)).

Definition mark_reachable_nodes (st : Heap T) (g : Z) : result (gset Z) :=
  mark (mark_fuel st g) st (reverse (omap (node_of st) (graph_outputs (graph st g)))) ∅.

Definition dead_nodes (st : Heap T) (g : Z) (reachable : gset Z) : list Z :=
  filter (fun n => n ∉ reachable) (nodes (graph st g)).

Fixpoint dead_code_elimination (depth : nat) (g : Z) (st : Heap T) : result (Heap T * bool) :=
  match depth with
  | O => Err exn_depth
  | S depth =>
      if bool_decide (graph_outputs (graph st g) = []) then Ok (st, false)
      else
        let* reachable := mark_reachable_nodes st g in
        let dead := dead_nodes st g reachable in
        let st := foldl (fun st n => remove_node g n st) st dead in
        let* '(st, modified) := run_subgraphs (dead_code_elimination depth)
          (filter (fun n => n ∈ reachable) (nodes (graph st g))) st (negb (bool_decide (dead = []))) in
        Ok (destroy_nodes dead st, modified)
  end.

(** ** Common subexpression elimination *)

Definition hash_mix (hash h : Z) : Z :=
  Z.lxor hash (wrap 64 (h + 2654435769 + wrap 64 (Z.shiftl hash 6) + Z.shiftr hash 2)).

Definition compute_node_hash (st : Heap T) (n : Z) : Z :=
  let N := node st n in
  let h := hash_int (OpType.ordinal (op_type N)) in
  let h := foldl (fun h v => hash_mix h (hash_string (id (value st v)))) h (inputs N) in
  let h := foldl (fun h p => hash_mix (hash_mix h (hash_string p.1)) (hash_float p.2)) h (entries (float_attrs (attrs N))) in
  let h := foldl (fun h p => hash_mix (hash_mix h (hash_string p.1)) (hash_int64 p.2)) h (entries (int_attrs (attrs N))) in
  let h := foldl (fun h (p : string * list Z) => foldl (fun h v => hash_mix h (hash_int64 v)) (hash_mix h (hash_string p.1)) p.2)
             h (entries (vec_attrs (attrs N))) in
  foldl (fun h p => hash_mix (hash_mix h (hash_string p.1)) (hash_bool p.2)) h (entries (bool_attrs (attrs N))).

(** [==] on doubles, given as bits: not a number differs from everything and the
    two zeros are equal. *)
Definition is_nan (b : Z) : bool :=
  (Z.land (Z.shiftr b 52) 2047 =? 2047) && negb (Z.land b 4503599627370495 =? 0).
Definition is_zero (b : Z) : bool := Z.land b 9223372036854775807 =? 0.
Definition double_eq (a b : Z) : bool :=
  negb (is_nan a) && negb (is_nan b) && ((a =? b) || (is_zero a && is_zero b)).

(** The comparison of two attribute maps. *)
Definition attrs_equal {A} (eq : A -> A -> bool) (a b : gmap string A) : bool :=
  (length (map_to_list a) =? length (map_to_list b))%nat &&
  forallb (fun p : string * A => match b !! p.1 with Some y => eq y p.2 | None => false end) (entries a).

Definition no_entries {A} (m : gmap string A) : bool := match map_to_list m with [] => true | _ => false end.

Definition has_subgraph (n : Node T) : bool := negb (bool_decide (subgraphs n = [])).

Definition nodes_equivalent (st : Heap T) (a b : Z) : bool :=
  let A := node st a in let B := node st b in
  bool_decide (op_type A = op_type B) &&
  negb (OpType.is_stateful_op (op_type A)) &&
  negb (has_subgraph A || has_subgraph B) &&
  no_entries (tensor_attrs (attrs A)) && no_entries (tensor_attrs (attrs B)) &&
  bool_decide (map (fun v => id (value st v)) (inputs A) = map (fun v => id (value st v)) (inputs B)) &&
  attrs_equal double_eq (float_attrs (attrs A)) (float_attrs (attrs B)) &&
  attrs_equal Z.eqb (int_attrs (attrs A)) (int_attrs (attrs B)) &&
  attrs_equal (fun x y => bool_decide (x = y)) (vec_attrs (attrs A)) (vec_attrs (attrs B)) &&
  attrs_equal Bool.eqb (bool_attrs (attrs A)) (bool_attrs (attrs B)).

(** The pairs (i, j) with i before j. *)
Fixpoint pairs {A} (l : list A) : list (A * A) :=
  match l with [] => [] | x :: l => map (fun y => (x, y)) l ++ pairs l end.

Definition hash_map (st : Heap T) (g : Z) : gmap Z (list Z) :=
  foldl (fun m n => let h := compute_node_hash st n in <[h := default [] (m !! h) ++ [n]]> m) ∅ (nodes (graph st g)).

(** The pairs of equivalent nodes, bucket by bucket. *)
Definition equivalent_pairs (st : Heap T) (g : Z) : list (Z * Z) :=
  filter (fun p => nodes_equivalent st p.1 p.2 = true)
    (concat (map (fun b : Z * list Z => pairs b.2) (entries (hash_map st g)))).

Definition record_pair (st : Heap T) (m : gmap string string) (p : Z * Z) : gmap string string :=
  foldl (fun m q => <[id (value st q.2) := id (value st q.1)]> m) m
    (zip (outputs (node st p.1)) (outputs (node st p.2))).

Fixpoint resolve_root (fuel : nat) (m : gmap string string) (seen : gset string) (i : string) : string :=
  match fuel with
  | O => i
  | S fuel =>
      match m !! i with
      | None => i
      | Some j => if decide (i ∈ seen) then i else resolve_root fuel m ({[i]} ∪ seen) j
      end
  end.

Definition resolve_all (m : gmap string string) : gmap string string :=
  foldl (fun m' (p : string * string) =>
    <[p.1 := resolve_root (S (size m)) m' ∅ (default "" (m' !! p.1))]> m') m (entries m).

Definition value_replacements (st : Heap T) (g : Z) : gmap string string :=
  resolve_all (foldl (record_pair st) ∅ (equivalent_pairs st g)).

Definition all_replaced (st : Heap T) (m : gmap string string) (n : Z) : bool :=
  negb (bool_decide (outputs (node st n) = [])) &&
  forallb (fun v => bool_decide (is_Some (m !! id (value st v)))) (outputs (node st n)).

Fixpoint common_subexpression_elimination (depth : nat) (g : Z) (st : Heap T) : result (Heap T * bool) :=
  match depth with
  | O => Err exn_depth
  | S depth =>
      let modified := negb (bool_decide (equivalent_pairs st g = [])) in
      let m := value_replacements st g in
      let st := foldl (fun st (p : string * string) => replace_value g p.1 p.2 st) st (entries m) in
      let to_remove := filter (fun n => all_replaced st m n = true) (nodes (graph st g)) in
      let st := foldl (fun st n => remove_node g n st) st to_remove in
      let* '(st, modified) := run_subgraphs (common_subexpression_elimination depth) (nodes (graph st g)) st modified in
      Ok (destroy_nodes to_remove st, modified)
  end.

(** ** Algebraic simplification *)

Definition is_all_zeros (N : Node T) : bool :=
  bool_decide (op_type N = OpType.Constant) && all_zeros (get_tensor_attr (attrs N) "value").
Definition is_all_ones (N : Node T) : bool :=
  bool_decide (op_type N = OpType.Constant) && all_ones (get_tensor_attr (attrs N) "value").

(** The value that a binary operation is replaced by, if any. *)
Definition binary_operand (unsafe : bool) (st : Heap T) (n : Z) : option Z :=
  match inputs (node st n), outputs (node st n) with
  | input0 :: input1 :: _, out :: _ =>
      let const v := match node_of st v with
                     | Some p => bool_decide (op_type (node st p) = OpType.Constant)
                     | None => false
                     end in
      let zeros v := match node_of st v with Some p => is_all_zeros (node st p) | None => false end in
      let ones v := match node_of st v with Some p => is_all_ones (node st p) | None => false end in
      let same_shape v := bool_decide (shape (value st v) = shape (value st out)) &&
                          bool_decide (dtype (value st v) = dtype (value st out)) in
      if negb (const input0) && negb (const input1) then None
      else match op_type (node st n) with
      | OpType.Add =>
          if zeros input1 && same_shape input0 then Some input0
          else if zeros input0 && same_shape input1 then Some input1 else None
      | OpType.Sub => if zeros input1 && same_shape input0 then Some input0 else None
      | OpType.Mul =>
          if ones input1 && same_shape input0 then Some input0
          else if ones input0 && same_shape input1 then Some input1
          else if unsafe && zeros input1 && same_shape input1 then Some input1
          else if unsafe && zeros input0 && same_shape input0 then Some input0 else None
      | OpType.Div => if ones input1 && same_shape input0 then Some input0 else None
      | _ => None
      end
  | _, _ => None
  end.

(** The value that log(exp(x)) and exp(log(x)) are replaced by. *)
Definition unary_operand (unsafe : bool) (st : Heap T) (n : Z) : option Z :=
  match unsafe, inputs (node st n) with
  | true, input0 :: _ =>
      match node_of st input0 with
      | Some p =>
          match op_type (node st n), op_type (node st p), inputs (node st p) with
          | OpType.Log, OpType.Exp, x :: _ => Some x
          | OpType.Exp, OpType.Log, x :: _ => Some x
          | _, _, _ => None
          end
      | None => None
      end
  | _, _ => None
  end.

Definition simplify_operand (unsafe : bool) (st : Heap T) (n : Z) : option Z :=
  match binary_operand unsafe st n with
  | Some v => Some v
  | None => unary_operand unsafe st n
  end.

(** One node of the loop: the heap, what was removed, and whether it changed. *)
Definition simplify_node (unsafe : bool) (g : Z) (acc : Heap T * list Z) (n : Z) : Heap T * list Z :=
  let '(st, removed) := acc in
  if decide (n ∈ nodes (graph st g)) then
    match simplify_operand unsafe st n with
    | Some v => (replace_node_with_value g n (id (value st v)) st, n :: removed)
    | None => (st, removed)
    end
  else (st, removed).

Definition algebraic_simplification (unsafe : bool) : Pass := fun g st =>
  let '(st, removed) := foldl (simplify_node unsafe g) (st, []) (nodes (graph st g)) in
  Ok (destroy_nodes removed st, negb (bool_decide (removed = []))).

(** ** Reshape elimination *)

Definition eliminate_reshape (g : Z) (acc : Heap T * list Z * bool) (n : Z) : Heap T * list Z * bool :=
  let '(st, removed, modified) := acc in
  if decide (n ∈ nodes (graph st g)) then
    match inputs (node st n) with
    | [] => (st, removed, modified)
    | input :: _ =>
        if decide (shape (value st input) = default [] (vec_attrs (attrs (node st n)) !! "shape"))
        then (replace_node_with_value g n (id (value st input)) st, n :: removed, true)
        else match node_of st input with
             | Some p =>
                 match op_type (node st p), inputs (node st p) with
                 | OpType.Reshape, original :: _ => (replace_input_at n 0 input original st, removed, true)
                 | _, _ => (st, removed, modified)
                 end
             | None => (st, removed, modified)
             end
    end
  else (st, removed, modified).

Definition reshape_elimination : Pass := fun g st =>
  let reshapes := filter (fun n => op_type (node st n) = OpType.Reshape) (nodes (graph st g)) in
  let '(st, removed, modified) := foldl (eliminate_reshape g) (st, [], false) reshapes in
  Ok (destroy_nodes removed st, modified).

(** ** The compiler *)

Definition run_passes (passes : list Pass) (g : Z) (st : Heap T) : result (Heap T * Z) :=
  rfoldM (fun acc (p : Pass) => let* '(st, m) := p g acc.1 in Ok (st, if (m : bool) then acc.2 + 1 else acc.2))
    passes (st, 0).

Fixpoint optimize_loop (passes : list Pass) (g : Z) (iterations : nat) (st : Heap T) (total : Z)
    : result (Heap T * Z) :=
  match iterations with
  | O => Ok (st, total)
  | S iterations =>
      let* '(st, changes) := run_passes passes g st in
      if changes =? 0 then Ok (st, total + changes)
      else optimize_loop passes g iterations st (total + changes)
  end.

(** [Compiler::optimize] without rematerialization and memory planning, which
    are off by default for small graphs. *)
Definition optimize (passes : list Pass) (max_iterations : nat) (g : Z) (st : Heap T) : result (Heap T * Z) :=
  let* '(st, total) := optimize_loop passes g max_iterations st 0 in
  let* st := topological_sort g st in
  Ok (st, total).

End Passes.
End Passes.
