(* ===== verification/JitDce.v ===== *)
(** * What a pass promises

    [Preserving]: a pass keeps the invariant, only removes nodes and refines
    every graph of the heap.  Recursion into the graphs of control-flow nodes
    keeps the promise, and ends where the nesting has a bound. *)

From stdpp Require Import base list numbers strings gmap.
From S2P Require Import Prelude DType JitOps JitGraph JitFlow JitExec JitMeaning JitWf JitEdit JitSort JitPreserve JitPasses.

Module Contract.
Import Jit Flow Exec Meaning Wf Edit GraphSort Preserve Passes.

Section Contract.
Context {T : Type} `{!Kernels T}.

Record preserved (pending : list Z) (st st' : Heap T) : Prop := mkPreserved {
  p_wf : wf pending st'; p_shrinks : shrinks st st'; p_refines : refines st st'
}.

Lemma preserved_refl pending st : wf pending st -> preserved pending st st.
Proof. intros W. split; [done|apply shrinks_refl|apply refines_refl]. Qed.

Lemma preserved_trans pending pending' st1 st2 st3 :
  preserved pending st1 st2 -> preserved pending' st2 st3 -> preserved pending' st1 st3.
Proof. intros [] []. split; [done|by eapply shrinks_trans|by eapply refines_trans]. Qed.

Lemma preserved_destroy ds pending st st' :
  preserved (ds ++ pending) st st' -> preserved pending st (destroy_nodes ds st').
Proof.
  intros [W S R]. split; [by apply destroy_wf| |].
  - eapply shrinks_trans; [done|by eapply destroy_shrinks].
  - eapply refines_trans; [done|by eapply destroy_refines].
Qed.

(** An unread set of nodes can go. *)
Lemma remove_preserved pending st g ds : wf pending st -> unread st g ds ->
  preserved (ds ++ pending) st (remove_nodes g ds st).
Proof.
  intros W U. pose proof (remove_nodes_invariant pending st g ds W U) as W'.
  pose proof (remove_nodes_shrinks pending st g ds W U) as S. split; [done|done|].
  eapply transfers_refines; [exact W|exact W'|exact S|by eapply remove_nodes_keeps|by eapply remove_nodes_transfers].
Qed.

(** No float attribute is a negative zero, which [==] takes for a zero. *)
Definition plain (st : Heap T) : Prop := forall g n k b, n ∈ nodes (graph st g) ->
  float_attrs (attrs (node st n)) !! k = Some b -> is_zero b = true -> b = 0.

Lemma plain_shrinks st st' : shrinks st st' -> plain st -> plain st'.
Proof.
  intros S Hp g n k b Hn H. apply (Hp g n k b); [by eapply s_nodes|].
  assert (attrs (node st n) = attrs (node st' n)) as ->; [|done].
  pose proof (s_op _ _ S g n Hn) as E. by injection E.
Qed.

Class Preserving (p : Pass (T := T)) : Prop := preserving pending g st st' m :
  wf pending st -> plain st -> p g st = Ok (st', m) -> preserved pending st st'.

(** The nesting of [g] is below [d]. *)
Fixpoint nested (d : nat) (st : Heap T) (g : Z) : Prop :=
  match d with
  | O => False
  | S d => forall n h, n ∈ nodes (graph st g) -> h ∈ subgraphs (node st n) -> nested d st h
  end.

Lemma subgraphs_owned (n : Node T) : subgraphs n = owned (node_op n).
Proof. done. Qed.

Lemma shrinks_subgraphs (st st' : Heap T) g n : shrinks st st' -> n ∈ nodes (graph st' g) ->
  subgraphs (node st' n) = subgraphs (node st n).
Proof. intros S Hn. by rewrite !subgraphs_owned, (s_op _ _ S g n Hn). Qed.

Lemma nested_shrinks d st st' g : shrinks st st' -> nested d st g -> nested d st' g.
Proof.
  intros S. revert g. induction d as [|d IH]; intros g H; [done|]. intros n h Hn Hh.
  rewrite (shrinks_subgraphs st st' g n S Hn) in Hh. apply IH. by eapply H; [eapply s_nodes|].
Qed.

Section Subgraphs.
Context (p : Pass (T := T)) `{!Preserving p}.

Lemma run_list_preserved pending l st m st' m' : wf pending st -> plain st ->
  rfoldM (fun acc h => let* '(st, m) := p h acc.1 in Ok (st, acc.2 || m)) l (st, m) = Ok (st', m') ->
  preserved pending st st'.
Proof.
  revert st m. induction l as [|h l IH]; intros st m W Hpl H; simpl in H.
  { injection H as -> ->. by apply preserved_refl. }
  destruct (p h st) as [[st1 m1]|e] eqn:E; [|done].
  assert (preserved pending st st1) as P by exact (preserving pending h st st1 m1 W Hpl E).
  exact (preserved_trans _ _ _ _ _ P (IH st1 _ (p_wf _ _ _ P) (plain_shrinks _ _ (p_shrinks _ _ _ P) Hpl) H)).
Qed.

Lemma run_list_total pending d l st m : wf pending st -> plain st ->
  (forall h st, wf pending st -> plain st -> nested d st h -> exists r, p h st = Ok r) ->
  (forall h, h ∈ l -> nested d st h) ->
  exists r, rfoldM (fun acc h => let* '(st, m) := p h acc.1 in Ok (st, acc.2 || m)) l (st, m) = Ok r.
Proof.
  intros W Hpl Hp. revert st m W Hpl. induction l as [|h l IH]; intros st m W Hpl Hn; simpl; [by eexists|].
  destruct (Hp h st W Hpl) as [[st1 m1] E]; [apply Hn; left|]. rewrite E. simpl.
  assert (preserved pending st st1) as P by exact (preserving pending h st st1 m1 W Hpl E).
  apply IH; [apply P|by eapply plain_shrinks; [apply P|]|]. intros k Hk. eapply nested_shrinks; [apply P|]. apply Hn. by right.
Qed.

Lemma run_subgraphs_preserved pending ns st m st' m' :
  wf pending st -> plain st -> run_subgraphs p ns st m = Ok (st', m') -> preserved pending st st'.
Proof. apply run_list_preserved. Qed.

Lemma run_subgraphs_total pending d g ns st m : wf pending st -> plain st -> nested (S d) st g ->
  (forall n, n ∈ ns -> n ∈ nodes (graph st g)) ->
  (forall h st, wf pending st -> plain st -> nested d st h -> exists r, p h st = Ok r) ->
  exists r, run_subgraphs p ns st m = Ok r.
Proof.
  intros W Hpl Hd Hns Hp. eapply run_list_total; [done|done|done|]. intros h Hh.
  apply list_elem_of_In, in_concat in Hh as (l & Hl & Hh). apply in_map_iff in Hl as (n & <- & Hn).
  eapply (Hd n); [apply Hns; by apply list_elem_of_In|by apply list_elem_of_In].
Qed.

End Subgraphs.

End Contract.
End Contract.

(** ** Dead code elimination

    The marking of [DeadCodeEliminationPass] ends within its fuel and reaches
    exactly the nodes that the outputs of the graph need; the pass removes the
    others, here and in the graphs below, and changes no result. *)

Module Dce.
Import Jit Flow Exec Meaning Wf Edit GraphSort Preserve Passes Contract.

Section Dce.
Context {T : Type} `{!Kernels T}.

(** What the outputs of [g] depend on. *)
Inductive needed (st : Heap T) (g : Z) : Z -> Prop :=
| needed_output v p : v ∈ graph_outputs (graph st g) -> node_of st v = Some p -> needed st g p
| needed_input n p : needed st g n -> p ∈ producers st n -> needed st g p.

(** The step of the worklist. *)
Definition push (st : Heap T) (reachable : gset Z) (wl : list Z) (v : Z) : list Z :=
  match node_of st v with
  | Some p => if decide (p ∈ reachable) then wl else p :: wl
  | None => wl
  end.

Lemma elem_of_pushes st R vs wl x :
  x ∈ foldl (push st R) wl vs <-> x ∈ wl \/ x ∈ omap (node_of st) vs /\ x ∉ R.
Proof.
  revert wl. induction vs as [|v vs IH]; intros wl; cbn [foldl omap list_omap].
  { split; [by left|]. intros [?|[H _]]; [done|inversion H]. }
  rewrite IH. unfold push. destruct (node_of st v) as [p|]; [|done].
  destruct (decide (p ∈ R)) as [Hp|Hp]; rewrite !elem_of_cons; naive_solver.
Qed.

Lemma length_pushes st R vs wl : (length (foldl (push st R) wl vs) <= length wl + length vs)%nat.
Proof.
  revert wl. induction vs as [|v vs IH]; intros wl; cbn [foldl length]; [lia|].
  etrans; [apply IH|]. unfold push. destruct (node_of st v); [|lia]. destruct (decide _); cbn; lia.
Qed.

Section Mark.
Context (st : Heap T) (ns : list Z) (Hns : NoDup ns).
Context (Hclosed : forall n p, n ∈ ns -> p ∈ producers st n -> p ∈ ns).

Definition cost (n : Z) : nat := S (length (inputs (node st n))).
Definition unmarked (R : gset Z) : nat := sum_list_with cost (filter (fun n => n ∉ R) ns).

Lemma unmarked_step R n : n ∈ ns -> n ∉ R -> unmarked R = (cost n + unmarked ({[n]} ∪ R))%nat.
Proof using Hns.
  unfold unmarked. intros Hn HR. clear Hclosed. induction ns as [|m l IH]; [inversion Hn|].
  apply NoDup_cons in Hns as [Hm Hl]. rewrite !filter_cons.
  destruct (decide (m = n)) as [->|Hne].
  - rewrite decide_True by done. rewrite decide_False by set_solver. cbn [sum_list_with]. f_equal.
    f_equal. apply filter_agree. intros x Hx. assert (x <> n) by by intros ->. set_solver.
  - apply elem_of_cons in Hn as [->|Hn]; [done|]. rewrite !(decide_ext (m ∉ {[n]} ∪ R) (m ∉ R)) by set_solver.
    destruct (decide (m ∉ R)); cbn [sum_list_with]; [rewrite IH by done; lia|by apply IH].
Qed.

(** Marking is total; what it returns is closed and no larger than needed. *)
Lemma mark_spec (X : Z -> Prop) fuel wl R :
  (forall n p, X n -> p ∈ producers st n -> X p) ->
  (forall n, n ∈ wl -> n ∈ ns /\ X n) ->
  (forall n, n ∈ R -> X n /\ forall p, p ∈ producers st n -> p ∈ R \/ p ∈ wl) ->
  (length wl + unmarked R <= fuel)%nat ->
  exists R', mark fuel st wl R = Ok R' /\ R ⊆ R' /\ (forall n, n ∈ wl -> n ∈ R') /\
    (forall n, n ∈ R' -> X n /\ forall p, p ∈ producers st n -> p ∈ R').
Proof using Hns Hclosed.
  intros HX. revert wl R. induction fuel as [|fuel IH]; intros wl R Hwl HR Hf.
  all: destruct wl as [|n wl]; [exists R; split_and!; [done|done|intros x Hx; inversion Hx|]; intros n Hn;
    destruct (HR n Hn) as [? Hp]; split; [done|]; intros p [?|Hp']%Hp; [done|inversion Hp'] | ].
  { cbn in Hf. lia. }
  destruct (Hwl n) as [Hn HXn]; [left|]. cbn [mark].
  destruct (decide (n ∈ R)) as [Hin|Hin].
  - destruct (IH wl R) as (R' & ? & Hsub & Hw & Hc).
    + intros x Hx. apply Hwl. by right.
    + intros x Hx. destruct (HR x Hx) as [? Hp]. split; [done|]. intros p Hpp.
      destruct (Hp p Hpp) as [?|[->|?]%elem_of_cons]; [by left|by left|by right].
    + cbn in Hf. lia.
    + exists R'. split_and!; [done|done| |done]. intros x [->|Hx]%elem_of_cons; [by apply Hsub|by apply Hw].
  - fold (push st ({[n]} ∪ R)). set (R1 := {[n]} ∪ R).
    destruct (IH (foldl (push st R1) wl (inputs (node st n))) R1) as (R' & ? & Hsub & Hw & Hc).
    + intros x [Hx|[Hx _]]%elem_of_pushes; [apply Hwl; by right|]. split; [by eapply Hclosed|by eapply HX].
    + intros x [->%elem_of_singleton|Hx]%elem_of_union.
      * split; [done|]. intros p Hp. rewrite elem_of_pushes. destruct (decide (p ∈ R1)); [by left|].
        right; right. done.
      * destruct (HR x Hx) as [? Hp]. split; [done|]. intros p Hpp. rewrite elem_of_pushes.
        destruct (Hp p Hpp) as [?|[->|?]%elem_of_cons]; [left; set_solver|left; set_solver|right; by left].
    + pose proof (length_pushes st R1 (inputs (node st n)) wl). rewrite (unmarked_step R n) in Hf by done.
      unfold cost in Hf. fold R1 in Hf. cbn [length] in Hf. lia.
    + exists R'. split_and!; [done|set_solver| |done]. intros x [->|Hx]%elem_of_cons; [set_solver|].
      apply Hw, elem_of_pushes. by left.
Qed.

End Mark.

Section Pass.
Context {pending : list Z} {st : Heap T} (W : wf pending st).

Lemma needed_in g n : needed st g n -> n ∈ nodes (graph st g).
Proof. induction 1; [by eapply w_gout|by eapply producers_in]. Qed.

Lemma mark_reachable_nodes_exact g : exists R, mark_reachable_nodes st g = Ok R /\ forall n, n ∈ R <-> needed st g n.
Proof.
  assert (forall n, n ∈ reverse (omap (node_of st) (graph_outputs (graph st g))) -> needed st g n) as Hout.
  { intros n. rewrite elem_of_reverse, list_elem_of_omap. intros (v & Hv & Hn). by eapply needed_output. }
  destruct (mark_spec st (nodes (graph st g)) (w_nodup _ _ W g) (producers_in W g) (needed st g) (mark_fuel st g)
    (reverse (omap (node_of st) (graph_outputs (graph st g)))) ∅) as (R & HR & _ & Hw & Hc).
  - intros n p. apply needed_input.
  - intros n Hn. split; [by apply needed_in, Hout|by apply Hout].
  - set_solver.
  - unfold mark_fuel, unmarked. rewrite length_reverse, (filter_same (fun n => n ∉ ∅)) by set_solver.
    apply Nat.add_le_mono; [|done]. generalize (graph_outputs (graph st g)). intros l.
    induction l as [|v l IH]; cbn [omap list_omap length]; [lia|]. destruct (node_of st v); cbn [length]; lia.
  - exists R. split; [done|]. intros n. split; [apply Hc|]. induction 1 as [v p Hv Hp|n p _ IH Hp].
    + apply Hw. rewrite elem_of_reverse, list_elem_of_omap. by exists v.
    + by eapply Hc.
Qed.

Lemma dead_unread g R : (forall n, n ∈ R <-> needed st g n) -> unread st g (dead_nodes st g R).
Proof.
  intros HR. assert (forall d v, d ∈ dead_nodes st g R -> v ∈ outputs (node st d) ->
    d ∈ nodes (graph st g) /\ ~ needed st g d /\ node_of st v = Some d) as Hd.
  { intros d v Hd Hv. apply list_elem_of_filter in Hd as [Hd Hdn]. rewrite HR in Hd. split_and!; [done|done|].
    unfold node_of. destruct (w_out _ _ W _ _ _ Hdn Hv) as (_ & -> & _). by rewrite (w_alive _ _ W _ _ Hdn). }
  split_and!.
  - intros d Hdn. by apply list_elem_of_filter in Hdn as [].
  - intros n v d Hn Hnd Hv Hdd Ho. destruct (Hd d v Hdd Ho) as (_ & Hnn & Hp). apply Hnn.
    eapply (needed_input st g n); [|by apply list_elem_of_omap; exists v]. apply HR.
    destruct (decide (n ∈ R)); [done|]. destruct Hnd. by apply list_elem_of_filter.
  - intros v d Hv Hdd Ho. destruct (Hd d v Hdd Ho) as (_ & Hnn & Hp). apply Hnn. by eapply needed_output.
Qed.

End Pass.

#[export] Instance dce_preserving depth : Preserving (dead_code_elimination (T := T) depth).
Proof.
  induction depth as [|depth IH]; intros pending g st st' m W Hpl H; [done|]. cbn [dead_code_elimination] in H.
  destruct (bool_decide _); [injection H as -> _; by apply preserved_refl|].
  destruct (mark_reachable_nodes_exact W g) as (R & E & HR). rewrite E in H. simpl in H.
  pose proof (remove_preserved _ _ g _ W (dead_unread W g R HR)) as P.
  fold (remove_nodes g (dead_nodes st g R) st) in H.
  destruct (run_subgraphs _ _ _ _) as [[st1 m1]|e] eqn:E1; [|done]. injection H as <- _.
  apply preserved_destroy. eapply preserved_trans; [exact P|].
  eapply (run_subgraphs_preserved (dead_code_elimination depth)); [apply P|by eapply plain_shrinks; [apply P|]|exact E1].
Qed.

Lemma dce_total depth : forall pending g (st : Heap T), wf pending st -> plain st -> nested depth st g ->
  exists r, dead_code_elimination depth g st = Ok r.
Proof.
  induction depth as [|depth IH]; intros pending g st W Hpl Hn; [done|]. cbn [dead_code_elimination].
  destruct (bool_decide _); [by eexists|].
  destruct (mark_reachable_nodes_exact W g) as (R & -> & HR). simpl.
  pose proof (remove_preserved _ _ g _ W (dead_unread W g R HR)) as P.
  fold (remove_nodes g (dead_nodes st g R) st).
  destruct (run_subgraphs_total (dead_code_elimination depth) (dead_nodes st g R ++ pending) depth g
    (filter (fun n => n ∈ R) (nodes (graph (remove_nodes g (dead_nodes st g R) st) g)))
    (remove_nodes g (dead_nodes st g R) st) (negb (bool_decide (dead_nodes st g R = [])))) as [[st1 m1] ->].
  - apply P.
  - by eapply plain_shrinks; [apply P|].
  - eapply nested_shrinks; [apply P|done].
  - intros n Hn'. by apply list_elem_of_filter in Hn' as [].
  - intros h s Ws Hps Hs. by eapply IH.
  - by eexists.
Qed.

(** What is left of the graph is what its outputs need. *)
Lemma dce_only_needed pending depth g (st st' : Heap T) m : wf pending st -> plain st -> graph_outputs (graph st g) <> [] ->
  dead_code_elimination depth g st = Ok (st', m) -> forall n, n ∈ nodes (graph st' g) -> needed st g n.
Proof.
  destruct depth as [|depth]; intros W Hpl Hne H n Hn; [done|]. cbn [dead_code_elimination] in H.
  rewrite bool_decide_eq_false_2 in H by done.
  destruct (mark_reachable_nodes_exact W g) as (R & E & HR). rewrite E in H. simpl in H.
  pose proof (dead_unread W g R HR) as U. pose proof (remove_preserved _ _ g _ W U) as P.
  fold (remove_nodes g (dead_nodes st g R) st) in H.
  destruct (run_subgraphs _ _ _ _) as [[st1 m1]|e] eqn:E1; [|done]. injection H as <- _.
  pose proof (run_subgraphs_preserved (dead_code_elimination depth) _ _ _ _ _ _ (p_wf _ _ _ P) (plain_shrinks _ _ (p_shrinks _ _ _ P) Hpl) E1) as P1.
  change (nodes (graph (destroy_nodes ?d ?s) g)) with (nodes (graph s g)) in Hn.
  apply (s_nodes _ _ (p_shrinks _ _ _ P1)) in Hn.
  apply (remove_nodes_keeps pending st g _ W U) in Hn as [Hn Hd]. apply HR.
  destruct (decide (n ∈ R)); [done|]. destruct Hd. by apply list_elem_of_filter.
Qed.

End Dce.
End Dce.
