(* ===== verification/JitCse.v ===== *)
(** * Common subexpression elimination

    Equivalent nodes have equal operations, attributes and reads, so every
    solution gives their outputs the same values; the resolved replacements lead
    to an earlier value that is not replaced itself.  The pass therefore redirects
    reads without changing a solution, and what it removes is not read. *)

From stdpp Require Import base list numbers strings gmap.
From S2P Require Import Prelude DType JitOps JitGraph JitFlow JitExec JitMeaning JitWf JitEdit JitSort JitPreserve JitPasses JitDce.

Module Cse.
Import Jit Flow Exec Meaning Wf Edit GraphSort Preserve Passes Contract.

(** ** Resolving chains of replacements *)

Section Resolve.
Context (P : string -> string -> Prop) (rank : string -> nat).
Context (Ptrans : forall x y z, P x y -> P y z -> P x z) (Prank : forall x y, P x y -> (rank y < rank x)%nat).

Definition respects (m : gmap string string) : Prop := forall o w, m !! o = Some w -> P o w.

(** The walk ends at a root before it runs out of fuel or meets a seen id. *)
Lemma resolve_root_spec m fuel seen i : respects m ->
  (forall x, x ∈ seen -> is_Some (m !! x) /\ (rank i < rank x)%nat) -> (size m < fuel + size seen)%nat ->
  let j := resolve_root fuel m seen i in m !! j = None /\ (j = i \/ P i j).
Proof.
  intros Hm. revert seen i. induction fuel as [|fuel IH]; intros seen i Hs Hf.
  { exfalso. assert (size seen <= size (dom m))%nat as Hle.
    { apply subseteq_size. intros x Hx. apply elem_of_dom. by apply Hs. }
    rewrite size_dom in Hle. lia. }
  cbn [resolve_root]. destruct (m !! i) as [j|] eqn:E; [|by split; [|left]].
  assert (i ∉ seen) as Hi. { intros Hi. apply Hs in Hi as [_ Hi]. lia. }
  rewrite decide_False by done.
  pose proof (Prank i j (Hm i j E)) as Hlt.
  destruct (IH ({[i]} ∪ seen) j) as [H1 H2].
  - intros x [->%elem_of_singleton|Hx]%elem_of_union; [by split; [eexists|]|].
    destruct (Hs x Hx). split; [done|lia].
  - rewrite size_union, size_singleton by set_solver. lia.
  - split; [done|]. right. destruct H2 as [->|H2]; [by apply Hm|]. eapply Ptrans; [by apply Hm|done].
Qed.

Lemma resolve_fold_spec n l m : respects m -> (size m <= n)%nat ->
  (forall p, p ∈ l -> is_Some (m !! p.1)) ->
  let m' := foldl (fun m' (p : string * string) =>
    <[p.1 := resolve_root (S n) m' ∅ (default "" (m' !! p.1))]> m') m l in
  respects m' /\ dom m' = dom m /\
  (forall o w, m' !! o = Some w -> (o ∈ l.*1 \/ m !! w = None) -> m' !! w = None).
Proof.
  revert m. induction l as [|p l IH]; intros m Hm Hn Hl; cbn [foldl].
  { split_and!; [done|done|]. intros o w _ [H|H]; [inversion H|done]. }
  destruct (Hl p) as [w Hw]; [left|]. rewrite Hw. change (default "" (Some w)) with w.
  set (t := resolve_root (S n) m ∅ w).
  destruct (resolve_root_spec m (S n) ∅ w Hm) as [Ht HPt]; [set_solver|rewrite size_empty; lia|]. fold t in Ht, HPt.
  assert (P p.1 t) as Hpt. { destruct HPt as [->|HPt]; [by apply Hm|]. eapply Ptrans; [by apply Hm|done]. }
  set (m1 := <[p.1 := t]> m).
  assert (dom m1 = dom m) as Hd. { unfold m1. rewrite dom_insert_L. assert (p.1 ∈ dom m) by (apply elem_of_dom; by eexists). set_solver. }
  assert (forall x, m1 !! x = None <-> m !! x = None) as HN.
  { intros x. rewrite <-!not_elem_of_dom. by rewrite Hd. }
  destruct (IH m1) as (H1 & H2 & H3).
  - intros o w' H. unfold m1 in H. destruct (decide (o = p.1)) as [->|Hne].
    + rewrite lookup_insert_eq in H. by injection H as <-.
    + rewrite lookup_insert_ne in H by done. by apply Hm.
  - rewrite <-(size_dom m1), Hd, size_dom. done.
  - intros q Hq. destruct (Hl q) as [x Hx]; [by right|]. apply not_eq_None_Some. rewrite HN. by rewrite Hx.
  - split_and!; [done|congruence|]. intros o w' Ho Hin. apply (H3 o w' Ho).
    destruct (decide (o ∈ l.*1)) as [?|Hol]; [by left|right]. rewrite HN.
    destruct Hin as [Hin|Hin]; [|done]. apply elem_of_cons in Hin as [->|?]; [|done].
    enough (w' = t) as -> by done. clear -Ho Hol.
    enough (forall m, (foldl (fun m' (p : string * string) =>
      <[p.1:=resolve_root (S n) m' ∅ (default "" (m' !! p.1))]> m') m l) !! p.1 = m !! p.1) as E.
    { rewrite E in Ho. unfold m1 in Ho. rewrite lookup_insert_eq in Ho. by injection Ho. }
    clear Ho. induction l as [|q l IH]; intros m0; cbn [foldl]; [done|].
    apply not_elem_of_cons in Hol as [Hq Hol]. rewrite IH by done. by rewrite lookup_insert_ne.
Qed.

Lemma resolve_all_spec `{!Unordered} m : respects m ->
  respects (resolve_all m) /\ dom (resolve_all m) = dom m /\
  (forall o w, resolve_all m !! o = Some w -> resolve_all m !! w = None).
Proof.
  intros Hm. unfold resolve_all. destruct (resolve_fold_spec (size m) (entries m) m Hm) as (H1 & H2 & H3); [done| |].
  { intros [o w] Hp. rewrite entries_perm in Hp. apply elem_of_map_to_list in Hp. by exists w. }
  split_and!; [done|done|]. intros o w Ho. apply (H3 o w Ho). left.
  assert (o ∈ dom m) as [x Hx]%elem_of_dom. { rewrite <-H2. apply elem_of_dom. by exists w. }
  apply list_elem_of_fmap. exists (o, x). split; [done|]. rewrite entries_perm. by apply elem_of_map_to_list.
Qed.
End Resolve.

(** ** Where equivalent nodes lie *)

Section Order.
Context {K : Type}.

(** Some prefix of the program assigns [w], what is left [o]. *)
Definition earlier (es : list (Eqn K)) (w o : string) : Prop :=
  exists es1 es2, es = es1 ++ es2 /\ w ∈ produced es1 /\ o ∈ produced es2.

Lemma earlier_trans es x w o : NoDup (produced es) -> earlier es x w -> earlier es w o -> earlier es x o.
Proof.
  intros Hnd (l1 & l2 & E1 & Hx & Hw) (k1 & k2 & E2 & Hw' & Ho). exists k1, k2. split_and!; [done| |done].
  rewrite E1 in E2. apply app_eq_inv in E2 as [(k & -> & ->)|(k & -> & ->)].
  - exfalso. rewrite E1, produced_app in Hnd. apply NoDup_app in Hnd as (_ & Hd & _).
    eapply Hd; [|exact Hw]. rewrite produced_app, elem_of_app. by left.
  - rewrite produced_app, elem_of_app. by left.
Qed.

(** The index of the equation that assigns an id. *)
Fixpoint rank (es : list (Eqn K)) (i : string) : nat :=
  match es with
  | [] => O
  | e :: es => if decide (i ∈ e_outs e) then O else S (rank es i)
  end.

Lemma earlier_rank es w o : NoDup (produced es) -> earlier es w o -> (rank es w < rank es o)%nat.
Proof.
  intros Hnd (l1 & l2 & -> & Hw & Ho). induction l1 as [|e l1 IH]; [inversion Hw|].
  rewrite <-app_comm_cons, produced_cons in Hnd. apply NoDup_app in Hnd as (_ & Hd & Hnd). cbn [app rank].
  rewrite (decide_False (P := o ∈ e_outs e)).
  2:{ intros He. eapply Hd; [done|]. rewrite produced_app, elem_of_app. by right. }
  destruct (decide (w ∈ e_outs e)) as [?|He]; [lia|]. rewrite produced_cons, elem_of_app in Hw.
  destruct Hw as [?|Hw]; [done|]. specialize (IH Hnd Hw). lia.
Qed.
End Order.

Lemma earlier_behind {T} (es : list (Eqn (NodeOp (T := T) * nat))) w o :
  NoDup (produced es) -> earlier es w o -> behind es o w.
Proof.
  intros Hnd (l1 & l2 & E1 & Hw & Ho). split.
  - intros k1 k2 E2 Hk. left. rewrite E1 in E2. apply app_eq_inv in E2 as [(k & -> & ->)|(k & -> & ->)].
    + exfalso. rewrite E1, produced_app in Hnd. apply NoDup_app in Hnd as (_ & Hd & _).
      eapply Hd; [|exact Ho]. rewrite produced_app, elem_of_app. by left.
    + rewrite produced_app, elem_of_app. by left.
  - intros Hn. destruct Hn. rewrite E1, produced_app, elem_of_app. by right.
Qed.

Lemma filter_split {A} (P : A -> Prop) `{!forall x, Decision (P x)} l k1 k2 : filter P l = k1 ++ k2 ->
  exists l1 l2, l = l1 ++ l2 /\ filter P l1 = k1 /\ filter P l2 = k2.
Proof.
  revert k1. induction l as [|x l IH]; intros k1 E.
  { symmetry in E. apply app_nil in E as [-> ->]. by exists [], []. }
  rewrite filter_cons in E. destruct (decide (P x)) as [Hx|Hx].
  - destruct k1 as [|y k1].
    + exists [], (x :: l). rewrite filter_cons, decide_True by done. done.
    + injection E as -> E. destruct (IH k1 E) as (l1 & l2 & -> & <- & <-). exists (y :: l1), l2.
      rewrite filter_cons, decide_True by done. done.
  - destruct (IH k1 E) as (l1 & l2 & -> & <- & <-). exists (x :: l1), l2.
    rewrite filter_cons, decide_False by done. done.
Qed.

Lemma elem_of_pairs {A} (l : list A) x y : (x, y) ∈ pairs l -> exists l1 l2, l = l1 ++ l2 /\ x ∈ l1 /\ y ∈ l2.
Proof.
  induction l as [|z l IH]; cbn [pairs]; intros H; [inversion H|]. apply elem_of_app in H as [H|H].
  - apply list_elem_of_fmap in H as (u & [= -> ->] & Hu). exists [z], l. split_and!; [done|left|done].
  - destruct (IH H) as (l1 & l2 & -> & ? & ?). exists (z :: l1), l2. split_and!; [done|by right|done].
Qed.

(** ** Equivalent nodes *)

Section Cse.
Context {T : Type} `{!Kernels T} {HU : Unordered} {HS : StdHash}.

Lemma attrs_equal_eq {A} (eq : A -> A -> bool) (a b : gmap string A) :
  (forall k x y, a !! k = Some x -> b !! k = Some y -> eq y x = true -> y = x) ->
  attrs_equal eq a b = true -> a = b.
Proof.
  intros Heq [Hsz Hall]%andb_true_iff. apply Nat.eqb_eq in Hsz. rewrite !length_map_to_list in Hsz.
  assert (forall k x, a !! k = Some x -> b !! k = Some x) as Hsub.
  { intros k x Hk. rewrite forallb_forall in Hall. specialize (Hall (k, x)). cbn in Hall.
    rewrite <-list_elem_of_In, entries_perm, elem_of_map_to_list in Hall. specialize (Hall Hk).
    destruct (b !! k) as [y|] eqn:Ey; [|done]. f_equal. by eapply Heq. }
  assert (dom a = dom b) as Hd.
  { apply set_subseteq_size_eq; [|by rewrite !size_dom; lia]. intros k [x Hx]%elem_of_dom.
    apply elem_of_dom. exists x. by apply Hsub. }
  apply map_eq. intros k. destruct (a !! k) as [x|] eqn:E; [symmetry; by apply Hsub|].
  apply not_elem_of_dom in E. rewrite Hd in E. by apply not_elem_of_dom in E.
Qed.

Lemma no_entries_empty {A} (m : gmap string A) : no_entries m = true -> m = ∅.
Proof. unfold no_entries. destruct (map_to_list m) eqn:E; [|done]. intros _. by apply map_to_list_empty_iff. Qed.

Lemma has_subgraph_false (n : Node T) : has_subgraph n = false ->
  then_branch n = None /\ else_branch n = None /\ body n = None.
Proof.
  unfold has_subgraph, subgraphs. rewrite negb_false_iff, bool_decide_eq_true. cbn.
  by destruct (then_branch n), (else_branch n), (body n).
Qed.

Lemma nodes_equivalent_spec (st : Heap T) g a b : plain st -> a ∈ nodes (graph st g) -> b ∈ nodes (graph st g) ->
  nodes_equivalent st a b = true ->
  node_op (node st a) = node_op (node st b) /\ value_ids st (inputs (node st a)) = value_ids st (inputs (node st b)).
Proof.
  intros Hp Ha Hb H. unfold nodes_equivalent in H.
  repeat (apply andb_true_iff in H as [H ?]). repeat match goal with
    | H : bool_decide _ = true |- _ => apply bool_decide_eq_true in H
    | H : no_entries _ = true |- _ => apply no_entries_empty in H
    | H : negb _ = true |- _ => apply negb_true_iff in H
    end.
  match goal with H : _ || _ = false |- _ => apply orb_false_iff in H as [Hs1 Hs2] end.
  apply has_subgraph_false in Hs1 as (T1 & E1 & B1). apply has_subgraph_false in Hs2 as (T2 & E2 & B2).
  split; [|done]. unfold node_op. rewrite T1, E1, B1, T2, E2, B2, H. f_equal. f_equal.
  pose proof (fun k x => Hp g a k x Ha) as Pa. pose proof (fun k x => Hp g b k x Hb) as Pb.
  destruct (attrs (node st a)) as [fa ia va ba ta], (attrs (node st b)) as [fb ib vb bb tb]. cbn in *. subst.
  f_equal.
  - eapply attrs_equal_eq; [|done]. intros k x y Hx Hy [_ Heq]%andb_true_iff.
    apply orb_true_iff in Heq as [Heq|[Hzy Hzx]%andb_true_iff]; [by apply Z.eqb_eq|].
    by rewrite (Pa k x), (Pb k y).
  - eapply attrs_equal_eq; [|done]. intros k x y _ _ He. by apply Z.eqb_eq.
  - eapply attrs_equal_eq; [|done]. intros k x y _ _ He. by apply bool_decide_eq_true in He.
  - eapply attrs_equal_eq; [|done]. intros k x y _ _ He. by apply eqb_prop.
Qed.

(** The number of outputs matters only for how many copies a fused kernel gives. *)
Lemma node_fun_index fwd g target o k1 k2 (xs ys1 ys2 : list T) i :
  node_fun fwd g target (o, k1) xs = Ok ys1 -> node_fun fwd g target (o, k2) xs = Ok ys2 ->
  (i < k1)%nat -> (i < k2)%nat -> ys1 !! i = ys2 !! i.
Proof.
  destruct o as [[op a] [[th el] bd]]. unfold node_fun, node_outputs. cbn [fst snd].
  destruct (has_attr a "fusion_kind"); [|intros H1 H2; rewrite H1 in H2; by injection H2 as ->].
  rewrite !decide_True by done. destruct (execute_fused_gpu_node op a xs); [|done].
  intros [= <-] [= <-] H1 H2. rewrite !lookup_replicate_2 by done. done.
Qed.

(** ** What may be merged *)

(** [w] is assigned earlier than [o] and every solution gives them one value. *)
Record mergeable (st : Heap T) (g : Z) (o w : string) : Prop := mkMergeable {
  m_old : exists v, known st g v /\ id (value st v) = o;
  m_new : exists v p, known st g v /\ id (value st v) = w /\ node_of st v = Some p /\ p ∈ nodes (graph st g);
  m_earlier : earlier (program st g) w o;
  m_equal fwd target env0 env : valuation (node_fun fwd g target) env0 (program st g) env -> env !! w = env !! o
}.

Section Wf.
Context {pending : list Z} {st : Heap T} (W : wf pending st) (Hplain : plain st) (g : Z).

Lemma mergeable_trans x y z : mergeable st g x y -> mergeable st g y z -> mergeable st g x z.
Proof.
  intros [A1 A2 A3 A4] [B1 B2 B3 B4]. split; [done|done| |].
  - eapply earlier_trans; [apply (wf_single W)|done|done].
  - intros. etrans; [by eapply B4|by eapply A4].
Qed.

Lemma mergeable_rank x y : mergeable st g x y -> (rank (program st g) y < rank (program st g) x)%nat.
Proof. intros []. apply earlier_rank; [apply (wf_single W)|done]. Qed.

Lemma hash_map_bucket h l : hash_map st g !! h = Some l ->
  l = filter (fun n => compute_node_hash st n = h) (nodes (graph st g)).
Proof.
  unfold hash_map. revert h l. generalize (nodes (graph st g)). intros ns. induction ns as [|n ns IH] using rev_ind; intros h l H.
  { cbn [foldl] in H. by rewrite lookup_empty in H. }
  rewrite foldl_snoc in H. set (m := foldl _ _ ns) in *. rewrite filter_app.
  assert (filter (fun n => compute_node_hash st n = h) ns = default [] (m !! h)) as E.
  { destruct (m !! h) as [k|] eqn:E; [by rewrite <-(IH h k)|]. cbn. clear -E.
    induction ns as [|x ns IH] using rev_ind; [done|]. unfold m in E. rewrite foldl_snoc in E.
    set (m1 := foldl _ _ ns) in *. rewrite filter_app. destruct (decide (compute_node_hash st x = h)) as [Hx|Hx].
    - rewrite Hx, lookup_insert_eq in E. done.
    - rewrite lookup_insert_ne in E by done. rewrite IH by done. by rewrite filter_cons, decide_False. }
  rewrite E. destruct (decide (compute_node_hash st n = h)) as [Hx|Hx].
  - rewrite Hx, lookup_insert_eq in H. injection H as <-. by rewrite filter_cons, decide_True.
  - rewrite lookup_insert_ne in H by done. rewrite H, filter_cons, decide_False by done. by rewrite app_nil_r.
Qed.

(** A pair of equivalent nodes, the first one before the second. *)
Lemma equivalent_pairs_order a b : (a, b) ∈ equivalent_pairs st g ->
  nodes_equivalent st a b = true /\ exists s1 s2, nodes (graph st g) = s1 ++ s2 /\ a ∈ s1 /\ b ∈ s2.
Proof.
  unfold equivalent_pairs. intros [Hq H]%list_elem_of_filter. split; [done|].
  apply list_elem_of_In, in_concat in H as (l & Hl & H). apply in_map_iff in Hl as ([h k] & <- & Hk).
  apply list_elem_of_In in Hk. rewrite entries_perm in Hk. apply elem_of_map_to_list in Hk.
  apply list_elem_of_In, elem_of_pairs in H as (l1 & l2 & E & Ha & Hb). cbn in E. subst k.
  apply hash_map_bucket in Hk. symmetry in Hk. apply filter_split in Hk as (s1 & s2 & -> & <- & <-).
  apply list_elem_of_filter in Ha as [_ Ha]. apply list_elem_of_filter in Hb as [_ Hb]. by exists s1, s2.
Qed.

Lemma output_known n v : n ∈ nodes (graph st g) -> v ∈ outputs (node st n) -> known st g v /\ node_of st v = Some n.
Proof.
  intros Hn Hv. destruct (w_out _ _ W _ _ _ Hn Hv) as (Hk & Hp & _). split; [done|].
  unfold node_of. by rewrite Hp, (w_alive _ _ W _ _ Hn).
Qed.

(** The [k]-th outputs of equivalent nodes. *)
Lemma equivalent_mergeable a b k u v : (a, b) ∈ equivalent_pairs st g ->
  outputs (node st a) !! k = Some u -> outputs (node st b) !! k = Some v ->
  mergeable st g (id (value st v)) (id (value st u)).
Proof.
  intros H Hu Hv. apply equivalent_pairs_order in H as (He & s1 & s2 & Es & Ha & Hb).
  assert (a ∈ nodes (graph st g)) as Han by (rewrite Es; apply elem_of_app; by left).
  assert (b ∈ nodes (graph st g)) as Hbn by (rewrite Es; apply elem_of_app; by right).
  assert (u ∈ outputs (node st a)) as Hua by by eapply list_elem_of_lookup_2.
  assert (v ∈ outputs (node st b)) as Hvb by by eapply list_elem_of_lookup_2.
  destruct (output_known a u Han Hua) as [Hku Hpu]. destruct (output_known b v Hbn Hvb) as [Hkv _].
  split; [by exists v|by exists u, a| |].
  - exists (map (node_eqn st) s1), (map (node_eqn st) s2). unfold program. rewrite Es, map_app.
    split_and!; [done| |]; apply elem_of_produced_ids; [by exists a, u|by exists b, v].
  - intros fwd target env0 env [Hh _].
    destruct (nodes_equivalent_spec st g a b Hplain Han Hbn He) as [Eop Ein].
    destruct (Hh (node_eqn st a)) as (xs & ys & Hx & HF & Hy); [by apply list_elem_of_fmap_2|].
    destruct (Hh (node_eqn st b)) as (xs' & ys' & Hx' & HF' & Hy'); [by apply list_elem_of_fmap_2|].
    unfold node_eqn in *. cbn [e_op e_ins e_outs] in *. fold (value_ids st (inputs (node st a))) in Hx.
    fold (value_ids st (inputs (node st b))) in Hx'. rewrite Ein, Hx' in Hx. injection Hx as <-. rewrite Eop in HF.
    rewrite (Hy k), (Hy' k) by (by apply (list_lookup_fmap_Some_2 (fun v => id (value st v)))).
    eapply node_fun_index; [done|done|by eapply lookup_lt_Some|by eapply lookup_lt_Some].
Qed.
Lemma record_pair_lookup m p o w : record_pair st m p !! o = Some w -> m !! o = Some w \/
  exists k u v, outputs (node st p.1) !! k = Some u /\ outputs (node st p.2) !! k = Some v /\
    o = id (value st v) /\ w = id (value st u).
Proof.
  unfold record_pair. generalize (outputs (node st p.1)) (outputs (node st p.2)). intros us vs.
  revert vs m. induction us as [|u us IH]; intros vs m H; [by left|]. destruct vs as [|v vs]; [by left|].
  cbn [zip zip_with foldl] in H. destruct (IH _ _ H) as [H1|(k & u' & v' & H1)]; [|right; by exists (S k), u', v'].
  destruct (decide (o = id (value st v))) as [->|Hne].
  - rewrite lookup_insert_eq in H1. injection H1 as <-. right. by exists O, u, v.
  - rewrite lookup_insert_ne in H1 by done. by left.
Qed.

Lemma recorded_mergeable o w : foldl (record_pair st) ∅ (equivalent_pairs st g) !! o = Some w -> mergeable st g o w.
Proof.
  enough (forall l, (forall p, p ∈ l -> p ∈ equivalent_pairs st g) -> foldl (record_pair st) ∅ l !! o = Some w ->
    mergeable st g o w) as H by by apply H.
  intros l. induction l as [|p l IH] using rev_ind; intros Hl H; [cbn [foldl] in H; by rewrite lookup_empty in H|].
  rewrite foldl_snoc in H. apply record_pair_lookup in H as [H|(k & u & v & Hu & Hv & -> & ->)].
  - apply IH; [|done]. intros q Hq. apply Hl, elem_of_app. by left.
  - eapply (equivalent_mergeable p.1 p.2); [|done|done]. destruct p. apply Hl, elem_of_app. right. by left.
Qed.

(** Every replacement is to a mergeable value that stays. *)
Lemma value_replacements_spec o w : value_replacements st g !! o = Some w ->
  mergeable st g o w /\ value_replacements st g !! w = None.
Proof.
  destruct (resolve_all_spec (mergeable st g) (rank (program st g)) mergeable_trans mergeable_rank
    (foldl (record_pair st) ∅ (equivalent_pairs st g)) recorded_mergeable) as (H1 & _ & H2).
  intros H. split; [by apply H1|by eapply H2].
Qed.

Lemma mergeable_replaceable o w : mergeable st g o w -> replaceable st g (o, w).
Proof.
  intros M. destruct M as [(v & Hkv & Ev) (u & p & Hku & Eu & Hp & Hpn) He _]. exists v, u.
  split_and!; [done|done|done|done| |by intros q; rewrite Hp; intros [= <-]].
  cbn. intros ->. apply earlier_rank in He; [lia|]. apply (wf_single W).
Qed.
End Wf.

(** ** The pass *)

Section Pass.
Context {pending : list Z} {st : Heap T} (W : wf pending st) (Hplain : plain st) (g : Z).

Let ps := entries (value_replacements st g).

Lemma entry_spec p : p ∈ ps -> mergeable st g p.1 p.2 /\ p.2 ∉ ps.*1.
Proof.
  unfold ps. destruct p as [o w]. rewrite entries_perm. intros H. apply elem_of_map_to_list in H.
  destruct (value_replacements_spec W Hplain g o w H) as [H1 H2]. split; [done|]. cbn.
  intros (q & -> & Hq)%list_elem_of_fmap. destruct q as [a b].
  apply elem_of_map_to_list in Hq. cbn in H2. congruence.
Qed.

Lemma entry_replaceable p : p ∈ ps -> replaceable st g p.
Proof.
  intros Hp. destruct p as [o w]. eapply mergeable_replaceable; [exact W|]. exact (proj1 (entry_spec _ Hp)).
Qed.

Lemma redirected_preserved : preserved pending st (replace_all g ps st).
Proof.
  destruct (replace_all_relinks pending ps st g W entry_replaceable) as (W' & R & Hs & _).
  assert (shrinks st (replace_all g ps st)) as S.
  { apply (replace_all_order pending); [done|apply entry_replaceable|]. intros p Hp.
    apply earlier_behind; [apply (wf_single W)|]. by destruct (entry_spec p Hp) as [[] _]. }
  split; [done|done|]. eapply transfers_refines; [exact W|exact W'|exact S|exact Hs|].
  intros fwd target env0 env _ Hv _. exists env.
  destruct (replace_all_solution pending ps st g fwd target env0 env W entry_replaceable Hv) as [H1 H2]; [|done].
  intros p Hp _. by eapply m_equal; [apply entry_spec|].
Qed.

Definition duplicates : list Z :=
  filter (fun n => all_replaced (replace_all g ps st) (value_replacements st g) n = true)
    (nodes (graph (replace_all g ps st) g)).

Lemma replaced_id i : is_Some (value_replacements st g !! i) -> i ∈ ps.*1.
Proof.
  intros [w H]. apply list_elem_of_fmap. exists (i, w). split; [done|]. unfold ps. rewrite entries_perm.
  by apply elem_of_map_to_list.
Qed.

Lemma duplicates_unread : unread (replace_all g ps st) g duplicates.
Proof.
  destruct (replace_all_relinks pending ps st g W entry_replaceable) as (_ & R & _).
  apply (replaced_unread pending); [done|apply entry_replaceable|by intros p [_ ?]%entry_spec| |].
  - intros d [_ Hd]%list_elem_of_filter. by rewrite <-(l_nodes _ _ R).
  - intros d v [Hd _]%list_elem_of_filter Hv. apply andb_true_iff in Hd as [_ Hd]. rewrite forallb_forall in Hd.
    apply replaced_id. rewrite <-(l_id R). rewrite <-(l_outputs R) in Hv.
    by apply list_elem_of_In, Hd, bool_decide_eq_true in Hv.
Qed.

Lemma merged_preserved : preserved (duplicates ++ pending) st (remove_nodes g duplicates (replace_all g ps st)).
Proof.
  eapply preserved_trans; [exact redirected_preserved|]. apply remove_preserved; [|exact duplicates_unread].
  exact (p_wf _ _ _ redirected_preserved).
Qed.
End Pass.

Lemma cse_unfold depth g (st : Heap T) : common_subexpression_elimination (S depth) g st =
  let st1 := remove_nodes g (duplicates (st := st) g) (replace_all g (entries (value_replacements st g)) st) in
  let* '(st2, modified) := run_subgraphs (common_subexpression_elimination depth) (nodes (graph st1 g)) st1
    (negb (bool_decide (equivalent_pairs st g = []))) in
  Ok (destroy_nodes (duplicates (st := st) g) st2, modified).
Proof. done. Qed.

#[export] Instance cse_preserving depth : Preserving (common_subexpression_elimination (T := T) depth).
Proof.
  induction depth as [|depth IH]; intros pending g st st' m W Hpl H; [done|].
  rewrite cse_unfold in H. cbn zeta in H.
  pose proof (merged_preserved W Hpl g) as P.
  destruct (run_subgraphs _ _ _ _) as [[st2 m2]|e] eqn:E; [|done]. injection H as <- _.
  apply preserved_destroy. eapply preserved_trans; [exact P|].
  eapply (run_subgraphs_preserved (common_subexpression_elimination depth)); [apply P| |exact E].
  eapply plain_shrinks; [apply P|done].
Qed.

Lemma cse_total depth : forall pending g (st : Heap T), wf pending st -> plain st -> nested depth st g ->
  exists r, common_subexpression_elimination depth g st = Ok r.
Proof.
  induction depth as [|depth IH]; intros pending g st W Hpl Hn; [done|].
  rewrite cse_unfold. cbn zeta. pose proof (merged_preserved W Hpl g) as P.
  set (st1 := remove_nodes _ _ _) in *.
  destruct (run_subgraphs_total (common_subexpression_elimination depth) (duplicates (st := st) g ++ pending) depth g
    (nodes (graph st1 g)) st1 (negb (bool_decide (equivalent_pairs st g = [])))) as [[st2 m2] ->].
  - apply P.
  - by eapply plain_shrinks; [apply P|].
  - eapply nested_shrinks; [apply P|done].
  - done.
  - intros h s Ws Hps Hs. by eapply IH.
  - by eexists.
Qed.

End Cse.
End Cse.
