(* ===== verification/JitOptimize.v ===== *)
(** * The optimizer

    What [Compiler::optimize] promises of the graph it is given: a [SoundPass]
    keeps every run of the graph on tensors that conform to the declared shapes
    and types, so any list of sound passes does, for any number of iterations;
    the topological sort at the end then succeeds and keeps the runs too. *)

From stdpp Require Import base list numbers strings gmap.
From S2P Require Import Prelude DType JitOps JitGraph JitFlow JitExec JitMeaning JitWf JitEdit JitSort JitPreserve JitPasses JitDce.

Module Optimize.
Import Jit Flow Exec Meaning Wf Edit GraphSort Preserve Passes Contract.

(** The tensors on which adding zero is the identity bit for bit: floats other
    than negative zeros, and all integers. *)
Class Regular (T : Type) := regular : T -> Prop.

Section Optimize.
Context {T : Type} `{!Kernels T, !Regular T}.

(** The values of a run are as the graph declares them. *)
Definition conforms (st : Heap T) (g : Z) (env : gmap string T) : Prop :=
  forall v t, known st g v -> env !! id (value st v) = Some t ->
    regular t /\ shape_of t = shape (value st v) /\ dtype_of t = dtype (value st v).

(** A node made by fusion keeps its operation only for what fusion replaces. *)
Definition unfused (st : Heap T) (g : Z) : Prop :=
  forall n, n ∈ nodes (graph st g) -> has_attr (attrs (node st n)) "fusion_kind" = false.

(** A reshape reads one value. *)
Definition unary_reshapes (st : Heap T) (g : Z) : Prop :=
  forall n, n ∈ nodes (graph st g) -> op_type (node st n) = OpType.Reshape -> (length (inputs (node st n)) <= 1)%nat.

(** Every conforming run of [g] is one of the new heap. *)
Definition simulates (g : Z) (st st' : Heap T) : Prop :=
  forall d xs env ts, conforms st g env -> runs d st g xs env ts ->
    exists env', runs d st' g xs env' ts /\ env' ⊆ env.

Record good (pending : list Z) (g : Z) (st : Heap T) : Prop := mkGood {
  good_wf : wf pending st; good_plain : plain st; good_unfused : unfused st g; good_unary : unary_reshapes st g;
  good_root : root st g; good_ordered : ordered (program st g)
}.

Lemma good_shrinks pending pending' g st st' :
  good pending g st -> wf pending' st' -> shrinks st st' -> good pending' g st'.
Proof.
  intros [W Hp Hu H1 Hr Ho] W' S. split; [done|by eapply plain_shrinks| | | |by apply (s_order _ _ S)].
  - intros n Hn. pose proof (s_op _ _ S g n Hn) as E. injection E as _ -> _. apply Hu. by eapply s_nodes.
  - intros n Hn. pose proof (s_op _ _ S g n Hn) as E. injection E as -> _ _. rewrite (s_arity _ _ S g n Hn).
    apply H1. by eapply s_nodes.
  - intros h n Hn. rewrite (s_op _ _ S h n Hn). apply (Hr h). by eapply s_nodes.
Qed.

Lemma conforms_shrinks g st st' env env' :
  shrinks st st' -> env' ⊆ env -> conforms st g env -> conforms st' g env'.
Proof.
  intros S Hsub Hc v t Hk Ht. pose proof (s_value _ _ S v) as E.
  assert (id (value st' v) = id (value st v)) as Ei by exact (f_equal id E).
  assert (shape (value st' v) = shape (value st v)) as -> by exact (f_equal shape E).
  assert (dtype (value st' v) = dtype (value st v)) as -> by exact (f_equal dtype E).
  unfold known in Hk. rewrite (s_values _ _ S), Ei in Hk. rewrite Ei in Ht. apply Hc; [done|].
  by eapply lookup_weaken.
Qed.

Lemma simulates_refl g st : simulates g st st.
Proof. intros d xs env ts _ H. by exists env. Qed.

Lemma simulates_trans g st1 st2 st3 :
  shrinks st1 st2 -> simulates g st1 st2 -> simulates g st2 st3 -> simulates g st1 st3.
Proof.
  intros S H1 H2 d xs env ts Hc Hr. destruct (H1 d xs env ts Hc Hr) as (env1 & Hr1 & Hs1).
  destruct (H2 d xs env1 ts) as (env2 & ? & ?); [by eapply conforms_shrinks|done|].
  exists env2. split; [done|by etrans].
Qed.

(** An edit of the root graph alone. *)
Lemma transfers_simulates pending pending' g st st' :
  good pending g st -> wf pending' st' -> shrinks st st' -> (forall h, h <> g -> same_graph st st' h) ->
  transfers (conforms st g) st st' g -> simulates g st st'.
Proof.
  intros [W _ _ _ Hroot _] W' S Hs Ht d xs env ts Hc Hr.
  apply (transfers_runs (conforms st g) st st' g (wf_single W g) (wf_single W' g) (s_in _ _ S g) (s_leaves _ _ S g)
    (s_order _ _ S g) Ht d xs env ts Hc); [|done].
  intros h vs us Hin. apply (others_forward st st' g Hroot Hs). intros ->.
  apply list_elem_of_In, in_concat in Hin as (l & Hl & Hin). unfold program in Hl. rewrite map_map in Hl.
  apply in_map_iff in Hl as (n & <- & Hn). eapply Hroot; by apply list_elem_of_In.
Qed.

Class SoundPass (p : Pass (T := T)) : Prop := sound_pass pending g st st' m :
  good pending g st -> p g st = Ok (st', m) -> wf pending st' /\ shrinks st st' /\ simulates g st st'.

#[export] Instance preserving_sound (p : Pass (T := T)) : Preserving p -> SoundPass p.
Proof.
  intros Hp pending g st st' m [W Hpl _ _ _ _] H. destruct (Hp pending g st st' m W Hpl H) as [W' S R].
  split_and!; [done|done|]. intros d xs env ts _ Hr. by apply R.
Qed.

(** ** The final sort *)

Section Sort.
Context {pending : list Z} {st : Heap T} (W : wf pending st).

Lemma ordered_in_order g : ordered (program st g) -> in_order (st := st) (nodes (graph st g)).
Proof.
  intros Ho s1 n s2 p E Hp. apply list_elem_of_omap in Hp as (v & Hv & Hp).
  assert (n ∈ nodes (graph st g)) as Hn by (rewrite E; apply elem_of_app; right; left).
  destruct (w_in _ _ W _ _ _ Hn Hv) as [Hk _]. pose proof (w_in_live _ _ W _ _ _ _ Hn Hv Hp) as Hpg.
  destruct (w_prod _ _ W _ _ _ Hk Hp) as [Hout _].
  assert (id (value st v) ∈ produced (map (node_eqn st) s1)) as Hin.
  { eapply (Ho _ (node_eqn st n) (map (node_eqn st) s2)).
    - unfold program. by rewrite E, map_app.
    - by apply (list_elem_of_fmap_2 (fun v => id (value st v))).
    - apply elem_of_produced_ids. by exists p, v. }
  apply elem_of_produced_ids in Hin as (m & u & Hm & Hu & Eid).
  assert (m ∈ nodes (graph st g)) as Hmg by (rewrite E; apply elem_of_app; by left).
  assert (v = u) as -> by exact (known_inj g v u Hk (proj1 (w_out _ _ W g m u Hmg Hu)) Eid).
  by rewrite <-(outputs_unique W g m p u).
Qed.

Lemma sort_total g : ordered (program st g) -> exists st', topological_sort g st = Ok st'.
Proof.
  intros Ho%ordered_in_order. destruct (in_order_graded (nodes (graph st g)) (w_nodup _ _ W g) Ho) as [rank Hr].
  by eapply (topological_sort_graded W).
Qed.

Lemma values_with_nodes g ns h : values (graph (upd_graph g (with_nodes ns) st) h) = values (graph st h).
Proof.
  unfold graph. cbn. destruct (decide (h = g)) as [->|Hh]; [|by rewrite lookup_alter_ne].
  rewrite lookup_alter_eq. by destruct (heap_graphs st !! g).
Qed.

Lemma sort_shrinks g st' : topological_sort g st = Ok st' -> wf pending st' /\ shrinks st st' /\
  (forall h, h <> g -> same_graph st st' h) /\ transfers (fun _ => True) st st' g.
Proof.
  intros (ns & -> & Hp & Ho)%(topological_sort_Ok W).
  destruct (with_nodes_wf W g ns Hp) as (W' & Hn & Hs & Hi & Hout & Hl).
  assert (forall h, program (upd_graph g (with_nodes ns) st) h = map (node_eqn st) (if decide (h = g) then ns else nodes (graph st h))) as Hpr.
  { intros h. unfold program. by rewrite Hn. }
  split_and!; [done| |done|].
  - split.
    + intros h. apply values_with_nodes.
    + done.
    + intros h n. rewrite Hn. case_decide; [subst; by rewrite Hp|done].
    + done.
    + done.
    + intros h. destruct (decide (h = g)) as [->|Hh]; [done|apply (Hs h Hh)].
    + intros h. destruct (decide (h = g)) as [->|Hh]; [done|apply (Hs h Hh)].
    + intros h Hord. rewrite Hpr. case_decide; [subst h|done]. apply (wf_ordered W g); [|done].
      intros n. by rewrite Hp.
  - intros fwd target env0 env _ Hv _. exists env. split_and!; [|done|by rewrite Hout].
    rewrite Hpr, decide_True by done. eapply valuation_perm; [|exact Hv]. unfold program.
    apply Permutation_map. by symmetry.
Qed.
End Sort.

Lemma sort_sound pending g st st' : good pending g st -> topological_sort g st = Ok st' ->
  wf pending st' /\ shrinks st st' /\ simulates g st st'.
Proof.
  intros G H. destruct (sort_shrinks (good_wf _ _ _ G) g st' H) as (W' & S & Hs & Ht).
  split_and!; [done|done|]. eapply transfers_simulates; [done|done|done|done|].
  intros fwd target env0 env H1 H2 _. by apply Ht.
Qed.

(** ** The loop *)

(** Where the nesting is below [d], the pass returns. *)
Class TotalPass (d : nat) (p : Pass (T := T)) : Prop := total_pass pending g st :
  good pending g st -> nested d st g -> exists r, p g st = Ok r.

Section Loop.
Context (passes : list (Pass (T := T))) (Hsound : forall p, p ∈ passes -> SoundPass p).

Lemma run_passes_sound l g st k st' n : (forall p, p ∈ l -> SoundPass p) -> good [] g st ->
  rfoldM (fun acc (p : Pass (T := T)) => let* '(st, m) := p g acc.1 in Ok (st, if (m : bool) then acc.2 + 1 else acc.2)) l (st, k) = Ok (st', n) ->
  good [] g st' /\ shrinks st st' /\ simulates g st st'.
Proof.
  revert st k. induction l as [|p l IH]; intros st k Hl G H; simpl in H.
  { injection H as -> _. split_and!; [done|apply shrinks_refl|apply simulates_refl]. }
  destruct (p g st) as [[st1 m]|e] eqn:E; [|done].
  destruct (Hl p (list_elem_of_here _ _) [] g st st1 m G E) as (W1 & S1 & R1).
  destruct (IH st1 _ (fun q Hq => Hl q (list_elem_of_further _ _ _ Hq)) (good_shrinks _ _ _ _ _ G W1 S1) H) as (G' & S' & R').
  split_and!; [done|by eapply shrinks_trans|by eapply simulates_trans].
Qed.

Lemma optimize_loop_sound g k st total st' n : good [] g st ->
  optimize_loop passes g k st total = Ok (st', n) -> good [] g st' /\ shrinks st st' /\ simulates g st st'.
Proof using Hsound.
  revert st total. induction k as [|k IH]; intros st total G H; simpl in H.
  { injection H as -> _. split_and!; [done|apply shrinks_refl|apply simulates_refl]. }
  destruct (run_passes passes g st) as [[st1 c]|e] eqn:E; [|done]. simpl in H.
  destruct (run_passes_sound passes g st 0 st1 c Hsound G E) as (G1 & S1 & R1).
  destruct (c =? 0); [by injection H as -> _|].
  destruct (IH _ _ G1 H) as (G' & S' & R').
  split_and!; [done|by eapply shrinks_trans|by eapply simulates_trans].
Qed.

Lemma optimize_sound g k st st' n : good [] g st -> optimize passes k g st = Ok (st', n) ->
  good [] g st' /\ shrinks st st' /\ simulates g st st'.
Proof using Hsound.
  intros G H. unfold optimize in H. destruct (optimize_loop _ _ _ _ _) as [[st1 c]|e] eqn:E; [|done]. simpl in H.
  destruct (optimize_loop_sound g k st 0 st1 c G E) as (G1 & S1 & R1).
  destruct (topological_sort g st1) as [st2|e] eqn:Es; [|done]. injection H as <- _.
  destruct (sort_sound [] g st1 st2 G1 Es) as (W2 & S2 & R2).
  split_and!; [by eapply good_shrinks|by eapply shrinks_trans|by eapply simulates_trans].
Qed.

Section Total.
Context (d : nat) (Htotal : forall p, p ∈ passes -> TotalPass d p).

Lemma run_passes_total l g st k : (forall p, p ∈ l -> SoundPass p /\ TotalPass d p) -> good [] g st -> nested d st g ->
  exists r, rfoldM (fun acc (p : Pass (T := T)) => let* '(st, m) := p g acc.1 in Ok (st, if (m : bool) then acc.2 + 1 else acc.2)) l (st, k) = Ok r.
Proof.
  revert st k. induction l as [|p l IH]; intros st k Hl G Hn; simpl; [by eexists|].
  destruct (Hl p (list_elem_of_here _ _)) as [Hs Ht]. destruct (Ht [] g st G Hn) as [[st1 m] E]. rewrite E. simpl.
  destruct (Hs [] g st st1 m G E) as (W1 & S1 & R1).
  apply IH; [intros q Hq; apply Hl; by right|by eapply good_shrinks|by eapply nested_shrinks].
Qed.

Lemma optimize_loop_total g k st total : good [] g st -> nested d st g ->
  exists r, optimize_loop passes g k st total = Ok r.
Proof using Hsound Htotal.
  revert st total. induction k as [|k IH]; intros st total G Hn; simpl; [by eexists|].
  destruct (run_passes_total passes g st 0) as [[st1 c] E]; [by auto|done|done|].
  change (run_passes passes g st = Ok (st1, c)) in E. rewrite E. simpl.
  destruct (run_passes_sound passes g st 0 st1 c Hsound G E) as (G1 & S1 & R1).
  destruct (c =? 0); [by eexists|]. apply IH; [done|by eapply nested_shrinks].
Qed.

Lemma optimize_total g k st : good [] g st -> nested d st g -> exists r, optimize passes k g st = Ok r.
Proof using Hsound Htotal.
  intros G Hn. unfold optimize. destruct (optimize_loop_total g k st 0 G Hn) as [[st1 c] E]. rewrite E. simpl.
  destruct (optimize_loop_sound g k st 0 st1 c G E) as (G1 & S1 & R1).
  destruct (sort_total (good_wf _ _ _ G1) g (good_ordered _ _ _ G1)) as [st2 ->]. by eexists.
Qed.
End Total.
End Loop.

End Optimize.
End Optimize.
