(* ===== verification/JitAlgebra.v ===== *)
(** * Algebraic simplification and reshape elimination

    Both passes bypass a node: every read of its outputs goes to one of its
    inputs, and the node is removed.  That keeps the runs whose values are as
    declared if the kernels obey the laws of [AlgebraLaws]. *)

From stdpp Require Import base list numbers strings gmap.
From S2P Require Import Prelude DType JitOps JitGraph JitFlow JitExec JitMeaning JitWf JitEdit JitSort JitPreserve JitPasses JitDce JitOptimize.

Module Algebra.
Import Jit Flow Exec Meaning Wf Edit GraphSort Preserve Passes Contract Optimize.

(** What the kernels of the simplified operations promise. *)
Class AlgebraLaws (T : Type) `{!Kernels T, !ConstantTests T, !Regular T} := {
  law_single dev op a xs ys : op ∈ [OpType.Add; OpType.Sub; OpType.Mul; OpType.Div; OpType.Reshape] ->
    eval_op dev op a xs = Ok ys -> (length ys <= 1)%nat;
  law_zeros_r dev op a x z xs y : op ∈ [OpType.Add; OpType.Sub] -> all_zeros z = true -> regular x ->
    eval_op dev op a (x :: place dev z :: xs) = Ok [y] -> shape_of y = shape_of x -> dtype_of y = dtype_of x -> y = x;
  law_zeros_l dev a x z xs y : all_zeros z = true -> regular x ->
    eval_op dev OpType.Add a (place dev z :: x :: xs) = Ok [y] -> shape_of y = shape_of x -> dtype_of y = dtype_of x -> y = x;
  law_ones_r dev op a x z xs y : op ∈ [OpType.Mul; OpType.Div] -> all_ones z = true -> regular x ->
    eval_op dev op a (x :: place dev z :: xs) = Ok [y] -> shape_of y = shape_of x -> dtype_of y = dtype_of x -> y = x;
  law_ones_l dev a x z xs y : all_ones z = true -> regular x ->
    eval_op dev OpType.Mul a (place dev z :: x :: xs) = Ok [y] -> shape_of y = shape_of x -> dtype_of y = dtype_of x -> y = x;
  law_reshape dev a x xs y : shape_of x = default [] (vec_attrs a !! "shape") ->
    eval_op dev OpType.Reshape a (x :: xs) = Ok [y] -> y = x;
  law_reshape_twice dev a b x xs ys y zs : eval_op dev OpType.Reshape a (x :: xs) = Ok [y] ->
    eval_op dev OpType.Reshape b (y :: ys) = Ok zs -> eval_op dev OpType.Reshape b (x :: ys) = Ok zs
}.

Section Algebra.
Context {T : Type} `{!Kernels T, !ConstantTests T, !Regular T}.

(** ** Bypassing a node *)

Lemma replace_value_id g a b (st : Heap T) v : id (value (replace_value g a b st) v) = id (value st v).
Proof.
  unfold replace_value. destruct (get_value st g a) as [o|]; [|done]. destruct (get_value st g b) as [w|]; [|done].
  transitivity (id (value (clear_uses o (foldl (redirect_consumer a w) st (live_uses st o))) v)); [done|].
  set (st1 := foldl _ st _). etrans; [exact (rw_id (rewired_uses o (with_uses []) st1 (fun _ => eq_refl)) v)|].
  apply rw_id, rewired_foldl. intros s c _. apply rewired_redirect.
Qed.

Lemma replace_outputs_all g i vs (st : Heap T) :
  foldl (fun st o => replace_value g (id (value st o)) i st) st vs =
  replace_all g (map (fun o => (id (value st o), i)) vs) st.
Proof.
  revert st. induction vs as [|v vs IH]; intros st; [done|]. cbn [foldl map replace_all]. rewrite IH.
  unfold replace_all. cbn [fst snd]. f_equal. apply map_ext. intros o. by rewrite replace_value_id.
Qed.

Section Bypass.
Context {pending : list Z} {st : Heap T} (W : wf pending st) (g n v : Z).
Context (Hn : n ∈ nodes (graph st g)) (Hv : v ∈ inputs (node st n)).

Lemma input_not_output o : ordered (program st g) -> o ∈ outputs (node st n) -> id (value st v) <> id (value st o).
Proof.
  intros Hord%(ordered_in_order W) Ho E. destruct (w_out _ _ W _ _ _ Hn Ho) as (Hk & Hp & _).
  assert (v = o) as -> by exact (known_inj g v o (proj1 (w_in _ _ W g n v Hn Hv)) Hk E).
  apply list_elem_of_split in Hn as (s1 & s2 & E'). eapply (NoDup_app s1 (n :: s2)); [|eapply Hord; [exact E'|]|left].
  - rewrite <-E'. by eapply w_nodup.
  - apply list_elem_of_omap. exists o. split; [done|]. unfold node_of. rewrite Hp, (w_alive _ _ W g n); [done|].
    rewrite E'. apply elem_of_app. right; left.
Qed.

Lemma output_replaceable o : ordered (program st g) -> o ∈ outputs (node st n) ->
  replaceable st g (id (value st o), id (value st v)).
Proof.
  intros Hord Ho. exists o, v. destruct (w_in _ _ W _ _ _ Hn Hv) as [Hk _].
  destruct (w_out _ _ W _ _ _ Hn Ho) as (Hko & _). split_and!; [done|done|done|done| |].
  - intros E. by eapply input_not_output.
  - intros q. by eapply w_in_live.
Qed.

Lemma input_behind o : ordered (program st g) -> o ∈ outputs (node st n) ->
  behind (program st g) (id (value st o)) (id (value st v)).
Proof.
  intros Hord Ho. destruct (w_out _ _ W _ _ _ Hn Ho) as (Hko & _). split.
  2:{ intros H. destruct H. apply elem_of_produced_ids. by exists n, o. }
  intros es1 es2 E Hin. destruct (decide (id (value st v) ∈ produced (program st g))) as [Hp|]; [left|by right].
  pose proof E as E1. unfold program in E1. apply fmap_app_inv in E1 as (s1 & s2 & -> & -> & Es).
  apply elem_of_produced_ids in Hin as (m & u & Hm & Hu & Eu).
  assert (m ∈ nodes (graph st g)) as Hmg by (rewrite Es; apply elem_of_app; by left).
  assert (o = u) as <- by exact (known_inj g o u Hko (proj1 (w_out _ _ W g m u Hmg Hu)) Eu).
  assert (m = n) as -> by by eapply (outputs_unique W g).
  apply list_elem_of_split in Hm as (a & b & ->). rewrite fmap_app, produced_app, elem_of_app. left.
  eapply (Hord _ (node_eqn st n)); [|by apply (list_elem_of_fmap_2 (fun v => id (value st v)))|done].
  rewrite E, fmap_app, <-app_assoc. done.
Qed.

(** Reads of the node's outputs are reads of [v], and nothing reads the node. *)
Lemma bypass_edit (Q : gmap string T -> Prop) :
  ordered (program st g) ->
  (forall fwd target env0 env o, single env0 (program st g) ->
    valuation (node_fun fwd g target) env0 (program st g) env -> Q env ->
    o ∈ outputs (node st n) -> is_Some (env !! id (value st o)) -> env !! id (value st v) = env !! id (value st o)) ->
  let st' := replace_node_with_value g n (id (value st v)) st in
  wf (n :: pending) st' /\ shrinks st st' /\ (forall h, h <> g -> same_graph st st' h) /\ transfers Q st st' g.
Proof.
  intros Hord Heq st'.
  set (ps := map (fun o => (id (value st o), id (value st v))) (outputs (node st n))).
  assert (st' = remove_nodes g [n] (replace_all g ps st)) as ->.
  { unfold st', replace_node_with_value. by rewrite replace_outputs_all. }
  assert (forall p, p ∈ ps -> exists o, o ∈ outputs (node st n) /\ p = (id (value st o), id (value st v))) as Hps.
  { intros p (o & -> & Ho)%list_elem_of_fmap. by exists o. }
  assert (forall p, p ∈ ps -> p.2 ∉ ps.*1) as Hfresh.
  { intros p (o & Ho & ->)%Hps (q & E & (u & Hu & ->)%Hps)%list_elem_of_fmap. by eapply input_not_output. }
  assert (forall p, p ∈ ps -> replaceable st g p) as Hrep by (intros p (o & Ho & ->)%Hps; by apply output_replaceable).
  destruct (replace_all_relinks pending ps st g W Hrep) as (W1 & R & Hs1 & _).
  set (st1 := replace_all g ps st) in *.
  assert (shrinks st st1) as S1.
  { apply (replace_all_order pending); [done|done|]. intros p (o & Ho & ->)%Hps. by apply input_behind. }
  assert (unread st1 g [n]) as U.
  { apply (replaced_unread pending); [done|done|done| |].
    - intros d ->%list_elem_of_singleton. done.
    - intros d o ->%list_elem_of_singleton Ho. apply list_elem_of_fmap. exists (id (value st o), id (value st v)).
      split; [done|]. by apply (list_elem_of_fmap_2 (fun o => (id (value st o), id (value st v)))). }
  split_and!.
  - exact (remove_nodes_invariant pending st1 g [n] W1 U).
  - eapply shrinks_trans; [exact S1|exact (remove_nodes_shrinks pending st1 g [n] W1 U)].
  - intros h Hh. eapply same_graph_trans; [by apply Hs1|].
    by apply (remove_nodes_keeps pending st1 g [n] W1 U).
  - intros fwd target env0 env Hs Hval HQ.
    destruct (replace_all_solution pending ps st g fwd target env0 env W Hrep Hval) as [Hval1 Hout1].
    { intros p (o & Ho & ->)%Hps Hp. by eapply Heq. }
    destruct (remove_nodes_transfers pending st1 g [n] W1 U fwd target env0 env) as (env' & ? & ? & Hout2); [|done|done|].
    + destruct (replace_all_relinks pending ps st g W Hrep) as (_ & _ & _ & Hpr & _). fold st1 in Hpr. rewrite Hpr.
      unfold single. by rewrite produced_rename.
    + exists env'. split_and!; [done|done|]. intros ts Hr. by apply Hout2, Hout1.
Qed.
End Bypass.
(** ** Algebraic simplification *)

Lemma node_fun_eval fwd g target op a gs k (xs : list T) : has_attr a "fusion_kind" = false ->
  op ∈ [OpType.Add; OpType.Sub; OpType.Mul; OpType.Div; OpType.Reshape] ->
  node_fun fwd g target (op, a, gs, k) xs = eval_op target op a xs.
Proof.
  intros Ha Hop. destruct gs as [[th el] bd]. unfold node_fun, node_outputs. cbn [fst snd]. rewrite Ha.
  rewrite !elem_of_cons, elem_of_nil in Hop. by destruct Hop as [->|[->|[->|[->|[->|[]]]]]]; rewrite decide_True.
Qed.

Section Value.
Context {pending : list Z} {st : Heap T} {g : Z} (G : good pending g st).
Context {fwd : Forward (T := T)} {target : Device} {env0 env : gmap string T}.
Context (Hval : valuation (node_fun fwd g target) env0 (program st g) env).

(** The equation of a node, on values. *)
Lemma node_holds n : n ∈ nodes (graph st g) -> exists xs ys,
  Forall2 (fun v x => env !! id (value st v) = Some x) (inputs (node st n)) xs /\
  node_fun fwd g target (node_op (node st n), length (outputs (node st n))) xs = Ok ys /\
  forall k o, outputs (node st n) !! k = Some o -> env !! id (value st o) = ys !! k.
Proof.
  intros Hn. destruct (proj1 Hval (node_eqn st n)) as (xs & ys & Hx & HF & Hy); [by apply list_elem_of_fmap_2|].
  exists xs, ys. split_and!; [|done|].
  - apply mapM_Some in Hx. unfold node_eqn in Hx. cbn [e_ins] in Hx. by apply Forall2_fmap_l in Hx.
  - intros k o Ho. apply Hy. by apply (list_lookup_fmap_Some_2 (fun v => id (value st v))).
Qed.

(** The outputs of a node whose kernel gives at most one result. *)
Lemma node_single `{!AlgebraLaws T} n o y : n ∈ nodes (graph st g) ->
  op_type (node st n) ∈ [OpType.Add; OpType.Sub; OpType.Mul; OpType.Div; OpType.Reshape] ->
  o ∈ outputs (node st n) -> env !! id (value st o) = Some y -> head (outputs (node st n)) = Some o /\
  exists xs, Forall2 (fun v x => env !! id (value st v) = Some x) (inputs (node st n)) xs /\
    eval_op target (op_type (node st n)) (attrs (node st n)) xs = Ok [y].
Proof.
  intros Hn Hop Ho Hy. destruct (node_holds n Hn) as (xs & ys & Hx & HF & Hys).
  unfold node_op in HF. rewrite node_fun_eval in HF; [|by apply (good_unfused _ _ _ G)|done].
  pose proof (law_single _ _ _ _ _ Hop HF) as Hl. apply list_elem_of_lookup in Ho as [k Hk].
  rewrite (Hys k o Hk) in Hy. pose proof (lookup_lt_Some _ _ _ Hy) as Hlt. assert (k = O) as -> by lia.
  split; [by destruct (outputs (node st n))|]. exists xs. split; [done|].
  destruct ys as [|y' [|]]; cbn in *; [lia| |lia]. by injection Hy as ->.
Qed.

Lemma constant_value n v t : n ∈ nodes (graph st g) -> node_of st v = Some n -> known st g v ->
  op_type (node st n) = OpType.Constant -> env !! id (value st v) = Some t ->
  t = place target (get_tensor_attr (attrs (node st n)) "value").
Proof.
  intros Hn Hv Hk Hop Ht. destruct (w_prod _ _ (good_wf _ _ _ G) _ _ _ Hk Hv) as [Ho _].
  destruct (node_holds n Hn) as (xs & ys & _ & HF & Hys).
  apply list_elem_of_lookup in Ho as [k Hk']. rewrite (Hys k v Hk') in Ht.
  unfold node_op, node_fun, node_outputs in HF. cbn [fst snd] in HF.
  rewrite (good_unfused _ _ _ G n Hn), Hop in HF.
  destruct (has_attr _ "value"); rewrite decide_True in HF by done; injection HF as <-; [|done].
  destruct k; [by injection Ht as <-|done].
Qed.

Lemma declared_output n o y : conforms st g env -> n ∈ nodes (graph st g) -> o ∈ outputs (node st n) ->
  env !! id (value st o) = Some y -> shape_of y = shape (value st o) /\ dtype_of y = dtype (value st o).
Proof.
  intros Hc Hn Ho Hy. destruct (w_out _ _ (good_wf _ _ _ G) _ _ _ Hn Ho) as (Hk & _). by destruct (Hc o y Hk Hy) as [_ ?].
Qed.

End Value.

(** The tests of the operands, as [binary_operand] makes them. *)
Definition const_operand (st : Heap T) (v : Z) (test : Node T -> bool) : bool :=
  match node_of st v with Some p => test (node st p) | None => false end.

Lemma binary_operand_cases (st : Heap T) n v : binary_operand false st n = Some v -> exists i0 i1 rest out outs,
  inputs (node st n) = i0 :: i1 :: rest /\ outputs (node st n) = out :: outs /\
  op_type (node st n) ∈ [OpType.Add; OpType.Sub; OpType.Mul; OpType.Div; OpType.Reshape] /\
  shape (value st v) = shape (value st out) /\ dtype (value st v) = dtype (value st out) /\
  ((v = i0 /\ op_type (node st n) ∈ [OpType.Add; OpType.Sub] /\ const_operand st i1 is_all_zeros = true) \/
   (v = i1 /\ op_type (node st n) = OpType.Add /\ const_operand st i0 is_all_zeros = true) \/
   (v = i0 /\ op_type (node st n) ∈ [OpType.Mul; OpType.Div] /\ const_operand st i1 is_all_ones = true) \/
   (v = i1 /\ op_type (node st n) = OpType.Mul /\ const_operand st i0 is_all_ones = true)).
Proof.
  unfold binary_operand. intros H. destruct (inputs (node st n)) as [|i0 [|i1 rest]]; [done|done|].
  destruct (outputs (node st n)) as [|out outs]; [done|]. exists i0, i1, rest, out, outs.
  destruct (negb _ && negb _); [done|].
  destruct (op_type (node st n)) eqn:Eop; try done; cbn [andb] in H;
    repeat match type of H with
    | (if ?b then _ else _) = _ => let E := fresh "E" in destruct b eqn:E
    end; try done; injection H as <-;
    match goal with E : (_ && _) = true |- _ => apply andb_true_iff in E as [Hz Hs] end;
    apply andb_true_iff in Hs as [Hs Hd]; apply bool_decide_eq_true in Hs, Hd;
    (split_and!; [done|done|set_solver|done|done|]).
  - left. split_and!; [done|set_solver|]. done.
  - right; left. split_and!; [done|done|]. done.
  - left. split_and!; [done|set_solver|]. done.
  - right; right; left. split_and!; [done|set_solver|]. done.
  - right; right; right. split_and!; [done|done|]. done.
  - right; right; left. split_and!; [done|set_solver|]. done.
Qed.

Lemma binary_operand_input (st : Heap T) n v : binary_operand false st n = Some v -> v ∈ inputs (node st n).
Proof. intros (i0 & i1 & rest & out & outs & -> & _ & _ & _ & _ & H)%binary_operand_cases. set_solver. Qed.

Section Operand.
Context `{!AlgebraLaws T} {pending : list Z} {st : Heap T} {g : Z} (G : good pending g st).
Context {fwd : Forward (T := T)} {target : Device} {env0 env : gmap string T}.
Context (Hval : valuation (node_fun fwd g target) env0 (program st g) env) (Hc : conforms st g env).

(** The value of an operand that a constant produces and passes [test]. *)
Lemma operand_constant n v t (test : T -> bool) : n ∈ nodes (graph st g) -> v ∈ inputs (node st n) ->
  const_operand st v (fun N => bool_decide (op_type N = OpType.Constant) && test (get_tensor_attr (attrs N) "value")) = true ->
  env !! id (value st v) = Some t -> exists z, test z = true /\ t = place target z.
Proof.
  intros Hn Hv Hz Ht. unfold const_operand in Hz. destruct (node_of st v) as [p|] eqn:Ep; [|done].
  apply andb_true_iff in Hz as [Hop Hz]. apply bool_decide_eq_true in Hop.
  destruct (w_in _ _ (good_wf _ _ _ G) _ _ _ Hn Hv) as [Hk _].
  pose proof (w_in_live _ _ (good_wf _ _ _ G) _ _ _ _ Hn Hv Ep) as Hp.
  eexists. split; [exact Hz|]. by eapply (constant_value G Hval p v).
Qed.

Lemma binary_operand_value n v o : n ∈ nodes (graph st g) -> binary_operand false st n = Some v ->
  o ∈ outputs (node st n) -> is_Some (env !! id (value st o)) -> env !! id (value st v) = env !! id (value st o).
Proof.
  intros Hn Hb Ho [y Hy]. pose proof (binary_operand_input st n v Hb) as Hvin.
  apply binary_operand_cases in Hb as (i0 & i1 & rest & out & outs & Ei & Eo & Hop & Hsh & Hdt & Hcase).
  destruct (node_single G Hval n o y Hn Hop Ho Hy) as (Hh & xs & Hx & Hev).
  rewrite Eo in Hh. injection Hh as ->. destruct (declared_output G n o y Hc Hn Ho Hy) as [Hys Hyd].
  assert (forall i, i ∈ inputs (node st n) -> known st g i) as Hk by (intros i Hi; by eapply (w_in _ _ (good_wf _ _ _ G))).
  assert (forall i x, i ∈ inputs (node st n) -> env !! id (value st i) = Some x -> v = i ->
    regular x /\ shape_of y = shape_of x /\ dtype_of y = dtype_of x) as Hv.
  { intros i x Hi Hxi ->. destruct (Hc i x (Hk i Hi) Hxi) as (? & Hs & Hd). split_and!; [done|congruence|congruence]. }
  rewrite Ei in Hx. inversion Hx as [|? x0 ? xs0 H0 Hx']; subst. inversion Hx' as [|? x1 ? xr H1 _]; subst.
  assert (i0 ∈ inputs (node st n) /\ i1 ∈ inputs (node st n)) as [Hi0 Hi1] by (rewrite Ei; set_solver).
  rewrite Hy. destruct Hcase as [(-> & Ho' & Hz)|[(-> & Ho' & Hz)|[(-> & Ho' & Hz)|(-> & Ho' & Hz)]]].
  - destruct (operand_constant n i1 x1 all_zeros Hn Hi1 Hz H1) as (z & Hzz & ->).
    destruct (Hv i0 x0 Hi0 H0 eq_refl) as (? & ? & ?). rewrite H0. f_equal. symmetry. by eapply law_zeros_r.
  - destruct (operand_constant n i0 x0 all_zeros Hn Hi0 Hz H0) as (z & Hzz & ->). rewrite Ho' in Hev.
    destruct (Hv i1 x1 Hi1 H1 eq_refl) as (? & ? & ?). rewrite H1. f_equal. symmetry. by eapply law_zeros_l.
  - destruct (operand_constant n i1 x1 all_ones Hn Hi1 Hz H1) as (z & Hzz & ->).
    destruct (Hv i0 x0 Hi0 H0 eq_refl) as (? & ? & ?). rewrite H0. f_equal. symmetry. by eapply law_ones_r.
  - destruct (operand_constant n i0 x0 all_ones Hn Hi0 Hz H0) as (z & Hzz & ->). rewrite Ho' in Hev.
    destruct (Hv i1 x1 Hi1 H1 eq_refl) as (? & ? & ?). rewrite H1. f_equal. symmetry. by eapply law_ones_l.
Qed.
End Operand.

(** What the loops of both passes keep; [removed] are the nodes still held. *)
Record progress (pending : list Z) (g : Z) (st0 st : Heap T) (removed : list Z) : Prop := mkProgress {
  pr_good : good (removed ++ pending) g st; pr_shrinks : shrinks st0 st; pr_simulates : simulates g st0 st
}.

Lemma progress_start pending g st : good pending g st -> progress pending g st st [].
Proof. intros G. split; [done|apply shrinks_refl|apply simulates_refl]. Qed.

Lemma progress_bypass pending g st0 st removed n v : progress pending g st0 st removed ->
  n ∈ nodes (graph st g) -> v ∈ inputs (node st n) ->
  (forall fwd target env0 env o, valuation (node_fun fwd g target) env0 (program st g) env -> conforms st g env ->
    o ∈ outputs (node st n) -> is_Some (env !! id (value st o)) -> env !! id (value st v) = env !! id (value st o)) ->
  progress pending g st0 (replace_node_with_value g n (id (value st v)) st) (n :: removed).
Proof.
  intros [G S R] Hn Hv Heq.
  destruct (bypass_edit (good_wf _ _ _ G) g n v Hn Hv (conforms st g) (good_ordered _ _ _ G)) as (W1 & S1 & Hs1 & Ht1).
  { intros. by eapply Heq. }
  split; [by eapply good_shrinks|by eapply shrinks_trans|]. eapply simulates_trans; [exact S|exact R|].
  by eapply transfers_simulates.
Qed.

Lemma progress_end pending g st0 st removed : progress pending g st0 st removed ->
  wf pending (destroy_nodes removed st) /\ shrinks st0 (destroy_nodes removed st) /\
  simulates g st0 (destroy_nodes removed st).
Proof.
  intros [G S R]. pose proof (good_wf _ _ _ G) as W. pose proof (destroy_shrinks removed pending st W) as S1.
  split_and!; [by apply destroy_wf|by eapply shrinks_trans|]. eapply simulates_trans; [exact S|exact R|].
  intros d xs env ts _ Hr. by apply (destroy_refines removed pending st W).
Qed.

Lemma simplify_node_progress `{!AlgebraLaws T} pending g st0 acc n :
  progress pending g st0 acc.1 acc.2 ->
  progress pending g st0 (simplify_node false g acc n).1 (simplify_node false g acc n).2.
Proof.
  destruct acc as [st removed]. cbn [fst snd]. intros P. unfold simplify_node.
  destruct (decide (n ∈ nodes (graph st g))) as [Hn|]; [|done].
  unfold simplify_operand. destruct (binary_operand false st n) as [v|] eqn:E; [|done].
  apply progress_bypass; [done|done|by apply binary_operand_input|].
  intros fwd target env0 env o Hval Hc Ho. by eapply (binary_operand_value (pr_good _ _ _ _ _ P) Hval Hc).
Qed.

#[export] Instance algebraic_sound `{!AlgebraLaws T} : SoundPass (algebraic_simplification (T := T) false).
Proof.
  intros pending g st st' m G H. unfold algebraic_simplification in H.
  destruct (foldl _ _ _) as [st1 removed] eqn:E. injection H as <- _. apply (progress_end pending g).
  enough (forall l acc, progress pending g st acc.1 acc.2 ->
    progress pending g st (foldl (simplify_node false g) acc l).1 (foldl (simplify_node false g) acc l).2) as Hl.
  { specialize (Hl (nodes (graph st g)) (st, []) (progress_start _ _ _ G)). by rewrite E in Hl. }
  intros l. induction l as [|n l IH]; intros acc P; [done|]. cbn [foldl]. by apply IH, simplify_node_progress.
Qed.

Lemma algebraic_returns g (st : Heap T) unsafe : exists r, algebraic_simplification unsafe g st = Ok r.
Proof. unfold algebraic_simplification. destruct (foldl _ _ _). by eexists. Qed.

#[export] Instance algebraic_total d unsafe : TotalPass d (algebraic_simplification (T := T) unsafe).
Proof. intros pending g st _ _. apply algebraic_returns. Qed.

End Algebra.
End Algebra.
