(* ===== verification/JitReshape.v ===== *)
(** * Reshape elimination

    A reshape to the shape its input has is bypassed like a simplified node; a
    reshape of a reshape reads the input of the first one instead.  Redirecting a
    single slot is the one edit of its own here: [replace_input_at]. *)

From stdpp Require Import base list numbers strings gmap.
From S2P Require Import Prelude DType JitOps JitGraph JitFlow JitExec JitMeaning JitWf JitEdit JitSort JitPreserve JitPasses JitDce JitOptimize JitAlgebra.

Module Reshape.
Import Jit Flow Exec Meaning Wf Edit GraphSort Preserve Passes Contract Optimize Algebra.

Section Reshape.
Context {T : Type} `{!Kernels T, !ConstantTests T, !Regular T}.

(** ** Redirecting the only input of a node *)

Section Slot.
Context {pending : list Z} {st : Heap T} (W : wf pending st) (g n u w : Z).
Context (Hn : n ∈ nodes (graph st g)) (Hin : inputs (node st n) = [u]) (Hw : known st g w) (Hne : u <> w).
Context (Hlive : forall q, node_of st w = Some q -> q ∈ nodes (graph st g)).

Let st' := replace_input_at n 0 u w st.

Lemma slot_rewired : rewired st st'.
Proof. apply rewired_replace_input_at. Qed.

Lemma slot_inputs m : inputs (node st' m) = if decide (m = n) then [w] else inputs (node st m).
Proof. unfold st'. rewrite inputs_replace_input_at. case_decide; [subst; by rewrite Hin|done]. Qed.

Lemma slot_uses v m : m ∈ uses (value st' v) -> m ∈ live_uses st v /\ (m <> n \/ v <> u) \/ m ∉ live_uses st v /\ v <> u /\ m ∈ uses (value st v) \/ m = n /\ v = w.
Proof.
  unfold st'. rewrite uses_replace_input_at by (by eapply known_Some). rewrite elem_of_app, elem_of_live_uses.
  intros [H|H].
  - case_decide; [apply list_elem_of_filter in H as [[? ?] ?]; left; tauto|].
    destruct (alive st m); [left; tauto|right; left]. naive_solver.
  - right; right. case_decide; [by apply list_elem_of_singleton in H|inversion H].
Qed.

Lemma slot_uses_in v m : alive st m = true -> m ∈ uses (value st v) -> (m <> n \/ v <> u) -> m ∈ uses (value st' v).
Proof.
  intros Ha Hm Hor. unfold st'. rewrite uses_replace_input_at by (by eapply known_Some). rewrite elem_of_app. left.
  case_decide; [|done]. apply list_elem_of_filter. naive_solver.
Qed.

Lemma slot_uses_new : n ∈ uses (value st' w).
Proof.
  unfold st'. rewrite uses_replace_input_at by (by eapply known_Some). rewrite elem_of_app, (decide_True (P := w = w)) by done.
  right. by left.
Qed.

Lemma slot_wf : wf pending st'.
Proof.
  pose proof slot_rewired as R.
  assert (forall h, graph st' h = graph st h) as Hg by apply (rw_graph R).
  assert (forall h v, known st' h v <-> known st h v) as Hk by apply (rw_known R).
  split.
  - intros h. rewrite Hg. by eapply w_nodup.
  - intros h m. rewrite Hg, (rw_alive R). by eapply w_alive.
  - intros h h' m. rewrite !Hg. by eapply w_own.
  - intros h m. rewrite Hg. by eapply w_pending.
  - intros h i v. rewrite Hg, (rw_id R), (rw_values _ _ R). by eapply w_val.
  - intros h h' i j v. rewrite !Hg. by eapply w_vown.
  - intros h m v. rewrite Hg, slot_inputs, Hk. intros Hm. case_decide as E.
    + subst m. intros ->%list_elem_of_singleton. assert (h = g) as -> by by eapply w_own.
      split; [done|apply slot_uses_new].
    + intros Hv. destruct (w_in _ _ W _ _ _ Hm Hv) as [? ?]. split; [done|].
      apply slot_uses_in; [by eapply w_alive|done|by left].
  - intros h m v p. rewrite Hg, slot_inputs, (rw_node_of R). intros Hm. case_decide as E.
    + subst m. intros ->%list_elem_of_singleton. assert (h = g) as -> by by eapply w_own. apply Hlive.
    + by eapply w_in_live.
  - intros h m v. rewrite Hg, (rw_outputs R), Hk, (rw_producer R), (rw_id R), (rw_leaf_id R). by eapply w_out.
  - intros h m. rewrite Hg, (rw_outputs R). by eapply w_out_nodup.
  - intros h v. rewrite Hg, Hk. by eapply w_gin.
  - intros h v. rewrite Hg, Hk, (rw_node_of R). by eapply w_gout.
  - intros h v p. rewrite Hg, Hk, (rw_node_of R), (rw_outputs R). by eapply w_prod.
  - intros h v m. rewrite Hg, Hk, elem_of_live_uses, (rw_alive R), slot_inputs. intros Hkv [Ha Hm].
    apply slot_uses in Hm as [[Hm Hor]|[(Hm & Hvu & Hu)|[-> ->]]].
    + destruct (w_use _ _ W _ _ _ Hkv Hm) as [Hmn Hv]. split; [done|]. case_decide as E; [|done]. subst m.
      rewrite Hin in Hv. apply list_elem_of_singleton in Hv. destruct Hor; done.
    + destruct Hm. by apply elem_of_live_uses.
    + assert (h = g) as -> by by eapply known_own. split; [done|]. rewrite decide_True by done. by left.
Qed.

Lemma slot_eqn m : node_eqn st' m =
  if decide (m = n) then mkEqn (e_op (node_eqn st n)) [id (value st w)] (e_outs (node_eqn st n)) else node_eqn st m.
Proof.
  pose proof slot_rewired as R. unfold node_eqn. rewrite (rw_node_op R), (rw_outputs R), slot_inputs.
  case_decide; [subst m|]; f_equal; try exact (rw_value_ids R _). cbn. by rewrite (rw_id R).
Qed.

Lemma slot_produced ms : produced (map (node_eqn st') ms) = produced (map (node_eqn st) ms).
Proof.
  unfold produced. rewrite !map_map. f_equal. apply map_ext. intros m. rewrite slot_eqn. by case_decide; subst.
Qed.

Lemma slot_others h : h <> g -> same_graph st st' h.
Proof.
  intros Hh. pose proof slot_rewired as R. unfold same_graph, program, in_ids, out_ids.
  rewrite (rw_graph R), !(rw_value_ids R). split_and!; [|done|done|by repeat split].
  apply map_ext_in. intros m Hm. apply list_elem_of_In in Hm. rewrite slot_eqn, decide_False; [done|].
  intros ->. by eapply Hh, w_own.
Qed.

(** The order is kept if [w] is read by the producer of [u], which comes before. *)
Lemma slot_order p : node_of st u = Some p -> w ∈ inputs (node st p) ->
  ordered (program st g) -> ordered (program st' g).
Proof.
  intros Hp Hwp Ho es1 e es2 E i Hi Hpr. unfold program in *. rewrite (rw_graph slot_rewired) in *.
  apply fmap_app_inv in E as (s1 & s2 & -> & E2 & Es). destruct s2 as [|m s2]; [done|]. injection E2 as -> ->.
  fold (map (node_eqn st')) in *. rewrite slot_produced in *. rewrite slot_eqn in Hi. case_decide as Em.
  2:{ eapply (Ho _ (node_eqn st m) (map (node_eqn st) s2)); [by rewrite Es, map_app|done|done]. }
  subst m. cbn in Hi. apply list_elem_of_singleton in Hi as ->.
  assert (p ∈ nodes (graph st g)) as Hpg. { eapply w_in_live; [done|exact Hn|rewrite Hin; by left|done]. }
  assert (p ∈ s1) as Hps.
  { eapply (ordered_in_order W g Ho s1 n s2 p); [done|]. apply list_elem_of_omap. exists u. rewrite Hin. split; [by left|done]. }
  apply list_elem_of_split in Hps as (a & b & ->).
  rewrite map_app, produced_app, elem_of_app. left.
  eapply (Ho _ (node_eqn st p) (map (node_eqn st) (b ++ n :: s2))).
  - by rewrite Es, <-app_assoc, map_app.
  - by apply (list_elem_of_fmap_2 (fun v => id (value st v))).
  - done.
Qed.

Lemma slot_shrinks : (ordered (program st g) -> ordered (program st' g)) -> shrinks st st'.
Proof.
  intros Ho. pose proof slot_rewired as R. split.
  - intros h. by rewrite (rw_graph R).
  - apply (rw_value _ _ R).
  - intros h m. by rewrite (rw_graph R).
  - intros h m _. apply (rw_node_op R).
  - intros h m _. rewrite slot_inputs. case_decide; [subst; by rewrite Hin|done].
  - intros h. unfold in_ids. by rewrite (rw_graph R), (rw_value_ids R).
  - intros h. rewrite (rw_graph R). by repeat split.
  - intros h. destruct (decide (h = g)) as [->|Hh]; [done|by apply same_graph_order, slot_others].
Qed.

(** A solution stays one if the node computes the same from [w]. *)
Lemma slot_transfers (Q : gmap string T -> Prop) :
  (forall fwd target env0 env x ys, valuation (node_fun fwd g target) env0 (program st g) env -> Q env ->
    env !! id (value st u) = Some x ->
    node_fun fwd g target (node_op (node st n), length (outputs (node st n))) [x] = Ok ys ->
    exists x', env !! id (value st w) = Some x' /\
      node_fun fwd g target (node_op (node st n), length (outputs (node st n))) [x'] = Ok ys) ->
  transfers Q st st' g.
Proof.
  intros Hsame fwd target env0 env _ Hv HQ. exists env. split_and!; [|done|].
  2:{ unfold out_ids. by rewrite (rw_graph slot_rewired), (rw_value_ids slot_rewired). }
  unfold program. rewrite (rw_graph slot_rewired). split.
  2:{ intros i. rewrite slot_produced. apply (proj2 Hv). }
  intros e He. apply list_elem_of_fmap in He as (m & -> & Hm). rewrite slot_eqn.
  case_decide as E; [subst m|by apply (proj1 Hv), list_elem_of_fmap_2].
  destruct (proj1 Hv (node_eqn st n)) as (xs & ys & Hx & HF & Hy); [by apply list_elem_of_fmap_2|].
  unfold node_eqn in Hx at 1. cbn [e_ins] in Hx. rewrite Hin in Hx. cbn in Hx.
  destruct (env !! id (value st u)) as [x|] eqn:Ex; [|done]. injection Hx as <-.
  destruct (Hsame fwd target env0 env x ys Hv HQ Ex HF) as (x' & Hx' & HF').
  exists [x'], ys. split_and!; [|done|done]. cbn. by rewrite Hx'.
Qed.
End Slot.

(** ** The pass *)

Context `{!AlgebraLaws T}.

Lemma bypass_reshape pending st g fwd target env0 env n v rest o : good pending g st ->
  valuation (node_fun fwd g target) env0 (program st g) env -> conforms st g env ->
  n ∈ nodes (graph st g) -> op_type (node st n) = OpType.Reshape -> inputs (node st n) = v :: rest ->
  shape (value st v) = default [] (vec_attrs (attrs (node st n)) !! "shape") ->
  o ∈ outputs (node st n) -> is_Some (env !! id (value st o)) -> env !! id (value st v) = env !! id (value st o).
Proof.
  intros G Hval Hc Hn Hop Hi Hs Ho [y Hy].
  destruct (node_single G Hval n o y Hn) as (_ & xs & Hx & Hev); [rewrite Hop; set_solver|done|done|].
  rewrite Hi in Hx. inversion Hx as [|? x ? xr Hx0 _]; subst.
  assert (known st g v) as Hk. { eapply (w_in _ _ (good_wf _ _ _ G)); [exact Hn|]. rewrite Hi. by left. }
  destruct (Hc v x Hk Hx0) as (_ & Hsx & _). rewrite Hx0, Hy. f_equal. symmetry.
  rewrite Hop in Hev. eapply law_reshape; [|exact Hev]. congruence.
Qed.

Lemma merge_progress pending g st0 st removed n u p w rest : progress pending g st0 st removed ->
  n ∈ nodes (graph st g) -> op_type (node st n) = OpType.Reshape -> inputs (node st n) = [u] ->
  node_of st u = Some p -> op_type (node st p) = OpType.Reshape -> inputs (node st p) = w :: rest ->
  progress pending g st0 (replace_input_at n 0 u w st) removed.
Proof.
  intros [G S R] Hn Hop Hi Hp Hopp Hip. pose proof (good_wf _ _ _ G) as W.
  assert (u ∈ inputs (node st n)) as Hun by (rewrite Hi; by left).
  assert (w ∈ inputs (node st p)) as Hwp by (rewrite Hip; by left).
  destruct (w_in _ _ W _ _ _ Hn Hun) as [Hku _].
  pose proof (w_in_live _ _ W _ _ _ _ Hn Hun Hp) as Hpn.
  destruct (w_in _ _ W _ _ _ Hpn Hwp) as [Hkw _]. destruct (w_prod _ _ W _ _ _ Hku Hp) as [Hup _].
  assert (u <> w) as Hne.
  { intros ->. by eapply (input_not_output W g p w Hpn Hwp w (good_ordered _ _ _ G)). }
  assert (forall q, node_of st w = Some q -> q ∈ nodes (graph st g)) as Hl by (intros q; by eapply w_in_live).
  pose proof (slot_wf W g n u w Hn Hi Hkw Hl) as W'.
  pose proof (slot_shrinks W g n u w Hn Hi (slot_order W g n u w Hn Hi p Hp Hwp)) as S'.
  split; [by eapply good_shrinks|by eapply shrinks_trans|]. eapply simulates_trans; [exact S|exact R|].
  eapply transfers_simulates; [exact G|exact W'|exact S'|by apply (slot_others W g n u w Hn Hi)|].
  apply (slot_transfers g n u w Hi). intros fwd target env0 env x ys Hval Hc Hx HF.
  destruct (node_single G Hval p u x Hpn) as (_ & xs & Hxs & Hev); [rewrite Hopp; set_solver|done|done|].
  rewrite Hip in Hxs. inversion Hxs as [|? x0 ? xr Hx0 _]; subst. exists x0. split; [done|].
  unfold node_op in *. rewrite Hop in HF |- *. rewrite Hopp in Hev.
  pose proof (good_unfused _ _ _ G n Hn) as Hf. assert (OpType.Reshape ∈ [OpType.Add; OpType.Sub; OpType.Mul; OpType.Div; OpType.Reshape]) as Hr by set_solver.
  rewrite (node_fun_eval fwd g target OpType.Reshape _ _ _ [x] Hf Hr) in HF.
  rewrite (node_fun_eval fwd g target OpType.Reshape _ _ _ [x0] Hf Hr).
  by eapply law_reshape_twice.
Qed.

Lemma eliminate_reshape_progress pending g st0 acc n : progress pending g st0 acc.1.1 acc.1.2 ->
  op_type (node st0 n) = OpType.Reshape ->
  progress pending g st0 (eliminate_reshape g acc n).1.1 (eliminate_reshape g acc n).1.2.
Proof.
  destruct acc as [[st removed] modified]. cbn [fst snd]. intros P Hop. unfold eliminate_reshape.
  destruct (decide (n ∈ nodes (graph st g))) as [Hn|]; [|done].
  assert (op_type (node st n) = OpType.Reshape) as Hop'.
  { pose proof (s_op _ _ (pr_shrinks _ _ _ _ _ P) g n Hn) as E. injection E as -> _ _. done. }
  pose proof (good_unary _ _ _ (pr_good _ _ _ _ _ P) n Hn Hop') as Hlen.
  destruct (inputs (node st n)) as [|u [|? ?]] eqn:Hi; [done| |cbn in Hlen; lia].
  destruct (decide _) as [Hs|Hs]; cbn [fst snd].
  - apply progress_bypass; [done|done|rewrite Hi; by left|].
    intros fwd target env0 env o Hval Hc Ho. by eapply bypass_reshape; [apply P|..].
  - destruct (node_of st u) as [p|] eqn:Hp; [|done]. destruct (op_type (node st p)) eqn:Hopp; try done.
    destruct (inputs (node st p)) as [|w rest] eqn:Hip; [done|]. cbn [fst snd]. by eapply merge_progress.
Qed.

#[export] Instance reshape_sound : SoundPass (reshape_elimination (T := T)).
Proof.
  intros pending g st st' m G H. unfold reshape_elimination in H.
  destruct (foldl _ _ _) as [[st1 removed] m1] eqn:E. injection H as <- _. apply (progress_end pending g).
  set (l := filter _ _) in E.
  enough (forall l acc, (forall n, n ∈ l -> op_type (node st n) = OpType.Reshape) -> progress pending g st acc.1.1 acc.1.2 ->
    progress pending g st (foldl (eliminate_reshape g) acc l).1.1 (foldl (eliminate_reshape g) acc l).1.2) as Hl.
  { specialize (Hl l (st, [], false)). rewrite E in Hl. apply Hl; [|by apply progress_start].
    by intros n [? _]%list_elem_of_filter. }
  clear E l. intros l. induction l as [|n l IH]; intros acc Hl P; [done|]. cbn [foldl].
  apply IH; [intros k Hk; apply Hl; by right|]. apply eliminate_reshape_progress; [done|]. apply Hl. left.
Qed.

Lemma reshape_returns g (st : Heap T) : exists r, reshape_elimination g st = Ok r.
Proof. unfold reshape_elimination. destruct (foldl _ _ _) as [[? ?] ?]. by eexists. Qed.

#[export] Instance reshape_total d : TotalPass d (reshape_elimination (T := T)).
Proof. intros pending g st _ _. apply reshape_returns. Qed.

End Reshape.
End Reshape.
