(* ===== verification/JitScalar.v ===== *)
(** * Deciding the invariant

    [wf_on] quantifies over the finite maps of a heap, so it is decidable; it
    implies [wf].  With it the examples are checked by evaluation. *)

From stdpp Require Import base list numbers strings gmap.
From S2P Require Import Prelude DType JitOps JitGraph JitFlow JitExec JitMeaning JitWf JitSort JitPasses JitDce JitCse JitOptimize JitAlgebra JitReshape.

Module Check.
Import Jit Flow Exec Meaning Wf GraphSort.

Section Check.
Context {T : Type}.

Definition leaf_on (st : Heap T) (G : Graph T) (i : string) : Prop :=
  i ∈ value_ids st (graph_inputs G) \/ is_Some (constants G !! i) \/
  is_Some (param_leaves G !! i) \/ is_Some (buffer_leaves G !! i).

Definition known_on (st : Heap T) (G : Graph T) (v : Z) : Prop := values G !! id (value st v) = Some v.

Definition from_nodes (ns : list Z) (o : option Z) : Prop := match o with Some p => p ∈ ns | None => True end.

Definition node_on (st : Heap T) (G : Graph T) (n : Z) : Prop :=
  Forall (fun v => known_on st G v /\ n ∈ uses (value st v) /\ from_nodes (nodes G) (node_of st v)) (inputs (node st n)) /\
  Forall (fun v => known_on st G v /\ producer (value st v) = Some n /\ ~ leaf_on st G (id (value st v))) (outputs (node st n)) /\
  NoDup (outputs (node st n)) /\ alive st n = true.

Definition value_on (st : Heap T) (pending : list Z) (G : Graph T) (p : string * Z) : Prop :=
  is_Some (heap_values st !! p.2) /\ id (value st p.2) = p.1 /\
  match node_of st p.2 with
  | Some n => p.2 ∈ outputs (node st n) /\ n ∈ nodes G ++ pending
  | None => True
  end /\
  Forall (fun n => n ∈ nodes G /\ p.2 ∈ inputs (node st n)) (live_uses st p.2).

Definition graph_on (pending : list Z) (st : Heap T) (G : Graph T) : Prop :=
  NoDup (nodes G) /\ Forall (fun n => node_on st G n /\ n ∉ pending) (nodes G) /\
  Forall (value_on st pending G) (map_to_list (values G)) /\
  Forall (known_on st G) (graph_inputs G) /\
  Forall (fun v => known_on st G v /\ from_nodes (nodes G) (node_of st v)) (graph_outputs G).

Definition apart (p q : Z * Graph T) : Prop :=
  p.1 = q.1 \/ (Forall (fun n => n ∉ nodes q.2) (nodes p.2) /\
               Forall (fun x => x.2 ∉ (map_to_list (values q.2)).*2) (map_to_list (values p.2))).

Definition wf_on (pending : list Z) (st : Heap T) : Prop :=
  Forall (fun p => graph_on pending st p.2 /\ Forall (apart p) (map_to_list (heap_graphs st))) (map_to_list (heap_graphs st)).

#[export] Instance leaf_on_dec st G i : Decision (leaf_on st G i).
Proof. unfold leaf_on. apply _. Defined.
#[export] Instance known_on_dec st G v : Decision (known_on st G v).
Proof. unfold known_on. apply _. Defined.
#[export] Instance from_nodes_dec ns o : Decision (from_nodes ns o).
Proof. destruct o; cbn; apply _. Defined.
#[export] Instance node_on_dec st G n : Decision (node_on st G n).
Proof. unfold node_on. apply _. Defined.
#[export] Instance value_on_dec st pending G p : Decision (value_on st pending G p).
Proof. unfold value_on. destruct (node_of st p.2); apply _. Defined.
#[export] Instance graph_on_dec pending st G : Decision (graph_on pending st G).
Proof. unfold graph_on. apply _. Defined.
#[export] Instance apart_dec p q : Decision (apart p q).
Proof. unfold apart. apply _. Defined.
#[export] Instance wf_on_dec pending st : Decision (wf_on pending st).
Proof. unfold wf_on. apply _. Defined.

Section Sound.
Context {pending : list Z} {st : Heap T} (H : wf_on pending st).

(** A graph that is not in the heap is empty. *)
Lemma wf_on_graph g : graph_on pending st (graph st g).
Proof.
  unfold graph. destruct (heap_graphs st !! g) as [G|] eqn:E; cbn.
  - unfold wf_on in H. rewrite Forall_forall in H. apply (H (g, G)). by apply elem_of_map_to_list.
  - unfold graph_on. cbn. split_and!; [constructor|constructor| |constructor|constructor].
    rewrite map_to_list_empty. constructor.
Qed.

Lemma wf_on_apart g h : g = h \/ apart (g, graph st g) (h, graph st h).
Proof.
  destruct (decide (g = h)) as [?|Hne]; [by left|right]. unfold graph.
  destruct (heap_graphs st !! g) as [G|] eqn:Eg, (heap_graphs st !! h) as [K|] eqn:Eh; cbn.
  - unfold wf_on in H. rewrite Forall_forall in H. destruct (H (g, G)) as [_ Ha]; [by apply elem_of_map_to_list|].
    rewrite Forall_forall in Ha. apply (Ha (h, K)). by apply elem_of_map_to_list.
  - right. cbn. split; apply Forall_forall; [intros n _ Hn; inversion Hn|]. intros x _. rewrite map_to_list_empty.
    intros Hx. inversion Hx.
  - right. cbn. split; [constructor|]. rewrite map_to_list_empty. constructor.
  - right. cbn. split; [constructor|]. rewrite map_to_list_empty. constructor.
Qed.

Lemma node_on_in g n : n ∈ nodes (graph st g) -> node_on st (graph st g) n /\ n ∉ pending.
Proof. destruct (wf_on_graph g) as (_ & Hn & _). rewrite Forall_forall in Hn. apply Hn. Qed.

Lemma value_on_in g i v : values (graph st g) !! i = Some v -> value_on st pending (graph st g) (i, v).
Proof.
  destruct (wf_on_graph g) as (_ & _ & Hv & _). rewrite Forall_forall in Hv. intros E. apply Hv.
  by apply elem_of_map_to_list.
Qed.

Lemma wf_on_wf : wf pending st.
Proof.
  split.
  - intros g. apply (wf_on_graph g).
  - intros g n Hn. by destruct (node_on_in g n Hn) as ((_ & _ & _ & ?) & _).
  - intros g h n Hn Hh. destruct (wf_on_apart g h) as [?|[?|[Ha _]]]; [done|done|].
    rewrite Forall_forall in Ha. by destruct (Ha n Hn).
  - intros g n Hn. by apply (node_on_in g).
  - intros g i v Hv. by destruct (value_on_in g i v Hv) as (? & ? & _).
  - intros g h i j v Hi Hj. destruct (wf_on_apart g h) as [?|[?|[_ Ha]]]; [done|done|].
    rewrite Forall_forall in Ha. destruct (Ha (i, v)); [by apply elem_of_map_to_list|].
    apply list_elem_of_fmap. exists (j, v). split; [done|by apply elem_of_map_to_list].
  - intros g n v Hn Hv. destruct (node_on_in g n Hn) as ((Hi & _) & _). rewrite Forall_forall in Hi.
    by destruct (Hi v Hv) as (? & ? & _).
  - intros g n v p Hn Hv Hp. destruct (node_on_in g n Hn) as ((Hi & _) & _). rewrite Forall_forall in Hi.
    destruct (Hi v Hv) as (_ & _ & Hf). by rewrite Hp in Hf.
  - intros g n v Hn Hv. destruct (node_on_in g n Hn) as ((_ & Ho & _) & _). rewrite Forall_forall in Ho. by apply Ho.
  - intros g n Hn. by destruct (node_on_in g n Hn) as ((_ & _ & ? & _) & _).
  - intros g v Hv. destruct (wf_on_graph g) as (_ & _ & _ & Hi & _). rewrite Forall_forall in Hi. by apply Hi.
  - intros g v Hv. destruct (wf_on_graph g) as (_ & _ & _ & _ & Ho). rewrite Forall_forall in Ho.
    destruct (Ho v Hv) as [? Hf]. split; [done|]. intros p Hp. by rewrite Hp in Hf.
  - intros g v p Hk Hp. destruct (value_on_in g _ v Hk) as (_ & _ & Hm & _). cbn in Hm. rewrite Hp in Hm.
    rewrite elem_of_app in Hm. done.
  - intros g v n Hk Hn. destruct (value_on_in g _ v Hk) as (_ & _ & _ & Hu). rewrite Forall_forall in Hu. by apply Hu.
Qed.
End Sound.

(** What holds of the nodes and values listed in the heap holds of all. *)
Lemma nodes_forall (P : Z -> Z -> Prop) (st : Heap T) :
  Forall (fun p => Forall (P p.1) (nodes p.2)) (map_to_list (heap_graphs st)) ->
  forall g n, n ∈ nodes (graph st g) -> P g n.
Proof.
  intros H g n Hn. unfold graph in Hn. destruct (heap_graphs st !! g) as [G|] eqn:E; cbn in Hn; [|inversion Hn].
  rewrite Forall_forall in H. specialize (H (g, G)). rewrite elem_of_map_to_list, Forall_forall in H. by apply H.
Qed.

Lemma known_forall (P : Z -> Prop) (st : Heap T) g :
  Forall P (map_to_list (values (graph st g))).*2 -> forall v, known st g v -> P v.
Proof.
  intros H v Hk. rewrite Forall_forall in H. apply H, list_elem_of_fmap. exists (id (value st v), v).
  split; [done|by apply elem_of_map_to_list].
Qed.

End Check.
End Check.

(** ** An example of the graph compiler

    Kernels on scalar tensors that obey the laws of [AlgebraLaws], and a graph
    built with the operations of JitGraph.v as the tracer builds one.  Theorems
    about the compiler are instantiated here. *)

Module Scalar.
Import Jit Flow Exec Meaning Wf GraphSort Passes Contract Optimize Algebra Check.

#[export] Instance kernels : Kernels Z := {
  eval_op dev op a xs := match op, xs with
    | OpType.Add, x :: y :: _ => Ok [x + y]
    | OpType.Sub, x :: y :: _ => Ok [x - y]
    | OpType.Mul, x :: y :: _ => Ok [x * y]
    | OpType.Div, x :: y :: _ => Ok [x / y]
    | OpType.Neg, x :: _ => Ok [- x]
    | OpType.Abs, x :: _ => Ok [Z.abs x]
    | OpType.Reshape, x :: _ => Ok [x]
    | _, _ => Ok []
    end;
  execute_fused_gpu_node op a xs := Ok 0;
  tensor_condition_to_bool x := Ok (negb (x =? 0));
  item_int64 x := Ok x;
  full_int64 dev x := x;
  full_cond dev b := if b then 1 else 0;
  device_of x := cpu;
  to_device dev x := x;
  shape_of x := [];
  dtype_of x := Int64;
  empty_tensor := 7
}.

#[export] Instance tests : ConstantTests Z := { all_zeros x := x =? 0; all_ones x := x =? 1 }.
#[export] Instance all_regular : Regular Z := fun _ => True.
#[export] Instance unordered : Unordered.
Proof. by refine {| entries K A _ _ m := map_to_list m |}. Defined.
#[export] Instance hashes : StdHash := {|
  hash_int x := x; hash_string s := 1; hash_float x := x; hash_int64 x := x; hash_bool b := 0 |}.

Lemma place_id dev (z : Z) : place dev z = z.
Proof. unfold place. by case_decide. Qed.

#[export] Instance laws : AlgebraLaws Z.
Proof.
  split.
  - intros dev op a xs ys Hop H. repeat (apply elem_of_cons in Hop as [->|Hop]; [destruct xs as [|x [|y xs]]; cbn in H; injection H as <-; cbn; lia|]).
    by apply elem_of_nil in Hop.
  - intros dev op a x z xs y Hop Hz _ H _ _. rewrite place_id in H. apply Z.eqb_eq in Hz as ->.
    apply elem_of_cons in Hop as [->|Hop%list_elem_of_singleton]; [|subst op]; cbn in H; injection H as <-; lia.
  - intros dev a x z xs y Hz _ H _ _. rewrite place_id in H. apply Z.eqb_eq in Hz as ->. cbn in H. injection H as <-. lia.
  - intros dev op a x z xs y Hop Hz _ H _ _. rewrite place_id in H. apply Z.eqb_eq in Hz as ->.
    apply elem_of_cons in Hop as [->|Hop%list_elem_of_singleton]; [|subst op]; cbn in H; injection H as <-; [lia|apply Z.div_1_r].
  - intros dev a x z xs y Hz _ H _ _. rewrite place_id in H. apply Z.eqb_eq in Hz as ->. cbn in H. injection H as <-. lia.
  - intros dev a x xs y _ H. cbn in H. by injection H as <-.
  - intros dev a b x xs ys y zs H1 H2. cbn in *. by injection H1 as <-.
Qed.

(** A node with its output value, as the tracer adds them. *)
Definition append (op : OpType.t) (ins : list Z) (nm out : string) (a : Attrs Z) (st : Heap Z) : Heap Z * Z :=
  let '(st, n) := create_node 0 op nm st in
  let '(st, v) := create_value 0 out [] Int64 cpu st in
  let st := upd_node n (with_attrs a) st in
  let st := foldl (fun st i => add_input n i st) st ins in
  (add_node 0 n (add_output n v st), v).

Definition zero_attr : Attrs Z := mkAttrs ∅ ∅ ∅ ∅ {["value" := 0]}.

(** (-(x + 0)) + (-(x + 0)), reshaped, with |x| computed and unused. *)
Definition example : Heap Z :=
  let st := mkHeap ∅ ∅ {[0 := no_graph]} 1 in
  let '(st, x) := create_value 0 "x" [] Int64 cpu st in
  let '(st, z) := append OpType.Constant [] "zero" "z" zero_attr st in
  let '(st, a) := append OpType.Add [x; z] "add" "a" no_attrs st in
  let '(st, b) := append OpType.Neg [a] "neg1" "b" no_attrs st in
  let '(st, c) := append OpType.Neg [a] "neg2" "c" no_attrs st in
  let '(st, u) := append OpType.Abs [x] "abs" "u" no_attrs st in
  let '(st, d) := append OpType.Add [b; c] "sum" "d" no_attrs st in
  let '(st, r) := append OpType.Reshape [d] "shape" "r" no_attrs st in
  upd_graph 0 (fun g => set_outputs [r] (set_inputs [x] g)) st.

Definition passes (d : nat) : list (Pass (T := Z)) :=
  [dead_code_elimination d; common_subexpression_elimination d; algebraic_simplification false; reshape_elimination].

Lemma example_wf : wf [] example.
Proof. apply wf_on_wf. apply (bool_decide_unpack _). by vm_compute. Qed.

Lemma example_runs : exists env, runs 1 example 0 [5] env [-10].
Proof. apply forward_runs. by vm_compute. Qed.

Lemma example_ordered : ordered (program example 0).
Proof.
  destruct example_runs as [env Hr]. apply runs_valuation in Hr as (env0 & _ & _ & ? & _); [done|].
  apply (wf_single example_wf).
Qed.

Lemma example_nodes g n : n ∈ nodes (graph example g) -> g = 0 /\
  float_attrs (attrs (node example n)) = ∅ /\ has_attr (attrs (node example n)) "fusion_kind" = false /\
  subgraphs (node example n) = [] /\ (op_type (node example n) = OpType.Reshape -> (length (inputs (node example n)) <= 1)%nat).
Proof.
  revert g n. apply nodes_forall. apply (bool_decide_unpack _). by vm_compute.
Qed.

#[global] Opaque example.

Lemma example_plain : plain example.
Proof. intros g n k b Hn H. apply example_nodes in Hn as (_ & E & _). by rewrite E, lookup_empty in H. Qed.

Lemma example_nested d g : nested (S d) example g.
Proof. intros n h Hn Hh. apply example_nodes in Hn as (_ & _ & _ & E & _). rewrite E in Hh. destruct (not_elem_of_nil _ Hh). Qed.

Lemma example_good : good [] 0 example.
Proof.
  split; [apply example_wf|apply example_plain| | | |apply example_ordered].
  - intros n Hn. by apply example_nodes in Hn as (_ & _ & ? & _).
  - intros n Hn. by apply example_nodes in Hn as (_ & _ & _ & _ & ?).
  - intros h n Hn. apply example_nodes in Hn as (_ & _ & _ & E & _). rewrite <-subgraphs_owned, E. apply not_elem_of_nil.
Qed.

(** All tensors have the shape and type that all values declare. *)
Lemma example_conforms env : conforms example 0 env.
Proof.
  intros v t Hk _. revert v Hk.
  assert (forall v, known example 0 v -> shape (value example v) = [] /\ dtype (value example v) = Int64) as H.
  { apply known_forall. apply (bool_decide_unpack _). by vm_compute. }
  intros v Hk. destruct (H v Hk) as [E1 E2]. rewrite E1, E2. split; [exact I|split; reflexivity].
Qed.

End Scalar.
