(* ===== verification/JitClient.v ===== *)
(** * Properties of the graph compiler

    The theorems on execution, the topological sort, the passes and the
    optimizer, each with an instance on the graph of JitScalar.v. *)

From stdpp Require Import base list numbers strings gmap.
From S2P Require Import Prelude DType JitOps JitGraph JitFlow JitExec JitMeaning JitWf JitEdit JitSort JitPreserve JitPasses JitDce JitCse JitOptimize JitAlgebra JitReshape JitScalar.

Module JitClient.
Import Jit Flow Exec Meaning Wf Edit GraphSort Preserve Passes Contract Dce Cse Optimize Algebra Reshape Check Scalar.

#[export] Instance dce_total_pass {T} `{!Kernels T, !Regular T} d : TotalPass d (dead_code_elimination (T := T) d).
Proof. intros pending g st [W Hp _ _ _ _] Hn. by eapply dce_total. Qed.

#[export] Instance cse_total_pass {T} `{!Kernels T, !Regular T} `{HU : Unordered} `{HS : StdHash} d :
  TotalPass d (common_subexpression_elimination (T := T) d).
Proof. intros pending g st [W Hp _ _ _ _] Hn. by eapply cse_total. Qed.

Section Properties.
Context {T : Type} `{!Kernels T}.

(** C27: on a well-formed graph whose nodes are in order, [forward] returns [ts]
    without tripping a guard exactly when some assignment of tensors to ids
    solves the equations of the nodes over the initial values and gives [ts] to
    the outputs.  Execution in list order implements the order-free equations. *)
Theorem forward_meets_equations pending (st : Heap T) g d xs ts :
  wf pending st -> ordered (program st g) ->
  forward (S d) st g xs ∅ = (∅, Ok ts) <->
  exists env0 env, initial st (graph st g) (target_device (graph st g) xs) xs = Ok env0 /\
    valuation (node_fun (forward d st) g (target_device (graph st g) xs)) env0 (program st g) env /\
    reads env (out_ids st g) = Some ts.
Proof.
  intros W Ho. rewrite forward_runs. split.
  - intros (env & Hr). destruct (runs_valuation _ _ _ _ _ _ (wf_single W g) Hr) as (env0 & ? & _ & _ & ? & ?).
    by exists env0, env.
  - intros (env0 & env & Hi & Hv & Hr). exists env, env0. split_and!; [done| |done].
    apply valuation_run; [|done|done]. eapply single_assignment_single; [apply (wf_single W)|done].
Qed.

(** C28: the topological sort succeeds exactly on graphs that some ranking
    orders, throws "Graph contains cycles" otherwise, and never loops; the new
    list has the same nodes, each after the producers of its inputs, and every
    graph of the heap still computes what it computed. *)
Theorem graph_sort_correct pending (st : Heap T) g : wf pending st ->
  ((exists st', topological_sort g st = Ok st') <-> exists rank, graded st (nodes (graph st g)) rank) /\
  (forall e, topological_sort g st = Err e -> e = RuntimeError "Graph contains cycles") /\
  forall st', topological_sort g st = Ok st' ->
    nodes (graph st' g) ≡ₚ nodes (graph st g) /\ in_order (st := st) (nodes (graph st' g)) /\ wf pending st' /\
    forall d h xs ts, forward d st h xs ∅ = (∅, Ok ts) -> forward d st' h xs ∅ = (∅, Ok ts).
Proof.
  intros W. split_and!.
  - split; [|intros [rank Hr]; by eapply (topological_sort_graded W)].
    intros [st' H]. apply (topological_sort_Ok W) in H as (ns & _ & Hp & Ho).
    destruct (in_order_graded (st := st) ns) as [rank Hr]; [rewrite Hp; apply (w_nodup _ _ W)|done|].
    exists rank. intros n p Hn. apply Hr. by rewrite Hp.
  - intros e. unfold topological_sort. destruct (topological_sort_total W g) as (s & -> & _). cbn.
    destruct (negb _); congruence.
  - intros st' H. destruct (sort_shrinks W g st' H) as (W' & S & Hs & Ht).
    apply (topological_sort_Ok W) in H as (ns & -> & Hp & Ho).
    destruct (with_nodes_wf W g ns Hp) as (_ & Hn & _). rewrite Hn, decide_True by done.
    split_and!; [done|done|done|]. intros d h xs ts. apply refines_forward. by eapply transfers_refines.
Qed.

(** C21: dead code elimination returns on every well-formed graph (with nesting
    below its depth); what stays of the graph is what its outputs need, and every
    run of every graph of the heap keeps its results. *)
Theorem dead_code_elimination_correct pending depth g (st : Heap T) :
  wf pending st -> plain st -> nested depth st g ->
  exists st' m, dead_code_elimination depth g st = Ok (st', m) /\ wf pending st' /\
    (graph_outputs (graph st g) <> [] -> forall n, n ∈ nodes (graph st' g) -> n ∈ nodes (graph st g) /\ needed st g n) /\
    forall d h xs ts, forward d st h xs ∅ = (∅, Ok ts) -> forward d st' h xs ∅ = (∅, Ok ts).
Proof.
  intros W Hp Hn. destruct (dce_total depth pending g st W Hp Hn) as [[st' m] E]. exists st', m.
  destruct (preserving pending g st st' m W Hp E) as [W' S R]. split_and!; [done|done| |].
  - intros Hne n Hin. split; [by eapply s_nodes|]. by eapply dce_only_needed.
  - intros d h xs ts. by apply refines_forward.
Qed.



(** [Compiler::optimize] with any list of sound passes, for any number of
    iterations, returns a graph that gives the results of the original on every
    input whose run has the declared shapes and types: the final sort never finds
    a cycle and no result changes. *)
Theorem optimize_preserves_results `{!Regular T} (passes : list (Pass (T := T))) d k g (st : Heap T) :
  (forall p, p ∈ passes -> SoundPass p /\ TotalPass d p) -> good [] g st -> nested d st g ->
  exists st' n, optimize passes k g st = Ok (st', n) /\ good [] g st' /\ shrinks st st' /\
    forall depth xs env ts, conforms st g env -> runs depth st g xs env ts ->
      forward (S depth) st' g xs ∅ = (∅, Ok ts).
Proof.
  intros Hp G Hn. assert (forall p, p ∈ passes -> SoundPass p) as Hs by by intros p [? _]%Hp.
  destruct (optimize_total passes Hs d (fun p H => proj2 (Hp p H)) g k st G Hn) as [[st' n] E].
  destruct (optimize_sound passes Hs g k st st' n G E) as (G' & S & R).
  exists st', n. split_and!; [done|done|done|]. intros depth xs env ts Hc Hr.
  destruct (R depth xs env ts Hc Hr) as (env' & Hr' & _). apply forward_runs. by exists env'.
Qed.

(** Redirecting one of two slots that read the same value makes the value
    forget the node although it still reads it, so a later replacement of the
    value misses the other slot. *)
Theorem replace_input_forgets_reader (st st' : Heap T) n i j old new :
  inputs (node st n) !! i = Some old -> inputs (node st n) !! j = Some old -> i <> j -> old <> new ->
  replace_input n i new st = Ok st' -> is_Some (heap_values st !! new) ->
  inputs (node st' n) !! j = Some old /\ n ∉ uses (value st' old).
Proof.
  intros Hi Hj Hij Hne H Hnew. unfold replace_input in H. rewrite Hi in H. injection H as <-. split.
  - rewrite inputs_replace_input_at, decide_True by done. by rewrite list_lookup_insert_ne.
  - rewrite uses_replace_input_at by done. rewrite decide_True, decide_False, app_nil_r by done.
    rewrite list_elem_of_filter. tauto.
Qed.

End Properties.

Lemma forward_meets_equations_witness : exists env0 env,
  initial example (graph example 0) (target_device (graph example 0) [5]) [5] = Ok env0 /\
  valuation (node_fun (forward 1 example) 0 (target_device (graph example 0) [5])) env0 (program example 0) env /\
  reads env (out_ids example 0) = Some [-10].
Proof.
  assert (forward 2 example 0 [5] ∅ = (∅, Ok [-10])) as H by by vm_compute.
  exact (proj1 (forward_meets_equations [] example 0 1 [5] [-10] example_wf example_ordered) H).
Defined.

Lemma graph_sort_correct_witness : exists st', topological_sort 0 example = Ok st' /\
  forward 2 st' 0 [5] ∅ = (∅, Ok [-10]).
Proof.
  destruct (topological_sort 0 example) as [st'|e] eqn:E; [|by vm_compute in E]. exists st'. split; [done|].
  assert (forward 2 example 0 [5] ∅ = (∅, Ok [-10])) as H by by vm_compute.
  destruct (graph_sort_correct [] example 0 example_wf) as (_ & _ & Hs).
  destruct (Hs st' E) as (_ & _ & _ & Hf). exact (Hf 2%nat 0 [5] [-10] H).
Defined.

Lemma dead_code_elimination_correct_witness : exists st' m, dead_code_elimination 1 0 example = Ok (st', m) /\
  forward 2 st' 0 [5] ∅ = (∅, Ok [-10]).
Proof.
  destruct (dead_code_elimination_correct [] 1 0 example example_wf example_plain (example_nested 0 0))
    as (st' & m & E & _ & _ & H). exists st', m. split; [exact E|].
  assert (forward 2 example 0 [5] ∅ = (∅, Ok [-10])) as Hf by by vm_compute. exact (H 2%nat 0 [5] [-10] Hf).
Defined.



Lemma optimize_preserves_results_witness : exists st' n, optimize (passes 2) 5 0 example = Ok (st', n) /\
  forward 2 st' 0 [5] ∅ = (∅, Ok [-10]).
Proof.
  destruct (optimize_preserves_results (passes 2) 2 5 0 example) as (st' & n & E & _ & _ & H).
  - intros p Hp. repeat (apply elem_of_cons in Hp as [->|Hp]; [split; apply _|]). by apply elem_of_nil in Hp.
  - exact example_good.
  - exact (example_nested 1 0).
  - exists st', n. split; [exact E|]. destruct example_runs as [env Hr].
    exact (H 1%nat [5] env [-10] (example_conforms env) Hr).
Defined.

(** The pass removed seven of the nine nodes. *)
Example optimized_example : match optimize (passes 2) 5 0 example with
  | Ok (st, n) => map (fun k => (op_type (node st k), value_ids st (inputs (node st k)))) (nodes (graph st 0)) =
      [(OpType.Neg, ["x"]); (OpType.Add, ["b"; "b"])]
  | Err _ => False
  end.
Proof. by vm_compute. Qed.

(** x + x with its first slot redirected to z. *)
Definition twice : Heap Z :=
  let st := mkHeap ∅ ∅ {[0 := no_graph]} 1 in
  let '(st, x) := create_value 0 "x" [] Int64 cpu st in
  let '(st, z) := create_value 0 "z" [] Int64 cpu st in
  fst (append OpType.Add [x; x] "add" "a" no_attrs st).

Lemma replace_input_forgets_reader_witness : exists st', replace_input 3 0 2 twice = Ok st' /\
  inputs (node st' 3) !! 1%nat = Some 1 /\ 3 ∉ uses (value st' 1).
Proof.
  destruct (replace_input 3 0 2 twice) as [st'|e] eqn:E; [|by vm_compute in E]. exists st'. split; [done|].
  apply (replace_input_forgets_reader twice st' 3 0 1 1 2); [by vm_compute|by vm_compute|lia|lia|exact E|].
  vm_compute. by eexists.
Defined.

(** A replacement of x then leaves the second slot as it is. *)
Example forgotten_reader : match replace_input 3 0 2 twice with
  | Ok st => inputs (node (replace_value 0 "x" "z" st) 3) = [2; 1]
  | Err _ => False
  end.
Proof. by vm_compute. Qed.

End JitClient.
