(* ===== verification/JitMemory.v ===== *)
(** * The memory planner of the JIT

    [MemoryPlanner] of include/tenzor/jit/memory_planner.hpp and
    src/jit/memory_planner.cpp: live ranges of the intermediate values of a
    graph, and the greedy assignment of values to shared buffers.  Sizes are
    [size_t] and wrap; indices of nodes are [Z].  The order in which an
    [unordered_map] is traversed and the order in which [std::sort] leaves equal
    elements are open: [Unordered] and [StdSort]. *)

From stdpp Require Import base list numbers strings gmap sorting.
From S2P Require Import Prelude Shape DType JitOps JitGraph JitExec JitPasses.

Module Memory.
Import Jit Passes.

(** A strict weak order, as [std::sort] asks of its comparison. *)
Record strict_weak {A} (lt : A -> A -> bool) : Prop := mkStrictWeak {
  sw_asym a b : lt a b = true -> lt b a = false;
  sw_cotrans a b c : lt a b = false -> lt b c = false -> lt a c = false
}.

(** [std::sort]: a sorted permutation; which one is unspecified. *)
Class StdSort := {
  sort {A} (lt : A -> A -> bool) : list A -> list A;
  sort_perm {A} (lt : A -> A -> bool) l : sort lt l ≡ₚ l;
  sort_sorted {A} (lt : A -> A -> bool) l : strict_weak lt -> StronglySorted (fun a b => lt b a = false) (sort lt l)
}.

(** ** The data of memory_planner.hpp *)

Record BufferAllocation := mkBuffer { ba_buffer_id : Z; ba_offset : Z; ba_size : Z }.

Record LiveRange := mkLiveRange {
  lr_begin : Z; lr_end : Z; lr_value_id : string; lr_size : Z; lr_device : Device
}.

Record MemoryPlan := mkMemoryPlan {
  plan_pool_sizes : list Z; value_allocations : gmap string BufferAllocation;
  total_memory : Z; num_values_planned : Z; num_values_reused : Z
}.

Definition empty_plan : MemoryPlan := mkMemoryPlan [] ∅ 0 0 0.

(** ** Sizes *)

(** [checked_byte_size]; 0 on a dimension that is not positive, and on overflow. *)
Fixpoint checked_numel (numel : Z) (shape : list Z) : option Z :=
  match shape with
  | [] => Some numel
  | dim :: shape =>
      if dim <=? 0 then None
      else match checked_mul_overflow UINT64_MAX numel dim with
           | None => None
           | Some numel => checked_numel numel shape
           end
  end.

Definition checked_byte_size (shape : list Z) (elem_size : Z) : Z :=
  match checked_numel 1 shape with
  | None => 0
  | Some numel => default 0 (checked_mul_overflow UINT64_MAX numel elem_size)
  end.

Definition compute_value_size (v : Value) : Z :=
  match shape v with
  | [] => dtype_size (dtype v)
  | _ => checked_byte_size (shape v) (dtype_size (dtype v))
  end.

(** The alignment of a planner; [set_alignment] refuses what is not a power of two. *)
Definition default_alignment : Z := 64.

Definition set_alignment (a : Z) : result Z :=
  let* _ := throw_if ((a =? 0) || negb (Z.land a (a - 1) =? 0))
    (InvalidArgument "MemoryPlanner::set_alignment: alignment must be a non-zero power of 2") in
  Ok a.

Definition align_up (alignment size : Z) : Z :=
  if size >? UINT64_MAX - (alignment - 1) then 0
  else Z.land (wrap 64 (size + alignment - 1)) (wrap 64 (Z.lnot (alignment - 1))).

Section Planner.
Context {T : Type} `{HU : !Unordered, HS : !StdSort}.

(** ** Live ranges *)

Record RangeInfo := mkRange { ri_begin : Z; ri_end : Z; ri_value_id : string }.

Definition is_excluded (st : Heap T) (g v : Z) : bool :=
  bool_decide (id (value st v) ∈ map (fun u => id (value st u)) (graph_inputs (graph st g))) ||
  bool_decide (id (value st v) ∈ map (fun u => id (value st u)) (graph_outputs (graph st g))) ||
  match node_of st v with
  | Some p => bool_decide (op_type (node st p) = OpType.Constant)
  | None => false
  end.

(** The output values of node [i] are born there. *)
Definition born (st : Heap T) (g i : Z) (m : gmap string RangeInfo) (v : Z) : gmap string RangeInfo :=
  if is_excluded st g v then m else <[id (value st v) := mkRange i i (id (value st v))]> m.

(** Node [i] reads [v]: the last use of a value that is in the map moves to [i]. *)
Definition extend (i : Z) (info : RangeInfo) : RangeInfo :=
  mkRange (ri_begin info) (Z.max (ri_end info) i) (ri_value_id info).

Definition used (st : Heap T) (i : Z) (m : gmap string RangeInfo) (v : Z) : gmap string RangeInfo :=
  alter (extend i) (id (value st v)) m.

(** What the nodes of the graph [h] that node [i] owns read, at any depth. *)
Fixpoint extend_for_subgraph (depth : nat) (st : Heap T) (i h : Z) (m : gmap string RangeInfo)
    : result (gmap string RangeInfo) :=
  match depth with
  | O => Err Diverged
  | S depth =>
      rfoldM (fun m sn =>
        rfoldM (fun m k => extend_for_subgraph depth st i k m) (subgraphs (node st sn))
          (foldl (used st i) m (inputs (node st sn)))) (nodes (graph st h)) m
  end.

Definition scan_node (depth : nat) (st : Heap T) (g : Z) (m : gmap string RangeInfo) (p : nat * Z)
    : result (gmap string RangeInfo) :=
  let '(i, n) := p in
  let m := foldl (born st g (Z.of_nat i)) m (outputs (node st n)) in
  let m := foldl (used st (Z.of_nat i)) m (inputs (node st n)) in
  rfoldM (fun m h => extend_for_subgraph depth st (Z.of_nat i) h m) (subgraphs (node st n)) m.

Definition enumerate (ns : list Z) : list (nat * Z) := zip (seq 0 (length ns)) ns.

Definition live_range (st : Heap T) (g : Z) (p : string * RangeInfo) : option LiveRange :=
  match get_value st g p.1 with
  | None => None
  | Some v =>
      let size := compute_value_size (value st v) in
      if size =? 0 then None
      else Some (mkLiveRange (ri_begin p.2) (ri_end p.2) (ri_value_id p.2) size (device (value st v)))
  end.

Definition compute_live_ranges (depth : nat) (g : Z) (st : Heap T) : result (list LiveRange) :=
  let* range_map := rfoldM (scan_node depth st g) (enumerate (nodes (graph st g))) ∅ in
  Ok (omap (live_range st g) (entries range_map)).

(** ** Buffers *)

Record BufferSlot := mkSlot { high_water_mark : Z; intervals : list (Z * Z); slot_device : Device }.

Definition before (a b : LiveRange) : bool :=
  if negb (lr_size a =? lr_size b) then lr_size a >? lr_size b else lr_begin a <? lr_begin b.

Definition overlaps (lr : LiveRange) (slot : BufferSlot) : bool :=
  existsb (fun p : Z * Z => (lr_begin lr <=? p.2) && (lr_end lr >=? p.1)) (intervals slot).

(** The smallest slot that fits and the largest one to grow, by index and mark;
    a missing one is an index of SIZE_MAX in the code. *)
Record Best := mkBest { best_fit : option (nat * Z); best_grow : option (nat * Z) }.

Definition consider (lr : LiveRange) (aligned_size : Z) (b : Best) (p : nat * BufferSlot) : Best :=
  let '(s, slot) := p in
  if negb (bool_decide (slot_device slot = lr_device lr)) then b
  else if overlaps lr slot then b
  else
    let slot_hwm := high_water_mark slot in
    if slot_hwm >=? aligned_size then
      match best_fit b with
      | Some (_, best_fit_hwm) => if slot_hwm <? best_fit_hwm then mkBest (Some (s, slot_hwm)) (best_grow b) else b
      | None => mkBest (Some (s, slot_hwm)) (best_grow b)
      end
    else
      match best_grow b with
      | Some (_, best_grow_hwm) => if slot_hwm >? best_grow_hwm then mkBest (best_fit b) (Some (s, slot_hwm)) else b
      | None => mkBest (best_fit b) (Some (s, slot_hwm))
      end.

Definition best_slot (slots : list BufferSlot) (lr : LiveRange) (aligned_size : Z) : option nat :=
  let b := foldl (consider lr aligned_size) (mkBest None None) (zip (seq 0 (length slots)) slots) in
  match best_fit b, best_grow b with
  | Some (s, _), _ => Some s
  | None, Some (s, _) => Some s
  | None, None => None
  end.

Definition occupy (lr : LiveRange) (aligned_size : Z) (slot : BufferSlot) : BufferSlot :=
  mkSlot (Z.max (high_water_mark slot) aligned_size) (intervals slot ++ [(lr_begin lr, lr_end lr)]) (slot_device slot).

Definition assign_slot (alignment : Z) (acc : list BufferSlot * gmap string BufferAllocation) (lr : LiveRange)
    : list BufferSlot * gmap string BufferAllocation :=
  let '(slots, allocations) := acc in
  let aligned_size := align_up alignment (lr_size lr) in
  if aligned_size =? 0 then acc
  else match best_slot slots lr aligned_size with
  | Some s => (alter (occupy lr aligned_size) s slots,
               <[lr_value_id lr := mkBuffer (Z.of_nat s) 0 (lr_size lr)]> allocations)
  | None => (slots ++ [mkSlot aligned_size [(lr_begin lr, lr_end lr)] (lr_device lr)],
             <[lr_value_id lr := mkBuffer (lenZ slots) 0 (lr_size lr)]> allocations)
  end.

Definition greedy_assign (alignment : Z) (live_ranges : list LiveRange) : list Z * gmap string BufferAllocation :=
  let '(slots, allocations) := foldl (assign_slot alignment) ([], ∅) (sort before live_ranges) in
  (map high_water_mark slots, allocations).

(** ** The plan *)

Definition annotate (g : Z) (st : Heap T) (p : string * BufferAllocation) : Heap T :=
  match get_value st g p.1 with
  | Some v => upd_value v (with_buffer (ba_buffer_id p.2) (ba_offset p.2)) st
  | None => st
  end.

Definition buffer_use_counts (allocations : gmap string BufferAllocation) : gmap Z Z :=
  foldl (fun m (p : string * BufferAllocation) =>
    <[ba_buffer_id p.2 := default 0 (m !! ba_buffer_id p.2) + 1]> m) ∅ (entries allocations).

Definition num_reused (allocations : gmap string BufferAllocation) : Z :=
  foldl (fun n (p : Z * Z) => if p.2 >? 1 then n + (p.2 - 1) else n) 0 (entries (buffer_use_counts allocations)).

Definition plan (alignment : Z) (depth : nat) (g : Z) (st : Heap T) : result (Heap T * MemoryPlan) :=
  let* st := topological_sort g st in
  let* live_ranges := compute_live_ranges depth g st in
  if bool_decide (live_ranges = []) then Ok (st, empty_plan)
  else
    let '(pool_sizes, allocations) := greedy_assign alignment live_ranges in
    Ok (foldl (annotate g) st (entries allocations),
        mkMemoryPlan pool_sizes allocations (foldl (fun t ps => wrap 64 (t + ps)) 0 pool_sizes)
          (lenZ live_ranges) (num_reused allocations)).

(** [MemoryPlanningPass::run]: the graph, the pass's result and the plan it keeps. *)
Definition memory_planning (alignment : Z) (depth : nat) (g : Z) (st : Heap T)
    : result (Heap T * bool * MemoryPlan) :=
  let* alignment := set_alignment alignment in
  let* '(st, p) := plan alignment depth g st in
  Ok (st, false, p).

(** [Compiler::plan_memory]. *)
Definition plan_memory (depth : nat) (g : Z) (st : Heap T) : result (Heap T * MemoryPlan) :=
  let* '(st, _, p) := memory_planning default_alignment depth g st in
  Ok (st, p).

End Planner.
End Memory.
