(* ===== verification/JitMemoryGreedy.v ===== *)
(** * Sizes and buffers of the JIT memory planner

    What [compute_value_size], [set_alignment] and [align_up] of JitMemory.v
    compute, and the invariant of the greedy assignment: values that share a
    buffer have disjoint live ranges and one device, and every buffer is as
    large as its largest value. *)

From stdpp Require Import base list numbers strings gmap sorting.
From S2P Require Import Prelude Shape DType MapSums JitOps JitGraph JitExec JitPasses JitMemory.

Module MemorySize.
Import Jit Passes Memory.

(** ** Sizes *)

Lemma checked_mul_overflow_Some tmax a b r : 0 <= a -> 0 <= b -> 0 <= tmax ->
  checked_mul_overflow tmax a b = Some r -> r = a * b /\ a * b <= tmax.
Proof.
  intros Ha Hb Ht. rewrite checked_mul_overflow_spec by done.
  destruct (Z.leb_spec (a * b) tmax); [intros [= <-]; done|done].
Qed.

Lemma checked_numel_spec n sh k : 0 < n <= UINT64_MAX -> checked_numel n sh = Some k ->
  Forall (fun d => 0 < d) sh /\ k = n * prodZ sh /\ 0 < k <= UINT64_MAX.
Proof.
  revert n. induction sh as [|d sh IH]; intros n Hn H; cbn [checked_numel prodZ] in *.
  { injection H as <-. split_and!; [constructor|lia|lia|lia]. }
  destruct (Z.leb_spec d 0) as [|Hd]; [done|].
  destruct (checked_mul_overflow UINT64_MAX n d) as [m|] eqn:E; [|done].
  apply checked_mul_overflow_Some in E as [-> ?]; [|lia|lia|done].
  destruct (IH (n * d)) as (Hf & -> & ?); [nia|done|]. split_and!; [by constructor|nia|lia|lia].
Qed.

(** A value with a size has a shape without zero or symbolic dimensions, and the
    size is the product that does not overflow. *)
Lemma compute_value_size_spec v : compute_value_size v <> 0 ->
  Forall (fun d => 0 < d) (shape v) /\ compute_value_size v = prodZ (shape v) * dtype_size (dtype v) /\
  0 < compute_value_size v <= UINT64_MAX.
Proof.
  unfold compute_value_size. pose proof (dtype_size_pos (dtype v)). destruct (shape v) as [|d sh].
  { intros _. split_and!; [constructor|cbn; lia|lia|unfold UINT64_MAX; lia]. }
  unfold checked_byte_size. destruct (checked_numel 1 (d :: sh)) as [n|] eqn:E; [|done].
  apply checked_numel_spec in E as (Hf & -> & ?); [|unfold UINT64_MAX; lia].
  destruct (checked_mul_overflow UINT64_MAX _ _) as [b|] eqn:E; cbn [default from_option]; [|done].
  apply checked_mul_overflow_Some in E as [-> ?]; [|lia|lia|done]. unfold Datatypes.id. intros _. split_and!; [done|lia|apply Z.mul_pos_pos; lia|lia].
Qed.

Lemma power_of_two a : 0 < a -> Z.land a (a - 1) = 0 -> a = 2 ^ Z.log2 a.
Proof.
  intros Ha H. destruct (Z.log2_spec a Ha) as [Hl Hu]. destruct (decide (a = 2 ^ Z.log2 a)) as [|Hne]; [done|].
  assert (Z.log2 (a - 1) = Z.log2 a) as El.
  { apply Z.log2_unique; [apply Z.log2_nonneg|]. rewrite Z.pow_succ_r in * by apply Z.log2_nonneg. lia. }
  pose proof (Z.pow_pos_nonneg 2 (Z.log2 a) ltac:(lia) (Z.log2_nonneg a)).
  assert (Z.testbit (Z.land a (a - 1)) (Z.log2 a) = true) as Hb.
  { rewrite Z.land_spec, Z.bit_log2 by done. rewrite <-El at 1. apply Z.bit_log2. lia. }
  by rewrite H, Z.bits_0 in Hb.
Qed.

Lemma set_alignment_Ok a b : 0 <= a <= UINT64_MAX -> set_alignment a = Ok b ->
  b = a /\ exists k, 0 <= k < 64 /\ a = 2 ^ k.
Proof.
  unfold set_alignment. intros Ha H. inv_ok. bool_to_prop. split; [done|]. exists (Z.log2 a).
  assert (a = 2 ^ Z.log2 a) as E by (apply power_of_two; lia). split; [|done].
  split; [apply Z.log2_nonneg|]. apply Z.log2_lt_pow2; [lia|]. unfold UINT64_MAX in Ha. lia.
Qed.

(** Rounding up to a power of two; 0 where the sum would wrap. *)
Lemma align_up_spec k size : 0 <= k < 64 -> 0 <= size <= UINT64_MAX -> align_up (2 ^ k) size <> 0 ->
  size <= align_up (2 ^ k) size < size + 2 ^ k /\ align_up (2 ^ k) size <= UINT64_MAX /\ (2 ^ k | align_up (2 ^ k) size).
Proof.
  intros Hk Hs. unfold align_up. pose proof (Z.pow_pos_nonneg 2 k ltac:(lia) ltac:(lia)) as Hp.
  rewrite Z.gtb_ltb. destruct (Z.ltb_spec (UINT64_MAX - (2 ^ k - 1)) size) as [|Hle]; [done|]. intros _.
  unfold UINT64_MAX in *. rewrite (wrap_small 64 (size + 2 ^ k - 1)) by lia.
  set (x := size + 2 ^ k - 1). unfold wrap. rewrite <-Z.land_ones by lia.
  rewrite (Z.land_comm (Z.lnot _)), Z.land_assoc, Z.land_ones by lia. rewrite Z.mod_small by lia.
  replace (2 ^ k - 1) with (Z.ones k) by (rewrite Z.ones_equiv; lia).
  rewrite <-Z.ldiff_land, Z.ldiff_ones_r, Z.shiftl_mul_pow2, Z.shiftr_div_pow2 by lia.
  pose proof (Z.div_mod x (2 ^ k) ltac:(lia)). pose proof (Z.mod_pos_bound x (2 ^ k) Hp).
  split_and!; [unfold x in *; nia|unfold x in *; nia|unfold x in *; nia|]. apply Z.divide_factor_r.
Qed.

Lemma align_up_overflow a size : size > UINT64_MAX - (a - 1) -> align_up a size = 0.
Proof. intros H. unfold align_up. rewrite Z.gtb_ltb. by rewrite (proj2 (Z.ltb_lt _ _)) by lia. Qed.

(** ** The choice of a buffer *)

(** A slot that [lr] can share. *)
Definition eligible (lr : LiveRange) (slot : BufferSlot) : Prop :=
  slot_device slot = lr_device lr /\ overlaps lr slot = false.

Lemma overlaps_false lr slot : overlaps lr slot = false <->
  forall b e, (b, e) ∈ intervals slot -> e < lr_begin lr \/ lr_end lr < b.
Proof.
  unfold overlaps. rewrite <-not_true_iff_false, existsb_exists. split.
  - intros H b e Hin. destruct (decide (e < lr_begin lr \/ lr_end lr < b)) as [|Hn]; [done|]. destruct H.
    exists (b, e). split; [by apply list_elem_of_In|]. cbn. rewrite Z.geb_leb. apply andb_true_iff. rewrite !Z.leb_le. lia.
  - intros H ([b e] & Hin & Hb). apply list_elem_of_In, H in Hin. cbn in Hb. rewrite Z.geb_leb in Hb. bool_to_prop. lia.
Qed.

(** [o] is the slot with property [P] and the best mark among those seen. *)
Definition pick (P : BufferSlot -> Prop) (better : Z -> Z -> Prop) (slots : list BufferSlot) (o : option (nat * Z)) : Prop :=
  match o with
  | Some (s, h) => exists slot, slots !! s = Some slot /\ P slot /\ high_water_mark slot = h /\
      forall s' slot', slots !! s' = Some slot' -> P slot' -> better h (high_water_mark slot')
  | None => forall s' slot', slots !! s' = Some slot' -> ~ P slot'
  end.

Lemma lookup_snoc {A} (l : list A) x s y : (l ++ [x]) !! s = Some y <-> l !! s = Some y \/ s = length l /\ y = x.
Proof.
  rewrite lookup_app_Some. split.
  - intros [?|[Hl H]]; [by left|right]. apply list_lookup_singleton_Some in H as [? <-]. split; [lia|done].
  - intros [?|[-> ->]]; [by left|right]. split; [lia|]. by rewrite Nat.sub_diag.
Qed.

Section Pick.
Context (P : BufferSlot -> Prop) (better : Z -> Z -> Prop) (slots : list BufferSlot) (slot : BufferSlot).

Lemma pick_keep o : pick P better slots o ->
  (P slot -> match o with Some (_, h) => better h (high_water_mark slot) | None => False end) ->
  pick P better (slots ++ [slot]) o.
Proof.
  destruct o as [[s h]|]; cbn.
  - intros (x & ? & ? & ? & H) Hs. exists x. split_and!; [apply lookup_snoc; by left|done|done|].
    intros s' x' [?|[-> ->]]%lookup_snoc; [by eapply H|done].
  - intros H Hs s' x' [?|[-> ->]]%lookup_snoc; [by eapply H|done].
Qed.

Lemma pick_take o : pick P better slots o -> P slot -> better (high_water_mark slot) (high_water_mark slot) ->
  match o with Some (_, h) => forall x, better h x -> better (high_water_mark slot) x | None => True end ->
  pick P better (slots ++ [slot]) (Some (length slots, high_water_mark slot)).
Proof.
  intros H HP Hr Hb. exists slot. split_and!; [apply lookup_snoc; by right|done|done|].
  intros s' x' [Hx|[-> ->]]%lookup_snoc HP'; [|done].
  destruct o as [[s h]|]; cbn in H; [|by destruct (H s' x' Hx)].
  destruct H as (x & _ & _ & _ & H). by eapply Hb, H.
Qed.
End Pick.

(** The smallest slot that fits, and the largest that does not. *)
Definition fitting (lr : LiveRange) (sz : Z) (slot : BufferSlot) : Prop := eligible lr slot /\ sz <= high_water_mark slot.
Definition growing (lr : LiveRange) (sz : Z) (slot : BufferSlot) : Prop := eligible lr slot /\ high_water_mark slot < sz.

Definition best_inv (lr : LiveRange) (sz : Z) (slots : list BufferSlot) (b : Best) : Prop :=
  pick (fitting lr sz) Z.le slots (best_fit b) /\ pick (growing lr sz) Z.ge slots (best_grow b).

Lemma consider_inv lr sz slots slot b : best_inv lr sz slots b ->
  best_inv lr sz (slots ++ [slot]) (consider lr sz b (length slots, slot)).
Proof.
  intros [Hf Hg]. unfold consider.
  assert (~ eligible lr slot -> best_inv lr sz (slots ++ [slot]) b) as Hskip.
  { intros Hn. split; apply pick_keep; try done; by intros [? _]. }
  destruct (bool_decide (slot_device slot = lr_device lr)) eqn:Ed; cbn [negb].
  2:{ apply bool_decide_eq_false in Ed. apply Hskip. by intros [? _]. }
  destruct (overlaps lr slot) eqn:Eo; [apply Hskip; intros [_ ?]; congruence|].
  apply bool_decide_eq_true in Ed. assert (eligible lr slot) as He by done. clear Hskip.
  rewrite Z.geb_leb. destruct (Z.leb_spec sz (high_water_mark slot)) as [Hge|Hlt].
  - assert (pick (growing lr sz) Z.ge (slots ++ [slot]) (best_grow b)) as Hg' by (apply pick_keep; [done|intros [_ ?]; lia]).
    pose proof (pick_take (fitting lr sz) Z.le slots slot _ Hf (conj He Hge) (Z.le_refl _)) as Ht.
    destruct (best_fit b) as [[s h]|] eqn:Eb.
    + destruct (Z.ltb_spec (high_water_mark slot) h); (split; [|done]); [apply Ht; cbn; lia|].
      rewrite Eb. apply pick_keep; [done|]. cbn. lia.
    + split; [|done]. by apply Ht.
  - assert (pick (fitting lr sz) Z.le (slots ++ [slot]) (best_fit b)) as Hf' by (apply pick_keep; [done|intros [_ ?]; lia]).
    pose proof (pick_take (growing lr sz) Z.ge slots slot _ Hg (conj He Hlt) ltac:(lia)) as Ht.
    destruct (best_grow b) as [[s h]|] eqn:Eb.
    + rewrite Z.gtb_ltb. destruct (Z.ltb_spec h (high_water_mark slot)); (split; [done|]); [apply Ht; cbn; lia|].
      rewrite Eb. apply pick_keep; [done|]. cbn. lia.
    + split; [done|]. by apply Ht.
Qed.

(** [l] with the index of each element. *)
Lemma enumerate_snoc {A} (l : list A) x : zip (seq 0 (length (l ++ [x]))) (l ++ [x]) = zip (seq 0 (length l)) l ++ [(length l, x)].
Proof. rewrite length_app, Nat.add_1_r, seq_S, zip_with_app by (by rewrite length_seq). done. Qed.

Lemma best_slot_inv slots lr sz :
  best_inv lr sz slots (foldl (consider lr sz) (mkBest None None) (zip (seq 0 (length slots)) slots)).
Proof.
  induction slots as [|slot slots IH] using rev_ind; [by split; intros ? ? ?|].
  rewrite enumerate_snoc, foldl_app. by apply consider_inv.
Qed.

(** Best fit: the chosen slot is free throughout the live range, on its device;
    it is the smallest that fits, or the largest if none fits; no slot is chosen
    only when none is free. *)
Lemma best_slot_spec slots lr sz :
  match best_slot slots lr sz with
  | Some s => exists slot, slots !! s = Some slot /\ eligible lr slot /\
      (fitting lr sz slot /\ (forall s' slot', slots !! s' = Some slot' -> fitting lr sz slot' -> high_water_mark slot <= high_water_mark slot') \/
       growing lr sz slot /\ (forall s' slot', slots !! s' = Some slot' -> eligible lr slot' -> high_water_mark slot' <= high_water_mark slot))
  | None => forall s slot, slots !! s = Some slot -> ~ eligible lr slot
  end.
Proof.
  unfold best_slot. destruct (best_slot_inv slots lr sz) as [Hf Hg].
  set (b := foldl _ _ _) in *. destruct (best_fit b) as [[s h]|]; cbn in Hf.
  - destruct Hf as (slot & ? & [? ?] & <- & H). exists slot. split_and!; [done|done|]. by left.
  - assert (forall s' slot', slots !! s' = Some slot' -> eligible lr slot' -> growing lr sz slot') as Hn.
    { intros s' x' Hx He. split; [done|]. destruct (decide (high_water_mark x' < sz)); [done|]. destruct (Hf s' x' Hx). split; [done|lia]. }
    destruct (best_grow b) as [[s h]|]; cbn in Hg.
    + destruct Hg as (slot & ? & [? ?] & <- & H). exists slot. split_and!; [done|done|]. right. split; [done|].
      intros s' x' Hx He. apply Z.ge_le. eauto.
    + intros s slot Hs He. by eapply Hg, Hn.
Qed.

End MemorySize.

(** ** The greedy assignment of the JIT memory planner

    The invariant of [greedy_assign] of JitMemory.v over the live ranges it has
    placed, and the counts of the plan: every buffer is in use, so the values
    that reuse one are all but the first of each. *)

Module MemoryGreedy.
Import Sums Jit Passes Memory MemorySize.

(** Two live ranges that no node touches both of. *)
Definition apart (a b : LiveRange) : Prop := lr_end a < lr_begin b \/ lr_end b < lr_begin a.

Section Greedy.
Context (alignment : Z).

Definition placed_size (lr : LiveRange) : Z := align_up alignment (lr_size lr).

(** The buffers after the ranges in [done]. *)
Record greedy_inv (done : list LiveRange) (slots : list BufferSlot) (allocations : gmap string BufferAllocation)
    : Prop := mkGreedyInv {
  gi_inj lr1 lr2 : lr1 ∈ done -> lr2 ∈ done -> lr_value_id lr1 = lr_value_id lr2 -> lr1 = lr2;
  gi_sound i a : allocations !! i = Some a -> exists lr s slot, lr ∈ done /\ lr_value_id lr = i /\
    a = mkBuffer (Z.of_nat s) 0 (lr_size lr) /\ placed_size lr <> 0 /\ slots !! s = Some slot /\
    (lr_begin lr, lr_end lr) ∈ intervals slot /\ slot_device slot = lr_device lr /\ placed_size lr <= high_water_mark slot;
  gi_complete lr : lr ∈ done -> placed_size lr <> 0 -> is_Some (allocations !! lr_value_id lr);
  gi_apart lr1 lr2 a1 a2 : lr1 ∈ done -> lr2 ∈ done -> lr_value_id lr1 <> lr_value_id lr2 ->
    allocations !! lr_value_id lr1 = Some a1 -> allocations !! lr_value_id lr2 = Some a2 ->
    ba_buffer_id a1 = ba_buffer_id a2 -> apart lr1 lr2;
  gi_tight s slot : slots !! s = Some slot -> exists lr a, lr ∈ done /\ allocations !! lr_value_id lr = Some a /\
    ba_buffer_id a = Z.of_nat s /\ placed_size lr = high_water_mark slot
}.

Lemma greedy_start : greedy_inv [] [] ∅.
Proof.
  split; [|done| | |done]; intros ? *; by intros ?%not_elem_of_nil.
Qed.

Section Step.
Context (seen : list LiveRange) (slots : list BufferSlot) (allocations : gmap string BufferAllocation).
Context (I : greedy_inv seen slots allocations) (lr : LiveRange) (Hfresh : forall lr', lr' ∈ seen -> lr_value_id lr' <> lr_value_id lr).

Lemma fresh_alloc : allocations !! lr_value_id lr = None.
Proof.
  destruct (allocations !! lr_value_id lr) as [a|] eqn:E; [|done].
  apply (gi_sound _ _ _ I) in E as (lr' & _ & _ & Hin & E & _). by destruct (Hfresh lr' Hin).
Qed.

(** The slot that [lr] goes to. *)
Definition slot_after (o : option BufferSlot) : BufferSlot :=
  match o with
  | Some slot => occupy lr (placed_size lr) slot
  | None => mkSlot (placed_size lr) [(lr_begin lr, lr_end lr)] (lr_device lr)
  end.

Lemma slot_after_spec o : (forall slot, o = Some slot -> eligible lr slot) ->
  (lr_begin lr, lr_end lr) ∈ intervals (slot_after o) /\ slot_device (slot_after o) = lr_device lr /\
  placed_size lr <= high_water_mark (slot_after o) /\
  (forall slot, o = Some slot -> slot_device slot = lr_device lr /\ (forall p, p ∈ intervals slot -> p ∈ intervals (slot_after o)) /\
     high_water_mark slot <= high_water_mark (slot_after o)) /\
  (high_water_mark (slot_after o) = placed_size lr \/ exists slot, o = Some slot /\ high_water_mark (slot_after o) = high_water_mark slot).
Proof.
  intros He. destruct o as [slot|]; cbn.
  - destruct (He slot eq_refl) as [Hd _]. split_and!; [apply elem_of_app; right; left|done|lia| |].
    + intros slot' [= <-]. split_and!; [done| |lia]. intros p Hp. apply elem_of_app. by left.
    + destruct (Z.max_spec (high_water_mark slot) (placed_size lr)) as [[_ ->]|[_ ->]]; [by left|right; eauto].
  - split_and!; [left|done|lia|done|by left].
Qed.

Section Place.
Context (s : nat) (slots' : list BufferSlot) (Hsz : placed_size lr <> 0).
Context (Hs : forall s', slots' !! s' = if decide (s' = s) then Some (slot_after (slots !! s)) else slots !! s').
Context (He : forall slot, slots !! s = Some slot -> eligible lr slot).

Let allocations' := <[lr_value_id lr := mkBuffer (Z.of_nat s) 0 (lr_size lr)]> allocations.

Lemma place_keep lr' : lr' ∈ seen -> allocations' !! lr_value_id lr' = allocations !! lr_value_id lr'.
Proof. intros Hin. apply lookup_insert_ne. by apply not_eq_sym, Hfresh. Qed.

Lemma place_new : allocations' !! lr_value_id lr = Some (mkBuffer (Z.of_nat s) 0 (lr_size lr)).
Proof. apply lookup_insert_eq. Qed.

Lemma place_apart lr' a : lr' ∈ seen -> allocations !! lr_value_id lr' = Some a -> ba_buffer_id a = Z.of_nat s -> apart lr' lr.
Proof.
  intros Hin Ha Hb. destruct (gi_sound _ _ _ I _ _ Ha) as (lr1 & s1 & slot & Hin1 & E & -> & _ & Hl & Hi & _).
  cbn in Hb. apply Nat2Z.inj in Hb as ->. rewrite (gi_inj _ _ _ I lr1 lr' Hin1 Hin E) in Hi.
  destruct (He slot Hl) as [_ Ho]. by eapply overlaps_false.
Qed.

Lemma greedy_place : greedy_inv (seen ++ [lr]) slots' allocations'.
Proof.
  destruct (slot_after_spec (slots !! s) He) as (Hin0 & Hd0 & Hz0 & Hold & Hw). split.
  - intros lr1 lr2 [H1| ->%list_elem_of_singleton]%elem_of_app [H2| ->%list_elem_of_singleton]%elem_of_app E; [by eapply gi_inj| | |done].
    + by destruct (Hfresh lr1 H1).
    + by destruct (Hfresh lr2 H2).
  - intros i a Ha. destruct (decide (i = lr_value_id lr)) as [->|Hne].
    + rewrite place_new in Ha. injection Ha as <-. exists lr, s, (slot_after (slots !! s)). rewrite Hs, decide_True by done.
      split_and!; [apply elem_of_app; right; left|done..].
    + unfold allocations' in Ha. rewrite lookup_insert_ne in Ha by done.
      destruct (gi_sound _ _ _ I _ _ Ha) as (lr1 & s1 & slot & ? & ? & ? & ? & Hl & ? & ? & ?).
      assert (exists slot1, slots' !! s1 = Some slot1 /\ (forall p, p ∈ intervals slot -> p ∈ intervals slot1) /\
        slot_device slot1 = slot_device slot /\ high_water_mark slot <= high_water_mark slot1) as (slot1 & ? & Hp & ? & ?).
      { rewrite Hs. case_decide as E; [|exists slot; naive_solver lia]. subst s1. destruct (Hold slot Hl) as (? & ? & ?).
        eexists. split; [done|]. split_and!; [done|congruence|done]. }
      exists lr1, s1, slot1. split_and!; [apply elem_of_app; by left|done|done|done|done|by apply Hp|congruence|lia].
  - intros lr1 [H1| ->%list_elem_of_singleton]%elem_of_app Hz; [|rewrite place_new; by eexists].
    rewrite place_keep by done. by eapply gi_complete.
  - intros lr1 lr2 a1 a2 [H1| ->%list_elem_of_singleton]%elem_of_app [H2| ->%list_elem_of_singleton]%elem_of_app Hne; [| | |done].
    + rewrite !place_keep by done. by eapply gi_apart.
    + rewrite place_new, place_keep by done. intros Ha [= <-] E. by eapply place_apart.
    + rewrite place_new, place_keep by done. intros [= <-] Ha E.
      destruct (place_apart lr2 a2 H2 Ha (eq_sym E)); [by right|by left].
  - intros s' slot Hl. rewrite Hs in Hl. case_decide as E.
    + injection Hl as <-. subst s'. destruct Hw as [Hw|(slot & Hl & Hw)].
      * exists lr, (mkBuffer (Z.of_nat s) 0 (lr_size lr)). split_and!; [apply elem_of_app; right; left|apply place_new|done|done].
      * destruct (gi_tight _ _ _ I s slot Hl) as (lr1 & a & ? & ? & ? & ?). exists lr1, a.
        rewrite place_keep by done. split_and!; [apply elem_of_app; by left|done|done|congruence].
    + destruct (gi_tight _ _ _ I s' slot Hl) as (lr1 & a & ? & ? & ? & ?). exists lr1, a.
      rewrite place_keep by done. split_and!; [apply elem_of_app; by left|done..].
Qed.
End Place.

(** A range whose size cannot be rounded up has no buffer. *)
Lemma greedy_skip : placed_size lr = 0 -> greedy_inv (seen ++ [lr]) slots allocations.
Proof.
  intros Hz.
  split.
  - intros lr1 lr2 [H1| ->%list_elem_of_singleton]%elem_of_app [H2| ->%list_elem_of_singleton]%elem_of_app E; [by eapply gi_inj| | |done].
    + by destruct (Hfresh lr1 H1).
    + by destruct (Hfresh lr2 H2).
  - intros i a Ha. destruct (gi_sound _ _ _ I _ _ Ha) as (lr1 & s1 & slot & ? & ?). exists lr1, s1, slot.
    split; [apply elem_of_app; by left|done].
  - intros lr1 [H1| ->%list_elem_of_singleton]%elem_of_app Hz1; [by eapply gi_complete|done].
  - intros lr1 lr2 a1 a2 [H1| ->%list_elem_of_singleton]%elem_of_app [H2| ->%list_elem_of_singleton]%elem_of_app Hne; [by eapply gi_apart| | |done].
    + intros _. by rewrite fresh_alloc.
    + by rewrite fresh_alloc.
  - intros s slot Hl. destruct (gi_tight _ _ _ I s slot Hl) as (lr1 & a & ? & ?). exists lr1, a.
    split; [apply elem_of_app; by left|done].
Qed.

Lemma greedy_step : let '(slots', allocations') := assign_slot alignment (slots, allocations) lr in
  greedy_inv (seen ++ [lr]) slots' allocations'.
Proof.
  unfold assign_slot. fold (placed_size lr). destruct (Z.eqb_spec (placed_size lr) 0) as [Hz|Hz].
  - by apply greedy_skip.
  - pose proof (best_slot_spec slots lr (placed_size lr)) as Hb. destruct (best_slot slots lr (placed_size lr)) as [s|].
    + destruct Hb as (slot & Hl & He & _). apply greedy_place; [done| |intros ?; rewrite Hl; by intros [= <-]].
      intros s'. rewrite list_lookup_alter. case_decide; [subst|]; rewrite ?decide_True, ?decide_False by done; [by rewrite Hl|done].
    + assert (slots !! length slots = None) as Hn by by apply lookup_ge_None.
      unfold lenZ. apply greedy_place; [done| |by rewrite Hn]. intros s'. rewrite Hn. case_decide; [subst|].
      * by rewrite list_lookup_middle.
      * destruct (decide (s' < length slots)%nat); [by rewrite lookup_app_l|]. rewrite !lookup_ge_None_2; [done|lia|].
        rewrite length_app. cbn. lia.
Qed.
End Step.

Lemma greedy_fold lrs : NoDup (map lr_value_id lrs) ->
  let '(slots, allocations) := foldl (assign_slot alignment) ([], ∅) lrs in greedy_inv lrs slots allocations.
Proof.
  induction lrs as [|lr lrs IH] using rev_ind; [intros _; apply greedy_start|]. rewrite map_app, foldl_app.
  intros (Hnd & Hd & _)%NoDup_app. specialize (IH Hnd). destruct (foldl _ _ lrs) as [slots allocations].
  apply greedy_step; [done|]. intros lr' Hin E. apply (Hd (lr_value_id lr')); [by apply list_elem_of_fmap_2|].
  rewrite E. left.
Qed.

(** Any order the sort leaves gives an assignment with the invariant. *)
Lemma greedy_assign_inv `{HS : !StdSort} lrs : NoDup (map lr_value_id lrs) -> exists slots,
  (greedy_assign alignment lrs).1 = map high_water_mark slots /\ greedy_inv lrs slots (greedy_assign alignment lrs).2.
Proof.
  intros Hnd. pose proof (sort_perm before lrs) as Hp. unfold greedy_assign.
  pose proof (greedy_fold (sort before lrs)) as H. destruct (foldl _ _ _) as [slots allocations].
  exists slots. split; [done|]. destruct H as [H1 H2 H3 H4 H5].
  { assert (map lr_value_id (sort before lrs) ≡ₚ map lr_value_id lrs) as -> by by apply Permutation_map. done. }
  split.
  - intros lr1 lr2. rewrite <-Hp. apply H1.
  - intros i a. setoid_rewrite <-Hp. apply H2.
  - intros lr. rewrite <-Hp. apply H3.
  - intros lr1 lr2 a1 a2. rewrite <-Hp. apply H4.
  - intros s slot. setoid_rewrite <-Hp. apply H5.
Qed.

End Greedy.

(** ** Counting *)

Section Counts.
Context `{HU : !Unordered}.

Definition count_buffers (l : list Z) : gmap Z Z := foldl (fun m b => <[b := default 0 (m !! b) + 1]> m) ∅ l.

Lemma count_buffers_spec l : (forall b c, count_buffers l !! b = Some c -> 1 <= c) /\
  (forall b, is_Some (count_buffers l !! b) <-> b ∈ l) /\ total (fun c => c) (count_buffers l) = lenZ l.
Proof.
  unfold count_buffers. induction l as [|b l (H1 & H2 & H3)] using rev_ind.
  { split_and!; [done| |done]. intros b. cbn [foldl]. rewrite lookup_empty, elem_of_nil, is_Some_alt. done. }
  rewrite foldl_app. cbn [foldl]. set (m := foldl _ ∅ l) in *. split_and!.
  - intros b' c. destruct (decide (b = b')) as [<-|Hne]; [|rewrite lookup_insert_ne by done; apply H1].
    rewrite lookup_insert_eq. intros [= <-]. destruct (m !! b) as [c|] eqn:E; cbn; [|lia]. apply H1 in E. lia.
  - intros b'. rewrite elem_of_app, list_elem_of_singleton, <-H2. destruct (decide (b = b')) as [<-|Hne].
    + rewrite lookup_insert_eq. split; [by right|by eexists].
    + rewrite lookup_insert_ne by done. naive_solver.
  - rewrite lenZ_app, <-H3. change (lenZ [b]) with 1. destruct (m !! b) as [c|] eqn:E; cbn [default from_option].
    + pose proof (total_update (fun c => c) m b c (c + 1) E). unfold Datatypes.id. cbv beta in *. lia.
    + rewrite total_insert by done. lia.
Qed.

Lemma buffer_use_counts_eq allocations :
  buffer_use_counts allocations = count_buffers (map (fun p => ba_buffer_id p.2) (entries allocations)).
Proof.
  unfold buffer_use_counts, count_buffers. generalize (∅ : gmap Z Z).
  induction (entries allocations) as [|p l IH]; intros m; [done|]. cbn. apply IH.
Qed.

Lemma total_entries (f : Z -> Z) (m : gmap Z Z) : total f m = sumZ_with (fun p => f p.2) (entries m).
Proof.
  rewrite (sumZ_with_perm _ _ _ (entries_perm m)). unfold total. rewrite map_fold_foldr.
  induction (map_to_list m) as [|[k c] l IH]; [done|]. cbn. by rewrite <-IH.
Qed.

Lemma num_reused_total allocations :
  num_reused allocations = total (fun c => if c >? 1 then c - 1 else 0) (buffer_use_counts allocations).
Proof.
  rewrite total_entries. unfold num_reused. generalize (entries (buffer_use_counts allocations)). intros l.
  enough (forall n, foldl (fun n (p : Z * Z) => if p.2 >? 1 then n + (p.2 - 1) else n) n l =
    n + sumZ_with (fun p => if p.2 >? 1 then p.2 - 1 else 0) l) as -> by lia.
  induction l as [|p l IH]; intros n; cbn; [lia|]. rewrite IH. destruct (p.2 >? 1); lia.
Qed.

Lemma total_pred (m : gmap Z Z) : (forall b c, m !! b = Some c -> 1 <= c) ->
  total (fun c => if c >? 1 then c - 1 else 0) m = total (fun c => c) m - Z.of_nat (size m).
Proof.
  induction m as [|b c m Hb IH] using map_ind; intros H; [by rewrite !total_empty, map_size_empty|].
  rewrite !total_insert, map_size_insert_None, IH by (done || (intros b' c' Hb'; apply (H b');
    rewrite lookup_insert_ne; [done|congruence])).
  pose proof (H b c (lookup_insert_eq _ _ _)). rewrite Z.gtb_ltb. destruct (Z.ltb_spec 1 c); lia.
Qed.

(** Every value but the first of each buffer reuses one. *)
Lemma num_reused_spec alignment lrs slots allocations : greedy_inv alignment lrs slots allocations ->
  num_reused allocations = Z.of_nat (size allocations) - lenZ slots.
Proof.
  intros I. rewrite num_reused_total, buffer_use_counts_eq.
  destruct (count_buffers_spec (map (fun p => ba_buffer_id p.2) (entries allocations))) as (H1 & H2 & H3).
  rewrite total_pred by done. rewrite H3. set (m := count_buffers _) in *.
  unfold lenZ. rewrite length_map, (Permutation_length (entries_perm allocations)), length_map_to_list. assert (size m = length slots) as ->; [|done].
  rewrite <-size_dom. transitivity (size (list_to_set (map Z.of_nat (seq 0 (length slots))) : gset Z)).
  - f_equal. apply set_eq. intros b. rewrite elem_of_dom, H2, elem_of_list_to_set. split.
    + intros ([i a] & -> & Hp)%list_elem_of_fmap. rewrite entries_perm in Hp. apply elem_of_map_to_list in Hp.
      destruct (gi_sound _ _ _ _ I i a Hp) as (lr & s & slot & _ & _ & -> & _ & Hs & _). cbn.
      apply list_elem_of_fmap_2, elem_of_seq. apply lookup_lt_Some in Hs. lia.
    + intros (s & -> & Hs%elem_of_seq)%list_elem_of_fmap. destruct (lookup_lt_is_Some_2 slots s) as [slot Hl]; [lia|].
      destruct (gi_tight _ _ _ _ I s slot Hl) as (lr & a & _ & Ha & <- & _).
      apply (list_elem_of_fmap_2 (fun p : string * BufferAllocation => ba_buffer_id p.2) _ (lr_value_id lr, a)).
      rewrite entries_perm. by apply elem_of_map_to_list.
  - rewrite size_list_to_set, length_map, length_seq; [done|]. apply NoDup_fmap_2; [apply _|apply NoDup_seq].
Qed.

End Counts.
End MemoryGreedy.
