(* ===== verification/JitMemoryExec.v ===== *)
(** * Live ranges of the JIT memory planner

    [compute_live_ranges] of JitMemory.v gives every intermediate value the
    interval from the node that produces it to the last node that reads it,
    directly or in a graph it owns. *)

From stdpp Require Import base list numbers strings gmap sorting.
From S2P Require Import Prelude Shape DType JitOps JitGraph JitFlow JitExec JitMeaning JitPasses JitDce JitMemory JitMemoryGreedy.

Module MemoryRange.
Import Jit Flow Exec Meaning Passes Contract Memory MemorySize.

Section Ranges.
Context {T : Type} (st : Heap T) (g : Z).

(** The ids that node [n] assigns and a plan may place. *)
Definition born_ids (n : Z) : list string :=
  value_ids st (filter (fun v => is_excluded st g v = false) (outputs (node st n))).

(** The ids read by the nodes of [h], to depth [d], and by a node. *)
Fixpoint nested_reads (d : nat) (h : Z) : list string :=
  match d with
  | O => []
  | S d => concat (map (fun sn => value_ids st (inputs (node st sn)) ++
                                  concat (map (nested_reads d) (subgraphs (node st sn)))) (nodes (graph st h)))
  end.

Definition node_reads (d : nat) (n : Z) : list string :=
  value_ids st (inputs (node st n)) ++ concat (map (nested_reads d) (subgraphs (node st n))).

(** [i] is assigned last by node [b] of [ns], nothing from there reads it after
    [e], and [e] reads it unless it is [b]. *)
Record spans (d : nat) (ns : list Z) (i : string) (b e : nat) : Prop := mkSpans {
  sp_born : exists n, ns !! b = Some n /\ i ∈ born_ids n;
  sp_last k n : ns !! k = Some n -> i ∈ born_ids n -> (k <= b)%nat;
  sp_reads k n : (b <= k)%nat -> ns !! k = Some n -> i ∈ node_reads d n -> (k <= e)%nat;
  sp_bound : (b <= e < length ns)%nat;
  sp_end : e = b \/ exists n, ns !! e = Some n /\ i ∈ node_reads d n
}.

(** ** The updates of the map *)

Definition touch_all (k : Z) (ids : list string) (m : gmap string RangeInfo) : gmap string RangeInfo :=
  foldl (fun m i => alter (extend k) i m) m ids.

Lemma touch_all_app k l1 l2 m : touch_all k (l1 ++ l2) m = touch_all k l2 (touch_all k l1 m).
Proof. apply foldl_app. Qed.

Lemma extend_extend k info : extend k (extend k info) = extend k info.
Proof. unfold extend. cbn. f_equal. lia. Qed.

Lemma lookup_touch_all k ids m i :
  touch_all k ids m !! i = if decide (i ∈ ids) then extend k <$> (m !! i) else m !! i.
Proof.
  revert m. induction ids as [|j ids IH]; intros m; cbn [touch_all foldl]; [done|].
  change (touch_all k ids (alter (extend k) j m) !! i = if decide (i ∈ j :: ids) then extend k <$> m !! i else m !! i).
  rewrite IH. destruct (decide (i = j)) as [->|Hne].
  - rewrite lookup_alter_eq, (decide_True (P := j ∈ j :: ids)) by left. case_decide; [|done].
    destruct (m !! j); cbn; [|done]. by rewrite extend_extend.
  - rewrite lookup_alter_ne by done. apply not_eq_sym in Hne.
    rewrite (decide_ext (i ∈ j :: ids) (i ∈ ids)); [done|]. rewrite elem_of_cons. naive_solver.
Qed.

Lemma used_all k vs m : foldl (used st k) m vs = touch_all k (value_ids st vs) m.
Proof. revert m. induction vs as [|v vs IH]; intros m; [done|]. cbn. apply IH. Qed.

Lemma rfoldM_touch {A} k (f : gmap string RangeInfo -> A -> result (gmap string RangeInfo)) (R : A -> list string) l m :
  (forall x m, x ∈ l -> f m x = Ok (touch_all k (R x) m)) -> rfoldM f l m = Ok (touch_all k (concat (map R l)) m).
Proof.
  revert m. induction l as [|x l IH]; intros m H; [done|]. cbn [rfoldM map concat].
  rewrite H by left. cbn [rbind]. rewrite touch_all_app.
  apply IH. intros y m' Hy. apply H. by right.
Qed.

Lemma extend_for_subgraph_reads d k h m : nested d st h ->
  extend_for_subgraph d st k h m = Ok (touch_all k (nested_reads d h) m).
Proof.
  revert h m. induction d as [|d IH]; intros h m Hn; [done|]. cbn. apply rfoldM_touch. intros sn m' Hsn.
  rewrite used_all, touch_all_app. apply rfoldM_touch. intros h' m'' Hh. apply IH. by eapply Hn.
Qed.

Lemma lookup_born k vs m i : foldl (born st g k) m vs !! i =
  if decide (i ∈ value_ids st (filter (fun v => is_excluded st g v = false) vs)) then Some (mkRange k k i) else m !! i.
Proof.
  induction vs as [|v vs IH] using rev_ind; [done|]. rewrite foldl_app. cbn [foldl]. unfold born at 1.
  rewrite filter_app. unfold value_ids in *. rewrite map_app. destruct (is_excluded st g v) eqn:E.
  - rewrite filter_cons_False, filter_nil by congruence. by rewrite app_nil_r.
  - rewrite filter_cons_True, filter_nil by done. destruct (decide (id (value st v) = i)) as [<-|Hne].
    + rewrite lookup_insert_eq, decide_True; [done|]. apply elem_of_app. right; left.
    + rewrite lookup_insert_ne, IH by done. erewrite decide_ext; [done|]. rewrite elem_of_app. cbn.
      rewrite list_elem_of_singleton. naive_solver.
Qed.

Lemma scan_node_touch d m k n : (forall h, h ∈ subgraphs (node st n) -> nested d st h) ->
  scan_node d st g m (k, n) = Ok (touch_all (Z.of_nat k) (node_reads d n) (foldl (born st g (Z.of_nat k)) m (outputs (node st n)))).
Proof.
  intros Hn. unfold scan_node, node_reads. rewrite used_all, touch_all_app. apply rfoldM_touch.
  intros h m' Hh. by apply extend_for_subgraph_reads, Hn.
Qed.

(** ** The invariant of the scan *)

Definition ranges_inv (d : nat) (ns : list Z) (m : gmap string RangeInfo) : Prop := forall i,
  match m !! i with
  | Some info => exists b e, info = mkRange (Z.of_nat b) (Z.of_nat e) i /\ spans d ns i b e
  | None => forall k n, ns !! k = Some n -> i ∉ born_ids n
  end.

(** A value that node [n] does not assign keeps its birth; reading it extends it. *)
Lemma spans_snoc d ns n i b e : spans d ns i b e -> i ∉ born_ids n ->
  spans d (ns ++ [n]) i b (if decide (i ∈ node_reads d n) then length ns else e).
Proof.
  intros [(n0 & Hb & Hi) Hl Hr Hbe He] Hn. split.
  - exists n0. split; [apply lookup_snoc; by left|done].
  - intros k n' [Hk|[-> ->]]%lookup_snoc Hin; [by eapply Hl|done].
  - intros k n' Hk [Hk'|[-> ->]]%lookup_snoc Hin.
    + specialize (Hr k n' Hk Hk' Hin). case_decide; lia.
    + rewrite decide_True by done. lia.
  - rewrite length_app. cbn. case_decide; lia.
  - case_decide as Hd; [right; exists n; split; [apply lookup_snoc; by right|done]|].
    destruct He as [?|(n' & ? & ?)]; [by left|right]. exists n'. split; [apply lookup_snoc; by left|done].
Qed.

Lemma spans_born d ns n i : i ∈ born_ids n -> spans d (ns ++ [n]) i (length ns) (length ns).
Proof.
  intros Hi. assert ((ns ++ [n]) !! length ns = Some n) as Hn by (apply lookup_snoc; by right). split.
  - by exists n.
  - intros k n' [Hk%lookup_lt_Some|[-> _]]%lookup_snoc _; lia.
  - intros k n' Hk [Hk'%lookup_lt_Some|[-> _]]%lookup_snoc _; lia.
  - rewrite length_app. cbn. lia.
  - by left.
Qed.

Lemma ranges_step d ns n m : ranges_inv d ns m ->
  ranges_inv d (ns ++ [n]) (touch_all (lenZ ns) (node_reads d n) (foldl (born st g (lenZ ns)) m (outputs (node st n)))).
Proof.
  intros I i. rewrite lookup_touch_all, lookup_born. fold (born_ids n). unfold lenZ.
  destruct (decide (i ∈ born_ids n)) as [Hb|Hb].
  - assert (exists info, (if decide (i ∈ node_reads d n) then extend (Z.of_nat (length ns)) <$> Some (mkRange (Z.of_nat (length ns)) (Z.of_nat (length ns)) i)
      else Some (mkRange (Z.of_nat (length ns)) (Z.of_nat (length ns)) i)) = Some info /\
      info = mkRange (Z.of_nat (length ns)) (Z.of_nat (length ns)) i) as (info & -> & ->).
    { case_decide; eexists; (split; [done|]); [|done]. unfold extend. cbn. by rewrite Z.max_id. }
    exists (length ns), (length ns). split; [done|]. by apply spans_born.
  - specialize (I i). destruct (m !! i) as [info|] eqn:E.
    + destruct I as (b & e & -> & Hs). pose proof (sp_bound _ _ _ _ _ Hs) as Hbe.
      pose proof (spans_snoc d ns n i b e Hs Hb) as Hs'. case_decide; cbn; (eexists b, _; split; [|exact Hs']); [|done].
      unfold extend. cbn. f_equal. lia.
    + assert ((if decide (i ∈ node_reads d n) then extend (Z.of_nat (length ns)) <$> None else None) = None) as -> by by case_decide.
      intros k n' [Hk|[-> ->]]%lookup_snoc; [by eapply I|done].
Qed.

Lemma scan_ranges d : nested (S d) st g -> exists m,
  rfoldM (scan_node d st g) (enumerate (nodes (graph st g))) ∅ = Ok m /\ ranges_inv d (nodes (graph st g)) m.
Proof.
  intros Hn. assert (forall n, n ∈ nodes (graph st g) -> forall h, h ∈ subgraphs (node st n) -> nested d st h) as Hs.
  { intros n Hin h Hh. by eapply Hn. }
  clear Hn. unfold enumerate. induction (nodes (graph st g)) as [|n ns IH] using rev_ind.
  { exists ∅. split; [done|]. intros i. rewrite lookup_empty. intros k n. by rewrite lookup_nil. }
  destruct IH as (m & E & I); [intros n' Hn'; apply Hs, elem_of_app; by left|].
  rewrite enumerate_snoc, rfoldM_app, E. cbn [rbind]. rewrite rfoldM_single, scan_node_touch by
    (apply Hs, elem_of_app; right; left).
  eexists. split; [done|]. by apply ranges_step.
Qed.

(** ** The live ranges *)

(** The live range of a value of the graph. *)
Definition range_of (d : nat) (lr : LiveRange) : Prop := exists v b e,
  get_value st g (lr_value_id lr) = Some v /\ spans d (nodes (graph st g)) (lr_value_id lr) b e /\
  lr_begin lr = Z.of_nat b /\ lr_end lr = Z.of_nat e /\ lr_size lr = compute_value_size (value st v) /\
  lr_size lr <> 0 /\ lr_device lr = device (value st v).

Context `{HU : !Unordered}.

(** One live range for each value that is assigned, not excluded and has a size. *)
Lemma compute_live_ranges_spec d : nested (S d) st g -> exists lrs,
  compute_live_ranges d g st = Ok lrs /\ NoDup (map lr_value_id lrs) /\ (forall lr, lr ∈ lrs -> range_of d lr) /\
  forall n i v, n ∈ nodes (graph st g) -> i ∈ born_ids n -> get_value st g i = Some v ->
    compute_value_size (value st v) <> 0 -> exists lr, lr ∈ lrs /\ lr_value_id lr = i.
Proof.
  intros Hn. destruct (scan_ranges d Hn) as (m & E & I). unfold compute_live_ranges. rewrite E. cbn [rbind].
  assert (forall p, p ∈ entries m -> m !! p.1 = Some p.2) as Hent.
  { intros [i info] Hp. rewrite entries_perm in Hp. by apply elem_of_map_to_list in Hp. }
  assert (forall p lr, m !! p.1 = Some p.2 -> live_range st g p = Some lr -> lr_value_id lr = p.1 /\ range_of d lr) as Hlr.
  { intros [i info] lr Hi H. specialize (I i). cbn in Hi. rewrite Hi in I. destruct I as (b & e & -> & Hs).
    unfold live_range in H. cbn [fst snd] in H. destruct (get_value st g i) as [v|] eqn:Ev; [|done].
    cbn zeta in H. destruct (Z.eqb_spec (compute_value_size (value st v)) 0); [done|]. injection H as <-. split; [done|].
    exists v, b, e. by split_and!. }
  eexists. split_and!; [done| | |].
  - assert (NoDup (map fst (entries m))) as Hnd.
    { assert (map fst (entries m) ≡ₚ map fst (map_to_list m)) as -> by apply Permutation_map, entries_perm.
      apply NoDup_fst_map_to_list. }
    clear E. induction (entries m) as [|p l IH]; [constructor|]. cbn in Hnd. apply NoDup_cons in Hnd as [Hp Hnd].
    cbn [omap list_omap]. destruct (live_range st g p) as [lr|] eqn:El;
      [|apply IH; [intros q Hq; apply Hent; by right|done]].
    cbn. apply NoDup_cons. split; [|apply IH; [intros q Hq; apply Hent; by right|done]].
    destruct (Hlr p lr (Hent p (list_elem_of_here _ _)) El) as [-> _]. intros (lr' & Eq & H)%list_elem_of_fmap.
    apply list_elem_of_omap in H as (q & Hq & El'). apply Hp. apply list_elem_of_fmap. exists q. split; [|done].
    rewrite Eq. by destruct (Hlr q lr' (Hent q (list_elem_of_further _ _ _ Hq)) El') as [-> _].
  - intros lr (p & Hp & El)%list_elem_of_omap. by apply (Hlr p lr (Hent p Hp) El).
  - intros n i v [k Hk]%list_elem_of_lookup Hi Hv Hsz. specialize (I i). destruct (m !! i) as [info|] eqn:Em; [|by destruct (I k n Hk)].
    assert ((i, info) ∈ entries m) as Hp by (rewrite entries_perm; by apply elem_of_map_to_list).
    assert (exists lr, live_range st g (i, info) = Some lr) as [lr El].
    { unfold live_range. cbn [fst snd]. rewrite Hv. cbn zeta. destruct (Z.eqb_spec (compute_value_size (value st v)) 0); [done|by eexists]. }
    exists lr. split; [apply list_elem_of_omap; by exists (i, info)|]. exact (proj1 (Hlr (i, info) lr Em El)).
Qed.

End Ranges.
End MemoryRange.

(** ** Executing with shared buffers

    What a memory plan is for, after the example of
    include/tenzor/jit/memory_planner.hpp: every pool is allocated once, and a
    planned value lives in its pool at its offset, as bytes, while any other
    value has storage of its own.  A node's kernel may write its outputs before
    it has read its inputs, so the buffers of the outputs are overwritten first.
    [pooled_run] shows when that computes what [run] of JitFlow.v computes: the
    buffers of values that are live together must differ. *)

Module Pools.
Import Flow Memory.

(** The bytes of a tensor, given its shape and type. *)
Class Layout (T : Type) := { to_bytes : T -> list Z; of_bytes : list Z -> DType -> list Z -> T }.

Definition Pool : Type := list Z.

(** Access to a buffer; outside of the pool it is undefined. *)
Definition load (pools : list Pool) (a : BufferAllocation) : result (list Z) :=
  match pools !! Z.to_nat (ba_buffer_id a) with
  | Some p => if ba_offset a + ba_size a <=? lenZ p
              then Ok (take (Z.to_nat (ba_size a)) (drop (Z.to_nat (ba_offset a)) p)) else Err UndefinedBehaviour
  | None => Err UndefinedBehaviour
  end.

Definition splice (off : nat) (bs p : list Z) : list Z := take off p ++ bs ++ drop (off + length bs) p.

Definition place (a : BufferAllocation) (bs : list Z) (pools : list Pool) : result (list Pool) :=
  match pools !! Z.to_nat (ba_buffer_id a) with
  | Some p => if ba_offset a + lenZ bs <=? lenZ p
              then Ok (<[Z.to_nat (ba_buffer_id a) := splice (Z.to_nat (ba_offset a)) bs p]> pools) else Err UndefinedBehaviour
  | None => Err UndefinedBehaviour
  end.

Section Pooled.
Context {K T : Type} `{!Layout T}.
Context (F : K -> list T -> result (list T)).
Context (A : gmap string BufferAllocation) (ty : string -> list Z * DType) (junk : string -> nat -> Z).

Definition Store : Type := gmap string T * list Pool.

Definition fetch (s : Store) (i : string) : result T :=
  match A !! i with
  | Some a => let* bs := load s.2 a in Ok (of_bytes (ty i).1 (ty i).2 bs)
  | None => match s.1 !! i with Some t => Ok t | None => Err unavailable end
  end.

Definition put (s : Store) (p : string * T) : result Store :=
  match A !! p.1 with
  | Some a => let* pools := place a (to_bytes p.2) s.2 in Ok (s.1, pools)
  | None => Ok (<[p.1 := p.2]> s.1, s.2)
  end.

Definition scribble (s : Store) (i : string) : result Store :=
  match A !! i with
  | Some a => let* pools := place a (map (junk i) (seq 0 (Z.to_nat (ba_size a)))) s.2 in Ok (s.1, pools)
  | None => Ok s
  end.

Fixpoint pooled_run (es : list (Eqn K)) (s : Store) : result Store :=
  match es with
  | [] => Ok s
  | e :: es =>
      let* s := rfoldM scribble (e_outs e) s in
      let* xs := rmapM (fetch s) (e_ins e) in
      let* ys := F (e_op e) xs in
      let* s := rfoldM put (zip (e_outs e) ys) s in
      pooled_run es s
  end.

(** ** Buffers *)

Definition valid (pools : list Pool) (a : BufferAllocation) : Prop :=
  0 <= ba_buffer_id a /\ 0 <= ba_offset a /\ 0 <= ba_size a /\
  exists p, pools !! Z.to_nat (ba_buffer_id a) = Some p /\ ba_offset a + ba_size a <= lenZ p.

Definition same_pools (pools pools' : list Pool) : Prop := map length pools' = map length pools.

Lemma same_pools_valid pools pools' a : same_pools pools pools' -> valid pools a -> valid pools' a.
Proof.
  intros E (? & ? & ? & p & Hp & ?). split_and!; [done|done|done|].
  assert (map length pools' !! Z.to_nat (ba_buffer_id a) = Some (length p)) as H' by (rewrite E; apply list_lookup_fmap_Some; eauto).
  apply list_lookup_fmap_Some in H' as (p' & Hl & Hp'). exists p'. split; [done|]. unfold lenZ in *. lia.
Qed.

(** One write: inside the pool, it can be read back and changes no other pool. *)
Lemma place_valid pools a bs : valid pools a -> lenZ bs = ba_size a -> exists pools', place a bs pools = Ok pools' /\
  same_pools pools pools' /\ load pools' a = Ok bs /\
  forall a', valid pools a' -> ba_buffer_id a' <> ba_buffer_id a -> load pools' a' = load pools a'.
Proof.
  intros (Hb & Ho & Hs & p & Hp & Hle) Hl. unfold place. rewrite Hp, Hl, (proj2 (Z.leb_le _ _)) by done.
  set (off := Z.to_nat (ba_offset a)). unfold lenZ in *.
  assert (length (splice off bs p) = length p) as Hlen.
  { unfold splice. rewrite !length_app, length_take, length_drop. unfold off. lia. }
  eexists. split; [done|]. split_and!.
  - etrans; [apply (list_fmap_insert length)|]. rewrite Hlen. apply list_insert_id.
    apply list_lookup_fmap_Some. eauto.
  - unfold load. rewrite list_lookup_insert_eq by by eapply lookup_lt_Some. unfold lenZ. rewrite Hlen, (proj2 (Z.leb_le _ _)) by done.
    f_equal. unfold splice. rewrite drop_app_length' by (rewrite length_take; unfold off; lia).
    apply take_app_length'. unfold lenZ in *. lia.
  - intros a' (? & _) Hne. unfold load. rewrite list_lookup_insert_ne; [done|]. lia.
Qed.

(** The effect of a batch of writes to different pools: [P] says what a write of
    [x] leaves at its id. *)
Definition writes {X} (f : Store -> X -> result Store) (name : X -> string) (bytes : X -> list Z) (own : X -> gmap string T -> gmap string T) : Prop :=
  forall s x, f s x = match A !! name x with
                      | Some a => let* pools := place a (bytes x) s.2 in Ok (s.1, pools)
                      | None => Ok (own x s.1, s.2)
                      end.

Lemma batch {X} f (name : X -> string) bytes own l (s : Store) : writes f name bytes own ->
  NoDup (map name l) ->
  (forall x a, x ∈ l -> A !! name x = Some a -> valid s.2 a /\ lenZ (bytes x) = ba_size a) ->
  (forall x y a b, x ∈ l -> y ∈ l -> name x <> name y -> A !! name x = Some a -> A !! name y = Some b -> ba_buffer_id a <> ba_buffer_id b) ->
  exists s', rfoldM f l s = Ok s' /\ same_pools s.2 s'.2 /\
    s'.1 = foldl (fun env x => match A !! name x with Some _ => env | None => own x env end) s.1 l /\
    (forall x a, x ∈ l -> A !! name x = Some a -> load s'.2 a = Ok (bytes x)) /\
    (forall a', valid s.2 a' -> (forall x a, x ∈ l -> A !! name x = Some a -> ba_buffer_id a' <> ba_buffer_id a) ->
       load s'.2 a' = load s.2 a').
Proof.
  intros Hf. revert s. induction l as [|x l IH]; intros s Hnd Hv Hd; cbn [rfoldM foldl].
  { exists s. split_and!; [done|done|done|by intros ? ? ?%not_elem_of_nil|done]. }
  cbn in Hnd. apply NoDup_cons in Hnd as [Hx Hnd]. rewrite Hf.
  assert (forall y, y ∈ l -> name x <> name y) as Hxy.
  { intros y Hy E. apply Hx. rewrite E. by apply list_elem_of_fmap_2. }
  destruct (A !! name x) as [a|] eqn:Ea.
  - destruct (Hv x a (list_elem_of_here _ _) Ea) as [Hva Hba].
    destruct (place_valid s.2 a (bytes x) Hva Hba) as (pools & -> & Hsp & Hl & Hother). cbn [rbind].
    destruct (IH (s.1, pools) Hnd) as (s' & E & Hsp' & Henv & Hin & Hout).
    { intros y b Hy Hb. destruct (Hv y b (list_elem_of_further _ _ _ Hy) Hb). split; [by eapply same_pools_valid|done]. }
    { intros y z b c Hy Hz. apply Hd; by right. }
    exists s'. split_and!; [done|exact (eq_trans Hsp' Hsp)|done| |].
    + intros y b [->|Hy]%elem_of_cons Hb; [|by apply (Hin y)]. rewrite Ea in Hb. injection Hb as <-.
      rewrite Hout; [done|by eapply same_pools_valid|]. intros z c Hz Hc. eapply (Hd x z); [left|by right|by apply Hxy|done|done].
    + intros a' Ha' Hne. rewrite Hout; [|by eapply same_pools_valid|intros y b Hy; apply Hne; by right].
      apply Hother; [done|]. apply (Hne x); [left|done].
  - cbn [rbind]. destruct (IH (own x s.1, s.2) Hnd) as (s' & E & Hsp' & Henv & Hin & Hout).
    { intros y b Hy. apply Hv. by right. }
    { intros y z b c Hy Hz. apply Hd; by right. }
    exists s'. split_and!; [done|done|done| |].
    + intros y b [->|Hy]%elem_of_cons Hb; [congruence|by apply (Hin y)].
    + intros a' Ha' Hne. apply Hout; [done|]. intros y b Hy. apply Hne. by right.
Qed.

End Pooled.
End Pools.

(** ** Shared buffers compute what separate storage computes

    The simulation between [run] of JitFlow.v and [pooled_run] of
    [Pools]: while a planned value is live its pool holds its bytes. *)

Module MemoryExec.
Import Flow Memory Pools.

Section Exec.
Context {K T : Type} `{!Layout T}.
Context (F : K -> list T -> result (list T)).
Context (A : gmap string BufferAllocation) (ty : string -> list Z * DType) (junk : string -> nat -> Z).

Lemma run_extends es env env' : single env es -> run F es env = Ok env' -> env ⊆ env'.
Proof.
  intros Hs H. apply map_subseteq_spec. intros i t Hi. destruct (run_valuation F es env env' Hs H) as [_ Hr].
  rewrite Hr; [done|]. intros Hp. destruct Hs as [_ Hs]. by rewrite (Hs i Hp) in Hi.
Qed.

Lemma produced_once (es : list (Eqn K)) k1 k2 e1 e2 i : NoDup (produced es) -> es !! k1 = Some e1 -> es !! k2 = Some e2 ->
  i ∈ e_outs e1 -> i ∈ e_outs e2 -> k1 = k2.
Proof.
  intros Hnd H1 H2 Hi1 Hi2.
  assert (forall k k' e e', (k < k')%nat -> es !! k = Some e -> es !! k' = Some e' -> i ∈ e_outs e -> i ∈ e_outs e' -> False) as Hw.
  { intros k k' e e' Hlt He He' Hi Hi'. rewrite <-(take_drop_middle _ _ _ He), produced_app, produced_cons in Hnd.
    apply NoDup_app in Hnd as (_ & _ & Hnd). apply NoDup_app in Hnd as (_ & Hd & _). apply (Hd i Hi), elem_of_produced.
    exists e'. split; [|done]. apply list_elem_of_lookup. exists (k' - S k)%nat. rewrite lookup_drop.
    by replace (S k + (k' - S k))%nat with k' by lia. }
  destruct (Nat.lt_trichotomy k1 k2) as [?|[?|?]]; [by destruct (Hw k1 k2 e1 e2)|done|by destruct (Hw k2 k1 e2 e1)].
Qed.

Lemma elem_of_zip_lookup {X Y} (l : list X) (r : list Y) x y : (x, y) ∈ zip l r <-> exists k, l !! k = Some x /\ r !! k = Some y.
Proof.
  rewrite list_elem_of_lookup. apply exist_proper. intros k. rewrite lookup_zip_with_Some. naive_solver.
Qed.

(** The ids of [l] that have values. *)
Lemma zip_fst_NoDup {X Y} (l : list X) (r : list Y) : NoDup l -> NoDup (map fst (zip l r)).
Proof.
  revert r. induction l as [|x l IH]; intros [|y r] Hnd; try constructor.
  - intros ([x' y'] & E & Hin)%list_elem_of_fmap. cbn in E. subst x'. apply NoDup_cons in Hnd as [Hx _].
    apply elem_of_zip_lookup in Hin as (k & Hk & _). apply Hx. by eapply list_elem_of_lookup_2.
  - apply IH. by apply NoDup_cons in Hnd as [_ ?].
Qed.

(** Assigning, except for the planned values. *)
Lemma assign_unplanned l (env1 env2 : gmap string T) : (forall i, A !! i = None -> env1 !! i = env2 !! i) ->
  forall i, A !! i = None ->
  foldl (fun env (p : string * T) => match A !! p.1 with Some _ => env | None => <[p.1 := p.2]> env end) env1 l !! i =
  foldl (fun env (p : string * T) => <[p.1 := p.2]> env) env2 l !! i.
Proof.
  revert env1 env2. induction l as [|[j t] l IH]; intros env1 env2 H i Hi; cbn; [by apply H|]. apply IH; [|done].
  intros i' Hi'. destruct (A !! j) eqn:Ej.
  - rewrite lookup_insert_ne by congruence. by apply H.
  - destruct (decide (j = i')) as [<-|Hne]; [by rewrite !lookup_insert_eq|]. rewrite !lookup_insert_ne by done. by apply H.
Qed.

(** A planned value is assigned at [(iv i).1] and not read after [(iv i).2];
    values that share a buffer are not live together; and every planned value
    has the bytes its buffer was sized for. *)
Record sound_plan (es : list (Eqn K)) (iv : string -> nat * nat) (pools : list Pool) (envf : gmap string T) : Prop := mkSoundPlan {
  so_born i a : A !! i = Some a -> exists e, es !! (iv i).1 = Some e /\ i ∈ e_outs e;
  so_reads i a k e : A !! i = Some a -> ((iv i).1 <= k)%nat -> es !! k = Some e -> i ∈ e_ins e -> (k <= (iv i).2)%nat;
  so_order i a : A !! i = Some a -> ((iv i).1 <= (iv i).2)%nat;
  so_apart i j a b : A !! i = Some a -> A !! j = Some b -> i <> j -> ba_buffer_id a = ba_buffer_id b ->
    ((iv i).2 < (iv j).1 \/ (iv j).2 < (iv i).1)%nat;
  so_valid i a : A !! i = Some a -> valid pools a;
  so_bytes i a t : A !! i = Some a -> envf !! i = Some t ->
    of_bytes (ty i).1 (ty i).2 (to_bytes t) = t /\ lenZ (to_bytes t) = ba_size a
}.

Section Sim.
Context (es : list (Eqn K)) (iv : string -> nat * nat) (pools : list Pool) (env0 envf : gmap string T).
Context (P : sound_plan es iv pools envf) (S0 : single env0 es).

(** The values after [k] nodes, [env] with separate storage and [s] with pools. *)
Record holds_at (k : nat) (env : gmap string T) (s : Store (T := T)) : Prop := mkHoldsAt {
  ha_pools : same_pools pools s.2;
  ha_own i : A !! i = None -> s.1 !! i = env !! i;
  ha_planned i a t : A !! i = Some a -> env !! i = Some t -> (k <= (iv i).2)%nat -> load s.2 a = Ok (to_bytes t);
  ha_past i a : A !! i = Some a -> is_Some (env !! i) -> ((iv i).1 < k)%nat;
  ha_sub : env ⊆ envf
}.

Lemma planned_out k e o a : es !! k = Some e -> o ∈ e_outs e -> A !! o = Some a -> (iv o).1 = k.
Proof.
  intros Hk Ho Ha. destruct (so_born _ _ _ _ P o a Ha) as (e' & He' & Ho').
  eapply produced_once; [apply S0|exact He'|exact Hk|exact Ho'|exact Ho].
Qed.

Lemma outs_differ k e o1 o2 a1 a2 : es !! k = Some e -> o1 ∈ e_outs e -> o2 ∈ e_outs e -> o1 <> o2 ->
  A !! o1 = Some a1 -> A !! o2 = Some a2 -> ba_buffer_id a1 <> ba_buffer_id a2.
Proof.
  intros Hk H1 H2 Hne Ha1 Ha2 E. pose proof (planned_out _ _ _ _ Hk H1 Ha1). pose proof (planned_out _ _ _ _ Hk H2 Ha2).
  pose proof (so_order _ _ _ _ P _ _ Ha1). pose proof (so_order _ _ _ _ P _ _ Ha2).
  destruct (so_apart _ _ _ _ P _ _ _ _ Ha1 Ha2 Hne E); lia.
Qed.

(** A value that is still to be read shares no buffer with what node [k] assigns. *)
Lemma live_differs k e env s i a o b : holds_at k env s -> es !! k = Some e -> A !! i = Some a -> is_Some (env !! i) ->
  (k <= (iv i).2)%nat -> o ∈ e_outs e -> A !! o = Some b -> ba_buffer_id a <> ba_buffer_id b.
Proof.
  intros Hh Hk Ha Hi Hl Ho Hb E. pose proof (ha_past _ _ _ Hh i a Ha Hi) as Hp. pose proof (planned_out _ _ _ _ Hk Ho Hb).
  pose proof (so_order _ _ _ _ P _ _ Hb). assert (i <> o) as Hne by (intros ->; lia).
  destruct (so_apart _ _ _ _ P _ _ _ _ Ha Hb Hne E); lia.
Qed.

Lemma valid_now k env s i a : holds_at k env s -> A !! i = Some a -> valid s.2 a.
Proof. intros Hh Ha. eapply same_pools_valid; [apply Hh|]. by eapply so_valid. Qed.

(** Overwriting the buffers of its outputs first leaves a node's inputs. *)
Lemma scribble_step k e env s : holds_at k env s -> es !! k = Some e -> exists s1,
  rfoldM (scribble A junk) (e_outs e) s = Ok s1 /\ holds_at k env s1.
Proof.
  intros Hh Hk. assert (NoDup (e_outs e)) as Hnd.
  { destruct S0 as [Hnd _]. rewrite <-(take_drop_middle _ _ _ Hk), produced_app, produced_cons in Hnd.
    apply NoDup_app in Hnd as (_ & _ & Hnd). by apply NoDup_app in Hnd as (? & _ & _). }
  destruct (batch A (scribble A junk) (fun i => i) (fun i => map (junk i) (seq 0 (Z.to_nat (default 0 (ba_size <$> A !! i)))))
    (fun _ env => env) (e_outs e) s) as (s1 & E & Hsp & Henv & _ & Hout).
  - intros [env1 ps] i. unfold scribble. by destruct (A !! i).
  - by rewrite map_id.
  - intros o a Ho Ha. split; [by eapply valid_now|]. rewrite Ha. cbn. unfold lenZ. rewrite length_map, length_seq.
    destruct (valid_now _ _ _ _ _ Hh Ha) as (_ & _ & ? & _). unfold Datatypes.id. lia.
  - intros o1 o2 a1 a2 H1 H2 Hne. by eapply outs_differ.
  - exists s1. split; [done|]. destruct Hh as [H1 H2 H3 H4 H5]. split; [exact (eq_trans Hsp H1)| | |done|done].
    + intros i Hi. rewrite <-H2 by done. f_equal. rewrite Henv. clear. induction (e_outs e) as [|o l IH] using rev_ind; [done|].
      rewrite foldl_app. cbn. by destruct (A !! o).
    + intros i a t Ha Ht Hl. rewrite <-(H3 i a t) by done. apply Hout.
      * eapply same_pools_valid; [exact H1|]. by eapply so_valid.
      * intros o b Ho Hb. eapply (live_differs k e env s i a o b); [by split|done|done|by eexists|done|done|done].
Qed.

Lemma fetch_step k e env s i t : holds_at k env s -> es !! k = Some e -> i ∈ e_ins e -> env !! i = Some t ->
  fetch A ty s i = Ok t.
Proof.
  intros Hh Hk Hi Ht. unfold fetch. destruct (A !! i) as [a|] eqn:Ha.
  - pose proof (ha_past _ _ _ Hh i a Ha ltac:(by eexists)) as Hp.
    rewrite (ha_planned _ _ _ Hh i a t Ha Ht); [|eapply (so_reads _ _ _ _ P i a k e Ha); [lia|done|done]]. cbn [rbind].
    f_equal. apply (so_bytes _ _ _ _ P i a t Ha). eapply lookup_weaken; [done|]. apply Hh.
  - by rewrite (ha_own _ _ _ Hh i Ha), Ht.
Qed.

Lemma put_step k e env s ys : holds_at k env s -> es !! k = Some e -> single env (drop k es) ->
  assign (e_outs e) ys env ⊆ envf ->
  exists s1, rfoldM (put A) (zip (e_outs e) ys) s = Ok s1 /\ holds_at (S k) (assign (e_outs e) ys env) s1.
Proof.
  intros Hh Hk Hs Hsub. rewrite (drop_S _ _ _ Hk) in Hs. destruct (single_cons _ _ _ Hs) as (_ & Hnd & Hfresh).
  assert (forall o t, (o, t) ∈ zip (e_outs e) ys -> o ∈ e_outs e /\ assign (e_outs e) ys env !! o = Some t) as Hz.
  { intros o t (j & Ho & Ht)%elem_of_zip_lookup. assert (o ∈ e_outs e) as Hin by by eapply list_elem_of_lookup_2.
    split; [done|]. rewrite (assign_at _ _ _ j o) by (done || by apply Hfresh). done. }
  destruct (batch A (put A) fst (fun p => to_bytes p.2) (fun p env => <[p.1 := p.2]> env) (zip (e_outs e) ys) s)
    as (s1 & E & Hsp & Henv & Hin & Hout).
  - by intros s' p.
  - by apply zip_fst_NoDup.
  - intros [o t] a Hp Ha. destruct (Hz o t Hp) as [Ho Ht]. cbn [fst] in *. split; [by eapply valid_now|].
    apply (so_bytes _ _ _ _ P o a t Ha). by eapply lookup_weaken.
  - intros [o1 t1] [o2 t2] a1 a2 H1 H2 Hne. apply (outs_differ k e); [done|by apply (Hz o1 t1)|by apply (Hz o2 t2)|done].
  - exists s1. split; [done|]. split; [exact (eq_trans Hsp (ha_pools _ _ _ Hh))| | | |done].
    + intros i Hi. rewrite Henv. unfold assign. apply assign_unplanned; [|done]. apply Hh.
    + intros i a t Ha Ht Hl. destruct (decide (i ∈ e_outs e)) as [Hi|Hi].
      * apply list_elem_of_lookup in Hi as [j Hj]. apply (Hin (i, t) a); [|done]. apply elem_of_zip_lookup. exists j. split; [done|].
        rewrite (assign_at _ _ _ j i) in Ht; [done|done|apply Hfresh; by eapply list_elem_of_lookup_2|done].
      * rewrite assign_other in Ht by done. rewrite <-(ha_planned _ _ _ Hh i a t) by (done || lia). apply Hout; [by eapply valid_now|].
        intros [o t'] b Hp Hb. eapply (live_differs k e env s i a o b); [done|done|done|by eexists|lia|by apply (Hz o t')|done].
    + intros i a Ha Hi. destruct (decide (i ∈ e_outs e)) as [Hin'|Hi'].
      * rewrite (planned_out k e i a Hk Hin' Ha). lia.
      * rewrite assign_other in Hi by done. pose proof (ha_past _ _ _ Hh i a Ha Hi). lia.
Qed.

Lemma pooled_sim k env s : holds_at k env s -> single env (drop k es) -> run F (drop k es) env = Ok envf ->
  exists s', pooled_run F A ty junk (drop k es) s = Ok s' /\ forall i, A !! i = None -> s'.1 !! i = envf !! i.
Proof.
  remember (length (drop k es)) as n eqn:En. revert k env s En. induction n as [|n IH]; intros k env s En Hh Hs H.
  { destruct (drop k es) eqn:Ed; [|done]. cbn in H. injection H as ->. exists s. split; [done|]. apply Hh. }
  destruct (es !! k) as [e|] eqn:Ek.
  2:{ apply lookup_ge_None in Ek. rewrite drop_ge in En by done. done. }
  pose proof Hs as Hs'. pose proof (drop_S _ _ _ Ek) as Ed. rewrite Ed in H, Hs'. cbn [run] in H.
  destruct (reads env (e_ins e)) as [xs|] eqn:Er; [|done]. inv_ok. rename x into ys, H into HF, H0 into Hrun.
  assert (assign (e_outs e) ys env ⊆ envf) as Hsub by (eapply run_extends; [by apply (single_assign env e _ ys)|exact Hrun]).
  destruct (scribble_step k e env s Hh Ek) as (s1 & E1 & Hh1).
  assert (rmapM (fetch A ty s1) (e_ins e) = Ok xs) as E2.
  { apply rmapM_Ok. apply mapM_Some in Er. apply Forall2_same_length_lookup_2; [by eapply Forall2_length|].
    intros j i t Hi Ht. apply (fetch_step k e env s1 i t Hh1 Ek); [by eapply list_elem_of_lookup_2|].
    exact (Forall2_lookup_lr _ _ _ j i t Er Hi Ht). }
  destruct (put_step k e env s1 ys Hh1 Ek Hs Hsub) as (s2 & E3 & Hh2).
  rewrite Ed in En. injection En as En.
  destruct (IH (S k) (assign (e_outs e) ys env) s2 En Hh2 (single_assign env e _ ys Hs') Hrun) as (s' & E & ?).
  exists s'. split; [|done]. rewrite Ed. cbn [pooled_run]. rewrite E1. cbn [rbind]. rewrite E2. cbn [rbind]. rewrite HF. cbn [rbind].
  rewrite E3. exact E.
Qed.

(** The run with pools computes every value that is not planned, whatever the
    pools hold at the start. *)
Theorem pooled_run_correct : run F es env0 = Ok envf -> exists s',
  pooled_run F A ty junk es (env0, pools) = Ok s' /\ forall i, A !! i = None -> s'.1 !! i = envf !! i.
Proof.
  intros H. apply (pooled_sim 0 env0); [|done|done].
  assert (forall i a, A !! i = Some a -> env0 !! i = None) as Hn.
  { intros i a Ha. apply S0. apply elem_of_produced. destruct (so_born _ _ _ _ P i a Ha) as (e & He & Hi).
    exists e. split; [by eapply list_elem_of_lookup_2|done]. }
  split; [done|done| | |by eapply run_extends].
  - intros i a t Ha Ht. by rewrite (Hn i a Ha) in Ht.
  - intros i a Ha Hi. rewrite (Hn i a Ha) in Hi. by apply is_Some_None in Hi.
Qed.

End Sim.
End Exec.
End MemoryExec.
