(* ===== verification/JitMemoryPlan.v ===== *)
(** * What [MemoryPlanner::plan] returns

    On a graph without cycles the planner returns: the graph sorted, its values
    annotated with their buffers and otherwise as before, and a plan with the
    invariant of the greedy assignment over the live ranges of the sorted graph. *)

From stdpp Require Import base list numbers strings gmap sorting.
From S2P Require Import Prelude Shape DType MapSums JitOps JitGraph JitFlow JitExec JitMeaning JitWf JitEdit JitSort JitPreserve JitPasses JitDce JitOptimize JitMemory JitMemoryGreedy JitMemoryExec.

Module MemoryPlanning.
Import Sums Jit Flow Exec Meaning Wf Edit GraphSort Preserve Passes Contract Optimize Memory MemorySize MemoryGreedy MemoryRange MemoryExec.

Section Buffered.
Context {T : Type}.

(** Only the buffers of the values differ. *)
Record buffered (st st' : Heap T) : Prop := mkBuffered {
  bf_graphs : heap_graphs st' = heap_graphs st;
  bf_nodes : heap_nodes st' = heap_nodes st;
  bf_values v : is_Some (heap_values st' !! v) <-> is_Some (heap_values st !! v);
  bf_value v : with_buffer 0 0 (value st' v) = with_buffer 0 0 (value st v)
}.

Lemma buffered_refl st : buffered st st.
Proof. by split. Qed.

Lemma buffered_trans st1 st2 st3 : buffered st1 st2 -> buffered st2 st3 -> buffered st1 st3.
Proof. intros [] []. split; try congruence. intros v. by rewrite bf_values1, bf_values0. Qed.

Lemma buffered_upd v b o (st : Heap T) : buffered st (upd_value v (with_buffer b o) st).
Proof.
  split; [done|done| |].
  - intros w. apply is_Some_alter.
  - intros w. by apply value_upd_field.
Qed.

Section Same.
Context {st st' : Heap T} (B : buffered st st').

Lemma bf_id v : id (value st' v) = id (value st v).
Proof. exact (f_equal id (bf_value _ _ B v)). Qed.
Lemma bf_producer v : producer (value st' v) = producer (value st v).
Proof. exact (f_equal producer (bf_value _ _ B v)). Qed.
Lemma bf_uses v : uses (value st' v) = uses (value st v).
Proof. exact (f_equal uses (bf_value _ _ B v)). Qed.
Lemma bf_shape v : shape (value st' v) = shape (value st v).
Proof. exact (f_equal shape (bf_value _ _ B v)). Qed.
Lemma bf_dtype v : dtype (value st' v) = dtype (value st v).
Proof. exact (f_equal dtype (bf_value _ _ B v)). Qed.
Lemma bf_device v : device (value st' v) = device (value st v).
Proof. exact (f_equal device (bf_value _ _ B v)). Qed.
Lemma bf_graph g : graph st' g = graph st g.
Proof. unfold graph. by rewrite (bf_graphs _ _ B). Qed.
Lemma bf_node n : node st' n = node st n.
Proof. unfold node. by rewrite (bf_nodes _ _ B). Qed.
Lemma bf_alive n : alive st' n = alive st n.
Proof. unfold alive. by rewrite (bf_nodes _ _ B). Qed.
Lemma bf_node_of v : node_of st' v = node_of st v.
Proof. unfold node_of. rewrite bf_producer. destruct (producer _); [by rewrite bf_alive|done]. Qed.
Lemma bf_live_uses v : live_uses st' v = live_uses st v.
Proof. unfold live_uses. rewrite bf_uses. apply filter_agree. intros n _. by rewrite bf_alive. Qed.
Lemma bf_known g v : known st' g v <-> known st g v.
Proof. unfold known. by rewrite bf_graph, bf_id. Qed.
Lemma bf_value_ids vs : value_ids st' vs = value_ids st vs.
Proof. apply map_ext. intros v. apply bf_id. Qed.
Lemma bf_leaf_id g i : leaf_id st' g i <-> leaf_id st g i.
Proof. unfold leaf_id, in_ids. by rewrite bf_graph, bf_value_ids. Qed.
Lemma bf_program g : program st' g = program st g.
Proof.
  unfold program. rewrite bf_graph. apply map_ext. intros n. unfold node_eqn. rewrite bf_node. f_equal; apply bf_value_ids.
Qed.
Lemma bf_get_value g i : get_value st' g i = get_value st g i.
Proof. unfold get_value. by rewrite bf_graph. Qed.
Lemma bf_size v : compute_value_size (value st' v) = compute_value_size (value st v).
Proof. unfold compute_value_size. by rewrite bf_shape, bf_dtype. Qed.

Lemma bf_same_graph g : same_graph st st' g.
Proof.
  split_and!; [apply bf_program| | |rewrite bf_graph; by repeat split]; unfold in_ids, out_ids;
    rewrite bf_graph; apply bf_value_ids.
Qed.

Lemma buffered_wf pending : wf pending st -> wf pending st'.
Proof.
  intros W. split; intros g; repeat setoid_rewrite bf_graph; repeat setoid_rewrite bf_node; repeat setoid_rewrite bf_known;
    repeat setoid_rewrite bf_node_of; repeat setoid_rewrite bf_id; repeat setoid_rewrite bf_uses;
    repeat setoid_rewrite bf_producer; repeat setoid_rewrite bf_leaf_id; repeat setoid_rewrite bf_alive;
    repeat setoid_rewrite bf_live_uses; repeat setoid_rewrite (bf_values _ _ B).
  - by eapply w_nodup.
  - by eapply w_alive.
  - intros h n. by eapply w_own.
  - by eapply w_pending.
  - by eapply w_val.
  - intros h i j v. by eapply w_vown.
  - by eapply w_in.
  - by eapply w_in_live.
  - by eapply w_out.
  - by eapply w_out_nodup.
  - by eapply w_gin.
  - by eapply w_gout.
  - by eapply w_prod.
  - by eapply w_use.
Qed.

Lemma bf_excluded g v : is_excluded st' g v = is_excluded st g v.
Proof.
  assert (forall l, map (fun u => id (value st' u)) l = map (fun u => id (value st u)) l) as Hm by apply bf_value_ids.
  unfold is_excluded. rewrite bf_graph, bf_id, bf_node_of, !Hm. destruct (node_of st v); by rewrite ?bf_node.
Qed.

Lemma bf_born_ids g n : born_ids st' g n = born_ids st g n.
Proof.
  unfold born_ids. rewrite bf_node, bf_value_ids. f_equal. apply filter_agree. intros v _. by rewrite bf_excluded.
Qed.

Lemma bf_nested_reads d h : nested_reads st' d h = nested_reads st d h.
Proof.
  revert h. induction d as [|d IH]; intros h; [done|]. cbn. rewrite bf_graph. f_equal. apply map_ext. intros n.
  rewrite bf_node, bf_value_ids. do 2 f_equal. apply map_ext, IH.
Qed.

Lemma bf_node_reads d n : node_reads st' d n = node_reads st d n.
Proof. unfold node_reads. rewrite bf_node, bf_value_ids. do 2 f_equal. apply map_ext, bf_nested_reads. Qed.
End Same.

(** ** The annotations *)

Context (g : Z).

Lemma buffered_annotate l (st : Heap T) : buffered st (foldl (annotate g) st l).
Proof.
  revert st. induction l as [|p l IH]; intros st; cbn; [apply buffered_refl|]. eapply buffered_trans; [|apply IH].
  unfold annotate. destruct (get_value st g p.1); [apply buffered_upd|apply buffered_refl].
Qed.

(** A value of the graph has the buffer that the list gives its id, if any. *)
Lemma annotate_buffer pending l (st : Heap T) v : wf pending st -> known st g v -> NoDup l.*1 ->
  let x := value (foldl (annotate g) st l) v in
  match (list_to_map l : gmap string BufferAllocation) !! id (value st v) with
  | Some a => buffer_id x = ba_buffer_id a /\ buffer_offset x = ba_offset a
  | None => buffer_id x = buffer_id (value st v) /\ buffer_offset x = buffer_offset (value st v)
  end.
Proof.
  intros W Hk. revert st W Hk. induction l as [|[i a] l IH]; intros st W Hk Hnd; cbn [foldl]; [done|].
  cbn in Hnd. apply NoDup_cons in Hnd as [Hi Hnd].
  assert (buffered st (annotate g st (i, a))) as B by (unfold annotate; destruct (get_value _ _ _); [apply buffered_upd|apply buffered_refl]).
  specialize (IH _ (buffered_wf B pending W) (proj2 (bf_known B g v) Hk) Hnd). cbn zeta in IH.
  rewrite (bf_id B) in IH. cbn [list_to_map]. cbn. destruct (decide (i = id (value st v))) as [->|Hne].
  - rewrite lookup_insert_eq. rewrite (not_elem_of_list_to_map_1 (M := gmap string)) in IH by done.
    destruct IH as [-> ->]. unfold annotate, get_value. cbn [fst snd]. unfold known in Hk. rewrite Hk.
    rewrite value_upd_eq; [done|]. by apply (w_val _ _ W g (id (value st v))).
  - rewrite lookup_insert_ne by done.
    assert (value (annotate g st (i, a)) v = value st v) as E.
    { unfold annotate, get_value. cbn [fst snd]. destruct (values (graph st g) !! i) as [w|] eqn:Ew; [|done].
      apply value_upd_ne. intros ->. by destruct (w_val _ _ W _ _ _ Ew). }
    by rewrite E in IH.
Qed.

End Buffered.
(** ** The plan *)

Section Plan.
Context {T : Type} `{!Kernels T, HU : !Unordered, HS : !StdSort}.

Lemma bf_range_of {st st' : Heap T} (B : buffered st st') g d lr : range_of st g d lr -> range_of st' g d lr.
Proof.
  intros (v & b & e & Hv & [H1 H2 H3 H4 H5] & H). exists v, b, e. rewrite (bf_get_value B), (bf_size B), (bf_device B), (bf_graph B).
  split_and!; [done| |apply H..]. split; try setoid_rewrite (bf_born_ids B); try setoid_rewrite (bf_node_reads B); done.
Qed.

(** The live ranges and the buffers that a plan is made of. *)
Record plan_facts (alignment : Z) (d : nat) (g : Z) (st : Heap T) (p : MemoryPlan) (lrs : list LiveRange)
    (slots : list BufferSlot) : Prop := mkPlanFacts {
  pf_nodup : NoDup (map lr_value_id lrs);
  pf_range lr : lr ∈ lrs -> range_of st g d lr;
  pf_all n i v : n ∈ nodes (graph st g) -> i ∈ born_ids st g n -> get_value st g i = Some v ->
    compute_value_size (value st v) <> 0 -> exists lr, lr ∈ lrs /\ lr_value_id lr = i;
  pf_greedy : greedy_inv alignment lrs slots (value_allocations p);
  pf_pools : plan_pool_sizes p = map high_water_mark slots;
  pf_total : total_memory p = wrap 64 (sumZ_with (fun x => x) (plan_pool_sizes p));
  pf_planned : num_values_planned p = lenZ lrs;
  pf_reused : num_values_reused p = Z.of_nat (size (value_allocations p)) - lenZ (plan_pool_sizes p)
}.

Lemma total_wraps l : foldl (fun t ps => wrap 64 (t + ps)) 0 l = wrap 64 (sumZ_with (fun x => x) l).
Proof.
  induction l as [|x l IH] using rev_ind; [done|]. rewrite foldl_app. cbn [foldl]. rewrite IH, sumZ_with_app. cbn.
  unfold wrap. rewrite Zplus_mod_idemp_l. f_equal. lia.
Qed.

Lemma entries_empty {K A} `{Countable K} : entries (∅ : gmap K A) = [].
Proof. apply Permutation_nil_r. rewrite entries_perm. by rewrite map_to_list_empty. Qed.

Lemma memory_plan_spec pending (st st1 : Heap T) g alignment d : wf pending st -> topological_sort g st = Ok st1 ->
  nested (S d) st g -> exists st' p lrs slots, plan alignment d g st = Ok (st', p) /\
    st' = foldl (annotate g) st1 (entries (value_allocations p)) /\ plan_facts alignment d g st' p lrs slots.
Proof.
  intros W E1 Hn.
  destruct (sort_shrinks W g st1 E1) as (W1 & S1 & _).
  destruct (compute_live_ranges_spec st1 g d (nested_shrinks _ _ _ g S1 Hn)) as (lrs & E2 & Hnd & Hrange & Hall).
  destruct (greedy_assign_inv alignment lrs Hnd) as (slots & Eslots & I).
  set (r := greedy_assign alignment lrs) in *.
  exists (foldl (annotate g) st1 (entries r.2)), (mkMemoryPlan r.1 r.2 (foldl (fun t ps => wrap 64 (t + ps)) 0 r.1) (lenZ lrs) (num_reused r.2)),
    lrs, slots. split_and!; [|done|].
  - unfold plan. rewrite E1. cbn [rbind]. rewrite E2. cbn [rbind]. case_bool_decide as El.
    + subst lrs. assert (sort before [] = []) as Es.
      { apply Permutation_nil_r. apply sort_perm. }
      unfold r, greedy_assign. rewrite Es. cbn [foldl map fst snd]. unfold num_reused, buffer_use_counts.
      rewrite !entries_empty. cbn [foldl]. by rewrite entries_empty.
    + fold r. by destruct r.
  - pose proof (buffered_annotate g (entries r.2) st1) as B. split; cbn; try done.
    + intros lr Hlr. by apply (bf_range_of B), Hrange.
    + intros n i v. rewrite (bf_graph B), (bf_born_ids B), (bf_get_value B), (bf_size B). apply Hall.
    + apply total_wraps.
    + rewrite (num_reused_spec _ _ _ _ I), Eslots. unfold lenZ. by rewrite length_map.
Qed.

Lemma memory_planning_inv pending (st st' : Heap T) g alignment d m p : wf pending st -> 0 <= alignment <= UINT64_MAX ->
  nested (S d) st g -> memory_planning alignment d g st = Ok (st', m, p) -> exists k st1 lrs slots,
    alignment = 2 ^ k /\ 0 <= k < 64 /\ topological_sort g st = Ok st1 /\
    st' = foldl (annotate g) st1 (entries (value_allocations p)) /\ plan_facts alignment d g st' p lrs slots.
Proof.
  intros W Ha Hn H. unfold memory_planning in H. apply rbind_Ok in H as (a & E & H). apply rbind_Ok in H as ([st2 p2] & Ep & H).
  injection H as -> _ ->. apply set_alignment_Ok in E as (-> & k & Hk & Hp); [|done].
  pose proof Ep as Es. unfold plan in Es. apply rbind_Ok in Es as (st1 & E1 & _).
  destruct (memory_plan_spec pending st st1 g alignment d W E1 Hn) as (st3 & p3 & lrs & slots & E3 & Est & F).
  rewrite Ep in E3. injection E3 as -> ->. by exists k, st1, lrs, slots.
Qed.

(** The sorted graph, whatever its annotations. *)
Lemma sort_annotated pending (st st1 : Heap T) g l : wf pending st -> topological_sort g st = Ok st1 ->
  let st' := foldl (annotate g) st1 l in
  wf pending st' /\ buffered st1 st' /\ refines st st' /\ ordered (program st' g) /\
  nodes (graph st' g) ≡ₚ nodes (graph st g) /\ (forall h, values (graph st' h) = values (graph st h)) /\
  (forall v, with_buffer 0 0 (value st' v) = with_buffer 0 0 (value st v)).
Proof.
  intros W E st'. destruct (sort_shrinks W g st1 E) as (W1 & S1 & Hs & Ht).
  pose proof (buffered_annotate g l st1) as B. fold st' in B.
  pose proof (topological_sort_Ok W g st1 E) as (ns & -> & Hp & Ho).
  destruct (with_nodes_wf W g ns Hp) as (_ & Hn & _). set (st1 := upd_graph g (with_nodes ns) st) in *.
  split_and!; [by eapply buffered_wf|done| | | | |].
  - eapply refines_trans; [by eapply transfers_refines|]. apply refines_by. intros h. by apply same_graph_improves, bf_same_graph.
  - rewrite (bf_program B). unfold program. rewrite Hn, decide_True by done. apply (wf_ordered W g); [|done].
    intros n. by rewrite Hp.
  - rewrite (bf_graph B), Hn, decide_True by done. done.
  - intros h. rewrite (bf_graph B). apply S1.
  - intros v. apply (bf_value _ _ B).
Qed.

End Plan.

(** ** When a value is in use *)

Section Touch.
Context {T : Type}.

(** Node [k] of the graph assigns [i] or reads it, directly or, once it has been
    assigned, in a graph that the node owns. *)
Definition touches (st : Heap T) (g : Z) (d : nat) (i : string) (k : nat) : Prop := exists n,
  nodes (graph st g) !! k = Some n /\
  (i ∈ value_ids st (outputs (node st n)) \/ i ∈ value_ids st (inputs (node st n)) \/
   i ∈ concat (map (nested_reads st d) (subgraphs (node st n))) /\
     exists b m, (b <= k)%nat /\ nodes (graph st g) !! b = Some m /\ i ∈ value_ids st (outputs (node st m))).

Lemma born_ids_outputs (st : Heap T) g n i : i ∈ born_ids st g n -> i ∈ value_ids st (outputs (node st n)).
Proof.
  unfold born_ids. intros (v & -> & [_ Hv]%list_elem_of_filter)%list_elem_of_fmap.
  by apply (list_elem_of_fmap_2 (fun v => id (value st v))).
Qed.

Lemma program_lookup (st : Heap T) g k n : nodes (graph st g) !! k = Some n -> program st g !! k = Some (node_eqn st n).
Proof. intros H. unfold program. apply list_lookup_fmap_Some. by exists n. Qed.

(** The live range covers every use. *)
Lemma spans_touches pending (st : Heap T) g d i b e k : wf pending st -> ordered (program st g) ->
  spans st g d (nodes (graph st g)) i b e -> touches st g d i k -> (b <= k <= e)%nat.
Proof.
  intros W Ho [(n0 & Hb & Hi) _ Hr Hbe _] (n & Hk & Ht). apply born_ids_outputs in Hi.
  pose proof (wf_single W g) as [Hnd _].
  assert (forall k' m, nodes (graph st g) !! k' = Some m -> i ∈ value_ids st (outputs (node st m)) -> k' = b) as Hone.
  { intros k' m Hk' Hm. by apply (produced_once (program st g) k' b (node_eqn st m) (node_eqn st n0) i Hnd);
      [apply program_lookup..|idtac|idtac]. }
  destruct Ht as [Ht|[Ht|(Ht & b' & m & Hb' & Hm & Hi')]].
  - rewrite (Hone k n Hk Ht). lia.
  - assert (b < k)%nat as Hlt.
    { pose proof (program_lookup st g k n Hk) as Hp. pose proof (take_drop_middle _ _ _ Hp) as E.
      assert (i ∈ produced (take k (program st g))) as (e' & He' & Hi')%elem_of_produced.
      { eapply (Ho _ (node_eqn st n)); [by symmetry|exact Ht|]. apply elem_of_produced. exists (node_eqn st n0).
        split; [eapply list_elem_of_lookup_2; by apply program_lookup|done]. }
      apply list_elem_of_lookup in He' as [k' Hk']. apply lookup_take_Some in Hk' as [Hk' Hlt].
      by rewrite (produced_once (program st g) b k' (node_eqn st n0) e' i Hnd (program_lookup _ _ _ _ Hb) Hk' Hi Hi'). }
    assert (k <= e)%nat; [|lia]. apply (Hr k n); [lia|done|]. apply elem_of_app. by left.
  - rewrite (Hone b' m Hm Hi') in Hb'. split; [done|]. apply (Hr k n); [done|done|]. apply elem_of_app. by right.
Qed.

End Touch.
End MemoryPlanning.
