(* ===== verification/JitMemoryClient.v ===== *)
(** * Properties of the JIT memory planner

    Which values get a buffer, why sharing is safe, and that a run with shared
    buffers computes what [Graph::forward] computes; each with an instance on a
    graph built with JitScalar.v. *)

From stdpp Require Import base list numbers strings gmap sorting.
From S2P Require Import Prelude Shape DType MapSums JitOps JitGraph JitFlow JitExec JitMeaning JitWf JitEdit JitSort JitPreserve JitPasses JitDce JitOptimize JitScalar JitMemory JitMemoryGreedy JitMemoryExec JitMemoryPlan.

Module MemoryClient.
Import Sums Jit Flow Exec Meaning Wf Edit GraphSort Preserve Passes Contract Optimize Check Scalar Memory MemorySize MemoryGreedy MemoryRange Pools MemoryExec MemoryPlanning.

Section Facts.
Context {T : Type} {alignment : Z} {d : nat} {g : Z} {st : Heap T} {p : MemoryPlan} {lrs : list LiveRange} {slots : list BufferSlot}.
Context (F : plan_facts alignment d g st p lrs slots).

(** The live range behind an allocation, and its slot. *)
Lemma allocation_range i a : value_allocations p !! i = Some a -> exists lr v b e s slot,
  lr ∈ lrs /\ lr_value_id lr = i /\ get_value st g i = Some v /\ spans st g d (nodes (graph st g)) i b e /\
  lr_begin lr = Z.of_nat b /\ lr_end lr = Z.of_nat e /\ lr_size lr = compute_value_size (value st v) /\
  compute_value_size (value st v) <> 0 /\ lr_device lr = device (value st v) /\
  a = mkBuffer (Z.of_nat s) 0 (compute_value_size (value st v)) /\ align_up alignment (lr_size lr) <> 0 /\
  slots !! s = Some slot /\ slot_device slot = lr_device lr /\ align_up alignment (lr_size lr) <= high_water_mark slot.
Proof.
  intros H. destruct (gi_sound _ _ _ _ (pf_greedy _ _ _ _ _ _ _ F) i a H) as (lr & s & slot & Hin & Hi & -> & Hz & Hs & _ & Hd & Hw).
  destruct (pf_range _ _ _ _ _ _ _ F lr Hin) as (v & b & e & Hv & Hsp & Hb & He & Hsz & Hne & Hdev). subst i.
  exists lr, v, b, e, s, slot. rewrite <-Hsz. by split_and!.
Qed.

Lemma allocations_apart i j a b lr1 lr2 : value_allocations p !! i = Some a -> value_allocations p !! j = Some b -> i <> j ->
  ba_buffer_id a = ba_buffer_id b -> lr1 ∈ lrs -> lr_value_id lr1 = i -> lr2 ∈ lrs -> lr_value_id lr2 = j -> apart lr1 lr2.
Proof. intros Ha Hb Hne E H1 <- H2 <-. by eapply (gi_apart _ _ _ _ (pf_greedy _ _ _ _ _ _ _ F)). Qed.

(** The bytes of a value fit its buffer. *)
Lemma allocation_fits k i a : alignment = 2 ^ k -> 0 <= k < 64 -> value_allocations p !! i = Some a ->
  exists pool, plan_pool_sizes p !! Z.to_nat (ba_buffer_id a) = Some pool /\ 0 <= ba_buffer_id a /\ ba_offset a = 0 /\
    0 < ba_size a <= pool /\ (alignment | pool).
Proof.
  intros Ek Hk H. destruct (allocation_range i a H) as (lr & v & b & e & s & slot & _ & _ & _ & _ & _ & _ & Hsz & Hne & _ & -> & Hz & Hs & _ & Hw).
  destruct (compute_value_size_spec _ Hne) as (_ & _ & Hpos). rewrite Hsz in Hz, Hw. rewrite Ek in Hz.
  destruct (align_up_spec k (compute_value_size (value st v)) Hk ltac:(lia) Hz) as (Hup & _ & _).
  rewrite <-Ek in Hup. exists (high_water_mark slot). cbn. rewrite (pf_pools _ _ _ _ _ _ _ F), Nat2Z.id. split_and!; [|lia|done|lia|lia|].
  - apply list_lookup_fmap_Some. by exists slot.
  - destruct (gi_tight _ _ _ _ (pf_greedy _ _ _ _ _ _ _ F) s slot Hs) as (lr' & a' & Hin & _ & _ & <-).
    destruct (pf_range _ _ _ _ _ _ _ F lr' Hin) as (v' & b' & e' & _ & _ & _ & _ & E & Hn' & _). unfold placed_size.
    rewrite Ek. destruct (decide (align_up (2 ^ k) (lr_size lr') = 0)) as [->|Hnz]; [apply Z.divide_0_r|].
    rewrite E in Hn', Hnz |- *. destruct (compute_value_size_spec _ Hn') as (_ & _ & Hp'). apply align_up_spec; [done|lia|done].
Qed.

(** The first and the last node that a planned value is live at. *)
Definition interval (i : string) : nat * nat :=
  match list_find (fun lr => lr_value_id lr = i) lrs with
  | Some (_, lr) => (Z.to_nat (lr_begin lr), Z.to_nat (lr_end lr))
  | None => (O, O)
  end.

Lemma interval_spec lr : lr ∈ lrs -> interval (lr_value_id lr) = (Z.to_nat (lr_begin lr), Z.to_nat (lr_end lr)).
Proof.
  intros Hin. unfold interval. destruct (list_find _ lrs) as [[k lr']|] eqn:E.
  - apply list_find_Some in E as (Hk & E & _). assert (lr' = lr) as ->; [|done].
    eapply (gi_inj _ _ _ _ (pf_greedy _ _ _ _ _ _ _ F)); [by eapply list_elem_of_lookup_2|done|done].
  - apply list_find_None in E. rewrite Forall_forall in E. by destruct (E lr Hin).
Qed.

(** Outputs have no buffer. *)
Lemma output_unplanned i : i ∈ out_ids st g -> value_allocations p !! i = None.
Proof.
  intros Hi. destruct (value_allocations p !! i) as [a|] eqn:Ha; [|done].
  destruct (allocation_range i a Ha) as (lr & v & b & e & s & slot & _ & _ & _ & Hsp & _).
  destruct (sp_born _ _ _ _ _ _ _ Hsp) as (n & _ & (u & -> & [Hex _]%list_elem_of_filter)%list_elem_of_fmap).
  unfold is_excluded in Hex. rewrite !orb_false_iff in Hex. destruct Hex as [[_ Hex] _].
  by apply bool_decide_eq_false in Hex.
Qed.

End Facts.

Section Properties.
Context {T : Type} `{!Kernels T, HU : !Unordered, HS : !StdSort}.

(** C9: sharing is safe.  On a well-formed graph, whatever order the hash maps
    and the sort leave, each value with an allocation is a value of the graph and
    lies at offset 0 of a pool of the plan that is a multiple of the alignment and
    holds its [numel * dtype_size] bytes, a product that did not wrap; and two
    values of one pool are on one device and are never in use together: all nodes
    that assign or read the one come before all those that assign or read the other. *)
Theorem sharing_is_safe pending (st st' : Heap T) g alignment d m p : wf pending st -> 0 <= alignment <= UINT64_MAX ->
  nested (S d) st g -> memory_planning alignment d g st = Ok (st', m, p) ->
  (forall i a, value_allocations p !! i = Some a -> exists v pool, get_value st' g i = Some v /\
    plan_pool_sizes p !! Z.to_nat (ba_buffer_id a) = Some pool /\ ba_offset a = 0 /\
    ba_size a = prodZ (shape (value st' v)) * dtype_size (dtype (value st' v)) /\ 0 < ba_size a <= pool /\ (alignment | pool)) /\
  forall i j a b v w, value_allocations p !! i = Some a -> value_allocations p !! j = Some b -> i <> j ->
    ba_buffer_id a = ba_buffer_id b -> get_value st' g i = Some v -> get_value st' g j = Some w ->
    device (value st' v) = device (value st' w) /\
    ((forall k l, touches st' g d i k -> touches st' g d j l -> (k < l)%nat) \/
     (forall k l, touches st' g d i k -> touches st' g d j l -> (l < k)%nat)).
Proof.
  intros W Ha Hn H. destruct (memory_planning_inv pending st st' g alignment d m p W Ha Hn H) as (k & st1 & lrs & slots & Ek & Hk & E1 & -> & F).
  destruct (sort_annotated pending st st1 g (entries (value_allocations p)) W E1) as (W' & _ & _ & Ho & _). split.
  - intros i a Hi. destruct (allocation_fits F k i a Ek Hk Hi) as (pool & ? & ? & ? & [? ?] & ?).
    destruct (allocation_range F i a Hi) as (lr & v & b & e & s & slot & _ & _ & Hv & _ & _ & _ & _ & Hne & _ & -> & _).
    exists v, pool. split_and!; [done|done|done|by apply compute_value_size_spec|done..].
  - intros i j a b v w Hi Hj Hne E Hv Hw.
    destruct (allocation_range F i a Hi) as (lr1 & v1 & b1 & e1 & s1 & slot1 & Hin1 & Hid1 & Hv1 & Hsp1 & Hb1 & He1 & _ & _ & Hd1 & -> & _ & Hs1 & Hsd1 & _).
    destruct (allocation_range F j b Hj) as (lr2 & v2 & b2 & e2 & s2 & slot2 & Hin2 & Hid2 & Hv2 & Hsp2 & Hb2 & He2 & _ & _ & Hd2 & -> & _ & Hs2 & Hsd2 & _).
    pose proof (allocations_apart F i j _ _ lr1 lr2 Hi Hj Hne E Hin1 Hid1 Hin2 Hid2) as Hap.
    cbn in E. apply Nat2Z.inj in E as ->. simplify_eq. split; [congruence|]. unfold apart in Hap. rewrite Hb1, Hb2, He1, He2 in Hap.
    destruct Hap as [Hap|Hap]; [left|right]; intros k' l' H1%(spans_touches _ _ _ _ _ _ _ _ W' Ho Hsp1) H2%(spans_touches _ _ _ _ _ _ _ _ W' Ho Hsp2); lia.
Qed.


(** ** Executing with the plan *)

Context `{!Layout T}.

(** A tensor is stored as the bytes that its value declares. *)
Definition stored (x : Value) (t : T) : Prop :=
  of_bytes (shape x) (dtype x) (to_bytes t) = t /\ lenZ (to_bytes t) = compute_value_size x.

Definition declared (st : Heap T) (g : Z) (i : string) : list Z * DType :=
  match get_value st g i with Some v => (shape (value st v), dtype (value st v)) | None => ([], Float32) end.

(** The plan is what [pooled_run] asks for. *)
Lemma plan_sound alignment k d g (st : Heap T) p lrs slots pools env : plan_facts alignment d g st p lrs slots ->
  alignment = 2 ^ k -> 0 <= k < 64 -> map lenZ pools = plan_pool_sizes p ->
  (forall i v t, get_value st g i = Some v -> compute_value_size (value st v) <> 0 -> env !! i = Some t -> stored (value st v) t) ->
  sound_plan (value_allocations p) (declared st g) (program st g) (interval (lrs := lrs)) pools env.
Proof.
  intros F Ek Hk Hp Hst.
  assert (forall i a, value_allocations p !! i = Some a -> exists lr v b e, lr ∈ lrs /\ lr_value_id lr = i /\ get_value st g i = Some v /\
    spans st g d (nodes (graph st g)) i b e /\ lr_begin lr = Z.of_nat b /\ lr_end lr = Z.of_nat e /\
    interval (lrs := lrs) i = (b, e) /\ compute_value_size (value st v) <> 0 /\ ba_size a = compute_value_size (value st v)) as HA.
  { intros i a Ha. destruct (allocation_range F i a Ha) as (lr & v & b & e & s & slot & Hin & Hid & Hv & Hsp & Hb & He & _ & Hne & _ & -> & _).
    exists lr, v, b, e. split_and!; try done. rewrite <-Hid, (interval_spec F lr Hin), Hb, He. by rewrite !Nat2Z.id. }
  split.
  - intros i a (lr & v & b & e & _ & _ & _ & Hsp & _ & _ & -> & _)%HA. destruct (sp_born _ _ _ _ _ _ _ Hsp) as (n & Hn & Hi).
    exists (node_eqn st n). split; [by apply program_lookup|by eapply born_ids_outputs].
  - intros i a k' e' (lr & v & b & e & _ & _ & _ & Hsp & _ & _ & -> & _)%HA Hle Hk' Hi.
    apply list_lookup_fmap_Some in Hk' as (n & -> & Hn). apply (sp_reads _ _ _ _ _ _ _ Hsp k' n); [done|done|].
    apply elem_of_app. by left.
  - intros i a (lr & v & b & e & _ & _ & _ & Hsp & _ & _ & -> & _)%HA. apply Hsp.
  - intros i j a b Ha Hb Hne E. destruct (HA i a Ha) as (lr1 & v1 & b1 & e1 & ? & ? & _ & _ & Hb1 & He1 & -> & _).
    destruct (HA j b Hb) as (lr2 & v2 & b2 & e2 & ? & ? & _ & _ & Hb2 & He2 & -> & _).
    assert (apart lr1 lr2) as Hap by by eapply (allocations_apart F i j a b). unfold apart in Hap.
    rewrite Hb1, Hb2, He1, He2 in Hap. cbn. lia.
  - intros i a Ha. destruct (allocation_fits F k i a Ek Hk Ha) as (pool & Hpool & Hb & Ho & Hs & _).
    rewrite <-Hp in Hpool. apply list_lookup_fmap_Some in Hpool as (q & -> & Hq). split_and!; [done|lia|lia|].
    exists q. split; [done|lia].
  - intros i a t Ha Ht. destruct (HA i a Ha) as (lr & v & b & e & _ & _ & Hv & _ & _ & _ & _ & Hne & ->).
    unfold declared. rewrite Hv. by apply (Hst i v t).
Qed.

(** C6: the plan refines separate storage.  Take a run of the unplanned graph in
    which no guard trips and in which a value with a size is stored in the bytes
    it declares.  Allocate the pools of the plan with any contents and execute the
    planned graph with every planned value in its pool, where the kernel of a node
    may fill its outputs with anything before it reads its inputs: no access leaves
    a pool, every node finds its inputs, and the results are those of the run. *)
Theorem planned_execution_correct pending (st st' : Heap T) g alignment d m p depth xs env ts junk pools :
  wf pending st -> 0 <= alignment <= UINT64_MAX -> nested (S d) st g ->
  memory_planning alignment d g st = Ok (st', m, p) -> runs depth st g xs env ts ->
  (forall v t, known st g v -> compute_value_size (value st v) <> 0 -> env !! id (value st v) = Some t -> stored (value st v) t) ->
  map lenZ pools = plan_pool_sizes p -> exists env0 s,
  let target := target_device (graph st' g) xs in
  initial st' (graph st' g) target xs = Ok env0 /\
  pooled_run (node_fun (forward depth st') g target) (value_allocations p) (declared st' g) junk (program st' g) (env0, pools) = Ok s /\
  rmapM (fetch (value_allocations p) (declared st' g) s) (out_ids st' g) = Ok ts.
Proof.
  intros W Ha Hn H Hrun Hst Hpools.
  destruct (memory_planning_inv pending st st' g alignment d m p W Ha Hn H) as (k & st1 & lrs & slots & Ek & Hk & E1 & -> & F).
  destruct (sort_annotated pending st st1 g (entries (value_allocations p)) W E1) as (W' & _ & Href & Ho & _ & Hvals & Hbuf).
  set (st' := foldl (annotate g) st1 _) in *.
  destruct (Href _ _ _ _ _ Hrun) as (env' & (env0 & Hi & Hr & Hout) & Hsub). exists env0.
  assert (sound_plan (value_allocations p) (declared st' g) (program st' g) (interval (lrs := lrs)) pools env') as P.
  { apply (plan_sound alignment k d g st' p lrs slots pools env' F Ek Hk Hpools). intros i v t Hv Hne Ht.
    pose proof (Hbuf v) as Ev. pose proof (f_equal shape Ev) as Esh. pose proof (f_equal dtype Ev) as Edt. pose proof (f_equal id Ev) as Eid.
    cbn in Esh, Edt, Eid. unfold stored. destruct (w_val _ _ W' g i v Hv) as [_ Hid].
    assert (compute_value_size (value st' v) = compute_value_size (value st v)) as Esz by (unfold compute_value_size; by rewrite Esh, Edt).
    rewrite Esh, Edt, Esz. rewrite Esz in Hne. apply Hst; [|done|].
    - unfold known. rewrite <-Eid, Hid, <-(Hvals g). exact Hv.
    - rewrite <-Eid, Hid. by eapply lookup_weaken. }
  assert (single env0 (program st' g)) as Hs0 by by eapply single_assignment_single; [apply (wf_single W')|].
  destruct (pooled_run_correct _ _ _ junk _ _ pools env0 env' P Hs0 Hr) as (s & Es & Hs).
  exists s. split_and!; [done|done|]. apply rmapM_Ok. apply mapM_Some in Hout.
  apply Forall2_same_length_lookup_2; [by eapply Forall2_length|]. intros j i t Hj Ht.
  pose proof (output_unplanned F i ltac:(by eapply list_elem_of_lookup_2)) as Hn'. unfold fetch. rewrite Hn', Hs by done.
  pose proof (Forall2_lookup_lr _ _ _ j i t Hout Hj Ht) as Hit. cbn in Hit. by rewrite Hit.
Qed.
End Properties.
(** ** The graph of JitScalar.v with shared buffers *)

(** A sort that [StdSort] allows. *)
Definition not_after {A} (lt : A -> A -> bool) (a b : A) : Prop := lt b a = false.

#[export] Instance not_after_dec {A} (lt : A -> A -> bool) : RelDecision (not_after lt).
Proof. intros a b. unfold not_after. apply _. Defined.

Lemma merge_sort_strict {A} (lt : A -> A -> bool) l : strict_weak lt -> StronglySorted (not_after lt) (merge_sort (not_after lt) l).
Proof.
  intros [Ha Hc]. apply StronglySorted_merge_sort.
  - intros a b c H1 H2. by eapply Hc.
  - intros a b. unfold not_after. destruct (lt b a) eqn:E; [right|by left]. by apply Ha.
Qed.

#[export] Instance merge_sorts : StdSort := {|
  sort A lt l := merge_sort (not_after lt) l;
  sort_perm A lt l := merge_sort_Permutation (not_after lt) l;
  sort_sorted A lt l := merge_sort_strict lt l
|}.

(** A scalar tensor is a 64-bit integer in little-endian order. *)
#[export] Instance little_endian : Layout Z := {|
  to_bytes z := Z_to_little_endian 8 8 z;
  of_bytes sh dt bs := sgn 64 (little_endian_to_Z 8 bs)
|}.

Lemma little_endian_stored x t : shape x = [] -> dtype x = Int64 -> in_sint 64 t = true -> stored x t.
Proof.
  intros Es Ed Ht%in_sint_spec. split.
  - cbn [of_bytes to_bytes little_endian]. rewrite little_endian_to_Z_to_little_endian by lia.
    change (t mod 2 ^ (8 * 8)) with (wrap 64 t). rewrite sgn_wrap by lia. apply sgn_small; lia.
  - unfold compute_value_size. rewrite Es, Ed. unfold lenZ. cbn [to_bytes little_endian].
    rewrite length_Z_to_little_endian by lia. done.
Qed.

(** Its plan, field by field. *)
Definition plan_field {A} (f : MemoryPlan -> A) : option A :=
  match memory_planning 64 1 0 example with Ok (_, _, p) => Some (f p) | Err _ => None end.

Lemma plan_field_eq {A} (f : MemoryPlan -> A) st m p : memory_planning 64 1 0 example = Ok (st, m, p) -> plan_field f = Some (f p).
Proof. unfold plan_field. by intros ->. Qed.

Lemma example_graded : exists rank, graded example (nodes (graph example 0)) rank.
Proof. apply in_order_graded; [apply (w_nodup _ _ example_wf)|]. apply (ordered_in_order example_wf), example_ordered. Qed.


(** a and d share a pool: the last reader of a comes before d. *)
Lemma sharing_is_safe_witness : exists st' p v w, memory_planning 64 1 0 example = Ok (st', false, p) /\
  get_value st' 0 "a" = Some v /\ get_value st' 0 "d" = Some w /\ device (value st' v) = device (value st' w) /\
  ((forall k l, touches st' 0 1 "a" k -> touches st' 0 1 "d" l -> (k < l)%nat) \/
   (forall k l, touches st' 0 1 "a" k -> touches st' 0 1 "d" l -> (l < k)%nat)).
Proof.
  destruct (memory_planning 64 1 0 example) as [[[st' m] p]|e] eqn:E; [|by vm_compute in E].
  assert (m = false) as -> by (vm_compute in E; by injection E).
  destruct (sharing_is_safe [] example st' 0 64 1 false p example_wf ltac:(unfold UINT64_MAX; lia) (example_nested 1 0) E) as [H1 H2].
  assert (forall i, value_allocations p !! i = default None (plan_field (fun p => value_allocations p !! i))) as Ha.
  { intros i. by rewrite (plan_field_eq _ _ _ _ E). }
  assert (value_allocations p !! "a" = Some (mkBuffer 0 0 8)) as Haa by (rewrite Ha; by vm_compute).
  assert (value_allocations p !! "d" = Some (mkBuffer 0 0 8)) as Had by (rewrite Ha; by vm_compute).
  destruct (H1 "a" _ Haa) as (v & _ & Hv & _). destruct (H1 "d" _ Had) as (w & _ & Hw & _).
  exists st', p, v, w. split; [done|]. split; [exact Hv|]. split; [exact Hw|].
  exact (H2 "a" "d" _ _ v w Haa Had ltac:(done) eq_refl Hv Hw).
Defined.

Lemma example_values v : known example 0 v -> shape (value example v) = [] /\ dtype (value example v) = Int64.
Proof. revert v. apply known_forall. apply (bool_decide_unpack _). by vm_compute. Qed.

Lemma example_small env : runs 1 example 0 [5] env [-10] -> forall i t, env !! i = Some t -> in_sint 64 t = true.
Proof.
  intros (env0 & H0 & Hr & _).
  assert (match initial example (graph example 0) (target_device (graph example 0) [5]) [5] with
    | Ok env0 => match run (node_fun (forward 1 example) 0 (target_device (graph example 0) [5])) (program example 0) env0 with
        | Ok env => forallb (fun p : string * Z => in_sint 64 p.2) (map_to_list env)
        | Err _ => false end
    | Err _ => false end = true) as Hb by by vm_compute.
  rewrite H0, Hr in Hb. rewrite forallb_forall in Hb. intros i t Hi. apply (Hb (i, t)).
  apply list_elem_of_In. by apply elem_of_map_to_list.
Qed.

(** Pools that hold 7s at the start, and kernels that fill their outputs with 9s. *)
Lemma planned_execution_correct_witness : exists st' p env0 s, memory_planning 64 1 0 example = Ok (st', false, p) /\
  pooled_run (node_fun (forward 1 st') 0 (target_device (graph st' 0) [5])) (value_allocations p) (declared st' 0)
    (fun _ _ => 9) (program st' 0) (env0, replicate 3 (replicate 64 7)) = Ok s /\
  rmapM (fetch (value_allocations p) (declared st' 0) s) (out_ids st' 0) = Ok [-10].
Proof.
  destruct (memory_planning 64 1 0 example) as [[[st' m] p]|e] eqn:E; [|by vm_compute in E].
  assert (m = false) as -> by (vm_compute in E; by injection E). destruct example_runs as [env Hr].
  assert (map lenZ (replicate 3 (replicate 64 7)) = plan_pool_sizes p) as Hp.
  { apply (inj Some). rewrite <-(plan_field_eq plan_pool_sizes _ _ _ E). by vm_compute. }
  destruct (planned_execution_correct [] example st' 0 64 1 false p 1 [5] env [-10] (fun _ _ => 9) (replicate 3 (replicate 64 7))
    example_wf ltac:(unfold UINT64_MAX; lia) (example_nested 1 0) E Hr) as (env0 & s & _ & H1 & H2).
  - intros v t Hv _ Ht. destruct (example_values v Hv) as [Hsh Hdt]. exact (little_endian_stored _ _ Hsh Hdt (example_small env Hr _ _ Ht)).
  - exact Hp.
  - exists st', p, env0, s. split; [done|]. split; [exact H1|exact H2].
Defined.

(** ** The total *)

(** A node whose output has a shape. *)
Definition append_shaped (op : OpType.t) (ins : list Z) (nm out : string) (sh : list Z) (dev : Device) (st : Heap Z) : Heap Z * Z :=
  let '(st, n) := create_node 0 op nm st in
  let '(st, v) := create_value 0 out sh Int64 dev st in
  let st := foldl (fun st i => add_input n i st) st ins in
  (add_node 0 n (add_output n v st), v).

(** Two values of 2^63 bytes that are live together. *)
Definition huge : Heap Z :=
  let st := mkHeap ∅ ∅ {[0 := no_graph]} 1 in
  let '(st, x) := create_value 0 "x" [] Int64 cpu st in
  let '(st, a) := append_shaped OpType.Neg [x] "neg1" "a" [1152921504606846976] cpu st in
  let '(st, b) := append_shaped OpType.Neg [x] "neg2" "b" [1152921504606846976] cpu st in
  let '(st, r) := append_shaped OpType.Add [a; b] "add" "r" [] cpu st in
  upd_graph 0 (fun g => set_outputs [r] (set_inputs [x] g)) st.

(** Each pool is in range; their sum wraps to 0. *)
Example total_memory_wraps : match memory_planning 64 1 0 huge with
  | Ok (_, _, p) => plan_pool_sizes p = [9223372036854775808; 9223372036854775808] /\ total_memory p = 0
  | Err _ => False
  end.
Proof. by vm_compute. Qed.

End MemoryClient.
