(* ===== verification/JitRemat.v ===== *)
(** * Rematerialization and swapping

    [RematerializationPlanner] and [MemorySwapPlanner] of
    include/tenzor/jit/memory_planner.hpp and src/jit/memory_planner.cpp over the
    heap of JitGraph.v, and the pass that runs the first.  A double is a
    [spec_float] of 53 bits. *)

From stdpp Require Import base list numbers strings gmap.
From Stdlib Require Import Floats.SpecFloat.
From S2P Require Import Prelude Shape DType JitOps JitGraph JitExec JitPasses JitMemory.

Module Remat.
Import Jit Passes Memory.

(** ** Doubles *)

Definition double : Type := spec_float.
Definition double_of (z : Z) : double := binary_normalize 53 1024 z 0 false.
Definition double_mul (x y : double) : double := SFmul 53 1024 x y.
Definition double_div (x y : double) : double := SFdiv 53 1024 x y.

Section Planners.
Context {T : Type} `{HS : !StdSort}.

(** ** What both planners look at *)

(** [collect_nodes_recursive]. *)
Fixpoint collect_nodes_recursive (depth : nat) (st : Heap T) (g : Z) (nodes_out : gset Z) : result (gset Z) :=
  match depth with
  | O => Err Diverged
  | S depth =>
      rfoldM (fun acc n => rfoldM (fun acc h => collect_nodes_recursive depth st h acc) (subgraphs (node st n)) ({[n]} ∪ acc))
        (nodes (graph st g)) nodes_out
  end.

Definition node_index (ns : list Z) : gmap Z Z :=
  foldl (fun m (p : nat * Z) => <[p.2 := Z.of_nat p.1]> m) ∅ (enumerate ns).

(** The ids of inputs, outputs and constants. *)
Definition excluded_ids (st : Heap T) (g : Z) : gset string :=
  let G := graph st g in
  list_to_set (map (fun v => id (value st v)) (graph_inputs G)) ∪ list_to_set (map (fun v => id (value st v)) (graph_outputs G)) ∪
  list_to_set (concat (map (fun n => if bool_decide (op_type (node st n) = OpType.Constant)
                                     then map (fun v => id (value st v)) (outputs (node st n)) else []) (nodes G))).

(** A node with one output named after it, as both planners add them; the value
    is like [v], on the device [dev]. *)
Definition insert_node (g : Z) (op : OpType.t) (nm : string) (ins : list Z) (a : Attrs T) (suffix : string)
    (v : Z) (dev : Device) (st : Heap T) : Heap T * Z :=
  let '(st, n) := create_node g op nm st in
  let st := foldl (fun st i => add_input n i st) st ins in
  let st := upd_node n (with_attrs a) st in
  let '(st, out) := create_value g (name (node st n) +:+ suffix) (shape (value st v)) (dtype (value st v)) dev st in
  let st := add_output n out (set_node (Some n) out st) in
  (add_node g n st, out).

(** ** Rematerialization *)

Definition is_cheap_to_recompute (op : OpType.t) : bool :=
  match op with
  | OpType.ReLU | OpType.Sigmoid | OpType.Tanh | OpType.GELU
  | OpType.Add | OpType.Sub | OpType.Mul | OpType.Div | OpType.Exp | OpType.Log | OpType.Sqrt | OpType.Pow
  | OpType.Abs | OpType.Neg | OpType.Clamp
  | OpType.Reshape | OpType.Transpose | OpType.Permute | OpType.Squeeze | OpType.Unsqueeze => true
  | _ => false
  end.

(** The product of the dimensions, or a return of 0. *)
Fixpoint numel_double (numel : double) (shape : list Z) : option double :=
  match shape with
  | [] => Some numel
  | dim :: shape => if dim <=? 0 then None else numel_double (double_mul numel (double_of dim)) shape
  end.

Definition estimate_flops (op : OpType.t) (shape : list Z) : double :=
  match shape with
  | [] => double_of 0
  | _ =>
      match numel_double (double_of 1) shape with
      | None => double_of 0
      | Some numel =>
          match op with
          | OpType.Reshape | OpType.Transpose | OpType.Permute | OpType.Squeeze | OpType.Unsqueeze => double_of 1
          | OpType.Add | OpType.Sub | OpType.Mul | OpType.Div | OpType.Abs | OpType.Neg | OpType.ReLU | OpType.Clamp => numel
          | OpType.Exp | OpType.Log | OpType.Sqrt | OpType.Pow => double_mul numel (double_of 10)
          | OpType.Sigmoid | OpType.Tanh | OpType.GELU => double_mul numel (double_of 20)
          | _ => double_mul numel (double_of 100)
          end
      end
  end.

Record RematerializationCandidate := mkCandidate {
  rc_value_id : string; producer_node_name : string; producer_op : OpType.t;
  memory_saved : Z; recompute_flops : double; cost_ratio : double
}.

(** The last node that may use a value: a live consumer inside a subgraph counts
    as the last node. *)
Definition last_use (st : Heap T) (index : gmap Z Z) (live : gset Z) (num_nodes birth v : Z) : Z :=
  foldl (fun death user =>
    if negb (bool_decide (user ∈ live)) then death
    else match index !! user with
         | Some i => Z.max death i
         | None => if num_nodes =? 0 then death else Z.max death (num_nodes - 1)
         end) birth (live_uses st v).

Definition candidate (st : Heap T) (index : gmap Z Z) (live : gset Z) (num_nodes : Z) (excluded : gset string)
    (min_cost_ratio : double) (n v : Z) : option RematerializationCandidate :=
  let x := value st v in
  if bool_decide (id x ∈ excluded) then None
  else
    let birth := default 0 (index !! n) in
    let death := last_use st index live num_nodes birth v in
    if death - birth <? 3 then None
    else match shape x with
    | [] => None
    | _ =>
        let mem_bytes := checked_byte_size (shape x) (dtype_size (dtype x)) in
        if mem_bytes =? 0 then None
        else
          let flops := estimate_flops (op_type (node st n)) (shape x) in
          if SFleb flops (double_of 0) then None
          else
            let ratio := double_div (double_of mem_bytes) flops in
            if SFltb ratio min_cost_ratio then None
            else Some (mkCandidate (id x) (name (node st n)) (op_type (node st n)) mem_bytes flops ratio)
    end.

Definition find_candidates (depth : nat) (min_cost_ratio : double) (g : Z) (st : Heap T)
    : result (list RematerializationCandidate) :=
  let ns := nodes (graph st g) in
  let* live := collect_nodes_recursive depth st g ∅ in
  let found := concat (map (fun n =>
    if is_cheap_to_recompute (op_type (node st n))
    then omap (candidate st (node_index ns) live (lenZ ns) (excluded_ids st g) min_cost_ratio n) (outputs (node st n))
    else []) ns) in
  Ok (sort (fun a b => SFltb (cost_ratio b) (cost_ratio a)) found).

(** The last top-level consumer and the number of live uses. *)
Definition survey (st : Heap T) (index : gmap Z Z) (live : gset Z) (v : Z) : option Z * Z :=
  let '(consumer, _, count) :=
    foldl (fun acc user =>
      let '(consumer, last_use_idx, count) := acc in
      if negb (bool_decide (user ∈ live)) then acc
      else match index !! user with
           | Some i => if i >=? last_use_idx then (Some user, i, count + 1) else (consumer, last_use_idx, count + 1)
           | None => (consumer, last_use_idx, count + 1)
           end) (None, 0, 0) (live_uses st v) in
  (consumer, count).

(** The first input of [n] whose id is [i], and the redirection of it. *)
Definition slot_of (st : Heap T) (n : Z) (i : string) : option nat :=
  fst <$> list_find (fun v => id (value st v) = i) (inputs (node st n)).

Definition redirect_first (n : Z) (i : string) (v : Z) (st : Heap T) : result (Heap T) :=
  match slot_of st n i with
  | Some k => replace_input n k v st
  | None => Ok st
  end.

Definition mark_rematerialized (a : Attrs T) : Attrs T :=
  mkAttrs (float_attrs a) (int_attrs a) (vec_attrs a) (<["rematerialized" := true]> (bool_attrs a)) (tensor_attrs a).

(** One candidate: nothing where it does not qualify. *)
Definition rematerialize (g : Z) (index : gmap Z Z) (live : gset Z) (i : string) (st : Heap T) : result (option (Heap T)) :=
  match get_value st g i with
  | None => Ok None
  | Some v =>
      match node_of st v with
      | None => Ok None
      | Some p =>
          let '(last_consumer, live_consumer_count) := survey st index live v in
          match last_consumer with
          | None => Ok None
          | Some c =>
              if negb (live_consumer_count =? 1) then Ok None
              else
                let P := node st p in
                let '(st, out) := insert_node g (op_type P) (name P +:+ "_remat") (inputs P)
                  (mark_rematerialized (attrs P)) "_out" v (device (value st v)) st in
                let* st := redirect_first c i out st in
                Ok (Some st)
          end
      end
  end.

Fixpoint rematerialize_all (budget : Z) (g : Z) (index : gmap Z Z) (live : gset Z) (candidates : list RematerializationCandidate)
    (st : Heap T) (count memory_freed : Z) : result (Heap T * Z) :=
  match candidates with
  | [] => Ok (st, count)
  | c :: candidates =>
      if (budget >? 0) && (memory_freed >=? budget) then Ok (st, count)
      else
        let* r := rematerialize g index live (rc_value_id c) st in
        match r with
        | None => rematerialize_all budget g index live candidates st count memory_freed
        | Some st => rematerialize_all budget g index live candidates st (count + 1) (wrap 64 (memory_freed + memory_saved c))
        end
  end.

Definition sort_if (b : bool) (g : Z) (st : Heap T) : result (Heap T) := if b then topological_sort g st else Ok st.

Definition remat_apply (depth : nat) (budget : Z) (g : Z) (candidates : list RematerializationCandidate) (st : Heap T)
    : result (Heap T * Z) :=
  let index := node_index (nodes (graph st g)) in
  let* live := collect_nodes_recursive depth st g ∅ in
  let* '(st, count) := rematerialize_all budget g index live candidates st 0 0 in
  let* st := sort_if (count >? 0) g st in
  Ok (st, count).

(** [RematerializationPass::run], with the count that the pass keeps. *)
Definition rematerialization (depth : nat) (budget : Z) (min_cost_ratio : double) (g : Z) (st : Heap T)
    : result (Heap T * bool * Z) :=
  let* candidates := find_candidates depth min_cost_ratio g st in
  let* '(st, num_rematerialized) := remat_apply depth budget g candidates st in
  Ok (st, num_rematerialized >? 0, num_rematerialized).

(** ** Swapping *)

Record SwapSchedule := mkSwap { sw_value_id : string; swap_out_after : Z; swap_in_before : Z; size_bytes : Z }.

Definition schedule (st : Heap T) (index : gmap Z Z) (excluded : gset string) (swap_threshold min_gap n v : Z) : option SwapSchedule :=
  let x := value st v in
  if bool_decide (id x ∈ excluded) then None
  else if bool_decide (device_type (device x) = CPU) then None
  else match shape x with
  | [] => None
  | _ =>
      let size := checked_byte_size (shape x) (dtype_size (dtype x)) in
      if size =? 0 then None
      else if size <? swap_threshold then None
      else
        let birth := default 0 (index !! n) in
        let death := foldl (fun death user => match index !! user with Some i => Z.max death i | None => death end)
                       birth (live_uses st v) in
        if death - birth <? min_gap then None else Some (mkSwap (id x) birth death size)
  end.

Definition swap_plan (swap_threshold min_gap : Z) (g : Z) (st : Heap T) : list SwapSchedule :=
  let ns := nodes (graph st g) in
  sort (fun a b => size_bytes a >? size_bytes b)
    (concat (map (fun n => omap (schedule st (node_index ns) (excluded_ids st g) swap_threshold min_gap n) (outputs (node st n))) ns)).

(** The consumers that count: not a SwapOut, and reachable; the last of them. *)
Definition swap_consumers (st : Heap T) (reachable : gset Z) (v : Z) : list Z :=
  filter (fun user => op_type (node st user) <> OpType.SwapOut /\ user ∈ reachable) (live_uses st v).

Definition size_attr (size : Z) : Attrs T := mkAttrs ∅ {["size_bytes" := sgn 64 size]} ∅ ∅ ∅.

(** One schedule: nothing where it does not qualify. *)
Definition swap_value (g : Z) (reachable : gset Z) (s : SwapSchedule) (st : Heap T) : result (option (Heap T)) :=
  match get_value st g (sw_value_id s) with
  | None => Ok None
  | Some v =>
      match swap_consumers st reachable v with
      | [c] =>
          match slot_of st c (sw_value_id s) with
          | None => Ok None
          | Some k =>
              let dev := device (value st v) in
              let '(st, cpu_handle) := insert_node g OpType.SwapOut ("swap_out_" +:+ sw_value_id s) [v]
                (size_attr (size_bytes s)) "_cpu" v cpu st in
              let '(st, gpu_restored) := insert_node g OpType.SwapIn ("swap_in_" +:+ sw_value_id s) [cpu_handle]
                (size_attr (size_bytes s)) "_gpu" v dev st in
              let* st := replace_input c k gpu_restored st in
              Ok (Some st)
          end
      | _ => Ok None
      end
  end.

Definition swap_apply (depth : nat) (g : Z) (schedules : list SwapSchedule) (st : Heap T) : result (Heap T * Z) :=
  let* reachable := collect_nodes_recursive depth st g ∅ in
  let* '(st, count) := rfoldM (fun acc s =>
    let* r := swap_value g reachable s acc.1 in
    Ok (match r with Some st => (st, acc.2 + 1) | None => acc end)) schedules (st, 0) in
  let* st := sort_if (count >? 0) g st in
  Ok (st, count).

End Planners.
End Remat.
