(* ===== verification/JitInsert.v ===== *)
(** * Adding a node to a graph

    [insert_node] of JitRemat.v adds an equation that assigns a new id, and
    [replace_input] at the only slot that reads a value redirects that read.  Both
    keep the invariant of JitWf.v, with two more parts: pointers are below the next
    one that the heap hands out, and a use list has an entry per read. *)

From stdpp Require Import base list numbers strings gmap.
From S2P Require Import Prelude DType JitOps JitGraph JitFlow JitExec JitMeaning JitWf JitEdit JitSort JitPreserve JitPasses JitDce JitMemory JitRemat.

Module Insert.
Import Jit Flow Exec Meaning Wf Edit GraphSort Preserve Passes Contract Memory Remat.

Section Insert.
Context {T : Type}.

(** Every pointer was handed out. *)
Record allocated (st : Heap T) : Prop := mkAllocated {
  al_node n : is_Some (heap_nodes st !! n) -> n < next_ptr st;
  al_value v : is_Some (heap_values st !! v) -> v < next_ptr st;
  al_graph g : is_Some (heap_graphs st !! g) -> g < next_ptr st;
  al_uses v n : n ∈ uses (value st v) -> n < next_ptr st;
  al_producer v n : producer (value st v) = Some n -> n < next_ptr st
}.

(** A node is in the use list of a value as often as it reads it, or more. *)
Definition counted (st : Heap T) : Prop := forall g n v, n ∈ nodes (graph st g) ->
  occ v (inputs (node st n)) <= occ n (uses (value st v)).

(** ** The heap after [insert_node] *)

Section Heap.
Context (g : Z) (op : OpType.t) (nm : string) (ins : list Z) (a : Attrs T) (suffix : string) (v0 : Z) (dev : Device) (st : Heap T).
Context (Hnm : nm <> ""%string).

Let n0 := next_ptr st.
Let out := next_ptr st + 1.
Let st' := (insert_node g op nm ins a suffix v0 dev st).1.

Definition new_node : Node T := mkNode op nm ins [out] a None None None.
Definition new_value : Value := mkValue (nm +:+ suffix) (shape (value st v0)) (dtype (value st v0)) dev (Some n0) [] SIZE_MAX 0.

(** What [add_input] does to the heap, for a list of inputs. *)
Lemma add_inputs_spec (s : Heap T) n l : is_Some (heap_nodes s !! n) ->
  let s' := foldl (fun s i => add_input n i s) s l in
  heap_graphs s' = heap_graphs s /\ next_ptr s' = next_ptr s /\
  (forall m, heap_nodes s' !! m = (if decide (m = n) then with_inputs (inputs (node s n) ++ l) <$> heap_nodes s !! m else heap_nodes s !! m)) /\
  (forall v, heap_values s' !! v = (fun x => with_uses (uses x ++ map (fun _ => n) (filter (fun i => i = v) l)) x) <$> heap_values s !! v).
Proof.
  revert s. induction l as [|i l IH]; intros s Hn; cbn [foldl].
  { split_and!; [done|done| |].
    - intros m. case_decide; [|done]. subst m. destruct Hn as [x Hx]. unfold node. rewrite Hx. cbn. rewrite app_nil_r. by destruct x.
    - intros v. destruct (heap_values s !! v) as [x|]; [|done]. cbn. rewrite app_nil_r. by destruct x. }
  destruct (IH (add_input n i s)) as (Hg & Hp & Hnodes & Hvals); [by apply is_Some_alter|].
  split_and!; [by rewrite Hg|by rewrite Hp| |].
  - intros m. rewrite Hnodes. destruct Hn as [x Hx].
    assert (heap_nodes (add_input n i s) !! n = Some (with_inputs (inputs x ++ [i]) x)) as E.
    { change (alter (fun x => with_inputs (inputs x ++ [i]) x) n (heap_nodes s) !! n = Some (with_inputs (inputs x ++ [i]) x)).
      by rewrite lookup_alter_eq, Hx. }
    case_decide as Em.
    + subst m. unfold node. rewrite E, Hx. cbn [default from_option fmap option_fmap option_map]. unfold Datatypes.id.
      unfold with_inputs at 1 2 3. cbn. by rewrite <-app_assoc.
    + change (alter (fun x => with_inputs (inputs x ++ [i]) x) n (heap_nodes s) !! m = heap_nodes s !! m).
      by rewrite lookup_alter_ne.
  - intros v. rewrite Hvals. change (heap_values (add_input n i s)) with (alter (fun x => with_uses (uses x ++ [n]) x) i (heap_values s)).
    destruct (decide (i = v)) as [->|Hne].
    + rewrite lookup_alter_eq. destruct (heap_values s !! v) as [x|]; [|done]. rewrite filter_cons_True by done. cbn. by rewrite <-app_assoc.
    + rewrite lookup_alter_ne by done. by rewrite filter_cons_False.
Qed.

Definition reads_by (v : Z) : list Z := map (fun _ => n0) (filter (fun i => i = v) ins).

Lemma insert_node_heap : (insert_node g op nm ins a suffix v0 dev st).2 = out /\ next_ptr st' = next_ptr st + 2 /\
  heap_graphs st' = alter (fun x => with_nodes (nodes x ++ [n0]) (with_values (<[nm +:+ suffix := out]> (values x)) x)) g (heap_graphs st) /\
  (forall m, heap_nodes st' !! m = if decide (m = n0) then Some new_node else heap_nodes st !! m) /\
  (forall v, heap_values st' !! v = if decide (v = out) then Some new_value
     else (fun x => with_uses (uses x ++ reads_by v) x) <$> heap_values st !! v).
Proof.
  unfold st', insert_node, create_node. rewrite (bool_decide_eq_false_2 _ Hnm).
  set (s0 := mkHeap _ (<[next_ptr st := _]> _) _ _). cbn [fst snd].
  assert (heap_nodes s0 !! n0 = Some (mkNode op nm [] [] no_attrs None None None)) as E0 by apply lookup_insert_eq.
  destruct (add_inputs_spec s0 n0 ins) as (Hg & Hp & Hn & Hv); [by eexists|].
  fold n0. set (s1 := foldl (fun s i => add_input n0 i s) s0 ins) in *. unfold create_value. cbn [fst snd].
  assert (next_ptr s1 = out) as Ho by by rewrite Hp.
  assert (node (upd_node n0 (with_attrs a) s1) n0 = mkNode op nm ins [] a None None None) as Enode.
  { unfold node, upd_node. cbn. rewrite lookup_alter_eq, Hn, decide_True by done. unfold node. rewrite E0. done. }
  assert (shape (value (upd_node n0 (with_attrs a) s1) v0) = shape (value st v0) /\
          dtype (value (upd_node n0 (with_attrs a) s1) v0) = dtype (value st v0)) as [Esh Edt].
  { unfold value, upd_node. cbn. rewrite Hv. change (heap_values s0) with (heap_values st). by destruct (heap_values st !! v0). }
  rewrite Enode, Esh, Edt. cbn [name next_ptr upd_node upd_graph]. rewrite Ho. split_and!; [done| | | |].
  - cbn. unfold out. lia.
  - cbn. rewrite Hg, alter_alter_eq. done.
  - intros m. cbn. case_decide as Em.
    + subst m. rewrite !lookup_alter_eq, Hn, decide_True by done. unfold node. rewrite E0. done.
    + rewrite !lookup_alter_ne, Hn, decide_False by done. cbn. by rewrite lookup_insert_ne.
  - intros v. cbn. case_decide as Ev.
    + subst v. by rewrite !lookup_alter_eq, lookup_insert_eq.
    + rewrite !lookup_alter_ne, lookup_insert_ne by done. apply Hv.
Qed.

(** ** The new node in a well-formed heap *)

Context (W : wf [] st) (AL : allocated st) (CT : counted st) (Hg : is_Some (heap_graphs st !! g)).
Context (Hins : forall v, v ∈ ins -> known st g v /\ forall p, node_of st v = Some p -> p ∈ nodes (graph st g)).

Let i := nm +:+ suffix.
Context (Hfresh : values (graph st g) !! i = None) (Hleaf : ~ leaf_id st g i).

Lemma known_old h v : known st h v -> is_Some (heap_values st !! v) /\ v <> out.
Proof.
  intros Hk. pose proof (known_Some W h v Hk) as Hs. split; [done|]. pose proof (al_value _ AL v Hs). unfold out. lia.
Qed.

Lemma node_old h n : n ∈ nodes (graph st h) -> n <> n0.
Proof.
  intros Hn. pose proof (w_alive _ _ W h n Hn) as Ha%alive_Some. pose proof (al_node _ AL n Ha). unfold n0. lia.
Qed.

Lemma ins_node n : node st' n = if decide (n = n0) then new_node else node st n.
Proof. destruct insert_node_heap as (_ & _ & _ & Hn & _). unfold node. rewrite Hn. by case_decide. Qed.

Lemma ins_new_value : value st' out = new_value.
Proof. destruct insert_node_heap as (_ & _ & _ & _ & Hv). unfold value. by rewrite Hv, decide_True. Qed.

Lemma ins_field {A} (f : Value -> A) v : v <> out -> (forall us x, f (with_uses us x) = f x) -> f (value st' v) = f (value st v).
Proof.
  intros Hne Hf. destruct insert_node_heap as (_ & _ & _ & _ & Hv). unfold value. rewrite Hv, decide_False by done.
  destruct (heap_values st !! v); cbn; [apply Hf|done].
Qed.

Lemma ins_uses v : v <> out -> uses (value st' v) = uses (value st v) ++ (if decide (is_Some (heap_values st !! v)) then reads_by v else []).
Proof.
  intros Hne. destruct insert_node_heap as (_ & _ & _ & _ & Hv). unfold value. rewrite Hv, decide_False by done.
  destruct (heap_values st !! v) as [x|]; [by rewrite decide_True by by eexists|].
  rewrite decide_False; [done|]. by intros ?%is_Some_None.
Qed.

Lemma ins_graph h : graph st' h = if decide (h = g)
  then with_nodes (nodes (graph st g) ++ [n0]) (with_values (<[i := out]> (values (graph st g))) (graph st g)) else graph st h.
Proof.
  destruct insert_node_heap as (_ & _ & Hgr & _). unfold graph. rewrite Hgr. destruct Hg as [G HG]. case_decide as E.
  - subst h. by rewrite lookup_alter_eq, HG.
  - by rewrite lookup_alter_ne.
Qed.

Lemma ins_alive n : alive st' n = if decide (n = n0) then true else alive st n.
Proof.
  destruct insert_node_heap as (_ & _ & _ & Hn & _). unfold alive. rewrite Hn. case_decide; [|done].
  apply bool_decide_eq_true. by eexists.
Qed.

Lemma ins_node_of v : v <> out -> node_of st' v = node_of st v.
Proof.
  intros Hne. unfold node_of. rewrite (ins_field producer) by done. destruct (producer (value st v)) as [p|] eqn:E; [|done].
  rewrite ins_alive, decide_False; [done|]. pose proof (al_producer _ AL v p E). unfold n0. lia.
Qed.

Lemma ins_node_of_new : node_of st' out = Some n0.
Proof. unfold node_of. rewrite ins_new_value. cbn. by rewrite ins_alive, decide_True. Qed.

Lemma ins_known h v : known st' h v <-> known st h v \/ h = g /\ v = out.
Proof.
  unfold known. rewrite ins_graph. destruct (decide (v = out)) as [->|Hne].
  - rewrite ins_new_value. change (id new_value) with i. case_decide as E.
    + subst h. cbn. rewrite lookup_insert_eq. naive_solver.
    + split; [|intros [H|[? _]]; [|done]].
      * intros H. destruct (w_val _ _ W h i out H) as [Hs _]. pose proof (al_value _ AL out Hs). unfold out in *. lia.
      * exfalso. by apply (known_old h out).
  - rewrite (ins_field id) by done. case_decide as E; [|naive_solver]. subst h. cbn.
    destruct (decide (i = id (value st v))) as [Ei|Hi].
    + rewrite <-Ei, lookup_insert_eq. split; [naive_solver|]. rewrite Hfresh. naive_solver.
    + rewrite lookup_insert_ne by done. naive_solver.
Qed.

Lemma ins_value_ids vs : (forall v, v ∈ vs -> v <> out) -> value_ids st' vs = value_ids st vs.
Proof. intros H. apply map_ext_in. intros v Hv. apply (ins_field id); [by apply H, list_elem_of_In|done]. Qed.

Lemma ins_sub h : graph_inputs (graph st' h) = graph_inputs (graph st h) /\
  graph_outputs (graph st' h) = graph_outputs (graph st h) /\ same_leaves (graph st h) (graph st' h) /\
  in_ids st' h = in_ids st h /\ out_ids st' h = out_ids st h /\
  nodes (graph st' h) = nodes (graph st h) ++ (if decide (h = g) then [n0] else []).
Proof.
  assert (graph_inputs (graph st' h) = graph_inputs (graph st h) /\ graph_outputs (graph st' h) = graph_outputs (graph st h) /\
    same_leaves (graph st h) (graph st' h) /\ nodes (graph st' h) = nodes (graph st h) ++ (if decide (h = g) then [n0] else []))
    as (E1 & E2 & E3 & E4).
  { rewrite ins_graph. case_decide; [subst h; by repeat split|]. rewrite app_nil_r. by repeat split. }
  split_and!; [done|done|done| | |done]; unfold in_ids, out_ids; rewrite ?E1, ?E2; apply ins_value_ids; intros v Hv;
    apply (known_old h); [by eapply w_gin|by apply (w_gout _ _ W h v)].
Qed.

Lemma ins_leaf_id h j : leaf_id st' h j <-> leaf_id st h j.
Proof. destruct (ins_sub h) as (_ & _ & Hl & Hi & _). by apply leaf_id_same. Qed.

Lemma ins_nodes h n : n ∈ nodes (graph st' h) <-> n ∈ nodes (graph st h) \/ h = g /\ n = n0.
Proof.
  destruct (ins_sub h) as (_ & _ & _ & _ & _ & ->). rewrite elem_of_app. case_decide.
  - rewrite list_elem_of_singleton. naive_solver.
  - rewrite elem_of_nil. naive_solver.
Qed.

Lemma elem_of_reads_by v n : n ∈ reads_by v <-> n = n0 /\ v ∈ ins.
Proof.
  unfold reads_by. rewrite list_elem_of_fmap. split.
  - intros (u & -> & [-> ?]%list_elem_of_filter). done.
  - intros [-> Hv]. exists v. split; [done|]. by apply list_elem_of_filter.
Qed.

Lemma ins_known_uses h v : known st h v -> uses (value st' v) = uses (value st v) ++ reads_by v.
Proof. intros Hk. destruct (known_old h v Hk) as [Hs Hne]. by rewrite ins_uses, decide_True. Qed.

Lemma ins_in h n v : n ∈ nodes (graph st' h) -> v ∈ inputs (node st' n) -> known st h v /\ n ∈ uses (value st' v) /\
  forall p, node_of st' v = Some p -> p ∈ nodes (graph st' h).
Proof.
  intros [Hn|[-> ->]]%ins_nodes Hv; rewrite ins_node in Hv.
  - rewrite decide_False in Hv by by eapply node_old. destruct (w_in _ _ W h n v Hn Hv) as [Hk Hu].
    split_and!; [done|rewrite (ins_known_uses h v Hk); apply elem_of_app; by left|].
    intros p. rewrite ins_node_of by apply (known_old h v Hk). intros Hp. apply ins_nodes. left. by eapply w_in_live.
  - rewrite decide_True in Hv by done. destruct (Hins v Hv) as [Hk Hl].
    split_and!; [done|rewrite (ins_known_uses g v Hk); apply elem_of_app; right; by apply elem_of_reads_by|].
    intros p. rewrite ins_node_of by apply (known_old g v Hk). intros Hp. apply ins_nodes. left. by apply Hl.
Qed.

Lemma ins_out h n v : n ∈ nodes (graph st' h) -> v ∈ outputs (node st' n) ->
  known st' h v /\ producer (value st' v) = Some n /\ ~ leaf_id st' h (id (value st' v)).
Proof.
  intros [Hn|[-> ->]]%ins_nodes Hv; rewrite ins_node in Hv.
  - rewrite decide_False in Hv by by eapply node_old. destruct (w_out _ _ W h n v Hn Hv) as (Hk & Hp & Hl).
    destruct (known_old h v Hk) as [_ Hne]. rewrite ins_known, (ins_field producer), (ins_field id), ins_leaf_id by done. by split_and!; [left|..].
  - rewrite decide_True in Hv by done. cbn in Hv. apply list_elem_of_singleton in Hv as ->.
    rewrite ins_known, ins_new_value, ins_leaf_id. split_and!; [by right|done|done].
Qed.

Lemma ins_use h v n : known st' h v -> n ∈ live_uses st' v -> n ∈ nodes (graph st' h) /\ v ∈ inputs (node st' n).
Proof.
  intros Hk [Ha Hu]%elem_of_live_uses. apply ins_known in Hk as [Hk|[-> ->]].
  2:{ rewrite ins_new_value in Hu. by apply not_elem_of_nil in Hu. }
  rewrite (ins_known_uses h v Hk) in Hu. rewrite ins_nodes, ins_node. apply elem_of_app in Hu as [Hu|[-> Hv]%elem_of_reads_by].
  - assert (n <> n0) as Hne by (pose proof (al_uses _ AL v n Hu); unfold n0; lia).
    rewrite ins_alive, decide_False in Ha by done. rewrite decide_False by done.
    destruct (w_use _ _ W h v n Hk) as [? ?]; [by apply elem_of_live_uses|]. split; [by left|done].
  - rewrite decide_True by done. split; [|done]. right. split; [|done]. by apply (known_own W h g v Hk (proj1 (Hins v Hv))).
Qed.

Lemma ins_wf : wf [] st'.
Proof.
  split.
  - intros h. destruct (ins_sub h) as (_ & _ & _ & _ & _ & ->). pose proof (w_nodup _ _ W h) as Hnd.
    apply NoDup_app. split_and!; [done| |case_decide; [apply NoDup_singleton|constructor]].
    intros n Hn Hin. case_decide; [apply list_elem_of_singleton in Hin; by eapply node_old|by apply not_elem_of_nil in Hin].
  - intros h n [Hn|[_ ->]]%ins_nodes; rewrite ins_alive; case_decide; [done| |done|done]. by eapply w_alive.
  - intros h k n [Hn|[-> ->]]%ins_nodes [Hk|[-> E]]%ins_nodes; [by eapply w_own| | |done].
    + by destruct (node_old h n Hn).
    + by destruct (node_old k n0 Hk).
  - intros h n _. apply not_elem_of_nil.
  - intros h j v H. assert (id (value st' v) = j /\ (known st h v \/ v = out)) as [Hid Hk].
    { rewrite ins_graph in H. case_decide as E; cbn in H.
      - subst h. apply lookup_insert_Some in H as [[<- <-]|[_ H]]; [rewrite ins_new_value; by split; [|right]|].
        destruct (w_val _ _ W g j v H) as [_ Hid]. assert (known st g v) as Hk by by rewrite <-Hid in H.
        rewrite (ins_field id) by (done || by apply (known_old g v Hk)). by split; [|left].
      - destruct (w_val _ _ W h j v H) as [_ Hid]. assert (known st h v) as Hk by by rewrite <-Hid in H.
        rewrite (ins_field id) by (done || by apply (known_old h v Hk)). by split; [|left]. }
    split; [|done]. destruct insert_node_heap as (_ & _ & _ & _ & Hv). rewrite Hv. case_decide; [by eexists|].
    destruct Hk as [Hk| ->]; [|done]. apply fmap_is_Some. by apply (known_old h v Hk).
  - intros h k j j' v H1 H2. assert (forall h j, values (graph st' h) !! j = Some v -> known st h v \/ h = g /\ v = out) as Hk.
    { intros h' j0 H. rewrite ins_graph in H. case_decide as E; cbn in H; [subst h'; apply lookup_insert_Some in H as [[_ <-]|[_ H]]; [by right|]|];
        left; destruct (w_val _ _ W _ j0 v H) as [_ Hid]; by rewrite <-Hid in H. }
    destruct (Hk h j H1) as [Hh|[-> ->]], (Hk k j' H2) as [Hk'|[-> E]]; [by eapply known_own| | |done].
    + exfalso. by apply (known_old h v Hh).
    + exfalso. by apply (known_old k out Hk').
  - intros h n v Hn Hv. destruct (ins_in h n v Hn Hv) as (Hk & Hu & _). split; [apply ins_known; by left|done].
  - intros h n v p Hn Hv. by apply (ins_in h n v).
  - apply ins_out.
  - intros h n [Hn|[-> ->]]%ins_nodes; rewrite ins_node; case_decide; [apply NoDup_singleton|by eapply w_out_nodup|apply NoDup_singleton|done].
  - intros h v. destruct (ins_sub h) as (-> & _). intros Hv. apply ins_known. left. by eapply w_gin.
  - intros h v. destruct (ins_sub h) as (_ & -> & _). intros Hv. destruct (w_gout _ _ W h v Hv) as [Hk Hp].
    split; [apply ins_known; by left|]. intros p. rewrite ins_node_of by apply (known_old h v Hk). intros E. apply ins_nodes. left. by apply Hp.
  - intros h v p [Hk|[-> ->]]%ins_known.
    + rewrite ins_node_of by apply (known_old h v Hk). intros Hp. destruct (w_prod _ _ W h v p Hk Hp) as [Ho [Hn|Hn]]; [|by apply not_elem_of_nil in Hn].
      rewrite ins_node, decide_False by by eapply node_old. split; [done|]. left. apply ins_nodes. by left.
    + rewrite ins_node_of_new. intros [= <-]. rewrite ins_node, decide_True by done. split; [left|]. left. apply ins_nodes. by right.
  - apply ins_use.
Qed.

Lemma ins_allocated : allocated st'.
Proof.
  destruct insert_node_heap as (_ & Hp & Hgr & Hn & Hv). split; rewrite Hp.
  - intros n. rewrite Hn. case_decide as E; [unfold n0 in E; lia|]. intros H%(al_node _ AL). lia.
  - intros v. rewrite Hv. case_decide as E; [unfold out in E; lia|]. rewrite fmap_is_Some. intros H%(al_value _ AL). lia.
  - intros h. rewrite Hgr, is_Some_alter. intros H%(al_graph _ AL). lia.
  - intros v n. destruct (decide (v = out)) as [->|Hne]; [rewrite ins_new_value; by intros ?%not_elem_of_nil|]. rewrite ins_uses by done.
    intros [H%(al_uses _ AL)|H]%elem_of_app; [lia|]. case_decide; [|by apply not_elem_of_nil in H].
    apply elem_of_reads_by in H as [-> _]. unfold n0. lia.
  - intros v n. destruct (decide (v = out)) as [->|Hne]; [rewrite ins_new_value; intros [= <-]; unfold n0; lia|].
    rewrite (ins_field producer) by done. intros H%(al_producer _ AL). lia.
Qed.

Lemma occ_reads_by v : occ n0 (reads_by v) = occ v ins.
Proof.
  unfold reads_by. generalize ins. intros l0. induction l0 as [|u l IH]; [done|]. rewrite occ_cons. destruct (decide (u = v)) as [->|Hne].
  - rewrite filter_cons_True by done. cbn [map]. rewrite occ_cons, decide_True by done. lia.
  - rewrite filter_cons_False by done. lia.
Qed.

Lemma ins_counted : counted st'.
Proof.
  intros h n v Hn. destruct (decide (v ∈ inputs (node st' n))) as [Hv|Hv].
  2:{ pose proof (occ_nonneg n (uses (value st' v))). pose proof (occ_pos v (inputs (node st' n))).
      pose proof (occ_nonneg v (inputs (node st' n))). destruct (decide (0 < occ v (inputs (node st' n)))); [tauto|lia]. }
  destruct (ins_in h n v Hn Hv) as (Hk & _). rewrite (ins_known_uses h v Hk), occ_app.
  apply ins_nodes in Hn as [Hn|[-> ->]]; rewrite ins_node.
  - rewrite decide_False by by eapply node_old. pose proof (CT h n v Hn). pose proof (occ_nonneg n (reads_by v)). lia.
  - rewrite decide_True by done. cbn [inputs new_node]. rewrite occ_reads_by. pose proof (occ_nonneg n0 (uses (value st v))). lia.
Qed.

(** The program has one more equation. *)
Lemma ins_program h : program st' h = program st h ++ (if decide (h = g)
  then [mkEqn ((op, a, (None, None, None)), 1%nat) (value_ids st ins) [i]] else []).
Proof.
  unfold program. destruct (ins_sub h) as (_ & _ & _ & _ & _ & ->). rewrite map_app. f_equal.
  - apply map_ext_in. intros n Hn%list_elem_of_In. unfold node_eqn. rewrite ins_node, decide_False by by eapply node_old.
    f_equal; apply ins_value_ids; intros v Hv; apply (known_old h); [by apply (w_in _ _ W h n v)|by apply (w_out _ _ W h n v)].
  - case_decide; [|done]. cbn. unfold node_eqn. rewrite ins_node, decide_True by done. do 2 f_equal.
    + apply ins_value_ids. intros v Hv. by apply (known_old g), Hins.
    + cbn. by rewrite ins_new_value.
Qed.

Lemma ins_omap (l : list Z) : (forall v, v ∈ l -> v <> out) -> omap (node_of st') l = omap (node_of st) l.
Proof.
  induction l as [|v l IH]; intros H; [done|]. cbn. rewrite ins_node_of by (apply H; left).
  rewrite IH; [done|]. intros u Hu. apply H. by right.
Qed.

Lemma ins_producers h n : n ∈ nodes (graph st h) -> producers st' n = producers st n.
Proof.
  intros Hn. unfold producers. rewrite ins_node, decide_False by by eapply node_old. apply ins_omap.
  intros v Hv. apply (known_old h), (w_in _ _ W h n v Hn Hv).
Qed.

Lemma ins_producers_new : producers st' n0 = omap (node_of st) ins.
Proof.
  unfold producers. rewrite ins_node, decide_True by done. apply ins_omap. intros v Hv. by apply (known_old g), Hins.
Qed.

End Heap.

(** ** All of it, for the clients *)

Record inserted (g : Z) (op : OpType.t) (nm : string) (a : Attrs T) (ins : list Z) (i : string) (like : Z) (dev : Device)
    (st st' : Heap T) : Prop := mkInserted {
  in_wf : wf [] st';
  in_alloc : allocated st';
  in_count : counted st';
  in_node n : n <> next_ptr st -> node st' n = node st n;
  in_new : node st' (next_ptr st) = mkNode op nm ins [next_ptr st + 1] a None None None;
  in_nodes h : nodes (graph st' h) = nodes (graph st h) ++ (if decide (h = g) then [next_ptr st] else []);
  in_elem h n : n ∈ nodes (graph st' h) <-> n ∈ nodes (graph st h) \/ h = g /\ n = next_ptr st;
  in_values : values (graph st' g) = <[i := next_ptr st + 1]> (values (graph st g));
  in_known h v : known st' h v <-> known st h v \/ h = g /\ v = next_ptr st + 1;
  in_old_value h v : known st h v -> v <> next_ptr st + 1;
  in_old_node h n : n ∈ nodes (graph st h) -> n <> next_ptr st;
  in_field {A} (f : Value -> A) v : v <> next_ptr st + 1 -> (forall us x, f (with_uses us x) = f x) -> f (value st' v) = f (value st v);
  in_value : value st' (next_ptr st + 1) = mkValue i (shape (value st like)) (dtype (value st like)) dev (Some (next_ptr st)) [] SIZE_MAX 0;
  in_uses h v : known st h v -> uses (value st' v) = uses (value st v) ++ reads_by ins st v;
  in_node_of v : v <> next_ptr st + 1 -> node_of st' v = node_of st v;
  in_node_of_new : node_of st' (next_ptr st + 1) = Some (next_ptr st);
  in_alive n : alive st' n = if decide (n = next_ptr st) then true else alive st n;
  in_same h : h <> g -> same_graph st st' h;
  in_in_ids : in_ids st' g = in_ids st g;
  in_out_ids : out_ids st' g = out_ids st g;
  in_leaves : same_leaves (graph st g) (graph st' g);
  in_program : program st' g = program st g ++ [mkEqn ((op, a, (None, None, None)), 1%nat) (value_ids st ins) [i]];
  in_producers h n : n ∈ nodes (graph st h) -> producers st' n = producers st n;
  in_producers_new : producers st' (next_ptr st) = omap (node_of st) ins;
  in_next : next_ptr st' = next_ptr st + 2
}.

Lemma insert_node_inserted g op nm ins a suffix like dev (st : Heap T) : nm <> ""%string -> wf [] st -> allocated st -> counted st ->
  is_Some (heap_graphs st !! g) ->
  (forall v, v ∈ ins -> known st g v /\ forall p, node_of st v = Some p -> p ∈ nodes (graph st g)) ->
  values (graph st g) !! (nm +:+ suffix) = None -> ~ leaf_id st g (nm +:+ suffix) -> exists st',
  insert_node g op nm ins a suffix like dev st = (st', next_ptr st + 1) /\ inserted g op nm a ins (nm +:+ suffix) like dev st st'.
Proof.
  intros Hnm W AL CT Hg Hins Hfresh Hleaf. destruct (insert_node_heap g op nm ins a suffix like dev st Hnm) as (Ho & Hp & _).
  exists (insert_node g op nm ins a suffix like dev st).1. split; [rewrite <-Ho; by destruct (insert_node _ _ _ _ _ _ _ _ _)|]. split.
  - by eapply ins_wf.
  - by eapply ins_allocated.
  - by eapply ins_counted.
  - intros n Hn. by rewrite ins_node, decide_False.
  - by rewrite ins_node, decide_True.
  - intros h. by eapply ins_sub.
  - intros h n. by eapply ins_nodes.
  - by rewrite ins_graph, decide_True.
  - intros h v. by eapply ins_known.
  - intros h v Hk. by eapply known_old.
  - intros h n. by eapply node_old.
  - intros A f v. by eapply ins_field.
  - by eapply ins_new_value.
  - intros h v. by eapply ins_known_uses.
  - intros v. by eapply ins_node_of.
  - by eapply ins_node_of_new.
  - intros n. by eapply ins_alive.
  - intros h Hh.
    destruct (ins_sub g op nm ins a suffix like dev st Hnm W AL Hg h) as (_ & _ & ? & ? & ? & _).
    split_and!; [|done|done|done]. rewrite ins_program, decide_False by done. apply app_nil_r.
  - by eapply ins_sub.
  - by eapply ins_sub.
  - by eapply ins_sub.
  - rewrite ins_program, decide_True by done. done.
  - intros h n. by eapply ins_producers.
  - by eapply ins_producers_new.
  - exact Hp.
Qed.

End Insert.
End Insert.

(** ** Redirecting one read

    [replace_input] at the only slot that reads a value: the invariant of
    JitInsert.v is kept, and the equations are the same but for that read. *)

Module Redirect.
Import Jit Flow Exec Meaning Wf Edit GraphSort Preserve Insert.

Section Redirect.
Context {T : Type}.

(** The invariant after rewiring needs only what is said of reads and uses. *)
Lemma rewired_wf (st st' : Heap T) : wf [] st -> rewired st st' ->
  (forall g n v, n ∈ nodes (graph st g) -> v ∈ inputs (node st' n) -> known st g v /\ n ∈ uses (value st' v) /\
     forall p, node_of st v = Some p -> p ∈ nodes (graph st g)) ->
  (forall g v n, known st g v -> n ∈ live_uses st' v -> n ∈ nodes (graph st g) /\ v ∈ inputs (node st' n)) -> wf [] st'.
Proof.
  intros W R Hin Huse. split; intros g; repeat setoid_rewrite (rw_graph R); repeat setoid_rewrite (rw_known R);
    repeat setoid_rewrite (rw_node_of R); repeat setoid_rewrite (rw_id R); repeat setoid_rewrite (rw_producer R);
    repeat setoid_rewrite (rw_leaf_id R); repeat setoid_rewrite (rw_alive R); repeat setoid_rewrite (rw_outputs R);
    repeat setoid_rewrite (rw_values _ _ R).
  - by eapply w_nodup.
  - by eapply w_alive.
  - intros h n. by eapply w_own.
  - by eapply w_pending.
  - by eapply w_val.
  - intros h i j v. by eapply w_vown.
  - intros n v Hn Hv. by destruct (Hin g n v Hn Hv) as (? & ? & _).
  - intros n v p Hn Hv. by apply (Hin g n v).
  - by eapply w_out.
  - by eapply w_out_nodup.
  - by eapply w_gin.
  - by eapply w_gout.
  - by eapply w_prod.
  - by eapply Huse.
Qed.

Lemma occ_insert x l k u w : l !! k = Some u ->
  occ x (<[k := w]> l) = occ x l - (if decide (u = x) then 1 else 0) + (if decide (w = x) then 1 else 0).
Proof.
  intros H. rewrite <-(take_drop_middle l k u H) at 2. rewrite insert_take_drop by by eapply lookup_lt_Some.
  rewrite !occ_app, !occ_cons. lia.
Qed.

Lemma occ_filter_other n m l (st : Heap T) : alive st n = true -> n <> m ->
  occ n (filter (fun x => alive st x = true /\ x <> m) l) = occ n l.
Proof.
  intros Ha Hne. induction l as [|x l IH]; [done|]. destruct (decide (x = n)) as [->|Hx].
  - rewrite filter_cons_True by done. by rewrite !occ_cons, IH.
  - rewrite (occ_cons n x l), decide_False by done. rewrite filter_cons. case_decide; [rewrite occ_cons, decide_False by done|]; lia.
Qed.

Lemma reads_insert (env : gmap string T) l k i j : env !! j = env !! i -> l !! k = Some i -> reads env (<[k := j]> l) = reads env l.
Proof.
  intros E. unfold reads. revert k. induction l as [|x l IH]; intros [|k] Hk; cbn in Hk; [done|done| |].
  - injection Hk as ->. cbn. by rewrite E.
  - cbn. destruct (env !! x); cbn; [|done]. by rewrite IH.
Qed.

Section Slot.
Context (st : Heap T) (g c : Z) (k : nat) (u w : Z).
Context (W : wf [] st) (AL : allocated st) (CT : counted st).
Context (Hc : c ∈ nodes (graph st g)) (Hk : inputs (node st c) !! k = Some u) (Hone : occ c (uses (value st u)) = 1).
Context (Hw : known st g w) (Hlive : forall p, node_of st w = Some p -> p ∈ nodes (graph st g)) (Hne : w <> u).

Let st' := replace_input_at c k u w st.

Lemma read_rewired : rewired st st'.
Proof. apply rewired_replace_input_at. Qed.

Lemma read_inputs n : inputs (node st' n) = if decide (n = c) then <[k := w]> (inputs (node st n)) else inputs (node st n).
Proof. apply inputs_replace_input_at. Qed.

Lemma read_uses v : uses (value st' v) =
  (if decide (v = u) then filter (fun m => alive st m = true /\ m <> c) (uses (value st v)) else uses (value st v))
  ++ (if decide (v = w) then [c] else []).
Proof. apply uses_replace_input_at. by eapply known_Some. Qed.

Lemma slot_read : u ∈ inputs (node st c).
Proof. by eapply list_elem_of_lookup_2. Qed.

Lemma slot_once : occ u (inputs (node st c)) = 1.
Proof.
  pose proof (CT g c u Hc). pose proof (proj1 (occ_pos u (inputs (node st c))) slot_read). lia.
Qed.

Lemma slot_gone v : v ∈ <[k := w]> (inputs (node st c)) -> v = w \/ v ∈ inputs (node st c) /\ v <> u.
Proof.
  intros Hv. apply (proj1 (occ_pos _ _)) in Hv. rewrite (occ_insert _ _ _ _ _ Hk) in Hv.
  destruct (decide (w = v)) as [->|Hwv]; [by left|right]. destruct (decide (u = v)) as [<-|Huv].
  - rewrite slot_once in Hv. lia.
  - split; [|done]. apply occ_pos. lia.
Qed.

Lemma slot_in h n v : n ∈ nodes (graph st h) -> v ∈ inputs (node st' n) -> known st h v /\ n ∈ uses (value st' v) /\
  forall p, node_of st v = Some p -> p ∈ nodes (graph st h).
Proof.
  intros Hn Hv. rewrite read_inputs in Hv. rewrite read_uses.
  assert (forall v, v ∈ inputs (node st n) -> known st h v /\ n ∈ uses (value st v) /\
    forall p, node_of st v = Some p -> p ∈ nodes (graph st h)) as Hold.
  { intros x Hx. destruct (w_in _ _ W h n x Hn Hx). split_and!; [done|done|]. intros p. by eapply w_in_live. }
  destruct (decide (n = c)) as [->|Hnc].
  - assert (h = g) as -> by by eapply w_own. destruct (slot_gone v Hv) as [->|[Hin Hvu]].
    + split_and!; [done|rewrite (decide_True (P := w = w)) by done; apply elem_of_app; right; left|done].
    + destruct (Hold v Hin) as (? & ? & ?). rewrite (decide_False (P := v = u)) by done. split_and!; [done|apply elem_of_app; by left|done].
  - destruct (Hold v Hv) as (? & ? & ?). split_and!; [done| |done]. apply elem_of_app. left. case_decide; [|done].
    apply list_elem_of_filter. split; [split; [by eapply w_alive|done]|done].
Qed.

Lemma slot_use h v n : known st h v -> n ∈ live_uses st' v -> n ∈ nodes (graph st h) /\ v ∈ inputs (node st' n).
Proof.
  intros Hkv [Ha Hu]%elem_of_live_uses. rewrite (rw_alive read_rewired) in Ha. rewrite read_uses in Hu. rewrite read_inputs.
  assert (n ∈ uses (value st v) -> n ∈ nodes (graph st h) /\ v ∈ inputs (node st n)) as Hold.
  { intros Hin. apply (w_use _ _ W h v n Hkv). by apply elem_of_live_uses. }
  apply elem_of_app in Hu as [Hu|Hu].
  - destruct (decide (v = u)) as [->|Hvu].
    + apply list_elem_of_filter in Hu as [[_ Hnc] Hu]. rewrite decide_False by done. by apply Hold.
    + destruct (Hold Hu) as [Hn Hv]. split; [done|]. case_decide as E; [subst n|done]. apply occ_pos.
      rewrite (occ_insert _ _ _ _ _ Hk), decide_False by congruence. apply occ_pos in Hv. case_decide; lia.
  - case_decide; [|by apply not_elem_of_nil in Hu]. apply list_elem_of_singleton in Hu as ->. subst v.
    rewrite decide_True by done. assert (h = g) as -> by by eapply known_own. split; [done|].
    apply occ_pos. rewrite (occ_insert _ _ _ _ _ Hk), decide_False, decide_True by congruence.
    pose proof (occ_nonneg w (inputs (node st c))). lia.
Qed.

Lemma read_wf : wf [] st'.
Proof. apply (rewired_wf st st' W read_rewired); [apply slot_in|apply slot_use]. Qed.

Lemma slot_allocated : allocated st'.
Proof.
  pose proof read_rewired as R. split; rewrite (rw_next _ _ R).
  - intros n. rewrite (rw_nodes _ _ R). apply AL.
  - intros v. rewrite (rw_values _ _ R). apply AL.
  - intros h. rewrite (rw_graphs _ _ R). apply AL.
  - intros v n. rewrite read_uses. intros [Hu|Hu]%elem_of_app.
    + case_decide; [apply list_elem_of_filter in Hu as [_ Hu]|]; by eapply al_uses.
    + case_decide; [|by apply not_elem_of_nil in Hu]. apply list_elem_of_singleton in Hu as ->.
      apply AL, alive_Some. by eapply w_alive.
  - intros v n. rewrite (rw_producer R). apply AL.
Qed.

Lemma slot_counted : counted st'.
Proof.
  intros h n v. rewrite (rw_graph read_rewired). intros Hn. rewrite read_inputs, read_uses, occ_app.
  pose proof (CT h n v Hn) as Hold. pose proof (w_alive _ _ W h n Hn) as Ha. destruct (decide (n = c)) as [->|Hnc].
  - rewrite (occ_insert _ _ _ _ _ Hk). destruct (decide (v = u)) as [->|Hvu].
    + rewrite slot_once, decide_True, !(decide_False (P := w = u)) by done. pose proof (occ_nonneg c (filter (fun m => alive st m = true /\ m <> c) (uses (value st u)))).
      pose proof (occ_nonneg c (if decide (u = w) then [c] else [])). lia.
    + rewrite decide_False by congruence. destruct (decide (v = w)) as [->|Hvw].
      * rewrite decide_True by done. rewrite occ_cons, decide_True, occ_nil by done. lia.
      * rewrite decide_False by congruence. rewrite occ_nil. lia.
  - pose proof (occ_nonneg n (if decide (v = w) then [c] else [])). destruct (decide (v = u)); [rewrite occ_filter_other by done|]; lia.
Qed.

(** ** The equations *)

Definition slot_eqn (n : Z) : Eqn (NodeOp * nat) :=
  if decide (n = c) then mkEqn (e_op (node_eqn st n)) (<[k := id (value st w)]> (e_ins (node_eqn st n))) (e_outs (node_eqn st n))
  else node_eqn st n.

Lemma slot_program h : program st' h = map slot_eqn (nodes (graph st h)).
Proof.
  pose proof read_rewired as R. unfold program. rewrite (rw_graph R). apply map_ext. intros n. unfold slot_eqn, node_eqn.
  rewrite (rw_node_op R), (rw_outputs R), read_inputs. rewrite !(rw_value_ids R : forall vs, map (fun v => id (value st' v)) vs = _).
  case_decide; [|done]. cbn. f_equal. apply (list_fmap_insert (fun v => id (value st v))).
Qed.

Lemma slot_same h : h <> g -> same_graph st st' h.
Proof.
  intros Hh. pose proof read_rewired as R. split_and!; [| | |rewrite (rw_graph R); by repeat split].
  - rewrite slot_program. apply map_ext_in. intros n Hn%list_elem_of_In. unfold slot_eqn. rewrite decide_False; [done|].
    intros ->. by apply Hh, (w_own _ _ W h g c).
  - unfold in_ids. by rewrite (rw_graph R), (rw_value_ids R).
  - unfold out_ids. by rewrite (rw_graph R), (rw_value_ids R).
Qed.

(** Where both values are equal, solutions stay solutions. *)
Lemma slot_valuation (F : NodeOp * nat -> list T -> result (list T)) env0 env :
  env !! id (value st w) = env !! id (value st u) ->
  valuation F env0 (program st g) env -> valuation F env0 (program st' g) env.
Proof.
  intros E [Hh Hr]. rewrite slot_program. assert (produced (map slot_eqn (nodes (graph st g))) = produced (program st g)) as Ep.
  { unfold produced, program. rewrite !map_map. f_equal. apply map_ext. intros n. unfold slot_eqn. by case_decide. }
  split; [|by rewrite Ep]. intros e He. apply list_elem_of_fmap in He as (n & -> & Hn).
  destruct (Hh (node_eqn st n)) as (xs & ys & Hx & HF & Hy); [by apply list_elem_of_fmap_2|].
  exists xs, ys. unfold slot_eqn. case_decide as En; [subst n|done]. split_and!; [|done|done]. rewrite <-Hx. cbn.
  assert (map (fun v => id (value st v)) (inputs (node st c)) !! k = Some (id (value st u))) as Hku.
  { apply list_lookup_fmap_Some. by exists u. }
  by apply (reads_insert env _ k (id (value st u))).
Qed.

Lemma slot_producers n p : p ∈ producers st' n -> p ∈ producers st n \/ n = c /\ node_of st w = Some p.
Proof.
  pose proof read_rewired as R. unfold producers. intros (v & Hv & Hp)%list_elem_of_omap. rewrite (rw_node_of R) in Hp.
  rewrite read_inputs in Hv. case_decide as En; [subst n|left; apply list_elem_of_omap; by exists v].
  destruct (slot_gone v Hv) as [->|[Hin _]]; [by right|left]. apply list_elem_of_omap. by exists v.
Qed.

End Slot.
End Redirect.
End Redirect.
