(* ===== verification/JitRematStep.v ===== *)
(** * Splicing nodes into a graph

    [edits g st st']: every solution of the equations of [g] in [st] gives one in
    [st'] with the same outputs, and no other graph changes.  Inserting a node and
    redirecting a read to it are such edits where the new value equals the old
    one; sorting is one; and a sorted graph reached by edits computes what the
    first one did. *)

From stdpp Require Import base list numbers strings gmap.
From S2P Require Import Prelude DType JitOps JitGraph JitFlow JitExec JitMeaning JitWf JitEdit JitSort JitPreserve JitPasses JitDce JitOptimize JitMemory JitRemat JitInsert.

Module Splice.
Import Jit Flow Exec Meaning Wf Edit GraphSort Preserve Passes Contract Optimize Memory Remat Insert Redirect.

Section Splice.
Context {T : Type} `{!Kernels T}.

Record editable (g : Z) (st : Heap T) : Prop := mkEditable {
  ed_wf : wf [] st;
  ed_alloc : allocated st;
  ed_count : counted st;
  ed_rank : exists rank, graded st (nodes (graph st g)) rank
}.

Record edits (g : Z) (st st' : Heap T) : Prop := mkEdits {
  et_others h : h <> g -> same_graph st st' h;
  et_in : in_ids st' g = in_ids st g;
  et_leaves : same_leaves (graph st g) (graph st' g);
  et_sol fwd target env0 env ts : (forall i, is_Some (env0 !! i) -> leaf_id st g i) ->
    valuation (node_fun fwd g target) env0 (program st g) env -> reads env (out_ids st g) = Some ts ->
    exists env', valuation (node_fun fwd g target) env0 (program st' g) env' /\ reads env' (out_ids st' g) = Some ts
}.

Lemma edits_refl g st : edits g st st.
Proof. split; [intros; apply same_graph_refl|done|by repeat split|]. intros fwd target env0 env ts _ Hv Hr. by exists env. Qed.

Lemma edits_trans g st1 st2 st3 : edits g st1 st2 -> edits g st2 st3 -> edits g st1 st3.
Proof.
  intros [O1 I1 L1 S1] [O2 I2 L2 S2]. split.
  - intros h Hh. eapply same_graph_trans; [by apply O1|by apply O2].
  - congruence.
  - destruct L1 as (?&?&?&?&?), L2 as (?&?&?&?&?). repeat split; congruence.
  - intros fwd target env0 env ts H0 Hv Hr. destruct (S1 fwd target env0 env ts H0 Hv Hr) as (env1 & Hv1 & Hr1).
    apply (S2 fwd target env0 env1 ts); [|done|done]. intros i Hi. apply (leaf_id_same st1 st2 g i I1 L1). by apply H0.
Qed.

Lemma leaves_single (st : Heap T) g (env0 : gmap string T) : wf [] st -> (forall i, is_Some (env0 !! i) -> leaf_id st g i) -> single env0 (program st g).
Proof.
  intros W H0. destruct (wf_single W g) as [Hnd Hl]. split; [done|]. intros i Hi. apply eq_None_not_Some.
  intros Hs. by apply (Hl i Hi), H0.
Qed.

Lemma sort_edits g (st st' : Heap T) : wf [] st -> topological_sort g st = Ok st' -> edits g st st'.
Proof.
  intros W E. destruct (sort_shrinks W g st' E) as (W' & S & Hs & Ht). split; [done|apply S|apply S|].
  intros fwd target env0 env ts H0 Hv Hr. destruct (Ht fwd target env0 env) as (env' & Hv' & _ & Hr'); [by apply leaves_single|done|done|].
  exists env'. split; [done|by apply Hr'].
Qed.

(** The results of an edited graph that is in order. *)
Lemma edits_forward g (st st' : Heap T) : wf [] st -> wf [] st' -> edits g st st' -> ordered (program st' g) ->
  forall d h xs ts, forward d st h xs ∅ = (∅, Ok ts) -> forward d st' h xs ∅ = (∅, Ok ts).
Proof.
  intros W W' [HO HI HL HS] Hord d. induction d as [|d IH]; intros h xs ts; [done|]. rewrite !forward_runs. intros [env Hr].
  destruct (decide (h = g)) as [->|Hh].
  - destruct (runs_valuation _ _ _ _ _ _ (wf_single W g) Hr) as (env0 & Hi & Hs & Ho & Hv & Hout).
    destruct (HS (forward d st') (target_device (graph st g) xs) env0 env ts) as (env' & Hv' & Hr').
    + intros i. by eapply initial_env.
    + eapply valuation_below; [apply forward_grows| |exact Hv]. intros e He k ys us _. apply IH.
    + done.
    + exists env', env0. rewrite (target_device_same _ _ xs HL). split_and!; [by rewrite (initial_same _ _ _ _ _ HI HL)| |done].
      apply valuation_run; [|done|done]. eapply single_assignment_single; [apply (wf_single W')|].
      by rewrite (initial_same _ _ _ _ _ HI HL).
  - destruct (same_graph_improves st st' h (HO h Hh) d xs env ts) as (env' & Hr' & _); [|done|by exists env'].
    intros k ys us _. apply IH.
Qed.

(** ** Solutions with a new node *)

Lemma value_id_known (st : Heap T) g i v : wf [] st -> known st g v -> values (graph st g) !! i = None -> id (value st v) <> i.
Proof. intros W Hk Hi E. unfold known in Hk. by rewrite E, Hi in Hk. Qed.

Lemma reads_fresh (env : gmap string T) i (t : list T) ids : (forall j, j ∈ ids -> j <> i) -> reads (assign [i] t env) ids = reads env ids.
Proof.
  intros H. apply reads_agree. intros j Hj. apply assign_other. intros ->%list_elem_of_singleton. by apply (H i).
Qed.

Lemma insert_valuation (st : Heap T) g (F : NodeOp * nat -> list T -> result (list T)) env0 env i k ins xs ys : wf [] st ->
  values (graph st g) !! i = None -> env0 !! i = None -> (forall j, j ∈ ins -> j <> i) ->
  valuation F env0 (program st g) env -> reads env ins = Some xs -> F k xs = Ok ys ->
  valuation F env0 (program st g ++ [mkEqn k ins [i]]) (assign [i] ys env).
Proof.
  intros W Hi H0 Hins [Hh Hr] Hx HF.
  assert (forall n v, n ∈ nodes (graph st g) -> v ∈ inputs (node st n) \/ v ∈ outputs (node st n) -> id (value st v) <> i) as Hid.
  { intros n v Hn [Hv|Hv]; (eapply value_id_known; [done| |done]); [by apply (w_in _ _ W g n v)|by apply (w_out _ _ W g n v)]. }
  assert (env !! i = None) as Hn.
  { rewrite Hr; [done|]. intros (n & v & Hn & Hv & ->)%elem_of_produced_ids. by apply (Hid n v Hn (or_intror Hv)). }
  split.
  - intros e [He|He]%elem_of_app.
    + pose proof He as He'. apply list_elem_of_fmap in He' as (n & -> & Hnn). destruct (Hh _ He) as (xs' & ys' & Hx' & HF' & Hy').
      exists xs', ys'. split_and!; [rewrite reads_fresh; [done|]|done|].
      * intros j (v & -> & Hv)%list_elem_of_fmap. by apply (Hid n v Hnn); left.
      * intros m o Ho. rewrite assign_other; [by apply Hy'|]. intros ->%list_elem_of_singleton.
        apply list_lookup_fmap_Some in Ho as (v & E & Hv). apply (Hid n v Hnn); [right; by eapply list_elem_of_lookup_2|done].
    + apply list_elem_of_singleton in He as ->. exists xs, ys. split_and!; [by rewrite reads_fresh|done|].
      intros m o Ho. cbn in Ho. apply list_lookup_singleton_Some in Ho as [-> <-]. apply (assign_at _ _ _ 0 i); [apply NoDup_singleton|done|done].
  - intros j Hj. rewrite produced_app in Hj. apply not_elem_of_app in Hj as [Hj1 Hj2]. cbn in Hj2.
    rewrite assign_other by done. by apply Hr.
Qed.

Lemma assign_single i (t : T) env : assign [i] [t] env = <[i := t]> env.
Proof. done. Qed.

End Splice.
End Splice.

(** ** One rematerialized value

    [rematerialize] of JitRemat.v: the recomputed value equals the old one where
    the kernel of the producer ignores the mark, so its consumer may read it. *)

Module RematStep.
Import Jit Flow Exec Meaning Wf Edit GraphSort Preserve Passes Contract Memory Remat Insert Redirect Splice.

(** Attributes but for the mark. *)
Definition unmarked {T} (a : Attrs T) : Attrs T :=
  mkAttrs (float_attrs a) (int_attrs a) (vec_attrs a) (delete "rematerialized" (bool_attrs a)) (tensor_attrs a).

(** The kernels of the operations that are recomputed do not look at the mark. *)
Class RematLaws (T : Type) `{!Kernels T} := {
  law_remat_eval dev op (a b : Attrs T) xs : is_cheap_to_recompute op = true -> unmarked a = unmarked b ->
    eval_op dev op a xs = eval_op dev op b xs;
  law_remat_fused op (a b : Attrs T) xs : is_cheap_to_recompute op = true -> unmarked a = unmarked b ->
    execute_fused_gpu_node op a xs = execute_fused_gpu_node op b xs
}.

Section Law.
Context {T : Type} `{!Kernels T, !RematLaws T}.

Lemma unmarked_mark (a : Attrs T) : unmarked (mark_rematerialized a) = unmarked a.
Proof. unfold unmarked, mark_rematerialized. cbn. by rewrite delete_insert_eq. Qed.

Lemma has_attr_mark (a : Attrs T) : has_attr (mark_rematerialized a) "fusion_kind" = has_attr a "fusion_kind".
Proof. unfold has_attr, mark_rematerialized. cbn. by rewrite lookup_insert_ne. Qed.

Lemma node_fun_cheap (fwd : Forward) g target op (a : Attrs T) gs k xs : is_cheap_to_recompute op = true ->
  node_fun fwd g target ((op, a, gs), k) xs =
  if has_attr a "fusion_kind" then rmap (replicate k) (execute_fused_gpu_node op a xs) else eval_op target op a xs.
Proof.
  intros Hop. unfold node_fun, node_outputs. destruct gs as [[th el] bd]. cbn [fst snd].
  destruct (has_attr a "fusion_kind"); [by rewrite decide_True|]. destruct op; try done; by rewrite decide_True.
Qed.

Lemma node_fun_mark (fwd : Forward) g target op (a : Attrs T) gs gs' k xs : is_cheap_to_recompute op = true ->
  node_fun fwd g target ((op, mark_rematerialized a, gs), k) xs = node_fun fwd g target ((op, a, gs'), k) xs.
Proof.
  intros Hop. rewrite !node_fun_cheap by done. by rewrite has_attr_mark, (law_remat_eval _ _ _ _ _ Hop (unmarked_mark a)), (law_remat_fused _ _ _ _ Hop (unmarked_mark a)).
Qed.

End Law.

(** ** A read redirected to a new node *)

Section Step.
Context {T : Type} `{!Kernels T}.

Lemma subgraphs_same (N M : Node T) : with_inputs [] N = with_inputs [] M -> subgraphs N = subgraphs M.
Proof. intros E. exact (f_equal subgraphs E). Qed.

(** What a step of the planners leaves of the graph. *)
Record grown (g n0 : Z) (i : string) (st st' : Heap T) : Prop := mkGrown {
  gr_nodes : nodes (graph st' g) = nodes (graph st g) ++ [n0];
  gr_new : subgraphs (node st' n0) = [];
  gr_node n : n <> n0 -> with_inputs [] (node st' n) = with_inputs [] (node st n);
  gr_values : exists out, values (graph st' g) = <[i := out]> (values (graph st g));
  gr_value v : known st g v -> id (value st' v) = id (value st v) /\ node_of st' v = node_of st v
}.

Section Redirected.
Context (g : Z) (st st1 : Heap T) (op : OpType.t) (nm : string) (a : Attrs T) (ins : list Z) (i : string) (like : Z) (dev : Device).
Context (c v : Z) (k : nat) (E : editable g st) (I : inserted g op nm a ins i like dev st st1) (Hi : values (graph st g) !! i = None).
Context (Hleaf : ~ leaf_id st g i) (Hins : forall u, u ∈ ins -> known st g u).
Context (Hv : known st g v) (Hc : c ∈ nodes (graph st g)) (Hk : inputs (node st c) !! k = Some v) (Huse : occ c (uses (value st v)) = 1).

Let n0 := next_ptr st.
Let out := next_ptr st + 1.
Let st2 := replace_input_at c k v out st1.

Lemma redirected_slot : c ∈ nodes (graph st1 g) /\ inputs (node st1 c) !! k = Some v /\ occ c (uses (value st1 v)) = 1 /\
  known st1 g out /\ (forall q, node_of st1 out = Some q -> q ∈ nodes (graph st1 g)) /\ out <> v.
Proof.
  pose proof (in_old_node _ _ _ _ _ _ _ _ _ _ I g c Hc) as Hcn. split_and!.
  - apply (in_elem _ _ _ _ _ _ _ _ _ _ I). by left.
  - by rewrite (in_node _ _ _ _ _ _ _ _ _ _ I).
  - rewrite (in_uses _ _ _ _ _ _ _ _ _ _ I g v Hv), occ_app, Huse. pose proof (occ_nonneg c (reads_by ins st v)).
    destruct (decide (0 < occ c (reads_by ins st v))) as [Hpos|]; [|lia]. apply occ_pos, elem_of_reads_by in Hpos. by destruct Hpos.
  - apply (in_known _ _ _ _ _ _ _ _ _ _ I). by right.
  - intros q. unfold out. rewrite (in_node_of_new _ _ _ _ _ _ _ _ _ _ I). intros [= <-]. apply (in_elem _ _ _ _ _ _ _ _ _ _ I). by right.
  - apply not_eq_sym. by apply (in_old_value _ _ _ _ _ _ _ _ _ _ I g).
Qed.

Lemma redirected_heap : replace_input c k out st1 = Ok st2 /\ wf [] st2 /\ allocated st2 /\ counted st2.
Proof.
  destruct redirected_slot as (H1 & H2 & H3 & H4 & H5 & H6). pose proof (in_wf _ _ _ _ _ _ _ _ _ _ I) as W1.
  pose proof (in_alloc _ _ _ _ _ _ _ _ _ _ I) as A1. pose proof (in_count _ _ _ _ _ _ _ _ _ _ I) as C1. split_and!.
  - unfold replace_input. by rewrite H2.
  - exact (read_wf st1 g c k v out W1 C1 H1 H2 H3 H4 H5 H6).
  - exact (slot_allocated st1 g c k v out W1 A1 H1 H4).
  - exact (slot_counted st1 g c k v out W1 C1 H1 H2 H3 H4 H6).
Qed.

Lemma redirected_rewired : rewired st1 st2.
Proof. apply read_rewired. Qed.

Lemma redirected_grown : grown g n0 i st st2.
Proof.
  pose proof redirected_rewired as R. split.
  - rewrite (rw_graph R), (in_nodes _ _ _ _ _ _ _ _ _ _ I), decide_True by done. done.
  - pose proof (rw_node _ _ R n0) as Hn. pose proof (in_new _ _ _ _ _ _ _ _ _ _ I) as Hnew. fold n0 in Hnew. rewrite Hnew in Hn.
    by rewrite (subgraphs_same _ _ Hn).
  - intros n Hn. rewrite (rw_node _ _ R). by rewrite (in_node _ _ _ _ _ _ _ _ _ _ I).
  - rewrite (rw_graph R). eexists. by apply (in_values _ _ _ _ _ _ _ _ _ _ I).
  - intros u Hu. pose proof (in_old_value _ _ _ _ _ _ _ _ _ _ I g u Hu) as Hne. rewrite (rw_id R), (rw_node_of R). split.
    + by apply (in_field _ _ _ _ _ _ _ _ _ _ I id).
    + by apply (in_node_of _ _ _ _ _ _ _ _ _ _ I).
Qed.

(** The new value must equal the old one in every solution. *)
Lemma redirected_edits :
  (forall fwd target env0 env, single env0 (program st g) -> valuation (node_fun fwd g target) env0 (program st g) env ->
     is_Some (env !! id (value st v)) -> exists xs ys, reads env (value_ids st ins) = Some xs /\
     node_fun fwd g target ((op, a, (None, None, None)), 1%nat) xs = Ok ys /\ env !! id (value st v) = ys !! 0%nat) ->
  edits g st st2.
Proof.
  intros Heq. pose proof redirected_rewired as R. destruct redirected_slot as (H1 & H2 & H3 & H4 & H5 & H6).
  pose proof (ed_wf _ _ E) as W. pose proof (in_wf _ _ _ _ _ _ _ _ _ _ I) as W1. split.
  - intros h Hh. eapply same_graph_trans; [by apply (in_same _ _ _ _ _ _ _ _ _ _ I)|]. by eapply slot_same.
  - rewrite <-(in_in_ids _ _ _ _ _ _ _ _ _ _ I). unfold in_ids. by rewrite (rw_graph R), (rw_value_ids R).
  - rewrite (rw_graph R). apply (in_leaves _ _ _ _ _ _ _ _ _ _ I).
  - intros fwd target env0 env ts H0 Hval Hout.
    assert (is_Some (env !! id (value st v))) as Hs.
    { destruct (proj1 Hval (node_eqn st c)) as (xs & _ & Hx & _); [by apply list_elem_of_fmap_2|].
      eapply reads_Some; [exact Hx|]. apply (list_elem_of_fmap_2 (fun v => id (value st v))). by eapply list_elem_of_lookup_2. }
    destruct (Heq fwd target env0 env (leaves_single st g env0 W H0) Hval Hs) as (xs & ys & Hx & HF & Hy).
    assert (exists y, ys !! 0%nat = Some y) as [y Hy0] by (rewrite <-Hy; by destruct Hs as [y ->]; exists y).
    exists (assign [i] ys env).
    assert (forall j, j <> i -> assign [i] ys env !! j = env !! j) as Hoth
      by (intros j Hj; apply assign_other; by intros ->%list_elem_of_singleton).
    assert (forall u, known st g u -> id (value st u) <> i) as Hid by (intros u Hu; by eapply value_id_known).
    split.
    + apply (slot_valuation st1 g c k v out).
      * exact H2.
      * unfold out. rewrite (in_value _ _ _ _ _ _ _ _ _ _ I). cbn [id].
        assert (assign [i] ys env !! i = Some y) as -> by (destruct ys; [done|injection Hy0 as ->; apply lookup_insert_eq]).
        rewrite (in_field _ _ _ _ _ _ _ _ _ _ I id) by (done || by apply (in_old_value _ _ _ _ _ _ _ _ _ _ I g)).
        by rewrite Hoth, Hy, Hy0 by by apply Hid.
      * rewrite (in_program _ _ _ _ _ _ _ _ _ _ I). eapply insert_valuation; try done.
        -- apply eq_None_not_Some. intros Hs0. by apply Hleaf, H0.
        -- intros j (u & -> & Hu)%list_elem_of_fmap. by apply Hid, Hins.
    + assert (out_ids st2 g = out_ids st g) as ->.
      { rewrite <-(in_out_ids _ _ _ _ _ _ _ _ _ _ I). unfold out_ids. by rewrite (rw_graph R), (rw_value_ids R). }
      rewrite <-Hout. apply reads_agree. intros j (u & -> & Hu)%list_elem_of_fmap. apply Hoth, Hid, (w_gout _ _ W g u Hu).
Qed.

(** The producers of the nodes afterwards. *)
Lemma redirected_producers n q : n ∈ nodes (graph st2 g) -> q ∈ producers st2 n ->
  (n ∈ nodes (graph st g) /\ q ∈ producers st n) \/ (n = c /\ q = n0) \/ (n = n0 /\ q ∈ omap (node_of st) ins).
Proof.
  destruct redirected_slot as (H1 & H2 & H3 & H4 & H5 & H6). rewrite (gr_nodes _ _ _ _ _ redirected_grown).
  intros Hn Hq. apply (slot_producers st1 g c k v out (in_count _ _ _ _ _ _ _ _ _ _ I) H1 H2 H3 H4 H5 H6) in Hq.
  destruct Hq as [Hq|[-> Hq]].
  - apply elem_of_app in Hn as [Hn|Hn]; [left|right; right].
    + by rewrite (in_producers _ _ _ _ _ _ _ _ _ _ I g n Hn) in Hq.
    + apply list_elem_of_singleton in Hn as ->. unfold n0 in Hq. by rewrite (in_producers_new _ _ _ _ _ _ _ _ _ _ I) in Hq.
  - right; left. split; [done|]. unfold out in Hq. rewrite (in_node_of_new _ _ _ _ _ _ _ _ _ _ I) in Hq. by injection Hq.
Qed.

(** The new node comes after what it reads and before the node that reads it. *)
Lemma redirected_rank rank r : graded st (nodes (graph st g)) rank ->
  (forall q, q ∈ omap (node_of st) ins -> (rank q <= r)%nat) -> (r < rank c)%nat ->
  exists rank', graded st2 (nodes (graph st2 g)) rank'.
Proof.
  intros Hr Hq Hrc. pose proof (ed_wf _ _ E) as W.
  exists (fun m => if decide (m = n0) then S (2 * r) else (2 * rank m)%nat).
  assert (forall m, m ∈ nodes (graph st g) -> m <> n0) as Hold by (intros m; by apply (in_old_node _ _ _ _ _ _ _ _ _ _ I)).
  intros n q Hn Hp. destruct (redirected_producers n q Hn Hp) as [[Hn' Hq']|[[-> ->]|[-> Hq']]].
  - rewrite (decide_False (P := n = n0)) by by apply Hold.
    rewrite decide_False by (apply Hold; by eapply (producers_in W)). specialize (Hr n q Hn' Hq'). lia.
  - rewrite decide_True, decide_False by (done || by apply Hold). lia.
  - rewrite (decide_True (P := n0 = n0)) by done. specialize (Hq q Hq'). case_decide; [|lia].
    exfalso. subst q. apply list_elem_of_omap in Hq' as (u & Hu & Hp').
    unfold node_of in Hp'. destruct (producer (value st u)) as [q|] eqn:Ep; [|done]. destruct (alive st q); [|done].
    injection Hp' as ->. pose proof (al_producer _ (ed_alloc _ _ E) u _ Ep). unfold n0 in *. lia.
Qed.

End Redirected.
(** A node that nothing reads yet. *)
Lemma inserted_edits g (st st1 : Heap T) op nm a ins i like dev : editable g st -> inserted g op nm a ins i like dev st st1 ->
  values (graph st g) !! i = None -> ~ leaf_id st g i -> (forall u, u ∈ ins -> known st g u) ->
  (forall fwd target env0 env, valuation (node_fun fwd g target) env0 (program st g) env -> exists xs ys,
     reads env (value_ids st ins) = Some xs /\ node_fun fwd g target ((op, a, (None, None, None)), 1%nat) xs = Ok ys) ->
  edits g st st1.
Proof.
  intros E I Hi Hleaf Hins HF. pose proof (ed_wf _ _ E) as W. split; [by apply I|by apply (in_in_ids _ _ _ _ _ _ _ _ _ _ I)|by apply (in_leaves _ _ _ _ _ _ _ _ _ _ I)|].
  intros fwd target env0 env ts H0 Hval Hout. destruct (HF fwd target env0 env Hval) as (xs & ys & Hx & Hy).
  exists (assign [i] ys env). split.
  - rewrite (in_program _ _ _ _ _ _ _ _ _ _ I). eapply insert_valuation; try done.
    + apply eq_None_not_Some. intros Hs0. by apply Hleaf, H0.
    + intros j (u & -> & Hu)%list_elem_of_fmap. by eapply value_id_known; [done|by apply Hins|].
  - rewrite (in_out_ids _ _ _ _ _ _ _ _ _ _ I), <-Hout. apply reads_fresh.
    intros j (u & -> & Hu)%list_elem_of_fmap. eapply value_id_known; [done|by apply (w_gout _ _ W g u Hu)|done].
Qed.

Lemma inserted_grown g (st st1 : Heap T) op nm a ins i like dev : inserted g op nm a ins i like dev st st1 ->
  grown g (next_ptr st) i st st1.
Proof.
  intros I. split.
  - by rewrite (in_nodes _ _ _ _ _ _ _ _ _ _ I), decide_True.
  - by rewrite (in_new _ _ _ _ _ _ _ _ _ _ I).
  - intros n Hn. by rewrite (in_node _ _ _ _ _ _ _ _ _ _ I).
  - eexists. by apply (in_values _ _ _ _ _ _ _ _ _ _ I).
  - intros v Hv. pose proof (in_old_value _ _ _ _ _ _ _ _ _ _ I g v Hv) as Hne. split.
    + by apply (in_field _ _ _ _ _ _ _ _ _ _ I id).
    + by apply (in_node_of _ _ _ _ _ _ _ _ _ _ I).
Qed.

End Step.

(** ** Rematerializing one value *)

Section Remat.
Context {T : Type} `{!Kernels T, !RematLaws T}.

Definition remat_id (P : Node T) : string := (name P +:+ "_remat") +:+ "_out".

Lemma slot_of_known g (st : Heap T) n v : wf [] st -> n ∈ nodes (graph st g) -> v ∈ inputs (node st n) ->
  exists k, slot_of st n (id (value st v)) = Some k /\ inputs (node st n) !! k = Some v.
Proof.
  intros W Hn Hv. destruct (list_find_elem_of (fun u => id (value st u) = id (value st v)) _ v Hv eq_refl) as [[k u] E].
  exists k. unfold slot_of. rewrite E. split; [done|]. apply list_find_Some in E as (Hk & Hid & _). rewrite Hk. f_equal.
  apply (known_inj (st := st) g u v); [apply (w_in _ _ W g n u Hn); by eapply list_elem_of_lookup_2|by apply (w_in _ _ W g n v Hn)|done].
Qed.

(** The equation of the producer of a value that has one output. *)
Lemma single_output_equation g (st : Heap T) (F : NodeOp * nat -> list T -> result (list T)) (env0 env : gmap string T) p v : p ∈ nodes (graph st g) -> outputs (node st p) = [v] ->
  valuation F env0 (program st g) env -> exists xs ys,
  reads env (value_ids st (inputs (node st p))) = Some xs /\ F (node_op (node st p), 1%nat) xs = Ok ys /\ env !! id (value st v) = ys !! 0%nat.
Proof.
  intros Hp Hone [Hh _]. destruct (Hh (node_eqn st p)) as (xs & ys & Hx & HF & Hy); [by apply list_elem_of_fmap_2|].
  unfold node_eqn in *. rewrite Hone in *. exists xs, ys. split_and!; [done|done|]. by apply (Hy 0%nat).
Qed.

Lemma remat_step g (st : Heap T) v p c : editable g st -> known st g v -> node_of st v = Some p ->
  is_cheap_to_recompute (op_type (node st p)) = true -> outputs (node st p) = [v] ->
  c ∈ nodes (graph st g) -> v ∈ inputs (node st c) -> occ c (uses (value st v)) = 1 ->
  values (graph st g) !! remat_id (node st p) = None -> ~ leaf_id st g (remat_id (node st p)) -> exists st1 out st2,
  insert_node g (op_type (node st p)) (name (node st p) +:+ "_remat") (inputs (node st p))
    (mark_rematerialized (attrs (node st p))) "_out" v (device (value st v)) st = (st1, out) /\
  redirect_first c (id (value st v)) out st1 = Ok st2 /\ editable g st2 /\ edits g st st2 /\
  grown g (next_ptr st) (remat_id (node st p)) st st2.
Proof.
  intros E Hv Hp Hcheap Hone Hc Hvc Huse Hfresh Hleaf. pose proof (ed_wf _ _ E) as W. set (P := node st p) in *.
  assert (p ∈ nodes (graph st g)) as Hpn by (destruct (w_prod _ _ W g v p Hv Hp) as [_ [?|Hn]]; [done|by apply not_elem_of_nil in Hn]).
  assert (forall u, u ∈ inputs P -> known st g u /\ forall q, node_of st u = Some q -> q ∈ nodes (graph st g)) as Hins.
  { intros u Hu. split; [by apply (w_in _ _ W g p u Hpn)|]. intros q. by apply (w_in_live _ _ W g p u q Hpn). }
  destruct (insert_node_inserted g (op_type P) (name P +:+ "_remat") (inputs P) (mark_rematerialized (attrs P)) "_out" v
    (device (value st v)) st) as (st1 & E1 & I); [by destruct (name P)|done|apply E|apply E|by eapply known_graph|done|done|done|].
  fold (remat_id P) in I. pose proof (in_node _ _ _ _ _ _ _ _ _ _ I c (in_old_node _ _ _ _ _ _ _ _ _ _ I g c Hc)) as Ec.
  assert (id (value st1 v) = id (value st v)) as Eid
    by (apply (in_field _ _ _ _ _ _ _ _ _ _ I id); [by apply (in_old_value _ _ _ _ _ _ _ _ _ _ I g)|done]).
  destruct (slot_of_known g st1 c v) as (k & Hs & Hk); [apply I|apply (in_elem _ _ _ _ _ _ _ _ _ _ I); by left|by rewrite Ec|].
  rewrite Eid in Hs. rewrite Ec in Hk. assert (forall u, u ∈ inputs P -> known st g u) as Hknown by (intros u; apply Hins).
  destruct (redirected_heap g st st1 _ _ _ _ _ _ _ c v k I Hv Hc Hk Huse) as (Hrep & W2 & A2 & C2).
  exists st1, (next_ptr st + 1), (replace_input_at c k v (next_ptr st + 1) st1).
  split_and!; [done|unfold redirect_first; by rewrite Hs|split; [done|done|done|]| |by eapply redirected_grown].
  - destruct (ed_rank _ _ E) as [rank Hr]. eapply (redirected_rank g st st1 _ _ _ _ _ _ _ c v k E I Hv Hc Hk Huse rank (rank p) Hr).
    + intros q Hq. pose proof (Hr p q Hpn Hq). lia.
    + apply Hr; [done|]. apply list_elem_of_omap. by exists v.
  - eapply (redirected_edits g st st1 _ _ _ _ _ _ _ c v k E I); try done.
    intros fwd target env0 env _ Hval _. destruct (single_output_equation g st _ env0 env p v Hpn Hone Hval) as (xs & ys & Hx & HF & Hy).
    exists xs, ys. split_and!; [done| |done]. unfold node_op in HF. rewrite <-HF. by apply node_fun_mark.
Qed.

End Remat.
End RematStep.
