(* ===== verification/JitRematLoop.v ===== *)
(** * A planner's loop over the graph

    The planners of JitRemat.v look at the graph they start from and then change
    it value by value.  [progress]: what stays of that graph, and which ids are new. *)

From stdpp Require Import base list numbers strings gmap.
From Stdlib Require Import Floats.SpecFloat.
From S2P Require Import Prelude DType JitOps JitGraph JitFlow JitExec JitMeaning JitWf JitEdit JitSort JitPreserve JitPasses JitDce JitOptimize JitMemory JitMemoryGreedy JitMemoryPlan JitRemat JitInsert JitRematStep.

Module Progress.
Import Jit Flow Exec Meaning Wf Edit GraphSort Preserve Passes Contract Optimize Memory MemorySize MemoryPlanning Remat Insert Redirect Splice RematStep.

(** ** What the planners read off the first graph *)

Lemma node_index_spec ns n : is_Some (node_index ns !! n) <-> n ∈ ns.
Proof.
  unfold node_index, enumerate. induction ns as [|m ns IH] using rev_ind; [split; [by intros ?%is_Some_None|by intros ?%not_elem_of_nil]|].
  rewrite enumerate_snoc, foldl_app. cbn [foldl snd fst]. rewrite elem_of_app, list_elem_of_singleton, <-IH.
  destruct (decide (m = n)) as [->|Hne]; [rewrite lookup_insert_eq; split; [by right|by eexists]|].
  rewrite lookup_insert_ne by done. split; [by left|by intros [?| ->]].
Qed.

Section Collect.
Context {T : Type} `{!Kernels T}.

Lemma collect_nodes_total d (st : Heap T) g acc : nested d st g -> exists live, collect_nodes_recursive d st g acc = Ok live.
Proof.
  revert g acc. induction d as [|d IH]; intros g acc Hn; [done|]. cbn [collect_nodes_recursive].
  assert (forall n, In n (nodes (graph st g)) -> forall h, h ∈ subgraphs (node st n) -> nested d st h) as Hsub
    by (intros n ?%list_elem_of_In h; by apply Hn).
  destruct (rfoldM_runs (fun _ _ => True) (fun acc n => rfoldM (fun acc h => collect_nodes_recursive d st h acc) (subgraphs (node st n)) ({[n]} ∪ acc))
    (nodes (graph st g)) acc I) as (live & E & _); [|by exists live]. intros _ n s Hin _.
  destruct (rfoldM_runs (fun _ _ => True) (fun acc h => collect_nodes_recursive d st h acc) (subgraphs (node st n)) ({[n]} ∪ s) I) as (s' & E & _); [|by exists s'].
  intros _ h s' Hh%list_elem_of_In _. destruct (IH h s') as [live E]; [by eapply Hsub|]. by exists live.
Qed.

(** The consumer that is found, and how often it is counted. *)
Lemma survey_fold (index : gmap Z Z) (live : gset Z) l : let '(consumer, _, count) :=
    foldl (fun acc user =>
      let '(consumer, last_use_idx, count) := acc in
      if negb (bool_decide (user ∈ live)) then acc
      else match index !! user with
           | Some i => if i >=? last_use_idx then (Some user, i, count + 1) else (consumer, last_use_idx, count + 1)
           | None => (consumer, last_use_idx, count + 1)
           end) (None, 0, 0) l in
  (forall c, consumer = Some c -> c ∈ l /\ is_Some (index !! c) /\ c ∈ live) /\ forall x, x ∈ live -> occ x l <= count.
Proof.
  induction l as [|y l IH] using rev_ind; [split; [done|intros x _; by rewrite occ_nil]|].
  rewrite foldl_app. cbn [foldl]. destruct (foldl _ _ l) as [[c0 l0] k0]. destruct IH as [Hc Ho].
  assert (forall c, c0 = Some c -> c ∈ l ++ [y] /\ is_Some (index !! c) /\ c ∈ live) as Hc'
    by (intros c (? & ? & ?)%Hc; split_and!; [apply elem_of_app; by left|done..]).
  assert (forall x, x ∈ live -> occ x (l ++ [y]) <= (if bool_decide (y ∈ live) then k0 + 1 else k0)) as Ho'.
  { intros x Hx. specialize (Ho x Hx). rewrite occ_app, occ_cons, occ_nil. case_bool_decide as Hy; [case_decide; lia|].
    rewrite decide_False by congruence. lia. }
  case_bool_decide as Hy; cbn [negb]; [|by split]. destruct (index !! y) as [i|] eqn:Ei; [destruct (i >=? l0)|]; split; try done.
  intros c [= <-]. split_and!; [apply elem_of_app; right; left|by eexists|done].
Qed.

Lemma survey_spec (st : Heap T) index live v c count : survey st index live v = (Some c, count) ->
  c ∈ live_uses st v /\ is_Some (index !! c) /\ occ c (live_uses st v) <= count.
Proof.
  unfold survey. pose proof (survey_fold index live (live_uses st v)) as Hf. destruct (foldl _ _ _) as [[c0 l0] k0].
  intros [= -> ->]. destruct Hf as [Hc Ho]. destruct (Hc c eq_refl) as (? & ? & ?). split_and!; [done|done|by apply Ho].
Qed.

Lemma occ_live (st : Heap T) v c : alive st c = true -> occ c (uses (value st v)) = occ c (live_uses st v).
Proof.
  intros Ha. unfold live_uses. induction (uses (value st v)) as [|x l IH]; [done|]. rewrite filter_cons, occ_cons, IH.
  destruct (decide (alive st x = true)); [by rewrite occ_cons|]. rewrite decide_False by congruence. done.
Qed.

(** One counted consumer reads the value at one slot. *)
Lemma used_once (st : Heap T) g v c : wf [] st -> known st g v -> c ∈ live_uses st v -> occ c (live_uses st v) <= 1 ->
  c ∈ nodes (graph st g) /\ v ∈ inputs (node st c) /\ occ c (uses (value st v)) = 1.
Proof.
  intros W Hk Hc Ho. destruct (w_use _ _ W g v c Hk Hc) as [Hn Hv]. split_and!; [done|done|].
  rewrite occ_live by by eapply w_alive. apply (proj1 (occ_pos _ _)) in Hc. lia.
Qed.

End Collect.

(** ** What a loop keeps of the graph it started from *)

Section Progress.
Context {T : Type} `{!Kernels T}.
Context (g : Z) (st0 : Heap T) (new_ids : string -> list string).

Record progress (done : list string) (k : nat) (st : Heap T) : Prop := mkProgress {
  pg_editable : editable g st;
  pg_edits : edits g st0 st;
  pg_nodes : exists extra, nodes (graph st g) = nodes (graph st0 g) ++ extra /\ length extra = k;
  pg_new n : n ∈ nodes (graph st g) -> n ∈ nodes (graph st0 g) \/ subgraphs (node st n) = [];
  pg_node n : n ∈ nodes (graph st0 g) -> with_inputs [] (node st n) = with_inputs [] (node st0 n);
  pg_values i : is_Some (values (graph st g) !! i) -> is_Some (values (graph st0 g) !! i) \/ exists j, j ∈ done /\ i ∈ new_ids j;
  pg_old i v : get_value st0 g i = Some v -> get_value st g i = Some v;
  pg_value v : known st0 g v -> id (value st v) = id (value st0 v) /\ node_of st v = node_of st0 v
}.

Lemma progress_begin : editable g st0 -> progress [] 0 st0.
Proof. intros E. split; try done; [apply edits_refl|exists []; by rewrite app_nil_r|by left..]. Qed.

Section Step.
Context {seen : list string} {k : nat} {st : Heap T} (P : progress seen k st).

Lemma pg_old_node n : n ∈ nodes (graph st0 g) -> n ∈ nodes (graph st g).
Proof. destruct (pg_nodes _ _ _ P) as (extra & -> & _). intros Hn. apply elem_of_app. by left. Qed.

Lemma pg_known v : known st0 g v -> known st g v.
Proof. intros Hv. unfold known. destruct (pg_value _ _ _ P v Hv) as [-> _]. by apply (pg_old _ _ _ P). Qed.

Lemma pg_leaf_id i : leaf_id st g i <-> leaf_id st0 g i.
Proof. apply leaf_id_same; [by apply (et_in _ _ _ (pg_edits _ _ _ P))|by apply (et_leaves _ _ _ (pg_edits _ _ _ P))]. Qed.

(** An id that is new for this value is not taken. *)
Lemma pg_fresh i j : j ∉ seen -> i ∈ new_ids j -> values (graph st0 g) !! i = None ->
  (forall j', j' ∈ seen -> i ∈ new_ids j' -> j' = j) -> values (graph st g) !! i = None.
Proof.
  intros Hj Hi H0 Hinj. apply eq_None_not_Some. intros [[? E]|(j' & Hj' & Hi')]%(pg_values _ _ _ P); [congruence|].
  by rewrite (Hinj j' Hj' Hi') in Hj'.
Qed.

Lemma progress_seen j : progress (j :: seen) k st.
Proof.
  destruct P. split; try done. intros i [?|(j' & ? & ?)]%pg_values0; [by left|right]. exists j'. split; [by right|done].
Qed.

Lemma progress_grown st' n0 i j : editable g st' -> edits g st st' -> grown g n0 i st st' -> n0 ∉ nodes (graph st g) ->
  values (graph st g) !! i = None -> i ∈ new_ids j -> progress (j :: seen) (S k) st'.
Proof.
  intros E' Ed [Gn Gnew Gnode [out Gv] Gval] Hn0 Hi Hj. split.
  - done.
  - eapply edits_trans; [apply P|done].
  - destruct (pg_nodes _ _ _ P) as (extra & E & Hl). exists (extra ++ [n0]). rewrite Gn, E, <-app_assoc. split; [done|].
    rewrite length_app. cbn. lia.
  - intros n. rewrite Gn, elem_of_app, list_elem_of_singleton. intros [Hn| ->]; [|by right].
    assert (subgraphs (node st' n) = subgraphs (node st n)) as ->; [|by apply (pg_new _ _ _ P)].
    apply subgraphs_same, Gnode. congruence.
  - intros n Hn. rewrite Gnode; [by apply P|]. intros ->. by apply Hn0, pg_old_node.
  - intros i'. rewrite Gv. destruct (decide (i = i')) as [<-|Hne].
    + intros _. right. exists j. split; [left|done].
    + rewrite lookup_insert_ne by done. intros [?|(j' & ? & ?)]%(pg_values _ _ _ P); [by left|right]. exists j'. split; [by right|done].
  - intros i' v Hv%(pg_old _ _ _ P). unfold get_value in *. rewrite Gv, lookup_insert_ne; [done|]. intros ->. congruence.
  - intros v Hv. destruct (Gval v (pg_known v Hv)) as [-> ->]. by apply P.
Qed.

End Step.

(** ** The end: the graph is sorted if it changed *)

Lemma nested_others (st : Heap T) d h : root st0 g -> (forall h, h <> g -> same_graph st0 st h) -> h <> g -> nested d st0 h -> nested d st h.
Proof.
  intros Hroot HO. revert h. induction d as [|d IH]; intros h Hh Hn; [done|]. intros n h' Hin Hsub.
  destruct (HO h Hh) as (Ep & _). assert (node_eqn st n ∈ program st0 h) as (m & Em & Hm)%list_elem_of_fmap by (rewrite <-Ep; by apply list_elem_of_fmap_2).
  assert (node_op (node st n) = node_op (node st0 m)) as Eo by (unfold node_eqn in Em; congruence).
  rewrite subgraphs_owned, Eo, <-subgraphs_owned in Hsub. apply IH; [|by eapply Hn].
  intros ->. rewrite subgraphs_owned in Hsub. by eapply (Hroot h m).
Qed.

Lemma progress_nested seen k st d : progress seen k st -> root st0 g -> nested d st0 g -> nested d st g.
Proof.
  intros P Hroot. destruct d as [|d]; [done|]. intros Hn n h Hin Hsub.
  destruct (pg_new _ _ _ P n Hin) as [Hold|E]; [|rewrite E in Hsub; by apply not_elem_of_nil in Hsub].
  assert (subgraphs (node st n) = subgraphs (node st0 n)) as E.
  { by apply subgraphs_same, (pg_node _ _ _ P). }
  rewrite E in Hsub. apply nested_others; [done|apply (pg_edits _ _ _ P)| |by eapply Hn].
  intros ->. rewrite subgraphs_owned in Hsub. by eapply (Hroot g n).
Qed.

Lemma progress_sort seen k st : progress seen k st -> exists st', topological_sort g st = Ok st' /\
  wf [] st' /\ ordered (program st' g) /\ (forall d, root st0 g -> nested d st0 g -> nested d st' g) /\ length (nodes (graph st' g)) = (length (nodes (graph st0 g)) + k)%nat /\
  forall d h xs ts, wf [] st0 -> forward d st0 h xs ∅ = (∅, Ok ts) -> forward d st' h xs ∅ = (∅, Ok ts).
Proof.
  intros P. pose proof (pg_editable _ _ _ P) as E. pose proof (ed_wf _ _ E) as W. destruct (ed_rank _ _ E) as [rank Hr].
  destruct (topological_sort_graded W g rank Hr) as [st' Es]. exists st'. split; [done|].
  destruct (sort_annotated [] st st' g [] W Es) as (W' & _ & _ & Ho & Hp & _). cbn [foldl] in *.
  destruct (pg_nodes _ _ _ P) as (extra & En & Hl). split_and!; [done|done| | |].
  - intros d Hroot Hn. eapply nested_shrinks; [apply (sort_shrinks W g st' Es)|by eapply progress_nested].
  - by rewrite Hp, En, length_app, Hl.
  - intros d h xs ts W0. apply (edits_forward g); [done|done| |done].
    eapply edits_trans; [apply P|by apply sort_edits].
Qed.

End Progress.
End Progress.

(** ** The rematerialization loop

    [find_candidates] names each value once; each candidate that qualifies is one
    step of JitRematStep.v; so the loop keeps [progress]. *)

Module RematLoop.
Import Jit Flow Exec Meaning Wf Edit GraphSort Preserve Passes Contract Optimize Memory Remat Insert Redirect Splice RematStep Progress.

(** ** Names *)

Lemma append_inj_l (s t u : string) : s +:+ u = t +:+ u -> s = t.
Proof.
  intros E. apply (f_equal String.list_ascii_of_string) in E.
  assert (forall a b : string, String.list_ascii_of_string (a +:+ b) = String.list_ascii_of_string a ++ String.list_ascii_of_string b) as Happ.
  { intros a b. induction a as [|x a IH]; [done|]. exact (f_equal (cons x) IH). }
  rewrite !Happ in E. apply app_inv_tail in E. rewrite <-(String.string_of_list_ascii_of_string s), E.
  apply String.string_of_list_ascii_of_string.
Qed.

(** Filtering through a partial function keeps the ids a sublist. *)
Lemma omap_sublist {A} (key : A -> string) (f : Z -> option A) (h : Z -> string) (l : list Z) :
  (forall v c, f v = Some c -> key c = h v) -> map key (omap f l) `sublist_of` map h l.
Proof.
  intros Hf. induction l as [|v l IH]; [done|]. cbn. destruct (f v) as [c|] eqn:E; cbn; [rewrite (Hf v c E)|]; by constructor.
Qed.

Section Loop.
Context {T : Type} `{!Kernels T, !RematLaws T, HS : !StdSort}.
Context (g : Z) (st0 : Heap T).

(** A node of the graph that can be recomputed. *)
Definition recomputed (n : Z) : Prop := n ∈ nodes (graph st0 g) /\ is_cheap_to_recompute (op_type (node st0 n)) = true.

(** What the pass relies on: such a node has one output and a name of its own,
    and the name of the copy is free. *)
Record recomputable : Prop := mkRecomputable {
  rb_single n : recomputed n -> exists v, outputs (node st0 n) = [v];
  rb_names n m : recomputed n -> recomputed m -> name (node st0 n) = name (node st0 m) -> n = m;
  rb_fresh n : recomputed n -> values (graph st0 g) !! remat_id (node st0 n) = None /\ ~ leaf_id st0 g (remat_id (node st0 n))
}.

(** The id of the copy of a value. *)
Definition remat_ids (i : string) : list string :=
  match get_value st0 g i with
  | Some v => match node_of st0 v with Some p => [remat_id (node st0 p)] | None => [] end
  | None => []
  end.

Definition target (i : string) : Prop := exists n v, recomputed n /\ v ∈ outputs (node st0 n) /\ i = id (value st0 v).

Context (W : wf [] st0) (R : recomputable).

Lemma target_spec i : target i -> exists p v, get_value st0 g i = Some v /\ known st0 g v /\ id (value st0 v) = i /\
  node_of st0 v = Some p /\ recomputed p /\ outputs (node st0 p) = [v] /\ remat_ids i = [remat_id (node st0 p)].
Proof.
  intros (p & v & Hp & Hv & ->). destruct (w_out _ _ W g p v (proj1 Hp) Hv) as (Hk & Hpr & _).
  assert (node_of st0 v = Some p) as Hof by (unfold node_of; by rewrite Hpr, (w_alive _ _ W g p (proj1 Hp))).
  destruct (rb_single R p Hp) as [w Ew]. assert (w = v) as -> by (rewrite Ew in Hv; by apply list_elem_of_singleton in Hv).
  exists p, v. split_and!; try done. unfold remat_ids, get_value. unfold known in Hk. by rewrite Hk, Hof.
Qed.

Lemma remat_ids_inj i j k : target i -> target j -> k ∈ remat_ids i -> k ∈ remat_ids j -> j = i.
Proof.
  intros (p & v & _ & _ & <- & _ & Hp & Ov & ->)%target_spec (q & w & _ & _ & <- & _ & Hq & Ow & ->)%target_spec.
  intros ->%list_elem_of_singleton E%list_elem_of_singleton. unfold remat_id in E. apply append_inj_l, append_inj_l in E.
  assert (p = q) as -> by by apply (rb_names R). congruence.
Qed.

(** ** One candidate *)

Lemma rematerialize_progress live seen k (st : Heap T) i : progress g st0 remat_ids seen k st ->
  (forall j, j ∈ i :: seen -> target j) -> i ∉ seen ->
  exists r, rematerialize g (node_index (nodes (graph st0 g))) live i st = Ok r /\
    match r with None => True | Some st' => progress g st0 remat_ids (i :: seen) (S k) st' end.
Proof.
  intros P Ht Hi. destruct (target_spec i (Ht i ltac:(left))) as (p & v & Hv & Hk & Hid & Hof & [Hp Hcheap] & Hone & Hnew).
  unfold rematerialize. rewrite (pg_old _ _ _ _ _ _ P i v Hv). destruct (pg_value _ _ _ _ _ _ P v Hk) as [Hid' Hof']. rewrite Hof', Hof.
  destruct (survey st _ live v) as [[c|] count] eqn:Es; [|by exists None].
  destruct (Z.eqb_spec count 1) as [->|Hc]; cbn [negb]; [|by exists None].
  destruct (survey_spec st _ live v c 1 Es) as (Hlive & Hidx%node_index_spec & Hocc).
  pose proof (pg_editable _ _ _ _ _ _ P) as E. pose proof (ed_wf _ _ E) as W1.
  destruct (used_once st g v c W1 (pg_known _ _ _ P v Hk) Hlive Hocc) as (Hcn & Hcv & Huse).
  pose proof (pg_node _ _ _ _ _ _ P p Hp) as En. pose proof (f_equal op_type En) as Eop. pose proof (f_equal name En) as Enm.
  pose proof (f_equal outputs En) as Eout. cbn in Eop, Enm, Eout.
  assert (remat_id (node st p) = remat_id (node st0 p)) as Eid by (unfold remat_id; by rewrite Enm).
  assert (remat_id (node st p) ∈ remat_ids i) as Hin by (rewrite Hnew, Eid; left).
  destruct (rb_fresh R p (conj Hp Hcheap)) as [Hfree Hleaf]. rewrite <-Eid in Hfree, Hleaf.
  assert (values (graph st g) !! remat_id (node st p) = None) as Hfresh.
  { apply (pg_fresh _ _ _ P _ i Hi Hin Hfree). intros j Hj Hj'. eapply remat_ids_inj; [apply Ht; left|apply Ht; by right|exact Hin|exact Hj']. }
  destruct (remat_step g st v p c E (pg_known _ _ _ P v Hk)) as (st1 & out & st2 & E1 & E2 & E' & Ed & Gr); try done.
  - by rewrite Hof'.
  - by rewrite Eop.
  - by rewrite Eout.
  - by rewrite (pg_leaf_id _ _ _ P).
  - rewrite E1, <-Hid, <-Hid', E2. cbn [rbind]. exists (Some st2). split; [done|]. rewrite Hid', Hid.
    eapply (progress_grown _ _ _ P); [done|done|done| |done|done].
    intros Hn. pose proof (al_node _ (ed_alloc _ _ E) (next_ptr st) (proj1 (alive_Some _ _) (w_alive _ _ W1 g _ Hn))). lia.
Qed.

Lemma rematerialize_all_progress budget live cs seen k (st : Heap T) freed : progress g st0 remat_ids seen k st ->
  NoDup (map rc_value_id cs ++ seen) -> (forall j, j ∈ map rc_value_id cs ++ seen -> target j) ->
  exists st' k' seen', rematerialize_all budget g (node_index (nodes (graph st0 g))) live cs st (Z.of_nat k) freed = Ok (st', Z.of_nat k') /\
    progress g st0 remat_ids seen' k' st' /\ (k <= k' <= k + length cs)%nat /\ (k' = k -> st' = st).
Proof.
  revert seen k st freed. induction cs as [|c cs IH]; intros seen k st freed P Hnd Ht; cbn [rematerialize_all].
  { exists st, k, seen. split_and!; [done|done|lia|cbn; lia|done]. }
  destruct ((budget >? 0) && (freed >=? budget)).
  { exists st, k, seen. split_and!; [done|done|lia|cbn; lia|done]. }
  cbn [map app] in Hnd, Ht. apply NoDup_cons in Hnd as [Hc Hnd].
  assert (forall j, j ∈ rc_value_id c :: seen -> target j) as Ht1.
  { intros j Hj. apply Ht. apply elem_of_cons in Hj as [->|Hj]; [left|right; apply elem_of_app; by right]. }
  destruct (rematerialize_progress live seen k st (rc_value_id c) P Ht1) as (r & -> & Hr).
  { intros Hs. apply Hc, elem_of_app. by right. }
  cbn [rbind]. destruct r as [st1|].
  - destruct (IH (rc_value_id c :: seen) (S k) st1 (wrap 64 (freed + memory_saved c)) Hr) as (st' & k' & seen' & E & P' & Hk & Hst).
    + rewrite <-(Permutation_middle (map rc_value_id cs) seen). by constructor.
    + intros j. rewrite <-(Permutation_middle (map rc_value_id cs) seen). apply Ht.
    + exists st', k', seen'. replace (Z.of_nat k + 1) with (Z.of_nat (S k)) by lia. cbn [length]. split_and!; [done|done|lia|lia|lia].
  - destruct (IH seen k st freed P Hnd) as (st' & k' & seen' & E & P' & Hk & Hst); [intros j Hj; apply Ht; by right|].
    exists st', k', seen'. cbn [length]. split_and!; [done|done|lia|lia|done].
Qed.

(** ** The candidates *)

Lemma candidate_id (st : Heap T) index live num excluded ratio n v c : candidate st index live num excluded ratio n v = Some c ->
  rc_value_id c = id (value st v).
Proof.
  unfold candidate. repeat (case_match; try done). by intros [= <-].
Qed.

Lemma find_candidates_spec d ratio : nested d st0 g -> exists cs, find_candidates d ratio g st0 = Ok cs /\
  NoDup (map rc_value_id cs) /\ forall j, j ∈ map rc_value_id cs -> target j.
Proof.
  intros Hn. unfold find_candidates. destruct (collect_nodes_total d st0 g ∅ Hn) as [live ->]. cbn [rbind].
  set (found := concat _). eexists. split; [done|].
  assert (map rc_value_id found `sublist_of` produced (program st0 g)) as Hsub.
  { unfold found, produced, program. generalize (node_index (nodes (graph st0 g))), (lenZ (nodes (graph st0 g))). intros index num.
    rewrite concat_map, !map_map. clear found. induction (nodes (graph st0 g)) as [|n ns IH]; [done|]. cbn [map concat].
    apply sublist_app; [|done]. case_match; [|apply sublist_nil_l].
    apply (omap_sublist rc_value_id _ (fun v => id (value st0 v))). intros v c. apply candidate_id. }
  assert (map rc_value_id (sort (fun a b => SFltb (cost_ratio b) (cost_ratio a)) found) ≡ₚ map rc_value_id found) as Hp by apply Permutation_map, sort_perm.
  split; [rewrite Hp; eapply sublist_NoDup; [apply (wf_single W g)|exact Hsub]|].
  intros j. rewrite Hp. intros (c & -> & Hc)%list_elem_of_fmap. unfold found in Hc.
  apply list_elem_of_In, in_concat in Hc as (l & (n & <- & Hin)%in_map_iff & Hc). apply list_elem_of_In in Hin.
  apply list_elem_of_In in Hc. destruct (is_cheap_to_recompute _) eqn:Ec; [|by apply not_elem_of_nil in Hc].
  apply list_elem_of_omap in Hc as (v & Hv & Hc). exists n, v. split_and!; [done|done|by eapply candidate_id].
Qed.

(** ** The pass *)

Lemma rematerialization_spec budget ratio d : editable g st0 -> nested d st0 g -> exists cs st' k,
  find_candidates d ratio g st0 = Ok cs /\ rematerialization d budget ratio g st0 = Ok (st', bool_decide (0 < k)%nat, Z.of_nat k) /\
  (k <= length cs)%nat /\ (k = 0%nat -> st' = st0) /\ wf [] st' /\
  (k <> 0%nat -> ordered (program st' g)) /\ (forall d, root st0 g -> nested d st0 g -> nested d st' g) /\
  length (nodes (graph st' g)) = (length (nodes (graph st0 g)) + k)%nat /\
  forall d h xs ts, forward d st0 h xs ∅ = (∅, Ok ts) -> forward d st' h xs ∅ = (∅, Ok ts).
Proof.
  intros E Hn. destruct (find_candidates_spec d ratio Hn) as (cs & Ef & Hnd & Ht). exists cs.
  destruct (collect_nodes_total d st0 g ∅ Hn) as [live El].
  destruct (rematerialize_all_progress budget live cs [] 0 st0 0 (progress_begin g st0 remat_ids E)) as (st1 & k & seen & E1 & P & Hk & Hst);
    [by rewrite app_nil_r|by rewrite app_nil_r|].
  unfold rematerialization. rewrite Ef. cbn [rbind]. unfold remat_apply. rewrite El. cbn [rbind].
  change (Z.of_nat 0) with 0 in E1. rewrite E1. cbn [rbind]. destruct k as [|k].
  - rewrite (Hst eq_refl). exists st0, 0%nat. split_and!; try done; lia.
  - destruct (progress_sort g st0 remat_ids seen (S k) st1 P) as (st' & Es & W' & Ho & Hnest & Hl & Hf).
    unfold sort_if. replace (Z.of_nat (S k) >? 0) with true by (symmetry; apply Z.gtb_lt; lia). rewrite Es. cbn [rbind].
    exists st', (S k). split_and!; [done| |lia|done|done|done|done|done|].
    + rewrite bool_decide_eq_true_2 by lia. by replace (Z.of_nat (S k) >? 0) with true by (symmetry; apply Z.gtb_lt; lia).
    + intros d' h xs ts. by apply Hf.
Qed.

End Loop.
End RematLoop.
