(* ===== verification/JitSwapLoop.v ===== *)
(** * Swapping values

    [swap_value] of JitRemat.v: a SwapOut that nothing else reads, a SwapIn that
    reads it, and the only read of the value redirected to what SwapIn gives.
    Both pass their input on, so every solution extends. *)

From stdpp Require Import base list numbers strings gmap.
From S2P Require Import Prelude DType JitOps JitGraph JitFlow JitExec JitMeaning JitWf JitEdit JitSort JitPreserve JitPasses JitDce JitOptimize JitMemory JitRemat JitInsert JitRematStep JitRematLoop.

Module SwapStep.
Import Jit Flow Exec Meaning Wf Edit GraphSort Preserve Passes Contract Memory Remat Insert Redirect Splice RematStep Progress.

Section Swap.
Context {T : Type} `{!Kernels T}.

Definition swap_op (op : OpType.t) : Prop := op = OpType.SwapOut \/ op = OpType.SwapIn.

(** Both nodes pass their input on. *)
Lemma node_fun_swap (fwd : Forward) g target op size (x : T) : swap_op op ->
  node_fun fwd g target ((op, size_attr size, (None, None, None)), 1%nat) [x] = Ok [x].
Proof. by intros [-> | ->]. Qed.

(** Splicing a node without readers keeps the graph acyclic. *)
Lemma inserted_rank g (st st1 : Heap T) op nm a ins i like dev rank r : wf [] st -> allocated st ->
  inserted g op nm a ins i like dev st st1 -> graded st (nodes (graph st g)) rank ->
  (forall q, q ∈ omap (node_of st) ins -> (rank q <= r)%nat) ->
  graded st1 (nodes (graph st1 g)) (fun m => if decide (m = next_ptr st) then S (2 * r) else (2 * rank m)%nat).
Proof.
  intros W AL I Hr Hq n q Hn Hp. assert (forall m, m ∈ nodes (graph st g) -> m <> next_ptr st) as Hold by (intros m; by apply (in_old_node _ _ _ _ _ _ _ _ _ _ I)).
  apply (in_elem _ _ _ _ _ _ _ _ _ _ I) in Hn as [Hn|[_ ->]].
  - rewrite (in_producers _ _ _ _ _ _ _ _ _ _ I g n Hn) in Hp. rewrite (decide_False (P := n = _)) by by apply Hold.
    rewrite decide_False by (apply Hold; by eapply (producers_in W)). specialize (Hr n q Hn Hp). lia.
  - rewrite (in_producers_new _ _ _ _ _ _ _ _ _ _ I) in Hp. rewrite (decide_True (P := next_ptr st = next_ptr st)) by done.
    specialize (Hq q Hp). case_decide; [|lia]. exfalso. subst q. apply list_elem_of_omap in Hp as (u & _ & Hp').
    unfold node_of in Hp'. destruct (producer (value st u)) as [q|] eqn:Ep; [|done]. destruct (alive st q); [|done].
    injection Hp' as ->. pose proof (al_producer _ AL u _ Ep). lia.
Qed.

Definition swap_out_id (i : string) : string := ("swap_out_" +:+ i) +:+ "_cpu".
Definition swap_in_id (i : string) : string := ("swap_in_" +:+ i) +:+ "_gpu".

Lemma swap_ids_differ i j : swap_out_id i <> swap_in_id j.
Proof. unfold swap_out_id, swap_in_id. intros E. discriminate E. Qed.

Section Step.
Context (g : Z) (st : Heap T) (s : SwapSchedule) (v p c : Z) (k : nat).
Let i := sw_value_id s.
Context (E : editable g st) (Hv : known st g v) (Hp : node_of st v = Some p).
Context (Hc : c ∈ nodes (graph st g)) (Hk : inputs (node st c) !! k = Some v) (Huse : occ c (uses (value st v)) = 1).
Context (Hout : values (graph st g) !! swap_out_id i = None /\ ~ leaf_id st g (swap_out_id i)).
Context (Hin : values (graph st g) !! swap_in_id i = None /\ ~ leaf_id st g (swap_in_id i)).

Let a := size_attr (T := T) (size_bytes s).
Let n1 := next_ptr st.
Let h1 := next_ptr st + 1.

(** The value is read, so every solution has it. *)
Lemma read_defined (F : NodeOp * nat -> list T -> result (list T)) env0 (env : gmap string T) :
  valuation F env0 (program st g) env -> exists x, env !! id (value st v) = Some x.
Proof.
  intros [Hh _]. destruct (Hh (node_eqn st c)) as (xs & _ & Hx & _); [by apply list_elem_of_fmap_2|].
  eapply reads_Some; [exact Hx|]. apply (list_elem_of_fmap_2 (fun v => id (value st v))). by eapply list_elem_of_lookup_2.
Qed.

Lemma swap_out_step : exists st1,
  insert_node g OpType.SwapOut ("swap_out_" +:+ i) [v] a "_cpu" v cpu st = (st1, h1) /\
  inserted g OpType.SwapOut ("swap_out_" +:+ i) a [v] (swap_out_id i) v cpu st st1 /\
  editable g st1 /\ edits g st st1 /\ grown g n1 (swap_out_id i) st st1 /\
  exists rank, graded st1 (nodes (graph st1 g)) rank /\ (rank n1 < rank c)%nat.
Proof.
  pose proof (ed_wf _ _ E) as W. destruct Hout as [Hf Hl].
  assert (forall u, u ∈ [v] -> known st g u /\ forall q, node_of st u = Some q -> q ∈ nodes (graph st g)) as Hins.
  { intros u ->%list_elem_of_singleton. split; [done|]. intros q. apply (w_in_live _ _ W g c v q Hc). by eapply list_elem_of_lookup_2. }
  destruct (insert_node_inserted g OpType.SwapOut ("swap_out_" +:+ i) [v] a "_cpu" v cpu st) as (st1 & E1 & I);
    [done|done|apply E|apply E|by eapply known_graph|done|done|done|].
  exists st1. fold (swap_out_id i) in I. destruct (ed_rank _ _ E) as [rank Hr].
  assert (forall q, q ∈ omap (node_of st) [v] -> (rank q <= rank p)%nat) as Hq.
  { intros q. cbn. rewrite Hp. by intros ->%list_elem_of_singleton. }
  pose proof (inserted_rank g st st1 _ _ _ _ _ _ _ rank (rank p) W (ed_alloc _ _ E) I Hr Hq) as Hr1.
  split_and!; [done|done|split; [apply I|apply I|apply I|by eexists]| |by eapply inserted_grown|].
  - apply (inserted_edits g st st1 _ _ _ _ _ _ _ E I Hf Hl); [intros u Hu; by apply Hins|].
    intros fwd tg env0 env Hval. destruct (read_defined _ _ _ Hval) as [x Hx]. exists [x], [x]. split.
    + cbn. unfold reads. cbn. by rewrite Hx.
    + apply node_fun_swap. by left.
  - eexists. split; [exact Hr1|]. unfold n1. cbn beta. rewrite decide_True by done.
    rewrite decide_False by by apply (in_old_node _ _ _ _ _ _ _ _ _ _ I g).
    assert (rank p < rank c)%nat; [|lia]. apply Hr; [done|]. apply list_elem_of_omap. exists v. split; [by eapply list_elem_of_lookup_2|done].
Qed.

Lemma swap_step : exists st1 st2 st3,
  insert_node g OpType.SwapOut ("swap_out_" +:+ i) [v] a "_cpu" v cpu st = (st1, h1) /\
  insert_node g OpType.SwapIn ("swap_in_" +:+ i) [h1] a "_gpu" v (device (value st v)) st1 = (st2, next_ptr st1 + 1) /\
  replace_input c k (next_ptr st1 + 1) st2 = Ok st3 /\
  editable g st1 /\ edits g st st1 /\ grown g n1 (swap_out_id i) st st1 /\
  editable g st3 /\ edits g st1 st3 /\ grown g (next_ptr st1) (swap_in_id i) st1 st3.
Proof.
  destruct swap_out_step as (st1 & E1 & I & Ed1 & Et1 & G1 & rank & Hr & Hrc). pose proof (ed_wf _ _ Ed1) as W1.
  destruct Hin as [Hf Hl]. pose proof (in_old_node _ _ _ _ _ _ _ _ _ _ I g c Hc) as Hcn.
  pose proof (in_node_of_new _ _ _ _ _ _ _ _ _ _ I) as Hof. fold h1 n1 in Hof.
  assert (known st1 g h1) as Hh by (apply (in_known _ _ _ _ _ _ _ _ _ _ I); by right).
  assert (n1 ∈ nodes (graph st1 g)) as Hn1 by (apply (in_elem _ _ _ _ _ _ _ _ _ _ I); by right).
  assert (forall u, u ∈ [h1] -> known st1 g u /\ forall q, node_of st1 u = Some q -> q ∈ nodes (graph st1 g)) as Hins.
  { intros u ->%list_elem_of_singleton. split; [done|]. rewrite Hof. by intros q [= <-]. }
  assert (values (graph st1 g) !! swap_in_id i = None) as Hf1
    by (rewrite (in_values _ _ _ _ _ _ _ _ _ _ I), lookup_insert_ne; [done|apply swap_ids_differ]).
  assert (~ leaf_id st1 g (swap_in_id i)) as Hl1
    by (rewrite (leaf_id_same st st1); [done|apply (in_in_ids _ _ _ _ _ _ _ _ _ _ I)|apply (in_leaves _ _ _ _ _ _ _ _ _ _ I)]).
  destruct (insert_node_inserted g OpType.SwapIn ("swap_in_" +:+ i) [h1] a "_gpu" v (device (value st v)) st1) as (st2 & E2 & I2);
    [done|done|apply Ed1|apply Ed1|by eapply known_graph|done|done|done|]. fold (swap_in_id i) in I2.
  assert (known st1 g v) as Hv1 by (apply (in_known _ _ _ _ _ _ _ _ _ _ I); by left).
  assert (c ∈ nodes (graph st1 g)) as Hc1 by (apply (in_elem _ _ _ _ _ _ _ _ _ _ I); by left).
  assert (inputs (node st1 c) !! k = Some v) as Hk1 by by rewrite (in_node _ _ _ _ _ _ _ _ _ _ I).
  assert (occ c (uses (value st1 v)) = 1) as Huse1.
  { rewrite (in_uses _ _ _ _ _ _ _ _ _ _ I g v Hv), occ_app, Huse. pose proof (occ_nonneg c (reads_by [v] st v)).
    destruct (decide (0 < occ c (reads_by [v] st v))) as [Hpos|]; [|lia]. apply occ_pos, elem_of_reads_by in Hpos. by destruct Hpos. }
  assert (forall u, u ∈ [h1] -> known st1 g u) as Hknown by (intros u; apply Hins).
  destruct (redirected_heap g st1 st2 _ _ _ _ _ _ _ c v k I2 Hv1 Hc1 Hk1 Huse1) as (Hrep & W3 & A3 & C3).
  exists st1, st2, (replace_input_at c k v (next_ptr st1 + 1) st2).
  split_and!; [done|done|done|done|done|done|split; [done|done|done|]| |by eapply redirected_grown].
  - eapply (redirected_rank g st1 st2 _ _ _ _ _ _ _ c v k Ed1 I2 Hv1 Hc1 Hk1 Huse1 rank (rank n1) Hr); [|done].
    intros q. cbn. rewrite Hof. by intros ->%list_elem_of_singleton.
  - eapply (redirected_edits g st1 st2 _ _ _ _ _ _ _ c v k Ed1 I2); try done.
    intros fwd tg env0 env _ Hval [x Hx].
    pose proof (in_new _ _ _ _ _ _ _ _ _ _ I) as Enew. fold n1 h1 in Enew.
    destruct (single_output_equation g st1 _ env0 env n1 h1 Hn1 ltac:(by rewrite Enew) Hval) as (xs & ys & Hxs & HF & Hy).
    rewrite Enew in Hxs, HF. cbn in Hxs. unfold reads in Hxs. cbn in Hxs. rewrite Hx in Hxs. injection Hxs as <-.
    unfold node_op in HF. cbn [op_type attrs then_branch else_branch body] in HF. unfold a in HF. rewrite node_fun_swap in HF by by left.
    apply Ok_inj in HF as <-. exists [x], [x]. split_and!; [|apply node_fun_swap; by right|exact Hx].
    unfold reads. cbn. by rewrite Hy.
Qed.

End Step.
End Swap.
End SwapStep.

(** ** The swapping loop

    [swap_plan] names each value once and [swap_apply] splices the schedules that
    qualify, one step of [SwapStep] each; so the loop keeps [progress]. *)

Module SwapLoop.
Import Jit Flow Exec Meaning Wf Edit GraphSort Preserve Passes Contract Optimize Memory Remat Insert Redirect Splice RematStep Progress RematLoop SwapStep.

Section Loop.
Context {T : Type} `{!Kernels T, HS : !StdSort}.
Context (g : Z) (st0 : Heap T).

(** A value that a node of the graph assigns. *)
Definition assigned (i : string) : Prop := exists n v, n ∈ nodes (graph st0 g) /\ v ∈ outputs (node st0 n) /\ i = id (value st0 v).

Definition swap_ids (i : string) : list string := [swap_out_id i; swap_in_id i].

(** The names of the new values are free. *)
Definition swappable : Prop := forall i k, assigned i -> k ∈ swap_ids i -> values (graph st0 g) !! k = None /\ ~ leaf_id st0 g k.

Context (W : wf [] st0) (R : swappable).

Lemma assigned_spec i : assigned i -> exists p v, p ∈ nodes (graph st0 g) /\ get_value st0 g i = Some v /\ known st0 g v /\
  id (value st0 v) = i /\ node_of st0 v = Some p.
Proof.
  intros (p & v & Hp & Hv & ->). destruct (w_out _ _ W g p v Hp Hv) as (Hk & Hpr & _). exists p, v. split_and!; try done.
  unfold node_of. by rewrite Hpr, (w_alive _ _ W g p Hp).
Qed.

Lemma swap_ids_inj i j k : k ∈ swap_ids i -> k ∈ swap_ids j -> j = i.
Proof.
  unfold swap_ids. intros Hi Hj. repeat setoid_rewrite elem_of_cons in Hi. repeat setoid_rewrite elem_of_cons in Hj.
  destruct Hi as [->|[->|Hi]], Hj as [E|[E|Hj]]; try (by apply not_elem_of_nil in Hi); try (by apply not_elem_of_nil in Hj).
  - unfold swap_out_id in E. apply append_inj_l, (inj (String.append _)) in E. done.
  - by apply swap_ids_differ in E.
  - symmetry in E. by apply swap_ids_differ in E.
  - unfold swap_in_id in E. apply append_inj_l, (inj (String.append _)) in E. done.
Qed.

(** ** One schedule *)

Lemma occ_filter_elem {P : Z -> Prop} `{!forall x, Decision (P x)} c l : P c -> occ c (filter P l) = occ c l.
Proof.
  intros Hc. induction l as [|x l IH]; [done|]. rewrite filter_cons. destruct (decide (P x)) as [Hx|Hx]; rewrite !occ_cons, IH; [done|].
  rewrite decide_False by congruence. done.
Qed.

(** The consumer that swapping asks for is the only read but for swap-outs. *)
Lemma swap_consumer_once (st : Heap T) reachable v c : wf [] st -> known st g v -> swap_consumers st reachable v = [c] ->
  c ∈ nodes (graph st g) /\ v ∈ inputs (node st c) /\ occ c (uses (value st v)) = 1.
Proof.
  intros W1 Hk Hc. assert (c ∈ swap_consumers st reachable v) as Hin by (rewrite Hc; left).
  pose proof Hin as [HP Hl]%list_elem_of_filter. apply (used_once st g v c W1 Hk Hl).
  rewrite <-(occ_filter_elem (P := fun user => op_type (node st user) <> OpType.SwapOut /\ user ∈ reachable) c) by done.
  change (occ c (swap_consumers st reachable v) <= 1). rewrite Hc, occ_cons, decide_True, occ_nil by done. lia.
Qed.

Lemma swap_value_progress reachable seen k (st : Heap T) s : progress g st0 swap_ids seen k st ->
  assigned (sw_value_id s) -> sw_value_id s ∉ seen -> exists r, swap_value g reachable s st = Ok r /\
    match r with None => True | Some st' => progress g st0 swap_ids (sw_value_id s :: sw_value_id s :: seen) (S (S k)) st' end.
Proof.
  intros P Ht Hi. destruct (assigned_spec _ Ht) as (p & v & Hp & Hv & Hk & Hid & Hof).
  unfold swap_value. rewrite (pg_old _ _ _ _ _ _ P _ v Hv). destruct (pg_value _ _ _ _ _ _ P v Hk) as [Hid' Hof']. rewrite Hof in Hof'.
  pose proof (pg_editable _ _ _ _ _ _ P) as E. pose proof (ed_wf _ _ E) as W1. pose proof (pg_known _ _ _ P v Hk) as Hk1.
  destruct (swap_consumers st reachable v) as [|c [|? ?]] eqn:Ec; [by exists None| |by exists None].
  destruct (swap_consumer_once st reachable v c W1 Hk1 Ec) as (Hcn & Hcv & Huse).
  destruct (slot_of_known g st c v W1 Hcn Hcv) as (slot & Hs & Hks). rewrite Hid', Hid in Hs. rewrite Hs.
  assert (forall k', k' ∈ swap_ids (sw_value_id s) -> values (graph st g) !! k' = None /\ ~ leaf_id st g k') as Hfresh.
  { intros k' Hk'. destruct (R _ k' Ht Hk') as [Hf Hl]. split; [|by rewrite (pg_leaf_id _ _ _ P)].
    apply (pg_fresh _ _ _ P _ (sw_value_id s) Hi Hk' Hf). intros j _ Hj. by eapply swap_ids_inj. }
  destruct (swap_step g st s v p c slot E Hk1 Hof' Hcn Hks Huse) as (st1 & st2 & st3 & E1 & E2 & E3 & Ed1 & Et1 & G1 & Ed3 & Et3 & G3);
    [apply Hfresh; left|apply Hfresh; right; left|].
  rewrite E1, E2, E3. cbn [rbind]. exists (Some st3). split; [done|].
  assert (forall (s' : Heap T), editable g s' -> next_ptr s' ∉ nodes (graph s' g)) as Hnew.
  { intros s' Es Hn. pose proof (al_node _ (ed_alloc _ _ Es) _ (proj1 (alive_Some _ _) (w_alive _ _ (ed_wf _ _ Es) g _ Hn))). lia. }
  assert (progress g st0 swap_ids (sw_value_id s :: seen) (S k) st1) as P1.
  { eapply (progress_grown _ _ _ P); [done|done|exact G1|by apply Hnew|apply Hfresh; left|left]. }
  eapply (progress_grown _ _ _ P1); [done|done|exact G3|by apply Hnew| |right; left].
  destruct (gr_values _ _ _ _ _ G1) as [out ->]. rewrite lookup_insert_ne by apply swap_ids_differ. apply Hfresh. right; left.
Qed.

(** ** The schedules *)

Lemma schedules_progress reachable ss : forall seen k n (st : Heap T), progress g st0 swap_ids seen (2 * k) st ->
  NoDup (map sw_value_id ss) -> (forall j, j ∈ map sw_value_id ss -> assigned j /\ j ∉ seen) -> exists st' seen' k',
  rfoldM (fun acc s => let* r := swap_value g reachable s acc.1 in
    Ok (match r with Some st => (st, acc.2 + 1) | None => acc end)) ss (st, n) = Ok (st', n + Z.of_nat k') /\
  progress g st0 swap_ids seen' (2 * (k + k')) st' /\ (k' <= length ss)%nat /\ (k' = 0%nat -> st' = st).
Proof.
  induction ss as [|s ss IH]; intros seen k n st P Hnd Ht; cbn [rfoldM].
  { exists st, seen, 0%nat. rewrite Z.add_0_r, Nat.add_0_r. split_and!; done. }
  cbn [map] in Hnd, Ht. apply NoDup_cons in Hnd as [Hs Hnd]. destruct (Ht (sw_value_id s)) as [Ha Hseen]; [left|].
  destruct (swap_value_progress reachable seen (2 * k) st s P Ha Hseen) as (r & Er & Hr). cbn [fst snd]. rewrite Er. cbn [rbind].
  destruct r as [st1|].
  - replace (S (S (2 * k))) with (2 * S k)%nat in Hr by lia.
    destruct (IH _ (S k) (n + 1) st1 Hr Hnd) as (st' & seen' & k' & E' & P' & Hl & _).
    + intros j Hj. destruct (Ht j ltac:(by right)) as [? Hjs]. split; [done|]. rewrite !not_elem_of_cons. split_and!; [congruence..|done].
    + exists st', seen', (S k'). rewrite E'. split_and!; [f_equal; f_equal; lia|by replace (k + S k')%nat with (S k + k')%nat by lia|cbn; lia|done].
  - destruct (IH seen k n st P Hnd) as (st' & seen' & k' & E' & P' & Hl & Hz); [intros j Hj; apply Ht; by right|].
    exists st', seen', k'. split_and!; [done|done|cbn; lia|done].
Qed.

Lemma schedule_id (st : Heap T) index excluded threshold gap n v s : schedule st index excluded threshold gap n v = Some s ->
  sw_value_id s = id (value st v).
Proof. unfold schedule. repeat (case_match; try done). by intros [= <-]. Qed.

Lemma swap_plan_spec threshold gap : NoDup (map sw_value_id (swap_plan threshold gap g st0)) /\
  forall j, j ∈ map sw_value_id (swap_plan threshold gap g st0) -> assigned j.
Proof.
  unfold swap_plan. set (found := concat _). assert (map sw_value_id found `sublist_of` produced (program st0 g)) as Hsub.
  { unfold found, produced, program. generalize (node_index (nodes (graph st0 g))). intros index.
    rewrite concat_map, !map_map. clear found. induction (nodes (graph st0 g)) as [|n ns IH]; [done|]. cbn [map concat].
    apply sublist_app; [|done]. apply (omap_sublist sw_value_id _ (fun v => id (value st0 v))). intros v s. apply schedule_id. }
  assert (map sw_value_id (sort (fun a b => size_bytes a >? size_bytes b) found) ≡ₚ map sw_value_id found) as Hp by apply Permutation_map, sort_perm.
  split; [rewrite Hp; eapply sublist_NoDup; [apply (wf_single W g)|exact Hsub]|]. intros j. rewrite Hp. intros Hj.
  assert (j ∈ produced (program st0 g)) as (n & v & Hn & Hv & ->)%elem_of_produced_ids; [by eapply elem_of_sublist|by exists n, v].
Qed.

(** ** All of it *)

Lemma swap_apply_spec threshold gap d : editable g st0 -> nested d st0 g -> exists st' k,
  swap_apply d g (swap_plan threshold gap g st0) st0 = Ok (st', Z.of_nat k) /\
  (k <= length (swap_plan threshold gap g st0))%nat /\ (k = 0%nat -> st' = st0) /\ wf [] st' /\
  length (nodes (graph st' g)) = (length (nodes (graph st0 g)) + 2 * k)%nat /\
  forall d h xs ts, forward d st0 h xs ∅ = (∅, Ok ts) -> forward d st' h xs ∅ = (∅, Ok ts).
Proof.
  intros E Hn. destruct (swap_plan_spec threshold gap) as [Hnd Ht]. unfold swap_apply.
  destruct (collect_nodes_total d st0 g ∅ Hn) as [reachable ->]. cbn [rbind].
  destruct (schedules_progress reachable (swap_plan threshold gap g st0) [] 0 0 st0 (progress_begin g st0 swap_ids E) Hnd)
    as (st1 & seen & k & -> & P & Hl & Hz); [intros j Hj; split; [by apply Ht|apply not_elem_of_nil]|].
  cbn [rbind]. rewrite Z.add_0_l. destruct k as [|k].
  - rewrite (Hz eq_refl). exists st0, 0%nat. split_and!; try done; lia.
  - destruct (progress_sort g st0 swap_ids seen _ st1 P) as (st' & Es & W' & _ & _ & Hlen & Hf).
    unfold sort_if. replace (Z.of_nat (S k) >? 0) with true by (symmetry; apply Z.gtb_lt; lia). rewrite Es. cbn [rbind].
    exists st', (S k). split_and!; [done|done|done|done|done|]. intros d' h xs ts. by apply Hf.
Qed.

End Loop.
End SwapLoop.
