(* ===== verification/JitRematClient.v ===== *)
(** * Properties of rematerialization and swapping

    Both planners return and keep the results of a graph; with a chain on which
    they fire, and where the new nodes end up after the sort. *)

From stdpp Require Import base list numbers strings gmap.
From S2P Require Import Prelude DType JitOps JitGraph JitFlow JitExec JitMeaning JitWf JitEdit JitSort JitPreserve JitPasses JitDce JitOptimize JitScalar JitMemory JitMemoryClient JitRemat JitInsert JitRematStep JitRematLoop JitSwapLoop.

Module RematClient.
Import Jit Flow Exec Meaning Wf Edit GraphSort Preserve Passes Contract Optimize Check Scalar Memory MemoryClient Remat Insert Redirect Splice RematStep Progress RematLoop SwapStep SwapLoop.

Section Properties.
Context {T : Type} `{!Kernels T, HS : !StdSort}.

(** C30: rematerialization keeps the results.  On a well-formed graph without
    cycles whose recomputable nodes have one output, a name of their own and free
    names for their copies, and with kernels that ignore the mark, the pass
    returns; it adds one node for each value that it counts, at most one for each
    candidate, reports a change exactly when it adds one and otherwise leaves the
    heap alone; the graph is well formed; and every run without a tripped guard
    that gave results gives the same results. *)
Theorem rematerialization_correct `{!RematLaws T} budget ratio depth g (st : Heap T) :
  editable g st -> nested depth st g -> recomputable g st -> exists candidates st' k,
  find_candidates depth ratio g st = Ok candidates /\
  rematerialization depth budget ratio g st = Ok (st', bool_decide (0 < k)%nat, Z.of_nat k) /\
  (k <= length candidates)%nat /\ (k = 0%nat -> st' = st) /\ wf [] st' /\
  length (nodes (graph st' g)) = (length (nodes (graph st g)) + k)%nat /\
  forall d h xs ts, forward d st h xs ∅ = (∅, Ok ts) -> forward d st' h xs ∅ = (∅, Ok ts).
Proof.
  intros E Hn R. destruct (rematerialization_spec g st (ed_wf _ _ E) R budget ratio depth E Hn) as (cs & st' & k & Ef & Er & Hk & Hz & W' & _ & _ & Hl & Hf).
  exists cs, st', k. by split_and!.
Qed.

(** Swapping keeps the results.  On a well-formed graph without cycles in
    which the names of the new values are free, applying the planner's own
    schedules returns; it adds a SwapOut and a SwapIn for each value that it
    counts, at most one pair for each schedule, and leaves the heap alone if there
    is none; the graph is well formed; and every run without a tripped guard that
    gave results gives the same results. *)
Theorem swapping_correct threshold gap depth g (st : Heap T) :
  editable g st -> nested depth st g -> swappable g st -> exists st' k,
  swap_apply depth g (swap_plan threshold gap g st) st = Ok (st', Z.of_nat k) /\
  (k <= length (swap_plan threshold gap g st))%nat /\ (k = 0%nat -> st' = st) /\ wf [] st' /\
  length (nodes (graph st' g)) = (length (nodes (graph st g)) + 2 * k)%nat /\
  forall d h xs ts, forward d st h xs ∅ = (∅, Ok ts) -> forward d st' h xs ∅ = (∅, Ok ts).
Proof. intros E Hn R. exact (swap_apply_spec g st (ed_wf _ _ E) R threshold gap depth E Hn). Qed.

End Properties.

(** ** Deciding what the planners ask for *)

Section Decide.
Context {T : Type}.

Definition position (ns : list Z) (n : Z) : nat := match list_find (fun m => m = n) ns with Some (i, _) => i | None => O end.

Definition below (st : Heap T) (n : Z) : Prop := n < next_ptr st.

Definition below_opt (st : Heap T) (o : option Z) : Prop := match o with Some n => below st n | None => True end.

#[export] Instance below_dec st n : Decision (below st n).
Proof. unfold below. apply _. Defined.
#[export] Instance below_opt_dec st o : Decision (below_opt st o).
Proof. destruct o; cbn; apply _. Defined.

Definition editable_on (g : Z) (st : Heap T) : Prop :=
  wf_on [] st /\
  Forall (below st) (map_to_list (heap_nodes st)).*1 /\ Forall (below st) (map_to_list (heap_graphs st)).*1 /\
  Forall (fun p : Z * Value => below st p.1 /\ Forall (below st) (uses p.2) /\ below_opt st (producer p.2)) (map_to_list (heap_values st)) /\
  Forall (fun p : Z * Graph T => Forall (fun n => Forall (fun v => occ v (inputs (node st n)) <= occ n (uses (value st v))) (inputs (node st n)))
    (nodes p.2)) (map_to_list (heap_graphs st)) /\
  Forall (fun n => Forall (fun p => (position (nodes (graph st g)) p < position (nodes (graph st g)) n)%nat) (producers st n)) (nodes (graph st g)).

#[export] Instance editable_on_dec g st : Decision (editable_on g st).
Proof. unfold editable_on. apply _. Defined.

Lemma below_all {A} (st : Heap T) (m : gmap Z A) k : Forall (below st) (map_to_list m).*1 -> is_Some (m !! k) -> k < next_ptr st.
Proof. intros H [x Hx]. rewrite Forall_forall in H. apply H. apply list_elem_of_fmap. exists (k, x). split; [done|by apply elem_of_map_to_list]. Qed.

Lemma editable_on_editable g (st : Heap T) : editable_on g st -> editable g st.
Proof.
  intros (W & Hn & Hg & Hv & Hc & Hr).
  assert (forall v, heap_values st !! v = None \/ exists x, heap_values st !! v = Some x /\ below st v /\ Forall (below st) (uses x) /\ below_opt st (producer x)) as Hval.
  { intros v. destruct (heap_values st !! v) as [x|] eqn:E; [right; exists x|by left]. split; [done|].
    rewrite Forall_forall in Hv. apply (Hv (v, x)). by apply elem_of_map_to_list. }
  split; [by apply wf_on_wf| | |].
  - split; [intros n; by apply below_all| |intros h; by apply below_all| |].
    + intros v [x Hx]. destruct (Hval v) as [E|(y & E & ? & _)]; [congruence|done].
    + intros v n. unfold value. destruct (Hval v) as [->|(x & -> & _ & Hu & _)]; [by intros ?%not_elem_of_nil|].
      rewrite Forall_forall in Hu. apply Hu.
    + intros v n. unfold value. destruct (Hval v) as [->|(x & -> & _ & _ & Hp)]; [done|]. cbn. intros E. by rewrite E in Hp.
  - intros h n v Hin. destruct (decide (v ∈ inputs (node st n))) as [Hvi|Hvi].
    + revert v Hvi. apply Forall_forall. revert h n Hin. by apply (nodes_forall (fun _ n => Forall _ (inputs (node st n)))).
    + pose proof (occ_nonneg n (uses (value st v))). rewrite occ_pos in Hvi. lia.
  - exists (position (nodes (graph st g))). intros n p Hin. rewrite Forall_forall in Hr. revert p. apply Forall_forall. by apply Hr.
Qed.

Definition free_on (st : Heap T) (g : Z) (k : string) : Prop := values (graph st g) !! k = None /\ ~ leaf_on st (graph st g) k.

#[export] Instance free_on_dec st g k : Decision (free_on st g k).
Proof. unfold free_on. apply _. Defined.

Definition recomputable_on (g : Z) (st : Heap T) : Prop :=
  Forall (fun n => length (outputs (node st n)) = 1%nat /\ free_on st g (remat_id (node st n))) (nodes (graph st g)) /\
  NoDup (map (fun n => name (node st n)) (nodes (graph st g))).

#[export] Instance recomputable_on_dec g st : Decision (recomputable_on g st).
Proof. unfold recomputable_on. apply _. Defined.

Lemma recomputable_on_recomputable g (st : Heap T) : recomputable_on g st -> recomputable g st.
Proof.
  intros [H Hnd]. rewrite Forall_forall in H. split.
  - intros n [Hn _]. destruct (H n Hn) as [Hl _]. destruct (outputs _) as [|v [|? ?]]; [done|by exists v|done].
  - intros n m [[i Hn]%list_elem_of_lookup _] [[j Hm]%list_elem_of_lookup _] E.
    assert (i = j) as ->; [|congruence]. eapply (NoDup_lookup _ i j (name (node st n)) Hnd); apply list_lookup_fmap_Some; [by exists n|by exists m].
  - intros n [Hn _]. by apply H.
Qed.

Definition swappable_on (g : Z) (st : Heap T) : Prop :=
  Forall (fun n => Forall (fun v => Forall (free_on st g) (swap_ids (id (value st v)))) (outputs (node st n))) (nodes (graph st g)).

#[export] Instance swappable_on_dec g st : Decision (swappable_on g st).
Proof. unfold swappable_on. apply _. Defined.

Lemma swappable_on_swappable g (st : Heap T) : swappable_on g st -> swappable g st.
Proof.
  intros H i k (n & v & Hn & Hv & ->) Hk. unfold swappable_on in H. rewrite Forall_forall in H. specialize (H n Hn).
  rewrite Forall_forall in H. specialize (H v Hv). rewrite Forall_forall in H. by apply H.
Qed.

End Decide.

(** ** A chain *)

#[export] Instance remat_laws : RematLaws Z.
Proof. by split. Defined.

Definition gpu : Device := mkDevice CUDA 0.

(** a = -x is read by the last node only: r = a + ||||x||||. *)
Definition chain (dev : Device) : Heap Z :=
  let st := mkHeap ∅ ∅ {[0 := no_graph]} 1 in
  let '(st, x) := create_value 0 "x" [] Int64 cpu st in
  let '(st, a) := append_shaped OpType.Neg [x] "neg" "a" [4] dev st in
  let '(st, b) := append_shaped OpType.Abs [x] "abs1" "b" [] dev st in
  let '(st, c) := append_shaped OpType.Abs [b] "abs2" "c" [] dev st in
  let '(st, d) := append_shaped OpType.Abs [c] "abs3" "d" [] dev st in
  let '(st, e) := append_shaped OpType.Abs [d] "abs4" "e" [] dev st in
  let '(st, r) := append_shaped OpType.Add [a; e] "add" "r" [] dev st in
  upd_graph 0 (fun g => set_outputs [r] (set_inputs [x] g)) st.

Definition node_names (st : Heap Z) : list string := map (fun n => name (node st n)) (nodes (graph st 0)).

Lemma chain_editable dev : dev = cpu \/ dev = gpu -> editable 0 (chain dev).
Proof. intros [-> | ->]; apply editable_on_editable, (bool_decide_unpack _); by vm_compute. Qed.

Lemma chain_nested dev d : dev = cpu \/ dev = gpu -> nested (S d) (chain dev) 0.
Proof.
  intros Hd n h Hn Hh. assert (forall n, n ∈ nodes (graph (chain dev) 0) -> subgraphs (node (chain dev) n) = []) as Hs.
  { apply Forall_forall. destruct Hd as [-> | ->]; apply (bool_decide_unpack _); by vm_compute. }
  rewrite (Hs n Hn) in Hh. by apply not_elem_of_nil in Hh.
Qed.

Lemma chain_recomputable : recomputable 0 (chain cpu).
Proof. apply recomputable_on_recomputable, (bool_decide_unpack _). by vm_compute. Qed.

(** One value is recomputed and the sum stays 0. *)
Lemma rematerialization_correct_witness : exists st', rematerialization 1 0 (double_of 1) 0 (chain cpu) = Ok (st', true, 1) /\
  length (nodes (graph st' 0)) = 7%nat /\ forward 1 st' 0 [5] ∅ = (∅, Ok [0]).
Proof.
  destruct (rematerialization_correct 0 (double_of 1) 1 0 (chain cpu) (chain_editable cpu (or_introl eq_refl))
    (chain_nested cpu 0 (or_introl eq_refl)) chain_recomputable) as (cs & st' & k & _ & E & _ & _ & _ & Hl & Hf).
  assert (rmap snd (rematerialization 1 0 (double_of 1) 0 (chain cpu)) = Ok 1) as Ek by by vm_compute.
  rewrite E in Ek. cbn in Ek. apply Ok_inj in Ek. assert (k = 1%nat) as -> by lia.
  exists st'. split; [exact E|]. split; [rewrite Hl; by vm_compute|]. apply Hf. by vm_compute.
Defined.

Lemma chain_swappable : swappable 0 (chain gpu).
Proof. apply swappable_on_swappable, (bool_decide_unpack _). by vm_compute. Qed.

(** One value on the GPU is swapped and the sum stays 0. *)
Lemma swapping_correct_witness : exists st', swap_apply 1 0 (swap_plan 16 2 0 (chain gpu)) (chain gpu) = Ok (st', 1) /\
  length (nodes (graph st' 0)) = 8%nat /\ forward 1 st' 0 [5] ∅ = (∅, Ok [0]).
Proof.
  destruct (swapping_correct 16 2 1 0 (chain gpu) (chain_editable gpu (or_intror eq_refl))
    (chain_nested gpu 0 (or_intror eq_refl)) chain_swappable) as (st' & k & E & _ & _ & _ & Hl & Hf).
  assert (rmap snd (swap_apply 1 0 (swap_plan 16 2 0 (chain gpu)) (chain gpu)) = Ok 1) as Ek by by vm_compute.
  rewrite E in Ek. cbn in Ek. apply Ok_inj in Ek. assert (k = 1%nat) as -> by lia.
  exists st'. split; [exact E|]. split; [rewrite Hl; by vm_compute|]. apply Hf. by vm_compute.
Defined.

(** ** Where the new nodes end up *)

(** The copy is meant to run just before the last consumer.  Its inputs are those
    of the producer, and the sort that ends the pass takes a node as soon as its
    inputs are there: the copy runs next to the original, and what replaces the
    value lives as long as the value did. *)
Example remat_is_early : match rematerialization 1 0 (double_of 1) 0 (chain cpu) with
  | Ok (st, _, _) => node_names st = ["neg"; "abs1"; "neg_remat"; "abs2"; "abs3"; "abs4"; "add"]
  | Err _ => False
  end.
Proof. by vm_compute. Qed.

(** SwapIn is meant to run before the last consumer; it runs soon after SwapOut. *)
Example swap_in_is_early : match swap_apply 1 0 (swap_plan 16 2 0 (chain gpu)) (chain gpu) with
  | Ok (st, _) => node_names st = ["neg"; "abs1"; "swap_out_a"; "abs2"; "swap_in_a"; "abs3"; "abs4"; "add"]
  | Err _ => False
  end.
Proof. by vm_compute. Qed.

End RematClient.
