(* ===== verification/JitCompile.v ===== *)
(** * The whole of [Compiler::optimize]

    The passes and the sort of JitPasses.v, then rematerialization if it is
    enabled, then memory planning if it is enabled or the graph is large. *)

From stdpp Require Import base list numbers strings gmap.
From S2P Require Import Prelude DType JitOps JitGraph JitFlow JitExec JitMeaning JitWf JitEdit JitSort JitPreserve JitPasses JitDce JitCse JitOptimize JitAlgebra JitReshape JitScalar JitClient JitMemory JitMemoryPlan JitMemoryClient JitRemat JitInsert JitRematStep JitRematLoop JitRematClient.

Module Compile.
Import Jit Flow Exec Meaning Wf Edit GraphSort Preserve Passes Contract Dce Cse Optimize Algebra Reshape Check Scalar JitClient Memory MemoryPlanning MemoryClient Remat Insert Splice RematStep Progress RematLoop RematClient.

(** The fields of [Compiler] that [optimize] reads or sets, but the passes. *)
Record Compiler := mkCompiler {
  enable_memory_planning : bool; memory_planning_explicit : bool; memory_planning_threshold : Z;
  enable_rematerialization : bool; rematerialization_budget : Z; rematerialization_min_cost_ratio : double;
  memory_plan : MemoryPlan; num_rematerialized : Z
}.

Definition new_compiler : Compiler := mkCompiler false false 50 false 0 (double_of 1) empty_plan 0.

Definition set_memory_planning (enable : bool) (c : Compiler) : Compiler :=
  mkCompiler enable true (memory_planning_threshold c) (enable_rematerialization c) (rematerialization_budget c)
    (rematerialization_min_cost_ratio c) (memory_plan c) (num_rematerialized c).

Definition set_rematerialization (enable : bool) (c : Compiler) : Compiler :=
  mkCompiler (enable_memory_planning c) (memory_planning_explicit c) (memory_planning_threshold c) enable
    (rematerialization_budget c) (rematerialization_min_cost_ratio c) (memory_plan c) (num_rematerialized c).

Definition set_results (p : MemoryPlan) (n : Z) (c : Compiler) : Compiler :=
  mkCompiler (enable_memory_planning c) (memory_planning_explicit c) (memory_planning_threshold c) (enable_rematerialization c)
    (rematerialization_budget c) (rematerialization_min_cost_ratio c) p n.

Definition should_plan (c : Compiler) (num_nodes : Z) : bool :=
  if memory_planning_explicit c then enable_memory_planning c else num_nodes >=? memory_planning_threshold c.

Section Compile.
Context {T : Type} `{HS : !StdSort, HU : !Unordered}.

(** The heap, what is added to the changes, and the count that is kept. *)
Definition remat_phase (depth : nat) (c : Compiler) (g : Z) (st : Heap T) : result (Heap T * Z * Z) :=
  if enable_rematerialization c then
    let* '(st, changed, n) := rematerialization depth (rematerialization_budget c) (rematerialization_min_cost_ratio c) g st in
    Ok (st, if changed : bool then sgn 32 n else 0, n)
  else Ok (st, 0, 0).

(** The plan stays as it was if none is made. *)
Definition plan_phase (depth : nat) (c : Compiler) (g : Z) (st : Heap T) : result (Heap T * MemoryPlan) :=
  if should_plan c (lenZ (nodes (graph st g))) then plan_memory depth g st else Ok (st, memory_plan c).

Definition compile (passes : list (Pass (T := T))) (max_iterations depth : nat) (c : Compiler) (g : Z) (st : Heap T)
    : result (Heap T * Compiler * Z) :=
  let* '(st, total) := optimize passes max_iterations g st in
  let* '(st, changes, n) := remat_phase (S depth) c g st in
  let* '(st, p) := plan_phase depth c g st in
  Ok (st, set_results p n c, total + changes).

Context `{!Kernels T}.

Lemma ordered_graded g (st : Heap T) : wf [] st -> ordered (program st g) -> exists rank, graded st (nodes (graph st g)) rank.
Proof. intros W Ho. apply in_order_graded; [apply (w_nodup _ _ W)|by apply (ordered_in_order W)]. Qed.

(** What a phase after the passes promises. *)
Definition phase_ok (d : nat) (g : Z) (st st' : Heap T) : Prop :=
  wf [] st' /\ ordered (program st' g) /\ nested (S d) st' g /\
  forall depth h xs ts, forward depth st h xs ∅ = (∅, Ok ts) -> forward depth st' h xs ∅ = (∅, Ok ts).

Lemma remat_phase_ok `{!RematLaws T} d c g (st : Heap T) : good [] g st -> nested (S d) st g ->
  (enable_rematerialization c = true -> allocated st /\ counted st /\ recomputable g st) ->
  exists st' changes n, remat_phase (S d) c g st = Ok (st', changes, n) /\ phase_ok d g st st' /\
    (enable_rematerialization c = false -> st' = st /\ n = 0) /\ 0 <= n.
Proof.
  intros G Hn Hr. pose proof (good_wf _ _ _ G) as W. unfold remat_phase.
  destruct (enable_rematerialization c) eqn:Ec.
  2: { exists st, 0, 0. split_and!; [done|split_and!; [done|apply G|done|done]|done|done]. }
  destruct (Hr eq_refl) as (A & C & R).
  assert (editable g st) as E by (split; [done|done|done|apply ordered_graded; [done|apply G]]).
  destruct (rematerialization_spec g st W R (rematerialization_budget c) (rematerialization_min_cost_ratio c) (S d) E Hn)
    as (cs & st' & k & _ & -> & _ & Hz & W' & Ho & Hnest & _ & Hf). cbn [rbind].
  exists st'. eexists _, _. split; [done|]. split_and!; [|done|lia]. split_and!; [done| |apply Hnest; [apply G|done]|done].
  destruct (decide (k = 0%nat)) as [->|Hk]; [rewrite Hz by done; apply G|by apply Ho].
Qed.

Lemma buffered_nested d (st st' : Heap T) h : buffered st st' -> nested d st h -> nested d st' h.
Proof.
  intros B. revert h. induction d as [|d IH]; intros h Hh; [done|]. intros m h' Hm Hh'.
  rewrite (bf_graph B) in Hm. rewrite (bf_node B) in Hh'. apply IH. by eapply Hh.
Qed.

Lemma plan_phase_ok d c g (st : Heap T) : wf [] st -> ordered (program st g) -> nested (S d) st g ->
  exists st' p, plan_phase d c g st = Ok (st', p) /\ phase_ok d g st st'.
Proof.
  intros W Ho Hn. unfold plan_phase. destruct (should_plan _ _); [|by exists st, (memory_plan c)].
  destruct (ordered_graded g st W Ho) as [rank Hr]. destruct (topological_sort_graded W g rank Hr) as [st1 E1].
  destruct (memory_plan_spec [] st st1 g default_alignment d W E1 Hn) as (st' & p & lrs & slots & Ep & -> & _).
  unfold plan_memory, memory_planning. change (set_alignment default_alignment) with (Ok default_alignment). cbn [rbind].
  rewrite Ep. cbn [rbind]. eexists _, p. split; [done|].
  destruct (sort_annotated [] st st1 g (entries (value_allocations p)) W E1) as (W' & B & Hs & Ho' & _).
  split_and!; [done|done| |intros depth h xs ts; by apply refines_forward].
  apply (buffered_nested _ st1 _ _ B). eapply nested_shrinks; [apply (sort_shrinks W g st1 E1)|done].
Qed.

(** C8: [Compiler::optimize] in full, with any sound passes, any number of
    iterations and any options, on a graph in order: it returns; the graph is well
    formed and in order; the plan is the one that the planner makes of the graph
    when planning is enabled or the graph is large enough, and the old one
    otherwise; nothing is rematerialized unless it is enabled; and every run of
    the original with the declared shapes and types has the same results.
    Rematerialization asks of the optimized graph what it asks of any. *)
Theorem compile_preserves_results `{!Regular T, !RematLaws T} (passes : list (Pass (T := T))) k d c g (st : Heap T) :
  (forall p, p ∈ passes -> SoundPass p /\ TotalPass (S d) p) -> good [] g st -> nested (S d) st g ->
  (enable_rematerialization c = true -> forall st1 n, optimize passes k g st = Ok (st1, n) ->
     allocated st1 /\ counted st1 /\ recomputable g st1) ->
  exists st' c' n, compile passes k d c g st = Ok (st', c', n) /\ wf [] st' /\ ordered (program st' g) /\
    (exists st2, wf [] st2 /\ nested (S d) st2 g /\
       if should_plan c (lenZ (nodes (graph st2 g))) then plan_memory d g st2 = Ok (st', memory_plan c')
       else st' = st2 /\ memory_plan c' = memory_plan c) /\
    (enable_rematerialization c = false -> num_rematerialized c' = 0) /\
    forall depth xs env ts, conforms st g env -> runs depth st g xs env ts -> forward (S depth) st' g xs ∅ = (∅, Ok ts).
Proof.
  intros Hp G Hn Hr. assert (forall p, p ∈ passes -> SoundPass p) as Hs by by intros p [? _]%Hp.
  destruct (optimize_total passes Hs (S d) (fun p H => proj2 (Hp p H)) g k st G Hn) as [[st1 n1] E1].
  destruct (optimize_sound passes Hs g k st st1 n1 G E1) as (G1 & S1 & R1).
  destruct (remat_phase_ok d c g st1 G1 (nested_shrinks _ _ _ g S1 Hn) (fun H => Hr H st1 n1 E1))
    as (st2 & ch & n2 & E2 & (W2 & O2 & N2 & F2) & Hoff & _).
  destruct (plan_phase_ok d c g st2 W2 O2 N2) as (st3 & p & E3 & (W3 & O3 & _ & F3)).
  exists st3, (set_results p n2 c), (n1 + ch). unfold compile. rewrite E1. cbn [rbind]. rewrite E2. cbn [rbind]. rewrite E3. cbn [rbind].
  split_and!; [done|done|done| |by intros [_ ?]%Hoff|].
  - exists st2. split_and!; [done|done|]. unfold plan_phase in E3. destruct (should_plan _ _); [done|]. by injection E3 as -> ->.
  - intros depth xs env ts Hc Hrun. destruct (R1 depth xs env ts Hc Hrun) as (env' & Hr' & _).
    apply F3, F2, forward_runs. by exists env'.
Qed.

End Compile.

(** ** The graph of JitScalar.v with everything enabled *)

Definition all_on : Compiler := set_memory_planning true (set_rematerialization true new_compiler).

Lemma compile_preserves_results_witness : exists st' c' n, compile (passes 2) 5 1 all_on 0 example = Ok (st', c', n) /\
  forward 2 st' 0 [5] ∅ = (∅, Ok [-10]).
Proof.
  destruct (compile_preserves_results (passes 2) 5 1 all_on 0 example) as (st' & c' & n & E & _ & _ & _ & _ & H).
  - intros p Hp. repeat (apply elem_of_cons in Hp as [->|Hp]; [split; apply _|]). by apply elem_of_nil in Hp.
  - exact example_good.
  - exact (example_nested 1 0).
  - intros _ st1 n E.
    assert (match optimize (passes 2) 5 0 example with
      | Ok (st, _) => bool_decide (editable_on 0 st) && bool_decide (recomputable_on 0 st) | Err _ => false end = true) as Hb by by vm_compute.
    rewrite E in Hb. apply andb_true_iff in Hb as [He%bool_decide_eq_true Hr%bool_decide_eq_true].
    apply editable_on_editable in He. split_and!; [apply He|apply He|by apply recomputable_on_recomputable].
  - exists st', c', n. split; [exact E|]. destruct example_runs as [env Hr].
    exact (H 1%nat [5] env [-10] (example_conforms env) Hr).
Defined.

End Compile.
