(* ===== verification/Tensor.v ===== *)
(** * Tensors and their views

    [TensorImpl] of include/tenzor/core/tensor.hpp and the methods of
    src/core/tensor.cpp that create views of a storage or test its layout, with
    the functions of src/ops/transform.cpp and src/ops/indexing.cpp built on
    them.  A storage is the list of its bytes, named by its position in the
    memory; storages are not freed, so the pointers that keep them and the base
    of a view alive are left out, as are the caches of derived properties (a
    copy of a [TensorImpl] starts with empty ones) and the version counter.
    Null handles, on which every method throws first, are left out too. *)

From stdpp Require Import base list numbers strings.
From S2P Require Import Prelude Shape DType.

Module Tensor.

(** A byte, [None] before anything was written to it. *)
Notation Byte := (option Z).
Notation Storage := (list (option Z)).
Notation Mem := (list (list (option Z))).

(** A dimension name; [None] is the wildcard. *)
Definition Dimname : Type := option string.
#[global] Typeclasses Transparent Dimname.

(** [q_scales_] holds the bit patterns of its doubles. *)
Record TensorImpl := mkTensor {
  storage : nat; shape : list Z; strides : list Z; offset : Z; dtype : DType;
  requires_grad : bool; names_ : option (list Dimname); q_scales_ : option (list Z); q_axis_ : Z
}.

#[export] Instance TensorImpl_eq_dec : EqDecision TensorImpl.
Proof. solve_decision. Defined.

(** The copy constructor followed by new values for what a view changes. *)
Definition with_geometry (sh st : list Z) (off : Z) (t : TensorImpl) : TensorImpl :=
  mkTensor (storage t) sh st off (dtype t) (requires_grad t) (names_ t) (q_scales_ t) (q_axis_ t).
Definition with_names (ns : option (list Dimname)) (t : TensorImpl) : TensorImpl :=
  mkTensor (storage t) (shape t) (strides t) (offset t) (dtype t) (requires_grad t) ns (q_scales_ t) (q_axis_ t).
Definition with_q_axis (a : Z) (t : TensorImpl) : TensorImpl :=
  mkTensor (storage t) (shape t) (strides t) (offset t) (dtype t) (requires_grad t) (names_ t) (q_scales_ t) a.
Definition with_requires_grad (b : bool) (t : TensorImpl) : TensorImpl :=
  mkTensor (storage t) (shape t) (strides t) (offset t) (dtype t) b (names_ t) (q_scales_ t) (q_axis_ t).

(** ** Vectors *)

(** [l[i]] for an index that was checked. *)
Definition nthZ (l : list Z) (i : Z) : Z := default 0 (l !! Z.to_nat i).

Definition insert_at {A} (i : Z) (x : A) (l : list A) : list A :=
  take (Z.to_nat i) l ++ x :: drop (Z.to_nat i) l.
Definition erase_at {A} (i : Z) (l : list A) : list A :=
  take (Z.to_nat i) l ++ drop (S (Z.to_nat i)) l.
Definition swap_at (i j : Z) (l : list Z) : list Z :=
  <[Z.to_nat i := nthZ l j]> (<[Z.to_nat j := nthZ l i]> l).

(** ** Sizes and layout *)

Definition ndim (t : TensorImpl) : Z := lenZ (shape t).

Definition size_overflow : exn := OverflowError "Tensor size overflow: shape produces more than INT64_MAX elements".

Definition numel_of (e : exn) (shape : list Z) : result Z :=
  rfoldM (fun result dim =>
    let* _ := throw_if (negb (dim =? 0) && (safe_abs result >? Z.quot INT64_MAX (safe_abs dim))) e in
    i64 (result * dim)) shape 1.

Definition numel (t : TensorImpl) : result Z := numel_of size_overflow (shape t).

(** [is_contiguous] is noexcept, so an overflow in the expected strides ends
    the process. *)
Definition noexcept {A} (m : result A) : result A :=
  match m with Ok a => Ok a | Err _ => Err Terminated end.

Definition has_strides (t : TensorImpl) (expected : result (list Z)) : result bool :=
  noexcept (rmap (fun e => bool_decide (strides t = e)) expected).

Definition is_contiguous (t : TensorImpl) : result bool := has_strides t (TShape.compute_strides (shape t)).

Inductive MemoryFormat : Set := Contiguous | ChannelsLast | ChannelsLast3d | Preserve.
#[export] Instance MemoryFormat_eq_dec : EqDecision MemoryFormat.
Proof. solve_decision. Defined.

Definition memory_format (t : TensorImpl) : result MemoryFormat :=
  if (lenZ (shape t) =? 4) then
    rmap (fun b : bool => if b then ChannelsLast else Contiguous)
      (has_strides t (TShape.compute_channels_last_strides (shape t)))
  else if (lenZ (shape t) =? 5) then
    rmap (fun b : bool => if b then ChannelsLast3d else Contiguous)
      (has_strides t (TShape.compute_channels_last_3d_strides (shape t)))
  else Ok Contiguous.

Definition is_contiguous_in (t : TensorImpl) (format : MemoryFormat) : result bool :=
  match format with
  | Contiguous => has_strides t (TShape.compute_strides (shape t))
  | ChannelsLast =>
      if negb (lenZ (shape t) =? 4) then Ok false
      else has_strides t (TShape.compute_channels_last_strides (shape t))
  | ChannelsLast3d =>
      if negb (lenZ (shape t) =? 5) then Ok false
      else has_strides t (TShape.compute_channels_last_3d_strides (shape t))
  | Preserve =>
      let* b := is_contiguous t in
      if b then Ok true
      else if negb (lenZ (shape t) =? 4) then Ok false
      else has_strides t (TShape.compute_channels_last_strides (shape t))
  end.

(** [storage->size_bytes()] and the number of elements it holds. *)
Definition size_bytes (m : Mem) (s : nat) : Z := lenZ (default [] (m !! s)).
Definition storage_elements (m : Mem) (t : TensorImpl) : Z :=
  Z.quot (size_bytes m (storage t)) (dtype_size (dtype t)).

(** ** Views with another shape *)

(** The loop over [new_shape]: the position of the -1 and the product of the
    other dimensions, which is not checked for overflow. *)
Definition scan_shape (new_shape : list Z) : result (Z * Z) :=
  rfoldM (fun '(infer_dim, total) '(i, d) =>
    if d =? -1 then
      let* _ := throw_if (negb (infer_dim =? -1)) (RuntimeError "Only one dimension can be inferred") in
      Ok (i, total)
    else if d <? 0 then Err (RuntimeError "Invalid shape dimension: ")
    else let* total := i64 (total * d) in Ok (infer_dim, total))
    (imap (fun i d => (Z.of_nat i, d)) new_shape) (-1, 1).

(** The shape with its inferred dimension; [mismatch] is thrown when the
    number of elements differs. *)
Definition resolve_shape (mismatch : exn) (t : TensorImpl) (new_shape : list Z) : result (list Z) :=
  let* '(infer_dim, total) := scan_shape new_shape in
  if negb (infer_dim =? -1) then
    let* _ := throw_if (total =? 0) (RuntimeError "Cannot infer dimension: product of known dimensions is zero") in
    let* n := numel t in
    let* _ := throw_if (negb (Z.rem n total =? 0)) (RuntimeError "Cannot infer dimension") in
    Ok (<[Z.to_nat infer_dim := Z.quot n total]> new_shape)
  else
    let* n := numel t in
    let* _ := throw_if (negb (total =? n)) mismatch in
    Ok new_shape.

Definition per_channel (t : TensorImpl) : bool := bool_decide (is_Some (q_scales_ t)).

Definition view (t : TensorImpl) (new_shape : list Z) : result TensorImpl :=
  let* _ := throw_if (per_channel t) (RuntimeError "view: cannot view a per-channel quantized tensor (the per-channel quantization axis cannot be tracked)") in
  let* c := is_contiguous t in
  let* _ := throw_if (negb c) (RuntimeError "View requires contiguous tensor. Use reshape() or contiguous() first.") in
  let* sh := resolve_shape (RuntimeError "View shape incompatible with number of elements") t new_shape in
  let* st := TShape.compute_strides sh in
  Ok (with_geometry sh st (offset t) t).

Definition detach (t : TensorImpl) : TensorImpl := with_requires_grad false t.

(** ** Views with permuted dimensions *)

Definition norm_dim (n dim : Z) : Z := if dim <? 0 then dim + n else dim.
Definition in_dims (n dim : Z) : bool := (0 <=? dim) && (dim <? n).

Definition swap_axis (dim0 dim1 a : Z) : Z := if a =? dim0 then dim1 else if a =? dim1 then dim0 else a.

Definition transpose (t : TensorImpl) (dim0 dim1 : Z) : result TensorImpl :=
  let dim0 := norm_dim (ndim t) dim0 in
  let dim1 := norm_dim (ndim t) dim1 in
  let* _ := throw_if (negb (in_dims (ndim t) dim0 && in_dims (ndim t) dim1))
              (OutOfRange "Dimension out of range for transpose") in
  let r := with_geometry (swap_at dim0 dim1 (shape t)) (swap_at dim0 dim1 (strides t)) (offset t) t in
  Ok (if per_channel t then with_q_axis (swap_axis dim0 dim1 (q_axis_ t)) r else r).

(** The normalised dimensions, each of which may occur once. *)
Definition normalize_dims (n : Z) (dims : list Z) : result (list Z) :=
  rfoldM (fun seen dim =>
    let dim := norm_dim n dim in
    let* _ := throw_if (negb (in_dims n dim)) (InvalidArgument "Dimension out of range in permutation") in
    let* _ := throw_if (bool_decide (dim ∈ seen)) (InvalidArgument "Duplicate dimension in permutation") in
    Ok (seen ++ [dim])) dims [].

(** The position of [a], which stays what it is if it is not there. *)
Definition position (a : Z) (dims : list Z) : Z :=
  match list_find (fun d => d = a) dims with Some (i, _) => Z.of_nat i | None => a end.

Definition permute (t : TensorImpl) (dims : list Z) : result TensorImpl :=
  let* _ := throw_if (negb (lenZ dims =? ndim t))
              (InvalidArgument "Permutation must have same number of dimensions as tensor") in
  let* dims := normalize_dims (ndim t) dims in
  let r := with_geometry (map (nthZ (shape t)) dims) (map (nthZ (strides t)) dims) (offset t) t in
  Ok (if per_channel t then with_q_axis (position (q_axis_ t) dims) r else r).

(** The loop that fills the destinations that are not taken with the sources
    that are not, in order; [src_idx] runs past used sources. *)
Fixpoint next_unused (fuel : nat) (n : Z) (used : list Z) (src_idx : Z) : Z :=
  match fuel with
  | O => src_idx
  | S fuel =>
      if (src_idx <? n) && bool_decide (src_idx ∈ used) then next_unused fuel n used (src_idx + 1) else src_idx
  end.

Definition movedim_perm (n : Z) (source destination : list Z) : list Z :=
  let perm := foldl (fun perm p => <[Z.to_nat p.2 := p.1]> perm) (replicate (Z.to_nat n) (-1))
                (zip source destination) in
  (foldl (fun '(perm, src_idx) i =>
     if bool_decide (Z.of_nat i ∈ destination) then (perm, src_idx)
     else let src_idx := next_unused (Z.to_nat n) n source src_idx in (<[i := src_idx]> perm, src_idx + 1))
     (perm, 0) (seq 0 (Z.to_nat n))).1.

Definition movedim (t : TensorImpl) (source destination : list Z) : result TensorImpl :=
  let* _ := throw_if (negb (lenZ source =? lenZ destination))
              (InvalidArgument "movedim: source and destination must have the same length") in
  let source := map (norm_dim (ndim t)) source in
  let destination := map (norm_dim (ndim t)) destination in
  let* _ := throw_if (negb (forallb (in_dims (ndim t)) source)) (InvalidArgument "movedim: source dim out of range [0, ") in
  let* _ := throw_if (negb (forallb (in_dims (ndim t)) destination))
              (InvalidArgument "movedim: destination dim out of range [0, ") in
  permute t (movedim_perm (ndim t) source destination).

(** ** Views with fewer or more dimensions *)

Definition squeeze (t : TensorImpl) (dim : Z) : result TensorImpl :=
  let d := norm_dim (ndim t) dim in
  let* _ := throw_if (negb (in_dims (ndim t) d)) (OutOfRange "Dimension out of range for squeeze") in
  if negb (nthZ (shape t) d =? 1) then Ok t
  else
    let r := with_geometry (erase_at d (shape t)) (erase_at d (strides t)) (offset t) t in
    let r := with_names (match names_ t with
                         | Some ns => if lenZ ns >? d then Some (erase_at d ns) else Some ns
                         | None => None
                         end) r in
    if per_channel t then
      let* _ := throw_if (d =? q_axis_ t) (RuntimeError "squeeze: cannot squeeze the per-channel quantization axis (axis ") in
      Ok (with_q_axis (if q_axis_ t >? d then q_axis_ t - 1 else q_axis_ t) r)
    else Ok r.

(** What is left of a list along the dimensions that are not 1. *)
Definition keep_dims {A} (shape : list Z) (l : list A) : list A :=
  map snd (filter (fun p => p.1 <> 1) (zip shape l)).

Definition squeeze_all (t : TensorImpl) : result TensorImpl :=
  let r := with_geometry (keep_dims (shape t) (shape t)) (keep_dims (shape t) (strides t)) (offset t) t in
  let r := with_names (match names_ t with
                       | Some ns => if lenZ ns =? ndim t then Some (keep_dims (shape t) ns) else Some ns
                       | None => None
                       end) r in
  if per_channel t then
    let old_axis := q_axis_ t in
    let* _ := throw_if ((old_axis <? 0) || (old_axis >=? ndim t) || (nthZ (shape t) old_axis =? 1))
                (RuntimeError "squeeze: cannot squeeze the per-channel quantization axis") in
    Ok (with_q_axis (lenZ (keep_dims (shape t) (take (Z.to_nat old_axis) (shape t)))) r)
  else Ok r.

Definition unsqueeze (t : TensorImpl) (dim : Z) : result TensorImpl :=
  let new_ndims := ndim t + 1 in
  let dim := norm_dim new_ndims dim in
  let* _ := throw_if (negb (in_dims new_ndims dim)) (OutOfRange "Dimension out of range for unsqueeze") in
  let* c := is_contiguous t in
  let* new_stride :=
    if negb (dim <? ndim t) then Ok 1
    else if c then i64 (nthZ (strides t) dim * nthZ (shape t) dim)
    else Ok (nthZ (strides t) dim) in
  let r := with_geometry (insert_at dim 1 (shape t)) (insert_at dim new_stride (strides t)) (offset t) t in
  let r := with_names (match names_ t with
                       | Some ns => if lenZ ns =? ndim t then Some (insert_at dim None ns) else Some ns
                       | None => None
                       end) r in
  Ok (if per_channel t && (q_axis_ t >=? dim) then with_q_axis (q_axis_ t + 1) r else r).

(** ** Slices *)

(** [min_offset] and [max_offset] over the dimensions, with overflow checks. *)
Definition slice_overflow : exn := OverflowError "Slice offset computation overflows int64_t".

Definition slice_range (shape strides : list Z) (off : Z) : result (Z * Z) :=
  rfoldM (fun '(min_offset, max_offset) '(d, stride) =>
    if negb (d >? 0) then Ok (min_offset, max_offset)
    else
      let extent := d - 1 in
      let* _ := throw_if (negb (stride =? 0) && (extent >? Z.quot INT64_MAX (safe_abs stride))) slice_overflow in
      let* delta := i64 (extent * stride) in
      if delta >=? 0 then
        let* _ := throw_if (max_offset >? INT64_MAX - delta) slice_overflow in
        Ok (min_offset, max_offset + delta)
      else
        let* _ := throw_if (min_offset <? INT64_MIN - delta) slice_overflow in
        Ok (min_offset + delta, max_offset)) (zip shape strides) (off, off).

Definition slice (m : Mem) (t : TensorImpl) (dim start end_ step : Z) : result TensorImpl :=
  let dim := norm_dim (ndim t) dim in
  let* _ := throw_if (negb (in_dims (ndim t) dim)) (RuntimeError "Dimension out of range for slice") in
  let dim_size := nthZ (shape t) dim in
  let start := norm_dim dim_size start in
  let end_ := norm_dim dim_size end_ in
  let* _ := throw_if ((start <? 0) || (start >? dim_size)) (RuntimeError "Slice start index ") in
  let* _ := throw_if ((end_ <? 0) || (end_ >? dim_size)) (RuntimeError "Slice end index ") in
  let* _ := throw_if (start >? end_) (RuntimeError "Slice start index ") in
  let* _ := throw_if (step <=? 0) (RuntimeError "Step must be positive") in
  let* sum := i64 (end_ - start + step) in
  let new_dim_size := Z.quot (sum - 1) step in
  let* delta := checked_mul start (nthZ (strides t) dim) in
  let* off := checked_add (offset t) delta in
  let* stride := if negb (step =? 1) then i64 (nthZ (strides t) dim * step) else Ok (nthZ (strides t) dim) in
  let sh := <[Z.to_nat dim := new_dim_size]> (shape t) in
  let st := <[Z.to_nat dim := stride]> (strides t) in
  let* '(min_offset, max_offset) := slice_range sh st off in
  let* result_numel := rfoldM (fun r d => i64 (r * d)) sh 1 in
  let* _ := throw_if ((result_numel >? 0) && ((min_offset <? 0) || (max_offset >=? storage_elements m t)))
              (OutOfRange "Slice offset exceeds storage bounds") in
  Ok (with_geometry sh st off t).

(** [operator[]]. *)
Definition index (m : Mem) (t : TensorImpl) (idx : Z) : result TensorImpl :=
  let* _ := throw_if (ndim t =? 0) (RuntimeError "Cannot index 0D scalar tensor") in
  let dim0_size := nthZ (shape t) 0 in
  let normalized_idx := norm_dim dim0_size idx in
  let* _ := throw_if ((normalized_idx <? 0) || (normalized_idx >=? dim0_size)) (RuntimeError "Index ") in
  let* r := slice m t 0 normalized_idx (normalized_idx + 1) 1 in
  squeeze r 0.

Definition select (m : Mem) (t : TensorImpl) (dim idx : Z) : result TensorImpl :=
  let dim := norm_dim (ndim t) dim in
  let* _ := throw_if (negb (in_dims (ndim t) dim)) (IndexError "Dimension out of range for select") in
  let dim_size := nthZ (shape t) dim in
  let idx := norm_dim dim_size idx in
  let* _ := throw_if ((idx <? 0) || (idx >=? dim_size)) (IndexError "Index out of range for select: index=") in
  let* sliced := slice m t dim idx (idx + 1) 1 in
  squeeze sliced dim.

Definition narrow (m : Mem) (t : TensorImpl) (dim start length : Z) : result TensorImpl :=
  let dim := norm_dim (ndim t) dim in
  let* _ := throw_if (negb (in_dims (ndim t) dim)) (IndexError "Dimension out of range for narrow") in
  let bad := IndexError "narrow: start (" in
  let* _ := throw_if ((start <? 0) || (length <? 0)) bad in
  let* stop := i64 (start + length) in
  let* _ := throw_if (stop >? nthZ (shape t) dim) bad in
  slice m t dim start stop 1.

(** The pieces of [split], [chunk] and [tensor_split], until [start] reaches
    the end. *)
Definition pieces (m : Mem) (t : TensorImpl) (dim count size : Z) : result (list TensorImpl) :=
  let dim_size := nthZ (shape t) dim in
  rmapM (fun start => slice m t dim start (Z.min (start + size) dim_size) 1)
    (filter (fun start => start < dim_size) (map (fun i => Z.of_nat i * size) (seq 0 (Z.to_nat count)))).

Definition split (m : Mem) (t : TensorImpl) (split_size dim : Z) : result (list TensorImpl) :=
  let* _ := throw_if (split_size <=? 0) (InvalidArgument "Split size must be positive") in
  let dim := norm_dim (ndim t) dim in
  let* _ := throw_if (negb (in_dims (ndim t) dim)) (InvalidArgument "Dimension out of range for split") in
  let* sum := i64 (nthZ (shape t) dim + split_size) in
  pieces m t dim (Z.quot (sum - 1) split_size) split_size.

Definition chunk (m : Mem) (t : TensorImpl) (chunks dim : Z) : result (list TensorImpl) :=
  let* _ := throw_if (chunks <=? 0) (InvalidArgument "Number of chunks must be positive") in
  let dim := norm_dim (ndim t) dim in
  let* _ := throw_if (negb (in_dims (ndim t) dim)) (InvalidArgument "Dimension out of range for chunk") in
  let* sum := i64 (nthZ (shape t) dim + chunks) in
  pieces m t dim chunks (Z.quot (sum - 1) chunks).

Definition split_with_sizes (m : Mem) (t : TensorImpl) (split_sizes : list Z) (dim : Z) : result (list TensorImpl) :=
  let dim := norm_dim (ndim t) dim in
  let* _ := throw_if (negb (in_dims (ndim t) dim)) (InvalidArgument "Dimension out of range for split_with_sizes") in
  let* total := rfoldM (fun total s =>
    let* _ := throw_if (s <? 0) (InvalidArgument "split_with_sizes: sizes must be non-negative") in
    i64 (total + s)) split_sizes 0 in
  let* _ := throw_if (negb (total =? nthZ (shape t) dim))
              (InvalidArgument "split_with_sizes: sizes must sum to dimension size (") in
  rmap snd (rfoldM (fun '(off, result) s =>
    let* r := slice m t dim off (off + s) 1 in Ok (off + s, result ++ [r])) split_sizes (0, [])).

Definition unbind (m : Mem) (t : TensorImpl) (dim : Z) : result (list TensorImpl) :=
  let dim := norm_dim (ndim t) dim in
  let* _ := throw_if (negb (in_dims (ndim t) dim)) (OutOfRange "unbind: dim out of range") in
  rmapM (fun i => let* s := slice m t dim (Z.of_nat i) (Z.of_nat i + 1) 1 in squeeze s dim)
    (seq 0 (Z.to_nat (nthZ (shape t) dim))).

(** ** Views with given strides *)

(** The lowest and highest element index, and whether a dimension is empty;
    the arithmetic is not checked. *)
Definition strided_range (size stride : list Z) (off : Z) : result (Z * Z * bool) :=
  rfoldM (fun '(min_index, max_index, empty) '(n, s) =>
    let* _ := throw_if (n <? 0) (OutOfRange "as_strided: sizes must be non-negative (got ") in
    if n =? 0 then Ok (min_index, max_index, true)
    else
      let* extent := i64 ((n - 1) * s) in
      if extent >=? 0 then let* max_index := i64 (max_index + extent) in Ok (min_index, max_index, empty)
      else let* min_index := i64 (min_index + extent) in Ok (min_index, max_index, empty))
    (zip size stride) (off, off, false).

Definition as_strided (m : Mem) (t : TensorImpl) (size stride : list Z) (storage_offset : option Z)
    : result TensorImpl :=
  let* _ := throw_if (negb (lenZ size =? lenZ stride))
              (InvalidArgument "as_strided: size and stride must have the same length (got ") in
  let off := default (offset t) storage_offset in
  let* _ := throw_if (off <? 0) (OutOfRange "as_strided: storage_offset must be non-negative (got ") in
  let* '(min_index, max_index, empty) := strided_range size stride off in
  let* _ := throw_if (negb empty && ((min_index <? 0) || (wrap 64 max_index >=? storage_elements m t)))
              (OutOfRange "as_strided: requested view spans elements [") in
  Ok (with_geometry size stride off t).

Definition unfold (m : Mem) (t : TensorImpl) (dim size step : Z) : result TensorImpl :=
  let dim := norm_dim (ndim t) dim in
  let* _ := throw_if (negb (in_dims (ndim t) dim)) (OutOfRange "unfold: dim ") in
  let dim_size := nthZ (shape t) dim in
  let* _ := throw_if ((size <=? 0) || (size >? dim_size)) (InvalidArgument "unfold: size must be in (0, ") in
  let* _ := throw_if (step <=? 0) (InvalidArgument "unfold: step must be > 0") in
  let num_windows := Z.quot (dim_size - size) step + 1 in
  let old_stride_dim := nthZ (strides t) dim in
  let* new_stride := i64 (old_stride_dim * step) in
  as_strided m t (<[Z.to_nat dim := num_windows]> (shape t) ++ [size])
    (<[Z.to_nat dim := new_stride]> (strides t) ++ [old_stride_dim]) (Some (offset t)).

(** ** Aliasing *)

(** [reachable_byte_span], without overflow checks. *)
Definition reachable_byte_span (t : TensorImpl) : result (Z * Z) :=
  let esize := dtype_size (dtype t) in
  let base := offset t in
  let* n := numel t in
  let* '(min_off, max_off) :=
    if n >? 0 then
      rfoldM (fun '(min_off, max_off) '(d, s) =>
        if negb (d >? 0) then Ok (min_off, max_off)
        else
          let* extent := i64 ((d - 1) * s) in
          if extent >=? 0 then let* max_off := i64 (max_off + extent) in Ok (min_off, max_off)
          else let* min_off := i64 (min_off + extent) in Ok (min_off, max_off))
        (zip (shape t) (strides t)) (base, base)
    else Ok (base, base) in
  let* lo := i64 (min_off * esize) in
  let* hi := i64 ((max_off + 1) * esize) in
  Ok (lo, hi).

(** [same_impl] says that both handles hold the same object. *)
Definition may_alias (same_impl : bool) (a b : TensorImpl) : result bool :=
  if same_impl && (offset a =? offset b) && bool_decide (shape a = shape b) && bool_decide (strides a = strides b)
  then Ok false
  else if negb (bool_decide (storage a = storage b)) then Ok false
  else
    let* '(start_a, end_a) := reachable_byte_span a in
    let* '(start_b, end_b) := reachable_byte_span b in
    Ok ((start_a <? end_b) && (start_b <? end_a)).

End Tensor.
