(* ===== verification/TensorViews.v ===== *)
(** * What views address

    An element of a tensor lies at [addr].  [views r t f]: element [idx] of [r]
    is element [f idx] of [t], in the same storage.  Every operation of Tensor.v
    that creates a view satisfies it for the reference index map of [source],
    so views stay inside the storage and read what their definition says. *)

From stdpp Require Import base list numbers strings.
From S2P Require Import Prelude MapSums Shape DType Tensor.

Module Views.
Import Sums Tensor.

Notation valid_index := TShape.valid_index.
Notation dot := TShape.offset.

Definition addr (t : TensorImpl) (idx : list Z) : Z := offset t + dot (strides t) idx.

(** The bytes of an element. *)
Definition elem (m : Mem) (t : TensorImpl) (idx : list Z) : list Byte :=
  let e := dtype_size (dtype t) in
  take (Z.to_nat e) (drop (Z.to_nat (addr t idx * e)) (default [] (m !! storage t))).

Record wf (t : TensorImpl) : Prop := mkWf {
  w_length : length (strides t) = length (shape t); w_nonneg : Forall (fun d => 0 <= d) (shape t);
  w_offset : INT64_MIN <= offset t <= INT64_MAX
}.

Definition in_bounds (m : Mem) (t : TensorImpl) : Prop :=
  forall idx, valid_index (shape t) idx -> 0 <= addr t idx < storage_elements m t.

Definition sound (m : Mem) (t : TensorImpl) : Prop := wf t /\ in_bounds m t.

Record views (r t : TensorImpl) (f : list Z -> list Z) : Prop := mkViews {
  v_storage : storage r = storage t; v_dtype : dtype r = dtype t;
  v_index idx : valid_index (shape r) idx -> valid_index (shape t) (f idx) /\ addr r idx = addr t (f idx)
}.

Lemma views_refl t : views t t id.
Proof. by split. Qed.

Lemma views_trans r s t f g : views r s f -> views s t g -> views r t (fun idx => g (f idx)).
Proof.
  intros [Hs Hd Hv] [Hs' Hd' Hv']. split; [congruence..|]. intros idx Hi.
  destruct (Hv idx Hi) as [Hf ->]. by apply Hv'.
Qed.

Lemma views_in_bounds m r t f : views r t f -> in_bounds m t -> in_bounds m r.
Proof.
  intros [Hs Hd Hv] Hb idx Hi. destruct (Hv idx Hi) as [Hf ->]. unfold storage_elements.
  rewrite Hs, Hd. by apply Hb.
Qed.

Lemma views_elem m r t f idx : views r t f -> valid_index (shape r) idx -> elem m r idx = elem m t (f idx).
Proof. intros [Hs Hd Hv] Hi. destruct (Hv idx Hi) as [_ E]. unfold elem. by rewrite Hs, Hd, E. Qed.

(** What of a tensor places its elements; the rest of a new view is free. *)
Definition geometry (t : TensorImpl) : nat * DType * list Z * list Z * Z :=
  (storage t, dtype t, shape t, strides t, offset t).

Lemma views_geometry sh st off r t f : geometry r = (storage t, dtype t, sh, st, off) ->
  length st = length sh -> Forall (fun d => 0 <= d) sh -> INT64_MIN <= off <= INT64_MAX ->
  (forall idx, valid_index sh idx -> valid_index (shape t) (f idx) /\ off + dot st idx = addr t (f idx)) ->
  wf r /\ views r t f.
Proof.
  intros [= Hs Hd Hsh Hst Ho] Hl Hn Hr Hv. split; [split; by rewrite ?Hst, ?Hsh, ?Ho|]. split; [done|done|].
  intros idx. unfold addr at 1. rewrite Hsh, Hst, Ho. apply Hv.
Qed.

(** ** Products of strides and indices *)

Lemma dot_nil_r ss : dot ss [] = 0.
Proof. by destruct ss. Qed.

Lemma dot_app ss ss' js js' : length ss = length js -> dot (ss ++ ss') (js ++ js') = dot ss js + dot ss' js'.
Proof.
  revert js. induction ss as [|s ss IH]; intros [|j js] H; try done.
  cbn. rewrite IH by (simpl in H; lia). lia.
Qed.

Lemma dot_insert_l ss js k s : length ss = length js -> (k < length ss)%nat ->
  dot (<[k := s]> ss) js = dot ss js + (s - default 0 (ss !! k)) * default 0 (js !! k).
Proof.
  revert js k. induction ss as [|s0 ss IH]; intros [|j js] k H Hk; try (simpl in *; lia).
  destruct k as [|k]; simpl; [lia|]. rewrite IH by (simpl in *; lia). lia.
Qed.

Lemma dot_comm ss js : dot ss js = dot js ss.
Proof. revert js. induction ss as [|s ss IH]; intros [|j js]; cbn; try done. rewrite IH. lia. Qed.

Lemma dot_insert_r ss js k j : length ss = length js -> (k < length ss)%nat ->
  dot ss (<[k := j]> js) = dot ss js + (j - default 0 (js !! k)) * default 0 (ss !! k).
Proof. intros. rewrite (dot_comm ss), (dot_comm ss js). apply dot_insert_l; [done|lia]. Qed.

(** The product as a sum over positions. *)
Lemma dot_seq ss js : length ss = length js ->
  dot ss js = foldr Z.add 0 (map (fun k => default 0 (ss !! k) * default 0 (js !! k)) (seq 0 (length ss))).
Proof.
  revert js. induction ss as [|s ss IH]; intros [|j js] H; try done. cbn. f_equal.
  rewrite IH by (simpl in H; lia). f_equal. rewrite <-fmap_S_seq. rewrite <-list_fmap_compose. done.
Qed.

Lemma valid_length sh idx : valid_index sh idx -> length idx = length sh.
Proof. intros H. symmetry. by eapply Forall2_length. Qed.

Lemma valid_lookup sh idx k d i : valid_index sh idx -> sh !! k = Some d -> idx !! k = Some i -> 0 <= i < d.
Proof. intros H Hd Hi. by eapply (Forall2_lookup_lr _ _ _ _ _ _ H Hd Hi). Qed.

Lemma nthZ_lookup l i : 0 <= i < lenZ l -> l !! Z.to_nat i = Some (nthZ l i).
Proof.
  unfold lenZ, nthZ. intros H. destruct (lookup_lt_is_Some_2 l (Z.to_nat i)) as [x ->]; [lia|done].
Qed.

Lemma nthZ_nonneg l i : Forall (fun d => 0 <= d) l -> 0 <= nthZ l i.
Proof.
  intros H. unfold nthZ. destruct (l !! Z.to_nat i) as [d|] eqn:E; [|done]. simpl.
  by eapply Forall_lookup_1 in H.
Qed.

Lemma in_dims_spec n d : in_dims n d = true <-> 0 <= d < n.
Proof. unfold in_dims. rewrite andb_true_iff, Z.leb_le, Z.ltb_lt. done. Qed.

Lemma wf_lookup t k : wf t -> (k < length (shape t))%nat -> is_Some (strides t !! k).
Proof. intros [H _ _] Hk. apply lookup_lt_is_Some_2. lia. Qed.

(** ** Transpose and permute *)

Lemma swap_at_length i j l : length (swap_at i j l) = length l.
Proof. unfold swap_at. by rewrite !length_insert. Qed.

Lemma Forall_swap_at (P : Z -> Prop) i j l : 0 <= i < lenZ l -> 0 <= j < lenZ l -> Forall P l -> Forall P (swap_at i j l).
Proof.
  intros Hi Hj H. unfold swap_at.
  repeat (apply Forall_insert; [|eapply Forall_lookup_1; [exact H|by apply nthZ_lookup]]). done.
Qed.

Lemma lookup_swap_at i j l k : 0 <= i < lenZ l -> 0 <= j < lenZ l ->
  swap_at i j l !! k = l !! (if decide (k = Z.to_nat i) then Z.to_nat j else if decide (k = Z.to_nat j) then Z.to_nat i else k).
Proof.
  intros Hi Hj. unfold swap_at. unfold lenZ in *. destruct (decide (k = Z.to_nat i)) as [->|Hk].
  - rewrite list_lookup_insert_eq by (rewrite length_insert; lia). symmetry. apply nthZ_lookup. done.
  - rewrite list_lookup_insert_ne by done. destruct (decide (k = Z.to_nat j)) as [->|Hk'].
    + rewrite list_lookup_insert_eq by lia. symmetry. apply nthZ_lookup. done.
    + by rewrite list_lookup_insert_ne.
Qed.

Lemma valid_swap sh idx i j : 0 <= i < lenZ sh -> 0 <= j < lenZ sh ->
  valid_index (swap_at i j sh) idx -> valid_index sh (swap_at i j idx).
Proof.
  intros Hi Hj H. pose proof (valid_length _ _ H) as Hl. rewrite swap_at_length in Hl.
  assert (lenZ idx = lenZ sh) as El by (unfold lenZ; lia).
  apply Forall2_same_length_lookup. split; [by rewrite swap_at_length|].
  intros k d x Hd Hx. rewrite lookup_swap_at in Hx by lia.
  apply (valid_lookup _ _ (if decide (k = Z.to_nat i) then Z.to_nat j else if decide (k = Z.to_nat j) then Z.to_nat i else k) _ _ H);
    [|done]. rewrite lookup_swap_at by done. rewrite <-Hd. f_equal.
  repeat case_decide; congruence.
Qed.

Lemma dot_swap ss js i j : length ss = length js -> 0 <= i < lenZ ss -> 0 <= j < lenZ ss ->
  dot (swap_at i j ss) js = dot ss (swap_at i j js).
Proof.
  intros Hl Hi Hj. unfold swap_at. unfold lenZ in *.
  rewrite !dot_insert_l, !dot_insert_r by (rewrite ?length_insert; lia). unfold nthZ.
  destruct (decide (Z.to_nat i = Z.to_nat j)) as [E|E].
  - rewrite !E, !list_lookup_insert_eq by lia. simpl. lia.
  - rewrite !(list_lookup_insert_ne _ (Z.to_nat j) (Z.to_nat i)) by done. lia.
Qed.

Lemma transpose_views t dim0 dim1 r : wf t -> transpose t dim0 dim1 = Ok r ->
  wf r /\ views r t (swap_at (norm_dim (ndim t) dim0) (norm_dim (ndim t) dim1)).
Proof.
  intros [Hl Hn Hoff] H. unfold transpose in H. inv_ok. bool_to_prop. rewrite in_dims_spec in *. unfold ndim in *.
  set (i := norm_dim _ dim0) in *. set (j := norm_dim _ dim1) in *.
  assert (lenZ (strides t) = lenZ (shape t)) as El by (unfold lenZ; lia).
  apply (views_geometry (swap_at i j (shape t)) (swap_at i j (strides t)) (offset t)).
  - subst r. by destruct (per_channel t).
  - by rewrite !swap_at_length.
  - by apply Forall_swap_at.
  - done.
  - intros idx Hv. split; [by apply valid_swap|]. pose proof (valid_length _ _ Hv) as Hli.
    rewrite swap_at_length in Hli. unfold addr. by rewrite dot_swap by (lia || congruence).
Qed.

Lemma normalize_dims_from n dims seen ds : NoDup seen -> Forall (fun d => 0 <= d < n) seen ->
  rfoldM (fun seen dim =>
    let dim := norm_dim n dim in
    let* _ := throw_if (negb (in_dims n dim)) (InvalidArgument "Dimension out of range in permutation") in
    let* _ := throw_if (bool_decide (dim ∈ seen)) (InvalidArgument "Duplicate dimension in permutation") in
    Ok (seen ++ [dim])) dims seen = Ok ds ->
  NoDup ds /\ Forall (fun d => 0 <= d < n) ds /\ ds = seen ++ map (norm_dim n) dims.
Proof.
  revert seen. induction dims as [|d dims IH]; intros seen Hnd Hs H; cbn in H.
  { injection H as <-. by rewrite app_nil_r. }
  inv_ok. bool_to_prop. rewrite in_dims_spec in *. subst.
  match goal with H : bool_decide _ = false |- _ => apply bool_decide_eq_false in H; rename H into Hin end.
  destruct (IH (seen ++ [norm_dim n d])) as (? & ? & ->); [| |done|].
  - apply NoDup_app. split_and!; [done| |apply NoDup_singleton]. by intros x Hx ->%list_elem_of_singleton.
  - apply Forall_app. split; [done|]. by constructor.
  - split_and!; [done|done|]. by rewrite <-app_assoc.
Qed.

Lemma normalize_dims_Ok n dims ds : normalize_dims n dims = Ok ds ->
  NoDup ds /\ Forall (fun d => 0 <= d < n) ds /\ ds = map (norm_dim n) dims.
Proof. apply normalize_dims_from; constructor. Qed.

Lemma dims_permutation n ds : NoDup ds -> Forall (fun d => 0 <= d < n) ds -> lenZ ds = n -> ds ≡ₚ seqZ 0 n.
Proof.
  intros Hnd Hr Hl. apply submseteq_length_Permutation.
  - apply NoDup_submseteq; [done|]. intros x Hx. rewrite Forall_forall in Hr. apply elem_of_seqZ. apply Hr in Hx. lia.
  - rewrite length_seqZ. unfold lenZ in Hl. lia.
Qed.

(** Index [idx] of the permuted tensor, seen from the original one. *)
Definition unpermute (ds idx : list Z) : list Z := map (fun j => nthZ idx (position j ds)) (seqZ 0 (lenZ ds)).

Lemma position_lookup ds i d : NoDup ds -> ds !! i = Some d -> position d ds = Z.of_nat i.
Proof.
  intros Hnd Hi. unfold position. destruct (list_find (fun d' => d' = d) ds) as [[k x]|] eqn:E.
  - apply list_find_Some in E as (Hk & -> & _). f_equal. by eapply NoDup_lookup.
  - apply list_find_None in E. by apply (Forall_lookup_1 _ _ _ _ E) in Hi.
Qed.

Lemma dot_map (g h : Z -> Z) ds : dot (map g ds) (map h ds) = sumZ_with (fun d => g d * h d) ds.
Proof. induction ds as [|d ds IH]; cbn; by rewrite ?IH. Qed.

Lemma map_nthZ l : map (nthZ l) (seqZ 0 (lenZ l)) = l.
Proof.
  apply list_eq. intros i. rewrite list_lookup_fmap. destruct (l !! i) as [x|] eqn:E.
  - pose proof (lookup_lt_Some _ _ _ E). rewrite (proj2 (lookup_seqZ 0 (lenZ l) i (Z.of_nat i))) by (unfold lenZ; lia).
    simpl. unfold nthZ. by rewrite Nat2Z.id, E.
  - apply lookup_ge_None in E. rewrite lookup_seqZ_ge; [done|]. unfold lenZ. lia.
Qed.

Lemma nthZ_map_seqZ (f : Z -> Z) n k : 0 <= k < n -> nthZ (map f (seqZ 0 n)) k = f k.
Proof.
  intros Hk. unfold nthZ. rewrite list_lookup_fmap, (proj2 (lookup_seqZ 0 n (Z.to_nat k) k)) by lia. done.
Qed.

Lemma map_position ds idx : NoDup ds -> length idx = length ds -> map (fun d => nthZ idx (position d ds)) ds = idx.
Proof.
  intros Hnd Hl. apply list_eq_same_length with (length ds); [done|by rewrite length_map|].
  intros i x y Hi Hx Hy. rewrite list_lookup_fmap in Hx. destruct (ds !! i) as [d|] eqn:Ed; [|done].
  injection Hx as <-. rewrite (position_lookup _ _ _ Hnd Ed). unfold nthZ. by rewrite Nat2Z.id, Hy.
Qed.

Lemma dot_unpermute ss idx ds : length ds = length ss -> length idx = length ds -> ds ≡ₚ seqZ 0 (lenZ ds) ->
  dot (map (nthZ ss) ds) idx = dot ss (unpermute ds idx).
Proof.
  intros Hl Hi Hp. assert (NoDup ds) as Hnd by (rewrite Hp; apply NoDup_seqZ).
  rewrite <-(map_position ds idx Hnd Hi) at 1. rewrite dot_map, (sumZ_with_perm _ _ _ Hp), <-dot_map.
  unfold unpermute. replace (lenZ ds) with (lenZ ss) by (unfold lenZ; lia). by rewrite map_nthZ.
Qed.

Lemma valid_unpermute sh ds idx : length ds = length sh -> ds ≡ₚ seqZ 0 (lenZ ds) ->
  valid_index (map (nthZ sh) ds) idx -> valid_index sh (unpermute ds idx).
Proof.
  intros Hl Hp Hv. assert (NoDup ds) as Hnd by (rewrite Hp; apply NoDup_seqZ).
  rewrite <-(map_nthZ sh). replace (lenZ sh) with (lenZ ds) by (unfold lenZ; lia). unfold unpermute.
  apply Forall2_fmap_2, Forall_Forall2_diag, Forall_forall. intros j Hj. rewrite <-Hp in Hj.
  apply list_elem_of_lookup in Hj as [i Hi]. rewrite (position_lookup _ _ _ Hnd Hi).
  pose proof (valid_length _ _ Hv) as El. rewrite length_map in El.
  destruct (lookup_lt_is_Some_2 idx i) as [x Hx]; [rewrite El; by eapply lookup_lt_Some|].
  assert (nthZ idx (Z.of_nat i) = x) as -> by (unfold nthZ; by rewrite Nat2Z.id, Hx).
  eapply (valid_lookup _ _ i _ _ Hv); [|done].
  by rewrite list_lookup_fmap, Hi.
Qed.

Lemma permute_views t dims r : wf t -> permute t dims = Ok r ->
  wf r /\ views r t (unpermute (map (norm_dim (ndim t)) dims)).
Proof.
  intros [Hl Hn Hoff] H. unfold permute in H. inv_ok. bool_to_prop. unfold ndim in *.
  match goal with H : normalize_dims _ _ = Ok _ |- _ => apply normalize_dims_Ok in H as (Hnd & Hr & ->) end.
  set (ds := map (norm_dim (lenZ (shape t))) dims) in *.
  assert (length ds = length (shape t)) as El by (unfold ds; rewrite length_map; unfold lenZ in *; lia).
  assert (ds ≡ₚ seqZ 0 (lenZ ds)) as Hp.
  { apply dims_permutation; [done| |done]. by replace (lenZ ds) with (lenZ (shape t)) by (unfold lenZ; lia). }
  apply (views_geometry (map (nthZ (shape t)) ds) (map (nthZ (strides t)) ds) (offset t)).
  - subst r. by destruct (per_channel t).
  - by rewrite !length_map.
  - apply Forall_map, Forall_forall. intros d _. by apply nthZ_nonneg.
  - done.
  - intros idx Hv. split; [by apply valid_unpermute|]. pose proof (valid_length _ _ Hv) as Hli.
    rewrite length_map in Hli. unfold addr. by rewrite dot_unpermute by (lia || congruence).
Qed.

Lemma movedim_views t source destination r : wf t -> movedim t source destination = Ok r ->
  wf r /\ views r t (unpermute (map (norm_dim (ndim t))
    (movedim_perm (ndim t) (map (norm_dim (ndim t)) source) (map (norm_dim (ndim t)) destination)))).
Proof. intros Hw H. unfold movedim in H. inv_ok. by apply permute_views. Qed.

(** ** Squeeze and unsqueeze *)

Lemma length_insert_at {A} d (x : A) l : (Z.to_nat d <= length l)%nat -> length (insert_at d x l) = S (length l).
Proof. intros H. unfold insert_at. rewrite length_app, length_take, length_cons, length_drop. lia. Qed.

Lemma insert_erase {A} d (x : A) l : l !! Z.to_nat d = Some x -> insert_at d x (erase_at d l) = l.
Proof.
  intros H. pose proof (lookup_lt_Some _ _ _ H). unfold insert_at, erase_at.
  rewrite take_app_length', drop_app_length' by (rewrite length_take; lia). by apply take_drop_middle.
Qed.

Lemma length_erase_at {A} d (l : list A) : (Z.to_nat d < length l)%nat -> S (length (erase_at d l)) = length l.
Proof. intros H. unfold erase_at. rewrite length_app, length_take, length_drop. lia. Qed.

Lemma dot_insert_at d s j ss js : length ss = length js -> (Z.to_nat d <= length ss)%nat ->
  dot (insert_at d s ss) (insert_at d j js) = dot ss js + s * j.
Proof.
  intros Hl Hd. unfold insert_at. rewrite dot_app by (rewrite !length_take; lia).
  rewrite <-(take_drop (Z.to_nat d) ss) at 3. rewrite <-(take_drop (Z.to_nat d) js) at 3.
  rewrite dot_app by (rewrite !length_take; lia). cbn. lia.
Qed.

Lemma valid_insert_at d n j sh idx : length idx = length sh -> (Z.to_nat d <= length sh)%nat ->
  valid_index (insert_at d n sh) (insert_at d j idx) <-> valid_index sh idx /\ 0 <= j < n.
Proof.
  intros Hl Hd. unfold insert_at, TShape.valid_index.
  rewrite <-(take_drop (Z.to_nat d) sh) at 3. rewrite <-(take_drop (Z.to_nat d) idx) at 3.
  assert (length (take (Z.to_nat d) sh) = length (take (Z.to_nat d) idx)) as E by (rewrite !length_take; lia).
  split.
  - intros [H1 H2]%Forall2_app_inv; [|done]. apply Forall2_cons in H2 as [? ?]. split; [by apply Forall2_app|done].
  - intros [[H1 H2]%Forall2_app_inv Hj]; [|done]. apply Forall2_app; [done|]. by constructor.
Qed.

Lemma Forall_insert_at (P : Z -> Prop) d x l : P x -> Forall P l -> Forall P (insert_at d x l).
Proof. intros Hx H. unfold insert_at. apply Forall_app. split; [by apply Forall_take|]. constructor; [done|by apply Forall_drop]. Qed.

Lemma Forall_erase_at (P : Z -> Prop) d l : Forall P l -> Forall P (erase_at d l).
Proof. intros H. unfold erase_at. apply Forall_app. split; [by apply Forall_take|by apply Forall_drop]. Qed.

Lemma erase_views off d sh ss sh' ss' idx : length ss = length sh -> (Z.to_nat d < length sh)%nat ->
  nthZ sh d = 1 -> sh' = erase_at d sh -> ss' = erase_at d ss -> valid_index sh' idx ->
  valid_index sh (insert_at d 0 idx) /\ off + dot ss' idx = off + dot ss (insert_at d 0 idx).
Proof.
  intros Hl Hd H1 -> -> Hv. pose proof (valid_length _ _ Hv) as Hi.
  pose proof (length_erase_at d sh Hd) as L1. pose proof (length_erase_at d ss ltac:(lia)) as L2.
  destruct (lookup_lt_is_Some_2 sh (Z.to_nat d) Hd) as [n Hn]. destruct (lookup_lt_is_Some_2 ss (Z.to_nat d) ltac:(lia)) as [s Hs].
  assert (n = 1) as -> by (unfold nthZ in H1; by rewrite Hn in H1).
  split.
  - rewrite <-(insert_erase d 1 sh Hn). apply valid_insert_at; [done|lia|]. split; [done|lia].
  - rewrite <-(insert_erase d s ss Hs) at 2. rewrite dot_insert_at by lia. lia.
Qed.

(** Where an index of a squeezed tensor lies in the original one. *)
Definition unsqueezed (sh : list Z) (d : Z) (idx : list Z) : list Z := if nthZ sh d =? 1 then insert_at d 0 idx else idx.

Lemma squeeze_views t dim r : wf t -> squeeze t dim = Ok r ->
  wf r /\ views r t (unsqueezed (shape t) (norm_dim (ndim t) dim)).
Proof.
  intros [Hl Hn Hoff] H. unfold squeeze in H. inv_ok. bool_to_prop. rewrite in_dims_spec in *. unfold ndim in *.
  set (d := norm_dim _ dim) in *. unfold unsqueezed. destruct (Z.eqb_spec (nthZ (shape t) d) 1) as [E|E]; simpl in *.
  2:{ injection H0 as <-. split; [done|apply views_refl]. }
  apply (views_geometry (erase_at d (shape t)) (erase_at d (strides t)) (offset t)).
  - destruct (per_channel t); inv_ok; by subst r.
  - pose proof (length_erase_at d (shape t)). pose proof (length_erase_at d (strides t)). unfold lenZ in *. lia.
  - by apply Forall_erase_at.
  - done.
  - intros idx Hv. eapply erase_views; [done| |done|done|done|done]. unfold lenZ in *. lia.
Qed.

(** A zero at every dimension of size 1. *)
Fixpoint refill (sh idx : list Z) : list Z :=
  match sh with
  | [] => []
  | d :: sh => if decide (d = 1) then 0 :: refill sh idx
               else match idx with i :: idx => i :: refill sh idx | [] => [] end
  end.

Lemma keep_dims_cons {A} d sh (x : A) l :
  keep_dims (d :: sh) (x :: l) = if decide (d = 1) then keep_dims sh l else x :: keep_dims sh l.
Proof. unfold keep_dims. simpl. rewrite filter_cons. simpl. by repeat case_decide. Qed.

Lemma length_keep_dims {A B} sh (l : list A) (k : list B) : length l = length k ->
  length (keep_dims sh l) = length (keep_dims sh k).
Proof.
  revert l k. induction sh as [|d sh IH]; intros [|x l] [|y k] H; try done.
  rewrite !keep_dims_cons. case_decide; [|cbn; f_equal]; apply IH; simpl in H; lia.
Qed.

Lemma refill_spec sh ss idx : length ss = length sh -> valid_index (keep_dims sh sh) idx ->
  valid_index sh (refill sh idx) /\ dot (keep_dims sh ss) idx = dot ss (refill sh idx).
Proof.
  enough (forall sh' ss', length ss' = length sh -> sh' = keep_dims sh sh -> valid_index sh' idx ->
    valid_index sh (refill sh idx) /\ dot (keep_dims sh ss') idx = dot ss' (refill sh idx)) by eauto.
  clear ss. revert idx. induction sh as [|d sh IH]; intros idx sh' [|s ss] Hl -> Hv; try done.
  { by inversion Hv; subst. }
  rewrite keep_dims_cons in Hv |- *. cbn [refill]. simpl in Hl. case_decide as Hd.
  - destruct (IH idx _ ss ltac:(lia) eq_refl Hv) as [H1 H2]. split; [constructor; [lia|done]|]. cbn. rewrite H2. lia.
  - inversion Hv as [|? i ? js Hi Hv']; subst. destruct (IH js _ ss ltac:(lia) eq_refl Hv') as [H1 H2].
    split; [by constructor|]. cbn. by rewrite H2.
Qed.

Lemma Forall_keep_dims (P : Z -> Prop) sh l : Forall P l -> Forall P (keep_dims sh l).
Proof.
  intros H. revert sh. induction H as [|x l Hx H IH]; intros [|d sh]; try constructor.
  rewrite keep_dims_cons. case_decide; [apply IH|constructor; [done|apply IH]].
Qed.

Lemma squeeze_all_views t r : wf t -> squeeze_all t = Ok r -> wf r /\ views r t (refill (shape t)).
Proof.
  intros [Hl Hn Hoff] H. unfold squeeze_all in H.
  apply (views_geometry (keep_dims (shape t) (shape t)) (keep_dims (shape t) (strides t)) (offset t)).
  - destruct (per_channel t); inv_ok; by subst r.
  - by apply length_keep_dims.
  - by apply Forall_keep_dims.
  - done.
  - intros idx Hv. unfold addr. destruct (refill_spec _ (strides t) _ Hl Hv) as [? ->]. done.
Qed.

Lemma unsqueeze_views t dim r : wf t -> unsqueeze t dim = Ok r ->
  wf r /\ views r t (erase_at (norm_dim (ndim t + 1) dim)).
Proof.
  intros [Hl Hn Hoff] H. unfold unsqueeze in H. inv_ok. bool_to_prop. rewrite in_dims_spec in *. unfold ndim in *.
  set (d := norm_dim _ dim) in *.
  match goal with H : context [insert_at d ?s (strides t)] |- _ => set (ns := s) in * end.
  assert (Z.to_nat d <= length (shape t))%nat as Hd by (unfold lenZ in *; lia).
  apply (views_geometry (insert_at d 1 (shape t)) (insert_at d ns (strides t)) (offset t)).
  - subst r. by destruct (per_channel t && _).
  - rewrite !length_insert_at; lia.
  - by apply Forall_insert_at.
  - done.
  - intros idx Hv. pose proof (valid_length _ _ Hv) as Hi. rewrite length_insert_at in Hi by done.
    destruct (lookup_lt_is_Some_2 idx (Z.to_nat d)) as [j Hj]; [lia|].
    pose proof (length_erase_at d idx ltac:(lia)) as Le.
    rewrite <-(insert_erase d j idx Hj) in Hv. apply valid_insert_at in Hv as [Hv Hj0]; [|lia..].
    split; [done|]. rewrite <-(insert_erase d j idx Hj) at 1. unfold addr. rewrite dot_insert_at by lia.
    assert (j = 0) as -> by lia. lia.
Qed.

(** ** Slices *)

Definition sliced (d start step : Z) (idx : list Z) : list Z := <[Z.to_nat d := start + step * nthZ idx d]> idx.

Lemma valid_insert sh idx d n k i : valid_index (<[d := n]> sh) idx -> sh !! d = Some k ->
  (forall j, idx !! d = Some j -> 0 <= j < n -> 0 <= i < k) -> valid_index sh (<[d := i]> idx).
Proof.
  intros Hv Hx Hi. pose proof (valid_length _ _ Hv) as Hl. rewrite length_insert in Hl.
  pose proof (lookup_lt_Some _ _ _ Hx) as Hd. destruct (lookup_lt_is_Some_2 idx d ltac:(lia)) as [j Hj].
  apply Forall2_same_length_lookup. split; [by rewrite length_insert|]. intros q a b Ha Hb.
  destruct (decide (q = d)) as [->|Hq].
  - rewrite list_lookup_insert_eq in Hb by lia. injection Hb as <-. rewrite Hx in Ha. injection Ha as <-.
    apply (Hi j Hj). eapply (valid_lookup _ _ d _ _ Hv); [by rewrite list_lookup_insert_eq|done].
  - rewrite list_lookup_insert_ne in Hb by done. eapply (valid_lookup _ _ q _ _ Hv); [|done].
    by rewrite list_lookup_insert_ne.
Qed.

(** The indices of a slice stay below its end. *)
Lemma slice_extent start stop step i : 0 <= start <= stop -> 0 < step ->
  0 <= i < Z.quot (stop - start + step - 1) step -> 0 <= start + step * i < stop.
Proof.
  intros Hs Hp Hi. rewrite Z.quot_div_nonneg in Hi by lia.
  pose proof (Z.mul_div_le (stop - start + step - 1) step Hp). nia.
Qed.

Lemma slice_size_nonneg start stop step : start <= stop -> 0 < step -> 0 <= Z.quot (stop - start + step - 1) step.
Proof. intros. apply Z.quot_pos; lia. Qed.

Lemma slice_Ok m t dim start stop step r : slice m t dim start stop step = Ok r ->
  let d := norm_dim (ndim t) dim in let n := nthZ (shape t) d in
  let start := norm_dim n start in let stop := norm_dim n stop in
  0 <= d < ndim t /\ 0 <= start <= stop /\ stop <= n /\ 0 < step /\
  INT64_MIN <= offset t + start * nthZ (strides t) d <= INT64_MAX /\
  r = with_geometry (<[Z.to_nat d := Z.quot (stop - start + step - 1) step]> (shape t))
        (<[Z.to_nat d := nthZ (strides t) d * step]> (strides t)) (offset t + start * nthZ (strides t) d) t.
Proof.
  intros H. unfold slice in H. inv_ok.
  match goal with H : checked_mul _ _ = Ok _ |- _ => apply checked_mul_Ok in H as [-> _] end.
  match goal with H : checked_add _ _ = Ok _ |- _ =>
    unfold checked_add in H; destruct (in_i64 _) eqn:?; [injection H as <-|done] end.
  match goal with H : i64 _ = Ok _ |- _ => apply i64_Ok in H as [-> _] end.
  match goal with H : (if negb (step =? 1) then _ else _) = Ok ?s |- _ =>
    assert (s = nthZ (strides t) (norm_dim (ndim t) dim) * step) as ->
      by (destruct (Z.eqb_spec step 1) as [->|]; simpl in H; inv_ok; [lia|]; by apply i64_Ok in H as [-> _]) end.
  match goal with H : (let (_, _) := ?p in _) = Ok _ |- _ => destruct p; inv_ok end.
  bool_to_prop. rewrite in_dims_spec in *. subst r. split_and!; (lia || done).
Qed.

Lemma slice_views m t dim start stop step r : wf t -> slice m t dim start stop step = Ok r ->
  wf r /\ views r t (sliced (norm_dim (ndim t) dim)
                       (norm_dim (nthZ (shape t) (norm_dim (ndim t) dim)) start) step).
Proof.
  intros [Hl Hn Hoff] H. apply slice_Ok in H as (Hd & Hs & He & Hp & Ho & ->).
  set (d := norm_dim _ dim) in *. set (a := norm_dim _ start) in *. set (b := norm_dim _ stop) in *.
  unfold ndim in *. assert (Z.to_nat d < length (shape t))%nat as Hd' by (unfold lenZ in *; lia).
  pose proof (nthZ_lookup (shape t) d Hd) as Hsh.
  match goal with |- context [with_geometry ?sh ?st ?off t] => apply (views_geometry sh st off) end.
  - done.
  - by rewrite !length_insert.
  - apply Forall_insert; [done|]. apply slice_size_nonneg; lia.
  - done.
  - intros idx Hv. pose proof (valid_length _ _ Hv) as Hi. rewrite length_insert in Hi. split.
    + eapply valid_insert; [done|done|]. intros j Hj Hlt.
      assert (nthZ idx d = j) as -> by (unfold nthZ; by rewrite Hj). pose proof (slice_extent a b step j). lia.
    + unfold sliced, addr. rewrite dot_insert_l, dot_insert_r by (rewrite ?length_insert; lia).
      unfold nthZ. lia.
Qed.

(** ** The same elements in another shape *)

(** The index at position [n] of the row-major order. *)
Fixpoint unravel (sh : list Z) (n : Z) : list Z :=
  match sh with [] => [] | _ :: ds => n / prodZ ds :: unravel ds (n mod prodZ ds) end.

Definition ravel (sh idx : list Z) : Z := dot (TShape.suffix_prods sh) idx.

Lemma unravel_spec sh n : Forall (fun d => 0 <= d) sh -> 0 <= n < prodZ sh ->
  valid_index sh (unravel sh n) /\ ravel sh (unravel sh n) = n.
Proof.
  intros Hs. revert n. induction Hs as [|d ds Hd Hds IH]; cbn [prodZ unravel]; intros n Hn.
  - split; [constructor|]. cbn. lia.
  - pose proof (prodZ_nonneg _ Hds). assert (0 < prodZ ds) by nia.
    destruct (IH (n mod prodZ ds)) as [Hv Ho]; [by apply Z.mod_pos_bound|]. split.
    + constructor; [|done]. split; [apply Z.div_pos; lia|]. apply Z.div_lt_upper_bound; lia.
    + unfold ravel in *. cbn [TShape.suffix_prods TShape.offset]. rewrite Ho. symmetry. apply Z.div_mod. lia.
Qed.

Lemma ravel_bound sh idx : valid_index sh idx -> 0 <= ravel sh idx < prodZ sh.
Proof. apply TShape.offset_bounds. Qed.

Lemma unravel_ravel sh idx : valid_index sh idx -> unravel sh (ravel sh idx) = idx.
Proof.
  intros Hv. pose proof (TShape.valid_index_pos _ _ Hv) as Hp.
  destruct (unravel_spec sh (ravel sh idx)) as [Hv' E]; [|by apply ravel_bound|].
  { eapply Forall_impl; [exact Hp|]. intros d Hd. simpl in Hd. lia. }
  by eapply TShape.offset_inj.
Qed.

Lemma numel_of_Ok e sh n : numel_of e sh = Ok n -> n = prodZ sh.
Proof.
  unfold numel_of. enough (forall r, rfoldM (fun result dim =>
    let* _ := throw_if (negb (dim =? 0) && (safe_abs result >? Z.quot INT64_MAX (safe_abs dim))) e in
    i64 (result * dim)) sh r = Ok n -> n = r * prodZ sh) as H by (intros E; specialize (H 1 E); lia).
  induction sh as [|d sh IH]; intros r H; cbn [rfoldM prodZ] in *; [inv_ok; lia|].
  inv_ok. match goal with H : i64 _ = Ok _ |- _ => apply i64_Ok in H as [-> _] end.
  match goal with H : rfoldM _ _ _ = Ok _ |- _ => apply IH in H as -> end. lia.
Qed.

Lemma scan_shape_from l i k0 t0 k total :
  rfoldM (fun '(infer_dim, total) '(i, d) =>
    if d =? -1 then
      let* _ := throw_if (negb (infer_dim =? -1)) (RuntimeError "Only one dimension can be inferred") in
      Ok (i, total)
    else if d <? 0 then Err (RuntimeError "Invalid shape dimension: ")
    else let* total := i64 (total * d) in Ok (infer_dim, total))
    (imap (fun j d => (Z.of_nat (i + j), d)) l) (k0, t0) = Ok (k, total) ->
  (k = k0 /\ Forall (fun d => 0 <= d) l /\ total = t0 * prodZ l) \/
  (k0 = -1 /\ exists j, k = Z.of_nat (i + j) /\ l !! j = Some (-1) /\
     forall x, 0 <= x -> Forall (fun d => 0 <= d) (<[j := x]> l) /\ x * total = t0 * prodZ (<[j := x]> l)).
Proof.
  revert i k0 t0. induction l as [|d l IH]; intros i k0 t0 H.
  { injection H as <- <-. left. split_and!; [done|constructor|cbn; lia]. }
  rewrite imap_cons in H. cbn [rfoldM] in H. rewrite Nat.add_0_r in H.
  assert (imap ((fun j d => (Z.of_nat (i + j), d)) ∘ S) l = imap (fun j (d : Z) => (Z.of_nat (S i + j), d)) l) as El.
  { apply imap_ext. intros j x _. simpl. f_equal. lia. }
  destruct (Z.eqb_spec d (-1)) as [->|Hd].
  - inv_ok. bool_to_prop. subst. rewrite El in H0. apply IH in H0 as [(-> & Hl & ->)|[? _]]; [|lia].
    right. split; [done|]. exists 0%nat. split_and!; [f_equal; lia|done|]. intros x Hx. simpl.
    split; [by constructor|]. cbn [prodZ]. lia.
  - destruct (Z.ltb_spec d 0); [done|]. inv_ok.
    match goal with H : i64 _ = Ok _ |- _ => apply i64_Ok in H as [-> _] end.
    subst. rewrite El in *. match goal with H : rfoldM _ _ _ = Ok _ |- _ => apply IH in H as [(-> & Hl & ->)|(-> & j & -> & Hj & Hx)] end.
    + left. split_and!; [done|by constructor|cbn [prodZ]; lia].
    + right. split; [done|]. exists (S j). split_and!; [f_equal; lia|done|]. intros x Hx0.
      destruct (Hx x Hx0) as [? E]. simpl. split; [by constructor|]. cbn [prodZ]. lia.
Qed.

(** The resolved shape has the element count of the tensor and keeps every
    given dimension. *)
Lemma resolve_shape_Ok e t new_shape sh : Forall (fun d => 0 <= d) (shape t) -> resolve_shape e t new_shape = Ok sh ->
  Forall (fun d => 0 <= d) sh /\ prodZ sh = prodZ (shape t) /\ length sh = length new_shape /\
  forall i d, new_shape !! i = Some d -> d <> -1 -> sh !! i = Some d.
Proof.
  intros Hn H. unfold resolve_shape in H. apply rbind_Ok in H as ([k total] & Hs & H). cbv beta iota in H.
  unfold scan_shape in Hs. apply (scan_shape_from new_shape 0) in Hs as [(-> & Hnn & ->)|(_ & j & -> & Hj & Hx)].
  - simpl in H. inv_ok. match goal with H : numel t = Ok _ |- _ => apply numel_of_Ok in H as -> end.
    bool_to_prop. subst sh. split_and!; [done|lia|done|done].
  - destruct (Z.eqb_spec (Z.of_nat (0 + j)) (-1)); [lia|]. simpl in H. inv_ok.
    match goal with H : numel t = Ok _ |- _ => apply numel_of_Ok in H as -> end. bool_to_prop. subst sh.
    rewrite Nat2Z.id. destruct (Hx 1 ltac:(lia)) as [Hn1 E1].
    assert (0 <= total) by (pose proof (prodZ_nonneg _ Hn1); lia). pose proof (prodZ_nonneg _ Hn).
    assert (0 <= Z.quot (prodZ (shape t)) total) as Hq by (apply Z.quot_pos; lia).
    destruct (Hx _ Hq) as [Hnn E]. split_and!; [done| |by rewrite length_insert|].
    + pose proof (Z.quot_rem' (prodZ (shape t)) total). lia.
    + intros i d Hi Hd. rewrite list_lookup_insert_ne; [done|]. intros ->. congruence.
Qed.

Lemma is_contiguous_true t : is_contiguous t = Ok true -> strides t = TShape.suffix_prods (shape t).
Proof.
  unfold is_contiguous, has_strides. destruct (TShape.compute_strides (shape t)) as [ss|] eqn:E; [|done].
  simpl. intros [= ->%bool_decide_eq_true]. by apply TShape.compute_strides_suffix.
Qed.

Lemma length_suffix_prods sh : length (TShape.suffix_prods sh) = length sh.
Proof. induction sh; simpl; congruence. Qed.

(** A contiguous tensor read in another shape: the row-major order is kept. *)
Lemma reshaped_views sh off t r : wf t -> strides t = TShape.suffix_prods (shape t) -> off = offset t ->
  geometry r = (storage t, dtype t, sh, TShape.suffix_prods sh, off) ->
  Forall (fun d => 0 <= d) sh -> prodZ sh = prodZ (shape t) ->
  wf r /\ views r t (fun idx => unravel (shape t) (ravel sh idx)).
Proof.
  intros [Hl Hn Hoff] Hst -> Hg Hsh E. eapply views_geometry; [exact Hg|apply length_suffix_prods|done|done|].
  intros idx Hv. pose proof (ravel_bound _ _ Hv). destruct (unravel_spec (shape t) (ravel sh idx)) as [? E']; [done|lia|].
  split; [done|]. unfold addr. rewrite Hst. unfold ravel in *. by rewrite E'.
Qed.

Lemma view_views t new_shape r : wf t -> view t new_shape = Ok r ->
  wf r /\ views r t (fun idx => unravel (shape t) (ravel (shape r) idx)).
Proof.
  intros Hw H. unfold view in H. inv_ok. bool_to_prop. subst.
  match goal with H : is_contiguous _ = Ok _ |- _ => apply is_contiguous_true in H as Hst end.
  match goal with H : resolve_shape _ _ _ = Ok _ |- _ => apply resolve_shape_Ok in H as (? & ? & _); [|by destruct Hw] end.
  match goal with H : TShape.compute_strides _ = Ok _ |- _ => apply TShape.compute_strides_suffix in H as -> end.
  by apply (reshaped_views _ (offset t)).
Qed.

(** ** One index of a dimension *)

Lemma views_ext r t f g : (forall idx, length idx = length (shape r) -> f idx = g idx) -> views r t f -> views r t g.
Proof.
  intros E [Hs Hd Hv]. split; [done|done|]. intros idx Hi. rewrite <-E by by apply valid_length. by apply Hv.
Qed.

Lemma norm_dim_id n d : 0 <= d -> norm_dim n d = d.
Proof. intros H. unfold norm_dim. destruct (Z.ltb_spec d 0); [lia|done]. Qed.

Lemma length_squeeze t dim r : wf t -> squeeze t dim = Ok r -> nthZ (shape t) (norm_dim (ndim t) dim) = 1 ->
  S (length (shape r)) = length (shape t).
Proof.
  intros Hw H E. unfold squeeze in H. inv_ok. bool_to_prop. rewrite E in *. rewrite in_dims_spec in *. simpl in *.
  unfold ndim in *. assert (shape r = erase_at (norm_dim (lenZ (shape t)) dim) (shape t)) as ->.
  { destruct (per_channel t); inv_ok; by subst r. }
  apply length_erase_at. unfold lenZ in *. lia.
Qed.

(** A slice of one element, squeezed. *)
Lemma select_views m t d k s r : wf t -> 0 <= d < ndim t -> 0 <= k -> slice m t d k (k + 1) 1 = Ok s ->
  squeeze s d = Ok r -> wf r /\ views r t (insert_at d k).
Proof.
  intros Hw Hd Hk Hs Hr. destruct (slice_views _ _ _ _ _ _ _ Hw Hs) as [Hws Hvs].
  destruct (squeeze_views _ _ _ Hws Hr) as [Hwr Hvr]. split; [done|].
  pose proof (slice_Ok _ _ _ _ _ _ _ Hs) as (_ & Hb & Hn & _ & _ & Es).
  rewrite !(norm_dim_id _ d), !(norm_dim_id _ k), !(norm_dim_id _ (k + 1)) in * by lia.
  assert (ndim s = ndim t) as En by (rewrite Es; unfold ndim, lenZ; cbn [shape with_geometry]; by rewrite length_insert).
  assert (nthZ (shape s) d = 1) as E1.
  { rewrite Es. unfold nthZ. cbn [shape with_geometry]. unfold ndim, lenZ in Hd.
    rewrite list_lookup_insert_eq by lia. simpl. rewrite Z.quot_1_r. lia. }
  eapply views_ext; [|eapply views_trans; [exact Hvr|exact Hvs]]. intros idx Hl. cbn.
  unfold unsqueezed. rewrite E1. simpl.
  pose proof (length_squeeze _ _ _ Hws Hr) as Hls. rewrite norm_dim_id in Hls by lia. specialize (Hls E1).
  unfold ndim, lenZ in *. unfold sliced, insert_at.
  assert (length (take (Z.to_nat d) idx) = Z.to_nat d) as Ht by (rewrite length_take; lia).
  rewrite insert_app_r_alt by lia. rewrite Ht, Nat.sub_diag. simpl. do 2 f_equal.
  unfold nthZ. rewrite lookup_app_r by lia. rewrite Ht, Nat.sub_diag. simpl. lia.
Qed.

Lemma index_views m t i r : wf t -> index m t i = Ok r ->
  wf r /\ views r t (insert_at 0 (norm_dim (nthZ (shape t) 0) i)).
Proof.
  intros Hw H. unfold index in H. inv_ok. bool_to_prop. eapply select_views; [done| | |done|done]; [|lia].
  unfold ndim in *. pose proof (lenZ_nonneg (shape t)). lia.
Qed.

Lemma select_op_views m t dim i r : wf t -> select m t dim i = Ok r ->
  let d := norm_dim (ndim t) dim in wf r /\ views r t (insert_at d (norm_dim (nthZ (shape t) d) i)).
Proof.
  intros Hw H. unfold select in H. inv_ok. bool_to_prop. rewrite in_dims_spec in *.
  eapply select_views; [done|done| |done|done]. lia.
Qed.

Lemma narrow_views m t dim start len r : wf t -> narrow m t dim start len = Ok r ->
  wf r /\ views r t (sliced (norm_dim (ndim t) dim) start 1).
Proof.
  intros Hw H. unfold narrow in H. inv_ok. bool_to_prop. rewrite in_dims_spec in *.
  match goal with H : slice _ _ _ _ _ _ = Ok _ |- _ => apply slice_views in H as [Hw' Hv]; [|done] end.
  split; [done|]. by rewrite (norm_dim_id _ (norm_dim _ dim)), (norm_dim_id _ start) in Hv by lia.
Qed.

(** ** Given strides *)

Lemma strided_range_from l mn mx e mn' mx' e' :
  rfoldM (fun '(min_index, max_index, empty) '(n, s) =>
    let* _ := throw_if (n <? 0) (OutOfRange "as_strided: sizes must be non-negative (got ") in
    if n =? 0 then Ok (min_index, max_index, true)
    else
      let* extent := i64 ((n - 1) * s) in
      if extent >=? 0 then let* max_index := i64 (max_index + extent) in Ok (min_index, max_index, empty)
      else let* min_index := i64 (min_index + extent) in Ok (min_index, max_index, empty)) l (mn, mx, e) = Ok (mn', mx', e') ->
  Forall (fun d => 0 <= d) (map fst l) /\ mn' <= mn /\ mx <= mx' /\ (mx <= INT64_MAX -> mx' <= INT64_MAX) /\
  forall idx, valid_index (map fst l) idx -> e' = e /\ mn' <= mn + dot (map snd l) idx /\ mx + dot (map snd l) idx <= mx'.
Proof.
  revert mn mx e. induction l as [|[n s] l IH]; intros mn mx e H; cbn [rfoldM map fst snd] in *.
  { injection H as <- <- <-. split_and!; [constructor|lia|lia|lia|]. intros idx Hv. split; [done|]. cbn. lia. }
  inv_ok. bool_to_prop. destruct (Z.eqb_spec n 0) as [->|Hn].
  - inv_ok. subst. match goal with H : rfoldM _ _ _ = Ok _ |- _ => apply IH in H as (Hf & ? & ? & ? & _) end.
    split_and!; [by constructor|done|done|done|]. intros idx Hv. inversion Hv; subst. lia.
  - inv_ok. match goal with H : i64 _ = Ok _ |- _ => apply i64_Ok in H as [-> _] end.
    assert (forall i, 0 <= i < n -> Z.min 0 ((n - 1) * s) <= s * i <= Z.max 0 ((n - 1) * s)) as Hi.
    { intros i Hi. destruct (Z.le_gt_cases 0 s).
      - rewrite Z.min_l, Z.max_r by nia. nia.
      - rewrite Z.min_r, Z.max_l by nia. nia. }
    assert (exists mn1 mx1, x = (mn1, mx1, e) /\ mn1 = mn + Z.min 0 ((n - 1) * s) /\ mx1 = mx + Z.max 0 ((n - 1) * s) /\
      (mx <= INT64_MAX -> mx1 <= INT64_MAX)) as (mn1 & mx1 & -> & -> & -> & Hm).
    { case_if; bool_to_prop; inv_ok; match goal with H : i64 _ = Ok _ |- _ => apply i64_Ok in H as [-> ?] end; subst x;
        do 2 eexists; (split_and!; [done| | |]); lia. }
    apply IH in H0 as (Hf & ? & ? & ? & Hv). split; [constructor; [lia|done]|]. split; [lia|]. split; [lia|].
    split; [lia|]. intros idx Hx. inversion Hx as [|? i ? js Hi0 Hx']; subst.
    destruct (Hv js Hx') as (-> & ? & ?). specialize (Hi i Hi0). cbn. split; [done|]. lia.
Qed.

Lemma zip_fst (l k : list Z) : length l = length k -> map fst (zip l k) = l.
Proof. intros. apply fst_zip. lia. Qed.
Lemma zip_snd (l k : list Z) : length l = length k -> map snd (zip l k) = k.
Proof. intros. apply snd_zip. lia. Qed.

(** Whatever the strides, the view that [as_strided] returns lies in the storage. *)
Lemma as_strided_Ok m t size stride storage_offset r :
  INT64_MIN <= default (offset t) storage_offset <= INT64_MAX ->
  as_strided m t size stride storage_offset = Ok r ->
  r = with_geometry size stride (default (offset t) storage_offset) t /\ sound m r.
Proof.
  intros Ho H. unfold as_strided in H. inv_ok. bool_to_prop.
  match goal with H : strided_range _ _ _ = Ok ?p |- _ => destruct p as [[mn mx] e]; rename H into Hs end.
  inv_ok. subst r. split; [done|]. unfold strided_range in Hs. apply strided_range_from in Hs as (Hf & Hmn & Hmx & Hmax & Hv).
  assert (length size = length stride) as Hl by (unfold lenZ in *; lia).
  rewrite zip_fst, zip_snd in * by done. split; [by split|]. intros idx Hi. destruct (Hv idx Hi) as (-> & ? & ?).
  unfold addr, storage_elements. cbn [with_geometry offset strides storage dtype shape] in *.
  match goal with H : negb false && _ = false |- _ => simpl in H end. bool_to_prop.
  rewrite wrap_small in * by (unfold INT64_MAX in *; lia). unfold storage_elements in *. lia.
Qed.

(** Window [i] of dimension [d], element [j]. *)
Definition windowed (d step : Z) (idx : list Z) : list Z :=
  let w := take (length idx - 1) idx in <[Z.to_nat d := nthZ idx d * step + nthZ idx (lenZ idx - 1)]> w.

Lemma unfold_views m t dim size step r : wf t -> unfold m t dim size step = Ok r ->
  wf r /\ views r t (windowed (norm_dim (ndim t) dim) step).
Proof.
  intros [Hl Hn Hoff] H. unfold unfold in H. inv_ok. bool_to_prop. rewrite in_dims_spec in *. unfold ndim in *.
  set (d := norm_dim _ dim) in *. match goal with H : i64 _ = Ok _ |- _ => apply i64_Ok in H as [-> _] end.
  match goal with H : as_strided _ _ _ _ _ = Ok _ |- _ => apply as_strided_Ok in H as [-> [Hw _]]; [|done] end.
  set (nw := Z.quot (nthZ (shape t) d - size) step + 1) in *.
  assert (Z.to_nat d < length (shape t))%nat as Hd by (unfold lenZ in *; lia).
  match goal with |- context [with_geometry ?sh ?st ?off t] => apply (views_geometry sh st off) end; [done| |apply Hw|done|].
  { by rewrite !length_app, !length_insert, Hl. }
  intros idx Hv. pose proof (valid_length _ _ Hv) as Hli. rewrite length_app, length_insert in Hli. simpl in Hli.
  destruct (lookup_lt_is_Some_2 idx (length (shape t))) as [j Hj]; [lia|].
  rewrite <-(take_drop_middle _ _ _ Hj) in Hv. rewrite drop_ge in Hv by lia.
  assert (length (take (length (shape t)) idx) = length (shape t)) as Ht by (rewrite length_take; lia).
  apply Forall2_app_inv in Hv as [Hv Hj0]; [|by rewrite length_insert]. apply Forall2_cons in Hj0 as [Hj0 _].
  destruct (lookup_lt_is_Some_2 (take (length (shape t)) idx) (Z.to_nat d)) as [i Hi]; [lia|].
  assert (0 <= i < nw) as Hi0 by (eapply (valid_lookup _ _ _ _ _ Hv); [by rewrite list_lookup_insert_eq|done]).
  assert (nthZ idx d = i) as Ei by (unfold nthZ; rewrite lookup_take_lt in Hi by lia; by rewrite Hi).
  assert (nthZ idx (lenZ idx - 1) = j) as Ej.
  { unfold nthZ, lenZ. replace (Z.to_nat (Z.of_nat (length idx) - 1)) with (length (shape t)) by lia. by rewrite Hj. }
  unfold windowed. rewrite Ei, Ej. replace (length idx - 1)%nat with (length (shape t)) by lia.
  pose proof (nthZ_lookup (shape t) d ltac:(lia)) as Hsh. split.
  - eapply valid_insert; [exact Hv|exact Hsh|]. intros _ _ _. unfold nw in Hi0.
    rewrite Z.quot_div_nonneg in Hi0 by lia. pose proof (Z.mul_div_le (nthZ (shape t) d - size) step ltac:(lia)). nia.
  - rewrite <-(take_drop_middle _ _ _ Hj) at 1. rewrite drop_ge by lia. unfold addr.
    rewrite dot_app by (rewrite length_insert; lia). rewrite dot_insert_l, dot_insert_r by lia.
    rewrite Hi. unfold nthZ. cbn. lia.
Qed.

End Views.
