(* ===== verification/TensorKernels.v ===== *)
(** * The CPU kernels that move tensor elements

    src/backends/cpu/kernels/transform.cpp, with the methods of
    src/core/tensor.cpp and the functions of src/ops/transform.cpp that dispatch
    to them: [contiguous], [clone], [reshape], [flatten], [expand], [cat], [split]
    and the rest.  A kernel allocates its output and copies runs of elements
    with [memcpy]; its loops are written as the list of these copies, which
    OpenMP may run in any order.  An overflow of the index arithmetic or an
    access outside a storage is [UndefinedBehaviour]. *)

From stdpp Require Import base list numbers strings.
From S2P Require Import Prelude Shape DType Tensor.

Module Kernels.
Import Tensor.

(** What the backend's allocator answers; no object exceeds PTRDIFF_MAX. *)
Class Backend := {
  allocates : Mem -> Z -> bool;
  allocates_bound m n : allocates m n = true -> n <= INT64_MAX
}.

(** ** Memory *)

(** [memcpy] of [n] bytes; the ranges must lie in their storages and not overlap. *)
Definition memcpy (dst : nat) (dst_off : Z) (src : nat) (src_off n : Z) (m : Mem) : result Mem :=
  let l := default [] (m !! dst) in
  let k := default [] (m !! src) in
  if (0 <=? n) && (0 <=? dst_off) && (dst_off + n <=? lenZ l) && (0 <=? src_off) && (src_off + n <=? lenZ k) &&
     negb (bool_decide (dst = src) && (dst_off <? src_off + n) && (src_off <? dst_off + n))
  then Ok (<[dst := take (Z.to_nat dst_off) l ++ take (Z.to_nat n) (drop (Z.to_nat src_off) k) ++
                    drop (Z.to_nat (dst_off + n)) l]> m)
  else Err UndefinedBehaviour.

(** A run of [c_count] elements. *)
Record Copy := mkCopy { c_dst : Z; c_src : Z; c_count : Z }.

(** The order in which a parallel loop runs its iterations. *)
Class Omp := {
  omp : list Copy -> list Copy;
  omp_perm l : omp l ≡ₚ l
}.

Definition copy_all (esize : Z) (dst src : nat) (jobs : list Copy) (m : Mem) : result Mem :=
  rfoldM (fun m j => memcpy dst (c_dst j * esize) src (c_src j * esize) (c_count j * esize) m) jobs m.

(** The copies of [for (i = 0; i < n; ++i)]. *)
Definition for_each (n : Z) (f : Z -> result (list Copy)) : result (list Copy) :=
  rmap (@concat Copy) (rmapM f (seqZ 0 n)).

(** [a * b + c] and [acc + i * stride] in [int64_t]. *)
Definition mul_add (a b c : Z) : result Z := let* p := i64 (a * b) in i64 (p + c).
Definition mac (acc i stride : Z) : result Z := let* p := i64 (i * stride) in i64 (acc + p).
Definition prod_i64 (l : list Z) : result Z := rfoldM (fun r d => i64 (r * d)) l 1.

Section Kernels.
Context `{!Backend, !Omp}.

(** ** Construction and access *)

(** The constructor [TensorImpl(shape, dtype, device, zero_init)]. *)
Definition new_tensor (zero_init : bool) (sh : list Z) (dt : DType) (m : Mem) : result (TensorImpl * Mem) :=
  let* _ := throw_if (existsb (fun d => d <? 0) sh) (InvalidArgument "Tensor: shape dimensions must be non-negative") in
  let* st := TShape.compute_strides sh in
  let* n := numel_of size_overflow sh in
  let* _ := throw_if ((n >? 0) && (n >? Z.quot UINT64_MAX (dtype_size dt))) (OverflowError "Tensor allocation size overflow") in
  let size := n * dtype_size dt in
  let* _ := throw_if (negb (allocates m size) && (size >? 0)) (RuntimeError "Failed to allocate memory for tensor") in
  Ok (mkTensor (length m) sh st 0 dt false None None (-1),
      m ++ [replicate (Z.to_nat size) (if zero_init then Some 0 else None)]).

(** [data<uint8_t>()]: checks the reachable range and points to the first
    element, here by its position in the storage. *)
Definition data (m : Mem) (t : TensorImpl) : result Z :=
  let* n := numel t in
  let* _ :=
    if n >? 0 then
      let* '(min_offset, max_offset) := rfoldM (fun '(min_offset, max_offset) '(d, s) =>
        if negb (d >? 0) then Ok (min_offset, max_offset)
        else
          let* extent := checked_mul (d - 1) s in
          if extent >=? 0 then let* max_offset := checked_add max_offset extent in Ok (min_offset, max_offset)
          else let* min_offset := checked_add min_offset extent in Ok (min_offset, max_offset))
        (zip (shape t) (strides t)) (offset t, offset t) in
      throw_if ((min_offset <? 0) || (wrap 64 max_offset >=? storage_elements m t))
        (OutOfRange "Tensor data access: reachable offset exceeds storage bounds")
    else Ok tt in
  let* _ := checked_mul (offset t) (dtype_size (dtype t)) in
  Ok (offset t).

(** ** contiguous_kernel *)

(** The loop over the dimensions from the last one: the size of the block that
    lies contiguously, and the first dimension of the block. *)
Fixpoint inner_block (rev_dims : list (Z * Z)) (inner_block_size expected_stride : Z) (block_dim : nat)
    : result (Z * nat) :=
  match rev_dims with
  | [] => Ok (inner_block_size, block_dim)
  | (d, s) :: rest =>
      if s =? expected_stride then
        let* size := i64 (inner_block_size * d) in
        let* expected := i64 (expected_stride * d) in
        inner_block rest size expected (block_dim - 1)
      else Ok (inner_block_size, block_dim)
  end.

(** The source position of a linear index over the dimensions, from the last
    one to the first. *)
Definition source_position (rev_dims : list (Z * Z)) (temp acc : Z) : result Z :=
  rmap snd (rfoldM (fun '(temp, acc) '(d, s) =>
    let* acc := mac acc (Z.rem temp d) s in Ok (Z.quot temp d, acc)) rev_dims (temp, acc)).

Definition contiguous_4d (d0 d1 d2 d3 s0 s1 s2 s3 input_offset : Z) : result (list Copy) :=
  for_each d0 (fun i0 => for_each d1 (fun i1 => for_each d2 (fun i2 =>
    let* a := mac input_offset i0 s0 in
    let* a := mac a i1 s1 in
    let* src_base := mac a i2 s2 in
    let* b := mul_add i0 d1 i1 in
    let* b := mul_add b d2 i2 in
    let* dst_base := i64 (b * d3) in
    if s3 =? 1 then Ok [mkCopy dst_base src_base d3]
    else for_each d3 (fun i3 =>
      let* d := i64 (dst_base + i3) in
      let* s := mac src_base i3 s3 in Ok [mkCopy d s 1])))).

Definition contiguous_3d (d0 d1 d2 s0 s1 s2 input_offset : Z) : result (list Copy) :=
  for_each d0 (fun i0 => for_each d1 (fun i1 =>
    let* a := mac input_offset i0 s0 in
    let* src_base := mac a i1 s1 in
    let* b := mul_add i0 d1 i1 in
    let* dst_base := i64 (b * d2) in
    if s2 =? 1 then Ok [mkCopy dst_base src_base d2]
    else for_each d2 (fun i2 =>
      let* d := i64 (dst_base + i2) in
      let* s := mac src_base i2 s2 in Ok [mkCopy d s 1]))).

Definition contiguous_copies (t : TensorImpl) (total_elements : Z) : result (list Copy) :=
  let dims := zip (shape t) (strides t) in
  let* '(inner_block_size, block_dim) := inner_block (rev dims) 1 1 (length dims) in
  let num_blocks := Z.quot total_elements inner_block_size in
  let by_blocks :=
    for_each num_blocks (fun block_idx =>
      let* s := source_position (rev (take block_dim dims)) block_idx (offset t) in
      let* d := i64 (block_idx * inner_block_size) in Ok [mkCopy d s inner_block_size]) in
  let by_elements :=
    for_each total_elements (fun i =>
      let* s := source_position (rev dims) i (offset t) in Ok [mkCopy i s 1]) in
  match shape t, strides t with
  | [d0; d1; d2; d3], [s0; s1; s2; s3] =>
      if inner_block_size >? 1 then contiguous_4d d0 d1 d2 d3 s0 s1 s2 s3 (offset t) else by_elements
  | [d0; d1; d2], [s0; s1; s2] =>
      if inner_block_size >? 1 then contiguous_3d d0 d1 d2 s0 s1 s2 (offset t) else by_elements
  | [], _ => Ok [mkCopy 0 (offset t) 1]
  | _, _ => if (0 <? block_dim)%nat && (inner_block_size >? 1) then by_blocks else by_elements
  end.

Definition contiguous_kernel (input : TensorImpl) (m : Mem) : result (TensorImpl * Mem) :=
  let* c := is_contiguous input in
  if c then Ok (input, m)
  else
    let* '(r, m) := new_tensor false (shape input) (dtype input) m in
    let* total_elements := numel input in
    if total_elements =? 0 then Ok (r, m)
    else
      let* jobs := contiguous_copies input total_elements in
      let* m := copy_all (dtype_size (dtype input)) (storage r) (storage input) (omp jobs) m in
      Ok (r, m).

(** [Tensor::contiguous] dispatches to the kernel. *)
Definition contiguous (t : TensorImpl) (m : Mem) : result (TensorImpl * Mem) :=
  let* c := is_contiguous t in
  if c then Ok (t, m) else contiguous_kernel t m.

Definition clone (t : TensorImpl) (m : Mem) : result (TensorImpl * Mem) :=
  let* '(src, m) := contiguous t m in
  let* '(r, m) := new_tensor false (shape t) (dtype t) m in
  let* n := numel src in
  let* size_bytes := checked_mul n (dtype_size (dtype src)) in
  let* position := checked_mul (offset src) (dtype_size (dtype src)) in
  let* m := memcpy (storage r) 0 (storage src) position size_bytes m in
  Ok (with_requires_grad (requires_grad t) r, m).

(** ** Reshaping *)

(** A view of a contiguous tensor, of a contiguous copy otherwise. *)
Definition reshape_kernel (input : TensorImpl) (new_shape : list Z) (m : Mem) : result (TensorImpl * Mem) :=
  let* '(src, m) := contiguous input m in
  let* st := TShape.compute_strides new_shape in
  Ok (with_geometry new_shape st (offset src) src, m).

Definition shape_incompatible : exn :=
  InvalidArgument "Shape incompatible with number of elements: trying to reshape ".

Definition reshape (t : TensorImpl) (new_shape : list Z) (m : Mem) : result (TensorImpl * Mem) :=
  let* _ := throw_if (per_channel t) (RuntimeError "reshape: cannot reshape a per-channel quantized tensor (the per-channel quantization axis cannot be tracked)") in
  let* sh := resolve_shape shape_incompatible t new_shape in
  let* '(src, m) := contiguous t m in
  reshape_kernel src sh m.

Definition flatten (t : TensorImpl) (start_dim end_dim : Z) (m : Mem) : result (TensorImpl * Mem) :=
  if ndim t =? 0 then rmap (fun r => (r, m)) (view t [1])
  else
    let start_dim := norm_dim (ndim t) start_dim in
    let end_dim := norm_dim (ndim t) end_dim in
    let* _ := throw_if (negb (in_dims (ndim t) start_dim)) (RuntimeError "start_dim out of range") in
    let* _ := throw_if (negb (in_dims (ndim t) end_dim)) (RuntimeError "end_dim out of range") in
    let* _ := throw_if (start_dim >? end_dim) (InvalidArgument "start_dim must be <= end_dim") in
    let before := take (Z.to_nat start_dim) (shape t) in
    let middle := drop (Z.to_nat start_dim) (take (S (Z.to_nat end_dim)) (shape t)) in
    let* flat_size := prod_i64 middle in
    reshape t (before ++ [flat_size] ++ drop (S (Z.to_nat end_dim)) (shape t)) m.

(** ** Expansion *)

Definition expand_kernel (input : TensorImpl) (target_shape : list Z) (m : Mem) : result (TensorImpl * Mem) :=
  let dim_diff := lenZ target_shape - ndim input in
  let* new_strides := rmapM (fun '(i, target) =>
    let in_idx := i - dim_diff in
    if 0 <=? in_idx then
      if nthZ (shape input) in_idx =? target then Ok (nthZ (strides input) in_idx)
      else if nthZ (shape input) in_idx =? 1 then Ok 0
      else Err (RuntimeError "expand: incompatible shapes")
    else Ok 0) (imap (fun i target => (Z.of_nat i, target)) target_shape) in
  contiguous_kernel (with_geometry target_shape new_strides (offset input) input) m.

(** [expand]: -1 keeps the dimension it is aligned with. *)
Definition expand (input : TensorImpl) (target : list Z) (m : Mem) : result (TensorImpl * Mem) :=
  let dim_offset := lenZ target - ndim input in
  let* _ := throw_if (lenZ target <? ndim input)
              (RuntimeError "Expanded shape must have at least as many dimensions as input") in
  let* target := rmapM (fun '(i, d) =>
    if d =? -1 then
      if i - dim_offset <? 0 then Err (RuntimeError "expand: the expanded size of the tensor (-1) isn't allowed in a leading (new) dimension")
      else Ok (nthZ (shape input) (i - dim_offset))
    else Ok d) (imap (fun i d => (Z.of_nat i, d)) target) in
  let* _ := throw_if (negb (forallb (fun '(i, d) =>
      let in_size := nthZ (shape input) (i - dim_offset) in
      (i - dim_offset <? 0) || (in_size =? 1) || (in_size =? d)) (imap (fun i d => (Z.of_nat i, d)) target)))
    (RuntimeError "Cannot expand dimension from non-1 size to different size") in
  if bool_decide (target = shape input) then Ok (input, m)
  else expand_kernel input target m.

(** ** Joining and cutting *)

(** The sizes before and after a dimension. *)
Definition outer_size (sh : list Z) (dim : Z) : result Z := prod_i64 (take (Z.to_nat dim) sh).
Definition inner_size (sh : list Z) (dim : Z) : result Z := prod_i64 (drop (S (Z.to_nat dim)) sh).

(** One input of [cat_kernel], whose rows go to [off] along the dimension. *)
Definition cat_one (dim cat_dim_size : Z) (out : TensorImpl) (esize : Z) (t : TensorImpl) (off : Z) (m : Mem)
    : result (Z * Mem) :=
  let* '(c, m) := contiguous t m in
  let t_dim_size := nthZ (shape c) dim in
  let* outer := outer_size (shape c) dim in
  let* inner := inner_size (shape c) dim in
  let* src := data m c in
  let* jobs := for_each outer (fun o =>
    let* a := i64 (o * t_dim_size) in
    let* src_idx := i64 (a * inner) in
    let* b := i64 (o * cat_dim_size) in
    let* c := i64 (b * inner) in
    let* d := i64 (off * inner) in
    let* dst_idx := i64 (c + d) in
    let* n := i64 (t_dim_size * inner) in
    Ok [mkCopy dst_idx (src + src_idx) n]) in
  let* m := copy_all esize (storage out) (storage c) jobs m in
  let* off := i64 (off + t_dim_size) in
  Ok (off, m).

Definition cat_kernel (tensors : list TensorImpl) (dim : Z) (m : Mem) : result (TensorImpl * Mem) :=
  match tensors with
  | [] => Err (RuntimeError "cat requires at least one tensor")
  | t0 :: _ =>
      let dim := norm_dim (ndim t0) dim in
      let* _ := throw_if (negb (in_dims (ndim t0) dim)) (RuntimeError "cat_kernel: dim out of range") in
      let* cat_dim_size := rfoldM (fun n t => i64 (n + nthZ (shape t) dim)) tensors 0 in
      let* '(out, m) := new_tensor false (<[Z.to_nat dim := cat_dim_size]> (shape t0)) (dtype t0) m in
      let* '(_, m) := rfoldM (fun '(off, m) t => cat_one dim cat_dim_size out (dtype_size (dtype t0)) t off m)
                        tensors (0, m) in
      Ok (out, m)
  end.

(** [cat]; [to_dtype] is [Tensor::to(DType)]. *)
Definition cat (to_dtype : TensorImpl -> DType -> Mem -> result (TensorImpl * Mem)) (tensors : list TensorImpl)
    (dim : Z) (m : Mem) : result (TensorImpl * Mem) :=
  match tensors with
  | [] => Err (RuntimeError "Cannot concatenate empty tensor list")
  | [t] => Ok (t, m)
  | t0 :: _ =>
      let common := foldl (fun c t => promote_types c (dtype t)) (dtype t0) tensors in
      let* '(inputs, m) := rfoldM (fun '(inputs, m) t =>
        if bool_decide (dtype t = common) then Ok (inputs ++ [t], m)
        else let* '(t, m) := to_dtype t common m in Ok (inputs ++ [t], m)) tensors ([], m) in
      let first_shape := shape (default t0 (head inputs)) in
      let dim := norm_dim (lenZ first_shape) dim in
      let* _ := throw_if (negb (in_dims (lenZ first_shape) dim)) (RuntimeError "Dimension out of range for concatenation") in
      let* _ := rmapM (fun t =>
        let* _ := throw_if (negb (length (shape t) =? length first_shape)%nat)
                    (RuntimeError "All tensors must have the same number of dimensions") in
        throw_if (negb (bool_decide (<[Z.to_nat dim := 0]> (shape t) = <[Z.to_nat dim := 0]> first_shape)))
          (RuntimeError "All tensors must have the same shape except in the concatenation dimension")) inputs in
      cat_kernel inputs dim m
  end.

(** A strided slice is copied, one of step 1 is a view. *)
Definition slice_kernel (input : TensorImpl) (dim start end_ step : Z) (m : Mem) : result (TensorImpl * Mem) :=
  let sh := shape input in
  let dim := norm_dim (ndim input) dim in
  let* _ := throw_if (negb (in_dims (ndim input) dim)) (RuntimeError "slice_kernel: dim out of range") in
  let* _ := throw_if (step <=? 0) (InvalidArgument "slice_kernel: step must be positive (got ") in
  let n := nthZ sh dim in
  let start := Z.max 0 (Z.min (norm_dim n start) n) in
  let end_ := Z.max 0 (Z.min (norm_dim n end_) n) in
  let* sum := i64 (end_ - start + step) in
  let slice_size := Z.max 0 (Z.quot (sum - 1) step) in
  let new_shape := <[Z.to_nat dim := slice_size]> sh in
  if step =? 1 then
    let* off := mac (offset input) start (nthZ (strides input) dim) in
    Ok (with_geometry new_shape (strides input) off input, m)
  else
    let* '(in_c, m) := contiguous input m in
    let* '(out, m) := new_tensor false new_shape (dtype input) m in
    let* outer := outer_size sh dim in
    let* inner := inner_size sh dim in
    let* jobs := for_each outer (fun o => for_each slice_size (fun k =>
      let* s := mul_add k step start in
      let* a := mul_add o n s in
      let* src_idx := i64 (a * inner) in
      let* d := mul_add o slice_size k in
      let* dst_idx := i64 (d * inner) in
      Ok [mkCopy dst_idx (offset in_c + src_idx) inner])) in
    let* m := copy_all (dtype_size (dtype input)) (storage out) (storage in_c) jobs m in
    Ok (out, m).

(** ** Rearrangements *)

(** Kernels that fill a new tensor from a contiguous copy; [copies] is their
    loop over the elements of the output, relative to the data of the copy. *)
Definition gather_kernel (zero_init : bool) (input : TensorImpl) (out_shape : list Z)
    (copies : Z -> result (list Copy)) (m : Mem) : result (TensorImpl * Mem) :=
  let* '(c, m) := contiguous input m in
  let* '(out, m) := new_tensor zero_init out_shape (dtype input) m in
  let* total := numel_of size_overflow out_shape in
  if total =? 0 then Ok (out, m)
  else
    let* src := data m c in
    let* jobs := copies total in
    let* m := copy_all (dtype_size (dtype input)) (storage out) (storage c)
                (omp (map (fun j => mkCopy (c_dst j) (src + c_src j) (c_count j)) jobs)) m in
    Ok (out, m).

(** The loop in which element [i] of the output comes from element [source i]. *)
Definition each (source : Z -> result Z) (total : Z) : result (list Copy) :=
  for_each total (fun i => let* s := source i in Ok [mkCopy i s 1]).

(** The coordinates of a linear index, from the last dimension to the first. *)
Fixpoint coordinates (rev_shape : list Z) (temp : Z) : list Z :=
  match rev_shape with
  | [] => []
  | d :: rest => coordinates rest (Z.quot temp d) ++ [Z.rem temp d]
  end.

(** Row-major strides, computed from the last dimension without a check. *)
Definition packed_strides (sh : list Z) : result (list Z) :=
  rmap fst (rfoldM (fun '(st, s) d => let* s' := i64 (s * d) in Ok (s :: st, s')) (rev sh) ([], 1)).

Definition flip_kernel (input : TensorImpl) (dims : list Z) (m : Mem) : result (TensorImpl * Mem) :=
  let n := ndim input in
  let dims := map (norm_dim n) dims in
  let* _ := throw_if (negb (forallb (in_dims n) dims)) (RuntimeError "flip: dimension ") in
  let sh := shape input in
  gather_kernel true input sh (fun total =>
    let* st := packed_strides sh in
    each (fun out_idx =>
      rfoldM (fun in_idx '(i, (c, s)) =>
        let c := if bool_decide (i ∈ dims) then nthZ sh i - 1 - c else c in
        mac in_idx c s) (imap (fun i p => (Z.of_nat i, p)) (zip (coordinates (rev sh) out_idx) st)) 0) total) m.

(** [OpId::Flip] without dimensions flips the first one. *)
Definition flip (input : TensorImpl) (dims : list Z) (m : Mem) : result (TensorImpl * Mem) :=
  let n := ndim input in
  let dims := map (norm_dim n) dims in
  let* _ := throw_if (negb (forallb (in_dims n) dims)) (RuntimeError "flip: dimension ") in
  flip_kernel input (match dims with [] => [0] | _ => dims end) m.

(** The position of an index (outer, k, inner) along [dim]. *)
Definition along (dim_size inner outer k inner_idx : Z) : result Z :=
  let* a := mul_add outer dim_size k in mul_add a inner inner_idx.

Definition roll_kernel (input : TensorImpl) (shift dim : Z) (m : Mem) : result (TensorImpl * Mem) :=
  let sh := shape input in
  let dim := norm_dim (ndim input) dim in
  let* _ := throw_if (negb (in_dims (ndim input) dim)) (OutOfRange "roll: dimension out of range (got ") in
  gather_kernel true input sh (fun total =>
    let dim_size := nthZ sh dim in
    let* a := i64 (Z.rem shift dim_size + dim_size) in
    let shift := Z.rem a dim_size in
    if shift =? 0 then Ok [mkCopy 0 0 total]
    else
      let* inner := inner_size sh dim in
      let* block := i64 (inner * dim_size) in
      each (fun i =>
        let inner_idx := Z.rem i inner in
        let dim_idx := Z.rem (Z.quot i inner) dim_size in
        let outer_idx := Z.quot i block in
        let* moved := i64 (dim_idx - shift + dim_size) in
        let src_dim_idx := Z.rem moved dim_size in
        along dim_size inner outer_idx src_dim_idx inner_idx) total) m.

Definition repeat_interleave_scalar_kernel (input : TensorImpl) (repeats dim : Z) (m : Mem) : result (TensorImpl * Mem) :=
  let sh := shape input in
  let dim := norm_dim (ndim input) dim in
  let* _ := throw_if (negb (in_dims (ndim input) dim)) (RuntimeError "repeat_interleave_scalar_kernel: dim out of range") in
  let dim_size := nthZ sh dim in
  let* out_dim := i64 (dim_size * repeats) in
  gather_kernel true input (<[Z.to_nat dim := out_dim]> sh) (fun total =>
    let* inner := inner_size sh dim in
    let* block := i64 (inner * out_dim) in
    each (fun i =>
      let inner_idx := Z.rem i inner in
      let out_dim_idx := Z.rem (Z.quot i inner) out_dim in
      let outer_idx := Z.quot i block in
      along dim_size inner outer_idx (Z.quot out_dim_idx repeats) inner_idx) total) m.

(** The binary search for the largest [k] with [prefix[k] <= x]. *)
Fixpoint search_prefix (fuel : nat) (prefix : list Z) (x lo hi : Z) : result Z :=
  if lo <? hi then
    match fuel with
    | O => Err Diverged
    | S fuel =>
        let mid := lo + Z.quot (hi - lo) 2 in
        if nthZ prefix (mid + 1) <=? x then search_prefix fuel prefix x (mid + 1) hi
        else search_prefix fuel prefix x lo mid
    end
  else Ok lo.

(** [prefix[i]] is the sum of the first [i] repeat counts. *)
Definition prefix_sums (reps : list Z) : result (list Z) :=
  rfoldM (fun prefix r => let* s := i64 (default 0 (last prefix) + r) in Ok (prefix ++ [s])) reps [0].

(** [repeats] holds the entries of the repeats tensor, converted to integers. *)
Definition repeat_interleave_tensor_kernel (input : TensorImpl) (repeats : list Z) (dim : Z) (m : Mem)
    : result (TensorImpl * Mem) :=
  let sh := shape input in
  let dim := norm_dim (ndim input) dim in
  let* _ := throw_if (negb (in_dims (ndim input) dim)) (RuntimeError "repeat_interleave_tensor_kernel: dim out of range") in
  let dim_size := nthZ sh dim in
  let* _ := throw_if (lenZ repeats <? dim_size) (RuntimeError "repeat_interleave_tensor_kernel: repeats tensor length (") in
  let reps := take (Z.to_nat dim_size) repeats in
  let* _ := throw_if (existsb (fun r => r <? 0) reps) (InvalidArgument "repeat_interleave: negative repeat count") in
  let* prefix := prefix_sums reps in
  let total_repeats := default 0 (last prefix) in
  gather_kernel true input (<[Z.to_nat dim := total_repeats]> sh) (fun total =>
    let* inner := inner_size sh dim in
    let* block := i64 (inner * total_repeats) in
    each (fun i =>
      let inner_idx := Z.rem i inner in
      let out_dim_idx := Z.rem (Z.quot i inner) total_repeats in
      let outer_idx := Z.quot i block in
      let* src_dim_idx := search_prefix (Z.to_nat dim_size) prefix out_dim_idx 0 dim_size in
      along dim_size inner outer_idx src_dim_idx inner_idx) total) m.

(** The last dimensions of the output repeat those of the input. *)
Definition repeat_kernel (input : TensorImpl) (repeats : list Z) (m : Mem) : result (TensorImpl * Mem) :=
  let dim_diff := lenZ repeats - ndim input in
  let effective := imap (fun i _ => let in_idx := Z.of_nat i - dim_diff in
                           if 0 <=? in_idx then nthZ (shape input) in_idx else 1) repeats in
  let* out_shape := rmapM (fun '(d, r) => i64 (d * r)) (zip effective repeats) in
  let* in_strides := TShape.compute_strides effective in
  gather_kernel true input out_shape (fun total =>
    let* out_strides := TShape.compute_strides out_shape in
    each (fun idx =>
      rmap snd (rfoldM (fun '(remaining, src_linear) '(s, (d, s')) =>
        let coord := Z.quot remaining s in
        let* src_linear := mac src_linear (Z.rem coord d) s' in
        Ok (Z.rem remaining s, src_linear)) (zip out_strides (zip effective in_strides)) (idx, 0))) total) m.

End Kernels.
End Kernels.
