(* ===== verification/TensorCopy.v ===== *)
(** * Copying elements

    A kernel that allocates its output and copies every element from where a
    function says is correct in any order of its copies: the elements of the
    output are those of the source, nothing else changes, and no access leaves a
    storage.  [contiguous_kernel] is one, whichever of its paths it takes. *)

From stdpp Require Import base list numbers strings.
From S2P Require Import Prelude MapSums Shape DType Tensor TensorViews TensorKernels.

Module Copying.
Import Sums Tensor Views Kernels.

(** ** Bytes and cells *)

Definition bytes (m : Mem) (s : nat) : Storage := default [] (m !! s).

(** Element [i] of a storage whose elements have [e] bytes. *)
Definition cell (e : Z) (l : Storage) (i : Z) : list Byte := take (Z.to_nat e) (drop (Z.to_nat (i * e)) l).

Lemma elem_cell m t idx : elem m t idx = cell (dtype_size (dtype t)) (bytes m (storage t)) (addr t idx).
Proof. done. Qed.

Lemma lookup_cell e l i x : cell e l i !! x = if decide (x < Z.to_nat e)%nat then l !! (Z.to_nat (i * e) + x)%nat else None.
Proof.
  unfold cell. destruct (decide (x < Z.to_nat e)%nat).
  - by rewrite lookup_take_lt, lookup_drop.
  - by rewrite lookup_take_ge by lia.
Qed.

(** What [memcpy] leaves in the destination. *)
Definition splice (l k : Storage) (d s n : Z) : Storage :=
  take (Z.to_nat d) l ++ take (Z.to_nat n) (drop (Z.to_nat s) k) ++ drop (Z.to_nat (d + n)) l.

Lemma length_splice l k d s n : 0 <= n -> 0 <= d -> d + n <= lenZ l -> 0 <= s -> s + n <= lenZ k ->
  lenZ (splice l k d s n) = lenZ l.
Proof.
  intros. unfold splice, lenZ in *. rewrite !length_app, !length_take, !length_drop. lia.
Qed.

Lemma lookup_splice l k d s n p : 0 <= n -> 0 <= d -> d + n <= lenZ l -> 0 <= s -> s + n <= lenZ k -> 0 <= p ->
  splice l k d s n !! Z.to_nat p = if decide (d <= p < d + n) then k !! Z.to_nat (s + (p - d)) else l !! Z.to_nat p.
Proof.
  intros Hn Hd Hl Hs Hk Hp. unfold splice, lenZ in *.
  assert (length (take (Z.to_nat d) l) = Z.to_nat d) as H1 by (rewrite length_take; lia).
  assert (length (take (Z.to_nat n) (drop (Z.to_nat s) k)) = Z.to_nat n) as H2 by (rewrite length_take, length_drop; lia).
  destruct (decide (d <= p < d + n)) as [H|H].
  - rewrite lookup_app_r by lia. rewrite H1, lookup_app_l by lia. rewrite lookup_take_lt, lookup_drop by lia. f_equal. lia.
  - destruct (decide (p < d)).
    + rewrite lookup_app_l by lia. by rewrite lookup_take_lt by lia.
    + rewrite !lookup_app_r by lia. rewrite H1, H2, lookup_drop. f_equal. lia.
Qed.

Lemma cell_splice e l k a b c i : 0 < e -> 0 <= a -> 0 <= b -> 0 <= c -> (a + c) * e <= lenZ l -> (b + c) * e <= lenZ k ->
  0 <= i ->
  cell e (splice l k (a * e) (b * e) (c * e)) i = if decide (a <= i < a + c) then cell e k (b + (i - a)) else cell e l i.
Proof.
  intros He Ha Hb Hc Hl Hk Hi. apply list_eq. intros x. rewrite lookup_cell.
  assert (forall (P : Prop) `{Decision P} (u v : list Byte), (if decide P then u else v) !! x = if decide P then u !! x else v !! x)
    as Hif by (intros P ? u v; by destruct (decide P)).
  rewrite Hif, !lookup_cell. destruct (decide (x < Z.to_nat e)%nat) as [Hx|]; [|by destruct (decide _)].
  replace (Z.to_nat (i * e) + x)%nat with (Z.to_nat (i * e + Z.of_nat x)) by nia.
  rewrite lookup_splice by nia. destruct (decide (a <= i < a + c)) as [H|H].
  - rewrite decide_True by nia. f_equal. nia.
  - rewrite decide_False by nia. done.
Qed.

(** ** Runs of copies *)

Record fits (e : Z) (ld ls : Storage) (j : Copy) : Prop := mkFits {
  f_dst : 0 <= c_dst j; f_src : 0 <= c_src j; f_count : 0 <= c_count j;
  f_to : (c_dst j + c_count j) * e <= lenZ ld; f_from : (c_src j + c_count j) * e <= lenZ ls
}.

Definition covers (i : Z) (j : Copy) : Prop := c_dst j <= i < c_dst j + c_count j.

Lemma memcpy_Ok m dst src e ld ls j : 0 < e -> dst <> src -> m !! dst = Some ld -> m !! src = Some ls -> fits e ld ls j ->
  memcpy dst (c_dst j * e) src (c_src j * e) (c_count j * e) m =
  Ok (<[dst := splice ld ls (c_dst j * e) (c_src j * e) (c_count j * e)]> m).
Proof.
  intros He Hne Hd Hs [H1 H2 H3 H4 H5]. unfold memcpy. rewrite Hd, Hs. simpl.
  rewrite (bool_decide_false (dst = src)) by done. rewrite !andb_false_l, andb_true_r.
  rewrite !(proj2 (Z.leb_le _ _)) by nia. done.
Qed.

(** In any order, a cell that is copied only from [c] and somewhere holds [c]. *)
Lemma copy_all_Ok m dst src e ld ls jobs : 0 < e -> dst <> src -> m !! dst = Some ld -> m !! src = Some ls ->
  (forall j, j ∈ jobs -> fits e ld ls j) ->
  exists ld', copy_all e dst src jobs m = Ok (<[dst := ld']> m) /\ lenZ ld' = lenZ ld /\
    forall i c, 0 <= i -> (forall j, j ∈ jobs -> covers i j -> cell e ls (c_src j + (i - c_dst j)) = c) ->
      (exists j, j ∈ jobs /\ covers i j) \/ cell e ld i = c -> cell e ld' i = c.
Proof.
  intros He Hne. revert m ld. induction jobs as [|j jobs IH]; intros m ld Hd Hs Hf.
  { exists ld. split_and!; [cbn; by rewrite list_insert_id|done|]. intros i c _ _ [(j & Hj & _)|H]; [|done].
    by apply elem_of_nil in Hj. }
  pose proof (Hf j (list_elem_of_here _ _)) as Hj. destruct Hj as [H1 H2 H3 H4 H5].
  pose proof (length_splice ld ls (c_dst j * e) (c_src j * e) (c_count j * e)) as Hls.
  destruct (IH (<[dst := splice ld ls (c_dst j * e) (c_src j * e) (c_count j * e)]> m)
              (splice ld ls (c_dst j * e) (c_src j * e) (c_count j * e))) as (ld' & Hrun & Hlen & Hcell).
  - apply list_lookup_insert_eq. by eapply lookup_lt_Some.
  - by rewrite list_lookup_insert_ne.
  - intros j' Hj'. destruct (Hf j' (list_elem_of_further _ _ _ Hj')). split; try done. rewrite Hls by nia. done.
  - exists ld'. split_and!.
    + unfold copy_all in *. cbn [rfoldM]. erewrite memcpy_Ok by done. cbn [rbind]. rewrite Hrun. by rewrite list_insert_insert_eq.
    + rewrite Hlen. apply Hls; nia.
    + intros i c Hi Hall Hone. apply Hcell; [done|intros j' Hj'; apply Hall; by right|]. rewrite cell_splice by done.
      unfold covers in *. destruct (decide (c_dst j <= i < c_dst j + c_count j)) as [Hc|Hc].
      * right. apply Hall; [left|done].
      * destruct Hone as [(j' & [->|Hj']%elem_of_cons & Hc')|]; [tauto|left; by exists j'|by right].
Qed.

(** [jobs] fill the elements below [n], element [i] from source element [G i]. *)
Record gathers (n : Z) (G : Z -> Z) (jobs : list Copy) : Prop := mkGathers {
  g_sound j : j ∈ jobs -> 0 < c_count j /\ forall i, covers i j -> 0 <= i < n /\ c_src j + (i - c_dst j) = G i;
  g_complete i : 0 <= i < n -> exists j, j ∈ jobs /\ covers i j
}.

Lemma gathers_perm n G jobs jobs' : jobs ≡ₚ jobs' -> gathers n G jobs -> gathers n G jobs'.
Proof.
  intros Hp [Hs Hc]. split.
  - intros j Hj. apply Hs. by rewrite Hp.
  - intros i Hi. destruct (Hc i Hi) as (j & Hj & ?). exists j. by rewrite <-Hp.
Qed.

Lemma copy_all_gathers m dst src e ld ls n G jobs : 0 < e -> dst <> src -> m !! dst = Some ld -> m !! src = Some ls ->
  gathers n G jobs -> n * e <= lenZ ld -> (forall i, 0 <= i < n -> 0 <= G i /\ (G i + 1) * e <= lenZ ls) ->
  exists ld', copy_all e dst src jobs m = Ok (<[dst := ld']> m) /\ lenZ ld' = lenZ ld /\
    forall i, 0 <= i < n -> cell e ld' i = cell e ls (G i).
Proof.
  intros He Hne Hd Hs [Hj Hc] Hn HG.
  destruct (copy_all_Ok m dst src e ld ls jobs He Hne Hd Hs) as (ld' & Hrun & Hlen & Hcell).
  - intros j Hin. destruct (Hj j Hin) as [Hpos Hcov]. unfold covers in Hcov.
    destruct (Hcov (c_dst j)) as [[? ?] E1]; [lia|]. destruct (Hcov (c_dst j + c_count j - 1)) as [[? ?] E2]; [lia|].
    destruct (HG (c_dst j)) as [? _]; [lia|]. destruct (HG (c_dst j + c_count j - 1)) as [_ ?]; [lia|]. split; nia.
  - exists ld'. split_and!; [done|done|]. intros i Hi. apply Hcell; [lia| |left; by apply Hc].
    intros j Hin Hcov. destruct (Hj j Hin) as [_ E]. by destruct (E i Hcov) as [_ ->].
Qed.

(** ** Loops *)

Lemma for_each_Ok n f (P : Z -> Copy -> Prop) :
  (forall i, 0 <= i < n -> exists js, f i = Ok js /\ forall j, j ∈ js <-> P i j) ->
  exists js, for_each n f = Ok js /\ forall j, j ∈ js <-> exists i, 0 <= i < n /\ P i j.
Proof.
  intros H. unfold for_each.
  assert (forall l, (forall i, i ∈ l -> 0 <= i < n) -> exists jss, rmapM f l = Ok jss /\
    forall j, j ∈ concat jss <-> exists i, i ∈ l /\ P i j) as Hl.
  { induction l as [|i l IH]; intros Hl.
    - exists []. split; [done|]. intros j. cbn. rewrite elem_of_nil. split; [done|]. intros (i & Hi & _). by apply elem_of_nil in Hi.
    - destruct IH as (jss & Hrun & Hin); [intros k Hk; apply Hl; by right|].
      destruct (H i) as (js & Hf & Hjs); [apply Hl; left|]. exists (js :: jss). cbn [rmapM]. rewrite Hf. cbn [rbind].
      rewrite Hrun. split; [done|]. intros j. cbn [concat]. rewrite elem_of_app, Hin, Hjs.
      setoid_rewrite elem_of_cons. naive_solver. }
  destruct (Hl (seqZ 0 n)) as (jss & -> & Hin); [intros i; rewrite elem_of_seqZ; lia|].
  exists (concat jss). split; [done|]. intros j. rewrite Hin. setoid_rewrite elem_of_seqZ.
  split; intros (i & ? & ?); exists i; (split; [lia|done]).
Qed.

Lemma for_each_one n f g : (forall i, 0 <= i < n -> f i = Ok [g i]) ->
  exists js, for_each n f = Ok js /\ forall j, j ∈ js <-> exists i, 0 <= i < n /\ j = g i.
Proof.
  intros H. apply (for_each_Ok n f (fun i j => j = g i)). intros i Hi. exists [g i]. split; [by apply H|].
  intros j. by rewrite list_elem_of_singleton.
Qed.

Lemma mac_Ok acc i s : 0 <= acc <= INT64_MAX -> 0 <= acc + i * s <= INT64_MAX -> mac acc i s = Ok (acc + i * s).
Proof. intros. unfold mac. rewrite i64_in by (unfold INT64_MIN, INT64_MAX in *; lia). cbn. apply i64_in. unfold INT64_MIN. lia. Qed.

Lemma mul_add_Ok a b c : 0 <= a * b -> 0 <= c -> a * b + c <= INT64_MAX -> mul_add a b c = Ok (a * b + c).
Proof. intros. unfold mul_add. rewrite i64_in by (unfold INT64_MIN in *; lia). cbn. apply i64_in. unfold INT64_MIN. lia. Qed.

Lemma i64_nonneg z : 0 <= z <= INT64_MAX -> i64 z = Ok z.
Proof. intros. apply i64_in. unfold INT64_MIN. lia. Qed.

(** ** Row-major positions of a shape in two parts *)

Lemma mod_split n A P : 0 < A -> 0 < P -> 0 <= n ->
  (n mod (A * P)) / P = (n / P) mod A /\ (n mod (A * P)) mod P = n mod P /\ n / (A * P) = n / P / A.
Proof.
  intros HA HP Hn. rewrite (Z.mul_comm A P). rewrite Z.rem_mul_r by lia.
  pose proof (Z.mod_pos_bound n P HP). split_and!.
  - rewrite Z.add_comm, Z.mul_comm, Z.div_add_l by lia. rewrite (Z.div_small (n mod P)) by lia. lia.
  - rewrite Z.add_comm, Z.mul_comm, Z.add_comm, Z.mod_add by lia. apply Z.mod_small. lia.
  - symmetry. apply Z.div_div; lia.
Qed.

Lemma unravel_app so si n : Forall (fun d => 0 < d) so -> Forall (fun d => 0 < d) si -> 0 <= n < prodZ (so ++ si) ->
  unravel (so ++ si) n = unravel so (n / prodZ si) ++ unravel si (n mod prodZ si).
Proof.
  intros Hso Hsi. pose proof (prodZ_pos _ Hsi) as Hp. revert n.
  induction Hso as [|d so Hd Hso IH]; intros n Hn; cbn [app unravel prodZ] in *.
  - by rewrite Z.mod_small by lia.
  - pose proof (prodZ_pos _ Hso) as Hq. rewrite prodZ_app in *.
    destruct (mod_split n (prodZ so) (prodZ si)) as (E1 & E2 & E3); [lia..|].
    rewrite IH by (apply Z.mod_pos_bound; nia). by rewrite E1, E2, E3.
Qed.

Lemma suffix_prods_app so si :
  TShape.suffix_prods (so ++ si) = map (fun s => s * prodZ si) (TShape.suffix_prods so) ++ TShape.suffix_prods si.
Proof. induction so as [|d so IH]; cbn; [done|]. by rewrite IH, prodZ_app. Qed.

Lemma unravel_bound sh n : Forall (fun d => 0 < d) sh -> 0 <= n < prodZ sh ->
  valid_index sh (unravel sh n) /\ ravel sh (unravel sh n) = n.
Proof. intros H Hn. apply unravel_spec; [|done]. eapply Forall_impl; [exact H|]. intros d Hd. simpl in Hd. lia. Qed.

(** Copies of whole blocks: the last dimensions, if they are packed, can be
    copied at once. *)
Lemma blocks_gather so si sto off jobs : Forall (fun d => 0 < d) so -> Forall (fun d => 0 < d) si -> length sto = length so ->
  (forall j, j ∈ jobs <-> exists b, 0 <= b < prodZ so /\
     j = mkCopy (b * prodZ si) (off + dot sto (unravel so b)) (prodZ si)) ->
  gathers (prodZ (so ++ si)) (fun i => off + dot (sto ++ TShape.suffix_prods si) (unravel (so ++ si) i)) jobs.
Proof.
  intros Hso Hsi Hl Hj. pose proof (prodZ_pos _ Hsi) as HP. pose proof (prodZ_pos _ Hso) as HA.
  assert (forall b k, 0 <= b < prodZ so -> 0 <= k < prodZ si ->
    off + dot (sto ++ TShape.suffix_prods si) (unravel (so ++ si) (b * prodZ si + k)) =
    off + dot sto (unravel so b) + k) as HG.
  { intros b k Hb Hk. rewrite unravel_app by (done || (rewrite prodZ_app; nia)).
    rewrite Z.div_add_l, (Z.div_small k), Z.add_0_r by lia.
    rewrite (Z.add_comm (b * _)), Z.mod_add, Z.mod_small by lia.
    destruct (unravel_bound so b Hso Hb) as [Hv _]. rewrite dot_app by (rewrite (valid_length _ _ Hv); done).
    destruct (unravel_bound si k Hsi Hk) as [_ E]. unfold ravel in E. rewrite E. lia. }
  split.
  - intros j (b & Hb & ->)%Hj. cbn. split; [done|]. intros i Hi. unfold covers in Hi. cbn in Hi.
    rewrite prodZ_app. split; [nia|]. replace i with (b * prodZ si + (i - b * prodZ si)) at 2 by lia.
    rewrite HG by lia. lia.
  - intros i Hi. rewrite prodZ_app in Hi. assert (0 <= i / prodZ si < prodZ so) as Hb.
    { split; [apply Z.div_pos; lia|]. apply Z.div_lt_upper_bound; lia. }
    eexists. split; [apply Hj; exists (i / prodZ si); split; [exact Hb|reflexivity]|].
    unfold covers. cbn. pose proof (Z.div_mod i (prodZ si)). pose proof (Z.mod_pos_bound i (prodZ si)). lia.
Qed.

(** ** contiguous_kernel *)

(** Every address over the dimensions stays in a storage. *)
Definition stays (so sto : list Z) (acc : Z) : Prop := forall idx, valid_index so idx -> 0 <= acc + dot sto idx <= INT64_MAX.

Lemma valid_zeros sh : Forall (fun d => 0 < d) sh -> valid_index sh (map (fun _ => 0) sh).
Proof. induction 1; constructor; [lia|done]. Qed.

Lemma dot_zeros {A} ss (l : list A) : dot ss (map (fun _ => 0) l) = 0.
Proof. revert ss. induction l as [|x l IH]; intros [|s ss]; cbn; try done. rewrite IH. lia. Qed.

Lemma stays_acc so sto acc : Forall (fun d => 0 < d) so -> stays so sto acc -> 0 <= acc <= INT64_MAX.
Proof. intros Hp H. specialize (H _ (valid_zeros _ Hp)). rewrite dot_zeros in H. lia. Qed.

(** The last dimension can be taken first. *)
Lemma stays_snoc so sto d s acc i : length sto = length so -> stays (so ++ [d]) (sto ++ [s]) acc -> 0 <= i < d ->
  stays so sto (acc + i * s).
Proof.
  intros Hl H Hi idx Hv. specialize (H (idx ++ [i])). rewrite dot_app in H by (rewrite (valid_length _ _ Hv); done).
  cbn in H. enough (valid_index (so ++ [d]) (idx ++ [i])) as Hx by (specialize (H Hx); lia).
  apply Forall2_app; [done|]. constructor; [lia|constructor].
Qed.

Lemma stays_app so si sto sti acc : length sto = length so -> Forall (fun d => 0 < d) si ->
  stays (so ++ si) (sto ++ sti) acc -> stays so sto acc.
Proof.
  intros Hl Hp H idx Hv. specialize (H (idx ++ map (fun _ => 0) si)).
  rewrite dot_app, dot_zeros in H by (rewrite (valid_length _ _ Hv); done).
  enough (valid_index (so ++ si) (idx ++ map (fun _ => 0) si)) as Hx by (specialize (H Hx); lia).
  apply Forall2_app; [done|]. by apply valid_zeros.
Qed.

Lemma source_position_Ok so sto n acc : length sto = length so -> Forall (fun d => 0 < d) so -> stays so sto acc ->
  0 <= n < prodZ so -> source_position (rev (zip so sto)) n acc = Ok (acc + dot sto (unravel so n)).
Proof.
  revert sto n acc. induction so as [|d so IH] using rev_ind; intros sto n acc Hl Hp Hst Hn.
  { destruct sto; [|done]. cbn. f_equal. lia. }
  destruct (@exists_last _ sto) as (sto' & s & ->).
  { intros ->. rewrite length_app in Hl. simpl in Hl. lia. }
  rewrite !length_app in Hl. simpl in Hl. apply Forall_app in Hp as [Hp Hd]. apply Forall_cons_1 in Hd as [Hd _].
  rewrite zip_with_app by lia. cbn [zip_with]. rewrite rev_app_distr. cbn [rev app].
  unfold source_position. cbn [rfoldM]. rewrite prodZ_app in Hn. cbn in Hn.
  rewrite Z.rem_mod_nonneg, Z.quot_div_nonneg by lia. pose proof (Z.mod_pos_bound n d Hd) as Hm.
  pose proof (stays_snoc so sto' d s acc (n mod d) ltac:(lia) Hst Hm) as Hst'.
  rewrite mac_Ok; [|by eapply stays_acc; [|exact Hst]; apply Forall_app; repeat constructor|by eapply stays_acc].
  cbn [rbind]. specialize (IH sto' (n / d) (acc + n mod d * s) ltac:(lia) Hp Hst').
  unfold source_position in IH. rewrite IH.
  - rewrite unravel_app by (done || (repeat constructor; done) || (rewrite prodZ_app; cbn; lia)).
    cbn [prodZ unravel]. rewrite Z.mul_1_r, Z.div_1_r.
    assert (0 <= n / d < prodZ so) as Hb by (split; [apply Z.div_pos; lia|apply Z.div_lt_upper_bound; lia]).
    destruct (unravel_bound so (n / d) Hp Hb) as [Hv _]. rewrite dot_app by (rewrite (valid_length _ _ Hv); lia).
    cbn. f_equal. lia.
  - split; [apply Z.div_pos; lia|apply Z.div_lt_upper_bound; lia].
Qed.

End Copying.
