(* ===== verification/TensorContiguous.v ===== *)
(** * contiguous_kernel

    Every path of [contiguous_kernel] - the loops for three and four dimensions,
    the copies of inner blocks, the element-wise loop - copies each element of
    the input to its row-major position, so the result is a contiguous tensor
    with the elements of the input, and no other storage changes. *)

From stdpp Require Import base list numbers strings.
From S2P Require Import Prelude MapSums Shape DType Tensor TensorViews TensorKernels TensorCopy.

Module Contig.
Import Sums Tensor Views Kernels Copying.

(** A concrete index is valid; concrete dimensions are positive. *)
Ltac valid_tac := solve [repeat (apply Forall2_cons_2; [lia|]); apply Forall2_nil_2 | repeat (apply Forall_cons_2; [lia|]); apply Forall_nil_2].

(** ** The copies of a block per index *)

Lemma dot_scale c ss idx : dot (map (fun s => s * c) ss) idx = dot ss idx * c.
Proof. revert idx. induction ss as [|s ss IH]; intros [|j idx]; cbn; try lia. rewrite IH. lia. Qed.

(** The copies of [so] blocks of [P] elements. *)
Definition block_copies (so sto : list Z) (off P : Z) (jobs : list Copy) : Prop :=
  forall j, j ∈ jobs <-> exists idx, valid_index so idx /\ j = mkCopy (ravel so idx * P) (off + dot sto idx) P.

Lemma block_copies_gather so si sto off jobs : Forall (fun d => 0 < d) so -> Forall (fun d => 0 < d) si ->
  length sto = length so -> block_copies so sto off (prodZ si) jobs ->
  gathers (prodZ (so ++ si)) (fun i => off + dot (sto ++ TShape.suffix_prods si) (unravel (so ++ si) i)) jobs.
Proof.
  intros Hso Hsi Hl Hj. apply blocks_gather; [done..|]. intros j. rewrite (Hj j : _ <-> _). split.
  - intros (idx & Hv & ->). exists (ravel so idx). split; [by apply ravel_bound|]. by rewrite unravel_ravel.
  - intros (b & Hb & ->). destruct (unravel_bound so b Hso Hb) as [Hv E]. exists (unravel so b). by rewrite E.
Qed.

Lemma elements_gather sh ss off jobs : Forall (fun d => 0 < d) sh -> length ss = length sh ->
  block_copies sh ss off 1 jobs -> gathers (prodZ sh) (fun i => off + dot ss (unravel sh i)) jobs.
Proof.
  intros Hsh Hl Hj. pose proof (block_copies_gather sh [] ss off jobs Hsh ltac:(constructor) Hl Hj) as H.
  cbn in H. by rewrite !app_nil_r in H.
Qed.

(** ** The inner block *)

Lemma inner_block_Ok so sto P : length sto = length so -> Forall (fun d => 0 < d) so -> 0 < P ->
  P * prodZ so <= INT64_MAX ->
  exists k, (k <= length so)%nat /\ inner_block (rev (zip so sto)) P P (length so) = Ok (P * prodZ (drop k so), k) /\
    drop k sto = map (fun s => s * P) (TShape.suffix_prods (drop k so)).
Proof.
  revert sto P. induction so as [|d so IH] using rev_ind; intros sto P Hl Hp HP Hb.
  { destruct sto; [|done]. exists 0%nat. cbn. by rewrite Z.mul_1_r. }
  destruct (@exists_last _ sto) as (sto' & s & ->).
  { intros ->. rewrite length_app in Hl. simpl in Hl. lia. }
  rewrite !length_app in Hl. simpl in Hl. apply Forall_app in Hp as [Hp Hd]. apply Forall_cons_1 in Hd as [Hd _].
  rewrite zip_with_app by lia. cbn [zip_with]. rewrite rev_app_distr. cbn [rev app inner_block].
  rewrite length_app. cbn [length]. rewrite prodZ_app in Hb. cbn in Hb. rewrite Z.mul_1_r in Hb.
  pose proof (prodZ_pos _ Hp) as Hq. destruct (s =? P) eqn:E; [apply Z.eqb_eq in E as ->|].
  - rewrite i64_nonneg by nia. cbn [rbind]. replace (length so + 1 - 1)%nat with (length so) by lia.
    destruct (IH sto' (P * d) ltac:(lia) Hp ltac:(nia) ltac:(nia)) as (k & Hk & Hrun & Hdrop).
    exists k. split; [lia|]. rewrite !drop_app_le by lia. rewrite Hrun, Hdrop. split.
    + rewrite prodZ_app. cbn. do 2 f_equal. lia.
    + rewrite suffix_prods_app, map_app. cbn. rewrite map_map. f_equal; [|f_equal; lia]. apply map_ext. intros a. lia.
  - exists (length so + 1)%nat. split; [lia|]. rewrite !drop_ge by (rewrite length_app; simpl; lia). cbn. split; [|done].
    do 2 f_equal. lia.
Qed.

(** ** The paths *)

Section Paths.
Variables (sh ss : list Z) (off : Z).
Hypotheses (Hl : length ss = length sh) (Hp : Forall (fun d => 0 < d) sh) (Hn : prodZ sh <= INT64_MAX)
  (Hst : stays sh ss off).

Let G (i : Z) : Z := off + dot ss (unravel sh i).

Lemma by_elements_Ok : exists jobs,
  for_each (prodZ sh) (fun i => let* s := source_position (rev (zip sh ss)) i off in Ok [mkCopy i s 1]) = Ok jobs /\
  gathers (prodZ sh) G jobs.
Proof.
  destruct (for_each_one (prodZ sh) (fun i => let* s := source_position (rev (zip sh ss)) i off in Ok [mkCopy i s 1])
              (fun i => mkCopy i (G i) 1)) as (jobs & -> & Hj).
  { intros i Hi. by rewrite source_position_Ok. }
  exists jobs. split; [done|]. apply elements_gather; [done..|]. intros j. rewrite Hj. split.
  - intros (i & Hi & ->). destruct (unravel_bound sh i Hp Hi) as [Hv E]. exists (unravel sh i). by rewrite E, Z.mul_1_r.
  - intros (idx & Hv & ->). exists (ravel sh idx). split; [by apply ravel_bound|]. unfold G. by rewrite unravel_ravel, Z.mul_1_r.
Qed.

Lemma by_blocks_Ok k : (k <= length sh)%nat -> drop k ss = TShape.suffix_prods (drop k sh) -> exists jobs,
  for_each (prodZ (take k sh)) (fun b =>
    let* s := source_position (rev (take k (zip sh ss))) b off in
    let* d := i64 (b * prodZ (drop k sh)) in Ok [mkCopy d s (prodZ (drop k sh))]) = Ok jobs /\
  gathers (prodZ sh) G jobs.
Proof.
  intros Hk Hd. pose proof (Forall_take _ k _ Hp) as Hp1. pose proof (Forall_drop _ k _ Hp) as Hp2.
  assert (length (take k ss) = length (take k sh)) as Hl1 by (rewrite !length_take; lia).
  assert (stays (take k sh) (take k ss) off) as Hst1.
  { apply (stays_app _ (drop k sh) _ (drop k ss)); [done|done|]. by rewrite !take_drop. }
  assert (prodZ (take k sh) * prodZ (drop k sh) <= INT64_MAX) as Hn1 by (rewrite <-prodZ_app, take_drop; done).
  pose proof (prodZ_pos _ Hp2). rewrite zip_with_take.
  destruct (for_each_one (prodZ (take k sh)) (fun b =>
    let* s := source_position (rev (zip (take k sh) (take k ss))) b off in
    let* d := i64 (b * prodZ (drop k sh)) in Ok [mkCopy d s (prodZ (drop k sh))])
    (fun b => mkCopy (b * prodZ (drop k sh)) (off + dot (take k ss) (unravel (take k sh) b)) (prodZ (drop k sh))))
    as (jobs & -> & Hj).
  { intros b Hb. rewrite source_position_Ok by done. cbn [rbind]. by rewrite i64_nonneg by nia. }
  exists jobs. split; [done|].
  pose proof (blocks_gather (take k sh) (drop k sh) (take k ss) off jobs Hp1 Hp2 Hl1 Hj) as H'.
  rewrite <-Hd, !take_drop in H'. done.
Qed.

End Paths.

(** The innermost loop of the paths for three and four dimensions. *)
Definition row (d s dst src : Z) (j : Copy) : Prop :=
  if s =? 1 then j = mkCopy dst src d else exists i, 0 <= i < d /\ j = mkCopy (dst + i) (src + i * s) 1.

Lemma row_Ok d s dst src : 0 <= dst -> dst + d <= INT64_MAX -> (forall i, 0 <= i < d -> 0 <= src + i * s <= INT64_MAX) ->
  0 < d -> exists js,
  (if s =? 1 then Ok [mkCopy dst src d]
   else for_each d (fun i => let* a := i64 (dst + i) in let* b := mac src i s in Ok [mkCopy a b 1])) = Ok js /\
  forall j, j ∈ js <-> row d s dst src j.
Proof.
  intros Hd Hm Hs Hp. unfold row. destruct (s =? 1).
  - exists [mkCopy dst src d]. split; [done|]. intros j. by rewrite list_elem_of_singleton.
  - apply (for_each_one d _ (fun i => mkCopy (dst + i) (src + i * s) 1)). intros i Hi.
    rewrite i64_nonneg by lia. cbn [rbind]. rewrite mac_Ok; [done|specialize (Hs 0 ltac:(lia)); lia|by apply Hs].
Qed.

(** Rows over the other dimensions are the copies of all elements. *)
Lemma rows_gather so sto d s off jobs : Forall (fun d => 0 < d) so -> 0 < d -> length sto = length so ->
  (forall j, j ∈ jobs <-> exists idx, valid_index so idx /\ row d s (ravel so idx * d) (off + dot sto idx) j) ->
  gathers (prodZ (so ++ [d])) (fun i => off + dot (sto ++ [s]) (unravel (so ++ [d]) i)) jobs.
Proof.
  intros Hso Hd Hl Hj. unfold row in Hj. destruct (s =? 1) eqn:E.
  - apply Z.eqb_eq in E as ->. apply (block_copies_gather so [d] sto off jobs); [done|by constructor|done|].
    intros j. rewrite Hj. cbn. by rewrite Z.mul_1_r.
  - apply elements_gather; [apply Forall_app; split; [done|by constructor]|rewrite !length_app; simpl; lia|].
    intros j. rewrite Hj. split.
    + intros (idx & Hv & i & Hi & ->). exists (idx ++ [i]). split.
      * apply Forall2_app; [done|]. constructor; [lia|constructor].
      * pose proof (valid_length _ _ Hv). unfold ravel. rewrite suffix_prods_app.
        rewrite !dot_app by (rewrite ?length_map, ?length_suffix_prods; lia).
        rewrite dot_scale. cbn. f_equal; lia.
    + intros (idx & Hv & ->). apply Forall2_app_inv_l in Hv as (idx1 & idx2 & Hv1 & Hv2 & ->).
      apply Forall2_cons_inv_l in Hv2 as (i & rest & Hi & Hr & ->). apply Forall2_nil_inv_l in Hr as ->.
      exists idx1. split; [done|]. exists i. split; [done|].
      pose proof (valid_length _ _ Hv1). unfold ravel. rewrite suffix_prods_app.
      rewrite !dot_app by (rewrite ?length_map, ?length_suffix_prods; lia).
      rewrite dot_scale. cbn. f_equal; lia.
Qed.

Lemma contiguous_3d_Ok d0 d1 d2 s0 s1 s2 off : 0 < d0 -> 0 < d1 -> 0 < d2 -> d0 * d1 * d2 <= INT64_MAX ->
  stays [d0; d1; d2] [s0; s1; s2] off -> exists jobs,
  contiguous_3d d0 d1 d2 s0 s1 s2 off = Ok jobs /\
  gathers (prodZ [d0; d1; d2]) (fun i => off + dot [s0; s1; s2] (unravel [d0; d1; d2] i)) jobs.
Proof.
  intros H0 H1 H2 Hn Hst.
  assert (forall i0 i1 i2, 0 <= i0 < d0 -> 0 <= i1 < d1 -> 0 <= i2 < d2 ->
    0 <= off + i0 * s0 + i1 * s1 + i2 * s2 <= INT64_MAX) as Hs.
  { intros i0 i1 i2 ???. specialize (Hst [i0; i1; i2]). cbn in Hst.
    enough (valid_index [d0; d1; d2] [i0; i1; i2]) as Hv by (specialize (Hst Hv); lia). valid_tac. }
  destruct (for_each_Ok d0 (fun i0 => for_each d1 (fun i1 =>
    let* a := mac off i0 s0 in
    let* src_base := mac a i1 s1 in
    let* b := mul_add i0 d1 i1 in
    let* dst_base := i64 (b * d2) in
    if s2 =? 1 then Ok [mkCopy dst_base src_base d2]
    else for_each d2 (fun i2 =>
      let* d := i64 (dst_base + i2) in
      let* s := mac src_base i2 s2 in Ok [mkCopy d s 1])))
    (fun i0 j => exists i1, 0 <= i1 < d1 /\ row d2 s2 ((i0 * d1 + i1) * d2) (off + i0 * s0 + i1 * s1) j)) as (jobs & Hrun & Hj).
  { intros i0 Hi0. apply for_each_Ok. intros i1 Hi1.
    pose proof (Hs 0 0 0). pose proof (Hs i0 0 0). pose proof (Hs i0 i1 0).
    rewrite mac_Ok by lia. cbn [rbind]. rewrite mac_Ok by lia. cbn [rbind].
    assert (i0 * d1 + i1 < d0 * d1) by nia.
    rewrite mul_add_Ok by nia. cbn [rbind]. rewrite i64_nonneg by nia. cbn [rbind].
    apply row_Ok; [nia|nia| |done]. intros i Hi. by apply Hs. }
  exists jobs. split; [exact Hrun|]. apply (rows_gather [d0; d1] [s0; s1] d2 s2 off); [valid_tac|done|done|].
  intros j. rewrite Hj. split.
  - intros (i0 & Hi0 & i1 & Hi1 & Hr). exists [i0; i1]. split; [valid_tac|]. 
    by replace (off + dot [s0; s1] [i0; i1]) with (off + i0 * s0 + i1 * s1) by (cbn; lia);
       replace (ravel [d0; d1] [i0; i1] * d2) with ((i0 * d1 + i1) * d2) by (cbn; lia).
  - intros (idx & Hv & Hr). apply Forall2_cons_inv_l in Hv as (i0 & r0 & Hi0 & Hv & ->).
    apply Forall2_cons_inv_l in Hv as (i1 & r1 & Hi1 & Hv & ->). apply Forall2_nil_inv_l in Hv as ->.
    exists i0. split; [done|]. exists i1. split; [done|]. 
    by replace (off + dot [s0; s1] [i0; i1]) with (off + i0 * s0 + i1 * s1) in Hr by (cbn; lia);
       replace (ravel [d0; d1] [i0; i1] * d2) with ((i0 * d1 + i1) * d2) in Hr by (cbn; lia).
Qed.

Lemma contiguous_4d_Ok d0 d1 d2 d3 s0 s1 s2 s3 off : 0 < d0 -> 0 < d1 -> 0 < d2 -> 0 < d3 ->
  d0 * d1 * d2 * d3 <= INT64_MAX -> stays [d0; d1; d2; d3] [s0; s1; s2; s3] off -> exists jobs,
  contiguous_4d d0 d1 d2 d3 s0 s1 s2 s3 off = Ok jobs /\
  gathers (prodZ [d0; d1; d2; d3]) (fun i => off + dot [s0; s1; s2; s3] (unravel [d0; d1; d2; d3] i)) jobs.
Proof.
  intros H0 H1 H2 H3 Hn Hst.
  assert (forall i0 i1 i2 i3, 0 <= i0 < d0 -> 0 <= i1 < d1 -> 0 <= i2 < d2 -> 0 <= i3 < d3 ->
    0 <= off + i0 * s0 + i1 * s1 + i2 * s2 + i3 * s3 <= INT64_MAX) as Hs.
  { intros i0 i1 i2 i3 ????. specialize (Hst [i0; i1; i2; i3]). cbn in Hst.
    enough (valid_index [d0; d1; d2; d3] [i0; i1; i2; i3]) as Hv by (specialize (Hst Hv); lia). valid_tac. }
  destruct (for_each_Ok d0 (fun i0 => for_each d1 (fun i1 => for_each d2 (fun i2 =>
    let* a := mac off i0 s0 in
    let* a := mac a i1 s1 in
    let* src_base := mac a i2 s2 in
    let* b := mul_add i0 d1 i1 in
    let* b := mul_add b d2 i2 in
    let* dst_base := i64 (b * d3) in
    if s3 =? 1 then Ok [mkCopy dst_base src_base d3]
    else for_each d3 (fun i3 =>
      let* d := i64 (dst_base + i3) in
      let* s := mac src_base i3 s3 in Ok [mkCopy d s 1]))))
    (fun i0 j => exists i1, 0 <= i1 < d1 /\ exists i2, 0 <= i2 < d2 /\
       row d3 s3 (((i0 * d1 + i1) * d2 + i2) * d3) (off + i0 * s0 + i1 * s1 + i2 * s2) j)) as (jobs & Hrun & Hj).
  { intros i0 Hi0. apply for_each_Ok. intros i1 Hi1. apply for_each_Ok. intros i2 Hi2.
    pose proof (Hs 0 0 0 0). pose proof (Hs i0 0 0 0). pose proof (Hs i0 i1 0 0). pose proof (Hs i0 i1 i2 0).
    do 3 (rewrite mac_Ok by lia; cbn [rbind]).
    assert (i0 * d1 + i1 < d0 * d1) by nia. assert (0 <= i0 * d1) by nia.
    assert (0 < d0 * d1) by nia. assert (0 < d0 * d1 * d2) by nia.
    assert (d0 * d1 <= d0 * d1 * d2) by nia. assert (d0 * d1 * d2 <= d0 * d1 * d2 * d3) by nia.
    assert ((i0 * d1 + i1) * d2 + i2 < d0 * d1 * d2) by nia. assert (0 <= (i0 * d1 + i1) * d2) by nia.
    rewrite mul_add_Ok by lia. cbn [rbind]. rewrite mul_add_Ok by lia. cbn [rbind].
    assert (((i0 * d1 + i1) * d2 + i2) * d3 + d3 <= d0 * d1 * d2 * d3) by nia.
    rewrite i64_nonneg by nia. cbn [rbind].
    apply row_Ok; [nia|lia| |done]. intros i Hi. by apply Hs. }
  exists jobs. split; [exact Hrun|].
  apply (rows_gather [d0; d1; d2] [s0; s1; s2] d3 s3 off); [valid_tac|done|done|].
  intros j. rewrite Hj. split.
  - intros (i0 & Hi0 & i1 & Hi1 & i2 & Hi2 & Hr). exists [i0; i1; i2]. split; [valid_tac|].
    by replace (off + dot [s0; s1; s2] [i0; i1; i2]) with (off + i0 * s0 + i1 * s1 + i2 * s2) by (cbn; lia);
       replace (ravel [d0; d1; d2] [i0; i1; i2] * d3) with (((i0 * d1 + i1) * d2 + i2) * d3) by (cbn; lia).
  - intros (idx & Hv & Hr). apply Forall2_cons_inv_l in Hv as (i0 & r0 & Hi0 & Hv & ->).
    apply Forall2_cons_inv_l in Hv as (i1 & r1 & Hi1 & Hv & ->).
    apply Forall2_cons_inv_l in Hv as (i2 & r2 & Hi2 & Hv & ->). apply Forall2_nil_inv_l in Hv as ->.
    exists i0. split; [done|]. exists i1. split; [done|]. exists i2. split; [done|].
    by replace (off + dot [s0; s1; s2] [i0; i1; i2]) with (off + i0 * s0 + i1 * s1 + i2 * s2) in Hr by (cbn; lia);
       replace (ravel [d0; d1; d2] [i0; i1; i2] * d3) with (((i0 * d1 + i1) * d2 + i2) * d3) in Hr by (cbn; lia).
Qed.


(** Whichever path is taken. *)
Lemma contiguous_copies_Ok t : length (strides t) = length (shape t) -> Forall (fun d => 0 < d) (shape t) ->
  prodZ (shape t) <= INT64_MAX -> stays (shape t) (strides t) (offset t) -> exists jobs,
  contiguous_copies t (prodZ (shape t)) = Ok jobs /\
  gathers (prodZ (shape t)) (fun i => addr t (unravel (shape t) i)) jobs.
Proof.
  intros Hl Hp Hn Hst. unfold contiguous_copies, addr. rewrite length_zip_with, Hl, Nat.min_id.
  destruct (inner_block_Ok (shape t) (strides t) 1) as (k & Hk & -> & Hd); [done|done|lia|lia|].
  cbn [rbind]. rewrite !Z.mul_1_l in *.
  assert (drop k (strides t) = TShape.suffix_prods (drop k (shape t))) as Hd'.
  { rewrite Hd. etransitivity; [|apply map_id]. apply map_ext. intros a. lia. }
  assert (Z.quot (prodZ (shape t)) (prodZ (drop k (shape t))) = prodZ (take k (shape t))) as ->.
  { rewrite <-(take_drop k (shape t)) at 1. rewrite prodZ_app. apply Z.quot_mul.
    pose proof (prodZ_pos _ (Forall_drop _ k _ Hp)). lia. }
  pose proof (by_elements_Ok _ _ _ Hl Hp Hst) as He. pose proof (by_blocks_Ok _ _ _ Hl Hp Hn Hst k Hk Hd') as Hb.
  clear Hd Hd' Hk. revert Hl Hp Hn Hst He Hb. generalize (offset t). generalize (prodZ (drop k (shape t))) as P.
  generalize (take k (zip (shape t) (strides t))) as blocks. generalize (prodZ (take k (shape t))) as nb.
  destruct (shape t) as [|d0 [|d1 [|d2 [|d3 [|d4 sh]]]]], (strides t) as [|s0 [|s1 [|s2 [|s3 [|s4 ss]]]]];
    intros nb blocks P off Hl Hp Hn Hst He Hb; try done; try (destruct (_ && _); assumption).
  - destruct (P >? 1); [|exact He]. repeat apply Forall_cons_1 in Hp as [? Hp].
    apply contiguous_3d_Ok; [done..| |done]. cbn in Hn. lia.
  - destruct (P >? 1); [|exact He]. repeat apply Forall_cons_1 in Hp as [? Hp].
    apply contiguous_4d_Ok; [done..| |done]. cbn in Hn. lia.
Qed.

(** ** New tensors *)

(** Storages only grow in number, and those there keep their contents. *)
Definition extends (m m' : Mem) : Prop := exists k, m' = m ++ k.

(** No storage is larger than an object can be. *)
Definition fitting (m : Mem) : Prop := Forall (fun l : Storage => lenZ l <= INT64_MAX) m.

Lemma extends_refl m : extends m m.
Proof. exists []. by rewrite app_nil_r. Qed.

Lemma extends_trans m1 m2 m3 : extends m1 m2 -> extends m2 m3 -> extends m1 m3.
Proof. intros [k1 ->] [k2 ->]. exists (k1 ++ k2). by rewrite app_assoc. Qed.

Lemma size_bytes_nonneg m s : 0 <= size_bytes m s.
Proof. apply lenZ_nonneg. Qed.

Lemma fitting_size m s : fitting m -> 0 <= size_bytes m s <= INT64_MAX.
Proof.
  intros H. split; [apply size_bytes_nonneg|]. unfold size_bytes. destruct (m !! s) as [l|] eqn:E; [|done].
  by apply (Forall_lookup_1 _ _ _ _ H E).
Qed.

Lemma storage_elements_bound m t n : n < storage_elements m t -> (n + 1) * dtype_size (dtype t) <= size_bytes m (storage t).
Proof.
  unfold storage_elements. intros H. pose proof (dtype_size_pos (dtype t)). pose proof (size_bytes_nonneg m (storage t)).
  rewrite Z.quot_div_nonneg in H by lia.
  pose proof (Z.mul_div_le (size_bytes m (storage t)) (dtype_size (dtype t)) ltac:(lia)). nia.
Qed.

Lemma storage_elements_le m t : storage_elements m t <= size_bytes m (storage t).
Proof.
  unfold storage_elements. pose proof (dtype_size_pos (dtype t)). pose proof (size_bytes_nonneg m (storage t)).
  rewrite Z.quot_div_nonneg by lia. apply Z.div_le_upper_bound; nia.
Qed.

Lemma in_bounds_storage m t idx : in_bounds m t -> valid_index (shape t) idx ->
  exists l, m !! storage t = Some l.
Proof.
  intros H Hv. specialize (H idx Hv). pose proof (storage_elements_le m t). unfold size_bytes in *.
  destruct (m !! storage t) as [l|]; [by exists l|]. unfold lenZ in *. simpl in *. lia.
Qed.

Lemma in_bounds_extends m m' t : extends m m' -> in_bounds m t -> in_bounds m' t /\
  forall idx, valid_index (shape t) idx -> elem m' t idx = elem m t idx.
Proof.
  intros [k ->] H.
  assert (forall idx, valid_index (shape t) idx -> (m ++ k) !! storage t = m !! storage t) as E.
  { intros idx Hv. destruct (in_bounds_storage m t idx H Hv) as [l Hl]. rewrite Hl.
    apply lookup_app_l_Some. done. }
  split; intros idx Hv; specialize (E idx Hv).
  - unfold storage_elements, size_bytes. rewrite E. by apply H.
  - unfold elem. by rewrite E.
Qed.

Lemma sound_extends m m' t : extends m m' -> sound m t -> sound m' t.
Proof. intros He [Hw Hb]. split; [done|]. by eapply in_bounds_extends. Qed.

Lemma sound_stays m t : sound m t -> fitting m -> stays (shape t) (strides t) (offset t).
Proof.
  intros [_ Hb] Hf idx Hv. specialize (Hb idx Hv). unfold addr in Hb. pose proof (storage_elements_le m t).
  pose proof (fitting_size m (storage t) Hf). lia.
Qed.

Section Allocation.
Context `{!Backend}.

Lemma new_tensor_inv z sh dt m r m' : new_tensor z sh dt m = Ok (r, m') ->
  Forall (fun d => 0 <= d) sh /\ TShape.compute_strides sh = Ok (TShape.suffix_prods sh) /\
  numel_of size_overflow sh = Ok (prodZ sh) /\ prodZ sh * dtype_size dt <= INT64_MAX /\
  r = mkTensor (length m) sh (TShape.suffix_prods sh) 0 dt false None None (-1) /\
  m' = m ++ [replicate (Z.to_nat (prodZ sh * dtype_size dt)) (if z then Some 0 else None)].
Proof.
  unfold new_tensor. intros Hnew. inv_ok. bool_to_prop.
  match goal with H : TShape.compute_strides _ = Ok _ |- _ => pose proof (TShape.compute_strides_suffix _ _ H) as -> end.
  match goal with H : numel_of _ _ = Ok _ |- _ => pose proof (numel_of_Ok _ _ _ H) as -> end.
  assert (Forall (fun d => 0 <= d) sh) as Hsh.
  { match goal with H : existsb _ _ = false |- _ => rename H into He end. apply Forall_forall. intros d Hd%list_elem_of_In.
    destruct (Z.ltb_spec d 0); [|done]. enough (existsb (fun d => d <? 0) sh = true) by congruence.
    apply existsb_exists. exists d. split; [done|]. by apply Z.ltb_lt. }
  split_and!; try done. pose proof (dtype_size_pos dt). pose proof (prodZ_nonneg _ Hsh).
  match goal with H : negb (allocates m ?n) && _ = false |- _ => destruct (allocates m n) eqn:Ha end.
  - by eapply allocates_bound.
  - match goal with H : negb false && (?n >? 0) = false |- _ => cbn in H; destruct (Z.gtb_spec n 0); [done|] end.
    unfold INT64_MAX. lia.
Qed.

Lemma new_tensor_fitting z sh dt m r m' : new_tensor z sh dt m = Ok (r, m') -> fitting m -> fitting m'.
Proof.
  intros (Hsh & _ & _ & Hsz & _ & ->)%new_tensor_inv Hf. pose proof (dtype_size_pos dt). pose proof (prodZ_nonneg _ Hsh).
  apply Forall_app. split; [done|]. constructor; [|constructor]. unfold lenZ. rewrite length_replicate. lia.
Qed.

End Allocation.


(** ** The kernel *)

Section Kernel.
Context `{!Backend, !Omp}.

(** [r] in memory [m'] is a contiguous tensor of its own whose elements are
    [source idx] in [m]. *)
Record filled (m : Mem) (sh : list Z) (dt : DType) (source : list Z -> list Byte) (r : TensorImpl) (m' : Mem) : Prop := mkFilled {
  fl_extends : extends m m';
  fl_fitting : fitting m -> fitting m';
  fl_fresh : storage r = length m;
  fl_shape : shape r = sh;
  fl_strides : strides r = TShape.suffix_prods sh;
  fl_offset : offset r = 0;
  fl_dtype : dtype r = dt;
  fl_sound : sound m' r;
  fl_elem idx : valid_index sh idx -> elem m' r idx = source idx
}.

(** Allocate and gather: the shape of all copying kernels. *)
Lemma fill_Ok z sh dt m r m1 src ls G jobs : new_tensor z sh dt m = Ok (r, m1) -> m !! src = Some ls ->
  gathers (prodZ sh) G jobs -> (forall i, 0 <= i < prodZ sh -> 0 <= G i /\ (G i + 1) * dtype_size dt <= lenZ ls) ->
  exists m', copy_all (dtype_size dt) (storage r) src (omp jobs) m1 = Ok m' /\
    filled m sh dt (fun idx => cell (dtype_size dt) ls (G (ravel sh idx))) r m'.
Proof.
  intros Hnew Hs Hg HG. apply new_tensor_inv in Hnew as (Hsh & _ & _ & Hsz & -> & ->).
  cbn [storage]. pose proof (dtype_size_pos dt) as He. pose proof (prodZ_nonneg _ Hsh).
  set (new := replicate _ _).
  assert (lenZ new = prodZ sh * dtype_size dt) as Hnl by (unfold new, lenZ; rewrite length_replicate; lia).
  destruct (copy_all_gathers (m ++ [new]) (length m) src (dtype_size dt) new ls (prodZ sh) G (omp jobs))
    as (ld & Hrun & Hlen & Hcell).
  - lia.
  - intros <-. apply lookup_lt_Some in Hs. lia.
  - apply list_lookup_middle. done.
  - by apply lookup_app_l_Some.
  - eapply gathers_perm; [|exact Hg]. symmetry. apply omp_perm.
  - lia.
  - done.
  - rewrite Hrun. eexists. split; [done|]. rewrite insert_app_r_alt by lia. rewrite Nat.sub_diag. cbn.
    assert ((m ++ [ld]) !! length m = Some ld) as Hld by by apply list_lookup_middle.
    split; try done; cbn.
    + by exists [ld].
    + intros Hf. apply Forall_app. split; [done|]. constructor; [|constructor]. by rewrite Hlen, Hnl.
    + split; [split; cbn; [apply length_suffix_prods|done|done]|]. intros idx Hv. cbn in Hv.
      unfold addr, storage_elements, size_bytes. cbn. rewrite Hld. cbn. rewrite Hlen, Hnl, Z.quot_mul by lia.
      apply ravel_bound. done.
    + intros idx Hv. unfold elem, addr. cbn. rewrite Hld. cbn. apply (Hcell (ravel sh idx)). by apply ravel_bound.
Qed.

(** Nothing to fill. *)
Lemma fill_empty z sh dt m r m1 source : new_tensor z sh dt m = Ok (r, m1) -> prodZ sh = 0 -> filled m sh dt source r m1.
Proof.
  intros Hnew Hz. apply new_tensor_inv in Hnew as (Hsh & _ & _ & Hsz & -> & ->). rewrite Hz. cbn.
  assert (forall idx, valid_index sh idx -> False) as Hno.
  { intros idx Hv. pose proof (ravel_bound _ _ Hv). lia. }
  split; try done; cbn.
  - by eexists.
  - intros Hf. apply Forall_app. split; [done|]. constructor; [done|constructor].
  - split; [split; cbn; [apply length_suffix_prods|done|done]|]. intros idx Hv. by apply Hno in Hv.
  - intros idx Hv. by apply Hno in Hv.
Qed.

Lemma filled_ext m sh dt f g r m' : (forall idx, valid_index sh idx -> f idx = g idx) ->
  filled m sh dt f r m' -> filled m sh dt g r m'.
Proof. intros E [? ? ? ? ? ? ? ? Hel]. split; try done. intros idx Hv. rewrite <-E by done. by apply Hel. Qed.

Lemma is_contiguous_strides t st : TShape.compute_strides (shape t) = Ok st ->
  is_contiguous t = Ok (bool_decide (strides t = TShape.suffix_prods (shape t))).
Proof. intros E. unfold is_contiguous, has_strides. rewrite E. by apply TShape.compute_strides_suffix in E as ->. Qed.

Lemma prodZ_positive sh : Forall (fun d => 0 <= d) sh -> prodZ sh <> 0 -> Forall (fun d => 0 < d) sh.
Proof. induction 1 as [|d ds Hd Hds IH]; cbn; [done|]. intros Hne. simpl in Hd. constructor; [|apply IH; nia].
  enough (d <> 0) by lia. intros ->. lia. Qed.

(** A sound tensor that is not contiguous is copied if its copy can be
    allocated. *)
Lemma contiguous_kernel_Ok t m r m1 : sound m t -> fitting m -> is_contiguous t = Ok false ->
  new_tensor false (shape t) (dtype t) m = Ok (r, m1) ->
  exists m', contiguous_kernel t m = Ok (r, m') /\ filled m (shape t) (dtype t) (elem m t) r m'.
Proof.
  intros Ht Hf Hc Hnew. pose proof Ht as [[Hl Hnn Hoff] Hb]. unfold contiguous_kernel. rewrite Hc, Hnew. cbn [rbind].
  pose proof (new_tensor_inv _ _ _ _ _ _ Hnew) as (Hsh & _ & En & Hsz & _). unfold numel. rewrite En. cbn [rbind].
  destruct (Z.eqb_spec (prodZ (shape t)) 0) as [E0|Hne].
  { exists m1. split; [done|]. by apply (fill_empty false). }
  pose proof (prodZ_positive _ Hsh Hne) as Hp. pose proof (prodZ_pos _ Hp). pose proof (dtype_size_pos (dtype t)).
  destruct (contiguous_copies_Ok t Hl Hp) as (jobs & -> & Hg); [nia|by eapply sound_stays|]. cbn [rbind].
  destruct (in_bounds_storage m t _ Hb (valid_zeros _ Hp)) as [ls Hls].
  destruct (fill_Ok false (shape t) (dtype t) m r m1 (storage t) ls _ jobs Hnew Hls Hg) as (m' & -> & Hfill).
  - intros i Hi. destruct (unravel_spec (shape t) i Hsh Hi) as [Hv _]. specialize (Hb _ Hv). split; [lia|].
    destruct Hb as [_ Hb]. apply storage_elements_bound in Hb. unfold size_bytes in Hb. by rewrite Hls in Hb.
  - exists m'. split; [done|]. eapply filled_ext; [|exact Hfill]. intros idx Hv. cbv beta.
    rewrite unravel_ravel by done. by rewrite elem_cell, (eq_refl : bytes m (storage t) = default [] (m !! storage t)), Hls.
Qed.

(** What a copying operation gives: a contiguous tensor of shape [sh] whose
    elements are [source idx], in a memory where everything else is as it was. *)
Record holds (m : Mem) (sh : list Z) (dt : DType) (source : list Z -> list Byte) (r : TensorImpl) (m' : Mem) : Prop := mkHolds {
  h_extends : extends m m';
  h_fitting : fitting m';
  h_sound : sound m' r;
  h_shape : shape r = sh;
  h_strides : strides r = TShape.suffix_prods sh;
  h_dtype : dtype r = dt;
  h_elem idx : valid_index sh idx -> elem m' r idx = source idx
}.

Definition yields (op : result (TensorImpl * Mem)) (m : Mem) (sh : list Z) (dt : DType) (source : list Z -> list Byte) : Prop :=
  exists r m', op = Ok (r, m') /\ holds m sh dt source r m'.

Lemma filled_holds m sh dt source r m' : fitting m -> filled m sh dt source r m' -> holds m sh dt source r m'.
Proof. intros Hf [? Hf' ? ? ? ? ? ? ?]. split; try done. by apply Hf'. Qed.

(** The backend grants a tensor of this shape. *)
Definition allocatable (m : Mem) (sh : list Z) (dt : DType) : Prop :=
  forall z m', extends m m' -> is_ok (new_tensor z sh dt m') = true.

Lemma allocatable_extends m m' sh dt : extends m m' -> allocatable m sh dt -> allocatable m' sh dt.
Proof. intros He H' z k Hk. apply H'. by eapply extends_trans. Qed.

Lemma allocatable_new m sh dt z : allocatable m sh dt -> exists r m', new_tensor z sh dt m = Ok (r, m').
Proof. intros H'. destruct (proj1 (is_ok_Ok _) (H' z m (extends_refl m))) as [[r m'] E]. eauto. Qed.

Lemma contiguous_Ok t m : sound m t -> fitting m -> allocatable m (shape t) (dtype t) ->
  exists r m', contiguous t m = Ok (r, m') /\ holds m (shape t) (dtype t) (elem m t) r m' /\
    (if bool_decide (strides t = TShape.suffix_prods (shape t)) then r = t /\ m' = m
     else storage r = length m /\ offset r = 0).
Proof.
  intros Ht Hf Hc. destruct (allocatable_new _ _ _ false Hc) as (r & m1 & Hnew).
  pose proof (new_tensor_inv _ _ _ _ _ _ Hnew) as (_ & Est & _). unfold contiguous.
  pose proof (is_contiguous_strides _ _ Est) as Ec. rewrite Ec. cbn [rbind].
  destruct (bool_decide_reflect (strides t = TShape.suffix_prods (shape t))) as [E|Hne].
  - exists t, m. pose proof (extends_refl m). by split_and!.
  - destruct (contiguous_kernel_Ok t m r m1 Ht Hf Ec Hnew) as (m' & Hrun & Hfill).
    exists r, m'. split; [done|]. split; [by apply filled_holds|]. by destruct Hfill.
Qed.

End Kernel.

End Contig.
