(* ===== verification/TensorGather.v ===== *)
(** * Kernels that rearrange elements

    Flip, roll, repeat and repeat_interleave fill a new tensor from a contiguous
    copy of their input; each reads, for every index of its output, the element
    of the input that its definition says. *)

From stdpp Require Import base list numbers strings.
From S2P Require Import Prelude MapSums Shape DType Tensor TensorViews TensorKernels TensorCopy TensorContiguous.

Module Gather.
Import Sums Tensor Views Kernels Copying Contig.

(** ** Sizes that fit *)

Lemma prodZ_mono_head r l : 0 < r -> Forall (fun d => 0 < d) l -> r <= r * prodZ l.
Proof. intros Hr Hl. pose proof (prodZ_pos _ Hl). nia. Qed.

Lemma prod_i64_Ok l : Forall (fun d => 0 < d) l -> prodZ l <= INT64_MAX -> prod_i64 l = Ok (prodZ l).
Proof.
  unfold prod_i64. enough (forall r, 0 < r -> Forall (fun d => 0 < d) l -> r * prodZ l <= INT64_MAX ->
    rfoldM (fun r d => i64 (r * d)) l r = Ok (r * prodZ l)) as H.
  { intros Hl Hb. rewrite H; [f_equal; lia|lia|done|lia]. }
  intros r Hr Hl. revert r Hr. induction Hl as [|d ds Hd Hds IH]; intros r Hr Hb; cbn [rfoldM prodZ] in *; [f_equal; lia|].
  pose proof (prodZ_pos _ Hds). rewrite i64_nonneg by nia. cbn [rbind]. rewrite IH by nia. f_equal. lia.
Qed.

Lemma numel_of_total e sh : Forall (fun d => 0 < d) sh -> prodZ sh <= INT64_MAX -> numel_of e sh = Ok (prodZ sh).
Proof.
  unfold numel_of. enough (forall r, 0 < r -> Forall (fun d => 0 < d) sh -> r * prodZ sh <= INT64_MAX ->
    rfoldM (fun result dim =>
      let* _ := throw_if (negb (dim =? 0) && (safe_abs result >? Z.quot INT64_MAX (safe_abs dim))) e in
      i64 (result * dim)) sh r = Ok (r * prodZ sh)) as H.
  { intros Hl Hb. rewrite H; [f_equal; lia|lia|done|lia]. }
  intros r Hr Hl. revert r Hr. induction Hl as [|d ds Hd Hds IH]; intros r Hr Hb; cbn [rfoldM prodZ] in *; [f_equal; lia|].
  pose proof (prodZ_pos _ Hds). assert (r * d <= INT64_MAX) by nia.
  rewrite throw_if_false.
  - cbn [rbind]. rewrite i64_nonneg by nia. cbn [rbind]. rewrite IH by nia. f_equal. lia.
  - apply andb_false_iff. right. assert (r <= r * d) by nia. assert (d <= r * d) by nia.
    rewrite !(fun v H => proj1 (safe_abs_spec v H)) by (unfold INT64_MIN; lia). rewrite !Z.abs_eq by lia.
    rewrite Z.quot_div_nonneg by (unfold INT64_MAX; lia).
    assert (r <= INT64_MAX / d) by (apply Z.div_le_lower_bound; lia).
    destruct (Z.gtb_spec r (INT64_MAX / d)); [lia|done].
Qed.

Lemma compute_strides_total sh : Forall (fun d => 0 < d) sh -> prodZ sh <= INT64_MAX ->
  TShape.compute_strides sh = Ok (TShape.suffix_prods sh).
Proof.
  intros Hp Hb. assert (is_ok (TShape.compute_strides sh) = true) as Hok.
  { destruct Hp as [|d ds Hd Hds]; [done|]. rewrite TShape.compute_strides_is_ok by done. apply Z.leb_le.
    pose proof (prodZ_pos _ Hds). cbn in Hb. nia. }
  apply is_ok_Ok in Hok as [st E]. by rewrite E, (TShape.compute_strides_suffix _ _ E).
Qed.

(** A shape that fits can be allocated if the backend has the memory. *)
Lemma allocatable_intro `{!Backend} m sh dt : Forall (fun d => 0 < d) sh -> prodZ sh * dtype_size dt <= INT64_MAX ->
  (forall m', extends m m' -> allocates m' (prodZ sh * dtype_size dt) = true) -> allocatable m sh dt.
Proof.
  intros Hp Hb Ha z m' He. pose proof (prodZ_pos _ Hp). pose proof (dtype_size_pos dt). unfold new_tensor.
  rewrite throw_if_false.
  - cbn [rbind]. rewrite compute_strides_total by (done || nia). cbn [rbind]. rewrite numel_of_total by (done || nia). cbn [rbind].
    rewrite throw_if_false; [cbn [rbind]; by rewrite Ha|]. apply andb_false_iff. right.
    destruct (Z.gtb_spec (prodZ sh) (Z.quot UINT64_MAX (dtype_size dt))) as [Hgt|]; [|done].
    rewrite Z.quot_div_nonneg in Hgt by (unfold UINT64_MAX; lia).
    assert (prodZ sh <= UINT64_MAX / dtype_size dt) by (apply Z.div_le_lower_bound; unfold UINT64_MAX, INT64_MAX in *; lia). lia.
  - destruct (existsb _ sh) eqn:E; [|done]. apply existsb_exists in E as (d & Hd%list_elem_of_In & Hneg%Z.ltb_lt).
    rewrite Forall_forall in Hp. specialize (Hp d Hd). simpl in Hp. lia.
Qed.

(** ** Pointers to the data *)

(** The loop of [data] over a storage of [N] elements that every index stays in. *)
Lemma data_range sh ss N mn mx : length ss = length sh -> Forall (fun d => 0 < d) sh -> N <= INT64_MAX ->
  mn <= mx -> (forall idx, valid_index sh idx -> 0 <= mn + dot ss idx /\ mx + dot ss idx < N) ->
  exists mn' mx', rfoldM (fun '(min_offset, max_offset) '(d, s) =>
      if negb (d >? 0) then Ok (min_offset, max_offset)
      else
        let* extent := Checked.checked_mul (d - 1) s in
        if extent >=? 0 then let* max_offset := Checked.checked_add max_offset extent in Ok (min_offset, max_offset)
        else let* min_offset := Checked.checked_add min_offset extent in Ok (min_offset, max_offset))
    (zip sh ss) (mn, mx) = Ok (mn', mx') /\ 0 <= mn' /\ mn' <= mx' /\ mx' < N.
Proof.
  intros Hl Hp HN. revert ss mn mx Hl. induction Hp as [|d ds Hd Hds IH]; intros [|s ss] mn mx Hl Hle Hv; try done.
  { exists mn, mx. destruct (Hv []) as [H1 H2]; [constructor|]. cbn in *. split; [done|lia]. }
  cbn [zip_with rfoldM]. destruct (Z.gtb_spec d 0); [|lia]. cbn [negb].
  assert (forall i idx, 0 <= i < d -> valid_index ds idx -> 0 <= mn + i * s + dot ss idx /\ mx + i * s + dot ss idx < N) as Hv'.
  { intros i idx Hi Hx. destruct (Hv (i :: idx)) as [H1 H2]; [by constructor|]. cbn in H1, H2. lia. }
  pose proof (valid_zeros _ Hds) as Hz. pose proof (Hv' (d - 1) _ ltac:(lia) Hz) as Hc1.
  pose proof (Hv' 0 _ ltac:(lia) Hz) as Hc2. rewrite dot_zeros in Hc1, Hc2.
  unfold Checked.checked_mul, Checked.checked_add.
  rewrite (proj2 (in_i64_spec ((d - 1) * s))) by (unfold INT64_MIN, INT64_MAX in *; nia). cbn [rbind].
  destruct (Z.geb_spec ((d - 1) * s) 0).
  - rewrite (proj2 (in_i64_spec _)) by (unfold INT64_MIN, INT64_MAX in *; nia). cbn [rbind].
    apply IH; [by injection Hl|lia|]. intros idx Hx. destruct (Hv' 0 idx ltac:(lia) Hx), (Hv' (d - 1) idx ltac:(lia) Hx). lia.
  - rewrite (proj2 (in_i64_spec _)) by (unfold INT64_MIN, INT64_MAX in *; nia). cbn [rbind].
    apply IH; [by injection Hl|lia|]. intros idx Hx. destruct (Hv' 0 idx ltac:(lia) Hx), (Hv' (d - 1) idx ltac:(lia) Hx). lia.
Qed.

(** [data] never rejects a tensor whose elements lie in its storage. *)
Lemma data_Ok m t : sound m t -> fitting m -> Forall (fun d => 0 < d) (shape t) -> prodZ (shape t) <= INT64_MAX ->
  data m t = Ok (offset t).
Proof.
  intros [[Hl _ Ho] Hb] Hf Hp Hn. unfold data, numel. rewrite numel_of_total by done. cbn [rbind].
  pose proof (prodZ_pos _ Hp). destruct (Z.gtb_spec (prodZ (shape t)) 0); [|lia].
  pose proof (storage_elements_le m t). pose proof (fitting_size m (storage t) Hf).
  destruct (data_range (shape t) (strides t) (storage_elements m t) (offset t) (offset t)) as (mn & mx & -> & ? & ? & ?);
    [done|done|lia|lia|intros idx Hv; specialize (Hb idx Hv); unfold addr in Hb; lia|].
  cbn [rbind]. rewrite throw_if_false.
  - cbn [rbind]. specialize (Hb _ (valid_zeros _ Hp)). unfold addr in Hb. rewrite dot_zeros in Hb.
    destruct Hb as [? Hb]. apply storage_elements_bound in Hb. pose proof (dtype_size_pos (dtype t)).
    unfold Checked.checked_mul. rewrite (proj2 (in_i64_spec _)); [done|]. unfold INT64_MIN. nia.
  - rewrite wrap_small by (unfold INT64_MAX in *; lia). apply orb_false_iff. split; [apply Z.ltb_ge; lia|].
    destruct (Z.geb_spec mx (storage_elements m t)); [lia|done].
Qed.

(** ** Gathering from a contiguous copy *)

Lemma each_Ok source n G : (forall i, 0 <= i < n -> source i = Ok (G i)) ->
  exists jobs, each source n = Ok jobs /\ gathers n G jobs.
Proof.
  intros H. destruct (for_each_one n (fun i => let* s := source i in Ok [mkCopy i s 1]) (fun i => mkCopy i (G i) 1))
    as (jobs & Hrun & Hj); [intros i Hi; by rewrite H|]. exists jobs. split; [exact Hrun|]. split.
  - intros j (i & Hi & ->)%Hj. unfold covers. cbn. split; [lia|]. intros k Hk. assert (k = i) as -> by lia. lia.
  - intros i Hi. eexists. split; [apply Hj; exists i; by split|]. unfold covers. cbn. lia.
Qed.

Lemma gathers_ext n G G' jobs : (forall i, 0 <= i < n -> G i = G' i) -> gathers n G jobs -> gathers n G' jobs.
Proof.
  intros E [Hs Hc]. split; [|done]. intros j Hj. destruct (Hs j Hj) as [? H]. split; [done|]. intros i Hi.
  destruct (H i Hi) as [? E']. split; [done|]. by rewrite E', E.
Qed.

Lemma gathers_shift n G jobs src : gathers n G jobs ->
  gathers n (fun i => src + G i) (map (fun j => mkCopy (c_dst j) (src + c_src j) (c_count j)) jobs).
Proof.
  intros [Hs Hc]. split.
  - intros j' (j & -> & Hj)%list_elem_of_fmap. destruct (Hs j Hj) as [? H]. cbn. split; [done|]. intros i Hi.
    destruct (H i Hi). split; [done|lia].
  - intros i Hi. destruct (Hc i Hi) as (j & Hj & ?). eexists. split; [by apply list_elem_of_fmap_2|done].
Qed.

Section Gathering.
Context `{!Backend, !Omp}.

Lemma holds_extends m m1 sh dt f r m' : extends m m1 -> holds m1 sh dt f r m' -> holds m sh dt f r m'.
Proof. intros He [? ? ? ? ? ? ?]. split; try done. by eapply extends_trans. Qed.

(** A kernel whose loop takes element [ravel sh (f idx)] for index [idx] reads
    the input through the index map [f]. *)
Lemma gather_kernel_Ok z t out_sh copies f m : sound m t -> fitting m ->
  allocatable m (shape t) (dtype t) -> allocatable m out_sh (dtype t) ->
  (forall idx, valid_index out_sh idx -> valid_index (shape t) (f idx)) ->
  (prodZ out_sh <> 0 -> exists jobs, copies (prodZ out_sh) = Ok jobs /\
     gathers (prodZ out_sh) (fun i => ravel (shape t) (f (unravel out_sh i))) jobs) ->
  yields (gather_kernel z t out_sh copies m) m out_sh (dtype t) (fun idx => elem m t (f idx)).
Proof.
  intros Ht Hf Ha Hao Hv Hcp. unfold gather_kernel, yields.
  destruct (contiguous_Ok t m Ht Hf Ha) as (c & m1 & -> & Hc & _). cbn [rbind].
  destruct Hc as [Hext Hf1 Hsc Hshc Hstc Hdc Hel].
  destruct (allocatable_new _ _ _ z (allocatable_extends _ _ _ _ Hext Hao)) as (r & m2 & Hnew). rewrite Hnew. cbn [rbind].
  pose proof (new_tensor_inv _ _ _ _ _ _ Hnew) as (Hnn & _ & -> & Hsz & _). cbn [rbind].
  destruct (Z.eqb_spec (prodZ out_sh) 0) as [Hz|Hne].
  { exists r, m2. split; [done|]. apply (holds_extends _ m1); [done|]. apply filled_holds; [done|].
    by apply (fill_empty z). }
  pose proof (prodZ_positive _ Hnn Hne) as Hp. pose proof (prodZ_pos _ Hp) as Hpp. pose proof (dtype_size_pos (dtype t)) as He.
  destruct (Hcp Hne) as (jobs & Hrun & Hg).
  assert (valid_index (shape t) (f (unravel out_sh 0))) as Hv0 by (apply Hv; apply unravel_bound; [done|lia]).
  destruct (allocatable_new _ _ _ z Ha) as (r0 & m0 & Hnew0).
  pose proof (new_tensor_inv _ _ _ _ _ _ Hnew0) as (_ & _ & _ & Hszt & _).
  pose proof (TShape.valid_index_pos _ _ Hv0) as Hpt. pose proof (prodZ_pos _ Hpt).
  assert (extends m1 m2) as He2 by (apply new_tensor_inv in Hnew as (_ & _ & _ & _ & _ & ->); by eexists).
  assert (fitting m2) as Hf2.
  { by eapply new_tensor_fitting. }
  rewrite (data_Ok m2 c); [|by eapply sound_extends|done|by rewrite Hshc|rewrite Hshc; nia].
  cbn [rbind]. rewrite Hrun. cbn [rbind].
  destruct (in_bounds_storage m1 c _ (proj2 Hsc) ltac:(rewrite Hshc; exact Hv0)) as [ls Hls].
  destruct (fill_Ok z out_sh (dtype t) m1 r m2 (storage c) ls _ _ Hnew Hls (gathers_shift _ _ _ (offset c) Hg))
    as (m' & Hcopy & Hfill).
  - intros i Hi. destruct (unravel_bound out_sh i Hp Hi) as [Hvi _]. apply Hv in Hvi.
    destruct (proj2 Hsc (f (unravel out_sh i))) as [Hlo Hhi]; [by rewrite Hshc|].
    apply storage_elements_bound in Hhi. unfold size_bytes in Hhi. rewrite Hls, Hdc in Hhi.
    unfold addr in *. rewrite Hstc in *. cbn in Hhi. split; [exact Hlo|exact Hhi].
  - rewrite Hcopy. cbn [rbind]. exists r, m'. split; [done|]. apply (holds_extends _ m1); [done|].
    apply filled_holds; [done|]. eapply filled_ext; [|exact Hfill]. intros idx Hi. cbv beta.
    rewrite unravel_ravel by done. rewrite <-Hel by by apply Hv. rewrite elem_cell. unfold bytes. rewrite Hls, Hdc.
    unfold addr. rewrite Hstc. done.
Qed.

End Gathering.

(** ** Rearrangements along one dimension *)

(** The index with another position along [d]. *)
Definition relocate (d : Z) (g : Z -> Z) (idx : list Z) : list Z := <[Z.to_nat d := g (nthZ idx d)]> idx.

Lemma ravel_split pre n post ip k iq : length ip = length pre ->
  ravel (pre ++ n :: post) (ip ++ k :: iq) = (ravel pre ip * n + k) * prodZ post + ravel post iq.
Proof.
  intros Hl. unfold ravel. rewrite suffix_prods_app. rewrite dot_app by (rewrite length_map, length_suffix_prods; lia).
  rewrite dot_scale. cbn. lia.
Qed.

Lemma split_at (sh : list Z) d : 0 <= d < lenZ sh -> exists pre post, sh = pre ++ nthZ sh d :: post /\
  Z.of_nat (length pre) = d /\ (forall n, <[Z.to_nat d := n]> sh = pre ++ n :: post) /\ drop (S (Z.to_nat d)) sh = post /\
  take (Z.to_nat d) sh = pre.
Proof.
  intros Hd. exists (take (Z.to_nat d) sh), (drop (S (Z.to_nat d)) sh).
  pose proof (take_drop_middle sh _ _ (nthZ_lookup sh d Hd)) as E. unfold lenZ in Hd.
  assert (length (take (Z.to_nat d) sh) = Z.to_nat d) as Hl by (rewrite length_take; lia).
  split_and!; [done|lia| |done|done]. intros n. rewrite <-E at 1. rewrite insert_app_r_alt by lia. by rewrite Hl, Nat.sub_diag.
Qed.

Lemma insert_middle (pre post : list Z) d x y : Z.of_nat (length pre) = d -> <[Z.to_nat d := y]> (pre ++ x :: post) = pre ++ y :: post.
Proof. intros <-. rewrite Nat2Z.id. rewrite insert_app_r_alt by lia. by rewrite Nat.sub_diag. Qed.

Lemma nthZ_middle (pre post : list Z) d x : Z.of_nat (length pre) = d -> nthZ (pre ++ x :: post) d = x.
Proof. intros <-. unfold nthZ. by rewrite Nat2Z.id, list_lookup_middle. Qed.

Lemma valid_relocate sh d n' g idx : 0 <= d < lenZ sh -> valid_index (<[Z.to_nat d := n']> sh) idx ->
  (forall k, 0 <= k < n' -> 0 <= g k < nthZ sh d) -> valid_index sh (relocate d g idx).
Proof.
  intros Hd Hv Hg. destruct (split_at sh d Hd) as (pre & post & E & Hl & Hi & _ & _). rewrite Hi in Hv.
  apply Forall2_app_inv_l in Hv as (ip & rest & Hv1 & Hv2 & ->).
  apply Forall2_cons_inv_l in Hv2 as (k & iq & Hk & Hv2 & ->). pose proof (valid_length _ _ Hv1).
  unfold relocate. rewrite nthZ_middle, insert_middle by lia. rewrite E. apply Forall2_app; [done|].
  constructor; [by apply Hg|done].
Qed.

(** The index arithmetic of the kernels that work along a dimension. *)
Lemma along_Ok sh d n' g i : 0 <= d < lenZ sh -> Forall (fun d => 0 < d) sh -> 0 < n' -> prodZ sh <= INT64_MAX ->
  0 <= i < prodZ (<[Z.to_nat d := n']> sh) ->
  let P := prodZ (drop (S (Z.to_nat d)) sh) in
  let k := Z.rem (Z.quot i P) n' in
  0 <= k < n' /\
  (0 <= g k < nthZ sh d ->
   along (nthZ sh d) P (Z.quot i (P * n')) (g k) (Z.rem i P) =
   Ok (ravel sh (relocate d g (unravel (<[Z.to_nat d := n']> sh) i)))).
Proof.
  intros Hd Hp Hn' Hb Hi. destruct (split_at sh d Hd) as (pre & post & E & Hl & Hins & Hpost & _).
  rewrite Hins in *. rewrite Hpost. cbv zeta. set (n := nthZ sh d) in *. clearbody n. subst sh. clear Hins Hpost Hd.
  apply Forall_app in Hp as [Hp1 Hp2]. apply Forall_cons_1 in Hp2 as [Hn Hp2].
  pose proof (prodZ_pos _ Hp1) as HA. pose proof (prodZ_pos _ Hp2) as HP.
  rewrite unravel_app; [|done|by constructor|done]. cbn [unravel prodZ].
  rewrite prodZ_app in Hb, Hi. cbn [prodZ] in Hb, Hi.
  destruct (mod_split i n' (prodZ post)) as (E1 & E2 & E3); [lia..|]. rewrite E1, E2.
  rewrite Z.quot_div_nonneg, Z.rem_mod_nonneg by (apply Z.div_pos || idtac; lia).
  pose proof (Z.mod_pos_bound (i / prodZ post) n' Hn') as Hk. split; [done|]. intros Hg.
  assert (0 <= i / (n' * prodZ post) < prodZ pre) as Hx.
  { split; [apply Z.div_pos; nia|]. apply Z.div_lt_upper_bound; nia. }
  destruct (unravel_bound pre _ Hp1 Hx) as [Hv1 Er1].
  pose proof (Z.mod_pos_bound i (prodZ post) HP) as Hm. destruct (unravel_bound post _ Hp2 Hm) as [Hv2 Er2].
  pose proof (valid_length _ _ Hv1). unfold relocate. rewrite nthZ_middle, insert_middle by lia.
  rewrite ravel_split by done. rewrite Er1, Er2. rewrite (Z.mul_comm (prodZ post) n').
  rewrite Z.quot_div_nonneg, Z.rem_mod_nonneg by nia. unfold along.
  set (x := i / (n' * prodZ post)) in *. set (y := g ((i / prodZ post) mod n')) in *. set (z := i mod prodZ post) in *.
  clearbody x y z. clear E1 E2 E3 Er1 Er2 Hv1 Hv2 Hk Hi.
  assert (0 <= x * n) by nia. assert (x * n + y < prodZ pre * n) by nia.
  assert ((x * n + y) * prodZ post + z < prodZ pre * n * prodZ post) by nia.
  assert (x * n + y <= (x * n + y) * prodZ post) by nia.
  rewrite mul_add_Ok by lia. cbn [rbind]. rewrite mul_add_Ok; [done|nia|lia|lia].
Qed.

Lemma inner_size_Ok sh d : Forall (fun d => 0 < d) sh -> prodZ sh <= INT64_MAX ->
  inner_size sh d = Ok (prodZ (drop (S (Z.to_nat d)) sh)).
Proof.
  intros Hp Hb. apply prod_i64_Ok; [by apply Forall_drop|]. rewrite <-(take_drop (S (Z.to_nat d)) sh), prodZ_app in Hb.
  pose proof (prodZ_pos _ (Forall_take _ (S (Z.to_nat d)) _ Hp)). pose proof (prodZ_pos _ (Forall_drop _ (S (Z.to_nat d)) _ Hp)). nia.
Qed.

(** A loop over the output whose position along [d] is [g] of the output's. *)
Lemma along_gathers sh d n' g : 0 <= d < lenZ sh -> Forall (fun d => 0 < d) sh -> 0 < n' -> prodZ sh <= INT64_MAX ->
  (forall k, 0 <= k < n' -> 0 <= g k < nthZ sh d) ->
  forall source : Z -> result Z,
  (forall i, 0 <= i < prodZ (<[Z.to_nat d := n']> sh) ->
    let P := prodZ (drop (S (Z.to_nat d)) sh) in
    let k := Z.rem (Z.quot i P) n' in
    0 <= k < n' -> source i = along (nthZ sh d) P (Z.quot i (P * n')) (g k) (Z.rem i P)) ->
  exists jobs, each source (prodZ (<[Z.to_nat d := n']> sh)) = Ok jobs /\
    gathers (prodZ (<[Z.to_nat d := n']> sh))
      (fun i => ravel sh (relocate d g (unravel (<[Z.to_nat d := n']> sh) i))) jobs.
Proof.
  intros Hd Hp Hn' Hb Hg source Hs. apply each_Ok. intros i Hi.
  destruct (along_Ok sh d n' g i Hd Hp Hn' Hb Hi) as [Hk Ha]. rewrite (Hs i Hi Hk). apply Ha. by apply Hg.
Qed.

End Gather.
