(* ===== verification/TensorRearrange.v ===== *)
(** * Flip, roll, repeat and repeat_interleave

    Each kernel against the index map of its documentation: element [idx] of
    the output is the element of the input at the mapped index. *)

From stdpp Require Import base list numbers strings.
From S2P Require Import Prelude MapSums Shape DType Tensor TensorViews TensorKernels TensorCopy TensorContiguous TensorGather.

Module Rearrange.
Import Sums Tensor Views Kernels Copying Contig Gather.

Section Rearrange.
Context `{!Backend, !Omp}.

Lemma positive_insert sh d n' k : 0 <= d < lenZ sh -> prodZ (<[Z.to_nat d := n']> sh) <> 0 ->
  Forall (fun d => 0 <= d) (<[Z.to_nat d := n']> sh) -> 0 <= k < nthZ sh d -> Forall (fun d => 0 < d) sh /\ 0 < n'.
Proof.
  intros Hd Hne Hnn Hk. destruct (split_at sh d Hd) as (pre & post & E & _ & Hi & _). rewrite Hi in *.
  pose proof (prodZ_positive _ Hnn Hne) as Hp. apply Forall_app in Hp as [Hp1 Hp2]. apply Forall_cons_1 in Hp2 as [Hn Hp2].
  split; [|done]. rewrite E. apply Forall_app. split; [done|]. constructor; [lia|done].
Qed.

Lemma allocatable_nonneg m sh dt : allocatable m sh dt -> Forall (fun d => 0 <= d) sh /\ prodZ sh <= INT64_MAX.
Proof.
  intros Ha. destruct (allocatable_new _ _ _ false Ha) as (r & m' & Hnew).
  apply new_tensor_inv in Hnew as (Hnn & _ & _ & Hsz & _). split; [done|].
  pose proof (dtype_size_pos dt). pose proof (prodZ_nonneg _ Hnn). nia.
Qed.

Lemma yields_ext op m sh dt f g : (forall idx, valid_index sh idx -> f idx = g idx) -> yields op m sh dt f -> yields op m sh dt g.
Proof.
  intros E (r & m' & Hrun & [? ? ? ? ? ? Hel]). exists r, m'. split; [done|]. split; try done.
  intros idx Hv. rewrite <-E by done. by apply Hel.
Qed.

(** A kernel that takes the element at another position of one dimension. *)
Lemma along_kernel z t d n' g source m : sound m t -> fitting m -> 0 <= d < ndim t ->
  let sh := shape t in
  let out := <[Z.to_nat d := n']> sh in
  allocatable m sh (dtype t) -> allocatable m out (dtype t) ->
  (forall k, 0 <= k < n' -> 0 <= g k < nthZ sh d) ->
  (Forall (fun d => 0 < d) sh -> 0 < n' -> exists f, source (prodZ out) = each f (prodZ out) /\
    forall i, 0 <= i < prodZ out -> let P := prodZ (drop (S (Z.to_nat d)) sh) in
      let k := Z.rem (Z.quot i P) n' in
      0 <= k < n' -> f i = along (nthZ sh d) P (Z.quot i (P * n')) (g k) (Z.rem i P)) ->
  yields (gather_kernel z t out source m) m out (dtype t) (fun idx => elem m t (relocate d g idx)).
Proof.
  intros Ht Hf Hd sh out Ha Hao Hg Hs. apply gather_kernel_Ok; try done.
  - intros idx Hv. by apply (valid_relocate _ _ n').
  - intros Hne. destruct (allocatable_nonneg _ _ _ Hao) as [Hnn _].
    destruct (allocatable_nonneg _ _ _ Ha) as [_ Hb].
    assert (0 < n') as Hn'.
    { pose proof (prodZ_positive _ Hnn Hne) as Hp. destruct (split_at sh d Hd) as (pre & post & _ & _ & Hi & _).
      unfold out in Hp. rewrite Hi in Hp. by apply Forall_app in Hp as [_ [? _]%Forall_cons_1]. }
    destruct (positive_insert sh d n' (g 0) Hd Hne Hnn (Hg 0 ltac:(lia))) as [Hp _].
    destruct (Hs Hp Hn') as (f & -> & Hfi). apply along_gathers; try done.
Qed.

(** ** roll *)

Lemma roll_source k s n : 0 <= k < n -> 0 <= s < n -> Z.rem (k - s + n) n = (k - s) mod n.
Proof.
  intros Hk Hs. rewrite Z.rem_mod_nonneg by lia. replace (k - s + n) with (k - s + 1 * n) by lia. by rewrite Z.mod_add by lia.
Qed.

(** [roll] moves every element [shift] places along the dimension and
    re-enters those that leave it on the other side, for a shift of any sign and
    size: element [k] of the result along the dimension is element
    [(k - shift) mod n] of the input. *)
Theorem roll_rotates t shift dim m :
  let d := norm_dim (ndim t) dim in
  let n := nthZ (shape t) d in
  sound m t -> fitting m -> 0 <= d < ndim t -> INT64_MIN <= shift <= INT64_MAX -> 2 * n <= INT64_MAX ->
  allocatable m (shape t) (dtype t) ->
  yields (roll_kernel t shift dim m) m (shape t) (dtype t)
    (fun idx => elem m t (relocate d (fun k => (k - shift) mod n) idx)).
Proof.
  intros d n Ht Hf Hd Hs H2 Ha. unfold roll_kernel. fold d. rewrite throw_if_false by (by rewrite (proj2 (in_dims_spec _ _) Hd)).
  cbn [rbind]. fold n. assert (<[Z.to_nat d := n]> (shape t) = shape t) as Eid by (apply list_insert_id, nthZ_lookup, Hd).
  apply gather_kernel_Ok; try done.
  { intros idx Hv. rewrite <-Eid in Hv. eapply valid_relocate; [done|exact Hv|]. intros k Hk. apply Z.mod_pos_bound. lia. }
  intros Hne. destruct (allocatable_nonneg _ _ _ Ha) as [Hnn Hb]. pose proof (prodZ_positive _ Hnn Hne) as Hp.
  assert (0 < n) as Hn by (by eapply (Forall_lookup_1 _ _ _ _ Hp), nthZ_lookup).
  pose proof (Z.rem_bound_abs shift n ltac:(lia)). rewrite i64_nonneg by lia. cbn [rbind].
  assert (Z.rem (Z.rem shift n + n) n = shift mod n) as Es.
  { rewrite Z.rem_mod_nonneg by lia. replace (Z.rem shift n + n) with (shift + (1 - Z.quot shift n) * n)
      by (pose proof (Z.quot_rem' shift n); lia). by rewrite Z.mod_add by lia. }
  rewrite Es. pose proof (Z.mod_pos_bound shift n Hn) as Hsb. destruct (Z.eqb_spec (shift mod n) 0) as [E0|Hs0].
  - eexists. split; [done|]. apply (gathers_ext _ (fun i => i)).
    + intros i Hi. destruct (unravel_bound _ i Hp Hi) as [Hv Er]. rewrite <-Er at 1. f_equal.
      symmetry. apply list_insert_id. rewrite nthZ_lookup by (unfold lenZ; rewrite (valid_length _ _ Hv); exact Hd).
      f_equal. assert (0 <= nthZ (unravel (shape t) i) d < n) as Hk.
      { eapply valid_lookup; [exact Hv|by apply nthZ_lookup|].
        apply nthZ_lookup. unfold lenZ. rewrite (valid_length _ _ Hv). exact Hd. }
      rewrite Zminus_mod, E0, Z.sub_0_r, Z.mod_mod by lia. symmetry. by apply Z.mod_small.
    + pose proof (prodZ_pos _ Hp). split.
      * intros j ->%list_elem_of_singleton. unfold covers. cbn. split; [lia|]. intros i Hi. lia.
      * intros i Hi. eexists. split; [by apply list_elem_of_singleton|]. unfold covers. cbn. lia.
  - rewrite inner_size_Ok by done. cbn [rbind].
    destruct (split_at (shape t) d Hd) as (pre & post & E & Hl & _ & Hpost & _).
    assert (prodZ (drop (S (Z.to_nat d)) (shape t)) * n <= INT64_MAX) as Hblk.
    { rewrite Hpost. rewrite E, prodZ_app in Hb. cbn [prodZ] in Hb. fold n in Hb. rewrite E in Hp.
      apply Forall_app in Hp as [Hp1 [_ Hp2]%Forall_cons_1].
      pose proof (prodZ_pos _ Hp1). pose proof (prodZ_pos _ Hp2). assert (0 < n * prodZ post) by nia. nia. }
    pose proof (prodZ_pos _ (Forall_drop _ (S (Z.to_nat d)) _ Hp)). rewrite i64_nonneg by nia. cbn [rbind].
    pose proof (along_gathers (shape t) d n (fun k => (k - shift) mod n) Hd Hp Hn Hb) as Hal.
    rewrite Eid in Hal. apply Hal.
    + intros k Hk. by apply Z.mod_pos_bound.
    + intros i Hi P k Hk. rewrite i64_nonneg by (subst P k; lia). cbn [rbind].
      rewrite roll_source by (subst P k; lia). fold P. fold k. unfold n at 1. f_equal.
      rewrite Zminus_mod_idemp_r. done.
Qed.

(** ** repeat_interleave *)

Lemma block_Ok sh d n' : 0 <= d < lenZ sh -> Forall (fun d => 0 < d) sh -> 0 < n' -> prodZ (<[Z.to_nat d := n']> sh) <= INT64_MAX ->
  i64 (prodZ (drop (S (Z.to_nat d)) sh) * n') = Ok (prodZ (drop (S (Z.to_nat d)) sh) * n').
Proof.
  intros Hd Hp Hn' Hb. destruct (split_at sh d Hd) as (pre & post & E & _ & Hi & Hpost & _). rewrite Hi, prodZ_app in Hb.
  cbn [prodZ] in Hb. rewrite Hpost. rewrite E in Hp. apply Forall_app in Hp as [Hp1 [_ Hp2]%Forall_cons_1].
  pose proof (prodZ_pos _ Hp1). pose proof (prodZ_pos _ Hp2). assert (0 < n' * prodZ post) by nia. apply i64_nonneg. nia.
Qed.

(** [repeat_interleave] with a scalar count: each element occurs [repeats]
    times in a row along the dimension, so element [k] of the result is element
    [k / repeats] of the input; a count of zero gives an empty tensor. *)
Theorem repeat_interleave_scalar_repeats t repeats dim m :
  let d := norm_dim (ndim t) dim in
  let n := nthZ (shape t) d in
  let out := <[Z.to_nat d := n * repeats]> (shape t) in
  sound m t -> fitting m -> 0 <= d < ndim t -> 0 <= repeats -> n * repeats <= INT64_MAX ->
  allocatable m (shape t) (dtype t) -> allocatable m out (dtype t) ->
  yields (repeat_interleave_scalar_kernel t repeats dim m) m out (dtype t)
    (fun idx => elem m t (relocate d (fun k => k / repeats) idx)).
Proof.
  intros d n out Ht Hf Hd Hr Hn Ha Hao. unfold repeat_interleave_scalar_kernel. fold d.
  rewrite throw_if_false by (by rewrite (proj2 (in_dims_spec _ _) Hd)). cbn [rbind]. fold n.
  destruct (allocatable_nonneg _ _ _ Ha) as [Hnn Hb]. destruct (allocatable_nonneg _ _ _ Hao) as [_ Hbo].
  pose proof (nthZ_nonneg _ d Hnn : 0 <= n) as Hn0. rewrite i64_nonneg by nia. cbn [rbind]. fold out.
  apply along_kernel; try done.
  - intros k Hk. fold n. split; [apply Z.div_pos; nia|]. apply Z.div_lt_upper_bound; nia.
  - intros Hp Hn'. rewrite inner_size_Ok by done. cbn [rbind]. rewrite block_Ok by done. cbn [rbind].
    eexists. split; [reflexivity|]. intros i Hi Hk. cbv beta.
    by rewrite (Z.quot_div_nonneg (Z.rem _ _) repeats) by nia.
Qed.

(** The element a position belongs to when element [i] is repeated [reps[i]]
    times. *)
Fixpoint segment (reps : list Z) (k : Z) : Z :=
  match reps with
  | [] => 0
  | r :: reps => if k <? r then 0 else 1 + segment reps (k - r)
  end.

Definition sum_to (reps : list Z) (j : Z) : Z := sumZ_with (fun r => r) (take (Z.to_nat j) reps).

Lemma segment_spec reps k : Forall (fun r => 0 <= r) reps -> 0 <= k < sumZ_with (fun r => r) reps ->
  let j := segment reps k in
  0 <= j < lenZ reps /\ sum_to reps j <= k < sum_to reps (j + 1).
Proof.
  intros Hr. revert k. unfold sum_to, lenZ. induction Hr as [|r reps Hr0 Hr IH]; intros k Hk; cbn in Hk |- *; [lia|].
  destruct (Z.ltb_spec k r).
  - change (Z.to_nat (0 + 1)) with 1%nat. change (Z.to_nat 0) with 0%nat. cbn. rewrite take_0. cbn. lia.
  - destruct (IH (k - r) ltac:(lia)) as [Hj Hs].
    set (j := segment reps (k - r)) in *. clearbody j.
    replace (Z.to_nat (1 + j)) with (S (Z.to_nat j)) by lia.
    replace (Z.to_nat (1 + j + 1)) with (S (Z.to_nat (j + 1))) by lia. cbn. lia.
Qed.

Lemma sum_to_mono reps i j : Forall (fun r => 0 <= r) reps -> 0 <= i <= j -> sum_to reps i <= sum_to reps j.
Proof.
  intros Hr Hij. unfold sum_to. replace (Z.to_nat j) with (Z.to_nat i + (Z.to_nat j - Z.to_nat i))%nat by lia.
  rewrite <-take_take_drop, sumZ_with_app.
  enough (0 <= sumZ_with (fun r => r) (take (Z.to_nat j - Z.to_nat i) (drop (Z.to_nat i) reps))) by lia.
  generalize (Forall_take _ (Z.to_nat j - Z.to_nat i) _ (Forall_drop _ (Z.to_nat i) _ Hr)).
  induction 1 as [|x l Hx _ IH]; cbn; [done|]. lia.
Qed.

(** The segment is the only one the position lies in. *)
Lemma segment_unique reps k j : Forall (fun r => 0 <= r) reps -> 0 <= k < sumZ_with (fun r => r) reps ->
  0 <= j -> sum_to reps j <= k < sum_to reps (j + 1) -> j = segment reps k.
Proof.
  intros Hr Hk Hj Hs. destruct (segment_spec reps k Hr Hk) as [Hj' Hs']. set (i := segment reps k) in *.
  destruct (Z.lt_trichotomy j i) as [H'|[H'|H']]; [|done|].
  - pose proof (sum_to_mono reps (j + 1) i Hr ltac:(lia)). lia.
  - pose proof (sum_to_mono reps (i + 1) j Hr ltac:(lia)). lia.
Qed.

(** [prefix] holds the sums of all beginnings of [reps]. *)
Definition is_prefix (reps prefix : list Z) : Prop :=
  length prefix = S (length reps) /\ forall j, (j <= length reps)%nat -> prefix !! j = Some (sum_to reps (Z.of_nat j)).

Lemma is_prefix_last reps prefix : is_prefix reps prefix -> default 0 (last prefix) = sumZ_with (fun r => r) reps.
Proof.
  intros [Hl Hp]. rewrite last_lookup, Hl. simpl. rewrite Hp by lia. simpl. unfold sum_to.
  by rewrite Nat2Z.id, take_ge by lia.
Qed.

Lemma prefix_sums_Ok reps : Forall (fun r => 0 <= r) reps -> sumZ_with (fun r => r) reps <= INT64_MAX ->
  exists prefix, prefix_sums reps = Ok prefix /\ is_prefix reps prefix.
Proof.
  unfold prefix_sums. intros Hr.
  enough (forall done prefix, Forall (fun r => 0 <= r) done -> is_prefix done prefix ->
    sumZ_with (fun r => r) (done ++ reps) <= INT64_MAX -> exists prefix',
    rfoldM (fun prefix r => let* s := i64 (default 0 (last prefix) + r) in Ok (prefix ++ [s])) reps prefix = Ok prefix' /\
    is_prefix (done ++ reps) prefix') as Hgen.
  { intros Hb. destruct (Hgen [] [0]) as (p & Hrun & Hp); [constructor| |exact Hb|by exists p].
    split; [done|]. intros j Hj. by replace j with 0%nat by (simpl in Hj; lia). }
  induction Hr as [|r reps Hr0 Hr IH]; intros done prefix Hd Hp Hb; cbn [rfoldM].
  { exists prefix. by rewrite app_nil_r. }
  rewrite (is_prefix_last _ _ Hp). rewrite sumZ_with_app in Hb. cbn in Hb.
  assert (forall l, Forall (fun r => 0 <= r) l -> 0 <= sumZ_with (fun r => r) l) as Hnn.
  { induction 1 as [|x l Hx _ IHl]; cbn; [by apply Z.le_refl|]. lia. }
  pose proof (Hnn _ Hd). pose proof (Hnn _ Hr). rewrite i64_nonneg by lia. cbn [rbind].
  destruct (IH (done ++ [r]) (prefix ++ [sumZ_with (fun r => r) done + r])) as (p & Hrun & Hp').
  - apply Forall_app. split; [exact Hd|by constructor].
  - destruct Hp as [Hl Hlk]. split; [rewrite !length_app; simpl; lia|]. intros j Hj. rewrite length_app in Hj. simpl in Hj.
    unfold sum_to. rewrite Nat2Z.id. destruct (decide (j = S (length done))) as [->|Hne].
    + rewrite take_ge by (rewrite length_app; simpl; lia). rewrite <-Hl, list_lookup_middle by (symmetry; apply Nat.add_0_r || done).
      rewrite sumZ_with_app. cbn. f_equal. lia.
    + rewrite lookup_app_l by lia. rewrite Hlk by lia. unfold sum_to. rewrite Nat2Z.id. by rewrite take_app_le by lia.
  - rewrite <-app_assoc. rewrite sumZ_with_app. cbn. lia.
  - exists p. split; [exact Hrun|]. by rewrite <-app_assoc in Hp'.
Qed.


(** The binary search ends with the position's segment, within [dim_size]
    steps. *)
Lemma search_prefix_Ok reps prefix x : Forall (fun r => 0 <= r) reps -> is_prefix reps prefix ->
  0 <= x < sumZ_with (fun r => r) reps -> search_prefix (length reps) prefix x 0 (lenZ reps) = Ok (segment reps x).
Proof.
  intros Hr [Hl Hp] Hx.
  assert (forall j, 0 <= j <= lenZ reps -> nthZ prefix j = sum_to reps j) as Hnth.
  { intros j Hj. unfold nthZ, lenZ in *. rewrite Hp by lia. simpl. by rewrite Z2Nat.id by lia. }
  assert (sum_to reps (lenZ reps) = sumZ_with (fun r => r) reps) as Htot.
  { unfold sum_to, lenZ. by rewrite Nat2Z.id, take_ge by lia. }
  enough (forall fuel lo hi, 0 <= lo <= hi -> hi <= lenZ reps -> hi - lo <= Z.of_nat fuel -> sum_to reps lo <= x ->
    (hi < lenZ reps -> x < sum_to reps (hi + 1)) ->
    search_prefix fuel prefix x lo hi = Ok (segment reps x)) as Hgen.
  { apply Hgen; unfold lenZ; try lia. unfold sum_to. rewrite take_0. cbn. lia. }
  induction fuel as [|fuel IH]; intros lo hi Hlo Hhi Hfuel H1 H2; cbn [search_prefix].
  - destruct (Z.ltb_spec lo hi); [lia|]. f_equal. apply segment_unique; try done; try lia. split; [done|].
    assert (lo = hi) as -> by lia. apply H2. destruct (Z.eq_dec hi (lenZ reps)) as [->|]; lia.
  - destruct (Z.ltb_spec lo hi).
    + assert (0 <= Z.quot (hi - lo) 2 < hi - lo) as Hq.
      { rewrite Z.quot_div_nonneg by lia. split; [apply Z.div_pos; lia|apply Z.div_lt; lia]. }
      set (mid := lo + Z.quot (hi - lo) 2) in *. rewrite Hnth by lia.
      destruct (Z.leb_spec (sum_to reps (mid + 1)) x); apply IH; try lia.
    + f_equal. apply segment_unique; try done; try lia. split; [done|].
      assert (lo = hi) as -> by lia. apply H2. destruct (Z.eq_dec hi (lenZ reps)) as [->|]; lia.
Qed.

(** [repeat_interleave] with a count per element: element [i] of the
    dimension occurs [repeats[i]] times in a row.  The binary search of the
    kernel finds, for every position of the result, the segment it lies in. *)
Theorem repeat_interleave_tensor_repeats t repeats dim m :
  let d := norm_dim (ndim t) dim in
  let reps := take (Z.to_nat (nthZ (shape t) d)) repeats in
  let out := <[Z.to_nat d := sumZ_with (fun r => r) reps]> (shape t) in
  sound m t -> fitting m -> 0 <= d < ndim t -> nthZ (shape t) d <= lenZ repeats -> Forall (fun r => 0 <= r) reps ->
  sumZ_with (fun r => r) reps <= INT64_MAX ->
  allocatable m (shape t) (dtype t) -> allocatable m out (dtype t) ->
  yields (repeat_interleave_tensor_kernel t repeats dim m) m out (dtype t)
    (fun idx => elem m t (relocate d (segment reps) idx)).
Proof.
  intros d reps out Ht Hf Hd Hlen Hr Hsum Ha Hao. unfold repeat_interleave_tensor_kernel. fold d.
  rewrite throw_if_false by (by rewrite (proj2 (in_dims_spec _ _) Hd)). cbn [rbind].
  rewrite throw_if_false by (apply Z.ltb_ge; lia). cbn [rbind]. fold reps.
  destruct (allocatable_nonneg _ _ _ Ha) as [Hnn Hb]. destruct (allocatable_nonneg _ _ _ Hao) as [_ Hbo].
  pose proof (nthZ_nonneg _ d Hnn) as Hn0.
  assert (lenZ reps = nthZ (shape t) d) as Hl by (unfold reps, lenZ in *; rewrite length_take; lia).
  rewrite throw_if_false; [cbn [rbind]|].
  - destruct (prefix_sums_Ok reps Hr Hsum) as (prefix & -> & Hp). cbn [rbind]. rewrite (is_prefix_last _ _ Hp). fold out.
    apply along_kernel; try done.
    + intros k Hk. rewrite <-Hl. by apply segment_spec.
    + intros Hpos Hn'. rewrite inner_size_Ok by done. cbn [rbind]. rewrite block_Ok by done. cbn [rbind].
      eexists. split; [reflexivity|]. intros i Hi Hk. cbv beta. rewrite <-Hl. unfold lenZ at 1. rewrite Nat2Z.id.
      rewrite search_prefix_Ok by done. done.
  - destruct (existsb _ reps) eqn:E; [|done]. apply existsb_exists in E as (r & Hin & Hneg%Z.ltb_lt).
    apply list_elem_of_In in Hin. rewrite Forall_forall in Hr. specialize (Hr r Hin). simpl in Hr. lia.
Qed.

(** ** flip *)

Lemma coordinates_unravel sh i : Forall (fun d => 0 < d) sh -> 0 <= i < prodZ sh -> coordinates (rev sh) i = unravel sh i.
Proof.
  revert i. induction sh as [|d sh IH] using rev_ind; intros i Hp Hi; [done|].
  apply Forall_app in Hp as [Hp Hd]. rewrite prodZ_app in Hi. cbn in Hi.
  pose proof (Forall_inv Hd) as Hd0. simpl in Hd0. rewrite rev_app_distr. cbn [rev app coordinates].
  rewrite unravel_app by (done || (rewrite prodZ_app; cbn; lia)). cbn [prodZ unravel].
  rewrite Z.mul_1_r, Z.div_1_r, Z.quot_div_nonneg, Z.rem_mod_nonneg by lia.
  rewrite IH; [done|done|]. split; [apply Z.div_pos; lia|apply Z.div_lt_upper_bound; lia].
Qed.

Lemma packed_strides_Ok sh : Forall (fun d => 0 < d) sh -> prodZ sh <= INT64_MAX ->
  packed_strides sh = Ok (TShape.suffix_prods sh).
Proof.
  intros Hp Hb. unfold packed_strides.
  enough (rfoldM (fun '(st, s) d => let* s' := i64 (s * d) in Ok (s :: st, s')) (rev sh) ([], 1) =
          Ok (TShape.suffix_prods sh, prodZ sh)) as -> by done.
  induction Hp as [|d ds Hd Hds IH]; [done|]. pose proof (prodZ_pos _ Hds) as HP. cbn [rev]. cbn [prodZ] in Hb.
  rewrite rfoldM_app, IH by nia. cbn [rbind rfoldM]. rewrite i64_nonneg by nia. cbn. by rewrite Z.mul_comm.
Qed.

(** The index reflected along [dims]. *)
Definition reflect (sh dims idx : list Z) : list Z :=
  imap (fun i c => if bool_decide (Z.of_nat i ∈ dims) then nthZ sh (Z.of_nat i) - 1 - c else c) idx.

Lemma valid_reflect sh dims idx : valid_index sh idx -> valid_index sh (reflect sh dims idx).
Proof.
  intros Hv. apply Forall2_lookup. intros k. unfold reflect. rewrite list_lookup_imap.
  destruct (sh !! k) as [d|] eqn:Ed.
  - destruct (idx !! k) as [c|] eqn:Ec.
    + pose proof (valid_lookup _ _ _ _ _ Hv Ed Ec). cbn. constructor. unfold nthZ. rewrite Nat2Z.id, Ed. cbn.
      case_bool_decide; lia.
    + pose proof (valid_length _ _ Hv). apply lookup_ge_None in Ec. apply lookup_lt_Some in Ed. lia.
  - pose proof (valid_length _ _ Hv). apply lookup_ge_None in Ed.
    rewrite (proj2 (lookup_ge_None idx k)) by lia. constructor.
Qed.


Lemma dot_nonneg ss idx : Forall (fun s => 0 <= s) ss -> Forall (fun c => 0 <= c) idx -> 0 <= dot ss idx.
Proof.
  intros Hs. revert idx. induction Hs as [|s ss Hs0 Hs IH]; intros [|c idx] Hi; cbn; try lia.
  apply Forall_cons_1 in Hi as [Hc Hi]. specialize (IH _ Hi). nia.
Qed.

Lemma suffix_prods_nonneg sh : Forall (fun d => 0 < d) sh -> Forall (fun s => 0 <= s) (TShape.suffix_prods sh).
Proof. induction 1 as [|d ds Hd Hds IH]; constructor; [|done]. pose proof (prodZ_pos _ Hds). lia. Qed.

Lemma valid_nonneg sh idx : valid_index sh idx -> Forall (fun c => 0 <= c) idx.
Proof. induction 1; constructor; [lia|done]. Qed.

(** The loop that adds the products of strides and changed coordinates. *)
Lemma reflect_loop (g : Z -> Z -> Z) coords st k acc : length st = length coords -> 0 <= acc ->
  Forall (fun s => 0 <= s) st -> Forall (fun c => 0 <= c) (imap (fun j c => g (Z.of_nat (k + j)) c) coords) ->
  acc + dot st (imap (fun j c => g (Z.of_nat (k + j)) c) coords) <= INT64_MAX ->
  rfoldM (fun in_idx '(i, (c, s)) => mac in_idx (g i c) s) (imap (fun j p => (Z.of_nat (k + j), p)) (zip coords st)) acc =
  Ok (acc + dot st (imap (fun j c => g (Z.of_nat (k + j)) c) coords)).
Proof.
  revert st k acc. induction coords as [|c coords IH]; intros [|s st] k acc Hl Ha Hst Hc Hb; try done.
  { cbn. f_equal. lia. }
  cbn [zip_with]. rewrite !imap_cons in *. cbn [rfoldM TShape.offset] in *. rewrite Nat.add_0_r in *.
  apply Forall_cons_1 in Hst as [Hs Hst]. apply Forall_cons_1 in Hc as [Hc0 Hc].
  assert (forall {A B} (h : Z -> A -> B) l, imap ((fun j x => h (Z.of_nat (k + j)) x) ∘ S) l =
    imap (fun j x => h (Z.of_nat (S k + j)) x) l) as E.
  { intros A B h l. apply imap_ext. intros j x _. cbn. do 2 f_equal. lia. }
  rewrite (E _ _ g) in *. rewrite (E _ _ (fun i p => (i, p))).
  pose proof (dot_nonneg _ _ Hst Hc). assert (0 <= g (Z.of_nat k) c * s) by nia.
  rewrite mac_Ok by lia. cbn [rbind]. rewrite IH; [f_equal; lia|by injection Hl|lia|done|done|lia].
Qed.

(** [flip] reverses the order of the elements along each of the given
    dimensions (negative ones count from the end) and keeps the others. *)
Theorem flip_reflects t dims m :
  let ds := map (norm_dim (ndim t)) dims in
  sound m t -> fitting m -> dims <> [] -> Forall (fun d => 0 <= d < ndim t) ds -> allocatable m (shape t) (dtype t) ->
  yields (flip t dims m) m (shape t) (dtype t) (fun idx => elem m t (reflect (shape t) ds idx)).
Proof.
  intros ds Ht Hf Hne Hds Ha. unfold flip, flip_kernel. fold ds.
  assert (forallb (in_dims (ndim t)) ds = true) as Hall.
  { apply forallb_forall. intros d Hd%list_elem_of_In. apply in_dims_spec. by eapply Forall_forall in Hds. }
  rewrite throw_if_false by (by rewrite Hall). cbn [rbind].
  assert (match ds with [] => [0] | _ => ds end = ds) as -> by (unfold ds; by destruct dims).
  assert (map (norm_dim (ndim t)) ds = ds) as ->.
  { etransitivity; [|apply map_id]. apply map_ext_in. intros d Hd%list_elem_of_In.
    apply norm_dim_id. by apply (proj1 (Forall_forall _ _) Hds d Hd). }
  rewrite throw_if_false by (by rewrite Hall). cbn [rbind].
  apply gather_kernel_Ok; try done; [by intros idx; apply valid_reflect|]. intros Hnz.
  destruct (allocatable_nonneg _ _ _ Ha) as [Hnn Hb]. pose proof (prodZ_positive _ Hnn Hnz) as Hp.
  rewrite packed_strides_Ok by done. cbn [rbind]. apply each_Ok. intros i Hi. rewrite coordinates_unravel by done.
  destruct (unravel_bound _ i Hp Hi) as [Hv _]. pose proof (valid_reflect _ ds _ Hv) as Hv'.
  pose proof (ravel_bound _ _ Hv'). unfold ravel, reflect in *.
  apply (reflect_loop (fun i c => if bool_decide (i ∈ ds) then nthZ (shape t) i - 1 - c else c) _ _ 0%nat 0).
  - rewrite length_suffix_prods. symmetry. by apply valid_length.
  - done.
  - by apply suffix_prods_nonneg.
  - exact (valid_nonneg _ _ Hv').
  - cbn. lia.
Qed.

(** ** repeat *)

(** The dimensions of the input, with leading ones up to the length of the
    counts. *)
Definition padded (t : TensorImpl) (repeats : list Z) : list Z :=
  replicate (length repeats - length (shape t)) 1 ++ shape t.

Lemma effective_padded t (repeats : list Z) : ndim t <= lenZ repeats ->
  imap (fun i _ => let in_idx := Z.of_nat i - (lenZ repeats - ndim t) in
    if 0 <=? in_idx then nthZ (shape t) in_idx else 1) repeats = padded t repeats.
Proof.
  unfold ndim, lenZ, padded. intros H'. apply list_eq. intros i. rewrite list_lookup_imap.
  destruct (lt_dec i (length repeats)) as [Hi|Hi].
  - destruct (lookup_lt_is_Some_2 repeats i Hi) as [r ->]. cbn [fmap option_fmap option_map].
    destruct (Z.leb_spec 0 (Z.of_nat i - (Z.of_nat (length repeats) - Z.of_nat (length (shape t))))).
    + rewrite lookup_app_r by (rewrite length_replicate; lia). rewrite length_replicate.
      rewrite <-nthZ_lookup by (unfold lenZ; lia). f_equal. lia.
    + rewrite lookup_app_l by (rewrite length_replicate; lia). symmetry. apply lookup_replicate. lia.
  - rewrite (proj2 (lookup_ge_None repeats i)) by lia. symmetry. apply lookup_ge_None.
    rewrite length_app, length_replicate. lia.
Qed.

(** The position of an index of the output in the padded input, and in the
    input. *)
Definition wrapped (eff idx : list Z) : list Z := zip_with (fun c d => c mod d) idx eff.

Definition tiled (t : TensorImpl) (repeats idx : list Z) : list Z :=
  drop (length repeats - length (shape t)) (wrapped (padded t repeats) idx).

Lemma valid_wrapped eff idx : length idx = length eff -> Forall (fun d => 0 < d) eff -> valid_index eff (wrapped eff idx).
Proof.
  intros Hl He. revert idx Hl. induction He as [|d ds Hd Hds IH]; intros [|c idx] Hl; try done; constructor.
  - by apply Z.mod_pos_bound.
  - apply IH. by injection Hl.
Qed.

Lemma prodZ_ones k sh : prodZ (replicate k 1 ++ sh) = prodZ sh.
Proof. induction k as [|k IH]; simpl; [done|]. rewrite IH. lia. Qed.

(** Leading dimensions of size one add nothing to a position. *)
Lemma ravel_ones k sh idx : valid_index (replicate k 1 ++ sh) idx ->
  valid_index sh (drop k idx) /\ ravel (replicate k 1 ++ sh) idx = ravel sh (drop k idx).
Proof.
  revert idx. induction k as [|k IH]; intros idx Hv; cbn [replicate app] in Hv |- *; [done|].
  apply Forall2_cons_inv_l in Hv as (c & rest & Hc & Hv & ->). destruct (IH rest Hv) as [Hv' E]. split; [done|].
  unfold ravel in *. cbn. rewrite E. assert (c = 0) as -> by lia. lia.
Qed.

Lemma compute_strides_ones k sh : TShape.compute_strides sh = Ok (TShape.suffix_prods sh) ->
  0 <= prodZ sh <= INT64_MAX -> TShape.compute_strides (replicate k 1 ++ sh) = Ok (TShape.suffix_prods (replicate k 1 ++ sh)).
Proof.
  intros E Hb. induction k as [|k IH]; [done|]. change (replicate (S k) 1 ++ sh) with (1 :: (replicate k 1 ++ sh)).
  pose proof (prodZ_ones k sh) as Hk. destruct (replicate k 1 ++ sh) as [|d ds] eqn:El; [done|].
  rewrite TShape.compute_strides_cons2, IH. cbn [rbind TShape.suffix_prods head default]. unfold Checked.checked_mul.
  cbn [prodZ] in Hk. simpl. replace (prodZ ds * d) with (d * prodZ ds) by lia. rewrite (proj2 (in_i64_spec _)); [done|].
  unfold INT64_MIN. lia.
Qed.

(** The loop of the kernel over the dimensions: the coordinates of the output
    index, wrapped, times the strides of the input. *)
Lemma tile_loop out eff st i acc : length eff = length out -> length st = length out ->
  Forall (fun d => 0 < d) out -> Forall (fun d => 0 < d) eff -> Forall (fun s => 0 <= s) st -> 0 <= i < prodZ out ->
  0 <= acc -> acc + dot st (wrapped eff (unravel out i)) <= INT64_MAX ->
  rmap snd (rfoldM (fun '(remaining, src_linear) '(s, (d, s')) =>
    let coord := Z.quot remaining s in
    let* src_linear := mac src_linear (Z.rem coord d) s' in
    Ok (Z.rem remaining s, src_linear)) (zip (TShape.suffix_prods out) (zip eff st)) (i, acc)) =
  Ok (acc + dot st (wrapped eff (unravel out i))).
Proof.
  revert eff st i acc. induction out as [|d0 out IH]; intros [|d eff] [|s st] i acc Hl Hls Ho He Hst Hi Ha Hb; try done.
  { cbn. f_equal. lia. }
  apply Forall_cons_1 in Ho as [Hd0 Ho]. apply Forall_cons_1 in He as [Hd He]. apply Forall_cons_1 in Hst as [Hs Hst].
  pose proof (prodZ_pos _ Ho) as HP. cbn [TShape.suffix_prods zip_with rfoldM unravel wrapped TShape.offset prodZ] in *.
  assert (0 <= i / prodZ out) by (apply Z.div_pos; lia).
  rewrite Z.quot_div_nonneg, !Z.rem_mod_nonneg by lia.
  pose proof (Z.mod_pos_bound (i / prodZ out) d Hd). pose proof (Z.mod_pos_bound i (prodZ out) HP) as Hi'.
  destruct (unravel_bound out _ Ho Hi') as [Hv _]. pose proof (valid_length _ _ Hv) as Hlv.
  injection Hl as Hl. injection Hls as Hls.
  assert (valid_index eff (wrapped eff (unravel out (i mod prodZ out)))) as Hw by (apply valid_wrapped; [lia|done]).
  pose proof (dot_nonneg _ _ Hst (valid_nonneg _ _ Hw)). unfold wrapped in *. cbn [zip_with] in *.
  rewrite mac_Ok by nia. cbn [rbind]. rewrite IH; try done; [f_equal; lia|nia|lia].
Qed.

(** [repeat] tiles the input: element [idx] of the result is the element of
    the input whose position in every dimension is the position in the result
    modulo the size of the dimension; dimensions the input lacks are
    dropped. *)
Theorem repeat_tiles t repeats m :
  let out := zip_with Z.mul (padded t repeats) repeats in
  sound m t -> fitting m -> ndim t <= lenZ repeats -> Forall (fun d => d <= INT64_MAX) out ->
  allocatable m (shape t) (dtype t) -> allocatable m out (dtype t) ->
  yields (repeat_kernel t repeats m) m out (dtype t) (fun idx => elem m t (tiled t repeats idx)).
Proof.
  intros out Ht Hf Hn Hout Ha Hao. unfold repeat_kernel. rewrite effective_padded by done.
  destruct (allocatable_nonneg _ _ _ Ha) as [Hnn Hb]. destruct (allocatable_nonneg _ _ _ Hao) as [Hno Hbo].
  assert (rmapM (fun '(d, r) => i64 (d * r)) (zip (padded t repeats) repeats) = Ok out) as ->.
  { unfold out in *. clear -Hout Hno. revert Hout Hno. generalize (padded t repeats). intros l. revert repeats.
    induction l as [|d l IH]; intros [|r rs] H1 H2; try done. cbn in *. apply Forall_cons_1 in H1 as [H1 H1'].
    apply Forall_cons_1 in H2 as [H2 H2']. rewrite i64_nonneg by lia. cbn [rbind]. by rewrite IH. }
  cbn [rbind]. destruct (allocatable_new _ _ _ false Ha) as (r0 & m0 & Hnew0).
  pose proof (new_tensor_inv _ _ _ _ _ _ Hnew0) as (_ & Est & _).
  destruct (allocatable_new _ _ _ false Hao) as (r1 & m1 & Hnew1).
  pose proof (new_tensor_inv _ _ _ _ _ _ Hnew1) as (_ & Eso & _).
  pose proof (prodZ_nonneg _ Hnn). unfold padded at 1. rewrite compute_strides_ones by done. cbn [rbind].
  change (replicate _ 1 ++ shape t) with (padded t repeats).
  assert (length (padded t repeats) = length repeats) as Hlp.
  { unfold padded, ndim, lenZ in *. rewrite length_app, length_replicate. lia. }
  assert (length out = length repeats) as Hlo by (unfold out; rewrite length_zip_with; lia).
  assert (forall idx, valid_index out idx -> Forall (fun d => 0 < d) (padded t repeats)) as Hpp.
  { intros idx Hv%TShape.valid_index_pos. unfold padded. apply Forall_app. split; [by apply Forall_replicate|].
    apply Forall_lookup. intros i d Hd. pose proof (proj1 (Forall_lookup _ _) Hnn i d Hd) as Hd0. simpl in Hd0.
    destruct (lookup_lt_is_Some_2 repeats (length repeats - length (shape t) + i)) as [r Hr].
    { unfold ndim, lenZ in Hn. apply lookup_lt_Some in Hd. lia. }
    rewrite Forall_lookup in Hv. specialize (Hv (length repeats - length (shape t) + i)%nat (d * r)).
    enough (0 < d * r) by (destruct (Z.eq_dec d 0) as [->|]; lia). apply Hv. unfold out. apply lookup_zip_with_Some. exists d, r.
    split_and!; [done| |done]. unfold padded. rewrite lookup_app_r by (rewrite length_replicate; lia).
    rewrite length_replicate. by replace (_ + i - _)%nat with i by lia. }
  apply gather_kernel_Ok; try done.
  - intros idx Hv. unfold tiled. apply ravel_ones. apply valid_wrapped; [|by eapply Hpp].
    rewrite (valid_length _ _ Hv). by rewrite Hlo.
  - intros Hnz. rewrite Eso. cbn [rbind]. pose proof (prodZ_positive _ Hno Hnz) as Hpo. apply each_Ok. intros i Hi.
    destruct (unravel_bound _ i Hpo Hi) as [Hv _]. pose proof (Hpp _ Hv) as Hp.
    assert (valid_index (padded t repeats) (wrapped (padded t repeats) (unravel out i))) as Hw.
    { apply valid_wrapped; [|done]. rewrite (valid_length _ _ Hv). by rewrite Hlo. }
    destruct (ravel_ones _ _ _ Hw) as [_ E]. pose proof (ravel_bound _ _ Hw) as Hr.
    rewrite (prodZ_ones _ _ : prodZ (padded t repeats) = _) in Hr.
    rewrite (tile_loop out (padded t repeats)); try done; try lia.
    + rewrite Z.add_0_l. f_equal. exact E.
    + by rewrite length_suffix_prods, Hlo.
    + by apply suffix_prods_nonneg.
    + unfold ravel in Hr. lia.
Qed.

End Rearrange.

End Rearrange.
