(* ===== verification/TensorLayout.v ===== *)
(** * contiguous, clone, reshape, flatten and expand

    What the methods that change the layout of a tensor give: the same elements
    packed, in a storage of their own, in another shape, or broadcast. *)

From stdpp Require Import base list numbers strings.
From S2P Require Import Prelude MapSums Shape DType Tensor TensorViews TensorKernels TensorCopy TensorContiguous TensorGather TensorRearrange.

Module Layout.
Import Sums Tensor Views Kernels Copying Contig Gather Rearrange.

Section Layout.
Context `{!Backend, !Omp}.

Lemma contiguous_kernel_eq t m : contiguous_kernel t m = contiguous t m.
Proof. unfold contiguous, contiguous_kernel. by destruct (is_contiguous t) as [[]|]. Qed.

(** C15: [contiguous] packs any tensor - transposed, permuted, sliced with any
    step, broadcast with stride 0, of any rank - into row-major order without
    changing an element or another storage; every path of the kernel and every
    order in which its loops may run gives the same result. *)
Theorem contiguous_packs t m : sound m t -> fitting m -> allocatable m (shape t) (dtype t) ->
  yields (contiguous t m) m (shape t) (dtype t) (elem m t).
Proof. intros Ht Hf Ha. destruct (contiguous_Ok t m Ht Hf Ha) as (r & m' & Hrun & Hh & _). by exists r, m'. Qed.

Lemma holds_elem_bytes m sh dt f r m' idx : holds m sh dt f r m' -> valid_index sh idx ->
  exists l, m' !! storage r = Some l /\ 0 <= offset r + ravel sh idx /\
    (offset r + ravel sh idx + 1) * dtype_size dt <= lenZ l /\ f idx = cell (dtype_size dt) l (offset r + ravel sh idx).
Proof.
  intros [_ _ [_ Hb] Hsh Hst Hdt Hel] Hv. rewrite <-Hsh in Hv. destruct (in_bounds_storage m' r idx Hb Hv) as [l Hl].
  exists l. pose proof (Hb idx Hv) as [Hlo Hhi]. apply storage_elements_bound in Hhi. unfold size_bytes in Hhi.
  rewrite Hl, Hdt in Hhi. unfold addr in *. rewrite Hst in *. split_and!; [done|exact Hlo|exact Hhi|].
  rewrite <-Hel by (by rewrite <-Hsh). rewrite elem_cell. unfold bytes. rewrite Hl, Hdt. unfold addr. by rewrite Hst.
Qed.

(** The data of such a tensor: a run of as many elements. *)
Lemma holds_data m sh dt f r m' : holds m sh dt f r m' -> Forall (fun d => 0 < d) sh ->
  exists l, m' !! storage r = Some l /\
    forall i, 0 <= i < prodZ sh -> 0 <= offset r + i /\ (offset r + i + 1) * dtype_size dt <= lenZ l.
Proof.
  intros Hh Hp. destruct (holds_elem_bytes _ _ _ _ _ _ _ Hh (valid_zeros _ Hp)) as (l & Hl & _).
  exists l. split; [done|]. intros i Hi. destruct (unravel_bound _ i Hp Hi) as [Hv Ei].
  destruct (holds_elem_bytes _ _ _ _ _ _ _ Hh Hv) as (l' & Hl' & H1 & H2 & _). rewrite Hl in Hl'.
  injection Hl' as <-. by rewrite Ei in *.
Qed.

Lemma holds_requires_grad m sh dt f r m' b : holds m sh dt f r m' -> holds m sh dt f (with_requires_grad b r) m'.
Proof.
  intros [? ? [[? ? ?] Hb] ? ? ? ?]. by split.
Qed.

(** [clone] gives the elements of a tensor in a storage of its own: it
    allocates, so no write to the copy reaches the original or any view of
    it. *)
Theorem clone_copies t m : sound m t -> fitting m -> 0 < prodZ (shape t) -> allocatable m (shape t) (dtype t) ->
  exists r m', clone t m = Ok (r, m') /\ holds m (shape t) (dtype t) (elem m t) r m' /\
    (length m <= storage r)%nat /\ requires_grad r = requires_grad t.
Proof.
  intros Ht Hf Hne Ha. unfold clone. destruct (contiguous_Ok t m Ht Hf Ha) as (c & m1 & -> & Hc & _). cbn [rbind].
  destruct (allocatable_new _ _ _ false (allocatable_extends _ _ _ _ (h_extends _ _ _ _ _ _ Hc) Ha)) as (r & m2 & Hnew).
  rewrite Hnew. cbn [rbind]. pose proof Hc as [Hext Hf1 Hsc Hshc Hstc Hdc Hel].
  destruct (new_tensor_inv _ _ _ _ _ _ Hnew) as (Hnn & _ & En & Hsz & Er & Em).
  pose proof (prodZ_positive _ Hnn ltac:(lia)) as Hp. pose proof (dtype_size_pos (dtype t)) as He.
  unfold numel. rewrite Hshc, En, Hdc. cbn [rbind]. unfold Checked.checked_mul.
  rewrite (proj2 (in_i64_spec (_ * _))) by (unfold INT64_MIN; nia). cbn [rbind].
  destruct (holds_elem_bytes _ _ _ _ _ _ _ Hc (valid_zeros _ Hp)) as (ls & Hls & Hlo & Hhi & _).
  unfold ravel in Hlo, Hhi. rewrite dot_zeros in Hlo, Hhi.
  assert (lenZ ls <= INT64_MAX) as Hlsb by (by eapply (Forall_lookup_1 _ _ _ _ Hf1 Hls)).
  rewrite (proj2 (in_i64_spec _)) by (unfold INT64_MIN; nia). cbn [rbind].
  assert (gathers (prodZ (shape t)) (fun i => offset c + i) [mkCopy 0 (offset c) (prodZ (shape t))]) as Hg.
  { split.
    - intros j ->%list_elem_of_singleton. unfold covers. cbn. split; [lia|]. intros i Hi. lia.
    - intros i Hi. eexists. split; [by apply list_elem_of_singleton|]. unfold covers. cbn. lia. }
  assert (forall i, 0 <= i < prodZ (shape t) -> 0 <= offset c + i /\ (offset c + i + 1) * dtype_size (dtype t) <= lenZ ls) as Hin.
  { destruct (holds_data _ _ _ _ _ _ Hc Hp) as (ls' & Hls' & Hin). rewrite Hls in Hls'. by injection Hls' as <-. }
  destruct (@fill_Ok _ (Build_Omp id (fun l => reflexivity l)) false (shape t) (dtype t) m1 r m2 (storage c) ls _ _ Hnew Hls Hg Hin)
    as (m' & Hrun & Hfill). unfold copy_all in Hrun. cbn [omp id] in Hrun. rewrite rfoldM_single in Hrun.
  cbn in Hrun. rewrite Z.mul_0_l in Hrun.
  rewrite Hrun. cbn [rbind]. eexists _, m'. split; [done|].
  assert (holds m (shape t) (dtype t) (elem m t) r m') as Hh.
  { apply (holds_extends _ m1); [done|]. apply filled_holds; [done|]. eapply filled_ext; [|exact Hfill].
    intros idx Hv. cbv beta. destruct (holds_elem_bytes _ _ _ _ _ _ _ Hc Hv) as (ls' & Hls' & _ & _ & E).
    rewrite Hls in Hls'. injection Hls' as <-. by rewrite E. }
  split_and!; [|subst r; cbn|done].
  - by apply holds_requires_grad.
  - destruct Hext as [k ->]. rewrite length_app. lia.
Qed.

(** ** Another shape *)

Lemma reshape_yields t new_shape sh m : sound m t -> fitting m -> per_channel t = false ->
  allocatable m (shape t) (dtype t) -> resolve_shape shape_incompatible t new_shape = Ok sh ->
  is_ok (TShape.compute_strides sh) = true ->
  prodZ sh = prodZ (shape t) /\ (forall i d, new_shape !! i = Some d -> d <> -1 -> sh !! i = Some d) /\
  yields (reshape t new_shape m) m sh (dtype t) (fun idx => elem m t (unravel (shape t) (ravel sh idx))).
Proof.
  intros Ht Hf Hq Ha Hr Hst. pose proof Ht as [[Hl Hnn Ho] _].
  destruct (resolve_shape_Ok _ _ _ _ Hnn Hr) as (Hnn' & En & _ & Hkeep). split_and!; [done|done|].
  unfold reshape. rewrite throw_if_false by done. cbn [rbind]. rewrite Hr. cbn [rbind].
  destruct (contiguous_Ok t m Ht Hf Ha) as (c & m1 & -> & [Hext Hf1 Hsc Hshc Hstc Hdc Hel] & _). cbn [rbind].
  unfold reshape_kernel, contiguous. apply is_ok_Ok in Hst as [st Est].
  destruct (allocatable_new _ _ _ false Ha) as (r0 & m0 & Hnew).
  pose proof (new_tensor_inv _ _ _ _ _ _ Hnew) as (_ & Ecs & _).
  rewrite (is_contiguous_strides c (TShape.suffix_prods (shape t))) by (by rewrite Hshc).
  rewrite bool_decide_true by (by rewrite Hstc, Hshc). cbn [rbind]. rewrite Est. cbn [rbind].
  pose proof (TShape.compute_strides_suffix _ _ Est) as ->.
  eexists _, m1. split; [done|].
  destruct (reshaped_views sh (offset c) c (with_geometry sh (TShape.suffix_prods sh) (offset c) c)) as [Hw Hv];
    [by destruct Hsc|by rewrite Hstc, Hshc|done|done|done|by rewrite Hshc|].
  split; try done.
  - split; [done|]. eapply views_in_bounds; [exact Hv|]. by destruct Hsc.
  - intros idx Hi. rewrite (views_elem _ _ _ _ _ Hv) by done. rewrite Hshc. apply Hel.
    apply unravel_spec; [done|]. rewrite <-En. by apply ravel_bound.
Qed.

(** C25: [reshape] of any tensor reads its elements in row-major order in the
    new shape - element number [n] of the result is element number [n] of the
    input - and the new shape is the requested one with at most one -1 replaced
    so that the number of elements is the same. *)
Theorem reshape_keeps_order t new_shape sh m : sound m t -> fitting m -> per_channel t = false ->
  allocatable m (shape t) (dtype t) -> resolve_shape shape_incompatible t new_shape = Ok sh ->
  is_ok (TShape.compute_strides sh) = true ->
  prodZ sh = prodZ (shape t) /\ (forall i d, new_shape !! i = Some d -> d <> -1 -> sh !! i = Some d) /\
  yields (reshape t new_shape m) m sh (dtype t) (fun idx => elem m t (unravel (shape t) (ravel sh idx))).
Proof. apply reshape_yields. Qed.

(** A shape without -1 and with the right number of elements. *)
Lemma scan_shape_total sh : Forall (fun d => 0 < d) sh -> prodZ sh <= INT64_MAX -> scan_shape sh = Ok (-1, prodZ sh).
Proof.
  unfold scan_shape. intros Hp Hb.
  enough (forall k t0, 0 < t0 -> t0 * prodZ sh <= INT64_MAX ->
    rfoldM (fun '(infer_dim, total) '(i, d) =>
      if d =? -1 then
        let* _ := throw_if (negb (infer_dim =? -1)) (RuntimeError "Only one dimension can be inferred") in
        Ok (i, total)
      else if d <? 0 then Err (RuntimeError "Invalid shape dimension: ")
      else let* total := i64 (total * d) in Ok (infer_dim, total))
      (imap (fun i d => (Z.of_nat (k + i), d)) sh) (-1, t0) = Ok (-1, t0 * prodZ sh)) as H1.
  { etransitivity; [apply (H1 0%nat 1); lia|]. do 2 f_equal. lia. }
  clear Hb. induction Hp as [|d ds Hd Hds IH]; intros k t0 Ht0 Hb; [cbn; do 2 f_equal; lia|].
  rewrite imap_cons. cbn [rfoldM prodZ] in *. pose proof (prodZ_pos _ Hds).
  destruct (Z.eqb_spec d (-1)); [lia|]. destruct (Z.ltb_spec d 0); [lia|].
  rewrite i64_nonneg by nia. cbn [rbind].
  rewrite (imap_ext _ (fun i d => (Z.of_nat (S k + i), d))) by (intros; cbn; do 2 f_equal; lia).
  rewrite IH by nia. do 2 f_equal. lia.
Qed.

Lemma resolve_shape_total e t sh : Forall (fun d => 0 < d) (shape t) -> Forall (fun d => 0 < d) sh ->
  prodZ sh = prodZ (shape t) -> prodZ sh <= INT64_MAX -> resolve_shape e t sh = Ok sh.
Proof.
  intros Ht Hp E Hb. unfold resolve_shape, numel. rewrite scan_shape_total by done. cbn [rbind].
  rewrite numel_of_total by (done || lia). cbn [rbind]. by rewrite E, !Z.eqb_refl.
Qed.

(** [flatten] merges the dimensions from [start_dim] to [end_dim] into one
    and keeps the order of the elements. *)
Theorem flatten_merges t start_dim end_dim m :
  let a := norm_dim (ndim t) start_dim in
  let b := norm_dim (ndim t) end_dim in
  let sh := take (Z.to_nat a) (shape t) ++ [prodZ (drop (Z.to_nat a) (take (S (Z.to_nat b)) (shape t)))] ++
            drop (S (Z.to_nat b)) (shape t) in
  sound m t -> fitting m -> per_channel t = false -> 0 <= a <= b -> b < ndim t -> 0 < prodZ (shape t) ->
  allocatable m (shape t) (dtype t) ->
  yields (flatten t start_dim end_dim m) m sh (dtype t) (fun idx => elem m t (unravel (shape t) (ravel sh idx))).
Proof.
  intros a b sh Ht Hf Hq Hab Hb Hne Ha. unfold flatten. destruct (Z.eqb_spec (ndim t) 0); [lia|]. fold a b.
  rewrite !throw_if_false; [cbn [rbind]|destruct (Z.gtb_spec a b); [lia|done]|
    by rewrite (proj2 (in_dims_spec (ndim t) b)) by lia|by rewrite (proj2 (in_dims_spec (ndim t) a)) by lia].
  pose proof Ht as [[Hl Hnn Ho] _]. pose proof (prodZ_positive _ Hnn ltac:(lia)) as Hp.
  destruct (allocatable_nonneg _ _ _ Ha) as [_ Hb64].
  assert (prodZ sh = prodZ (shape t)) as En.
  { unfold sh. rewrite !prodZ_app. cbn [prodZ]. rewrite Z.mul_1_r.
    assert (take (Z.to_nat a) (shape t) = take (Z.to_nat a) (take (S (Z.to_nat b)) (shape t))) as -> by (rewrite take_take; f_equal; lia).
    by rewrite Z.mul_assoc, <-!prodZ_app, !take_drop. }
  assert (Forall (fun d => 0 < d) (drop (Z.to_nat a) (take (S (Z.to_nat b)) (shape t)))) as Hpm
    by (by apply Forall_drop, Forall_take).
  assert (Forall (fun d => 0 < d) sh) as Hps.
  { unfold sh. repeat (apply Forall_app; split); [by apply Forall_take| |by apply Forall_drop].
    constructor; [by apply prodZ_pos|constructor]. }
  rewrite prod_i64_Ok; [cbn [rbind]; fold sh|done|].
  - apply (reshape_yields t sh sh); try done; [apply resolve_shape_total; (done || lia)|].
    rewrite compute_strides_total by (done || lia). done.
  - rewrite <-En in Hb64. unfold sh in Hb64. rewrite !prodZ_app in Hb64. cbn [prodZ] in Hb64. pose proof (prodZ_pos _ Hpm).
    pose proof (prodZ_pos _ (Forall_take _ (Z.to_nat a) _ Hp)). pose proof (prodZ_pos _ (Forall_drop _ (S (Z.to_nat b)) _ Hp)).
    assert (0 < prodZ (take (Z.to_nat a) (shape t)) * prodZ (drop (S (Z.to_nat b)) (shape t))) by nia. nia.
Qed.

(** ** Broadcasting *)

(** The dimensions of the result that [expand] aligns with those of the input:
    all but the first [k]. *)
Definition broadcast (sh : list Z) (k : nat) (idx : list Z) : list Z :=
  zip_with (fun d c => if d =? 1 then 0 else c) sh (drop k idx).

(** The target can be filled from the input. *)
Definition expandable (sh target : list Z) : Prop :=
  (length sh <= length target)%nat /\
  Forall2 (fun d n => d = 1 \/ d = n) sh (drop (length target - length sh) target).

(** The strides of the expanded view. *)
Definition expanded_strides (sh ss : list Z) (target : list Z) : list Z :=
  replicate (length target - length sh) 0 ++
  zip_with (fun '(d, s) n => if d =? n then s else 0) (zip sh ss) (drop (length target - length sh) target).

Lemma dot_zero_strides k idx : dot (replicate k 0) idx = 0.
Proof. revert idx. induction k as [|k IH]; intros [|c idx]; cbn; try done. rewrite IH. lia. Qed.

Lemma broadcast_spec sh ss target idx : length ss = length sh -> Forall2 (fun d n => d = 1 \/ d = n) sh target ->
  valid_index target idx ->
  valid_index sh (zip_with (fun d c => if d =? 1 then 0 else c) sh idx) /\
  dot (zip_with (fun '(d, s) n => if d =? n then s else 0) (zip sh ss) target) idx =
  dot ss (zip_with (fun d c => if d =? 1 then 0 else c) sh idx).
Proof.
  intros Hl He. revert ss idx Hl. induction He as [|d n sh target Hd He IH]; intros [|s ss] idx Hl Hv; try done.
  { split; [constructor|]. by apply Forall2_nil_inv_l in Hv as ->. }
  apply Forall2_cons_inv_l in Hv as (c & rest & Hc & Hv & ->). injection Hl as Hl.
  destruct (IH ss rest Hl Hv) as [Hv' E]. cbn. rewrite E. split.
  - constructor; [|done]. cbv beta. destruct (Z.eqb_spec d 1); [lia|]. destruct Hd as [|<-]; [done|]. cbv beta in Hc. lia.
  - destruct (Z.eqb_spec d 1), (Z.eqb_spec d n); [assert (c = 0) as -> by lia|..]; lia.
Qed.

Lemma expanded_views t target : wf t -> Forall (fun d => 0 <= d) target -> expandable (shape t) target ->
  let r := with_geometry target (expanded_strides (shape t) (strides t) target) (offset t) t in
  wf r /\ views r t (broadcast (shape t) (length target - length (shape t))).
Proof.
  intros [Hl Hnn Ho] Ht [Hle He] r. set (k := (length target - length (shape t))%nat) in *.
  apply (views_geometry target (expanded_strides (shape t) (strides t) target) (offset t)); [done| |done|done|].
  - unfold expanded_strides. rewrite length_app, length_replicate, !length_zip_with, length_drop. fold k. lia.
  - intros idx Hv. rewrite <-(take_drop k target) in Hv. apply Forall2_app_inv_l in Hv as (i1 & i2 & Hv1 & Hv2 & ->).
    pose proof (valid_length _ _ Hv1) as Hl1. rewrite length_take in Hl1.
    assert (length i1 = k) as Hk by (unfold k in *; lia).
    destruct (broadcast_spec _ _ _ i2 Hl He Hv2) as [Hv' E]. unfold broadcast. rewrite drop_app_length' by lia.
    split; [done|]. unfold addr, expanded_strides. fold k. rewrite dot_app by (rewrite length_replicate; lia).
    rewrite dot_zero_strides, E. lia.
Qed.

(** The loop of the kernel computes these strides. *)
Lemma expand_strides_Ok t target (k := lenZ target - ndim t) : wf t -> expandable (shape t) target ->
  rmapM (fun '(i, target) =>
    let in_idx := i - k in
    if 0 <=? in_idx then
      if nthZ (shape t) in_idx =? target then Ok (nthZ (strides t) in_idx)
      else if nthZ (shape t) in_idx =? 1 then Ok 0
      else Err (RuntimeError "expand: incompatible shapes")
    else Ok 0) (imap (fun i target => (Z.of_nat i, target)) target) = Ok (expanded_strides (shape t) (strides t) target).
Proof.
  intros [Hl _ _] [Hle He]. apply rmapM_Ok. apply Forall2_same_length_lookup. subst k. unfold expanded_strides, ndim, lenZ.
  pose proof (Forall2_length _ _ _ He) as Hlen. rewrite length_drop in Hlen.
  set (k := (length target - length (shape t))%nat) in *. split.
  { rewrite length_imap, length_app, length_replicate, !length_zip_with, length_drop. lia. }
  intros i [i' n] s Hi Hs. apply list_lookup_imap_Some in Hi as (n' & Hi & [= -> <-]).
  destruct (Z.leb_spec 0 (Z.of_nat i - (Z.of_nat (length target) - Z.of_nat (length (shape t))))).
  - rewrite lookup_app_r in Hs by (rewrite length_replicate; lia). rewrite length_replicate in Hs.
    apply lookup_zip_with_Some in Hs as ([d st] & n2 & -> & Hz & Hn2). apply lookup_zip_with_Some in Hz as (? & ? & [= <- <-] & Hd & Hst).
    rewrite lookup_drop in Hn2. replace (k + (i - k))%nat with i in Hn2 by lia. rewrite Hi in Hn2. injection Hn2 as <-.
    replace (Z.of_nat i - (Z.of_nat (length target) - Z.of_nat (length (shape t)))) with (Z.of_nat (i - k)) by lia.
    unfold nthZ. rewrite Nat2Z.id, Hd, Hst. cbn. destruct (Z.eqb_spec d n); [done|].
    pose proof (Forall2_lookup_lr _ _ _ (i - k)%nat d n He Hd) as Hdn. rewrite lookup_drop in Hdn.
    replace (k + (i - k))%nat with i in Hdn by lia. destruct (Hdn Hi) as [->|]; done.
  - rewrite lookup_app_l in Hs by (rewrite length_replicate; lia). apply lookup_replicate in Hs as [-> _]. done.
Qed.

(** The target shape with every -1 replaced. *)
Definition expand_target (t : TensorImpl) (target : list Z) : list Z :=
  imap (fun i d => if d =? -1 then nthZ (shape t) (Z.of_nat i - (lenZ target - ndim t)) else d) target.

Lemma expand_kernel_yields t target m : sound m t -> fitting m -> expandable (shape t) target ->
  allocatable m target (dtype t) ->
  yields (expand_kernel t target m) m target (dtype t)
    (fun idx => elem m t (broadcast (shape t) (length target - length (shape t)) idx)).
Proof.
  intros [Hw Hb] Hf He Ha. unfold expand_kernel. rewrite expand_strides_Ok by done. cbn [rbind].
  rewrite contiguous_kernel_eq. destruct (allocatable_nonneg _ _ _ Ha) as [Hnn _].
  destruct (expanded_views t target Hw Hnn He) as [Hwr Hv].
  set (r := with_geometry _ _ _ _) in *.
  destruct (contiguous_Ok r m) as (c & m' & -> & Hc & _); [|done|done|].
  - split; [done|]. by eapply views_in_bounds.
  - exists c, m'. split; [done|]. destruct Hc as [? ? ? ? ? ? Hel]. split; try done.
    intros idx Hi. rewrite Hel by done. by rewrite (views_elem _ _ _ _ _ Hv).
Qed.

(** [expand] broadcasts: every dimension of size one is repeated to the
    requested size, new leading dimensions repeat the whole tensor, a -1 keeps
    the dimension; the result reads position 0 along the repeated
    dimensions. *)
Theorem expand_broadcasts t target m :
  let out := expand_target t target in
  sound m t -> fitting m -> expandable (shape t) out ->
  (forall i d, target !! i = Some d -> (i < length target - length (shape t))%nat -> d <> -1) ->
  allocatable m out (dtype t) ->
  exists r m', expand t target m = Ok (r, m') /\ extends m m' /\ sound m' r /\ shape r = out /\ dtype r = dtype t /\
    forall idx, valid_index out idx -> elem m' r idx = elem m t (broadcast (shape t) (length out - length (shape t)) idx).
Proof.
  intros out Ht Hf He Hlead Ha. pose proof He as [Hle Hdims].
  assert (length out = length target) as Hlo by apply length_imap. unfold expand.
  rewrite throw_if_false by (apply Z.ltb_ge; unfold ndim, lenZ; lia). cbn [rbind].
  assert (rmapM (fun '(i, d) =>
    if d =? -1 then
      if i - (lenZ target - ndim t) <? 0 then Err (RuntimeError "expand: the expanded size of the tensor (-1) isn't allowed in a leading (new) dimension")
      else Ok (nthZ (shape t) (i - (lenZ target - ndim t)))
    else Ok d) (imap (fun i d => (Z.of_nat i, d)) target) = Ok out) as ->.
  { apply rmapM_Ok. apply Forall2_same_length_lookup. split; [by rewrite length_imap, Hlo|].
    intros i [i' d] s Hi Hs. apply list_lookup_imap_Some in Hi as (d' & Hi & [= -> <-]).
    apply list_lookup_imap_Some in Hs as (d2 & Hd2 & ->). rewrite Hi in Hd2. injection Hd2 as <-.
    destruct (Z.eqb_spec d (-1)) as [->|]; [|done].
    destruct (Z.ltb_spec (Z.of_nat i - (lenZ target - ndim t)) 0); [|done].
    exfalso. apply (Hlead i (-1)); [done| |done]. unfold ndim, lenZ in *. lia. }
  cbn [rbind]. rewrite throw_if_false.
  - cbn [rbind]. case_bool_decide as E.
    + exists t, m. pose proof (extends_refl m). split_and!; try done. intros idx Hv. f_equal.
      unfold broadcast. rewrite E, Nat.sub_diag, drop_0. rewrite E in Hv. clear -Hv.
      induction Hv as [|d c ds cs Hc Hv IH]; [done|]. cbn. rewrite <-IH. destruct (Z.eqb_spec d 1); [|done]. f_equal. lia.
    + destruct (expand_kernel_yields t out m Ht Hf He Ha) as (r & m' & Hrun & []). exists r, m'. by split_and!.
  - apply negb_false_iff, forallb_forall. intros [i d] Hin. apply list_elem_of_In, list_elem_of_lookup in Hin as (j & Hj).
    apply list_lookup_imap_Some in Hj as (d' & Hj & [= -> ->]).
    destruct (Z.ltb_spec (Z.of_nat j - (lenZ target - ndim t)) 0); [done|].
    assert (j < length out)%nat as Hjl by (by eapply lookup_lt_Some).
    unfold ndim, lenZ in *. pose proof (Forall2_length _ _ _ Hdims) as Hld. rewrite length_drop in Hld.
    destruct (lookup_lt_is_Some_2 (shape t) (j - (length out - length (shape t)))%nat) as [e Hje]; [lia|].
    pose proof (Forall2_lookup_lr _ _ _ _ e d' Hdims Hje) as Hdn. rewrite lookup_drop in Hdn.
    replace (_ + (j - _))%nat with j in Hdn by lia. specialize (Hdn Hj). unfold nthZ.
    replace (Z.to_nat _) with (j - (length out - length (shape t)))%nat by lia. rewrite Hje. cbn.
    destruct Hdn as [->| ->]; [done|]. by rewrite Z.eqb_refl, orb_true_r.
Qed.

End Layout.

End Layout.
