(* ===== verification/TensorJoin.v ===== *)
(** * Joining and cutting

    [cat] places its inputs one after the other along a dimension, and undoes
    [split], [chunk] and [split_with_sizes]. *)

From stdpp Require Import base list numbers strings.
From S2P Require Import Prelude MapSums Shape DType Tensor TensorViews TensorKernels TensorCopy TensorContiguous TensorGather TensorRearrange TensorLayout.

Module Join.
Import Sums Tensor Views Kernels Copying Contig Gather Rearrange Layout.

Section Join.
Context `{!Backend, !Omp}.

(** Where an element of the result comes from. *)
Fixpoint cat_source (m : Mem) (ts : list TensorImpl) (d : Z) (idx : list Z) : list Byte :=
  match ts with
  | [] => []
  | t :: ts =>
      let n := nthZ (shape t) d in
      if nthZ idx d <? n then elem m t idx else cat_source m ts d (relocate d (fun k => k - n) idx)
  end.

Lemma prodZ_middle (pre post : list Z) n : prodZ (pre ++ n :: post) = prodZ pre * n * prodZ post.
Proof. rewrite prodZ_app. cbn. lia. Qed.

(** The blocks of one input: for every outer index, its rows along the
    dimension. *)
Lemma cat_jobs_Ok A n cat off P src : 0 < A -> 0 < P -> 0 <= off -> 0 <= n -> off + n <= cat -> A * cat * P <= INT64_MAX ->
  exists jobs,
  for_each A (fun o =>
    let* a := i64 (o * n) in
    let* src_idx := i64 (a * P) in
    let* b := i64 (o * cat) in
    let* c := i64 (b * P) in
    let* d := i64 (off * P) in
    let* dst_idx := i64 (c + d) in
    let* n := i64 (n * P) in
    Ok [mkCopy dst_idx (src + src_idx) n]) = Ok jobs /\
  forall j, j ∈ jobs <-> exists o, 0 <= o < A /\ j = mkCopy ((o * cat + off) * P) (src + o * n * P) (n * P).
Proof.
  intros HA HP Hoff Hn Hc Hb. apply for_each_one. intros o Ho.
  assert (o * cat + cat <= A * cat) by nia. assert (0 <= o * cat) by nia. assert (o * n <= o * cat) by nia.
  assert (0 <= o * n) by nia. assert ((o * cat + cat) * P <= A * cat * P) by nia.
  assert (0 <= o * cat * P) by nia. assert (0 <= off * P) by nia. assert (0 <= o * n * P) by nia.
  assert (o * n * P <= o * cat * P) by nia. assert (n * P + off * P <= cat * P) by nia.
  assert (o <= o * cat \/ cat = 0) by nia.
  assert (o * cat <= o * cat * P) by nia. assert (0 <= n * P) by nia.
  do 7 (rewrite i64_nonneg by lia; cbn [rbind]). do 2 f_equal. f_equal. lia.
Qed.

(** A row belongs to one block. *)
Lemma block_unique o x k z off n cat P : 0 < P -> 0 <= off -> off + n <= cat -> 0 <= k < cat -> 0 <= z < P ->
  (o * cat + off) * P <= (x * cat + k) * P + z < (o * cat + off) * P + n * P -> o = x /\ off <= k < off + n.
Proof.
  intros HP Hoff Hn Hk Hz H'. assert (o * cat + off <= x * cat + k) by nia. assert (x * cat + k < o * cat + off + n) by nia.
  assert (o = x) as -> by nia. lia.
Qed.

(** The output of [cat] while it is filled: [ld] is its storage. *)
Section Filling.
Variables (m0 : Mem) (dt : DType) (pre post : list Z) (cat : Z).
Let d : Z := Z.of_nat (length pre).
Let out_sh : list Z := pre ++ cat :: post.
Let e : Z := dtype_size dt.
Let out : TensorImpl := mkTensor (length m0) out_sh (TShape.suffix_prods out_sh) 0 dt false None None (-1).

Hypotheses (Hpre : Forall (fun d => 0 < d) pre) (Hpost : Forall (fun d => 0 < d) post) (Hcat : 0 < cat)
  (Hfit : prodZ out_sh * e <= INT64_MAX).

Lemma fill_sizes n : 0 < n <= cat -> 0 < prodZ pre <= INT64_MAX /\ 0 < prodZ post <= INT64_MAX /\ 0 < e /\
  prodZ pre * cat * prodZ post <= INT64_MAX /\ prodZ pre * n * prodZ post <= INT64_MAX /\ cat <= INT64_MAX.
Proof.
  intros Hn. pose proof (prodZ_pos _ Hpre) as HA. pose proof (prodZ_pos _ Hpost) as HP. pose proof (dtype_size_pos dt).
  unfold out_sh, e in *. rewrite prodZ_middle in Hfit. assert (0 < prodZ pre * cat) by nia.
  assert (prodZ pre * n <= prodZ pre * cat) by nia. assert (prodZ pre <= prodZ pre * cat) by nia. assert (cat <= prodZ pre * cat) by nia.
  assert (0 < prodZ pre * cat * prodZ post) by nia. assert (prodZ pre * cat <= prodZ pre * cat * prodZ post) by nia.
  assert (prodZ post <= prodZ pre * cat * prodZ post) by nia.
  assert (prodZ pre * n * prodZ post <= prodZ pre * cat * prodZ post) by nia.
  assert (prodZ pre * cat * prodZ post <= prodZ pre * cat * prodZ post * dtype_size dt) by nia. lia.
Qed.

(** One input: its rows get its elements, the others stay. *)
Lemma cat_one_Ok t n off ld ext : sound m0 t -> dtype t = dt -> shape t = pre ++ n :: post -> 0 < n -> 0 <= off ->
  off + n <= cat -> allocatable m0 (shape t) dt -> lenZ ld = prodZ out_sh * e -> fitting (m0 ++ ld :: ext) ->
  exists ld' ext', cat_one d cat out e t off (m0 ++ ld :: ext) = Ok (off + n, m0 ++ ld' :: ext') /\
    lenZ ld' = lenZ ld /\ fitting (m0 ++ ld' :: ext') /\
    forall idx, valid_index out_sh idx -> cell e ld' (ravel out_sh idx) =
      if decide (off <= nthZ idx d < off + n) then elem m0 t (relocate d (fun k => k - off) idx)
      else cell e ld (ravel out_sh idx).
Proof.
  intros Ht Hdt Hsh Hn Hoff Hc Ha Hld Hf. destruct (fill_sizes n) as ((HA & HAb) & (HP & HPb) & He & Hb & Hbn & Hcb); [lia|].
  assert (extends m0 (m0 ++ ld :: ext)) as Hext by by eexists.
  rewrite <-Hdt in Ha. destruct (contiguous_Ok t (m0 ++ ld :: ext)) as (c & m1 & Hrun & Hc1 & Hcase).
  { by eapply sound_extends. } { done. } { by eapply allocatable_extends. }
  unfold cat_one. rewrite Hrun. cbn [rbind]. pose proof Hc1 as [[k Hm1] Hf1 Hsc Hshc Hstc Hdc Hel].
  assert (Forall (fun d => 0 < d) (shape t)) as Hp by (rewrite Hsh; apply Forall_app; split; [done|by constructor]).
  assert (prodZ (shape t) <= INT64_MAX) as Hbt by (by rewrite Hsh, prodZ_middle).
  assert (nthZ (shape c) d = n) as -> by (rewrite Hshc, Hsh; by apply nthZ_middle).
  assert (outer_size (shape c) d = Ok (prodZ pre)) as ->.
  { unfold outer_size. rewrite Hshc, Hsh. subst d. rewrite Nat2Z.id, take_app_length. by apply prod_i64_Ok. }
  assert (inner_size (shape c) d = Ok (prodZ post)) as ->.
  { unfold inner_size. rewrite Hshc, Hsh. subst d. rewrite Nat2Z.id.
    replace (drop (S (length pre)) (pre ++ n :: post)) with post; [by apply prod_i64_Ok|].
    change (n :: post) with ([n] ++ post). rewrite app_assoc. by rewrite drop_app_length' by (rewrite length_app; simpl; lia). }
  cbn [rbind]. rewrite data_Ok; [|done|done|by rewrite Hshc|by rewrite Hshc]. cbn [rbind].
  destruct (cat_jobs_Ok (prodZ pre) n cat off (prodZ post) (offset c)) as (jobs & -> & Hj); [lia..|done|]. cbn [rbind].
  destruct (holds_data _ _ _ _ _ _ Hc1 Hp) as (ls & Hls & Hin).
  assert (storage c <> length m0) as Hsc0.
  { destruct (bool_decide _); [destruct Hcase as [-> ->]|destruct Hcase as [-> _]; rewrite length_app; simpl; lia].
    destruct Ht as [_ Hbt0]. destruct (in_bounds_storage m0 t _ Hbt0 (valid_zeros _ Hp)) as [l0 Hl0].
    apply lookup_lt_Some in Hl0. lia. }
  assert (m1 !! length m0 = Some ld) as Hlo by (rewrite Hm1, <-app_assoc; by apply list_lookup_middle).
  rewrite Hdt in Hin. fold e in Hin. rewrite Hsh, prodZ_middle in Hin.
  destruct (copy_all_Ok m1 (length m0) (storage c) e ld ls jobs) as (ld' & Hcopy & Hlen & Hcell);
    [done|done|done|done| |].
  { intros j (o & Ho & ->)%Hj. unfold out_sh in Hld. rewrite prodZ_middle in Hld.
    assert (o * n + n <= prodZ pre * n) by nia. assert (o * cat + cat <= prodZ pre * cat) by nia.
    assert (0 <= o * n) by nia. assert (0 <= o * cat) by nia. assert (0 < n * prodZ post) by nia.
    assert ((o * n + n) * prodZ post <= prodZ pre * n * prodZ post) by nia.
    assert ((o * cat + cat) * prodZ post <= prodZ pre * cat * prodZ post) by nia.
    assert (0 <= o * n * prodZ post) by nia. assert (0 <= (o * cat + off) * prodZ post) by nia.
    assert (((o * cat + off) * prodZ post + n * prodZ post) <= prodZ pre * cat * prodZ post) by nia.
    destruct (Hin (o * n * prodZ post)) as [Hlo1 _]; [lia|].
    destruct (Hin (o * n * prodZ post + n * prodZ post - 1)) as [_ Hhi1]; [lia|].
    split; cbn; [lia|exact Hlo1|lia|rewrite Hld; nia|].
    etransitivity; [|exact Hhi1]. apply Z.eq_le_incl. f_equal. lia. }
  change (storage out) with (length m0). rewrite Hcopy. cbn [rbind]. rewrite i64_nonneg by lia. cbn [rbind].
  exists ld', (ext ++ k). split_and!; [|done| |].
  - do 2 f_equal. rewrite Hm1, <-app_assoc. cbn. rewrite insert_app_r_alt by lia. by rewrite Nat.sub_diag.
  - rewrite Hm1, <-app_assoc in Hf1. apply Forall_app in Hf1 as [Hf0 Hf1]. apply Forall_cons_1 in Hf1 as [Hf1 Hf2].
    apply Forall_app. split; [done|]. constructor; [by rewrite Hlen|done].
  - intros idx Hv. pose proof (ravel_bound _ _ Hv) as [Hr0 _]. apply Forall2_app_inv_l in Hv as (ip & rest & Hv1 & Hv2 & ->).
    apply Forall2_cons_inv_l in Hv2 as (y & iq & Hy & Hv2 & ->). pose proof (valid_length _ _ Hv1) as Hl1.
    pose proof (ravel_bound _ _ Hv1). pose proof (ravel_bound _ _ Hv2).
    assert (nthZ (ip ++ y :: iq) d = y) as -> by (apply nthZ_middle; unfold d; lia).
    apply Hcell; [done| |].
    + intros j (o & Ho & ->)%Hj. unfold covers. cbn [c_dst c_src c_count]. unfold out_sh. rewrite ravel_split by done. intros Hcov.
      apply block_unique in Hcov as [-> Hyr]; [|lia..]. rewrite decide_True by done.
      assert (valid_index (shape t) (ip ++ (y - off) :: iq)) as Hv'.
      { rewrite Hsh. apply Forall2_app; [done|]. constructor; [lia|done]. }
      unfold relocate. rewrite nthZ_middle, insert_middle by (unfold d; lia).
      rewrite <-(proj2 (in_bounds_extends m0 _ t Hext (proj2 Ht)) _ Hv'), <-Hel by done.
      rewrite elem_cell. unfold bytes. rewrite Hls, Hdc, Hdt. cbn [default]. fold e. unfold addr. rewrite Hstc.
      fold (ravel (shape t) (ip ++ (y - off) :: iq)). rewrite Hsh, ravel_split by done. f_equal. lia.
    + destruct (decide (off <= y < off + n)) as [Hyr|Hyr]; [left|by right].
      eexists. split; [apply Hj; exists (ravel pre ip); by split|]. unfold covers. cbn [c_dst c_src c_count].
      unfold out_sh. rewrite ravel_split by done. nia.
Qed.

(** What every input satisfies. *)
Record input (t : TensorImpl) : Prop := mkInput {
  in_sound : sound m0 t; in_dtype : dtype t = dt;
  in_shape : shape t = pre ++ nthZ (shape t) d :: post;
  in_positive : 0 < nthZ (shape t) d;
  in_alloc : allocatable m0 (shape t) dt
}.

Definition sizes (ts : list TensorImpl) : Z := sumZ_with (fun t => nthZ (shape t) d) ts.

Lemma sizes_nonneg ts : Forall input ts -> 0 <= sizes ts.
Proof. induction 1 as [|t ts [_ _ _ Hp _] _ IH]; cbn; [done|]. unfold sizes in IH. lia. Qed.

Lemma cat_loop_Ok ts off ld ext : Forall input ts -> 0 <= off -> off + sizes ts <= cat ->
  lenZ ld = prodZ out_sh * e -> fitting (m0 ++ ld :: ext) ->
  exists ld' ext', rfoldM (fun '(off, m) t => cat_one d cat out e t off m) ts (off, m0 ++ ld :: ext) =
      Ok (off + sizes ts, m0 ++ ld' :: ext') /\
    lenZ ld' = lenZ ld /\ fitting (m0 ++ ld' :: ext') /\
    forall idx, valid_index out_sh idx -> cell e ld' (ravel out_sh idx) =
      if decide (off <= nthZ idx d < off + sizes ts) then cat_source m0 ts d (relocate d (fun k => k - off) idx)
      else cell e ld (ravel out_sh idx).
Proof.
  intros Hts. revert off ld ext. induction Hts as [|t ts Ht Hts IH]; intros off ld ext Hoff Hle Hld Hf.
  { exists ld, ext. cbn. rewrite Z.add_0_r. split_and!; try done. intros idx Hv. rewrite decide_False by lia. done. }
  cbn [rfoldM]. pose proof (sizes_nonneg _ Hts) as Hs. unfold sizes in *. cbn [sumZ_with] in *.
  change ((fix go (l : list TensorImpl) : Z := match l with [] => 0 | t :: l0 => nthZ (shape t) d + go l0 end) ts)
    with (sumZ_with (fun t => nthZ (shape t) d) ts) in *.
  destruct Ht as [H1 H2 H3 H4 H5].
  destruct (cat_one_Ok t (nthZ (shape t) d) off ld ext H1 H2 H3 H4 Hoff ltac:(lia) H5 Hld Hf)
    as (ld1 & ext1 & -> & Hl1 & Hf1 & Hc1). cbn [rbind].
  destruct (IH (off + nthZ (shape t) d) ld1 ext1 ltac:(lia) ltac:(lia) ltac:(lia) Hf1) as (ld2 & ext2 & -> & Hl2 & Hf2 & Hc2).
  exists ld2, ext2. split_and!; [do 2 f_equal; lia|by rewrite Hl2|done|]. intros idx Hv. rewrite Hc2, Hc1 by done.
  assert (nthZ (relocate d (fun k => k - off) idx) d = nthZ idx d - off) as Hn.
  { unfold relocate, nthZ at 1. rewrite list_lookup_insert_eq; [done|]. rewrite (valid_length _ _ Hv). unfold out_sh, d.
    rewrite length_app. simpl. lia. }
  cbn [cat_source]. rewrite Hn.
  destruct (decide (off + nthZ (shape t) d <= nthZ idx d < off + nthZ (shape t) d + _)).
  - rewrite decide_True by lia. destruct (Z.ltb_spec (nthZ idx d - off) (nthZ (shape t) d)); [lia|]. f_equal.
    unfold relocate at 2. rewrite Hn. unfold relocate. rewrite list_insert_insert_eq. f_equal. lia.
  - destruct (decide (off <= nthZ idx d < off + nthZ (shape t) d)).
    + rewrite decide_True by lia. by destruct (Z.ltb_spec (nthZ idx d - off) (nthZ (shape t) d)); [|lia].
    + by rewrite decide_False by lia.
Qed.

End Filling.

Lemma sizes_run (d : Z) ts r : Forall (fun t => 0 <= nthZ (shape t) d) ts -> 0 <= r ->
  r + sumZ_with (fun t => nthZ (shape t) d) ts <= INT64_MAX ->
  rfoldM (fun n t => i64 (n + nthZ (shape t) d)) ts r = Ok (r + sumZ_with (fun t => nthZ (shape t) d) ts).
Proof.
  intros Hts. revert r. induction Hts as [|t ts Ht Hts IH]; intros r Hr Hb; [cbn; f_equal; lia|].
  cbn [rfoldM]. simpl in Hb |- *. assert (0 <= sumZ_with (fun t => nthZ (shape t) d) ts) as Hs.
  { clear -Hts. induction Hts as [|t ts Ht _ IH]; simpl; lia. }
  rewrite i64_nonneg by lia. cbn [rbind]. rewrite IH by lia. f_equal. lia.
Qed.

(** Tensors that can be joined along dimension [d]: same type, same shape
    elsewhere, not empty. *)
Record joinable (m : Mem) (t0 : TensorImpl) (d : Z) (t : TensorImpl) : Prop := mkJoinable {
  jn_sound : sound m t; jn_dtype : dtype t = dtype t0;
  jn_shape : <[Z.to_nat d := 0]> (shape t) = <[Z.to_nat d := 0]> (shape t0);
  jn_positive : 0 < prodZ (shape t);
  jn_alloc : allocatable m (shape t) (dtype t0)
}.

Lemma joinable_input m t0 d t : 0 <= d < ndim t0 -> joinable m t0 d t ->
  input m (dtype t0) (take (Z.to_nat d) (shape t0)) (drop (S (Z.to_nat d)) (shape t0)) t.
Proof.
  intros Hd [Hs Hdt Hsh Hp Ha].
  assert (length (shape t) = length (shape t0)) as Hl by (apply (f_equal length) in Hsh; by rewrite !length_insert in Hsh).
  unfold ndim, lenZ in Hd. assert (Z.of_nat (length (take (Z.to_nat d) (shape t0))) = d) as Ed by (rewrite length_take; lia).
  destruct (split_at (shape t) d) as (pre & post & E & Hlp & Hi & Hpost & Hpre); [unfold lenZ; lia|].
  destruct (split_at (shape t0) d) as (pre' & post' & E' & Hlp' & Hi' & Hpost' & Hpre'); [unfold lenZ; lia|].
  rewrite Hi, Hi' in Hsh. apply app_inj_1 in Hsh as [-> [= ->]]; [|lia].
  rewrite Hpost', Hpre'. rewrite Hpre' in Ed. split; rewrite ?Ed; try done.
  pose proof Hs as [[_ Hnn _] _]. pose proof (prodZ_positive _ Hnn ltac:(lia)) as Hpos. rewrite E in Hpos.
  apply Forall_app in Hpos as [_ [? _]%Forall_cons_1]. done.
Qed.

Lemma cat_kernel_Ok ts t0 dim m (d := norm_dim (ndim t0) dim) (out := <[Z.to_nat d := sumZ_with (fun t => nthZ (shape t) d) (t0 :: ts)]> (shape t0)) :
  0 <= d < ndim t0 -> Forall (joinable m t0 d) (t0 :: ts) -> fitting m -> allocatable m out (dtype t0) ->
  yields (cat_kernel (t0 :: ts) dim m) m out (dtype t0) (cat_source m (t0 :: ts) d).
Proof.
  intros Hd Hj Hf Ha. unfold cat_kernel. fold d. rewrite throw_if_false by (by rewrite (proj2 (in_dims_spec _ _) Hd)).
  cbn [rbind]. pose proof Hd as Hd'. unfold ndim in Hd'.
  assert (Forall (input m (dtype t0) (take (Z.to_nat d) (shape t0)) (drop (S (Z.to_nat d)) (shape t0))) (t0 :: ts)) as Hin
    by (eapply Forall_impl; [exact Hj|]; intros t; by apply joinable_input).
  assert (Z.of_nat (length (take (Z.to_nat d) (shape t0))) = d) as Ed by (rewrite length_take; unfold lenZ in Hd'; lia).
  set (pre := take (Z.to_nat d) (shape t0)) in *. set (post := drop (S (Z.to_nat d)) (shape t0)) in *.
  set (cat := sumZ_with (fun t => nthZ (shape t) d) (t0 :: ts)) in *.
  destruct (split_at (shape t0) d Hd') as (pre' & post' & Esh & _ & Hi & Hpost & Hpre). fold pre in Hpre. fold post in Hpost. subst pre' post'.
  pose proof (Forall_inv Hj) as [[[_ Hnn0 _] _] _ _ Hp0 _]. pose proof (prodZ_positive _ Hnn0 ltac:(lia)) as Hpos.
  rewrite Esh in Hpos. apply Forall_app in Hpos as [Hpp [Hn0 Hpo]%Forall_cons_1].
  assert (0 < cat) as Hcat.
  { pose proof (sizes_nonneg _ _ _ _ _ (Forall_inv_tail Hin)) as Hs. unfold cat, sizes in *. rewrite Ed in Hs. simpl. simpl in Hn0. lia. }
  assert (out = pre ++ cat :: post) as Eout by apply Hi.
  destruct (allocatable_nonneg _ _ _ Ha) as [_ Hbo].
  assert (cat <= INT64_MAX) as Hcb.
  { rewrite Eout, prodZ_middle in Hbo. pose proof (prodZ_pos _ Hpp). pose proof (prodZ_pos _ Hpo).
    assert (cat <= prodZ pre * cat) by nia. nia. }
  rewrite (sizes_run d (t0 :: ts) 0); [|eapply Forall_impl; [exact Hin|]; intros t [_ _ _ Hp _]; rewrite Ed in Hp; lia|done|exact Hcb].
  cbn [rbind]. rewrite Z.add_0_l. fold cat. fold out.
  assert (sizes pre (t0 :: ts) = cat) as Esz by (unfold sizes; by rewrite Ed). clearbody cat.
  destruct (allocatable_new _ _ _ false Ha) as (r & m1 & Hnew). rewrite Hnew. cbn [rbind].
  pose proof (new_tensor_fitting _ _ _ _ _ _ Hnew Hf) as Hf1.
  destruct (new_tensor_inv _ _ _ _ _ _ Hnew) as (Hnn & _ & _ & Hsz & -> & ->). rewrite Eout in *.
  set (new := replicate _ _) in *.
  assert (lenZ new = prodZ (pre ++ cat :: post) * dtype_size (dtype t0)) as Hnl.
  { pose proof (dtype_size_pos (dtype t0)). pose proof (prodZ_nonneg _ Hnn). unfold new, lenZ. rewrite length_replicate. nia. }
  destruct (cat_loop_Ok m (dtype t0) pre post cat Hpp Hpo Hcat Hsz (t0 :: ts) 0 new [] Hin) as (ld & ext & Hrun & Hl & Hf2 & Hcell).
  { done. } { lia. } { done. } { done. }
  rewrite Ed in *. rewrite Hrun. cbn [rbind].
  eexists _, _. split; [done|].
  assert ((m ++ ld :: ext) !! length m = Some ld) as Hld by by apply list_lookup_middle.
  split; try done; cbn [storage shape strides offset dtype].
  - by eexists.
  - split; [split; cbn; [apply length_suffix_prods|done|done]|]. intros idx Hv. cbn in Hv.
    unfold addr, storage_elements, size_bytes. cbn. rewrite Hld. cbn. pose proof (dtype_size_pos (dtype t0)).
    rewrite Hl, Hnl, Z.quot_mul by lia. by apply ravel_bound.
  - intros idx Hv. unfold elem, addr. cbn [storage strides offset dtype]. rewrite Hld. cbn [default].
    etransitivity; [apply (Hcell idx Hv)|]. rewrite Esz.
    assert (0 <= nthZ idx d < cat) as Hk.
    { eapply valid_lookup; [exact Hv| |apply nthZ_lookup].
      - rewrite <-Ed, Nat2Z.id. by apply list_lookup_middle.
      - rewrite <-Ed at 2. unfold lenZ. rewrite (valid_length _ _ Hv), length_app. simpl. lia. }
    rewrite decide_True by lia. f_equal. unfold relocate. rewrite Z.sub_0_r.
    apply list_insert_id, nthZ_lookup. rewrite <-Ed at 2. unfold lenZ. rewrite (valid_length _ _ Hv), length_app. simpl. lia.
Qed.

(** ** cat *)

Lemma promote_types_same d : promote_types d d = d.
Proof. by destruct d. Qed.

Lemma common_dtype dt (ts : list TensorImpl) : Forall (fun t => dtype t = dt) ts ->
  foldl (fun c t => promote_types c (dtype t)) dt ts = dt.
Proof. induction 1 as [|t ts Ht Hts IH]; cbn; [done|]. by rewrite Ht, promote_types_same. Qed.

Lemma inputs_same to_dtype dt ts acc m : Forall (fun t => dtype t = dt) ts ->
  rfoldM (fun '(inputs, m) t =>
    if bool_decide (dtype t = dt) then Ok (inputs ++ [t], m)
    else let* '(t, m) := to_dtype t dt m : result (TensorImpl * Mem) in Ok (inputs ++ [t], m)) ts (acc, m) = Ok (acc ++ ts, m).
Proof.
  intros Hts. revert acc. induction Hts as [|t ts Ht Hts IH]; intros acc; cbn; [by rewrite app_nil_r|].
  rewrite bool_decide_true by done. cbn. by rewrite IH, <-app_assoc.
Qed.

(** Several tensors of one type. *)
Lemma cat_many_Ok to_dtype t0 t1 ts dim m (d := norm_dim (ndim t0) dim)
    (out := <[Z.to_nat d := sumZ_with (fun t => nthZ (shape t) d) (t0 :: t1 :: ts)]> (shape t0)) :
  0 <= d < ndim t0 -> Forall (joinable m t0 d) (t0 :: t1 :: ts) -> fitting m -> allocatable m out (dtype t0) ->
  yields (cat to_dtype (t0 :: t1 :: ts) dim m) m out (dtype t0) (cat_source m (t0 :: t1 :: ts) d).
Proof.
  intros Hd Hj Hf Ha. unfold cat.
  assert (Forall (fun t => dtype t = dtype t0) (t0 :: t1 :: ts)) as Hdt by (eapply Forall_impl; [exact Hj|]; by intros t []).
  rewrite (common_dtype _ _ Hdt). rewrite (inputs_same to_dtype (dtype t0) _ _ _ Hdt). cbn [rbind app head default]. unfold id.
  change (lenZ (shape t0)) with (ndim t0). fold d. rewrite throw_if_false by (by rewrite (proj2 (in_dims_spec _ _) Hd)).
  cbn [rbind].
  assert (forall l, Forall (joinable m t0 d) l -> exists us, rmapM (fun t =>
    let* _ := throw_if (negb (length (shape t) =? length (shape t0))%nat)
                (RuntimeError "All tensors must have the same number of dimensions") in
    throw_if (negb (bool_decide (<[Z.to_nat d := 0]> (shape t) = <[Z.to_nat d := 0]> (shape t0))))
      (RuntimeError "All tensors must have the same shape except in the concatenation dimension")) l = Ok us) as Hcheck.
  { induction 1 as [|t l [_ _ Hsh _ _] _ [us IH]]; [by exists []|]. cbn [rmapM].
    assert (length (shape t) = length (shape t0)) as Hl by (apply (f_equal length) in Hsh; by rewrite !length_insert in Hsh).
    rewrite throw_if_false by (by rewrite Hl, Nat.eqb_refl). cbn [rbind]. rewrite throw_if_false by (by rewrite bool_decide_true).
    cbn [rbind]. rewrite IH. by eexists. }
  destruct (Hcheck _ Hj) as [us ->]. cbn [rbind]. assert (norm_dim (ndim t0) d = d) as Ed by (apply norm_dim_id; lia).
  pose proof (cat_kernel_Ok (t1 :: ts) t0 d m) as Hk. cbv zeta in Hk. rewrite Ed in Hk. by apply Hk.
Qed.

(** What an operation that may return its argument promises: all of [yields]
    but the layout. *)
Definition reads (op : result (TensorImpl * Mem)) (m : Mem) (sh : list Z) (dt : DType) (source : list Z -> list Byte) : Prop :=
  exists r m', op = Ok (r, m') /\ extends m m' /\ sound m' r /\ shape r = sh /\ dtype r = dt /\
    forall idx, valid_index sh idx -> elem m' r idx = source idx.

Lemma yields_reads op m sh dt f : yields op m sh dt f -> reads op m sh dt f.
Proof. intros (r & m' & Hrun & []). exists r, m'. by split_and!. Qed.

Lemma cat_Ok to_dtype t0 ts dim m (d := norm_dim (ndim t0) dim)
    (out := <[Z.to_nat d := sumZ_with (fun t => nthZ (shape t) d) (t0 :: ts)]> (shape t0)) :
  0 <= d < ndim t0 -> Forall (joinable m t0 d) (t0 :: ts) -> fitting m -> allocatable m out (dtype t0) ->
  reads (cat to_dtype (t0 :: ts) dim m) m out (dtype t0) (cat_source m (t0 :: ts) d).
Proof.
  intros Hd Hj Hf Ha. destruct ts as [|t1 ts]; [|by apply yields_reads, cat_many_Ok].
  exists t0, m. pose proof (extends_refl m). pose proof (Forall_inv Hj) as [Hs _ _ _ _].
  assert (out = shape t0) as Eout.
  { unfold out. simpl. rewrite Z.add_0_r. by apply list_insert_id, nthZ_lookup. }
  split_and!; try done. intros idx Hv. rewrite Eout in Hv. cbn [cat_source].
  assert (0 <= nthZ idx d < nthZ (shape t0) d).
  { eapply valid_lookup; [exact Hv|by apply nthZ_lookup|]. apply nthZ_lookup. unfold lenZ. by rewrite (valid_length _ _ Hv). }
  by destruct (Z.ltb_spec (nthZ idx d) (nthZ (shape t0) d)); [|lia].
Qed.

(** [cat] places its inputs one after the other along the dimension: the
    result has the sum of their sizes there, and each of its elements is the
    element of the input its position falls in, whatever the layouts of the
    inputs are. *)
Theorem cat_concatenates to_dtype t0 ts dim m :
  let d := norm_dim (ndim t0) dim in
  let out := <[Z.to_nat d := sumZ_with (fun t => nthZ (shape t) d) (t0 :: ts)]> (shape t0) in
  0 <= d < ndim t0 -> Forall (joinable m t0 d) (t0 :: ts) -> fitting m -> allocatable m out (dtype t0) ->
  reads (cat to_dtype (t0 :: ts) dim m) m out (dtype t0) (cat_source m (t0 :: ts) d).
Proof. apply cat_Ok. Qed.

(** ** The pieces of a tensor *)

(** [ps] cuts the positions from [off] to [stop] along [d] into consecutive
    pieces. *)
Inductive cuts (m : Mem) (t : TensorImpl) (d : Z) : Z -> list TensorImpl -> Z -> Prop :=
  | cuts_nil off : cuts m t d off [] off
  | cuts_cons off p n ps stop : sound m p -> views p t (sliced d off 1) -> shape p = <[Z.to_nat d := n]> (shape t) ->
      0 < n -> cuts m t d (off + n) ps stop -> cuts m t d off (p :: ps) stop.

Lemma nthZ_insert d n (l : list Z) : 0 <= d < lenZ l -> nthZ (<[Z.to_nat d := n]> l) d = n.
Proof. intros Hd. unfold nthZ, lenZ in *. by rewrite list_lookup_insert_eq by lia. Qed.

Lemma cuts_sizes m t d off ps stop : 0 <= d < ndim t -> cuts m t d off ps stop ->
  off + sumZ_with (fun p => nthZ (shape p) d) ps = stop /\ off <= stop.
Proof.
  intros Hd. induction 1 as [|off p n ps stop _ _ Hsh Hn _ IH]; simpl; [lia|]. rewrite Hsh, nthZ_insert by done. lia.
Qed.

Lemma cuts_source m t d off ps stop idx : 0 <= d < ndim t -> cuts m t d off ps stop ->
  valid_index (<[Z.to_nat d := stop - off]> (shape t)) idx ->
  cat_source m ps d idx = elem m t (relocate d (fun k => off + k) idx).
Proof.
  intros Hd Hc. revert idx. induction Hc as [off|off p n ps stop Hs Hv Hsh Hn Hc IH]; intros idx Hi.
  - destruct (split_at (shape t) d Hd) as (pre & post & E & _ & Hins & _). rewrite Hins in Hi.
    apply Forall2_app_inv_l in Hi as (ip & rest & _ & Hi & _). apply Forall2_cons_inv_l in Hi as (k & iq & Hk & _ & _). lia.
  - cbn [cat_source]. rewrite Hsh, nthZ_insert by done.
    pose proof (valid_length _ _ Hi) as Hl. rewrite length_insert in Hl.
    assert (idx !! Z.to_nat d = Some (nthZ idx d)) as Hlk by (apply nthZ_lookup; unfold lenZ; rewrite Hl; exact Hd).
    assert (forall n' j, (0 <= nthZ idx d < stop - off -> 0 <= j < n') ->
      valid_index (<[Z.to_nat d := n']> (shape t)) (<[Z.to_nat d := j]> idx)) as Hins.
    { intros n' j Hj. unfold ndim, lenZ in Hd. apply (valid_insert _ _ _ (stop - off) n').
      - by rewrite list_insert_insert_eq.
      - apply list_lookup_insert_eq. lia.
      - intros k Hk Hkb. apply Hj. rewrite Hlk in Hk. by injection Hk as ->. }
    destruct (cuts_sizes _ _ _ _ _ _ Hd Hc) as [_ Hle].
    assert (0 <= nthZ idx d < stop - off) as Hk.
    { eapply valid_lookup; [exact Hi|apply list_lookup_insert_eq; unfold ndim, lenZ in Hd; lia|exact Hlk]. }
    destruct (Z.ltb_spec (nthZ idx d) n).
    + assert (valid_index (shape p) idx) as Hvp.
      { rewrite Hsh, <-(list_insert_id idx (Z.to_nat d) (nthZ idx d)) by done. apply Hins. lia. }
      rewrite (views_elem _ _ _ _ _ Hv Hvp). f_equal. unfold sliced, relocate. f_equal. lia.
    + rewrite IH by (apply Hins; lia). f_equal. unfold relocate. rewrite nthZ_insert by (unfold lenZ; rewrite Hl; exact Hd).
      rewrite list_insert_insert_eq. f_equal. lia.
Qed.


(** ** Slicing never fails inside a tensor *)

Lemma safe_abs_nonneg v : 0 <= Checked.safe_abs v.
Proof. unfold Checked.safe_abs. destruct (v =? INT64_MIN); apply wrap_bound; lia. Qed.

(** The check of one dimension passes when its last index is in reach. *)
Lemma slice_check extent s : 0 <= extent -> - INT64_MAX <= extent * s <= INT64_MAX ->
  negb (s =? 0) && (extent >? Z.quot INT64_MAX (Checked.safe_abs s)) = false.
Proof.
  intros He Hb. destruct (Z.eqb_spec s 0) as [|Hs]; [done|]. cbn [negb andb].
  destruct (Z.gtb_spec extent (Z.quot INT64_MAX (Checked.safe_abs s))) as [Hgt|]; [|done]. exfalso.
  pose proof (safe_abs_nonneg s) as Hn. assert (0 <= Z.quot INT64_MAX (Checked.safe_abs s)) as Hq.
  { destruct (Z.eq_dec (Checked.safe_abs s) 0) as [->|]; [done|]. apply Z.quot_pos; unfold INT64_MAX; lia. }
  assert (1 <= extent) as H1 by lia. assert (extent * Z.abs s <= INT64_MAX) as Hm by (rewrite <-(Z.abs_eq extent), <-Z.abs_mul by lia; lia).
  pose proof (Z.abs_nonneg s). assert (Z.abs s <= INT64_MAX) as Hs64 by nia.
  rewrite (proj1 (Checked.safe_abs_spec s ltac:(unfold INT64_MIN, INT64_MAX in *; lia))) in Hgt.
  rewrite Z.quot_div_nonneg in Hgt by (unfold INT64_MAX; lia).
  assert (extent <= INT64_MAX / Z.abs s) by (apply Z.div_le_lower_bound; lia). lia.
Qed.

Lemma slice_range_Ok sh ss N mn mx : length ss = length sh -> Forall (fun d => 0 < d) sh -> N <= INT64_MAX ->
  mn <= mx -> (forall idx, valid_index sh idx -> 0 <= mn + dot ss idx /\ mx + dot ss idx < N) ->
  exists mn' mx', rfoldM (fun '(min_offset, max_offset) '(d, stride) =>
    if negb (d >? 0) then Ok (min_offset, max_offset)
    else
      let extent := d - 1 in
      let* _ := throw_if (negb (stride =? 0) && (extent >? Z.quot INT64_MAX (Checked.safe_abs stride))) slice_overflow in
      let* delta := i64 (extent * stride) in
      if delta >=? 0 then
        let* _ := throw_if (max_offset >? INT64_MAX - delta) slice_overflow in
        Ok (min_offset, max_offset + delta)
      else
        let* _ := throw_if (min_offset <? INT64_MIN - delta) slice_overflow in
        Ok (min_offset + delta, max_offset)) (zip sh ss) (mn, mx) = Ok (mn', mx') /\ 0 <= mn' /\ mx' < N.
Proof.
  intros Hl Hp HN. revert ss mn mx Hl. induction Hp as [|d ds Hd Hds IH]; intros [|s ss] mn mx Hl Hle Hv; try done.
  { exists mn, mx. destruct (Hv []) as [Hv1 Hv2]; [constructor|]. cbn in *. split; [done|lia]. }
  cbn [zip_with rfoldM]. destruct (Z.gtb_spec d 0); [|lia]. cbn [negb]. cbv zeta.
  assert (forall i idx, 0 <= i < d -> valid_index ds idx -> 0 <= mn + i * s + dot ss idx /\ mx + i * s + dot ss idx < N) as Hv'.
  { intros i idx Hi Hx. destruct (Hv (i :: idx)) as [Hv1 Hv2]; [by constructor|]. cbn in Hv1, Hv2. lia. }
  pose proof (valid_zeros _ Hds) as Hz. pose proof (Hv' (d - 1) _ ltac:(lia) Hz) as Hc1.
  pose proof (Hv' 0 _ ltac:(lia) Hz) as Hc2. rewrite dot_zeros in Hc1, Hc2.
  rewrite throw_if_false by (apply slice_check; [lia|nia]). cbn [rbind].
  rewrite i64_in by (unfold INT64_MIN, INT64_MAX in *; nia). cbn [rbind].
  injection Hl as Hl. destruct (Z.geb_spec ((d - 1) * s) 0).
  - rewrite throw_if_false by (destruct (Z.gtb_spec mx (INT64_MAX - (d - 1) * s)); [lia|done]). cbn [rbind].
    apply IH; [done|lia|]. intros idx Hx. destruct (Hv' 0 idx ltac:(lia) Hx), (Hv' (d - 1) idx ltac:(lia) Hx). lia.
  - rewrite throw_if_false by (apply Z.ltb_ge; unfold INT64_MIN; lia). cbn [rbind].
    apply IH; [done|lia|]. intros idx Hx. destruct (Hv' 0 idx ltac:(lia) Hx), (Hv' (d - 1) idx ltac:(lia) Hx). lia.
Qed.

(** A nonempty range of positions. *)
Lemma slice_total m t d start stop : sound m t -> fitting m -> Forall (fun d => 0 < d) (shape t) ->
  prodZ (shape t) <= INT64_MAX -> 0 <= d < ndim t -> 0 <= start < stop -> stop <= nthZ (shape t) d ->
  stop - start + 1 <= INT64_MAX ->
  exists r, slice m t d start stop 1 = Ok r /\ sound m r /\ views r t (sliced d start 1) /\
    shape r = <[Z.to_nat d := stop - start]> (shape t) /\ dtype r = dtype t.
Proof.
  intros Ht Hf Hp Hn Hd Hs He Hover. pose proof Ht as [Hw Hb]. pose proof Hw as [Hl Hnn Ho].
  enough (exists r, slice m t d start stop 1 = Ok r) as [r Hr].
  { exists r. pose proof (slice_views m t d start stop 1 r Hw Hr) as [Hwr Hv].
    pose proof (slice_Ok m t d start stop 1 r Hr) as (_ & _ & _ & _ & _ & Er).
    rewrite !norm_dim_id in * by lia. split; [done|]. split; [split; [done|by eapply views_in_bounds]|]. split; [done|].
    rewrite Er. cbn. split; [|done]. f_equal. rewrite Z.quot_1_r. lia. }
  unfold slice. rewrite !norm_dim_id by lia.
  rewrite throw_if_false by (by rewrite (proj2 (in_dims_spec _ _) Hd)). cbn [rbind].
  pose proof (storage_elements_le m t) as Hse. pose proof (fitting_size m (storage t) Hf) as Hsz.
  set (n := nthZ (shape t) d) in *. set (s := nthZ (strides t) d) in *.
  assert (forall i idx, 0 <= i < n -> valid_index (<[Z.to_nat d := 1]> (shape t)) idx ->
    0 <= offset t + i * s + dot (strides t) idx < storage_elements m t) as Hat.
  { intros i idx Hi Hv. destruct (split_at (shape t) d Hd) as (pre & post & E & Hlp & Hins & _).
    destruct (split_at (strides t) d) as (ps & qs & Es & Hls & _); [unfold lenZ; rewrite Hl; exact Hd|]. fold n in E. fold s in Es.
    rewrite Hins in Hv. apply Forall2_app_inv_l in Hv as (ip & rest & Hv1 & Hv2 & ->).
    apply Forall2_cons_inv_l in Hv2 as (k & iq & Hk & Hv2 & ->). pose proof (valid_length _ _ Hv1).
    specialize (Hb (ip ++ i :: iq)). unfold addr in Hb. rewrite Es in Hb |- *.
    rewrite dot_app in Hb |- * by lia. cbn in Hb |- *. assert (k = 0) as -> by lia.
    enough (valid_index (shape t) (ip ++ i :: iq)) as Hvi by (specialize (Hb Hvi); lia).
    rewrite E. apply Forall2_app; [done|]. by constructor. }
  assert (Forall (fun d => 0 < d) (<[Z.to_nat d := 1]> (shape t))) as Hp1 by (by apply Forall_insert).
  pose proof (Hat start _ ltac:(lia) (valid_zeros _ Hp1)) as Ha0. rewrite dot_zeros in Ha0.
  pose proof (Hat 0 _ ltac:(lia) (valid_zeros _ Hp1)) as Ha1. rewrite dot_zeros in Ha1.
  rewrite !throw_if_false; [cbn [rbind]|done|destruct (Z.gtb_spec start stop); [lia|done]| |].
  2: { destruct (Z.ltb_spec stop 0), (Z.gtb_spec stop n); lia || done. }
  2: { destruct (Z.ltb_spec start 0), (Z.gtb_spec start n); lia || done. }
  rewrite i64_nonneg by lia. cbn [rbind]. unfold Checked.checked_mul, Checked.checked_add.
  rewrite (proj2 (in_i64_spec (start * s))) by (unfold INT64_MIN, INT64_MAX in *; lia). cbn [rbind].
  rewrite (proj2 (in_i64_spec (offset t + start * s))) by (unfold INT64_MIN, INT64_MAX in *; lia). cbn [rbind Z.eqb Pos.eqb negb].
  assert (<[Z.to_nat d := s]> (strides t) = strides t) as ->.
  { apply list_insert_id, nthZ_lookup. unfold lenZ. rewrite Hl. exact Hd. }
  rewrite Z.quot_1_r. replace (stop - start + 1 - 1) with (stop - start) by lia.
  assert (Forall (fun d => 0 < d) (<[Z.to_nat d := stop - start]> (shape t))) as Hp2 by (apply Forall_insert; [done|lia]).
  destruct (slice_range_Ok (<[Z.to_nat d := stop - start]> (shape t)) (strides t) (storage_elements m t)
              (offset t + start * s) (offset t + start * s)) as (mn & mx & Hrange & Hmn & Hmx).
  { by rewrite length_insert. } { done. } { lia. } { lia. }
  { intros idx Hv. pose proof (valid_length _ _ Hv) as Hi. rewrite length_insert in Hi.
    enough (valid_index (shape t) (sliced d start 1 idx)) as Hv'.
    { specialize (Hb _ Hv'). unfold addr, sliced in Hb. rewrite dot_insert_r in Hb by (unfold ndim, lenZ in Hd; lia).
      fold s in Hb. unfold nthZ in Hb at 1. replace (default 0 (strides t !! Z.to_nat d)) with s in Hb by done.
      replace (nthZ idx d) with (default 0 (idx !! Z.to_nat d)) in Hb by done. lia. }
    unfold sliced. eapply valid_insert; [exact Hv|by apply nthZ_lookup|]. intros j Hj Hjb.
    assert (nthZ idx d = j) as -> by (unfold nthZ; by rewrite Hj). fold n. lia. }
  rewrite (Hrange : slice_range _ _ _ = _). cbn [rbind].
  assert (prodZ (<[Z.to_nat d := stop - start]> (shape t)) <= INT64_MAX) as Hpn.
  { destruct (split_at (shape t) d Hd) as (pre & post & E & _ & Hins & _). rewrite Hins, prodZ_middle. rewrite E, prodZ_middle in Hn.
    fold n in Hn. rewrite E in Hp. apply Forall_app in Hp as [Hpa [_ Hpb]%Forall_cons_1].
    pose proof (prodZ_pos _ Hpa). pose proof (prodZ_pos _ Hpb). assert (prodZ pre * (stop - start) <= prodZ pre * n) by nia. nia. }
  fold (prod_i64 (<[Z.to_nat d := stop - start]> (shape t))). rewrite prod_i64_Ok by done. cbn [rbind].
  rewrite throw_if_false; [by eexists|]. apply andb_false_iff. right.
  destruct (Z.ltb_spec mn 0), (Z.geb_spec mx (storage_elements m t)); lia || done.
Qed.

(** ** Cutting and joining *)

Section Pieces.
Variables (m : Mem) (t : TensorImpl) (d : Z).
Let n : Z := nthZ (shape t) d.

Hypotheses (Ht : sound m t) (Hf : fitting m) (Hp : Forall (fun d => 0 < d) (shape t)) (Hb : prodZ (shape t) <= INT64_MAX)
  (Hd : 0 <= d < ndim t) (Hn : n < INT64_MAX).

(** Slices that follow each other. *)
Lemma slice_cuts start stop ps : 0 <= start < stop -> stop <= n -> cuts m t d stop ps n ->
  exists p, slice m t d start stop 1 = Ok p /\ cuts m t d start (p :: ps) n.
Proof.
  intros Hs He Hc. destruct (slice_total m t d start stop) as (p & Hrun & Hsp & Hv & Hsh & _); try done; [lia|].
  exists p. split; [done|]. apply (cuts_cons _ _ _ _ _ (stop - start)); try done; [lia|].
  by replace (start + (stop - start)) with stop by lia.
Qed.

Lemma pieces_from size i c : 0 < size -> n <= (Z.of_nat i + Z.of_nat c) * size ->
  exists ps, rmapM (fun start => slice m t d start (Z.min (start + size) n) 1)
    (filter (fun start => start < n) (map (fun i => Z.of_nat i * size) (seq i c))) = Ok ps /\
    cuts m t d (Z.min (Z.of_nat i * size) n) ps n.
Proof.
  intros Hs. revert i. induction c as [|c IH]; intros i Hi; cbn [seq map].
  { exists []. split; [done|]. rewrite Z.min_r by (change (Z.of_nat 0) with 0 in Hi; lia). constructor. }
  destruct (IH (S i) ltac:(lia)) as (ps & Hrun & Hc). rewrite filter_cons. destruct (decide (Z.of_nat i * size < n)) as [Hlt|Hge].
  - cbn [rmapM]. replace (Z.of_nat (S i) * size) with (Z.of_nat i * size + size) in Hc by lia.
    destruct (slice_cuts (Z.of_nat i * size) (Z.min (Z.of_nat i * size + size) n) ps) as (p & -> & Hc'); [nia|lia|done|].
    cbn [rbind]. rewrite Hrun. exists (p :: ps). split; [done|]. by rewrite Z.min_l by lia.
  - exists ps. split; [done|]. rewrite Z.min_r in Hc by lia. by rewrite Z.min_r by lia.
Qed.

Lemma split_cuts size : 0 < size -> n + size <= INT64_MAX -> exists ps, split m t size d = Ok ps /\ cuts m t d 0 ps n.
Proof.
  intros Hs Hb'. unfold split. rewrite !throw_if_false; [|by rewrite norm_dim_id, (proj2 (in_dims_spec _ _) Hd) by lia|apply Z.leb_gt; lia].
  cbn [rbind]. rewrite !norm_dim_id by lia. fold n.
  pose proof Ht as [[_ Hnn _] _]. pose proof (nthZ_nonneg _ d Hnn : 0 <= n). rewrite i64_nonneg by lia. cbn [rbind].
  unfold pieces. fold n. destruct (pieces_from size 0 (Z.to_nat (Z.quot (n + size - 1) size)) Hs) as (ps & -> & Hc).
  - rewrite Z.quot_div_nonneg by lia. rewrite Z2Nat.id by (apply Z.div_pos; lia). cbn [Z.of_nat].
    pose proof (Z.div_mod (n + size - 1) size). pose proof (Z.mod_pos_bound (n + size - 1) size). nia.
  - exists ps. split; [done|]. by rewrite Z.min_l in Hc by lia.
Qed.

Lemma chunk_cuts chunks : 0 < chunks -> 0 < n -> n + chunks <= INT64_MAX ->
  exists ps, chunk m t chunks d = Ok ps /\ cuts m t d 0 ps n.
Proof.
  intros Hs Hn0 Hb'. unfold chunk. rewrite !throw_if_false; [|by rewrite norm_dim_id, (proj2 (in_dims_spec _ _) Hd) by lia|apply Z.leb_gt; lia].
  cbn [rbind]. rewrite !norm_dim_id by lia. fold n. rewrite i64_nonneg by lia. cbn [rbind].
  unfold pieces. fold n. rewrite Z.quot_div_nonneg by lia.
  pose proof (Z.div_mod (n + chunks - 1) chunks). pose proof (Z.mod_pos_bound (n + chunks - 1) chunks).
  destruct (pieces_from ((n + chunks - 1) / chunks) 0 (Z.to_nat chunks)) as (ps & -> & Hc).
  - apply Z.div_str_pos. lia.
  - rewrite Z2Nat.id by lia. cbn [Z.of_nat]. nia.
  - exists ps. split; [done|]. by rewrite Z.min_l in Hc by lia.
Qed.

Lemma sizes_cuts sizes off : Forall (fun s => 0 < s) sizes -> 0 <= off -> off + sumZ_with (fun s => s) sizes = n ->
  forall acc, exists ps, rfoldM (fun '(off, result) s =>
    let* r := slice m t d off (off + s) 1 in Ok (off + s, result ++ [r])) sizes (off, acc) = Ok (n, acc ++ ps) /\
    cuts m t d off ps n.
Proof.
  intros Hs. revert off. induction Hs as [|s sizes Hs0 Hs IH]; intros off Hoff Hsum acc; simpl in Hsum.
  { exists []. rewrite app_nil_r. cbn. split; [do 2 f_equal; lia|]. replace off with n by lia. constructor. }
  assert (0 <= sumZ_with (fun s => s) sizes) as Hnn.
  { clear -Hs. induction Hs as [|s l Hs0 _ IH]; simpl; [by apply Z.le_refl|]. simpl in Hs0. lia. }
  cbn [rfoldM]. destruct (IH (off + s) ltac:(lia) ltac:(lia) []) as (ps & _ & Hc).
  destruct (slice_cuts off (off + s) ps) as (p & Hp1 & Hc'); [lia|lia|done|]. rewrite Hp1. cbn [rbind].
  destruct (IH (off + s) ltac:(lia) ltac:(lia) (acc ++ [p])) as (ps' & -> & Hc2).
  exists (p :: ps'). rewrite <-app_assoc. split; [done|].
  destruct (slice_cuts off (off + s) ps') as (p' & Hp2 & Hc3); [lia|lia|done|]. rewrite Hp1 in Hp2. by injection Hp2 as <-.
Qed.

Lemma split_with_sizes_cuts sizes : Forall (fun s => 0 < s) sizes -> sumZ_with (fun s => s) sizes = n ->
  exists ps, split_with_sizes m t sizes d = Ok ps /\ cuts m t d 0 ps n.
Proof.
  intros Hs Hsum. unfold split_with_sizes. rewrite !norm_dim_id by lia.
  rewrite throw_if_false by (by rewrite (proj2 (in_dims_spec _ _) Hd)). cbn [rbind]. fold n.
  assert (forall r, 0 <= r -> r + sumZ_with (fun s => s) sizes <= INT64_MAX -> rfoldM (fun total s =>
    let* _ := throw_if (s <? 0) (InvalidArgument "split_with_sizes: sizes must be non-negative") in
    i64 (total + s)) sizes r = Ok (r + sumZ_with (fun s => s) sizes)) as Hrun.
  { clear Hsum. induction Hs as [|s sizes Hs0 Hs IH]; intros r Hr Hb'; simpl in Hb' |- *; [f_equal; lia|].
    assert (0 <= sumZ_with (fun s => s) sizes) as Hnn.
    { clear -Hs. induction Hs as [|s l Hs0 _ IH]; simpl; [by apply Z.le_refl|]. simpl in Hs0. lia. }
    destruct (Z.ltb_spec s 0); [lia|]. cbn [throw_if rbind]. rewrite i64_nonneg by lia. cbn [rbind]. rewrite IH by lia. f_equal. lia. }
  rewrite Hrun by lia. cbn [rbind]. rewrite Z.add_0_l, Hsum, Z.eqb_refl. cbn [negb throw_if rbind].
  destruct (sizes_cuts sizes 0 Hs ltac:(lia) ltac:(lia) []) as (ps & -> & Hc). by exists ps.
Qed.

(** Any such pieces joined again. *)
Lemma cat_cuts to_dtype ps : 0 < n -> cuts m t d 0 ps n ->
  (forall k, 0 < k <= n -> allocatable m (<[Z.to_nat d := k]> (shape t)) (dtype t)) ->
  reads (cat to_dtype ps d m) m (shape t) (dtype t) (elem m t).
Proof.
  intros Hn0 Hc Ha. destruct (cuts_sizes _ _ _ _ _ _ Hd Hc) as [Hsum _].
  assert (Forall (fun p => sound m p /\ dtype p = dtype t /\ exists k, 0 < k <= n /\ shape p = <[Z.to_nat d := k]> (shape t)) ps) as Hps.
  { assert (forall off, 0 <= off -> cuts m t d off ps n -> Forall (fun p => sound m p /\ dtype p = dtype t /\
      exists k, 0 < k <= n /\ shape p = <[Z.to_nat d := k]> (shape t)) ps) as H'; [|by apply (H' 0)].
    clear Hc Hsum. intros off Hoff Hc. remember n as stop eqn:Es in Hc.
    induction Hc as [|off p k ps stop Hs Hv Hsh Hk Hc IH]; [constructor|].
    destruct (cuts_sizes _ _ _ _ _ _ Hd Hc) as [_ Hle]. constructor; [|apply IH; [lia|done]].
    split; [done|]. split; [apply Hv|]. exists k. split; [lia|done]. }
  destruct ps as [|p0 ps]; [simpl in Hsum; lia|].
  pose proof (Forall_inv Hps) as (_ & Hdt0 & k0 & Hk0 & Hsh0).
  assert (ndim p0 = ndim t) as Hnd by (unfold ndim, lenZ; by rewrite Hsh0, length_insert).
  assert (norm_dim (ndim p0) d = d) as Ed by (apply norm_dim_id; lia).
  assert (<[Z.to_nat d := sumZ_with (fun t => nthZ (shape t) d) (p0 :: ps)]> (shape p0) = shape t) as Eout.
  { rewrite Hsh0, list_insert_insert_eq. apply list_insert_id. rewrite nthZ_lookup by exact Hd. f_equal. fold n. lia. }
  pose proof (cat_Ok to_dtype p0 ps d m) as Hcat. cbv zeta in Hcat. rewrite Ed, Eout, Hdt0 in Hcat.
  destruct Hcat as (r & m' & Hrun & He & Hsr & Hshr & Hdr & Hel); [lia| |done| |].
  - eapply Forall_impl; [exact Hps|]. intros p (Hs & Hdt & k & Hk & Hsh). split; rewrite ?Hdt, ?Hdt0; try done.
    + by rewrite Hsh, Hsh0, !list_insert_insert_eq.
    + rewrite Hsh. apply prodZ_pos. apply Forall_insert; [done|lia].
    + rewrite Hsh. by apply Ha.
  - rewrite <-(list_insert_id (shape t) (Z.to_nat d) n) by (apply nthZ_lookup; exact Hd). apply Ha. lia.
  - exists r, m'. split_and!; try done. intros idx Hv. rewrite Hel by done. rewrite (cuts_source m t d 0 (p0 :: ps) n); [|done|done|].
    + f_equal. unfold relocate. rewrite Z.add_0_l. apply list_insert_id, nthZ_lookup. unfold lenZ. by rewrite (valid_length _ _ Hv).
    + rewrite Z.sub_0_r. by rewrite list_insert_id by (apply nthZ_lookup; exact Hd).
Qed.

End Pieces.

(** C16: [cat] undoes the functions that cut a tensor: the pieces of [split],
    [chunk] or [split_with_sizes] - which never fail on a tensor that is not
    empty - joined along the same dimension are the tensor again. *)
Theorem cat_undoes_split to_dtype m t d size chunks sizes :
  let n := nthZ (shape t) d in
  sound m t -> fitting m -> Forall (fun d => 0 < d) (shape t) -> 0 <= d < ndim t ->
  (forall k, 0 < k <= n -> allocatable m (<[Z.to_nat d := k]> (shape t)) (dtype t)) ->
  0 < size -> n + size <= INT64_MAX -> 0 < chunks -> n + chunks <= INT64_MAX ->
  Forall (fun s => 0 < s) sizes -> sumZ_with (fun s => s) sizes = n ->
  exists ps qs rs, split m t size d = Ok ps /\ chunk m t chunks d = Ok qs /\ split_with_sizes m t sizes d = Ok rs /\
    reads (cat to_dtype ps d m) m (shape t) (dtype t) (elem m t) /\
    reads (cat to_dtype qs d m) m (shape t) (dtype t) (elem m t) /\
    reads (cat to_dtype rs d m) m (shape t) (dtype t) (elem m t).
Proof.
  intros n Ht Hf Hp Hd Ha Hs Hsb Hc Hcb Hss Hsum.
  assert (0 < n) as Hn by (by eapply (Forall_lookup_1 _ _ _ _ Hp), nthZ_lookup).
  assert (allocatable m (shape t) (dtype t)) as Hat.
  { rewrite <-(list_insert_id (shape t) (Z.to_nat d) n) by (apply nthZ_lookup; exact Hd). apply Ha. lia. }
  destruct (allocatable_nonneg _ _ _ Hat) as [_ Hb].
  destruct (split_cuts m t d Ht Hf Hp Hb Hd ltac:(fold n; lia) size Hs Hsb) as (ps & Hps & Hc1).
  destruct (chunk_cuts m t d Ht Hf Hp Hb Hd ltac:(fold n; lia) chunks Hc Hn Hcb) as (qs & Hqs & Hc2).
  destruct (split_with_sizes_cuts m t d Ht Hf Hp Hb Hd ltac:(fold n; lia) sizes Hss Hsum) as (rs & Hrs & Hc3).
  exists ps, qs, rs. split_and!; try done; by apply cat_cuts.
Qed.

End Join.

End Join.
