(* ===== verification/TensorExamples.v ===== *)
(** * A transposed matrix, and the theorems on it

    The bytes 0 to 11 as a 3 x 4 matrix, its transpose, a backend that grants
    every request and loops that run backwards: the hypotheses of the theorems
    on tensors hold, and the definitions compute. *)

From stdpp Require Import base list numbers strings.
From S2P Require Import Prelude MapSums Shape DType Tensor TensorViews TensorKernels TensorCopy TensorContiguous TensorGather TensorRearrange TensorLayout TensorJoin TensorClient.

Module Examples.
Import Sums Tensor Views Kernels Copying Contig Gather Rearrange Layout Join Client.

#[local] Instance granting : Backend.
Proof. refine {| allocates _ n := n <=? INT64_MAX |}. intros _ n. by apply Z.leb_le. Defined.

#[local] Instance backwards : Omp.
Proof. refine {| omp l := rev l |}. intros l. symmetry. apply Permutation_rev. Defined.

#[local] Instance valid_index_dec sh idx : Decision (valid_index sh idx).
Proof. unfold valid_index. apply _. Defined.

Definition memory : Mem := [map (fun i => Some (Z.of_nat i)) (seq 0 12)].
Definition matrix : TensorImpl := mkTensor 0 [3; 4] [4; 1] 0 UInt8 false None None (-1).
Definition transposed : TensorImpl := mkTensor 0 [4; 3] [1; 4] 0 UInt8 false None None (-1).

Example transposed_is : transpose matrix 0 (-1) = Ok transposed.
Proof. reflexivity. Qed.

(** The transpose packed: 0 4 8 1 5 9 ... *)
Example contiguous_runs : rmap snd (contiguous transposed memory) =
  Ok (memory ++ [map Some [0; 4; 8; 1; 5; 9; 2; 6; 10; 3; 7; 11]]).
Proof. vm_compute. reflexivity. Qed.

Lemma memory_fits : fitting memory.
Proof. repeat constructor. by vm_compute. Qed.

Lemma matrix_sound : sound memory matrix.
Proof.
  split; [split; [done|by repeat constructor|by vm_compute]|]. intros idx Hv.
  exact (ravel_bound [3; 4] idx Hv).
Qed.

Lemma transposed_sound : sound memory transposed.
Proof.
  destruct matrix_sound as [Hw Hb]. destruct (transpose_views matrix 0 (-1) transposed Hw eq_refl) as [Hw' Hv].
  split; [done|]. by eapply views_in_bounds.
Qed.

Lemma grants m sh : forallb (fun d => 0 <? d) sh = true -> (prodZ sh * 1 <=? INT64_MAX) = true -> allocatable m sh UInt8.
Proof.
  intros Hp Hb. apply allocatable_intro.
  - apply Forall_forall. intros d Hd%list_elem_of_In. rewrite forallb_forall in Hp. by apply Z.ltb_lt, Hp.
  - by apply Z.leb_le.
  - intros m' _. exact Hb.
Qed.

Lemma contiguous_packs_witness : yields (contiguous transposed memory) memory [4; 3] UInt8 (elem memory transposed).
Proof. exact (contiguous_packs transposed memory transposed_sound memory_fits (grants _ [4; 3] eq_refl eq_refl)). Defined.

Lemma reshape_keeps_order_witness :
  yields (reshape transposed [2; -1] memory) memory [2; 6] UInt8
    (fun idx => elem memory transposed (unravel [4; 3] (ravel [2; 6] idx))).
Proof.
  exact (proj2 (proj2 (reshape_keeps_order transposed [2; -1] [2; 6] memory transposed_sound memory_fits eq_refl
    (grants _ [4; 3] eq_refl eq_refl) eq_refl eq_refl))).
Defined.

Lemma expand_broadcasts_witness :
  exists r m', expand transposed [2; -1; 3] memory = Ok (r, m') /\ extends memory m' /\ sound m' r /\ shape r = [2; 4; 3] /\
    dtype r = UInt8 /\
    forall idx, valid_index [2; 4; 3] idx -> elem m' r idx = elem memory transposed (broadcast [4; 3] 1 idx).
Proof.
  refine (expand_broadcasts transposed [2; -1; 3] memory transposed_sound memory_fits _ _ (grants _ [2; 4; 3] eq_refl eq_refl)).
  - split; [by vm_compute; lia|]. repeat constructor; by right.
  - intros [|i] d Hd Hi; [by injection Hd as <-|]. simpl in Hi. lia.
Defined.

Lemma repeat_interleave_tensor_repeats_witness :
  yields (repeat_interleave_tensor_kernel transposed [1; 0; 2; 3] 0 memory) memory [6; 3] UInt8
    (fun idx => elem memory transposed (relocate 0 (segment [1; 0; 2; 3]) idx)).
Proof.
  refine (repeat_interleave_tensor_repeats transposed [1; 0; 2; 3] 0 memory transposed_sound memory_fits _ _ _ _
    (grants _ [4; 3] eq_refl eq_refl) (grants _ [6; 3] eq_refl eq_refl)); [by vm_compute|by vm_compute| |by vm_compute].
  apply (bool_decide_unpack _). by vm_compute.
Defined.

(** No conversion is needed. *)
Definition no_conversion (t : TensorImpl) (dt : DType) (m : Mem) : result (TensorImpl * Mem) := Err UndefinedBehaviour.

Lemma transposed_joinable : joinable memory transposed 0 transposed.
Proof. split; [apply transposed_sound|done|done|done|apply (grants _ [4; 3] eq_refl eq_refl)]. Qed.

Lemma cat_concatenates_witness :
  reads (cat no_conversion [transposed; transposed] 0 memory) memory [8; 3] UInt8 (cat_source memory [transposed; transposed] 0).
Proof.
  refine (cat_concatenates no_conversion transposed [transposed] 0 memory _ _ memory_fits (grants _ [8; 3] eq_refl eq_refl)).
  - by vm_compute.
  - constructor; [exact transposed_joinable|]. constructor; [exact transposed_joinable|constructor].
Defined.

Lemma transposed_pieces k : 0 < k <= nthZ (shape transposed) 0 ->
  allocatable memory (<[Z.to_nat 0 := k]> (shape transposed)) (dtype transposed).
Proof.
  intros Hk. change (nthZ (shape transposed) 0) with 4 in Hk.
  change (<[Z.to_nat 0 := k]> (shape transposed)) with [k; 3]. change (dtype transposed) with UInt8. apply allocatable_intro.
  - constructor; [lia|]. by repeat constructor.
  - cbn. unfold INT64_MAX. lia.
  - intros m' _. apply Z.leb_le. cbn. unfold INT64_MAX. lia.
Qed.

Lemma cat_undoes_split_witness :
  exists ps qs rs, split memory transposed 3 0 = Ok ps /\ chunk memory transposed 3 0 = Ok qs /\
    split_with_sizes memory transposed [1; 3] 0 = Ok rs /\
    reads (cat no_conversion ps 0 memory) memory (shape transposed) (dtype transposed) (elem memory transposed) /\
    reads (cat no_conversion qs 0 memory) memory (shape transposed) (dtype transposed) (elem memory transposed) /\
    reads (cat no_conversion rs 0 memory) memory (shape transposed) (dtype transposed) (elem memory transposed).
Proof.
  assert (Forall (fun d => 0 < d) (shape transposed)) as Hp by by repeat constructor.
  assert (0 <= 0 < ndim transposed) as Hd by by vm_compute.
  assert (Forall (fun s => 0 < s) [1; 3]) as Hs by by repeat constructor.
  assert (nthZ (shape transposed) 0 + 3 <= INT64_MAX) as Hb by by vm_compute.
  assert (sumZ_with (fun s => s) [1; 3] = nthZ (shape transposed) 0) as Hsum by by vm_compute.
  assert (0 < 3) as H3 by lia.
  exact (cat_undoes_split no_conversion memory transposed 0 3 3 [1; 3] transposed_sound memory_fits Hp Hd transposed_pieces
    H3 Hb H3 Hb Hs Hsum).
Defined.

(** Every second column of the second row on. *)
Definition sliced_matrix : TensorImpl := mkTensor 0 [2; 2] [4; 2] 5 UInt8 false None None (-1).

Lemma view_reads_source_witness : apply_view memory (Slice 1 1 4 2) matrix = Ok (mkTensor 0 [3; 2] [4; 2] 1 UInt8 false None None (-1)) /\
  elem memory (mkTensor 0 [3; 2] [4; 2] 1 UInt8 false None None (-1)) [2; 1] = elem memory matrix [2; 3].
Proof.
  split; [reflexivity|].
  refine (proj2 (proj1 (proj2 (proj2 (proj2 (view_reads_source memory (Slice 1 1 4 2) matrix
    (mkTensor 0 [3; 2] [4; 2] 1 UInt8 false None None (-1)) (sliced 1 1 2) (proj1 matrix_sound) eq_refl eq_refl)))) [2; 1] _)).
  apply (bool_decide_unpack _). by vm_compute.
Defined.


(** The first row, and the last two read backwards. *)
Definition first_row : TensorImpl := mkTensor 0 [4] [1] 0 UInt8 false None None (-1).
Definition backward_rows : TensorImpl := mkTensor 0 [2; 4] [-4; -1] 11 UInt8 false None None (-1).


(** ** What the checks of [as_strided] miss *)

(** The product of an extent and a stride that overflows is computed before
    anything is checked. *)
Lemma as_strided_overflows : as_strided memory matrix [5] [2 ^ 62] None = Err UndefinedBehaviour.
Proof. reflexivity. Qed.

(** The strides of an empty tensor need not fit: after a transpose that is
    allowed, asking whether it is contiguous ends the process. *)
Lemma contiguity_terminates :
  new_tensor false [2 ^ 40; 0; 2 ^ 40] UInt8 [] = Ok (mkTensor 0 [2 ^ 40; 0; 2 ^ 40] [0; 2 ^ 40; 1] 0 UInt8 false None None (-1), [[]]) /\
  rbind (transpose (mkTensor 0 [2 ^ 40; 0; 2 ^ 40] [0; 2 ^ 40; 1] 0 UInt8 false None None (-1)) 0 1) is_contiguous = Err Terminated.
Proof. split; reflexivity. Qed.

End Examples.
