(* ===== verification/SafeTensors.v ===== *)
(** * The SafeTensors checkpoint format

    src/nn/safetensors.cpp and include/tenzor/nn/safetensors.hpp: the JSON
    header, [save], [load], [is_valid_file] and [detect_format].  Strings and
    files are lists of bytes.  The position in the header is the text that is
    left from it; positions appear in messages only.  [None] is a file that
    cannot be opened; write errors are not modelled, so [save] gives the bytes
    it writes.  Tensors are on the CPU.  The byte order of the host,
    [kHostIsBigEndian] in the source, is an argument, so that a file can be
    written on one host and read on another. *)

From stdpp Require Import base list numbers list_numbers strings gmap sorting.
From S2P Require Import Prelude Shape DType Tensor TensorKernels.

Module SafeTensors.
Import Tensor Kernels.

(** ** Characters *)

Definition chars (s : string) : list Z := map (fun c => Z.of_N (Ascii.N_of_ascii c)) (String.list_ascii_of_string s).

Notation QUOTE := 34 (only parsing).
Notation BACKSLASH := 92 (only parsing).
Notation LBRACE := 123 (only parsing).
Notation RBRACE := 125 (only parsing).
Notation LBRACKET := 91 (only parsing).
Notation RBRACKET := 93 (only parsing).
Notation COLON := 58 (only parsing).
Notation COMMA := 44 (only parsing).
Notation MINUS := 45 (only parsing).

(** [std::isspace] and [std::isdigit] in the C locale. *)
Definition isspace (c : Z) : bool := (c =? 32) || ((9 <=? c) && (c <=? 13)).
Definition isdigit (c : Z) : bool := (48 <=? c) && (c <=? 57).

(** ** Byte order *)

Definition endian_component_width (dtype : DType) : Z :=
  match dtype with Complex64 => 4 | Complex128 => 8 | _ => dtype_size dtype end.

Definition byteswap_in_place {A} (p : list A) (width : nat) : list A :=
  foldl (fun p i => match p !! i, p !! (width - 1 - i)%nat with
                    | Some a, Some b => <[i := b]> (<[(width - 1 - i)%nat := a]> p)
                    | _, _ => p
                    end) p (seq 0 (width / 2)).

(** The loop over the [n] whole components of [data]. *)
Fixpoint byteswap_components {A} (n w : nat) (data : list A) : list A :=
  match n with
  | O => data
  | S n => byteswap_in_place (take w data) w ++ byteswap_components n w (drop w data)
  end.

Definition convert_endianness {A} (big : bool) (data : list A) (dtype : DType) : list A :=
  if negb big then data
  else
    let w := endian_component_width dtype in
    if w <=? 1 then data else byteswap_components (length data / Z.to_nat w) (Z.to_nat w) data.

(** The value of eight bytes in the host's memory, and the bytes of a value. *)
Definition u64_of_memory (big : bool) (bs : list Z) : Z := little_endian_to_Z 8 (if big then rev bs else bs).
Definition memory_of_u64 (big : bool) (v : Z) : list Z :=
  let bs := Z_to_little_endian 8 8 v in if big then rev bs else bs.

Definition bswap64 (v : Z) : Z := little_endian_to_Z 8 (rev (Z_to_little_endian 8 8 v)).
Definition u64_host_le (big : bool) (v : Z) : Z := if big then bswap64 v else v.

(** ** Names of the data types *)

Definition dtype_to_st_string (dtype : DType) : list Z :=
  chars match dtype with
  | Float32 => "F32" | Float64 => "F64" | Float16 => "F16" | BFloat16 => "BF16"
  | Int8 => "I8" | Int16 => "I16" | Int32 => "I32" | Int64 => "I64"
  | UInt8 => "U8" | UInt16 => "U16" | UInt32 => "U32" | UInt64 => "U64"
  | Bool => "BOOL" | Complex64 => "C64" | Complex128 => "C128"
  | FP8_E4M3 => "F8_E4M3" | FP8_E5M2 => "F8_E5M2"
  | FP8_E4M3FNUZ => "F8_E4M3FNUZ" | FP8_E5M2FNUZ => "F8_E5M2FNUZ"
  | QInt8 => "QI8" | QUInt8 => "QU8" | QInt4x2 => "QI4X2"
  end.

(** The comparisons, in their order. *)
Definition st_strings : list (string * DType) :=
  [("F32"%string, Float32); ("F64"%string, Float64); ("F16"%string, Float16); ("BF16"%string, BFloat16);
   ("I8"%string, Int8); ("I16"%string, Int16); ("I32"%string, Int32); ("I64"%string, Int64);
   ("U8"%string, UInt8); ("U16"%string, UInt16); ("U32"%string, UInt32); ("U64"%string, UInt64); ("BOOL"%string, Bool);
   ("F8_E4M3"%string, FP8_E4M3); ("F8_E5M2"%string, FP8_E5M2);
   ("F8_E4M3FNUZ"%string, FP8_E4M3FNUZ); ("F8_E5M2FNUZ"%string, FP8_E5M2FNUZ);
   ("C64"%string, Complex64); ("C128"%string, Complex128);
   ("QI8"%string, QInt8); ("QU8"%string, QUInt8); ("QI4X2"%string, QInt4x2)].

Definition st_string_to_dtype (s : list Z) : result DType :=
  match list_find (fun p => s = chars p.1) st_strings with
  | Some (_, (_, d)) => Ok d
  | None => Err (RuntimeError "SafeTensors: unknown dtype string '")
  end.

(** ** Writing the header *)

Definition escape_char (c : Z) : list Z :=
  if c =? QUOTE then [BACKSLASH; QUOTE]
  else if c =? BACKSLASH then [BACKSLASH; BACKSLASH]
  else if c =? 10 then [BACKSLASH; 110]
  else if c =? 13 then [BACKSLASH; 114]
  else if c =? 9 then [BACKSLASH; 116]
  else [c].

Definition escape_json_string (s : list Z) : list Z := concat (map escape_char s).

(** An integer as an [ostream] prints it. *)
Fixpoint digits (fuel : nat) (n : Z) (acc : list Z) : list Z :=
  match fuel with
  | O => acc
  | S fuel => if n <? 10 then 48 + n :: acc else digits fuel (n / 10) (48 + n mod 10 :: acc)
  end.

Definition decimal (n : Z) : list Z :=
  let a := Z.abs n in
  let ds := digits (S (Z.to_nat (Z.log2 a))) a [] in
  if n <? 0 then MINUS :: ds else ds.

Definition quoted (s : list Z) : list Z := QUOTE :: s ++ [QUOTE].

(** The items with commas between them. *)
Fixpoint commas (items : list (list Z)) : list Z :=
  match items with
  | [] => []
  | [x] => x
  | x :: items => x ++ COMMA :: commas items
  end.

Definition json_entry (name : list Z) (t : TensorImpl) (data_start data_end : Z) : list Z :=
  quoted (escape_json_string name) ++ [COLON; LBRACE] ++
  quoted (chars "dtype") ++ [COLON] ++ quoted (dtype_to_st_string (dtype t)) ++ [COMMA] ++
  quoted (chars "shape") ++ [COLON; LBRACKET] ++ commas (map decimal (shape t)) ++ [RBRACKET; COMMA] ++
  quoted (chars "data_offsets") ++ [COLON; LBRACKET] ++ decimal data_start ++ [COMMA] ++ decimal data_end ++
  [RBRACKET; RBRACE].

(** [offsets] has one element more than [ordered_tensors]. *)
Definition build_header_json (ordered_tensors : list (list Z * TensorImpl)) (offsets : list Z) : list Z :=
  LBRACE :: commas (imap (fun i p => json_entry p.1 p.2 (nthZ offsets (Z.of_nat i)) (nthZ offsets (Z.of_nat (S i))))
                      ordered_tensors) ++ [RBRACE].

(** ** Parsing the header *)

Definition parser (A : Type) : Type := list Z -> result (A * list Z).

Fixpoint skip_ws (rest : list Z) : list Z :=
  match rest with
  | c :: r => if isspace c then skip_ws r else rest
  | [] => []
  end.

Definition err_expected : exn := RuntimeError "SafeTensors JSON parse error: expected '".

Definition expect (c : Z) : parser () := fun rest =>
  match skip_ws rest with
  | x :: r => if x =? c then Ok ((), r) else Err err_expected
  | [] => Err err_expected
  end.

(** [pos < json.size() && json[pos] != c]. *)
Definition more (c : Z) (rest : list Z) : bool := match rest with x :: _ => negb (x =? c) | [] => false end.

(** [if (pos < json.size() && json[pos] == ',') ++pos;] between two [skip_ws()]. *)
Definition skip_comma (rest : list Z) : list Z :=
  match rest with x :: r => if x =? COMMA then r else rest | [] => [] end.
Definition separator (rest : list Z) : list Z := skip_ws (skip_comma (skip_ws rest)).

Definition unescape (c : Z) : Z :=
  if c =? 110 then 10 else if c =? 114 then 13 else if c =? 116 then 9 else c.

(** The characters up to the closing quote, which is left. *)
Fixpoint string_body (rest : list Z) : list Z * list Z :=
  match rest with
  | [] => ([], [])
  | c :: r =>
      if c =? QUOTE then ([], rest)
      else match r with
           | e :: r' => if c =? BACKSLASH then let '(s, k) := string_body r' in (unescape e :: s, k)
                        else let '(s, k) := string_body r in (c :: s, k)
           | [] => ([c], [])
           end
  end.

Definition parse_string : parser (list Z) := fun rest =>
  let* '(_, r) := expect QUOTE (skip_ws rest) in
  let '(s, r) := string_body r in
  let* '(_, r) := expect QUOTE r in
  Ok (s, r).

Fixpoint span_digits (rest : list Z) : list Z * list Z :=
  match rest with
  | c :: r => if isdigit c then let '(ds, k) := span_digits r in (c :: ds, k) else ([], rest)
  | [] => ([], [])
  end.

(** [std::stoll] of an optional sign and digits. *)
Definition stoll (negative : bool) (ds : list Z) : result Z :=
  match ds with
  | [] => Err (InvalidArgument "stoll")
  | _ =>
      let v := foldl (fun a c => a * 10 + (c - 48)) 0 ds in
      let v := if negative then - v else v in
      if in_i64 v then Ok v else Err (OutOfRange "stoll")
  end.

Definition parse_number : parser Z := fun rest =>
  let rest := skip_ws rest in
  let '(negative, rest) := match rest with c :: r => if c =? MINUS then (true, r) else (false, rest) | [] => (false, []) end in
  let '(ds, rest) := span_digits rest in
  let* v := stoll negative ds in
  Ok (v, rest).

Record TensorMeta := mkMeta { m_dtype : DType; m_shape : list Z; data_start : Z; data_end : Z }.
Definition empty_meta : TensorMeta := mkMeta Float32 [] 0 0.

(** The loop over the dimensions. *)
Fixpoint parse_dims (fuel : nat) (dims : list Z) : parser (list Z) := fun rest =>
  if more RBRACKET rest then
    match fuel with
    | O => Err Diverged
    | S fuel => let* '(d, rest) := parse_number rest in parse_dims fuel (dims ++ [d]) (separator rest)
    end
  else Ok (dims, rest).

(** The value of a field; that of an unknown key is left where it is. *)
Definition parse_value (key : list Z) (meta : TensorMeta) : parser TensorMeta := fun rest =>
  if decide (key = chars "dtype") then
    let* '(s, rest) := parse_string rest in
    let* d := st_string_to_dtype s in
    Ok (mkMeta d (m_shape meta) (data_start meta) (data_end meta), rest)
  else if decide (key = chars "shape") then
    let* '(_, rest) := expect LBRACKET rest in
    let* '(dims, rest) := parse_dims (S (length rest)) (m_shape meta) (skip_ws rest) in
    let* '(_, rest) := expect RBRACKET rest in
    Ok (mkMeta (m_dtype meta) dims (data_start meta) (data_end meta), rest)
  else if decide (key = chars "data_offsets") then
    let* '(_, rest) := expect LBRACKET rest in
    let* '(s, rest) := parse_number rest in
    let* '(_, rest) := expect COMMA rest in
    let* '(e, rest) := parse_number rest in
    let* '(_, rest) := expect RBRACKET rest in
    Ok (mkMeta (m_dtype meta) (m_shape meta) (wrap 64 s) (wrap 64 e), rest)
  else Ok (meta, rest).

Fixpoint parse_fields (fuel : nat) (meta : TensorMeta) : parser TensorMeta := fun rest =>
  if more RBRACE rest then
    match fuel with
    | O => Err Diverged
    | S fuel =>
        let* '(key, rest) := parse_string rest in
        let* '(_, rest) := expect COLON rest in
        let* '(meta, rest) := parse_value key meta rest in
        parse_fields fuel meta (separator rest)
    end
  else Ok (meta, rest).

Definition METADATA : list Z := chars "__metadata__".

(** Whether the object is metadata, by its name or by its first key. *)
Definition is_metadata (tensor_name rest : list Z) : result bool :=
  match rest with
  | c :: r =>
      if c =? LBRACE then
        if decide (tensor_name = METADATA) then Ok true
        else
          let r := skip_ws r in
          if more RBRACE r then let* '(first_key, _) := parse_string r in Ok (bool_decide (first_key = METADATA))
          else Ok false
      else Ok false
  | [] => Ok false
  end.

(** Past the braces that match the next one. *)
Fixpoint skip_object (depth : Z) (rest : list Z) : list Z :=
  match rest with
  | [] => []
  | c :: r =>
      if c =? LBRACE then skip_object (depth + 1) r
      else if c =? RBRACE then (if depth - 1 =? 0 then r else skip_object (depth - 1) r)
      else skip_object depth r
  end.

Fixpoint parse_entries (fuel : nat) (metas : gmap (list Z) TensorMeta) (rest : list Z) : result (gmap (list Z) TensorMeta) :=
  if more RBRACE rest then
    match fuel with
    | O => Err Diverged
    | S fuel =>
        let* '(tensor_name, rest) := parse_string rest in
        let* '(_, rest) := expect COLON rest in
        let rest := skip_ws rest in
        let* metadata := is_metadata tensor_name rest in
        if (metadata : bool) then parse_entries fuel metas (separator (skip_object 0 rest))
        else
          let* '(_, rest) := expect LBRACE rest in
          let* '(meta, rest) := parse_fields (S (length rest)) empty_meta rest in
          let* '(_, rest) := expect RBRACE rest in
          parse_entries fuel (<[tensor_name := meta]> metas) (separator rest)
    end
  else Ok metas.

Definition parse_header_json (json : list Z) : result (gmap (list Z) TensorMeta) :=
  let* '(_, rest) := expect LBRACE (skip_ws json) in
  parse_entries (S (length rest)) ∅ (skip_ws rest).

(** ** Files *)

(** An [std::ifstream]: what the file holds, the position, and whether no read
    failed. *)
Record ifstream := mkStream { contents : list Z; pos : Z; good : bool }.

(** [file.read(p, n)]: the bytes that are stored at [p]. *)
Definition read (n : Z) (f : ifstream) : list Z * ifstream :=
  if good f then
    let bs := take (Z.to_nat n) (drop (Z.to_nat (pos f)) (contents f)) in
    (bs, mkStream (contents f) (pos f + lenZ bs) (lenZ bs =? n))
  else ([], f).

Definition seekg (off : Z) (f : ifstream) : ifstream :=
  if good f then mkStream (contents f) off true else f.

(** What a buffer holds after [bs] were stored at its start. *)
Definition stored {A} (buf bs : list A) : list A := bs ++ drop (length bs) buf.

Definition zeros (n : Z) : list Z := replicate (Z.to_nat n) 0.

(** ** Save *)

(** [data_ptr()]: the position of the first element's first byte. *)
Definition data_ptr (t : TensorImpl) : result Z := checked_mul (offset t) (dtype_size (dtype t)).

(** The [n] bytes at a position of a storage. *)
Definition bytes_at (m : Mem) (s : nat) (p n : Z) : result Storage :=
  let l := default [] (m !! s) in
  if (0 <=? p) && (0 <=? n) && (p + n <=? lenZ l) then Ok (take (Z.to_nat n) (drop (Z.to_nat p) l))
  else Err UndefinedBehaviour.

(** The order of [std::string]: the bytes are compared as unsigned, and a
    prefix comes first. *)
Fixpoint str_lt (a b : list Z) : bool :=
  match a, b with
  | [], [] => false
  | [], _ :: _ => true
  | _ :: _, [] => false
  | x :: a, y :: b => (x <? y) || ((x =? y) && str_lt a b)
  end.

Definition by_name {A} (a b : list Z * A) : Prop := str_lt b.1 a.1 = false.
#[export] Instance by_name_dec {A} : RelDecision (@by_name A).
Proof. unfold by_name. intros a b. apply _. Defined.

(** The order in which an [unordered_map] is iterated over. *)
Class Hashing := {
  iteration {A} : gmap (list Z) A -> list (list Z * A);
  iteration_perm {A} (m : gmap (list Z) A) : iteration m ≡ₚ map_to_list m
}.

Definition nbytes (t : TensorImpl) : result Z :=
  let* n := numel t in Ok (wrap 64 (n * dtype_size (dtype t))).

Section SaveLoad.
Context `{!Backend, !Omp, !Hashing}.
Variable big : bool.

Definition data_offsets (ordered : list (list Z * TensorImpl)) : result (list Z) :=
  let* '(offsets, current_offset) := rfoldM (fun '(offsets, current_offset) p =>
    let* n := nbytes p.2 in Ok (offsets ++ [current_offset], wrap 64 (current_offset + n))) ordered ([], 0) in
  Ok (offsets ++ [current_offset]).

(** The bytes of one tensor, which [contiguous()] may have to allocate. *)
Definition tensor_data (t : TensorImpl) (m : Mem) : result (Storage * Mem) :=
  let* c := is_contiguous t in
  let* '(contiguous, m) := if (c : bool) then Ok (t, m) else contiguous t m in
  let* n := nbytes contiguous in
  let* p := data_ptr contiguous in
  let* src := bytes_at m (storage contiguous) p n in
  Ok (convert_endianness big src (dtype contiguous), m).

Definition save (state_dict : gmap (list Z) TensorImpl) (m : Mem) : result (Storage * Mem) :=
  let ordered := merge_sort by_name (iteration state_dict) in
  let* offsets := data_offsets ordered in
  let header_json := build_header_json ordered offsets in
  let header_size := u64_host_le big (lenZ header_json) in
  rfoldM (fun '(file, m) p => let* '(data, m) := tensor_data p.2 m in Ok (file ++ data, m)) ordered
    (map Some (memory_of_u64 big header_size ++ header_json), m).

(** ** Load *)

Definition by_region (a b : Z * Z) : Prop := a.1 < b.1 \/ a.1 = b.1 /\ a.2 <= b.2.
#[export] Instance by_region_dec : RelDecision by_region.
Proof. unfold by_region. intros a b. apply _. Defined.

Definition err_order : exn := RuntimeError "' has data_end < data_start".
Definition err_gap : exn := RuntimeError "SafeTensors: tensor data offsets are not contiguous ".
Definition err_dead : exn := RuntimeError "SafeTensors: header declares no tensors but the data section ".
Definition err_cover : exn := RuntimeError "SafeTensors: tensor data offsets do not cover the data section ".

(** The declared regions partition the data section. *)
Definition check_regions (metas : list (list Z * TensorMeta)) (data_section_len : Z) : result () :=
  let* regions := rmapM (fun p => let* _ := throw_if (data_end p.2 <? data_start p.2) err_order in
                                  Ok (data_start p.2, data_end p.2)) metas in
  let* expected_start := rfoldM (fun expected_start r =>
    let* _ := throw_if (negb (r.1 =? expected_start)) err_gap in Ok r.2) (merge_sort by_region regions) 0 in
  match regions with
  | [] => throw_if (negb (data_section_len =? 0)) err_dead
  | _ => throw_if (negb (expected_start =? data_section_len)) err_cover
  end.

Definition count_elements (dims : list Z) : result Z :=
  rfoldM (fun numel dim =>
    let* _ := throw_if (dim <? 0) (RuntimeError "' has a negative dimension") in
    match checked_mul_overflow INT64_MAX numel dim with
    | Some n => Ok n
    | None => Err (RuntimeError "' element count overflows int64")
    end) dims 1.

(** [file.read] into the storage of a tensor, and the conversion in place. *)
Definition read_tensor (t : TensorImpl) (n : Z) (f : ifstream) (m : Mem) : result (Mem * ifstream) :=
  let* p := data_ptr t in
  let* dst := bytes_at m (storage t) p n in
  let '(bs, f) := read (sgn 64 n) f in
  let data := convert_endianness big (stored dst (map Some bs)) (dtype t) in
  let l := default [] (m !! storage t) in
  Ok (<[storage t := take (Z.to_nat p) l ++ data ++ drop (Z.to_nat (p + n)) l]> m, f).

Definition load_tensor (data_section_start data_section_len : Z) (meta : TensorMeta) (m : Mem) (f : ifstream)
    : result (TensorImpl * Mem * ifstream) :=
  let* _ := throw_if (data_end meta <? data_start meta) err_order in
  let data_size := data_end meta - data_start meta in
  let* _ := throw_if (data_end meta >? data_section_len) (RuntimeError "' data extends past end of file") in
  let* numel := count_elements (m_shape meta) in
  match checked_mul_overflow UINT64_MAX numel (dtype_size (m_dtype meta)) with
  | None => Err (RuntimeError "' byte size overflows size_t")
  | Some expected_size =>
      let* _ := throw_if (negb (data_size =? expected_size)) (RuntimeError "' data size mismatch (header: ") in
      let* '(tensor, m) := new_tensor true (m_shape meta) (m_dtype meta) m in
      let f := seekg (sgn 64 (wrap 64 (data_section_start + data_start meta))) f in
      let* '(m, f) := read_tensor tensor data_size f m in
      Ok (tensor, m, f)
  end.

Definition MAX_HEADER : Z := 100 * 1024 * 1024.

(** The header and the stream after it. *)
Definition read_header (f : ifstream) : result (list Z * ifstream) :=
  let file_size := lenZ (contents f) in
  let* _ := throw_if (file_size <? 8) (RuntimeError "SafeTensors: file too small: ") in
  let '(bs, f) := read 8 f in
  let header_size := u64_host_le big (u64_of_memory big (stored (zeros 8) bs)) in
  let* _ := throw_if (header_size >? MAX_HEADER) (RuntimeError "SafeTensors: header too large (") in
  let* _ := throw_if (file_size <? 8 + header_size) (RuntimeError "SafeTensors: file truncated (header claims ") in
  let '(bs, f) := read header_size f in
  Ok (stored (zeros header_size) bs, f).

Definition load (file : option (list Z)) (m : Mem) : result (gmap (list Z) TensorImpl * Mem) :=
  match file with
  | None => Err (RuntimeError "SafeTensors: cannot open file: ")
  | Some bs =>
      let* '(header_json, f) := read_header (mkStream bs 0 true) in
      let* tensor_metas := parse_header_json header_json in
      let data_section_start := 8 + lenZ header_json in
      let data_section_len := if lenZ bs >=? data_section_start then lenZ bs - data_section_start else 0 in
      let* _ := check_regions (iteration tensor_metas) data_section_len in
      let* '(res, m, _) := rfoldM (fun '(res, m, f) p =>
        let* '(t, m, f) := load_tensor data_section_start data_section_len p.2 m f in
        Ok (<[p.1 := t]> res, m, f)) (iteration tensor_metas) (∅, m, f) in
      Ok (res, m)
  end.

(** ** Recognising files *)

Definition is_valid_file (file : option (list Z)) : bool :=
  match file with
  | None => false
  | Some bs =>
      let '(b, f) := read 8 (mkStream bs 0 true) in
      if negb (good f) then false
      else
        let header_size := u64_host_le big (u64_of_memory big b) in
        if header_size >? MAX_HEADER then false
        else if header_size <? 2 then false
        else
          let '(b, f) := read 1 f in
          good f && bool_decide (stored [0] b = [LBRACE])
  end.

Inductive SerializeFormat : Set := FormatTenzor | FormatSafeTensors | FormatUnknown.

Definition TENZOR_MAGIC : Z := 0x544E5A52.

(** The first four bytes in the host's order. *)
Definition u32_of_memory (bs : list Z) : Z := little_endian_to_Z 8 (if big then rev bs else bs).

Definition detect_format (file : option (list Z)) : SerializeFormat :=
  match file with
  | None => FormatUnknown
  | Some bs =>
      let '(buf, f) := read 8 (mkStream bs 0 true) in
      if negb (good f) then FormatUnknown
      else if u32_of_memory (take 4 buf) =? TENZOR_MAGIC then FormatTenzor
      else
        let header_size := u64_of_memory big buf in
        if (header_size >? 0) && (header_size <? MAX_HEADER) then
          let '(b, f) := read 1 f in
          if good f && bool_decide (stored [0] b = [LBRACE]) then FormatSafeTensors else FormatUnknown
        else FormatUnknown
  end.

End SaveLoad.

End SafeTensors.
