(* ===== verification/SafeTensorsJson.v ===== *)
(** * The header of a SafeTensors file

    Parsing undoes printing - strings with any bytes, numbers of 64 bits, the
    entries of a header - and on any other text the parser ends, with metadata
    or with an exception. *)

From stdpp Require Import base list numbers list_numbers strings gmap.
From S2P Require Import Prelude Shape DType Tensor TensorKernels SafeTensors.

Module Json.
Import Tensor SafeTensors.

(** Texts associated to the right. *)
Ltac flatten_text := repeat (progress cbn [app] || rewrite <-app_assoc).

(** ** White space *)

Lemma isspace_false c : 32 < c -> isspace c = false.
Proof.
  intros H. unfold isspace. destruct (Z.eqb_spec c 32), (Z.leb_spec 9 c), (Z.leb_spec c 13); try done; lia.
Qed.

Lemma skip_ws_gt c rest : 32 < c -> skip_ws (c :: rest) = c :: rest.
Proof. intros H. cbn. by rewrite isspace_false. Qed.

Lemma expect_gt c rest : 32 < c -> expect c (c :: rest) = Ok ((), rest).
Proof. intros H. unfold expect. by rewrite skip_ws_gt, Z.eqb_refl by done. Qed.

(** ** Strings *)

Lemma string_body_plain c rest : c <> 34 -> c <> 92 ->
  string_body (c :: rest) = (c :: (string_body rest).1, (string_body rest).2).
Proof.
  intros H34 H92. cbn [string_body]. destruct (Z.eqb_spec c 34), (Z.eqb_spec c 92); try done.
  destruct rest; [done|]. by destruct (string_body _).
Qed.

Lemma string_body_escaped e rest :
  string_body (92 :: e :: rest) = (unescape e :: (string_body rest).1, (string_body rest).2).
Proof. cbn. by destruct (string_body rest). Qed.

Lemma string_body_escape s post : string_body (escape_json_string s ++ 34 :: post) = (s, 34 :: post).
Proof.
  unfold escape_json_string. induction s as [|c s IH]; [done|]. cbn [map concat]. rewrite <-app_assoc.
  unfold escape_char at 1.
  destruct (Z.eqb_spec c 34) as [->|]; [cbn [app]; by rewrite string_body_escaped, IH|].
  destruct (Z.eqb_spec c 92) as [->|]; [cbn [app]; by rewrite string_body_escaped, IH|].
  destruct (Z.eqb_spec c 10) as [->|]; [cbn [app]; by rewrite string_body_escaped, IH|].
  destruct (Z.eqb_spec c 13) as [->|]; [cbn [app]; by rewrite string_body_escaped, IH|].
  destruct (Z.eqb_spec c 9) as [->|]; [cbn [app]; by rewrite string_body_escaped, IH|].
  cbn [app]. by rewrite string_body_plain, IH.
Qed.

Lemma parse_string_quoted s post : parse_string (quoted (escape_json_string s) ++ post) = Ok (s, post).
Proof.
  unfold parse_string, quoted. cbn [app]. rewrite skip_ws_gt, expect_gt by lia. cbn [rbind].
  rewrite <-app_assoc. cbn [app]. rewrite string_body_escape. by rewrite expect_gt.
Qed.

(** ** Numbers *)

Definition push_digit (a c : Z) : Z := a * 10 + (c - 48).


Lemma digits_Ok fuel n acc : 0 <= n < 2 ^ Z.of_nat fuel -> fuel <> O ->
  exists ds, digits fuel n acc = ds ++ acc /\ ds <> [] /\ Forall (fun c => isdigit c = true) ds /\ foldl push_digit 0 ds = n.
Proof.
  revert n acc. induction fuel as [|fuel IH]; intros n acc Hn Hf; [done|]. cbn [digits].
  assert (forall k, 0 <= k < 10 -> isdigit (48 + k) = true) as Hd.
  { intros k Hk. unfold isdigit. destruct (Z.leb_spec 48 (48 + k)), (Z.leb_spec (48 + k) 57); lia || done. }
  destruct (Z.ltb_spec n 10).
  - exists [48 + n]. split_and!; [done..| |unfold push_digit; cbn; lia]. constructor; [apply Hd; lia|constructor].
  - rewrite Nat2Z.inj_succ, Z.pow_succ_r in Hn by lia.
    assert (0 <= n / 10) by (apply Z.div_pos; lia).
    assert (n / 10 < 2 ^ Z.of_nat fuel) by (apply Z.div_lt_upper_bound; lia).
    destruct (IH (n / 10) (48 + n mod 10 :: acc)) as (ds & -> & Hne & Hds & Hv); [done| |].
    { intros ->. cbn in *. assert (1 <= n / 10) by (apply Z.div_le_lower_bound; lia). lia. }
    exists (ds ++ [48 + n mod 10]). pose proof (Z.mod_pos_bound n 10). split_and!.
    + by rewrite <-app_assoc.
    + by destruct ds.
    + apply Forall_app. split; [done|]. constructor; [apply Hd; lia|constructor].
    + rewrite foldl_app, Hv. unfold push_digit. cbn. pose proof (Z.div_mod n 10). lia.
Qed.

Lemma span_digits_app ds c post : Forall (fun c => isdigit c = true) ds -> isdigit c = false ->
  span_digits (ds ++ c :: post) = (ds, c :: post).
Proof. intros Hds Hc. induction Hds as [|d ds Hd _ IH]; cbn; [by rewrite Hc|]. by rewrite Hd, IH. Qed.

(** A printed number starts with a digit or a sign. *)
Definition number_start (c : Z) : Prop := isdigit c = true \/ c = 45.

Lemma decimal_Ok z : exists neg ds, decimal z = (if neg : bool then 45 :: ds else ds) /\ ds <> [] /\
  Forall (fun c => isdigit c = true) ds /\ foldl push_digit 0 ds = Z.abs z /\ (if neg then z = - Z.abs z else z = Z.abs z).
Proof.
  unfold decimal. destruct (digits_Ok (S (Z.to_nat (Z.log2 (Z.abs z)))) (Z.abs z) []) as (ds & -> & Hne & Hds & Hv).
  - split; [lia|]. rewrite Nat2Z.inj_succ, Z2Nat.id by apply Z.log2_nonneg.
    destruct (Z.eqb_spec (Z.abs z) 0) as [->|]; [done|]. apply Z.log2_spec. lia.
  - done.
  - rewrite app_nil_r. exists (z <? 0), ds. split_and!; [done..|]. destruct (Z.ltb_spec z 0); lia.
Qed.

Lemma decimal_start z : exists c ds, decimal z = c :: ds /\ number_start c.
Proof.
  destruct (decimal_Ok z) as (neg & ds & -> & Hne & Hds & _). destruct neg; [exists 45, ds; split; [done|by right]|].
  destruct ds as [|c ds]; [done|]. exists c, ds. split; [done|]. left. by inversion Hds.
Qed.

Lemma isdigit_spec c : isdigit c = true <-> 48 <= c <= 57.
Proof. unfold isdigit. rewrite andb_true_iff, !Z.leb_le. done. Qed.

Lemma number_start_gt c : number_start c -> 32 < c < 91.
Proof. intros [H%isdigit_spec| ->]; lia. Qed.

Lemma skip_ws_decimal z rest : skip_ws (decimal z ++ rest) = decimal z ++ rest.
Proof.
  destruct (decimal_start z) as (c & l & -> & Hs%number_start_gt). cbn [app]. rewrite skip_ws_gt; [done|lia].
Qed.

Lemma parse_number_decimal z c post : INT64_MIN <= z <= INT64_MAX -> isdigit c = false ->
  parse_number (decimal z ++ c :: post) = Ok (z, c :: post).
Proof.
  intros Hz Hc. unfold parse_number. rewrite skip_ws_decimal.
  destruct (decimal_Ok z) as (neg & ds & -> & Hne & Hds & Hv & Hsign).
  assert (forall n, stoll n ds = let v := if n : bool then - Z.abs z else Z.abs z in
    if in_i64 v then Ok v else Err (OutOfRange "stoll")) as Hst.
  { intros n. rewrite <-Hv. by destruct ds. }
  pose proof (proj2 (in_i64_spec z) Hz) as Hin. destruct neg.
  - cbn [app]. rewrite Z.eqb_refl, span_digits_app by done. rewrite Hst. cbv zeta. by rewrite <-Hsign, Hin.
  - destruct ds as [|d ds]; [done|]. cbn [app].
    pose proof (proj1 (isdigit_spec d) ltac:(by inversion Hds)). destruct (Z.eqb_spec d 45); [lia|].
    change (d :: ds ++ c :: post) with ((d :: ds) ++ c :: post). rewrite span_digits_app by done.
    rewrite Hst. cbv zeta. by rewrite <-Hsign, Hin.
Qed.

(** ** Separators *)

Lemma separator_comma c rest : 32 < c -> separator (44 :: c :: rest) = c :: rest.
Proof. intros H. unfold separator. rewrite (skip_ws_gt 44) by lia.
  change (skip_comma (44 :: c :: rest)) with (c :: rest). by apply skip_ws_gt. Qed.

Lemma separator_none c rest : 32 < c -> c <> 44 -> separator (c :: rest) = c :: rest.
Proof.
  intros H Hc. unfold separator. rewrite skip_ws_gt by done. cbn [skip_comma].
  destruct (Z.eqb_spec c 44); [done|]. by rewrite skip_ws_gt.
Qed.

Lemma separator_quoted k rest : separator (44 :: quoted k ++ rest) = quoted k ++ rest.
Proof. by apply separator_comma. Qed.

Lemma commas_cons x y items : commas (x :: y :: items) = x ++ 44 :: commas (y :: items).
Proof. done. Qed.

(** ** Values *)

Definition i64s (l : list Z) : Prop := Forall (fun z => INT64_MIN <= z <= INT64_MAX) l.

Lemma more_number c z rest : 91 <= c -> more c (decimal z ++ rest) = true.
Proof.
  intros H. destruct (decimal_start z) as (d & l & -> & Hs%number_start_gt). cbn.
  destruct (Z.eqb_spec d c); [lia|done].
Qed.

Lemma more_same c rest : more c (c :: rest) = false.
Proof. cbn. by rewrite Z.eqb_refl. Qed.

Lemma dims_start dims post : skip_ws (commas (map decimal dims) ++ 93 :: post) = commas (map decimal dims) ++ 93 :: post.
Proof.
  destruct dims as [|d [|e dims]]; [by apply skip_ws_gt|apply skip_ws_decimal|].
  cbn [map]. rewrite commas_cons, <-app_assoc. apply skip_ws_decimal.
Qed.

Lemma parse_dims_commas dims fuel acc post : i64s dims -> (length dims <= fuel)%nat ->
  parse_dims fuel acc (commas (map decimal dims) ++ 93 :: post) = Ok (acc ++ dims, 93 :: post).
Proof.
  intros Hd. revert fuel acc. induction Hd as [|d dims Hd Hds IH]; intros fuel acc Hf.
  { cbn [map commas app]. destruct fuel; cbn [parse_dims]; rewrite more_same; by rewrite app_nil_r. }
  destruct fuel as [|fuel]; [cbn in Hf; lia|]. cbn [length] in Hf. cbn [parse_dims].
  destruct dims as [|e dims].
  - cbn [map commas]. rewrite more_number, parse_number_decimal by done || lia. cbn [rbind].
    rewrite separator_none by lia. specialize (IH fuel (acc ++ [d]) ltac:(cbn; lia)). cbn [map commas app] in IH.
    by rewrite IH, app_nil_r.
  - cbn [map] in *. rewrite commas_cons, <-app_assoc, more_number by lia. cbn [app].
    rewrite parse_number_decimal by done. cbn [rbind].
    replace (separator _) with (commas (decimal e :: map decimal dims) ++ 93 :: post).
    { rewrite IH by lia. by rewrite <-app_assoc. }
    destruct (decimal_start e) as (c & l & E & Hs%number_start_gt). 
    destruct dims as [|f dims]; cbn [map]; rewrite ?commas_cons, <-?app_assoc; cbn [commas]; rewrite E; cbn [app];
      by rewrite separator_comma by lia.
Qed.

Lemma length_commas dims : (length dims <= length (commas (map decimal dims)))%nat.
Proof.
  induction dims as [|d dims IH]; [done|]. destruct (decimal_start d) as (c & l & E & _).
  destruct dims as [|e dims]; cbn [map commas] in *; rewrite E; cbn [app length]; [lia|].
  cbn [map commas length] in IH. rewrite length_app. cbn [length commas]. lia.
Qed.

Lemma st_strings_Ok d : st_string_to_dtype (dtype_to_st_string d) = Ok d /\
  escape_json_string (dtype_to_st_string d) = dtype_to_st_string d.
Proof. by destruct d. Qed.

Definition dtype_text (d : DType) : list Z := quoted (dtype_to_st_string d).
Definition shape_text (sh : list Z) : list Z := 91 :: commas (map decimal sh) ++ [93].
Definition offsets_text (s e : Z) : list Z := 91 :: decimal s ++ 44 :: decimal e ++ [93].

Lemma parse_dtype d meta post : parse_value (chars "dtype") meta (dtype_text d ++ post) =
  Ok (mkMeta d (m_shape meta) (data_start meta) (data_end meta), post).
Proof.
  unfold parse_value, dtype_text. rewrite decide_True by done. destruct (st_strings_Ok d) as [E1 E2].
  rewrite <-E2, parse_string_quoted. cbn [rbind]. by rewrite E1.
Qed.

Lemma parse_shape sh meta post : i64s sh -> parse_value (chars "shape") meta (shape_text sh ++ post) =
  Ok (mkMeta (m_dtype meta) (m_shape meta ++ sh) (data_start meta) (data_end meta), post).
Proof.
  intros Hsh. unfold parse_value, shape_text. rewrite decide_False, decide_True by done.
  cbn [app]. rewrite expect_gt by lia. cbn [rbind]. rewrite <-app_assoc. cbn [app].
  rewrite dims_start, parse_dims_commas; [|done|].
  - cbn [rbind]. by rewrite expect_gt by lia.
  - rewrite length_app. pose proof (length_commas sh). lia.
Qed.

Lemma parse_offsets s e meta post : 0 <= s <= INT64_MAX -> 0 <= e <= INT64_MAX ->
  parse_value (chars "data_offsets") meta (offsets_text s e ++ post) =
  Ok (mkMeta (m_dtype meta) (m_shape meta) s e, post).
Proof.
  intros Hs He. unfold parse_value, offsets_text. rewrite decide_False, decide_False, decide_True by done.
  assert (forall z, 0 <= z <= INT64_MAX -> wrap 64 z = z /\ INT64_MIN <= z <= INT64_MAX) as Hz.
  { intros z Hz. unfold INT64_MAX, INT64_MIN in *. split; [apply wrap_small; lia|lia]. }
  destruct (Hz _ Hs) as [Es ?], (Hz _ He) as [Ee ?].
  cbn [app]. rewrite expect_gt by lia. cbn [rbind]. rewrite <-app_assoc. cbn [app].
  rewrite parse_number_decimal by done. cbn [rbind]. rewrite expect_gt by lia. cbn [rbind].
  rewrite <-app_assoc. cbn [app]. rewrite parse_number_decimal by done. cbn [rbind].
  rewrite expect_gt by lia. cbn [rbind]. by rewrite Es, Ee.
Qed.

(** ** Entries *)

Lemma parse_fields_step fuel key meta meta' rest rest' : escape_json_string key = key ->
  parse_value key meta rest = Ok (meta', rest') ->
  parse_fields (S fuel) meta (quoted key ++ 58 :: rest) = parse_fields fuel meta' (separator rest').
Proof.
  intros Hk Hv. cbn [parse_fields]. assert (more 125 (quoted key ++ 58 :: rest) = true) as -> by done.
  replace (quoted key) with (quoted (escape_json_string key)) by (by rewrite Hk).
  rewrite parse_string_quoted. cbn [rbind]. rewrite expect_gt by lia. cbn [rbind]. by rewrite Hv.
Qed.

(** The text of an entry. *)
Definition fields_text (meta : TensorMeta) : list Z :=
  quoted (chars "dtype") ++ 58 :: dtype_text (m_dtype meta) ++ 44 ::
  quoted (chars "shape") ++ 58 :: shape_text (m_shape meta) ++ 44 ::
  quoted (chars "data_offsets") ++ 58 :: offsets_text (data_start meta) (data_end meta).

Definition entry_text (e : list Z * TensorMeta) : list Z :=
  quoted (escape_json_string e.1) ++ 58 :: 123 :: fields_text e.2 ++ [125].

Definition entry_of (name : list Z) (t : TensorImpl) (s e : Z) : list Z * TensorMeta :=
  (name, mkMeta (dtype t) (shape t) s e).

Lemma json_entry_text name t s e : json_entry name t s e = entry_text (entry_of name t s e).
Proof.
  unfold json_entry, entry_text, entry_of, fields_text, dtype_text, shape_text, offsets_text. cbn [fst snd m_dtype m_shape data_start data_end].
  flatten_text. done.
Qed.

Definition meta_ok (meta : TensorMeta) : Prop :=
  i64s (m_shape meta) /\ 0 <= data_start meta <= INT64_MAX /\ 0 <= data_end meta <= INT64_MAX.

Lemma parse_fields_text meta fuel post : meta_ok meta -> (3 <= fuel)%nat ->
  parse_fields fuel empty_meta (fields_text meta ++ 125 :: post) = Ok (meta, 125 :: post).
Proof.
  intros (Hsh & Hs & He) Hf. destruct meta as [dt sh s e]. cbn [m_dtype m_shape data_start data_end] in *.
  destruct fuel as [|[|[|fuel]]]; [lia..|]. unfold fields_text. cbn [m_dtype m_shape data_start data_end].
  flatten_text.
  erewrite parse_fields_step; [|done|by apply parse_dtype]. rewrite separator_quoted. cbn [m_dtype m_shape data_start data_end empty_meta].
  erewrite (parse_fields_step _ (chars "shape")); [|done|by apply parse_shape].
  rewrite separator_quoted. cbn [app m_dtype m_shape data_start data_end].
  erewrite (parse_fields_step _ (chars "data_offsets")); [|done|by apply parse_offsets].
  rewrite separator_none by lia. cbn [app m_dtype m_shape data_start data_end].
  destruct fuel; cbn [parse_fields]; by rewrite more_same.
Qed.

Lemma is_metadata_text name meta rest : name <> METADATA ->
  is_metadata name (123 :: fields_text meta ++ 125 :: rest) = Ok false.
Proof.
  intros Hn. unfold is_metadata. change (123 =? 123) with true. cbn iota. rewrite decide_False by done.
  unfold fields_text. flatten_text. set (r := 58 :: _).
  change (skip_ws (quoted (chars "dtype") ++ r)) with (quoted (chars "dtype") ++ r).
  change (more 125 (quoted (chars "dtype") ++ r)) with true. cbn iota.
  change (quoted (chars "dtype")) with (quoted (escape_json_string (chars "dtype"))).
  by rewrite parse_string_quoted.
Qed.

Definition insert_entry (metas : gmap (list Z) TensorMeta) (e : list Z * TensorMeta) : gmap (list Z) TensorMeta :=
  <[e.1 := e.2]> metas.

Lemma parse_entries_step fuel metas e rest : e.1 <> METADATA -> meta_ok e.2 ->
  parse_entries (S fuel) metas (entry_text e ++ rest) = parse_entries fuel (insert_entry metas e) (separator rest).
Proof.
  intros Hn He. destruct e as [name meta]. cbn [fst snd] in *. unfold entry_text. flatten_text. cbn [fst snd].
  set (body := 58 :: _). cbn [parse_entries].
  assert (more 125 (quoted (escape_json_string name) ++ body) = true) as -> by done.
  rewrite parse_string_quoted. cbn [rbind]. unfold body. rewrite expect_gt by lia. cbn [rbind].
  rewrite skip_ws_gt, is_metadata_text by done || lia. cbn [rbind].
  rewrite expect_gt by lia. cbn [rbind]. rewrite parse_fields_text; [|done|].
  - cbn [rbind]. by rewrite expect_gt by lia.
  - unfold fields_text. cbn [app length]. rewrite !length_app. cbn [length]. lia.
Qed.

Lemma parse_entries_text es fuel metas : Forall (fun e => e.1 <> METADATA /\ meta_ok e.2) es -> (length es <= fuel)%nat ->
  parse_entries fuel metas (commas (map entry_text es) ++ [125]) = Ok (foldl insert_entry metas es).
Proof.
  intros Hes. revert fuel metas. induction Hes as [|e es [Hn He] Hes IH]; intros fuel metas Hf; [by destruct fuel|].
  destruct fuel as [|fuel]; [cbn in Hf; lia|]. cbn [length] in Hf. destruct es as [|e' es].
  - cbn [map commas foldl]. rewrite parse_entries_step by done. rewrite separator_none by done. by destruct fuel.
  - cbn [map] in *. rewrite commas_cons. flatten_text. rewrite parse_entries_step by done.
    replace (separator _) with (commas (entry_text e' :: map entry_text es) ++ [125]); [by apply IH; lia|].
    destruct es as [|e'' es]; cbn [map]; rewrite ?commas_cons; cbn [commas]; unfold entry_text; flatten_text;
      by rewrite separator_quoted.
Qed.

Lemma length_entries es : (length es <= length (commas (map entry_text es)))%nat.
Proof.
  induction es as [|e es IH]; [done|]. destruct es as [|e' es]; [cbn; lia|].
  cbn [map] in *. rewrite commas_cons, length_app. unfold entry_text at 1. cbn [length app quoted] in *. lia.
Qed.

(** The entries of a header. *)
Definition entries (ordered : list (list Z * TensorImpl)) (offsets : list Z) : list (list Z * TensorMeta) :=
  imap (fun i p => entry_of p.1 p.2 (nthZ offsets (Z.of_nat i)) (nthZ offsets (Z.of_nat (S i)))) ordered.

Lemma map_imap {A B C} (g : B -> C) (f : nat -> A -> B) l : map g (imap f l) = imap (fun i a => g (f i a)) l.
Proof. revert f. induction l as [|a l IH]; intros f; cbn; [done|]. by rewrite IH. Qed.

Lemma build_header_text ordered offsets :
  build_header_json ordered offsets = 123 :: commas (map entry_text (entries ordered offsets)) ++ [125].
Proof.
  unfold build_header_json, entries. rewrite map_imap. do 3 f_equal. apply imap_ext. intros i p _. apply json_entry_text.
Qed.

(** Parsing a printed header gives back its entries. *)
Lemma parse_build ordered offsets : Forall (fun e => e.1 <> METADATA /\ meta_ok e.2) (entries ordered offsets) ->
  parse_header_json (build_header_json ordered offsets) = Ok (foldl insert_entry ∅ (entries ordered offsets)).
Proof.
  intros He. rewrite build_header_text. set (es := entries ordered offsets) in *. unfold parse_header_json.
  rewrite skip_ws_gt, expect_gt by lia. cbn [rbind].
  assert (skip_ws (commas (map entry_text es) ++ [125]) = commas (map entry_text es) ++ [125]) as ->.
  { destruct es as [|e [|e' es]]; [done| |]; cbn [map commas]; unfold entry_text; flatten_text; by apply skip_ws_gt. }
  apply parse_entries_text; [done|]. rewrite length_app. pose proof (length_entries es). lia.
Qed.

Lemma foldl_entries_lookup es metas name : NoDup es.*1 ->
  foldl insert_entry metas es !! name = match (list_to_map es : gmap (list Z) TensorMeta) !! name with Some m => Some m | None => metas !! name end.
Proof.
  revert metas. induction es as [|[n m] es IH]; intros metas Hnd; cbn; [done|].
  apply NoDup_cons in Hnd as [Hn Hnd]. rewrite IH by done. unfold insert_entry. cbn.
  destruct (decide (name = n)) as [->|Hne].
  - rewrite !lookup_insert_eq. by rewrite (not_elem_of_list_to_map_1 es n Hn).
  - by rewrite !lookup_insert_ne by done.
Qed.

Lemma foldl_entries es : NoDup es.*1 -> foldl insert_entry ∅ es = list_to_map es.
Proof. intros H. apply map_eq. intros name. rewrite foldl_entries_lookup by done. destruct ((list_to_map es : gmap (list Z) TensorMeta) !! name); [done|apply lookup_empty]. Qed.

(** ** Any text *)

Notation shorter n m := (meets (fun p => (length p.2 < n)%nat) m) (only parsing).

Lemma skip_ws_length rest : (length (skip_ws rest) <= length rest)%nat.
Proof. induction rest as [|c rest IH]; cbn; [done|]. destruct (isspace c); cbn; lia. Qed.

Lemma separator_length rest : (length (separator rest) <= length rest)%nat.
Proof.
  unfold separator. pose proof (skip_ws_length rest). pose proof (skip_ws_length (skip_comma (skip_ws rest))).
  enough (length (skip_comma (skip_ws rest)) <= length (skip_ws rest))%nat by lia.
  destruct (skip_ws rest) as [|c r]; cbn; [done|]. destruct (c =? 44); cbn; lia.
Qed.

Lemma expect_shorter c rest : shorter (length rest) (expect c rest).
Proof.
  unfold expect. pose proof (skip_ws_length rest). destruct (skip_ws rest) as [|x r]; [done|].
  destruct (x =? c); [|done]. cbn in *. lia.
Qed.


Lemma string_body_length n rest : (length rest <= n)%nat -> (length (string_body rest).2 <= length rest)%nat.
Proof.
  revert rest. induction n as [|n IH]; intros [|c r] Hn; cbn [length] in *; [done|lia|done|]. cbn [string_body].
  destruct (c =? 34); [done|]. destruct r as [|e r']; [cbn; lia|]. cbn [length] in *. destruct (c =? 92).
  - pose proof (IH r' ltac:(lia)). destruct (string_body r'). cbn in *. lia.
  - pose proof (IH (e :: r') ltac:(cbn; lia)). destruct (string_body (e :: r')). cbn in *. lia.
Qed.

Lemma parse_string_shorter rest : shorter (length rest) (parse_string rest).
Proof.
  unfold parse_string. eapply meets_bind; [apply expect_shorter|]. intros [u r] Hr. cbn [snd] in Hr.
  pose proof (skip_ws_length rest). pose proof (string_body_length _ r (le_n _)). destruct (string_body r) as [s k]. cbn [snd] in *.
  eapply meets_bind; [apply expect_shorter|]. intros [u' k'] Hk. cbn in *. lia.
Qed.

Lemma span_digits_length rest : (length (span_digits rest).1 + length (span_digits rest).2 = length rest)%nat.
Proof. induction rest as [|c r IH]; cbn; [done|]. destruct (isdigit c); [|done]. destruct (span_digits r). cbn in *. lia. Qed.

Lemma stoll_meets neg ds : meets (fun z => INT64_MIN <= z <= INT64_MAX /\ ds <> []) (stoll neg ds).
Proof.
  unfold stoll. destruct ds as [|d ds]; [done|]. cbv zeta. destruct (in_i64 _) eqn:E; [|done].
  apply in_i64_spec in E. by split.
Qed.

Lemma parse_number_meets rest :
  meets (fun p => (length p.2 < length rest)%nat /\ INT64_MIN <= p.1 <= INT64_MAX) (parse_number rest).
Proof.
  unfold parse_number. pose proof (skip_ws_length rest). set (q := match skip_ws rest with [] => _ | _ => _ end).
  assert (length q.2 <= length (skip_ws rest))%nat.
  { unfold q. destruct (skip_ws rest) as [|c r]; [done|]. destruct (c =? 45); cbn; lia. }
  destruct q as [neg r]. cbn [snd] in *. pose proof (span_digits_length r). destruct (span_digits r) as [ds k]. cbn [fst snd] in *.
  eapply meets_bind; [apply stoll_meets|]. intros z [Hz Hds]. destruct ds; [done|]. cbn in *. split; [lia|done].
Qed.

Lemma parse_dims_meets fuel acc rest : (length rest <= fuel)%nat -> i64s acc ->
  meets (fun p => (length p.2 <= length rest)%nat /\ i64s p.1) (parse_dims fuel acc rest).
Proof.
  revert acc rest. induction fuel as [|fuel IH]; intros acc rest Hf Ha.
  { destruct rest; [done|cbn in Hf; lia]. }
  cbn [parse_dims]. destruct (more 93 rest); [|done].
  eapply meets_bind; [apply parse_number_meets|]. intros [d r] [Hr Hd]. cbn [fst snd] in *. pose proof (separator_length r).
  eapply meets_weaken; [apply IH; [lia|]|].
  - apply Forall_app. split; [done|]. by constructor.
  - intros p [Hp ?]. split; [lia|done].
Qed.

(** What the parser may put into a [TensorMeta]. *)
Definition meta_typed (meta : TensorMeta) : Prop :=
  i64s (m_shape meta) /\ 0 <= data_start meta < 2 ^ 64 /\ 0 <= data_end meta < 2 ^ 64.

Notation value_meets n m := (meets (fun p => (length p.2 <= n)%nat /\ meta_typed p.1) m) (only parsing).

Lemma parse_value_meets key meta rest : meta_typed meta -> value_meets (length rest) (parse_value key meta rest).
Proof.
  intros Hm. pose proof Hm as (Hsh & Hs & He). unfold parse_value.
  destruct (decide (key = chars "dtype")).
  { eapply meets_bind; [apply parse_string_shorter|]. intros [s r] Hr. cbn [snd] in Hr.
    eapply (meets_bind (fun _ => True)); [unfold st_string_to_dtype; by destruct (list_find _ _) as [[? []]|]|].
    intros d _. cbn. split; [lia|done]. }
  destruct (decide (key = chars "shape")).
  { eapply meets_bind; [apply expect_shorter|]. intros [u r] Hr. cbn [snd] in Hr. pose proof (skip_ws_length r).
    eapply meets_bind; [by apply parse_dims_meets; [lia|]|]. intros [dims r1] [Hr1 Hd]. cbn [fst snd] in *.
    eapply meets_bind; [apply expect_shorter|]. intros [u' r2] Hr2. cbn in *. split; [lia|done]. }
  destruct (decide (key = chars "data_offsets")).
  { eapply meets_bind; [apply expect_shorter|]. intros [u r] Hr. cbn [snd] in Hr.
    eapply meets_bind; [apply parse_number_meets|]. intros [s r1] [Hr1 _]. cbn [fst snd] in *.
    eapply meets_bind; [apply expect_shorter|]. intros [u' r2] Hr2. cbn [snd] in *.
    eapply meets_bind; [apply parse_number_meets|]. intros [k r3] [Hr3 _]. cbn [fst snd] in *.
    eapply meets_bind; [apply expect_shorter|]. intros [u'' r4] Hr4. cbn [meets fst snd] in *. split; [lia|].
    split_and!; [done|apply wrap_bound; lia..]. }
  cbn. by split.
Qed.

Lemma parse_fields_meets fuel meta rest : (length rest <= fuel)%nat -> meta_typed meta ->
  value_meets (length rest) (parse_fields fuel meta rest).
Proof.
  revert meta rest. induction fuel as [|fuel IH]; intros meta rest Hf Hm.
  { destruct rest; [done|cbn in Hf; lia]. }
  cbn [parse_fields]. destruct (more 125 rest); [|done].
  eapply meets_bind; [apply parse_string_shorter|]. intros [key r] Hr. cbn [snd] in *.
  eapply meets_bind; [apply expect_shorter|]. intros [u r1] Hr1. cbn [snd] in *.
  eapply meets_bind; [by apply parse_value_meets|]. intros [meta' r2] [Hr2 Hm']. cbn [fst snd] in *.
  pose proof (separator_length r2). eapply meets_weaken; [by apply IH; [lia|]|]. intros p [? ?]. split; [lia|done].
Qed.

Lemma skip_object_length depth rest : (length (skip_object depth rest) <= length rest)%nat.
Proof.
  revert depth. induction rest as [|c r IH]; intros depth; cbn [skip_object length]; [done|].
  pose proof (IH depth). pose proof (IH (depth + 1)). pose proof (IH (depth - 1)).
  repeat case_match; lia.
Qed.

Lemma is_metadata_meets name rest : meets (fun _ => True) (is_metadata name rest).
Proof.
  unfold is_metadata. destruct rest as [|c r]; [done|]. destruct (c =? 123); [|done].
  destruct (decide _); [done|]. cbv zeta. destruct (more _ _); [|done].
  eapply meets_bind; [apply parse_string_shorter|]. by intros [s k] _.
Qed.

Definition metas_typed (metas : gmap (list Z) TensorMeta) : Prop := map_Forall (fun _ => meta_typed) metas.

Lemma parse_entries_meets fuel metas rest : (length rest <= fuel)%nat -> metas_typed metas ->
  meets metas_typed (parse_entries fuel metas rest).
Proof.
  revert metas rest. induction fuel as [|fuel IH]; intros metas rest Hf Hm.
  { destruct rest; [done|cbn in Hf; lia]. }
  cbn [parse_entries]. destruct (more 125 rest); [|done].
  eapply meets_bind; [apply parse_string_shorter|]. intros [name r] Hr. cbn [snd] in *.
  eapply meets_bind; [apply expect_shorter|]. intros [u r1] Hr1. cbn [snd] in *. pose proof (skip_ws_length r1).
  eapply meets_bind; [apply is_metadata_meets|]. intros [] _.
  { apply IH; [|done]. pose proof (separator_length (skip_object 0 (skip_ws r1))).
    pose proof (skip_object_length 0 (skip_ws r1)). lia. }
  eapply meets_bind; [apply expect_shorter|]. intros [u' r2] Hr2. cbn [snd] in *.
  eapply meets_bind; [apply parse_fields_meets; [lia|]|].
  { split_and!; cbn; [constructor|lia..]. }
  intros [meta r3] [Hr3 Hmeta]. cbn [fst snd] in *.
  eapply meets_bind; [apply expect_shorter|]. intros [u'' r4] Hr4. cbn [snd] in *.
  pose proof (separator_length r4). apply IH; [lia|]. by apply map_Forall_insert_2.
Qed.

(** Every text is parsed or rejected. *)
Lemma parse_header_meets json : meets metas_typed (parse_header_json json).
Proof.
  unfold parse_header_json. eapply meets_bind; [apply expect_shorter|]. intros [u r] _.
  pose proof (skip_ws_length r). apply parse_entries_meets; [lia|]. apply map_Forall_empty.
Qed.

End Json.
