(* ===== verification/SafeTensorsLoad.v ===== *)
(** * Byte order and streams

    [convert_endianness] reverses each component, is its own inverse and
    converts an element wherever the element lies in a buffer; the header size
    is little-endian on every host; a read inside the file gives its bytes. *)

From stdpp Require Import base list numbers list_numbers strings gmap sorting.
From S2P Require Import Prelude Shape DType Tensor TensorViews TensorKernels TensorCopy TensorContiguous SafeTensors SafeTensorsJson.

Module Bytes.
Import Tensor Views Kernels Copying SafeTensors.

(** ** Components *)

(** The widths that occur. *)
Definition width (w : nat) : Prop := w = 2%nat \/ w = 4%nat \/ w = 8%nat.

Lemma byteswap_rev {A} (p : list A) w : width w -> length p = w -> byteswap_in_place p w = rev p.
Proof.
  intros [-> | [-> | ->]] Hl.
  - destruct p as [|a [|b [|c p]]]; done.
  - destruct p as [|a [|b [|c [|d [|e p]]]]]; done.
  - destruct p as [|a [|b [|c [|d [|e [|f [|g [|h [|i p]]]]]]]]]; done.
Qed.

Fixpoint rev_components {A} (n w : nat) (l : list A) : list A :=
  match n with O => l | S n => rev (take w l) ++ rev_components n w (drop w l) end.

Lemma byteswap_components_rev {A} n w (l : list A) : width w -> (n * w <= length l)%nat ->
  byteswap_components n w l = rev_components n w l.
Proof.
  intros Hw. revert l. induction n as [|n IH]; intros l Hl; [done|].
  cbn [byteswap_components rev_components Nat.mul] in *.
  rewrite byteswap_rev; [|done|rewrite length_take; lia]. by rewrite IH by (rewrite length_drop; lia).
Qed.

Lemma length_rev_components {A} n w (l : list A) : (n * w <= length l)%nat -> length (rev_components n w l) = length l.
Proof.
  revert l. induction n as [|n IH]; intros l Hl; [done|]. cbn in *.
  rewrite length_app, length_rev, IH, length_take, length_drop by (rewrite length_drop; lia). lia.
Qed.

Lemma rev_components_app {A} n1 n2 w (l1 l2 : list A) : length l1 = (n1 * w)%nat ->
  rev_components (n1 + n2) w (l1 ++ l2) = rev_components n1 w l1 ++ rev_components n2 w l2.
Proof.
  revert l1. induction n1 as [|n1 IH]; intros l1 Hl; cbn in *; [by destruct l1|].
  rewrite take_app_le, drop_app_le by lia. rewrite IH by (rewrite length_drop; lia). by rewrite app_assoc.
Qed.

Lemma rev_components_involutive {A} n w (l : list A) : length l = (n * w)%nat -> 
  rev_components n w (rev_components n w l) = l.
Proof.
  revert l. induction n as [|n IH]; intros l Hl; [done|]. cbn in *.
  assert (length (rev (take w l)) = w) as Hr by (rewrite length_rev, length_take; lia).
  rewrite take_app_length', drop_app_length' by done. rewrite rev_involutive, IH by (rewrite length_drop; lia).
  apply take_drop.
Qed.

Lemma width_cases d : endian_component_width d <= 1 \/
  (width (Z.to_nat (endian_component_width d)) /\
   exists k, (0 < k)%nat /\ Z.to_nat (dtype_size d) = (k * Z.to_nat (endian_component_width d))%nat).
Proof.
  destruct d; try (left; by vm_compute); right; (split; [vm_compute; unfold width; tauto|]);
    first [by exists 1%nat; split; [lia|vm_compute]|by exists 2%nat; split; [lia|vm_compute]].
Qed.

(** [n] elements' bytes. *)
Definition sized {A} (d : DType) (n : nat) (l : list A) : Prop := length l = (n * Z.to_nat (dtype_size d))%nat.

Lemma rev_components_1 {A} n (l : list A) : (n <= length l)%nat -> rev_components n 1 l = l.
Proof.
  revert l. induction n as [|n IH]; intros l Hl; [done|]. destruct l as [|x l]; cbn in *; [lia|].
  rewrite drop_0. by rewrite IH by lia.
Qed.

(** The conversion on a big-endian host reverses components of [w] bytes, of
    which an element has [k]. *)
Lemma convert_rev d : exists k w, (0 < w)%nat /\ Z.to_nat (dtype_size d) = (k * w)%nat /\
  forall A n (l : list A), sized d n l -> convert_endianness true l d = rev_components (n * k) w l.
Proof.
  unfold convert_endianness, sized. cbn [negb]. pose proof (dtype_size_pos d).
  destruct (width_cases d) as [H1|(Hw & k & Hk & E)].
  - exists (Z.to_nat (dtype_size d)), 1%nat. split_and!; [lia..|]. intros A n l Hl.
    rewrite (proj2 (Z.leb_le _ _)) by done. rewrite rev_components_1 by lia. done.
  - destruct (Z.leb_spec (endian_component_width d) 1) as [H1|H1].
    { exists (Z.to_nat (dtype_size d)), 1%nat. split_and!; [lia..|]. intros A n l Hl.
      rewrite rev_components_1 by lia. done. }
    exists k, (Z.to_nat (endian_component_width d)). split_and!; [lia|done|]. intros A n l Hl.
    rewrite Hl, E, Nat.mul_assoc, Nat.div_mul by lia. apply byteswap_components_rev; [done|]. lia.
Qed.

Lemma length_convert {A} big d n (l : list A) : sized d n l -> length (convert_endianness big l d) = length l.
Proof.
  intros Hl. destruct big; [|done]. destruct (convert_rev d) as (k & w & Hw & E & Hc). rewrite (Hc _ _ _ Hl).
  apply length_rev_components. unfold sized in Hl. rewrite Hl, E. lia.
Qed.

Lemma convert_app {A} big d n1 n2 (l1 l2 : list A) : sized d n1 l1 -> sized d n2 l2 ->
  convert_endianness big (l1 ++ l2) d = convert_endianness big l1 d ++ convert_endianness big l2 d.
Proof.
  intros H1 H2. destruct big; [|done]. destruct (convert_rev d) as (k & w & Hw & E & Hc).
  assert (sized d (n1 + n2) (l1 ++ l2)) as H by (unfold sized in *; rewrite length_app; lia).
  rewrite (Hc _ _ _ H), (Hc _ _ _ H1), (Hc _ _ _ H2), Nat.mul_add_distr_r.
  apply rev_components_app. unfold sized in H1. rewrite H1, E. lia.
Qed.

Lemma convert_involutive {A} big d n (l : list A) : sized d n l ->
  convert_endianness big (convert_endianness big l d) d = l.
Proof.
  intros Hl. destruct big; [|done]. pose proof (length_convert true d n l Hl) as Hlen.
  assert (sized d n (convert_endianness true l d)) as Hl' by (unfold sized in *; lia).
  destruct (convert_rev d) as (k & w & Hw & E & Hc). rewrite (Hc _ _ _ Hl'), (Hc _ _ _ Hl).
  apply rev_components_involutive. unfold sized in Hl. rewrite Hl, E. lia.
Qed.

(** The conversion of a buffer converts its elements. *)
Lemma cell_convert big d n (l : Storage) i : sized d n l -> 0 <= i < Z.of_nat n ->
  cell (dtype_size d) (convert_endianness big l d) i = convert_endianness big (cell (dtype_size d) l i) d.
Proof.
  intros Hl Hi. unfold sized in Hl. set (e := Z.to_nat (dtype_size d)) in *. unfold cell. fold e.
  pose proof (dtype_size_pos d). assert (Z.to_nat (i * dtype_size d) = (Z.to_nat i * e)%nat) as -> by (unfold e; nia).
  assert (Z.to_nat i < n)%nat as Hi' by lia. generalize dependent (Z.to_nat i). intros j Hj.
  assert (j * e + e <= n * e)%nat as Hn by nia.
  assert (l = take (j * e) l ++ take e (drop (j * e) l) ++ drop e (drop (j * e) l)) as El by by rewrite !take_drop.
  assert (sized d j (take (j * e) l)) as H1 by (unfold sized; rewrite length_take; fold e; lia).
  assert (sized d 1 (take e (drop (j * e) l))) as H2 by (unfold sized; rewrite length_take, length_drop; fold e; lia).
  assert (sized d (n - j - 1) (drop e (drop (j * e) l))) as H3.
  { unfold sized. rewrite !length_drop. fold e. rewrite !Nat.mul_sub_distr_r. lia. }
  assert (sized d (1 + (n - j - 1)) (take e (drop (j * e) l) ++ drop e (drop (j * e) l))) as H23.
  { unfold sized in *. rewrite length_app. lia. }
  rewrite El at 1. rewrite (convert_app big d _ _ _ _ H1 H23), (convert_app big d _ _ _ _ H2 H3).
  pose proof (length_convert big d _ _ H1) as L1. pose proof (length_convert big d _ _ H2) as L2.
  rewrite drop_app_length' by (rewrite L1, H1; done). rewrite take_app_length'; [done|]. rewrite L2, H2. lia.
Qed.

(** ** The header size *)

Definition byte (z : Z) : Prop := 0 <= z < 2 ^ 8.
#[export] Instance byte_dec z : Decision (byte z).
Proof. unfold byte. apply _. Defined.

Lemma le_of_bytes bs : length bs = 8%nat -> Forall byte bs -> Z_to_little_endian 8 8 (little_endian_to_Z 8 bs) = bs.
Proof. intros Hl Hb. apply Z_to_little_endian_to_Z; [by rewrite Hl|lia|done]. Qed.

Lemma le_bytes v : length (Z_to_little_endian 8 8 v) = 8%nat /\ Forall byte (Z_to_little_endian 8 8 v).
Proof.
  split; [|apply Z_to_little_endian_bound; lia]. apply Nat2Z.inj. by rewrite length_Z_to_little_endian.
Qed.

Lemma size_read big bs : length bs = 8%nat -> Forall byte bs ->
  u64_host_le big (u64_of_memory big bs) = little_endian_to_Z 8 bs.
Proof.
  intros Hl Hb. destruct big; [|done]. unfold u64_host_le, u64_of_memory, bswap64.
  rewrite le_of_bytes; [by rewrite rev_involutive|by rewrite length_rev|]. apply Forall_rev, Hb.
Qed.

Lemma size_written big v : 0 <= v < 2 ^ 64 -> memory_of_u64 big (u64_host_le big v) = Z_to_little_endian 8 8 v.
Proof.
  intros Hv. destruct big; [|done]. unfold u64_host_le, memory_of_u64, bswap64. destruct (le_bytes v) as [Hl Hb].
  rewrite le_of_bytes; [by rewrite rev_involutive|by rewrite length_rev|]. apply Forall_rev, Hb.
Qed.

Lemma size_value v : 0 <= v < 2 ^ 64 -> little_endian_to_Z 8 (Z_to_little_endian 8 8 v) = v.
Proof. intros Hv. rewrite little_endian_to_Z_to_little_endian by lia. by apply Z.mod_small. Qed.

Lemma size_bound bs : length bs = 8%nat -> Forall byte bs -> 0 <= little_endian_to_Z 8 bs < 2 ^ 64.
Proof. intros Hl Hb. pose proof (little_endian_to_Z_bound 8 bs ltac:(lia) Hb) as H. by rewrite Hl in H. Qed.

(** ** Streams *)

(** [n] bytes of a file. *)
Definition slice {A} (bs : list A) (off n : Z) : list A := take (Z.to_nat n) (drop (Z.to_nat off) bs).

Lemma lenZ_slice {A} (bs : list A) off n : 0 <= off -> 0 <= n -> off + n <= lenZ bs -> lenZ (slice bs off n) = n.
Proof. intros. unfold slice, lenZ in *. rewrite length_take, length_drop. lia. Qed.

Lemma slice_app_l {A} (a b : list A) n : n = lenZ a -> slice (a ++ b) 0 n = a.
Proof. intros ->. unfold slice, lenZ. rewrite Nat2Z.id, drop_0. by apply take_app_length. Qed.

Lemma slice_mid {A} (a b c : list A) off n : off = lenZ a -> n = lenZ b -> slice (a ++ b ++ c) off n = b.
Proof. intros -> ->. unfold slice, lenZ. rewrite !Nat2Z.id, drop_app_length. by apply take_app_length. Qed.

Lemma read_inside bs p n : 0 <= p -> 0 <= n -> p + n <= lenZ bs ->
  read n (mkStream bs p true) = (slice bs p n, mkStream bs (p + n) true).
Proof.
  intros Hp Hn Hb. unfold read. cbn [good pos contents]. fold (slice bs p n). rewrite lenZ_slice by done.
  by rewrite Z.eqb_refl.
Qed.

Lemma stored_all {A} (buf bs : list A) : length bs = length buf -> stored buf bs = bs.
Proof. intros E. unfold stored. rewrite drop_ge by lia. apply app_nil_r. Qed.

End Bytes.

(** ** Loading a SafeTensors file

    On any file [load] gives tensors or throws; the tensors it gives hold the
    bytes of regions that partition the data section. *)

Module Loading.
Import Tensor Views Kernels Copying Contig SafeTensors Json Bytes.

(** ** Regions *)

Definition region (meta : TensorMeta) : Z * Z := (data_start meta, data_end meta).
Definition inside (q : Z) (r : Z * Z) : Prop := r.1 <= q < r.2.
#[export] Instance inside_dec q r : Decision (inside q r).
Proof. unfold inside. apply _. Defined.

Definition next_region (expected_start : Z) (r : Z * Z) : result Z :=
  let* _ := throw_if (negb (r.1 =? expected_start)) err_gap in Ok r.2.

Lemma regions_chain rs s e : rfoldM next_region rs s = Ok e -> Forall (fun r => r.1 <= r.2) rs ->
  s <= e /\ Forall (fun r => s <= r.1 /\ r.2 <= e) rs /\
  forall q, length (filter (inside q) rs) = if decide (s <= q < e) then 1%nat else 0%nat.
Proof.
  intros H Hr. revert s H. induction Hr as [|[a b] rs Hab Hr IH]; intros s H; cbn [rfoldM] in H.
  { injection H as ->. split_and!; [done|constructor|]. intros q. rewrite decide_False by lia. done. }
  unfold next_region at 1 in H. cbn [fst snd] in *. destruct (Z.eqb_spec a s) as [->|]; [|done]. cbn in H.
  destruct (IH _ H) as (He & Hf & Hq). cbn [fst snd] in Hab. split_and!; [lia| |].
  - constructor; [cbn; lia|]. eapply Forall_impl; [exact Hf|]. cbn. intros r ?. lia.
  - intros q. destruct (decide (inside q (s, b))) as [Hi|Hi]; [rewrite filter_cons_True by done|rewrite filter_cons_False by done];
      unfold inside in Hi; cbn [fst snd length] in *; rewrite Hq; repeat case_decide; lia.
Qed.

Lemma filter_map_length {A B} (g : A -> B) (P : B -> Prop) `{!forall x, Decision (P x)} l :
  length (filter P (map g l)) = length (filter (fun a => P (g a)) l).
Proof. induction l as [|a l IH]; [done|]. cbn [map].
  destruct (decide (P (g a))); [rewrite !filter_cons_True by done|rewrite !filter_cons_False by done]; cbn; by rewrite IH.
Qed.

(** The declared regions partition the data section. *)
Record partitions (metas : list (list Z * TensorMeta)) (len : Z) : Prop := mkPartitions {
  pt_order : Forall (fun p => data_start p.2 <= data_end p.2) metas;
  pt_inside : Forall (fun p => 0 <= data_start p.2 /\ data_end p.2 <= len) metas;
  pt_one q : 0 <= q < len -> length (filter (fun p => inside q (region p.2)) metas) = 1%nat
}.

Definition declare_region (p : list Z * TensorMeta) : result (Z * Z) :=
  let* _ := throw_if (data_end p.2 <? data_start p.2) err_order in Ok (data_start p.2, data_end p.2).

Lemma declare_regions metas regions : rmapM declare_region metas = Ok regions ->
  regions = map (fun p => region p.2) metas /\ Forall (fun p => data_start p.2 <= data_end p.2) metas.
Proof.
  intros H%rmapM_Ok. induction H as [|p r metas regions Hp H [-> IH]]; [by split|].
  unfold declare_region in Hp. inv_ok. bool_to_prop. subst. split; [done|]. by constructor.
Qed.

Lemma sorted_inside q (rs : list (Z * Z)) : length (filter (inside q) (merge_sort by_region rs)) = length (filter (inside q) rs).
Proof. by rewrite merge_sort_Permutation. Qed.

Lemma check_regions_meets metas len : meets (fun _ => partitions metas len) (check_regions metas len).
Proof.
  unfold check_regions. fold declare_region.
  destruct (rmapM _ metas) as [regions|e] eqn:E; cbn [rbind]; [|].
  2: { enough (meets (fun _ : list (Z * Z) => True) (rmapM declare_region metas)) as H by by rewrite E in H.
       eapply meets_weaken; [apply (meets_rmapM (fun _ => True))|done]. intros p _. unfold declare_region. by destruct (_ <? _). }
  apply declare_regions in E as [-> Ho].
  assert (Forall (fun r => r.1 <= r.2) (merge_sort by_region (map (fun p => region p.2) metas))) as Hr.
  { rewrite merge_sort_Permutation. apply Forall_map. exact Ho. }
  fold next_region. destruct (rfoldM _ _ 0) as [e|e] eqn:Er; cbn [rbind].
  2: { enough (meets (fun _ : Z => True) (rfoldM next_region (merge_sort by_region (map (fun p => region p.2) metas)) 0)) as H
         by by rewrite Er in H.
       apply (meets_rfoldM (fun _ _ => True)); [done|]. intros seen r s _ _. unfold next_region. by destruct (negb _). }
  destruct (regions_chain _ _ _ Er Hr) as (He & Hin & Hone).
  assert (e = len -> partitions metas len) as Hp.
  { intros ->. split; [done| |].
    - rewrite merge_sort_Permutation in Hin. apply Forall_map in Hin. exact Hin.
    - intros q Hq. specialize (Hone q). rewrite sorted_inside, filter_map_length, decide_True in Hone by done. exact Hone. }
  destruct metas as [|p metas]; cbn [map].
  - destruct (Z.eqb_spec len 0) as [->|]; [|done]. cbn. apply Hp. cbn in Er. by injection Er as <-.
  - destruct (Z.eqb_spec e len); [|done]. by apply Hp.
Qed.

(** ** Sizes *)

Lemma count_elements_meets dims :
  meets (fun n => n = prodZ dims /\ Forall (fun d => 0 <= d) dims /\ n <= INT64_MAX) (count_elements dims).
Proof.
  unfold count_elements. apply (meets_rfoldM (fun seen n => n = prodZ seen /\ Forall (fun d => 0 <= d) seen /\ n <= INT64_MAX)).
  { by vm_compute. }
  intros seen d n _ (-> & Hs & Hn). apply meets_throw_if; [done|]. intros Hd. bool_to_prop.
  pose proof (prodZ_nonneg _ Hs). rewrite checked_mul_overflow_spec by (unfold INT64_MAX in *; lia).
  destruct (Z.leb_spec (prodZ seen * d) INT64_MAX); [|done]. cbn. rewrite prodZ_app. cbn.
  split_and!; [lia|apply Forall_app; split; [done|by constructor]|lia].
Qed.

Lemma compute_strides_meets sh : meets (fun _ => True) (TShape.compute_strides sh).
Proof.
  induction sh as [|d [|d1 ds] IH]; [done..|]. rewrite TShape.compute_strides_cons2.
  eapply meets_bind; [exact IH|]. intros ss _. eapply (meets_bind (fun _ => True)); [|done].
  unfold checked_mul. by destruct (in_i64 _).
Qed.

Lemma numel_of_meets sh : Forall (fun d => 0 <= d) sh -> i64s sh -> meets (fun _ => True) (numel_of size_overflow sh).
Proof.
  intros Hsh Hi. eapply meets_weaken; [apply (meets_rfoldM (fun _ n => 0 <= n <= INT64_MAX))|done].
  { by vm_compute. }
  intros _ d n Hd%list_elem_of_In Hn. rewrite Forall_forall in Hsh. specialize (Hsh d Hd).
  unfold i64s in Hi. rewrite Forall_forall in Hi. specialize (Hi d Hd).
  apply meets_throw_if; [done|]. intros Hg. destruct (safe_abs_spec n) as [En _]; [unfold INT64_MIN in *; lia|].
  destruct (safe_abs_spec d Hi) as [Ed _]. rewrite En, Ed, !Z.abs_eq in Hg by lia.
  enough (0 <= n * d <= INT64_MAX) by (rewrite i64_in by (unfold INT64_MIN in *; lia); done).
  destruct (Z.eqb_spec d 0) as [->|Hne]; [lia|]. cbn [negb andb] in Hg.
  rewrite Z.gtb_ltb in Hg. apply Z.ltb_ge in Hg. rewrite Z.quot_div_nonneg in Hg by (unfold INT64_MAX; lia).
  pose proof (Z.mul_div_le INT64_MAX d ltac:(lia)). nia.
Qed.

Section Loading.
Context `{!Backend}.

Lemma new_tensor_meets z sh dt m : Forall (fun d => 0 <= d) sh -> i64s sh -> meets (fun _ => True) (new_tensor z sh dt m).
Proof.
  intros Hsh Hi. unfold new_tensor. apply meets_throw_if; [done|]. intros _.
  eapply meets_bind; [apply compute_strides_meets|]. intros st _.
  eapply meets_bind; [by apply numel_of_meets|]. intros n _. cbv zeta. by repeat (apply meets_throw_if; [done|]; intros _).
Qed.

(** ** One tensor *)

Variables (big : bool) (bs : list Z) (start len : Z).
Hypotheses (Hstart : 0 <= start) (Hlen : 0 <= len) (Hbs : start + len = lenZ bs) (Hmax : lenZ bs <= INT64_MAX).

(** The bytes of a tensor in the file. *)
Definition region_bytes (meta : TensorMeta) : list Z := slice bs (start + data_start meta) (data_end meta - data_start meta).

(** [t] is the tensor that [meta] describes, with the bytes of its region. *)
Record loaded (m : Mem) (t : TensorImpl) (meta : TensorMeta) : Prop := mkLoaded {
  ld_sound : sound m t;
  ld_shape : shape t = m_shape meta;
  ld_dtype : dtype t = m_dtype meta;
  ld_strides : strides t = TShape.suffix_prods (m_shape meta);
  ld_offset : offset t = 0;
  ld_size : data_end meta - data_start meta = prodZ (m_shape meta) * dtype_size (m_dtype meta);
  ld_bytes : m !! storage t = Some (convert_endianness big (map Some (region_bytes meta)) (m_dtype meta))
}.

(** The stream between two tensors. *)
Definition intact (f : ifstream) : Prop := contents f = bs /\ good f = true.

Lemma region_sized meta : 0 <= data_start meta -> data_start meta <= data_end meta -> data_end meta <= len ->
  data_end meta - data_start meta = prodZ (m_shape meta) * dtype_size (m_dtype meta) -> 0 <= prodZ (m_shape meta) ->
  sized (m_dtype meta) (Z.to_nat (prodZ (m_shape meta))) (map (@Some Z) (region_bytes meta)) /\
  lenZ (region_bytes meta) = data_end meta - data_start meta.
Proof.
  intros Hs Hse He Hsz Hp. pose proof (dtype_size_pos (m_dtype meta)).
  assert (lenZ (region_bytes meta) = data_end meta - data_start meta) as Hl by (apply lenZ_slice; lia).
  split; [|done]. unfold sized, lenZ in *. rewrite length_map. nia.
Qed.

(** Allocation, and the read into the new storage. *)
Lemma read_new_tensor meta m f t m1 : 0 <= data_start meta -> data_start meta <= data_end meta -> data_end meta <= len ->
  data_end meta - data_start meta = prodZ (m_shape meta) * dtype_size (m_dtype meta) -> intact f ->
  new_tensor true (m_shape meta) (m_dtype meta) m = Ok (t, m1) -> exists m' f',
  read_tensor big t (data_end meta - data_start meta) (seekg (sgn 64 (wrap 64 (start + data_start meta))) f) m1 = Ok (m', f') /\
  loaded m' t meta /\ intact f' /\ extends m m' /\ (fitting m -> fitting m').
Proof.
  intros Hs Hse He Hsz [Hc Hg] Hnew. pose proof (new_tensor_fitting _ _ _ _ _ _ Hnew) as Hfit.
  apply new_tensor_inv in Hnew as (Hsh & _ & _ & Hb & -> & ->). pose proof (prodZ_nonneg _ Hsh) as Hp.
  destruct (region_sized meta Hs Hse He Hsz Hp) as [Hsd Hl]. pose proof (dtype_size_pos (m_dtype meta)) as Hd.
  set (n := prodZ (m_shape meta) * dtype_size (m_dtype meta)) in *. assert (0 <= n) by (unfold n; nia).
  unfold INT64_MAX in *. rewrite wrap_small, sgn_small by (unfold lenZ in *; lia).
  unfold read_tensor, data_ptr. cbn [offset storage dtype].
  assert (checked_mul 0 (dtype_size (m_dtype meta)) = Ok 0) as -> by by apply checked_mul_Ok.
  cbn [rbind]. unfold bytes_at. rewrite list_lookup_middle by done. cbn [from_option id].
  set (buf := replicate (Z.to_nat n) _). cbv zeta.
  assert (lenZ buf = n) as Hbuf by (unfold buf, lenZ; rewrite length_replicate; lia).
  rewrite Hsz, Hbuf, (proj2 (Z.leb_le 0 n)), (proj2 (Z.leb_le (0 + n) n)) by lia.
  change (0 <=? 0) with true. cbn [andb].
  rewrite sgn_small by lia. destruct f as [fc fp fg]. cbn [contents good] in Hc, Hg. subst fc fg. cbn [rbind seekg good contents].
  assert (0 <= start + data_start meta) by lia.
  rewrite read_inside by (unfold lenZ in *; lia). cbn [rbind].
  assert (slice bs (start + data_start meta) n = region_bytes meta) as -> by (unfold region_bytes; by rewrite Hsz).
  assert (take (Z.to_nat n) (drop (Z.to_nat 0) buf) = buf) as ->.
  { cbn. rewrite drop_0. apply take_ge. unfold lenZ in Hbuf. lia. }
  cbn [rbind]. rewrite stored_all by (rewrite length_map; unfold lenZ in *; lia).
  eexists _, _. split; [reflexivity|].
  set (data := convert_endianness big (map Some (region_bytes meta)) (m_dtype meta)).
  assert (lenZ data = n) as Hdata.
  { unfold data, lenZ. rewrite (length_convert _ _ _ _ Hsd), length_map. unfold lenZ in Hl. lia. }
  assert (<[length m := take (Z.to_nat 0) buf ++ data ++ drop (Z.to_nat (0 + n)) buf]> (m ++ [buf]) = m ++ [data]) as ->.
  { rewrite insert_app_r_alt, Nat.sub_diag by lia. cbn [Z.to_nat take app].
    rewrite drop_ge, app_nil_r by (unfold lenZ in Hbuf; lia). done. }
  split_and!.
  - split; cbn; try done; [|by apply list_lookup_middle]. split; [split; cbn; [apply length_suffix_prods|done|done]|].
    intros idx Hv. unfold addr, storage_elements, size_bytes. cbn in *. rewrite list_lookup_middle by done. cbn.
    rewrite Hdata. unfold n. rewrite Z.quot_mul by lia. by apply ravel_bound.
  - split; [done|]. done.
  - by exists [data].
  - intros Hf. apply Forall_app. split; [done|]. constructor; [|constructor]. unfold INT64_MAX. lia.
Qed.

(** What [load_tensor] leaves. *)
Definition one_loaded (m : Mem) (meta : TensorMeta) (r : TensorImpl * Mem * ifstream) : Prop :=
  loaded r.1.2 r.1.1 meta /\ intact r.2 /\ extends m r.1.2 /\ (fitting m -> fitting r.1.2).

Lemma load_tensor_meets meta m f : meta_typed meta -> intact f -> meets (one_loaded m meta) (load_tensor big start len meta m f).
Proof.
  intros (Hi & Hs & _) Hf. unfold load_tensor. apply meets_throw_if; [done|]. intros Hse. cbv zeta.
  apply meets_throw_if; [done|]. intros He. bool_to_prop. eapply meets_bind; [apply count_elements_meets|].
  intros n (-> & Hsh & Hn). pose proof (prodZ_nonneg _ Hsh). pose proof (dtype_size_pos (m_dtype meta)).
  rewrite checked_mul_overflow_spec by (unfold UINT64_MAX; lia). destruct (_ <=? UINT64_MAX); [|done].
  apply meets_throw_if; [done|]. intros Hsz. bool_to_prop.
  pose proof (new_tensor_meets true _ (m_dtype meta) m Hsh Hi) as Hnew.
  destruct (new_tensor true (m_shape meta) (m_dtype meta) m) as [[t m1]|e] eqn:E; [|done]. cbn [rbind].
  destruct (read_new_tensor meta m f t m1) as (m' & f' & -> & Hl & Hf' & Hx & Hfit); [lia..|done|done|]. cbn. by split_and!.
Qed.

Lemma count_elements_numel sh n : Forall (fun d => 0 <= d) sh -> numel_of size_overflow sh = Ok n -> count_elements sh = Ok n.
Proof.
  intros Hsh. unfold numel_of, count_elements. assert (0 <= 1) as H1 by lia. revert H1. generalize 1. revert n.
  induction Hsh as [|d sh Hd Hsh IH]; intros n r Hr Hrun; cbn [rfoldM] in *; [done|].
  destruct (throw_if _ _); cbn [rbind] in Hrun; [|done]. destruct (i64 (r * d)) as [x|] eqn:E; cbn [rbind] in Hrun; [|done].
  apply i64_Ok in E as [-> Hb]. cbn in Hd. rewrite (proj2 (Z.ltb_ge d 0)) by done. cbn [throw_if rbind].
  rewrite checked_mul_overflow_spec by (unfold INT64_MAX; lia). rewrite (proj2 (Z.leb_le _ _)) by lia. cbn [rbind].
  apply IH; [nia|done].
Qed.

(** The conditions under which a tensor is loaded. *)
Lemma load_tensor_runs meta m f : intact f -> 0 <= data_start meta -> data_end meta <= len ->
  data_end meta - data_start meta = prodZ (m_shape meta) * dtype_size (m_dtype meta) ->
  is_ok (new_tensor true (m_shape meta) (m_dtype meta) m) = true ->
  exists r, load_tensor big start len meta m f = Ok r /\ one_loaded m meta r.
Proof.
  intros Hf Hs He Hsz [[t m1] Hnew]%is_ok_Ok. pose proof (new_tensor_inv _ _ _ _ _ _ Hnew) as (Hsh & _ & En & Hb & _).
  pose proof (prodZ_nonneg _ Hsh). pose proof (dtype_size_pos (m_dtype meta)). assert (data_start meta <= data_end meta) by nia.
  unfold load_tensor. rewrite !throw_if_false by (bool_to_prop; lia). cbn [rbind].
  rewrite (count_elements_numel _ _ Hsh En). cbn [rbind].
  rewrite checked_mul_overflow_spec by (unfold UINT64_MAX; lia). rewrite (proj2 (Z.leb_le _ _)) by (unfold UINT64_MAX, INT64_MAX in *; lia).
  rewrite Hsz, Z.eqb_refl, Hnew. cbn [negb throw_if rbind].
  destruct (read_new_tensor meta m f t m1) as (m' & f' & Hrun & Hl & Hf' & Hx & Hfit); [done..|].
  rewrite Hsz in Hrun. rewrite Hrun. eexists. split; [reflexivity|]. by split_and!.
Qed.

(** ** All tensors *)

Lemma loaded_extends m m' t meta : extends m m' -> loaded m t meta -> loaded m' t meta.
Proof.
  intros Hx [? ? ? ? ? ? Hb]. split; try done; [by eapply sound_extends|]. destruct Hx as [k ->].
  rewrite lookup_app_l; [done|]. by eapply lookup_lt_Some.
Qed.

Definition load_next : gmap (list Z) TensorImpl * Mem * ifstream -> list Z * TensorMeta ->
    result (gmap (list Z) TensorImpl * Mem * ifstream) := fun '(res, m, f) p =>
  let* '(t, m, f) := load_tensor big start len p.2 m f in Ok (<[p.1 := t]> res, m, f).

(** The tensors of the entries seen. *)
Record all_loaded (m : Mem) (seen : list (list Z * TensorMeta)) (s : gmap (list Z) TensorImpl * Mem * ifstream) : Prop := mkAll {
  al_intact : intact s.2;
  al_extends : extends m s.1.2;
  al_fitting : fitting m -> fitting s.1.2;
  al_loaded name t : s.1.1 !! name = Some t -> exists meta, (name, meta) ∈ seen /\ loaded s.1.2 t meta;
  al_names p : p ∈ seen -> is_Some (s.1.1 !! p.1)
}.

Lemma all_loaded_step m seen res m1 f p r : all_loaded m seen (res, m1, f) -> one_loaded m1 p.2 r ->
  all_loaded m (seen ++ [p]) (<[p.1 := r.1.1]> res, r.1.2, r.2).
Proof.
  intros [Hi Hx Hf Hl Hn] (Hl' & Hi' & Hx' & Hf'). cbn in *. split; cbn; [done|by eapply extends_trans|auto| |].
  - intros name t Ht. destruct (decide (name = p.1)) as [->|Hne].
    + rewrite lookup_insert_eq in Ht. injection Ht as <-. exists p.2. split; [|done]. apply elem_of_app. right.
      apply list_elem_of_singleton. by destruct p.
    + rewrite lookup_insert_ne in Ht by done. destruct (Hl _ _ Ht) as (meta & Hin & Hm). exists meta.
      split; [apply elem_of_app; by left|by eapply loaded_extends].
  - intros q [Hq|Hq%list_elem_of_singleton]%elem_of_app; [|subst; rewrite lookup_insert_eq; eauto].
    destruct (decide (q.1 = p.1)) as [->|]; [rewrite lookup_insert_eq; eauto|rewrite lookup_insert_ne by done; auto].
Qed.

Lemma all_loaded_nil m f : intact f -> all_loaded m [] (∅, m, f).
Proof.
  intros Hf. split; cbn; [done|apply extends_refl|done|intros name t Ht; by rewrite lookup_empty in Ht|].
  intros p Hp. by apply elem_of_nil in Hp.
Qed.

Lemma load_all_meets metas m f : Forall (fun p => meta_typed p.2) metas -> intact f ->
  meets (all_loaded m metas) (rfoldM load_next metas (∅, m, f)).
Proof.
  intros Hm Hf. apply meets_rfoldM; [by apply all_loaded_nil|].
  intros seen p [[res m1] f1] Hp%list_elem_of_In Hs. rewrite Forall_forall in Hm. specialize (Hm p Hp). cbn.
  eapply meets_bind; [apply load_tensor_meets; [done|apply Hs]|]. intros [[t m2] f2] Hr.
  by apply (all_loaded_step _ _ _ _ _ _ _ Hs Hr).
Qed.

Definition loadable (m : Mem) (meta : TensorMeta) : Prop :=
  0 <= data_start meta /\ data_end meta <= len /\
  data_end meta - data_start meta = prodZ (m_shape meta) * dtype_size (m_dtype meta) /\
  allocatable m (m_shape meta) (m_dtype meta).

Lemma load_all_runs metas m f : Forall (fun p => loadable m p.2) metas -> intact f ->
  exists s, rfoldM load_next metas (∅, m, f) = Ok s /\ all_loaded m metas s.
Proof.
  intros Hm Hf. apply rfoldM_runs; [by apply all_loaded_nil|].
  intros seen p [[res m1] f1] Hp%list_elem_of_In Hs. rewrite Forall_forall in Hm.
  destruct (Hm p Hp) as (H0 & He & Hsz & Ha). cbn.
  destruct (load_tensor_runs p.2 m1 f1) as ([[t m2] f2] & -> & Hr); [apply Hs|done..|apply Ha, Hs|]. cbn.
  eexists. split; [reflexivity|]. by apply (all_loaded_step _ _ _ _ _ _ _ Hs Hr).
Qed.

End Loading.

(** ** Files *)

(** The header size a file states, its header and its data section. *)
Definition stated_size (bs : list Z) : Z := little_endian_to_Z 8 (take 8 bs).
Definition header_of (bs : list Z) : list Z := slice bs 8 (stated_size bs).
Definition section_start (bs : list Z) : Z := 8 + stated_size bs.
Definition section_len (bs : list Z) : Z := lenZ bs - section_start bs.

(** The sizes add up. *)
Definition well_sized (bs : list Z) : Prop := 8 <= lenZ bs /\ stated_size bs <= MAX_HEADER /\ 0 <= section_len bs.

Lemma stated_size_bound bs : Forall byte (take 8 bs) -> 8 <= lenZ bs -> 0 <= stated_size bs < 2 ^ 64.
Proof. intros Hb Hl. apply size_bound; [rewrite length_take; unfold lenZ in Hl; lia|done]. Qed.

(** The header is read if and only if the sizes add up. *)
Lemma read_header_spec big bs : Forall byte (take 8 bs) ->
  (well_sized bs -> read_header big (mkStream bs 0 true) = Ok (header_of bs, mkStream bs (section_start bs) true)) /\
  (~ well_sized bs -> exists w, read_header big (mkStream bs 0 true) = Err (RuntimeError w)).
Proof.
  intros Hb. unfold read_header, well_sized, section_len, section_start. cbn [contents].
  destruct (Z.ltb_spec (lenZ bs) 8) as [H8|H8]; cbn [throw_if rbind]; [split; [lia|eauto]|].
  rewrite read_inside by lia. change (0 + 8) with 8. cbv iota beta.
  assert (slice bs 0 8 = take 8 bs) as -> by (unfold slice; cbn; by rewrite drop_0).
  pose proof (stated_size_bound bs Hb H8) as Hs.
  rewrite stored_all by (rewrite length_take; unfold zeros, lenZ in *; rewrite length_replicate; lia).
  rewrite size_read by (rewrite ?length_take; unfold lenZ in H8; lia || done).
  fold (stated_size bs). destruct (Z.gtb_spec (stated_size bs) MAX_HEADER) as [Hm|Hm]; cbn [throw_if rbind].
  { split; [lia|eauto]. }
  destruct (Z.ltb_spec (lenZ bs) (8 + stated_size bs)) as [Ht|Ht]; cbn [throw_if rbind]; [split; [lia|eauto]|].
  split; [|intros Hno; exfalso; apply Hno; lia]. intros _. rewrite read_inside by lia.
  rewrite stored_all; [done|]. unfold zeros. rewrite length_replicate.
  pose proof (lenZ_slice bs 8 (stated_size bs)) as Hl. unfold lenZ in *. lia.
Qed.

Section Files.
Context `{!Backend, !Omp, !Hashing}.
Variable big : bool.

(** The tensors that [load] gives for a file. *)
Record tensors_of (bs : list Z) (metas : gmap (list Z) TensorMeta) (m : Mem) (res : gmap (list Z) TensorImpl) (m' : Mem)
    : Prop := mkTensorsOf {
  to_extends : extends m m';
  to_fitting : fitting m -> fitting m';
  to_names name : is_Some (res !! name) <-> is_Some (metas !! name);
  to_loaded name t : res !! name = Some t -> exists meta, metas !! name = Some meta /\
    loaded big bs (section_start bs) m' t meta
}.

Lemma in_iteration {A} (m : gmap (list Z) A) name a : (name, a) ∈ iteration m <-> m !! name = Some a.
Proof. by rewrite iteration_perm, elem_of_map_to_list. Qed.

Lemma all_loaded_tensors (bs : list Z) (metas : gmap (list Z) TensorMeta) m res m' f :
  all_loaded big bs (section_start bs) m (iteration metas) (res, m', f) -> tensors_of bs metas m res m'.
Proof.
  intros [_ Hx Hf Hl Hn]. cbn in *. split; [done..| |].
  - intros name. split.
    + intros [t Ht]. destruct (Hl _ _ Ht) as (meta & Hin%in_iteration & _). eauto.
    + intros [meta Hm%in_iteration]. by apply (Hn (name, meta)).
  - intros name t Ht. destruct (Hl _ _ Ht) as (meta & Hin%in_iteration & Hm). eauto.
Qed.

Lemma typed_iteration metas : metas_typed metas -> Forall (fun p => meta_typed p.2) (iteration metas).
Proof. intros H'. apply Forall_forall. intros [name meta] Hin%in_iteration. by apply (H' name). Qed.

Lemma section_len_code bs : 0 <= section_len bs ->
  (if lenZ bs >=? section_start bs then lenZ bs - section_start bs else 0) = section_len bs.
Proof. unfold section_len. rewrite Z.geb_leb. intros. by rewrite (proj2 (Z.leb_le _ _)) by lia. Qed.

Lemma header_length bs : Forall byte (take 8 bs) -> well_sized bs -> 8 + lenZ (header_of bs) = section_start bs.
Proof.
  intros Hb (H8 & _ & Hs). pose proof (stated_size_bound bs Hb H8). unfold header_of, section_len, section_start in *.
  rewrite lenZ_slice by lia. done.
Qed.

(** What a call of [load] on any file of bytes gives. *)
Lemma load_meets bs m : Forall byte (take 8 bs) -> lenZ bs <= INT64_MAX ->
  meets (fun r => well_sized bs /\ exists metas, parse_header_json (header_of bs) = Ok metas /\
    partitions (iteration metas) (section_len bs) /\ tensors_of bs metas m r.1 r.2) (load big (Some bs) m).
Proof.
  intros Hb Hmax. unfold load. destruct (read_header_spec big bs Hb) as [Hok Herr].
  destruct (decide (8 <= lenZ bs /\ stated_size bs <= MAX_HEADER /\ 0 <= section_len bs)) as [Hw|Hno].
  2: { by destruct (Herr Hno) as [w ->]. }
  rewrite (Hok Hw). cbn [rbind]. pose proof (parse_header_meets (header_of bs)) as Hp.
  destruct (parse_header_json (header_of bs)) as [metas|e]; [|done]. cbn [meets rbind] in *.
  rewrite header_length, section_len_code by (done || apply Hw).
  eapply meets_bind; [apply check_regions_meets|]. intros u Hpart. cbv beta in Hpart. cbv zeta.
  fold (load_next big (section_start bs) (section_len bs)).
  pose proof (stated_size_bound bs Hb (proj1 Hw)). destruct Hw as (H8 & Hm & Hs).
  eapply meets_bind; [apply (load_all_meets big bs (section_start bs) (section_len bs));
    solve [done|by apply typed_iteration|unfold section_len, section_start; lia]|].
  intros [[res m'] f] Hall. cbn. split; [done|]. exists metas. split_and!; [done..|]. by apply all_loaded_tensors in Hall.
Qed.

End Files.

End Loading.
