(* ===== verification/SafeTensorsSave.v ===== *)
(** * Saving to a SafeTensors file

    The tensors are written in the order of their names, whatever the order of
    the hash map; the file is the header size, the header and the packed
    elements of the tensors, each at the offsets its entry states. *)

From stdpp Require Import base list numbers list_numbers strings gmap sorting.
From S2P Require Import Prelude MapSums Shape DType Tensor TensorViews TensorKernels TensorCopy TensorContiguous SafeTensors SafeTensorsJson SafeTensorsLoad.

Module Saving.
Import Sums Tensor Views Kernels Copying Contig SafeTensors Json Bytes.

(** ** The order of names *)

Definition str_le (a b : list Z) : Prop := str_lt b a = false.

Lemma str_lt_asym a b : str_lt a b = true -> str_lt b a = false.
Proof.
  revert b. induction a as [|x a IH]; intros [|y b]; cbn; try done.
  destruct (Z.ltb_spec x y), (Z.ltb_spec y x), (Z.eqb_spec x y), (Z.eqb_spec y x); cbn; try done; try lia. apply IH.
Qed.

#[export] Instance str_le_antisym : AntiSymm (=) str_le.
Proof.
  unfold str_le. intros a. induction a as [|x a IH]; intros [|y b]; cbn; try done.
  destruct (Z.ltb_spec x y), (Z.ltb_spec y x), (Z.eqb_spec x y), (Z.eqb_spec y x); cbn; try done; try lia.
  subst. intros. f_equal. by apply IH.
Qed.

#[export] Instance str_le_trans : Transitive str_le.
Proof.
  unfold str_le. intros a. induction a as [|x a IH]; intros [|y b] [|z c]; cbn; try done.
  destruct (Z.ltb_spec y x), (Z.ltb_spec z y), (Z.ltb_spec z x), (Z.eqb_spec y x), (Z.eqb_spec z y), (Z.eqb_spec z x);
    cbn; try done; try lia. apply IH.
Qed.

#[export] Instance by_name_trans {A} : Transitive (@by_name A).
Proof. intros a b c. apply str_le_trans. Qed.

#[export] Instance by_name_total {A} : Total (@by_name A).
Proof.
  intros a b. unfold by_name. destruct (str_lt b.1 a.1) eqn:E; [right|by left]. by apply str_lt_asym.
Qed.

Lemma sorted_names {A} (l : list (list Z * A)) : Sorted by_name l -> Sorted str_le l.*1.
Proof. induction 1 as [|p l Hs IH Hd]; cbn; constructor; [done|]. by destruct Hd; cbn; constructor. Qed.

(** A list of entries of a map is determined by its names. *)
Lemma entries_by_name {A} (m : gmap (list Z) A) l l' : (forall p, p ∈ l -> m !! p.1 = Some p.2) ->
  (forall p, p ∈ l' -> m !! p.1 = Some p.2) -> l.*1 = l'.*1 -> l = l'.
Proof.
  revert l'. induction l as [|[n a] l IH]; intros [|[n' a'] l'] Hl Hl' E; try done. cbn in E. injection E as -> E.
  pose proof (Hl _ (list_elem_of_here _ _)) as H1. pose proof (Hl' _ (list_elem_of_here _ _)) as H2. cbn in *.
  f_equal; [congruence|]. apply IH; [| |done]; intros p Hp; [apply Hl|apply Hl']; by apply list_elem_of_further.
Qed.

Section Order.
Context {A : Type}.
Implicit Types (m : gmap (list Z) A) (l : list (list Z * A)).

Lemma ordered_spec m l : l ≡ₚ map_to_list m ->
  Sorted by_name (merge_sort by_name l) /\ merge_sort by_name l ≡ₚ map_to_list m /\ NoDup (merge_sort by_name l).*1.
Proof.
  intros Hl. split_and!; [apply Sorted_merge_sort, _|by rewrite merge_sort_Permutation|].
  rewrite merge_sort_Permutation, Hl. apply NoDup_fst_map_to_list.
Qed.

(** Sorting the entries of a map forgets the order they came in. *)
Lemma ordered_unique m l l' : l ≡ₚ map_to_list m -> l' ≡ₚ map_to_list m -> merge_sort by_name l = merge_sort by_name l'.
Proof.
  intros Hl Hl'. destruct (ordered_spec m l Hl) as (Hs & Hp & _), (ordered_spec m l' Hl') as (Hs' & Hp' & _).
  apply (entries_by_name m).
  - intros [n a]. rewrite Hp. apply elem_of_map_to_list.
  - intros [n a]. rewrite Hp'. apply elem_of_map_to_list.
  - apply (Sorted_unique str_le); [by apply sorted_names..|]. by rewrite Hp, Hp'.
Qed.
End Order.

(** ** Offsets *)

Definition tensor_bytes (t : TensorImpl) : Z := prodZ (shape t) * dtype_size (dtype t).

(** What [save] needs of a tensor: its elements lie in its storage, its
    contiguous copy can be allocated, and the address of its first element is
    one of its storage, also if it has no elements; dimensions are [int64_t]. *)
Record savable (m : Mem) (t : TensorImpl) `{!Backend} : Prop := mkSavable {
  sv_sound : sound m t;
  sv_alloc : allocatable m (shape t) (dtype t);
  sv_typed : i64s (shape t);
  sv_start : 0 <= offset t * dtype_size (dtype t) <= size_bytes m (storage t)
}.

Fixpoint scan (c : Z) (sizes : list Z) : list Z :=
  c :: match sizes with [] => [] | s :: sizes => scan (c + s) sizes end.

(** The entries, from position [c] of the data section on. *)
Fixpoint layout (c : Z) (ordered : list (list Z * TensorImpl)) : list (list Z * TensorMeta) :=
  match ordered with
  | [] => []
  | p :: ordered => entry_of p.1 p.2 c (c + tensor_bytes p.2) :: layout (c + tensor_bytes p.2) ordered
  end.

Definition total_size (ordered : list (list Z * TensorImpl)) : Z := sumZ_with (fun p => tensor_bytes p.2) ordered.

Lemma entries_layout c ordered : entries ordered (scan c (map (fun p => tensor_bytes p.2) ordered)) = layout c ordered.
Proof.
  unfold entries. revert c. induction ordered as [|p o IH]; intros c; [done|]. cbn [map scan layout imap].
  rewrite <-IH. f_equal. 
  - f_equal. destruct o; done.
  - apply imap_ext. intros i q _. cbn [compose]. unfold nthZ. rewrite !Nat2Z.id. done.
Qed.

Section Save.
Context `{!Backend, !Omp}.

Lemma savable_sizes m t : savable m t -> Forall (fun d => 0 <= d) (shape t) /\ numel t = Ok (prodZ (shape t)) /\
  0 <= prodZ (shape t) /\ 0 <= tensor_bytes t <= INT64_MAX /\ nbytes t = Ok (tensor_bytes t) /\
  is_contiguous t = Ok (bool_decide (strides t = TShape.suffix_prods (shape t))).
Proof.
  intros [_ Ha _ _]. destruct (allocatable_new _ _ _ false Ha) as (r & m1 & Hnew).
  apply new_tensor_inv in Hnew as (Hsh & Est & En & Hb & _). pose proof (prodZ_nonneg _ Hsh).
  pose proof (dtype_size_pos (dtype t)). unfold nbytes, numel, tensor_bytes in *. rewrite En. cbn [rbind].
  rewrite wrap_small by (unfold INT64_MAX in *; nia). split_and!; [done..|nia|done|done|]. by eapply is_contiguous_strides.
Qed.

Lemma savable_extends m m' t : extends m m' -> savable m t -> savable m' t.
Proof.
  intros Hx [Hs Ha Hi Ho]. split; [by eapply sound_extends|by eapply allocatable_extends|done|].
  destruct Hx as [k ->]. unfold size_bytes in *. destruct (m !! storage t) as [l|] eqn:E.
  - by rewrite (lookup_app_l_Some _ _ _ _ E).
  - change (lenZ (default [] (@None Storage))) with 0 in Ho. pose proof (lenZ_nonneg (default [] ((m ++ k) !! storage t))). lia.
Qed.

Lemma data_offsets_scan m ordered : Forall (fun p => savable m p.2) ordered -> total_size ordered <= INT64_MAX ->
  data_offsets ordered = Ok (scan 0 (map (fun p => tensor_bytes p.2) ordered)).
Proof.
  intros Hs Ht. unfold data_offsets.
  enough (forall offs c, 0 <= c -> c + total_size ordered <= INT64_MAX -> exists offs' c',
    rfoldM (fun '(offsets, current_offset) p =>
      let* n := nbytes p.2 in Ok (offsets ++ [current_offset], wrap 64 (current_offset + n))) ordered (offs, c) = Ok (offs', c') /\
    offs' ++ [c'] = offs ++ scan c (map (fun p => tensor_bytes p.2) ordered)) as He.
  { destruct (He [] 0) as (offs' & c' & -> & E); [lia..|]. cbn [rbind]. by rewrite E. }
  clear Ht. induction Hs as [|p o Hp Hs IH]; intros offs c Hc Ht.
  { exists offs, c. by split. }
  destruct (savable_sizes m p.2 Hp) as (_ & _ & _ & Hsz & En & _). cbn [rfoldM]. rewrite En. cbn [rbind].
  unfold total_size in Ht. cbn in Ht. fold (total_size o) in Ht.
  assert (0 <= total_size o) as Hto.
  { clear -Hs. induction Hs as [|q o Hq _ IH]; [done|]. destruct (savable_sizes m q.2 Hq) as (_ & _ & _ & ? & _).
    unfold total_size in *. cbn. lia. }
  rewrite wrap_small by (unfold INT64_MAX in *; lia).
  destruct (IH (offs ++ [c]) (c + tensor_bytes p.2)) as (offs' & c' & -> & E); [lia..|].
  exists offs', c'. split; [done|]. rewrite E, <-app_assoc. done.
Qed.

(** ** The data of a tensor *)

(** [d] holds the elements of [t], in order and in the byte order of the file. *)
Definition packed (big : bool) (m : Mem) (t : TensorImpl) (d : Storage) : Prop :=
  lenZ d = tensor_bytes t /\
  forall idx, valid_index (shape t) idx ->
    cell (dtype_size (dtype t)) d (ravel (shape t) idx) = convert_endianness big (elem m t idx) (dtype t).

Lemma cell_slice e (l : Storage) o i n : 0 <= o -> 0 <= i < n -> 0 < e -> cell e (slice l (o * e) (n * e)) i = cell e l (o + i).
Proof.
  intros Ho Hi He. unfold cell, slice. rewrite skipn_firstn_comm, take_take, drop_drop. f_equal; [nia|]. f_equal. nia.
Qed.

Lemma contiguous_dispatch t m c : is_contiguous t = Ok c ->
  (let* b := is_contiguous t in if (b : bool) then Ok (t, m) else contiguous t m) = contiguous t m.
Proof. intros E. rewrite E. cbn [rbind]. destruct c; [|done]. unfold contiguous. by rewrite E. Qed.

(** The elements of a contiguous tensor lie one after another. *)
Lemma contiguous_span m r : sound m r -> strides r = TShape.suffix_prods (shape r) -> 0 < prodZ (shape r) ->
  0 <= offset r /\ (offset r + prodZ (shape r)) * dtype_size (dtype r) <= size_bytes m (storage r).
Proof.
  intros [[_ Hsh _] Hb] Hst Hp.
  assert (forall i, 0 <= i < prodZ (shape r) -> 0 <= offset r + i < storage_elements m r) as Hi.
  { intros i Hi. destruct (unravel_spec (shape r) i Hsh Hi) as [Hv E]. specialize (Hb _ Hv). unfold addr in Hb.
    rewrite Hst in Hb. unfold ravel in E. by rewrite E in Hb. }
  split; [specialize (Hi 0 ltac:(lia)); lia|]. destruct (Hi (prodZ (shape r) - 1)) as [_ Hl]; [lia|].
  apply storage_elements_bound in Hl. by replace (offset r + (prodZ (shape r) - 1) + 1) with (offset r + prodZ (shape r)) in Hl by lia.
Qed.

(** Writing out a contiguous tensor. *)
Lemma write_contiguous big m r : fitting m -> sound m r -> strides r = TShape.suffix_prods (shape r) ->
  0 <= offset r * dtype_size (dtype r) <= size_bytes m (storage r) -> 0 <= tensor_bytes r ->
  exists src, (let* p := data_ptr r in bytes_at m (storage r) p (tensor_bytes r)) = Ok src /\
    packed big m r (convert_endianness big src (dtype r)).
Proof.
  intros Hf Hs Hst Ho Hn. pose proof (dtype_size_pos (dtype r)) as He. pose proof (fitting_size m (storage r) Hf) as Hsz.
  set (e := dtype_size (dtype r)) in *. pose proof Hs as [[_ Hsh _] _]. pose proof (prodZ_nonneg _ Hsh) as Hp.
  unfold tensor_bytes in *. fold e in Hn. fold e.
  assert (offset r * e + prodZ (shape r) * e <= size_bytes m (storage r)) as Hend.
  { destruct (Z.eqb_spec (prodZ (shape r)) 0) as [->|Hne]; [lia|].
    destruct (contiguous_span m r Hs Hst ltac:(lia)) as [_ H']. fold e in H'. lia. }
  assert (data_ptr r = Ok (offset r * e)) as -> by (apply checked_mul_Ok; fold e; unfold INT64_MIN; lia). cbn [rbind].
  unfold bytes_at, size_bytes in *. rewrite !(proj2 (Z.leb_le _ _)) by lia. cbn [andb].
  set (l := default [] (m !! storage r)) in *. fold (slice l (offset r * e) (prodZ (shape r) * e)).
  eexists. split; [reflexivity|].
  assert (lenZ (slice l (offset r * e) (prodZ (shape r) * e)) = prodZ (shape r) * e) as Hlen by (apply lenZ_slice; lia).
  assert (sized (dtype r) (Z.to_nat (prodZ (shape r))) (slice l (offset r * e) (prodZ (shape r) * e))) as Hsd.
  { unfold sized. fold e. unfold lenZ in Hlen. nia. }
  split; [unfold lenZ; rewrite (length_convert _ _ _ _ Hsd); exact Hlen|].
  intros idx Hv. pose proof (ravel_bound _ _ Hv) as Hr. fold e. unfold e. rewrite (cell_convert _ _ _ _ _ Hsd) by lia. fold e.
  assert (0 <= offset r) by nia. rewrite cell_slice by lia. rewrite elem_cell. unfold bytes, addr. fold l. fold e.
  by rewrite Hst.
Qed.

Lemma tensor_data_Ok big m t : fitting m -> savable m t -> exists d m', tensor_data big t m = Ok (d, m') /\
  extends m m' /\ fitting m' /\ packed big m t d.
Proof.
  intros Hf Hs. destruct (savable_sizes m t Hs) as (Hsh & _ & Hp & Hsz & En & Ec). destruct Hs as [Hso Ha _ Ho].
  destruct (contiguous_Ok t m Hso Hf Ha) as (r & m' & Hrun & [Hx Hf' Hs' Esh Est Edt Hel] & Hcase).
  unfold tensor_data. pose proof (eq_trans (contiguous_dispatch t m _ Ec) Hrun) as Hd.
  destruct (is_contiguous t) as [c|]; [|done]. cbn [rbind] in *. rewrite Hd. cbn [rbind].
  assert (nbytes r = Ok (tensor_bytes r) /\ tensor_bytes r = tensor_bytes t) as [-> E].
  { unfold nbytes, numel, tensor_bytes in *. by rewrite Esh, Edt. }
  cbn [rbind]. destruct (write_contiguous big m' r) as (src & Hw & Hpk); [done|done|by rewrite Est, Esh| |lia|].
  { destruct (bool_decide _); [by destruct Hcase as [-> ->]|]. destruct Hcase as [_ ->]. rewrite Z.mul_0_l.
    split; [done|apply size_bytes_nonneg]. }
  destruct (data_ptr r) as [p|]; [|done]. cbn [rbind] in *. rewrite Hw. cbn [rbind].
  eexists _, m'. split; [reflexivity|]. split_and!; [done..|]. destruct Hpk as [Hl Hc]. split; [lia|].
  rewrite Esh, Edt in Hc. intros idx Hv. rewrite Edt, (Hc idx Hv). by rewrite (Hel idx Hv).
Qed.

Lemma packed_extends big m m' t d : extends m m' -> sound m t -> packed big m' t d -> packed big m t d.
Proof.
  intros Hx [Hw Hb] [Hl Hc]. split; [done|]. intros idx Hv. rewrite Hc by done. f_equal.
  destruct (in_bounds_extends m m' t Hx Hb) as [_ He]. by apply He.
Qed.

(** ** The file *)

Lemma save_all_Ok big m (init : Storage) (ordered : list (list Z * TensorImpl)) : fitting m -> Forall (fun p => savable m p.2) ordered -> exists ds m',
  rfoldM (fun '(file, m) p => let* '(data, m) := tensor_data big p.2 m in Ok (file ++ data, m)) ordered (init, m) =
    Ok (init ++ concat ds, m') /\ Forall2 (fun p d => packed big m p.2 d) ordered ds /\ extends m m' /\ fitting m'.
Proof.
  intros Hf Hs. rewrite Forall_forall in Hs.
  destruct (rfoldM_runs (fun (seen : list (list Z * TensorImpl)) (s : Storage * Mem) => exists ds, s.1 = init ++ concat ds /\ Forall2 (fun p d => packed big m p.2 d) seen ds /\
    extends m s.2 /\ fitting s.2)
    (fun '(file, m) p => let* '(data, m) := tensor_data big p.2 m in Ok (file ++ data, m)) ordered (init, m))
    as ([file m'] & -> & ds & E & Hds & Hx & Hf').
  - exists []. cbn. split_and!; [by rewrite app_nil_r|constructor|apply extends_refl|done].
  - intros seen p [file m1] Hp%list_elem_of_In (ds & E & Hds & Hx & Hf1). cbn in E, Hx, Hf1.
    destruct (tensor_data_Ok big m1 p.2) as (d & m2 & -> & Hx2 & Hf2 & Hd); [done|by eapply savable_extends; [|apply Hs]|].
    eexists. split; [reflexivity|]. exists (ds ++ [d]). cbn. rewrite E, concat_app, <-app_assoc. cbn. rewrite app_nil_r.
    split_and!; [done| |by eapply extends_trans|done]. apply Forall2_app; [done|]. constructor; [|constructor].
    eapply packed_extends; [exact Hx| |done]. by apply Hs.
  - cbn in E. subst file. by exists ds, m'.
Qed.

End Save.

End Saving.
