(* ===== verification/SafeTensorsClient.v ===== *)
(** * Checkpoints survive

    What [save] writes, [load] reads back, on a host of either byte order:
    the same names, shapes, data types and elements.  [save] does not depend on
    the hash map's order, and [load] is safe on every file. *)

From stdpp Require Import base list numbers list_numbers strings gmap sorting.
From S2P Require Import Prelude MapSums Shape DType Tensor TensorViews TensorKernels TensorCopy TensorContiguous SafeTensors SafeTensorsJson SafeTensorsLoad SafeTensorsSave.

Module Checkpoints.
Import Sums Tensor Views Kernels Copying Contig SafeTensors Json Bytes Loading Saving.

(** ** The regions of a layout *)

#[local] Instance by_region_trans : Transitive by_region.
Proof. intros a b c. unfold by_region. lia. Qed.
#[local] Instance by_region_total : Total by_region.
Proof. intros a b. unfold by_region. lia. Qed.
#[local] Instance by_region_antisym : AntiSymm (=) by_region.
Proof. intros [a1 a2] [b1 b2]. unfold by_region. cbn. intros. f_equal; lia. Qed.

Definition sizes_nonneg (o : list (list Z * TensorImpl)) : Prop := Forall (fun p => 0 <= tensor_bytes p.2) o.

Lemma total_size_nonneg o : sizes_nonneg o -> 0 <= total_size o.
Proof. induction 1 as [|p o Hp _ IH]; unfold total_size in *; cbn; [done|]. lia. Qed.

Definition regions (es : list (list Z * TensorMeta)) : list (Z * Z) := map (fun p => region p.2) es.

Lemma layout_chain c o : rfoldM next_region (regions (layout c o)) c = Ok (c + total_size o).
Proof.
  unfold regions. revert c. induction o as [|p o IH]; intros c; cbn [layout map rfoldM]; [unfold total_size; cbn; f_equal; lia|].
  unfold next_region at 1. cbn. rewrite Z.eqb_refl. cbn. rewrite IH. unfold total_size. cbn. f_equal. lia.
Qed.

Lemma layout_bounds c o : sizes_nonneg o -> Forall (fun e => c <= data_start e.2 /\ data_start e.2 <= data_end e.2 /\
  data_end e.2 <= c + total_size o) (layout c o).
Proof.
  intros Ho. revert c. induction Ho as [|p o Hp Ho IH]; intros c; cbn [layout]; [constructor|].
  pose proof (total_size_nonneg o Ho). unfold total_size in *. constructor; cbn; [lia|].
  eapply Forall_impl; [apply IH|]. cbn. intros e ?. lia.
Qed.

Lemma layout_sorted c o : sizes_nonneg o -> Sorted by_region (regions (layout c o)).
Proof.
  intros Ho. unfold regions. revert c. induction Ho as [|p o Hp Ho IH]; intros c; cbn; constructor; [apply IH|].
  destruct Ho as [|q o Hq Ho]; cbn; constructor. unfold by_region. cbn. lia.
Qed.

Lemma layout_names c o : (layout c o).*1 = o.*1.
Proof. revert c. induction o as [|p o IH]; intros c; cbn; [done|]. by rewrite IH. Qed.

(** [load] accepts the regions of a layout, in whatever order it meets them. *)
Lemma check_regions_layout o es : sizes_nonneg o -> es ≡ₚ layout 0 o -> check_regions es (total_size o) = Ok ().
Proof.
  intros Ho Hes. unfold check_regions. fold declare_region next_region.
  assert (rmapM declare_region es = Ok (regions es)) as ->.
  { apply rmapM_Ok. unfold regions. apply Forall2_fmap_r, Forall_Forall2_diag. rewrite Hes.
    eapply Forall_impl; [by apply layout_bounds|]. cbn. intros e (_ & He & _). unfold declare_region.
    by rewrite (proj2 (Z.ltb_ge _ _)). }
  cbn [rbind]. assert (merge_sort by_region (regions es) = regions (layout 0 o)) as ->.
  { apply (Sorted_unique by_region); [apply Sorted_merge_sort, _|by apply layout_sorted|].
    rewrite merge_sort_Permutation. unfold regions. by rewrite Hes. }
  rewrite layout_chain. cbn [rbind]. rewrite Z.add_0_l. destruct es as [|e es]; cbn [regions map].
  - apply Permutation_nil in Hes. by destruct o.
  - by rewrite Z.eqb_refl.
Qed.

(** ** The data of a layout *)

Lemma lenZ_concat_packed big m o ds : Forall2 (fun p d => packed big m p.2 d) o ds -> lenZ (concat ds) = total_size o.
Proof.
  induction 1 as [|p d o ds [Hd _] _ IH]; [done|]. unfold total_size in *. cbn [concat sumZ_with].
  rewrite lenZ_app, IH, Hd. done.
Qed.

(** The region of an entry holds its tensor's data. *)
Lemma layout_data big m o ds c pre name meta : Forall2 (fun p d => packed big m p.2 d) o ds -> sizes_nonneg o ->
  (name, meta) ∈ layout c o -> exists t d, (name, t) ∈ o /\ packed big m t d /\
    m_dtype meta = dtype t /\ m_shape meta = shape t /\ data_end meta - data_start meta = tensor_bytes t /\
    slice (pre ++ concat ds) (lenZ pre + (data_start meta - c)) (data_end meta - data_start meta) = d.
Proof.
  intros Hds. revert c pre. induction Hds as [|p d o ds Hd Hds IH]; intros c pre Ho Hin; [by apply elem_of_nil in Hin|].
  apply Forall_cons in Ho as [Hp Ho]. cbn [layout] in Hin. apply elem_of_cons in Hin as [E|Hin].
  - injection E as -> ->. exists p.2, d. cbn. split_and!; [rewrite <-surjective_pairing; by left|done..|lia|].
    apply slice_mid; [lia|]. destruct Hd as [-> _]. lia.
  - destruct (IH (c + tensor_bytes p.2) (pre ++ d) Ho Hin) as (t & d' & Ht & Hd' & Edt & Esh & Esz & Esl).
    exists t, d'. split_and!; [by right|done..|]. rewrite <-Esl. cbn [concat]. rewrite <-app_assoc. f_equal.
    rewrite lenZ_app. destruct Hd as [-> _]. lia.
Qed.

(** ** Initialised tensors give files of bytes *)

(** Every element was written. *)
Definition initialised (m : Mem) (t : TensorImpl) : Prop :=
  forall idx, valid_index (shape t) idx -> Forall is_Some (elem m t idx).

Lemma rev_components_Forall {A} (P : A -> Prop) n w l : Forall P l -> Forall P (rev_components n w l).
Proof.
  revert l. induction n as [|n IH]; intros l Hl; cbn; [done|]. apply Forall_app. split.
  - by apply Forall_rev, Forall_take.
  - by apply IH, Forall_drop.
Qed.

Lemma convert_Forall {A} (P : A -> Prop) big d n (l : list A) : sized d n l -> Forall P l -> Forall P (convert_endianness big l d).
Proof.
  intros Hl HP. destruct big; [|done]. destruct (convert_rev d) as (k & w & _ & _ & Hc). rewrite (Hc _ _ _ Hl).
  by apply rev_components_Forall.
Qed.

Lemma length_elem m t idx : in_bounds m t -> valid_index (shape t) idx -> sized (dtype t) 1 (elem m t idx).
Proof.
  intros Hb Hv. destruct (Hb _ Hv) as [H0 H1]. apply storage_elements_bound in H1. unfold sized, elem, size_bytes, lenZ in *.
  pose proof (dtype_size_pos (dtype t)). rewrite length_take, length_drop. nia.
Qed.

Lemma packed_initialised big m t d : sound m t -> initialised m t -> packed big m t d -> Forall is_Some d.
Proof.
  intros [[_ Hsh _] Hb] Hi [Hl Hc]. apply Forall_lookup. intros k b Hk. pose proof (dtype_size_pos (dtype t)) as He.
  set (e := dtype_size (dtype t)) in *. pose proof (lookup_lt_Some _ _ _ Hk) as Hlt. unfold lenZ, tensor_bytes in Hl. fold e in Hl.
  set (i := Z.of_nat k / e). assert (0 <= i < prodZ (shape t)) as Hir.
  { unfold i. split; [apply Z.div_pos; lia|apply Z.div_lt_upper_bound; lia]. }
  destruct (unravel_spec (shape t) i Hsh Hir) as [Hv E]. specialize (Hc _ Hv). rewrite E in Hc.
  pose proof (length_elem m t _ Hb Hv) as Hel. pose proof (convert_Forall _ big _ _ _ Hel (Hi _ Hv)) as HF. rewrite <-Hc in HF.
  rewrite Forall_lookup in HF. apply (HF (Z.to_nat (Z.of_nat k mod e))). rewrite lookup_cell.
  pose proof (Z.mod_pos_bound (Z.of_nat k) e ltac:(lia)). rewrite decide_True by lia. rewrite <-Hk. f_equal.
  unfold i. pose proof (Z.div_mod (Z.of_nat k) e ltac:(lia)). nia.
Qed.

Lemma all_written (l : Storage) : Forall is_Some l -> exists bs, l = map Some bs.
Proof. induction 1 as [|b l [z ->] _ [bs ->]]; [by exists []|]. by exists (z :: bs). Qed.

Section RoundTrip.
Context `{!Backend, !Omp, !Hashing}.

(** ** Save, then load *)

Definition ordered (sd : gmap (list Z) TensorImpl) : list (list Z * TensorImpl) := merge_sort by_name (iteration sd).

Definition header_for (sd : gmap (list Z) TensorImpl) : list Z :=
  build_header_json (ordered sd) (scan 0 (map (fun p => tensor_bytes p.2) (ordered sd))).

(** A state dictionary that fits in a file: its tensors can be read and were
    written, no name is that of the metadata, and the header is not too large. *)
Record fits_file (sd : gmap (list Z) TensorImpl) (m : Mem) : Prop := mkFitsFile {
  ff_fitting : fitting m;
  ff_savable name t : sd !! name = Some t -> savable m t;
  ff_written name t : sd !! name = Some t -> initialised m t;
  ff_names : sd !! METADATA = None;
  ff_total : total_size (ordered sd) <= 2 ^ 62;
  ff_header : lenZ (header_for sd) <= MAX_HEADER
}.

(** The file: header size, header, data. *)
Definition file_of (sd : gmap (list Z) TensorImpl) (data : list Z) : list Z :=
  Z_to_little_endian 8 8 (lenZ (header_for sd)) ++ header_for sd ++ data.

Lemma in_ordered sd name t : (name, t) ∈ ordered sd <-> sd !! name = Some t.
Proof. unfold ordered. by rewrite merge_sort_Permutation, in_iteration. Qed.

Lemma ordered_savable sd m : fits_file sd m -> Forall (fun p => savable m p.2) (ordered sd).
Proof. intros Hf. apply Forall_forall. intros [name t] Hin%in_ordered. by apply (ff_savable _ _ Hf name). Qed.

Lemma ordered_sizes sd m : fits_file sd m -> sizes_nonneg (ordered sd).
Proof.
  intros Hf%ordered_savable. eapply Forall_impl; [exact Hf|]. cbn. intros p Hp.
  by destruct (savable_sizes m p.2 Hp) as (_ & _ & _ & [? _] & _).
Qed.

Lemma save_file big sd m : fits_file sd m -> exists data ds m', save big sd m = Ok (map Some (file_of sd data), m') /\
  Forall2 (fun p d => packed big m p.2 d) (ordered sd) ds /\ map Some data = concat ds /\ extends m m' /\ fitting m'.
Proof.
  intros Hf. pose proof (ordered_savable sd m Hf) as Hs. pose proof Hf as [Hfit _ Hw _ Ht Hh]. unfold save. fold (ordered sd).
  rewrite (data_offsets_scan m) by (done || (unfold INT64_MAX; lia)). cbn [rbind]. fold (header_for sd).
  pose proof (lenZ_nonneg (header_for sd)). unfold MAX_HEADER in Hh. rewrite size_written by lia.
  destruct (save_all_Ok big m (map Some (Z_to_little_endian 8 8 (lenZ (header_for sd)) ++ header_for sd)) (ordered sd) Hfit Hs)
    as (ds & m' & Hrun & Hds & Hx & Hf').
  assert (Forall is_Some (concat ds)) as Hall.
  { apply Forall_concat. rewrite Forall_forall in Hs. eapply Forall2_Forall_r; [exact Hds|].
    apply Forall_forall. intros [name t] Hin d Hd. cbn in Hd. eapply packed_initialised; [|by apply (Hw name), in_ordered|exact Hd].
    apply (Hs (name, t) Hin). }
  destruct (all_written _ Hall) as [data Edata]. exists data, ds, m'. split; [|by split_and!].
  rewrite Hrun, Edata. unfold file_of. by rewrite <-map_app, <-app_assoc.
Qed.

Lemma file_header sd data : lenZ (header_for sd) <= MAX_HEADER ->
  Forall byte (take 8 (file_of sd data)) /\ stated_size (file_of sd data) = lenZ (header_for sd) /\
  well_sized (file_of sd data) /\ header_of (file_of sd data) = header_for sd /\ section_len (file_of sd data) = lenZ data.
Proof.
  intros Hh. pose proof (lenZ_nonneg (header_for sd)). unfold MAX_HEADER in Hh.
  destruct (le_bytes (lenZ (header_for sd))) as [Hl Hb].
  assert (lenZ (Z_to_little_endian 8 8 (lenZ (header_for sd))) = 8) as Hl8 by by apply length_Z_to_little_endian.
  assert (take 8 (file_of sd data) = Z_to_little_endian 8 8 (lenZ (header_for sd))) as E8.
  { unfold file_of. by apply take_app_length'. }
  assert (stated_size (file_of sd data) = lenZ (header_for sd)) as Es.
  { unfold stated_size. rewrite E8. apply size_value. lia. }
  assert (lenZ (file_of sd data) = 8 + (lenZ (header_for sd) + lenZ data)) as Elen.
  { unfold file_of. by rewrite !lenZ_app, Hl8. }
  pose proof (lenZ_nonneg data). unfold well_sized, header_of, section_len, section_start, MAX_HEADER. rewrite E8, Es, Elen.
  split_and!; [done|done|lia|lia|lia| |lia]. by apply slice_mid.
Qed.

Lemma layout_ok sd m : fits_file sd m -> Forall (fun e => e.1 <> METADATA /\ meta_ok e.2) (layout 0 (ordered sd)).
Proof.
  intros Hf. pose proof (layout_bounds 0 _ (ordered_sizes sd m Hf)) as Hb. apply Forall_forall. intros [name meta] Hin.
  rewrite Forall_forall in Hb. specialize (Hb _ Hin). cbn in Hb. pose proof (ff_total _ _ Hf).
  assert (forall c, (name, meta) ∈ layout c (ordered sd) -> exists t, (name, t) ∈ ordered sd /\ m_shape meta = shape t) as Hex.
  { clear. induction (ordered sd) as [|p o IH]; intros c Hin; [by apply elem_of_nil in Hin|].
    cbn [layout] in Hin. apply elem_of_cons in Hin as [E|Hin].
    - injection E as -> ->. exists p.2. split; [rewrite <-surjective_pairing; by left|done].
    - destruct (IH _ Hin) as (t & ? & ?). exists t. split; [by right|done]. }
  destruct (Hex 0 Hin) as (t & Ht%in_ordered & Esh). cbn [fst snd]. split.
  - intros ->. by rewrite (ff_names _ _ Hf) in Ht.
  - unfold meta_ok, INT64_MAX. rewrite Esh. split; [apply (sv_typed _ _ (ff_savable _ _ Hf _ _ Ht))|lia].
Qed.

Lemma layout_nodup sd : NoDup (layout 0 (ordered sd)).*1.
Proof. rewrite layout_names. unfold ordered. rewrite merge_sort_Permutation, iteration_perm. apply NoDup_fst_map_to_list. Qed.

(** The header of the file says where everything is. *)
Lemma file_metas sd m : fits_file sd m -> parse_header_json (header_for sd) = Ok (list_to_map (layout 0 (ordered sd))).
Proof.
  intros Hf. unfold header_for. pose proof (layout_ok sd m Hf) as Hok. rewrite <-entries_layout in Hok.
  rewrite parse_build by done. rewrite entries_layout. f_equal. apply foldl_entries, layout_nodup.
Qed.

Lemma load_file big b2 sd m data ds m1 : fits_file sd m -> Forall2 (fun p d => packed big m p.2 d) (ordered sd) ds ->
  map Some data = concat ds -> extends m m1 -> exists res m2, load b2 (Some (file_of sd data)) m1 = Ok (res, m2) /\
  tensors_of b2 (file_of sd data) (list_to_map (layout 0 (ordered sd))) m1 res m2.
Proof.
  intros Hf Hds Edata Hx. destruct (file_header sd data (ff_header _ _ Hf)) as (Hb & Es & Hw & Eh & El).
  assert (lenZ data = total_size (ordered sd)) as Ed.
  { rewrite <-(lenZ_concat_packed _ _ _ _ Hds), <-Edata. unfold lenZ. by rewrite length_map. }
  set (metas := list_to_map (layout 0 (ordered sd)) : gmap (list Z) TensorMeta). unfold load.
  rewrite (proj1 (read_header_spec b2 _ Hb) Hw). cbn [rbind]. rewrite Eh, (file_metas sd m Hf). fold metas. cbn [rbind].
  rewrite <-Eh, header_length by done. rewrite section_len_code by apply Hw. rewrite El, Ed.
  pose proof (ordered_sizes sd m Hf) as Hsz.
  assert (iteration metas ≡ₚ layout 0 (ordered sd)) as Hp.
  { rewrite iteration_perm. unfold metas. by rewrite map_to_list_to_map by apply layout_nodup. }
  rewrite check_regions_layout by done. cbn [rbind]. cbv zeta. fold (load_next b2 (section_start (file_of sd data)) (total_size (ordered sd))).
  set (bs := file_of sd data) in *. pose proof (stated_size_bound bs Hb (proj1 Hw)). pose proof (total_size_nonneg _ Hsz).
  pose proof (ff_total _ _ Hf) as Ht. pose proof (ff_header _ _ Hf) as Hh. unfold MAX_HEADER in Hh.
  assert (lenZ bs = section_start bs + total_size (ordered sd)) as Elen by (unfold section_len in El; lia).
  destruct (load_all_runs b2 bs (section_start bs) (total_size (ordered sd)) ltac:(unfold section_start; lia) ltac:(lia)
    ltac:(unfold section_start, INT64_MAX in *; lia) (iteration metas) m1 (mkStream bs (section_start bs) true))
    as ([[res m2] f] & Hrun & Hall).
  - rewrite Hp. apply Forall_forall. intros [name meta] Hin. cbn.
    pose proof (layout_bounds 0 _ Hsz) as Hbd. rewrite Forall_forall in Hbd. specialize (Hbd _ Hin). cbn in Hbd.
    destruct (layout_data big m _ ds 0 [] name meta Hds Hsz Hin) as (t & d & Hin_t%in_ordered & _ & Edt & Esh & Esz & _).
    unfold loadable. rewrite Edt, Esh. split_and!; [lia..|exact Esz|]. eapply allocatable_extends; [exact Hx|].
    apply (ff_savable _ _ Hf _ _ Hin_t).
  - done.
  - rewrite Hrun. cbn. exists res, m2. split; [done|]. by apply all_loaded_tensors in Hall.
Qed.

(** The elements of a loaded tensor are those of its region. *)
Lemma loaded_elem b2 bs start m t meta d idx : loaded b2 bs start m t meta -> valid_index (shape t) idx ->
  map Some (region_bytes bs start meta) = d -> lenZ d = prodZ (m_shape meta) * dtype_size (m_dtype meta) ->
  elem m t idx = convert_endianness b2 (cell (dtype_size (m_dtype meta)) d (ravel (m_shape meta) idx)) (m_dtype meta).
Proof.
  intros [_ Esh Edt Est Eo _ Eb] Hv Ed Hd. rewrite Esh in Hv. pose proof (ravel_bound _ _ Hv) as Hr.
  pose proof (dtype_size_pos (m_dtype meta)). rewrite <-(cell_convert b2 _ (Z.to_nat (prodZ (m_shape meta)))); [| |lia].
  - rewrite elem_cell. unfold bytes, addr. rewrite Eb, Edt, Est, Eo. cbn [from_option id]. by rewrite <-Ed.
  - unfold sized. unfold lenZ in Hd. nia.
Qed.

Lemma convert_twice b1 b2 d n (l : Storage) : sized d n l ->
  convert_endianness b2 (convert_endianness b1 l d) d = if Bool.eqb b1 b2 then l else convert_endianness true l d.
Proof. intros Hl. destruct b1, b2; try done. cbn [Bool.eqb]. by eapply convert_involutive. Qed.

Definition metas_of (sd : gmap (list Z) TensorImpl) : gmap (list Z) TensorMeta := list_to_map (layout 0 (ordered sd)).

Lemma metas_of_names sd name : is_Some (metas_of sd !! name) <-> is_Some (sd !! name).
Proof.
  unfold metas_of. rewrite <-elem_of_dom, dom_list_to_map_L, elem_of_list_to_set, layout_names. split.
  - intros ([n t] & -> & Ht%in_ordered)%list_elem_of_fmap. eauto.
  - intros [t Ht%in_ordered]. by apply (list_elem_of_fmap_2 fst) in Ht.
Qed.

Lemma map_slice {A B} (g : A -> B) l off n : map g (slice l off n) = slice (map g l) off n.
Proof. unfold slice. by rewrite <-firstn_map, <-skipn_map. Qed.

(** The file has the data of every tensor in its region. *)
Lemma file_entry big sd m data ds name t meta : fits_file sd m -> Forall2 (fun p d => packed big m p.2 d) (ordered sd) ds ->
  map Some data = concat ds -> sd !! name = Some t -> metas_of sd !! name = Some meta ->
  m_dtype meta = dtype t /\ m_shape meta = shape t /\
  packed big m t (map Some (region_bytes (file_of sd data) (section_start (file_of sd data)) meta)).
Proof.
  intros Hf Hds Edata Ht Hin%elem_of_list_to_map_2.
  destruct (file_header sd data (ff_header _ _ Hf)) as (_ & Es & _).
  set (pre := Z_to_little_endian 8 8 (lenZ (header_for sd)) ++ header_for sd).
  destruct (layout_data big m _ ds 0 (map Some pre) name meta Hds (ordered_sizes sd m Hf) Hin)
    as (t' & d & Ht'%in_ordered & Hd & Edt & Esh & Esz & Esl).
  assert (t' = t) as -> by congruence. split_and!; [done..|]. enough (map Some _ = d) as -> by done. rewrite <-Esl.
  unfold region_bytes. rewrite map_slice, <-Edata, <-map_app. unfold pre. rewrite <-app_assoc. fold (file_of sd data). f_equal.
  unfold section_start. rewrite Es. unfold lenZ at 2. rewrite length_map, length_app, Nat2Z.inj_add, length_Z_to_little_endian by lia.
  unfold lenZ. lia.
Qed.


(** C4: [load] on any file of bytes, of any size an object can have, gives
    tensors whose elements all lie in their storages, or throws an exception of
    the program's own: it never reads or writes outside a buffer, never
    overflows a signed integer, and its parser always ends. *)
Theorem load_untrusted_is_safe big bs m : Forall byte bs -> lenZ bs <= INT64_MAX ->
  match load big (Some bs) m with
  | Ok (res, m') => extends m m' /\ forall name t, res !! name = Some t -> sound m' t
  | Err e => e <> UndefinedBehaviour /\ e <> Diverged /\ e <> Terminated
  end.
Proof.
  intros Hb Hmax. pose proof (load_meets big bs m (Forall_take _ _ _ Hb) Hmax) as Hm.
  destruct (load big (Some bs) m) as [[res m']|e]; [|by destruct e].
  destruct Hm as (_ & metas & _ & _ & [Hx _ _ Hl]). split; [done|]. intros name t Ht.
  destruct (Hl _ _ Ht) as (meta & _ & Hld). apply Hld.
Qed.

(** C14: when [load] succeeds, the header was parsed, the result has the names
    of its entries, a tensor has the type and shape of its entry and, in the
    order of the host, exactly the bytes of its region, and every byte of the
    data section is in the region of exactly one tensor. *)
Theorem load_accounts_for_every_byte big bs m res m' : Forall byte bs -> lenZ bs <= INT64_MAX ->
  load big (Some bs) m = Ok (res, m') -> exists metas, parse_header_json (header_of bs) = Ok metas /\
  (forall name, is_Some (res !! name) <-> is_Some (metas !! name)) /\
  (forall name t, res !! name = Some t -> exists meta, metas !! name = Some meta /\ dtype t = m_dtype meta /\
    shape t = m_shape meta /\ 0 <= data_start meta /\ data_start meta <= data_end meta /\ data_end meta <= section_len bs /\
    data_end meta - data_start meta = prodZ (shape t) * dtype_size (dtype t) /\
    m' !! storage t = Some (convert_endianness big
      (map Some (slice bs (section_start bs + data_start meta) (data_end meta - data_start meta))) (dtype t))) /\
  (forall q, 0 <= q < section_len bs -> exists name meta, metas !! name = Some meta /\ data_start meta <= q < data_end meta /\
    forall name' meta', metas !! name' = Some meta' -> data_start meta' <= q < data_end meta' -> name' = name).
Proof.
  intros Hb Hmax Hrun. pose proof (load_meets big bs m (Forall_take _ _ _ Hb) Hmax) as Hm. rewrite Hrun in Hm.
  destruct Hm as (_ & metas & Hp & [Ho Hi Hcount] & [_ _ Hn Hl]). exists metas. split_and!; [done..| |].
  - intros name t Ht. destruct (Hl _ _ Ht) as (meta & Hmeta & [_ Esh Edt _ _ Hsz Hbytes]). exists meta.
    pose proof (proj2 (in_iteration _ _ _) Hmeta) as Hin. rewrite Forall_forall in Ho. rewrite Forall_forall in Hi.
    specialize (Ho _ Hin). destruct (Hi _ Hin). cbn in *. rewrite Edt, Esh. by split_and!.
  - intros q Hq. specialize (Hcount q Hq). destruct (filter _ (iteration metas)) as [|[name meta] [|? ?]] eqn:E; try done.
    assert (forall p, p ∈ iteration metas -> inside q (region p.2) -> p = (name, meta)) as Hone.
    { intros p Hin Hr. apply list_elem_of_singleton. rewrite <-E. by apply list_elem_of_filter. }
    assert ((name, meta) ∈ filter (fun p => inside q (region p.2)) (iteration metas)) as Hin by (rewrite E; by left).
    apply list_elem_of_filter in Hin as [Hr Hin%in_iteration]. exists name, meta. split_and!; [done|apply Hr|apply Hr|].
    intros name' meta' Hin'%in_iteration Hr'. by injection (Hone _ Hin' Hr').
Qed.

(** The first nine bytes of a saved file. *)
Lemma file_start sd data : lenZ (header_for sd) <= MAX_HEADER -> exists text, header_for sd = 123 :: text ++ [125] /\
  read 8 (mkStream (file_of sd data) 0 true) = (Z_to_little_endian 8 8 (lenZ (header_for sd)), mkStream (file_of sd data) 8 true) /\
  read 1 (mkStream (file_of sd data) 8 true) = ([123], mkStream (file_of sd data) 9 true).
Proof.
  intros Hh. assert (exists text, header_for sd = 123 :: text ++ [125]) as [text E].
  { unfold header_for. rewrite build_header_text. eauto. }
  exists text. assert (lenZ (Z_to_little_endian 8 8 (lenZ (header_for sd))) = 8) as Hl8 by by apply length_Z_to_little_endian.
  assert (lenZ (file_of sd data) = 8 + (lenZ (header_for sd) + lenZ data)) as Elen by (unfold file_of; by rewrite !lenZ_app, Hl8).
  pose proof (lenZ_nonneg data). assert (2 <= lenZ (header_for sd)).
  { rewrite E. unfold lenZ. cbn [length]. rewrite length_app. cbn [length]. lia. }
  split; [done|]. split; rewrite read_inside by lia.
  - assert (slice (file_of sd data) 0 8 = Z_to_little_endian 8 8 (lenZ (header_for sd))) as -> by by apply slice_app_l. done.
  - assert (slice (file_of sd data) 8 1 = [123]) as ->; [|done]. unfold file_of. rewrite E at 2.
    change (123 :: text ++ [125]) with ([123] ++ (text ++ [125])). rewrite <-app_assoc. by apply slice_mid.
Qed.

Lemma magic_of_size v : 0 <= v < 2 ^ 32 -> u32_of_memory false (take 4 (Z_to_little_endian 8 8 v)) = v.
Proof.
  intros Hv. change (take 4 (Z_to_little_endian 8 8 v)) with (Z_to_little_endian 4 8 v). unfold u32_of_memory.
  rewrite little_endian_to_Z_to_little_endian by lia. by apply Z.mod_small.
Qed.

(** The file that is saved is recognised: [is_valid_file] accepts it on
    every host, and [detect_format] names it on a little-endian host unless the
    header has the size limit exactly. *)
Theorem saved_file_is_recognised b1 big sd m file m1 : fits_file sd m -> save b1 sd m = Ok (map Some file, m1) ->
  is_valid_file big (Some file) = true /\
  (lenZ (header_for sd) < MAX_HEADER -> detect_format false (Some file) = FormatSafeTensors).
Proof.
  intros Hf Hsave. destruct (save_file b1 sd m Hf) as (data & ds & m2 & E & _). rewrite Hsave in E.
  apply Ok_inj, (f_equal fst) in E. cbn [fst] in E. apply (inj (map Some)) in E as ->. pose proof (ff_header _ _ Hf) as Hh.
  destruct (file_start sd data Hh) as (text & Eh & E8 & E1). unfold is_valid_file, detect_format. rewrite E8. cbn [good negb].
  destruct (le_bytes (lenZ (header_for sd))) as [Hl Hb]. pose proof (lenZ_nonneg (header_for sd)). unfold MAX_HEADER in *.
  rewrite size_read, magic_of_size, E1 by (done || lia). unfold u64_of_memory. rewrite size_value by lia.
  assert (2 <= lenZ (header_for sd)) as H2'.
  { rewrite Eh. unfold lenZ. cbn [length]. rewrite length_app. cbn [length]. lia. }
  split.
  - destruct (Z.gtb_spec (lenZ (header_for sd)) (100 * 1024 * 1024)); [lia|].
    destruct (Z.ltb_spec (lenZ (header_for sd)) 2); [lia|]. done.
  - intros Hm. destruct (Z.eqb_spec (lenZ (header_for sd)) TENZOR_MAGIC) as [Et|_]; [rewrite Et in Hm; done|].
    destruct (Z.gtb_spec (lenZ (header_for sd)) 0), (Z.ltb_spec (lenZ (header_for sd)) (100 * 1024 * 1024)); try lia. done.
Qed.

End RoundTrip.

(** The file does not depend on the order in which the hash map of the
    state dictionary is iterated over. *)
Theorem save_is_deterministic `{!Backend, !Omp} (h1 h2 : Hashing) big sd m : @save _ _ h1 big sd m = @save _ _ h2 big sd m.
Proof. unfold save. by rewrite (ordered_unique sd (@iteration h1 _ sd) (@iteration h2 _ sd)) by apply iteration_perm. Qed.

End Checkpoints.
