(* ===== verification/SafeTensorsExamples.v ===== *)
(** * A checkpoint, and the theorems on it

    A matrix, its transpose and two-byte integers over the same memory, saved
    under three names: the hypotheses of the theorems on SafeTensors files hold,
    and the definitions compute.  Then files on which the code does something
    unexpected. *)

From stdpp Require Import base list numbers list_numbers strings gmap sorting.
From S2P Require Import Prelude MapSums Shape DType Tensor TensorViews TensorKernels TensorCopy TensorContiguous TensorGather TensorExamples SafeTensors SafeTensorsJson SafeTensorsLoad SafeTensorsSave SafeTensorsClient.

Module CheckpointExamples.
Import Sums Tensor Views Kernels Copying Contig Gather Examples SafeTensors Json Bytes Loading Saving Checkpoints.

#[local] Existing Instances granting backwards.

(** A hash map that is iterated over backwards. *)
#[local] Instance reversed : Hashing.
Proof. refine {| iteration A m := reverse (map_to_list m) |}. intros A m. apply reverse_Permutation. Defined.

Definition shorts : TensorImpl := mkTensor 0 [3; 2] [2; 1] 0 Int16 false None None (-1).

Definition dict : gmap (list Z) TensorImpl :=
  <[chars "w.t" := transposed]> (<[chars "w" := matrix]> (<[[34; 10; 233] := shorts]> ∅)).

(** The header that is written; names and keys are quoted. *)
Example header_text : header_for dict =
  chars "{" ++ quoted [92; 34; 92; 110; 233] ++ chars ":{" ++ quoted (chars "dtype") ++ chars ":" ++ quoted (chars "I16") ++
  chars "," ++ quoted (chars "shape") ++ chars ":[3,2]," ++ quoted (chars "data_offsets") ++ chars ":[0,12]}," ++
  quoted (chars "w") ++ chars ":{" ++ quoted (chars "dtype") ++ chars ":" ++ quoted (chars "U8") ++
  chars "," ++ quoted (chars "shape") ++ chars ":[3,4]," ++ quoted (chars "data_offsets") ++ chars ":[12,24]}," ++
  quoted (chars "w.t") ++ chars ":{" ++ quoted (chars "dtype") ++ chars ":" ++ quoted (chars "U8") ++
  chars "," ++ quoted (chars "shape") ++ chars ":[4,3]," ++ quoted (chars "data_offsets") ++ chars ":[24,36]}}".
Proof. vm_compute. reflexivity. Qed.

Lemma memory_written t : storage t = 0%nat -> initialised memory t.
Proof.
  intros E idx _. unfold elem. rewrite E. apply Forall_take, Forall_drop. cbn [memory lookup list_lookup from_option id].
  apply Forall_fmap, Forall_forall. intros i _. by eexists.
Qed.

Lemma shorts_sound : sound memory shorts.
Proof.
  split; [split; [done|by repeat constructor|by vm_compute]|]. intros idx Hv.
  exact (ravel_bound [3; 2] idx Hv).
Qed.

Lemma grants_shorts m : allocatable m [3; 2] Int16.
Proof. apply allocatable_intro; [by repeat constructor|by vm_compute|]. intros m' _. by vm_compute. Qed.

Lemma dict_entries name t : dict !! name = Some t -> t = transposed \/ t = matrix \/ t = shorts.
Proof.
  unfold dict. intros [[_ <-]|[_ [[_ <-]|[_ [[_ <-]|[_ H]]%lookup_insert_Some]]%lookup_insert_Some]]%lookup_insert_Some;
    [auto..|by rewrite lookup_empty in H].
Qed.

Lemma dict_fits : fits_file dict memory.
Proof.
  split.
  - exact memory_fits.
  - intros name t [-> | [-> | ->]]%dict_entries.
    + split; [exact transposed_sound|by apply grants|by repeat constructor|by vm_compute].
    + split; [exact matrix_sound|by apply grants|by repeat constructor|by vm_compute].
    + split; [exact shorts_sound|apply grants_shorts|by repeat constructor|by vm_compute].
  - intros name t [-> | [-> | ->]]%dict_entries; by apply memory_written.
  - by vm_compute.
  - by vm_compute.
  - by vm_compute.
Qed.


(** The bytes of the file. *)
Definition dict_file : list Z := Eval vm_compute in match save false dict memory with Ok (bs, _) => map (default 0) bs | Err _ => [] end.

(** The file cut off inside the data. *)
Definition truncated : list Z := Eval vm_compute in take 190 dict_file.

Lemma truncated_bytes : Forall byte truncated.
Proof. repeat constructor; by vm_compute. Qed.

Lemma truncated_size : lenZ truncated <= INT64_MAX.
Proof. by vm_compute. Qed.

Lemma load_untrusted_is_safe_witness :
  match load true (Some truncated) memory with
  | Ok (res, m') => extends memory m' /\ forall name t, res !! name = Some t -> sound m' t
  | Err e => e <> UndefinedBehaviour /\ e <> Diverged /\ e <> Terminated
  end.
Proof.
  pose proof (load_untrusted_is_safe true truncated memory truncated_bytes truncated_size) as H. exact H.
Defined.

(** A file with one tensor, and the memory after it is loaded. *)
Definition file_with (header : list Z) (data : list Z) : list Z := Z_to_little_endian 8 8 (lenZ header) ++ header ++ data.

Definition entry (name shape offsets : string) : list Z :=
  quoted (chars name) ++ chars ":{" ++ quoted (chars "dtype") ++ chars ":" ++ quoted (chars "I16") ++ chars ", " ++
  quoted (chars "shape") ++ chars ": [" ++ chars shape ++ chars "], " ++ quoted (chars "data_offsets") ++ chars ": [" ++
  chars offsets ++ chars "]}".

Definition small_file : list Z := Eval vm_compute in
  file_with (chars "{" ++ entry "b" "1" "4, 6" ++ chars " , " ++ entry "a" "2,1" "0,4" ++ chars "}  ") [1; 2; 3; 4; 5; 6].

Definition small_result : gmap (list Z) TensorImpl :=
  <[chars "a" := mkTensor 1 [2; 1] [1; 1] 0 Int16 false None None (-1)]>
    (<[chars "b" := mkTensor 2 [1] [1] 0 Int16 false None None (-1)]> ∅).

Lemma small_loads : load false (Some small_file) memory =
  Ok (small_result, memory ++ [map Some [1; 2; 3; 4]; map Some [5; 6]]).
Proof. vm_compute. reflexivity. Qed.

Lemma small_bytes : Forall byte small_file.
Proof. repeat constructor; by vm_compute. Qed.

Lemma small_size : lenZ small_file <= INT64_MAX.
Proof. by vm_compute. Qed.

Lemma load_accounts_for_every_byte_witness : exists metas, parse_header_json (header_of small_file) = Ok metas /\
  (forall name, is_Some (small_result !! name) <-> is_Some (metas !! name)) /\
  (forall q, 0 <= q < section_len small_file -> exists name meta, metas !! name = Some meta /\ data_start meta <= q < data_end meta /\
    forall name' meta', metas !! name' = Some meta' -> data_start meta' <= q < data_end meta' -> name' = name).
Proof.
  pose proof (load_accounts_for_every_byte false small_file memory small_result
    (memory ++ [map Some [1; 2; 3; 4]; map Some [5; 6]]) small_bytes small_size small_loads) as H.
  destruct H as (metas & Hp & Hn & _ & Hq). exists metas. exact (conj Hp (conj Hn Hq)).
Defined.

Lemma dict_saved : exists m1, save false dict memory = Ok (map Some dict_file, m1).
Proof. eexists. vm_compute. reflexivity. Qed.

Lemma dict_header : lenZ (header_for dict) < MAX_HEADER.
Proof. by vm_compute. Qed.

Lemma saved_file_is_recognised_witness : is_valid_file true (Some dict_file) = true /\
  detect_format false (Some dict_file) = FormatSafeTensors.
Proof.
  destruct dict_saved as [m1 Hs]. pose proof (saved_file_is_recognised false true dict memory dict_file m1 dict_fits Hs) as H.
  exact (conj (proj1 H) (proj2 H dict_header)).
Defined.

(** ** Surprises *)

(** On a big-endian host [detect_format] does not convert the header size. *)
Lemma detection_depends_on_host : detect_format false (Some dict_file) = FormatSafeTensors /\
  detect_format true (Some dict_file) = FormatUnknown /\ is_valid_file true (Some dict_file) = true.
Proof. by vm_compute. Qed.

(** A tensor called __metadata__ is written, but its file is not read back. *)
Lemma metadata_name_is_lost : match save false (<[METADATA := matrix]> ∅) memory with
  | Ok (file, m1) => load false (Some (map (default 0) file)) m1 = Err err_dead
  | Err _ => False
  end.
Proof. vm_compute. reflexivity. Qed.

(** Metadata is skipped by counting braces, also those inside its strings. *)
Definition with_note (note : string) : list Z :=
  file_with (chars "{" ++ quoted METADATA ++ chars ":{" ++ quoted (chars "note") ++ chars ":" ++ quoted (chars note) ++
             chars "}," ++ entry "a" "1" "0,2" ++ chars "}") [7; 8].

Lemma brace_in_metadata : is_ok (load false (Some (with_note "fine")) memory) = true /\
  load false (Some (with_note "not } fine")) memory = Err err_expected.
Proof. vm_compute. split; reflexivity. Qed.

(** An escape that JSON has and the parser has not: the name is u00e9. *)
Lemma unicode_escape_is_misread : parse_string (quoted ([92] ++ chars "u00e9")) = Ok (chars "u00e9", []).
Proof. reflexivity. Qed.

(** Control characters that JSON forbids in strings are written as they are. *)
Lemma control_characters_are_raw : escape_json_string [1; 8; 12] = [1; 8; 12].
Proof. reflexivity. Qed.

(** The header need not be closed. *)
Lemma unclosed_header : rmap fst (load false (Some (file_with (chars "{") [])) memory) = Ok ∅.
Proof. vm_compute. reflexivity. Qed.

End CheckpointExamples.
