(* ===== verification/FloatAttrs.v ===== *)
(** * The [float] and [double] values of attributes

    An operator attribute is a [double]; the Lite model stores it as a
    [float], whose 32-bit pattern the file carries.  Values are those of the
    IEEE formats (SpecFloat: sign, mantissa, exponent), the conversions those
    of the language: rounding to nearest even, truncation to an integer. *)

From Stdlib Require Import SpecFloat.
From stdpp Require Import base list numbers.
From S2P Require Import Prelude.

Module FloatAttrs.

Definition double : Type := spec_float.
Definition float : Type := spec_float.

Definition valid64 (x : double) : Prop := valid_binary 53 1024 x = true.
Definition valid32 (x : float) : Prop := valid_binary 24 128 x = true.

(** [static_cast<float>(double)] and its converse. *)
Definition convert (prec emax : Z) (x : spec_float) : spec_float :=
  match x with
  | S754_finite s m e => binary_round prec emax s m e
  | _ => x
  end.

Definition float_of_double (x : double) : float := convert 24 128 x.
Definition double_of_float (x : float) : double := convert 53 1024 x.

(** [static_cast<double>(int64_t)]. *)
Definition double_of_int (z : Z) : double := binary_normalize 53 1024 z 0 false.

(** [static_cast<int64_t>(double)]: truncation; undefined out of range. *)
Definition int_of_double (x : double) : result Z :=
  match x with
  | S754_zero _ => Ok 0
  | S754_finite s m e =>
      let a := if 0 <=? e then Z.pos m * 2 ^ e else Z.pos m / 2 ^ (- e) in
      i64 (if s then - a else a)
  | _ => Err UndefinedBehaviour
  end.

(** [x != 0.0]. *)
Definition nonzero (x : spec_float) : bool := match x with S754_zero _ => false | _ => true end.

(** ** The 32-bit pattern of a [float] *)

Definition sign_bit (s : bool) : Z := if s then 2 ^ 31 else 0.

(** The quiet NaN stands for all. *)
Definition bits_of_float (x : float) : Z :=
  match x with
  | S754_zero s => sign_bit s
  | S754_infinity s => sign_bit s + 0x7F800000
  | S754_nan => 0x7FC00000
  | S754_finite s m e =>
      if Z.pos m <? 2 ^ 23 then sign_bit s + Z.pos m
      else sign_bit s + (e + 150) * 2 ^ 23 + (Z.pos m - 2 ^ 23)
  end.

Definition float_of_bits (b : Z) : float :=
  let s := 2 ^ 31 <=? b in
  let ex := b / 2 ^ 23 mod 2 ^ 8 in
  let m := b mod 2 ^ 23 in
  if ex =? 0 then match m with Z.pos p => S754_finite s p (-149) | _ => S754_zero s end
  else if ex =? 255 then if m =? 0 then S754_infinity s else S754_nan
  else S754_finite s (Z.to_pos (m + 2 ^ 23)) (ex - 150).

(** ** Digits and shifts *)

Lemma digits2_pos_bounds m : 2 ^ (Z.pos (digits2_pos m) - 1) <= Z.pos m < 2 ^ Z.pos (digits2_pos m).
Proof.
  induction m as [m IH|m IH|]; cbn [digits2_pos]; [| |done]; rewrite Pos2Z.inj_succ; unfold Z.succ;
    rewrite Z.add_simpl_r; set (k := Z.pos (digits2_pos m)) in *;
    assert (2 ^ k = 2 * 2 ^ (k - 1)) as Hk by (rewrite <-Z.pow_succ_r by lia; f_equal; lia);
    rewrite Z.pow_add_r by lia; change (2 ^ 1) with 2;
    [rewrite (Pos2Z.inj_xI m)|rewrite (Pos2Z.inj_xO m)]; lia.
Qed.

Lemma digits2_pos_unique m d : 0 < d -> 2 ^ (d - 1) <= Z.pos m < 2 ^ d -> Z.pos (digits2_pos m) = d.
Proof.
  intros Hd Hm. pose proof (digits2_pos_bounds m) as Hb. set (k := Z.pos (digits2_pos m)) in *.
  destruct (Z.lt_trichotomy k d) as [H|[H|H]]; [|done|].
  - assert (2 ^ k <= 2 ^ (d - 1)) by (apply Z.pow_le_mono_r; lia). lia.
  - assert (2 ^ d <= 2 ^ (k - 1)) by (apply Z.pow_le_mono_r; lia). lia.
Qed.

Lemma digits2_pos_le m d : 0 <= d -> Z.pos m < 2 ^ d -> Z.pos (digits2_pos m) <= d.
Proof.
  intros Hd Hm. pose proof (digits2_pos_bounds m) as [Hb _].
  destruct (Z.le_gt_cases (Z.pos (digits2_pos m)) d) as [H|H]; [done|].
  assert (2 ^ d <= 2 ^ (Z.pos (digits2_pos m) - 1)) by (apply Z.pow_le_mono_r; lia). lia.
Qed.

Lemma iter_pos_nat {A} (f : A -> A) n x : SpecFloat.iter_pos f n x = Nat.iter (Pos.to_nat n) f x.
Proof.
  revert x. induction n as [n IH|n IH|]; intros x; cbn [SpecFloat.iter_pos].
  - rewrite !IH, Pos2Nat.inj_xI. replace (S (2 * Pos.to_nat n)) with (Pos.to_nat n + (Pos.to_nat n + 1))%nat by lia.
    rewrite !Nat.iter_add. done.
  - rewrite !IH, Pos2Nat.inj_xO. replace (2 * Pos.to_nat n)%nat with (Pos.to_nat n + Pos.to_nat n)%nat by lia.
    by rewrite Nat.iter_add.
  - done.
Qed.

(** One step of a right shift halves the mantissa. *)
Lemma shr_1_half r : 0 <= shr_m r -> shr_m (shr_1 r) = shr_m r / 2 /\ 0 <= shr_m (shr_1 r).
Proof.
  destruct r as [m r s]; cbn. destruct m as [|[p|p|]|p]; cbn; try done; intros _.
  - split; [|done]. apply (Z.div_unique _ _ _ 1); lia.
  - split; [|done]. apply (Z.div_unique _ _ _ 0); lia.
Qed.

Lemma shr_iter_half n r : 0 <= shr_m r ->
  shr_m (Nat.iter n shr_1 r) = shr_m r / 2 ^ Z.of_nat n /\ 0 <= shr_m (Nat.iter n shr_1 r).
Proof.
  intros H. induction n as [|n [IH Hn]]; [by rewrite Z.div_1_r|].
  change (Nat.iter (S n) shr_1 r) with (shr_1 (Nat.iter n shr_1 r)).
  destruct (shr_1_half _ Hn) as [H0 H1]. split; [|exact H1].
  rewrite H0, IH, Nat2Z.inj_succ, Z.pow_succ_r, Z.mul_comm by lia. rewrite Z.div_div by lia. done.
Qed.

(** Shifting out zeros is exact. *)
Lemma shr_1_even p : shr_1 (Build_shr_record (2 * Z.pos p) false false) = Build_shr_record (Z.pos p) false false.
Proof. done. Qed.

Lemma shr_iter_exact n p :
  Nat.iter n shr_1 (Build_shr_record (Z.pos p * 2 ^ Z.of_nat n) false false) = Build_shr_record (Z.pos p) false false.
Proof.
  induction n as [|n IH]; [by rewrite Z.mul_1_r|]. rewrite Nat.iter_succ_r.
  rewrite Nat2Z.inj_succ, Z.pow_succ_r by lia.
  assert (exists q, Z.pos p * 2 ^ Z.of_nat n = Z.pos q) as [q Hq].
  { assert (0 < 2 ^ Z.of_nat n) by lia. exists (Z.to_pos (Z.pos p * 2 ^ Z.of_nat n)). lia. }
  replace (Z.pos p * (2 * 2 ^ Z.of_nat n)) with (2 * Z.pos q) by lia. by rewrite shr_1_even, <-Hq.
Qed.

(** ** Conversions that lose nothing *)

Section format.
Context (prec emax : Z).
Context (Hprec : 1 < prec) (Hemax : prec < emax).

#[local] Notation fexp := (fexp prec emax).
#[local] Notation valid x := (valid_binary prec emax x = true).

Lemma valid_finite s m e : valid (S754_finite s m e) <->
  fexp (Z.pos (digits2_pos m) + e) = e /\ e <= emax - prec.
Proof. cbn. unfold bounded, canonical_mantissa. rewrite andb_true_iff, Z.eqb_eq, Z.leb_le. done. Qed.

Lemma shr_nonpos r e n : n <= 0 -> shr r e n = (r, e).
Proof. destruct n; [done|lia|done]. Qed.

Lemma shr_exact p e n : 0 <= n ->
  shr (Build_shr_record (Z.pos p * 2 ^ n) false false) e n = (Build_shr_record (Z.pos p) false false, e + n).
Proof.
  intros Hn. destruct n as [|n|]; [by rewrite Z.mul_1_r, Z.add_0_r| |lia].
  unfold shr. rewrite iter_pos_nat, <-(positive_nat_Z n), shr_iter_exact. done.
Qed.

(** Rounding a number of the format returns it. *)
Lemma binary_round_aux_id s m e : valid (S754_finite s m e) ->
  binary_round_aux prec emax s (Z.pos m) e loc_Exact = S754_finite s m e.
Proof.
  intros [Hf He]%valid_finite. unfold binary_round_aux, shr_fexp. cbn [shr_record_of_loc Zdigits2].
  rewrite Hf, Z.sub_diag. cbn [shr shr_m loc_of_shr_record round_nearest_even shr_record_of_loc Zdigits2].
  rewrite Hf, Z.sub_diag. cbn [shr shr_m]. by rewrite (proj2 (Z.leb_le _ _) He).
Qed.

(** So does rounding any other way to write it. *)
Lemma binary_round_shifted s m e n p k : valid (S754_finite s m e) -> 0 <= n ->
  Z.pos p = Z.pos m * 2 ^ n -> k = e - n -> binary_round prec emax s p k = S754_finite s m e.
Proof.
  intros Hv Hn Hp ->. pose proof Hv as [Hf He]%valid_finite.
  assert (Z.pos (digits2_pos p) = Z.pos (digits2_pos m) + n) as Hd.
  { pose proof (digits2_pos_bounds m) as Hm. apply digits2_pos_unique; [lia|]. rewrite Hp.
    replace (Z.pos (digits2_pos m) + n - 1) with (Z.pos (digits2_pos m) - 1 + n) by lia.
    rewrite !Z.pow_add_r by lia. assert (0 < 2 ^ n) by lia. nia. }
  unfold binary_round. rewrite Hd. replace (Z.pos (digits2_pos m) + n + (e - n)) with (Z.pos (digits2_pos m) + e) by lia.
  rewrite Hf. unfold shl_align. replace (e - (e - n)) with n by lia.
  assert (match n with Z.neg d => (Pos.iter xO p d, e) | _ => (p, e - n) end = (p, e - n)) as -> by (destruct n; [done..|lia]).
  unfold binary_round_aux, shr_fexp. cbn [shr_record_of_loc Zdigits2]. rewrite Hd.
  replace (Z.pos (digits2_pos m) + n + (e - n)) with (Z.pos (digits2_pos m) + e) by lia.
  rewrite Hf, Hp. replace (e - (e - n)) with n by lia. rewrite shr_exact by done. replace (e - n + n) with e by lia.
  cbn [shr_m loc_of_shr_record round_nearest_even shr_record_of_loc Zdigits2]. rewrite Hf, Z.sub_diag.
  cbn [shr shr_m]. by rewrite (proj2 (Z.leb_le _ _) He).
Qed.

(** ** Rounding stays in the format *)

Lemma shr_fexp_spec m e n : 0 <= m -> n = Z.max 0 (fexp (Zdigits2 m + e) - e) ->
  exists r, shr_fexp prec emax m e loc_Exact = (r, e + n) /\ shr_m r = m / 2 ^ n.
Proof.
  intros Hm ->. unfold shr_fexp. cbn [shr_record_of_loc]. set (k := fexp _ - e).
  destruct (Z.le_gt_cases k 0) as [Hk|Hk].
  - rewrite shr_nonpos, Z.max_l by lia. eexists. rewrite Z.add_0_r, Z.div_1_r. done.
  - rewrite Z.max_r by lia. destruct k as [|k|]; [lia| |lia]. eexists. split; [done|].
    rewrite iter_pos_nat. destruct (shr_iter_half (Pos.to_nat k) (Build_shr_record m false false)) as [-> _]; [done|].
    by rewrite positive_nat_Z.
Qed.

Lemma round_nearest_even_step m l : m <= round_nearest_even m l <= m + 1.
Proof. destruct l as [|[]]; cbn; [lia| |lia|lia]. destruct (Z.even m); lia. Qed.

Lemma fexp_ge z : emin prec emax <= fexp z.
Proof. unfold SpecFloat.fexp. lia. Qed.

(** The mantissa after the first shift. *)
Lemma first_shift m e n : n = Z.max 0 (fexp (Z.pos (digits2_pos m) + e) - e) -> e <= fexp (Z.pos (digits2_pos m) + e) ->
  0 <= Z.pos m / 2 ^ n < 2 ^ prec /\ (emin prec emax < e + n -> 2 ^ (prec - 1) <= Z.pos m / 2 ^ n).
Proof.
  intros Hn He. pose proof (digits2_pos_bounds m) as [Hlo Hhi]. set (d := Z.pos (digits2_pos m)) in *.
  unfold SpecFloat.fexp in *. rewrite Z.max_r in Hn by lia. assert (0 <= n) by lia. assert (0 < 2 ^ n) by lia.
  split; [split; [apply Z.div_pos; lia|]|].
  - apply Z.div_lt_upper_bound; [lia|]. rewrite <-Z.pow_add_r by lia.
    apply Z.lt_le_trans with (2 ^ d); [done|]. apply Z.pow_le_mono_r; lia.
  - intros Hmin. apply Z.div_le_lower_bound; [lia|]. rewrite <-Z.pow_add_r by lia. etrans; [|exact Hlo].
    apply Z.pow_le_mono_r; lia.
Qed.

Lemma binary_round_aux_valid s m e : e <= fexp (Z.pos (digits2_pos m) + e) ->
  valid (binary_round_aux prec emax s (Z.pos m) e loc_Exact).
Proof.
  intros He. unfold binary_round_aux.
  destruct (shr_fexp_spec (Z.pos m) e _ ltac:(done) eq_refl) as (r1 & E1 & Hm1). rewrite E1. cbn [Zdigits2] in *.
  set (n := Z.max 0 _) in *. destruct (first_shift m e n eq_refl He) as [Hr Hn].
  pose proof (round_nearest_even_step (shr_m r1) (loc_of_shr_record r1)) as Hs.
  set (m2 := round_nearest_even _ _) in *. rewrite Hm1 in Hs. clearbody m2.
  assert (e + n = fexp (Z.pos (digits2_pos m) + e)) as Hen by (subst n; lia).
  pose proof (fexp_ge (Z.pos (digits2_pos m) + e)) as Hmin. clearbody n.
  set (e1 := e + n) in *. clearbody e1. rewrite <-Hen in Hmin. clear Hen He E1.
  destruct (shr_fexp_spec m2 e1 _ ltac:(lia) eq_refl) as (r2 & -> & Hm2).
  destruct m2 as [|p|p]; [by rewrite Hm2, Z.div_0_l by lia| |lia]. cbn [Zdigits2] in *.
  destruct (Z.lt_ge_cases (Z.pos p) (2 ^ prec)) as [Hp|Hp].
  - pose proof (digits2_pos_le p prec ltac:(lia) Hp). set (d := Z.pos (digits2_pos p)) in *.
    assert (fexp (d + e1) = e1) as Hf.
    { destruct (Z.eq_dec e1 (emin prec emax)) as [->|Hne]; unfold SpecFloat.fexp; [lia|].
      assert (d = prec) as ->; [|lia]. apply digits2_pos_unique; [lia|]. split; [|done]. specialize (Hn ltac:(lia)). lia. }
    rewrite Hf, Z.sub_diag in *. change (Z.max 0 0) with 0 in *. rewrite Z.div_1_r in Hm2. rewrite Hm2, Z.add_0_r.
    destruct (Z.leb_spec e1 (emax - prec)); [|done]. apply valid_finite. done.
  - assert (Z.pos p = 2 ^ prec) as Hpe by lia.
    assert (Z.pos (digits2_pos p) = prec + 1) as Hd.
    { apply digits2_pos_unique; [lia|]. rewrite Z.add_simpl_r, Z.pow_add_r by lia. lia. }
    assert (fexp (prec + 1 + e1) = e1 + 1) as Hf by (unfold SpecFloat.fexp; lia).
    rewrite Hd, Hf in *. replace (Z.max 0 (e1 + 1 - e1)) with 1 in * by lia.
    assert (shr_m r2 = 2 ^ (prec - 1)) as ->.
    { rewrite Hm2, Hpe. replace prec with (prec - 1 + 1) at 1 by lia. rewrite Z.pow_add_r by lia. by apply Z.div_mul. }
    assert (0 < 2 ^ (prec - 1)) by lia. destruct (2 ^ (prec - 1)) as [|q|] eqn:Eq; [lia| |lia].
    destruct (Z.leb_spec (e1 + 1) (emax - prec)); [|done]. apply valid_finite. split; [|done].
    replace (Z.pos (digits2_pos q)) with prec; [unfold SpecFloat.fexp; lia|]. symmetry.
    apply digits2_pos_unique; [lia|]. rewrite <-Eq. split; [lia|]. apply Z.pow_lt_mono_r; lia.
Qed.

Lemma shl_pos m d : Z.pos (Pos.iter xO m d) = Z.pos m * 2 ^ Z.pos d.
Proof. rewrite <-Z.shiftl_mul_pow2 by done. cbn [Z.shiftl]. by apply Pos.iter_swap_gen. Qed.

Lemma shl_align_spec m e : let '(p, k) := shl_align m e (fexp (Z.pos (digits2_pos m) + e)) in
  k = Z.min e (fexp (Z.pos (digits2_pos m) + e)) /\ Z.pos p = Z.pos m * 2 ^ (e - k) /\
  Z.pos (digits2_pos p) + k = Z.pos (digits2_pos m) + e.
Proof.
  unfold shl_align. set (f := fexp _). destruct (f - e) as [|d|d] eqn:E.
  - rewrite Z.min_l, Z.sub_diag, Z.mul_1_r by lia. done.
  - rewrite Z.min_l, Z.sub_diag, Z.mul_1_r by lia. done.
  - rewrite Z.min_r by lia. rewrite shl_pos. replace (e - f) with (Z.pos d) by lia. split; [done|]. split; [done|].
    assert (Z.pos (digits2_pos (Pos.iter xO m d)) = Z.pos (digits2_pos m) + Z.pos d) as ->; [|lia].
    pose proof (digits2_pos_bounds m) as Hm. apply digits2_pos_unique; [lia|]. rewrite shl_pos.
    replace (Z.pos (digits2_pos m) + Z.pos d - 1) with (Z.pos (digits2_pos m) - 1 + Z.pos d) by lia.
    rewrite !Z.pow_add_r by lia. assert (0 < 2 ^ Z.pos d) by lia. nia.
Qed.

Lemma binary_round_valid s m e : valid (binary_round prec emax s m e).
Proof.
  unfold binary_round. pose proof (shl_align_spec m e) as H.
  destruct (shl_align m e _) as [p k]. destruct H as (-> & _ & Hd). apply binary_round_aux_valid. rewrite Hd. lia.
Qed.

Lemma convert_valid x : valid (convert prec emax x).
Proof. destruct x; try done. apply binary_round_valid. Qed.

End format.

Lemma float_of_double_valid x : valid32 (float_of_double x).
Proof. by apply convert_valid. Qed.

Lemma double_of_float_valid x : valid64 (double_of_float x).
Proof. by apply convert_valid. Qed.

(** A [float] survives the way through [double]. *)
Lemma float_double_float x : valid32 x -> float_of_double (double_of_float x) = x.
Proof.
  destruct x as [s|s| |s m e]; try done. intros Hv. pose proof Hv as [Hf He]%valid_finite.
  pose proof (digits2_pos_bounds m) as Hm. set (d := Z.pos (digits2_pos m)) in *.
  unfold fexp, emin in Hf. assert (d <= 24) by lia.
  assert (double_of_float (S754_finite s m e) = S754_finite s (Z.to_pos (Z.pos m * 2 ^ (53 - d))) (d + e - 53)) as ->.
  { cbn [double_of_float convert]. unfold binary_round. pose proof (shl_align_spec 53 1024 m e) as Hal.
    fold d in Hal |- *. assert (fexp 53 1024 (d + e) = d + e - 53) as Hf64 by (unfold fexp, emin; lia).
    rewrite Hf64, Z.min_r in Hal by lia. rewrite Hf64.
    destruct (shl_align m e (d + e - 53)) as [p k]. destruct Hal as (-> & Hp & Hd).
    replace (e - (d + e - 53)) with (53 - d) in Hp by lia. rewrite <-Hp. cbn [Z.to_pos].
    apply binary_round_aux_id; [done..|]. apply valid_finite. rewrite Hd. split; [exact Hf64|lia]. }
  cbn [float_of_double convert]. assert (0 < 2 ^ (53 - d)) by lia.
  apply (binary_round_shifted 24 128) with (n := 53 - d); [exact Hv|lia| |lia]. rewrite Z2Pos.id; lia.
Qed.

(** ** The pattern determines the value *)

Lemma float_bits_roundtrip x : valid32 x -> float_of_bits (bits_of_float x) = x.
Proof.
  destruct x as [[]|[]| |s m e]; try done. intros [Hf He]%valid_finite. unfold fexp, emin in Hf.
  pose proof (digits2_pos_bounds m) as [Hlo Hhi]. set (d := Z.pos (digits2_pos m)) in *.
  assert (Z.pos m < 2 ^ 24) as Hm by (apply Z.lt_le_trans with (2 ^ d); [done|apply Z.pow_le_mono_r; lia]).
  unfold bits_of_float. destruct (Z.ltb_spec (Z.pos m) (2 ^ 23)) as [Hsub|Hnorm].
  - assert (d <= 23) by (apply digits2_pos_le; lia). assert (e = -149) as -> by lia.
    unfold float_of_bits. assert ((2 ^ 31 <=? sign_bit s + Z.pos m) = s) as ->.
    { destruct s; cbn [sign_bit]; destruct (Z.leb_spec (2 ^ 31) (2 ^ 31 + Z.pos m)), (Z.leb_spec (2 ^ 31) (0 + Z.pos m)); lia || done. }
    assert ((sign_bit s + Z.pos m) / 2 ^ 23 mod 2 ^ 8 = 0) as ->.
    { assert ((sign_bit s + Z.pos m) / 2 ^ 23 = if s then 256 else 0) as ->; [|by destruct s].
      symmetry. apply (Z.div_unique _ _ _ (Z.pos m)); destruct s; cbn [sign_bit]; lia. }
    assert ((sign_bit s + Z.pos m) mod 2 ^ 23 = Z.pos m) as ->; [|done].
    symmetry. apply (Z.mod_unique _ _ (if s then 256 else 0)); destruct s; cbn [sign_bit]; lia.
  - assert (d = 24) as Hd by (apply digits2_pos_unique; lia). rewrite Hd in *. unfold float_of_bits.
    set (b := sign_bit s + (e + 150) * 2 ^ 23 + (Z.pos m - 2 ^ 23)).
    assert (1 <= e + 150 <= 254) as He' by lia.
    assert ((2 ^ 31 <=? b) = s) as ->.
    { subst b. destruct s; cbn [sign_bit]; destruct (Z.leb_spec (2 ^ 31) (2 ^ 31 + (e + 150) * 2 ^ 23 + (Z.pos m - 2 ^ 23))),
        (Z.leb_spec (2 ^ 31) (0 + (e + 150) * 2 ^ 23 + (Z.pos m - 2 ^ 23))); lia || done. }
    assert (b / 2 ^ 23 mod 2 ^ 8 = e + 150) as ->.
    { assert (b / 2 ^ 23 = (if s then 256 else 0) + (e + 150)) as ->.
      - symmetry. apply (Z.div_unique _ _ _ (Z.pos m - 2 ^ 23)); subst b; destruct s; cbn [sign_bit]; lia.
      - symmetry. apply (Z.mod_unique _ _ (if s then 1 else 0)); destruct s; lia. }
    assert (b mod 2 ^ 23 = Z.pos m - 2 ^ 23) as ->.
    { symmetry. apply (Z.mod_unique _ _ ((if s then 256 else 0) + (e + 150))); subst b; destruct s; cbn [sign_bit]; lia. }
    destruct (Z.eqb_spec (e + 150) 0); [lia|]. destruct (Z.eqb_spec (e + 150) 255); [lia|].
    f_equal; lia.
Qed.

Lemma bits_of_float_u32 x : valid32 x -> 0 <= bits_of_float x < 2 ^ 32.
Proof.
  destruct x as [[]|[]| |s m e]; try (intros _; cbn; lia). intros [Hf He]%valid_finite. unfold fexp, emin in Hf.
  pose proof (digits2_pos_bounds m) as [_ Hhi]. set (d := Z.pos (digits2_pos m)) in *.
  assert (Z.pos m < 2 ^ 24) as Hm by (apply Z.lt_le_trans with (2 ^ d); [done|apply Z.pow_le_mono_r; lia]).
  unfold bits_of_float. destruct (Z.ltb_spec (Z.pos m) (2 ^ 23)), s; cbn [sign_bit]; lia.
Qed.

(** What a kernel reads back of a [double] the exporter stored as a [float]. *)
Definition stored (x : double) : Z := bits_of_float (float_of_double x).

Lemma stored_read x : float_of_double (double_of_float (float_of_bits (stored x))) = float_of_double x.
Proof.
  unfold stored. rewrite float_bits_roundtrip by apply float_of_double_valid.
  apply float_double_float, float_of_double_valid.
Qed.

Lemma stored_u32 x : 0 <= stored x < 2 ^ 32.
Proof. apply bits_of_float_u32, float_of_double_valid. Qed.

End FloatAttrs.
