(* ===== verification/OpAttributes.v ===== *)
(** * Operator attributes

    Models include/tenzor/backend/op_attributes.hpp: the attribute keys, the
    tagged values and the container with eight inline entries and an overflow
    vector.  A string is the list of its characters' codes; a [double] is a
    value of FloatAttrs.  The container implements a finite map. *)

From stdpp Require Import base list numbers strings gmap.
From S2P Require Import Prelude SafeTensors SafeTensorsJson FloatAttrs.
Import SafeTensors Json FloatAttrs.

Module AttrKey.

Inductive t : Type :=
  | Dim | Dim0 | Dim1 | StartDim | EndDim | NormalizedShape | Stride | StrideH | StrideW | StrideD | Padding
  | PaddingH | PaddingW | PaddingD | Dilation | DilationH | DilationW | DilationD | Groups | KernelSize
  | KernelSizeH | KernelSizeW | KernelSizeD | OutputPadding | OutputPaddingH | OutputPaddingW | OutputPaddingD
  | InputH | InputW | Eps | Momentum | Alpha | Beta | Beta1 | Beta2 | Tau | Value | Lr | LrDecay | WeightDecay
  | Rho | Dampening | Scale | Threshold | Correction | SpatialScale | SamplingRatio | DropoutP | Keepdim
  | Training | CeilMode | CountIncludePad | Right | Hard | Centered | Accumulate | Descending | Unbiased
  | Nesterov | Decoupled | Amsgrad | Largest | Sorted | ReturnInverse | ReturnCounts | AlignCorners | Aligned
  | Causal | ComputeGrad | ComputeGradInput | ComputeGradWeight | ComputeGradBias | Shape | Repeats
  | OutputSize | OutputSizeH | OutputSizeW | OutputSizeD | OutputRatioH | OutputRatioW | OutputRatioD | Chunks
  | SplitSize | Steps | Dtype | Device | NumEmbeddings | EmbeddingDim | NumClasses | Shift | Start | End
  | Step | MemoryFormat | Algorithm | WorkspaceLimit | Negative_slope | P | Norm | N | K | M | Diagonal | Mode
  | Reduction | HiddenSize | NumHeads | NumLayers | NumPositions | PaddingIdx | BatchSize | DeviceId
  | DeviceIndex | IouType | FeatHeight | FeatWidth | UseCudnnSdpa | Min | Max | Exponent | ScalarB | Order
  | Stream | InputShape | WeightShape | Starts | Ends | Dims | Reps | HasBias | HasBlockMask | HasRelposBias
  | IsTraining | NumGroups | TargetDtype | Channels | Height | Width | OutputHeight | OutputWidth | InputScale
  | InputZeroPoint | WeightScaleQ | WeightZeroPoint | OutputScale | OutputZeroPoint | ZeroPoint | IouThreshold
  | IncludeLastOffset | FullMatrices | Upper | UnitTriangular | Low | High | NumIndices | HopLength
  | WinLength | NFft | Normalized | OnesidedAttr | ReturnComplex | NumSamples | Replacement | NumBins | DistP
  | PaddingMode | IgnoreAliasCheck | NanValue | PosInfValue | NegInfValue | Lower | IncludeSelf | NumRepeats
  | Minlength | NormType | RandomSamples | MaxLen | PaddingValue | HeadDim | Dim2 | Index | Spacing | Dx
  | Left | TransposeQ | Ind | MaxNorm | Strides | StorageOffset | Seed | BinsList | RangesList | Density
  | OffsetGroups | UseMask | MaxIter | Tolerance | EinsumEquation | NumMels | NumMFCC | SampleRate | FMin
  | FMax | DCTType | ScoreModId | WindowSize | PrefixLength | Blank | ZeroInfinity | Q | FirstStep
  | DeviceType | NormOrd.

(** The underlying value. *)
Definition value (k : t) : Z :=
  match k with
  | Dim => 0 | Dim0 => 1 | Dim1 => 2 | StartDim => 3 | EndDim => 4 | NormalizedShape => 5 | Stride => 6
  | StrideH => 7 | StrideW => 8 | StrideD => 9 | Padding => 10 | PaddingH => 11 | PaddingW => 12
  | PaddingD => 13 | Dilation => 14 | DilationH => 15 | DilationW => 16 | DilationD => 17 | Groups => 18
  | KernelSize => 19 | KernelSizeH => 20 | KernelSizeW => 21 | KernelSizeD => 22 | OutputPadding => 23
  | OutputPaddingH => 24 | OutputPaddingW => 25 | OutputPaddingD => 26 | InputH => 27 | InputW => 28 | Eps => 29
  | Momentum => 30 | Alpha => 31 | Beta => 32 | Beta1 => 33 | Beta2 => 34 | Tau => 35 | Value => 36 | Lr => 37
  | LrDecay => 38 | WeightDecay => 39 | Rho => 40 | Dampening => 41 | Scale => 42 | Threshold => 43
  | Correction => 44 | SpatialScale => 45 | SamplingRatio => 46 | DropoutP => 47 | Keepdim => 48
  | Training => 49 | CeilMode => 50 | CountIncludePad => 51 | Right => 52 | Hard => 53 | Centered => 54
  | Accumulate => 55 | Descending => 56 | Unbiased => 57 | Nesterov => 58 | Decoupled => 59 | Amsgrad => 60
  | Largest => 61 | Sorted => 62 | ReturnInverse => 63 | ReturnCounts => 64 | AlignCorners => 65 | Aligned => 66
  | Causal => 67 | ComputeGrad => 68 | ComputeGradInput => 69 | ComputeGradWeight => 70 | ComputeGradBias => 71
  | Shape => 72 | Repeats => 73 | OutputSize => 74 | OutputSizeH => 75 | OutputSizeW => 76 | OutputSizeD => 77
  | OutputRatioH => 78 | OutputRatioW => 79 | OutputRatioD => 80 | Chunks => 81 | SplitSize => 82 | Steps => 83
  | Dtype => 84 | Device => 85 | NumEmbeddings => 86 | EmbeddingDim => 87 | NumClasses => 88 | Shift => 89
  | Start => 90 | End => 91 | Step => 92 | MemoryFormat => 93 | Algorithm => 94 | WorkspaceLimit => 95
  | Negative_slope => 96 | P => 97 | Norm => 98 | N => 99 | K => 100 | M => 101 | Diagonal => 102 | Mode => 103
  | Reduction => 104 | HiddenSize => 105 | NumHeads => 106 | NumLayers => 107 | NumPositions => 108
  | PaddingIdx => 109 | BatchSize => 110 | DeviceId => 111 | DeviceIndex => 112 | IouType => 113
  | FeatHeight => 114 | FeatWidth => 115 | UseCudnnSdpa => 116 | Min => 117 | Max => 118 | Exponent => 119
  | ScalarB => 120 | Order => 121 | Stream => 122 | InputShape => 123 | WeightShape => 124 | Starts => 125
  | Ends => 126 | Dims => 127 | Reps => 128 | HasBias => 129 | HasBlockMask => 130 | HasRelposBias => 131
  | IsTraining => 132 | NumGroups => 133 | TargetDtype => 134 | Channels => 135 | Height => 136 | Width => 137
  | OutputHeight => 138 | OutputWidth => 139 | InputScale => 140 | InputZeroPoint => 141 | WeightScaleQ => 142
  | WeightZeroPoint => 143 | OutputScale => 144 | OutputZeroPoint => 145 | ZeroPoint => 146
  | IouThreshold => 147 | IncludeLastOffset => 148 | FullMatrices => 149 | Upper => 150 | UnitTriangular => 151
  | Low => 152 | High => 153 | NumIndices => 154 | HopLength => 155 | WinLength => 156 | NFft => 157
  | Normalized => 158 | OnesidedAttr => 159 | ReturnComplex => 160 | NumSamples => 161 | Replacement => 162
  | NumBins => 163 | DistP => 164 | PaddingMode => 165 | IgnoreAliasCheck => 166 | NanValue => 167
  | PosInfValue => 168 | NegInfValue => 169 | Lower => 170 | IncludeSelf => 171 | NumRepeats => 172
  | Minlength => 173 | NormType => 174 | RandomSamples => 175 | MaxLen => 176 | PaddingValue => 177
  | HeadDim => 178 | Dim2 => 179 | Index => 180 | Spacing => 181 | Dx => 182 | Left => 183 | TransposeQ => 184
  | Ind => 185 | MaxNorm => 186 | Strides => 187 | StorageOffset => 188 | Seed => 189 | BinsList => 190
  | RangesList => 191 | Density => 192 | OffsetGroups => 193 | UseMask => 194 | MaxIter => 195
  | Tolerance => 196 | EinsumEquation => 197 | NumMels => 198 | NumMFCC => 199 | SampleRate => 200 | FMin => 201
  | FMax => 202 | DCTType => 203 | ScoreModId => 204 | WindowSize => 205 | PrefixLength => 206 | Blank => 207
  | ZeroInfinity => 208 | Q => 209 | FirstStep => 210 | DeviceType => 211 | NormOrd => 212
  end.

Definition all : list t :=
  [Dim; Dim0; Dim1; StartDim; EndDim; NormalizedShape; Stride; StrideH; StrideW; StrideD; Padding; PaddingH;
   PaddingW; PaddingD; Dilation; DilationH; DilationW; DilationD; Groups; KernelSize; KernelSizeH; KernelSizeW;
   KernelSizeD; OutputPadding; OutputPaddingH; OutputPaddingW; OutputPaddingD; InputH; InputW; Eps; Momentum;
   Alpha; Beta; Beta1; Beta2; Tau; Value; Lr; LrDecay; WeightDecay; Rho; Dampening; Scale; Threshold;
   Correction; SpatialScale; SamplingRatio; DropoutP; Keepdim; Training; CeilMode; CountIncludePad; Right; Hard;
   Centered; Accumulate; Descending; Unbiased; Nesterov; Decoupled; Amsgrad; Largest; Sorted; ReturnInverse;
   ReturnCounts; AlignCorners; Aligned; Causal; ComputeGrad; ComputeGradInput; ComputeGradWeight;
   ComputeGradBias; Shape; Repeats; OutputSize; OutputSizeH; OutputSizeW; OutputSizeD; OutputRatioH;
   OutputRatioW; OutputRatioD; Chunks; SplitSize; Steps; Dtype; Device; NumEmbeddings; EmbeddingDim; NumClasses;
   Shift; Start; End; Step; MemoryFormat; Algorithm; WorkspaceLimit; Negative_slope; P; Norm; N; K; M; Diagonal;
   Mode; Reduction; HiddenSize; NumHeads; NumLayers; NumPositions; PaddingIdx; BatchSize; DeviceId; DeviceIndex;
   IouType; FeatHeight; FeatWidth; UseCudnnSdpa; Min; Max; Exponent; ScalarB; Order; Stream; InputShape;
   WeightShape; Starts; Ends; Dims; Reps; HasBias; HasBlockMask; HasRelposBias; IsTraining; NumGroups;
   TargetDtype; Channels; Height; Width; OutputHeight; OutputWidth; InputScale; InputZeroPoint; WeightScaleQ;
   WeightZeroPoint; OutputScale; OutputZeroPoint; ZeroPoint; IouThreshold; IncludeLastOffset; FullMatrices;
   Upper; UnitTriangular; Low; High; NumIndices; HopLength; WinLength; NFft; Normalized; OnesidedAttr;
   ReturnComplex; NumSamples; Replacement; NumBins; DistP; PaddingMode; IgnoreAliasCheck; NanValue; PosInfValue;
   NegInfValue; Lower; IncludeSelf; NumRepeats; Minlength; NormType; RandomSamples; MaxLen; PaddingValue;
   HeadDim; Dim2; Index; Spacing; Dx; Left; TransposeQ; Ind; MaxNorm; Strides; StorageOffset; Seed; BinsList;
   RangesList; Density; OffsetGroups; UseMask; MaxIter; Tolerance; EinsumEquation; NumMels; NumMFCC; SampleRate;
   FMin; FMax; DCTType; ScoreModId; WindowSize; PrefixLength; Blank; ZeroInfinity; Q; FirstStep; DeviceType;
   NormOrd].

Lemma of_value k : all !! Z.to_nat (value k) = Some k.
Proof. by destruct k. Qed.

#[export] Instance t_eq_dec : EqDecision t.
Proof.
  intros k k'. destruct (decide (value k = value k')) as [H|H]; [left|right; congruence].
  pose proof (of_value k) as E. rewrite H, of_value in E. by injection E.
Defined.

#[export] Instance t_countable : Countable t.
Proof. refine (inj_countable value (fun z => all !! Z.to_nat z) of_value). Defined.

End AttrKey.
Export (hints) AttrKey.

Module OpAttributes.

#[local] Notation AttrKey := AttrKey.t.

(** ** [AttrValue] *)

Inductive AttrValue :=
| Int64 (i : Z)
| Float64 (f : double)
| Boolean (b : bool)
| String (s : list Z).

(** The payload of a [String] is the zero the union starts with. *)
Definition as_int (v : AttrValue) : result Z :=
  match v with
  | Float64 f => int_of_double f
  | Int64 i => Ok i
  | Boolean b => Ok (if b then 1 else 0)
  | String _ => Ok 0
  end.

Definition as_float (v : AttrValue) : double :=
  match v with
  | Int64 i => double_of_int i
  | Boolean b => double_of_int (if b then 1 else 0)
  | Float64 f => f
  | String _ => SpecFloat.S754_zero false
  end.

Definition as_bool (v : AttrValue) : bool :=
  match v with
  | Float64 f => nonzero f
  | Int64 i => negb (i =? 0)
  | Boolean b => b
  | String _ => false
  end.

Definition as_string (v : AttrValue) : list Z := match v with String s => s | _ => [] end.

(** ** The container *)

Record Entry := mkEntry { e_key : AttrKey; e_value : AttrValue }.

Definition SBO_SIZE : nat := 8.

Record OpAttributes := mkOA {
  inline_ : list Entry;      (* Entry inline_[SBO_SIZE] *)
  overflow_ : list Entry;
  size_ : nat
}.

Definition default_entry : Entry := mkEntry AttrKey.Dim (Int64 0).

Definition empty_attrs : OpAttributes := mkOA (replicate SBO_SIZE default_entry) [] 0.

(** The entry the loop of [set_entry] looks at for [i]. *)
Definition entry_at (a : OpAttributes) (i : nat) : result Entry :=
  match (if decide (i < SBO_SIZE)%nat then inline_ a !! i else overflow_ a !! (i - SBO_SIZE)%nat) with
  | Some e => Ok e
  | None => Err UndefinedBehaviour
  end.

Definition write_entry (a : OpAttributes) (i : nat) (e : Entry) : OpAttributes :=
  if decide (i < SBO_SIZE)%nat then mkOA (<[i := e]> (inline_ a)) (overflow_ a) (size_ a)
  else mkOA (inline_ a) (<[(i - SBO_SIZE)%nat := e]> (overflow_ a)) (size_ a).

(** The loop over [n] entries from [i]: the updated container, if a key matched. *)
Fixpoint update_existing (n i : nat) (a : OpAttributes) (key : AttrKey) (v : AttrValue) : result (option OpAttributes) :=
  match n with
  | O => Ok None
  | S n =>
      let* e := entry_at a i in
      if decide (e_key e = key) then Ok (Some (write_entry a i (mkEntry (e_key e) v)))
      else update_existing n (S i) a key v
  end.

Definition append_entry (a : OpAttributes) (e : Entry) : OpAttributes :=
  if decide (size_ a < SBO_SIZE)%nat then mkOA (<[size_ a := e]> (inline_ a)) (overflow_ a) (S (size_ a))
  else mkOA (inline_ a) (overflow_ a ++ [e]) (S (size_ a)).

Definition set_entry (key : AttrKey) (v : AttrValue) (a : OpAttributes) : result OpAttributes :=
  let* updated := update_existing (size_ a) 0 a key v in
  match updated with
  | Some a' => Ok a'
  | None => Ok (append_entry a (mkEntry key v))
  end.

Fixpoint find_key (key : AttrKey) (l : list Entry) : option AttrValue :=
  match l with
  | [] => None
  | e :: l => if decide (e_key e = key) then Some (e_value e) else find_key key l
  end.

Definition find (a : OpAttributes) (key : AttrKey) : option AttrValue :=
  match find_key key (take (Nat.min (size_ a) SBO_SIZE) (inline_ a)) with
  | Some v => Some v
  | None => find_key key (overflow_ a)
  end.

Definition has (a : OpAttributes) (key : AttrKey) : bool := bool_decide (is_Some (find a key)).

Definition get_int (a : OpAttributes) (key : AttrKey) (default_val : Z) : result Z :=
  match find a key with Some v => as_int v | None => Ok default_val end.

Definition get_float (a : OpAttributes) (key : AttrKey) (default_val : double) : double :=
  match find a key with Some v => as_float v | None => default_val end.

Definition get_bool (a : OpAttributes) (key : AttrKey) (default_val : bool) : bool :=
  match find a key with Some v => as_bool v | None => default_val end.

Definition get_string (a : OpAttributes) (key : AttrKey) (default_val : list Z) : list Z :=
  match find a key with Some v => as_string v | None => default_val end.

(** ** [get_int_list] *)

Definition blank (c : Z) : bool := (c =? 32) || (c =? 9).

Fixpoint skip_blanks (s : list Z) : list Z :=
  match s with c :: r => if blank c then skip_blanks r else s | [] => [] end.

(** [std::from_chars] for [int64_t]: the value and the rest, or an error. *)
Definition from_chars (s : list Z) : option (Z * list Z) :=
  let '(neg, s) := match s with c :: r => if c =? 45 then (true, r) else (false, s) | [] => (false, []) end in
  let '(ds, rest) := span_digits s in
  match ds with
  | [] => None
  | _ => let v := foldl push_digit 0 ds in
         let v := if neg : bool then - v else v in
         if in_i64 v then Some (v, rest) else None
  end.

(** The field up to the next comma and what follows it. *)
Fixpoint next_field (s : list Z) : list Z * list Z :=
  match s with
  | [] => ([], [])
  | c :: r => if c =? 44 then ([], r) else let '(f, rest) := next_field r in (c :: f, rest)
  end.

Definition err_field := InvalidArgument "get_int_list: empty field in attribute value '".
Definition err_integer := InvalidArgument "get_int_list: malformed integer '".

Definition parse_field (field : list Z) : result Z :=
  match skip_blanks field with
  | [] => Err err_field
  | s => match from_chars s with
         | Some (v, rest) => match skip_blanks rest with [] => Ok v | _ => Err err_integer end
         | None => Err err_integer
         end
  end.

(** The loop [while (start < str.size())]; each turn consumes a character. *)
Fixpoint int_list_loop (fuel : nat) (s : list Z) (acc : list Z) : result (list Z) :=
  match s with
  | [] => Ok acc
  | _ =>
      match fuel with
      | O => Err Diverged
      | S fuel =>
          let '(field, rest) := next_field s in
          let* v := parse_field field in
          int_list_loop fuel rest (acc ++ [v])
      end
  end.

Definition parse_int_list (s : list Z) : result (list Z) := int_list_loop (length s) s [].

Definition get_int_list (a : OpAttributes) (key : AttrKey) : result (list Z) :=
  match find a key with
  | None => Ok []
  | Some (Int64 i) => Ok [i]
  | Some (String s) => parse_int_list s
  | Some _ => Ok []
  end.

(** ** The map the container stands for *)

(** The live entries. *)
Definition entries (a : OpAttributes) : list Entry :=
  take (Nat.min (size_ a) SBO_SIZE) (inline_ a) ++ overflow_ a.

Definition to_map (a : OpAttributes) : gmap AttrKey AttrValue :=
  list_to_map (map (fun e => (e_key e, e_value e)) (entries a)).

Record attrs_wf (a : OpAttributes) : Prop := {
  aw_inline : length (inline_ a) = SBO_SIZE;
  aw_overflow : length (overflow_ a) = (size_ a - SBO_SIZE)%nat;
  aw_keys : NoDup (map e_key (entries a))
}.

Lemma pair_keys l : (map (fun e => (e_key e, e_value e)) l).*1 = map e_key l.
Proof. induction l as [|e l IH]; cbn; [done|]. by f_equal. Qed.

Lemma find_key_map key l : find_key key l = (list_to_map (map (fun e => (e_key e, e_value e)) l) : gmap AttrKey AttrValue) !! key.
Proof.
  induction l as [|e l IH]; cbn; [by rewrite lookup_empty|]. case_decide as H.
  - subst. by rewrite lookup_insert_eq.
  - by rewrite lookup_insert_ne, IH.
Qed.

Lemma find_to_map a key : find a key = to_map a !! key.
Proof.
  unfold find, to_map, entries. rewrite map_app, list_to_map_app, lookup_union, !find_key_map.
  by destruct (list_to_map (map _ (take _ _)) !! key), (list_to_map (map _ (overflow_ a)) !! key).
Qed.

Lemma length_entries_size a : attrs_wf a -> length (entries a) = size_ a.
Proof. intros [Hi Ho _]. unfold entries. rewrite length_app, length_take, Hi, Ho. unfold SBO_SIZE. lia. Qed.

Lemma entry_at_entries a i : attrs_wf a -> (i < size_ a)%nat -> exists e, entries a !! i = Some e /\ entry_at a i = Ok e.
Proof.
  intros Hwf Hi. pose proof (length_entries_size a Hwf) as Hlen. destruct Hwf as [Hin Ho _].
  assert (entries a !! i = if decide (i < SBO_SIZE)%nat then inline_ a !! i else overflow_ a !! (i - SBO_SIZE)%nat) as E.
  { unfold entries, SBO_SIZE in *. case_decide.
    - rewrite lookup_app_l by (rewrite length_take; lia). rewrite lookup_take_lt by lia. done.
    - rewrite lookup_app_r by (rewrite length_take; lia). f_equal. rewrite length_take. lia. }
  destruct (lookup_lt_is_Some_2 (entries a) i) as [e He]; [lia|].
  exists e. split; [done|]. unfold entry_at. by rewrite <-E, He.
Qed.

Lemma write_entries a i e : attrs_wf a -> (i < size_ a)%nat -> entries (write_entry a i e) = <[i := e]> (entries a).
Proof.
  intros [Hin Ho _] Hi. unfold entries, write_entry, SBO_SIZE in *. case_decide; cbn.
  - rewrite insert_app_l by (rewrite length_take; lia). by rewrite take_insert_lt by lia.
  - rewrite insert_app_r_alt by (rewrite length_take; lia). rewrite length_take. do 2 f_equal. lia.
Qed.

Lemma append_entries a e : attrs_wf a -> entries (append_entry a e) = entries a ++ [e].
Proof.
  intros [Hin Ho _]. unfold entries, append_entry, SBO_SIZE in *. case_decide; cbn.
  - assert (overflow_ a = []) as -> by (apply length_zero_iff_nil; lia). rewrite !app_nil_r.
    rewrite !Nat.min_l by lia. erewrite take_S_r by (apply list_lookup_insert_eq; lia).
    by rewrite take_insert_ge by lia.
  - rewrite !Nat.min_r by lia. by rewrite app_assoc.
Qed.

Lemma set_entry_spec key v a : attrs_wf a ->
  exists a', set_entry key v a = Ok a' /\ attrs_wf a' /\ to_map a' = <[key := v]> (to_map a).
Proof.
  intros Hwf. pose proof (length_entries_size a Hwf) as Hlen. pose proof Hwf as [Hin Ho Hnd].
  assert (forall n i, (i + n = size_ a)%nat -> (forall j e, (j < i)%nat -> entries a !! j = Some e -> e_key e <> key) ->
    (exists i e, entries a !! i = Some e /\ e_key e = key /\
      update_existing n (size_ a - n) a key v = Ok (Some (write_entry a i (mkEntry key v)))) \/
    (key ∉ map e_key (entries a) /\ update_existing n (size_ a - n) a key v = Ok None)) as Hloop.
  { induction n as [|n IH]; intros i Hi Hbefore.
    - right. split; [|done]. intros (e & -> & [j Hj]%list_elem_of_lookup)%list_elem_of_fmap.
      apply (Hbefore j e); [|done|done]. apply lookup_lt_Some in Hj. lia.
    - assert (size_ a - S n = i)%nat as -> by lia. cbn [update_existing].
      destruct (entry_at_entries a i Hwf ltac:(lia)) as (e & He & ->). cbn [rbind]. case_decide as Hk.
      + left. exists i, e. by rewrite Hk.
      + replace (S i) with (size_ a - n)%nat by lia. apply (IH (S i)); [lia|]. intros j e' Hj He' Hk'.
        destruct (decide (j = i)) as [->|]; [congruence|]. apply (Hbefore j e'); [lia|done..]. }
  unfold set_entry. replace (update_existing (size_ a) 0 a key v) with (update_existing (size_ a) (size_ a - size_ a) a key v)
    by (by rewrite Nat.sub_diag).
  destruct (Hloop (size_ a) 0%nat ltac:(lia) ltac:(lia)) as [(i & e & He & Hk & ->)|[Hni ->]]; cbn [rbind].
  - assert (i < size_ a)%nat as Hi by (apply lookup_lt_Some in He; lia).
    pose proof (write_entries a i (mkEntry key v) Hwf Hi) as Hw.
    assert (map e_key (entries (write_entry a i (mkEntry key v))) = map e_key (entries a)) as Hkeys.
    { rewrite Hw. change (map e_key) with (fmap (M := list) e_key). rewrite list_fmap_insert. cbn. apply list_insert_id.
      rewrite list_lookup_fmap, He. cbn. by rewrite Hk. }
    exists (write_entry a i (mkEntry key v)). split; [done|]. split.
    + split; [..|by rewrite Hkeys]; unfold write_entry; case_decide; cbn; rewrite ?length_insert; done.
    + apply map_eq. intros k. unfold to_map. rewrite Hw. symmetry. destruct (decide (k = key)) as [->|Hne].
      * rewrite lookup_insert_eq. symmetry. apply elem_of_list_to_map_1.
        { by rewrite pair_keys, <-Hw, Hkeys. }
        apply list_elem_of_fmap. exists (mkEntry key v). split; [done|]. apply list_elem_of_lookup. exists i.
        apply list_lookup_insert_eq. lia.
      * rewrite lookup_insert_ne by done. rewrite <-!find_key_map.
        clear -He Hk Hne. revert i He. induction (entries a) as [|x l IH]; intros [|i] He; try done; cbn in *.
        -- injection He as ->. rewrite decide_False by congruence. by rewrite decide_False.
        -- case_decide; [done|]. by apply IH.
  - exists (append_entry a (mkEntry key v)). pose proof (append_entries a (mkEntry key v) Hwf) as Ha. split; [done|]. split.
    + split; [..|rewrite Ha, map_app; apply NoDup_app; split; [done|split; [set_solver|apply NoDup_singleton]]];
        unfold append_entry, SBO_SIZE in *; case_decide; cbn; rewrite ?length_insert, ?length_app; cbn; lia.
    + unfold to_map. rewrite Ha, map_app, list_to_map_app. cbn. apply map_eq. intros k.
      rewrite lookup_union. destruct (decide (k = key)) as [->|Hne].
      * rewrite !lookup_insert_eq, (not_elem_of_list_to_map_1 (M := gmap AttrKey)); [done|]. by rewrite pair_keys.
      * rewrite !lookup_insert_ne, lookup_empty by done. by destruct (_ !! k).
Qed.

Lemma empty_wf : attrs_wf empty_attrs.
Proof. split; [done..|constructor]. Qed.

(** ** Sequences of [set] *)

Definition set_all (sets : list (AttrKey * AttrValue)) : result OpAttributes :=
  rfoldM (fun a p => set_entry p.1 p.2 a) sets empty_attrs.

(** The value the last [set] of a key has left. *)
Fixpoint last_set (sets : list (AttrKey * AttrValue)) (key : AttrKey) : option AttrValue :=
  match sets with
  | [] => None
  | (k, v) :: sets =>
      match last_set sets key with
      | Some w => Some w
      | None => if AttrKey.value k =? AttrKey.value key then Some v else None
      end
  end.

Lemma value_eqb k k' : (AttrKey.value k =? AttrKey.value k') = bool_decide (k = k').
Proof.
  destruct (Z.eqb_spec (AttrKey.value k) (AttrKey.value k')) as [H|H]; symmetry;
    [apply bool_decide_true|apply bool_decide_false; congruence].
  pose proof (AttrKey.of_value k) as E. rewrite H, AttrKey.of_value in E. by injection E.
Qed.

Lemma set_all_from sets a : attrs_wf a -> exists a', rfoldM (fun a p => set_entry p.1 p.2 a) sets a = Ok a' /\
  attrs_wf a' /\ forall key, find a' key = match last_set sets key with Some v => Some v | None => find a key end.
Proof.
  revert a. induction sets as [|[k v] sets IH]; intros a Hwf; cbn [rfoldM]; [by exists a|].
  destruct (set_entry_spec k v a Hwf) as (a1 & E & Hwf1 & Hm). cbn [fst snd]. rewrite E. cbn [rbind].
  destruct (IH a1 Hwf1) as (a' & -> & Hwf' & Hf). exists a'. split; [done|]. split; [done|]. intros key.
  rewrite Hf. cbn [last_set]. destruct (last_set sets key); [done|]. rewrite value_eqb, !find_to_map, Hm.
  case_bool_decide as H; [subst; by rewrite lookup_insert_eq|by rewrite lookup_insert_ne].
Qed.

Lemma set_all_spec sets : exists a, set_all sets = Ok a /\ attrs_wf a /\ forall key, find a key = last_set sets key.
Proof.
  destruct (set_all_from sets empty_attrs empty_wf) as (a & E & Hwf & Hf). exists a. split; [done|]. split; [done|].
  intros key. rewrite Hf. by destruct (last_set sets key).
Qed.

Lemma set_all_map sets a : attrs_wf a -> exists a', rfoldM (fun a p => set_entry p.1 p.2 a) sets a = Ok a' /\
  attrs_wf a' /\ to_map a' = foldl (fun m p => <[p.1 := p.2]> m) (to_map a) sets.
Proof.
  revert a. induction sets as [|[k v] sets IH]; intros a Hwf; cbn [rfoldM foldl fst snd]; [by exists a|].
  destruct (set_entry_spec k v a Hwf) as (a1 & -> & Hwf1 & <-). cbn [rbind]. by apply IH.
Qed.

Lemma size_to_map a : attrs_wf a -> size (to_map a) = size_ a.
Proof.
  intros Hwf. rewrite <-(length_entries_size a Hwf). destruct Hwf as [_ _ Hnd]. unfold to_map.
  rewrite map_size_list_to_map by (by rewrite pair_keys). apply length_map.
Qed.

(** C34: the container is a finite map: any sequence of [set] calls, through
    the eight inline entries and into the overflow vector, succeeds and leaves
    the map that the same insertions build, with one live entry per key, and
    [find] reads exactly that map. *)
Theorem attributes_refine_map sets :
  exists a, set_all sets = Ok a /\ to_map a = foldl (fun m p => <[p.1 := p.2]> m) ∅ sets /\
    size_ a = size (to_map a) /\ forall key, find a key = to_map a !! key.
Proof.
  destruct (set_all_map sets empty_attrs empty_wf) as (a & E & Hwf & Hm). exists a. split; [done|]. split; [done|].
  split; [by rewrite size_to_map|apply find_to_map].
Qed.

(** ** Printing and reading integer lists *)

Lemma decimal_plain z : Forall (fun c => c <> 44 /\ blank c = false) (decimal z).
Proof.
  destruct (decimal_Ok z) as (neg & ds & -> & _ & Hds & _).
  assert (Forall (fun c => c <> 44 /\ blank c = false) ds) as H.
  { eapply Forall_impl; [exact Hds|]. cbn. intros c Hc%isdigit_spec. unfold blank.
    destruct (Z.eqb_spec c 32), (Z.eqb_spec c 9); lia || (split; [lia|done]). }
  destruct neg; [|done]. by constructor.
Qed.

Lemma next_field_comma f rest : Forall (fun c => c <> 44 /\ blank c = false) f ->
  next_field (f ++ 44 :: rest) = (f, rest) /\ next_field f = (f, []).
Proof.
  induction 1 as [|c f [Hc _] _ [IH1 IH2]]; cbn; [done|]. destruct (Z.eqb_spec c 44); [done|]. by rewrite IH1, IH2.
Qed.

Lemma span_digits_all ds : Forall (fun c => isdigit c = true) ds -> span_digits ds = (ds, []).
Proof. induction 1 as [|c ds Hc _ IH]; cbn; [done|]. by rewrite Hc, IH. Qed.

Lemma parse_field_decimal z : INT64_MIN <= z <= INT64_MAX -> parse_field (decimal z) = Ok z.
Proof.
  intros Hz. pose proof (decimal_plain z) as Hp. destruct (decimal_start z) as (c & l & Ec & _).
  assert (skip_blanks (decimal z) = decimal z) as Hskip.
  { rewrite Ec in *. cbn. inversion Hp as [|? ? [_ Hb] _]. subst. by rewrite Hb. }
  assert (from_chars (decimal z) = Some (z, [])) as Hfc.
  { destruct (decimal_Ok z) as (neg & ds & -> & Hne & Hds & Hv & Hs). unfold from_chars.
    pose proof (proj2 (in_i64_spec z) Hz) as Hin. destruct neg.
    - rewrite Z.eqb_refl, span_digits_all by done. destruct ds as [|d ds]; [done|]. cbv zeta. by rewrite Hv, <-Hs, Hin.
    - destruct ds as [|d ds]; [done|]. pose proof (proj1 (isdigit_spec d) ltac:(by inversion Hds)).
      destruct (Z.eqb_spec d 45); [lia|]. rewrite span_digits_all by done. cbv zeta. by rewrite Hv, <-Hs, Hin. }
  unfold parse_field. rewrite Hskip. rewrite Ec in *. by rewrite Hfc.
Qed.

Lemma int_list_loop_commas l fuel acc : i64s l -> (length l <= fuel)%nat ->
  int_list_loop fuel (commas (map decimal l)) acc = Ok (acc ++ l).
Proof.
  intros Hl. revert fuel acc. induction Hl as [|z l Hz Hl IH]; intros fuel acc Hf; [destruct fuel; cbn; by rewrite app_nil_r|].
  destruct fuel as [|fuel]; [cbn in Hf; lia|]. destruct (decimal_start z) as (c & r & Ec & _).
  destruct l as [|z' l].
  - cbn [map commas int_list_loop]. destruct (next_field_comma (decimal z) [] (decimal_plain z)) as [_ En].
    rewrite En, parse_field_decimal by done. rewrite Ec. by destruct fuel.
  - cbn [map]. rewrite commas_cons. change (decimal z' :: map decimal l) with (map decimal (z' :: l)).
    destruct (next_field_comma (decimal z) (commas (map decimal (z' :: l))) (decimal_plain z)) as [En _].
    cbn [int_list_loop]. rewrite En, parse_field_decimal by done. cbn [rbind]. rewrite Ec. cbn [app].
    rewrite IH by (cbn in *; lia). by rewrite <-app_assoc.
Qed.

Lemma parse_int_list_commas l : i64s l -> parse_int_list (commas (map decimal l)) = Ok l.
Proof. intros Hl. unfold parse_int_list. rewrite int_list_loop_commas; [done..|]. apply length_commas. Qed.

Lemma next_field_length s : s <> [] -> (length (next_field s).2 < length s)%nat.
Proof.
  induction s as [|c s IH]; [done|]. intros _. cbn. destruct (c =? 44); cbn; [lia|].
  destruct s as [|d s]; [cbn; lia|]. specialize (IH ltac:(done)). destruct (next_field (d :: s)). cbn in *. lia.
Qed.

Lemma parse_field_meets f : meets (fun z => INT64_MIN <= z <= INT64_MAX) (parse_field f).
Proof.
  unfold parse_field, from_chars. destruct (skip_blanks f) as [|c s]; [done|].
  destruct (if c =? 45 then _ else _) as [neg r]. destruct (span_digits r) as [[|d ds] rest]; [done|]. cbv zeta.
  set (v := if neg then _ else _). destruct (in_i64 v) eqn:E; [|done]. destruct (skip_blanks rest); [|done]. by apply in_i64_spec.
Qed.

(** On any string the loop ends: with integers, or with one of its exceptions. *)
Lemma parse_int_list_meets s : meets i64s (parse_int_list s).
Proof.
  unfold parse_int_list. assert (forall fuel s acc, (length s <= fuel)%nat -> i64s acc -> meets i64s (int_list_loop fuel s acc)) as H.
  { induction fuel as [|fuel IH]; intros [|c r] acc Hf Ha; try done; [cbn in Hf; lia|]. cbn [int_list_loop].
    pose proof (next_field_length (c :: r) ltac:(done)) as Hn. destruct (next_field (c :: r)) as [f rest]. cbn [snd] in Hn.
    eapply meets_bind; [apply parse_field_meets|]. intros v Hv. apply IH; [cbn in *; lia|].
    apply Forall_app. split; [done|]. by constructor. }
  apply H; [done|constructor].
Qed.

(** The comment above the loop rejects the empty field of ["2,"]; the loop
    ends before it. *)
Example trailing_comma_accepted : parse_int_list (chars "2,") = Ok [2] /\ parse_int_list (chars ",2") = Err err_field.
Proof. split; reflexivity. Qed.

End OpAttributes.
