(* ===== verification/LiteBridge.v ===== *)
(** * The bridge from Lite nodes to the CPU kernels

    Models src/lite/dispatch_bridge.cpp (the positional slots of a Lite node
    become named attributes), the per-axis readers of
    include/tenzor/backend/attr_macros.hpp and the lambdas of
    src/backends/cpu/cpu_kernel_registry.cpp for the operators that the
    exporter writes: which kernel they call, on which tensors, with which
    arguments.  The kernels are an argument. *)

From Stdlib Require SpecFloat.
From stdpp Require Import base list numbers strings gmap.
From S2P Require Import Prelude LiteGraph LiteFormat SafeTensors SafeTensorsJson FloatAttrs OpAttributes.
Import Lite Format SafeTensors FloatAttrs OpAttributes.

(** The operators the bridge names. *)
Module OpId.

Inductive t : Type :=
  | Add | Sub | Mul | Div | MatMul | ReLU | Sigmoid | Tanh | Gelu | LeakyReLU | Elu | Selu | Mish | Softplus
  | Swish | Linear | Hardswish | Hardsigmoid | Softmax | LogSoftmax | Interpolate | Conv1dForward
  | Conv2dForward | DepthwiseConv2d | Conv3dForward | ConvTranspose2dForward | ConvTranspose3dForward
  | InstanceNorm | LayerNorm | GroupNorm | RMSNorm | FusedRMSNorm | BatchNorm2dForward
  | BatchNorm2dForwardAffine | MaxPool1dForward | MaxPool2dForward | MaxPool3dForward | AvgPool1dForward
  | AvgPool2dForward | AvgPool3dForward | AdaptiveAvgPool1d | AdaptiveMaxPool1d | AdaptiveAvgPool2d
  | AdaptiveMaxPool2d | AdaptiveAvgPool3d | AdaptiveMaxPool3d | Dropout | Flatten | Squeeze | Unsqueeze
  | Embedding | EmbeddingWithBoundsCheck | Sum | Mean | Max | Min | ArgMax | ArgMin | Cast | LSTMForward
  | LSTMMultiLayerForward | BiLSTMForward | GRUForward | GRUMultiLayerForward | FlashAttention | FlexAttention
  | FusedAttention.

Definition value (o : t) : Z :=
  match o with
  | Add => 0 | Sub => 1 | Mul => 2 | Div => 3 | MatMul => 4 | ReLU => 65 | Sigmoid => 67 | Tanh => 58
  | Gelu => 71 | LeakyReLU => 75 | Elu => 77 | Selu => 79 | Mish => 81 | Softplus => 83 | Swish => 73
  | Linear => 270 | Hardswish => 98 | Hardsigmoid => 99 | Softmax => 85 | LogSoftmax => 87 | Interpolate => 202
  | Conv1dForward => 180 | Conv2dForward => 170 | DepthwiseConv2d => 175 | Conv3dForward => 301
  | ConvTranspose2dForward => 174 | ConvTranspose3dForward => 176 | InstanceNorm => 160 | LayerNorm => 156
  | GroupNorm => 158 | RMSNorm => 162 | FusedRMSNorm => 217 | BatchNorm2dForward => 151
  | BatchNorm2dForwardAffine => 152 | MaxPool1dForward => 370 | MaxPool2dForward => 190
  | MaxPool3dForward => 305 | AvgPool1dForward => 372 | AvgPool2dForward => 192 | AvgPool3dForward => 307
  | AdaptiveAvgPool1d => 376 | AdaptiveMaxPool1d => 374 | AdaptiveAvgPool2d => 194 | AdaptiveMaxPool2d => 196
  | AdaptiveAvgPool3d => 311 | AdaptiveMaxPool3d => 309 | Dropout => 280 | Flatten => 105 | Squeeze => 103
  | Unsqueeze => 104 | Embedding => 260 | EmbeddingWithBoundsCheck => 431 | Sum => 11 | Mean => 12 | Max => 13
  | Min => 14 | ArgMax => 15 | ArgMin => 16 | Cast => 316 | LSTMForward => 254 | LSTMMultiLayerForward => 256
  | BiLSTMForward => 258 | GRUForward => 255 | GRUMultiLayerForward => 257 | FlashAttention => 295
  | FlexAttention => 693 | FusedAttention => 218
  end.

Definition all : list t :=
  [Add; Sub; Mul; Div; MatMul; ReLU; Sigmoid; Tanh; Gelu; LeakyReLU; Elu; Selu; Mish; Softplus; Swish; Linear;
   Hardswish; Hardsigmoid; Softmax; LogSoftmax; Interpolate; Conv1dForward; Conv2dForward; DepthwiseConv2d;
   Conv3dForward; ConvTranspose2dForward; ConvTranspose3dForward; InstanceNorm; LayerNorm; GroupNorm; RMSNorm;
   FusedRMSNorm; BatchNorm2dForward; BatchNorm2dForwardAffine; MaxPool1dForward; MaxPool2dForward;
   MaxPool3dForward; AvgPool1dForward; AvgPool2dForward; AvgPool3dForward; AdaptiveAvgPool1d; AdaptiveMaxPool1d;
   AdaptiveAvgPool2d; AdaptiveMaxPool2d; AdaptiveAvgPool3d; AdaptiveMaxPool3d; Dropout; Flatten; Squeeze;
   Unsqueeze; Embedding; EmbeddingWithBoundsCheck; Sum; Mean; Max; Min; ArgMax; ArgMin; Cast; LSTMForward;
   LSTMMultiLayerForward; BiLSTMForward; GRUForward; GRUMultiLayerForward; FlashAttention; FlexAttention;
   FusedAttention].

Definition of_Z (z : Z) : option t := list_find (fun o => value o = z) all ≫= fun p => Some p.2.

Lemma of_Z_value o : of_Z (value o) = Some o.
Proof. by destruct o. Qed.

Lemma value_u16 o : 0 <= value o < 2 ^ 16.
Proof. destruct o; cbn; lia. Qed.

End OpId.

Module Bridge.

(** ** [build_attrs] *)

Definition slot_f (la : LiteAttributes) (k : nat) : double := double_of_float (float_of_bits (nth k (attr_f la) 0)).
Definition slot_i (la : LiteAttributes) (k : nat) : Z := nth k (attr_i la) 0.

Definition int (key : AttrKey.t) (z : Z) : AttrKey.t * AttrValue := (key, Int64 z).
Definition flag (key : AttrKey.t) (b : bool) : AttrKey.t * AttrValue := (key, Boolean b).
Definition real (key : AttrKey.t) (x : double) : AttrKey.t * AttrValue := (key, Float64 x).
Definition text (key : AttrKey.t) (s : list Z) : AttrKey.t * AttrValue := (key, String s).

(** [if (ei.size() >= k) oa.set(key_k, ei[k - 1])] for the keys in order. *)
Definition extras (keys : list (AttrKey.t * (Z -> AttrValue))) (ei : list Z) : list (AttrKey.t * AttrValue) :=
  zip_with (fun k z => (k.1, k.2 z)) keys ei.

Definition ints (keys : list AttrKey.t) : list (AttrKey.t * (Z -> AttrValue)) := map (fun k => (k, Int64)) keys.
Definition as_flag (key : AttrKey.t) : AttrKey.t * (Z -> AttrValue) := (key, fun z => Boolean (negb (z =? 0))).

(** The loop that joins the numbers with commas. *)
Definition join (l : list Z) : list Z := commas (map decimal l).

Definition conv_scalars (la : LiteAttributes) : list (AttrKey.t * AttrValue) :=
  [int AttrKey.Stride (slot_i la 0); int AttrKey.Padding (slot_i la 1); int AttrKey.Dilation (slot_i la 2); int AttrKey.Groups (slot_i la 3)].

Definition pool_scalars (la : LiteAttributes) : list (AttrKey.t * AttrValue) :=
  [int AttrKey.KernelSize (slot_i la 0); int AttrKey.Stride (slot_i la 1); int AttrKey.Padding (slot_i la 2)].

Definition maxpool_scalars (la : LiteAttributes) : list (AttrKey.t * AttrValue) :=
  pool_scalars la ++ [int AttrKey.Dilation (slot_i la 3)].

Definition conv1d_keys : list AttrKey.t :=
  [AttrKey.StrideW; AttrKey.PaddingW; AttrKey.DilationW; AttrKey.Groups; AttrKey.KernelSizeW].

Definition conv2d_keys : list AttrKey.t :=
  [AttrKey.StrideH; AttrKey.StrideW; AttrKey.PaddingH; AttrKey.PaddingW; AttrKey.DilationH; AttrKey.DilationW;
   AttrKey.Groups; AttrKey.KernelSizeH; AttrKey.KernelSizeW].

Definition conv3d_keys : list AttrKey.t :=
  [AttrKey.StrideD; AttrKey.StrideH; AttrKey.StrideW; AttrKey.PaddingD; AttrKey.PaddingH; AttrKey.PaddingW;
   AttrKey.DilationD; AttrKey.DilationH; AttrKey.DilationW; AttrKey.Groups;
   AttrKey.KernelSizeD; AttrKey.KernelSizeH; AttrKey.KernelSizeW].

Definition pool2d_keys : list AttrKey.t :=
  [AttrKey.KernelSizeH; AttrKey.KernelSizeW; AttrKey.StrideH; AttrKey.StrideW; AttrKey.PaddingH; AttrKey.PaddingW].

Definition pool3d_keys : list AttrKey.t :=
  [AttrKey.KernelSizeD; AttrKey.KernelSizeH; AttrKey.KernelSizeW; AttrKey.StrideD; AttrKey.StrideH; AttrKey.StrideW;
   AttrKey.PaddingD; AttrKey.PaddingH; AttrKey.PaddingW].

Definition mode_name (code : Z) : list Z :=
  chars (if code =? 1 then "bilinear" else if code =? 2 then "trilinear" else if code =? 3 then "bicubic"
         else if code =? 4 then "linear" else if code =? 5 then "area" else if code =? 6 then "nearest-exact"
         else "nearest").

Definition err_norm_shape := InvalidArgument "LayerNorm: Lite node has no NormalizedShape extras ".
Definition err_attention := InvalidArgument "FlashAttention/FlexAttention/FusedAttention: Lite node ".

Section bridge.
Context {T : Type} (shape_of : T -> list Z).

(** The [set] calls of the [switch], in order. *)
Definition attr_sets (op : option OpId.t) (la : LiteAttributes) (inputs : list T) : result (list (AttrKey.t * AttrValue)) :=
  let ei := extra_i la in
  match op with
  | Some (OpId.Softmax | OpId.LogSoftmax | OpId.Squeeze | OpId.Unsqueeze) => Ok [int AttrKey.Dim (slot_i la 0)]
  | Some OpId.Interpolate =>
      Ok ((if is_nil ei then [] else [text AttrKey.OutputSize (join ei)]) ++
          [flag AttrKey.AlignCorners (negb (slot_i la 0 =? 0)); text AttrKey.Mode (mode_name (slot_i la 1))])
  | Some OpId.Conv1dForward => Ok (conv_scalars la ++ extras (ints conv1d_keys) ei)
  | Some (OpId.Conv2dForward | OpId.DepthwiseConv2d) => Ok (conv_scalars la ++ extras (ints conv2d_keys) ei)
  | Some OpId.Conv3dForward => Ok (conv_scalars la ++ extras (ints conv3d_keys) ei)
  | Some OpId.ConvTranspose2dForward =>
      Ok (conv_scalars la ++ extras (ints (conv2d_keys ++ [AttrKey.OutputPaddingH; AttrKey.OutputPaddingW])) ei)
  | Some OpId.ConvTranspose3dForward =>
      Ok (conv_scalars la ++
          extras (ints (conv3d_keys ++ [AttrKey.OutputPaddingD; AttrKey.OutputPaddingH; AttrKey.OutputPaddingW])) ei)
  | Some (OpId.InstanceNorm | OpId.RMSNorm | OpId.FusedRMSNorm) => Ok [real AttrKey.Eps (slot_f la 0)]
  | Some OpId.LayerNorm =>
      let eps := real AttrKey.Eps (slot_f la 0) in
      if is_nil ei then
        match inputs with
        | _ :: w :: _ => Ok [eps; text AttrKey.NormalizedShape (join (shape_of w))]
        | _ => Err err_norm_shape
        end
      else Ok [eps; text AttrKey.NormalizedShape (join ei)]
  | Some OpId.GroupNorm => Ok [real AttrKey.Eps (slot_f la 0); int AttrKey.NumGroups (slot_i la 0)]
  | Some (OpId.BatchNorm2dForward | OpId.BatchNorm2dForwardAffine) =>
      Ok [real AttrKey.Eps (slot_f la 0); real AttrKey.Momentum (slot_f la 1)]
  | Some OpId.MaxPool1dForward => Ok (maxpool_scalars la)
  | Some OpId.MaxPool2dForward =>
      Ok (maxpool_scalars la ++
          extras (ints (pool2d_keys ++ [AttrKey.DilationH; AttrKey.DilationW]) ++ [as_flag AttrKey.CeilMode]) ei)
  | Some OpId.MaxPool3dForward =>
      Ok (maxpool_scalars la ++
          extras (ints (pool3d_keys ++ [AttrKey.DilationD; AttrKey.DilationH; AttrKey.DilationW]) ++
                  [as_flag AttrKey.CeilMode]) ei)
  | Some OpId.AvgPool1dForward => Ok (pool_scalars la)
  | Some OpId.AvgPool2dForward =>
      Ok (pool_scalars la ++ extras (ints pool2d_keys ++ [as_flag AttrKey.CeilMode; as_flag AttrKey.CountIncludePad]) ei)
  | Some OpId.AvgPool3dForward =>
      Ok (pool_scalars la ++ extras (ints pool3d_keys ++ [as_flag AttrKey.CeilMode; as_flag AttrKey.CountIncludePad]) ei)
  | Some (OpId.AdaptiveAvgPool1d | OpId.AdaptiveMaxPool1d) => Ok [int AttrKey.OutputSize (slot_i la 0)]
  | Some (OpId.AdaptiveAvgPool2d | OpId.AdaptiveMaxPool2d) =>
      Ok (if (2 <=? length ei)%nat then extras (ints [AttrKey.OutputSizeH; AttrKey.OutputSizeW]) ei
          else int AttrKey.OutputSize (slot_i la 0) :: extras (ints [AttrKey.OutputSizeH]) ei)
  | Some (OpId.AdaptiveAvgPool3d | OpId.AdaptiveMaxPool3d) =>
      Ok (if (3 <=? length ei)%nat
          then extras (ints [AttrKey.OutputSizeD; AttrKey.OutputSizeH; AttrKey.OutputSizeW]) ei
          else int AttrKey.OutputSize (slot_i la 0) :: extras (ints [AttrKey.OutputSizeD; AttrKey.OutputSizeH]) ei)
  | Some OpId.Dropout => Ok [real AttrKey.P (slot_f la 0); flag AttrKey.Training false]
  | Some OpId.Flatten => Ok [int AttrKey.StartDim (slot_i la 0); int AttrKey.EndDim (slot_i la 1)]
  | Some (OpId.Embedding | OpId.EmbeddingWithBoundsCheck) =>
      Ok (if 0 <=? slot_i la 0 then [int AttrKey.PaddingIdx (slot_i la 0)] else [])
  | Some (OpId.Sum | OpId.Mean | OpId.Max | OpId.Min | OpId.ArgMax | OpId.ArgMin) =>
      Ok [int AttrKey.Dim (slot_i la 0); flag AttrKey.Keepdim (nonzero (float_of_bits (nth 0 (attr_f la) 0)))]
  | Some OpId.Cast => Ok [int AttrKey.TargetDtype (slot_i la 0)]
  | Some (OpId.LSTMForward | OpId.LSTMMultiLayerForward | OpId.BiLSTMForward | OpId.GRUForward
         | OpId.GRUMultiLayerForward) =>
      Ok (extras (ints [AttrKey.HiddenSize; AttrKey.NumLayers]) ei ++
          map (fun b => real AttrKey.DropoutP (double_of_float (float_of_bits b))) (take 1 (extra_f la)))
  | Some (OpId.FlashAttention | OpId.FlexAttention | OpId.FusedAttention) =>
      match ei with
      | num_heads :: head_dim :: _ :: causal :: _ =>
          Ok ([int AttrKey.NumHeads num_heads; int AttrKey.HeadDim head_dim; flag AttrKey.Causal (negb (causal =? 0))] ++
              map (fun b => real AttrKey.DropoutP (double_of_float (float_of_bits b))) (take 1 (extra_f la)) ++
              (if head_dim >? 0
               then [real AttrKey.Scale (SpecFloat.SFdiv 53 1024 (double_of_int 1)
                       (SpecFloat.SFsqrt 53 1024 (double_of_int head_dim)))]
               else []))
      | _ => Err err_attention
      end
  | _ => Ok []
  end.

Definition build_attrs (op : Z) (la : LiteAttributes) (inputs : list T) : result OpAttributes :=
  let* sets := attr_sets (OpId.of_Z op) la inputs in set_all sets.

End bridge.

(** ** Reading attributes back *)

(** [read_1d], [read_2d], [read_3d]: the per-axis keys with the scalar as fallback. *)
Definition read_axes (a : OpAttributes) (scalar : AttrKey.t) (axes : list AttrKey.t) (default_val : Z) : result (list Z) :=
  let* iso := get_int a scalar default_val in
  rmapM (fun k => get_int a k iso) axes.

Definition stride_keys (n : nat) : list AttrKey.t := drop (3 - n) [AttrKey.StrideD; AttrKey.StrideH; AttrKey.StrideW].
Definition padding_keys (n : nat) : list AttrKey.t := drop (3 - n) [AttrKey.PaddingD; AttrKey.PaddingH; AttrKey.PaddingW].
Definition dilation_keys (n : nat) : list AttrKey.t := drop (3 - n) [AttrKey.DilationD; AttrKey.DilationH; AttrKey.DilationW].
Definition kernel_keys (n : nat) : list AttrKey.t := drop (3 - n) [AttrKey.KernelSizeD; AttrKey.KernelSizeH; AttrKey.KernelSizeW].
Definition output_padding_keys (n : nat) : list AttrKey.t :=
  drop (3 - n) [AttrKey.OutputPaddingD; AttrKey.OutputPaddingH; AttrKey.OutputPaddingW].

(** A decimal literal: the nearest [double] to [n / d]. *)
Definition literal (n d : Z) : double := SpecFloat.SFdiv 53 1024 (double_of_int n) (double_of_int d).

Definition read_float (a : OpAttributes) (key : AttrKey.t) (default_val : double) : float :=
  float_of_double (get_float a key default_val).

Definition read_eps (a : OpAttributes) : float := read_float a AttrKey.Eps (literal 1 100000).

(** ** The CPU kernels

    A kernel function with its scalar arguments; its tensors are the
    operands of the call, the bias last when there is one. *)

Inductive Kernel :=
| unsqueeze (dim : Z)
| squeeze (dim : Z)
| unary_kernel (op : OpId.t)
| leaky_relu_kernel (alpha : double)
| elu_kernel (alpha : float)
| linear_kernel
| conv2d_forward_kernel (stride padding dilation : list Z) (groups : Z)
| conv3d_forward_kernel (stride padding dilation : list Z) (groups : Z)
| conv_transpose2d_forward_kernel (stride padding output_padding dilation : list Z) (groups : Z)
| conv_transpose3d_forward_kernel (stride padding output_padding dilation : list Z) (groups : Z)
| batchnorm2d_forward_kernel (eps : float)
| batchnorm2d_forward_affine_kernel (eps : float)
| layer_norm_kernel_with_stats (normalized_shape : list Z) (eps : float)
| group_norm_kernel_with_stats (num_groups : Z) (eps : float)
| instance_norm_kernel_with_stats (eps : float)
| fused_rms_norm_kernel (eps : float)
| flatten_kernel (start_dim end_dim : Z)
| maxpool1d_forward_kernel (kernel_size stride padding dilation : Z)
| maxpool2d_forward_kernel (kernel_size stride padding dilation : list Z)
| maxpool3d_forward_kernel (kernel_size stride padding dilation : list Z)
| avgpool1d_forward_kernel (kernel_size stride padding : Z) (count_include_pad : bool)
| avgpool2d_forward_kernel (kernel_size stride padding : list Z) (count_include_pad : bool)
| avgpool3d_forward_kernel (kernel_size stride padding : list Z) (count_include_pad : bool)
| adaptive_avgpool_kernel (output_size : list Z)
| adaptive_maxpool_kernel (output_size : list Z)
| softmax_kernel (dim : Z)
| log_softmax_kernel (dim : Z)
| interpolate_kernel (size : list Z) (mode : list Z) (align_corners : bool)
| embedding_kernel (padding_idx : Z).

(** How many tensors the C++ function returns. *)
Definition outputs (k : Kernel) : nat :=
  match k with
  | layer_norm_kernel_with_stats _ _ | group_norm_kernel_with_stats _ _ | instance_norm_kernel_with_stats _ => 3
  | fused_rms_norm_kernel _ | maxpool1d_forward_kernel _ _ _ _ | maxpool2d_forward_kernel _ _ _ _
  | maxpool3d_forward_kernel _ _ _ _ | adaptive_maxpool_kernel _ => 2
  | _ => 1
  end.

(** The kernels: what they do is not modelled, how much they return is. *)
Class Kernels (T : Type) := {
  run : Kernel -> list T -> result (list T);
  run_outputs k args outs : run k args = Ok outs -> length outs = outputs k
}.

Section registry.
Context {T : Type} `{Kernels T}.

(** [inputs[k]] of a span. *)
Definition operand (inputs : list T) (k : nat) : result T :=
  match inputs !! k with Some t => Ok t | None => Err UndefinedBehaviour end.

Definition operands (inputs : list T) (n : nat) : result (list T) := rmapM (operand inputs) (seq 0 n).

(** The operands, and [&inputs[n]] if there are more. *)
Definition operands_bias (inputs : list T) (n : nat) : result (list T) :=
  let* args := operands inputs n in Ok (args ++ take 1 (drop n inputs)).

(** The only tensor a call returns. *)
Definition run1 (k : Kernel) (args : list T) : result T :=
  let* outs := run k args in match outs with [t] => Ok t | _ => Err UndefinedBehaviour end.

Definition conv_args (inputs : list T) (a : OpAttributes) (n : nat) : result (list Z * list Z * list Z * Z * list T) :=
  let* s := read_axes a AttrKey.Stride (stride_keys n) 1 in
  let* p := read_axes a AttrKey.Padding (padding_keys n) 0 in
  let* d := read_axes a AttrKey.Dilation (dilation_keys n) 1 in
  let* g := get_int a AttrKey.Groups 1 in
  let* args := operands_bias inputs 2 in
  Ok (s, p, d, g, args).

Definition conv1d_kernel (stride padding dilation groups : Z) (args : list T) : result (list T) :=
  match args with
  | x :: w :: bias =>
      let* input_4d := run1 (unsqueeze 2) [x] in
      let* weight_4d := run1 (unsqueeze 2) [w] in
      let* result_4d := run1 (conv2d_forward_kernel [1; stride] [0; padding] [1; dilation] groups)
                          (input_4d :: weight_4d :: bias) in
      let* t := run1 (squeeze 2) [result_4d] in
      Ok [t]
  | _ => Err UndefinedBehaviour
  end.

Definition pool_args (inputs : list T) (a : OpAttributes) (n : nat) : result (list Z * list Z * list Z * list T) :=
  let* k := read_axes a AttrKey.KernelSize (kernel_keys n) 1 in
  let* s := read_axes a AttrKey.Stride (stride_keys n) (nth 0 k 0) in
  let* p := read_axes a AttrKey.Padding (padding_keys n) 0 in
  let* args := operands inputs 1 in
  Ok (k, s, p, args).

Definition pool1d_args (inputs : list T) (a : OpAttributes) : result (Z * Z * Z * list T) :=
  let* k := get_int a AttrKey.KernelSize 2 in
  let* s := get_int a AttrKey.Stride k in
  let* p := get_int a AttrKey.Padding 0 in
  let* args := operands inputs 1 in
  Ok (k, s, p, args).

Definition count_include_pad (a : OpAttributes) : result bool :=
  let* z := get_int a AttrKey.CountIncludePad 1 in Ok (negb (z =? 0)).

Definition adaptive_keys (n : nat) : list AttrKey.t :=
  drop (3 - n) [AttrKey.OutputSizeD; AttrKey.OutputSizeH; AttrKey.OutputSizeW].

Definition adaptive_args (inputs : list T) (a : OpAttributes) (n : nat) : result (list Z * list T) :=
  let* os := if (n =? 1)%nat then rmap (fun z => [z]) (get_int a AttrKey.OutputSize 1)
             else rmapM (fun k => get_int a k 1) (adaptive_keys n) in
  let* args := operands inputs 1 in
  Ok (os, args).

Definition call (k : Kernel) (args : result (list T)) : result (list T) := let* args := args in run k args.

(** *** The registered lambdas *)

Definition unary_lambda (op : OpId.t) (inputs : list T) (a : OpAttributes) : result (list T) :=
  call (unary_kernel op) (operands inputs 1).

Definition LeakyReLU_lambda (inputs : list T) (a : OpAttributes) : result (list T) :=
  call (leaky_relu_kernel (get_float a AttrKey.Alpha (literal 1 100))) (operands inputs 1).

Definition Elu_lambda (inputs : list T) (a : OpAttributes) : result (list T) :=
  call (elu_kernel (read_float a AttrKey.Alpha (literal 1 1))) (operands inputs 1).

Definition Linear_lambda (inputs : list T) (a : OpAttributes) : result (list T) :=
  call linear_kernel (operands_bias inputs 2).

Definition Conv1dForward_lambda (inputs : list T) (a : OpAttributes) : result (list T) :=
  let* '(s, p, d, g, args) := conv_args inputs a 1 in conv1d_kernel (nth 0 s 0) (nth 0 p 0) (nth 0 d 0) g args.

Definition Conv2dForward_lambda (inputs : list T) (a : OpAttributes) : result (list T) :=
  let* '(s, p, d, g, args) := conv_args inputs a 2 in run (conv2d_forward_kernel s p d g) args.

Definition Conv3dForward_lambda (inputs : list T) (a : OpAttributes) : result (list T) :=
  let* '(s, p, d, g, args) := conv_args inputs a 3 in run (conv3d_forward_kernel s p d g) args.

Definition ConvTranspose2dForward_lambda (inputs : list T) (a : OpAttributes) : result (list T) :=
  let* '(s, p, d, g, args) := conv_args inputs a 2 in
  let* op := read_axes a AttrKey.OutputPadding (output_padding_keys 2) 0 in
  run (conv_transpose2d_forward_kernel s p op d g) args.

Definition ConvTranspose3dForward_lambda (inputs : list T) (a : OpAttributes) : result (list T) :=
  let* '(s, p, d, g, args) := conv_args inputs a 3 in
  let* op := read_axes a AttrKey.OutputPadding (output_padding_keys 3) 0 in
  run (conv_transpose3d_forward_kernel s p op d g) args.

Definition BatchNorm2dForward_lambda (inputs : list T) (a : OpAttributes) : result (list T) :=
  call (batchnorm2d_forward_kernel (read_eps a)) (operands inputs 3).

Definition BatchNorm2dForwardAffine_lambda (inputs : list T) (a : OpAttributes) : result (list T) :=
  call (batchnorm2d_forward_affine_kernel (read_eps a)) (operands inputs 5).

Definition LayerNorm_lambda (inputs : list T) (a : OpAttributes) : result (list T) :=
  let* normalized_shape := get_int_list a AttrKey.NormalizedShape in
  call (layer_norm_kernel_with_stats normalized_shape (read_eps a)) (operands inputs 3).

Definition GroupNorm_lambda (inputs : list T) (a : OpAttributes) : result (list T) :=
  let* groups := get_int a AttrKey.Groups 1 in
  let* num_groups := get_int a AttrKey.NumGroups groups in
  call (group_norm_kernel_with_stats num_groups (read_eps a)) (operands inputs 3).

Definition InstanceNorm_lambda (inputs : list T) (a : OpAttributes) : result (list T) :=
  call (instance_norm_kernel_with_stats (read_eps a)) (operands inputs 3).

Definition RMSNorm_lambda (inputs : list T) (a : OpAttributes) : result (list T) :=
  call (fused_rms_norm_kernel (read_eps a)) (operands inputs 2).

Definition Flatten_lambda (inputs : list T) (a : OpAttributes) : result (list T) :=
  let* start_dim := get_int a AttrKey.StartDim 0 in
  let* end_dim := get_int a AttrKey.EndDim (-1) in
  call (flatten_kernel start_dim end_dim) (operands inputs 1).

Definition MaxPool1dForward_lambda (inputs : list T) (a : OpAttributes) : result (list T) :=
  let* '(k, s, p, args) := pool1d_args inputs a in
  let* d := get_int a AttrKey.Dilation 1 in
  run (maxpool1d_forward_kernel k s p d) args.

Definition MaxPool2dForward_lambda (inputs : list T) (a : OpAttributes) : result (list T) :=
  let* '(k, s, p, args) := pool_args inputs a 2 in
  let* d := read_axes a AttrKey.Dilation (dilation_keys 2) 1 in
  run (maxpool2d_forward_kernel k s p d) args.

Definition MaxPool3dForward_lambda (inputs : list T) (a : OpAttributes) : result (list T) :=
  let* '(k, s, p, args) := pool_args inputs a 3 in
  let* d := read_axes a AttrKey.Dilation (dilation_keys 3) 1 in
  run (maxpool3d_forward_kernel k s p d) args.

Definition AvgPool1dForward_lambda (inputs : list T) (a : OpAttributes) : result (list T) :=
  let* '(k, s, p, args) := pool1d_args inputs a in
  let* c := count_include_pad a in
  run (avgpool1d_forward_kernel k s p c) args.

Definition AvgPool2dForward_lambda (inputs : list T) (a : OpAttributes) : result (list T) :=
  let* '(k, s, p, args) := pool_args inputs a 2 in
  let* c := count_include_pad a in
  run (avgpool2d_forward_kernel k s p c) args.

Definition AvgPool3dForward_lambda (inputs : list T) (a : OpAttributes) : result (list T) :=
  let* '(k, s, p, args) := pool_args inputs a 3 in
  let* c := count_include_pad a in
  run (avgpool3d_forward_kernel k s p c) args.

Definition AdaptiveAvgPool1d_lambda (inputs : list T) (a : OpAttributes) : result (list T) :=
  let* '(os, args) := adaptive_args inputs a 1 in run (adaptive_avgpool_kernel os) args.

Definition AdaptiveAvgPool2d_lambda (inputs : list T) (a : OpAttributes) : result (list T) :=
  let* '(os, args) := adaptive_args inputs a 2 in run (adaptive_avgpool_kernel os) args.

Definition AdaptiveAvgPool3d_lambda (inputs : list T) (a : OpAttributes) : result (list T) :=
  let* '(os, args) := adaptive_args inputs a 3 in run (adaptive_avgpool_kernel os) args.

Definition AdaptiveMaxPool1d_lambda (inputs : list T) (a : OpAttributes) : result (list T) :=
  let* '(os, args) := adaptive_args inputs a 1 in run (adaptive_maxpool_kernel os) args.

Definition AdaptiveMaxPool2d_lambda (inputs : list T) (a : OpAttributes) : result (list T) :=
  let* '(os, args) := adaptive_args inputs a 2 in run (adaptive_maxpool_kernel os) args.

Definition AdaptiveMaxPool3d_lambda (inputs : list T) (a : OpAttributes) : result (list T) :=
  let* '(os, args) := adaptive_args inputs a 3 in run (adaptive_maxpool_kernel os) args.

Definition Softmax_lambda (inputs : list T) (a : OpAttributes) : result (list T) :=
  let* dim := get_int a AttrKey.Dim (-1) in call (softmax_kernel dim) (operands inputs 1).

Definition LogSoftmax_lambda (inputs : list T) (a : OpAttributes) : result (list T) :=
  let* dim := get_int a AttrKey.Dim (-1) in call (log_softmax_kernel dim) (operands inputs 1).

Definition Interpolate_lambda (inputs : list T) (a : OpAttributes) : result (list T) :=
  let* size := get_int_list a AttrKey.OutputSize in
  call (interpolate_kernel size (get_string a AttrKey.Mode (chars "bilinear")) (get_bool a AttrKey.AlignCorners false))
    (operands inputs 1).

Definition Embedding_lambda (inputs : list T) (a : OpAttributes) : result (list T) :=
  let* padding_idx := if has a AttrKey.PaddingIdx then get_int a AttrKey.PaddingIdx 0 else Ok (-1) in
  call (embedding_kernel padding_idx) (operands inputs 2).

(** The dispatch table. *)
Definition cpu_kernel (op : OpId.t) (inputs : list T) (a : OpAttributes) : option (result (list T)) :=
  match op with
  | OpId.ReLU | OpId.Sigmoid | OpId.Tanh | OpId.Gelu | OpId.Swish | OpId.Selu | OpId.Mish | OpId.Hardswish | OpId.Hardsigmoid =>
      Some (unary_lambda op inputs a)
  | OpId.LeakyReLU => Some (LeakyReLU_lambda inputs a)
  | OpId.Elu => Some (Elu_lambda inputs a)
  | OpId.Linear => Some (Linear_lambda inputs a)
  | OpId.Conv1dForward => Some (Conv1dForward_lambda inputs a)
  | OpId.Conv2dForward => Some (Conv2dForward_lambda inputs a)
  | OpId.Conv3dForward => Some (Conv3dForward_lambda inputs a)
  | OpId.ConvTranspose2dForward => Some (ConvTranspose2dForward_lambda inputs a)
  | OpId.ConvTranspose3dForward => Some (ConvTranspose3dForward_lambda inputs a)
  | OpId.BatchNorm2dForward => Some (BatchNorm2dForward_lambda inputs a)
  | OpId.BatchNorm2dForwardAffine => Some (BatchNorm2dForwardAffine_lambda inputs a)
  | OpId.LayerNorm => Some (LayerNorm_lambda inputs a)
  | OpId.GroupNorm => Some (GroupNorm_lambda inputs a)
  | OpId.InstanceNorm => Some (InstanceNorm_lambda inputs a)
  | OpId.RMSNorm | OpId.FusedRMSNorm => Some (RMSNorm_lambda inputs a)
  | OpId.Flatten => Some (Flatten_lambda inputs a)
  | OpId.MaxPool1dForward => Some (MaxPool1dForward_lambda inputs a)
  | OpId.MaxPool2dForward => Some (MaxPool2dForward_lambda inputs a)
  | OpId.MaxPool3dForward => Some (MaxPool3dForward_lambda inputs a)
  | OpId.AvgPool1dForward => Some (AvgPool1dForward_lambda inputs a)
  | OpId.AvgPool2dForward => Some (AvgPool2dForward_lambda inputs a)
  | OpId.AvgPool3dForward => Some (AvgPool3dForward_lambda inputs a)
  | OpId.AdaptiveAvgPool1d => Some (AdaptiveAvgPool1d_lambda inputs a)
  | OpId.AdaptiveAvgPool2d => Some (AdaptiveAvgPool2d_lambda inputs a)
  | OpId.AdaptiveAvgPool3d => Some (AdaptiveAvgPool3d_lambda inputs a)
  | OpId.AdaptiveMaxPool1d => Some (AdaptiveMaxPool1d_lambda inputs a)
  | OpId.AdaptiveMaxPool2d => Some (AdaptiveMaxPool2d_lambda inputs a)
  | OpId.AdaptiveMaxPool3d => Some (AdaptiveMaxPool3d_lambda inputs a)
  | OpId.Softmax => Some (Softmax_lambda inputs a)
  | OpId.LogSoftmax => Some (LogSoftmax_lambda inputs a)
  | OpId.Interpolate => Some (Interpolate_lambda inputs a)
  | OpId.Embedding => Some (Embedding_lambda inputs a)
  | _ => None
  end.

(** The operators with a lambda here. *)
Definition registered (op : OpId.t) : bool :=
  match op with
  | OpId.ReLU | OpId.Sigmoid | OpId.Tanh | OpId.Gelu | OpId.Swish | OpId.Selu | OpId.Mish | OpId.Hardswish
  | OpId.Hardsigmoid
  | OpId.LeakyReLU | OpId.Elu | OpId.Linear | OpId.Conv1dForward | OpId.Conv2dForward | OpId.Conv3dForward
  | OpId.ConvTranspose2dForward | OpId.ConvTranspose3dForward | OpId.BatchNorm2dForward
  | OpId.BatchNorm2dForwardAffine | OpId.LayerNorm | OpId.GroupNorm | OpId.InstanceNorm | OpId.RMSNorm
  | OpId.FusedRMSNorm | OpId.Flatten | OpId.MaxPool1dForward | OpId.MaxPool2dForward | OpId.MaxPool3dForward
  | OpId.AvgPool1dForward | OpId.AvgPool2dForward | OpId.AvgPool3dForward | OpId.AdaptiveAvgPool1d
  | OpId.AdaptiveAvgPool2d | OpId.AdaptiveAvgPool3d | OpId.AdaptiveMaxPool1d | OpId.AdaptiveMaxPool2d
  | OpId.AdaptiveMaxPool3d | OpId.Softmax | OpId.LogSoftmax | OpId.Interpolate | OpId.Embedding => true
  | _ => false
  end.

Lemma registered_kernel op inputs a : registered op = true -> is_Some (cpu_kernel op inputs a).
Proof. destruct op; intros E; try discriminate E; by eexists. Qed.

(** The rest of the dispatch table. *)
Context (other : Z -> list T -> OpAttributes -> result (list T)).

Definition dispatch (op : Z) (inputs : list T) (a : OpAttributes) : result (list T) :=
  match OpId.of_Z op ≫= fun o => cpu_kernel o inputs a with
  | Some r => r
  | None => other op inputs a
  end.

Definition run_op (shape_of : T -> list Z) (op : Z) (inputs : list T) (la : LiteAttributes) : result (list T) :=
  let* a := build_attrs shape_of op la inputs in dispatch op inputs a.

End registry.

Create HintDb lambdas.
#[export] Hint Unfold unary_lambda LeakyReLU_lambda Elu_lambda Linear_lambda Conv1dForward_lambda Conv2dForward_lambda
  Conv3dForward_lambda ConvTranspose2dForward_lambda ConvTranspose3dForward_lambda
  BatchNorm2dForward_lambda BatchNorm2dForwardAffine_lambda LayerNorm_lambda GroupNorm_lambda
  InstanceNorm_lambda RMSNorm_lambda Flatten_lambda MaxPool1dForward_lambda MaxPool2dForward_lambda
  MaxPool3dForward_lambda AvgPool1dForward_lambda AvgPool2dForward_lambda AvgPool3dForward_lambda
  AdaptiveAvgPool1d_lambda AdaptiveAvgPool2d_lambda AdaptiveAvgPool3d_lambda AdaptiveMaxPool1d_lambda
  AdaptiveMaxPool2d_lambda AdaptiveMaxPool3d_lambda Softmax_lambda LogSoftmax_lambda
  Interpolate_lambda Embedding_lambda : lambdas.

End Bridge.
