(* ===== verification/LiteExporter.v ===== *)
(** * The exporter of modules to Lite models

    Models src/lite/exporter.cpp: the tree of modules with the members the
    exporter reads, the graph builder as a state-and-exception monad, one
    emitter per kind of layer, the visitor and the export up to the call of
    the writer.  A parameter is what the writer sees of it (its type, shape
    and bytes); the [float] slots hold bit patterns. *)

From stdpp Require Import base list numbers strings gmap.
From S2P Require Import Prelude LiteGraph LiteFormat SafeTensors FloatAttrs OpAttributes LiteBridge.
Import Lite Format SafeTensors FloatAttrs OpAttributes Bridge.

Module Exporter.

(** ** Modules *)

(** [parameters_] and [buffers_] of a module. *)
Record Params := mkParams {
  parameters : gmap string TensorData;
  buffers : gmap string TensorData
}.

Notation Z2 := (Z * Z)%type.
Notation Z3 := (Z * Z * Z)%type.

(** The classes the visitor recognises, with the members it reads and, of the
    pooling layers, those it does not.  [GELU] has its default approximation
    and [Embedding] no [max_norm]. *)
Inductive Layer :=
| Linear (has_bias : bool)
| Conv1d (stride padding dilation groups : Z)
| Conv2d (stride padding dilation : Z2) (groups : Z)
| Conv3d (stride padding dilation : Z3) (groups : Z)
| ConvTranspose2d (stride padding output_padding dilation : Z2) (groups : Z)
| ConvTranspose3d (stride padding output_padding dilation : Z3) (groups : Z)
| BatchNorm2d (eps : double)
| LayerNorm (eps : double)
| GroupNorm (num_groups : Z) (eps : double)
| InstanceNorm (eps : double) (num_features : Z)                            (* 1d and 2d *)
| InstanceNorm3d (in2d : option Params) (eps : double) (num_features : Z)
| RMSNorm (eps : double)
| Flatten (start_dim end_dim : Z)
| Dropout
| Identity
| MaxPool1d (kernel_size stride padding : Z) (ceil_mode : bool)
| MaxPool2d (kernel_size stride padding : Z2) (ceil_mode : bool)
| MaxPool3d (kernel_size stride padding : Z3) (ceil_mode : bool)
| AvgPool1d (kernel_size stride padding : Z) (count_include_pad ceil_mode : bool)
| AvgPool2d (kernel_size stride padding : Z2) (count_include_pad ceil_mode : bool)
| AvgPool3d (kernel_size stride padding : Z3) (count_include_pad ceil_mode : bool)
| AdaptiveAvgPool1d (output_size : Z)
| AdaptiveMaxPool1d (output_size : Z)
| AdaptiveAvgPool2d (output_size : Z2)
| AdaptiveMaxPool2d (output_size : Z2)
| AdaptiveAvgPool3d (output_size : Z3)
| AdaptiveMaxPool3d (output_size : Z3)
| Embedding
| Softmax (dim : Z)
| LogSoftmax (dim : Z)
| Upsample (size : option (list Z)) (scale_factor : option double) (mode : list Z) (align_corners : bool)
| ReLU | Sigmoid | Tanh | Mish | SELU | Swish | Hardswish | Hardsigmoid
| GELU
| LeakyReLU (negative_slope : double)
| ELU (alpha : double)
| Unsupported.

Inductive Module_ :=
| Sequential (children : list Module_)
| Leaf (params : Params) (layer : Layer).

(** ** The builder *)

Record GraphBuilder := mkBuilder {
  b_graph : LiteGraph;
  b_opts : WriteOptions;
  next_id : Z;
  b_input_shape : list Z;
  spatial_shape_dirty : bool
}.

Definition empty_opts : WriteOptions := mkOpts ∅ [] [] ∅ [] None.
Definition new_builder : GraphBuilder := mkBuilder empty_graph empty_opts 0 [] false.

Definition builder (A : Type) : Type := GraphBuilder -> result (A * GraphBuilder).

#[export] Instance builder_ret : MRet builder := fun A a b => Ok (a, b).
#[export] Instance builder_bind : MBind builder := fun A B f m b => let* '(a, b) := m b in f a b.

Definition b_throw {A} (e : exn) : builder A := fun _ => Err e.
Definition b_lift {A} (r : result A) : builder A := fun b => rmap (fun a => (a, b)) r.
Definition modify (f : GraphBuilder -> GraphBuilder) : builder () := fun b => Ok ((), f b).

Definition err_ids := RuntimeError "export_to_tzlite: too many tensors for int16 id space".

Definition fresh : builder Z := fun b =>
  if next_id b >? INT16_MAX then Err err_ids
  else Ok (next_id b, mkBuilder (b_graph b) (b_opts b) (next_id b + 1) (b_input_shape b) (spatial_shape_dirty b)).

Definition with_opts (f : WriteOptions -> WriteOptions) (b : GraphBuilder) : GraphBuilder :=
  mkBuilder (b_graph b) (f (b_opts b)) (next_id b) (b_input_shape b) (spatial_shape_dirty b).

Definition with_graph (f : LiteGraph -> LiteGraph) (b : GraphBuilder) : GraphBuilder :=
  mkBuilder (f (b_graph b)) (b_opts b) (next_id b) (b_input_shape b) (spatial_shape_dirty b).

Definition declare_input (shape : list Z) (dtype : Z) : builder Z :=
  id ← fresh;
  _ ← modify (with_opts (fun o => mkOpts (weights o) (o_inputs o ++ [id]) (o_outputs o)
        (<[id := (dtype, shape)]> (input_specs o)) (o_metadata o) (o_plan o)));
  _ ← modify (fun b => mkBuilder (b_graph b) (b_opts b) (next_id b) shape (spatial_shape_dirty b));
  mret id.

(** [emplace] keeps an entry that is there. *)
Definition add_weight (t : TensorData) : builder Z :=
  id ← fresh;
  _ ← modify (with_opts (fun o => mkOpts (match weights o !! id with Some _ => weights o | None => <[id := t]> (weights o) end)
        (o_inputs o) (o_outputs o) (input_specs o) (o_metadata o) (o_plan o)));
  mret id.

Definition declare_output (id : Z) : builder () :=
  modify (with_opts (fun o => mkOpts (weights o) (o_inputs o) (o_outputs o ++ [id]) (input_specs o) (o_metadata o) (o_plan o))).

Definition set_dirty : builder () :=
  modify (fun b => mkBuilder (b_graph b) (b_opts b) (next_id b) (b_input_shape b) true).

Fixpoint fresh_ids (n : nat) : builder (list Z) :=
  match n with
  | O => mret []
  | S n => id ← fresh; ids ← fresh_ids n; mret (id :: ids)
  end.

(** The end of every emitter: ids for the outputs, the node, the first id. *)
Definition emit_node (op : OpId.t) (inputs : list Z) (attrs : LiteAttributes) (outputs : nat) : builder Z :=
  ids ← fresh_ids outputs;
  _ ← modify (with_graph (fun g => add_node g (mkNode (OpId.value op) inputs ids attrs)));
  mret (nth 0 ids 0).

(** ** Attributes *)

Definition attrs_i (i0 i1 i2 i3 : Z) (extra : list Z) : LiteAttributes := mkAttrs [0; 0; 0; 0] [i0; i1; i2; i3] extra [].
Definition attrs_f (x : double) (i0 : Z) (extra : list Z) : LiteAttributes :=
  mkAttrs [stored x; 0; 0; 0] [i0; 0; 0; 0] extra [].

Definition l2 (p : Z2) : list Z := [p.1; p.2].
Definition l3 (p : Z3) : list Z := [p.1.1; p.1.2; p.2].
Definition bit (b : bool) : Z := if b then 1 else 0.

(** ** Parameters *)

Definition err_no_parameter := OutOfRange "Parameter not found: ".
Definition err_no_buffer := OutOfRange "Buffer not found: ".

Definition get_param_tensor (p : Params) (name : string) : result TensorData :=
  match parameters p !! name with Some t => Ok t | None => Err err_no_parameter end.

Definition get_buffer_tensor (p : Params) (name : string) : result TensorData :=
  match buffers p !! name with Some t => Ok t | None => Err err_no_buffer end.

Definition try_get_parameter (p : Params) (name : string) : option TensorData := parameters p !! name.

(** ** Emitters *)

Definition emit_unary (op : OpId.t) (in_id : Z) : builder Z := emit_node op [in_id] default_attrs 1.

Definition emit_unary_with_alpha (op : OpId.t) (in_id : Z) (alpha : double) : builder Z :=
  emit_node op [in_id] (attrs_f alpha 0 []) 1.

Definition emit_linear (p : Params) (has_bias : bool) (in_id : Z) : builder Z :=
  w ← b_lift (match parameters p !! "weight" with Some t => Ok t | None => Err (OutOfRange "map::at") end);
  w_id ← add_weight w;
  match (if has_bias then parameters p !! "bias" else None) with
  | Some bias => bias_id ← add_weight bias; emit_node OpId.Linear [in_id; w_id; bias_id] default_attrs 1
  | None => emit_node OpId.Linear [in_id; w_id] default_attrs 1
  end.

Definition emit_conv_node (op : OpId.t) (p : Params) (in_id : Z) (attrs : LiteAttributes) : builder Z :=
  w ← b_lift (get_param_tensor p "weight");
  w_id ← add_weight w;
  out ← match try_get_parameter p "bias" with
        | Some bias => bias_id ← add_weight bias; emit_node op [in_id; w_id; bias_id] attrs 1
        | None => emit_node op [in_id; w_id] attrs 1
        end;
  _ ← set_dirty;
  mret out.

Definition err_rank := RuntimeError "export_to_tzlite: weight must be of another rank, got rank ".

(** The weight's shape, whose last dimensions are the kernel's size. *)
Definition weight_kernel (p : Params) (rank : nat) : result (list Z) :=
  let* w := get_param_tensor p "weight" in
  let* _ := throw_if (negb (length (td_shape w) =? rank)%nat) err_rank in
  Ok (drop 2 (td_shape w)).

Definition emit_conv1d (p : Params) (stride padding dilation groups in_id : Z) : builder Z :=
  k ← b_lift (weight_kernel p 3);
  emit_conv_node OpId.Conv1dForward p in_id
    (attrs_i stride padding dilation groups ([stride; padding; dilation; groups] ++ k)).

Definition emit_conv2d (p : Params) (stride padding dilation : Z2) (groups in_id : Z) : builder Z :=
  k ← b_lift (weight_kernel p 4);
  emit_conv_node OpId.Conv2dForward p in_id
    (attrs_i stride.1 padding.1 dilation.1 groups (l2 stride ++ l2 padding ++ l2 dilation ++ [groups] ++ k)).

Definition emit_conv3d (p : Params) (stride padding dilation : Z3) (groups in_id : Z) : builder Z :=
  k ← b_lift (weight_kernel p 5);
  emit_conv_node OpId.Conv3dForward p in_id
    (attrs_i stride.1.1 padding.1.1 dilation.1.1 groups (l3 stride ++ l3 padding ++ l3 dilation ++ [groups] ++ k)).

Definition emit_conv_transpose2d (p : Params) (stride padding output_padding dilation : Z2) (groups in_id : Z) : builder Z :=
  k ← b_lift (weight_kernel p 4);
  emit_conv_node OpId.ConvTranspose2dForward p in_id
    (attrs_i stride.1 padding.1 dilation.1 groups
       (l2 stride ++ l2 padding ++ l2 dilation ++ [groups] ++ k ++ l2 output_padding)).

Definition emit_conv_transpose3d (p : Params) (stride padding output_padding dilation : Z3) (groups in_id : Z) : builder Z :=
  k ← b_lift (weight_kernel p 5);
  emit_conv_node OpId.ConvTranspose3dForward p in_id
    (attrs_i stride.1.1 padding.1.1 dilation.1.1 groups
       (l3 stride ++ l3 padding ++ l3 dilation ++ [groups] ++ k ++ l3 output_padding)).

Definition emit_batchnorm2d (p : Params) (eps : double) (in_id : Z) : builder Z :=
  mean ← b_lift (get_buffer_tensor p "running_mean");
  mean_id ← add_weight mean;
  var ← b_lift (get_buffer_tensor p "running_var");
  var_id ← add_weight var;
  match try_get_parameter p "weight", try_get_parameter p "bias" with
  | Some weight, Some bias =>
      w_id ← add_weight weight;
      b_id ← add_weight bias;
      emit_node OpId.BatchNorm2dForwardAffine [in_id; mean_id; var_id; w_id; b_id] (attrs_f eps 0 []) 1
  | _, _ => emit_node OpId.BatchNorm2dForward [in_id; mean_id; var_id] (attrs_f eps 0 []) 1
  end.

Definition emit_layernorm (p : Params) (eps : double) (in_id : Z) : builder Z :=
  w ← b_lift (get_param_tensor p "weight");
  w_id ← add_weight w;
  bias ← b_lift (get_param_tensor p "bias");
  bias_id ← add_weight bias;
  emit_node OpId.LayerNorm [in_id; w_id; bias_id] (attrs_f eps 0 (td_shape w)) 3.

Definition emit_groupnorm (p : Params) (num_groups : Z) (eps : double) (in_id : Z) : builder Z :=
  w ← b_lift (get_param_tensor p "weight");
  w_id ← add_weight w;
  bias ← b_lift (get_param_tensor p "bias");
  bias_id ← add_weight bias;
  emit_node OpId.GroupNorm [in_id; w_id; bias_id] (attrs_f eps num_groups []) 3.

(** [Tensor({n}, Float32)] filled with one value, little-endian. *)
Definition filled (n : Z) (bytes : list Z) : TensorData :=
  mkTensorData 0 [n] (concat (replicate (Z.to_nat n) bytes)).

Definition ones_w (num_features : Z) : TensorData := filled num_features [0; 0; 128; 63].
Definition zeros_b (num_features : Z) : TensorData := filled num_features [0; 0; 0; 0].

(** The affine parameters, or the identity in their place. *)
Definition affine_or_identity (p : Params) (num_features : Z) : TensorData * TensorData :=
  match try_get_parameter p "weight", try_get_parameter p "bias" with
  | Some weight, Some bias => (weight, bias)
  | _, _ => (ones_w num_features, zeros_b num_features)
  end.

Definition emit_instancenorm (p : Params) (in_id : Z) (eps : double) (num_features : Z) : builder Z :=
  w_id ← add_weight (affine_or_identity p num_features).1;
  b_id ← add_weight (affine_or_identity p num_features).2;
  emit_node OpId.InstanceNorm [in_id; w_id; b_id] (attrs_f eps 0 []) 3.

Definition emit_rmsnorm (p : Params) (eps : double) (in_id : Z) : builder Z :=
  w ← b_lift (get_param_tensor p "weight");
  w_id ← add_weight w;
  emit_node OpId.RMSNorm [in_id; w_id] (attrs_f eps 0 []) 1.

Definition emit_flatten (start_dim end_dim in_id : Z) : builder Z :=
  emit_node OpId.Flatten [in_id] (attrs_i start_dim end_dim 0 0 []) 1.

Definition emit_maxpool1d (kernel_size stride padding in_id : Z) : builder Z :=
  emit_node OpId.MaxPool1dForward [in_id] (attrs_i kernel_size stride padding 1 []) 2.

Definition emit_maxpool2d (ks st pd : Z2) (ceil_mode : bool) (in_id : Z) : builder Z :=
  emit_node OpId.MaxPool2dForward [in_id]
    (attrs_i ks.1 st.1 pd.1 1 (l2 ks ++ l2 st ++ l2 pd ++ [1; 1; bit ceil_mode])) 2.

Definition emit_maxpool3d (ks st pd : Z3) (ceil_mode : bool) (in_id : Z) : builder Z :=
  emit_node OpId.MaxPool3dForward [in_id]
    (attrs_i ks.1.1 st.1.1 pd.1.1 1 (l3 ks ++ l3 st ++ l3 pd ++ [1; 1; 1; bit ceil_mode])) 2.

Definition emit_avgpool1d (kernel_size stride padding in_id : Z) : builder Z :=
  emit_node OpId.AvgPool1dForward [in_id] (attrs_i kernel_size stride padding 0 []) 1.

Definition emit_avgpool2d (ks st pd : Z2) (in_id : Z) : builder Z :=
  emit_node OpId.AvgPool2dForward [in_id] (attrs_i ks.1 st.1 pd.1 0 (l2 ks ++ l2 st ++ l2 pd ++ [0; 1])) 1.

Definition emit_avgpool3d (ks st pd : Z3) (in_id : Z) : builder Z :=
  emit_node OpId.AvgPool3dForward [in_id] (attrs_i ks.1.1 st.1.1 pd.1.1 0 (l3 ks ++ l3 st ++ l3 pd ++ [0; 1])) 1.

(** The adaptive pools: the first size in [i[0]], all of them in the extras
    (none in one dimension); the maximum also returns its indices. *)
Definition emit_adaptive_pool (op : OpId.t) (i0 : Z) (extra : list Z) (outputs : nat) (in_id : Z) : builder Z :=
  emit_node op [in_id] (attrs_i i0 0 0 0 extra) outputs.

(** [weight()] indexes the parameters and dereferences what it finds. *)
Definition emit_embedding (p : Params) (in_id : Z) : builder Z :=
  w ← b_lift (match parameters p !! "weight" with Some t => Ok t | None => Err UndefinedBehaviour end);
  w_id ← add_weight w;
  emit_node OpId.Embedding [w_id; in_id] (attrs_i (-1) 0 0 0 []) 1.

Definition emit_softmax_like (op : OpId.t) (in_id dim : Z) : builder Z :=
  emit_node op [in_id] (attrs_i dim 0 0 0 []) 1.

Definition err_mode := RuntimeError "export_to_tzlite: nn::Upsample has unsupported mode '".

Definition upsample_modes : list (list Z) :=
  map chars ["nearest"; "bilinear"; "trilinear"; "bicubic"; "linear"; "area"; "nearest-exact"].

(** The place of the name among the modes. *)
Definition upsample_mode_code (mode : list Z) : result Z :=
  match list_find (fun m => m = mode) upsample_modes with
  | Some (k, _) => Ok (Z.of_nat k)
  | None => Err err_mode
  end.

Definition err_scale := RuntimeError "export_to_tzlite: nn::Upsample with a relative scale_factor is ".
Definition err_upsample_rank := RuntimeError "export_to_tzlite: nn::Upsample with scale_factor requires ".
Definition err_upsample := RuntimeError "export_to_tzlite: nn::Upsample needs either size or scale_factor".

Definition scaled (sf : double) (dim : Z) : result Z :=
  int_of_double (SpecFloat.SFmul 53 1024 (double_of_int dim) sf).

Definition target_size (size : option (list Z)) (scale_factor : option double) (b : GraphBuilder) : result (list Z) :=
  match size, scale_factor with
  | Some size, _ => Ok size
  | None, Some sf =>
      let* _ := throw_if (spatial_shape_dirty b) err_scale in
      let* _ := throw_if (length (b_input_shape b) <? 3)%nat err_upsample_rank in
      rmapM (scaled sf) (drop 2 (b_input_shape b))
  | None, None => Err err_upsample
  end.

Definition emit_upsample (size : option (list Z)) (scale_factor : option double) (mode : list Z) (align_corners : bool)
    (in_id : Z) : builder Z :=
  ts ← (fun b => rmap (fun ts => (ts, b)) (target_size size scale_factor b));
  code ← b_lift (upsample_mode_code mode);
  out ← emit_node OpId.Interpolate [in_id] (attrs_i (bit align_corners) code 0 0 ts) 1;
  _ ← set_dirty;
  mret out.

(** ** The visitor *)

Definition err_unsupported := RuntimeError "export_to_tzlite: unsupported module type '".
Definition err_in2d := RuntimeError "export_to_tzlite: nn::InstanceNorm3d has no registered ".

Definition visit_layer (p : Params) (l : Layer) (in_id : Z) : builder Z :=
  match l with
  | Linear has_bias => emit_linear p has_bias in_id
  | Conv2d s pd d g => emit_conv2d p s pd d g in_id
  | Conv1d s pd d g => emit_conv1d p s pd d g in_id
  | Conv3d s pd d g => emit_conv3d p s pd d g in_id
  | BatchNorm2d eps => emit_batchnorm2d p eps in_id
  | LayerNorm eps => emit_layernorm p eps in_id
  | GroupNorm n eps => emit_groupnorm p n eps in_id
  | Flatten s e => _ ← set_dirty; emit_flatten s e in_id
  | Dropout | Identity => mret in_id
  | MaxPool2d k s pd c => _ ← set_dirty; emit_maxpool2d k s pd c in_id
  | AvgPool2d k s pd _ _ => _ ← set_dirty; emit_avgpool2d k s pd in_id
  | MaxPool1d k s pd _ => _ ← set_dirty; emit_maxpool1d k s pd in_id
  | MaxPool3d k s pd c => _ ← set_dirty; emit_maxpool3d k s pd c in_id
  | AvgPool1d k s pd _ _ => _ ← set_dirty; emit_avgpool1d k s pd in_id
  | AvgPool3d k s pd _ _ => _ ← set_dirty; emit_avgpool3d k s pd in_id
  | AdaptiveAvgPool2d o => _ ← set_dirty; emit_adaptive_pool OpId.AdaptiveAvgPool2d o.1 (l2 o) 1 in_id
  | AdaptiveMaxPool2d o => _ ← set_dirty; emit_adaptive_pool OpId.AdaptiveMaxPool2d o.1 (l2 o) 2 in_id
  | AdaptiveAvgPool1d o => _ ← set_dirty; emit_adaptive_pool OpId.AdaptiveAvgPool1d o [] 1 in_id
  | AdaptiveMaxPool1d o => _ ← set_dirty; emit_adaptive_pool OpId.AdaptiveMaxPool1d o [] 2 in_id
  | AdaptiveAvgPool3d o => _ ← set_dirty; emit_adaptive_pool OpId.AdaptiveAvgPool3d o.1.1 (l3 o) 1 in_id
  | AdaptiveMaxPool3d o => _ ← set_dirty; emit_adaptive_pool OpId.AdaptiveMaxPool3d o.1.1 (l3 o) 2 in_id
  | ConvTranspose2d s pd op d g => emit_conv_transpose2d p s pd op d g in_id
  | ConvTranspose3d s pd op d g => emit_conv_transpose3d p s pd op d g in_id
  | InstanceNorm eps n => emit_instancenorm p in_id eps n
  | InstanceNorm3d in2d eps n =>
      match in2d with
      | Some p2 => emit_instancenorm p2 in_id eps n
      | None => b_throw err_in2d
      end
  | Embedding => emit_embedding p in_id
  | ReLU => emit_unary OpId.ReLU in_id
  | Sigmoid => emit_unary OpId.Sigmoid in_id
  | Tanh => emit_unary OpId.Tanh in_id
  | GELU => emit_unary OpId.Gelu in_id
  | Mish => emit_unary OpId.Mish in_id
  | SELU => emit_unary OpId.Selu in_id
  | Swish => emit_unary OpId.Swish in_id
  | Hardswish => emit_unary OpId.Hardswish in_id
  | Hardsigmoid => emit_unary OpId.Hardsigmoid in_id
  | Softmax dim => emit_softmax_like OpId.Softmax in_id dim
  | LogSoftmax dim => emit_softmax_like OpId.LogSoftmax in_id dim
  | RMSNorm eps => emit_rmsnorm p eps in_id
  | Upsample sz sf mode ac => emit_upsample sz sf mode ac in_id
  | LeakyReLU slope => emit_unary_with_alpha OpId.LeakyReLU in_id slope
  | ELU alpha => emit_unary_with_alpha OpId.Elu in_id alpha
  | Unsupported => b_throw err_unsupported
  end.

(** [emit_sequential] threads the id through the children. *)
Fixpoint visit (m : Module_) (in_id : Z) : builder Z :=
  match m with
  | Sequential children =>
      (fix emit_sequential (l : list Module_) (cur : Z) : builder Z :=
         match l with
         | [] => mret cur
         | child :: l => cur ← visit child cur; emit_sequential l cur
         end) children in_id
  | Leaf p l => visit_layer p l in_id
  end.

(** ** [export_to_tzlite] *)

Record ExportOptions := mkExport {
  input_shape : list Z;
  input_dtype : Z;
  e_device : list Z;                          (* device.to_string() *)
  e_metadata : gmap (list Z) (list Z)
}.

Definition err_input_shape := InvalidArgument "export_to_tzlite: ExportOptions::input_shape must be non-empty".

Section export.
(** The order in which the hash map is walked. *)
Context (unordered : gmap (list Z) (list Z) -> list (list Z * list Z)).

Definition full_metadata (opts : ExportOptions) : gmap (list Z) (list Z) :=
  emplace (emplace (e_metadata opts) (chars "framework", chars "tenzor-lite")) (chars "device", e_device opts).

(** What the exporter hands to the writer. *)
Definition build_model (module : Module_) (opts : ExportOptions) : result (LiteGraph * WriteOptions) :=
  let* _ := throw_if (is_nil (input_shape opts)) err_input_shape in
  let* '(_, b) := (in_id ← declare_input (input_shape opts) (input_dtype opts);
                   out_id ← visit module in_id;
                   declare_output out_id) new_builder in
  let o := b_opts b in
  Ok (set_output_ids (set_input_ids (b_graph b) (o_inputs o)) (o_outputs o),
      mkOpts (weights o) (o_inputs o) (o_outputs o) (input_specs o) (unordered (full_metadata opts)) (o_plan o)).

(** The bytes of the file. *)
Definition export_to_tzlite (module : Module_) (opts : ExportOptions) : result (list Z) :=
  let* '(g, o) := build_model module opts in Format.save g o.

End export.

End Exporter.
