(* ===== verification/LiteEmission.v ===== *)
(** * What a module computes, and the node that stands for a layer

    [run_module] evaluates a tree of modules in eval mode on the CPU: the
    convolutions and pools as their [forward_impl] in src/nn/layers/conv.cpp
    and src/nn/layers/pooling.cpp dispatch them (the attributes they set,
    their guard on [ceil_mode]), the other layers by the kernel that computes
    them from their members (src/nn/layers, src/nn/activations).  It is the
    specification of the export, not a translation of the layers: the checks
    of the input's rank and channels and the conversion of parameters of
    another type are left out, the kernel sizes that no lambda reads are not
    set, and the routes by which a layer reaches the same function are one
    call (the depthwise kernels of the 1-D and 3-D convolutions, the loop of
    AdaptiveAvgPool2d on the CPU, the product and sum of a Linear layer).

    [emission] is the node the exporter writes for a layer; the theorem says
    that the bridge and the registry turn it back into the layer's call. *)

From stdpp Require Import base list numbers strings gmap.
From S2P Require Import Prelude LiteGraph LiteFormat SafeTensors SafeTensorsJson FloatAttrs OpAttributes LiteBridge LiteExporter.

Import Lite Format SafeTensors Json FloatAttrs OpAttributes Bridge Exporter.

Module ModuleSpec.

#[export] Instance spec_float_eq_dec : EqDecision SpecFloat.spec_float.
Proof. solve_decision. Defined.

(** ** The attributes the layers set *)

Definition axis_ints (keys : list AttrKey.t) (l : list Z) : list (AttrKey.t * AttrValue) := zip_with int keys l.

(** The scalar key with the first axis, then a key per axis. *)
Definition axes (scalar : AttrKey.t) (keys : list AttrKey.t) (l : list Z) : list (AttrKey.t * AttrValue) :=
  int scalar (nth 0 l 0) :: axis_ints keys l.

Definition conv_sets (n : nat) (s p d : list Z) (g : Z) : list (AttrKey.t * AttrValue) :=
  axes AttrKey.Stride (stride_keys n) s ++ axes AttrKey.Padding (padding_keys n) p ++
  axes AttrKey.Dilation (dilation_keys n) d ++ [int AttrKey.Groups g].

Definition conv_transpose_sets (n : nat) (s p op d : list Z) (g : Z) : list (AttrKey.t * AttrValue) :=
  axes AttrKey.OutputPadding (output_padding_keys n) op ++ conv_sets n s p d g.

Definition conv1d_sets (s p d g : Z) : list (AttrKey.t * AttrValue) :=
  [int AttrKey.Stride s; int AttrKey.Padding p; int AttrKey.Dilation d; int AttrKey.Groups g].

Definition pool_sets (n : nat) (k s p : list Z) : list (AttrKey.t * AttrValue) :=
  axes AttrKey.KernelSize (kernel_keys n) k ++ axes AttrKey.Stride (stride_keys n) s ++
  axes AttrKey.Padding (padding_keys n) p.

Definition pool1d_sets (k s p : Z) : list (AttrKey.t * AttrValue) :=
  [int AttrKey.KernelSize k; int AttrKey.Stride s; int AttrKey.Padding p].

Definition include_pad (b : bool) : AttrKey.t * AttrValue := int AttrKey.CountIncludePad (bit b).

Definition err_ceil := RuntimeError "ceil_mode=true is not supported on this backend ".

(** ** Evaluation *)

Section module.
Context {T : Type} `{Kernels T}.
Context (shape_of : T -> list Z) (tensor_of : TensorData -> result T).
Context (other : Z -> list T -> OpAttributes -> result (list T)).

(** [results[0]]. *)
Definition first (r : result (list T)) : result T :=
  let* outs := r in match outs with t :: _ => Ok t | [] => Err UndefinedBehaviour end.

Definition forward (op : OpId.t) (sets : list (AttrKey.t * AttrValue)) (args : list T) : result T :=
  let* a := set_all sets in first (dispatch other (OpId.value op) args a).

Definition param (p : Params) (name : string) : result T := let* t := get_param_tensor p name in tensor_of t.
Definition buffer (p : Params) (name : string) : result T := let* t := get_buffer_tensor p name in tensor_of t.

(** The bias, if there is one. *)
Definition bias_arg (p : Params) : result (list T) :=
  match try_get_parameter p "bias" with Some t => let* b := tensor_of t in Ok [b] | None => Ok [] end.

Definition forward_conv (p : Params) (op : OpId.t) (sets : list (AttrKey.t * AttrValue)) (x : T) : result T :=
  let* w := param p "weight" in
  let* b := bias_arg p in
  forward op sets (x :: w :: b).

Definition forward_pool (ceil_mode : bool) (op : OpId.t) (sets : list (AttrKey.t * AttrValue)) (x : T) : result T :=
  let* _ := throw_if ceil_mode err_ceil in
  forward op (sets ++ [int AttrKey.CeilMode (bit ceil_mode)]) [x].

Definition run_norm (p : Params) (k : Kernel) (x : T) : result T :=
  let* w := param p "weight" in
  let* b := param p "bias" in
  first (run k [x; w; b]).

Definition run_instance_norm (p : Params) (eps : double) (n : Z) (x : T) : result T :=
  let* w := tensor_of (affine_or_identity p n).1 in
  let* b := tensor_of (affine_or_identity p n).2 in
  first (run (instance_norm_kernel_with_stats (float_of_double eps)) [x; w; b]).

Definition run_batchnorm2d (p : Params) (eps : double) (x : T) : result T :=
  let* mean := buffer p "running_mean" in
  let* var := buffer p "running_var" in
  match try_get_parameter p "weight", try_get_parameter p "bias" with
  | Some weight, Some bias =>
      let* w := tensor_of weight in
      let* b := tensor_of bias in
      first (run (batchnorm2d_forward_affine_kernel (float_of_double eps)) [x; mean; var; w; b])
  | _, _ => first (run (batchnorm2d_forward_kernel (float_of_double eps)) [x; mean; var])
  end.

(** The size [Upsample::forward_impl] computes from its own input. *)
Definition upsample_target (size : option (list Z)) (scale_factor : option double) (x : T) : result (list Z) :=
  match size, scale_factor with
  | Some size, _ => Ok size
  | None, Some sf => rmapM (fun d => rmap (Z.max 1) (scaled sf d)) (drop 2 (shape_of x))
  | None, None => Err UndefinedBehaviour
  end.

Definition run_unary (op : OpId.t) (x : T) : result T := first (run (unary_kernel op) [x]).

Definition run_layer (p : Params) (l : Layer) (x : T) : result T :=
  match l with
  | Linear has_bias =>
      let* w := param p "weight" in
      let* b := if has_bias then bias_arg p else Ok [] in
      first (run linear_kernel (x :: w :: b))
  | Conv1d s pd d g => forward_conv p OpId.Conv1dForward (conv1d_sets s pd d g) x
  | Conv2d s pd d g => forward_conv p OpId.Conv2dForward (conv_sets 2 (l2 s) (l2 pd) (l2 d) g) x
  | Conv3d s pd d g => forward_conv p OpId.Conv3dForward (conv_sets 3 (l3 s) (l3 pd) (l3 d) g) x
  | ConvTranspose2d s pd op d g =>
      forward_conv p OpId.ConvTranspose2dForward (conv_transpose_sets 2 (l2 s) (l2 pd) (l2 op) (l2 d) g) x
  | ConvTranspose3d s pd op d g =>
      forward_conv p OpId.ConvTranspose3dForward (conv_transpose_sets 3 (l3 s) (l3 pd) (l3 op) (l3 d) g) x
  | BatchNorm2d eps => run_batchnorm2d p eps x
  | LayerNorm eps =>
      let* w := get_param_tensor p "weight" in
      run_norm p (layer_norm_kernel_with_stats (td_shape w) (float_of_double eps)) x
  | GroupNorm n eps => run_norm p (group_norm_kernel_with_stats n (float_of_double eps)) x
  | InstanceNorm eps n => run_instance_norm p eps n x
  | InstanceNorm3d (Some in2d) eps n => run_instance_norm in2d eps n x
  | InstanceNorm3d None _ _ => Err UndefinedBehaviour
  | RMSNorm eps => let* w := param p "weight" in first (run (fused_rms_norm_kernel (float_of_double eps)) [x; w])
  | Flatten s e => first (run (flatten_kernel s e) [x])
  | Dropout | Identity => Ok x
  | MaxPool1d k s pd c => forward_pool c OpId.MaxPool1dForward (pool1d_sets k s pd) x
  | MaxPool2d k s pd c => forward_pool c OpId.MaxPool2dForward (pool_sets 2 (l2 k) (l2 s) (l2 pd)) x
  | MaxPool3d k s pd c => forward_pool c OpId.MaxPool3dForward (pool_sets 3 (l3 k) (l3 s) (l3 pd)) x
  | AvgPool1d k s pd i c => forward_pool c OpId.AvgPool1dForward (pool1d_sets k s pd ++ [include_pad i]) x
  | AvgPool2d k s pd i c => forward_pool c OpId.AvgPool2dForward (pool_sets 2 (l2 k) (l2 s) (l2 pd) ++ [include_pad i]) x
  | AvgPool3d k s pd i c => forward_pool c OpId.AvgPool3dForward (pool_sets 3 (l3 k) (l3 s) (l3 pd) ++ [include_pad i]) x
  | AdaptiveAvgPool1d o => forward OpId.AdaptiveAvgPool1d [int AttrKey.OutputSize o] [x]
  | AdaptiveMaxPool1d o => forward OpId.AdaptiveMaxPool1d [int AttrKey.OutputSize o] [x]
  | AdaptiveAvgPool2d o => forward OpId.AdaptiveAvgPool2d (axis_ints (adaptive_keys 2) (l2 o)) [x]
  | AdaptiveMaxPool2d o => forward OpId.AdaptiveMaxPool2d (axis_ints (adaptive_keys 2) (l2 o)) [x]
  | AdaptiveAvgPool3d o => forward OpId.AdaptiveAvgPool3d (axis_ints (adaptive_keys 3) (l3 o)) [x]
  | AdaptiveMaxPool3d o => forward OpId.AdaptiveMaxPool3d (axis_ints (adaptive_keys 3) (l3 o)) [x]
  | Embedding => let* w := param p "weight" in first (run (embedding_kernel (-1)) [w; x])
  | Softmax dim => first (run (softmax_kernel dim) [x])
  | LogSoftmax dim => first (run (log_softmax_kernel dim) [x])
  | Upsample sz sf mode ac =>
      let* ts := upsample_target sz sf x in first (run (interpolate_kernel ts mode ac) [x])
  | ReLU => run_unary OpId.ReLU x
  | Sigmoid => run_unary OpId.Sigmoid x
  | Tanh => run_unary OpId.Tanh x
  | Mish => run_unary OpId.Mish x
  | SELU => run_unary OpId.Selu x
  | Swish => run_unary OpId.Swish x
  | Hardswish => run_unary OpId.Hardswish x
  | Hardsigmoid => run_unary OpId.Hardsigmoid x
  | GELU => run_unary OpId.Gelu x
  | LeakyReLU slope => first (run (leaky_relu_kernel slope) [x])
  | ELU alpha => first (run (elu_kernel (float_of_double alpha)) [x])
  | Unsupported => Err UndefinedBehaviour
  end.

Fixpoint run_module (m : Module_) (x : T) : result T :=
  match m with
  | Sequential children =>
      (fix run_all (l : list Module_) (x : T) : result T :=
         match l with
         | [] => Ok x
         | child :: l => let* y := run_module child x in run_all l y
         end) children x
  | Leaf p l => run_layer p l x
  end.

End module.

(** ** What the Lite format carries

    The members that change the result and that the exporter drops, or that
    the bridge does not pass on, have the value the kernel takes by default. *)

Definition carried (l : Layer) : bool :=
  match l with
  | MaxPool1d _ _ _ c | MaxPool2d _ _ _ c | MaxPool3d _ _ _ c => negb c
  | AvgPool1d _ _ _ i c | AvgPool2d _ _ _ i c | AvgPool3d _ _ _ i c => i && negb c
  | LeakyReLU slope => bool_decide (slope = literal 1 100)
  | ELU alpha => bool_decide (float_of_double alpha = float_of_double (literal 1 1))
  | Upsample sz _ _ _ => bool_decide (is_Some sz)
  | RMSNorm _ => false
  | _ => true
  end.

Fixpoint carried_module (m : Module_) : bool :=
  match m with
  | Sequential children => forallb carried_module children
  | Leaf _ l => carried l
  end.

End ModuleSpec.

(** ** The nodes of the layers

    [emission] gathers what an emitter of src/lite/exporter.cpp adds for a
    layer: the weights in order, the operator, its operands, its slots and
    the number of outputs.  The visitor does exactly that; and running the
    node through the bridge and the registry is the layer's own call. *)

Import Lite Format SafeTensors Json FloatAttrs OpAttributes Bridge Exporter ModuleSpec.

Module Emission.

Inductive Arg := Input | Weight (k : nat).

Record Emission := mkEm {
  em_op : OpId.t;
  em_weights : list TensorData;
  em_args : list Arg;
  em_attrs : LiteAttributes;
  em_outputs : nat
}.

(** The operands when the weights follow the input. *)
Definition args_of (ws : list TensorData) : list Arg := Input :: map Weight (seq 0 (length ws)).

Definition em_node (op : OpId.t) (ws : list TensorData) (attrs : LiteAttributes) (n : nat) : Emission :=
  mkEm op ws (args_of ws) attrs n.

Definition opt_list {A} (o : option A) : list A := match o with Some a => [a] | None => [] end.

Definition em_conv (op : OpId.t) (p : Params) (rank : nat) (attrs : list Z -> LiteAttributes) : result Emission :=
  let* k := weight_kernel p rank in
  let* w := get_param_tensor p "weight" in
  Ok (em_node op (w :: opt_list (try_get_parameter p "bias")) (attrs k) 1).

Definition em_affine (op : OpId.t) (p : Params) (attrs : TensorData -> LiteAttributes) : result Emission :=
  let* w := get_param_tensor p "weight" in
  let* bias := get_param_tensor p "bias" in
  Ok (em_node op [w; bias] (attrs w) 3).

Definition em_batchnorm2d (p : Params) (eps : double) : result Emission :=
  let* mean := get_buffer_tensor p "running_mean" in
  let* var := get_buffer_tensor p "running_var" in
  Ok (match try_get_parameter p "weight", try_get_parameter p "bias" with
      | Some w, Some bias => em_node OpId.BatchNorm2dForwardAffine [mean; var; w; bias] (attrs_f eps 0 []) 1
      | _, _ => em_node OpId.BatchNorm2dForward [mean; var] (attrs_f eps 0 []) 1
      end).

Definition em_instancenorm (p : Params) (eps : double) (n : Z) : Emission :=
  em_node OpId.InstanceNorm [(affine_or_identity p n).1; (affine_or_identity p n).2] (attrs_f eps 0 []) 3.

Definition em_unary (op : OpId.t) : Emission := em_node op [] default_attrs 1.

(** [None]: the layer passes its input on. *)
Definition emission (p : Params) (l : Layer) (b : GraphBuilder) : result (option Emission) :=
  match l with
  | Linear has_bias =>
      let* w := get_param_tensor p "weight" in
      Ok (Some (em_node OpId.Linear (w :: (if has_bias then opt_list (try_get_parameter p "bias") else [])) default_attrs 1))
  | Conv1d s pd d g => rmap Some (em_conv OpId.Conv1dForward p 3 (fun k => attrs_i s pd d g ([s; pd; d; g] ++ k)))
  | Conv2d s pd d g => rmap Some (em_conv OpId.Conv2dForward p 4
      (fun k => attrs_i s.1 pd.1 d.1 g (l2 s ++ l2 pd ++ l2 d ++ [g] ++ k)))
  | Conv3d s pd d g => rmap Some (em_conv OpId.Conv3dForward p 5
      (fun k => attrs_i s.1.1 pd.1.1 d.1.1 g (l3 s ++ l3 pd ++ l3 d ++ [g] ++ k)))
  | ConvTranspose2d s pd op d g => rmap Some (em_conv OpId.ConvTranspose2dForward p 4
      (fun k => attrs_i s.1 pd.1 d.1 g (l2 s ++ l2 pd ++ l2 d ++ [g] ++ k ++ l2 op)))
  | ConvTranspose3d s pd op d g => rmap Some (em_conv OpId.ConvTranspose3dForward p 5
      (fun k => attrs_i s.1.1 pd.1.1 d.1.1 g (l3 s ++ l3 pd ++ l3 d ++ [g] ++ k ++ l3 op)))
  | BatchNorm2d eps => rmap Some (em_batchnorm2d p eps)
  | LayerNorm eps => rmap Some (em_affine OpId.LayerNorm p (fun w => attrs_f eps 0 (td_shape w)))
  | GroupNorm n eps => rmap Some (em_affine OpId.GroupNorm p (fun _ => attrs_f eps n []))
  | InstanceNorm eps n => Ok (Some (em_instancenorm p eps n))
  | InstanceNorm3d (Some in2d) eps n => Ok (Some (em_instancenorm in2d eps n))
  | InstanceNorm3d None _ _ => Err err_in2d
  | RMSNorm eps =>
      let* w := get_param_tensor p "weight" in Ok (Some (em_node OpId.RMSNorm [w] (attrs_f eps 0 []) 1))
  | Flatten s e => Ok (Some (em_node OpId.Flatten [] (attrs_i s e 0 0 []) 1))
  | Dropout | Identity => Ok None
  | MaxPool1d k s pd _ => Ok (Some (em_node OpId.MaxPool1dForward [] (attrs_i k s pd 1 []) 2))
  | MaxPool2d k s pd c => Ok (Some (em_node OpId.MaxPool2dForward []
      (attrs_i k.1 s.1 pd.1 1 (l2 k ++ l2 s ++ l2 pd ++ [1; 1; bit c])) 2))
  | MaxPool3d k s pd c => Ok (Some (em_node OpId.MaxPool3dForward []
      (attrs_i k.1.1 s.1.1 pd.1.1 1 (l3 k ++ l3 s ++ l3 pd ++ [1; 1; 1; bit c])) 2))
  | AvgPool1d k s pd _ _ => Ok (Some (em_node OpId.AvgPool1dForward [] (attrs_i k s pd 0 []) 1))
  | AvgPool2d k s pd _ _ => Ok (Some (em_node OpId.AvgPool2dForward []
      (attrs_i k.1 s.1 pd.1 0 (l2 k ++ l2 s ++ l2 pd ++ [0; 1])) 1))
  | AvgPool3d k s pd _ _ => Ok (Some (em_node OpId.AvgPool3dForward []
      (attrs_i k.1.1 s.1.1 pd.1.1 0 (l3 k ++ l3 s ++ l3 pd ++ [0; 1])) 1))
  | AdaptiveAvgPool1d o => Ok (Some (em_node OpId.AdaptiveAvgPool1d [] (attrs_i o 0 0 0 []) 1))
  | AdaptiveMaxPool1d o => Ok (Some (em_node OpId.AdaptiveMaxPool1d [] (attrs_i o 0 0 0 []) 2))
  | AdaptiveAvgPool2d o => Ok (Some (em_node OpId.AdaptiveAvgPool2d [] (attrs_i o.1 0 0 0 (l2 o)) 1))
  | AdaptiveMaxPool2d o => Ok (Some (em_node OpId.AdaptiveMaxPool2d [] (attrs_i o.1 0 0 0 (l2 o)) 2))
  | AdaptiveAvgPool3d o => Ok (Some (em_node OpId.AdaptiveAvgPool3d [] (attrs_i o.1.1 0 0 0 (l3 o)) 1))
  | AdaptiveMaxPool3d o => Ok (Some (em_node OpId.AdaptiveMaxPool3d [] (attrs_i o.1.1 0 0 0 (l3 o)) 2))
  | Embedding =>
      let* w := get_param_tensor p "weight" in
      Ok (Some (mkEm OpId.Embedding [w] [Weight 0; Input] (attrs_i (-1) 0 0 0 []) 1))
  | Softmax dim => Ok (Some (em_node OpId.Softmax [] (attrs_i dim 0 0 0 []) 1))
  | LogSoftmax dim => Ok (Some (em_node OpId.LogSoftmax [] (attrs_i dim 0 0 0 []) 1))
  | Upsample sz sf mode ac =>
      let* ts := target_size sz sf b in
      let* code := upsample_mode_code mode in
      Ok (Some (em_node OpId.Interpolate [] (attrs_i (bit ac) code 0 0 ts) 1))
  | ReLU => Ok (Some (em_unary OpId.ReLU))
  | Sigmoid => Ok (Some (em_unary OpId.Sigmoid))
  | Tanh => Ok (Some (em_unary OpId.Tanh))
  | Mish => Ok (Some (em_unary OpId.Mish))
  | SELU => Ok (Some (em_unary OpId.Selu))
  | Swish => Ok (Some (em_unary OpId.Swish))
  | Hardswish => Ok (Some (em_unary OpId.Hardswish))
  | Hardsigmoid => Ok (Some (em_unary OpId.Hardsigmoid))
  | GELU => Ok (Some (em_unary OpId.Gelu))
  | LeakyReLU slope => Ok (Some (em_node OpId.LeakyReLU [] (attrs_f slope 0 []) 1))
  | ELU alpha => Ok (Some (em_node OpId.Elu [] (attrs_f alpha 0 []) 1))
  | Unsupported => Err err_unsupported
  end.

(** ** The visitor emits it *)

Fixpoint add_weights (ws : list TensorData) : builder (list Z) :=
  match ws with
  | [] => mret []
  | w :: ws => id ← add_weight w; ids ← add_weights ws; mret (id :: ids)
  end.

Definition arg_value {A} (x : A) (ws : list A) (a : Arg) (d : A) : A :=
  match a with Input => x | Weight k => nth k ws d end.

Definition emit (em : Emission) (in_id : Z) : builder Z :=
  ids ← add_weights (em_weights em);
  emit_node (em_op em) (map (fun a => arg_value in_id ids a 0) (em_args em)) (em_attrs em) (em_outputs em).

(** Everything of a builder but its mark. *)
Definition unmarked (b : GraphBuilder) : LiteGraph * WriteOptions * Z * list Z :=
  (b_graph b, b_opts b, next_id b, b_input_shape b).

Definition visited (oe : option Emission) (in_id : Z) (b : GraphBuilder) (out : Z) (b' : GraphBuilder) : Prop :=
  match oe with
  | None => out = in_id /\ b' = b
  | Some em => exists b0 b1, unmarked b0 = unmarked b /\ emit em in_id b0 = Ok (out, b1) /\ unmarked b1 = unmarked b'
  end.

Ltac monad := cbv [mbind builder_bind mret builder_ret b_lift b_throw rmap rbind] in *; cbn [fst snd] in *.

(** Two ways to write the same calls: run them side by side. *)
Ltac same_calls :=
  unfold emit, emit_instancenorm, em_unary, em_instancenorm, em_node; cbn [em_op em_weights em_args em_attrs em_outputs add_weights args_of
       length seq map arg_value nth opt_list fst snd]; monad;
  repeat (match goal with |- context [add_weight ?w ?b] => destruct (add_weight w b) as [[? ?]|]; cbn [fst snd map arg_value nth] end);
  reflexivity.

Lemma visited_emit em in_id b out b' : emit em in_id b = Ok (out, b') -> visited (Some em) in_id b out b'.
Proof. intros H. by exists b, b'. Qed.

Lemma visited_before em in_id b out b' : (_ ← set_dirty; emit em in_id) b = Ok (out, b') -> visited (Some em) in_id b out b'.
Proof. intros H. eexists _, b'. split; [|split; [exact H|done]]. done. Qed.

Lemma visited_after em in_id b out b' :
  (o ← emit em in_id; _ ← set_dirty; mret o) b = Ok (out, b') -> visited (Some em) in_id b out b'.
Proof.
  intros H. monad. destruct (emit em in_id b) as [[o b1]|] eqn:E; [|done]. apply Ok_inj in H. injection H as -> <-.
  exists b, b1. done.
Qed.

(** The layers whose emitter marks the spatial dimensions first. *)
Lemma emit_conv_node_visited p op rank attrs in_id b out b' :
  (k ← b_lift (weight_kernel p rank); emit_conv_node op p in_id (attrs k)) b = Ok (out, b') ->
  exists em, em_conv op p rank attrs = Ok em /\ visited (Some em) in_id b out b'.
Proof.
  intros H. unfold em_conv, emit_conv_node in *. monad. destruct (weight_kernel p rank) as [k|]; [|done].
  destruct (get_param_tensor p "weight") as [w|]; [|done]. eexists. split; [done|]. apply visited_after. rewrite <-H.
  destruct (try_get_parameter p "bias") as [bias|]; same_calls.
Qed.

Lemma some_visited em em' in_id b out b' : em = Ok em' -> visited (Some em') in_id b out b' ->
  exists oe, rmap Some em = Ok oe /\ visited oe in_id b out b'.
Proof. intros -> H. by eexists. Qed.

(** Every visit of a layer that returns has emitted its node. *)
Lemma visit_layer_emission p l in_id b out b' : visit_layer p l in_id b = Ok (out, b') ->
  exists oe, emission p l b = Ok oe /\ visited oe in_id b out b'.
Proof.
  destruct l as [hb|s pd d g|s pd d g|s pd d g|s pd op d g|s pd op d g|eps|eps|n eps|eps n|[in2d|] eps n|eps|s e| |
    |k s pd c|k s pd c|k s pd c|k s pd i c|k s pd i c|k s pd i c|o|o|o|o|o|o| |dim|dim|sz sf mode ac
    | | | | | | | | | |slope|alpha|]; cbn [visit_layer emission]; intros H; try discriminate H;
    try (eexists; split; [reflexivity|]; first
      [ by injection H as <- <-
      | apply visited_emit; rewrite <-H; same_calls
      | apply visited_before; rewrite <-H; same_calls ]);
    try (match goal with |- context [em_conv] =>
      apply emit_conv_node_visited in H as (em & He & Hv); by apply (some_visited _ em) end).
  - unfold emit_linear, get_param_tensor in *. monad. destruct (parameters p !! "weight") as [w|]; [|done].
    eexists. split; [done|]. apply visited_emit. rewrite <-H. unfold try_get_parameter.
    destruct hb; [destruct (parameters p !! "bias")|]; same_calls.
  - unfold emit_batchnorm2d, em_batchnorm2d, try_get_parameter in *. monad.
    destruct (get_buffer_tensor p "running_mean") as [mean|]; [|done]. cbn [rbind].
    destruct (get_buffer_tensor p "running_var") as [var|]; [|by destruct (add_weight mean b) as [[]|]].
    eexists. split; [done|]. destruct (parameters p !! "weight"), (parameters p !! "bias");
      apply visited_emit; rewrite <-H; same_calls.
  - unfold emit_layernorm, em_affine in *. monad.
    destruct (get_param_tensor p "weight") as [w|]; [|done]. cbn [rbind].
    destruct (get_param_tensor p "bias") as [bias|]; [|by destruct (add_weight w b) as [[]|]].
    eexists. split; [done|]. apply visited_emit. rewrite <-H. same_calls.
  - unfold emit_groupnorm, em_affine in *. monad.
    destruct (get_param_tensor p "weight") as [w|]; [|done]. cbn [rbind].
    destruct (get_param_tensor p "bias") as [bias|]; [|by destruct (add_weight w b) as [[]|]].
    eexists. split; [done|]. apply visited_emit. rewrite <-H. same_calls.
  - unfold emit_rmsnorm in *. monad. destruct (get_param_tensor p "weight") as [w|]; [|done].
    eexists. split; [done|]. apply visited_emit. rewrite <-H. same_calls.
  - unfold emit_embedding, get_param_tensor in *. monad. destruct (parameters p !! "weight") as [w|]; [|done].
    eexists. split; [done|]. apply visited_emit. rewrite <-H. same_calls.
  - unfold emit_upsample in *. monad. destruct (target_size sz sf b) as [ts|]; [|done]. cbn [rbind].
    destruct (upsample_mode_code mode) as [code|]; [|done]. eexists. split; [done|].
    apply visited_after. rewrite <-H. same_calls.
Qed.

(** ** Running it is the layer's call *)

Lemma cpu_dispatch {T} `{Kernels T} other o (args : list T) a :
  dispatch other (OpId.value o) args a =
  match cpu_kernel o args a with Some r => r | None => other (OpId.value o) args a end.
Proof. unfold dispatch. by rewrite OpId.of_Z_value. Qed.

Section calls.
Context {T : Type} `{Kernels T}.
Context (shape_of : T -> list Z) (tensor_of : TensorData -> result T).
Context (other : Z -> list T -> OpAttributes -> result (list T)).
Context (tensor_shape : forall t x, tensor_of t = Ok x -> shape_of x = td_shape t).

#[local] Notation run_op := (run_op other shape_of).
#[local] Notation run_layer := (run_layer shape_of tensor_of other).
#[local] Notation forward := (forward other).

(** What [LiteGraph::execute] does with the node, up to its first output. *)
Definition run_node (em : Emission) (x : T) : result T :=
  let* ws := rmapM tensor_of (em_weights em) in
  let* outs := run_op (OpId.value (em_op em)) (map (fun a => arg_value x ws a x) (em_args em)) (em_attrs em) in
  let* _ := throw_if (negb (length outs =? em_outputs em)%nat) Lite.err_arity in
  first (Ok outs).

Lemma run_op_attrs o args la sets : attr_sets shape_of (Some o) la args = Ok sets ->
  exists a, (forall key, find a key = last_set sets key) /\ run_op (OpId.value o) args la = dispatch other (OpId.value o) args a.
Proof.
  intros Hs. destruct (set_all_spec sets) as (a & Ha & _ & Hf). exists a. split; [done|].
  unfold Bridge.run_op, build_attrs. rewrite OpId.of_Z_value, Hs. cbn [rbind]. by rewrite Ha.
Qed.

Lemma forward_attrs o sets args :
  exists a, (forall key, find a key = last_set sets key) /\ forward o sets args = first (dispatch other (OpId.value o) args a).
Proof.
  destruct (set_all_spec sets) as (a & Ha & _ & Hf). exists a. split; [done|]. unfold ModuleSpec.forward. by rewrite Ha.
Qed.

Lemma slot_eps eps i l : float_of_double (slot_f (attrs_f eps i l) 0) = float_of_double eps.
Proof. apply stored_read. Qed.

(** A node that declares as many outputs as its kernel returns passes the check. *)
Lemma checked_first k args n : outputs k = n ->
  (let* outs := run k args in let* _ := throw_if (negb (length outs =? n)%nat) Lite.err_arity in first (Ok outs)) = first (run k args).
Proof.
  intros <-. destruct (run k args) as [outs|] eqn:E; [|done]. cbn [rbind].
  rewrite (run_outputs _ _ _ E), Nat.eqb_refl. done.
Qed.

Lemma weight_kernel_Ok p rank k : weight_kernel p rank = Ok k -> length k = (rank - 2)%nat.
Proof.
  unfold weight_kernel. intros E. inv_ok. subst. rewrite length_drop.
  match goal with E : negb _ = false |- _ => apply negb_false_iff, Nat.eqb_eq in E; by rewrite E end.
Qed.

(** The value a key was last set to. *)
Ltac read_keys := repeat
  match goal with Hf : forall key, find ?a key = _ |- context [find ?a ?k] =>
    rewrite (Hf k); match goal with |- context [last_set ?s k] => let v := eval cbn in (last_set s k) in change (last_set s k) with v end
  end.

(** The attributes of the node, or of the layer's own dispatch. *)
Ltac node_attrs :=
  match goal with |- context [Bridge.run_op other shape_of (OpId.value ?o) ?args ?la] =>
    let E := fresh "E" in edestruct (run_op_attrs o args la) as (? & ? & E); [reflexivity|]; rewrite E; clear E end.

Ltac layer_attrs :=
  match goal with |- context [ModuleSpec.forward other ?o ?sets ?args] =>
    let E := fresh "E" in destruct (forward_attrs o sets args) as (? & ? & E); rewrite E; clear E end.

(** Through the registry to the call of the kernel. *)
Ltac kernel_call :=
  rewrite ?cpu_dispatch; cbn [cpu_kernel]; autounfold with lambdas;
  unfold conv_args, pool_args, pool1d_args, adaptive_args, count_include_pad, call, read_eps, read_float, read_axes, get_int, get_float, has;
  cbn [stride_keys padding_keys dilation_keys kernel_keys output_padding_keys adaptive_keys drop Nat.sub rmapM];
  read_keys; cbn [as_int as_float rbind rmap nth];
  cbn [operands_bias operands seq rmapM operand lookup list_lookup rbind app drop take].

Ltac same_kernel := node_attrs; try layer_attrs; kernel_call; cbn; rewrite ?slot_eps, ?checked_first by done;
  repeat (match goal with |- context [run1 ?k ?a] => destruct (run1 k a); cbn end); try reflexivity.

(** The node of a layer without weights. *)
Ltac weightless He :=
  apply Ok_inj in He; injection He as <-; unfold run_node, em_unary, em_node, args_of;
  cbn [em_weights em_op em_args em_attrs em_outputs rmapM rbind length seq map arg_value];
  unfold forward_pool, run_unary; cbn [throw_if rbind].

(** A layer's parameters and what becomes of them on both sides. *)
Ltac weights := repeat match goal with |- context [tensor_of ?t] =>
  let E := fresh "E" in destruct (tensor_of t) as [?|] eqn:E; cbn [rbind rmapM app]; [|try reflexivity] end.

Lemma conv_call op p rank attrs sets em x :
  em_conv op p rank attrs = Ok em ->
  (forall k w b, length k = (rank - 2)%nat -> (length b <= 1)%nat ->
     (let* outs := run_op (OpId.value op) (x :: w :: b) (attrs k) in
      let* _ := throw_if (negb (length outs =? 1)%nat) Lite.err_arity in first (Ok outs)) = forward op sets (x :: w :: b)) ->
  run_node em x = forward_conv tensor_of other p op sets x.
Proof.
  intros He Hc. unfold em_conv in He. apply rbind_Ok in He as (k & Hk & He). apply rbind_Ok in He as (w & Hw & <-%Ok_inj).
  apply weight_kernel_Ok in Hk. unfold run_node, forward_conv, param, bias_arg, em_node, args_of. rewrite Hw.
  cbn [em_weights em_op em_args em_attrs em_outputs rbind rmapM]. destruct (try_get_parameter p "bias") as [t|];
    cbn [opt_list rmapM rbind length seq map arg_value nth]; weights; apply Hc; cbn; lia || done.
Qed.

Ltac conv_case He := let em' := fresh "em'" in let Hem := fresh "Hem" in
  match type of He with rmap Some ?m = _ => destruct m as [em'|] eqn:Hem; [|discriminate He] end;
  injection He as ->; apply (conv_call _ _ _ _ _ _ _ Hem); clear Hem;
  let k := fresh "k" in let w := fresh "w" in let b := fresh "b" in let Hk := fresh "Hk" in let Hb := fresh "Hb" in
  intros k w b Hk Hb; cbn in Hk;
  repeat (destruct k as [|? k]; try discriminate Hk); destruct b as [|? [|]]; [| |cbn in Hb; lia].

Lemma layer_norm_sets x w b ns eps : shape_of w = ns ->
  attr_sets shape_of (Some OpId.LayerNorm) (attrs_f eps 0 ns) [x; w; b] =
  Ok [real AttrKey.Eps (slot_f (attrs_f eps 0 ns) 0); text AttrKey.NormalizedShape (join ns)].
Proof. intros <-. cbn. by destruct (shape_of w). Qed.

(** The values behind pointers and of [int64_t] members fit their type. *)
Definition layer_typed (p : Params) (l : Layer) : Prop :=
  match l with
  | LayerNorm _ => forall w, parameters p !! "weight" = Some w -> i64s (td_shape w)
  | Upsample (Some sz) _ _ _ => i64s sz
  | _ => True
  end.

Lemma get_int_list_join a key l : i64s l -> find a key = Some (String (join l)) -> get_int_list a key = Ok l.
Proof. intros Hl Hf. unfold get_int_list. rewrite Hf. by apply parse_int_list_commas. Qed.

Lemma mode_name_code mode code : upsample_mode_code mode = Ok code -> mode_name code = mode.
Proof.
  unfold upsample_mode_code. destruct (list_find _ _) as [[k m]|] eqn:E; [|done]. intros <-%Ok_inj.
  apply list_find_Some in E as (Hk & -> & _). do 7 (destruct k as [|k]; [by injection Hk as <-|]). done.
Qed.

(** A layer whose parameters are read in the same order on both sides. *)
Ltac open_emission He :=
  try (match type of He with rmap Some ?m = _ =>
    let em := fresh "em" in let Hm := fresh in destruct m as [em|] eqn:Hm; [|discriminate He];
    apply Ok_inj in He; injection He as ->; rename Hm into He end);
  repeat (let w := fresh "w" in let Hw := fresh "Hw" in apply rbind_Ok in He as (w & Hw & He); rewrite ?Hw; cbn [rbind]);
  apply Ok_inj in He; first [ injection He as <- | rewrite <-He; clear He ].

Ltac node := unfold run_node, em_unary, em_node, args_of; cbn [em_weights em_op em_args em_attrs em_outputs rmapM rbind];
  weights; cbn [length seq map arg_value nth].

Lemma run_emission p l b em x : layer_typed p l -> carried l = true -> emission p l b = Ok (Some em) -> run_node em x = run_layer p l x.
Proof.
  destruct l as [hb|s pd d g|s pd d g|s pd d g|s pd op d g|s pd op d g|eps|eps|n eps|eps n|[in2d|] eps n|eps|s e| |
    |k s pd c|k s pd c|k s pd c|k s pd i c|k s pd i c|k s pd i c|o|o|o|o|o|o| |dim|dim|sz sf mode ac
    | | | | | | | | | |slope|alpha|]; cbn [emission ModuleSpec.run_layer carried]; intros Ht Hc He; try discriminate Hc; try discriminate He;
    try (destruct c; [try discriminate Hc|]); try (destruct i; [|discriminate Hc]); try discriminate Hc;
    try (weightless He; same_kernel; fail).
  all: try (conv_case He; same_kernel; fail).
  - unfold param, bias_arg. open_emission He. node. destruct hb; [destruct (try_get_parameter p "bias")|];
      cbn [opt_list rmapM rbind]; weights; same_kernel.
  - unfold run_batchnorm2d, buffer, em_batchnorm2d in *. open_emission He.
    destruct (try_get_parameter p "weight"), (try_get_parameter p "bias"); node; same_kernel.
  - unfold run_norm, param, em_affine in *. open_emission He. node.
    edestruct (run_op_attrs OpId.LayerNorm) as (at_ & Hf & Hr); [by eapply layer_norm_sets, tensor_shape, E|].
    rewrite Hr, cpu_dispatch. cbn [cpu_kernel]; autounfold with lambdas. rewrite (get_int_list_join _ _ (td_shape w)); [|apply Ht|by rewrite Hf].
    + kernel_call. cbn. by rewrite slot_eps, checked_first.
    + unfold get_param_tensor in Hw. by destruct (parameters p !! "weight"); [injection Hw as ->|].
  - unfold run_norm, param, em_affine in *. open_emission He. node. same_kernel.
  - unfold run_instance_norm, em_instancenorm in *. open_emission He. node. same_kernel.
  - unfold run_instance_norm, em_instancenorm in *. open_emission He. node. same_kernel.
  - unfold param. open_emission He. node. same_kernel.
  - apply bool_decide_eq_true in Hc as [ts ->]. cbn in He. apply rbind_Ok in He as (code & Hcode & He).
    open_emission He. node.
    edestruct (run_op_attrs OpId.Interpolate) as (at_ & Hf & Hr); [reflexivity|].
    rewrite Hr, cpu_dispatch. cbn [cpu_kernel]; autounfold with lambdas.
    assert (get_int_list at_ AttrKey.OutputSize = Ok ts) as ->.
    { destruct ts as [|t ts]; [unfold get_int_list; by rewrite Hf|]. apply get_int_list_join; [apply Ht|by rewrite Hf]. }
    unfold get_string, get_bool. rewrite !Hf. destruct ts; kernel_call; cbn;
      rewrite (mode_name_code _ _ Hcode), checked_first by done; by destruct ac.
  - apply bool_decide_eq_true in Hc as ->. weightless He. same_kernel.
  - apply bool_decide_eq_true in Hc. weightless He. same_kernel. by rewrite Hc.
Qed.

End calls.

(** The value a key was last set to. *)
Ltac read_key Hf := repeat
  match goal with |- context [find ?a ?k] =>
    rewrite (Hf k); match goal with |- context [last_set ?s k] => let v := eval cbn in (last_set s k) in change (last_set s k) with v end
  end.

End Emission.
