(* ===== verification/LiteSimulation.v ===== *)
(** * The nodes of a module compute the module

    The ids the graph builder of src/lite/exporter.cpp hands out, the nodes
    and weights a visit adds, and the simulation: running the added nodes from
    an environment that holds the weights and the input yields, at the id the
    visitor returns, what the module computes - or fails with its error. *)

From stdpp Require Import base list list_numbers numbers strings gmap.
From S2P Require Import Prelude Shape DType LiteGraph LiteFormat LiteRuntime SafeTensors SafeTensorsJson FloatAttrs OpAttributes LiteBridge LiteExporter LiteEmission.
Import Lite Format Runtime SafeTensors Json FloatAttrs OpAttributes Bridge Exporter ModuleSpec Emission.

Module Simulation.

(** ** What the builder hands out *)

Notation bw b := (weights (b_opts b)).

Record builder_ok (b : GraphBuilder) : Prop := {
  bo_next : 0 <= next_id b <= INT16_MAX + 1;
  bo_weights : forall id, is_Some (bw b !! id) -> 0 <= id < next_id b
}.

Definition with_weights (ws : gmap Z TensorData) (o : WriteOptions) : WriteOptions :=
  mkOpts ws (o_inputs o) (o_outputs o) (input_specs o) (o_metadata o) (o_plan o).

Fixpoint put_weights (id : Z) (ws : list TensorData) (m : gmap Z TensorData) : gmap Z TensorData :=
  match ws with [] => m | w :: ws => put_weights (id + 1) ws (<[id := w]> m) end.

Lemma put_weights_lookup id ws m k :
  put_weights id ws m !! k = if (id <=? k) && (k <? id + lenZ ws) then ws !! Z.to_nat (k - id) else m !! k.
Proof.
  revert id m. induction ws as [|w ws IH]; intros id m; cbn [put_weights].
  - change (lenZ (@nil TensorData)) with 0. destruct (Z.leb_spec id k), (Z.ltb_spec k (id + 0)); [lia|done..].
  - rewrite IH. pose proof (lenZ_nonneg ws). assert (lenZ (w :: ws) = lenZ ws + 1) as -> by (unfold lenZ; cbn; lia).
    destruct (decide (k = id)) as [->|Hne].
    + destruct (Z.leb_spec (id + 1) id), (Z.leb_spec id id), (Z.ltb_spec id (id + (lenZ ws + 1))); try lia. cbn [andb].
      by rewrite Z.sub_diag, lookup_insert_eq.
    + rewrite lookup_insert_ne by done.
      destruct (Z.leb_spec (id + 1) k), (Z.leb_spec id k), (Z.ltb_spec k (id + 1 + lenZ ws)),
        (Z.ltb_spec k (id + (lenZ ws + 1))); try lia; try done.
      cbn [andb]. replace (Z.to_nat (k - id)) with (S (Z.to_nat (k - (id + 1)))) by lia. done.
Qed.

(** One builder is another with some fields replaced. *)
Definition moved (b b' : GraphBuilder) (g : LiteGraph) (o : WriteOptions) (n : Z) : Prop :=
  b_graph b' = g /\ b_opts b' = o /\ next_id b' = n.

Lemma fresh_Ok b id b' : fresh b = Ok (id, b') ->
  id = next_id b /\ next_id b <= INT16_MAX /\ moved b b' (b_graph b) (b_opts b) (next_id b + 1).
Proof.
  unfold fresh. destruct (Z.gtb_spec (next_id b) INT16_MAX); [done|]. intros [= <- <-]. by repeat split.
Qed.

Lemma fresh_ids_Ok n b ids b' : builder_ok b -> fresh_ids n b = Ok (ids, b') ->
  ids = seqZ (next_id b) (Z.of_nat n) /\ next_id b + Z.of_nat n <= INT16_MAX + 1 /\
  moved b b' (b_graph b) (b_opts b) (next_id b + Z.of_nat n).
Proof.
  intros [[H1 H2] _]. revert b ids b' H1 H2. induction n as [|n IH]; intros b ids b' H1 H2 H; cbn [fresh_ids] in H; monad.
  - injection H as <- <-. rewrite seqZ_nil by lia. unfold moved. rewrite Z.add_0_r. repeat split; lia.
  - destruct (fresh b) as [[id b1]|] eqn:E; [|done]. cbn [rbind] in H.
    apply fresh_Ok in E as (-> & Hle & Hg & Ho & Hn).
    destruct (fresh_ids n b1) as [[ids' b2]|] eqn:E2; [|done]. injection H as <- <-.
    apply IH in E2 as (-> & Hmax & Hg2 & Ho2 & Hn2); [|lia..].
    rewrite (seqZ_cons _ (Z.of_nat (S n))) by lia. rewrite Hn. split.
    { f_equal. f_equal; lia. }
    split; [lia|]. repeat split; [congruence..|lia].
Qed.

Lemma add_weights_Ok ws b ids b' : builder_ok b -> add_weights ws b = Ok (ids, b') ->
  ids = seqZ (next_id b) (lenZ ws) /\ next_id b + lenZ ws <= INT16_MAX + 1 /\
  moved b b' (b_graph b) (with_weights (put_weights (next_id b) ws (bw b)) (b_opts b)) (next_id b + lenZ ws).
Proof.
  revert b ids b'. induction ws as [|w ws IH]; intros b ids b' [Hn Hw] H; cbn [add_weights] in H; monad.
  - injection H as <- <-. change (lenZ (@nil TensorData)) with 0. rewrite seqZ_nil by lia. unfold moved.
    rewrite Z.add_0_r. cbn. repeat split; [lia|]. by destruct (b_opts b).
  - unfold add_weight, modify in H. monad. destruct (fresh b) as [[id b1]|] eqn:E; [|done]. cbn [rbind] in H.
    apply fresh_Ok in E as (-> & Hle & Hg & Ho & Hn1). unfold with_opts in H. cbv beta in H. rewrite Ho in H.
    destruct (bw b !! next_id b) eqn:Ew; [exfalso; specialize (Hw (next_id b)); rewrite Ew in Hw;
      specialize (Hw (ex_intro _ _ eq_refl)); lia|].
    set (b2 := mkBuilder _ _ _ _ _) in H. assert (builder_ok b2) as Hb2.
    { split; subst b2; cbn; rewrite ?Hn1; [lia|]. intros id [t [[<- <-]|[_ Hid]]%lookup_insert_Some]; [lia|].
      specialize (Hw id (ex_intro _ _ Hid)). lia. }
    destruct (add_weights ws b2) as [[ids' b3]|] eqn:E3; [|done]. injection H as <- <-.
    apply IH in E3 as (-> & Hmax & Hg3 & Ho3 & Hn3); [|done]. subst b2. cbn in *. rewrite Hn1, Hg in *.
    assert (lenZ (w :: ws) = lenZ ws + 1) as -> by (unfold lenZ; cbn; lia). pose proof (lenZ_nonneg ws).
    rewrite (seqZ_cons _ (lenZ ws + 1)) by lia. split; [f_equal; f_equal; lia|]. split; [lia|].
    repeat split; [done| |lia]. rewrite Ho3. cbn. done.
Qed.

(** ** What an emission adds *)

Definition emitted_node (em : Emission) (in_id base : Z) : LiteNode :=
  mkNode (OpId.value (em_op em))
    (map (fun a => arg_value in_id (seqZ base (lenZ (em_weights em))) a 0) (em_args em))
    (seqZ (base + lenZ (em_weights em)) (Z.of_nat (em_outputs em))) (em_attrs em).

Lemma emit_Ok em in_id b out b' : builder_ok b -> (1 <= em_outputs em)%nat -> emit em in_id b = Ok (out, b') ->
  out = next_id b + lenZ (em_weights em) /\
  next_id b + lenZ (em_weights em) + Z.of_nat (em_outputs em) <= INT16_MAX + 1 /\
  moved b b' (add_node (b_graph b) (emitted_node em in_id (next_id b)))
    (with_weights (put_weights (next_id b) (em_weights em) (bw b)) (b_opts b))
    (next_id b + lenZ (em_weights em) + Z.of_nat (em_outputs em)).
Proof.
  intros Hb Hout H. unfold emit in H. monad. destruct (add_weights (em_weights em) b) as [[ids b1]|] eqn:E; [|done].
  cbn [rbind] in H. apply add_weights_Ok in E as (-> & Hmax & Hg & Ho & Hn); [|done].
  unfold emit_node, modify in H. monad. destruct (fresh_ids (em_outputs em) b1) as [[ids b2]|] eqn:E2; [|done].
  injection H as <- <-. pose proof (lenZ_nonneg (em_weights em)). destruct Hb as [Hb1 Hb2].
  apply fresh_ids_Ok in E2 as (-> & Hmax2 & Hg2 & Ho2 & Hn2).
  - rewrite Hn in *. split; [rewrite seqZ_cons by lia; done|]. split; [lia|].
    unfold emitted_node, moved. cbn. rewrite Hg2, Ho2, Hn2, Hg, Ho. done.
  - split; rewrite ?Hn; [lia|]. rewrite Ho. cbn. intros id [t Ht]. rewrite put_weights_lookup in Ht.
    destruct (Z.leb_spec (next_id b) id), (Z.ltb_spec id (next_id b + lenZ (em_weights em))); cbn [andb] in Ht; try lia;
      specialize (Hb2 id (ex_intro _ _ Ht)); lia.
Qed.

(** ** Emissions the format carries *)

Definition weight_wf (t : TensorData) : Prop :=
  byte (td_dtype t) /\ lenZ (td_shape t) <= 255 /\ Forall s64 (td_shape t) /\
  tensor_valid t /\ lenZ (td_bytes t) = td_nbytes t /\ td_bytes t <> [].

Definition attrs_ok (a : LiteAttributes) : Prop :=
  (length (attr_f a) = 4%nat /\ Forall u32 (attr_f a)) /\ (length (attr_i a) = 4%nat /\ Forall s64 (attr_i a)) /\
  (lenZ (extra_i a) < 2 ^ 32 /\ Forall s64 (extra_i a)) /\ extra_f a = [].

Definition arg_in (n : nat) (a : Arg) : Prop := match a with Input => True | Weight k => (k < n)%nat end.

Record em_ok (em : Emission) : Prop := {
  eo_args : Forall (arg_in (length (em_weights em))) (em_args em);
  eo_used : forall k, (k < length (em_weights em))%nat -> Weight k ∈ em_args em;
  eo_op : registered (em_op em) = true;
  eo_outputs : (1 <= em_outputs em)%nat;
  eo_attrs : attrs_ok (em_attrs em);
  eo_weights : Forall weight_wf (em_weights em)
}.

(** The integer members, and the parameters, of a layer. *)
Definition layer_ints (l : Layer) : list Z :=
  match l with
  | Conv1d s p d g => [s; p; d; g]
  | Conv2d s p d g => l2 s ++ l2 p ++ l2 d ++ [g]
  | Conv3d s p d g => l3 s ++ l3 p ++ l3 d ++ [g]
  | ConvTranspose2d s p o d g => l2 s ++ l2 p ++ l2 d ++ [g] ++ l2 o
  | ConvTranspose3d s p o d g => l3 s ++ l3 p ++ l3 d ++ [g] ++ l3 o
  | GroupNorm n _ => [n]
  | Flatten s e => [s; e]
  | MaxPool1d k s p _ | AvgPool1d k s p _ _ => [k; s; p]
  | MaxPool2d k s p _ | AvgPool2d k s p _ _ => l2 k ++ l2 s ++ l2 p
  | MaxPool3d k s p _ | AvgPool3d k s p _ _ => l3 k ++ l3 s ++ l3 p
  | AdaptiveAvgPool1d o | AdaptiveMaxPool1d o => [o]
  | AdaptiveAvgPool2d o | AdaptiveMaxPool2d o => l2 o
  | AdaptiveAvgPool3d o | AdaptiveMaxPool3d o => l3 o
  | Softmax dim | LogSoftmax dim => [dim]
  | Upsample (Some sz) _ _ _ => sz
  | _ => []
  end.

Definition params_wf (p : Params) : Prop :=
  map_Forall (fun _ t => weight_wf t) (parameters p) /\ map_Forall (fun _ t => weight_wf t) (buffers p).

Definition layer_wf (p : Params) (l : Layer) : Prop :=
  lenZ (layer_ints l) < 2 ^ 32 /\ Forall s64 (layer_ints l) /\ params_wf p /\
  match l with
  | InstanceNorm _ n => 0 < n < 2 ^ 48
  | InstanceNorm3d (Some q) _ n => params_wf q /\ 0 < n < 2 ^ 48
  | _ => True
  end.

Lemma args_of_ok ws : Forall (arg_in (length ws)) (args_of ws) /\ forall k, (k < length ws)%nat -> Weight k ∈ args_of ws.
Proof.
  unfold args_of. split.
  - constructor; [done|]. apply Forall_forall. intros a (k & -> & Hk)%list_elem_of_fmap. apply elem_of_seq in Hk. cbn. lia.
  - intros k Hk. right. apply list_elem_of_fmap. exists k. split; [done|]. apply elem_of_seq. lia.
Qed.

Lemma em_node_ok op ws attrs n : registered op = true -> (1 <= n)%nat -> attrs_ok attrs -> Forall weight_wf ws -> em_ok (em_node op ws attrs n).
Proof. intros. destruct (args_of_ok ws). by split. Qed.

Lemma attrs_i_ok i0 i1 i2 i3 extra : s64 i0 -> s64 i1 -> s64 i2 -> s64 i3 -> lenZ extra < 2 ^ 32 -> Forall s64 extra ->
  attrs_ok (attrs_i i0 i1 i2 i3 extra).
Proof. intros. unfold attrs_ok, attrs_i. cbn. rewrite !Forall_cons, !Forall_nil. unfold u32, s64 in *. repeat split; try done; lia. Qed.

Lemma attrs_f_ok x i0 extra : s64 i0 -> lenZ extra < 2 ^ 32 -> Forall s64 extra -> attrs_ok (attrs_f x i0 extra).
Proof.
  intros. pose proof (stored_u32 x). unfold attrs_ok, attrs_f. cbn. rewrite !Forall_cons, !Forall_nil.
  unfold u32, s64 in *. repeat split; try done; lia.
Qed.

Lemma get_param_wf p name t : params_wf p -> get_param_tensor p name = Ok t -> weight_wf t.
Proof. intros [H _] Ht. unfold get_param_tensor in Ht. destruct (parameters p !! name) eqn:E; [|done]. injection Ht as <-. by apply (H name). Qed.

Lemma get_buffer_wf p name t : params_wf p -> get_buffer_tensor p name = Ok t -> weight_wf t.
Proof. intros [_ H] Ht. unfold get_buffer_tensor in Ht. destruct (buffers p !! name) eqn:E; [|done]. injection Ht as <-. by apply (H name). Qed.

Lemma try_get_wf p name : params_wf p -> Forall weight_wf (opt_list (try_get_parameter p name)).
Proof. intros [H _]. unfold try_get_parameter. destruct (parameters p !! name) eqn:E; constructor; [by apply (H name)|constructor]. Qed.

Lemma weight_kernel_wf p rank k : params_wf p -> weight_kernel p rank = Ok k -> lenZ k <= 255 /\ Forall s64 k.
Proof.
  intros Hp H. unfold weight_kernel in H. apply rbind_Ok in H as (w & Hw & H). inv_ok. subst.
  destruct (get_param_wf p _ w Hp Hw) as (_ & Hl & Hs & _). split; [unfold lenZ in *; rewrite length_drop; lia|by apply Forall_drop].
Qed.

Lemma length_concat_replicate {A} n (l : list A) : length (concat (replicate n l)) = (n * length l)%nat.
Proof. induction n as [|n IH]; cbn; [done|]. by rewrite length_app, IH. Qed.

Lemma filled_wf n bytes : 0 < n < 2 ^ 48 -> length bytes = 4%nat -> weight_wf (filled n bytes).
Proof.
  intros Hn Hb.
  assert (td_nbytes (filled n bytes) = 4 * n) as Hnb.
  { unfold td_nbytes. cbn [td_shape td_dtype filled prodZ]. change (dtype_size_raw 0) with 4. rewrite Z.mul_1_r. by rewrite wrap_small; lia. }
  assert (lenZ (td_bytes (filled n bytes)) = 4 * n) as Hl.
  { unfold filled, lenZ. cbn [td_bytes]. rewrite length_concat_replicate, Hb. lia. }
  assert (td_bytes (filled n bytes) <> []) as Hne.
  { intros E. rewrite E in Hl. change (lenZ (@nil Z)) with 0 in Hl. lia. }
  assert (blob_numel [n] = Ok n) as Hnum.
  { unfold blob_numel, blob_numel_step, safe_abs. cbn [rfoldM]. destruct (Z.ltb_spec n 0); [lia|]. cbn [throw_if rbind].
    destruct (Z.eqb_spec n 0); [lia|]. cbn [negb andb]. destruct (Z.eqb_spec n INT64_MIN); [unfold INT64_MIN in *; lia|].
    destruct (Z.ltb_spec n 0); [lia|]. rewrite (wrap_small 64 n) by lia. change (wrap 64 (if 1 <? 0 then - (1) else 1)) with 1.
    change (1 =? INT64_MIN) with false. cbv iota.
    destruct (Z.gtb_spec 1 (INT64_MAX / n)) as [Hg|]; cbn [throw_if rbind].
    - exfalso. assert (1 <= INT64_MAX / n); [|lia]. apply Z.div_le_lower_bound; unfold INT64_MAX in *; lia.
    - rewrite Z.mul_1_l. rewrite i64_in; [done|]. unfold INT64_MIN, INT64_MAX. lia. }
  unfold weight_wf, tensor_valid. cbn [td_dtype td_shape filled]. rewrite Hnb, Hnum, !Forall_cons, !Forall_nil.
  cbn [prodZ]. change (dtype_size_raw 0) with 4. unfold byte, s64, UINT64_MAX. change (lenZ [n]) with 1.
  repeat split; try done; lia.
Qed.

Ltac ints := repeat match goal with H : Forall s64 (_ :: _) |- _ => apply Forall_cons in H as [? H] end.

(** The integers of a node are those of the layer and of the weight's shape. *)
Ltac node_ints := rewrite ?Forall_cons, ?Forall_app, ?Forall_cons, ?Forall_nil;
  repeat match goal with |- _ /\ _ => split | |- s64 (bit ?c) => destruct c; cbn [bit] end;
  first [ assumption | exact I | unfold s64; clear; lia | unfold lenZ in *; cbn [length app] in *; rewrite ?length_app; cbn [length]; lia ].

Lemma default_attrs_ok : attrs_ok default_attrs.
Proof. by apply (attrs_i_ok 0 0 0 0 []). Qed.

Ltac attrs_fit := match goal with
  | |- attrs_ok default_attrs => apply default_attrs_ok
  | |- attrs_ok (attrs_i _ _ _ _ _) => apply attrs_i_ok; unfold l2, l3; cbn [app]; node_ints
  | |- attrs_ok (attrs_f _ _ _) => apply attrs_f_ok; node_ints
  end.

Lemma em_conv_ok op p rank attrs em : registered op = true -> params_wf p -> em_conv op p rank attrs = Ok em ->
  (forall k, lenZ k <= 255 -> Forall s64 k -> attrs_ok (attrs k)) -> em_ok em.
Proof.
  intros Hr Hp H Ha. unfold em_conv in H. apply rbind_Ok in H as (k & Hk & H). apply rbind_Ok in H as (w & Hw & <-%Ok_inj).
  destruct (weight_kernel_wf _ _ _ Hp Hk). apply em_node_ok; [done|lia|by apply Ha|].
  constructor; [by eapply get_param_wf|by apply try_get_wf].
Qed.

Lemma em_affine_ok op p attrs em : registered op = true -> params_wf p -> em_affine op p attrs = Ok em ->
  (forall w, weight_wf w -> attrs_ok (attrs w)) -> em_ok em.
Proof.
  intros Hr Hp H Ha. unfold em_affine in H. apply rbind_Ok in H as (w & Hw & H). apply rbind_Ok in H as (b & Hb & <-%Ok_inj).
  pose proof (get_param_wf _ _ _ Hp Hw). pose proof (get_param_wf _ _ _ Hp Hb).
  apply em_node_ok; [done|lia|by apply Ha|]. by rewrite !Forall_cons, Forall_nil.
Qed.

Lemma em_instancenorm_ok p eps n : params_wf p -> 0 < n < 2 ^ 48 -> em_ok (em_instancenorm p eps n).
Proof.
  intros [Hp _] Hn. apply em_node_ok; [done|lia|attrs_fit|].
  assert (weight_wf (ones_w n) /\ weight_wf (zeros_b n)) as [? ?] by (split; by apply filled_wf).
  unfold affine_or_identity, try_get_parameter.
  destruct (parameters p !! "weight") eqn:E1, (parameters p !! "bias") eqn:E2; cbn [fst snd];
    rewrite !Forall_cons, Forall_nil; (split; [|split; [|done]]); first [done | by apply (Hp _ _ E1) | by apply (Hp _ _ E2)].
Qed.

Lemma upsample_code_s64 mode code : upsample_mode_code mode = Ok code -> s64 code.
Proof.
  unfold upsample_mode_code. destruct (list_find _ _) as [[k m]|] eqn:E; [|done]. intros <-%Ok_inj.
  apply list_find_Some in E as (Hk & _ & _). apply lookup_lt_Some in Hk. cbn in Hk. unfold s64. lia.
Qed.

Lemma rmap_Some_Ok {A} (m : result A) x : rmap Some m = Ok (Some x) -> m = Ok x.
Proof. destruct m; cbn; [|done]. by intros [= ->]. Qed.

Lemma emission_ok p l b em : layer_wf p l -> carried l = true -> emission p l b = Ok (Some em) -> em_ok em.
Proof.
  intros (Hlen & Hints & Hp & Hx) Hc He.
  destruct l as [hb|s pd d g|s pd d g|s pd d g|s pd op d g|s pd op d g|eps|eps|n eps|eps n|[in2d|] eps n|eps|s e| |
    |k s pd c|k s pd c|k s pd c|k s pd i c|k s pd i c|k s pd i c|o|o|o|o|o|o| |dim|dim|[sz|] sf mode ac
    | | | | | | | | | |slope|alpha|]; cbn [emission carried layer_ints] in *; try discriminate Hc; try discriminate He;
    unfold l2, l3 in Hints; cbn [app] in Hints; ints.
  all: try (apply Ok_inj in He; injection He as <-; apply em_node_ok;
    [done|lia|attrs_fit|constructor]; fail).
  all: try (apply rmap_Some_Ok, em_conv_ok in He; [done|done|done|]; intros kk Hk1 Hk2; attrs_fit; fail).
  - apply rbind_Ok in He as (w & Hw & He). apply Ok_inj in He. injection He as <-.
    apply em_node_ok; [done|lia|attrs_fit|]. constructor; [by eapply get_param_wf|]. destruct hb; [by apply try_get_wf|constructor].
  - apply rmap_Some_Ok in He. unfold em_batchnorm2d in He. apply rbind_Ok in He as (m & Hm & He).
    apply rbind_Ok in He as (v & Hv & <-%Ok_inj).
    pose proof (get_buffer_wf _ _ _ Hp Hm). pose proof (get_buffer_wf _ _ _ Hp Hv).
    pose proof (try_get_wf _ "weight" Hp) as Hw. pose proof (try_get_wf _ "bias" Hp) as Hbias.
    destruct (try_get_parameter p "weight"), (try_get_parameter p "bias"); apply em_node_ok; try done; try lia; try attrs_fit;
      cbn [opt_list] in *; rewrite ?Forall_cons, ?Forall_nil in *; tauto.
  - apply rmap_Some_Ok, em_affine_ok in He; [done|done|done|]. intros w (_ & Hl & Hs & _). apply attrs_f_ok; [unfold s64; lia|lia|done].
  - apply rmap_Some_Ok, em_affine_ok in He; [done|done|done|]. intros w _. attrs_fit.
  - apply Ok_inj in He. injection He as <-. by apply em_instancenorm_ok.
  - apply Ok_inj in He. injection He as <-. destruct Hx. by apply em_instancenorm_ok.
  - apply rbind_Ok in He as (w & Hw & He). apply Ok_inj in He. injection He as <-.
    split; cbn [em_args em_weights em_outputs em_attrs length]; [by repeat constructor| |done|lia|attrs_fit|].
    + intros k Hk. assert (k = 0%nat) as -> by lia. set_solver.
    + constructor; [by eapply get_param_wf|constructor].
  - cbn [target_size rbind] in He. apply rbind_Ok in He as (code & Hcode & He). apply Ok_inj in He. injection He as <-.
    pose proof (upsample_code_s64 _ _ Hcode). apply em_node_ok; [done|lia| |constructor].
    apply attrs_i_ok; [|done|unfold s64; lia..|done|done]. destruct ac; unfold s64; cbn; lia.
Qed.

(** ** What a visit adds *)

(** The node writes ids that are new in [b'] and no weight. *)
Definition node_fits (b b' : GraphBuilder) (n : LiteNode) : Prop :=
  (exists o, registered o = true /\ op n = OpId.value o) /\ attrs_ok (attrs n) /\
  Forall (fun id => 0 <= id < next_id b') (input_ids n) /\
  Forall (fun id => next_id b <= id < next_id b' /\ bw b' !! id = None) (output_ids n).

Record grown (b : GraphBuilder) (ns : list LiteNode) (b' : GraphBuilder) : Prop := {
  gr_ok : builder_ok b';
  gr_next : next_id b + lenZ ns <= next_id b';
  gr_graph : b_graph b' = mkGraph (nodes (b_graph b) ++ ns) (g_inputs (b_graph b)) (g_outputs (b_graph b));
  gr_opts : exists ws, b_opts b' = with_weights ws (b_opts b);
  gr_old : forall id, id < next_id b -> bw b' !! id = bw b !! id;
  gr_new : forall id t, next_id b <= id -> bw b' !! id = Some t ->
    weight_wf t /\ exists n, n ∈ ns /\ id ∈ input_ids n;
  gr_nodes : Forall (node_fits b b') ns
}.

Lemma with_same_weights o : with_weights (weights o) o = o.
Proof. by destruct o. Qed.

Lemma grown_refl b : builder_ok b -> grown b [] b.
Proof.
  intros Hb. split; [done|unfold lenZ; cbn; lia| | |done| |constructor].
  - rewrite app_nil_r. by destruct (b_graph b).
  - exists (bw b). by rewrite with_same_weights.
  - intros id t Hid Ht. pose proof (bo_weights b Hb id (ex_intro _ _ Ht)). lia.
Qed.

Lemma grown_trans b ns b1 ns' b2 : builder_ok b -> grown b ns b1 -> grown b1 ns' b2 -> grown b (ns ++ ns') b2.
Proof.
  intros Hb [A1 A2 A3 [ws A4] A5 A6 A7] [B1 B2 B3 [ws' B4] B5 B6 B7].
  pose proof (lenZ_nonneg ns). pose proof (lenZ_nonneg ns'). destruct (bo_next b Hb). split; [done| | | | | |].
  - rewrite lenZ_app. lia.
  - rewrite B3, A3. cbn. by rewrite app_assoc.
  - exists ws'. by rewrite B4, A4.
  - intros id Hid. rewrite B5 by lia. by apply A5.
  - intros id t Hid Ht. destruct (Z.ltb_spec id (next_id b1)) as [Hlt|Hge].
    + rewrite B5 in Ht by done. destruct (A6 id t Hid Ht) as (? & n & Hn & Hin). split; [done|]. exists n. set_solver.
    + destruct (B6 id t Hge Ht) as (? & n & Hn & Hin). split; [done|]. exists n. set_solver.
  - apply Forall_app. split; [eapply Forall_impl; [exact A7|]|eapply Forall_impl; [exact B7|]].
    + intros n (Ho & Ha & Hi & Hw). split; [done|]. split; [done|].
      split; (eapply Forall_impl; [eassumption|]); cbn; [lia|]. intros id [Hr Hid]. rewrite B5 by lia. split; [lia|done].
    + intros n (Ho & Ha & Hi & Hw). split; [done|]. split; [done|]. split; [done|].
      eapply Forall_impl; [exact Hw|]. cbn. intros id [Hr Hid]. split; [lia|done].
Qed.

Lemma elem_of_seqZ_range m n k : k ∈ seqZ m n -> m <= k < m + n.
Proof. rewrite elem_of_seqZ. lia. Qed.


Lemma emit_grown em in_id b out b' : builder_ok b -> em_ok em -> 0 <= in_id < next_id b -> emit em in_id b = Ok (out, b') ->
  grown b [emitted_node em in_id (next_id b)] b' /\ out = next_id b + lenZ (em_weights em) /\ out < next_id b' /\
  next_id b' = next_id b + lenZ (em_weights em) + Z.of_nat (em_outputs em) /\
  bw b' = put_weights (next_id b) (em_weights em) (bw b).
Proof.
  intros Hb [Ha Hu Ho Hat Hw] Hin H. apply emit_Ok in H as (-> & Hmax & Hg & Hopt & Hn); [|done..].
  pose proof (lenZ_nonneg (em_weights em)) as Hnn. destruct Hb as [Hb1 Hb2].
  assert (bw b' = put_weights (next_id b) (em_weights em) (bw b)) as Ew by (by rewrite Hopt).
  assert (forall id, bw b' !! id = if (next_id b <=? id) && (id <? next_id b + lenZ (em_weights em))
    then em_weights em !! Z.to_nat (id - next_id b) else bw b !! id) as El by (intros id; by rewrite Ew, put_weights_lookup).
  split; [|split; [done|]; split; [lia|by split]]. split.
  - split; rewrite ?Hn; [lia|]. intros id [t Ht]. rewrite El in Ht.
    destruct (Z.leb_spec (next_id b) id), (Z.ltb_spec id (next_id b + lenZ (em_weights em))); cbn [andb] in Ht; try lia;
      specialize (Hb2 id (ex_intro _ _ Ht)); lia.
  - rewrite Hn. unfold lenZ. cbn. lia.
  - rewrite Hg. unfold add_node. done.
  - by eexists.
  - intros id Hid. rewrite El. by destruct (Z.leb_spec (next_id b) id); [lia|].
  - intros id t Hid Ht. rewrite El in Ht. destruct (Z.leb_spec (next_id b) id); [|lia].
    destruct (Z.ltb_spec id (next_id b + lenZ (em_weights em))) as [Hlt|]; cbn [andb] in Ht;
      [|specialize (Hb2 id (ex_intro _ _ Ht)); lia].
    split; [by eapply Forall_lookup_1|]. eexists. split; [by left|]. cbn [input_ids emitted_node].
    apply list_elem_of_fmap. exists (Weight (Z.to_nat (id - next_id b))). split.
    + cbn. rewrite nth_lookup, lookup_seqZ_lt by lia. cbn. lia.
    + apply Hu. by eapply lookup_lt_Some.
  - apply Forall_singleton. split; [by eexists|]. split; [done|]. cbn [input_ids output_ids emitted_node]. split.
    + apply Forall_fmap. eapply Forall_impl; [exact Ha|]. intros [|k] Hk; cbn in *; [lia|].
      rewrite nth_lookup, lookup_seqZ_lt by (unfold lenZ; lia). cbn. unfold lenZ in *. lia.
    + apply Forall_forall. intros id Hid%elem_of_seqZ. split; [lia|]. rewrite El.
      destruct (Z.leb_spec (next_id b) id), (Z.ltb_spec id (next_id b + lenZ (em_weights em))); try lia. cbn [andb].
      destruct (bw b !! id) eqn:E; [|done]. specialize (Hb2 id (ex_intro _ _ E)). lia.
Qed.

(** *** Modules *)

Lemma module_ind' (P : Module_ -> Prop) :
  (forall p l, P (Leaf p l)) -> (forall cs, Forall P cs -> P (Sequential cs)) -> forall m, P m.
Proof.
  intros HL HS. fix IH 1. intros [cs|p l]; [|apply HL]. apply HS. induction cs as [|c cs IHc]; constructor; [apply IH|done].
Qed.

Fixpoint module_wf (m : Module_) : Prop :=
  match m with
  | Sequential children => foldr (fun c P => module_wf c /\ P) True children
  | Leaf p l => layer_wf p l
  end.

(** ** Environments *)

Section values.
Context {T : Type} `{Kernels T}.
Context (shape_of : T -> list Z) (tensor_of : TensorData -> result T).
Context (other : Z -> list T -> OpAttributes -> result (list T)).
Context (tensor_shape : forall t x, tensor_of t = Ok x -> shape_of x = td_shape t).

#[local] Notation run_op := (run_op other shape_of).
#[local] Notation run_node := (run_node shape_of tensor_of other).

(** The environment has the weights of the builder. *)
Definition holds (b : GraphBuilder) (E : gmap Z T) : Prop :=
  forall id t, bw b !! id = Some t -> exists v, tensor_of t = Ok v /\ E !! id = Some v.

(** The nodes compute [f] of the value of [in_id] at [out], and write nothing else that is there. *)
Definition computes (b : GraphBuilder) (ns : list LiteNode) (b' : GraphBuilder) (in_id out : Z) (f : T -> result T) : Prop :=
  forall E x, holds b' E -> E !! in_id = Some x ->
  match f x with
  | Ok y => exists E', rfoldM (spec_node run_op) ns E = Ok E' /\ E' !! out = Some y /\
      forall id, ~ (next_id b <= id < next_id b' /\ bw b' !! id = None) -> E' !! id = E !! id
  | Err e => rfoldM (spec_node run_op) ns E = Err e
  end.

Lemma computes_refl b in_id : computes b [] b in_id in_id Ok.
Proof. intros E x _ Hx. by exists E. Qed.

Lemma computes_trans b ns b1 ns' b2 i m o f g : grown b ns b1 -> grown b1 ns' b2 ->
  computes b ns b1 i m f -> computes b1 ns' b2 m o g -> computes b (ns ++ ns') b2 i o (fun x => let* y := f x in g y).
Proof.
  intros G1 G2 C1 C2 E x Hh Hx. rewrite rfoldM_app.
  assert (forall id t, bw b1 !! id = Some t -> bw b2 !! id = Some t) as Hsub.
  { intros id t Ht. pose proof (bo_weights _ (gr_ok _ _ _ G1) id (ex_intro _ _ Ht)). by rewrite (gr_old _ _ _ G2) by lia. }
  specialize (C1 E x (fun id t Ht => Hh id t (Hsub _ _ Ht)) Hx). pose proof (gr_next _ _ _ G1). pose proof (gr_next _ _ _ G2).
  pose proof (lenZ_nonneg ns). pose proof (lenZ_nonneg ns').
  destruct (f x) as [y|e]; cbn [rbind]; [|by rewrite C1]. destruct C1 as (E1 & -> & Hy & Hf). cbn [rbind].
  assert (holds b2 E1) as Hh1.
  { intros id t Ht. destruct (Hh id t Ht) as (v & Hv & HE). exists v. split; [done|]. rewrite Hf; [done|].
    intros [Hr Hnone]. rewrite <-(gr_old _ _ _ G2) in Hnone by lia. congruence. }
  specialize (C2 E1 y Hh1 Hy). destruct (g y) as [z|e]; [|done]. destruct C2 as (E2 & -> & Hz & Hf2).
  exists E2. split; [done|]. split; [done|]. intros id Hid. rewrite Hf2, Hf; [done|..].
  - intros [Hr Hnone]. apply Hid. split; [lia|]. by rewrite (gr_old _ _ _ G2) by lia.
  - intros [Hr Hnone]. apply Hid. split; [lia|done].
Qed.

Lemma env_puts_out ids (ts : list T) E id : id ∉ ids -> env_puts E (zip ids ts) !! id = E !! id.
Proof.
  revert ts E. induction ids as [|i ids IH]; intros [|t ts] E Hid; cbn; try done.
  rewrite not_elem_of_cons in Hid. destruct Hid. unfold env_puts in IH. rewrite IH by done. by rewrite lookup_insert_ne.
Qed.

(** The weights of the emission, as the environment has them. *)
Lemma weights_held ws base (E : gmap Z T) :
  (forall k w, ws !! k = Some w -> exists v, tensor_of w = Ok v /\ E !! (base + Z.of_nat k) = Some v) ->
  exists vs, rmapM tensor_of ws = Ok vs /\ length vs = length ws /\
    forall k v, vs !! k = Some v -> E !! (base + Z.of_nat k) = Some v.
Proof.
  revert base. induction ws as [|w ws IH]; intros base H0; cbn; [by exists []|].
  destruct (H0 0%nat w eq_refl) as (v & -> & Hv). destruct (IH (base + 1)) as (vs & -> & Hl & Hvs).
  { intros k w' Hk. destruct (H0 (S k) w' Hk) as (v' & ? & Hv'). exists v'. split; [done|]. by replace (base + 1 + Z.of_nat k) with (base + Z.of_nat (S k)) by lia. }
  exists (v :: vs). cbn. split; [done|]. split; [by rewrite Hl|]. intros [|k] v' Hk; [by injection Hk as <-|].
  replace (base + Z.of_nat (S k)) with (base + 1 + Z.of_nat k) by lia. by apply Hvs.
Qed.

Lemma env_get_args what (E : gmap Z T) args base n in_id x vs :
  Forall (arg_in n) args -> length vs = n -> E !! in_id = Some x ->
  (forall k v, vs !! k = Some v -> E !! (base + Z.of_nat k) = Some v) ->
  rmapM (env_get what E) (map (fun a => arg_value in_id (seqZ base (Z.of_nat n)) a 0) args) = Ok (map (fun a => arg_value x vs a x) args).
Proof.
  intros Ha Hl Hx Hvs. apply rmapM_Ok. induction Ha as [|a args Ha _ IH]; cbn [map]; constructor; [|done].
  destruct a as [|k]; cbn [arg_value]; unfold env_get; [by rewrite Hx|]. cbn in Ha.
  rewrite (nth_lookup_Some (seqZ base (Z.of_nat n)) k 0 (base + Z.of_nat k)) by (apply lookup_seqZ_lt; lia).
  destruct (lookup_lt_is_Some_2 vs k) as [v Hv]; [lia|]. by rewrite (Hvs k v Hv), (nth_lookup_Some _ _ _ _ Hv).
Qed.

Lemma spec_node_runs em in_id base E x : em_ok em -> E !! in_id = Some x ->
  (forall k w, em_weights em !! k = Some w -> exists v, tensor_of w = Ok v /\ E !! (base + Z.of_nat k) = Some v) ->
  match run_node em x with
  | Ok y => exists E', spec_node run_op E (emitted_node em in_id base) = Ok E' /\
      E' !! (base + lenZ (em_weights em)) = Some y /\
      forall id, id ∉ output_ids (emitted_node em in_id base) -> E' !! id = E !! id
  | Err e => spec_node run_op E (emitted_node em in_id base) = Err e
  end.
Proof.
  intros [Ha _ _ Ho _ _] Hx Hw. destruct (weights_held _ _ _ Hw) as (vs & Hvs & Hl & HE).
  unfold run_node, spec_node, emitted_node. cbn [op input_ids output_ids attrs]. rewrite Hvs. cbn [rbind].
  unfold lenZ. rewrite (env_get_args _ E _ base _ in_id x vs Ha Hl Hx HE). cbn [rbind].
  destruct (run_op _ _ _) as [outs|]; cbn [rbind]; [|done].
  rewrite length_seqZ, Nat2Z.id. destruct (Nat.eqb_spec (length outs) (em_outputs em)) as [Hlen|]; cbn [negb throw_if rbind]; [|done].
  destruct outs as [|y outs]; [cbn in Hlen; lia|]. cbn [first rbind]. eexists. split; [done|].
  set (o := base + Z.of_nat (length (em_weights em))). rewrite seqZ_cons by lia. split.
  - change (env_puts (<[o := y]> E) (zip (seqZ (Z.succ o) (Z.pred (Z.of_nat (em_outputs em)))) outs) !! o = Some y).
    rewrite env_puts_out; [by rewrite lookup_insert_eq|]. intros Hin%elem_of_seqZ. lia.
  - intros id Hid. by apply env_puts_out.
Qed.

Lemma emit_computes em in_id b out b' : builder_ok b -> em_ok em -> 0 <= in_id < next_id b -> emit em in_id b = Ok (out, b') ->
  computes b [emitted_node em in_id (next_id b)] b' in_id out (run_node em).
Proof.
  intros Hb He Hin Hem. destruct (emit_grown _ _ _ _ _ Hb He Hin Hem) as (Hg & -> & Hlt & Hn & Ew).
  intros E x Hh Hx. rewrite rfoldM_single.
  assert (forall k w, em_weights em !! k = Some w -> exists v, tensor_of w = Ok v /\ E !! (next_id b + Z.of_nat k) = Some v) as Hw.
  { intros k w Hk. apply Hh. rewrite Ew, put_weights_lookup. pose proof (lookup_lt_Some _ _ _ Hk). unfold lenZ.
    destruct (Z.leb_spec (next_id b) (next_id b + Z.of_nat k)),
      (Z.ltb_spec (next_id b + Z.of_nat k) (next_id b + Z.of_nat (length (em_weights em)))); try lia.
    cbn [andb]. by replace (Z.to_nat (next_id b + Z.of_nat k - next_id b)) with k by lia. }
  pose proof (spec_node_runs em in_id (next_id b) E x He Hx Hw) as Hs.
  pose proof (Forall_inv (gr_nodes _ _ _ Hg)) as (_ & _ & _ & Hout).
  destruct (run_node em x) as [y|e]; [|exact Hs].
  destruct Hs as (E' & HE' & Hy & Hf). exists E'. split; [done|]. split; [done|].
  intros id Hid. apply Hf. intros Hin2. apply Hid. rewrite Forall_forall in Hout. by apply Hout.
Qed.

(** ** Visits *)

Lemma grown_unmarked b0 b ns b1 b' : unmarked b0 = unmarked b -> unmarked b1 = unmarked b' -> grown b0 ns b1 -> grown b ns b'.
Proof.
  destruct b0, b, b1, b'. unfold unmarked. cbn. intros [= -> -> -> ->] [= -> -> -> ->] [[A1 A2] A3 A4 A5 A6 A7 A8].
  split; [by split|assumption..].
Qed.

Lemma computes_unmarked b0 b ns b1 b' i o f :
  unmarked b0 = unmarked b -> unmarked b1 = unmarked b' -> computes b0 ns b1 i o f -> computes b ns b' i o f.
Proof. destruct b0, b, b1, b'. unfold unmarked. cbn. by intros [= -> -> -> ->] [= -> -> -> ->]. Qed.

Lemma builder_ok_unmarked b0 b : unmarked b0 = unmarked b -> builder_ok b -> builder_ok b0.
Proof. destruct b0, b. unfold unmarked. cbn. intros [= -> -> -> ->] [A1 A2]. by split. Qed.

Lemma computes_ext b ns b' i o f g : (forall x, f x = g x) -> computes b ns b' i o f -> computes b ns b' i o g.
Proof. intros He Hc E x Hh Hx. specialize (Hc E x Hh Hx). by rewrite He in Hc. Qed.

Lemma s64s_i64s l : Forall s64 l -> i64s l.
Proof. intros Hl. eapply Forall_impl; [exact Hl|]. unfold s64, INT64_MIN, INT64_MAX. intros z. lia. Qed.

Lemma layer_wf_typed p l : layer_wf p l -> layer_typed p l.
Proof.
  intros (_ & Hi & [Hp _] & _). destruct l; cbn in *; try done.
  - intros w Hw. apply s64s_i64s. by apply (Hp _ _ Hw).
  - case_match; [by apply s64s_i64s|done].
Qed.

(** What a successful visit of a module that computes [f] has done. *)
Definition visit_done (b : GraphBuilder) (in_id out : Z) (b' : GraphBuilder) (f : T -> result T) : Prop :=
  exists ns, grown b ns b' /\ (out = in_id \/ next_id b <= out < next_id b' /\ bw b' !! out = None) /\
    computes b ns b' in_id out f.

Lemma visit_layer_done p l in_id b out b' :
  layer_wf p l -> carried l = true -> builder_ok b -> 0 <= in_id < next_id b ->
  visit_layer p l in_id b = Ok (out, b') -> visit_done b in_id out b' (run_layer shape_of tensor_of other p l).
Proof.
  intros Hwf Hc Hb Hin Hv. apply visit_layer_emission in Hv as (oe & He & Hv). destruct oe as [em|].
  - destruct Hv as (b0 & b1 & U0 & Hem & U1). pose proof (emission_ok _ _ _ _ Hwf Hc He) as Hok.
    assert (next_id b0 = next_id b) as Hn by (destruct b0, b; unfold unmarked in U0; cbn in *; by injection U0).
    pose proof (builder_ok_unmarked _ _ U0 Hb) as Hb0. rewrite <-Hn in Hin.
    destruct (emit_grown _ _ _ _ _ Hb0 Hok Hin Hem) as (Hg & Hout & Hlt & _).
    assert (next_id b1 = next_id b') as Hn' by (destruct b1, b'; unfold unmarked in U1; cbn in *; by injection U1).
    pose proof (lenZ_nonneg (em_weights em)). eexists. split; [by eapply grown_unmarked|]. split.
    { right. split; [lia|]. pose proof (Forall_inv (gr_nodes _ _ _ Hg)) as (_ & _ & _ & Hw). rewrite Forall_forall in Hw.
      assert (bw b' = bw b1) as -> by (destruct b1, b'; unfold unmarked in U1; cbn in *; by injection U1 as -> -> -> ->).
      apply Hw. cbn [output_ids emitted_node]. apply elem_of_seqZ. pose proof (eo_outputs _ Hok). lia. }
    eapply computes_unmarked; [exact U0|exact U1|]. eapply computes_ext; [|by apply emit_computes].
    intros x. apply (run_emission shape_of tensor_of other tensor_shape p l b); [by apply layer_wf_typed|done..].
  - destruct Hv as [-> ->]. exists []. split; [by apply grown_refl|]. split; [by left|].
    eapply computes_ext; [|apply computes_refl]. intros x. cbn.
    destruct l; cbn [emission] in He; try done; unfold rmap in He; inv_ok; try discriminate; by repeat case_match.
Qed.

Lemma visit_done_trans b i m b1 o b2 f g : builder_ok b ->
  visit_done b i m b1 f -> visit_done b1 m o b2 g -> visit_done b i o b2 (fun x => let* y := f x in g y).
Proof.
  intros Hb (ns & G1 & Hm & C1) (ns' & G2 & Ho & C2). exists (ns ++ ns').
  split; [by eapply grown_trans|]. split; [|by eapply computes_trans].
  pose proof (gr_next _ _ _ G1). pose proof (gr_next _ _ _ G2). pose proof (lenZ_nonneg ns). pose proof (lenZ_nonneg ns').
  destruct Ho as [->|[? ?]]; [|right; split; [lia|done]]. destruct Hm as [->|[? ?]]; [by left|right].
  split; [lia|]. by rewrite (gr_old _ _ _ G2) by lia.
Qed.

Lemma visit_computes m in_id b out b' :
  module_wf m -> carried_module m = true -> builder_ok b -> 0 <= in_id < next_id b ->
  visit m in_id b = Ok (out, b') -> visit_done b in_id out b' (run_module shape_of tensor_of other m).
Proof.
  revert in_id b out b'. induction m as [p l|cs IH] using module_ind'; intros in_id b out b' Hwf Hc Hb Hin Hv.
  - by apply visit_layer_done.
  - cbn [visit module_wf carried_module run_module] in *. revert in_id b Hb Hin Hv.
    induction IH as [|c cs Hc1 _ IHl]; intros in_id b Hb Hin Hv; cbn [foldr forallb] in *; monad.
    + injection Hv as <- <-. exists []. split; [by apply grown_refl|]. split; [by left|apply computes_refl].
    + apply andb_prop in Hc as [Hcc Hcs]. destruct Hwf as [Hw1 Hw2].
      destruct (visit c in_id b) as [[m b1]|] eqn:E; [|done]. cbn [rbind] in Hv.
      pose proof (Hc1 _ _ _ _ Hw1 Hcc Hb Hin E) as D1. pose proof D1 as (ns & Hg & Hm & _).
      eapply visit_done_trans; [done|exact D1|]. apply IHl; [done|done|by apply Hg| |done].
      pose proof (gr_next _ _ _ Hg). pose proof (lenZ_nonneg ns). lia.
Qed.

End values.

End Simulation.
