(* ===== verification/LiteExport.v ===== *)
(** * An exported model computes the module

    The end to end contract of [export_to_tzlite] (src/lite/exporter.cpp):
    the file it writes, loaded by [LiteRuntime::load] and run by
    [LiteRuntime::forward], computes what the module computes. *)

From stdpp Require Import base list list_numbers numbers strings gmap sorting.
From S2P Require Import Prelude Shape DType LiteGraph LitePlanner LiteFormat LiteRuntime SafeTensors SafeTensorsJson FloatAttrs OpAttributes LiteBridge LiteExporter LiteEmission LiteSimulation.
Import TShape Lite Planner Format Runtime SafeTensors Json FloatAttrs OpAttributes Bridge Exporter ModuleSpec Emission Simulation.

Module ExportClient.

(** ** Kernels that look only at part of a tensor

    [f] keeps what a kernel may look at.  Operands that agree there give
    results that agree there, through the registry, the bridge and a list of
    nodes. *)

Lemma rbind_same {A A' B B'} (g : A -> A') (h : B -> B') (m1 m2 : result A) (k1 k2 : A -> result B) :
  rmap g m1 = rmap g m2 -> (forall a1 a2, g a1 = g a2 -> rmap h (k1 a1) = rmap h (k2 a2)) ->
  rmap h (rbind m1 k1) = rmap h (rbind m2 k2).
Proof. destruct m1, m2; cbn; intros E Hk; try discriminate E; [apply Hk; by injection E|by injection E as ->]. Qed.

Section part.
Context {T : Type} `{Kernels T} (f : T -> T) (shape_of : T -> list Z).
Context (other : Z -> list T -> OpAttributes -> result (list T)).
Context (Hrun : forall k args, rmap (map f) (run k args) = rmap (map f) (run k (map f args))).
Context (Hshape : forall t, shape_of (f t) = shape_of t).

Lemma run_same k l1 l2 : map f l1 = map f l2 -> rmap (map f) (run k l1) = rmap (map f) (run k l2).
Proof. intros E. by rewrite Hrun, E, <-Hrun. Qed.

Lemma run1_same k l1 l2 : map f l1 = map f l2 -> rmap f (run1 k l1) = rmap f (run1 k l2).
Proof.
  intros E. unfold run1. apply (rbind_same (map f)); [by apply run_same|].
  intros [|a [|]] [|b [|]] Hab; cbn in *; try discriminate Hab; try done. by injection Hab as ->.
Qed.

Lemma rmapM_same {A} (h1 h2 : A -> result T) l : (forall x, rmap f (h1 x) = rmap f (h2 x)) ->
  rmap (map f) (rmapM h1 l) = rmap (map f) (rmapM h2 l).
Proof.
  intros E. induction l as [|x l IH]; [done|]. cbn [rmapM]. apply (rbind_same f); [apply E|]. intros a b Hab.
  apply (rbind_same (map f)); [apply IH|]. intros as_ bs Habs. cbn. by rewrite Hab, Habs.
Qed.

Lemma operands_same l1 l2 n : map f l1 = map f l2 -> rmap (map f) (operands l1 n) = rmap (map f) (operands l2 n).
Proof.
  intros E. apply rmapM_same. intros k. unfold operand. pose proof (f_equal (fun l => l !! k) E) as Ek. cbn in Ek.
  rewrite !list_lookup_fmap in Ek. destruct (l1 !! k), (l2 !! k); cbn in *; try discriminate Ek; [|done].
  by injection Ek as ->.
Qed.

Lemma operands_bias_same l1 l2 n : map f l1 = map f l2 -> rmap (map f) (operands_bias l1 n) = rmap (map f) (operands_bias l2 n).
Proof.
  intros E. apply (rbind_same (map f)); [by apply operands_same|]. intros a b Hab. cbn. f_equal.
  rewrite !map_app, Hab. f_equal. change (f <$> take 1 (drop n l1) = f <$> take 1 (drop n l2)).
  rewrite !fmap_take, !fmap_drop. by change (f <$> l1 = f <$> l2) in E; rewrite E.
Qed.

Lemma conv1d_same s p d g l1 l2 : map f l1 = map f l2 -> rmap (map f) (conv1d_kernel s p d g l1) = rmap (map f) (conv1d_kernel s p d g l2).
Proof.
  intros E. unfold conv1d_kernel. destruct l1 as [|x [|w bias]], l2 as [|x' [|w' bias']]; try discriminate E; try done.
  injection E as Ex Ew Eb. do 3 (eapply (rbind_same f); [apply run1_same; cbn; congruence|intros ? ? ?]).
  eapply (rbind_same f); [apply run1_same; cbn; congruence|]. intros ? ? Ht. cbn. by rewrite Ht.
Qed.

(** An attribute read is the same on both sides. *)
Lemma rbind_attr {A B B'} (h : B -> B') (m : result A) (k1 k2 : A -> result B) :
  (forall a, rmap h (k1 a) = rmap h (k2 a)) -> rmap h (rbind m k1) = rmap h (rbind m k2).
Proof. intros E. destruct m; cbn; [apply E|done]. Qed.

Ltac read := repeat (apply rbind_attr; intros ?).

(** The scalars and the operands of a convolution or a pool. *)
Definition on_args {A} (x : A * list T) : A * list T := (x.1, map f x.2).

Lemma conv_args_same l1 l2 a n : map f l1 = map f l2 -> rmap on_args (conv_args l1 a n) = rmap on_args (conv_args l2 a n).
Proof.
  intros E. unfold conv_args. read. apply (rbind_same (map f)); [by apply operands_bias_same|].
  intros b b' Hb. unfold on_args. cbn. by rewrite Hb.
Qed.

Lemma pool_args_same l1 l2 a n : map f l1 = map f l2 -> rmap on_args (pool_args l1 a n) = rmap on_args (pool_args l2 a n).
Proof.
  intros E. unfold pool_args. read. apply (rbind_same (map f)); [by apply operands_same|].
  intros b b' Hb. unfold on_args. cbn. by rewrite Hb.
Qed.

Lemma pool1d_args_same l1 l2 a : map f l1 = map f l2 -> rmap on_args (pool1d_args l1 a) = rmap on_args (pool1d_args l2 a).
Proof.
  intros E. unfold pool1d_args. read. apply (rbind_same (map f)); [by apply operands_same|].
  intros b b' Hb. unfold on_args. cbn. by rewrite Hb.
Qed.

Lemma adaptive_args_same l1 l2 a n : map f l1 = map f l2 -> rmap on_args (adaptive_args l1 a n) = rmap on_args (adaptive_args l2 a n).
Proof.
  intros E. unfold adaptive_args. read. apply (rbind_same (map f)); [by apply operands_same|].
  intros b b' Hb. unfold on_args. cbn. by rewrite Hb.
Qed.

Lemma call_same k r1 r2 : rmap (map f) r1 = rmap (map f) r2 -> rmap (map f) (call k r1) = rmap (map f) (call k r2).
Proof. intros Hr. by apply (rbind_same (map f)); [|apply run_same]. Qed.

Lemma cpu_kernel_same op l1 l2 a : map f l1 = map f l2 ->
  rmap (map f) <$> cpu_kernel op l1 a = rmap (map f) <$> cpu_kernel op l2 a.
Proof.
  intros E. pose proof (fun n => operands_same l1 l2 n E) as Ho. pose proof (fun n => operands_bias_same l1 l2 n E) as Hb.
  destruct op; try done; cbn [cpu_kernel fmap option_fmap option_map]; autounfold with lambdas; f_equal; read; try (by apply call_same).
  all: eapply (rbind_same on_args);
    [first [by apply conv_args_same | by apply pool_args_same | by apply pool1d_args_same | by apply adaptive_args_same]|].
  all: unfold on_args; intros x y Hxy; repeat (match goal with p : (_ * _)%type |- _ => destruct p end; cbn [fst snd] in * );
    simplify_eq; read; first [by apply conv1d_same | by apply run_same].
Qed.

Lemma attr_sets_same op la l1 l2 : map f l1 = map f l2 -> attr_sets shape_of op la l1 = attr_sets shape_of op la l2.
Proof.
  intros E. destruct op as [[]|]; try done. cbn. destruct (is_nil (extra_i la)); [|done].
  destruct l1 as [|? [|w1 ?]], l2 as [|? [|w2 ?]]; try discriminate E; try done. injection E as _ Ew _.
  by rewrite <-(Hshape w1), <-(Hshape w2), Ew.
Qed.

Lemma run_op_same o la l1 l2 : registered o = true -> map f l1 = map f l2 ->
  rmap (map f) (run_op other shape_of (OpId.value o) l1 la) = rmap (map f) (run_op other shape_of (OpId.value o) l2 la).
Proof.
  intros Hr E. unfold run_op, build_attrs. rewrite (attr_sets_same _ _ _ _ E). apply rbind_attr. intros a.
  rewrite !cpu_dispatch. pose proof (cpu_kernel_same o l1 l2 a E) as Hk.
  destruct (registered_kernel o l1 a Hr) as [r1 E1], (registered_kernel o l2 a Hr) as [r2 E2].
  rewrite E1, E2 in *. by injection Hk.
Qed.

Lemma env_puts_same ids (ts1 ts2 : list T) E1 E2 : f <$> E1 = f <$> E2 -> map f ts1 = map f ts2 ->
  f <$> env_puts E1 (zip ids ts1) = f <$> env_puts E2 (zip ids ts2).
Proof.
  revert ts1 ts2 E1 E2. induction ids as [|id ids IH]; intros [|t1 ts1] [|t2 ts2] E1 E2 HE Ht; try discriminate Ht; try done.
  injection Ht as Ht1 Ht. cbn. apply IH; [|done]. by rewrite !fmap_insert, HE, Ht1.
Qed.

Lemma spec_node_same n E1 E2 : (exists o, registered o = true /\ op n = OpId.value o) -> f <$> E1 = f <$> E2 ->
  rmap (fmap f) (spec_node (run_op other shape_of) E1 n) = rmap (fmap f) (spec_node (run_op other shape_of) E2 n).
Proof.
  intros (o & Ho & En) HE. unfold spec_node. apply (rbind_same (map f)).
  { apply rmapM_same. intros id. unfold env_get. pose proof (f_equal (fun E => E !! id) HE) as Hid. cbn in Hid.
    rewrite !lookup_fmap in Hid. destruct (E1 !! id), (E2 !! id); cbn in *; try discriminate Hid; [|done]. by injection Hid as ->. }
  intros args1 args2 Ha. rewrite En. apply (rbind_same (map f)); [by apply run_op_same|].
  intros outs1 outs2 Hout. assert (length outs1 = length outs2) as ->.
  { apply (f_equal length) in Hout. by rewrite !length_map in Hout. }
  apply rbind_attr. intros _. cbn. f_equal. by apply env_puts_same.
Qed.

Lemma spec_nodes_same ns E1 E2 : Forall (fun n => exists o, registered o = true /\ op n = OpId.value o) ns -> f <$> E1 = f <$> E2 ->
  rmap (fmap f) (rfoldM (spec_node (run_op other shape_of)) ns E1) = rmap (fmap f) (rfoldM (spec_node (run_op other shape_of)) ns E2).
Proof.
  intros Hns. revert E1 E2. induction Hns as [|n ns Hn _ IH]; intros E1 E2 HE; cbn [rfoldM]; [cbn; by rewrite HE|].
  apply (rbind_same (fmap f)); [by apply spec_node_same|]. intros. by apply IH.
Qed.

End part.

(** ** The model the exporter hands to the writer *)

Section export.
Context (unordered : gmap (list Z) (list Z) -> list (list Z * list Z)).
Context (unordered_perm : forall m, unordered m ≡ₚ map_to_list m).

(** The options fit the format. *)
Record options_wf (opts : ExportOptions) : Prop := {
  op_shape : input_shape opts <> [] /\ lenZ (input_shape opts) <= 255 /\ Forall s64 (input_shape opts);
  op_dtype : byte (input_dtype opts);
  op_meta : lenZ (map_to_list (full_metadata opts)) < 2 ^ 32 /\
    map_Forall (fun k v => lenZ k < 2 ^ 32 /\ lenZ v < 2 ^ 32) (full_metadata opts)
}.

(** The builder after the input is declared. *)
Definition after_input (opts : ExportOptions) : GraphBuilder :=
  mkBuilder empty_graph (mkOpts ∅ [0] [] {[ 0 := (input_dtype opts, input_shape opts) ]} [] None) 1 (input_shape opts) false.

Lemma after_input_ok opts : builder_ok (after_input opts).
Proof. split; cbn; [unfold INT16_MAX; lia|]. intros id [t Ht]. by rewrite lookup_empty in Ht. Qed.

Lemma build_model_Ok module opts g o : build_model unordered module opts = Ok (g, o) ->
  exists out b, visit module 0 (after_input opts) = Ok (out, b) /\
    g = mkGraph (nodes (b_graph b)) (o_inputs (b_opts b)) (o_outputs (b_opts b) ++ [out]) /\
    o = mkOpts (bw b) (o_inputs (b_opts b)) (o_outputs (b_opts b) ++ [out]) (input_specs (b_opts b))
          (unordered (full_metadata opts)) (o_plan (b_opts b)).
Proof.
  unfold build_model. intros H. apply rbind_Ok in H as (? & Hs & H). apply rbind_Ok in H as ([u b'] & Hb & H).
  unfold Exporter.declare_input, Exporter.declare_output, modify, fresh in Hb. monad.
  cbn in Hb. change (0 + 1) with 1 in Hb. change (<[0:=(input_dtype opts, input_shape opts)]> ∅) with
    ({[ 0 := (input_dtype opts, input_shape opts) ]} : gmap Z (Z * list Z)) in Hb. fold (after_input opts) in Hb.
  destruct (visit module 0 (after_input opts)) as [[out b]|] eqn:E; [|done].
  injection Hb as _ <-. apply Ok_inj in H. cbn in H. injection H as <- <-. exists out, b. done.
Qed.

(** The nodes and the weights of an exported model. *)
Record exported (opts : ExportOptions) (ns : list LiteNode) (out : Z) (b : GraphBuilder) (g : LiteGraph) (o : WriteOptions) : Prop := {
  ex_graph : g = mkGraph ns [0] [out];
  ex_opts : o = mkOpts (bw b) [0] [out] {[ 0 := (input_dtype opts, input_shape opts) ]} (unordered (full_metadata opts)) None;
  ex_grown : grown (after_input opts) ns b;
  ex_out : out = 0 \/ 1 <= out < next_id b /\ bw b !! out = None
}.

Lemma exported_out opts ns out b g o : exported opts ns out b g o -> id_ok out /\ bw b !! out = None.
Proof.
  intros [_ _ Hg Ho]. pose proof (gr_ok _ _ _ Hg) as [Hn _]. pose proof (gr_next _ _ _ Hg) as Hn1. pose proof (lenZ_nonneg ns).
  cbn in Hn1. unfold id_ok, INT16_MAX in *. destruct Ho as [->|[? ?]]; [|split; [lia|done]]. split; [lia|].
  rewrite (gr_old _ _ _ Hg) by (cbn; lia). by cbn.
Qed.

Lemma exported_weight opts ns out b g o id t : exported opts ns out b g o -> bw b !! id = Some t ->
  id_ok id /\ 1 <= id /\ weight_wf t /\ exists n, n ∈ ns /\ id ∈ input_ids n.
Proof.
  intros [_ _ Hg _] Ht. pose proof (gr_ok _ _ _ Hg) as [Hn Hw]. specialize (Hw id (ex_intro _ _ Ht)).
  destruct (decide (id < 1)) as [Hlt|Hge].
  - rewrite (gr_old _ _ _ Hg) in Ht by done. cbn in Ht. by rewrite lookup_empty in Ht.
  - unfold id_ok, INT16_MAX in *. split; [lia|]. split; [lia|]. apply (gr_new _ _ _ Hg id t); [cbn; lia|done].
Qed.

Lemma exported_ids opts ns out b g o : exported opts ns out b g o ->
  Forall (fun n => Forall id_ok (input_ids n) /\ Forall (fun id => id_ok id /\ bw b !! id = None) (output_ids n)) ns.
Proof.
  intros [_ _ Hg _]. pose proof (gr_ok _ _ _ Hg) as [Hn _]. eapply Forall_impl; [exact (gr_nodes _ _ _ Hg)|].
  intros n (_ & _ & Hi & Ho). split; (eapply Forall_impl; [eassumption|]); cbn; unfold id_ok, INT16_MAX in *; [lia|].
  intros id [? ?]. split; [lia|done].
Qed.

Lemma exported_wf opts ns out b g o : options_wf opts -> exported opts ns out b g o -> model_wf g o.
Proof.
  intros [(_ & Hs1 & Hs2) Hd [Hm1 Hm2]] He. pose proof He as [Eg Eo Hg _]. subst g o.
  destruct (exported_out _ _ _ _ _ _ He) as [Hout _].
  pose proof (gr_ok _ _ _ Hg) as [Hn _]. pose proof (gr_next _ _ _ Hg) as Hn1. cbn in Hn1.
  pose proof (exported_ids _ _ _ _ _ _ He) as Hids.
  split; cbn [nodes]; [unfold INT16_MAX in *; lia| | | |].
  - pose proof (gr_nodes _ _ _ Hg) as Hns. apply Forall_forall. intros n Hin. rewrite Forall_forall in Hns, Hids.
    destruct (Hns n Hin) as ((op & _ & Hop) & (Hf & Hi & Hei & Hef) & _). destruct (Hids n Hin) as [H1 H2].
    assert (forall id, id_ok id -> s16 id) as Hs16 by (unfold id_ok, s16, INT16_MAX; lia).
    split; [unfold u16; rewrite Hop; apply OpId.value_u16| | |done|done|done|rewrite Hef; split; [done|constructor]].
    + eapply Forall_impl; [exact H1|]. exact Hs16.
    + eapply Forall_impl; [exact H2|]. intros id [Hid _]. by apply Hs16.
  - eapply Forall_impl; [exact Hids|]. intros n [_ H2]. eapply Forall_impl; [exact H2|]. by intros id [? _].
  - split; cbn [o_inputs o_outputs o_metadata o_plan weights input_specs]; [| | |done| |].
    + split; [done|]. rewrite Forall_singleton. unfold id_ok, INT16_MAX. lia.
    + split; [done|]. by rewrite Forall_singleton.
    + pose proof (unordered_perm (full_metadata opts)) as Hp. split; [|split].
      * unfold lenZ in *. by rewrite (Permutation_length Hp).
      * rewrite Hp. apply Forall_forall. intros [k v] Hkv%elem_of_map_to_list. exact (Hm2 _ _ Hkv).
      * change (NoDup ((unordered (full_metadata opts)).*1)). rewrite (fmap_Permutation fst _ _ Hp). apply NoDup_fst_map_to_list.
    + intros id t Ht. destruct (exported_weight _ _ _ _ _ _ _ _ He Ht) as (Hid & _ & Hw & _).
      destruct Hw as (? & ? & ? & _). done.
    + intros id dt sh Hsp. apply lookup_singleton_Some in Hsp as [_ [= <- <-]]. done.
  - intros id t Ht. destruct (exported_weight _ _ _ _ _ _ _ _ He Ht) as (_ & _ & Hw & _). by destruct Hw as (_ & _ & _ & _ & ? & _).
Qed.

Section module.
Context {T : Type} `{Kernels T} (shape_of : T -> list Z) (tensor_of : TensorData -> result T).
Context (other : Z -> list T -> OpAttributes -> result (list T)).
Context (tensor_shape : forall t x, tensor_of t = Ok x -> shape_of x = td_shape t).

Lemma build_model_exported module opts g o :
  module_wf module -> carried_module module = true -> build_model unordered module opts = Ok (g, o) ->
  exists ns out b, exported opts ns out b g o /\
    computes shape_of tensor_of other (after_input opts) ns b 0 out (run_module shape_of tensor_of other module).
Proof.
  intros Hwf Hc Hm. apply build_model_Ok in Hm as (out & b & Hv & -> & ->).
  destruct (visit_computes shape_of tensor_of other tensor_shape module 0 (after_input opts) out b Hwf Hc (after_input_ok opts)
    ltac:(cbn; lia) Hv) as (ns & Hg & Hout & Hcomp).
  exists ns, out, b. split; [|done]. destruct (gr_opts _ _ _ Hg) as [ws Ho]. split; [| |done|done].
  - by rewrite (gr_graph _ _ _ Hg), Ho.
  - by rewrite Ho.
Qed.

End module.

End export.

(** ** Loading it *)

Lemma max_id_total tvs m : Forall (fun tv => 0 <= tv_id tv) tvs -> exists r,
  rfoldM (fun m tv =>
      let* _ := throw_if (tv_id tv <? 0) (RuntimeError "LiteRuntime: negative tensor_id (") in
      Ok (Z.max m (tv_id tv))) tvs m = Ok r.
Proof.
  intros Ht. revert m. induction Ht as [|tv tvs Htv _ IH]; intros m; cbn [rfoldM]; [by eexists|].
  destruct (Z.ltb_spec (tv_id tv) 0); [lia|]. cbn. apply IH.
Qed.

Lemma index_total tvs : Forall tv_wf tvs -> exists out, index_tensor_values tvs = Ok out.
Proof.
  intros Ht. destruct (max_id_total tvs (-1)) as [r Hr].
  { eapply Forall_impl; [exact Ht|]. intros tv Htv. by destruct (tw_id _ Htv). }
  unfold index_tensor_values. rewrite Hr. cbn [rbind]. case_if; by eexists.
Qed.

(** A well-formed model without a plan whose operators are known loads. *)
Lemma saved_model_loads memalign_ok is_op_supported g o bytes :
  model_wf g o -> o_plan o = None -> Format.save g o = Ok bytes -> lenZ bytes < 2 ^ 64 ->
  Forall (fun n => is_op_supported (op n) = true) (nodes g) ->
  exists impl, runtime_load memalign_ok is_op_supported bytes = Ok impl /\
    i_graph impl = mkGraph (nodes g) (o_inputs o) (o_outputs o) /\
    index_tensor_values (build_tvs g o) = Ok (tensor_values_by_id impl) /\ i_blob impl = (weight_layout o).1.
Proof.
  intros Hwf Hplan Hsave Hb Hops. pose proof (save_load g o bytes Hwf Hsave Hb) as Hm. pose proof Hwf as [_ _ Ho Hw Hsz].
  assert (table_ok (build_tvs g o)) as [_ Ht] by (apply build_tvs_ok; [done|done|by eapply saved_blob_small|done]).
  destruct (index_total _ Ht) as [tvs Htvs]. unfold runtime_load.
  assert ((lenZ bytes =? 0) = false) as ->.
  { apply Z.eqb_neq. unfold Format.save in Hsave. apply rbind_Ok in Hsave as (nb & _ & <-%Ok_inj).
    rewrite !lenZ_app, lenZ_build_header. unfold HEADER_SIZE. repeat match goal with |- context [lenZ ?l] => pose proof (lenZ_nonneg l); set (lenZ l) in * end. lia. }
  rewrite Hm. cbn [throw_if rbind m_graph tensor_values memory_plan].
  unfold verify_op_coverage. cbn [nodes]. rewrite (proj2 (forallb_forall _ _)).
  2: { intros n Hn. rewrite Forall_forall in Hops. by apply Hops, list_elem_of_In. }
  cbn [negb throw_if rbind]. rewrite Htvs, Hplan. cbn [rbind LiteAllocator_ctor rfoldM]. by eexists.
Qed.

(** ** Its input *)

(** The tensor has the type and shape the model was exported with. *)
Definition accepts (opts : ExportOptions) (lt : LiteTensor) : Prop :=
  lt_dtype lt = input_dtype opts /\ lt_ndim lt = lenZ (input_shape opts) /\
  forall d want, input_shape opts !! d = Some want -> 0 <= want -> lt_shape lt !! d = Some want.

Lemma check_input_accepts opts tvs lt tv : lenZ (input_shape opts) <= 255 -> accepts opts lt ->
  tvs !! 0%nat = Some tv -> tv_dtype tv = input_dtype opts -> tv_shape tv = input_shape opts ->
  exists u, check_input tvs (0, lt) = Ok u.
Proof.
  intros Hlen (Hd & Hn & Hs) Htv Edt Esh. unfold check_input. pose proof (lenZ_nonneg (input_shape opts)).
  case_if; [by eexists|]. change (Z.to_nat 0) with 0%nat. rewrite Htv. change (default default_tv (Some tv)) with tv.
  case_if; [by eexists|]. rewrite Hd, Edt, Z.eqb_refl. cbn [negb throw_if rbind].
  rewrite Hn, Esh, wrap_small, Z.eqb_refl by lia. cbn [negb throw_if rbind].
  assert (is_ok (rmapM (check_dim lt) (zip (seq 0 (length (input_shape opts))) (input_shape opts))) = true) as Hok.
  { apply rmapM_is_ok. intros [d want] Hin%list_elem_of_In. apply list_elem_of_lookup in Hin as [k Hk].
    apply lookup_zip_with_Some in Hk as (d' & w' & [= <- <-] & Hd' & Hw'). apply lookup_seq in Hd' as [-> _]. cbn.
    destruct (Z.ltb_spec want 0); [done|]. unfold array_at. rewrite (Hs _ _ Hw') by done. cbn. by rewrite Z.eqb_refl. }
  apply is_ok_Ok in Hok as [us ->]. by eexists.
Qed.

(** ** Running it *)

(** The tensor that carries a parameter. *)
Definition tensor_of (t : TensorData) : result Tensor := from_blob (Some (td_bytes t)) (td_shape t) (td_dtype t).

(** The view without the bytes that follow it. *)
Definition trim (t : Tensor) : Tensor :=
  mkTensor (t_shape t) (t_strides t) (t_dtype t) (take (Z.to_nat (t_size_bytes t)) <$> t_data t) (t_size_bytes t).

Lemma tensor_of_shape t x : tensor_of t = Ok x -> t_shape x = td_shape t.
Proof. intros H. by apply from_blob_Ok in H as [? _]. Qed.

Lemma views_trim v t : lenZ (td_bytes t) = td_nbytes t -> views v t -> tensor_valid t ->
  exists x, tensor_of t = Ok x /\ trim v = trim x.
Proof.
  intros Hl (E1 & E2 & E3 & E4 & region & E5 & E6) Hv. destruct (from_blob_total t (td_bytes t) Hv) as [x Hx].
  exists x. split; [done|]. apply from_blob_Ok in Hx as (F1 & F2 & F3 & F4 & F5). fold (td_nbytes t) in F5.
  assert (t_strides v = t_strides x) as Es by congruence. unfold trim. rewrite E1, E2, E4, E5, Es, F1, F2, F3, F5. cbn.
  do 2 f_equal. rewrite <-E4, E6, E4, <-Hl. unfold lenZ. by rewrite Nat2Z.id, firstn_all.
Qed.

Section run.
Context (unordered : gmap (list Z) (list Z) -> list (list Z * list Z)).
Context (unordered_perm : forall m, unordered m ≡ₚ map_to_list m).

Lemma exported_produced opts ns out b g o id : exported unordered opts ns out b g o -> id ∈ produced g o -> bw b !! id = None.
Proof.
  intros He Hin. pose proof (exported_out _ _ _ _ _ _ _ He) as [_ Hout]. pose proof (exported_ids _ _ _ _ _ _ _ He) as Hids.
  destruct He as [-> -> _ _]. unfold produced in Hin. cbn in Hin. apply elem_of_cons in Hin as [->|Hin]; [done|].
  apply list_elem_of_In, in_concat in Hin as (ids & Hin & Hid). apply in_map_iff in Hin as (n & <- & Hn).
  rewrite Forall_forall in Hids. destruct (Hids n (proj2 (list_elem_of_In _ _) Hn)) as [_ Ho]. rewrite Forall_forall in Ho.
  by apply Ho, list_elem_of_In.
Qed.

(** The entry of the input has the declared type and shape, whether or not it is also the output. *)
Lemma exported_input_entry opts ns out b g o : options_wf opts -> exported unordered opts ns out b g o ->
  lenZ (weight_layout o).1 < 2 ^ 64 ->
  exists tv, tv ∈ build_tvs g o /\ tv_id tv = 0 /\ tv_dtype tv = input_dtype opts /\ tv_shape tv = input_shape opts.
Proof.
  intros Hopts He Hb. pose proof (exported_wf _ unordered_perm _ _ _ _ _ _ Hopts He) as [_ _ Hout Hw Hsz].
  assert (find_tv (weight_table o) 0 = find_tv (input_table o) 0) as Hf.
  { destruct (weight_layout_located o Hsz) as [Hl Hids]. rewrite Forall_forall in Hl. unfold weight_table.
    apply find_weights.
    - rewrite Hids. apply weight_ids_nodup.
    - intros l Hlin. destruct (Hl l Hlin) as (? & -> & _). by eexists.
    - rewrite Hids, elem_of_weight_ids. intros [t Ht]. rewrite (ex_opts _ _ _ _ _ _ _ He) in Ht. cbn in Ht.
      destruct (exported_weight _ _ _ _ _ _ _ _ _ He Ht) as (_ & ? & _). lia. }
  destruct He as [-> -> _ _]. set (o := mkOpts _ _ _ _ _ _) in *. set (g := mkGraph _ _ _) in *.
  set (tv := mkTV 0 TS_Input (input_dtype opts) (input_shape opts) 0 0 0).
  assert (find_tv (input_table o) 0 = Some tv) as Hi.
  { unfold input_table, o, tv. cbn. unfold Format.declare_input. cbn. rewrite lookup_singleton_eq. done. }
  rewrite Hi in Hf. assert (exists tv', find_tv (mark_intermediate (weight_table o) (produced g o)) 0 = Some tv' /\
    tv_dtype tv' = input_dtype opts /\ tv_shape tv' = input_shape opts) as (tv' & Hm & E1 & E2).
  { rewrite find_mark. unfold entry. rewrite Hf. case_decide; by eexists. }
  apply find_tv_id in Hm as [Hid Hm]. exists tv'. rewrite build_tvs_phases. by rewrite merge_sort_Permutation.
Qed.

Lemma exported_checks opts ns out b g o impl lt : options_wf opts -> exported unordered opts ns out b g o ->
  lenZ (weight_layout o).1 < 2 ^ 64 -> i_graph impl = mkGraph (nodes g) (o_inputs o) (o_outputs o) ->
  index_tensor_values (build_tvs g o) = Ok (tensor_values_by_id impl) -> accepts opts lt ->
  check_inputs impl [lt] = Ok tt.
Proof.
  intros Hopts He Hb Hg Hidx Hacc. destruct (exported_input_entry _ _ _ _ _ _ Hopts He Hb) as (tv & Hin & Hid & Ed & Es).
  pose proof (exported_wf _ unordered_perm _ _ _ _ _ _ Hopts He) as [_ _ Hout Hw Hsz].
  pose proof (build_tvs_ok g o Hw Hsz Hb Hout) as [Hnd _]. pose proof (index_in _ _ tv Hidx Hnd Hin) as Hk. rewrite Hid in Hk.
  destruct (op_shape _ Hopts) as (_ & Hlen & _).
  destruct (check_input_accepts opts _ lt tv Hlen Hacc Hk Ed Es) as [u Hu]. unfold check_inputs. rewrite Hg.
  destruct He as [-> -> _ _]. revert Hu. destruct (tensor_values_by_id impl) as [|tv0 tvs]; [done|]. intros Hu.
  cbn [g_inputs o_inputs length Nat.eqb negb throw_if rbind zip zip_with rmapM]. by rewrite Hu.
Qed.

(** The constants of a loaded export are views of its weights, of all of them. *)
Lemma exported_constants memalign_ok is_op_supported opts ns out b g o bytes impl :
  options_wf opts -> exported unordered opts ns out b g o -> Format.save g o = Ok bytes -> lenZ bytes < 2 ^ 64 ->
  runtime_load memalign_ok is_op_supported bytes = Ok impl -> i_blob impl = (weight_layout o).1 ->
  exists cs, build_constants impl = Ok cs /\
    (forall id v, cs !! id = Some v -> exists t, bw b !! id = Some t /\ views v t) /\
    (forall id t, bw b !! id = Some t -> is_Some (cs !! id)).
Proof.
  intros Hopts He Hs Hb Hl Hblob. pose proof (exported_wf _ unordered_perm _ _ _ _ _ _ Hopts He) as Hwf.
  assert (weights o = bw b) as Ew by (by rewrite (ex_opts _ _ _ _ _ _ _ He)). pose proof Hwf as [_ _ _ _ Hsz].
  assert (forall id t, bw b !! id = Some t -> weight_wf t) as Hww.
  { intros id t Ht. by destruct (exported_weight _ _ _ _ _ _ _ _ _ He Ht) as (_ & _ & ? & _). }
  assert (forall id t, bw b !! id = Some t -> id ∉ produced g o) as Hnp.
  { intros id t Ht Hin. pose proof (exported_produced _ _ _ _ _ _ _ He Hin). congruence. }
  destruct (decide ((weight_layout o).1 = [])) as [Hnil|Hne].
  - assert (forall id t, bw b !! id = Some t -> False) as Hno.
    { intros id t Ht. destruct (saved_weight_entry g o id t Hwf) as (tv & _ & _ & _ & _ & _ & _ & _ & Hby);
        [by eapply saved_blob_small|by rewrite Ew|by eapply Hnp|].
      rewrite Hnil, drop_nil, take_nil in Hby. by destruct (Hww id t Ht) as (_ & _ & _ & _ & _ & Hn); rewrite <-Hby in Hn. }
    exists ∅. split; [unfold build_constants; rewrite Hblob, Hnil; cbn; by rewrite orb_true_r|].
    split; [intros id v Hv; by rewrite lookup_empty in Hv|]. intros id t Ht. destruct (Hno id t Ht).
  - destruct (saved_constants memalign_ok is_op_supported g o bytes impl Hwf) as (cs & Hcs & H1 & H2); [|done..|].
    { intros id t Ht. rewrite Ew in Ht. by destruct (Hww id t Ht) as (_ & _ & _ & ? & _). }
    rewrite Ew in *. exists cs. split; [done|]. split; [done|]. intros id t Ht. by eapply H2; [|eapply Hnp].
Qed.

(** The environment the simulation starts from. *)
Definition ideal_env (b : GraphBuilder) (x : Tensor) : gmap Z Tensor :=
  omap (fun t => match tensor_of t with Ok v => Some v | Err _ => None end) (bw b) ∪ {[ 0 := x ]}.

Lemma ideal_env_ok opts ns out b g o x cs : exported unordered opts ns out b g o ->
  (forall id v, cs !! id = Some v -> exists t, bw b !! id = Some t /\ views v t) ->
  (forall id t, bw b !! id = Some t -> is_Some (cs !! id)) ->
  holds tensor_of b (ideal_env b x) /\ ideal_env b x !! 0 = Some x /\
  trim <$> (cs ∪ {[ 0 := x ]}) = trim <$> ideal_env b x.
Proof.
  intros He Hcs Hall.
  assert (forall id t, bw b !! id = Some t -> weight_wf t /\ 1 <= id) as Hww.
  { intros id t Ht. by destruct (exported_weight _ _ _ _ _ _ _ _ _ He Ht) as (_ & ? & ? & _). }
  assert (forall t, weight_wf t -> exists v, tensor_of t = Ok v) as Htot.
  { intros t (_ & _ & _ & Hv & _). by apply from_blob_total. }
  assert (bw b !! 0 = None) as H0. { destruct (bw b !! 0) as [t|] eqn:E; [|done]. destruct (Hww 0 t E). lia. }
  unfold ideal_env. split; [|split].
  - intros id t Ht. destruct (Hww id t Ht) as [Hw _]. destruct (Htot t Hw) as [v Hv]. exists v. split; [done|].
    apply lookup_union_Some_l. rewrite lookup_omap, Ht. cbn. by rewrite Hv.
  - rewrite lookup_union_r; [apply lookup_singleton_eq|]. by rewrite lookup_omap, H0.
  - apply map_eq. intros id. rewrite !lookup_fmap, !lookup_union, lookup_omap.
    destruct (bw b !! id) as [t|] eqn:Et; cbn.
    + destruct (Hall id t Et) as [v Hv]. destruct (Hcs id v Hv) as (t' & Ht' & Hviews). assert (t' = t) as -> by congruence.
      destruct (Hww id t Et) as [Hw _]. pose proof Hw as (_ & _ & _ & Hval & Hsz & _).
      destruct (views_trim v t Hsz Hviews Hval) as (y & Hy & Htrim). rewrite Hv, Hy.
      by destruct ({[0 := x]} !! id); cbn; rewrite Htrim.
    + destruct (cs !! id) as [v|] eqn:Ev; [|done]. destruct (Hcs id v Ev) as (t & Ht & _). congruence.
Qed.

(** ** The contract *)

Context `{Kernels Tensor} (other : Z -> list Tensor -> OpAttributes -> result (list Tensor)) (to_lite : Tensor -> result LiteTensor).
Context (memalign_ok : Z -> Z -> bool) (is_op_supported : Z -> bool).
(** A kernel, and the copy to a [LiteTensor], read the bytes of a tensor and not those after it. *)
Context (run_local : forall k args, rmap (map trim) (run k args) = rmap (map trim) (run k (map trim args))).
Context (lite_local : forall t, to_lite (trim t) = to_lite t).
Context (all_supported : forall o, registered o = true -> is_op_supported (OpId.value o) = true).

Lemma exported_executes opts ns out b g o x cs f :
  exported unordered opts ns out b g o ->
  computes t_shape tensor_of other (after_input opts) ns b 0 out f ->
  (forall id v, cs !! id = Some v -> exists t, bw b !! id = Some t /\ views v t) ->
  (forall id t, bw b !! id = Some t -> is_Some (cs !! id)) ->
  (let* E := rfoldM (spec_node (run_op other t_shape)) ns (cs ∪ {[ 0 := x ]}) in
   let* y := env_get err_never E out in to_lite y) =
  (let* y := f x in to_lite y).
Proof.
  intros He Hc H1 H2. destruct (ideal_env_ok _ _ _ _ _ _ x cs He H1 H2) as (Hh & Hx & Htrim).
  specialize (Hc _ x Hh Hx).
  pose proof (spec_nodes_same trim t_shape other run_local (fun t => eq_refl) ns _ _
    ltac:(eapply Forall_impl; [exact (gr_nodes _ _ _ (ex_grown _ _ _ _ _ _ _ He))|]; by intros n [? _]) Htrim) as Hs.
  destruct (f x) as [y|e]; cbn [rbind].
  - destruct Hc as (E' & Hr & Hy & _). rewrite Hr in Hs. destruct (rfoldM _ ns (cs ∪ _)) as [E|]; [|done].
    injection Hs as HE. cbn [rbind]. pose proof (f_equal (fun E => E !! out) HE) as Ho. cbn in Ho. rewrite !lookup_fmap, Hy in Ho.
    unfold env_get. destruct (E !! out) as [y'|]; [|done]. cbn in *. injection Ho as Ho.
    rewrite <-(lite_local y'), <-(lite_local y). unfold trim in Ho |- *. congruence.
  - rewrite Hc in Hs. destruct (rfoldM _ ns (cs ∪ _)) as [E|]; [done|]. cbn in *. congruence.
Qed.

Lemma exported_runs opts ns out b g o bytes impl lt f :
  options_wf opts -> exported unordered opts ns out b g o ->
  computes t_shape tensor_of other (after_input opts) ns b 0 out f ->
  Format.save g o = Ok bytes -> lenZ bytes < 2 ^ 64 -> runtime_load memalign_ok is_op_supported bytes = Ok impl ->
  i_graph impl = mkGraph (nodes g) (o_inputs o) (o_outputs o) ->
  index_tensor_values (build_tvs g o) = Ok (tensor_values_by_id impl) -> i_blob impl = (weight_layout o).1 ->
  accepts opts lt ->
  Runtime.forward (run_op other t_shape) to_lite impl [lt] =
  (let* x := view_as_tensor lt in let* y := f x in let* out := to_lite y in Ok [out]).
Proof.
  intros Hopts He Hc Hs Hb Hl Hg Hidx Hblob Hacc.
  destruct (exported_constants _ _ _ _ _ _ _ _ _ _ Hopts He Hs Hb Hl Hblob) as (cs & Hcs & H1 & H2).
  pose proof (saved_blob_small _ _ _ Hs Hb) as Hsmall. unfold Runtime.forward.
  rewrite (exported_checks _ _ _ _ _ _ _ _ Hopts He Hsmall Hg Hidx Hacc), Hcs, Hg.
  pose proof (exported_ids _ _ _ _ _ _ _ He) as Hids. pose proof (exported_out _ _ _ _ _ _ _ He) as [Hout _].
  pose proof (fun x => exported_executes _ _ _ _ _ _ x cs f He Hc H1 H2) as Hx.
  assert (forall id v, cs !! id = Some v -> id_ok id /\ exists n, n ∈ ns /\ id ∈ input_ids n) as Hcid.
  { intros id v Hv. destruct (H1 id v Hv) as (t & Ht & _).
    by destruct (exported_weight _ _ _ _ _ _ _ _ _ He Ht) as (? & _ & _ & ?). }
  destruct He as [-> -> _ _]. cbn [nodes o_inputs o_outputs g_inputs is_nil]. rewrite andb_false_r. cbn [throw_if rbind].
  set (G := mkGraph ns [0] [out]). rewrite execute_spec.
  2: { unfold graph_ids_ok, G. cbn. rewrite !Forall_singleton. split; [|split; [unfold id_ok, INT16_MAX; lia|done]].
    eapply Forall_impl; [exact Hids|]. intros n [Hi Ho]. split; [done|]. eapply Forall_impl; [exact Ho|]. by intros id [? _]. }
  2: { intros id [v Hv]. by destruct (Hcid id v Hv). }
  unfold spec_execute. cbn [length g_inputs G Nat.eqb negb throw_if rbind rmapM].
  destruct (view_as_tensor lt) as [x|]; cbn [rbind]; [|done].
  assert (forallb (fun p => p.1 <=? max_tensor_id G) (map_to_list cs) = true) as ->.
  { apply forallb_forall. intros [id v] Hv%list_elem_of_In%elem_of_map_to_list. apply Z.leb_le.
    destruct (Hcid id v Hv) as (_ & n & Hn & Hin). destruct (max_tensor_id_ge G) as (_ & Hmax & _).
    rewrite Forall_forall in Hmax. destruct (Hmax n Hn) as [Hi _]. rewrite Forall_forall in Hi. by apply Hi. }
  cbn [negb throw_if rbind zip zip_with env_puts foldl fst snd nodes g_outputs G rmapM].
  specialize (Hx x). change (<[0:=x]> ∅) with ({[ 0 := x ]} : gmap Z Tensor).
  destruct (rfoldM _ ns _) as [E|]; cbn [rbind] in *.
  - rewrite Hx. by destruct (f x).
  - destruct (f x); cbn in *; [|congruence]. by rewrite <-Hx.
Qed.


End run.

(** ** A module, exported, saved, loaded and run

    A kernel that returns its last operand: a layer with parameters then
    returns its last parameter. *)

Definition last_operand (k : Kernel) (args : list Tensor) : result (list Tensor) :=
  match last args with Some t => Ok (replicate (outputs k) t) | None => Err UndefinedBehaviour end.

Lemma last_operand_outputs k args outs : last_operand k args = Ok outs -> length outs = outputs k.
Proof. unfold last_operand. destruct (last args); [|done]. intros <-%Ok_inj. apply length_replicate. Qed.

#[local] Instance last_operand_kernels : Kernels Tensor := {| run := last_operand; run_outputs := last_operand_outputs |}.

Definition no_other (_ : Z) (_ : list Tensor) (_ : OpAttributes) : result (list Tensor) := Err UndefinedBehaviour.

Definition copy_out (t : Tensor) : result LiteTensor :=
  to_lite_tensor (fun _ => true) (t_shape t) (t_dtype t) (take (Z.to_nat (t_size_bytes t)) (default [] (t_data t))).

Lemma trim_trim t : trim (trim t) = trim t.
Proof.
  unfold trim. cbn. f_equal. destruct (t_data t) as [d|]; [|done]. cbn. f_equal. rewrite take_take. f_equal. lia.
Qed.

Lemma last_operand_local k args :
  rmap (map trim) (last_operand k args) = rmap (map trim) (last_operand k (map trim args)).
Proof.
  unfold last_operand. assert (last (map trim args) = trim <$> last args) as -> by (apply fmap_last).
  destruct (last args) as [t|]; [|done]. cbn. f_equal. change (trim <$> replicate (outputs k) t = trim <$> replicate (outputs k) (trim t)).
  by rewrite !fmap_replicate, trim_trim.
Qed.

Lemma copy_out_local t : copy_out (trim t) = copy_out t.
Proof.
  unfold copy_out, trim. cbn. f_equal. destruct (t_data t) as [d|]; cbn; [|done]. rewrite take_take. f_equal. lia.
Qed.

(** A weight of two floats and a bias of one, then a normalization of the epsilon and a pool. *)
Definition sample_params : Params :=
  mkParams {[ "weight" := mkTensorData 0 [1; 2] [0; 0; 128; 63; 0; 0; 0; 64]; "bias" := mkTensorData 0 [1] [0; 0; 64; 64] ]} ∅.

Definition sample_module : Module_ :=
  Sequential [Leaf sample_params (Linear true); Leaf (mkParams ∅ ∅) ReLU; Leaf (mkParams ∅ ∅) Dropout;
              Leaf sample_params (GroupNorm 1 (literal 1 100000))].

Definition sample_options : ExportOptions := mkExport [1; 2] 0 (chars "cpu") ∅.
Definition sample_export : list Z := bytes_or_nil (export_to_tzlite map_to_list sample_module sample_options).
Definition sample_lite_input : LiteTensor := mkLT (Some [0; 0; 0; 0; 0; 0; 0; 0]) (pad8 [1; 2]) (pad8 [2; 1]) 2 0 true.

Lemma sample_params_wf : params_wf sample_params.
Proof.
  split; [|exact (map_Forall_empty _)].
  assert (weight_wf (mkTensorData 0 [1; 2] [0; 0; 128; 63; 0; 0; 0; 64]) /\ weight_wf (mkTensorData 0 [1] [0; 0; 64; 64])) as [? ?].
  { unfold weight_wf, tensor_valid. cbn [td_dtype td_shape td_bytes]. rewrite !Forall_cons, !Forall_nil. unfold byte, s64.
    repeat split; try done; try (vm_compute; done); lia. }
  apply map_Forall_insert_2; [done|]. by apply map_Forall_singleton.
Qed.

Lemma sample_module_wf : module_wf sample_module.
Proof.
  assert (params_wf (mkParams ∅ ∅)) as H0 by (split; exact (map_Forall_empty _)).
  pose proof sample_params_wf as H1.
  assert (layer_wf sample_params (GroupNorm 1 (literal 1 100000))) as H2.
  { split; [done|]. split; [|done]. apply Forall_singleton. unfold s64. lia. }
  unfold sample_module. cbn [module_wf foldr]. repeat (split; [exact H2 || by split|]). done.
Qed.

Lemma sample_options_wf : options_wf sample_options.
Proof.
  unfold sample_options. split; cbn [input_shape input_dtype].
  - split; [done|]. split; [done|]. rewrite !Forall_cons, Forall_nil. unfold s64. lia.
  - unfold byte. lia.
  - split; [by vm_compute|]. apply (bool_decide_unpack _). by vm_compute.
Qed.

Lemma sample_exported : export_to_tzlite map_to_list sample_module sample_options = Ok sample_export.
Proof. vm_compute. reflexivity. Qed.


End ExportClient.
